(* ===== verification/_CoqProject ===== *)
-Q . S2P
Prelude.v
VersionTypes.v
VersionSmall.v
Version.v
VersionFacts.v
VersionParser.v
ParserFacts.v
RoundTrip.v
ParserSafe.v
VersionOps.v
VersionTheorems.v
Specifier.v
SpecifierFacts.v
Ranges.v
SpecifierParse.v
RangesFacts.v
SpecifierTheorems.v
RangesTheorems.v
Names.v
NamesTheorems.v
CacheKey.v
Text.v
PlatformTags.v
PlatformTagsFacts.v
Tags.v
TagsTheorems.v
Filename.v
FilenameTheorems.v
RangeSet.v
Cuts.v
Tiling.v
MarkerTypes.v
MarkerAlgebra.v
MarkerEval.v
MarkerWf.v
MarkerEdges.v
MarkerExpr.v
MarkerOps.v
MarkerVersions.v
MarkerTree.v
MarkerTreeFacts.v
MarkerPython.v
MarkerProject.v
MarkerTheorems.v
MarkerExamples.v
MarkerDnf.v
MarkerDnfTheorems.v
Cursor.v
MarkerParse.v
MarkerParseFacts.v
MarkerFormula.v
MarkerParseTheorems.v
MarkerRoundTrip.v
UrlText.v
Requirement.v
Unnamed.v
RequirementRoundTrip.v
RequirementSafe.v
RequirementTheorems.v
HttpControl.v
HttpCache.v
HttpCacheFacts.v
HttpCacheTheorems.v
CachedClient.v
CachedClientFacts.v
CachedClientTheorems.v
PrioritizedDist.v
OrderedMap.v
PrioritizedDistTheorems.v
PythonRange.v
PythonRangeTheorems.v
VersionMap.v
VersionMapTheorems.v
CandidateSelector.v
CandidateFacts.v
CandidateTheorems.v
OnceMap.v
RequirementsTxt.v
RequirementsTxtTheorems.v
PythonDiscovery.v
