(* ===== verification/Prelude.v ===== *)
(** * Verification of the core of uv

    uv is a Python package manager written in Rust. This library verifies the code
    that the rest of it relies on: reading, comparing and matching versions, names,
    markers, requirements and tags ([uv-pep440], [uv-normalize], [uv-pep508],
    [uv-platform-tags], [uv-distribution-filename], [uv-cache-key]), the cache of
    the network client ([uv-client]), the distributions of a version
    ([uv-distribution-types]), the part of the resolver that turns indexes into
    candidates ([uv-resolver]), the map on which concurrent tasks wait for each other's
    results ([uv-once-map]), the reader of requirements files
    ([uv-requirements-txt]), and the requests for a Python interpreter ([uv-python]). Paths below are under [src/crates/].

    ** The program

    - [uv-pep440/src/version.rs]: [Version] is either one packed 64-bit word
      ([VersionSmall]) or a record ([VersionFull]); its setters switch from the
      first to the second when a value does not fit. [Parser] reads versions and
      version patterns, first with a fast path that packs dotted numbers
      directly. Ordering compares two packed words as integers and everything
      else component by component; equality and hashing go with the order.
    - [uv-pep440/src/version_specifier.rs]: an operator and a version, parsed
      with the [unscanny] scanner, built from a pattern, printed, matched against
      a version; lists of them kept sorted by version; the bounding pair of a
      [~=] specifier.
    - [uv-pep440/src/version_ranges.rs]: the translation of specifiers to the
      interval sets of the [version-ranges] crate, for the resolver (all
      versions) and for [requires-python] (release-only versions), and the
      ordered lower and upper bounds.
    - [uv-normalize/src]: validation and normalization of names, [.dist-info]
      names and pip groups.
    - [uv-cache-key/src/cache_key.rs]: the sequence of writes a value makes to
      the hasher.
    - [uv-platform-tags/src]: language, ABI and platform tags with their syntax;
      [Tags], the index from tags to priorities, built from a list of preferences
      that [Tags::from_env] computes for an interpreter and an operating system.
    - [uv-distribution-filename/src]: wheel file names with compressed tag sets,
      the expanded tags of a [WHEEL] file, source distribution file names.
    - [uv-pep508/src/marker]: a marker is a reduced, ordered decision diagram with
      complemented edges. [algebra.rs] keeps all nodes in one interner, with a
      unique table, a memo table of conjunctions and the disjunction of the
      platform conditions that exclude each other; [tree.rs] has the expressions
      markers are made of and evaluates diagrams; [simplify.rs] turns them into
      disjunctive normal forms to print them; [parse.rs] reads them from a
      [Cursor].
    - [uv-pep508/src/lib.rs], [unnamed.rs], [verbatim_url.rs]: requirements, named
      and unnamed, with their extras, specifiers or URL, and marker.
    - [uv-client/src/httpcache]: [Cache-Control] headers and cache policies as RFC
      9111 has them. [cached_client.rs]: a request is answered from the cache file,
      revalidated, or sent; what is fetched is written to the file; a broken file is
      removed and the request sent again; transient failures are retried.
    - [uv-distribution-types/src/prioritized_distribution.rs]: the wheels and the
      source distribution of a version, ranked by compatibility, with the markers of
      the environments they support. [requires_python.rs]: the range of Python
      versions of a project.
    - [uv-resolver/src/version_map.rs], [flat_index.rs]: the versions of a package in
      an index; the distributions of a version are made when it is first asked for.
      [candidate_selector.rs], [preferences.rs], [prerelease.rs], [fork_map.rs]: the
      version the resolver tries next.
    - [uv-once-map/src/lib.rs]: a task registers a job, does it and submits its result;
      other tasks wait for it.
    - [uv-requirements-txt/src]: entries, options, hashes and comments of a
      requirements file, and the files it includes, as requirements or as constraints.
      [uv-configuration/src/build_options.rs], [name_specifiers.rs]: what may be built,
      and what may be installed as a wheel.
    - [uv-python/src/discovery.rs], [python_version.rs]: requests for a Python by version,
      implementation or path, which interpreters satisfy them, and the choice of one
      among the installations that are found.

    How they interact: specifiers call the version parser and the order; ranges call
    the setters of versions; cache keys read the accessors of versions. File names are
    made of names, versions and tags, and ask [Tags] whether they can be installed.
    Markers branch on ranges of versions and strings, built from specifiers by the
    translation to release-only ranges; the marker parser builds diagrams in the
    interner. The files of a version give a prioritized distribution, whose marker
    lives in the interner and whose wheels are matched with the tags and the Python
    range; version maps hold these distributions in cells that are set once; the
    selector searches the maps in order of versions. A requirements file is a list of
    pieces that the parser of requirements reads.

    ** The files

    - [Prelude]: results, machine integers, byte strings, the [Ord] class with
      its laws, tactics, generic lemmas and bit fields of a word.
    - Versions: [VersionTypes] (operators, pre-release kinds, local segments),
      [VersionSmall] (the packed word, one definition per method of the source),
      [Version] (both representations, accessors, setters, [bump], order, hash,
      [Display]) and [VersionParser] (one definition per method) are the model.
      [VersionFacts] ([value]: the abstract version both representations stand
      for; the order), [ParserFacts] (with the fast path), [RoundTrip],
      [ParserSafe] (triples for the parser, wildcard patterns), [VersionOps], and
      [VersionTheorems], the contract of versions.
    - Specifiers: [Specifier] (the model), [SpecifierFacts], [SpecifierParse],
      [SpecifierTheorems]; [Ranges] (the model and the interface to the interval
      sets), [RangesFacts], [RangesTheorems].
    - [Names] and [NamesTheorems]; [CacheKey], model and theorems.
    - [Text] (methods of [str], and the interface to [memchr]), [PlatformTags]
      (tags, one definition per branch of [FromStr]), [PlatformTagsFacts], [Tags]
      (index, compatibility, tags of an environment) and [TagsTheorems];
      [Filename] (wheels, expanded tags, source distributions) and
      [FilenameTheorems].
    - [RangeSet] (the interface to the interval sets as markers use them), [Cuts] (an
      executable implementation with the laws) and [Tiling] (partitions of the values
      of a variable by the edges of a node).
    - Markers: [MarkerTypes] (keys, operators, expressions, environments),
      [MarkerAlgebra] (the interner and every operation on it), [MarkerTree]
      (evaluation, extras) and [MarkerDnf] (normal forms and printing) are the
      model. [MarkerEval] (the value of a node in an environment), [MarkerWf] (the
      invariant of the interner and the calculus of its operations), [MarkerEdges]
      (edges and conjunction), [MarkerExpr], [MarkerOps], [MarkerVersions],
      [MarkerTreeFacts] (evaluation, fuel, variables), [MarkerPython], [MarkerProject]
      say what each operation does; [MarkerTheorems], [MarkerExamples] and
      [MarkerDnfTheorems] are the contract.
    - Parsing of markers: [Cursor] (cursors, spans, results, and their lemmas),
      [MarkerParse] (the parser, over an interface to the operations on trees),
      [MarkerParseFacts] (safety, over any builder with [MarkerBuilderLaws]; the
      simulation between two builders),
      [MarkerFormula] (formulas as trees), [MarkerParseTheorems], [MarkerRoundTrip].
    - Requirements: [UrlText] (schemes, hosts, fragments, environment variables),
      [Requirement] and [Unnamed] are the model; [RequirementRoundTrip],
      [RequirementSafe], [RequirementTheorems].
    - HTTP cache: [HttpControl] and [HttpCache] (the model), [HttpCacheFacts],
      [HttpCacheTheorems]; [CachedClient] (the model), [CachedClientFacts],
      [CachedClientTheorems].
    - Distributions: [PrioritizedDist] (implied markers and the ranking of files) and
      [PrioritizedDistTheorems]; [PythonRange] and [PythonRangeTheorems].
    - Resolver: [OrderedMap] ([BTreeMap] and its lemmas), [VersionMap] (the model, with
      the store of cells) and [VersionMapTheorems]; [CandidateSelector] (the model),
      [CandidateFacts] (the loop and the order of the search), [CandidateTheorems].
    - [OnceMap], model and theorems; [RequirementsTxt] (the model) and
      [RequirementsTxtTheorems].
    - [PythonDiscovery], model and theorems.

    Definitions keep the names of the source, with the type in front where two
    types share a method name ([LowerBound_contains], [spec_from_str]), or in a
    module of the type's name ([PrioritizedDist.get], [VersionMap.iter]).

    ** Conventions

    - A [u8], [u16], [u64] or [usize] is an [N]. Arithmetic wraps as in the release
      profile of the workspace ([u64_add]); debug assertions are off; [checked_*]
      and [saturating_*] operations are written out. Times are seconds in [Z].
    - A [str] is the list of its UTF-8 bytes where the code works on bytes
      (versions, names, tags, file names, headers), and a list of code points
      ([text]) where it works on characters (specifiers, markers, requirements).
    - [Result] is [result]. A panic (an index out of range, a failed [assert!],
      [unwrap] or [expect], a slice inside a character) is a value: [None] for
      functions that otherwise cannot fail, the extra error [Panic] or the outcome
      [Panicked] for those that return a [Result]. So "never panics" is a theorem,
      and a silent default is never used.
    - Shared ownership ([Arc]) has value semantics: [make_full] clones before it
      writes, so no alias is ever visible. Where sharing is visible it is modelled:
      the interner, which is global and behind a lock, is the state of the type
      [act], a state in, a result and a state out, or [None] for a panic; the cells
      ([OnceLock]) of the version maps are part of a [Store] next to the interner.
    - The caching client runs on a [World]: the cache file, the requests sent, the
      file operations done, the ticks of the clock. The server, the clock, the faults
      of the file system and the callback are functions that the theorems quantify
      over. Writing the file is three operations, each of which may meet a fault: a
      temporary file is made, written, and renamed.
    - Concurrent calls on a [OnceMap] are tasks: each does one operation on the map or on
      a notification at a time ([task_step]), in any interleaving ([step]).
    - Paths, files and URLs of requirements files are those of a [Host]; those of Python
      requests, and the keys of downloads, of a [DiscoveryHost].
    - Traits are classes: [Ord] with [OrdLaws], [CacheKey] with [PrefixFree],
      [Pep508Url], [Cacheable], [MarkerBuilder] (the operations on trees that the
      parser calls, implemented by the interner and by formulas).
      Code outside the repository is a class with laws: [Scanner] and [TxtScanner] for
      [unscanny],
      [Ranges] and [RangeSet] for [version-ranges], [AsSingleton] for its singletons,
      [Memchr] for [memchr], header maps and dates for [http] and [jiff], [StatusErrors]
      for the errors of [reqwest], [KMerge] for [itertools], [DashMap] and [Notify] for
      the map and the notifications of [OnceMap]. Each has an executable instance, so the theorems apply to
      something. [to_lowercase], the Unicode case folding of the FreeBSD release, is
      a parameter without laws. The hash function itself does not appear: a hasher
      is the list of the writes it received.
    - Loops over the input are structural recursions where the source iterates
      over a slice. Other loops take fuel, and running out of it would be a panic, so
      the theorems on safety show that it is enough: the length of the input plus one
      for the version parser, the marker parser and the [Cache-Control] parser, each
      of whose iterations consumes a character; the positions of the nodes for the
      recursion on diagrams ([fuel_for], [tree_fuel]), since children are created
      before their parents; one more than the largest number of retries for the retry
      loops; the length of the content plus one for the entries of a requirements file,
      each of which consumes a character. The depth of inclusions is bounded by twice
      the number of files, and has an outcome of its own ([F_deep]).

    ** What the theorems show

    - Versions: the fast path equals the general parser on every input; parsing
      is total, never panics, and returns well-formed versions; printing and
      parsing are mutually inverse; the packed word refines the record under every
      setter, and integer comparison of packed words is the component-wise order.
    - Specifiers and ranges: parsing never panics and yields sorted specifiers on
      which matching cannot panic; printing round-trips; a range contains what the
      specifiers match wherever the translation is exact.
    - Names, tags and file names: normalization equals the packaging
      specification's reference on names that are not empty; the compatibility of a wheel is the best rank among
      its tags; wheel file names survive printing and parsing.
    - Markers: along every run of operations without [complexify_python_versions] the
      table is a reduced ordered diagram with interned nodes; along runs with it, and
      without the projections of extras, it is so but for the order; the one operation
      that panics is the expression [~=] on a string. Conjunction is the
      Boolean one on all environments a platform can have, and terminates; evaluation
      computes the value of the diagram; simplification under Python bounds can be
      undone. A parsed marker holds exactly where the formula it was written as
      does, for final releases and where the rewriting of [python_version] is exact; the
      text printed for a normal form reads back, if no value has a quote and no name is
      invalid; parsing ASCII text on the interner never panics and its errors can be
      displayed, if no expression in it is one that cannot be built.
    - Requirements: a printed requirement is read back, its URL as the parser of URLs
      reads the printed text; parsing is safe, on the interner and under the conditions
      that its theorem names.
    - HTTP cache: [before_request] decides as RFC 9111 says, on definitions taken from
      the RFC, in all cases but three, in which it deviates; freshness runs out and is
      never overstated; revalidation believes only matching validators;
      [Cache-Control] is read as its grammar writes it. The client's cache is
      genuine in every world that calls lead to, a call returns and asks at most
      twice, what was fetched is not asked for again while it is fresh, cache files
      round-trip and retrying terminates.
    - Distributions: the ranking of files is an invariant of every operation, the
      choice is the best one and never fails an assertion; the marker of a Python
      range holds exactly in the range; no wheel that a Python of the range can use
      is dropped, if the upper bound has at most three segments.
    - Resolver: a lazy version map answers as if everything had been computed in
      advance, from the files of the version asked for; the search finds the best
      allowed version over one or all indexes; the
      chosen candidate is legitimate, and the choice never panics.
    - Tasks: however calls interleave on a map from which nothing is removed, no wait
      panics or returns a value that nobody submitted, and none is left behind once its
      key is filled.
    - Requirements files: parsing readable files never panics, and errors point into the
      file they name; circular inclusions end.
    - Python requests: canonical strings are read back; reading never panics on ASCII
      digits; the loop over installations returns the first to which nothing objects,
      or falls back in a fixed order, when the errors of the search are critical.

    Other theorems, on orders, bumps, bounds, cache keys, expressions, extras and the
    like, are lemmas in the same files. Some lemmas state a defect of the code:
    [saturated_dev_breaks_hash], [lt_post_range_drops_final],
    [tilde_bounding_loses_epoch], [illumos_tag_unmatched],
    [expanded_compatibility_mixes_lines], [sdist_filename_panics],
    [exclusions_pollute_cache], [complexify_not_canonical],
    [python_star_negation_lost], [python_list_collapses],
    [invalid_list_marker_false], [platform_order_rewritten],
    [star_range_keeps_zeros], [parse_markers_panics], [requirement_defects],
    [http_cache_defects], [cached_client_defects], [implied_markers_too_narrow],
    [prioritized_defects_run], [requires_python_defects_run],
    [local_flag_ignores_flat], [remove_defects], [inclusion_diverges],
    [none_does_not_reset], [version_request_defects], [prefilter_rules_out],
    [best_match_looks_further], [rfc_deviations], [noncritical_errors_passed_over],
    [quote_not_read_back].

    ** Not modelled

    The [serde] and [rkyv] implementations and the texts of error messages (pure
    plumbing over the functions modelled here), the small-string and [Arc]
    optimisations (no observable behaviour). In the crates above: the human
    readable names and classifying predicates of tags, the printed list of tags,
    extension detection on paths, source distribution names without a known
    package, [.egg-info] names and the digest of long wheel names; of markers, the
    debug output; of [uv-client], the registry and the middleware; of
    [uv-distribution-types], installed distributions and display messages; of
    [uv-resolver], the solver loop (which drives the [pubgrub] crate), the lock file
    and the error reports; of [uv-requirements-txt], the warnings for options that are
    not supported; of [uv-python], executable names, querying interpreters and
    downloads. The commands, workspaces, interpreters, builds and the
    installer are input and output around these crates. *)

From Stdlib Require Import Ascii String.
From stdpp Require Import base numbers list strings.

(** ** Scope and basic types

    A [u8], [u16], [u64] or [usize] value is an [N]; the functions below keep
    it inside its width the way the release profile of the crate does
    (arithmetic wraps, [checked_*] returns [None]). A byte slice or a [str] is
    the list of its bytes. *)

Declare Scope uv_scope.
Delimit Scope uv_scope with uv.

#[global] Open Scope N_scope.
#[global] Open Scope list_scope.

Abbreviation bytes := (list N).

Definition bs (s : string) : bytes := map N_of_ascii (list_ascii_of_string s).

(** ** Fallible computations: [Result<A, E>] *)

Inductive result (A E : Type) : Type :=
| Ok (a : A)
| Err (e : E).
Arguments Ok {A E} a.
Arguments Err {A E} e.

Definition rbind {A B E} (m : result A E) (k : A -> result B E) : result B E :=
  match m with
  | Ok a => k a
  | Err e => Err e
  end.

Definition rmap {A B E} (f : A -> B) (m : result A E) : result B E :=
  match m with
  | Ok a => Ok (f a)
  | Err e => Err e
  end.

Definition map_err {A E F} (f : E -> F) (m : result A E) : result A F :=
  match m with
  | Ok a => Ok a
  | Err e => Err (f e)
  end.

Definition ok_or {A E} (m : option A) (e : E) : result A E :=
  match m with
  | Some a => Ok a
  | None => Err e
  end.

Definition is_ok {A E} (m : result A E) : bool :=
  match m with
  | Ok _ => true
  | Err _ => false
  end.

Lemma Ok_inj {A E} (a b : A) : @Ok A E a = Ok b -> a = b.
Proof. by intros [= ->]. Qed.

Notation "'let?' x := m 'in' k" := (rbind m (fun x => k))
  (at level 10, x name, m at level 100, k at level 200) : uv_scope.
Notation "'let?' ' p := m 'in' k" := (rbind m (fun x => match x with p => k end))
  (at level 10, p pattern, m at level 100, k at level 200) : uv_scope.

(** ** Machine integers *)

Definition u8_MAX : N := 255.
Definition u16_MAX : N := 65535.
Definition u64_MAX : N := 18446744073709551615.

Definition fits64 (n : N) : bool := n <=? u64_MAX.

(** [a + b], [a << k], [!a] and [a & b] on [u64]. *)
Definition u64_add (a b : N) : N := (a + b) mod 2 ^ 64.
Definition u64_shl (a k : N) : N := N.land (N.shiftl a k) (N.ones 64).
Definition u64_not (a : N) : N := N.lxor a (N.ones 64).

(** [a.checked_add(b)], [a.checked_mul(b)] at a width with maximum [m], and
    [a.checked_sub(b)]. *)
Definition checked_add (m a b : N) : option N := if a + b <=? m then Some (a + b) else None.
Definition checked_mul (m a b : N) : option N := if a * b <=? m then Some (a * b) else None.
Definition checked_sub (a b : N) : option N := if b <=? a then Some (a - b) else None.

(** ** ASCII classification of a byte *)

Definition is_ascii_digit (b : N) : bool := (48 <=? b) && (b <=? 57).
Definition is_ascii_lowercase (b : N) : bool := (97 <=? b) && (b <=? 122).
Definition is_ascii_uppercase (b : N) : bool := (65 <=? b) && (b <=? 90).
Definition is_ascii_alphabetic (b : N) : bool := is_ascii_lowercase b || is_ascii_uppercase b.
Definition is_ascii_alphanumeric (b : N) : bool := is_ascii_alphabetic b || is_ascii_digit b.

(** Space, tab, line feed, form feed and carriage return. *)
Definition is_ascii_whitespace (b : N) : bool :=
  (b =? 32) || (b =? 9) || (b =? 10) || (b =? 12) || (b =? 13).

Definition to_ascii_lowercase (b : N) : N := if is_ascii_uppercase b then b + 32 else b.
Definition to_ascii_uppercase (b : N) : N := if is_ascii_lowercase b then b - 32 else b.
Definition eq_ignore_ascii_case (a b : N) : bool := to_ascii_lowercase a =? to_ascii_lowercase b.

(** ** The decimal [Display] of an unsigned integer *)

Fixpoint digits_aux (fuel : nat) (n : N) (acc : bytes) : bytes :=
  match fuel with
  | O => acc
  | S fuel' =>
      let acc' := (48 + n mod 10) :: acc in
      if n <? 10 then acc' else digits_aux fuel' (n / 10) acc'
  end.

(** Twenty digits are enough for every value below [10 ^ 20 > 2 ^ 64]. *)
Definition show_u64 (n : N) : bytes := digits_aux 20 n [].

(** ** Orderings

    [Ord] is Rust's [Ord::cmp]; [OrdLaws] is its contract: a total preorder,
    whose equality is compatible with the comparison. *)

Class Ord (A : Type) := cmp : A -> A -> comparison.

Definition then_with (c d : comparison) : comparison :=
  match c with
  | Eq => d
  | Lt => Lt
  | Gt => Gt
  end.

Class OrdLaws (A : Type) {O : Ord A} : Prop := {
  cmp_opp : forall x y : A, cmp y x = CompOpp (cmp x y);
  cmp_eq_l : forall x y z : A, cmp x y = Eq -> cmp x z = cmp y z;
  cmp_lt_trans : forall x y z : A, cmp x y = Lt -> cmp y z = Lt -> cmp x z = Lt
}.

(** Comparing images, pairs, options and slices. *)
Definition cmp_by {A B} `{Ord B} (f : A -> B) : Ord A := fun x y => cmp (f x) (f y).

#[export] Instance N_ord : Ord N := N.compare.

#[export] Instance prod_ord {A B} `{Ord A, Ord B} : Ord (A * B) :=
  fun x y => then_with (cmp (fst x) (fst y)) (cmp (snd x) (snd y)).

#[export] Instance option_ord {A} `{Ord A} : Ord (option A) :=
  fun x y =>
    match x, y with
    | None, None => Eq
    | None, Some _ => Lt
    | Some _, None => Gt
    | Some a, Some b => cmp a b
    end.

#[export] Instance list_ord {A} `{Ord A} : Ord (list A) :=
  fix go x y :=
    match x, y with
    | [], [] => Eq
    | [], _ :: _ => Lt
    | _ :: _, [] => Gt
    | a :: x', b :: y' => then_with (cmp a b) (go x' y')
    end.

(** Rust's comparison operators, derived from [cmp]. *)
Definition cmp_eqb {A} `{Ord A} (x y : A) : bool := match cmp x y with Eq => true | _ => false end.
Definition cmp_ltb {A} `{Ord A} (x y : A) : bool := match cmp x y with Lt => true | _ => false end.
Definition cmp_leb {A} `{Ord A} (x y : A) : bool := match cmp x y with Gt => false | _ => true end.
Definition cmp_gtb {A} `{Ord A} (x y : A) : bool := match cmp x y with Gt => true | _ => false end.
Definition cmp_geb {A} `{Ord A} (x y : A) : bool := match cmp x y with Lt => false | _ => true end.

(** ** Tactics *)

(** Turns boolean tests in the context into the propositions they decide. *)
Ltac bool_to_prop :=
  repeat match goal with
  | H : (_ <=? _) = true |- _ => apply N.leb_le in H
  | H : (_ <=? _) = false |- _ => apply N.leb_gt in H
  | H : (_ <? _) = true |- _ => apply N.ltb_lt in H
  | H : (_ <? _) = false |- _ => apply N.ltb_ge in H
  | H : (_ =? _) = true |- _ => apply N.eqb_eq in H
  | H : (_ =? _) = false |- _ => apply N.eqb_neq in H
  | H : _ && _ = true |- _ => apply andb_true_iff in H as [? ?]
  | H : _ || _ = false |- _ => apply orb_false_iff in H as [? ?]
  | H : negb _ = true |- _ => apply negb_true_iff in H
  | H : negb _ = false |- _ => apply negb_false_iff in H
  end.

(** [lia] with division and remainder by constants. *)
Ltac div_lia := zify; Z.to_euclidean_division_equations; lia.

(** Case analysis on the condition of every [if] and every [match] of the goal. *)
Ltac split_ifs := repeat (case_match; simplify_eq/=); bool_to_prop.

(** ** The order laws *)

Section order_lemmas.
Context {A : Type} `{OrdLaws A}.

Lemma cmp_refl (x : A) : cmp x x = Eq.
Proof. pose proof (cmp_opp x x) as E. destruct (cmp x x); done. Qed.

Lemma cmp_eq_sym (x y : A) : cmp x y = Eq -> cmp y x = Eq.
Proof. intros E. by rewrite cmp_opp, E. Qed.

Lemma cmp_eq_r (x y z : A) : cmp x y = Eq -> cmp z x = cmp z y.
Proof. intros E. rewrite (cmp_opp x z), (cmp_opp y z). by rewrite (cmp_eq_l x y z E). Qed.

Lemma cmp_gt_lt (x y : A) : cmp x y = Gt <-> cmp y x = Lt.
Proof. rewrite (cmp_opp x y). destruct (cmp x y); naive_solver. Qed.

Lemma cmp_trans (c : comparison) (x y z : A) : cmp x y = c -> cmp y z = c -> cmp x z = c.
Proof.
  destruct c; intros E1 E2.
  - by rewrite (cmp_eq_l x y z E1).
  - by eapply cmp_lt_trans.
  - apply cmp_gt_lt in E1, E2. apply cmp_gt_lt. by eapply cmp_lt_trans.
Qed.

Lemma cmp_le_trans (x y z : A) : cmp x y <> Gt -> cmp y z <> Gt -> cmp x z <> Gt.
Proof.
  intros E1 E2. destruct (cmp x y) eqn:Exy; [|destruct (cmp y z) eqn:Eyz|]; try done.
  - by rewrite (cmp_eq_l x y z Exy).
  - by rewrite <- (cmp_eq_r y z x Eyz), Exy.
  - by rewrite (cmp_lt_trans x y z Exy Eyz).
Qed.

Lemma cmp_lt_le_trans (x y z : A) : cmp x y = Lt -> cmp y z <> Gt -> cmp x z = Lt.
Proof.
  intros E1 E2. destruct (cmp y z) eqn:Eyz; try done.
  - by rewrite <- (cmp_eq_r y z x Eyz).
  - by eapply cmp_lt_trans.
Qed.

Lemma cmp_le_lt_trans (x y z : A) : cmp x y <> Gt -> cmp y z = Lt -> cmp x z = Lt.
Proof.
  intros E1 E2. destruct (cmp x y) eqn:Exy; try done.
  - by rewrite (cmp_eq_l x y z Exy).
  - by eapply cmp_lt_trans.
Qed.

Lemma cmp_leb_trans (x y z : A) :
  cmp_leb x y = true -> cmp_leb y z = true -> cmp_leb x z = true.
Proof.
  unfold cmp_leb. intros E1 E2. pose proof (cmp_le_trans x y z) as T.
  destruct (cmp x y), (cmp y z), (cmp x z); naive_solver.
Qed.

Lemma cmp_geb_leb (x y : A) : cmp_geb x y = cmp_leb y x.
Proof. unfold cmp_geb, cmp_leb. rewrite (cmp_opp x y). by destruct (cmp x y). Qed.

Lemma cmp_gtb_ltb (x y : A) : cmp_gtb x y = cmp_ltb y x.
Proof. unfold cmp_gtb, cmp_ltb. rewrite (cmp_opp x y). by destruct (cmp x y). Qed.

Lemma cmp_ltb_leb (x y : A) : cmp_ltb x y = negb (cmp_leb y x).
Proof. unfold cmp_ltb, cmp_leb. rewrite (cmp_opp x y). by destruct (cmp x y). Qed.
End order_lemmas.

Lemma cmp_by_laws {A B} `{OrdLaws B} (f : A -> B) : @OrdLaws A (cmp_by f).
Proof.
  split; intros x y.
  - apply (cmp_opp (f x) (f y)).
  - intros z. apply (cmp_eq_l (f x) (f y) (f z)).
  - intros z. apply (cmp_lt_trans (f x) (f y) (f z)).
Qed.

#[export] Instance N_ord_laws : OrdLaws N.
Proof.
  split; unfold cmp, N_ord; intros.
  - apply N.compare_antisym.
  - apply N.compare_eq_iff in H. by subst.
  - rewrite N.compare_lt_iff in *. lia.
Qed.

Lemma then_with_opp c d : CompOpp (then_with c d) = then_with (CompOpp c) (CompOpp d).
Proof. by destruct c. Qed.

Lemma then_with_assoc a b c : then_with (then_with a b) c = then_with a (then_with b c).
Proof. by destruct a. Qed.

Lemma then_with_eq c d : then_with c d = Eq <-> c = Eq /\ d = Eq.
Proof. destruct c; naive_solver. Qed.

Lemma then_with_lt c d : then_with c d = Lt <-> c = Lt \/ (c = Eq /\ d = Lt).
Proof. destruct c; naive_solver. Qed.

Lemma prod_cmp {A B} `{Ord A, Ord B} (a c : A) (b d : B) :
  cmp (a, b) (c, d) = then_with (cmp a c) (cmp b d).
Proof. done. Qed.

#[export] Instance prod_ord_laws {A B} `{OrdLaws A, OrdLaws B} : OrdLaws (A * B).
Proof.
  split; unfold cmp, prod_ord; intros [a1 b1] [a2 b2]; simpl.
  - by rewrite then_with_opp, (cmp_opp a1), (cmp_opp b1).
  - intros [a3 b3] [Ea Eb]%then_with_eq. simpl.
    by rewrite (cmp_eq_l a1 a2 a3 Ea), (cmp_eq_l b1 b2 b3 Eb).
  - intros [a3 b3] L1 L2. simpl. rewrite then_with_lt in *.
    destruct L1 as [L1|[E1 L1]], L2 as [L2|[E2 L2]].
    + left. by eapply cmp_lt_trans.
    + left. by rewrite <- (cmp_eq_r a2 a3 a1 E2).
    + left. by rewrite (cmp_eq_l a1 a2 a3 E1).
    + right. split; [by rewrite (cmp_eq_l a1 a2 a3 E1)|by eapply cmp_lt_trans].
Qed.

#[export] Instance option_ord_laws {A} `{OrdLaws A} : OrdLaws (option A).
Proof.
  split; unfold cmp, option_ord.
  - intros [x|] [y|]; simpl; try done. apply cmp_opp.
  - intros [x|] [y|] [z|]; simpl; try done. apply cmp_eq_l.
  - intros [x|] [y|] [z|]; simpl; try done. apply cmp_lt_trans.
Qed.

Lemma list_cmp_cons {A} `{Ord A} (a b : A) l k :
  cmp (a :: l) (b :: k) = then_with (cmp a b) (cmp l k).
Proof. done. Qed.

#[export] Instance list_ord_laws {A} `{OrdLaws A} : OrdLaws (list A).
Proof.
  split.
  - induction x as [|a x IH]; intros [|b y]; try done.
    by rewrite !list_cmp_cons, then_with_opp, (cmp_opp a b), IH.
  - induction x as [|a x IH]; intros [|b y] [|c z]; try done.
    rewrite !list_cmp_cons. intros [E1 E2]%then_with_eq.
    by rewrite (cmp_eq_l a b c E1), (IH y z E2).
  - induction x as [|a x IH]; intros [|b y] [|c z]; try done.
    rewrite !list_cmp_cons, !then_with_lt.
    intros [L1|[E1 L1]] [L2|[E2 L2]].
    + left. by eapply cmp_lt_trans.
    + left. by rewrite <- (cmp_eq_r b c a E2).
    + left. by rewrite (cmp_eq_l a b c E1).
    + right. split; [by rewrite (cmp_eq_l a b c E1)|eauto].
Qed.

(** Lists of numbers compare equal only when they are equal. *)
Lemma N_list_cmp_eq (l k : list N) : cmp l k = Eq <-> l = k.
Proof.
  split; [|intros ->; apply cmp_refl].
  revert k. induction l as [|a l IH]; intros [|b k]; try done.
  rewrite list_cmp_cons. intros [E1 E2]%then_with_eq.
  apply N.compare_eq_iff in E1. f_equal; eauto.
Qed.

Lemma N_cmp_eq (a b : N) : cmp a b = Eq <-> a = b.
Proof. apply N.compare_eq_iff. Qed.

Lemma N_option_cmp_eq (a b : option N) : cmp a b = Eq <-> a = b.
Proof.
  destruct a, b; unfold cmp, option_ord; try naive_solver.
  rewrite N_cmp_eq. naive_solver.
Qed.

(** ** Hint databases *)

Create HintDb uv.
#[export] Hint Resolve cmp_refl cmp_eq_sym : uv.
#[export] Hint Extern 2 (_ <= _)%N => lia : uv.
#[export] Hint Extern 2 (_ < _)%N => lia : uv.

(** ** Bit fields of a machine word

    A word is read and written through fields of [n] bits at offset [p]. The
    lemmas turn the masks and shifts of the code into division, remainder and
    addition, which [lia] decides. *)

(** The field of [n] bits of [x] at offset [p]. *)
Definition field (x p n : N) : N := (x / 2 ^ p) mod 2 ^ n.

(** ** Reading *)

Lemma land_shiftr_field x p n : N.land (N.shiftr x p) (N.ones n) = field x p n.
Proof. unfold field. by rewrite N.land_ones, N.shiftr_div_pow2. Qed.

Lemma land_field x n : N.land x (N.ones n) = field x 0 n.
Proof. unfold field. rewrite N.land_ones, N.pow_0_r. by rewrite N.div_1_r. Qed.

Lemma field_bound x p n : field x p n < 2 ^ n.
Proof. apply N.mod_lt. by apply N.pow_nonzero. Qed.

(** ** Clearing *)

Lemma word_testbit_high x i : x < 2 ^ 64 -> 64 <= i -> N.testbit x i = false.
Proof.
  intros Hx Hi. rewrite <- (N.mod_small x (2 ^ 64)) by done.
  by apply N.mod_pow2_bits_high.
Qed.

Lemma land_not_ldiff x m : x < 2 ^ 64 -> N.land x (u64_not m) = N.ldiff x m.
Proof.
  intros Hx. apply N.bits_inj. intros i. unfold u64_not.
  rewrite N.land_spec, N.ldiff_spec, N.lxor_spec.
  destruct (N.lt_ge_cases i 64) as [Hi|Hi].
  - rewrite (N.ones_spec_low 64 i) by lia. by destruct (N.testbit m i).
  - by rewrite (word_testbit_high x i).
Qed.

Lemma ldiff_sub x m : N.ldiff x m = x - N.land x m.
Proof.
  assert (N.ldiff (N.land x m) x = 0) as E.
  { apply N.bits_inj. intros i. rewrite N.ldiff_spec, N.land_spec, N.bits_0.
    by destruct (N.testbit x i), (N.testbit m i). }
  rewrite (N.sub_nocarry_ldiff _ _ E).
  apply N.bits_inj. intros i. rewrite !N.ldiff_spec, N.land_spec.
  by destruct (N.testbit x i), (N.testbit m i).
Qed.

Lemma land_mask_field x p n : N.land x (N.shiftl (N.ones n) p) = field x p n * 2 ^ p.
Proof.
  unfold field. rewrite <- N.shiftr_div_pow2, <- N.land_ones, <- N.shiftl_mul_pow2.
  apply N.bits_inj. intros i. rewrite N.land_spec.
  destruct (N.lt_ge_cases i p) as [Hi|Hi].
  - by rewrite !N.shiftl_spec_low, andb_false_r.
  - rewrite !N.shiftl_spec_high', N.land_spec by lia.
    rewrite N.shiftr_spec'. by replace (i - p + p) with i by lia.
Qed.

(** Clearing a field subtracts it. *)
Lemma clear_field x m p n :
  x < 2 ^ 64 -> m = N.shiftl (N.ones n) p ->
  N.land x (u64_not m) = x - field x p n * 2 ^ p.
Proof. intros Hx ->. by rewrite land_not_ldiff, ldiff_sub, land_mask_field. Qed.

(** ** Writing *)

Lemma land_disjoint a k p n : field a p n = 0 -> k < 2 ^ n -> N.land a (k * 2 ^ p) = 0.
Proof.
  intros Ha Hk. apply N.bits_inj. intros i. rewrite N.land_spec, N.bits_0.
  destruct (N.lt_ge_cases i p) as [Hi|Hi].
  { by rewrite N.mul_pow2_bits_low, andb_false_r. }
  destruct (N.lt_ge_cases (i - p) n) as [Hn|Hn].
  - assert (N.testbit a i = false) as ->; [|done].
    transitivity (N.testbit (field a p n) (i - p)); [|by rewrite Ha, N.bits_0].
    unfold field. rewrite N.mod_pow2_bits_low, N.div_pow2_bits by done.
    f_equal. lia.
  - rewrite <- (N.mod_small k (2 ^ n)) by done.
    rewrite N.mul_pow2_bits_high, (N.mod_pow2_bits_high k n) by done.
    apply andb_false_r.
Qed.

(** Writing into a cleared field adds. *)
Lemma lor_field a k p n :
  field a p n = 0 -> k < 2 ^ n -> N.lor a (k * 2 ^ p) = a + k * 2 ^ p.
Proof.
  intros Ha Hk. pose proof (land_disjoint a k p n Ha Hk) as E.
  by rewrite <- N.lxor_lor, N.add_nocarry_lxor.
Qed.

Lemma u64_shl_small a k : a * 2 ^ k < 2 ^ 64 -> u64_shl a k = a * 2 ^ k.
Proof.
  intros Ha. unfold u64_shl. rewrite N.land_ones, N.shiftl_mul_pow2.
  by apply N.mod_small.
Qed.
