(* ===== verification/VersionTypes.v ===== *)
(** * Version building blocks of [uv-pep440]

    The enumerations and small records of [version.rs]: the specifier
    [Operator], [Prerelease] and [LocalVersion] with their parsing, printing
    and ordering. *)

From stdpp Require Import base numbers list strings.
From S2P Require Import Prelude.

(** ** [Operator] *)

Inductive Operator :=
| Equal
| EqualStar
| ExactEqual
| NotEqual
| NotEqualStar
| TildeEqual
| LessThan
| LessThanEqual
| GreaterThan
| GreaterThanEqual.

#[export] Instance Operator_eq_dec : EqDecision Operator.
Proof. solve_decision. Defined.

Definition negate (self : Operator) : option Operator :=
  match self with
  | Equal => Some NotEqual
  | EqualStar => Some NotEqualStar
  | ExactEqual => Some NotEqual
  | NotEqual => Some Equal
  | NotEqualStar => Some EqualStar
  | TildeEqual => None
  | LessThan => Some GreaterThanEqual
  | LessThanEqual => Some GreaterThan
  | GreaterThan => Some LessThanEqual
  | GreaterThanEqual => Some LessThan
  end.

Definition is_local_compatible (self : Operator) : bool :=
  match self with
  | GreaterThan | GreaterThanEqual | LessThan | LessThanEqual
  | TildeEqual | EqualStar | NotEqualStar => false
  | _ => true
  end.

Definition to_star (self : Operator) : option Operator :=
  match self with
  | Equal => Some EqualStar
  | NotEqual => Some NotEqualStar
  | _ => None
  end.

Definition is_star (self : Operator) : bool :=
  match self with
  | EqualStar | NotEqualStar => true
  | _ => false
  end.

Definition Operator_as_str (self : Operator) : bytes :=
  match self with
  | Equal => bs "=="
  | EqualStar => bs "=="
  | ExactEqual => bs "==="
  | NotEqual => bs "!="
  | NotEqualStar => bs "!="
  | TildeEqual => bs "~="
  | LessThan => bs "<"
  | LessThanEqual => bs "<="
  | GreaterThan => bs ">"
  | GreaterThanEqual => bs ">="
  end.

Record OperatorParseError := { got : bytes }.

Definition Operator_from_str (s : bytes) : result Operator OperatorParseError :=
  if decide (s = bs "==") then Ok Equal
  else if decide (s = bs "===") then Ok ExactEqual
  else if decide (s = bs "!=") then Ok NotEqual
  else if decide (s = bs "~=") then Ok TildeEqual
  else if decide (s = bs "<") then Ok LessThan
  else if decide (s = bs "<=") then Ok LessThanEqual
  else if decide (s = bs ">") then Ok GreaterThan
  else if decide (s = bs ">=") then Ok GreaterThanEqual
  else Err {| got := s |}.

(** ** [Prerelease] *)

Inductive PrereleaseKind := Alpha | Beta | Rc.

#[export] Instance PrereleaseKind_eq_dec : EqDecision PrereleaseKind.
Proof. solve_decision. Defined.

Record Prerelease := { kind : PrereleaseKind; number : N }.

#[export] Instance Prerelease_eq_dec : EqDecision Prerelease.
Proof. solve_decision. Defined.

Definition PrereleaseKind_show (k : PrereleaseKind) : bytes :=
  match k with
  | Alpha => bs "a"
  | Beta => bs "b"
  | Rc => bs "rc"
  end.

(** ** [LocalSegment] and [LocalVersion]

    [LocalVersionSlice] is the borrowed view of [LocalVersion] with the same
    two constructors; one type models both, and [as_slice] is the identity. *)

Inductive LocalSegment :=
| LSString (s : bytes)
| LSNumber (n : N).

#[export] Instance LocalSegment_eq_dec : EqDecision LocalSegment.
Proof. solve_decision. Defined.

#[export] Instance LocalSegment_ord : Ord LocalSegment :=
  fun self other =>
    match self, other with
    | LSNumber n1, LSNumber n2 => cmp n1 n2
    | LSString s1, LSString s2 => cmp s1 s2
    | LSNumber _, LSString _ => Gt
    | LSString _, LSNumber _ => Lt
    end.

Definition LocalSegment_show (self : LocalSegment) : bytes :=
  match self with
  | LSString s => s
  | LSNumber n => show_u64 n
  end.

Inductive LocalVersion :=
| Segments (segments : list LocalSegment)
| LocalMax.

#[export] Instance LocalVersion_eq_dec : EqDecision LocalVersion.
Proof. solve_decision. Defined.

Definition LocalVersion_empty : LocalVersion := Segments [].

Definition LocalVersion_is_empty (self : LocalVersion) : bool :=
  match self with
  | Segments [] => true
  | Segments (_ :: _) => false
  | LocalMax => false
  end.

Definition LocalVersion_clear (self : LocalVersion) : LocalVersion :=
  match self with
  | Segments _ => Segments []
  | LocalMax => Segments []
  end.

#[export] Instance LocalVersionSlice_ord : Ord LocalVersion :=
  fun self other =>
    match self, other with
    | Segments lv1, Segments lv2 => cmp lv1 lv2
    | Segments _, LocalMax => Lt
    | LocalMax, Segments _ => Gt
    | LocalMax, LocalMax => Eq
    end.

(** The segments, separated by [.]. *)
Fixpoint show_segments (first : bool) (segments : list LocalSegment) : bytes :=
  match segments with
  | [] => []
  | s :: rest =>
      (if first then [] else bs ".") ++ LocalSegment_show s ++ show_segments false rest
  end.

Definition LocalVersionSlice_show (self : LocalVersion) : bytes :=
  match self with
  | Segments segments => show_segments true segments
  | LocalMax => bs "[max]"
  end.

(** ** Ordering laws *)

#[export] Instance LocalSegment_ord_laws : OrdLaws LocalSegment.
Proof.
  split.
  - intros [s|n] [t|m]; try done; [apply (cmp_opp s t)|apply (cmp_opp n m)].
  - intros [s|n] [t|m] [u|k]; try done; [apply (cmp_eq_l s t u)|apply (cmp_eq_l n m k)].
  - intros [s|n] [t|m] [u|k]; try done;
      [apply (cmp_lt_trans s t u)|apply (cmp_lt_trans n m k)].
Qed.

#[export] Instance LocalVersion_ord_laws : OrdLaws LocalVersion.
Proof.
  split.
  - intros [s|] [t|]; try done. apply (cmp_opp s t).
  - intros [s|] [t|] [u|]; try done. apply (cmp_eq_l s t u).
  - intros [s|] [t|] [u|]; try done. apply (cmp_lt_trans s t u).
Qed.

Lemma LocalSegment_cmp_eq (a b : LocalSegment) : cmp a b = Eq <-> a = b.
Proof.
  destruct a as [s|n], b as [t|m]; unfold cmp, LocalSegment_ord; try naive_solver.
  - rewrite N_list_cmp_eq. naive_solver.
  - rewrite N_cmp_eq. naive_solver.
Qed.

Lemma LocalVersion_cmp_eq (a b : LocalVersion) : cmp a b = Eq <-> a = b.
Proof.
  split; [|intros ->; apply cmp_refl].
  destruct a as [l|], b as [k|]; unfold cmp, LocalVersionSlice_ord; try done.
  intros E. f_equal. revert k E.
  induction l as [|x l IH]; intros [|y k]; try done.
  rewrite list_cmp_cons. intros [E1 E2]%then_with_eq.
  apply LocalSegment_cmp_eq in E1. f_equal; eauto.
Qed.

(** The empty local version is the least one and [LocalMax] the greatest. *)
Lemma LocalVersion_empty_least (a : LocalVersion) : cmp LocalVersion_empty a <> Gt.
Proof. by destruct a as [[|x l]|]. Qed.

Lemma LocalVersion_max_greatest (a : LocalVersion) : cmp a LocalMax <> Gt.
Proof. by destruct a. Qed.

Lemma LocalVersion_is_empty_spec (a : LocalVersion) :
  LocalVersion_is_empty a = true <-> a = LocalVersion_empty.
Proof. destruct a as [[|x l]|]; naive_solver. Qed.
