(* ===== verification/VersionSmall.v ===== *)
(** * The packed version representation ([VersionSmall] of [version.rs])

    A version with small numbers and at most one suffix is one [u64]: the
    first release segment in bytes 7 and 6, the next three in bytes 5, 4 and
    3, the suffix kind in the high four bits of byte 2 and the suffix number in
    the low twenty bits. A setter returns whether the value could be stored,
    together with the updated word. The constant [_force_niche] byte carries
    no information and has no field here. *)

From stdpp Require Import base numbers list.
From S2P Require Import Prelude VersionTypes.

Record VersionSmall := mkSmall { len : N; repr : N }.

#[export] Instance VersionSmall_eq_dec : EqDecision VersionSmall.
Proof. solve_decision. Defined.

Definition SUFFIX_MIN : N := 0.
Definition SUFFIX_DEV : N := 1.
Definition SUFFIX_PRE_ALPHA : N := 2.
Definition SUFFIX_PRE_BETA : N := 3.
Definition SUFFIX_PRE_RC : N := 4.
Definition SUFFIX_NONE : N := 5.
Definition SUFFIX_LOCAL : N := 6.
Definition SUFFIX_POST : N := 7.
Definition SUFFIX_MAX : N := 8.

Definition SUFFIX_RELEASE_MASK : N := 0xFFFFFFFFFF000000.
Definition SUFFIX_VERSION_MASK : N := 0x000FFFFF.
Definition SUFFIX_VERSION_BIT_LEN : N := 20.
Definition SUFFIX_KIND_MASK : N := 15.

Definition new : VersionSmall :=
  {| repr := u64_shl SUFFIX_NONE SUFFIX_VERSION_BIT_LEN; len := 0 |}.

Definition epoch (self : VersionSmall) : N := 0.

Definition set_epoch (self : VersionSmall) (value : N) : bool * VersionSmall :=
  if negb (value =? 0) then (false, self) else (true, self).

Definition clear_release (self : VersionSmall) : VersionSmall :=
  {| repr := N.land (repr self) (u64_not SUFFIX_RELEASE_MASK); len := 0 |}.

Definition push_release (self : VersionSmall) (n : N) : bool * VersionSmall :=
  if len self =? 0 then
    if u16_MAX <? n then (false, self)
    else (true, {| repr := N.lor (repr self) (u64_shl n 48); len := 1 |})
  else
    if u8_MAX <? n then (false, self)
    else if 4 <=? len self then (false, self)
    else
      let shift := 48 - len self * 8 in
      (true, {| repr := N.lor (repr self) (u64_shl n shift); len := len self + 1 |}).

Definition suffix_kind (self : VersionSmall) : N :=
  N.land (N.shiftr (repr self) SUFFIX_VERSION_BIT_LEN) SUFFIX_KIND_MASK.

Definition suffix_version (self : VersionSmall) : N := N.land (repr self) SUFFIX_VERSION_MASK.

Definition set_suffix_version (self : VersionSmall) (value : N) : VersionSmall :=
  {| repr := N.lor (N.land (repr self) (u64_not SUFFIX_VERSION_MASK)) value;
     len := len self |}.

Definition set_suffix_kind (self : VersionSmall) (kind : N) : VersionSmall :=
  let self :=
    {| repr := N.lor
                 (N.land (repr self) (u64_not (u64_shl SUFFIX_KIND_MASK SUFFIX_VERSION_BIT_LEN)))
                 (u64_shl kind SUFFIX_VERSION_BIT_LEN);
       len := len self |} in
  if (kind =? SUFFIX_NONE) || (kind =? SUFFIX_LOCAL) then set_suffix_version self 0 else self.

Definition post (self : VersionSmall) : option N :=
  if suffix_kind self =? SUFFIX_POST then Some (suffix_version self) else None.

Definition set_post (self : VersionSmall) (value : option N) : bool * VersionSmall :=
  let suffix_kind := suffix_kind self in
  if negb ((suffix_kind =? SUFFIX_NONE) || (suffix_kind =? SUFFIX_POST)) then
    (bool_decide (value = None), self)
  else
    match value with
    | None => (true, set_suffix_kind self SUFFIX_NONE)
    | Some number =>
        if SUFFIX_VERSION_MASK <? number then (false, self)
        else (true, set_suffix_version (set_suffix_kind self SUFFIX_POST) number)
    end.

Definition pre (self : VersionSmall) : option Prerelease :=
  let kind := suffix_kind self in
  let number := suffix_version self in
  if kind =? SUFFIX_PRE_ALPHA then Some {| kind := Alpha; number := number |}
  else if kind =? SUFFIX_PRE_BETA then Some {| kind := Beta; number := number |}
  else if kind =? SUFFIX_PRE_RC then Some {| kind := Rc; number := number |}
  else None.

Definition set_pre (self : VersionSmall) (value : option Prerelease) : bool * VersionSmall :=
  let suffix_kind := suffix_kind self in
  if negb ((suffix_kind =? SUFFIX_NONE) || (suffix_kind =? SUFFIX_PRE_ALPHA)
           || (suffix_kind =? SUFFIX_PRE_BETA) || (suffix_kind =? SUFFIX_PRE_RC)) then
    (bool_decide (value = None), self)
  else
    match value with
    | None => (true, set_suffix_kind self SUFFIX_NONE)
    | Some {| kind := kind; number := number |} =>
        if SUFFIX_VERSION_MASK <? number then (false, self)
        else
          let self :=
            match kind with
            | Alpha => set_suffix_kind self SUFFIX_PRE_ALPHA
            | Beta => set_suffix_kind self SUFFIX_PRE_BETA
            | Rc => set_suffix_kind self SUFFIX_PRE_RC
            end in
          (true, set_suffix_version self number)
    end.

Definition dev (self : VersionSmall) : option N :=
  if suffix_kind self =? SUFFIX_DEV then Some (suffix_version self) else None.

Definition set_dev (self : VersionSmall) (value : option N) : bool * VersionSmall :=
  let suffix_kind := suffix_kind self in
  if negb ((suffix_kind =? SUFFIX_NONE) || (suffix_kind =? SUFFIX_DEV)) then
    (bool_decide (value = None), self)
  else
    match value with
    | None => (true, set_suffix_kind self SUFFIX_NONE)
    | Some number =>
        if SUFFIX_VERSION_MASK <? number then (false, self)
        else (true, set_suffix_version (set_suffix_kind self SUFFIX_DEV) number)
    end.

Definition min (self : VersionSmall) : option N :=
  if suffix_kind self =? SUFFIX_MIN then Some (suffix_version self) else None.

Definition set_min (self : VersionSmall) (value : option N) : bool * VersionSmall :=
  let suffix_kind := suffix_kind self in
  if negb ((suffix_kind =? SUFFIX_NONE) || (suffix_kind =? SUFFIX_MIN)) then
    (bool_decide (value = None), self)
  else
    match value with
    | None => (true, set_suffix_kind self SUFFIX_NONE)
    | Some number =>
        if SUFFIX_VERSION_MASK <? number then (false, self)
        else (true, set_suffix_version (set_suffix_kind self SUFFIX_MIN) number)
    end.

Definition max (self : VersionSmall) : option N :=
  if suffix_kind self =? SUFFIX_MAX then Some (suffix_version self) else None.

Definition set_max (self : VersionSmall) (value : option N) : bool * VersionSmall :=
  let suffix_kind := suffix_kind self in
  if negb ((suffix_kind =? SUFFIX_NONE) || (suffix_kind =? SUFFIX_MAX)) then
    (bool_decide (value = None), self)
  else
    match value with
    | None => (true, set_suffix_kind self SUFFIX_NONE)
    | Some number =>
        if SUFFIX_VERSION_MASK <? number then (false, self)
        else (true, set_suffix_version (set_suffix_kind self SUFFIX_MAX) number)
    end.

Definition local (self : VersionSmall) : LocalVersion :=
  if suffix_kind self =? SUFFIX_LOCAL then LocalMax else LocalVersion_empty.

Definition local_slice (self : VersionSmall) : LocalVersion :=
  if suffix_kind self =? SUFFIX_LOCAL then LocalMax else LocalVersion_empty.

Definition set_local (self : VersionSmall) (value : LocalVersion) : bool * VersionSmall :=
  let suffix_kind := suffix_kind self in
  if negb ((suffix_kind =? SUFFIX_NONE) || (suffix_kind =? SUFFIX_LOCAL)) then
    (LocalVersion_is_empty value, self)
  else
    match value with
    | LocalMax => (true, set_suffix_kind self SUFFIX_LOCAL)
    | Segments [] => (true, set_suffix_kind self SUFFIX_NONE)
    | Segments (_ :: _) => (false, self)
    end.

(** The release segments, as [Version::release] unpacks them. The last arm is
    the [unreachable!] one; [small_wf] keeps [len] at most 4. *)
Definition small_release (small : VersionSmall) : list N :=
  let r0 := N.land (N.shiftr (repr small) 48) 0xFFFF in
  let r1 := N.land (N.shiftr (repr small) 40) 0xFF in
  let r2 := N.land (N.shiftr (repr small) 32) 0xFF in
  let r3 := N.land (N.shiftr (repr small) 24) 0xFF in
  match len small with
  | 0 => []
  | 1 => [r0]
  | 2 => [r0; r1]
  | 3 => [r0; r1; r2]
  | 4 => [r0; r1; r2; r3]
  | _ => []
  end.

(** ** Specification: the word as a record of fields *)

(** The word that holds the given fields. *)
Definition pack (r0 r1 r2 r3 k v : N) : N :=
  r0 * 2 ^ 48 + r1 * 2 ^ 40 + r2 * 2 ^ 32 + r3 * 2 ^ 24 + k * 2 ^ 20 + v.

(** The representation invariant: segments past [len] are zero, the kind is one
    of the nine suffixes, and the suffixes without a number carry zero. *)
Definition small_wf (s : VersionSmall) : Prop :=
  exists r0 r1 r2 r3 k v,
    repr s = pack r0 r1 r2 r3 k v /\
    r0 < 2 ^ 16 /\ r1 < 2 ^ 8 /\ r2 < 2 ^ 8 /\ r3 < 2 ^ 8 /\ k <= 8 /\ v < 2 ^ 20 /\
    len s <= 4 /\
    (len s = 0 -> r0 = 0) /\ (len s <= 1 -> r1 = 0) /\
    (len s <= 2 -> r2 = 0) /\ (len s <= 3 -> r3 = 0) /\
    (k = SUFFIX_NONE \/ k = SUFFIX_LOCAL -> v = 0).

(** ** The fields of a packed word *)

Ltac pow2 :=
  change (2 ^ 64) with 18446744073709551616 in *;
  change (2 ^ 48) with 281474976710656 in *;
  change (2 ^ 40) with 1099511627776 in *;
  change (2 ^ 32) with 4294967296 in *;
  change (2 ^ 24) with 16777216 in *;
  change (2 ^ 20) with 1048576 in *;
  change (2 ^ 16) with 65536 in *;
  change (2 ^ 8) with 256 in *;
  change (2 ^ 4) with 16 in *;
  change (2 ^ 0) with 1 in *.

Section pack.
Context (r0 r1 r2 r3 k v : N).
Hypothesis Hr0 : r0 < 2 ^ 16.
Hypothesis Hr1 : r1 < 2 ^ 8.
Hypothesis Hr2 : r2 < 2 ^ 8.
Hypothesis Hr3 : r3 < 2 ^ 8.
Hypothesis Hk : k < 2 ^ 4.
Hypothesis Hv : v < 2 ^ 20.

Lemma pack_bound : pack r0 r1 r2 r3 k v < 2 ^ 64.
Proof using All. unfold pack. pow2. lia. Qed.

Lemma pack_r0 : field (pack r0 r1 r2 r3 k v) 48 16 = r0.
Proof using All. unfold field, pack. pow2. div_lia. Qed.

Lemma pack_r1 : field (pack r0 r1 r2 r3 k v) 40 8 = r1.
Proof using All. unfold field, pack. pow2. div_lia. Qed.

Lemma pack_r2 : field (pack r0 r1 r2 r3 k v) 32 8 = r2.
Proof using All. unfold field, pack. pow2. div_lia. Qed.

Lemma pack_r3 : field (pack r0 r1 r2 r3 k v) 24 8 = r3.
Proof using All. unfold field, pack. pow2. div_lia. Qed.

Lemma pack_kind : field (pack r0 r1 r2 r3 k v) 20 4 = k.
Proof using All. unfold field, pack. pow2. div_lia. Qed.

Lemma pack_version : field (pack r0 r1 r2 r3 k v) 0 20 = v.
Proof using All. unfold field, pack. pow2. div_lia. Qed.

Lemma pack_release : field (pack r0 r1 r2 r3 k v) 24 40 = r0 * 2 ^ 24 + r1 * 2 ^ 16 + r2 * 2 ^ 8 + r3.
Proof using All. unfold field, pack. pow2. div_lia. Qed.

(** Reading and writing the fields of a word in packed form. *)
Context (s : VersionSmall).
Hypothesis Hs : repr s = pack r0 r1 r2 r3 k v.

Lemma suffix_kind_pack : suffix_kind s = k.
Proof using All.
  unfold suffix_kind. change SUFFIX_KIND_MASK with (N.ones 4).
  rewrite land_shiftr_field, Hs. apply pack_kind.
Qed.

Lemma suffix_version_pack : suffix_version s = v.
Proof using All.
  unfold suffix_version. change SUFFIX_VERSION_MASK with (N.ones 20).
  rewrite land_field, Hs. apply pack_version.
Qed.

Lemma small_release_pack :
  len s <= 4 -> small_release s = take (N.to_nat (len s)) [r0; r1; r2; r3].
Proof using All.
  intros Hl. unfold small_release.
  change 0xFFFF with (N.ones 16). change 0xFF with (N.ones 8).
  rewrite !land_shiftr_field, Hs, pack_r0, pack_r1, pack_r2, pack_r3.
  assert (len s = 0 \/ len s = 1 \/ len s = 2 \/ len s = 3 \/ len s = 4) as E by lia.
  destruct E as [->|[->|[->|[->| ->]]]]; done.
Qed.

Lemma set_suffix_version_pack n :
  n < 2 ^ 20 -> repr (set_suffix_version s n) = pack r0 r1 r2 r3 k n.
Proof using All.
  intros Hn. unfold set_suffix_version. cbn [repr]. rewrite Hs.
  rewrite (clear_field _ _ 0 20 pack_bound) by done.
  rewrite pack_version. replace n with (n * 2 ^ 0) at 1 by (pow2; lia).
  rewrite (lor_field _ n 0 20).
  - unfold pack. pow2. lia.
  - unfold field, pack. pow2. div_lia.
  - done.
Qed.

Lemma set_suffix_kind_pack n :
  n < 2 ^ 4 ->
  repr (set_suffix_kind s n)
  = pack r0 r1 r2 r3 n (if (n =? SUFFIX_NONE) || (n =? SUFFIX_LOCAL) then 0 else v).
Proof using All.
  intros Hn. unfold set_suffix_kind.
  assert (N.lor (N.land (repr s) (u64_not (u64_shl SUFFIX_KIND_MASK SUFFIX_VERSION_BIT_LEN)))
            (u64_shl n SUFFIX_VERSION_BIT_LEN) = pack r0 r1 r2 r3 n v) as E.
  { rewrite Hs, (clear_field _ _ 20 4 pack_bound), pack_kind by done.
    rewrite u64_shl_small by (unfold SUFFIX_VERSION_BIT_LEN; pow2; lia).
    unfold SUFFIX_VERSION_BIT_LEN.
    rewrite (lor_field _ n 20 4) by (unfold field, pack; pow2; div_lia).
    unfold pack. pow2. lia. }
  cbn [repr]. rewrite E.
  destruct ((n =? SUFFIX_NONE) || (n =? SUFFIX_LOCAL)); cbn [repr]; [|done].
  unfold set_suffix_version. cbn [repr].
  rewrite (clear_field _ _ 0 20) by (done || (unfold pack; pow2; lia)).
  replace 0 with (0 * 2 ^ 0) at 2 by done.
  rewrite (lor_field _ 0 0 20) by (unfold field, pack; pow2; div_lia).
  unfold field, pack. pow2. div_lia.
Qed.

Lemma clear_release_pack : repr (clear_release s) = pack 0 0 0 0 k v.
Proof using All.
  unfold clear_release. cbn [repr]. rewrite Hs.
  rewrite (clear_field _ _ 24 40 pack_bound) by done.
  rewrite pack_release. unfold pack. pow2. lia.
Qed.
End pack.

(** ** The invariant is kept by every operation *)

Lemma new_wf : small_wf new.
Proof. exists 0, 0, 0, 0, SUFFIX_NONE, 0. repeat split; try done. Qed.

Lemma small_wf_kind s : small_wf s -> suffix_kind s <= 8.
Proof.
  intros (r0&r1&r2&r3&k&v&Hs&?&?&?&?&Hk&?&_).
  rewrite (suffix_kind_pack r0 r1 r2 r3 k v); try done. pow2. lia.
Qed.

Lemma small_wf_version s : small_wf s -> suffix_version s < 2 ^ 20.
Proof.
  intros (r0&r1&r2&r3&k&v&Hs&?&?&?&?&?&?&_).
  rewrite (suffix_version_pack r0 r1 r2 r3 k v); try done. pow2. lia.
Qed.

Lemma small_wf_none s :
  small_wf s -> suffix_kind s = SUFFIX_NONE \/ suffix_kind s = SUFFIX_LOCAL ->
  suffix_version s = 0.
Proof.
  intros (r0&r1&r2&r3&k&v&Hs&?&?&?&?&?&?&_&_&_&_&_&Hz).
  assert (k < 2 ^ 4) by (pow2; lia).
  rewrite (suffix_version_pack r0 r1 r2 r3 k v), (suffix_kind_pack r0 r1 r2 r3 k v); done.
Qed.

(** What a write of the suffix does: the release is untouched. *)
Definition suffix_is (s s' : VersionSmall) (k v : N) : Prop :=
  small_wf s' /\ small_release s' = small_release s /\ suffix_kind s' = k /\ suffix_version s' = v.

Lemma set_suffix_spec s K n :
  small_wf s -> K <= 8 -> K <> SUFFIX_NONE -> K <> SUFFIX_LOCAL -> n < 2 ^ 20 ->
  suffix_is s (set_suffix_version (set_suffix_kind s K) n) K n.
Proof.
  intros (r0&r1&r2&r3&k&v&Hs&?&?&?&?&?&?&Hl&?&?&?&?&?) HK Hne Hne' Hn.
  assert (k < 2 ^ 4 /\ K < 2 ^ 4) as [Hk HK'] by (pow2; lia).
  pose proof (set_suffix_kind_pack r0 r1 r2 r3 k v) as E1. specialize (E1 ltac:(done) ltac:(done)
    ltac:(done) ltac:(done) ltac:(done) ltac:(done) s Hs K HK').
  rewrite (proj2 (N.eqb_neq _ _) Hne), (proj2 (N.eqb_neq _ _) Hne') in E1. cbn in E1.
  pose proof (set_suffix_version_pack r0 r1 r2 r3 K v ltac:(done) ltac:(done) ltac:(done)
    ltac:(done) HK' ltac:(done) _ E1 n Hn) as E2.
  assert (len (set_suffix_version (set_suffix_kind s K) n) = len s) as El.
  { unfold set_suffix_version, set_suffix_kind. by case_match. }
  repeat split.
  - exists r0, r1, r2, r3, K, n. rewrite El. repeat split; try done. naive_solver.
  - rewrite (small_release_pack r0 r1 r2 r3 K n), (small_release_pack r0 r1 r2 r3 k v);
      rewrite ?El; done.
  - by rewrite (suffix_kind_pack r0 r1 r2 r3 K n).
  - by rewrite (suffix_version_pack r0 r1 r2 r3 K n).
Qed.

Lemma set_no_suffix_spec s K :
  small_wf s -> K = SUFFIX_NONE \/ K = SUFFIX_LOCAL -> suffix_is s (set_suffix_kind s K) K 0.
Proof.
  intros (r0&r1&r2&r3&k&v&Hs&?&?&?&?&?&?&Hl&?&?&?&?&?) HK.
  assert (k < 2 ^ 4 /\ K < 2 ^ 4) as [Hk HK']
    by (unfold SUFFIX_NONE, SUFFIX_LOCAL in *; pow2; lia).
  pose proof (set_suffix_kind_pack r0 r1 r2 r3 k v ltac:(done) ltac:(done)
    ltac:(done) ltac:(done) ltac:(done) ltac:(done) s Hs K HK') as E1.
  assert ((K =? SUFFIX_NONE) || (K =? SUFFIX_LOCAL) = true) as EK by (by destruct HK as [->| ->]).
  rewrite EK in E1.
  assert (len (set_suffix_kind s K) = len s) as El.
  { unfold set_suffix_version, set_suffix_kind. by case_match. }
  repeat split.
  - exists r0, r1, r2, r3, K, 0. rewrite El. repeat split; try done. by destruct HK as [->| ->].
  - rewrite (small_release_pack r0 r1 r2 r3 K 0), (small_release_pack r0 r1 r2 r3 k v);
      rewrite ?El; done.
  - by rewrite (suffix_kind_pack r0 r1 r2 r3 K 0).
  - by rewrite (suffix_version_pack r0 r1 r2 r3 K 0).
Qed.

Lemma clear_release_spec s :
  small_wf s ->
  small_wf (clear_release s) /\ small_release (clear_release s) = [] /\
  suffix_kind (clear_release s) = suffix_kind s /\
  suffix_version (clear_release s) = suffix_version s.
Proof.
  intros (r0&r1&r2&r3&k&v&Hs&?&?&?&?&?&?&Hl&?&?&?&?&?).
  assert (k < 2 ^ 4) as Hk by (pow2; lia).
  pose proof (clear_release_pack r0 r1 r2 r3 k v ltac:(done) ltac:(done)
    ltac:(done) ltac:(done) ltac:(done) ltac:(done) s Hs) as E.
  repeat split.
  - exists 0, 0, 0, 0, k, v. repeat split; try done.
  - by rewrite (suffix_kind_pack 0 0 0 0 k v), (suffix_kind_pack r0 r1 r2 r3 k v).
  - by rewrite (suffix_version_pack 0 0 0 0 k v), (suffix_version_pack r0 r1 r2 r3 k v).
Qed.

(** The word after appending segment [n] to a release of [l] segments. *)
Lemma push_word r0 r1 r2 r3 k v n p w :
  field (pack r0 r1 r2 r3 k v) p w = 0 -> n < 2 ^ w -> n * 2 ^ p < 2 ^ 64 ->
  N.lor (pack r0 r1 r2 r3 k v) (u64_shl n p) = pack r0 r1 r2 r3 k v + n * 2 ^ p.
Proof. intros. rewrite u64_shl_small by done. by apply (lor_field _ n p w). Qed.

Definition pushed (s : VersionSmall) (n : N) (s' : VersionSmall) : Prop :=
  small_wf s' /\ small_release s' = small_release s ++ [n] /\
  suffix_kind s' = suffix_kind s /\ suffix_version s' = suffix_version s.

Lemma pushed_intro s s' n r0 r1 r2 r3 q0 q1 q2 q3 k v :
  repr s = pack r0 r1 r2 r3 k v -> repr s' = pack q0 q1 q2 q3 k v ->
  r0 < 2 ^ 16 -> r1 < 2 ^ 8 -> r2 < 2 ^ 8 -> r3 < 2 ^ 8 ->
  q0 < 2 ^ 16 -> q1 < 2 ^ 8 -> q2 < 2 ^ 8 -> q3 < 2 ^ 8 -> k <= 8 -> v < 2 ^ 20 ->
  (k = SUFFIX_NONE \/ k = SUFFIX_LOCAL -> v = 0) ->
  len s <= 4 -> len s' <= 4 -> len s' <> 0 ->
  (len s' <= 1 -> q1 = 0) -> (len s' <= 2 -> q2 = 0) -> (len s' <= 3 -> q3 = 0) ->
  take (N.to_nat (len s')) [q0; q1; q2; q3] = take (N.to_nat (len s)) [r0; r1; r2; r3] ++ [n] ->
  pushed s n s'.
Proof.
  intros Hs Hs' ???? ???? Hk ? Hz Hl Hl' ???? Ht.
  assert (k < 2 ^ 4) as Hk' by (pow2; lia).
  repeat split.
  - exists q0, q1, q2, q3, k, v. repeat split; try done.
  - by rewrite (small_release_pack q0 q1 q2 q3 k v), (small_release_pack r0 r1 r2 r3 k v).
  - by rewrite (suffix_kind_pack q0 q1 q2 q3 k v), (suffix_kind_pack r0 r1 r2 r3 k v).
  - by rewrite (suffix_version_pack q0 q1 q2 q3 k v), (suffix_version_pack r0 r1 r2 r3 k v).
Qed.

(** Appending a segment either refuses and changes nothing, or stores it. *)
Lemma push_release_spec s n :
  small_wf s ->
  match push_release s n with
  | (true, s') => pushed s n s'
  | (false, s') => s' = s
  end.
Proof.
  intros (r0&r1&r2&r3&k&v&Hs&?&?&?&?&Hk&?&Hl&L0&L1&L2&L3&Hz). unfold push_release.
  assert (k < 2 ^ 4) as Hk' by (pow2; lia).
  destruct (N.eqb_spec (len s) 0) as [El|El].
  - destruct (u16_MAX <? n) eqn:En; [done|]. bool_to_prop. unfold u16_MAX in *.
    rewrite L0, L1, L2, L3 in * by lia.
    eapply (pushed_intro s _ n 0 0 0 0 n 0 0 0 k v); try done; cbn [len repr]; rewrite ?El;
      try done; try (pow2; lia).
    rewrite Hs, (push_word _ _ _ _ _ _ _ 48 16); unfold field, pack; pow2; div_lia.
  - destruct (u8_MAX <? n) eqn:En; [done|]. destruct (4 <=? len s) eqn:E4; [done|].
    bool_to_prop. unfold u8_MAX in *.
    assert (len s = 1 \/ len s = 2 \/ len s = 3) as [E|[E|E]] by lia; rewrite E in *;
      [change (48 - 1 * 8) with 40|change (48 - 2 * 8) with 32|change (48 - 3 * 8) with 24].
    + rewrite L1, L2, L3 in * by lia.
      eapply (pushed_intro s _ n r0 0 0 0 r0 n 0 0 k v); try done; cbn [len repr]; rewrite ?E;
        try done; try (pow2; lia).
      rewrite Hs, (push_word _ _ _ _ _ _ _ 40 8); unfold field, pack; pow2; div_lia.
    + rewrite L2, L3 in * by lia.
      eapply (pushed_intro s _ n r0 r1 0 0 r0 r1 n 0 k v); try done; cbn [len repr]; rewrite ?E;
        try done; try (pow2; lia).
      rewrite Hs, (push_word _ _ _ _ _ _ _ 32 8); unfold field, pack; pow2; div_lia.
    + rewrite L3 in * by lia.
      eapply (pushed_intro s _ n r0 r1 r2 0 r0 r1 r2 n k v); try done; cbn [len repr]; rewrite ?E;
        try done; try (pow2; lia).
      rewrite Hs, (push_word _ _ _ _ _ _ _ 24 8); unfold field, pack; pow2; div_lia.
Qed.
