(* ===== verification/Version.v ===== *)
(** * [Version] of [uv-pep440/src/version.rs]

    A version is either packed ([VersionSmall]) or full. Every accessor and
    setter is the code's, including the fallback from a refused packed write to
    the full representation. [None] stands for a panic. The [Arc] around the
    full form is copy-on-write and has value semantics. *)

From stdpp Require Import base numbers list strings.
From S2P Require Import Prelude VersionTypes VersionSmall.

Record VersionFull := mkFull {
  f_epoch : N;
  f_release : list N;
  f_pre : option Prerelease;
  f_post : option N;
  f_dev : option N;
  f_local : LocalVersion;
  f_min : option N;
  f_max : option N
}.

Inductive Version :=
| Small (small : VersionSmall)
| Full (full : VersionFull).

#[export] Instance VersionFull_eq_dec : EqDecision VersionFull.
Proof. solve_decision. Defined.

#[export] Instance Version_eq_dec : EqDecision Version.
Proof. solve_decision. Defined.

(** ** Accessors *)

Definition epoch (self : Version) : N :=
  match self with
  | Small small => VersionSmall.epoch small
  | Full full => f_epoch full
  end.

Definition release (self : Version) : list N :=
  match self with
  | Small small => small_release small
  | Full full => f_release full
  end.

Definition pre (self : Version) : option Prerelease :=
  match self with
  | Small small => VersionSmall.pre small
  | Full full => f_pre full
  end.

Definition post (self : Version) : option N :=
  match self with
  | Small small => VersionSmall.post small
  | Full full => f_post full
  end.

Definition dev (self : Version) : option N :=
  match self with
  | Small small => VersionSmall.dev small
  | Full full => f_dev full
  end.

Definition local (self : Version) : LocalVersion :=
  match self with
  | Small small => VersionSmall.local_slice small
  | Full full => f_local full
  end.

Definition min (self : Version) : option N :=
  match self with
  | Small small => VersionSmall.min small
  | Full full => f_min full
  end.

Definition max (self : Version) : option N :=
  match self with
  | Small small => VersionSmall.max small
  | Full full => f_max full
  end.

Definition is_pre (self : Version) : bool := match pre self with Some _ => true | None => false end.
Definition is_dev (self : Version) : bool := match dev self with Some _ => true | None => false end.
Definition is_post (self : Version) : bool := match post self with Some _ => true | None => false end.
Definition is_local (self : Version) : bool := negb (LocalVersion_is_empty (local self)).
Definition any_prerelease (self : Version) : bool := is_pre self || is_dev self.
Definition is_stable (self : Version) : bool := negb (is_pre self) && negb (is_dev self).

(** ** Conversion to the full representation *)

Definition make_full (self : Version) : VersionFull :=
  match self with
  | Small small =>
      {| f_epoch := VersionSmall.epoch small;
         f_release := release self;
         f_min := VersionSmall.min small;
         f_max := VersionSmall.max small;
         f_pre := VersionSmall.pre small;
         f_post := VersionSmall.post small;
         f_dev := VersionSmall.dev small;
         f_local := VersionSmall.local small |}
  | Full full => full
  end.

(** Assignments to one field of the full form. *)
Definition set_f_epoch (x : N) (f : VersionFull) : VersionFull :=
  mkFull x (f_release f) (f_pre f) (f_post f) (f_dev f) (f_local f) (f_min f) (f_max f).
Definition set_f_release (x : list N) (f : VersionFull) : VersionFull :=
  mkFull (f_epoch f) x (f_pre f) (f_post f) (f_dev f) (f_local f) (f_min f) (f_max f).
Definition set_f_pre (x : option Prerelease) (f : VersionFull) : VersionFull :=
  mkFull (f_epoch f) (f_release f) x (f_post f) (f_dev f) (f_local f) (f_min f) (f_max f).
Definition set_f_post (x : option N) (f : VersionFull) : VersionFull :=
  mkFull (f_epoch f) (f_release f) (f_pre f) x (f_dev f) (f_local f) (f_min f) (f_max f).
Definition set_f_dev (x : option N) (f : VersionFull) : VersionFull :=
  mkFull (f_epoch f) (f_release f) (f_pre f) (f_post f) x (f_local f) (f_min f) (f_max f).
Definition set_f_local (x : LocalVersion) (f : VersionFull) : VersionFull :=
  mkFull (f_epoch f) (f_release f) (f_pre f) (f_post f) (f_dev f) x (f_min f) (f_max f).
Definition set_f_min (x : option N) (f : VersionFull) : VersionFull :=
  mkFull (f_epoch f) (f_release f) (f_pre f) (f_post f) (f_dev f) (f_local f) x (f_max f).
Definition set_f_max (x : option N) (f : VersionFull) : VersionFull :=
  mkFull (f_epoch f) (f_release f) (f_pre f) (f_post f) (f_dev f) (f_local f) (f_min f) x.

(** ** Setters *)

Definition push_release (self : Version) (n : N) : Version :=
  let slow self := Full (set_f_release (f_release (make_full self) ++ [n]) (make_full self)) in
  match self with
  | Small small =>
      match VersionSmall.push_release small n with
      | (true, small') => Small small'
      | (false, small') => slow (Small small')
      end
  | Full _ => slow self
  end.

Definition clear_release (self : Version) : Version :=
  match self with
  | Small small => Small (VersionSmall.clear_release small)
  | Full full => Full (set_f_release [] full)
  end.

(** [None]: the assertion that the release is not empty fails. *)
Definition with_release (self : Version) (release_numbers : list N) : option Version :=
  let self := foldl push_release (clear_release self) release_numbers in
  if decide (release self = []) then None else Some self.

Definition new (release_numbers : list N) : option Version :=
  with_release (Small VersionSmall.new) release_numbers.

Definition with_epoch (self : Version) (value : N) : Version :=
  match self with
  | Small small =>
      match VersionSmall.set_epoch small value with
      | (true, small') => Small small'
      | (false, small') => Full (set_f_epoch value (make_full (Small small')))
      end
  | Full full => Full (set_f_epoch value full)
  end.

Definition with_pre (self : Version) (value : option Prerelease) : Version :=
  match self with
  | Small small =>
      match VersionSmall.set_pre small value with
      | (true, small') => Small small'
      | (false, small') => Full (set_f_pre value (make_full (Small small')))
      end
  | Full full => Full (set_f_pre value full)
  end.

Definition with_post (self : Version) (value : option N) : Version :=
  match self with
  | Small small =>
      match VersionSmall.set_post small value with
      | (true, small') => Small small'
      | (false, small') => Full (set_f_post value (make_full (Small small')))
      end
  | Full full => Full (set_f_post value full)
  end.

Definition with_dev (self : Version) (value : option N) : Version :=
  match self with
  | Small small =>
      match VersionSmall.set_dev small value with
      | (true, small') => Small small'
      | (false, small') => Full (set_f_dev value (make_full (Small small')))
      end
  | Full full => Full (set_f_dev value full)
  end.

Definition without_local (self : Version) : Version :=
  match self with
  | Small small =>
      match VersionSmall.set_local small LocalVersion_empty with
      | (true, small') => Small small'
      | (false, small') => Full (set_f_local LocalVersion_empty (make_full (Small small')))
      end
  | Full full => Full (set_f_local LocalVersion_empty full)
  end.

Definition with_local_segments (self : Version) (value : list LocalSegment) : Version :=
  match value with
  | [] => without_local self
  | _ :: _ => Full (set_f_local (Segments value) (make_full self))
  end.

Definition with_local (self : Version) (value : LocalVersion) : Version :=
  match value with
  | Segments segments => with_local_segments self segments
  | LocalMax =>
      match self with
      | Small small =>
          match VersionSmall.set_local small LocalMax with
          | (true, small') => Small small'
          | (false, small') => Full (set_f_local value (make_full (Small small')))
          end
      | Full full => Full (set_f_local value full)
      end
  end.

Definition with_min (self : Version) (value : option N) : Version :=
  match self with
  | Small small =>
      match VersionSmall.set_min small value with
      | (true, small') => Small small'
      | (false, small') => Full (set_f_min value (make_full (Small small')))
      end
  | Full full => Full (set_f_min value full)
  end.

Definition with_max (self : Version) (value : option N) : Version :=
  match self with
  | Small small =>
      match VersionSmall.set_max small value with
      | (true, small') => Small small'
      | (false, small') => Full (set_f_max value (make_full (Small small')))
      end
  | Full full => Full (set_f_max value full)
  end.

(** ** Derived versions *)

Definition only_release (self : Version) : option Version := new (release self).

Definition only_minor_release (self : Version) : option Version := new (take 2 (release self)).

(** The index of the last element that satisfies [p]. *)
Fixpoint rposition {A} (p : A -> bool) (l : list A) : option nat :=
  match l with
  | [] => None
  | x :: l' =>
      match rposition p l' with
      | Some i => Some (S i)
      | None => if p x then Some O else None
      end
  end.

Definition only_release_trimmed (self : Version) : option Version :=
  match rposition (fun segment => negb (segment =? 0)) (release self) with
  | Some last_non_zero =>
      if Nat.eqb last_non_zero (length (release self)) then Some self
      else new (take (last_non_zero + 1) (release self))
  | None => new [0]
  end.

(** [while let Some(0) = release.last() { release.pop(); }] *)
Fixpoint pop_zeros (release : list N) : list N :=
  match release with
  | [] => []
  | n :: rest =>
      match pop_zeros rest with
      | [] => if n =? 0 then [] else [n]
      | rest' => n :: rest'
      end
  end.

Definition without_trailing_zeros (self : Version) : option Version :=
  with_release self (pop_zeros (release self)).

(** ** [bump] *)

Inductive BumpCommand :=
| BumpRelease (index : nat) (value : option N)
| BumpPrerelease (kind : PrereleaseKind) (value : option N)
| MakeStable
| BumpPost (value : option N)
| BumpDev (value : option N).

Definition clear_suffixes (full : VersionFull) : VersionFull :=
  set_f_dev None (set_f_post None (set_f_pre None full)).

Definition bump_segment (old_parts : list N) (index : nat) (value : option N) (i : nat) : N :=
  match Nat.compare i index with
  | Lt => default 0 (old_parts !! i)
  | Eq => match value with
          | Some value => value
          | None => u64_add (default 0 (old_parts !! i)) 1
          end
  | Gt => 0
  end.

Definition bump (self : Version) (cmd : BumpCommand) : Version :=
  let full := make_full self in
  match cmd with
  | BumpRelease index value =>
      let full := clear_suffixes full in
      let old_parts := f_release full in
      let len := Nat.max (length old_parts) (index + 1) in
      Full (set_f_release (map (bump_segment old_parts index value) (seq 0 len)) full)
  | MakeStable => Full (clear_suffixes full)
  | BumpPrerelease kind value =>
      let full := set_f_dev None (set_f_post None full) in
      match value with
      | Some value => Full (set_f_pre (Some {| kind := kind; number := value |}) full)
      | None =>
          match f_pre full with
          | Some prerelease =>
              if decide (VersionTypes.kind prerelease = kind) then
                Full (set_f_pre (Some {| kind := VersionTypes.kind prerelease;
                                         number := u64_add (number prerelease) 1 |}) full)
              else Full (set_f_pre (Some {| kind := kind; number := 1 |}) full)
          | None => Full (set_f_pre (Some {| kind := kind; number := 1 |}) full)
          end
      end
  | BumpPost value =>
      let full := set_f_dev None full in
      match value with
      | Some value => Full (set_f_post (Some value) full)
      | None =>
          match f_post full with
          | Some post => Full (set_f_post (Some (u64_add post 1)) full)
          | None => Full (set_f_post (Some 1) full)
          end
      end
  | BumpDev value =>
      match value with
      | Some value => Full (set_f_dev (Some value) full)
      | None =>
          match f_dev full with
          | Some dev => Full (set_f_dev (Some (u64_add dev 1)) full)
          | None => Full (set_f_dev (Some 1) full)
          end
      end
  end.

(** ** Comparison *)

(** The slice padded with zeros to [m] elements. *)
Definition pad (m : nat) (l : list N) : list N := l ++ replicate (m - length l) 0.

(** The loop over the zipped slices: the first difference decides. *)
Fixpoint compare_zip (pairs : list (N * N)) : comparison :=
  match pairs with
  | [] => Eq
  | (this, other) :: rest =>
      match cmp this other with
      | Lt => Lt
      | Eq => compare_zip rest
      | Gt => Gt
      end
  end.

Definition compare_release (this other : list N) : comparison :=
  if Nat.eqb (length this) (length other) then cmp this other
  else
    let m := Nat.max (length this) (length other) in
    compare_zip (combine (pad m this) (pad m other)).

Definition sortable_tuple (version : Version) : N * N * option N * N * LocalVersion :=
  let post := match max version with Some _ => Some u64_MAX | None => post version end in
  match pre version, post, dev version, min version with
  | _, post, _, Some n => (0, 0, post, n, local version)
  | None, None, Some n, None => (1, 0, None, n, local version)
  | Some {| kind := Alpha; number := n |}, post, dev, None =>
      (2, n, post, default u64_MAX dev, local version)
  | Some {| kind := Beta; number := n |}, post, dev, None =>
      (3, n, post, default u64_MAX dev, local version)
  | Some {| kind := Rc; number := n |}, post, dev, None =>
      (4, n, post, default u64_MAX dev, local version)
  | None, None, None, None => (5, 0, None, 0, local version)
  | None, Some post, dev, None => (6, 0, Some post, default u64_MAX dev, local version)
  end.

Definition cmp_slow (self other : Version) : comparison :=
  match cmp (epoch self) (epoch other) with
  | Lt => Lt
  | Gt => Gt
  | Eq =>
      match compare_release (release self) (release other) with
      | Lt => Lt
      | Gt => Gt
      | Eq => cmp (sortable_tuple self) (sortable_tuple other)
      end
  end.

#[export] Instance Version_ord : Ord Version :=
  fun self other =>
    match self, other with
    | Small small1, Small small2 => cmp (repr small1) (repr small2)
    | _, _ => cmp_slow self other
    end.

(** [PartialEq] goes through [cmp]. *)
Definition Version_eq (self other : Version) : bool := cmp_eqb self other.

(** ** [Hash]

    What the implementation feeds to the hasher: one entry per primitive write
    (integers, the discriminants of derived enums, slice lengths, strings). *)

Inductive HashWrite :=
| WriteU64 (n : N)
| WriteDiscriminant (n : N)
| WriteLen (n : nat)
| WriteStr (s : bytes).

Definition hash_option {A} (h : A -> list HashWrite) (o : option A) : list HashWrite :=
  match o with
  | None => [WriteDiscriminant 0]
  | Some a => WriteDiscriminant 1 :: h a
  end.

Definition hash_u64 (n : N) : list HashWrite := [WriteU64 n].

Definition hash_prerelease (p : Prerelease) : list HashWrite :=
  [WriteDiscriminant (match kind p with Alpha => 0 | Beta => 1 | Rc => 2 end); WriteU64 (number p)].

Definition hash_segment (s : LocalSegment) : list HashWrite :=
  match s with
  | LSString s => [WriteDiscriminant 0; WriteStr s]
  | LSNumber n => [WriteDiscriminant 1; WriteU64 n]
  end.

Definition hash_local (l : LocalVersion) : list HashWrite :=
  match l with
  | Segments segments =>
      WriteDiscriminant 0 :: WriteLen (length segments) :: concat (map hash_segment segments)
  | LocalMax => [WriteDiscriminant 1]
  end.

(** [l.iter().skip_while(|x| **x == 0)] *)
Fixpoint skip_zeros (l : list N) : list N :=
  match l with
  | [] => []
  | n :: rest => if n =? 0 then skip_zeros rest else l
  end.

Definition hash (self : Version) : list HashWrite :=
  hash_u64 (epoch self)
  ++ concat (map hash_u64 (skip_zeros (rev (release self))))
  ++ hash_option hash_prerelease (pre self)
  ++ hash_option hash_u64 (dev self)
  ++ hash_option hash_u64 (post self)
  ++ hash_local (local self).

(** ** [Display] *)

Fixpoint show_rest (release : list N) : bytes :=
  match release with
  | [] => []
  | n :: rest => bs "." ++ show_u64 n ++ show_rest rest
  end.

Definition show_release (release : list N) : bytes :=
  match release with
  | [] => []
  | first :: rest => show_u64 first ++ show_rest rest
  end.

Definition show (self : Version) : bytes :=
  (if epoch self =? 0 then [] else show_u64 (epoch self) ++ bs "!")
  ++ show_release (release self)
  ++ match pre self with
     | Some {| kind := kind; number := number |} => PrereleaseKind_show kind ++ show_u64 number
     | None => []
     end
  ++ match post self with Some post => bs ".post" ++ show_u64 post | None => [] end
  ++ match dev self with Some dev => bs ".dev" ++ show_u64 dev | None => [] end
  ++ (if LocalVersion_is_empty (local self) then []
      else match local self with
           | Segments _ => bs "+" ++ LocalVersionSlice_show (local self)
           | LocalMax => bs "+"
           end).
