(* ===== verification/VersionFacts.v ===== *)
(** * Properties of versions

    The packed and the full representation are one abstract value; the order is
    a total preorder that does not depend on the representation. *)

From stdpp Require Import base numbers list strings.
From S2P Require Import Prelude VersionTypes VersionSmall Version.

(** ** Well-formed versions *)

(** The representation invariant: a packed version obeys the packed invariant. *)
Definition repr_wf (v : Version) : Prop :=
  match v with
  | Small s => small_wf s
  | Full _ => True
  end.

(** What the order relies on: of the internal [max] suffixes, a packed version has only
    [max0], the one that the ranges use. *)
Definition version_wf (v : Version) : Prop :=
  match v with
  | Small s => small_wf s /\ (VersionSmall.max s = None \/ VersionSmall.max s = Some 0)
  | Full _ => True
  end.

Lemma version_wf_repr v : version_wf v -> repr_wf v.
Proof. destruct v as [s|f]; [by intros [Hs _]|done]. Qed.

(** The abstract value of a version: its full representation. *)
Abbreviation value := make_full.

Lemma value_epoch v : epoch v = f_epoch (value v).
Proof. by destruct v. Qed.
Lemma value_release v : release v = f_release (value v).
Proof. by destruct v. Qed.
Lemma value_pre v : pre v = f_pre (value v).
Proof. by destruct v. Qed.
Lemma value_post v : post v = f_post (value v).
Proof. by destruct v. Qed.
Lemma value_dev v : dev v = f_dev (value v).
Proof. by destruct v. Qed.
Lemma value_local v : local v = f_local (value v).
Proof. by destruct v. Qed.
Lemma value_min v : min v = f_min (value v).
Proof. by destruct v. Qed.
Lemma value_max v : max v = f_max (value v).
Proof. by destruct v. Qed.

Create Rewrite HintDb value.
#[export] Hint Rewrite value_epoch value_release value_pre value_post value_dev value_local
  value_min value_max : value.

(** ** The setters refine assignments to the abstract value *)

(** The abstract value of a packed version is a function of its release and its
    suffix. *)
Definition suffix_value (rel : list N) (k n : N) : VersionFull :=
  {| f_epoch := 0;
     f_release := rel;
     f_pre := if k =? SUFFIX_PRE_ALPHA then Some {| kind := Alpha; number := n |}
              else if k =? SUFFIX_PRE_BETA then Some {| kind := Beta; number := n |}
              else if k =? SUFFIX_PRE_RC then Some {| kind := Rc; number := n |}
              else None;
     f_post := if k =? SUFFIX_POST then Some n else None;
     f_dev := if k =? SUFFIX_DEV then Some n else None;
     f_local := if k =? SUFFIX_LOCAL then LocalMax else LocalVersion_empty;
     f_min := if k =? SUFFIX_MIN then Some n else None;
     f_max := if k =? SUFFIX_MAX then Some n else None |}.

Lemma value_small s :
  value (Small s) = suffix_value (small_release s) (suffix_kind s) (suffix_version s).
Proof. done. Qed.

Lemma value_suffix_is s s' k n :
  suffix_is s s' k n -> value (Small s') = suffix_value (small_release s) k n.
Proof. intros (_&Hr&Hk&Hn). by rewrite value_small, Hr, Hk, Hn. Qed.

(** Case analysis on the suffix kind of a well-formed packed version. *)
Lemma kind_cases s :
  small_wf s ->
  exists k, suffix_kind s = k /\
    (k = 0 \/ k = 1 \/ k = 2 \/ k = 3 \/ k = 4 \/ k = 5 \/ k = 6 \/ k = 7 \/ k = 8).
Proof. intros Hs. exists (suffix_kind s). pose proof (small_wf_kind s Hs). lia. Qed.

Ltac case_kind s H :=
  let k := fresh "k" in
  let E := fresh "Ek" in
  destruct (kind_cases s H) as (k & E & Hc);
  destruct Hc as [->|[->|[->|[->|[->|[->|[->|[->| ->]]]]]]]].

(** The four setters of a numbered suffix have one shape. *)
Definition set_number (K : N) (s : VersionSmall) (value : option N) : bool * VersionSmall :=
  if negb ((suffix_kind s =? SUFFIX_NONE) || (suffix_kind s =? K)) then
    (bool_decide (value = None), s)
  else
    match value with
    | None => (true, set_suffix_kind s SUFFIX_NONE)
    | Some number =>
        if SUFFIX_VERSION_MASK <? number then (false, s)
        else (true, set_suffix_version (set_suffix_kind s K) number)
    end.

Lemma set_number_spec K s x :
  small_wf s -> K <= 8 -> K <> SUFFIX_NONE -> K <> SUFFIX_LOCAL ->
  match set_number K s x with
  | (true, s') =>
      (x = None /\ s' = s /\ suffix_kind s <> SUFFIX_NONE /\ suffix_kind s <> K) \/
      ((suffix_kind s = SUFFIX_NONE \/ suffix_kind s = K) /\
       match x with
       | None => suffix_is s s' SUFFIX_NONE 0
       | Some n => suffix_is s s' K n
       end)
  | (false, s') => s' = s
  end.
Proof.
  intros Hs HK Hn Hl. unfold set_number.
  destruct (negb _) eqn:E.
  - bool_to_prop. case_bool_decide; [left|]; done.
  - assert (suffix_kind s = SUFFIX_NONE \/ suffix_kind s = K).
    { apply negb_false_iff, orb_true_iff in E as [E|E]; bool_to_prop; auto. }
    destruct x as [n|].
    + destruct (SUFFIX_VERSION_MASK <? n) eqn:En; [done|]. bool_to_prop. right. split; [done|].
      apply set_suffix_spec; try done. unfold SUFFIX_VERSION_MASK in *. pow2. lia.
    + right. split; [done|]. apply set_no_suffix_spec; auto.
Qed.

(** The field [g] writes is the one that suffix kind [K] stores. *)
Class Numbered (K : N) (g : option N -> VersionFull -> VersionFull) : Prop := {
  numbered_kind : K <= 8 /\ K <> SUFFIX_NONE /\ K <> SUFFIX_LOCAL;
  numbered_some : forall rel n,
    g (Some n) (suffix_value rel SUFFIX_NONE 0) = suffix_value rel K n;
  numbered_over : forall rel m y,
    g y (suffix_value rel K m) = g y (suffix_value rel SUFFIX_NONE 0);
  numbered_none : forall rel k m, k <> K -> g None (suffix_value rel k m) = suffix_value rel k m
}.

Ltac numbered :=
  split; [done|done|done|];
  intros rel k m Hk; unfold suffix_value; cbn -[N.eqb]; by rewrite (proj2 (N.eqb_neq _ _) Hk).

#[export] Instance numbered_post : Numbered SUFFIX_POST set_f_post.
Proof. numbered. Qed.
#[export] Instance numbered_dev : Numbered SUFFIX_DEV set_f_dev.
Proof. numbered. Qed.
#[export] Instance numbered_min : Numbered SUFFIX_MIN set_f_min.
Proof. numbered. Qed.
#[export] Instance numbered_max : Numbered SUFFIX_MAX set_f_max.
Proof. numbered. Qed.

(** A method turns [v] into [v'], whose components are [f]; what is unpacked stays so. *)
Definition becomes (v v' : Version) (f : VersionFull) : Prop :=
  repr_wf v' /\ value v' = f /\ match v with Full _ => v' = Full f | Small _ => True end.

Lemma becomes_value v v' f : becomes v v' f -> value v' = f.
Proof. by intros (_&?&_). Qed.

(** A method that keeps [max], clears it or sets it to [max0] keeps versions
    well-formed. *)
Lemma becomes_wf v v' f :
  version_wf v -> becomes v v' f -> f_max f = f_max (value v) \/ f_max f = None \/ f_max f = Some 0 -> version_wf v'.
Proof.
  intros Hw (Hr&E&Hs) Hm. destruct v as [s|g]; [|by subst v']. destruct v' as [s'|f']; [|done]. split; [done|].
  change (VersionSmall.max s') with (f_max (value (Small s'))). rewrite E. destruct Hm as [->|Hm]; [apply Hw|done].
Qed.

(** The shape of [with_post], [with_dev], [with_min] and [with_max]. *)
Definition with_number (K : N) (g : option N -> VersionFull -> VersionFull)
    (self : Version) (x : option N) : Version :=
  match self with
  | Small small =>
      match set_number K small x with
      | (true, small') => Small small'
      | (false, small') => Full (g x (make_full (Small small')))
      end
  | Full full => Full (g x full)
  end.

Section with_number.
Context (K : N) (g : option N -> VersionFull -> VersionFull) `{!Numbered K g}.

Lemma with_number_becomes v x : repr_wf v -> becomes v (with_number K g v x) (g x (value v)).
Proof using All.
  destruct v as [s|f]; [|done]. cbn [repr_wf]. intros Hs. unfold with_number, becomes.
  destruct numbered_kind as (HK&Hn&Hl).
  pose proof (set_number_spec K s x Hs HK Hn Hl) as Hspec.
  destruct (set_number K s x) as [[] s']; [|by subst].
  destruct Hspec as [(->&->&_&Hk)|[Hk Hx]].
  - split_and!; [done| |done]. rewrite value_small. by rewrite numbered_none.
  - split_and!; [by destruct x; destruct Hx| |done]. rewrite (value_small s).
    assert (g x (suffix_value (small_release s) (suffix_kind s) (suffix_version s))
            = g x (suffix_value (small_release s) SUFFIX_NONE 0)) as ->.
    { destruct Hk as [Hk|Hk]; rewrite Hk; [|apply numbered_over].
      by rewrite (small_wf_none s Hs (or_introl Hk)). }
    destruct x as [n|]; rewrite (value_suffix_is s s' _ _ Hx).
    + by rewrite numbered_some.
    + by rewrite numbered_none.
Qed.
End with_number.

Lemma with_post_becomes v x : repr_wf v -> becomes v (with_post v x) (set_f_post x (value v)).
Proof. apply (with_number_becomes SUFFIX_POST set_f_post). Qed.
Lemma with_dev_becomes v x : repr_wf v -> becomes v (with_dev v x) (set_f_dev x (value v)).
Proof. apply (with_number_becomes SUFFIX_DEV set_f_dev). Qed.
Lemma with_min_becomes v x : repr_wf v -> becomes v (with_min v x) (set_f_min x (value v)).
Proof. apply (with_number_becomes SUFFIX_MIN set_f_min). Qed.
Lemma with_max_becomes v x : repr_wf v -> becomes v (with_max v x) (set_f_max x (value v)).
Proof. apply (with_number_becomes SUFFIX_MAX set_f_max). Qed.

Lemma with_post_value v x : version_wf v -> value (with_post v x) = set_f_post x (value v).
Proof. by intros Hw%version_wf_repr%(with_post_becomes v x)%becomes_value. Qed.
Lemma with_post_wf v x : version_wf v -> version_wf (with_post v x).
Proof. intros Hw. eapply becomes_wf; [done|by apply with_post_becomes, version_wf_repr|by left]. Qed.

Lemma with_dev_value v x : version_wf v -> value (with_dev v x) = set_f_dev x (value v).
Proof. by intros Hw%version_wf_repr%(with_dev_becomes v x)%becomes_value. Qed.
Lemma with_dev_wf v x : version_wf v -> version_wf (with_dev v x).
Proof. intros Hw. eapply becomes_wf; [done|by apply with_dev_becomes, version_wf_repr|by left]. Qed.

Lemma with_min_value v x : version_wf v -> value (with_min v x) = set_f_min x (value v).
Proof. by intros Hw%version_wf_repr%(with_min_becomes v x)%becomes_value. Qed.
Lemma with_min_wf v x : version_wf v -> version_wf (with_min v x).
Proof. intros Hw. eapply becomes_wf; [done|by apply with_min_becomes, version_wf_repr|by left]. Qed.

Lemma with_max_value v x : version_wf v -> value (with_max v x) = set_f_max x (value v).
Proof. by intros Hw%version_wf_repr%(with_max_becomes v x)%becomes_value. Qed.
Lemma with_max_wf v x : version_wf v -> x = None \/ x = Some 0 -> version_wf (with_max v x).
Proof. intros Hw Hx. eapply becomes_wf; [done|by apply with_max_becomes, version_wf_repr|by right]. Qed.

Lemma with_epoch_value v x : value (with_epoch v x) = set_f_epoch x (value v).
Proof.
  destruct v as [s|f]; [|done]. unfold with_epoch, VersionSmall.set_epoch.
  destruct (N.eqb_spec x 0) as [->|]; done.
Qed.

Lemma with_epoch_becomes v x : repr_wf v -> becomes v (with_epoch v x) (set_f_epoch x (value v)).
Proof.
  intros Hr. split_and!; [|apply with_epoch_value|by destruct v].
  destruct v as [s|f]; [|done]. unfold with_epoch, VersionSmall.set_epoch. by destruct (x =? 0).
Qed.

Lemma with_epoch_wf v x : version_wf v -> version_wf (with_epoch v x).
Proof. intros Hw. eapply becomes_wf; [done|by apply with_epoch_becomes, version_wf_repr|by left]. Qed.

(** The suffix kind that stores a pre-release. *)
Definition pre_suffix (k : PrereleaseKind) : N :=
  match k with
  | Alpha => SUFFIX_PRE_ALPHA
  | Beta => SUFFIX_PRE_BETA
  | Rc => SUFFIX_PRE_RC
  end.

Lemma set_pre_spec s x :
  small_wf s ->
  match VersionSmall.set_pre s x with
  | (true, s') => small_wf s' /\ value (Small s') = set_f_pre x (value (Small s))
  | (false, s') => s' = s
  end.
Proof.
  intros Hs. unfold VersionSmall.set_pre.
  destruct (negb _) eqn:Eg.
  { case_bool_decide as E; [subst|done]. split; [done|]. rewrite value_small.
    unfold suffix_value, set_f_pre. cbn -[N.eqb]. bool_to_prop.
    by repeat match goal with H : suffix_kind s <> _ |- _ => rewrite (proj2 (N.eqb_neq _ _) H) end. }
  assert (forall y, set_f_pre y (value (Small s))
                    = set_f_pre y (suffix_value (small_release s) SUFFIX_NONE 0)) as Ev.
  { intros y. rewrite value_small. apply negb_false_iff in Eg.
    rewrite !orb_true_iff, !N.eqb_eq in Eg.
    by destruct Eg as [[[E|E]|E]|E]; rewrite E. }
  rewrite Ev. destruct x as [[k n]|].
  - destruct (SUFFIX_VERSION_MASK <? n) eqn:En; [done|]. bool_to_prop.
    assert (n < 2 ^ 20) by (unfold SUFFIX_VERSION_MASK in *; pow2; lia).
    pose proof (set_suffix_spec s (pre_suffix k) n Hs) as Hsp.
    destruct k; (destruct Hsp as (Hw&Hr&Hk&Hn); [done..|];
      split; [done|]; by rewrite value_small; cbn [pre_suffix] in *; rewrite Hr, Hk, Hn).
  - destruct (set_no_suffix_spec s SUFFIX_NONE Hs (or_introl eq_refl)) as (Hw&Hr&Hk&Hn).
    split; [done|]. by rewrite value_small, Hr, Hk, Hn.
Qed.

Lemma with_pre_becomes v x : repr_wf v -> becomes v (with_pre v x) (set_f_pre x (value v)).
Proof.
  destruct v as [s|f]; [|done]. intros Hs. unfold with_pre, becomes.
  pose proof (set_pre_spec s x Hs) as H. destruct (VersionSmall.set_pre s x) as [[] s'].
  - by destruct H.
  - by subst.
Qed.

Lemma with_pre_value v x : version_wf v -> value (with_pre v x) = set_f_pre x (value v).
Proof. by intros Hw%version_wf_repr%(with_pre_becomes v x)%becomes_value. Qed.
Lemma with_pre_wf v x : version_wf v -> version_wf (with_pre v x).
Proof. intros Hw. eapply becomes_wf; [done|by apply with_pre_becomes, version_wf_repr|by left]. Qed.

Lemma set_local_spec s x :
  small_wf s ->
  match VersionSmall.set_local s x with
  | (true, s') => small_wf s' /\ value (Small s') = set_f_local x (value (Small s))
  | (false, s') => s' = s
  end.
Proof.
  intros Hs. unfold VersionSmall.set_local.
  destruct (negb _) eqn:Eg.
  { destruct (LocalVersion_is_empty x) eqn:E; [|done]. apply LocalVersion_is_empty_spec in E as ->.
    split; [done|]. rewrite value_small. unfold suffix_value, set_f_local. cbn -[N.eqb]. bool_to_prop.
    by repeat match goal with H : suffix_kind s <> _ |- _ => rewrite (proj2 (N.eqb_neq _ _) H) end. }
  assert (forall y, set_f_local y (value (Small s))
                    = set_f_local y (suffix_value (small_release s) SUFFIX_NONE 0)) as Ev.
  { intros y. rewrite value_small. apply negb_false_iff in Eg.
    rewrite !orb_true_iff, !N.eqb_eq in Eg. by destruct Eg as [E|E]; rewrite E. }
  rewrite Ev. destruct x as [[|y l]|]; [| done |].
  - destruct (set_no_suffix_spec s SUFFIX_NONE Hs (or_introl eq_refl)) as (Hw&Hr&Hk&Hn).
    split; [done|]. by rewrite value_small, Hr, Hk, Hn.
  - destruct (set_no_suffix_spec s SUFFIX_LOCAL Hs (or_intror eq_refl)) as (Hw&Hr&Hk&Hn).
    split; [done|]. by rewrite value_small, Hr, Hk, Hn.
Qed.

Lemma without_local_becomes v : repr_wf v -> becomes v (without_local v) (set_f_local LocalVersion_empty (value v)).
Proof.
  destruct v as [s|f]; [|done]. intros Hs. unfold without_local, becomes.
  pose proof (set_local_spec s LocalVersion_empty Hs) as H.
  destruct (VersionSmall.set_local s LocalVersion_empty) as [[] s'].
  - by destruct H.
  - by subst.
Qed.

Lemma with_local_becomes v x : repr_wf v -> becomes v (with_local v x) (set_f_local x (value v)).
Proof.
  intros Hw. destruct x as [[|y l]|]; cbn [with_local with_local_segments].
  - by apply without_local_becomes.
  - by destruct v.
  - destruct v as [s|f]; [|done]. unfold becomes. pose proof (set_local_spec s LocalMax Hw) as H.
    destruct (VersionSmall.set_local s LocalMax) as [[] s']; [by destruct H|by subst].
Qed.

Lemma without_local_value v :
  version_wf v -> value (without_local v) = set_f_local LocalVersion_empty (value v).
Proof. by intros Hw%version_wf_repr%without_local_becomes%becomes_value. Qed.
Lemma without_local_wf v : version_wf v -> version_wf (without_local v).
Proof. intros Hw. eapply becomes_wf; [done|by apply without_local_becomes, version_wf_repr|by left]. Qed.

Lemma with_local_value v x : version_wf v -> value (with_local v x) = set_f_local x (value v).
Proof. by intros Hw%version_wf_repr%(with_local_becomes v x)%becomes_value. Qed.
Lemma with_local_wf v x : version_wf v -> version_wf (with_local v x).
Proof. intros Hw. eapply becomes_wf; [done|by apply with_local_becomes, version_wf_repr|by left]. Qed.

(** ** Release segments *)

Lemma push_release_becomes v n : repr_wf v -> becomes v (push_release v n) (set_f_release (release v ++ [n]) (value v)).
Proof.
  destruct v as [s|f]; [|done]. intros Hs. unfold push_release, becomes.
  pose proof (push_release_spec s n Hs) as H.
  destruct (VersionSmall.push_release s n) as [[] s']; [|by subst].
  destruct H as (Hw&Hr&Hk&Hv). split_and!; [done| |done]. by rewrite !value_small, Hr, Hk, Hv.
Qed.

Lemma push_release_value v n :
  version_wf v -> value (push_release v n) = set_f_release (release v ++ [n]) (value v).
Proof. by intros Hw%version_wf_repr%(push_release_becomes v n)%becomes_value. Qed.
Lemma push_release_wf v n : version_wf v -> version_wf (push_release v n).
Proof. intros Hw. eapply becomes_wf; [done|by apply push_release_becomes, version_wf_repr|by left]. Qed.

Lemma clear_release_becomes v : repr_wf v -> becomes v (clear_release v) (set_f_release [] (value v)).
Proof.
  destruct v as [s|f]; [|done]. intros Hs. unfold becomes.
  destruct (clear_release_spec s Hs) as (Hw&Hr&Hk&Hv). cbn [clear_release].
  split_and!; [done| |done]. by rewrite !value_small, Hr, Hk, Hv.
Qed.

Lemma clear_release_value v : version_wf v -> value (clear_release v) = set_f_release [] (value v).
Proof. by intros Hw%version_wf_repr%clear_release_becomes%becomes_value. Qed.
Lemma clear_release_wf v : version_wf v -> version_wf (clear_release v).
Proof. intros Hw. eapply becomes_wf; [done|by apply clear_release_becomes, version_wf_repr|by left]. Qed.

Lemma push_all_becomes ns v :
  repr_wf v -> becomes v (foldl push_release v ns) (set_f_release (release v ++ ns) (value v)).
Proof.
  revert v. induction ns as [|n ns IH]; intros v Hw; cbn [foldl].
  - rewrite app_nil_r, value_release. split_and!; [done|by destruct (value v)|by destruct v as [|[]]].
  - destruct (push_release_becomes v n Hw) as (Hw'&E'&Hf). destruct (IH (push_release v n) Hw') as (Hr&E&Hg).
    assert (set_f_release (release (push_release v n) ++ ns) (value (push_release v n)) = set_f_release (release v ++ n :: ns) (value v)) as Eq.
    { rewrite value_release, E'. cbn. by rewrite <- app_assoc. }
    rewrite Eq in E, Hg. split_and!; [done|done|]. destruct v as [s|f]; [done|]. by rewrite Hf in Hg |- *.
Qed.

(** [with_release] panics on an empty release and stores any other. *)
Lemma with_release_becomes v ns :
  repr_wf v -> ns <> [] -> exists v', with_release v ns = Some v' /\ becomes v v' (set_f_release ns (value v)).
Proof.
  intros Hw Hne. unfold with_release. destruct (clear_release_becomes v Hw) as (Hw'&E'&Hf).
  pose proof (push_all_becomes ns (clear_release v) Hw') as Hb. rewrite value_release, E' in Hb. cbn in Hb.
  destruct Hb as (Hr&E&Hg). rewrite decide_False by by rewrite value_release, E. eexists. split; [done|].
  split_and!; [done|done|]. destruct v as [s|f]; [done|]. by rewrite Hf in Hg |- *.
Qed.

Lemma with_release_spec v ns :
  version_wf v -> ns <> [] ->
  exists v', with_release v ns = Some v' /\ version_wf v' /\
             value v' = set_f_release ns (value v).
Proof.
  intros Hw Hne. destruct (with_release_becomes v ns) as (v'&E&Hb); [by apply version_wf_repr|done|].
  exists v'. split_and!; [done| |by eapply becomes_value]. eapply becomes_wf; [done|done|by left].
Qed.

Lemma with_release_empty v : repr_wf v -> with_release v [] = None.
Proof.
  intros Hw. unfold with_release. cbn [foldl]. rewrite decide_True; [done|].
  by rewrite value_release, (becomes_value _ _ _ (clear_release_becomes v Hw)).
Qed.

Lemma with_release_nil v : version_wf v -> with_release v [] = None.
Proof. intros Hw. by apply with_release_empty, version_wf_repr. Qed.

Lemma new_small_wf : version_wf (Small VersionSmall.new).
Proof. split; [apply new_wf|by left]. Qed.

(** The version that consists of a release only. *)
Definition release_value (ns : list N) : VersionFull :=
  {| f_epoch := 0; f_release := ns; f_pre := None; f_post := None; f_dev := None;
     f_local := LocalVersion_empty; f_min := None; f_max := None |}.

Lemma new_spec ns :
  ns <> [] -> exists v, new ns = Some v /\ version_wf v /\ value v = release_value ns.
Proof.
  intros Hne. destruct (with_release_spec _ ns new_small_wf Hne) as (v&Hn&Hw&Hv).
  exists v. by rewrite Hv.
Qed.

(** ** The order on versions

    [Version::cmp] compares two packed versions as integers and everything else
    component by component. Both are the same total preorder on the abstract
    values, which this file defines and relates to the code. *)

(** ** Release segments are compared after padding with zeros *)

Lemma compare_zip_cmp a b : length a = length b -> compare_zip (combine a b) = cmp a b.
Proof.
  revert b. induction a as [|x a IH]; intros [|y b]; try done. intros [= E].
  cbn [combine compare_zip]. rewrite list_cmp_cons, IH by done. by destruct (cmp x y).
Qed.

Lemma cmp_app_same (a b c : list N) : length a = length b -> cmp (a ++ c) (b ++ c) = cmp a b.
Proof.
  revert b. induction a as [|x a IH]; intros [|y b]; try done.
  - intros _. apply cmp_refl.
  - intros [= E]. cbn [app]. by rewrite !list_cmp_cons, IH.
Qed.

Lemma length_pad m l : (length l <= m)%nat -> length (pad m l) = m.
Proof. intros. unfold pad. rewrite length_app, length_replicate. lia. Qed.

Lemma pad_more m n l :
  (length l <= m)%nat -> (m <= n)%nat -> pad n l = pad m l ++ replicate (n - m) 0.
Proof.
  intros. unfold pad. rewrite <- app_assoc, <- replicate_add. f_equal. f_equal. lia.
Qed.

(** The comparison can be read at any common width. *)
Lemma compare_release_pad m a b :
  (length a <= m)%nat -> (length b <= m)%nat -> compare_release a b = cmp (pad m a) (pad m b).
Proof.
  intros Ha Hb. unfold compare_release. destruct (Nat.eqb_spec (length a) (length b)) as [E|E].
  - unfold pad. rewrite <- E. by rewrite cmp_app_same.
  - set (k := Nat.max (length a) (length b)).
    rewrite compare_zip_cmp by (rewrite !length_pad; lia).
    rewrite (pad_more k m a), (pad_more k m b) by lia.
    rewrite cmp_app_same; [done|]. rewrite !length_pad; lia.
Qed.

Definition release_ord : Ord (list N) := compare_release.

Lemma release_ord_laws : @OrdLaws (list N) release_ord.
Proof.
  split; unfold cmp at 1, release_ord.
  - intros a b. unfold cmp, release_ord.
    set (m := Nat.max (length a) (length b)).
    rewrite !(compare_release_pad m) by lia. apply cmp_opp.
  - intros a b c. unfold cmp at 1 2, release_ord.
    set (m := Nat.max (length a) (Nat.max (length b) (length c))).
    rewrite !(compare_release_pad m) by lia. apply cmp_eq_l.
  - intros a b c. unfold cmp at 1, release_ord.
    set (m := Nat.max (length a) (Nat.max (length b) (length c))).
    rewrite !(compare_release_pad m) by lia. apply cmp_lt_trans.
Qed.

(** Releases compare equal exactly when they agree up to trailing zeros. *)
Lemma pop_zeros_app l n : pop_zeros (l ++ replicate n 0) = pop_zeros l.
Proof.
  induction l as [|x l IH]; cbn [app pop_zeros]; [|by rewrite IH].
  induction n as [|n IH]; [done|]. cbn [replicate pop_zeros]. by rewrite IH.
Qed.

Lemma pop_zeros_pad l : exists n, l = pop_zeros l ++ replicate n 0.
Proof.
  induction l as [|x l [n IH]]; [by exists 0%nat|]. cbn [pop_zeros].
  destruct (pop_zeros l) as [|y l'] eqn:E.
  - destruct (N.eqb_spec x 0) as [->|].
    + exists (S n). cbn. by f_equal.
    + exists n. cbn. by f_equal.
  - exists n. rewrite IH at 1. done.
Qed.

Lemma pad_zeros m (z : list N) p :
  (length (z ++ replicate p 0%N) <= m)%nat -> pad m (z ++ replicate p 0) = pad m z.
Proof.
  rewrite length_app, length_replicate. intros. unfold pad.
  rewrite length_app, length_replicate, <- app_assoc, <- replicate_add. f_equal. f_equal. lia.
Qed.

Lemma compare_release_eq a b : compare_release a b = Eq <-> pop_zeros a = pop_zeros b.
Proof.
  set (m := Nat.max (length a) (length b)).
  rewrite (compare_release_pad m) by lia. rewrite N_list_cmp_eq. split.
  - intros E. apply (f_equal pop_zeros) in E. unfold pad in E. by rewrite !pop_zeros_app in E.
  - intros E. assert (length a <= m /\ length b <= m)%nat as [La Lb] by lia. clearbody m.
    destruct (pop_zeros_pad a) as [p Ha], (pop_zeros_pad b) as [q Hb]. rewrite E in Ha.
    revert Ha Hb. generalize (pop_zeros b) as z. intros z -> ->.
    by rewrite !pad_zeros.
Qed.

(** ** The order on abstract values *)

Definition full_tuple (f : VersionFull) : N * N * option N * N * LocalVersion :=
  sortable_tuple (Full f).

Definition full_key (f : VersionFull) : N * (list N * (N * N * option N * N * LocalVersion)) :=
  (f_epoch f, (f_release f, full_tuple f)).

Definition key_ord : Ord (N * (list N * (N * N * option N * N * LocalVersion))) :=
  @prod_ord N _ _ (@prod_ord (list N) _ release_ord _).

#[export] Instance VersionFull_ord : Ord VersionFull := @cmp_by _ _ key_ord full_key.

#[export] Instance VersionFull_ord_laws : OrdLaws VersionFull.
Proof.
  apply (@cmp_by_laws _ _ key_ord).
  refine (@prod_ord_laws _ _ _ _ _ _).
  refine (@prod_ord_laws _ _ _ release_ord_laws _ _).
Qed.

Lemma VersionFull_cmp f g :
  cmp f g = then_with (cmp (f_epoch f) (f_epoch g))
              (then_with (compare_release (f_release f) (f_release g))
                 (cmp (full_tuple f) (full_tuple g))).
Proof. done. Qed.

Lemma sortable_tuple_value v : sortable_tuple v = full_tuple (value v).
Proof. by destruct v. Qed.

Lemma cmp_slow_value v w : cmp_slow v w = cmp (value v) (value w).
Proof.
  unfold cmp_slow. rewrite VersionFull_cmp, !sortable_tuple_value, !value_epoch, !value_release.
  by destruct (cmp (f_epoch (value v)) (f_epoch (value w))).
Qed.

(** ** Packed words compare like the versions they hold *)

(** Comparing two-digit numbers in base [2 ^ n] digit by digit. *)
Lemma compare_digits n a b c d :
  b < n -> d < n -> (a * n + b ?= c * n + d) = then_with (a ?= c) (b ?= d).
Proof.
  intros Hb Hd. destruct (N.compare_spec a c) as [->|H|H]; cbn.
  - destruct (N.compare_spec b d) as [->|H'|H'].
    + apply N.compare_refl.
    + apply N.compare_lt_iff. lia.
    + apply N.compare_gt_iff. lia.
  - apply N.compare_lt_iff. nia.
  - apply N.compare_gt_iff. nia.
Qed.

Lemma pack_digits r0 r1 r2 r3 k v :
  pack r0 r1 r2 r3 k v
  = ((((r0 * 2 ^ 8 + r1) * 2 ^ 8 + r2) * 2 ^ 8 + r3) * 2 ^ 4 + k) * 2 ^ 20 + v.
Proof. unfold pack. pow2. lia. Qed.

Lemma compare_pack r0 r1 r2 r3 k v q0 q1 q2 q3 l w :
  r1 < 2 ^ 8 -> r2 < 2 ^ 8 -> r3 < 2 ^ 8 -> k < 2 ^ 4 -> v < 2 ^ 20 ->
  q1 < 2 ^ 8 -> q2 < 2 ^ 8 -> q3 < 2 ^ 8 -> l < 2 ^ 4 -> w < 2 ^ 20 ->
  cmp (pack r0 r1 r2 r3 k v) (pack q0 q1 q2 q3 l w)
  = then_with (cmp [r0; r1; r2; r3] [q0; q1; q2; q3]) (then_with (cmp k l) (cmp v w)).
Proof.
  intros. rewrite !pack_digits. unfold cmp at 1, N_ord.
  rewrite !compare_digits by done. rewrite !list_cmp_cons, !then_with_assoc. done.
Qed.

(** Padding the stored segments restores all four. *)
Lemma pad_segments r0 r1 r2 r3 l :
  l <= 4 -> (l = 0 -> r0 = 0) -> (l <= 1 -> r1 = 0) -> (l <= 2 -> r2 = 0) -> (l <= 3 -> r3 = 0) ->
  pad 4 (take (N.to_nat l) [r0; r1; r2; r3]) = [r0; r1; r2; r3].
Proof.
  intros Hl L0 L1 L2 L3.
  assert (l = 0 \/ l = 1 \/ l = 2 \/ l = 3 \/ l = 4) as E by lia.
  destruct E as [->|[->|[->|[->| ->]]]]; cbn; rewrite ?L0, ?L1, ?L2, ?L3 by lia; done.
Qed.

(** The sortable tuple of a packed version, from its suffix. *)
Definition suffix_tuple (k v : N) : N * N * option N * N * LocalVersion :=
  sortable_tuple (Full (suffix_value [] k v)).

Lemma suffix_tuple_cmp k v l w :
  k <= 8 -> l <= 8 -> v < 2 ^ 20 -> w < 2 ^ 20 ->
  (k = SUFFIX_NONE \/ k = SUFFIX_LOCAL -> v = 0) ->
  (l = SUFFIX_NONE \/ l = SUFFIX_LOCAL -> w = 0) ->
  (k = SUFFIX_MAX -> v = 0) -> (l = SUFFIX_MAX -> w = 0) ->
  cmp (suffix_tuple k v) (suffix_tuple l w) = then_with (cmp k l) (cmp v w).
Proof.
  intros Hk Hl Hv Hw Zk Zl Mk Ml.
  assert (k = 0 \/ k = 1 \/ k = 2 \/ k = 3 \/ k = 4 \/ k = 5 \/ k = 6 \/ k = 7 \/ k = 8) as Ck by lia.
  assert (l = 0 \/ l = 1 \/ l = 2 \/ l = 3 \/ l = 4 \/ l = 5 \/ l = 6 \/ l = 7 \/ l = 8) as Cl by lia.
  assert (cmp v u64_MAX = Lt) as Lv by (apply N.compare_lt_iff; unfold u64_MAX; pow2; lia).
  assert (cmp u64_MAX w = Gt) as Lw by (apply N.compare_gt_iff; unfold u64_MAX; pow2; lia).
  destruct Ck as [->|[->|[->|[->|[->|[->|[->|[->| ->]]]]]]]],
           Cl as [->|[->|[->|[->|[->|[->|[->|[->| ->]]]]]]]];
  rewrite ?(Zk (or_introl eq_refl)), ?(Zk (or_intror eq_refl)),
          ?(Zl (or_introl eq_refl)), ?(Zl (or_intror eq_refl)), ?(Mk eq_refl), ?(Ml eq_refl);
  try done.
  1-2: change (then_with (cmp v w) Eq = cmp v w); by destruct (cmp v w).
  1-3: change (then_with (then_with (then_with (cmp v w) Eq) Eq) Eq = cmp v w);
       by destruct (cmp v w).
  1: change (then_with (then_with (cmp v w) Eq) Eq = cmp v w); by destruct (cmp v w).
  - change (then_with (then_with (cmp v u64_MAX) Eq) Eq = Lt). by rewrite Lv.
  - change (then_with (then_with (cmp u64_MAX w) Eq) Eq = Gt). by rewrite Lw.
Qed.

(** The two representations are compared consistently. *)
Lemma cmp_small_slow s t :
  version_wf (Small s) -> version_wf (Small t) ->
  cmp (repr s) (repr t) = cmp (value (Small s)) (value (Small t)).
Proof.
  intros [Hs Ms] [Ht Mt].
  assert (suffix_kind s = SUFFIX_MAX -> suffix_version s = 0) as Zs.
  { intros E. unfold VersionSmall.max in Ms. rewrite E in Ms. naive_solver. }
  assert (suffix_kind t = SUFFIX_MAX -> suffix_version t = 0) as Zt.
  { intros E. unfold VersionSmall.max in Mt. rewrite E in Mt. naive_solver. }
  rewrite !value_small, VersionFull_cmp.
  destruct Hs as (r0&r1&r2&r3&k&v&Hs&?&?&?&?&?&?&Ls&?&?&?&?&?).
  destruct Ht as (q0&q1&q2&q3&l&w&Ht&?&?&?&?&?&?&Lt&?&?&?&?&?).
  assert (k < 2 ^ 4 /\ l < 2 ^ 4) as [? ?] by (pow2; lia).
  rewrite (suffix_kind_pack r0 r1 r2 r3 k v), (suffix_version_pack r0 r1 r2 r3 k v) in * by done.
  rewrite (suffix_kind_pack q0 q1 q2 q3 l w), (suffix_version_pack q0 q1 q2 q3 l w) in * by done.
  rewrite (small_release_pack r0 r1 r2 r3 k v), (small_release_pack q0 q1 q2 q3 l w) by done.
  rewrite Hs, Ht, compare_pack by done. cbn [f_epoch f_release suffix_value].
  change (cmp 0 0) with Eq. cbn [then_with].
  rewrite (compare_release_pad 4) by (rewrite length_take; apply Nat.le_min_r).
  rewrite (pad_segments r0 r1 r2 r3), (pad_segments q0 q1 q2 q3) by done.
  f_equal. symmetry. by apply suffix_tuple_cmp.
Qed.

Lemma cmp_value v w : version_wf v -> version_wf w -> cmp v w = cmp (value v) (value w).
Proof.
  intros Hv Hw. destruct v as [s|f], w as [t|g]; try apply cmp_slow_value.
  by apply cmp_small_slow.
Qed.

(** ** Equality of versions *)

(** A public version: no internal [min] or [max] marker, and no number at the
    saturated value that the order also uses for "no dev" and "max". *)
Definition public (v : Version) : Prop :=
  min v = None /\ max v = None /\ post v <> Some u64_MAX /\ dev v <> Some u64_MAX.

(** The components PEP 440 compares. *)
Definition components (v : Version) :
    N * list N * option Prerelease * option N * option N * LocalVersion :=
  (epoch v, pop_zeros (release v), pre v, post v, dev v, local v).

Lemma tuple_cmp_eq (a b : N * N * option N * N * LocalVersion) : cmp a b = Eq <-> a = b.
Proof.
  split; [|intros ->; apply cmp_refl].
  destruct a as [[[[a1 a2] a3] a4] a5], b as [[[[b1 b2] b3] b4] b5].
  rewrite !prod_cmp, !then_with_eq.
  intros ((((E1&E2)&E3)&E4)&E5).
  apply N_cmp_eq in E1, E2, E4. apply N_option_cmp_eq in E3. apply LocalVersion_cmp_eq in E5.
  by subst.
Qed.

Lemma sortable_tuple_inj v w :
  public v -> public w -> sortable_tuple v = sortable_tuple w ->
  pre v = pre w /\ post v = post w /\ dev v = dev w /\ local v = local w.
Proof.
  intros (Mv&Xv&Pv&Dv) (Mw&Xw&Pw&Dw). unfold sortable_tuple. rewrite Mv, Xv, Mw, Xw.
  destruct (pre v) as [[[] p]|], (post v) as [pv|], (dev v) as [dv|],
           (pre w) as [[[] q]|], (post w) as [pw|], (dev w) as [dw|]; cbn;
  intros [=]; subst; naive_solver.
Qed.

Lemma cmp_slow_eq v w :
  cmp_slow v w = Eq <->
  epoch v = epoch w /\ pop_zeros (release v) = pop_zeros (release w) /\
  sortable_tuple v = sortable_tuple w.
Proof.
  rewrite cmp_slow_value, VersionFull_cmp, !then_with_eq, <- !sortable_tuple_value,
    <- !value_epoch, <- !value_release, compare_release_eq, N_cmp_eq, tuple_cmp_eq. done.
Qed.

Lemma cmp_cmp_slow v w : version_wf v -> version_wf w -> cmp v w = cmp_slow v w.
Proof. intros. by rewrite cmp_slow_value, cmp_value. Qed.

Lemma public_eq_components v w :
  version_wf v -> version_wf w -> public v -> public w ->
  cmp v w = Eq <-> components v = components w.
Proof.
  intros Hv Hw Pv Pw. rewrite cmp_cmp_slow, cmp_slow_eq by done. unfold components. split.
  - intros (E1&E2&E3). destruct (sortable_tuple_inj v w Pv Pw E3) as (?&?&?&?). congruence.
  - intros [= E1 E2 E3 E4 E5 E6]. repeat split; try done.
    unfold sortable_tuple. destruct Pv as (->&->&_), Pw as (->&->&_). by rewrite E3, E4, E5, E6.
Qed.

(** [rev] then [skip_while zero] is [pop_zeros] reversed. *)
Lemma skip_zeros_pop l : skip_zeros (rev l) = rev (pop_zeros l).
Proof.
  induction l as [|x l IH]; [done|]. cbn [rev pop_zeros].
  assert (forall k, skip_zeros k <> [] -> skip_zeros (k ++ [x]) = skip_zeros k ++ [x]) as Hk.
  { induction k as [|y k IHk]; [done|]. cbn. destruct (y =? 0); [apply IHk|done]. }
  assert (forall k, skip_zeros k = [] -> skip_zeros (k ++ [x]) = skip_zeros [x]) as Hn.
  { induction k as [|y k IHk]; [done|]. cbn. destruct (y =? 0); [apply IHk|done]. }
  destruct (pop_zeros l) as [|y l'] eqn:E; cbn in IH.
  - rewrite Hn by done. cbn. by destruct (x =? 0).
  - rewrite Hk; rewrite IH; [done|]. by destruct (rev l').
Qed.

Lemma hash_components v w : components v = components w -> hash v = hash w.
Proof.
  intros [= E1 E2 E3 E4 E5 E6]. unfold hash.
  by rewrite !skip_zeros_pop, E1, E2, E3, E4, E5, E6.
Qed.
