(* ===== verification/VersionParser.v ===== *)
(** * The version parser ([Parser] of [uv-pep440/src/version.rs])

    The parser walks a byte slice with an index and accumulates the components;
    every method is state passing on [Parser]. A failed assertion, an index out
    of bounds and an [expect] on [None] are the outcome [Panic], so that the
    absence of panics is a theorem. *)

From stdpp Require Import base numbers list strings.
From S2P Require Import Prelude VersionTypes VersionSmall Version.

Local Open Scope uv_scope.

(** ** Errors *)

Inductive ErrorKind :=
| Wildcard
| InvalidDigit (got : N)
| NumberTooBig (bytes : bytes)
| NoLeadingNumber
| NoLeadingReleaseNumber
| LocalEmpty (precursor : N)
| UnexpectedEnd (version remaining : bytes).

Inductive PatternErrorKind :=
| PatternVersion (err : ErrorKind)
| WildcardNotTrailing.

(** A computation either reports an error or panics. *)
Inductive failure (E : Type) :=
| Error (e : E)
| Panic.
Arguments Error {E} e.
Arguments Panic {E}.

Abbreviation parse_result A := (result A (failure PatternErrorKind)).

Definition fail {A} (e : ErrorKind) : parse_result A := Err (Error (PatternVersion e)).

(** ** Byte and string sets *)

(** The array [[bool; 256]] as a function of the byte. *)
Definition ByteSet := N -> bool.

Definition set_true (set : ByteSet) (i : N) : ByteSet := fun b => (b =? i) || set b.

Definition ByteSet_new (bytes : bytes) : ByteSet :=
  foldl (fun set b => set_true (set_true set (to_ascii_uppercase b)) (to_ascii_lowercase b))
        (fun _ => false) bytes.

Definition ByteSet_contains (self : ByteSet) (byte : N) : bool := self byte.

Definition ByteSet_starts_with (self : ByteSet) (haystack : bytes) : option N :=
  match haystack with
  | [] => None
  | byte :: _ => if ByteSet_contains self byte then Some byte else None
  end.

Definition starts_with_ignore_ascii_case (needle haystack : bytes) : bool :=
  Nat.leb (length needle) (length haystack)
  && forallb (fun '(b1, b2) => eq_ignore_ascii_case b1 b2) (combine needle haystack).

Record StringSet := { first_byte : ByteSet; strings : list bytes }.

(** [new] fills an array of twenty first bytes, zero where there is no string. *)
Definition StringSet_new (strings : list bytes) : StringSet :=
  {| first_byte :=
       ByteSet_new (map (fun s => default 0 (head s)) strings
                    ++ replicate (20 - length strings) 0);
     strings := strings |}.

Fixpoint find_prefix (first : N) (haystack : bytes) (strings : list bytes) (i : nat) : option nat :=
  match strings with
  | [] => None
  | bytes :: rest =>
      if eq_ignore_ascii_case (default 0 (head bytes)) first
         && starts_with_ignore_ascii_case bytes haystack
      then Some i
      else find_prefix first haystack rest (S i)
  end.

Definition StringSet_starts_with (self : StringSet) (haystack : bytes) : option nat :=
  match ByteSet_starts_with (first_byte self) haystack with
  | None => None
  | Some first => find_prefix first haystack (strings self) 0
  end.

(** ** [ReleaseNumbers] *)

Inductive ReleaseNumbers :=
| Inline (numbers : list N) (len : nat)
| Vec (numbers : list N).

Definition ReleaseNumbers_new : ReleaseNumbers := Inline [0; 0; 0; 0] 0.

(** [None]: the assertion on the inline length fails. *)
Definition ReleaseNumbers_push (self : ReleaseNumbers) (n : N) : option ReleaseNumbers :=
  match self with
  | Inline numbers len =>
      if Nat.leb len 4 then
        if Nat.eqb len 4 then Some (Vec (numbers ++ [n]))
        else Some (Inline (<[len := n]> numbers) (len + 1))
      else None
  | Vec numbers => Some (Vec (numbers ++ [n]))
  end.

Definition ReleaseNumbers_as_slice (self : ReleaseNumbers) : list N :=
  match self with
  | Inline numbers len => take len numbers
  | Vec vec => vec
  end.

Definition ReleaseNumbers_len (self : ReleaseNumbers) : nat :=
  length (ReleaseNumbers_as_slice self).

(** ** [VersionPattern] *)

Record VersionPattern := { version : Version; wildcard : bool }.

(** ** Numbers *)

Definition parse_digit (byte : N) : result N ErrorKind :=
  match checked_sub byte 48 with
  | None => Err (InvalidDigit byte)
  | Some digit => if 9 <? digit then Err (InvalidDigit byte) else Ok digit
  end.

Fixpoint parse_u64_loop (all : bytes) (n : N) (bytes : bytes) : result N ErrorKind :=
  match bytes with
  | [] => Ok n
  | byte :: rest =>
      let? digit := parse_digit byte in
      match checked_mul u64_MAX n 10 with
      | None => Err (NumberTooBig all)
      | Some m =>
          match checked_add u64_MAX m digit with
          | None => Err (NumberTooBig all)
          | Some m => parse_u64_loop all m rest
          end
      end
  end.

Definition parse_u64 (bytes : bytes) : result N ErrorKind := parse_u64_loop bytes 0 bytes.

(** ** The parser state *)

Record Parser := mkParser {
  p_v : bytes;
  p_i : nat;
  p_epoch : N;
  p_release : ReleaseNumbers;
  p_pre : option Prerelease;
  p_post : option N;
  p_dev : option N;
  p_local : list LocalSegment;
  p_wildcard : bool
}.

Definition Parser_new (version : bytes) : Parser :=
  {| p_v := version; p_i := 0; p_epoch := 0; p_release := ReleaseNumbers_new; p_pre := None;
     p_post := None; p_dev := None; p_local := []; p_wildcard := false |}.

Definition with_i (p : Parser) (i : nat) : Parser :=
  mkParser (p_v p) i (p_epoch p) (p_release p) (p_pre p) (p_post p) (p_dev p) (p_local p) (p_wildcard p).
Definition put_epoch (x : N) (p : Parser) : Parser :=
  mkParser (p_v p) (p_i p) x (p_release p) (p_pre p) (p_post p) (p_dev p) (p_local p) (p_wildcard p).
Definition put_release (x : ReleaseNumbers) (p : Parser) : Parser :=
  mkParser (p_v p) (p_i p) (p_epoch p) x (p_pre p) (p_post p) (p_dev p) (p_local p) (p_wildcard p).
Definition put_pre (x : option Prerelease) (p : Parser) : Parser :=
  mkParser (p_v p) (p_i p) (p_epoch p) (p_release p) x (p_post p) (p_dev p) (p_local p) (p_wildcard p).
Definition put_post (x : option N) (p : Parser) : Parser :=
  mkParser (p_v p) (p_i p) (p_epoch p) (p_release p) (p_pre p) x (p_dev p) (p_local p) (p_wildcard p).
Definition put_dev (x : option N) (p : Parser) : Parser :=
  mkParser (p_v p) (p_i p) (p_epoch p) (p_release p) (p_pre p) (p_post p) x (p_local p) (p_wildcard p).
Definition put_local (x : list LocalSegment) (p : Parser) : Parser :=
  mkParser (p_v p) (p_i p) (p_epoch p) (p_release p) (p_pre p) (p_post p) (p_dev p) x (p_wildcard p).
Definition put_wildcard (x : bool) (p : Parser) : Parser :=
  mkParser (p_v p) (p_i p) (p_epoch p) (p_release p) (p_pre p) (p_post p) (p_dev p) (p_local p) x.

(** ** Cursor movements *)

Definition SEPARATOR : ByteSet := ByteSet_new (bs "._-").

Definition is_done (self : Parser) : bool := Nat.leb (length (p_v self)) (p_i self).

(** [&self.v[self.i..]]; [None] when the index is past the end. *)
Definition rest (self : Parser) : option bytes :=
  if Nat.leb (p_i self) (length (p_v self)) then Some (drop (p_i self) (p_v self)) else None.

(** The number of leading bytes of [l] that satisfy the predicate. *)
Fixpoint count_while (predicate : N -> bool) (l : bytes) : nat :=
  match l with
  | [] => O
  | b :: l' => if predicate b then S (count_while predicate l') else O
  end.

(** The loop advances once per byte that satisfies the predicate; the slice from the
    start panics when the start is past the end. *)
Definition bump_while (predicate : N -> bool) (self : Parser) : parse_result (bytes * Parser) :=
  match rest self with
  | None => Err Panic
  | Some remaining =>
      let n := count_while predicate remaining in
      Ok (take n remaining, with_i self (p_i self + n))
  end.

Definition bump_if (string : bytes) (self : Parser) : bool * Parser :=
  if is_done self then (false, self)
  else if starts_with_ignore_ascii_case string (drop (p_i self) (p_v self))
  then (true, with_i self (p_i self + length string))
  else (false, self).

Definition bump_if_string_set (set : StringSet) (self : Parser) : parse_result (option nat * Parser) :=
  match rest self with
  | None => Err Panic
  | Some haystack =>
      match StringSet_starts_with set haystack with
      | None => Ok (None, self)
      | Some index =>
          match strings set !! index with
          | None => Err Panic
          | Some found => Ok (Some index, with_i self (p_i self + length found))
          end
      end
  end.

Definition bump_if_byte_set (set : ByteSet) (self : Parser) : parse_result (option N * Parser) :=
  match rest self with
  | None => Err Panic
  | Some haystack =>
      match ByteSet_starts_with set haystack with
      | None => Ok (None, self)
      | Some found => Ok (Some found, with_i self (p_i self + 1))
      end
  end.

Definition unbump (self : Parser) : parse_result Parser :=
  match p_i self with
  | O => Err Panic
  | S i => Ok (with_i self i)
  end.

Definition reset (offset : nat) (self : Parser) : parse_result Parser :=
  if Nat.leb offset (length (p_v self)) then Ok (with_i self offset) else Err Panic.

(** ** Components *)

Definition parse_number (self : Parser) : parse_result (option N * Parser) :=
  let? '(digits, self) := bump_while is_ascii_digit self in
  match digits with
  | [] => Ok (None, self)
  | _ :: _ =>
      match parse_u64 digits with
      | Ok n => Ok (Some n, self)
      | Err e => fail e
      end
  end.

Definition push_release_number (n : N) (self : Parser) : parse_result Parser :=
  match ReleaseNumbers_push (p_release self) n with
  | Some release => Ok (put_release release self)
  | None => Err Panic
  end.

Definition parse_epoch_and_initial_release (self : Parser) : parse_result Parser :=
  let? '(first_number, self) := parse_number self in
  match first_number with
  | None => fail NoLeadingNumber
  | Some first_number =>
      let '(bumped, self) := bump_if (bs "!") self in
      if bumped then
        let self := put_epoch first_number self in
        let? '(n, self) := parse_number self in
        match n with
        | None => fail NoLeadingReleaseNumber
        | Some n => push_release_number n self
        end
      else push_release_number first_number self
  end.

(** The loop consumes at least one byte per iteration; [fuel] bounds the number
    of iterations and running out of it is reported as a panic. *)
Fixpoint parse_rest_of_release_loop (fuel : nat) (self : Parser) : parse_result Parser :=
  match fuel with
  | O => Err Panic
  | S fuel =>
      let '(bumped, self) := bump_if (bs ".") self in
      if bumped then
        let? '(n, self) := parse_number self in
        match n with
        | None => unbump self
        | Some n =>
            let? self := push_release_number n self in
            parse_rest_of_release_loop fuel self
        end
      else Ok self
  end.

Definition parse_rest_of_release (self : Parser) : parse_result Parser :=
  parse_rest_of_release_loop (S (length (p_v self))) self.

Definition parse_wildcard (self : Parser) : parse_result (bool * Parser) :=
  let '(bumped, self) := bump_if (bs ".*") self in
  if negb bumped then Ok (false, self)
  else if negb (is_done self) then Err (Error WildcardNotTrailing)
  else Ok (true, put_wildcard true self).

Definition PRE_SPELLINGS : StringSet :=
  StringSet_new [bs "alpha"; bs "beta"; bs "preview"; bs "pre"; bs "rc"; bs "a"; bs "b"; bs "c"].

Definition PRE_MAP : list PrereleaseKind := [Alpha; Beta; Rc; Rc; Rc; Alpha; Beta; Rc].

Definition parse_pre (self : Parser) : parse_result Parser :=
  let oldpos := p_i self in
  let? '(_, self) := bump_if_byte_set SEPARATOR self in
  let? '(spelling, self) := bump_if_string_set PRE_SPELLINGS self in
  match spelling with
  | None => reset oldpos self
  | Some spelling =>
      match PRE_MAP !! spelling with
      | None => Err Panic
      | Some kind =>
          let? '(_, self) := bump_if_byte_set SEPARATOR self in
          let? '(number, self) := parse_number self in
          Ok (put_pre (Some {| kind := kind; number := default 0 number |}) self)
      end
  end.

Definition POST_SPELLINGS : StringSet := StringSet_new [bs "post"; bs "rev"; bs "r"].

(** The part of [parse_post] after the implicit form [-N] did not apply. *)
Definition parse_post_spelled (oldpos : nat) (self : Parser) : parse_result Parser :=
  let? '(_, self) := bump_if_byte_set SEPARATOR self in
  let? '(spelling, self) := bump_if_string_set POST_SPELLINGS self in
  match spelling with
  | None => reset oldpos self
  | Some _ =>
      let? '(_, self) := bump_if_byte_set SEPARATOR self in
      let? '(number, self) := parse_number self in
      Ok (put_post (Some (default 0 number)) self)
  end.

Definition parse_post (self : Parser) : parse_result Parser :=
  let oldpos := p_i self in
  let '(bumped, self) := bump_if (bs "-") self in
  if bumped then
    let? '(n, self) := parse_number self in
    match n with
    | Some n => Ok (put_post (Some n) self)
    | None =>
        let? self := reset oldpos self in
        parse_post_spelled oldpos self
    end
  else parse_post_spelled oldpos self.

Definition parse_dev (self : Parser) : parse_result Parser :=
  let oldpos := p_i self in
  let? '(_, self) := bump_if_byte_set SEPARATOR self in
  let '(bumped, self) := bump_if (bs "dev") self in
  if negb bumped then reset oldpos self
  else
    let? '(_, self) := bump_if_byte_set SEPARATOR self in
    let? '(number, self) := parse_number self in
    Ok (put_dev (Some (default 0 number)) self).

(** [String::from_utf8] accepts the bytes: sequences of one to four bytes, without
    overlong forms, surrogates and numbers above the last character. *)
Definition utf8_continuation (b : N) : bool := (128 <=? b) && (b <=? 191).

Definition utf8_second (first second : N) : bool :=
  if first =? 224 then (160 <=? second) && (second <=? 191)
  else if first =? 237 then (128 <=? second) && (second <=? 159)
  else if first =? 240 then (144 <=? second) && (second <=? 191)
  else if first =? 244 then (128 <=? second) && (second <=? 143)
  else utf8_continuation second.

Fixpoint utf8_valid (bytes : bytes) : bool :=
  match bytes with
  | [] => true
  | b0 :: rest =>
      if b0 <? 128 then utf8_valid rest
      else
        match rest with
        | [] => false
        | b1 :: rest =>
            if (194 <=? b0) && (b0 <=? 223) then utf8_continuation b1 && utf8_valid rest
            else
              match rest with
              | [] => false
              | b2 :: rest =>
                  if (224 <=? b0) && (b0 <=? 239) then utf8_second b0 b1 && utf8_continuation b2 && utf8_valid rest
                  else
                    match rest with
                    | [] => false
                    | b3 :: rest =>
                        (240 <=? b0) && (b0 <=? 244) && utf8_second b0 b1 && utf8_continuation b2 && utf8_continuation b3
                        && utf8_valid rest
                    end
              end
        end
  end.

(** [expect("ASCII alphanumerics are always valid UTF-8")] panics on other bytes. *)
Definition local_segment (first : bytes) : parse_result LocalSegment :=
  match parse_u64 first with
  | Ok number => Ok (LSNumber number)
  | Err _ =>
      let string := map to_ascii_lowercase first in
      if utf8_valid string then Ok (LSString string) else Err Panic
  end.

(** One iteration per local segment; [fuel] as in [parse_rest_of_release_loop]. *)
Fixpoint parse_local_loop (fuel : nat) (precursor : N) (self : Parser) : parse_result Parser :=
  match fuel with
  | O => Err Panic
  | S fuel =>
      let? '(first, self) := bump_while is_ascii_alphanumeric self in
      match first with
      | [] => fail (LocalEmpty precursor)
      | _ :: _ =>
          let? segment := local_segment first in
          let self := put_local (p_local self ++ [segment]) self in
          let? '(byte, self) := bump_if_byte_set SEPARATOR self in
          match byte with
          | None => Ok self
          | Some byte => parse_local_loop fuel byte self
          end
      end
  end.

Definition parse_local (self : Parser) : parse_result Parser :=
  let '(bumped, self) := bump_if (bs "+") self in
  if negb bumped then Ok self
  else parse_local_loop (S (length (p_v self))) 43 self.

Definition into_pattern (self : Parser) : parse_result VersionPattern :=
  if Nat.ltb 0 (ReleaseNumbers_len (p_release self)) then
    match Version.new (ReleaseNumbers_as_slice (p_release self)) with
    | None => Err Panic
    | Some version =>
        let version := with_epoch version (p_epoch self) in
        let version := with_pre version (p_pre self) in
        let version := with_post version (p_post self) in
        let version := with_dev version (p_dev self) in
        let version := with_local version (Segments (p_local self)) in
        Ok {| version := version; wildcard := p_wildcard self |}
    end
  else Err Panic.

(** ** The fast path *)

Record fast_state := mkFast {
  prev_digit : bool;
  cur : N;
  fast_release : list N;
  fast_len : nat
}.

(** [*release.get_mut(usize::from(len))? = cur; len += 1] *)
Definition fast_store (st : fast_state) : option fast_state :=
  if Nat.ltb (fast_len st) (length (fast_release st)) then
    Some (mkFast (prev_digit st) (cur st)
            (<[fast_len st := cur st]> (fast_release st)) (fast_len st + 1))
  else None.

Definition fast_byte (st : fast_state) (byte : N) : option fast_state :=
  if byte =? 46 then
    if negb (prev_digit st) then None
    else
      st ← fast_store (mkFast false (cur st) (fast_release st) (fast_len st));
      Some (mkFast (prev_digit st) 0 (fast_release st) (fast_len st))
  else
    digit ← checked_sub byte 48;
    if 9 <? digit then None
    else
      m ← checked_mul u8_MAX (cur st) 10;
      c ← checked_add u8_MAX m digit;
      Some (mkFast true c (fast_release st) (fast_len st)).

Fixpoint fast_loop (st : fast_state) (bytes : bytes) : option fast_state :=
  match bytes with
  | [] => Some st
  | byte :: rest => st ← fast_byte st byte; fast_loop st rest
  end.

Definition parse_fast (self : Parser) : option VersionPattern :=
  st ← fast_loop (mkFast false 0 [0; 0; 0; 0] 0) (p_v self);
  if negb (prev_digit st) then None
  else
    st ← fast_store st;
    let r i := default 0 (fast_release st !! i) in
    let small :=
      {| VersionSmall.repr :=
           N.lor (N.lor (N.lor (N.lor (u64_shl (r 0%nat) 48) (u64_shl (r 1%nat) 40))
                    (u64_shl (r 2%nat) 32)) (u64_shl (r 3%nat) 24))
             (u64_shl SUFFIX_NONE SUFFIX_VERSION_BIT_LEN);
         VersionSmall.len := N.of_nat (fast_len st) |} in
    Some {| version := Small small; wildcard := false |}.

(** ** Entry points *)

(** [parse_pattern] after the fast path declined. *)
Definition parse_general (self : Parser) : parse_result VersionPattern :=
  let? '(_, self) := bump_while is_ascii_whitespace self in
  let '(_, self) := bump_if (bs "v") self in
  let? self := parse_epoch_and_initial_release self in
  let? self := parse_rest_of_release self in
  let? '(found, self) := parse_wildcard self in
  if found then into_pattern self
  else
    let? self := parse_pre self in
    let? self := parse_post self in
    let? self := parse_dev self in
    let? self := parse_local self in
    let? '(_, self) := bump_while is_ascii_whitespace self in
    if negb (is_done self) then
      fail (UnexpectedEnd (take (p_i self) (p_v self)) (drop (p_i self) (p_v self)))
    else into_pattern self.

Definition parse_pattern (self : Parser) : parse_result VersionPattern :=
  match parse_fast self with
  | Some vpat => Ok vpat
  | None => parse_general self
  end.

Definition parse (self : Parser) : result Version (failure ErrorKind) :=
  match parse_pattern self with
  | Ok vpat => if wildcard vpat then Err (Error Wildcard) else Ok (version vpat)
  | Err (Error (PatternVersion err)) => Err (Error err)
  | Err (Error WildcardNotTrailing) => Err (Error Wildcard)
  | Err Panic => Err Panic
  end.

(** [Version::from_str] and [VersionPattern::from_str]. *)
Definition Version_from_str (version : bytes) : result Version (failure ErrorKind) :=
  parse (Parser_new version).

Definition VersionPattern_from_str (version : bytes) : parse_result VersionPattern :=
  parse_pattern (Parser_new version).
