(* ===== verification/ParserFacts.v ===== *)
(** * Lemmas on the version parser

    Reading decimal numbers, moving the cursor over a known prefix, and the
    invariant every parser method keeps. *)

From stdpp Require Import base numbers list strings.
From S2P Require Import Prelude VersionTypes VersionSmall Version VersionFacts VersionParser.

Local Open Scope uv_scope.

(** ** Decimal numbers *)

(** The value of a digit string read after the value [acc]. *)
Definition digits_val (acc : N) (ds : bytes) : N := foldl (fun a d => a * 10 + (d - 48)) acc ds.

Definition all_digits (ds : bytes) : Prop := Forall (fun d => 48 <= d <= 57) ds.

Lemma digits_val_cons a d ds : digits_val a (d :: ds) = digits_val (a * 10 + (d - 48)) ds.
Proof. done. Qed.

Lemma digits_val_ge ds a : a <= digits_val a ds.
Proof.
  revert a. induction ds as [|d ds IH]; intros a; cbn; [done|].
  etransitivity; [|apply IH]. lia.
Qed.

Lemma parse_u64_loop_ok all ds n :
  all_digits ds -> digits_val n ds <= u64_MAX -> parse_u64_loop all n ds = Ok (digits_val n ds).
Proof.
  revert n. induction ds as [|d ds IH]; intros n Hd Hv; [done|].
  inversion Hd as [|? ? Hx Hds]; subst. rewrite digits_val_cons in *. cbn [parse_u64_loop].
  pose proof (digits_val_ge ds (n * 10 + (d - 48))).
  unfold parse_digit, checked_sub, checked_mul, checked_add.
  rewrite (proj2 (N.leb_le 48 d)) by lia.
  rewrite (proj2 (N.ltb_ge 9 (d - 48))) by lia. cbn.
  rewrite (proj2 (N.leb_le (n * 10) u64_MAX)) by lia.
  rewrite (proj2 (N.leb_le (n * 10 + (d - 48)) u64_MAX)) by lia.
  by apply IH.
Qed.

Lemma parse_u64_loop_inv all ds n m :
  n <= u64_MAX -> parse_u64_loop all n ds = Ok m ->
  all_digits ds /\ m = digits_val n ds /\ m <= u64_MAX.
Proof.
  revert n. induction ds as [|d ds IH]; intros n Hn; cbn;
    [intros [= <-]; repeat split; [constructor|done]|].
  unfold parse_digit, checked_sub, checked_mul, checked_add.
  destruct (48 <=? d) eqn:E1; [|done]. destruct (9 <? d - 48) eqn:E2; [done|]. cbn.
  destruct (n * 10 <=? u64_MAX) eqn:E3; [|done].
  destruct (n * 10 + (d - 48) <=? u64_MAX) eqn:E4; [|done]. bool_to_prop.
  intros H. destruct (IH _ E4 H) as (Hd&Hm&Hb). repeat split; try done.
  constructor; [lia|done].
Qed.

Lemma parse_u64_ok ds :
  all_digits ds -> digits_val 0 ds <= u64_MAX -> parse_u64 ds = Ok (digits_val 0 ds).
Proof. apply parse_u64_loop_ok. Qed.

Lemma parse_u64_inv ds m :
  parse_u64 ds = Ok m -> all_digits ds /\ m = digits_val 0 ds /\ m <= u64_MAX.
Proof. by apply parse_u64_loop_inv. Qed.

Lemma digits_aux_val fuel n acc :
  n < 10 ^ N.of_nat fuel -> digits_val 0 (digits_aux fuel n acc) = digits_val n acc.
Proof.
  revert n acc. induction fuel as [|fuel IH]; intros n acc Hn.
  - cbn in Hn. assert (n = 0) as -> by lia. done.
  - cbn [digits_aux]. destruct (N.ltb_spec n 10) as [Hlt|Hge].
    + cbn. f_equal. rewrite N.mod_small by done. lia.
    + rewrite IH.
      * cbn [digits_val foldl]. f_equal. div_lia.
      * rewrite Nat2N.inj_succ, N.pow_succ_r' in Hn. apply N.Div0.div_lt_upper_bound. lia.
Qed.

Lemma digits_aux_digits fuel n acc :
  all_digits acc -> all_digits (digits_aux fuel n acc).
Proof.
  revert n acc. induction fuel as [|fuel IH]; intros n acc Ha; [done|]. cbn [digits_aux].
  assert (all_digits ((48 + n mod 10) :: acc)).
  { constructor; [|done]. div_lia. }
  case_match; [done|by apply IH].
Qed.

Lemma digits_aux_nonempty fuel n acc : acc <> [] -> digits_aux fuel n acc <> [].
Proof.
  revert n acc. induction fuel as [|fuel IH]; intros n acc Ha; [done|]. cbn [digits_aux].
  case_match; [done|by apply IH].
Qed.

Lemma show_u64_digits n : all_digits (show_u64 n).
Proof. apply digits_aux_digits. constructor. Qed.

Lemma show_u64_nonempty n : show_u64 n <> [].
Proof.
  unfold show_u64. cbn [digits_aux]. case_match; [done|]. by apply (digits_aux_nonempty 19).
Qed.

Lemma show_u64_val n : n <= u64_MAX -> digits_val 0 (show_u64 n) = n.
Proof. intros Hn. apply (digits_aux_val 20 n []). unfold u64_MAX in Hn. cbn. lia. Qed.

(** Printing a number and parsing it gives the number back. *)
Lemma parse_show_u64 n : n <= u64_MAX -> parse_u64 (show_u64 n) = Ok n.
Proof.
  intros Hn. rewrite parse_u64_ok; rewrite ?show_u64_val by done; [done| |done].
  apply show_u64_digits.
Qed.

Lemma all_digits_forallb ds : all_digits ds -> forallb is_ascii_digit ds = true.
Proof.
  induction 1 as [|d ds Hd _ IH]; [done|]. cbn. rewrite IH. unfold is_ascii_digit.
  rewrite (proj2 (N.leb_le 48 d)), (proj2 (N.leb_le d 57)) by lia. done.
Qed.

(** ** The cursor *)

(** The cursor of [p] is in range and the unread input is [r]. *)
Definition At (p : Parser) (r : bytes) : Prop :=
  (p_i p <= length (p_v p))%nat /\ drop (p_i p) (p_v p) = r.

Definition advance (p : Parser) (n : nat) : Parser := with_i p (p_i p + n).

Lemma advance_0 p : advance p 0 = p.
Proof. unfold advance. rewrite Nat.add_0_r. by destruct p. Qed.

Lemma advance_advance p a b : advance (advance p a) b = advance p (a + b).
Proof. unfold advance. cbn. by rewrite Nat.add_assoc. Qed.

Lemma At_advance p a b : At p (a ++ b) -> At (advance p (length a)) b.
Proof.
  intros [Hi Hd]. split; cbn.
  - apply (f_equal length) in Hd. rewrite length_drop, length_app in Hd. lia.
  - rewrite <- drop_drop, Hd. apply drop_app_length.
Qed.

Lemma At_is_done p r : At p r -> is_done p = match r with [] => true | _ => false end.
Proof.
  intros [Hi Hd]. unfold is_done. apply (f_equal length) in Hd. rewrite length_drop in Hd.
  destruct r; cbn in Hd.
  - apply Nat.leb_le. lia.
  - apply Nat.leb_gt. lia.
Qed.

Lemma At_rest p r : At p r -> rest p = Some r.
Proof. intros [Hi Hd]. unfold rest. by rewrite (proj2 (Nat.leb_le _ _) Hi), Hd. Qed.

(** What comes next does not satisfy the predicate. *)
Definition stops (pred : N -> bool) (r : bytes) : Prop :=
  match r with
  | [] => True
  | b :: _ => pred b = false
  end.

Lemma count_while_app pred a b :
  forallb pred a = true -> stops pred b -> count_while pred (a ++ b) = length a.
Proof.
  induction a as [|x a IH]; cbn.
  - destruct b; cbn; [done|]. by intros _ ->.
  - intros [-> Ha]%andb_true_iff Hb. by rewrite IH.
Qed.

Lemma At_bump_while pred p a b :
  At p (a ++ b) -> forallb pred a = true -> stops pred b ->
  bump_while pred p = Ok (a, advance p (length a)).
Proof.
  intros HA Ha Hb. unfold bump_while. rewrite (At_rest p _ HA), count_while_app by done.
  by rewrite take_app_length.
Qed.

Lemma At_bump_while_none pred p r :
  At p r -> stops pred r -> bump_while pred p = Ok ([], p).
Proof.
  intros HA Hr. rewrite (At_bump_while pred p [] r) by done. cbn. by rewrite advance_0.
Qed.

Lemma eq_ignore_refl b : eq_ignore_ascii_case b b = true.
Proof. apply N.eqb_refl. Qed.

Lemma starts_with_app s b : starts_with_ignore_ascii_case s (s ++ b) = true.
Proof.
  unfold starts_with_ignore_ascii_case. rewrite length_app.
  rewrite (proj2 (Nat.leb_le _ _)) by lia. cbn.
  induction s as [|x s IH]; [by destruct b|]. cbn. by rewrite eq_ignore_refl.
Qed.

Lemma At_bump_if p s b : s <> [] -> At p (s ++ b) -> bump_if s p = (true, advance p (length s)).
Proof.
  intros Hs HA. unfold bump_if. rewrite (At_is_done p _ HA). destruct HA as [Hi Hd].
  destruct s as [|x s]; [done|]. cbn [app]. change (x :: s ++ b) with ((x :: s) ++ b) in Hd.
  by rewrite Hd, starts_with_app.
Qed.

Lemma At_bump_if_no p s r :
  At p r -> starts_with_ignore_ascii_case s r = false -> bump_if s p = (false, p).
Proof.
  intros HA Hr. unfold bump_if. rewrite (At_is_done p r HA). destruct HA as [Hi Hd].
  destruct r as [|x r]; [done|]. by rewrite Hd, Hr.
Qed.

Lemma At_byte_set p set r :
  At p r ->
  bump_if_byte_set set p
  = match r with
    | b :: _ => if set b then Ok (Some b, advance p 1) else Ok (None, p)
    | [] => Ok (None, p)
    end.
Proof.
  intros HA. unfold bump_if_byte_set. rewrite (At_rest p r HA).
  destruct r as [|x r]; [done|]. cbn. unfold ByteSet_contains. by destruct (set x).
Qed.

Lemma At_string_set p set r i s :
  At p r -> StringSet_starts_with set r = Some i -> strings set !! i = Some s ->
  bump_if_string_set set p = Ok (Some i, advance p (length s)).
Proof. intros HA Hr Hi. unfold bump_if_string_set. by rewrite (At_rest p r HA), Hr, Hi. Qed.

Lemma At_string_set_no p set r :
  At p r -> StringSet_starts_with set r = None -> bump_if_string_set set p = Ok (None, p).
Proof. intros HA Hr. unfold bump_if_string_set. by rewrite (At_rest p r HA), Hr. Qed.

Lemma At_parse_number p ds b :
  At p (ds ++ b) -> ds <> [] -> all_digits ds -> digits_val 0 ds <= u64_MAX ->
  stops is_ascii_digit b ->
  parse_number p = Ok (Some (digits_val 0 ds), advance p (length ds)).
Proof.
  intros HA Hne Hd Hv Hb. unfold parse_number.
  rewrite (At_bump_while is_ascii_digit p ds b) by eauto using all_digits_forallb. cbn [rbind].
  destruct ds as [|d ds]; [done|]. by rewrite parse_u64_ok.
Qed.

Lemma At_parse_number_none p r :
  At p r -> stops is_ascii_digit r -> parse_number p = Ok (None, p).
Proof. intros HA Hr. unfold parse_number. by rewrite (At_bump_while_none _ p r). Qed.

Lemma At_reset p r q : At p r -> p_v q = p_v p -> reset (p_i p) q = Ok (with_i q (p_i p)).
Proof. intros [Hi _] E. unfold reset. rewrite E. by rewrite (proj2 (Nat.leb_le _ _) Hi). Qed.

(** ** Case-insensitive prefixes *)

Lemma starts_with_nil h : starts_with_ignore_ascii_case [] h = true.
Proof. by destruct h. Qed.

Lemma starts_with_cons x s y h :
  starts_with_ignore_ascii_case (x :: s) (y :: h)
  = eq_ignore_ascii_case x y && starts_with_ignore_ascii_case s h.
Proof.
  unfold starts_with_ignore_ascii_case. cbn.
  destruct (Nat.leb _ _), (eq_ignore_ascii_case x y); done.
Qed.

Lemma starts_with_cons_nil x s : starts_with_ignore_ascii_case (x :: s) [] = false.
Proof. done. Qed.

(** A byte that is not a letter only matches itself. *)
Lemma eq_ignore_nonletter x y :
  is_ascii_alphabetic x = false -> eq_ignore_ascii_case x y = (y =? x).
Proof.
  unfold is_ascii_alphabetic, eq_ignore_ascii_case, to_ascii_lowercase, is_ascii_uppercase,
    is_ascii_lowercase. intros Hx. apply orb_false_iff in Hx as [Hl Hu].
  rewrite Hu. destruct ((65 <=? y) && (y <=? 90)) eqn:Ey.
  - bool_to_prop. transitivity false; [|symmetry]; apply N.eqb_neq;
      intros E; subst; rewrite andb_false_iff, !N.leb_gt in *; lia.
  - apply N.eqb_sym.
Qed.

(** A digit never matches a letter. *)
Lemma eq_ignore_digit x d :
  48 <= d <= 57 -> is_ascii_alphabetic x = true -> eq_ignore_ascii_case x d = false.
Proof.
  intros Hd Hx. apply N.eqb_neq. unfold to_ascii_lowercase.
  unfold is_ascii_alphabetic, is_ascii_uppercase, is_ascii_lowercase in *.
  rewrite orb_true_iff, !andb_true_iff, !N.leb_le in Hx.
  destruct ((65 <=? d) && (d <=? 90)) eqn:E; [bool_to_prop; lia|].
  destruct ((65 <=? x) && (x <=? 90)) eqn:E'; bool_to_prop; lia.
Qed.

(** ** The release component *)

Definition number_ok (ds : bytes) : Prop :=
  ds <> [] /\ all_digits ds /\ digits_val 0 ds <= u64_MAX.

Definition dotted (dss : list bytes) : bytes := concat (map (fun ds => 46 :: ds) dss).

(** The unread input does not continue the release. *)
Definition release_end (t : bytes) : Prop :=
  match t with
  | [] => True
  | b :: t' => is_ascii_digit b = false /\ (b = 46 -> stops is_ascii_digit t')
  end.

Lemma release_end_stops t : release_end t -> stops is_ascii_digit t.
Proof. destruct t; [done|]. by intros []. Qed.

Definition rn_inv (r : ReleaseNumbers) : Prop :=
  match r with
  | Inline numbers len => length numbers = 4%nat /\ (len <= 4)%nat
  | Vec _ => True
  end.

Lemma rn_inv_new : rn_inv ReleaseNumbers_new.
Proof. cbn. lia. Qed.
#[export] Hint Resolve rn_inv_new : core.

Lemma rn_push r n :
  rn_inv r ->
  exists r', ReleaseNumbers_push r n = Some r' /\ rn_inv r' /\
             ReleaseNumbers_as_slice r' = ReleaseNumbers_as_slice r ++ [n].
Proof.
  destruct r as [ns l|ns]; cbn; [|by eexists].
  intros [Hn Hl]. rewrite (proj2 (Nat.leb_le _ _) Hl).
  destruct (Nat.eqb_spec l 4) as [->|Hne].
  - eexists. split; [done|]. split; [done|]. cbn. by rewrite take_ge by lia.
  - eexists. split; [done|]. split; [cbn; rewrite length_insert; lia|]. cbn.
    rewrite Nat.add_1_r. rewrite (take_S_r _ l n).
    + by rewrite take_insert_ge by lia.
    + apply list_lookup_insert_eq. lia.
Qed.

Lemma push_number p n :
  rn_inv (p_release p) ->
  exists r', push_release_number n p = Ok (put_release r' p) /\ rn_inv r' /\
             ReleaseNumbers_as_slice r' = ReleaseNumbers_as_slice (p_release p) ++ [n].
Proof.
  intros Hr. destruct (rn_push _ n Hr) as (r'&E&Hr'&Hs). exists r'.
  unfold push_release_number. by rewrite E.
Qed.

Lemma At_put_release p r q : At p r -> At (put_release q p) r.
Proof. done. Qed.

Lemma unbump_advance p : unbump (advance p 1) = Ok p.
Proof. unfold unbump, advance. cbn. rewrite Nat.add_1_r. by destruct p. Qed.

Lemma dot_not_next t : (forall t', t <> 46 :: t') -> starts_with_ignore_ascii_case (bs ".") t = false.
Proof.
  destruct t as [|b t]; [done|]. intros H. change (bs ".") with [46].
  rewrite starts_with_cons, eq_ignore_nonletter by done.
  destruct (N.eqb_spec b 46) as [->|]; [by destruct (H t)|done].
Qed.

Lemma rest_of_release_stop fuel p t :
  At p t -> release_end t -> parse_rest_of_release_loop (S fuel) p = Ok p.
Proof.
  intros HA Ht. cbn [parse_rest_of_release_loop].
  destruct t as [|b t].
  - by rewrite (At_bump_if_no p _ []).
  - destruct (N.eq_dec b 46) as [->|Hne].
    + rewrite (At_bump_if p (bs ".") t) by done.
      rewrite (At_parse_number_none _ t); [|by apply (At_advance p (bs "."))|by apply Ht].
      apply unbump_advance.
    + rewrite (At_bump_if_no p _ (b :: t)); [done..|]. apply dot_not_next. congruence.
Qed.

Lemma rest_of_release_loop dss : forall fuel p t,
  At p (dotted dss ++ t) -> Forall number_ok dss -> release_end t -> rn_inv (p_release p) ->
  (length dss < fuel)%nat ->
  exists r', parse_rest_of_release_loop fuel p = Ok (put_release r' (advance p (length (dotted dss))))
    /\ rn_inv r' /\
    ReleaseNumbers_as_slice r' = ReleaseNumbers_as_slice (p_release p) ++ map (digits_val 0) dss.
Proof.
  induction dss as [|ds dss IH]; intros fuel p t HA Hd Ht Hr Hf; (destruct fuel; [cbn in *; lia|]).
  - exists (p_release p). rewrite (rest_of_release_stop _ p t) by done.
    split; [|split; [done|by rewrite app_nil_r]]. cbn [dotted map concat length].
    rewrite advance_0. by destruct p.
  - inversion Hd as [|? ? Hds Hdss]; subst. destruct Hds as (Hne&Had&Hv).
    change (dotted (ds :: dss)) with (46 :: ds ++ dotted dss) in *.
    cbn [app] in HA. rewrite <- app_assoc in HA. cbn [parse_rest_of_release_loop].
    rewrite (At_bump_if p (bs ".") (ds ++ dotted dss ++ t)) by done.
    pose proof (At_advance p (bs ".") _ HA) as HA1.
    rewrite (At_parse_number _ ds (dotted dss ++ t)); [|done..|].
    2: { destruct dss as [|ds' dss']; [by apply release_end_stops|done]. }
    cbn [rbind].
    pose proof (At_advance _ ds _ HA1) as HA2.
    destruct (push_number (advance (advance p (length (bs "."))) (length ds)) (digits_val 0 ds) Hr)
      as (r1&E1&Hr1&Hs1).
    rewrite E1. cbn [rbind].
    destruct (IH fuel (put_release r1 (advance (advance p (length (bs "."))) (length ds))) t)
      as (r2&E2&Hr2&Hs2); [done..|cbn in Hf; lia|].
    exists r2. rewrite E2. split; [|split; [done|]].
    + f_equal. unfold advance, put_release, with_i. cbn. f_equal. rewrite length_app. lia.
    + rewrite Hs2. cbn [p_release put_release]. rewrite Hs1. cbn. by rewrite <- app_assoc.
Qed.

Definition not_bang (t : bytes) : Prop := match t with b :: _ => b <> 33 | [] => True end.

Lemma bang_not_next t : not_bang t -> starts_with_ignore_ascii_case (bs "!") t = false.
Proof.
  destruct t as [|b t]; [done|]. intros H. change (bs "!") with [33].
  rewrite starts_with_cons, eq_ignore_nonletter by done. by rewrite (proj2 (N.eqb_neq _ _) H).
Qed.

Lemma initial_release p ds t :
  At p (ds ++ t) -> number_ok ds -> stops is_ascii_digit t -> not_bang t -> rn_inv (p_release p) ->
  exists r', parse_epoch_and_initial_release p = Ok (put_release r' (advance p (length ds)))
    /\ rn_inv r' /\
    ReleaseNumbers_as_slice r' = ReleaseNumbers_as_slice (p_release p) ++ [digits_val 0 ds].
Proof.
  intros HA (Hne&Hd&Hv) Ht Hb Hr. unfold parse_epoch_and_initial_release.
  rewrite (At_parse_number p ds t) by done. cbn [rbind].
  rewrite (At_bump_if_no _ _ t); [|by apply At_advance|by apply bang_not_next].
  by apply (push_number (advance p (length ds))).
Qed.

Lemma epoch_and_initial_release p es ds t :
  At p (es ++ 33 :: ds ++ t) -> number_ok es -> number_ok ds -> stops is_ascii_digit t ->
  rn_inv (p_release p) ->
  exists r', parse_epoch_and_initial_release p
    = Ok (put_release r' (put_epoch (digits_val 0 es) (advance p (length es + 1 + length ds))))
    /\ rn_inv r' /\
    ReleaseNumbers_as_slice r' = ReleaseNumbers_as_slice (p_release p) ++ [digits_val 0 ds].
Proof.
  intros HA (Hne&Hd&Hv) (Hne'&Hd'&Hv') Ht Hr. unfold parse_epoch_and_initial_release.
  rewrite (At_parse_number p es (33 :: ds ++ t)) by done. cbn [rbind].
  pose proof (At_advance p es _ HA) as HA1.
  rewrite (At_bump_if _ (bs "!") (ds ++ t)) by done.
  pose proof (At_advance _ (bs "!") _ HA1) as HA2.
  rewrite (At_parse_number _ ds t) by done. cbn [rbind].
  destruct (push_number (advance (put_epoch (digits_val 0 es)
      (advance (advance p (length es)) (length (bs "!")))) (length ds)) (digits_val 0 ds) Hr)
    as (r'&E&Hr'&Hs).
  exists r'. rewrite E. split; [|done]. f_equal.
  unfold advance, put_release, put_epoch, with_i. cbn. f_equal. lia.
Qed.

(** ** The version that is built *)

(** The abstract value of the components a parser has gathered. *)
Definition parsed_value (p : Parser) : VersionFull :=
  {| f_epoch := p_epoch p;
     f_release := ReleaseNumbers_as_slice (p_release p);
     f_pre := p_pre p;
     f_post := p_post p;
     f_dev := p_dev p;
     f_local := Segments (p_local p);
     f_min := None;
     f_max := None |}.

Lemma into_pattern_spec p :
  ReleaseNumbers_as_slice (p_release p) <> [] ->
  exists v, into_pattern p = Ok {| version := v; wildcard := p_wildcard p |} /\
            version_wf v /\ value v = parsed_value p.
Proof.
  intros Hne. unfold into_pattern.
  destruct (Nat.ltb_spec 0 (ReleaseNumbers_len (p_release p))) as [_|H].
  2: { unfold ReleaseNumbers_len in H. destruct (ReleaseNumbers_as_slice (p_release p)); [done|cbn in H; lia]. }
  destruct (new_spec _ Hne) as (v&->&Hw&Hv). eexists. split; [done|].
  assert (version_wf (with_epoch v (p_epoch p))) as W1 by by apply with_epoch_wf.
  assert (version_wf (with_pre (with_epoch v (p_epoch p)) (p_pre p))) as W2 by by apply with_pre_wf.
  assert (version_wf (with_post (with_pre (with_epoch v (p_epoch p)) (p_pre p)) (p_post p))) as W3
    by by apply with_post_wf.
  assert (version_wf (with_dev (with_post (with_pre (with_epoch v (p_epoch p)) (p_pre p)) (p_post p))
    (p_dev p))) as W4 by by apply with_dev_wf.
  split; [by apply with_local_wf|].
  rewrite with_local_value, with_dev_value, with_post_value, with_pre_value, with_epoch_value by done.
  by rewrite Hv.
Qed.

(** ** The tail of the general parser on an input that is only a release *)

Lemma no_wildcard p t :
  At p t -> starts_with_ignore_ascii_case (bs ".*") t = false -> parse_wildcard p = Ok (false, p).
Proof. intros HA Ht. unfold parse_wildcard. by rewrite (At_bump_if_no p _ t). Qed.

Lemma with_i_same p i : i = p_i p -> with_i p i = p.
Proof. intros ->. by destruct p. Qed.

Lemma suffixes_at_end p :
  At p [] ->
  parse_pre p = Ok p /\ parse_post p = Ok p /\ parse_dev p = Ok p /\ parse_local p = Ok p.
Proof.
  intros HA. pose proof (At_byte_set p SEPARATOR [] HA) as Eb.
  pose proof (At_string_set_no p PRE_SPELLINGS [] HA eq_refl) as E1.
  pose proof (At_string_set_no p POST_SPELLINGS [] HA eq_refl) as E2.
  pose proof (At_reset p [] p HA eq_refl) as Er. rewrite with_i_same in Er by done.
  unfold parse_pre, parse_post, parse_post_spelled, parse_dev, parse_local.
  rewrite !(At_bump_if_no p _ [] HA) by done. rewrite Eb. cbn [rbind].
  rewrite !(At_bump_if_no p _ [] HA) by done. rewrite E1, E2. cbn [rbind negb]. by rewrite Er.
Qed.

Lemma digits_not_whitespace d : 48 <= d <= 57 -> is_ascii_whitespace d = false.
Proof. intros. unfold is_ascii_whitespace. rewrite !orb_false_iff, !N.eqb_neq. lia. Qed.

Lemma At_new v : At (Parser_new v) v.
Proof. split; [cbn; lia|done]. Qed.

(** Nothing is skipped before a version that starts with a digit. *)
Lemma skip_prefix p d t :
  At p (d :: t) -> 48 <= d <= 57 ->
  bump_while is_ascii_whitespace p = Ok ([], p) /\ bump_if (bs "v") p = (false, p).
Proof.
  intros HA Hd. split.
  - apply (At_bump_while_none _ p (d :: t)); [done|]. by apply digits_not_whitespace.
  - apply (At_bump_if_no p _ (d :: t)); [done|]. change (bs "v") with [118].
    by rewrite starts_with_cons, (eq_ignore_digit 118 d).
Qed.

Lemma dotted_length dss : Forall number_ok dss -> (length dss <= length (dotted dss))%nat.
Proof.
  induction 1 as [|ds dss _ _ IH]; [done|]. change (dotted (ds :: dss)) with (46 :: ds ++ dotted dss).
  cbn. rewrite length_app. lia.
Qed.

(** A digit string, then dotted digit strings, then the end: a release. *)
Lemma parse_general_release ds dss :
  number_ok ds -> Forall number_ok dss ->
  exists p, parse_general (Parser_new (ds ++ dotted dss)) = into_pattern p /\
    p_epoch p = 0 /\ p_pre p = None /\ p_post p = None /\ p_dev p = None /\ p_local p = [] /\
    p_wildcard p = false /\
    ReleaseNumbers_as_slice (p_release p) = map (digits_val 0) (ds :: dss).
Proof.
  intros Hds Hdss. set (p := Parser_new (ds ++ dotted dss)).
  pose proof (At_new (ds ++ dotted dss)) as HA. fold p in HA.
  assert (exists d t, ds ++ dotted dss = d :: t /\ 48 <= d <= 57) as (d&t&E&Hd).
  { destruct Hds as (Hne&Had&_). destruct ds as [|d ds]; [done|]. inversion Had; subst. eauto. }
  unfold parse_general. rewrite E in HA. destruct (skip_prefix p d t HA Hd) as [-> Ev]. cbn [rbind]. rewrite Ev.
  rewrite <- E in HA.
  assert (stops is_ascii_digit (dotted dss) /\ not_bang (dotted dss)) as [Hst Hnb] by by destruct dss.
  destruct (initial_release p ds (dotted dss)) as (r1&E1&Hr1&Hs1); [by auto..|].
  rewrite E1. cbn [rbind].
  pose proof (At_advance p ds _ HA) as HA1.
  unfold parse_rest_of_release.
  destruct (rest_of_release_loop dss (S (length (p_v p))) (put_release r1 (advance p (length ds))) [])
    as (r2&E2&Hr2&Hs2); [by rewrite app_nil_r|done..| |].
  { cbn. rewrite length_app. pose proof (dotted_length dss Hdss). lia. }
  cbn [p_v put_release advance with_i] in E2 |- *. rewrite E2. cbn [rbind].
  set (q := put_release r2 _).
  assert (At q []) as HA2.
  { apply At_put_release, At_advance. by rewrite app_nil_r. }
  rewrite (no_wildcard q []) by done. cbn [rbind].
  destruct (suffixes_at_end q HA2) as (E3&E4&E5&E6).
  rewrite E3. cbn [rbind]. rewrite E4. cbn [rbind]. rewrite E5. cbn [rbind]. rewrite E6. cbn [rbind].
  rewrite (At_bump_while_none _ q []) by done. cbn [rbind]. rewrite (At_is_done q [] HA2). cbn [negb].
  exists q. repeat split. unfold q. cbn [p_release put_release]. rewrite Hs2.
  cbn [p_release put_release]. by rewrite Hs1.
Qed.

(** ** The fast path of the version parser

    [Parser::parse_fast] reads [w[.x[.y[.z]]]] in one loop and builds the packed
    word itself. Whenever it answers, the general parser gives the same version. *)

(** ** Packed versions are determined by their value *)

Lemma small_len s : small_wf s -> len s = N.of_nat (length (small_release s)).
Proof.
  intros (r0&r1&r2&r3&k&v&Hs&?&?&?&?&?&?&Hl&_).
  rewrite (small_release_pack r0 r1 r2 r3 k v), length_take by (done || (pow2; lia)).
  cbn [length]. lia.
Qed.

Lemma small_ext s t :
  small_wf s -> small_wf t -> small_release s = small_release t ->
  suffix_kind s = suffix_kind t -> suffix_version s = suffix_version t -> s = t.
Proof.
  intros Hs Ht Er Ek Ev. pose proof (small_len s Hs) as Ls. pose proof (small_len t Ht) as Lt.
  assert (len s = len t) as El by by rewrite Ls, Lt, Er.
  destruct s as [ls rs], t as [lt rt]. cbn [len] in El. subst lt. f_equal.
  apply N_cmp_eq. change rs with (repr (mkSmall ls rs)). change rt with (repr (mkSmall ls rt)).
  destruct Hs as (r0&r1&r2&r3&k&v&Hs&?&?&?&?&?&?&Hl&?&?&?&?&?).
  destruct Ht as (q0&q1&q2&q3&l&w&Ht&?&?&?&?&?&?&_&?&?&?&?&?).
  assert (k < 2 ^ 4 /\ l < 2 ^ 4) as [? ?] by (pow2; lia).
  rewrite (suffix_kind_pack r0 r1 r2 r3 k v), (suffix_kind_pack q0 q1 q2 q3 l w) in Ek by done.
  rewrite (suffix_version_pack r0 r1 r2 r3 k v), (suffix_version_pack q0 q1 q2 q3 l w) in Ev by done.
  rewrite (small_release_pack r0 r1 r2 r3 k v), (small_release_pack q0 q1 q2 q3 l w) in Er by done.
  apply (f_equal (pad 4)) in Er. cbn [len] in *.
  rewrite (pad_segments r0 r1 r2 r3), (pad_segments q0 q1 q2 q3) in Er by done.
  injection Er as -> -> -> ->. subst. rewrite Hs, Ht. apply cmp_refl.
Qed.

Lemma small_ext_value s t :
  small_wf s -> small_wf t -> value (Small s) = release_value (small_release t) ->
  suffix_kind t = SUFFIX_NONE -> s = t.
Proof.
  intros Hs Ht E Hk. rewrite value_small in E.
  pose proof (f_equal f_release E) as Er. pose proof (f_equal f_pre E) as Epre.
  pose proof (f_equal f_post E) as Epost. pose proof (f_equal f_dev E) as Edev.
  pose proof (f_equal f_local E) as Eloc. pose proof (f_equal f_min E) as Emin.
  pose proof (f_equal f_max E) as Emax. clear E.
  cbn [f_release f_pre f_post f_dev f_local f_min f_max suffix_value release_value] in *.
  assert (suffix_kind s = SUFFIX_NONE) as Hks.
  { destruct (kind_cases s Hs) as (k&Ek&Hc). rewrite Ek in *.
    destruct Hc as [->|[->|[->|[->|[->|[->|[->|[->| ->]]]]]]]]; done. }
  apply small_ext; try done; [by rewrite Hks, Hk|].
  rewrite (small_wf_none s Hs), (small_wf_none t Ht); auto.
Qed.

(** Small numbers stay packed. *)
Definition is_small (v : Version) : Prop := match v with Small _ => True | Full _ => False end.

Lemma push_small s n :
  small_wf s -> n <= 255 -> len s < 4 -> is_small (push_release (Small s) n).
Proof.
  intros Hs Hn Hl. unfold push_release, VersionSmall.push_release.
  rewrite (proj2 (N.ltb_ge u16_MAX n)) by (unfold u16_MAX; lia).
  rewrite (proj2 (N.ltb_ge u8_MAX n)) by (unfold u8_MAX; lia).
  rewrite (proj2 (N.leb_gt 4 (len s))) by lia. by destruct (len s =? 0).
Qed.

Lemma push_all_small ns : forall v,
  version_wf v -> is_small v -> Forall (fun n => n <= 255) ns ->
  (length (release v) + length ns <= 4)%nat -> is_small (foldl push_release v ns).
Proof.
  induction ns as [|n ns IH]; intros v Hw Hv Hns Hl; [done|].
  inversion Hns; subst. destruct v as [s|f]; [|done]. cbn [foldl].
  pose proof (small_len s (proj1 Hw)) as L. cbn [release length] in *.
  apply IH; [by apply push_release_wf|apply push_small; [apply Hw|done|lia]|done|].
  rewrite value_release, push_release_value by done. cbn. rewrite length_app. cbn. lia.
Qed.

(** Storing "no suffix" never needs the full form. *)
Lemma unset_small t :
  is_small (with_pre (Small t) None) /\ is_small (with_post (Small t) None) /\
  is_small (with_dev (Small t) None) /\ is_small (with_local (Small t) (Segments [])).
Proof.
  split_and!; unfold with_pre, with_post, with_dev, with_local, with_local_segments, without_local,
    VersionSmall.set_pre, VersionSmall.set_post, VersionSmall.set_dev, VersionSmall.set_local;
    destruct (negb _); exact I.
Qed.

Lemma into_pattern_small p :
  p_epoch p = 0 -> p_pre p = None -> p_post p = None -> p_dev p = None -> p_local p = [] ->
  p_wildcard p = false -> ReleaseNumbers_as_slice (p_release p) <> [] ->
  Forall (fun n => n <= 255) (ReleaseNumbers_as_slice (p_release p)) ->
  (length (ReleaseNumbers_as_slice (p_release p)) <= 4)%nat ->
  exists s, into_pattern p = Ok {| version := Small s; wildcard := false |} /\ small_wf s /\
            value (Small s) = release_value (ReleaseNumbers_as_slice (p_release p)).
Proof.
  intros E1 E2 E3 E4 E5 E6 Hne Hns Hl.
  destruct (into_pattern_spec p Hne) as (v&Hp&Hw&Hv).
  assert (value v = release_value (ReleaseNumbers_as_slice (p_release p))) as Hv'.
  { rewrite Hv. unfold parsed_value. by rewrite E1, E2, E3, E4, E5. }
  enough (is_small v) as Hs.
  { destruct v as [s|f]; [|done]. exists s. rewrite Hp, E6. split; [done|]. by destruct Hw. }
  revert Hp. unfold into_pattern. case_match; [|done].
  unfold new, with_release. case_decide; [done|]. rewrite E1, E2, E3, E4, E5.
  assert (is_small (foldl push_release (clear_release (Small VersionSmall.new))
            (ReleaseNumbers_as_slice (p_release p)))) as Hf.
  { apply push_all_small; [apply clear_release_wf, new_small_wf|done|done|done]. }
  destruct (foldl _ _ _) as [s|]; [|done]. intros Hok.
  apply Ok_inj, (f_equal version) in Hok. cbn [version] in Hok. subst v. clear Hw Hv Hv'.
  pose proof (fun t => unset_small t) as Hsm.
  cbn [with_epoch VersionSmall.set_epoch N.eqb negb].
  destruct (Hsm s) as (S1&_). destruct (with_pre (Small s) None) as [s1|]; [|done].
  destruct (Hsm s1) as (_&S2&_). destruct (with_post (Small s1) None) as [s2|]; [|done].
  destruct (Hsm s2) as (_&_&S3&_). destruct (with_dev (Small s2) None) as [s3|]; [|done].
  apply (Hsm s3).
Qed.

(** ** What the loop has read *)

(** The consumed bytes are complete segments, each followed by a dot, and the
    digits of the current one; the state holds their values. *)
Definition fast_rep (c : bytes) (st : fast_state) : Prop :=
  exists dss ds,
    c = concat (map (fun d => d ++ [46]) dss) ++ ds /\
    Forall (fun d => d <> [] /\ all_digits d /\ digits_val 0 d <= 255) dss /\
    all_digits ds /\ digits_val 0 ds <= 255 /\
    (prev_digit st = true <-> ds <> []) /\ cur st = digits_val 0 ds /\
    (length dss <= 4)%nat /\ fast_len st = length dss /\
    fast_release st = map (digits_val 0) dss ++ replicate (4 - length dss) 0.

Lemma digits_val_snoc a ds d : digits_val a (ds ++ [d]) = digits_val a ds * 10 + (d - 48).
Proof. unfold digits_val. by rewrite foldl_app. Qed.

Lemma insert_next (l : list N) n x :
  (length l < n)%nat ->
  <[length l := x]> (l ++ replicate (n - length l) 0) = (l ++ [x]) ++ replicate (n - length (l ++ [x])) 0.
Proof.
  intros H. rewrite insert_app_r_alt by lia. rewrite Nat.sub_diag, length_app. cbn [length].
  destruct (n - length l)%nat as [|k] eqn:E; [lia|]. cbn. rewrite <- app_assoc. cbn.
  f_equal. f_equal. f_equal. lia.
Qed.

Lemma fast_store_some st st' :
  fast_store st = Some st' ->
  (fast_len st < length (fast_release st))%nat /\
  st' = mkFast (prev_digit st) (cur st) (<[fast_len st := cur st]> (fast_release st))
          (fast_len st + 1).
Proof.
  unfold fast_store. destruct (Nat.ltb_spec (fast_len st) (length (fast_release st))); [|done].
  intros [= <-]. done.
Qed.

Lemma fast_byte_rep c st b st' :
  fast_rep c st -> fast_byte st b = Some st' -> fast_rep (c ++ [b]) st'.
Proof.
  intros (dss&ds&->&Hdss&Hds&Hv&Hp&Hc&Hl&Hn&Hr). unfold fast_byte.
  destruct (N.eqb_spec b 46) as [->|Hb].
  - destruct (prev_digit st) eqn:Epd; [|done]. cbn [negb].
    destruct (fast_store _) as [st1|] eqn:Es; [|done]. cbn. intros [= <-].
    apply fast_store_some in Es as [Hlt ->]. cbn in *.
    rewrite Hr, length_app, length_map, length_replicate in Hlt.
    exists (dss ++ [ds]), []. repeat split.
    + rewrite map_app, concat_app. cbn. by rewrite !app_nil_r, <- app_assoc.
    + apply Forall_app. split; [done|]. constructor; [|done]. split; [by apply Hp|done].
    + constructor.
    + done.
    + done.
    + done.
    + rewrite length_app. cbn. lia.
    + rewrite length_app. cbn. lia.
    + rewrite Hr, Hc, Hn, map_app, length_app. cbn.
      rewrite <- (length_map (digits_val 0) dss) at 1 2. rewrite insert_next by (rewrite length_map; lia).
      by rewrite length_app, length_map.
  - unfold checked_sub, checked_mul, checked_add.
    destruct (48 <=? b) eqn:E1; [|done]. cbn. destruct (9 <? b - 48) eqn:E2; [done|].
    destruct (cur st * 10 <=? u8_MAX) eqn:E3; [|done]. cbn.
    destruct (cur st * 10 + (b - 48) <=? u8_MAX) eqn:E4; [|done]. cbn. intros [= <-].
    bool_to_prop. unfold u8_MAX in *.
    exists dss, (ds ++ [b]). repeat split; try done.
    + by rewrite <- app_assoc.
    + apply Forall_app. split; [done|]. constructor; [lia|done].
    + rewrite digits_val_snoc, <- Hc. lia.
    + intros _. by destruct ds.
    + cbn. by rewrite digits_val_snoc, Hc.
Qed.

Lemma fast_loop_rep bytes : forall c st st',
  fast_rep c st -> fast_loop st bytes = Some st' -> fast_rep (c ++ bytes) st'.
Proof.
  induction bytes as [|b bytes IH]; intros c st st' Hr; cbn.
  - intros [= <-]. by rewrite app_nil_r.
  - destruct (fast_byte st b) as [st1|] eqn:E; [|done]. cbn. intros H.
    replace (c ++ b :: bytes) with ((c ++ [b]) ++ bytes) by by rewrite <- app_assoc.
    eapply IH; [|done]. by eapply fast_byte_rep.
Qed.

Lemma fast_rep_init : fast_rep [] (mkFast false 0 [0; 0; 0; 0] 0).
Proof. exists [], []. repeat split; try done; try constructor. cbn. lia. Qed.

(** ** The word the fast path builds *)

Lemma fast_word r0 r1 r2 r3 :
  r0 <= 255 -> r1 <= 255 -> r2 <= 255 -> r3 <= 255 ->
  N.lor (N.lor (N.lor (N.lor (u64_shl r0 48) (u64_shl r1 40)) (u64_shl r2 32)) (u64_shl r3 24))
    (u64_shl SUFFIX_NONE SUFFIX_VERSION_BIT_LEN)
  = pack r0 r1 r2 r3 SUFFIX_NONE 0.
Proof.
  intros. unfold SUFFIX_VERSION_BIT_LEN, SUFFIX_NONE.
  rewrite !u64_shl_small by (pow2; lia).
  rewrite (lor_field _ r1 40 8) by (unfold field; pow2; div_lia).
  rewrite (lor_field _ r2 32 8) by (unfold field; pow2; div_lia).
  rewrite (lor_field _ r3 24 8) by (unfold field; pow2; div_lia).
  rewrite (lor_field _ 5 20 4) by (unfold field; pow2; div_lia).
  unfold pack. pow2. lia.
Qed.

(** Four numbers padded from a list of at most four. *)
Lemma padded_four (ns : list N) :
  (length ns <= 4)%nat ->
  exists r0 r1 r2 r3, ns ++ replicate (4 - length ns) 0 = [r0; r1; r2; r3] /\
    (Forall (fun n => n <= 255) ns -> r0 <= 255 /\ r1 <= 255 /\ r2 <= 255 /\ r3 <= 255) /\
    (length ns = 0%nat -> r0 = 0) /\ ((length ns <= 1)%nat -> r1 = 0) /\
    ((length ns <= 2)%nat -> r2 = 0) /\ ((length ns <= 3)%nat -> r3 = 0).
Proof.
  intros H. destruct ns as [|a [|b [|c [|d [|e ns]]]]]; cbn in H; try lia;
    do 4 eexists; (split; [done|]); split_and!; try done; try (cbn; lia);
    rewrite ?Forall_cons; lia.
Qed.

Lemma fast_small ns :
  (length ns <= 4)%nat -> Forall (fun n => n <= 255) ns -> ns <> [] ->
  let r i := default 0 ((ns ++ replicate (4 - length ns) 0) !! i) in
  let s := {| repr := N.lor (N.lor (N.lor (N.lor (u64_shl (r 0%nat) 48) (u64_shl (r 1%nat) 40))
                    (u64_shl (r 2%nat) 32)) (u64_shl (r 3%nat) 24))
                (u64_shl SUFFIX_NONE SUFFIX_VERSION_BIT_LEN);
              len := N.of_nat (length ns) |} in
  small_wf s /\ small_release s = ns /\ suffix_kind s = SUFFIX_NONE.
Proof.
  intros Hl Hns Hne r s.
  destruct (padded_four ns Hl) as (r0&r1&r2&r3&E&Hb&Z0&Z1&Z2&Z3).
  destruct (Hb Hns) as (B0&B1&B2&B3).
  assert (repr s = pack r0 r1 r2 r3 SUFFIX_NONE 0) as Hs.
  { unfold s, r. cbn [repr]. rewrite E. cbn [lookup list_lookup default].
    by apply fast_word. }
  assert (r0 < 2 ^ 16 /\ r1 < 2 ^ 8 /\ r2 < 2 ^ 8 /\ r3 < 2 ^ 8) as (?&?&?&?) by (pow2; lia).
  assert (len s <= 4) as Hls by (unfold s; cbn [len]; lia).
  split_and!.
  - exists r0, r1, r2, r3, SUFFIX_NONE, 0. split_and!; try done; unfold s; cbn [len]; intros;
      [apply Z0|apply Z1|apply Z2|apply Z3]; lia.
  - rewrite (small_release_pack r0 r1 r2 r3 SUFFIX_NONE 0) by done.
    unfold s. cbn [len]. rewrite Nat2N.id, <- E. by rewrite take_app_length.
  - by apply (suffix_kind_pack r0 r1 r2 r3 SUFFIX_NONE 0).
Qed.

(** Segments with trailing dots, read as a first segment and dotted ones. *)
Lemma concat_dotted dss ds :
  exists d0 rest, concat (map (fun d => d ++ [46]) dss) ++ ds = d0 ++ dotted rest /\
    dss ++ [ds] = d0 :: rest.
Proof.
  induction dss as [|d dss (d0&rest&E&El)].
  - exists ds, []. cbn. by rewrite app_nil_r.
  - exists d, (d0 :: rest). split; [|cbn; by rewrite El]. cbn [map concat].
    rewrite <- !app_assoc, E. done.
Qed.

Lemma fast_number d : d <> [] /\ all_digits d /\ digits_val 0 d <= 255 -> number_ok d.
Proof. intros (?&?&?). repeat split; try done. unfold u64_MAX. lia. Qed.

(** Whenever the fast path answers, the general parser gives the same answer. *)
Lemma parse_fast_general bytes vpat :
  parse_fast (Parser_new bytes) = Some vpat -> parse_general (Parser_new bytes) = Ok vpat.
Proof.
  unfold parse_fast. cbn [p_v Parser_new].
  destruct (fast_loop _ bytes) as [st|] eqn:Eloop; [|done]. cbn [mbind option_bind].
  apply (fast_loop_rep _ [] _ _ fast_rep_init) in Eloop. cbn [app] in Eloop.
  destruct Eloop as (dss&ds&->&Hdss&Hds&Hv&Hp&Hc&Hl&Hn&Hr).
  destruct (prev_digit st) eqn:Epd; [|done]. cbn [negb].
  destruct (fast_store st) as [st1|] eqn:Es; [|done]. cbn [mbind option_bind].
  apply fast_store_some in Es as [Hlt ->]. cbn [fast_release fast_len].
  rewrite Hr, length_app, length_map, length_replicate in Hlt.
  set (ns := map (digits_val 0) (dss ++ [ds])).
  assert (length ns = S (length dss)) as Lns by (unfold ns; rewrite length_map, length_app; cbn; lia).
  assert (Forall (fun d => d <> [] /\ all_digits d /\ digits_val 0 d <= 255) (dss ++ [ds])) as Hall.
  { apply Forall_app. split; [done|]. constructor; [|done]. split; [by apply Hp|done]. }
  assert (<[fast_len st:=cur st]> (fast_release st) = ns ++ replicate (4 - length ns) 0) as Erel.
  { rewrite Hr, Hc, Hn. unfold ns. rewrite map_app. cbn [map].
    rewrite <- (length_map (digits_val 0) dss) at 1 2. rewrite insert_next by (rewrite length_map; lia).
    done. }
  rewrite Erel. intros Hvp. injection Hvp as <-. rewrite Hn, Nat.add_1_r, <- Lns.
  destruct (concat_dotted dss ds) as (d0&rest&Eb&El). rewrite Eb.
  rewrite El in Hall. inversion Hall as [|? ? Hd0 Hrest]; subst.
  destruct (parse_general_release d0 rest) as (p&->&E1&E2&E3&E4&E5&E6&Eslice).
  { by apply fast_number. }
  { eapply Forall_impl; [done|]. apply fast_number. }
  rewrite <- El in Eslice. fold ns in Eslice.
  assert (Forall (fun n => n <= 255) ns) as Hns.
  { unfold ns. rewrite El. apply Forall_map. eapply Forall_impl; [done|]. by intros ? (_&_&?). }
  destruct (fast_small ns) as (Hw&Hrel&Hk); [lia|done|by destruct ns|].
  destruct (into_pattern_small p) as (s&->&Hws&Hvs); [done..| | | |]; rewrite ?Eslice;
    [by destruct ns|done|lia|].
  f_equal. f_equal. f_equal. apply small_ext_value; try done. rewrite Hrel, Hvs. by rewrite Eslice.
Qed.
