(* ===== verification/RoundTrip.v ===== *)
(** * Printing a version and parsing it back

    [Display] writes the normalized form; the parser reads every component of it
    back, so a parsed version is a fixed point of print-then-parse. *)

From stdpp Require Import base numbers list strings.
From S2P Require Import Prelude VersionTypes VersionSmall Version VersionFacts VersionParser ParserFacts.

Local Open Scope uv_scope.

(** ** Printable versions *)

(** A local segment as the parser produces it: a number, or a non-empty
    lower-case alphanumeric string that is not a number. *)
Definition lower_alnum (b : N) : bool := is_ascii_lowercase b || is_ascii_digit b.

Definition segment_ok (s : LocalSegment) : Prop :=
  match s with
  | LSNumber n => n <= u64_MAX
  | LSString s => s <> [] /\ forallb lower_alnum s = true /\ is_ok (parse_u64 s) = false
  end.

Definition local_ok (l : LocalVersion) : Prop :=
  match l with
  | Segments segments => Forall segment_ok segments
  | LocalMax => False
  end.

Definition option_ok (o : option N) : Prop := match o with Some n => n <= u64_MAX | None => True end.
Definition pre_ok (o : option Prerelease) : Prop :=
  match o with Some p => number p <= u64_MAX | None => True end.

(** A full value whose components are in range and that has no internal marker. *)
Definition printable (f : VersionFull) : Prop :=
  f_epoch f <= u64_MAX /\ f_release f <> [] /\ Forall (fun n => n <= u64_MAX) (f_release f) /\
  pre_ok (f_pre f) /\ option_ok (f_post f) /\ option_ok (f_dev f) /\ local_ok (f_local f) /\
  f_min f = None /\ f_max f = None.

(** ** Components *)

Definition show_pre (o : option Prerelease) : bytes :=
  match o with
  | Some {| kind := kind; number := number |} => PrereleaseKind_show kind ++ show_u64 number
  | None => []
  end.
Definition show_post (o : option N) : bytes :=
  match o with Some post => bs ".post" ++ show_u64 post | None => [] end.
Definition show_dev (o : option N) : bytes :=
  match o with Some dev => bs ".dev" ++ show_u64 dev | None => [] end.
Definition show_local (l : LocalVersion) : bytes :=
  if LocalVersion_is_empty l then []
  else match l with
       | Segments _ => bs "+" ++ LocalVersionSlice_show l
       | LocalMax => bs "+"
       end.

Lemma show_value v :
  show v = (if f_epoch (value v) =? 0 then [] else show_u64 (f_epoch (value v)) ++ bs "!")
           ++ show_release (f_release (value v)) ++ show_pre (f_pre (value v))
           ++ show_post (f_post (value v)) ++ show_dev (f_dev (value v))
           ++ show_local (f_local (value v)).
Proof. unfold show. by autorewrite with value. Qed.

Lemma show_u64_cons n : exists d ds, show_u64 n = d :: ds /\ 48 <= d <= 57.
Proof.
  pose proof (show_u64_nonempty n). pose proof (show_u64_digits n) as Hd.
  destruct (show_u64 n) as [|d ds]; [done|]. inversion Hd; subst. eauto.
Qed.

Lemma show_number_ok n : n <= u64_MAX -> number_ok (show_u64 n).
Proof.
  intros Hn. split; [apply show_u64_nonempty|]. split; [apply show_u64_digits|].
  by rewrite show_u64_val.
Qed.

Lemma sep_digit d : 48 <= d <= 57 -> SEPARATOR d = false.
Proof.
  intros Hd. change (SEPARATOR d) with
    ((d =? 45) || ((d =? 45) || ((d =? 95) || ((d =? 95) || ((d =? 46) || ((d =? 46) || false)))))).
  rewrite !orb_false_iff, !N.eqb_neq. lia.
Qed.

(** Reads a printed number at the cursor. *)
Lemma At_show p n t :
  At p (show_u64 n ++ t) -> n <= u64_MAX -> stops is_ascii_digit t ->
  bump_if_byte_set SEPARATOR p = Ok (None, p) /\
  parse_number p = Ok (Some n, advance p (length (show_u64 n))).
Proof.
  intros HA Hn Ht. split.
  - rewrite (At_byte_set p SEPARATOR _ HA). destruct (show_u64_cons n) as (d&ds&->&Hd).
    cbn [app]. by rewrite (sep_digit d Hd).
  - destruct (show_number_ok n Hn) as (?&?&?).
    rewrite (At_parse_number p (show_u64 n) t) by done. by rewrite show_u64_val.
Qed.

Lemma string_set_cons set b h :
  StringSet_starts_with set (b :: h)
  = if first_byte set b then find_prefix b (b :: h) (strings set) 0 else None.
Proof.
  unfold StringSet_starts_with. cbn. unfold ByteSet_contains. by destruct (first_byte set b).
Qed.

(** Evaluates a search for spellings in an input whose next bytes are known. *)
Ltac spell :=
  rewrite string_set_cons;
  match goal with
  | |- context [strings ?set] =>
      let l := eval vm_compute in (strings set) in change (strings set) with l
  end;
  cbn [find_prefix head default id];
  repeat first [rewrite starts_with_cons|rewrite starts_with_nil|rewrite starts_with_cons_nil];
  repeat match goal with
  | |- context [eq_ignore_ascii_case ?x ?y] =>
      is_var y; rewrite (eq_ignore_digit x y) by done
  end;
  vm_compute; reflexivity.

Lemma spelling_pre k d ds :
  48 <= d <= 57 ->
  exists i s, StringSet_starts_with PRE_SPELLINGS (PrereleaseKind_show k ++ d :: ds) = Some i /\
    strings PRE_SPELLINGS !! i = Some s /\ length s = length (PrereleaseKind_show k) /\
    PRE_MAP !! i = Some k.
Proof.
  intros Hd. destruct k.
  - exists 5%nat, (bs "a"). split; [|done]. change (PrereleaseKind_show Alpha ++ d :: ds) with (97 :: d :: ds). spell.
  - exists 6%nat, (bs "b"). split; [|done]. change (PrereleaseKind_show Beta ++ d :: ds) with (98 :: d :: ds). spell.
  - exists 4%nat, (bs "rc"). split; [|done]. change (PrereleaseKind_show Rc ++ d :: ds) with (114 :: 99 :: d :: ds). spell.
Qed.

Lemma parse_pre_some p k n t :
  At p (PrereleaseKind_show k ++ show_u64 n ++ t) -> n <= u64_MAX -> stops is_ascii_digit t ->
  parse_pre p = Ok (put_pre (Some {| kind := k; number := n |})
                     (advance p (length (PrereleaseKind_show k ++ show_u64 n)))).
Proof.
  intros HA Hn Ht. unfold parse_pre.
  assert (bump_if_byte_set SEPARATOR p = Ok (None, p)) as ->.
  { rewrite (At_byte_set p SEPARATOR _ HA). by destruct k. }
  cbn [rbind]. destruct (show_u64_cons n) as (d&ds&E&Hd).
  destruct (spelling_pre k d (ds ++ t) Hd) as (i&s&Hi&Hs&Hl&Hm).
  rewrite (At_string_set p PRE_SPELLINGS _ i s HA); [|by rewrite E|done].
  cbn [rbind]. rewrite Hm, Hl.
  destruct (At_show (advance p (length (PrereleaseKind_show k))) n t) as [E1 E2];
    [by apply At_advance|done..|].
  rewrite E1. cbn [rbind]. rewrite E2. cbn [rbind default].
  rewrite advance_advance, length_app. done.
Qed.

(** The tails that can follow each component in the printed form. *)
Inductive tail_local : bytes -> Prop :=
| tail_end : tail_local []
| tail_plus u : tail_local (bs "+" ++ u).
Inductive tail_dev : bytes -> Prop :=
| tail_dev_local t : tail_local t -> tail_dev t
| tail_dev_dev u : tail_dev (bs ".dev" ++ u).
Inductive tail_post : bytes -> Prop :=
| tail_post_dev t : tail_dev t -> tail_post t
| tail_post_post u : tail_post (bs ".post" ++ u).

Lemma tail_local_show l : local_ok l -> tail_local (show_local l).
Proof. destruct l as [[|x l]|]; [constructor| |done]. intros _. apply (tail_plus _). Qed.

Lemma tail_dev_show o t : tail_local t -> tail_dev (show_dev o ++ t).
Proof.
  destruct o; intros Ht; [|by constructor]. cbn [show_dev]. rewrite <- app_assoc. apply tail_dev_dev.
Qed.

Lemma tail_post_show o t : tail_dev t -> tail_post (show_post o ++ t).
Proof.
  destruct o; intros Ht; [|by constructor]. cbn [show_post]. rewrite <- app_assoc. apply tail_post_post.
Qed.

Lemma tail_post_stops t : tail_post t -> stops is_ascii_digit t.
Proof. by intros [? [? []|]|]. Qed.

(** Backing up over a separator that does not start the component. *)
Lemma back_up p t set :
  At p t -> StringSet_starts_with set t = None ->
  (forall b u, t = b :: u -> SEPARATOR b = true -> StringSet_starts_with set u = None) ->
  exists x q, bump_if_byte_set SEPARATOR p = Ok (x, q) /\
    bump_if_string_set set q = Ok (None, q) /\ reset (p_i p) q = Ok p.
Proof.
  intros HA Ht Hu. rewrite (At_byte_set p SEPARATOR t HA).
  assert (forall q, p_v q = p_v p -> with_i q (p_i p) = p -> reset (p_i p) q = Ok p) as Hres.
  { intros q Hq E. by rewrite (At_reset p t q HA Hq), E. }
  assert (reset (p_i p) p = Ok p) as Hp by (apply Hres; [done|by apply with_i_same]).
  pose proof (At_string_set_no p set t HA Ht) as Eno.
  destruct t as [|b u]; [by eauto|]. destruct (SEPARATOR b) eqn:Eb; [|by eauto].
  do 2 eexists. split; [done|]. split.
  - apply (At_string_set_no _ set u); [by apply (At_advance p [b] u)|by eapply Hu].
  - apply Hres; [done|]. by destruct p.
Qed.

Lemma parse_pre_none p t : At p t -> tail_post t -> parse_pre p = Ok p.
Proof.
  intros HA Ht. destruct (back_up p t PRE_SPELLINGS HA) as (x&q&E1&E2&E3).
  - destruct Ht as [? [? []|]|]; done.
  - intros b u -> Hb. inversion Ht as [? Hd|w Hw]; subst.
    + inversion Hd as [? Hl|w Hw]; subst; [by inversion Hl; subst|]. spell.
    + spell.
  - unfold parse_pre. rewrite E1. cbn [rbind]. rewrite E2. cbn [rbind]. done.
Qed.

Lemma no_hyphen p t : At p t -> tail_post t -> bump_if (bs "-") p = (false, p).
Proof.
  intros HA Ht. apply (At_bump_if_no p _ t HA).
  change (bs "-") with [45]. destruct Ht as [? [? [|u]|u]|u]; [done|..].
  - change (bs "+" ++ u) with (43 :: u). by rewrite starts_with_cons.
  - change (bs ".dev" ++ u) with (46 :: bs "dev" ++ u). by rewrite starts_with_cons.
  - change (bs ".post" ++ u) with (46 :: bs "post" ++ u). by rewrite starts_with_cons.
Qed.

Lemma parse_post_none p t : At p t -> tail_dev t -> parse_post p = Ok p.
Proof.
  intros HA Ht. destruct (back_up p t POST_SPELLINGS HA) as (x&q&E1&E2&E3).
  - destruct Ht as [? []|]; done.
  - intros b u -> Hb. inversion Ht as [? Hl|w Hw]; subst; [by inversion Hl; subst|]. spell.
  - unfold parse_post. rewrite (no_hyphen p t HA) by by constructor.
    unfold parse_post_spelled. rewrite E1. cbn [rbind]. rewrite E2. cbn [rbind]. done.
Qed.

Lemma parse_post_some p n t :
  At p (bs ".post" ++ show_u64 n ++ t) -> n <= u64_MAX -> stops is_ascii_digit t ->
  parse_post p = Ok (put_post (Some n) (advance p (length (bs ".post" ++ show_u64 n)))).
Proof.
  intros HA Hn Ht. unfold parse_post. rewrite (no_hyphen p _ HA) by constructor.
  unfold parse_post_spelled. rewrite (At_byte_set p SEPARATOR _ HA).
  change (bs ".post" ++ show_u64 n ++ t) with (46 :: bs "post" ++ show_u64 n ++ t) in *.
  cbv beta iota. change (SEPARATOR 46) with true. cbn [rbind].
  pose proof (At_advance p [46] _ HA) as HA1. cbn [length] in HA1.
  rewrite (At_string_set _ POST_SPELLINGS _ 0 (bs "post") HA1); [| |done].
  2: { change (bs "post" ++ show_u64 n ++ t) with (112 :: 111 :: 115 :: 116 :: show_u64 n ++ t). spell. }
  cbn [rbind]. pose proof (At_advance _ (bs "post") _ HA1) as HA2.
  destruct (At_show _ n t HA2 Hn Ht) as [E1 E2].
  rewrite E1. cbn [rbind]. rewrite E2. cbn [rbind default]. by rewrite !advance_advance.
Qed.

Lemma parse_dev_some p n t :
  At p (bs ".dev" ++ show_u64 n ++ t) -> n <= u64_MAX -> stops is_ascii_digit t ->
  parse_dev p = Ok (put_dev (Some n) (advance p (length (bs ".dev" ++ show_u64 n)))).
Proof.
  intros HA Hn Ht. unfold parse_dev. rewrite (At_byte_set p SEPARATOR _ HA).
  change (bs ".dev" ++ show_u64 n ++ t) with (46 :: bs "dev" ++ show_u64 n ++ t) in *.
  cbv beta iota. change (SEPARATOR 46) with true. cbn [rbind].
  pose proof (At_advance p [46] _ HA) as HA1. cbn [length] in HA1.
  rewrite (At_bump_if _ (bs "dev") (show_u64 n ++ t)) by done. cbn [negb].
  pose proof (At_advance _ (bs "dev") _ HA1) as HA2.
  destruct (At_show _ n t HA2 Hn Ht) as [E1 E2].
  rewrite E1. cbn [rbind]. rewrite E2. cbn [rbind default]. by rewrite !advance_advance.
Qed.

Lemma parse_dev_none p t : At p t -> tail_local t -> parse_dev p = Ok p.
Proof.
  intros HA Ht. unfold parse_dev. rewrite (At_byte_set p SEPARATOR t HA).
  pose proof (At_reset p t p HA eq_refl) as Er. rewrite with_i_same in Er by done.
  destruct Ht as [|u].
  - cbn [rbind]. by rewrite (At_bump_if_no p _ []).
  - change (bs "+" ++ u) with (43 :: u) in *. cbv beta iota. change (SEPARATOR 43) with false. cbn [rbind].
    rewrite (At_bump_if_no p _ (43 :: u)); [done..|]. change (bs "dev") with [100; 101; 118].
    by rewrite starts_with_cons.
Qed.

(** ** Local segments *)

Lemma lower_alnum_alnum s : forallb lower_alnum s = true -> forallb is_ascii_alphanumeric s = true.
Proof.
  induction s as [|b s IH]; [done|]. cbn. rewrite !andb_true_iff. intros [Hb Hs]. split; [|auto].
  unfold lower_alnum, is_ascii_alphanumeric, is_ascii_alphabetic in *.
  by destruct (is_ascii_lowercase b), (is_ascii_uppercase b), (is_ascii_digit b).
Qed.

Lemma lower_alnum_lowercase s : forallb lower_alnum s = true -> map to_ascii_lowercase s = s.
Proof.
  induction s as [|b s IH]; [done|]. cbn. rewrite andb_true_iff. intros [Hb Hs].
  rewrite IH by done. f_equal. unfold to_ascii_lowercase.
  unfold lower_alnum, is_ascii_lowercase, is_ascii_digit, is_ascii_uppercase in *.
  destruct ((65 <=? b) && (b <=? 90)) eqn:E; [|done].
  rewrite orb_true_iff, !andb_true_iff, !N.leb_le in *. lia.
Qed.

Lemma all_digits_lower ds : all_digits ds -> forallb lower_alnum ds = true.
Proof.
  induction 1 as [|d ds Hd _ IH]; [done|]. cbn. rewrite IH. unfold lower_alnum, is_ascii_digit.
  rewrite (proj2 (N.leb_le 48 d)), (proj2 (N.leb_le d 57)) by lia. by rewrite orb_true_r.
Qed.

Lemma lower_alnum_utf8 s : forallb lower_alnum s = true -> utf8_valid s = true.
Proof.
  induction s as [|c s IH]; [done|]. cbn [forallb utf8_valid]. intros [Hc Hs]%andb_true_iff. rewrite IH by done.
  rewrite (proj2 (N.ltb_lt c 128)); [done|]. unfold lower_alnum, is_ascii_lowercase, is_ascii_digit in Hc.
  rewrite orb_true_iff, !andb_true_iff, !N.leb_le in Hc. lia.
Qed.

Lemma segment_show s :
  segment_ok s ->
  LocalSegment_show s <> [] /\ forallb is_ascii_alphanumeric (LocalSegment_show s) = true /\
  local_segment (LocalSegment_show s) = Ok s.
Proof.
  destruct s as [s|n]; cbn [segment_ok LocalSegment_show].
  - intros (Hne&Hl&Hp). split; [done|]. split; [by apply lower_alnum_alnum|].
    unfold local_segment. destruct (parse_u64 s); [done|]. by rewrite lower_alnum_lowercase, lower_alnum_utf8.
  - intros Hn. split; [apply show_u64_nonempty|]. split.
    + apply lower_alnum_alnum, all_digits_lower, show_u64_digits.
    + unfold local_segment. by rewrite parse_show_u64.
Qed.

Lemma show_segments_first x l : show_segments true (x :: l) = LocalSegment_show x ++ show_segments false l.
Proof. done. Qed.

Lemma parse_local_loop_show l : forall x fuel b p,
  At p (show_segments true (x :: l)) -> segment_ok x -> Forall segment_ok l ->
  (length l < fuel)%nat ->
  parse_local_loop fuel b p
  = Ok (put_local (p_local p ++ x :: l) (advance p (length (show_segments true (x :: l))))).
Proof.
  induction l as [|y l IH]; intros x fuel b p HA Hx Hl Hf; (destruct fuel; [cbn in *; lia|]);
    destruct (segment_show x Hx) as (Hne&Hal&Hseg); cbn [parse_local_loop].
  - cbn [show_segments] in HA. cbn [app] in HA.
    rewrite (At_bump_while is_ascii_alphanumeric p (LocalSegment_show x) []) by done.
    cbn [rbind]. destruct (LocalSegment_show x) as [|c cs] eqn:Ex; [done|]. rewrite Hseg. cbn [rbind].
    pose proof (At_advance p (c :: cs) [] HA) as HA1.
    rewrite (At_byte_set _ SEPARATOR []) by done. cbn [rbind].
    cbn [show_segments]. rewrite Ex. cbn [app]. by rewrite app_nil_r.
  - rewrite show_segments_first in *.
    change (show_segments false (y :: l)) with (46 :: show_segments true (y :: l)) in *.
    rewrite (At_bump_while is_ascii_alphanumeric p _ _ HA) by done.
    cbn [rbind]. destruct (LocalSegment_show x) as [|c cs] eqn:Ex; [done|]. rewrite Hseg. cbn [rbind].
    pose proof (At_advance p (c :: cs) _ HA) as HA1.
    rewrite (At_byte_set _ SEPARATOR (46 :: show_segments true (y :: l))) by done.
    cbv beta iota. change (SEPARATOR 46) with true. cbn [rbind]. inversion Hl; subst.
    pose proof (At_advance _ [46] _ HA1) as HA2. cbn [length] in HA2.
    rewrite (IH y); [|done..|cbn in Hf; lia].
    clear. generalize (show_segments true (y :: l)) as k. intros k.
    f_equal. unfold put_local, advance, with_i. cbn. rewrite <- app_assoc. cbn.
    f_equal. rewrite length_app. cbn. lia.
Qed.

Lemma show_segments_length l : Forall segment_ok l -> (length l <= length (show_segments false l))%nat.
Proof.
  induction 1 as [|x l Hx _ IH]; [done|]. cbn [show_segments]. rewrite !length_app. cbn. lia.
Qed.

Lemma parse_local_show p l :
  At p (show_local l) -> local_ok l ->
  exists n, parse_local p
    = Ok (put_local (match l with Segments [] => p_local p | Segments l => p_local p ++ l | LocalMax => [] end)
            (advance p n)) /\ n = length (show_local l).
Proof.
  intros HA Hl. exists (length (show_local l)). split; [|done]. unfold parse_local.
  destruct l as [[|x l]|]; [| |done].
  - cbn in HA. rewrite (At_bump_if_no p _ []) by done. cbn. rewrite advance_0. by destruct p.
  - change (show_local (Segments (x :: l))) with (bs "+" ++ show_segments true (x :: l)) in *.
    rewrite (At_bump_if p (bs "+") _) by done. cbn [negb]. inversion Hl; subst.
    rewrite (parse_local_loop_show l x); [|by apply (At_advance p (bs "+"))|done|done|].
    + f_equal. unfold put_local, advance, with_i. cbn. f_equal. lia.
    + destruct HA as [Hi Hd]. apply (f_equal length) in Hd. rewrite length_drop, length_app in Hd.
      rewrite show_segments_first, length_app in Hd. pose proof (show_segments_length l ltac:(done)).
      cbn in *. lia.
Qed.

(** ** One lemma per component, present or absent *)

Lemma step_pre p o t :
  At p (show_pre o ++ t) -> pre_ok o -> tail_post t -> p_pre p = None ->
  parse_pre p = Ok (put_pre o (advance p (length (show_pre o)))).
Proof.
  intros HA Ho Ht Hp. destruct o as [[k n]|].
  - cbn [show_pre] in HA. rewrite <- app_assoc in HA.
    by apply (parse_pre_some p k n t HA Ho), tail_post_stops.
  - rewrite (parse_pre_none p t HA Ht). cbn. rewrite advance_0. f_equal.
    destruct p. cbn in Hp. by subst.
Qed.

Lemma step_post p o t :
  At p (show_post o ++ t) -> option_ok o -> tail_dev t -> p_post p = None ->
  parse_post p = Ok (put_post o (advance p (length (show_post o)))).
Proof.
  intros HA Ho Ht Hp. destruct o as [n|].
  - cbn [show_post] in HA. rewrite <- app_assoc in HA.
    apply (parse_post_some p n t HA Ho), tail_post_stops. by constructor.
  - rewrite (parse_post_none p t HA Ht). cbn. rewrite advance_0. f_equal.
    destruct p. cbn in Hp. by subst.
Qed.

Lemma step_dev p o t :
  At p (show_dev o ++ t) -> option_ok o -> tail_local t -> p_dev p = None ->
  parse_dev p = Ok (put_dev o (advance p (length (show_dev o)))).
Proof.
  intros HA Ho Ht Hp. destruct o as [n|].
  - cbn [show_dev] in HA. rewrite <- app_assoc in HA.
    apply (parse_dev_some p n t HA Ho), tail_post_stops. by do 2 constructor.
  - rewrite (parse_dev_none p t HA Ht). cbn. rewrite advance_0. f_equal.
    destruct p. cbn in Hp. by subst.
Qed.

Lemma step_local p l :
  At p (show_local (Segments l)) -> Forall segment_ok l -> p_local p = [] ->
  parse_local p = Ok (put_local l (advance p (length (show_local (Segments l))))).
Proof.
  intros HA Hl Hp. destruct (parse_local_show p (Segments l) HA Hl) as (n&E&->).
  rewrite E, Hp. by destruct l.
Qed.

Lemma release_end_tail o t : pre_ok o -> tail_post t -> release_end (show_pre o ++ t).
Proof.
  intros _ Ht. destruct o as [[[] n]|]; try (split; done).
  cbn [show_pre app]. destruct Ht as [? [? []|]|]; try done; by split.
Qed.

Lemma no_wildcard_tail o t :
  tail_post t -> starts_with_ignore_ascii_case (bs ".*") (show_pre o ++ t) = false.
Proof.
  intros Ht. change (bs ".*") with [46; 42].
  destruct o as [[[] n]|]; cbn [show_pre]; rewrite <- ?app_assoc.
  - change (PrereleaseKind_show Alpha ++ show_u64 n ++ t) with (97 :: show_u64 n ++ t).
    by rewrite starts_with_cons.
  - change (PrereleaseKind_show Beta ++ show_u64 n ++ t) with (98 :: show_u64 n ++ t).
    by rewrite starts_with_cons.
  - change (PrereleaseKind_show Rc ++ show_u64 n ++ t) with (114 :: 99 :: show_u64 n ++ t).
    by rewrite starts_with_cons.
  - cbn [app]. destruct Ht as [? [? [|u]|u]|u]; [done|..].
    + change (bs "+" ++ u) with (43 :: u). by rewrite starts_with_cons.
    + change (bs ".dev" ++ u) with (46 :: 100 :: bs "ev" ++ u). by rewrite !starts_with_cons.
    + change (bs ".post" ++ u) with (46 :: 112 :: bs "ost" ++ u). by rewrite !starts_with_cons.
Qed.

Lemma show_rest_dotted rs : show_rest rs = dotted (map show_u64 rs).
Proof. induction rs as [|r rs IH]; [done|]. cbn [show_rest]. by rewrite IH. Qed.

Lemma show_rest_numbers rs :
  Forall (fun n => n <= u64_MAX) rs ->
  Forall number_ok (map show_u64 rs) /\ map (digits_val 0) (map show_u64 rs) = rs.
Proof.
  induction 1 as [|r rs Hr _ [IH1 IH2]]; [by split|]. cbn [map]. split.
  - constructor; [by apply show_number_ok|done].
  - by rewrite IH2, show_u64_val.
Qed.

(** The epoch and the first release number. *)
Definition show_epoch (e : N) : bytes := if e =? 0 then [] else show_u64 e ++ bs "!".

Lemma step_epoch p e r t :
  At p (show_epoch e ++ show_u64 r ++ t) -> e <= u64_MAX -> r <= u64_MAX ->
  stops is_ascii_digit t -> not_bang t -> rn_inv (p_release p) -> p_epoch p = 0 ->
  exists r1, parse_epoch_and_initial_release p
    = Ok (put_release r1 (put_epoch e (advance p (length (show_epoch e ++ show_u64 r))))) /\
    rn_inv r1 /\ ReleaseNumbers_as_slice r1 = ReleaseNumbers_as_slice (p_release p) ++ [r].
Proof.
  intros HA He Hr Ht Hb Hrn Hp. unfold show_epoch in *. destruct (N.eqb_spec e 0) as [->|Hne].
  - destruct (initial_release p (show_u64 r) t) as (r1&E&Hi&Hs); [by auto using show_number_ok..|].
    exists r1. rewrite E, Hs, show_u64_val by done. split; [|done].
    f_equal. destruct p. cbn in Hp. by subst.
  - rewrite <- app_assoc in HA. cbn [app] in HA.
    destruct (epoch_and_initial_release p (show_u64 e) (show_u64 r) t) as (r1&E&Hi&Hs);
      [by auto using show_number_ok..|].
    exists r1. rewrite E, Hs, !show_u64_val by done. split; [|done].
    by rewrite !length_app.
Qed.

Lemma skip_prefix_show p e r t :
  At p (show_epoch e ++ show_u64 r ++ t) ->
  bump_while is_ascii_whitespace p = Ok ([], p) /\ bump_if (bs "v") p = (false, p).
Proof.
  intros HA. unfold show_epoch in HA.
  destruct (show_u64_cons e) as (d&ds&E&Hd), (show_u64_cons r) as (d'&ds'&E'&Hd').
  destruct (e =? 0).
  - rewrite E' in HA. cbn [app] in HA. by apply (skip_prefix _ _ _ HA).
  - rewrite E in HA. cbn [app] in HA. by apply (skip_prefix _ _ _ HA).
Qed.

(** The printed form of a full value. *)
Definition show_full (f : VersionFull) : bytes :=
  show_epoch (f_epoch f) ++ show_release (f_release f) ++ show_pre (f_pre f)
  ++ show_post (f_post f) ++ show_dev (f_dev f) ++ show_local (f_local f).

(** What [parse_general] does after the release. *)
Definition parse_suffixes (self : Parser) : parse_result VersionPattern :=
  let? '(found, self) := parse_wildcard self in
  if found then into_pattern self
  else
    let? self := parse_pre self in
    let? self := parse_post self in
    let? self := parse_dev self in
    let? self := parse_local self in
    let? '(_, self) := bump_while is_ascii_whitespace self in
    if negb (is_done self) then
      fail (UnexpectedEnd (take (p_i self) (p_v self)) (drop (p_i self) (p_v self)))
    else into_pattern self.

(** The epoch and the release are read; [T] is left. *)
Lemma parse_general_prefix e r rs T :
  e <= u64_MAX -> r <= u64_MAX -> Forall (fun n => n <= u64_MAX) rs ->
  release_end T -> not_bang T ->
  exists p, parse_general (Parser_new (show_epoch e ++ show_u64 r ++ dotted (map show_u64 rs) ++ T))
            = parse_suffixes p /\ At p T /\
    parsed_value p = set_f_epoch e (release_value (r :: rs)) /\ p_wildcard p = false.
Proof.
  intros He Hr Hrs HT HB. destruct (show_rest_numbers rs Hrs) as [Hnum Hval].
  set (D := dotted (map show_u64 rs)). set (txt := show_epoch e ++ show_u64 r ++ D ++ T).
  pose proof (At_new txt) as A0. set (p0 := Parser_new txt) in *.
  unfold parse_general. destruct (skip_prefix_show p0 e r (D ++ T) A0) as [-> Ev]. cbn [rbind]. rewrite Ev.
  assert (stops is_ascii_digit (D ++ T) /\ not_bang (D ++ T)) as [Hst Hnb].
  { unfold D. destruct rs as [|r' rs']; [|by split]. split; [by apply release_end_stops|done]. }
  destruct (step_epoch p0 e r (D ++ T) A0 He Hr Hst Hnb rn_inv_new eq_refl) as (r1&E1&I1&S1).
  rewrite E1. cbn [rbind].
  assert (At (advance p0 (length (show_epoch e ++ show_u64 r))) (D ++ T)) as A1.
  { apply At_advance. by rewrite <- app_assoc. }
  set (p1 := put_release r1 _) in *.
  unfold parse_rest_of_release.
  destruct (rest_of_release_loop (map show_u64 rs) (S (length (p_v p1))) p1 T) as (r2&E2&I2&S2);
    [done..| |].
  { change (p_v p1) with txt. unfold txt. rewrite !length_app. pose proof (dotted_length _ Hnum).
    unfold D. lia. }
  rewrite E2. cbn [rbind]. eexists. split; [done|].
  split; [by apply (At_advance p1 D)|]. split; [|done]. unfold parsed_value, release_value, set_f_epoch.
  cbn. f_equal. rewrite S2. cbn [p1 p_release put_release]. rewrite S1, Hval. done.
Qed.

Lemma not_bang_tail o t : tail_post t -> not_bang (show_pre o ++ t).
Proof. intros Ht. destruct o as [[[] ?]|]; [done..|]. destruct Ht as [? [? []|]|]; done. Qed.

Lemma parse_general_show f :
  printable f ->
  exists q, parse_general (Parser_new (show_full f)) = into_pattern q /\
            parsed_value q = f /\ p_wildcard q = false.
Proof.
  destruct f as [e rel pr po de lo mi ma].
  intros (He&Hne&Hrel&Hpre&Hpost&Hdev&Hloc&Hmin&Hmax).
  cbn in He, Hne, Hrel, Hpre, Hpost, Hdev, Hloc, Hmin, Hmax. subst mi ma.
  destruct rel as [|r rs]; [done|]. destruct lo as [segs|]; [|done].
  inversion Hrel as [|? ? Hr Hrs]; subst.
  unfold show_full. cbn [f_epoch f_release f_pre f_post f_dev f_local show_release].
  rewrite show_rest_dotted, <- app_assoc.
  pose proof (tail_local_show (Segments segs) Hloc) as T1.
  pose proof (tail_dev_show de _ T1) as T2. pose proof (tail_post_show po _ T2) as T3.
  pose proof (release_end_tail pr _ Hpre T3) as T4. pose proof (no_wildcard_tail pr _ T3) as T5.
  destruct (parse_general_prefix e r rs _ He Hr Hrs T4 (not_bang_tail pr _ T3)) as (p2&->&A2&V2&W2).
  unfold parsed_value, set_f_epoch, release_value in V2. cbn in V2.
  injection V2 as Vep Vrel Vpre Vpost Vdev Vloc.
  unfold parse_suffixes. rewrite (no_wildcard p2 _ A2 T5). cbn [rbind].
  rewrite (step_pre p2 pr _ A2 Hpre T3 Vpre). cbn [rbind].
  pose proof (At_advance p2 (show_pre pr) _ A2) as A3. set (p3 := put_pre pr _) in *.
  rewrite (step_post p3 po _ A3 Hpost T2 Vpost). cbn [rbind].
  pose proof (At_advance p3 (show_post po) _ A3) as A4. set (p4 := put_post po _) in *.
  rewrite (step_dev p4 de _ A4 Hdev T1 Vdev). cbn [rbind].
  pose proof (At_advance p4 (show_dev de) _ A4) as A5. set (p5 := put_dev de _) in *.
  rewrite (step_local p5 segs A5 Hloc Vloc). cbn [rbind].
  assert (At (advance p5 (length (show_local (Segments segs)))) []) as A6
    by (apply At_advance; by rewrite app_nil_r).
  set (p6 := put_local segs _) in *.
  rewrite (At_bump_while_none _ p6 [] A6 I). cbn [rbind]. rewrite (At_is_done p6 [] A6). cbn [negb].
  exists p6. split; [done|]. split; [|done]. unfold parsed_value. cbn. by rewrite Vep, Vrel.
Qed.

(** Epoch and release followed by [.*]. *)
Lemma parse_general_star e r rs :
  e <= u64_MAX -> r <= u64_MAX -> Forall (fun n => n <= u64_MAX) rs ->
  exists q, parse_general (Parser_new (show_full (set_f_epoch e (release_value (r :: rs))) ++ bs ".*"))
            = into_pattern q /\
    parsed_value q = set_f_epoch e (release_value (r :: rs)) /\ p_wildcard q = true.
Proof.
  intros He Hr Hrs. unfold show_full.
  cbn [f_epoch f_release f_pre f_post f_dev f_local show_release set_f_epoch release_value
       show_pre show_post show_dev show_local LocalVersion_empty LocalVersion_is_empty].
  rewrite !app_nil_r, show_rest_dotted, <- !app_assoc.
  destruct (parse_general_prefix e r rs (bs ".*") He Hr Hrs) as (p&->&A&V&W); [by split|done|].
  unfold parse_suffixes, parse_wildcard. rewrite (At_bump_if p (bs ".*") []) by done. cbn [negb].
  rewrite (At_is_done _ []) by (apply At_advance; by rewrite app_nil_r). cbn [negb rbind].
  eexists. split; [done|]. split; [|done]. exact V.
Qed.
