(* ===== verification/ParserSafe.v ===== *)
(** * What the version parser guarantees on every input

    A triple for parser computations: from a state that satisfies the invariant,
    a method returns a state that satisfies it again or reports an error, and it
    never panics: no index is out of bounds, no assertion fails, no loop runs out
    of fuel. The invariant also bounds every component that is gathered. *)

From stdpp Require Import base numbers list strings.
From S2P Require Import Prelude VersionTypes VersionSmall Version VersionFacts VersionParser ParserFacts RoundTrip.

Local Open Scope uv_scope.

(** ** The invariant *)

(** The components gathered so far can be printed and read back. *)
Definition components_ok (p : Parser) : Prop :=
  p_epoch p <= u64_MAX /\
  Forall (fun n => n <= u64_MAX) (ReleaseNumbers_as_slice (p_release p)) /\
  pre_ok (p_pre p) /\ option_ok (p_post p) /\ option_ok (p_dev p) /\
  Forall segment_ok (p_local p).

(** [p] works on the input [v] with its cursor at [i] or further. *)
Definition Inv (v : bytes) (i : nat) (p : Parser) : Prop :=
  p_v p = v /\ (i <= p_i p <= length v)%nat /\ rn_inv (p_release p) /\ components_ok p.

Definition has_release (p : Parser) : Prop := ReleaseNumbers_as_slice (p_release p) <> [].

(** [m] does not panic, and a value it returns satisfies [Q]. *)
Definition yields {A E} (m : result A (failure E)) (Q : A -> Prop) : Prop :=
  match m with
  | Ok a => Q a
  | Err (Error _) => True
  | Err Panic => False
  end.

Lemma yields_bind {A B E} (m : result A (failure E)) (k : A -> result B (failure E)) Q R :
  yields m Q -> (forall a, Q a -> yields (k a) R) -> yields (rbind m k) R.
Proof. destruct m as [a|[e|]]; cbn; auto. Qed.

Lemma yields_mono {A E} (m : result A (failure E)) (Q R : A -> Prop) :
  yields m Q -> (forall a, Q a -> R a) -> yields m R.
Proof. destruct m as [a|[e|]]; cbn; auto. Qed.

Lemma Inv_mono v i j p : Inv v j p -> (i <= j)%nat -> Inv v i p.
Proof. intros (?&?&?&?) ?. unfold Inv; split_and!; (done || lia). Qed.

Lemma Inv_self v i p : Inv v i p -> Inv v (p_i p) p.
Proof. intros (?&?&?&?). unfold Inv; split_and!; (done || lia). Qed.

Lemma Inv_with_i v i j p : Inv v i p -> (j <= length v)%nat -> Inv v j (with_i p j).
Proof. intros (?&?&?&?) ?. unfold Inv; cbn; split_and!; (done || lia). Qed.

Lemma Inv_new v : Inv v 0 (Parser_new v).
Proof. unfold Inv, components_ok; cbn; split_and!; try lia; auto; by constructor. Qed.

(** ** Cursor movements *)

Lemma count_while_le pred l : (count_while pred l <= length l)%nat.
Proof. induction l as [|b l IH]; cbn; [lia|]. destruct (pred b); cbn; lia. Qed.

Lemma count_while_forallb pred l : forallb pred (take (count_while pred l) l) = true.
Proof. induction l as [|b l IH]; cbn; [done|]. destruct (pred b) eqn:E; cbn; [by rewrite E|done]. Qed.

Lemma rest_inv v i p : Inv v i p -> rest p = Some (drop (p_i p) v).
Proof.
  intros (Hv&Hi&_). unfold rest. rewrite Hv. by rewrite (proj2 (Nat.leb_le _ _)) by lia.
Qed.

Lemma count_while_nil pred l : take (count_while pred l) l = [] -> count_while pred l = O.
Proof. destruct l as [|b l]; cbn; [done|]. by destruct (pred b). Qed.

Lemma bump_while_inv pred v i p :
  Inv v i p ->
  exists s q, bump_while pred p = Ok (s, q) /\ forallb pred s = true /\ Inv v (p_i p + length s) q /\ has_release p = has_release q /\ (s = [] -> q = p).
Proof.
  intros HI. pose proof HI as (Hv&Hi&_). unfold bump_while. rewrite (rest_inv v i p HI). do 2 eexists. split; [done|].
  split; [apply count_while_forallb|]. pose proof (count_while_le pred (drop (p_i p) v)) as Hc. rewrite length_drop in Hc.
  split; [|split; [done|]].
  - rewrite length_take, Nat.min_l by (rewrite length_drop; lia). eapply Inv_with_i; [done|lia].
  - intros E. rewrite (count_while_nil _ _ E), Nat.add_0_r. by apply with_i_same.
Qed.

Lemma bump_if_inv s v i p :
  Inv v i p -> s <> [] ->
  exists (b : bool) q, bump_if s p = (b, q) /\
    (if b then Inv v (S (p_i p)) q /\ has_release p = has_release q else q = p).
Proof.
  intros HI Hs. pose proof HI as (Hv&Hi&_). unfold bump_if.
  destruct (is_done p); [by exists false, p|].
  destruct (starts_with_ignore_ascii_case s _) eqn:E; [|by exists false, p].
  eexists true, _. split; [done|]. split; [|done].
  unfold starts_with_ignore_ascii_case in E. apply andb_true_iff in E as [E%Nat.leb_le _].
  rewrite length_drop, Hv in E. destruct s as [|x s]; [done|].
  eapply Inv_mono; [eapply Inv_with_i; [done|lia]|cbn; lia].
Qed.

Lemma byte_set_inv set v i p :
  Inv v i p ->
  yields (bump_if_byte_set set p) (fun '(b, q) =>
    Inv v (match b with Some _ => S (p_i p) | None => p_i p end) q /\ has_release p = has_release q).
Proof.
  intros HI. pose proof HI as (Hv&Hi&_). unfold bump_if_byte_set. rewrite (rest_inv v i p HI).
  destruct (drop (p_i p) v) as [|b t] eqn:E; [by split; [apply (Inv_self v i)|]|].
  cbn. destruct (ByteSet_contains set b); cbn; [|by split; [apply (Inv_self v i)|]].
  split; [|done]. apply (f_equal length) in E. rewrite length_drop in E. cbn in E.
  rewrite <- Nat.add_1_r. eapply Inv_with_i; [done|lia].
Qed.

(** The index that is found names a string, which is a prefix of the input. *)
Lemma find_prefix_some b h l k i :
  find_prefix b h l k = Some i ->
  exists s, (k <= i)%nat /\ l !! (i - k)%nat = Some s /\ (length s <= length h)%nat.
Proof.
  revert k. induction l as [|s l IH]; intros k; [done|]. cbn [find_prefix].
  destruct (_ && starts_with_ignore_ascii_case s h) eqn:E.
  - apply andb_true_iff in E as [_ E]. intros [= <-]. exists s. rewrite Nat.sub_diag. split_and!; [done|done|].
    unfold starts_with_ignore_ascii_case in E. by apply andb_true_iff in E as [E%Nat.leb_le _].
  - intros (s'&Hk&Hl&Hs)%IH. exists s'. split_and!; [lia| |done].
    replace (i - k)%nat with (S (i - S k)) by lia. done.
Qed.

Lemma string_set_inv set v i p :
  Inv v i p ->
  yields (bump_if_string_set set p) (fun '(x, q) =>
    Inv v (p_i p) q /\ has_release p = has_release q /\
    match x with Some j => is_Some (strings set !! j) | None => True end).
Proof.
  intros HI. pose proof HI as (Hv&Hi&_). unfold bump_if_string_set. rewrite (rest_inv v i p HI).
  destruct (StringSet_starts_with set _) as [j|] eqn:E;
    [|by split_and!; [apply (Inv_self v i)|..]].
  unfold StringSet_starts_with in E. destruct (ByteSet_starts_with _ _); [|done].
  apply find_prefix_some in E as (s&_&Hs&Hl). rewrite Nat.sub_0_r in Hs. rewrite Hs. cbn.
  rewrite length_drop in Hl. split_and!; [|done|by eexists].
  eapply Inv_mono; [eapply Inv_with_i; [done|lia]|lia].
Qed.

Lemma reset_inv v i j p :
  Inv v i p -> (j <= length v)%nat ->
  yields (reset j p) (fun q => Inv v j q /\ has_release p = has_release q).
Proof.
  intros HI Hj. pose proof HI as (Hv&_). unfold reset. rewrite Hv, (proj2 (Nat.leb_le _ _) Hj).
  cbn. split; [by eapply Inv_with_i|done].
Qed.

(** ** Numbers *)

Lemma forallb_digits ds : forallb is_ascii_digit ds = true -> all_digits ds.
Proof.
  induction ds as [|d ds IH]; cbn; [constructor|]. intros [Hd Hds]%andb_true_iff.
  constructor; [|by apply IH]. unfold is_ascii_digit in Hd. bool_to_prop. lia.
Qed.

Lemma number_inv v i p :
  Inv v i p ->
  yields (parse_number p) (fun '(n, q) =>
    Inv v (p_i p) q /\ has_release p = has_release q /\
    match n with Some n => n <= u64_MAX | None => q = p end).
Proof.
  intros HI. unfold parse_number. destruct (bump_while_inv is_ascii_digit v i p HI) as (ds&q&->&Hd&HJ&Hr&Hs).
  cbn [rbind]. destruct ds as [|d ds].
  - cbn in HJ. rewrite Nat.add_0_r in HJ. split_and!; [done..|]. by apply Hs.
  - destruct (parse_u64 (d :: ds)) as [n|] eqn:En; [|done]. cbn.
    split_and!; [eapply Inv_mono; [done|lia]|done|by eapply parse_u64_inv].
Qed.

(** Storing a component keeps the invariant. *)
Lemma Inv_put_epoch v i p n : Inv v i p -> n <= u64_MAX -> Inv v i (put_epoch n p).
Proof. intros (?&?&?&(?&?&?&?&?&?)) ?. unfold Inv, components_ok. cbn. tauto. Qed.
Lemma Inv_put_pre v i p x : Inv v i p -> pre_ok x -> Inv v i (put_pre x p).
Proof. intros (?&?&?&(?&?&?&?&?&?)) ?. unfold Inv, components_ok. cbn. tauto. Qed.
Lemma Inv_put_post v i p x : Inv v i p -> option_ok x -> Inv v i (put_post x p).
Proof. intros (?&?&?&(?&?&?&?&?&?)) ?. unfold Inv, components_ok. cbn. tauto. Qed.
Lemma Inv_put_dev v i p x : Inv v i p -> option_ok x -> Inv v i (put_dev x p).
Proof. intros (?&?&?&(?&?&?&?&?&?)) ?. unfold Inv, components_ok. cbn. tauto. Qed.
Lemma Inv_put_wildcard v i p x : Inv v i p -> Inv v i (put_wildcard x p).
Proof. intros (?&?&?&(?&?&?&?&?&?)). unfold Inv, components_ok. cbn. tauto. Qed.
Lemma Inv_put_local v i p x : Inv v i p -> segment_ok x -> Inv v i (put_local (p_local p ++ [x]) p).
Proof.
  intros (?&?&?&(?&?&?&?&?&?)) ?. unfold Inv, components_ok. cbn. split_and!; try tauto.
  apply Forall_app; auto.
Qed.

Lemma push_number_inv v i p n :
  Inv v i p -> n <= u64_MAX ->
  yields (push_release_number n p) (fun q => Inv v i q /\ has_release q).
Proof.
  intros HI Hn. pose proof HI as (?&?&Hr&(?&Hs&?&?&?&?)).
  destruct (push_number p n Hr) as (r&->&Hr'&E). cbn. split.
  - unfold Inv, components_ok. cbn. rewrite E. split_and!; try tauto. apply Forall_app; auto.
  - unfold has_release. cbn. rewrite E. by destruct (ReleaseNumbers_as_slice (p_release p)).
Qed.

Lemma default_ok (o : option N) : match o with Some n => n <= u64_MAX | None => True end -> default 0 o <= u64_MAX.
Proof. destruct o; cbn; [done|]. unfold u64_MAX. lia. Qed.

(** ** Components *)

Lemma epoch_inv v i p :
  Inv v i p -> yields (parse_epoch_and_initial_release p) (fun q => Inv v i q /\ has_release q).
Proof.
  intros HI. unfold parse_epoch_and_initial_release. pose proof HI as (_&Hi&_).
  eapply yields_bind; [by apply (number_inv v i)|]. intros [[n|] q] (HJ&_&Hn); [|done].
  destruct (bump_if_inv (bs "!") v _ q HJ) as (b&q'&->&Hb); [done|]. destruct b.
  - destruct Hb as [HK _]. apply (Inv_put_epoch _ _ _ n) in HK; [|done].
    eapply yields_bind; [by apply (number_inv v _ _ HK)|].
    intros [[m|] q2] (HL&_&Hm); [|done].
    eapply yields_mono; [by apply push_number_inv|]. intros q3 [HM ?]. split; [|done].
    eapply Inv_mono; [done|]. destruct HJ as (_&?&_). destruct HK as (_&?&_). lia.
  - subst q'. eapply yields_mono; [by apply push_number_inv|]. intros q3 [HM ?]. split; [|done].
    eapply Inv_mono; [done|]. lia.
Qed.

Lemma release_loop_inv v fuel : forall i p,
  Inv v i p -> has_release p -> (length v < fuel + p_i p)%nat ->
  yields (parse_rest_of_release_loop fuel p) (fun q => Inv v (p_i p) q /\ has_release q).
Proof.
  induction fuel as [|fuel IH]; intros i p HI Hr Hf; pose proof HI as (_&Hi&_); [lia|].
  cbn [parse_rest_of_release_loop].
  destruct (bump_if_inv (bs ".") v i p HI) as (b&q&E&Hb); [done|]. rewrite E.
  destruct b; [|subst q; split; [by apply (Inv_self v i)|done]].
  destruct Hb as [HJ Hrq]. eapply yields_bind; [by eapply (number_inv v _ q)|].
  intros [[n|] q2] (HK&Hrk&Hn).
  - eapply yields_bind; [by eapply (push_number_inv v _ q2 n)|]. intros q3 [HL Hr3].
    pose proof HJ as (_&HJi&_). pose proof HK as (_&HKi&_). pose proof HL as (_&HLi&_).
    eapply yields_mono; [apply (IH _ q3 HL Hr3); lia|]. intros q4 [HM ?]. split; [|done].
    eapply Inv_mono; [done|lia].
  - subst q2. unfold unbump. destruct HJ as (Hv&HJi&?). destruct (p_i q) as [|j] eqn:Ej; [lia|].
    cbn. unfold has_release in *. split; [|cbn; by rewrite <- Hrq].
    apply (Inv_mono v (p_i p) j); [|lia]. eapply Inv_with_i; [done|lia].
Qed.

(** Backing up, or the number after a spelling. *)
Lemma suffix_number_inv v i p (put : N -> Parser -> Parser) :
  Inv v i p ->
  (forall n q, Inv v i q -> n <= u64_MAX -> Inv v i (put n q) /\ has_release (put n q) = has_release q) ->
  yields (let? '(_, p) := bump_if_byte_set SEPARATOR p in
          let? '(number, p) := parse_number p in Ok (put (default 0 number) p))
    (fun q => Inv v i q /\ has_release p = has_release q).
Proof.
  intros HI Hput. pose proof HI as (_&Hi&_).
  eapply yields_bind; [by apply (byte_set_inv SEPARATOR v i p)|]. intros [b q] [HJ Hrq].
  eapply yields_bind; [by eapply (number_inv v _ q)|]. intros [n q2] (HK&Hrk&Hn).
  assert (Inv v i q2) as HL.
  { eapply Inv_mono; [done|]. destruct HJ as (_&?&_). destruct b; lia. }
  destruct (Hput (default 0 n) q2 HL) as [HM HrM].
  { apply default_ok. by destruct n. }
  cbn. by rewrite HrM, <- Hrk.
Qed.

Lemma PRE_MAP_total j : is_Some (strings PRE_SPELLINGS !! j) -> is_Some (PRE_MAP !! j).
Proof. rewrite !lookup_lt_is_Some. done. Qed.

Lemma pre_inv v i p :
  Inv v i p -> yields (parse_pre p) (fun q => Inv v i q /\ has_release p = has_release q).
Proof.
  intros HI. pose proof HI as (_&Hi&_). unfold parse_pre.
  eapply yields_bind; [by apply (byte_set_inv SEPARATOR v i p)|]. intros [b q] [HJ Hrq].
  eapply yields_bind; [by eapply (string_set_inv PRE_SPELLINGS v _ q)|]. intros [x q2] (HK&Hrk&Hx).
  assert (Inv v i q2) as HL.
  { eapply Inv_mono; [done|]. destruct HJ as (_&?&_). destruct b; lia. }
  rewrite Hrq, Hrk. destruct x as [j|].
  - destruct (PRE_MAP_total j Hx) as [k ->].
    apply (suffix_number_inv v i q2 (fun n q => put_pre (Some {| kind := k; number := n |}) q) HL).
    intros n q3 H3 Hn. split; [|done]. by apply Inv_put_pre.
  - eapply yields_mono; [apply (reset_inv v i _ q2 HL); lia|]. intros q3 [H3 ?]. split; [|done].
    eapply Inv_mono; [done|lia].
Qed.

Lemma post_spelled_inv v i j p :
  Inv v i p -> (i <= j <= length v)%nat ->
  yields (parse_post_spelled j p) (fun q => Inv v i q /\ has_release p = has_release q).
Proof.
  intros HI Hj. pose proof HI as (_&Hi&_). unfold parse_post_spelled.
  eapply yields_bind; [by apply (byte_set_inv SEPARATOR v i p)|]. intros [b q] [HJ Hrq].
  eapply yields_bind; [by eapply (string_set_inv POST_SPELLINGS v _ q)|]. intros [x q2] (HK&Hrk&Hx).
  assert (Inv v i q2) as HL.
  { eapply Inv_mono; [done|]. destruct HJ as (_&?&_). destruct b; lia. }
  rewrite Hrq, Hrk. destruct x as [k|].
  - apply (suffix_number_inv v i q2 (fun n q => put_post (Some n) q) HL).
    intros n q3 H3 Hn. split; [|done]. by apply Inv_put_post.
  - eapply yields_mono; [apply (reset_inv v i _ q2 HL); lia|]. intros q3 [H3 ?]. split; [|done].
    eapply Inv_mono; [done|lia].
Qed.

Lemma post_inv v i p :
  Inv v i p -> yields (parse_post p) (fun q => Inv v i q /\ has_release p = has_release q).
Proof.
  intros HI. pose proof HI as (_&Hi&_). unfold parse_post.
  destruct (bump_if_inv (bs "-") v i p HI) as (b&q&->&Hb); [done|].
  destruct b; [|subst q; apply post_spelled_inv; [done|lia]]. destruct Hb as [HJ Hrq].
  eapply yields_bind; [by eapply (number_inv v _ q)|]. intros [[n|] q2] (HK&Hrk&Hn).
  - split; [|by rewrite Hrq]. apply Inv_put_post; [|done]. eapply Inv_mono; [done|].
    destruct HJ as (_&?&_). lia.
  - subst q2. eapply yields_bind; [by apply (reset_inv v _ (p_i p) q HJ); lia|]. intros q3 [H3 Hr3].
    rewrite Hrq, Hr3. apply post_spelled_inv; [|lia]. eapply Inv_mono; [done|lia].
Qed.

Lemma dev_inv v i p :
  Inv v i p -> yields (parse_dev p) (fun q => Inv v i q /\ has_release p = has_release q).
Proof.
  intros HI. pose proof HI as (_&Hi&_). unfold parse_dev.
  eapply yields_bind; [by apply (byte_set_inv SEPARATOR v i p)|]. intros [b q] [HJ Hrq].
  destruct (bump_if_inv (bs "dev") v _ q HJ) as (b2&q2&->&Hb); [done|]. pose proof HJ as (_&HJi&_).
  destruct b2; cbn [negb].
  - destruct Hb as [HK Hrk]. rewrite Hrq, Hrk.
    apply (suffix_number_inv v i q2 (fun n q => put_dev (Some n) q)).
    + eapply Inv_mono; [done|]. destruct b; lia.
    + intros n q3 H3 Hn. split; [|done]. by apply Inv_put_dev.
  - subst q2. rewrite Hrq. eapply yields_mono; [by apply (reset_inv v _ (p_i p) q HJ); lia|].
    intros q3 [H3 ?]. split; [|done]. eapply Inv_mono; [done|lia].
Qed.

(** A run of letters and digits makes a printable segment. *)
Lemma alnum_lower s :
  forallb is_ascii_alphanumeric s = true -> forallb lower_alnum (map to_ascii_lowercase s) = true.
Proof.
  induction s as [|b s IH]; [done|]. cbn. rewrite !andb_true_iff. intros [Hb Hs]. split; [|auto].
  unfold lower_alnum, is_ascii_alphanumeric, is_ascii_alphabetic, to_ascii_lowercase,
    is_ascii_uppercase, is_ascii_lowercase, is_ascii_digit in *.
  destruct ((65 <=? b) && (b <=? 90)) eqn:E.
  - bool_to_prop. rewrite (proj2 (N.leb_le 97 (b + 32))), (proj2 (N.leb_le (b + 32) 122)) by lia. done.
  - by rewrite orb_false_r in Hb.
Qed.

Lemma digits_lowercase s : all_digits (map to_ascii_lowercase s) -> map to_ascii_lowercase s = s.
Proof.
  induction s as [|b s IH]; [done|]. cbn. intros H. inversion H as [|? ? Hb Hs]; subst.
  rewrite IH by done. f_equal. unfold to_ascii_lowercase in *.
  destruct (is_ascii_uppercase b) eqn:E; [|done]. unfold is_ascii_uppercase in E. bool_to_prop. lia.
Qed.

Lemma local_segment_ok s :
  s <> [] -> forallb is_ascii_alphanumeric s = true -> yields (local_segment s) segment_ok.
Proof.
  intros Hne Ha. unfold local_segment. destruct (parse_u64 s) as [n|e] eqn:E; cbn.
  - by eapply parse_u64_inv.
  - rewrite (lower_alnum_utf8 (map to_ascii_lowercase s)) by by apply alnum_lower. split_and!; [by destruct s|by apply alnum_lower|].
    destruct (parse_u64 (map to_ascii_lowercase s)) as [n|] eqn:E'; [|done].
    pose proof E' as (Hd&_)%parse_u64_inv. rewrite digits_lowercase in E' by done. congruence.
Qed.

Lemma local_loop_inv v fuel : forall c i p,
  Inv v i p -> (length v < fuel + p_i p)%nat ->
  yields (parse_local_loop fuel c p) (fun q => Inv v i q /\ has_release p = has_release q).
Proof.
  induction fuel as [|fuel IH]; intros c i p HI Hf; pose proof HI as (_&Hi&_); [lia|].
  cbn [parse_local_loop]. destruct (bump_while_inv is_ascii_alphanumeric v i p HI) as (s&q&->&Ha&HJ&Hr&_).
  cbn [rbind]. destruct s as [|x s]; [done|].
  eapply yields_bind; [by apply local_segment_ok|]. intros seg Hseg.
  apply (Inv_put_local _ _ _ seg) in HJ; [|done].
  set (q1 := put_local _ q) in *. rewrite Hr. change (has_release q) with (has_release q1).
  eapply yields_bind; [by eapply (byte_set_inv SEPARATOR v _ q1)|]. intros [b q2] [HK Hrk].
  pose proof HJ as (_&HJi&_). pose proof HK as (_&HKi&_). cbn [length] in HJi. rewrite Hrk.
  destruct b as [b|].
  - eapply yields_mono; [apply (IH b _ q2 HK); lia|]. intros q3 [H3 ?]. split; [|done].
    eapply Inv_mono; [done|lia].
  - split; [|done]. eapply Inv_mono; [done|lia].
Qed.

Lemma local_inv v i p :
  Inv v i p -> yields (parse_local p) (fun q => Inv v i q /\ has_release p = has_release q).
Proof.
  intros HI. pose proof HI as (_&Hi&_). unfold parse_local.
  destruct (bump_if_inv (bs "+") v i p HI) as (b&q&->&Hb); [done|].
  destruct b; cbn [negb]; [|by subst q; split]. destruct Hb as [HJ Hrq]. rewrite Hrq.
  pose proof HJ as (Hv&_). eapply yields_mono; [apply (local_loop_inv v _ _ _ q HJ); rewrite Hv; lia|].
  intros q3 [H3 ?]. split; [|done]. eapply Inv_mono; [done|lia].
Qed.

(** ** The entry points *)

(** [v] is well-formed, printable, and what the parser builds from its components. *)
Definition parsed_ok (v : Version) : Prop :=
  version_wf v /\ printable (value v) /\
  exists q, parsed_value q = value v /\
            into_pattern q = Ok {| version := v; wildcard := p_wildcard q |}.

Lemma into_pattern_ext p q :
  parsed_value p = parsed_value q -> p_wildcard p = p_wildcard q -> into_pattern p = into_pattern q.
Proof.
  intros E Ew. unfold into_pattern, ReleaseNumbers_len.
  injection E as -> -> -> -> -> ->. by rewrite Ew.
Qed.

Lemma pattern_inv v i p :
  Inv v i p -> has_release p -> yields (into_pattern p) (fun vpat => parsed_ok (version vpat)).
Proof.
  intros (_&_&_&(?&?&?&?&?&?)) Hr. destruct (into_pattern_spec p Hr) as (x&E0&Hw&E).
  rewrite E0. cbn. unfold parsed_ok. split; [done|]. split; [by rewrite E|]. by exists p.
Qed.

Lemma parse_general_inv v :
  yields (parse_general (Parser_new v)) (fun vpat => parsed_ok (version vpat)).
Proof.
  unfold parse_general.
  destruct (bump_while_inv is_ascii_whitespace v 0 (Parser_new v) (Inv_new v)) as (?&p1&->&_&H1&_). cbn [rbind].
  destruct (bump_if_inv (bs "v") v _ p1 H1) as (b&p2&->&Hb); [done|].
  assert (Inv v 0 p2) as H2.
  { destruct b; [destruct Hb as [Hb _]|subst p2]; (eapply Inv_mono; [done|lia]). }
  eapply yields_bind; [by apply (epoch_inv v 0)|]. intros p3 [H3 R3].
  eapply yields_bind.
  { apply (release_loop_inv v _ 0 p3 H3 R3). destruct H3 as (->&_). lia. }
  intros p4 [H4 R4]. unfold parse_wildcard.
  destruct (bump_if_inv (bs ".*") v _ p4 H4) as (b2&p5&->&Hb2); [done|]. destruct b2; cbn [negb].
  { destruct (is_done p5); [|done]. destruct Hb2 as [H5 R5]. cbn [negb rbind].
    eapply pattern_inv; [by eapply Inv_put_wildcard|]. change (has_release p5). by rewrite <- R5. }
  subst p5. cbn [rbind].
  eapply yields_bind; [by eapply pre_inv|]. intros p5 [H5 R5].
  eapply yields_bind; [by eapply post_inv|]. intros p6 [H6 R6].
  eapply yields_bind; [by eapply dev_inv|]. intros p7 [H7 R7].
  eapply yields_bind; [by eapply local_inv|]. intros p8 [H8 R8].
  destruct (bump_while_inv is_ascii_whitespace v _ p8 H8) as (?&p9&->&_&H9&R9&_). cbn [rbind].
  destruct (is_done p9); [|done]. cbn [negb]. eapply pattern_inv; [done|].
  by rewrite <- R9, <- R8, <- R7, <- R6, <- R5.
Qed.

(** The fast path does not change the answer. *)
Lemma parse_pattern_general v : parse_pattern (Parser_new v) = parse_general (Parser_new v).
Proof.
  unfold parse_pattern. destruct (parse_fast (Parser_new v)) as [vpat|] eqn:E; [|done].
  by rewrite (parse_fast_general v vpat).
Qed.

Lemma pattern_from_str_inv v :
  yields (VersionPattern_from_str v) (fun vpat => parsed_ok (version vpat)).
Proof. unfold VersionPattern_from_str. rewrite parse_pattern_general. apply parse_general_inv. Qed.

Lemma from_str_inv v : yields (Version_from_str v) parsed_ok.
Proof.
  unfold Version_from_str, parse. pose proof (pattern_from_str_inv v) as H.
  unfold VersionPattern_from_str in H. destruct (parse_pattern (Parser_new v)) as [vpat|[[]|]]; cbn in H |- *;
    try done. by destruct (wildcard vpat).
Qed.

(** Printing and parsing. *)
Lemma show_full_value v : show v = show_full (value v).
Proof. apply show_value. Qed.

Lemma from_str_show v :
  printable (value v) ->
  exists v', Version_from_str (show v) = Ok v' /\ version_wf v' /\ value v' = value v.
Proof.
  intros Hp. rewrite show_full_value. unfold Version_from_str, parse. rewrite parse_pattern_general.
  destruct (parse_general_show _ Hp) as (q&->&Ev&Ew).
  destruct (into_pattern_spec q) as (v'&->&Hw&E).
  - intros E. destruct Hp as (_&Hp&_). apply Hp. rewrite <- Ev. done.
  - cbn. rewrite Ew. exists v'. by rewrite E.
Qed.

(** A version the parser built is read back as the very same representation. *)
Lemma from_str_show_parsed v : parsed_ok v -> Version_from_str (show v) = Ok v.
Proof.
  intros (Hw&Hp&q&Eq&Ep). rewrite show_full_value. unfold Version_from_str, parse.
  rewrite parse_pattern_general. destruct (parse_general_show _ Hp) as (q'&->&Ev&Ew).
  rewrite (into_pattern_ext q' (put_wildcard false q));
    [|change (parsed_value q' = parsed_value q); congruence|done].
  unfold into_pattern in *. cbn [p_release p_epoch p_pre p_post p_dev p_local p_wildcard put_wildcard] in *.
  destruct (Nat.ltb _ _); [|done]. destruct (Version.new _); [|done].
  apply Ok_inj in Ep. apply (f_equal version) in Ep. cbn [version] in Ep. cbn [wildcard version]. by rewrite Ep.
Qed.

(** ** Wildcard patterns

    Which fields each parser method can change: a pattern that ends in [.*]
    consists of an epoch and a release only, and only such a pattern does. *)

Local Open Scope uv_scope.

(** Whatever [m] returns satisfies [Q]. *)
Definition returns {A E} (m : result A E) (Q : A -> Prop) : Prop :=
  match m with
  | Ok a => Q a
  | Err _ => True
  end.

Lemma returns_bind {A B E} (m : result A E) (k : A -> result B E) Q P :
  returns m Q -> (forall a, Q a -> returns (k a) P) -> returns (rbind m k) P.
Proof. destruct m; cbn; auto. Qed.

Lemma returns_mono {A E} (m : result A E) (Q P : A -> Prop) :
  returns m Q -> (forall a, Q a -> P a) -> returns m P.
Proof. destruct m; cbn; auto. Qed.

(** ** Methods that only move the cursor *)

Definition moved (p q : Parser) : Prop := exists j, q = with_i p j.

Lemma moved_refl p : moved p p.
Proof. exists (p_i p). symmetry. by apply with_i_same. Qed.

Lemma moved_with p q j : moved p q -> moved p (with_i q j).
Proof. intros [k ->]. by exists j. Qed.

Lemma moved_trans p q r : moved p q -> moved q r -> moved p r.
Proof. intros Hp [k ->]. by apply moved_with. Qed.

Lemma moved_bump_while pred p : returns (bump_while pred p) (fun r => moved p (snd r)).
Proof. unfold bump_while. case_match; cbn; auto using moved_with, moved_refl. Qed.

Lemma moved_bump_if s p : moved p (snd (bump_if s p)).
Proof. unfold bump_if. repeat case_match; cbn; auto using moved_with, moved_refl. Qed.

Lemma moved_byte_set set p : returns (bump_if_byte_set set p) (fun r => moved p (snd r)).
Proof. unfold bump_if_byte_set. repeat case_match; cbn; auto using moved_with, moved_refl. Qed.

Lemma moved_string_set set p : returns (bump_if_string_set set p) (fun r => moved p (snd r)).
Proof. unfold bump_if_string_set. repeat case_match; cbn; auto using moved_with, moved_refl. Qed.

Lemma moved_reset j p : returns (reset j p) (moved p).
Proof. unfold reset. case_match; cbn; auto using moved_with, moved_refl. Qed.

Lemma moved_unbump p : returns (unbump p) (moved p).
Proof. unfold unbump. case_match; cbn; auto using moved_with, moved_refl. Qed.

Lemma moved_number p : returns (parse_number p) (fun r => moved p (snd r)).
Proof.
  unfold parse_number. eapply returns_bind; [apply moved_bump_while|]. intros [[|d ds] q] Hm; [done|]. by case_match.
Qed.

(** ** Fields that a method leaves alone *)

(** Neither moving the cursor nor the release or the epoch matters to [Q]. *)
Record release_only (Q : Parser -> Prop) : Prop := {
  ro_move : forall p j, Q p -> Q (with_i p j);
  ro_epoch : forall p n, Q p -> Q (put_epoch n p);
  ro_release : forall p r, Q p -> Q (put_release r p)
}.

Lemma release_only_moved Q p q : release_only Q -> Q p -> moved p q -> Q q.
Proof. intros HQ Hp [j ->]. by apply HQ. Qed.

Lemma keep_push Q n p : release_only Q -> Q p -> returns (push_release_number n p) Q.
Proof. intros HQ Hp. unfold push_release_number. case_match; cbn; [|done]. by apply HQ. Qed.

Lemma keep_epoch Q p : release_only Q -> Q p -> returns (parse_epoch_and_initial_release p) Q.
Proof.
  intros HQ Hp. unfold parse_epoch_and_initial_release.
  eapply returns_bind; [apply moved_number|]. intros [[n|] q] Hq; [|done]. cbn in Hq.
  pose proof (moved_bump_if (bs "!") q) as Hb. destruct (bump_if (bs "!") q) as [b q2]. cbn in Hb.
  assert (Q q2) as Hq2 by (eapply release_only_moved; [done..|by eapply moved_trans]).
  destruct b; [|by apply keep_push].
  eapply returns_bind; [apply moved_number|]. intros [[m|] q3] Hq3; [|done]. cbn in Hq3.
  apply keep_push; [done|]. eapply release_only_moved; [done| |done]. by apply HQ.
Qed.

Lemma keep_release_loop Q fuel : release_only Q -> forall p, Q p -> returns (parse_rest_of_release_loop fuel p) Q.
Proof.
  intros HQ. induction fuel as [|fuel IH]; intros p Hp; [done|]. cbn [parse_rest_of_release_loop].
  pose proof (moved_bump_if (bs ".") p) as Hb. destruct (bump_if (bs ".") p) as [b q]. cbn in Hb.
  assert (Q q) as Hq by by eapply release_only_moved. destruct b; [|done].
  eapply returns_bind; [apply moved_number|]. intros [[n|] q2] Hq2; cbn in Hq2;
    assert (Q q2) as HQ2 by by eapply release_only_moved.
  - eapply returns_bind; [by apply keep_push|]. intros q3 Hq3. by apply IH.
  - eapply returns_mono; [apply moved_unbump|]. intros q3 Hq3. by eapply release_only_moved.
Qed.

(** The suffix methods leave the wildcard flag alone. *)
Definition same_flag (p q : Parser) : Prop := p_wildcard q = p_wildcard p.

Lemma moved_flag p q : moved p q -> same_flag p q.
Proof. by intros [j ->]. Qed.

Lemma suffix_number_flag p (put : N -> Parser -> Parser) :
  (forall n q, same_flag q (put n q)) ->
  returns (let? '(_, p) := bump_if_byte_set SEPARATOR p in
           let? '(number, p) := parse_number p in Ok (put (default 0 number) p)) (same_flag p).
Proof.
  intros Hput. eapply returns_bind; [apply moved_byte_set|]. intros [? q] Hq%moved_flag.
  eapply returns_bind; [apply moved_number|]. intros [n q2] Hq2%moved_flag. cbn in *.
  unfold same_flag in *. by rewrite Hput, Hq2.
Qed.

Lemma flag_pre p : returns (parse_pre p) (same_flag p).
Proof.
  unfold parse_pre. eapply returns_bind; [apply moved_byte_set|]. intros [? q] Hq%moved_flag.
  eapply returns_bind; [apply moved_string_set|]. intros [x q2] Hq2%moved_flag. cbn in *.
  unfold same_flag in *. rewrite <- Hq, <- Hq2. destruct x as [j|].
  - destruct (PRE_MAP !! j) as [k|]; [|done].
    by apply (suffix_number_flag q2 (fun n q => put_pre (Some {| kind := k; number := n |}) q)).
  - eapply returns_mono; [apply moved_reset|]. intros q3. apply moved_flag.
Qed.

Lemma flag_post_spelled j p : returns (parse_post_spelled j p) (same_flag p).
Proof.
  unfold parse_post_spelled. eapply returns_bind; [apply moved_byte_set|]. intros [? q] Hq%moved_flag.
  eapply returns_bind; [apply moved_string_set|]. intros [x q2] Hq2%moved_flag. cbn in *.
  unfold same_flag in *. rewrite <- Hq, <- Hq2. destruct x as [k|].
  - by apply (suffix_number_flag q2 (fun n q => put_post (Some n) q)).
  - eapply returns_mono; [apply moved_reset|]. intros q3. apply moved_flag.
Qed.

Lemma flag_post p : returns (parse_post p) (same_flag p).
Proof.
  unfold parse_post. pose proof (moved_bump_if (bs "-") p) as Hb%moved_flag.
  destruct (bump_if (bs "-") p) as [b q]. cbn in Hb. unfold same_flag in *. rewrite <- Hb.
  destruct b; [|apply flag_post_spelled].
  eapply returns_bind; [apply moved_number|]. intros [[n|] q2] Hq2%moved_flag; [done|]. cbn in Hq2.
  eapply returns_bind; [apply moved_reset|]. intros q3 Hq3%moved_flag.
  unfold same_flag in *. rewrite <- Hq2, <- Hq3. apply flag_post_spelled.
Qed.

Lemma flag_dev p : returns (parse_dev p) (same_flag p).
Proof.
  unfold parse_dev. eapply returns_bind; [apply moved_byte_set|]. intros [? q] Hq%moved_flag.
  pose proof (moved_bump_if (bs "dev") q) as Hb%moved_flag.
  destruct (bump_if (bs "dev") q) as [b q2]. cbn in *. unfold same_flag in *. rewrite <- Hq, <- Hb.
  destruct b; cbn [negb].
  - by apply (suffix_number_flag q2 (fun n q => put_dev (Some n) q)).
  - eapply returns_mono; [apply moved_reset|]. intros q3. apply moved_flag.
Qed.

Lemma flag_local_loop fuel : forall c p, returns (parse_local_loop fuel c p) (same_flag p).
Proof.
  induction fuel as [|fuel IH]; intros c p; [done|]. cbn [parse_local_loop].
  eapply returns_bind; [apply moved_bump_while|]. intros [[|x s] q] Hb%moved_flag; [done|]. cbn [snd] in Hb.
  eapply (returns_bind _ _ (fun _ => True)); [by destruct (local_segment (x :: s)) as [?|[]]|]. intros seg _.
  eapply returns_bind; [apply moved_byte_set|]. intros [b q2] Hq2%moved_flag. cbn [snd] in Hq2.
  unfold same_flag in *. cbn in Hq2. rewrite <- Hb, <- Hq2. destruct b as [b|]; [apply IH|done].
Qed.

Lemma flag_local p : returns (parse_local p) (same_flag p).
Proof.
  unfold parse_local. pose proof (moved_bump_if (bs "+") p) as Hb%moved_flag.
  destruct (bump_if (bs "+") p) as [b q]. cbn in Hb. unfold same_flag in *. rewrite <- Hb.
  destruct b; cbn [negb]; [apply flag_local_loop|done].
Qed.

(** ** The patterns with a wildcard *)

Definition suffixless (p : Parser) : Prop :=
  p_pre p = None /\ p_post p = None /\ p_dev p = None /\ p_local p = [] /\ p_wildcard p = false.

Lemma suffixless_release_only : release_only suffixless.
Proof. split; done. Qed.

Lemma suffixless_moved p q : suffixless p -> moved p q -> suffixless q.
Proof. apply release_only_moved, suffixless_release_only. Qed.

(** A version with an epoch and a release only. *)
Definition is_bare (f : VersionFull) : Prop :=
  f_pre f = None /\ f_post f = None /\ f_dev f = None /\ f_local f = LocalVersion_empty /\
  f_min f = None /\ f_max f = None.

Definition wildcard_bare (vpat : VersionPattern) : Prop :=
  wildcard vpat = true -> is_bare (value (version vpat)).

Lemma into_pattern_returns p :
  returns (into_pattern p) (fun vpat =>
    wildcard vpat = p_wildcard p /\ value (version vpat) = parsed_value p).
Proof.
  destruct (decide (ReleaseNumbers_as_slice (p_release p) = [])) as [E|E].
  - unfold into_pattern, ReleaseNumbers_len. by rewrite E.
  - destruct (into_pattern_spec p E) as (v&->&_&Hv). done.
Qed.

Lemma parse_general_wildcard v : returns (parse_general (Parser_new v)) wildcard_bare.
Proof.
  unfold parse_general.
  eapply returns_bind; [apply moved_bump_while|]. intros [? p1] H1. cbn [snd] in H1.
  pose proof (moved_bump_if (bs "v") p1) as H2. destruct (bump_if (bs "v") p1) as [? p2]. cbn [snd] in H2.
  assert (suffixless p2) as S2
    by (apply (suffixless_moved (Parser_new v)); [done|by eapply moved_trans]).
  eapply returns_bind; [by apply (keep_epoch suffixless), S2; apply suffixless_release_only|]. intros p3 S3.
  eapply returns_bind; [by apply (keep_release_loop suffixless), S3; apply suffixless_release_only|]. intros p4 S4.
  unfold parse_wildcard.
  pose proof (moved_bump_if (bs ".*") p4) as H5. destruct (bump_if (bs ".*") p4) as [found p5]. cbn [snd] in H5.
  assert (suffixless p5) as S5 by by eapply suffixless_moved.
  destruct found; cbn [negb].
  { destruct (is_done p5); [|done]. cbn [negb rbind].
    eapply returns_mono; [apply into_pattern_returns|]. intros vpat [_ E] _. rewrite E.
    unfold is_bare. cbn. destruct S5 as (->&->&->&->&_). done. }
  cbn [rbind]. eapply returns_bind; [apply flag_pre|]. intros p6 F6.
  eapply returns_bind; [apply flag_post|]. intros p7 F7.
  eapply returns_bind; [apply flag_dev|]. intros p8 F8.
  eapply returns_bind; [apply flag_local|]. intros p9 F9.
  eapply returns_bind; [apply moved_bump_while|]. intros [? p10] F10%moved_flag. cbn [snd] in F10.
  destruct (is_done p10); [|done]. cbn [negb].
  eapply returns_mono; [apply into_pattern_returns|]. intros vpat [E _] Hw.
  unfold same_flag in *. destruct S5 as (_&_&_&_&S5). congruence.
Qed.

Lemma pattern_wildcard_bare v vpat :
  VersionPattern_from_str v = Ok vpat -> wildcard_bare vpat.
Proof.
  unfold VersionPattern_from_str. rewrite parse_pattern_general. intros E.
  pose proof (parse_general_wildcard v) as H. by rewrite E in H.
Qed.
