(* ===== verification/VersionOps.v ===== *)
(** * Derived versions: bumps, trimming and the internal bounds

    What [bump], [only_release_trimmed], [without_trailing_zeros], [with_min] and
    [with_max] do to the abstract value and to the order. *)

From stdpp Require Import base numbers list strings.
From S2P Require Import Prelude VersionTypes VersionSmall Version VersionFacts.

(** ** Lexicographic comparison at the first difference *)

Lemma list_cmp_lt_at (l k : list N) i a b :
  (forall j, (j < i)%nat -> l !! j = k !! j) -> l !! i = Some a -> k !! i = Some b -> a < b ->
  cmp l k = Lt.
Proof.
  revert l k. induction i as [|i IH]; intros [|x l] [|y k] Hj Ha Hb Hab; try done.
  - injection Ha as ->. injection Hb as ->. rewrite list_cmp_cons.
    apply N.compare_lt_iff in Hab. unfold cmp at 1, N_ord. by rewrite Hab.
  - rewrite list_cmp_cons. pose proof (Hj O ltac:(lia)) as E. cbn in E. injection E as ->.
    rewrite cmp_refl. cbn. apply (IH l k); try done. intros j Hlt. apply (Hj (S j)). lia.
Qed.

Lemma lookup_pad m l i : (i < m)%nat -> (length l <= m)%nat -> pad m l !! i = Some (default 0 (l !! i)).
Proof.
  intros Hi Hl. unfold pad. destruct (decide (i < length l)%nat) as [H|H].
  - rewrite lookup_app_l by done. destruct (lookup_lt_is_Some_2 l i H) as [x E]. by rewrite E.
  - rewrite lookup_app_r, (lookup_ge_None_2 l) by lia. apply lookup_replicate_2. lia.
Qed.

(** ** Bumping *)

(** The release after a bump of the segment [index]. *)
Definition bumped_release (old : list N) (index : nat) (value : option N) : list N :=
  map (bump_segment old index value) (seq 0 (Nat.max (length old) (index + 1))).

Lemma bumped_release_lookup old index x i :
  (i < Nat.max (length old) (index + 1))%nat ->
  bumped_release old index x !! i = Some (bump_segment old index x i).
Proof. intros Hi. unfold bumped_release. rewrite list_lookup_fmap, lookup_seq_lt by done. done. Qed.

Lemma bumped_release_lt old index x :
  default 0 (old !! index) < bump_segment old index x index ->
  compare_release old (bumped_release old index x) = Lt.
Proof.
  intros Hlt. set (m := Nat.max (length old) (index + 1)).
  assert (length (bumped_release old index x) = m) as Hm.
  { unfold bumped_release. by rewrite length_map, length_seq. }
  rewrite (compare_release_pad m) by lia.
  assert (pad m (bumped_release old index x) = bumped_release old index x) as ->.
  { unfold pad. rewrite Hm, Nat.sub_diag. cbn. apply app_nil_r. }
  eapply (list_cmp_lt_at _ _ index); [|by rewrite lookup_pad by lia|by apply bumped_release_lookup; lia|done].
  intros j Hj. rewrite lookup_pad by lia. rewrite bumped_release_lookup by lia.
  unfold bump_segment. by rewrite (proj2 (Nat.compare_lt_iff j index)).
Qed.

Lemma u64_add_1 n : n < u64_MAX -> u64_add n 1 = n + 1.
Proof. intros. unfold u64_add. apply N.mod_small. unfold u64_MAX in *. lia. Qed.

Lemma bump_segment_next old index :
  default 0 (old !! index) < u64_MAX ->
  bump_segment old index None index = default 0 (old !! index) + 1.
Proof. intros. unfold bump_segment. rewrite Nat.compare_refl. by apply u64_add_1. Qed.

Lemma bump_value v cmd : exists f, bump v cmd = Full f.
Proof. destruct cmd as [i x|k x| |x|x]; cbn; repeat case_match; eauto. Qed.

Lemma bump_wf v cmd : version_wf (bump v cmd).
Proof. by destruct (bump_value v cmd) as [f ->]. Qed.

(** Comparing two values that differ in the suffix only. *)
Lemma cmp_same_release f g :
  f_epoch f = f_epoch g -> f_release f = f_release g -> cmp f g = cmp (full_tuple f) (full_tuple g).
Proof.
  intros E1 E2. rewrite VersionFull_cmp, E1, E2, cmp_refl. cbn [then_with].
  by rewrite (proj2 (compare_release_eq _ _) eq_refl).
Qed.

Lemma tuple_lt a1 a2 a3 a4 a5 b1 b2 b3 b4 b5 :
  then_with (cmp a1 b1) (then_with (cmp a2 b2) (cmp a3 b3)) = Lt ->
  cmp ((a1, a2, a3, a4, a5) : N * N * option N * N * LocalVersion) (b1, b2, b3, b4, b5) = Lt.
Proof.
  intros H. rewrite !prod_cmp, !then_with_assoc.
  destruct (cmp a1 b1), (cmp a2 b2), (cmp a3 b3); done.
Qed.

Lemma N_lt_succ n : cmp n (n + 1) = Lt.
Proof. apply N.compare_lt_iff. lia. Qed.

Lemma Some_lt_succ n : cmp (Some n) (Some (n + 1)) = Lt.
Proof. apply N_lt_succ. Qed.

Lemma bump_post_lt v :
  version_wf v -> min v = None -> max v = None -> default 0 (post v) < u64_MAX ->
  cmp v (bump v (BumpPost None)) = Lt.
Proof.
  intros Hw Hmin Hmax Hp. rewrite cmp_value by auto using bump_wf.
  rewrite value_min in Hmin. rewrite value_max in Hmax. rewrite value_post in Hp.
  change (bump v (BumpPost None)) with (bump (Full (value v)) (BumpPost None)).
  destruct (value v) as [e rel pr po de lo mi ma]. cbn in Hmin, Hmax, Hp. subst.
  rewrite cmp_same_release by by destruct po.
  destruct po as [n|]; cbn in Hp |- *;
    [rewrite u64_add_1 by done|]; destruct pr as [[[] p]|], de as [d|]; cbn -[cmp];
    apply tuple_lt; cbn -[cmp]; rewrite ?cmp_refl; cbn -[cmp]; try done; apply Some_lt_succ.
Qed.

Lemma bump_pre_lt v k n :
  version_wf v -> min v = None -> max v = None -> pre v = Some {| kind := k; number := n |} ->
  n < u64_MAX -> cmp v (bump v (BumpPrerelease k None)) = Lt.
Proof.
  intros Hw Hmin Hmax Hp Hn. rewrite cmp_value by auto using bump_wf.
  rewrite value_min in Hmin. rewrite value_max in Hmax. rewrite value_pre in Hp.
  change (bump v (BumpPrerelease k None)) with (bump (Full (value v)) (BumpPrerelease k None)).
  destruct (value v) as [e rel pr po de lo mi ma]. cbn in Hmin, Hmax, Hp. subst.
  cbn -[cmp u64_add]. rewrite decide_True by done. rewrite u64_add_1 by done.
  rewrite cmp_same_release by done.
  destruct k, po, de; cbn -[cmp]; apply tuple_lt; rewrite cmp_refl, N_lt_succ; done.
Qed.

Lemma bump_release_lt v index :
  version_wf v -> default 0 (release v !! index) < u64_MAX ->
  cmp v (bump v (BumpRelease index None)) = Lt.
Proof.
  intros Hw Hlt. rewrite cmp_value by auto using bump_wf. rewrite value_release in Hlt.
  change (value (bump v (BumpRelease index None)))
    with (set_f_release (bumped_release (f_release (value v)) index None) (clear_suffixes (value v))).
  rewrite VersionFull_cmp. cbn [f_epoch f_release set_f_release clear_suffixes set_f_dev set_f_post set_f_pre].
  rewrite cmp_refl. cbn [then_with]. rewrite bumped_release_lt; [done|].
  rewrite bump_segment_next by done. lia.
Qed.

(** ** Trimming *)

Lemma with_release_cases v ns :
  version_wf v ->
  match with_release v ns with
  | Some w => ns <> [] /\ version_wf w /\ value w = set_f_release ns (value v)
  | None => ns = []
  end.
Proof.
  intros Hwf. destruct (decide (ns = [])) as [->|Hne]; [by rewrite with_release_nil|].
  destruct (with_release_spec v ns Hwf Hne) as (w&->&?&?). done.
Qed.

Lemma rposition_pop l :
  match rposition (fun n => negb (n =? 0)) l with
  | Some i => take (i + 1) l = pop_zeros l /\ pop_zeros l <> [] /\ (i < length l)%nat
  | None => pop_zeros l = []
  end.
Proof.
  induction l as [|x l IH]; [done|]. cbn [rposition pop_zeros].
  destruct (rposition _ l) as [i|].
  - destruct IH as (E&Hne&Hi). cbn [Nat.add take]. rewrite E. destruct (pop_zeros l); [done|].
    split_and!; [done|done|cbn; lia].
  - rewrite IH. destruct (x =? 0) eqn:E; cbn; [done|]. split_and!; [done|done|lia].
Qed.

Lemma pop_zeros_idem l : pop_zeros (pop_zeros l) = pop_zeros l.
Proof.
  destruct (pop_zeros_pad l) as [n E]. rewrite E at 2. by rewrite pop_zeros_app.
Qed.

(** The trimmed release, with [0] for the all-zero one. *)
Definition trimmed (l : list N) : list N := match pop_zeros l with [] => [0] | l => l end.

Lemma trimmed_spec v :
  exists w, only_release_trimmed v = Some w /\ version_wf w /\
            value w = release_value (trimmed (release v)).
Proof.
  unfold only_release_trimmed, trimmed. pose proof (rposition_pop (release v)) as H.
  destruct (rposition _ (release v)) as [i|].
  - destruct H as (E&Hne&Hi). rewrite (proj2 (Nat.eqb_neq _ _)) by lia. rewrite E.
    destruct (pop_zeros (release v)) eqn:Ep; [done|]. by apply new_spec.
  - rewrite H. by apply new_spec.
Qed.

Lemma compare_trimmed l : compare_release l (trimmed l) = Eq.
Proof.
  apply compare_release_eq. unfold trimmed. pose proof (pop_zeros_idem l) as E.
  by destruct (pop_zeros l).
Qed.

(** ** The internal bounds *)

Lemma min_lt b v :
  version_wf b -> version_wf v -> epoch b = epoch v -> compare_release (release b) (release v) = Eq ->
  min v = None -> cmp (with_min b (Some 0)) v = Lt.
Proof.
  intros Hb Hv He Hr Hm. rewrite cmp_value, with_min_value by auto using with_min_wf.
  rewrite value_epoch, (value_epoch v) in He. rewrite value_release, (value_release v) in Hr.
  rewrite value_min in Hm. rewrite VersionFull_cmp. cbn [f_epoch f_release set_f_min].
  rewrite He, Hr, cmp_refl. cbn [then_with].
  destruct (value v) as [e rel pr po de lo mi ma]. cbn in Hm. subst mi.
  destruct (value b) as [e' rel' pr' po' de' lo' mi' ma']. unfold full_tuple. cbn.
  destruct pr as [[[] p]|], ma, po, de, ma', pr' as [[[] ?]|], de', po'; done.
Qed.

Lemma max_gt b v :
  version_wf b -> version_wf v -> epoch b = epoch v -> compare_release (release b) (release v) = Eq ->
  pre b = None -> min b = None -> min v = None -> max v = None ->
  default 0 (post v) < u64_MAX ->
  cmp v (with_max b (Some 0)) = Lt.
Proof.
  intros Hb Hv He Hr Hpre Hmb Hm Hx Hp. rewrite cmp_value, with_max_value by auto using with_max_wf.
  rewrite value_epoch, (value_epoch v) in He. rewrite value_release, (value_release v) in Hr.
  rewrite value_min in Hm, Hmb. rewrite value_max in Hx. rewrite value_pre in Hpre.
  rewrite value_post in Hp. rewrite VersionFull_cmp. cbn [f_epoch f_release set_f_max].
  rewrite He, cmp_refl. cbn [then_with].
  assert (compare_release (f_release (value v)) (f_release (value b)) = Eq) as ->
    by (apply compare_release_eq; symmetry; by apply compare_release_eq).
  cbn [then_with].
  destruct (value v) as [e rel pr po de lo mi ma]. cbn in Hm, Hx, Hp. subst mi ma.
  destruct (value b) as [e' rel' pr' po' de' lo' mi' ma']. cbn in Hpre, Hmb. subst pr' mi'.
  apply N.compare_lt_iff in Hp.
  destruct pr as [[[] p]|], po as [n|], de; unfold full_tuple; cbn -[cmp u64_MAX];
    apply tuple_lt; cbn -[u64_MAX]; try done; exact Hp.
Qed.
