(* ===== verification/VersionTheorems.v ===== *)
(** * Theorems on versions

    The contract of [Version]: the packed representation implements the record of
    components, comparison is a total preorder that agrees with equality and
    hashing, and the parser accepts exactly one spelling as its normal form. *)

From stdpp Require Import base numbers list strings.
From S2P Require Import Prelude VersionTypes VersionSmall Version VersionFacts VersionParser ParserFacts RoundTrip ParserSafe VersionOps.

(** ** The parser *)

(** C1: the optimised path of the parser ([parse_fast], which packs dotted
    numbers below 256 directly) never changes the answer: on every input it
    either declines or gives exactly what the general parser gives. *)
Theorem parse_pattern_fast_path (input : bytes) :
  VersionPattern_from_str input = parse_general (Parser_new input).
Proof. apply parse_pattern_general. Qed.

(** C2: parsing is safe and total: on every byte string it returns a version or
    an error value, and no index, assertion, [expect] or loop bound fails; a
    version that is returned satisfies the representation invariant, its numbers
    fit 64 bits, it has a release and no internal marker. *)
Theorem from_str_safe (input : bytes) :
  Version_from_str input <> Err Panic /\
  forall v, Version_from_str input = Ok v -> version_wf v /\ printable (value v).
Proof.
  pose proof (from_str_inv input) as H. destruct (Version_from_str input) as [v|[e|]]; cbn in H; [|done..].
  split; [done|]. intros w E. apply Ok_inj in E as <-. destruct H as (?&?&_). done.
Qed.

(** Printing normalizes: a version obtained by parsing prints to a string that
    parses to the very same version, in the same representation. *)
Theorem parse_show_fixed_point (input : bytes) (v : Version)
    (Hparse : Version_from_str input = Ok v) :
  Version_from_str (show v) = Ok v.
Proof.
  pose proof (from_str_inv input) as H. rewrite Hparse in H. by apply from_str_show_parsed.
Qed.

(** C3: every version that can be written, in whatever representation, is read back
    with the same components: it compares equal to the original and prints the same. *)
Theorem show_parse_roundtrip (v : Version) (Hwf : version_wf v) (Hp : printable (value v)) :
  exists w, Version_from_str (show v) = Ok w /\ value w = value v /\
            cmp v w = Eq /\ show w = show v /\ hash w = hash v.
Proof.
  destruct (from_str_show v Hp) as (w&E&Hw&Hv). exists w. split_and!; try done.
  - rewrite cmp_value by done. rewrite Hv. apply cmp_refl.
  - by rewrite !show_full_value, Hv.
  - apply hash_components. unfold components. autorewrite with value. by rewrite Hv.
Qed.

(** The witness is stored unpacked although it would fit the packed form. *)
Definition unpacked_example : Version :=
  Full {| f_epoch := 0; f_release := [1; 20]; f_pre := Some {| kind := Beta; number := 2 |};
          f_post := None; f_dev := None; f_local := LocalVersion_empty; f_min := None; f_max := None |}.

Lemma show_parse_roundtrip_witness :
  exists w, Version_from_str (bs "1.20b2") = Ok w /\ value w = value unpacked_example /\
            cmp unpacked_example w = Eq /\ show w = show unpacked_example /\
            hash w = hash unpacked_example.
Proof.
  apply (show_parse_roundtrip unpacked_example); [exact I|].
  repeat split; try done; repeat constructor; vm_compute; discriminate.
Defined.

(** ** The packed representation *)

(** C15: the packed representation refines the record of components: whatever the
    representation, each [with_*] method ([with_epoch], [with_release], [with_pre],
    [with_post], [with_dev], [with_local_segments], [with_local], [without_local],
    [with_min], [with_max]) keeps the representation invariant and acts on the
    components as the assignment of one field, for every value, also when it no longer
    fits the 64-bit word and the version is unpacked; [with_release] panics exactly on
    the empty release. (The debug assertions of [with_min] and [with_max] are those of a
    release build: none.) *)
Theorem setters_refine (v : Version) (Hwf : repr_wf v)
    (e : N) (p : option Prerelease) (n : option N) (segments : list LocalSegment) (l : LocalVersion) (ns : list N) :
  (repr_wf (with_epoch v e) /\ value (with_epoch v e) = set_f_epoch e (value v)) /\
  (repr_wf (with_pre v p) /\ value (with_pre v p) = set_f_pre p (value v)) /\
  (repr_wf (with_post v n) /\ value (with_post v n) = set_f_post n (value v)) /\
  (repr_wf (with_dev v n) /\ value (with_dev v n) = set_f_dev n (value v)) /\
  (repr_wf (with_local_segments v segments) /\ value (with_local_segments v segments) = set_f_local (Segments segments) (value v)) /\
  (repr_wf (with_local v l) /\ value (with_local v l) = set_f_local l (value v)) /\
  (repr_wf (without_local v) /\ value (without_local v) = set_f_local LocalVersion_empty (value v)) /\
  (repr_wf (with_min v n) /\ value (with_min v n) = set_f_min n (value v)) /\
  (repr_wf (with_max v n) /\ value (with_max v n) = set_f_max n (value v)) /\
  match with_release v ns with
  | Some w => ns <> [] /\ repr_wf w /\ value w = set_f_release ns (value v)
  | None => ns = []
  end.
Proof.
  pose proof (with_local_becomes v (Segments segments) Hwf) as (?&?&_).
  split_and!; try (by apply with_epoch_becomes || by apply with_pre_becomes || by apply with_post_becomes || by apply with_dev_becomes
    || by apply with_local_becomes || by apply without_local_becomes || by apply with_min_becomes || by apply with_max_becomes || done).
  destruct ns as [|x ns]; [by rewrite with_release_empty|].
  destruct (with_release_becomes v (x :: ns) Hwf) as (w&->&?&?&_); done.
Qed.

(** [1.2.3] packed. *)
Definition packed_example : VersionSmall :=
  match new [1; 2; 3] with Some (Small s) => s | _ => VersionSmall.new end.

Lemma packed_example_wf : version_wf (Small packed_example).
Proof.
  destruct (new_spec [1; 2; 3]) as (v&E&Hw&_); [done|].
  assert (new [1; 2; 3] = Some (Small packed_example)) as E' by (vm_compute; reflexivity).
  congruence.
Qed.

Lemma setters_refine_witness :
  value (with_max (with_post (Small packed_example) (Some 4)) (Some 5))
  = set_f_max (Some 5) (value (with_post (Small packed_example) (Some 4))).
Proof.
  destruct (setters_refine _ (version_wf_repr _ packed_example_wf) 0 None (Some 4) [] LocalVersion_empty [])
    as (_&_&[Hw _]&_).
  destruct (setters_refine _ Hw 0 None (Some 5) [] LocalVersion_empty []) as (_&_&_&_&_&_&_&_&[_ H]&_).
  exact H.
Defined.

(** [with_release] and [new] store any non-empty release, however large its
    numbers and however many there are, and panic exactly on the empty one. *)
Theorem with_release_panics_iff_empty (v : Version) (Hwf : version_wf v) (ns : list N) :
  match with_release v ns with
  | Some w => ns <> [] /\ version_wf w /\ value w = set_f_release ns (value v)
  | None => ns = []
  end.
Proof. by apply with_release_cases. Qed.

(** ** Order, equality, hashing *)

(** C16: comparing two packed versions as 64-bit integers gives the same ordering as
    the component-wise comparison of PEP 440 ([cmp_slow]). *)
Theorem packed_cmp_refines (v w : Version) (Hv : version_wf v) (Hw : version_wf w) :
  cmp v w = cmp_slow v w.
Proof. by apply cmp_cmp_slow. Qed.

Lemma packed_cmp_refines_witness :
  cmp (Small packed_example) (with_pre (Small packed_example) (Some {| kind := Rc; number := 9 |}))
  = cmp_slow (Small packed_example) (with_pre (Small packed_example) (Some {| kind := Rc; number := 9 |})).
Proof.
  apply packed_cmp_refines; [exact packed_example_wf|]. apply with_pre_wf, packed_example_wf.
Defined.

(** [Ord for Version] is lawful: comparison is antisymmetric under exchange,
    transitive, and versions that compare equal compare alike with every third. *)
Theorem version_order_laws (u v w : Version)
    (Hu : version_wf u) (Hv : version_wf v) (Hw : version_wf w) :
  cmp v u = CompOpp (cmp u v) /\
  (forall c, cmp u v = c -> cmp v w = c -> cmp u w = c) /\
  (cmp u v = Eq -> cmp u w = cmp v w) /\
  (cmp u v <> Gt -> cmp v w <> Gt -> cmp u w <> Gt).
Proof.
  rewrite !cmp_value by done. split_and!.
  - apply cmp_opp.
  - intros c. apply cmp_trans.
  - apply cmp_eq_l.
  - apply cmp_le_trans.
Qed.

(** On public versions [==] holds exactly when the components are equal up to
    trailing zeros of the release, and equal versions feed the same data to the
    hasher, so versions are usable as hash-map keys. *)
Theorem version_eq_hash (v w : Version) (Hv : version_wf v) (Hw : version_wf w)
    (Pv : public v) (Pw : public w) :
  (Version_eq v w = true <-> components v = components w) /\
  (Version_eq v w = true -> hash v = hash w).
Proof.
  assert (Version_eq v w = true <-> components v = components w) as H.
  { rewrite <- public_eq_components by done. unfold Version_eq, cmp_eqb.
    destruct (cmp v w); naive_solver. }
  split; [done|]. intros E%H. by apply hash_components.
Qed.

(** Without the public-version guard the [Eq]/[Hash] contract fails: the order
    uses the largest 64-bit number for "no dev segment", so [1a1] and
    [1a1.dev18446744073709551615], both accepted by the parser, are equal but hash
    differently. *)
Theorem saturated_dev_breaks_hash :
  exists v w, Version_from_str (bs "1a1") = Ok v /\
    Version_from_str (bs "1a1.dev18446744073709551615") = Ok w /\
    Version_eq v w = true /\ hash v <> hash w.
Proof.
  eexists. eexists. split; [vm_compute; reflexivity|]. split; [vm_compute; reflexivity|].
  split; [vm_compute; reflexivity|]. vm_compute. discriminate.
Qed.

(** ** Derived versions *)

(** Bumping goes up: bumping a release segment, the post number or the current
    kind of pre-release, without an explicit value, gives a strictly greater
    version as long as the bumped number is below the 64-bit maximum. *)
Theorem bump_increases (v : Version) (Hwf : version_wf v) (Hmin : min v = None) (Hmax : max v = None) :
  (forall index, default 0 (release v !! index) < u64_MAX ->
     cmp v (bump v (BumpRelease index None)) = Lt) /\
  (default 0 (post v) < u64_MAX -> cmp v (bump v (BumpPost None)) = Lt) /\
  (forall k n, pre v = Some {| kind := k; number := n |} -> n < u64_MAX ->
     cmp v (bump v (BumpPrerelease k None)) = Lt).
Proof. split_and!; eauto using bump_release_lt, bump_post_lt, bump_pre_lt. Qed.

(** A release bump keeps the segments before the index, replaces the one at the
    index (missing segments count as zero), zeroes the rest, never shortens the
    release, and clears the pre, post and dev segments but not epoch and local. *)
Theorem bump_release_segments (v : Version) (index : nat) (x : option N) :
  let w := bump v (BumpRelease index x) in
  (forall i, (i < index)%nat -> release w !! i = Some (default 0 (release v !! i))) /\
  release w !! index = Some (default (u64_add (default 0 (release v !! index)) 1) x) /\
  (forall i n, (index < i)%nat -> release w !! i = Some n -> n = 0) /\
  length (release w) = Nat.max (length (release v)) (index + 1) /\
  pre w = None /\ post w = None /\ dev w = None /\ epoch w = epoch v /\ local w = local v.
Proof.
  intros w. assert (release w = bumped_release (release v) index x) as E by by destruct v.
  assert (length (release w) = Nat.max (length (release v)) (index + 1)) as Hl.
  { rewrite E. unfold bumped_release. by rewrite length_map, length_seq. }
  split_and!; try (by destruct v).
  - intros i Hi. rewrite E, bumped_release_lookup by lia. unfold bump_segment.
    by rewrite (proj2 (Nat.compare_lt_iff i index)).
  - rewrite E, bumped_release_lookup by lia. unfold bump_segment. rewrite Nat.compare_refl.
    by destruct x.
  - intros i n Hi Hn. pose proof (lookup_lt_Some _ _ _ Hn) as Hlt. rewrite Hl in Hlt.
    rewrite E, bumped_release_lookup in Hn by lia. unfold bump_segment in Hn.
    rewrite (proj2 (Nat.compare_gt_iff i index)) in Hn by done. by injection Hn as <-.
Qed.

(** [only_release_trimmed] never panics, gives a version with the same release up
    to trailing zeros and with no trailing zero left unless it is the version [0];
    [without_trailing_zeros] panics exactly when every segment is zero. *)
Theorem trimming (v : Version) (Hwf : version_wf v) :
  (exists w, only_release_trimmed v = Some w /\ version_wf w /\
     compare_release (release v) (release w) = Eq /\
     (release w = [0] \/ pop_zeros (release w) = release w) /\ value w = release_value (release w)) /\
  (without_trailing_zeros v = None <-> Forall (fun n => n = 0) (release v)).
Proof.
  split.
  - destruct (trimmed_spec v) as (w&E&Hw&Hv). exists w.
    assert (release w = trimmed (release v)) as Er by by rewrite (value_release w), Hv.
    rewrite Er. split_and!; [done|done|apply compare_trimmed| |done].
    unfold trimmed. pose proof (pop_zeros_idem (release v)).
    destruct (pop_zeros (release v)); auto.
  - unfold without_trailing_zeros.
    pose proof (with_release_cases v (pop_zeros (release v)) Hwf) as H.
    destruct (with_release _ _) as [w|].
    + split; [done|]. intros Hz. destruct H as [H _]. destruct H.
      induction Hz as [|x l -> _ IH]; [done|]. cbn. by rewrite IH.
    + split; [|done]. intros _. revert H. generalize (release v). induction l as [|x l IH]; [by constructor|].
      cbn. destruct (pop_zeros l); [|done]. destruct (N.eqb_spec x 0); [|done]. constructor; auto.
Qed.

(** The internal markers bound a release: [with_min(Some(0))] is below every
    version of the release and [with_max(Some(0))] above every one, whatever its
    pre, post, dev and local segments. *)
Theorem min_max_bounds (b v : Version) (Hb : version_wf b) (Hv : version_wf v)
    (He : epoch b = epoch v) (Hr : compare_release (release b) (release v) = Eq)
    (Hpre : pre b = None) (Hmb : min b = None) (Hm : min v = None) (Hx : max v = None)
    (Hp : default 0 (post v) < u64_MAX) :
  cmp (with_min b (Some 0)) v = Lt /\ cmp v (with_max b (Some 0)) = Lt.
Proof. split; [by apply min_lt|by apply max_gt]. Qed.

