(* ===== verification/Specifier.v ===== *)
(** * Version specifiers ([uv-pep440/src/version_specifier.rs])

    A specifier is an operator and a version; a list of them is kept sorted by
    version. [None] stands for a panic. The string scanner of the [unscanny]
    crate is a parameter, with the behaviour its documentation gives as laws. *)

From stdpp Require Import base numbers list strings.
From S2P Require Import Prelude VersionTypes VersionSmall Version VersionParser.

Local Open Scope uv_scope.

(** ** Text

    A [str] seen as its characters (code points); [utf8] gives its bytes. *)

Abbreviation text := (list N).

Definition utf8_char (c : N) : bytes :=
  if c <? 128 then [c]
  else if c <? 2048 then [192 + c / 64; 128 + c mod 64]
  else if c <? 65536 then [224 + c / 4096; 128 + (c / 64) mod 64; 128 + c mod 64]
  else [240 + c / 262144; 128 + (c / 4096) mod 64; 128 + (c / 64) mod 64; 128 + c mod 64].

Definition utf8 (t : text) : bytes := concat (map utf8_char t).

(** [char::is_whitespace]: the Unicode property [White_Space]. *)
Definition is_whitespace (c : N) : bool :=
  ((9 <=? c) && (c <=? 13)) || (c =? 32) || (c =? 133) || (c =? 160) || (c =? 5760)
  || ((8192 <=? c) && (c <=? 8202)) || (c =? 8232) || (c =? 8233) || (c =? 8239)
  || (c =? 8287) || (c =? 12288).

(** [unscanny::Scanner]: a cursor in a string. [eat_while] consumes the longest
    run of characters that satisfy the pattern and returns it; [after] is what is
    left; [done] tells whether nothing is. *)
Class Scanner (S : Type) := {
  scanner : text -> S;
  eat_while : (N -> bool) -> S -> text * S;
  scanner_done : S -> bool;
  after : S -> text
}.

(** The longest prefix that satisfies [p], and the rest. *)
Fixpoint span (p : N -> bool) (t : text) : text * text :=
  match t with
  | [] => ([], [])
  | c :: t' => if p c then let '(a, b) := span p t' in (c :: a, b) else ([], t)
  end.

Class ScannerLaws (S : Type) `{Scanner S} : Prop := {
  scanner_after : forall t, after (scanner t) = t;
  eat_while_fst : forall p s, fst (eat_while p s) = fst (span p (after s));
  eat_while_snd : forall p s, after (snd (eat_while p s)) = snd (span p (after s));
  scanner_done_after : forall s, scanner_done s = true <-> after s = []
}.

(** ** [VersionSpecifier] *)

Record VersionSpecifier := mkSpec { operator : Operator; spec_version : Version }.

Inductive BuildErrorKind :=
| OperatorLocalCombo (operator : Operator) (version : Version)
| OperatorWithStar (operator : Operator)
| CompatibleRelease.

Definition from_version (operator : Operator) (version : Version)
    : result VersionSpecifier BuildErrorKind :=
  if is_local version && negb (is_local_compatible operator) then
    Err (OperatorLocalCombo operator version)
  else if bool_decide (operator = TildeEqual) && Nat.ltb (length (release version)) 2 then
    Err CompatibleRelease
  else Ok (mkSpec operator version).

Definition from_pattern (operator : Operator) (version_pattern : VersionPattern)
    : result VersionSpecifier BuildErrorKind :=
  let star := wildcard version_pattern in
  let version := version version_pattern in
  let? operator :=
    if star then
      match to_star operator with
      | Some starop => Ok starop
      | None => Err (OperatorWithStar operator)
      end
    else Ok operator in
  from_version operator version.

Definition spec_only_release (self : VersionSpecifier) : option VersionSpecifier :=
  v ← only_release (spec_version self); Some (mkSpec (operator self) v).
Definition spec_only_minor_release (self : VersionSpecifier) : option VersionSpecifier :=
  v ← only_minor_release (spec_version self); Some (mkSpec (operator self) v).

Definition equals_version (version : Version) : VersionSpecifier := mkSpec Equal version.
Definition equals_star_version (version : Version) : VersionSpecifier := mkSpec EqualStar version.
Definition not_equals_star_version (version : Version) : VersionSpecifier := mkSpec NotEqualStar version.
Definition not_equals_version (version : Version) : VersionSpecifier := mkSpec NotEqual version.
Definition greater_than_equal_version (version : Version) : VersionSpecifier :=
  mkSpec GreaterThanEqual version.
Definition greater_than_version (version : Version) : VersionSpecifier := mkSpec GreaterThan version.
Definition less_than_equal_version (version : Version) : VersionSpecifier := mkSpec LessThanEqual version.
Definition less_than_version (version : Version) : VersionSpecifier := mkSpec LessThan version.

(** ** Bounds *)

Inductive Bound :=
| Included (version : Version)
| Excluded (version : Version)
| Unbounded.

(** [Self::from_version(operator, version).unwrap()] *)
Definition from_version_unwrap (operator : Operator) (version : Version) : option VersionSpecifier :=
  match from_version operator version with
  | Ok s => Some s
  | Err _ => None
  end.

(** The outer [option] is the panic, the inner one the result. *)
Definition from_lower_bound (bound : Bound) : option (option VersionSpecifier) :=
  match bound with
  | Included version => s ← from_version_unwrap GreaterThanEqual version; Some (Some s)
  | Excluded version => s ← from_version_unwrap GreaterThan version; Some (Some s)
  | Unbounded => Some None
  end.

Definition from_upper_bound (bound : Bound) : option (option VersionSpecifier) :=
  match bound with
  | Included version => s ← from_version_unwrap LessThanEqual version; Some (Some s)
  | Excluded version => s ← from_version_unwrap LessThan version; Some (Some s)
  | Unbounded => Some None
  end.

(** The version [V] such that [>=v1, <v2] is [==V.*]. *)
Definition star_of (v1 v2 : Version) : option (option Version) :=
  t1 ← only_release_trimmed v1;
  t2 ← only_release_trimmed v2;
  match release t1 with
  | [major] =>
      if decide (release t2 = [major; 1]) then v ← new [major; 0]; Some (Some v) else Some None
  | [major; minor] =>
      if decide (release t2 = [major; u64_add minor 1]) then v ← new [major; minor]; Some (Some v)
      else Some None
  | _ => Some None
  end.

Definition to_iter (b1 b2 : option VersionSpecifier) : list VersionSpecifier :=
  match b1 with Some s => [s] | None => [] end ++ match b2 with Some s => [s] | None => [] end.

Definition spec_from_release_only_bounds (bounds : Bound * Bound) : option (list VersionSpecifier) :=
  let default lower upper :=
    b1 ← from_lower_bound lower; b2 ← from_upper_bound upper; Some (to_iter b1 b2) in
  match bounds with
  | (Included v1, Included v2) =>
      if Version_eq v1 v2 then Some (to_iter (Some (equals_version v1)) None)
      else default (Included v1) (Included v2)
  | (Included v1, Excluded v2) =>
      star ← star_of v1 v2;
      match star with
      | Some version => Some (to_iter (Some (equals_star_version version)) None)
      | None => default (Included v1) (Excluded v2)
      end
  | (lower, upper) => default lower upper
  end.

(** ** Matching *)

(** [a.iter().zip(b).all(|(a, b)| a == b)]: stops at the shorter slice. *)
Fixpoint zip_all_eq (this other : list N) : bool :=
  match this, other with
  | a :: this', b :: other' => (a =? b) && zip_all_eq this' other'
  | _, _ => true
  end.

Definition contains (self : VersionSpecifier) (version : Version) : option bool :=
  let this := spec_version self in
  let other :=
    if LocalVersion_is_empty (local this) && negb (LocalVersion_is_empty (local version))
    then without_local version else version in
  match operator self with
  | Equal => Some (Version_eq other this)
  | EqualStar =>
      Some ((epoch this =? epoch other) && zip_all_eq (release (spec_version self)) (release other))
  | ExactEqual => Some (bool_decide (show (spec_version self) = show version))
  | NotEqual => Some (negb (Version_eq this other))
  | NotEqualStar =>
      Some (negb (epoch this =? epoch other) || negb (zip_all_eq (release this) (release version)))
  | TildeEqual =>
      if negb (Nat.ltb 1 (length (release this))) then None
      else if negb (epoch this =? epoch other) then Some false
      else if negb (zip_all_eq (take (length (release this) - 1) (release this)) (release other))
      then Some false
      else Some (cmp_geb other this)
  | GreaterThan =>
      if epoch this <? epoch other then Some true
      else
        match compare_release (release this) (release other) with
        | Eq =>
            if negb (is_post this) && is_post other then Some false
            else if is_local other then Some false
            else Some (cmp_gtb other this)
        | _ => Some (cmp_gtb other this)
        end
  | GreaterThanEqual => Some (cmp_geb other this)
  | LessThan =>
      if epoch other <? epoch this then Some true
      else
        match compare_release (release this) (release other) with
        | Eq =>
            if negb (any_prerelease this) && any_prerelease other then Some false
            else Some (cmp_ltb other this)
        | _ => Some (cmp_ltb other this)
        end
  | LessThanEqual => Some (cmp_leb other this)
  end.

Definition has_lower_bound (self : VersionSpecifier) : bool :=
  match operator self with
  | Equal | EqualStar | ExactEqual | TildeEqual | GreaterThan | GreaterThanEqual => true
  | LessThanEqual | LessThan | NotEqualStar | NotEqual => false
  end.

(** ** Parsing and printing *)

Inductive ParseErrorKind :=
| InvalidOperator (err : OperatorParseError)
| InvalidVersion (err : PatternErrorKind)
| InvalidSpecifier (err : BuildErrorKind)
| MissingOperator (version_pattern : option VersionPattern)
| MissingVersion
| InvalidTrailing (trail : text).

Definition operator_char (c : N) : bool :=
  (c =? 61) || (c =? 33) || (c =? 126) || (c =? 60) || (c =? 62).

Definition result_ok {A E} (m : result A E) : option A :=
  match m with
  | Ok a => Some a
  | Err _ => None
  end.

Section parsing.
Context {S : Type} `{Scanner S}.

Definition spec_from_str (spec : text) : result VersionSpecifier (failure ParseErrorKind) :=
  let s := scanner spec in
  let '(_, s) := eat_while is_whitespace s in
  let '(operator, s) := eat_while operator_char s in
  match operator with
  | [] =>
      let '(_, s) := eat_while is_whitespace s in
      let '(version, s) := eat_while (fun c => negb (is_whitespace c)) s in
      match VersionPattern_from_str (utf8 version) with
      | Err Panic => Err Panic
      | m => Err (Error (MissingOperator (result_ok m)))
      end
  | _ :: _ =>
      let? operator := map_err (fun e => Error (InvalidOperator e)) (Operator_from_str (utf8 operator)) in
      let '(_, s) := eat_while is_whitespace s in
      let '(version, s) := eat_while (fun c => negb (is_whitespace c)) s in
      match version with
      | [] => Err (Error MissingVersion)
      | _ :: _ =>
          let? vpat :=
            map_err (fun e => match e with Error e => Error (InvalidVersion e) | Panic => Panic end)
              (VersionPattern_from_str (utf8 version)) in
          let? version_specifier :=
            map_err (fun e => Error (InvalidSpecifier e)) (from_pattern operator vpat) in
          let '(_, s) := eat_while is_whitespace s in
          if negb (scanner_done s) then Err (Error (InvalidTrailing (after s)))
          else Ok version_specifier
      end
  end.
End parsing.

Definition spec_show (self : VersionSpecifier) : bytes :=
  if bool_decide (operator self = EqualStar) || bool_decide (operator self = NotEqualStar) then
    Operator_as_str (operator self) ++ show (spec_version self) ++ bs ".*"
  else Operator_as_str (operator self) ++ show (spec_version self).

(** The hint of [VersionOperatorBuildError]'s message, [None] when its [unwrap]
    panics. *)
Definition operator_hint (version_pattern : option VersionPattern) : option bytes :=
  match version_pattern with
  | Some version_pattern =>
      match from_pattern Equal version_pattern with
      | Ok version_specifier =>
          Some (bs "Unexpected end of version specifier, expected operator"
                ++ bs ". Did you mean `" ++ spec_show version_specifier ++ bs "`?")
      | Err _ => None
      end
  | None => Some (bs "Unexpected end of version specifier, expected operator")
  end.

(** ** [VersionSpecifiers] *)

Abbreviation VersionSpecifiers := (list VersionSpecifier).

(** [all] with a fallible predicate: stops at the first [false]. *)
Fixpoint try_forallb {A} (f : A -> option bool) (l : list A) : option bool :=
  match l with
  | [] => Some true
  | x :: l' =>
      match f x with
      | Some true => try_forallb f l'
      | Some false => Some false
      | None => None
      end
  end.

Definition specs_contains (self : VersionSpecifiers) (version : Version) : option bool :=
  try_forallb (fun specifier => contains specifier version) self.

(** [sort_by] is a stable sort. *)
Fixpoint insert_by_version (s : VersionSpecifier) (l : list VersionSpecifier) : list VersionSpecifier :=
  match l with
  | [] => [s]
  | t :: l' =>
      if cmp_leb (spec_version s) (spec_version t) then s :: l
      else t :: insert_by_version s l'
  end.

Fixpoint sort_by_version (l : list VersionSpecifier) : list VersionSpecifier :=
  match l with
  | [] => []
  | s :: l' => insert_by_version s (sort_by_version l')
  end.

Definition from_unsorted (specifiers : list VersionSpecifier) : VersionSpecifiers :=
  sort_by_version specifiers.

(** The specifier for the hole between [next] and [lower], if there is one. *)
Definition hole (next lower : Bound) : option (option VersionSpecifier) :=
  match next, lower with
  | Excluded prev, Excluded lower =>
      if Version_eq prev lower then Some (Some (not_equals_version prev)) else Some None
  | Excluded prev, Included lower =>
      star ← star_of prev lower;
      match star with
      | Some version => Some (Some (not_equals_star_version version))
      | None => Some None
      end
  | _, _ => Some None
  end.

Fixpoint holes (next : Bound) (bounds : list (Bound * Bound))
    : option (list VersionSpecifier * Bound) :=
  match bounds with
  | [] => Some ([], next)
  | (lower, upper) :: rest =>
      specifier ← hole next lower;
      match holes upper rest with
      | Some (specifiers, end_) => Some (to_iter specifier None ++ specifiers, end_)
      | None => None
      end
  end.

Definition specs_from_release_only_bounds (bounds : list (Bound * Bound)) : option VersionSpecifiers :=
  match bounds with
  | [] => Some []
  | (start, next) :: bounds =>
      match holes next bounds with
      | Some (specifiers, end_) =>
          bounding ← spec_from_release_only_bounds (start, end_);
          Some (from_unsorted (specifiers ++ bounding))
      | None => None
      end
  end.

(** [s.split(",")]: the pieces between the commas, at least one. *)
Fixpoint split_commas (t : text) : list text :=
  match t with
  | [] => [[]]
  | c :: t' =>
      if c =? 44 then [] :: split_commas t'
      else match split_commas t' with
           | piece :: pieces => (c :: piece) :: pieces
           | [] => [[c]]
           end
  end.

Record VersionSpecifiersParseError := {
  err : ParseErrorKind;
  line : text;
  start : nat;
  end_ : nat
}.

Section parsing_list.
Context {S : Type} `{Scanner S}.

Fixpoint parse_pieces (spec : text) (start : nat) (pieces : list text)
    : result (list VersionSpecifier) (failure VersionSpecifiersParseError) :=
  match pieces with
  | [] => Ok []
  | version_range_spec :: rest =>
      match spec_from_str version_range_spec with
      | Err Panic => Err Panic
      | Err (Error err) =>
          Err (Error {| err := err; line := spec; start := start;
                        end_ := start + length (utf8 version_range_spec) |})
      | Ok version_range =>
          let? version_ranges :=
            parse_pieces spec (start + length (utf8 version_range_spec) + length (bs ",")) rest in
          Ok (version_range :: version_ranges)
      end
  end.

Definition parse_version_specifiers (spec : text)
    : result (list VersionSpecifier) (failure VersionSpecifiersParseError) :=
  match spec with
  | [] => Ok []
  | _ :: _ => parse_pieces spec 0 (split_commas spec)
  end.

Definition specs_from_str (s : text) : result VersionSpecifiers (failure VersionSpecifiersParseError) :=
  rmap from_unsorted (parse_version_specifiers s).
End parsing_list.

(** [Display], separated by [", "], and [Serialize], joined by [","]. *)
Fixpoint join (sep : bytes) (l : list bytes) : bytes :=
  match l with
  | [] => []
  | [x] => x
  | x :: l' => x ++ sep ++ join sep l'
  end.

Definition specs_show (self : VersionSpecifiers) : bytes := join (bs ", ") (map spec_show self).
Definition specs_serialize (self : VersionSpecifiers) : bytes := join (bs ",") (map spec_show self).

(** ** [TildeVersionSpecifier] *)

Record TildeVersionSpecifier := { tilde_inner : VersionSpecifier }.

Definition tilde_new (specifier : VersionSpecifier) : option TildeVersionSpecifier :=
  let version := spec_version specifier in
  if negb (bool_decide (operator specifier = TildeEqual)) then None
  else if Nat.ltb (length (release version)) 2 || Nat.ltb 3 (length (release version)) then None
  else if any_prerelease version || is_local version || is_post version then None
  else Some {| tilde_inner := specifier |}.

Definition has_patch (self : TildeVersionSpecifier) : bool :=
  Nat.eqb (length (release (spec_version (tilde_inner self)))) 3.

Definition bounding_specifiers (self : TildeVersionSpecifier)
    : option (VersionSpecifier * VersionSpecifier) :=
  let release := release (spec_version (tilde_inner self)) in
  let lower := spec_version (tilde_inner self) in
  upper ← (if has_patch self then
             r0 ← release !! 0%nat; r1 ← release !! 1%nat; new [r0; u64_add r1 1]
           else r0 ← release !! 0%nat; new [u64_add r0 1]);
  Some (greater_than_equal_version lower, less_than_version upper).

Definition with_patch_version (self : TildeVersionSpecifier) (patch : N)
    : option TildeVersionSpecifier :=
  let release := release (spec_version (tilde_inner self)) in
  let release := if has_patch self then removelast release else release in
  version ← new (release ++ [patch]);
  specifier ← from_version_unwrap TildeEqual version;
  tilde_new specifier.

(** A scanner that is the text that is left. *)
#[export] Instance text_scanner : Scanner text := {|
  scanner t := t;
  eat_while := span;
  scanner_done t := match t with [] => true | _ => false end;
  after t := t
|}.

#[export] Instance text_scanner_laws : ScannerLaws text.
Proof. split; try done. intros []; naive_solver. Qed.
