(* ===== verification/SpecifierFacts.v ===== *)
(** * Lemmas on specifiers

    Well-formed specifiers, matching up to the local segment, and prefix
    matching. *)

From stdpp Require Import base numbers list strings.
From S2P Require Import Prelude VersionTypes VersionSmall Version VersionFacts VersionParser ParserFacts RoundTrip ParserSafe VersionOps Specifier.

Local Open Scope uv_scope.

(** ** Well-formed specifiers *)

(** What the constructors check. *)
Definition spec_ok (s : VersionSpecifier) : bool :=
  (negb (is_local (spec_version s)) || is_local_compatible (operator s))
  && (negb (bool_decide (operator s = TildeEqual)) || Nat.leb 2 (length (release (spec_version s)))).

Definition spec_wf (s : VersionSpecifier) : Prop :=
  spec_ok s = true /\ version_wf (spec_version s).

Lemma from_version_ok op v :
  from_version op v = if spec_ok (mkSpec op v) then Ok (mkSpec op v)
                      else if is_local v && negb (is_local_compatible op)
                           then Err (OperatorLocalCombo op v) else Err CompatibleRelease.
Proof.
  unfold from_version, spec_ok. cbn. destruct (is_local v), (is_local_compatible op); cbn; try done;
  rewrite Nat.leb_antisym; destruct (bool_decide _), (Nat.ltb _ _) eqn:E; cbn; try done;
  unfold Nat.ltb in E; cbn in *; rewrite ?E; try done;
  destruct (length (release v)) as [|[|n]]; cbn in *; done.
Qed.

Lemma from_pattern_ok op p s :
  from_pattern op p = Ok s ->
  spec_ok s = true /\ spec_version s = version p /\
  (if wildcard p then to_star op = Some (operator s) else operator s = op).
Proof.
  unfold from_pattern. destruct (wildcard p); [destruct (to_star op) as [o|]|]; cbn; [|done|];
  rewrite from_version_ok; repeat case_match; try done; by intros [= <-].
Qed.

Lemma contains_total s v : spec_ok s = true -> is_Some (contains s v).
Proof.
  unfold spec_ok, contains. intros [_ H]%andb_true_iff.
  destruct (operator s); try (eexists; done); cbn in *;
    [|repeat case_match; eexists; done..].
  destruct (length (release (spec_version s))) as [|[|n]]; [done..|]. cbn.
  repeat case_match; by eexists.
Qed.

(** ** The local segment is the last thing that is compared *)

Definition drop_local (f : VersionFull) : VersionFull := set_f_local LocalVersion_empty f.

Lemma full_tuple_local f : full_tuple f = (fst (full_tuple (drop_local f)), f_local f).
Proof.
  unfold full_tuple, sortable_tuple. cbn.
  by destruct (f_max f), (f_pre f) as [[[] ?]|], (f_post f), (f_dev f), (f_min f).
Qed.

Lemma cmp_local f g :
  cmp f g = then_with (cmp (drop_local f) (drop_local g)) (cmp (f_local f) (f_local g)).
Proof.
  rewrite !VersionFull_cmp, !then_with_assoc. cbn [f_epoch f_release drop_local set_f_local].
  rewrite (full_tuple_local f), (full_tuple_local g), (full_tuple_local (drop_local f)),
    (full_tuple_local (drop_local g)).
  rewrite !(prod_cmp (fst _)). cbn [f_local drop_local set_f_local].
  rewrite (cmp_refl LocalVersion_empty). f_equal. f_equal.
  change (drop_local (drop_local f)) with (drop_local f).
  change (drop_local (drop_local g)) with (drop_local g).
  cbn [fst]. by destruct (cmp (fst (full_tuple (drop_local f))) (fst (full_tuple (drop_local g)))).
Qed.

(** ** Matching, read on abstract values *)

(** The candidate as [contains] sees it. *)
Definition candidate (this version : Version) : Version :=
  if LocalVersion_is_empty (local this) && negb (LocalVersion_is_empty (local version))
  then without_local version else version.

Lemma candidate_wf this v : version_wf v -> version_wf (candidate this v).
Proof. intros. unfold candidate. case_match; auto using without_local_wf. Qed.

Lemma set_local_same f : set_f_local (f_local f) f = f.
Proof. by destruct f. Qed.

(** When the specifier has no local segment the candidate's is dropped. *)
Lemma candidate_value this v :
  version_wf v ->
  value (candidate this v)
  = if LocalVersion_is_empty (local this) then drop_local (value v) else value v.
Proof.
  intros Hv. unfold candidate. destruct (LocalVersion_is_empty (local this)); [|done]. cbn.
  destruct (LocalVersion_is_empty (local v)) eqn:E; cbn; [|by apply without_local_value].
  apply LocalVersion_is_empty_spec in E. rewrite value_local in E. unfold drop_local.
  by rewrite <- E, set_local_same.
Qed.

Lemma candidate_release this v : version_wf v -> release (candidate this v) = release v.
Proof.
  intros Hv. rewrite !value_release, candidate_value by done. by case_match.
Qed.

Lemma candidate_epoch this v : version_wf v -> epoch (candidate this v) = epoch v.
Proof. intros Hv. rewrite !value_epoch, candidate_value by done. by case_match. Qed.

Lemma candidate_post this v : version_wf v -> post (candidate this v) = post v.
Proof. intros Hv. rewrite !value_post, candidate_value by done. by case_match. Qed.

Lemma candidate_pre this v : version_wf v -> pre (candidate this v) = pre v.
Proof. intros Hv. rewrite !value_pre, candidate_value by done. by case_match. Qed.

Lemma candidate_dev this v : version_wf v -> dev (candidate this v) = dev v.
Proof. intros Hv. rewrite !value_dev, candidate_value by done. by case_match. Qed.

(** ** Prefix matching *)

Lemma zip_all_eq_prefix a b :
  (length a <= length b)%nat -> zip_all_eq a b = true <-> take (length a) b = a.
Proof.
  revert b. induction a as [|x a IH]; intros [|y b] Hl; cbn in *; try done; try lia.
  rewrite andb_true_iff, N.eqb_eq, IH by lia.
  split; [by intros [-> ->]|]. intros E. by injection E as -> E.
Qed.

Lemma zip_all_eq_take n a b : (n <= length b)%nat -> zip_all_eq (take n a) b = zip_all_eq (take n a) (take n b).
Proof.
  revert a b. induction n as [|n IH]; intros [|x a] [|y b] Hl; cbn in *; try done; try lia.
  by rewrite IH by lia.
Qed.

Lemma Version_eq_cmp v w : Version_eq v w = true <-> cmp v w = Eq.
Proof. unfold Version_eq, cmp_eqb. destruct (cmp v w); naive_solver. Qed.

(** ** Release prefixes and intervals

    Prefix matching ([==V.*], [~=V.N]) against the order on releases: the
    releases that start with [P.n] are those from [P.n] up to [P.(n+1)]. *)

(** The first [k] segments, missing ones read as zero. *)
Fixpoint prefix0 (k : nat) (w : list N) : list N :=
  match k with
  | O => []
  | S k' => default 0 (head w) :: prefix0 k' (tail w)
  end.

Lemma pad_step m a : (length a <= S m)%nat -> pad (S m) a = default 0 (head a) :: pad m (tail a).
Proof. destruct a as [|x a]; intros H; cbn; [|done]. by rewrite Nat.sub_0_r. Qed.

(** Releases compare segment by segment, a missing segment being zero. *)
Lemma compare_release_step a b :
  compare_release a b
  = then_with (cmp (default 0 (head a)) (default 0 (head b))) (compare_release (tail a) (tail b)).
Proof.
  set (m := Nat.max (length a) (length b)).
  assert (length (tail a) <= m)%nat by (unfold m; destruct a; cbn; lia).
  assert (length (tail b) <= m)%nat by (unfold m; destruct b; cbn; lia).
  rewrite (compare_release_pad (S m) a b), (compare_release_pad m) by lia.
  rewrite !pad_step, list_cmp_cons by lia. done.
Qed.

Lemma compare_release_nil_l l : compare_release [] l <> Gt.
Proof.
  induction l as [|x l IH]; [done|]. rewrite compare_release_step. cbn [head tail default id].
  destruct x; [|done]. exact IH.
Qed.

Lemma compare_release_opp a b : compare_release b a = CompOpp (compare_release a b).
Proof. apply (@cmp_opp _ release_ord release_ord_laws). Qed.

Lemma compare_release_nil_r l : compare_release l [] <> Lt.
Proof.
  pose proof (compare_release_nil_l l). rewrite compare_release_opp. by destruct (compare_release [] l).
Qed.

Lemma compare_release_le_trans a b c :
  compare_release a b <> Gt -> compare_release b c <> Gt -> compare_release a c <> Gt.
Proof. apply (@cmp_le_trans _ release_ord release_ord_laws). Qed.

Lemma compare_release_eq_r a b c :
  compare_release a b = Eq -> compare_release c a = compare_release c b.
Proof. apply (@cmp_eq_r _ release_ord release_ord_laws). Qed.

(** Lengthening a release does not lower it. *)
Lemma compare_release_app a b : compare_release a (a ++ b) <> Gt.
Proof.
  induction a as [|x a IH]; [apply compare_release_nil_l|].
  rewrite compare_release_step. cbn [app head tail default id]. by rewrite cmp_refl.
Qed.

Lemma cmp_N_spec (a b : N) :
  match cmp a b with Eq => a = b | Lt => a < b | Gt => b < a end.
Proof. unfold cmp, N_ord. destruct (N.compare_spec a b); done. Qed.

(** The releases between [P.n] and [P.(n+1)] are those that start with [P.n]. *)
Lemma prefix_interval P n w :
  compare_release (P ++ [n]) w <> Gt /\ compare_release w (P ++ [n + 1]) = Lt <->
  prefix0 (S (length P)) w = P ++ [n].
Proof.
  revert w. induction P as [|x P IH]; intros w; cbn [app length].
  - rewrite (compare_release_step [n] w), (compare_release_step w [n + 1]). cbn [head tail default id prefix0].
    pose proof (compare_release_nil_l (tail w)). pose proof (compare_release_nil_r (tail w)).
    generalize (default 0 (head w)) as h. intros h.
    pose proof (cmp_N_spec n h) as H1. pose proof (cmp_N_spec h (n + 1)) as H2.
    destruct (cmp n h), (cmp h (n + 1)); cbn [then_with]; split;
      try (intros [? ?]; congruence); try (intros [? ?]; f_equal; lia);
      intros E; injection E as E; try (exfalso; lia); split; done.
  - rewrite (compare_release_step (x :: _) w), (compare_release_step w (x :: _)).
    cbn [head tail default id]. change (prefix0 (S (S (length P))) w)
      with (default 0 (head w) :: prefix0 (S (length P)) (tail w)).
    specialize (IH (tail w)). rewrite (cmp_opp x (default 0 (head w))).
    pose proof (cmp_N_spec x (default 0 (head w))) as H1.
    destruct (cmp x (default 0 (head w))); cbn [then_with CompOpp].
    + rewrite IH. rewrite <- H1. split; [by intros ->|]. intros E. by injection E.
    + split; [by intros []|]. intros E. injection E as E _. lia.
    + split; [by intros []|]. intros E. injection E as E _. lia.
Qed.

(** ** [zip_all_eq] *)

Lemma prefix0_zip P w : prefix0 (length P) w = P -> zip_all_eq P w = true.
Proof.
  revert w. induction P as [|x P IH]; intros [|y w] E; try done. cbn in *.
  injection E as -> E. by rewrite N.eqb_refl, IH.
Qed.

(** A candidate at least as long as the prefix. *)
Lemma zip_prefix0_long P w :
  (length P <= length w)%nat -> zip_all_eq P w = true -> prefix0 (length P) w = P.
Proof.
  revert w. induction P as [|x P IH]; intros [|y w] Hl; cbn in *; try done; [lia|].
  intros [->%N.eqb_eq E]%andb_true_iff. by rewrite IH by (done || lia).
Qed.

(** A candidate that is not below the prefix. *)
Lemma zip_prefix0_above P t w :
  zip_all_eq P w = true -> compare_release (P ++ t) w <> Gt -> prefix0 (length P) w = P.
Proof.
  revert w. induction P as [|x P IH]; intros w Hz Hc; [done|].
  rewrite compare_release_step in Hc. cbn [app head tail default id length prefix0] in *.
  pose proof (cmp_N_spec x (default 0 (head w))) as H1.
  assert (default 0 (head w) = x /\ zip_all_eq P (tail w) = true) as [E Ez].
  { destruct w as [|y w]; cbn [head tail default id] in *.
    - split; [|by destruct P]. destruct (cmp x 0); [done|lia|done].
    - apply andb_true_iff in Hz as [->%N.eqb_eq ?]. done. }
  rewrite E in *. rewrite cmp_refl in Hc. by rewrite (IH (tail w)).
Qed.

(** ** Matching and the order on versions

    Epoch and release decide first; the lemmas say which suffixes can tip the
    comparison with the bounds that specifiers use. *)

(** The comparison of epoch and release. *)
Definition head_cmp (f g : VersionFull) : comparison :=
  then_with (cmp (f_epoch f) (f_epoch g)) (compare_release (f_release f) (f_release g)).

Lemma cmp_head f g : cmp f g = then_with (head_cmp f g) (cmp (full_tuple f) (full_tuple g)).
Proof. rewrite VersionFull_cmp. unfold head_cmp. by rewrite then_with_assoc. Qed.

Lemma head_cmp_opp f g : head_cmp g f = CompOpp (head_cmp f g).
Proof.
  unfold head_cmp. rewrite then_with_opp, <- compare_release_opp.
  by rewrite (cmp_opp (f_epoch f) (f_epoch g)).
Qed.

(** A version with an epoch and a release only. *)
Definition bare (e : N) (r : list N) : VersionFull := set_f_epoch e (release_value r).

Definition dev0 (f : VersionFull) : VersionFull := set_f_dev (Some 0) f.

(** [.dev0] is the least suffix. *)
Lemma dev0_least f e r : f_min f = None -> cmp (full_tuple f) (full_tuple (dev0 (bare e r))) <> Lt.
Proof.
  intros Hm. unfold full_tuple. cbn. unfold sortable_tuple. cbn. rewrite Hm.
  destruct (f_max f), (f_pre f) as [[[] p]|], (f_post f), (f_dev f) as [d|]; cbn -[cmp]; try done.
  - destruct d; [|done]. by destruct (f_local f) as [[]|].
Qed.

Lemma lt_dev0 f e r :
  f_min f = None -> cmp f (dev0 (bare e r)) = Lt <-> head_cmp f (bare e r) = Lt.
Proof.
  intros Hm. pose proof (dev0_least f e r Hm) as H. rewrite cmp_head.
  change (head_cmp f (dev0 (bare e r))) with (head_cmp f (bare e r)).
  destruct (head_cmp f (bare e r)); cbn; naive_solver.
Qed.

(** Without pre-release and dev segment nothing sorts below the bare release. *)
Lemma bare_least f e r :
  f_min f = None -> f_pre f = None -> f_dev f = None ->
  cmp (full_tuple f) (full_tuple (bare e r)) <> Lt.
Proof.
  intros Hm Hp Hd. unfold full_tuple, sortable_tuple. cbn. rewrite Hm, Hp, Hd.
  destruct (f_max f), (f_post f); cbn -[cmp]; try done. by destruct (f_local f) as [[]|].
Qed.

Lemma lt_bare f e r :
  f_min f = None -> f_pre f = None -> f_dev f = None ->
  cmp f (bare e r) = Lt <-> head_cmp f (bare e r) = Lt.
Proof.
  intros Hm Hp Hd. pose proof (bare_least f e r Hm Hp Hd) as H. rewrite cmp_head.
  destruct (head_cmp f (bare e r)); cbn; naive_solver.
Qed.

(** ** Each operator on abstract values *)

Definition eqb_cmp (c : comparison) : bool := match c with Eq => true | _ => false end.
Definition gtb_cmp (c : comparison) : bool := match c with Gt => true | _ => false end.
Definition leb_cmp (c : comparison) : bool := match c with Gt => false | _ => true end.
Definition ltb_cmp (c : comparison) : bool := match c with Lt => true | _ => false end.
Definition geb_cmp (c : comparison) : bool := match c with Lt => false | _ => true end.

(** The candidate as a value: the local segment is ignored unless the specifier
    has one. *)
Definition seen (this v : Version) : VersionFull :=
  if LocalVersion_is_empty (local this) then drop_local (value v) else value v.

Lemma contains_candidate s v :
  contains s v
  = let this := spec_version s in
    let other := candidate this v in
    match operator s with
    | Equal => Some (Version_eq other this)
    | EqualStar => Some ((epoch this =? epoch other) && zip_all_eq (release this) (release other))
    | ExactEqual => Some (bool_decide (show this = show v))
    | NotEqual => Some (negb (Version_eq this other))
    | NotEqualStar =>
        Some (negb (epoch this =? epoch other) || negb (zip_all_eq (release this) (release v)))
    | TildeEqual =>
        if negb (Nat.ltb 1 (length (release this))) then None
        else if negb (epoch this =? epoch other) then Some false
        else if negb (zip_all_eq (take (length (release this) - 1) (release this)) (release other))
        then Some false
        else Some (cmp_geb other this)
    | GreaterThan =>
        if epoch this <? epoch other then Some true
        else
          match compare_release (release this) (release other) with
          | Eq =>
              if negb (is_post this) && is_post other then Some false
              else if is_local other then Some false
              else Some (cmp_gtb other this)
          | _ => Some (cmp_gtb other this)
          end
    | GreaterThanEqual => Some (cmp_geb other this)
    | LessThan =>
        if epoch other <? epoch this then Some true
        else
          match compare_release (release this) (release other) with
          | Eq =>
              if negb (any_prerelease this) && any_prerelease other then Some false
              else Some (cmp_ltb other this)
          | _ => Some (cmp_ltb other this)
          end
    | LessThanEqual => Some (cmp_leb other this)
    end.
Proof. done. Qed.

Section matching.
Context (this v : Version) (Hthis : version_wf this) (Hv : version_wf v).

Lemma cmp_candidate : cmp (candidate this v) this = cmp (seen this v) (value this).
Proof using All. rewrite cmp_value by auto using candidate_wf. by rewrite candidate_value. Qed.

Lemma contains_ge :
  contains (mkSpec GreaterThanEqual this) v = Some (geb_cmp (cmp (seen this v) (value this))).
Proof using All. rewrite contains_candidate. cbn -[cmp]. unfold cmp_geb. by rewrite cmp_candidate. Qed.

Lemma contains_eq :
  contains (mkSpec Equal this) v
  = Some (eqb_cmp (cmp (seen this v) (value this))).
Proof using All.
  rewrite contains_candidate. cbn -[cmp]. unfold Version_eq, cmp_eqb. by rewrite cmp_candidate.
Qed.

Lemma contains_ne :
  contains (mkSpec NotEqual this) v
  = Some (negb (eqb_cmp (cmp (seen this v) (value this)))).
Proof using All.
  rewrite contains_candidate. cbn -[cmp]. unfold Version_eq, cmp_eqb.
  rewrite <- cmp_candidate. rewrite !cmp_value, (cmp_opp (value (candidate this v))) by auto using candidate_wf.
  by destruct (cmp (value (candidate this v)) (value this)).
Qed.

Lemma contains_le :
  contains (mkSpec LessThanEqual this) v
  = Some (leb_cmp (cmp (seen this v) (value this))).
Proof using All. rewrite contains_candidate. cbn -[cmp]. unfold cmp_leb. by rewrite cmp_candidate. Qed.

Lemma contains_star :
  contains (mkSpec EqualStar this) v
  = Some ((epoch this =? epoch v) && zip_all_eq (release this) (release v)).
Proof using All.
  rewrite contains_candidate. cbn -[cmp]. by rewrite candidate_epoch, candidate_release.
Qed.

Lemma contains_not_star :
  contains (mkSpec NotEqualStar this) v
  = Some (negb ((epoch this =? epoch v) && zip_all_eq (release this) (release v))).
Proof using All.
  rewrite contains_candidate. cbn -[cmp]. rewrite candidate_epoch by done. by rewrite negb_andb.
Qed.

(** [~=V.N]: not below [V.N], with the epoch and all but the last segment of it. *)
Lemma contains_tilde :
  (2 <= length (release this))%nat ->
  contains (mkSpec TildeEqual this) v
  = Some (geb_cmp (cmp (seen this v) (value this))
          && ((epoch this =? epoch v) && zip_all_eq (removelast (release this)) (release v))).
Proof using All.
  intros Hlen. rewrite contains_candidate. cbn [operator spec_version].
  rewrite (proj2 (Nat.ltb_lt _ _)) by lia. cbn [negb].
  rewrite candidate_epoch, candidate_release by done. unfold cmp_geb. rewrite cmp_candidate.
  assert (take (length (release this) - 1) (release this) = removelast (release this)) as ->.
  { destruct (exists_last (l := release this)) as (l&x&->); [intros E; rewrite E in Hlen; cbn in Hlen; lia|].
    rewrite length_app, removelast_last, Nat.add_sub. apply take_app_length. }
  destruct (epoch this =? epoch v); [|by rewrite andb_false_r].
  destruct (zip_all_eq _ _); cbn; [by rewrite andb_true_r|by rewrite andb_false_r].
Qed.

Lemma seen_head : head_cmp (seen this v) (value this) = head_cmp (value v) (value this).
Proof using. unfold seen. by case_match. Qed.

Lemma epoch_ltb : (epoch v <? epoch this) = true -> cmp (seen this v) (value this) = Lt.
Proof using.
  intros E. bool_to_prop. rewrite !value_epoch in E. apply N.compare_lt_iff in E.
  rewrite cmp_head, seen_head. unfold head_cmp, cmp at 1, N_ord. by rewrite E.
Qed.

Lemma epoch_gtb : (epoch this <? epoch v) = true -> cmp (seen this v) (value this) = Gt.
Proof using.
  intros E. bool_to_prop. rewrite !value_epoch in E. apply N.compare_gt_iff in E.
  rewrite cmp_head, seen_head. unfold head_cmp, cmp at 1, N_ord. by rewrite E.
Qed.

(** [<V] accepts what is below [V], except pre-releases of a final [V]. *)
Lemma contains_lt :
  contains (mkSpec LessThan this) v
  = Some (ltb_cmp (cmp (seen this v) (value this))
          && negb ((epoch this =? epoch v) && eqb_cmp (compare_release (release this) (release v))
                   && negb (any_prerelease this) && any_prerelease v)).
Proof using All.
  rewrite contains_candidate. cbn -[cmp]. unfold any_prerelease, is_pre, is_dev, cmp_ltb.
  rewrite cmp_candidate, candidate_epoch, candidate_release, candidate_pre, candidate_dev by done.
  destruct (epoch v <? epoch this) eqn:E1.
  { rewrite (epoch_ltb E1). bool_to_prop. by rewrite (proj2 (N.eqb_neq _ _)) by lia. }
  destruct (epoch this =? epoch v) eqn:E2; cbn [andb].
  - destruct (compare_release (release this) (release v)); cbn [eqb_cmp andb negb];
      rewrite ?andb_true_r; try done.
    destruct (negb _ && _); cbn [negb]; by rewrite ?andb_false_r, ?andb_true_r.
  - bool_to_prop. rewrite epoch_gtb by (apply N.ltb_lt; lia). cbn.
    repeat case_match; done.
Qed.

(** [>V] accepts what is above [V], except post-releases of a [V] that is none. *)
Lemma contains_gt :
  spec_ok (mkSpec GreaterThan this) = true ->
  contains (mkSpec GreaterThan this) v
  = Some (gtb_cmp (cmp (seen this v) (value this))
          && negb ((epoch this =? epoch v) && eqb_cmp (compare_release (release this) (release v))
                   && negb (is_post this) && is_post v)).
Proof using All.
  intros Hok. assert (LocalVersion_is_empty (local this) = true) as Hl.
  { unfold spec_ok in Hok. cbn in Hok. unfold is_local in Hok.
    by destruct (LocalVersion_is_empty (local this)). }
  assert (is_local (candidate this v) = false) as Hlo.
  { unfold is_local. rewrite value_local, candidate_value, Hl by done. done. }
  rewrite contains_candidate. cbn -[cmp]. rewrite Hlo. unfold is_post, cmp_gtb.
  rewrite cmp_candidate, candidate_epoch, candidate_release, candidate_post by done.
  destruct (epoch this <? epoch v) eqn:E1.
  { rewrite (epoch_gtb E1). bool_to_prop. by rewrite (proj2 (N.eqb_neq _ _)) by lia. }
  destruct (epoch this =? epoch v) eqn:E2; cbn [andb].
  - destruct (compare_release (release this) (release v)); cbn [eqb_cmp andb negb];
      rewrite ?andb_true_r; try done.
    destruct (negb _ && _); cbn [negb]; by rewrite ?andb_false_r, ?andb_true_r.
  - bool_to_prop. rewrite epoch_ltb by (apply N.ltb_lt; lia). cbn.
    repeat case_match; done.
Qed.
End matching.

(** ** Prefixes at the level of versions *)

Lemma then_with_ngt c d : then_with c d <> Gt <-> c = Lt \/ (c = Eq /\ d <> Gt).
Proof. destruct c; naive_solver. Qed.

(** From [e!P.n] up to [e!P.(n+1)]: the epoch [e] and the prefix [P.n]. *)
Lemma head_interval f e P n :
  head_cmp (bare e (P ++ [n])) f <> Gt /\ head_cmp f (bare e (P ++ [n + 1])) = Lt <->
  f_epoch f = e /\ prefix0 (S (length P)) (f_release f) = P ++ [n].
Proof.
  rewrite <- prefix_interval. unfold head_cmp. cbn [f_epoch f_release bare set_f_epoch release_value].
  rewrite then_with_ngt, then_with_lt, (cmp_opp (f_epoch f) e).
  pose proof (cmp_N_spec (f_epoch f) e) as H.
  destruct (cmp (f_epoch f) e); cbn [CompOpp].
  - rewrite H. naive_solver.
  - split; [naive_solver|]. intros [E _]. lia.
  - split; [naive_solver|]. intros [E _]. lia.
Qed.

Lemma andb_negb_implies (a b : bool) : (a = true -> b = true) -> a && negb b = false.
Proof. destruct a, b; cbn; intuition. Qed.

(** [<U] for a final release [U] looks at epoch and release only. *)
Lemma contains_lt_bare u v e r :
  version_wf u -> version_wf v -> value u = bare e r -> min v = None ->
  contains (mkSpec LessThan u) v = Some (ltb_cmp (head_cmp (value v) (bare e r))).
Proof.
  intros Hu Hv Eu Hm. rewrite contains_lt by done. f_equal.
  assert (any_prerelease u = false) as ->.
  { unfold any_prerelease, is_pre, is_dev. autorewrite with value. by rewrite Eu. }
  assert (f_min (seen u v) = None) as Hms.
  { unfold seen. rewrite value_min in Hm. by destruct (LocalVersion_is_empty _). }
  assert (ltb_cmp (cmp (seen u v) (bare e r))
          = match head_cmp (value v) (bare e r) with
            | Lt => true | Gt => false
            | Eq => ltb_cmp (cmp (full_tuple (seen u v)) (full_tuple (bare e r))) end) as E.
  { rewrite cmp_head, <- Eu, seen_head. by destruct (head_cmp (value v) (value u)). }
  rewrite Eu, E, (value_epoch u), (value_release u), Eu, (value_epoch v), (value_release v).
  cbn [f_epoch f_release bare set_f_epoch release_value].
  destruct (head_cmp (value v) (bare e r)) eqn:Eh; cbn [ltb_cmp andb]; [|..|done].
  - unfold any_prerelease, is_pre, is_dev. autorewrite with value.
    apply andb_negb_implies. intros Hlt. unfold head_cmp in Eh. apply then_with_eq in Eh as [E1 E2].
    apply N_cmp_eq in E1. cbn in E1, E2. rewrite E1, N.eqb_refl, compare_release_opp, E2. cbn.
    destruct (f_pre (value v)) eqn:Ep; [done|]. destruct (f_dev (value v)) eqn:Ed; [done|].
    pose proof (bare_least (seen u v) e r Hms) as Hnl. exfalso. apply Hnl.
    + unfold seen. by destruct (LocalVersion_is_empty _).
    + unfold seen. by destruct (LocalVersion_is_empty _).
    + by destruct (cmp (full_tuple (seen u v)) _).
  - apply negb_true_iff. unfold head_cmp in Eh. cbn in Eh.
    destruct (N.eqb_spec e (f_epoch (value v))) as [Ee|]; [|done]. cbn.
    rewrite <- Ee, cmp_refl in Eh. cbn in Eh. by rewrite compare_release_opp, Eh.
Qed.

(** Not below [V] means not below its epoch and release. *)
Lemma ge_head this v : cmp (seen this v) (value this) <> Lt -> head_cmp (value this) (value v) <> Gt.
Proof.
  rewrite cmp_head, seen_head, (head_cmp_opp (value v)). by destruct (head_cmp (value v) (value this)).
Qed.

(** Above [V = e!P.n.t], prefix matching with [e!P.n] is staying below [e!P.(n+1)]. *)
Lemma tilde_interval this v P n t :
  release this = P ++ [n] ++ t -> cmp (seen this v) (value this) <> Lt ->
  (epoch this =? epoch v) && zip_all_eq (P ++ [n]) (release v) = true <->
  head_cmp (value v) (bare (epoch this) (P ++ [n + 1])) = Lt.
Proof.
  intros Hr Hge. apply ge_head in Hge. rewrite value_release in Hr.
  assert (head_cmp (bare (epoch this) (P ++ [n])) (value v) <> Gt) as Hlow.
  { unfold head_cmp in *. rewrite Hr in Hge. cbn. rewrite (value_epoch this).
    rewrite then_with_ngt in *. destruct Hge as [?|[? Hc]]; [by left|]. right. split; [done|].
    eapply compare_release_le_trans; [apply (compare_release_app (P ++ [n]) t)|]. by rewrite <- app_assoc. }
  rewrite andb_true_iff, N.eqb_eq. split.
  - intros [Ee Ez]. apply (proj2 (head_interval (value v) (epoch this) P n)). split; [by rewrite Ee, value_epoch|].
    replace (S (length P)) with (length (P ++ [n])) by (rewrite length_app; cbn; lia).
    rewrite value_release in Ez. apply (zip_prefix0_above _ t); [done|].
    unfold head_cmp in Hge. rewrite Hr, <- value_epoch, <- (value_epoch v), Ee, cmp_refl in Hge.
    by rewrite <- app_assoc.
  - intros Hlt. destruct (proj1 (head_interval (value v) (epoch this) P n) (conj Hlow Hlt)) as [Ee Ep].
    split; [by rewrite (value_epoch v), Ee|]. apply prefix0_zip.
    rewrite value_release. by rewrite length_app, Nat.add_comm.
Qed.

(** A candidate at least as long as the prefix. *)
Lemma star_interval e P n v :
  (S (length P) <= length (release v))%nat ->
  (e =? epoch v) && zip_all_eq (P ++ [n]) (release v) = true <->
  head_cmp (bare e (P ++ [n])) (value v) <> Gt /\ head_cmp (value v) (bare e (P ++ [n + 1])) = Lt.
Proof.
  intros Hl. rewrite head_interval, andb_true_iff, N.eqb_eq, value_epoch, value_release in *.
  assert (length (P ++ [n]) = S (length P)) as El by (rewrite length_app; cbn; lia).
  split; intros [E1 E2]; (split; [done|]).
  - rewrite <- El. by apply zip_prefix0_long; rewrite ?El.
  - apply prefix0_zip. by rewrite El.
Qed.
