(* ===== verification/Ranges.v ===== *)
(** * Version ranges ([uv-pep440/src/version_ranges.rs])

    The translation of specifiers to the ranges the resolver works with, and the
    bounds of [requires-python]. The interval type [Ranges] belongs to the
    [version-ranges] crate: it is an interface here, with membership laws taken
    from its documentation. *)

From stdpp Require Import base numbers list strings.
From S2P Require Import Prelude VersionTypes VersionSmall Version VersionParser Specifier.

(** ** The interface to [version_ranges::Ranges<Version>] *)

Class Ranges (R : Type) := {
  ranges_full : R;
  ranges_singleton : Version -> R;
  ranges_between : Version -> Version -> R;
  ranges_from_range_bounds : Version -> Version -> R;
  ranges_strictly_lower_than : Version -> R;
  ranges_lower_than : Version -> R;
  ranges_higher_than : Version -> R;
  ranges_strictly_higher_than : Version -> R;
  ranges_complement : R -> R;
  ranges_intersection : R -> R -> R;
  ranges_contains : R -> Version -> bool
}.

Class RangesLaws (R : Type) `{Ranges R} : Prop := {
  contains_full : forall v, ranges_contains ranges_full v = true;
  contains_singleton : forall a v, ranges_contains (ranges_singleton a) v = cmp_eqb v a;
  contains_between : forall a b v,
    ranges_contains (ranges_between a b) v = cmp_geb v a && cmp_ltb v b;
  contains_from_range_bounds : forall a b v,
    ranges_contains (ranges_from_range_bounds a b) v = cmp_geb v a && cmp_ltb v b;
  contains_strictly_lower_than : forall a v,
    ranges_contains (ranges_strictly_lower_than a) v = cmp_ltb v a;
  contains_lower_than : forall a v, ranges_contains (ranges_lower_than a) v = cmp_leb v a;
  contains_higher_than : forall a v, ranges_contains (ranges_higher_than a) v = cmp_geb v a;
  contains_strictly_higher_than : forall a v,
    ranges_contains (ranges_strictly_higher_than a) v = cmp_gtb v a;
  contains_complement : forall r v,
    ranges_contains (ranges_complement r) v = negb (ranges_contains r v);
  contains_intersection : forall r s v,
    ranges_contains (ranges_intersection r s) v = ranges_contains r v && ranges_contains s v
}.

(** [*release.last_mut().unwrap() += 1], [None] when the slice is empty. *)
Fixpoint increment_last (release : list N) : option (list N) :=
  match release with
  | [] => None
  | [n] => Some [u64_add n 1]
  | n :: rest => rest' ← increment_last rest; Some (n :: rest')
  end.

(** [let [rest @ .., last, _] = release]: [rest] followed by [last + 1]. *)
Fixpoint increment_second_last (release : list N) : option (list N) :=
  match release with
  | [] | [_] => None
  | [last; _] => Some [u64_add last 1]
  | n :: rest => rest' ← increment_second_last rest; Some (n :: rest')
  end.

Section ranges.
Context {R : Type} `{Ranges R}.

(** The upper end of [==V.*] after [low = V.dev0]. *)
Definition star_high (low : Version) : option Version :=
  match post low with
  | Some post => Some (with_post low (Some (u64_add post 1)))
  | None =>
      match pre low with
      | Some pre =>
          Some (with_pre low (Some {| kind := kind pre; number := u64_add (number pre) 1 |}))
      | None => release ← increment_last (release low); with_release low release
      end
  end.

Definition equal_range (version : Version) : option R :=
  match local version with
  | Segments [] => Some (ranges_between version (with_local version LocalMax))
  | Segments _ => Some (ranges_singleton version)
  | LocalMax => None
  end.

Definition star_range (version : Version) : option R :=
  let low := with_dev version (Some 0) in
  high ← star_high low;
  Some (ranges_from_range_bounds low high).

(** [Ranges::from(VersionSpecifier)]. *)
Definition range_from_specifier (specifier : VersionSpecifier) : option R :=
  let version := spec_version specifier in
  match operator specifier with
  | Equal => equal_range version
  | ExactEqual => Some (ranges_singleton version)
  | NotEqual => r ← equal_range version; Some (ranges_complement r)
  | TildeEqual =>
      release ← increment_second_last (release version);
      upper ← new release;
      Some (ranges_from_range_bounds version (with_dev (with_epoch upper (epoch version)) (Some 0)))
  | LessThan =>
      if any_prerelease version then Some (ranges_strictly_lower_than version)
      else Some (ranges_strictly_lower_than (with_min version (Some 0)))
  | LessThanEqual => Some (ranges_lower_than (with_local version LocalMax))
  | GreaterThan =>
      match dev version with
      | Some dev => Some (ranges_higher_than (with_dev version (Some (u64_add dev 1))))
      | None =>
          match post version with
          | Some post => Some (ranges_higher_than (with_post version (Some (u64_add post 1))))
          | None => Some (ranges_strictly_higher_than (with_max version (Some 0)))
          end
      end
  | GreaterThanEqual => Some (ranges_higher_than version)
  | EqualStar => star_range version
  | NotEqualStar => r ← star_range version; Some (ranges_complement r)
  end.

(** [range] is folded over the specifiers with [intersection]. *)
Fixpoint intersect_all (conv : VersionSpecifier -> option R) (range : R)
    (specifiers : VersionSpecifiers) : option R :=
  match specifiers with
  | [] => Some range
  | specifier :: rest =>
      r ← conv specifier;
      intersect_all conv (ranges_intersection range r) rest
  end.

Definition range_from_specifiers (specifiers : VersionSpecifiers) : option R :=
  intersect_all range_from_specifier ranges_full specifiers.

(** The range [version..high] of a release-only star specifier. *)
Definition release_star_range (version : Version) : option R :=
  low_full ← only_release version;
  release ← increment_last (release low_full);
  high ← with_release low_full release;
  Some (ranges_from_range_bounds version high).

Definition release_specifier_to_range (specifier : VersionSpecifier) (trim : bool) : option R :=
  let version := spec_version specifier in
  version_trimmed ← (if trim then only_release_trimmed version else only_release version);
  match operator specifier with
  | Equal => Some (ranges_singleton version_trimmed)
  | ExactEqual => Some (ranges_singleton version_trimmed)
  | NotEqual => Some (ranges_complement (ranges_singleton version_trimmed))
  | LessThan => Some (ranges_strictly_lower_than version_trimmed)
  | LessThanEqual => Some (ranges_lower_than version_trimmed)
  | GreaterThan => Some (ranges_strictly_higher_than version_trimmed)
  | GreaterThanEqual => Some (ranges_higher_than version_trimmed)
  | TildeEqual =>
      release ← increment_second_last (release version);
      upper ← new release;
      Some (ranges_from_range_bounds version_trimmed upper)
  | EqualStar => release_star_range version
  | NotEqualStar => r ← release_star_range version; Some (ranges_complement r)
  end.

Definition release_specifiers_to_ranges (specifiers : VersionSpecifiers) : option R :=
  intersect_all (fun specifier => release_specifier_to_range specifier false) ranges_full specifiers.
End ranges.

(** ** [LowerBound] and [UpperBound] *)

(** The release-only, trimmed form of a bound. *)
Definition trim_bound (bound : Bound) : option Bound :=
  match bound with
  | Included version => v ← only_release_trimmed version; Some (Included v)
  | Excluded version => v ← only_release_trimmed version; Some (Excluded v)
  | Unbounded => Some Unbounded
  end.

Definition LowerBound_new (bound : Bound) : option Bound := trim_bound bound.

Definition LowerBound_major_minor (self : Bound) : option Bound :=
  match self with
  | Included version => v ← new (take 2 (release version)); Some (Included v)
  | Excluded version => v ← new (take 2 (release version)); Some (Included v)
  | Unbounded => Some Unbounded
  end.

Definition LowerBound_contains (self : Bound) (version : Version) : bool :=
  match self with
  | Included bound => cmp_leb bound version
  | Excluded bound => cmp_ltb bound version
  | Unbounded => true
  end.

Definition LowerBound_specifier (self : Bound) : option VersionSpecifier :=
  match self with
  | Included version => Some (greater_than_equal_version version)
  | Excluded version => Some (greater_than_version version)
  | Unbounded => None
  end.

Definition LowerBound_cmp (lhs rhs : Bound) : comparison :=
  match lhs, rhs with
  | Unbounded, Unbounded => Eq
  | Included _, Unbounded => Gt
  | Excluded _, Unbounded => Gt
  | Unbounded, Included _ => Lt
  | Included lhs, Included rhs => cmp lhs rhs
  | Excluded lhs, Included rhs =>
      match cmp lhs rhs with
      | Lt => Lt
      | Eq => Gt
      | Gt => Gt
      end
  | Unbounded, Excluded _ => Lt
  | Included lhs, Excluded rhs =>
      match cmp lhs rhs with
      | Lt => Lt
      | Eq => Lt
      | Gt => Gt
      end
  | Excluded lhs, Excluded rhs => cmp lhs rhs
  end.

Definition UpperBound_new (bound : Bound) : option Bound := trim_bound bound.

Definition UpperBound_major_minor (self : Bound) : option Bound :=
  match self with
  | Included version => v ← new (take 2 (release version)); Some (Included v)
  | Excluded version =>
      if match release version !! 2%nat with Some patch => 0 <? patch | None => false end then
        v ← new (take 2 (release version)); Some (Included v)
      else v ← new (take 2 (release version)); Some (Excluded v)
  | Unbounded => Some Unbounded
  end.

Definition UpperBound_contains (self : Bound) (version : Version) : bool :=
  match self with
  | Included bound => cmp_geb bound version
  | Excluded bound => cmp_gtb bound version
  | Unbounded => true
  end.

Definition UpperBound_specifier (self : Bound) : option VersionSpecifier :=
  match self with
  | Included version => Some (less_than_equal_version version)
  | Excluded version => Some (less_than_version version)
  | Unbounded => None
  end.

Definition UpperBound_cmp (lhs rhs : Bound) : comparison :=
  match lhs, rhs with
  | Unbounded, Unbounded => Eq
  | Included _, Unbounded => Lt
  | Excluded _, Unbounded => Lt
  | Unbounded, Included _ => Gt
  | Included lhs, Included rhs => cmp lhs rhs
  | Excluded lhs, Included rhs =>
      match cmp lhs rhs with
      | Lt => Lt
      | Eq => Lt
      | Gt => Gt
      end
  | Unbounded, Excluded _ => Gt
  | Included lhs, Excluded rhs =>
      match cmp lhs rhs with
      | Lt => Lt
      | Eq => Gt
      | Gt => Gt
      end
  | Excluded lhs, Excluded rhs => cmp lhs rhs
  end.

(** Ranges as membership tests: an instance of the interface. *)
#[export] Instance predicate_ranges : Ranges (Version -> bool) := {|
  ranges_full _ := true;
  ranges_singleton a v := cmp_eqb v a;
  ranges_between a b v := cmp_geb v a && cmp_ltb v b;
  ranges_from_range_bounds a b v := cmp_geb v a && cmp_ltb v b;
  ranges_strictly_lower_than a v := cmp_ltb v a;
  ranges_lower_than a v := cmp_leb v a;
  ranges_higher_than a v := cmp_geb v a;
  ranges_strictly_higher_than a v := cmp_gtb v a;
  ranges_complement r v := negb (r v);
  ranges_intersection r s v := r v && s v;
  ranges_contains r v := r v
|}.

#[export] Instance predicate_ranges_laws : RangesLaws (Version -> bool).
Proof. split; done. Qed.
