(* ===== verification/SpecifierParse.v ===== *)
(** * Parsing and printing specifiers

    Scanning a specifier never panics and yields a well-formed one; printing and
    parsing give it back, alone and in a sorted list. *)

From stdpp Require Import base numbers list strings sorting.
From S2P Require Import Prelude VersionTypes VersionSmall Version VersionFacts VersionParser ParserFacts RoundTrip ParserSafe VersionOps Specifier SpecifierFacts.

Local Open Scope uv_scope.

(** ** Safety *)

(** What a parsed specifier satisfies. *)
Definition spec_parsed (s : VersionSpecifier) : Prop :=
  spec_wf s /\ parsed_ok (spec_version s) /\
  (is_star (operator s) = true -> is_bare (value (spec_version s))).

Lemma Operator_from_str_not_star b op : Operator_from_str b = Ok op -> is_star op = false.
Proof. unfold Operator_from_str. repeat case_decide; naive_solver. Qed.

Lemma to_star_star op o : to_star op = Some o -> is_star o = true.
Proof. destruct op; naive_solver. Qed.

Lemma from_pattern_parsed b op t vpat s :
  Operator_from_str b = Ok op -> VersionPattern_from_str t = Ok vpat ->
  from_pattern op vpat = Ok s -> spec_parsed s.
Proof.
  intros Hop Hv Hp. pose proof (pattern_from_str_inv t) as Hok. rewrite Hv in Hok. cbn in Hok.
  apply from_pattern_ok in Hp as (Hs&Ev&Hw). unfold spec_parsed, spec_wf. rewrite Ev.
  pose proof Hok as [Hwf _]. split_and!; try done. intros Hstar.
  apply (pattern_wildcard_bare t vpat Hv). destruct (wildcard vpat); [done|].
  subst op. apply Operator_from_str_not_star in Hop. congruence.
Qed.

Section scanning.
Context {S : Type} `{Scanner S}.

Lemma spec_from_str_inv t : yields (spec_from_str t) spec_parsed.
Proof using.
  unfold spec_from_str. destruct (eat_while is_whitespace (scanner t)) as [? s1].
  destruct (eat_while operator_char s1) as [op s2]. destruct op as [|c op].
  - destruct (eat_while is_whitespace s2) as [? s3].
    destruct (eat_while (fun c => negb (is_whitespace c)) s3) as [ver s4].
    pose proof (pattern_from_str_inv (utf8 ver)) as Hv.
    destruct (VersionPattern_from_str (utf8 ver)) as [|[]]; done.
  - destruct (Operator_from_str (utf8 (c :: op))) as [o|] eqn:Eop; [|done]. cbn [map_err rbind].
    destruct (eat_while is_whitespace s2) as [? s3].
    destruct (eat_while (fun c => negb (is_whitespace c)) s3) as [ver s4].
    destruct ver as [|v0 ver]; [done|].
    pose proof (pattern_from_str_inv (utf8 (v0 :: ver))) as Hv.
    destruct (VersionPattern_from_str (utf8 (v0 :: ver))) as [vpat|[]] eqn:Ev; [|done..].
    cbn [map_err rbind]. destruct (from_pattern o vpat) as [sp|] eqn:Ep; [|done]. cbn [map_err rbind].
    destruct (eat_while is_whitespace s4) as [? s5]. destruct (scanner_done s5); [|done]. cbn.
    by eapply from_pattern_parsed.
Qed.
End scanning.

(** ** The characters of a printed specifier *)

Definition version_char (c : N) : bool :=
  is_ascii_lowercase c || is_ascii_digit c || (c =? 33) || (c =? 46) || (c =? 43) || (c =? 42).

Lemma version_char_spec c :
  version_char c = true ->
  is_whitespace c = false /\ utf8_char c = [c] /\ c <> 44 /\ operator_char c = (c =? 33).
Proof.
  unfold version_char, is_ascii_lowercase, is_ascii_digit. rewrite !orb_true_iff, !andb_true_iff, !N.leb_le, !N.eqb_eq.
  intros Hc. split_and!.
  - unfold is_whitespace. rewrite !orb_false_iff, !andb_false_iff, !N.eqb_neq, !N.leb_gt. lia.
  - unfold utf8_char. by rewrite (proj2 (N.ltb_lt c 128)) by lia.
  - lia.
  - unfold operator_char. rewrite (proj2 (N.eqb_neq c 61)), (proj2 (N.eqb_neq c 126)), (proj2 (N.eqb_neq c 60)),
      (proj2 (N.eqb_neq c 62)) by lia. by destruct (c =? 33).
Qed.

Lemma utf8_version_chars t : forallb version_char t = true -> utf8 t = t.
Proof.
  induction t as [|c t IH]; [done|]. cbn [forallb]. intros [Hc Ht]%andb_true_iff.
  change (utf8 (c :: t)) with (utf8_char c ++ utf8 t).
  apply version_char_spec in Hc as (_&->&_). by rewrite IH.
Qed.

Lemma digits_version_char ds : all_digits ds -> forallb version_char ds = true.
Proof.
  intros H%all_digits_forallb. revert H. induction ds as [|d ds IH]; [done|]. cbn [forallb].
  intros [Hd Hds]%andb_true_iff. rewrite IH by done. unfold version_char. rewrite Hd.
  by rewrite orb_true_r.
Qed.

Lemma lower_alnum_version_char s : forallb lower_alnum s = true -> forallb version_char s = true.
Proof.
  induction s as [|b s IH]; [done|]. cbn [forallb]. intros [Hb Hs]%andb_true_iff. rewrite IH by done.
  unfold version_char, lower_alnum in *. by rewrite Hb.
Qed.

Lemma forallb_app_2 {A} (p : A -> bool) a b :
  forallb p a = true -> forallb p b = true -> forallb p (a ++ b) = true.
Proof. intros Ha Hb. by rewrite forallb_app, Ha, Hb. Qed.

Lemma show_u64_version_char n : forallb version_char (show_u64 n) = true.
Proof. apply digits_version_char, show_u64_digits. Qed.

Lemma show_segments_version_char l b :
  Forall segment_ok l -> forallb version_char (show_segments b l) = true.
Proof.
  intros H. revert b. induction H as [|x l Hx _ IH]; intros b; [done|]. cbn [show_segments].
  apply forallb_app_2; [by destruct b|]. apply forallb_app_2; [|apply IH].
  destruct x as [s|n]; cbn [LocalSegment_show]; [|apply show_u64_version_char].
  apply lower_alnum_version_char. by destruct Hx as (_&?&_).
Qed.

Lemma show_rest_version_char l : forallb version_char (show_rest l) = true.
Proof.
  induction l as [|n l IH]; [done|]. cbn [show_rest].
  apply forallb_app_2; [done|]. apply forallb_app_2; [apply show_u64_version_char|done].
Qed.

Lemma show_full_version_char f : printable f -> forallb version_char (show_full f) = true.
Proof.
  intros (_&_&_&_&_&_&Hl&_). unfold show_full. repeat apply forallb_app_2.
  - unfold show_epoch. case_match; [done|]. by apply forallb_app_2; [apply show_u64_version_char|].
  - destruct (f_release f) as [|n l]; [done|]. cbn [show_release].
    apply forallb_app_2; [apply show_u64_version_char|apply show_rest_version_char].
  - destruct (f_pre f) as [[k n]|]; [|done]. cbn [show_pre].
    apply forallb_app_2; [by destruct k|apply show_u64_version_char].
  - destruct (f_post f); [|done]. cbn [show_post]. apply forallb_app_2; [done|apply show_u64_version_char].
  - destruct (f_dev f); [|done]. cbn [show_dev]. apply forallb_app_2; [done|apply show_u64_version_char].
  - destruct (f_local f) as [[|x l]|]; [done| |done].
    change (show_local (Segments (x :: l))) with (bs "+" ++ show_segments true (x :: l)).
    apply forallb_app_2; [done|by apply show_segments_version_char].
Qed.

(** A printed version starts with a digit. *)
Lemma show_full_head f :
  printable f -> exists d t, show_full f = d :: t /\ 48 <= d <= 57.
Proof.
  intros (_&Hr&_). unfold show_full, show_epoch. destruct (f_release f) as [|n l]; [done|].
  destruct (show_u64_cons (f_epoch f)) as (d&t&E&Hd), (show_u64_cons n) as (d'&t'&E'&Hd').
  destruct (f_epoch f =? 0); cbn [show_release]; rewrite ?E, ?E'; cbn [app]; eauto.
Qed.

(** ** Round trip *)

Lemma span_app p a b : forallb p a = true -> stops p b -> span p (a ++ b) = (a, b).
Proof.
  induction a as [|x a IH]; cbn; [|by intros [-> Ha]%andb_true_iff Hb; rewrite IH].
  intros _ Hb. destruct b as [|y b]; [done|]. cbn in *. by rewrite Hb.
Qed.

(** The operator as written, without the star. *)
Definition unstar (op : Operator) : Operator :=
  match op with
  | EqualStar => Equal
  | NotEqualStar => NotEqual
  | op => op
  end.

Lemma Operator_round_trip op :
  forallb operator_char (Operator_as_str op) = true /\ Operator_as_str op <> [] /\
  utf8 (Operator_as_str op) = Operator_as_str op /\
  Operator_from_str (Operator_as_str op) = Ok (unstar op).
Proof. by destruct op. Qed.

(** The version part of a printed specifier. *)
Definition show_pattern (s : VersionSpecifier) : bytes :=
  show (spec_version s) ++ (if is_star (operator s) then bs ".*" else []).

Lemma spec_show_split s : spec_show s = Operator_as_str (operator s) ++ show_pattern s.
Proof. unfold spec_show, show_pattern. destruct (operator s); cbn; by rewrite ?app_nil_r. Qed.

Lemma show_pattern_chars s :
  spec_parsed s -> forallb version_char (show_pattern s) = true /\
  exists d t, show_pattern s = d :: t /\ 48 <= d <= 57.
Proof.
  intros (_&(_&Hp&_)&_). unfold show_pattern. rewrite show_full_value. split.
  - apply forallb_app_2; [by apply show_full_version_char|by destruct (is_star _)].
  - destruct (show_full_head _ Hp) as (d&t&->&Hd). cbn. eauto.
Qed.

(** The wildcard flag is all that distinguishes the two forms. *)
Lemma into_pattern_flag q b v w :
  into_pattern q = Ok {| version := v; wildcard := w |} ->
  into_pattern (put_wildcard b q) = Ok {| version := v; wildcard := b |}.
Proof.
  unfold into_pattern. cbn [p_release p_epoch p_pre p_post p_dev p_local p_wildcard put_wildcard].
  destruct (Nat.ltb _ _); [|done]. destruct (Version.new _); [|done].
  intros E%Ok_inj. apply (f_equal version) in E. cbn [version] in E. by rewrite E.
Qed.

Lemma pattern_from_str_show s :
  spec_parsed s ->
  VersionPattern_from_str (show_pattern s)
  = Ok {| version := spec_version s; wildcard := is_star (operator s) |}.
Proof.
  intros (_&(_&Hp&q&Eq&Ep)&Hstar). unfold VersionPattern_from_str, show_pattern.
  rewrite parse_pattern_general, show_full_value.
  assert (forall q', parsed_value q' = value (spec_version s) ->
    into_pattern q' = Ok {| version := spec_version s; wildcard := p_wildcard q' |}) as Hq'.
  { intros q' E. rewrite (into_pattern_ext q' (put_wildcard (p_wildcard q') q)).
    - by eapply into_pattern_flag.
    - change (parsed_value q' = parsed_value q). by rewrite E, Eq.
    - done. }
  destruct (is_star (operator s)).
  - pose proof Hp as (He&Hne&Hr&_). destruct (Hstar eq_refl) as (E1&E2&E3&E4&E5&E6).
    destruct (value (spec_version s)) as [e rel ? ? ? ? ? ?] eqn:Ev. cbn in *. subst.
    destruct rel as [|r rs]; [done|]. inversion Hr; subst.
    destruct (parse_general_star e r rs) as (q2&Eg&V2&W2); [done..|].
    unfold set_f_epoch, release_value in V2, Eg. cbn in V2, Eg. rewrite Eg, Hq', W2 by done. done.
  - rewrite app_nil_r. destruct (parse_general_show _ Hp) as (q2&->&V2&W2).
    by rewrite Hq', W2.
Qed.

Section round_trip.
Context {S : Type} `{ScannerLaws S}.

Lemma eat (p : N -> bool) (s : S) a b :
  after s = a ++ b -> forallb p a = true -> stops p b ->
  exists s', eat_while p s = (a, s') /\ after s' = b.
Proof using All.
  intros Es Ha Hb. pose proof (eat_while_fst p s) as E1. pose proof (eat_while_snd p s) as E2.
  rewrite Es, span_app in E1, E2 by done. destruct (eat_while p s) as [x s']. cbn in *. subst. eauto.
Qed.

(** A printed specifier, with any white space around it, is parsed back. *)
Lemma spec_from_str_around ws s ws' :
  forallb is_whitespace ws = true -> forallb is_whitespace ws' = true -> spec_parsed s -> spec_from_str (ws ++ spec_show s ++ ws') = Ok s.
Proof using All.
  intros Hws Hws' Hs. destruct (show_pattern_chars s Hs) as (Hchars&d&t&Et&Hd).
  destruct (Operator_round_trip (operator s)) as (O1&O2&O3&O4).
  unfold spec_from_str. rewrite spec_show_split, <- app_assoc.
  destruct (eat is_whitespace (scanner (ws ++ Operator_as_str (operator s) ++ show_pattern s ++ ws')) ws
    (Operator_as_str (operator s) ++ show_pattern s ++ ws')) as (s1&->&A1);
    [apply scanner_after|done|by destruct (operator s)|].
  destruct (eat operator_char s1 _ _ A1 O1) as (s2&->&A2).
  { rewrite Et. cbn [app]. unfold stops, operator_char. rewrite !orb_false_iff, !N.eqb_neq. lia. }
  destruct (Operator_as_str (operator s)) as [|c op] eqn:Eop; [done|].
  rewrite O3, O4. cbn [map_err rbind].
  destruct (eat is_whitespace s2 [] (show_pattern s ++ ws')) as (s3&->&A3); [done..| |].
  { rewrite Et. cbn [app stops]. apply version_char_spec. rewrite Et in Hchars. by apply andb_true_iff in Hchars as [? _]. }
  destruct (eat (fun c => negb (is_whitespace c)) s3 (show_pattern s) ws') as (s4&->&A4);
    [done| |destruct ws' as [|y ws']; [done|]; apply andb_true_iff in Hws' as [Hy _]; cbn [stops]; by rewrite Hy|].
  { clear -Hchars. induction (show_pattern s) as [|x l IH]; [done|]. cbn [forallb] in *.
    apply andb_true_iff in Hchars as [Hx Hl]. rewrite IH by done.
    by destruct (version_char_spec x Hx) as (->&_). }
  rewrite Et at 1. rewrite utf8_version_chars, pattern_from_str_show by done. cbn [map_err rbind].
  assert (from_pattern (unstar (operator s)) {| version := spec_version s; wildcard := is_star (operator s) |} = Ok s) as ->.
  { destruct Hs as ((Hok&_)&_). unfold from_pattern. cbn [wildcard version].
    destruct s as [o v]. cbn [operator spec_version] in *.
    destruct o; cbn [is_star to_star unstar rbind]; rewrite from_version_ok, Hok; done. }
  cbn [map_err rbind].
  destruct (eat is_whitespace s4 ws' []) as (s5&->&A5); [by rewrite app_nil_r|done|done|].
  by rewrite (proj2 (scanner_done_after s5) A5).
Qed.

(** A printed specifier, after any white space, is parsed back. *)
Lemma spec_from_str_show ws s :
  forallb is_whitespace ws = true -> spec_parsed s -> spec_from_str (ws ++ spec_show s) = Ok s.
Proof using All. intros Hws Hs. rewrite <- (app_nil_r (spec_show s)). by apply spec_from_str_around. Qed.
End round_trip.

(** ** Lists of specifiers

    Stable sorting by version, splitting at commas, and the span of the error. *)

Local Open Scope uv_scope.

(** ** Sorting *)

Definition le_version (s t : VersionSpecifier) : Prop :=
  cmp_leb (spec_version s) (spec_version t) = true.

Definition spec_versions_wf (l : list VersionSpecifier) : Prop :=
  Forall (fun s => version_wf (spec_version s)) l.

Lemma le_version_total s t :
  version_wf (spec_version s) -> version_wf (spec_version t) ->
  cmp_leb (spec_version s) (spec_version t) = false -> le_version t s.
Proof.
  intros Hs Ht. unfold le_version, cmp_leb. rewrite !cmp_value, (cmp_opp (value (spec_version s))) by done.
  by destruct (cmp (value (spec_version s)) (value (spec_version t))).
Qed.

Lemma le_version_trans s t u :
  version_wf (spec_version s) -> version_wf (spec_version t) -> version_wf (spec_version u) ->
  le_version s t -> le_version t u -> le_version s u.
Proof.
  intros Hs Ht Hu. unfold le_version, cmp_leb. rewrite !cmp_value by done.
  pose proof (cmp_le_trans (value (spec_version s)) (value (spec_version t)) (value (spec_version u))) as H.
  destruct (cmp (value (spec_version s)) _), (cmp (value (spec_version t)) _), (cmp (value (spec_version s)) _); naive_solver.
Qed.

Lemma insert_perm s l : insert_by_version s l ≡ₚ s :: l.
Proof.
  induction l as [|t l IH]; [done|]. cbn. case_match; [done|]. rewrite IH. apply Permutation_swap.
Qed.

Lemma sort_perm l : sort_by_version l ≡ₚ l.
Proof. induction l as [|s l IH]; [done|]. cbn. by rewrite insert_perm, IH. Qed.

Lemma insert_sorted s l :
  version_wf (spec_version s) -> spec_versions_wf l -> StronglySorted le_version l ->
  StronglySorted le_version (insert_by_version s l).
Proof.
  intros Hs Hl Hsort. induction Hsort as [|t l Hsort IH Hall]; [by repeat constructor|].
  inversion Hl as [|? ? Ht Hl']; subst. cbn.
  destruct (cmp_leb (spec_version s) (spec_version t)) eqn:E.
  - constructor; [by constructor|]. constructor; [done|].
    rewrite Forall_forall in *. intros u Hu. eapply (le_version_trans s t u); auto.
  - constructor; [by apply IH|]. rewrite insert_perm. constructor; [by apply le_version_total|done].
Qed.

Lemma sort_sorted l : spec_versions_wf l -> StronglySorted le_version (sort_by_version l).
Proof.
  induction 1 as [|s l Hs Hl IH]; [constructor|]. cbn. apply insert_sorted; [done| |done].
  unfold spec_versions_wf. by rewrite sort_perm.
Qed.

(** Stability: a sorted list is left as it is. *)
Lemma sort_id l : StronglySorted le_version l -> sort_by_version l = l.
Proof.
  induction 1 as [|s l Hsort IH Hall]; [done|]. cbn. rewrite IH.
  destruct l as [|t l]; [done|]. inversion Hall as [|? ? Hle]; subst. cbn. by rewrite Hle.
Qed.

(** Matching does not depend on the order of the specifiers. *)
Lemma try_forallb_total {A} (f : A -> option bool) l :
  Forall (fun x => is_Some (f x)) l ->
  try_forallb f l = Some (forallb (fun x => bool_decide (f x = Some true)) l).
Proof.
  induction 1 as [|x l [b E] _ IH]; [done|]. cbn. rewrite E.
  destruct b; [by rewrite IH|done].
Qed.

Lemma forallb_perm {A} (p : A -> bool) l k : l ≡ₚ k -> forallb p l = forallb p k.
Proof.
  induction 1; cbn; try congruence.
  by rewrite !andb_assoc, (andb_comm (p y)).
Qed.

Lemma specs_contains_perm l k v :
  Forall (fun s => spec_ok s = true) l -> l ≡ₚ k -> specs_contains l v = specs_contains k v.
Proof.
  intros Hl Hp. unfold specs_contains.
  assert (Forall (fun s => is_Some (contains s v)) l) as H1.
  { eapply Forall_impl; [done|]. intros s. apply contains_total. }
  rewrite !try_forallb_total; [by rewrite (forallb_perm _ l k Hp)|by rewrite <- Hp|done].
Qed.

(** ** Splitting *)

Definition no_comma (t : text) : Prop := Forall (fun c => c <> 44) t.

Lemma split_piece t rest :
  no_comma t -> split_commas (t ++ 44 :: rest) = t :: split_commas rest.
Proof.
  induction 1 as [|c t Hc _ IH]; [done|]. cbn [app split_commas].
  rewrite (proj2 (N.eqb_neq c 44) Hc), IH. done.
Qed.

Lemma split_single t : no_comma t -> split_commas t = [t].
Proof.
  induction 1 as [|c t Hc _ IH]; [done|]. cbn [split_commas].
  by rewrite (proj2 (N.eqb_neq c 44) Hc), IH.
Qed.

(** A list joined with a comma and white space splits into its members. *)
Lemma split_join ws x l :
  no_comma x -> Forall no_comma l -> no_comma ws ->
  split_commas (join (44 :: ws) (x :: l)) = x :: map (fun y => ws ++ y) l.
Proof.
  intros Hx Hl Hws.
  assert (forall z, no_comma z -> split_commas (z ++ match l with [] => [] | _ => 44 :: ws ++ join (44 :: ws) l end)
    = z :: map (fun y => ws ++ y) l) as Hgen.
  { induction Hl as [|y l Hy Hl IH]; intros z Hz.
    - rewrite app_nil_r. by apply split_single.
    - rewrite split_piece by done. f_equal.
      destruct l as [|y' l]; cbn [join map].
      + apply split_single. by apply Forall_app.
      + rewrite app_assoc. apply (IH (ws ++ y)). by apply Forall_app. }
  destruct l as [|y l]; [by apply split_single|]. apply (Hgen x Hx).
Qed.

Lemma version_char_no_comma t : forallb version_char t = true -> no_comma t.
Proof.
  induction t as [|c t IH]; [constructor|]. cbn [forallb]. intros [Hc Ht]%andb_true_iff.
  constructor; [by apply version_char_spec|by apply IH].
Qed.

Lemma spec_show_no_comma s : spec_parsed s -> no_comma (spec_show s).
Proof.
  intros Hs. rewrite spec_show_split. apply Forall_app. split.
  - by destruct (operator s); repeat constructor.
  - by apply version_char_no_comma, show_pattern_chars.
Qed.

Section parsing.
Context {S : Type} `{ScannerLaws S}.

Lemma parse_pieces_ok spec start pieces l :
  length pieces = length l ->
  (forall i t s, pieces !! i = Some t -> l !! i = Some s -> spec_from_str t = Ok s) ->
  parse_pieces spec start pieces = Ok l.
Proof using.
  revert start l. induction pieces as [|t pieces IH]; intros start [|s l]; try done.
  intros [= Hl] Hp. cbn [parse_pieces]. rewrite (Hp 0%nat t s) by done. rewrite (IH _ l); [done..|].
  intros i. apply (Hp (Datatypes.S i)).
Qed.

(** Joining with a comma and white space, then parsing, gives the sorted list back. *)
Lemma specs_round_trip ws l :
  forallb is_whitespace ws = true -> no_comma ws ->
  Forall spec_parsed l -> StronglySorted le_version l ->
  specs_from_str (join (44 :: ws) (map spec_show l)) = Ok l.
Proof using All.
  intros Hws Hnc Hl Hs. unfold specs_from_str, parse_version_specifiers.
  destruct l as [|s l]; [done|].
  assert (Forall no_comma (map spec_show (s :: l))) as Hcomma.
  { apply Forall_map. eapply Forall_impl; [done|]. apply spec_show_no_comma. }
  assert (exists c t, join (44 :: ws) (map spec_show (s :: l)) = c :: t) as (c&t&Ej).
  { inversion Hl as [|? ? Hsp]; subst. destruct (show_pattern_chars s Hsp) as (_&d&u&Eu&_).
    pose proof (spec_show_split s) as Es. rewrite Eu in Es.
    destruct (Operator_as_str (operator s)); destruct l; cbn [map join]; rewrite Es; cbn; eauto. }
  rewrite Ej, <- Ej. cbn [map] in *. inversion Hcomma; subst.
  rewrite split_join by done.
  rewrite (parse_pieces_ok _ _ _ (s :: l)); [cbn [rmap]; f_equal; by apply sort_id|cbn; by rewrite !length_map|].
  intros [|i] u x Hu Hx.
  - cbn in Hu, Hx. simplify_eq. inversion Hl; subst. by apply (spec_from_str_show []).
  - change (map (fun y => ws ++ y) (map spec_show l) !! i = Some u) in Hu. change (l !! i = Some x) in Hx.
    rewrite !list_lookup_fmap, Hx in Hu. cbn in Hu. simplify_eq.
    apply spec_from_str_show; [done|]. inversion Hl; subst. by eapply Forall_lookup_1.
Qed.

(** The specifiers of a parsed list. *)
Lemma parse_pieces_inv spec start pieces :
  yields (parse_pieces spec start pieces) (Forall spec_parsed).
Proof using.
  revert start. induction pieces as [|t pieces IH]; intros start; [constructor|]. cbn [parse_pieces].
  pose proof (spec_from_str_inv t) as Ht. destruct (spec_from_str t) as [s|[]]; [|done..].
  specialize (IH (start + length (utf8 t) + length (bs ","))%nat).
  destruct (parse_pieces _ _ pieces) as [l|[]]; [|done..]. cbn in *. by constructor.
Qed.

Lemma specs_from_str_inv t :
  yields (specs_from_str t) (fun l => Forall spec_parsed l /\ StronglySorted le_version l).
Proof using.
  unfold specs_from_str, parse_version_specifiers.
  assert (forall l, Forall spec_parsed l ->
    Forall spec_parsed (from_unsorted l) /\ StronglySorted le_version (from_unsorted l)) as Hl.
  { intros l Hl. unfold from_unsorted. split; [by rewrite sort_perm|]. apply sort_sorted.
    eapply Forall_impl; [done|]. by intros s ((_&?)&_). }
  destruct t as [|c t]; [by apply Hl|].
  pose proof (parse_pieces_inv (c :: t) 0 (split_commas (c :: t))) as H1.
  destruct (parse_pieces _ 0 _) as [l|[]]; cbn in *; [by apply Hl|done..].
Qed.

(** ** The span of an error *)

(** Where the pieces lie in the line. *)
Fixpoint joined (pieces : list text) : bytes :=
  match pieces with
  | [] => []
  | [t] => utf8 t
  | t :: rest => utf8 t ++ bs "," ++ joined rest
  end.

Lemma utf8_app a b : utf8 (a ++ b) = utf8 a ++ utf8 b.
Proof using. unfold utf8. by rewrite map_app, concat_app. Qed.

Lemma joined_split t : joined (split_commas t) = utf8 t.
Proof using.
  induction t as [|c t IH]; [done|]. cbn [split_commas].
  destruct (N.eqb_spec c 44) as [->|Hc].
  - change (utf8 (44 :: t)) with (bs "," ++ utf8 t). rewrite <- IH.
    destruct (split_commas t) eqn:E; [|done]. destruct t as [|? t]; [done|]. cbn in E. by repeat case_match.
  - change (utf8 (c :: t)) with (utf8_char c ++ utf8 t). rewrite <- IH.
    destruct (split_commas t) as [|x l] eqn:E; [destruct t; cbn in E; by repeat case_match|].
    destruct l as [|y l]; cbn [joined]; change (utf8 (c :: x)) with (utf8_char c ++ utf8 x);
      by rewrite <- ?app_assoc.
Qed.

Lemma parse_pieces_span spec (pre_ : bytes) pieces e :
  pieces <> [] -> parse_pieces spec (length pre_) pieces = Err (Error e) ->
  exists t, spec_from_str t = Err (Error (err e)) /\ line e = spec /\
    (start e <= end_ e <= length (pre_ ++ joined pieces))%nat /\
    take (end_ e - start e) (drop (start e) (pre_ ++ joined pieces)) = utf8 t.
Proof using.
  intros Hne Hp. revert pre_ Hp Hne. induction pieces as [|t pieces IH]; intros pre_ Hp Hne; [done|].
  cbn [parse_pieces] in Hp. destruct (spec_from_str t) as [s|[e'|]] eqn:Et; [| |done].
  - destruct pieces as [|t' pieces]; [done|].
    change (joined (t :: t' :: pieces)) with (utf8 t ++ bs "," ++ joined (t' :: pieces)).
    specialize (IH (pre_ ++ utf8 t ++ bs ",")).
    replace (pre_ ++ utf8 t ++ bs "," ++ joined (t' :: pieces))
      with ((pre_ ++ utf8 t ++ bs ",") ++ joined (t' :: pieces)) by by rewrite <- !app_assoc.
    apply IH; [|done]. rewrite !length_app, Nat.add_assoc.
    destruct (parse_pieces spec (length pre_ + length (utf8 t) + length (bs ",")) (t' :: pieces));
      [done|]. cbn in Hp. congruence.
  - injection Hp as <-. exists t. cbn [err line start end_]. split_and!; [done|done|lia| |].
    + rewrite length_app. destruct pieces; cbn [joined]; rewrite ?length_app; lia.
    + replace (length pre_ + length (utf8 t) - length pre_)%nat with (length (utf8 t)) by lia.
      rewrite drop_app_length. destruct pieces; cbn [joined];
        [by rewrite firstn_all|apply take_app_length].
Qed.
End parsing.
