(* ===== verification/RangesFacts.v ===== *)
(** * From specifiers to ranges: one lemma per operator *)

From stdpp Require Import base numbers list strings.
From S2P Require Import Prelude VersionTypes VersionSmall Version VersionFacts VersionParser VersionOps Specifier SpecifierFacts Ranges.

(** ** Comparison operators on abstract values *)

Section operators.
Context (v w : Version) (Hv : version_wf v) (Hw : version_wf w).

Lemma eqb_value : cmp_eqb v w = eqb_cmp (cmp (value v) (value w)).
Proof using All. unfold cmp_eqb. by rewrite cmp_value. Qed.
Lemma ltb_value : cmp_ltb v w = ltb_cmp (cmp (value v) (value w)).
Proof using All. unfold cmp_ltb. by rewrite cmp_value. Qed.
Lemma leb_value : cmp_leb v w = leb_cmp (cmp (value v) (value w)).
Proof using All. unfold cmp_leb. by rewrite cmp_value. Qed.
Lemma gtb_value : cmp_gtb v w = gtb_cmp (cmp (value v) (value w)).
Proof using All. unfold cmp_gtb. by rewrite cmp_value. Qed.
Lemma geb_value : cmp_geb v w = geb_cmp (cmp (value v) (value w)).
Proof using All. unfold cmp_geb. by rewrite cmp_value. Qed.
End operators.

(** ** The candidates: versions without internal markers *)

Definition plain (v : Version) : Prop :=
  version_wf v /\ min v = None /\ max v = None /\ local v <> LocalMax /\ default 0 (post v) < u64_MAX.

(** Comparing with a version that has no local segment. *)
Lemma cmp_no_local f g :
  f_local g = LocalVersion_empty ->
  cmp f g = then_with (cmp (drop_local f) g) (cmp (f_local f) LocalVersion_empty).
Proof.
  intros E. rewrite (cmp_local f g), E. f_equal. f_equal. unfold drop_local.
  rewrite <- E. apply set_local_same.
Qed.

Lemma local_not_below l : cmp l LocalVersion_empty <> Lt.
Proof. by destruct l as [[]|]. Qed.

Lemma ge_no_local f g :
  f_local g = LocalVersion_empty -> geb_cmp (cmp f g) = geb_cmp (cmp (drop_local f) g).
Proof.
  intros E. rewrite cmp_no_local by done. pose proof (local_not_below (f_local f)).
  destruct (cmp (drop_local f) g); cbn; try done. by destruct (cmp (f_local f) _).
Qed.

Lemma lt_no_local f g :
  f_local g = LocalVersion_empty -> ltb_cmp (cmp f g) = ltb_cmp (cmp (drop_local f) g).
Proof.
  intros E. rewrite cmp_no_local by done. pose proof (local_not_below (f_local f)).
  destruct (cmp (drop_local f) g); cbn; try done. by destruct (cmp (f_local f) _).
Qed.

(** Comparing with the greatest local segment. *)
Lemma le_max_local f g :
  f_local g = LocalVersion_empty ->
  leb_cmp (cmp f (set_f_local LocalMax g)) = leb_cmp (cmp (drop_local f) g).
Proof.
  intros E. rewrite cmp_local. cbn [f_local set_f_local].
  change (drop_local (set_f_local LocalMax g)) with (drop_local g).
  assert (drop_local g = g) as -> by (unfold drop_local; rewrite <- E; apply set_local_same).
  pose proof (LocalVersion_max_greatest (f_local f)).
  destruct (cmp (drop_local f) g); cbn; try done. by destruct (cmp (f_local f) LocalMax).
Qed.

Lemma lt_max_local f g :
  f_local g = LocalVersion_empty -> f_local f <> LocalMax ->
  ltb_cmp (cmp f (set_f_local LocalMax g)) = leb_cmp (cmp (drop_local f) g).
Proof.
  intros E Hl. rewrite cmp_local. cbn [f_local set_f_local].
  change (drop_local (set_f_local LocalMax g)) with (drop_local g).
  assert (drop_local g = g) as -> by (unfold drop_local; rewrite <- E; apply set_local_same).
  destruct (cmp (drop_local f) g); cbn; try done. by destruct (f_local f).
Qed.

(** ** Which specifiers convert exactly *)

(** The version of the specifier has no internal marker. *)
Definition unmarked (v : Version) : Prop :=
  version_wf v /\ min v = None /\ max v = None /\ local v <> LocalMax.

Section conversion.
Context {R : Type} `{RangesLaws R}.
Context (this v : Version) (Hthis : unmarked this) (Hv : plain v).

Lemma no_local_incompatible op :
  spec_ok (mkSpec op this) = true -> is_local_compatible op = false ->
  LocalVersion_is_empty (local this) = true /\ f_local (value this) = LocalVersion_empty.
Proof using.
  unfold spec_ok. cbn. intros Hok Hc. rewrite Hc, orb_false_r in Hok.
  apply andb_true_iff in Hok as [Hok _]. unfold is_local in Hok. rewrite negb_involutive in Hok.
  split; [done|]. rewrite <- value_local. by apply LocalVersion_is_empty_spec.
Qed.

Lemma convert_equal :
  exists r : R, equal_range this = Some r /\ Some (ranges_contains r v) = contains (mkSpec Equal this) v.
Proof using All.
  destruct Hthis as (Hw&_&_&Hl), Hv as (Hwv&_&_&Hlv&_). unfold equal_range.
  rewrite contains_eq by done. unfold seen. rewrite (value_local v) in Hlv.
  destruct (local this) as [[|x l]|] eqn:El; [| |done].
  - eexists. split; [done|]. rewrite contains_between, geb_value, ltb_value by auto using with_local_wf.
    rewrite value_local in El. rewrite with_local_value by done.
    rewrite ge_no_local, lt_max_local by done. cbn [LocalVersion_is_empty].
    by destruct (cmp (drop_local (value v)) (value this)).
  - eexists. split; [done|]. by rewrite contains_singleton, eqb_value.
Qed.

Lemma convert_not_equal :
  exists r : R, range_from_specifier (mkSpec NotEqual this) = Some r /\
    Some (ranges_contains r v) = contains (mkSpec NotEqual this) v.
Proof using All.
  destruct convert_equal as (r&E&Hr). unfold range_from_specifier.
  cbn [operator spec_version]. rewrite E. cbn [mbind option_bind].
  eexists. split; [done|]. rewrite contains_complement.
  destruct Hthis as (Hw&_), Hv as (Hwv&_). rewrite contains_ne by done. rewrite contains_eq in Hr by done.
  injection Hr as <-. done.
Qed.

Lemma convert_ge :
  spec_ok (mkSpec GreaterThanEqual this) = true ->
  Some (ranges_contains (ranges_higher_than this : R) v) = contains (mkSpec GreaterThanEqual this) v.
Proof using All.
  intros Hok. destruct (no_local_incompatible _ Hok eq_refl) as [E1 E2].
  destruct Hthis as (Hw&_), Hv as (Hwv&_).
  rewrite contains_ge, contains_higher_than, geb_value by done. unfold seen. rewrite E1.
  by rewrite ge_no_local.
Qed.

Lemma convert_le :
  spec_ok (mkSpec LessThanEqual this) = true ->
  Some (ranges_contains (ranges_lower_than (with_local this LocalMax) : R) v)
  = contains (mkSpec LessThanEqual this) v.
Proof using All.
  intros Hok. destruct (no_local_incompatible _ Hok eq_refl) as [E1 E2].
  destruct Hthis as (Hw&_), Hv as (Hwv&_).
  rewrite contains_le, contains_lower_than, leb_value, with_local_value by auto using with_local_wf.
  unfold seen. rewrite E1. by rewrite le_max_local.
Qed.

(** A final release: nothing but epoch and release. *)
Lemma bare_of :
  LocalVersion_is_empty (local this) = true -> pre this = None -> post this = None -> dev this = None ->
  value this = bare (epoch this) (release this).
Proof using Hthis.
  destruct Hthis as (_&Hmin&Hmax&_). intros Hl%LocalVersion_is_empty_spec Hp Hq Hd.
  autorewrite with value in *.
  destruct (value this). cbn in *. by subst.
Qed.
End conversion.

(** ** Bounds that use the internal markers and dev releases *)

(** The suffix of [V.min0] is below every other. *)
Lemma min0_least f e r :
  f_min f = None -> cmp (full_tuple f) (full_tuple (set_f_min (Some 0) (bare e r))) = Gt.
Proof.
  intros Hm. unfold full_tuple, sortable_tuple. cbn. rewrite Hm.
  by destruct (f_max f), (f_pre f) as [[[] p]|], (f_post f), (f_dev f).
Qed.

Lemma lt_min0 f e r :
  f_min f = None -> cmp f (set_f_min (Some 0) (bare e r)) = Lt <-> head_cmp f (bare e r) = Lt.
Proof.
  intros Hm. rewrite cmp_head, (min0_least f e r Hm).
  change (head_cmp f (set_f_min (Some 0) (bare e r))) with (head_cmp f (bare e r)).
  by destruct (head_cmp f (bare e r)).
Qed.

(** The suffix of [V.max0] is above every other. *)
Lemma max0_greatest f e r :
  f_min f = None -> f_max f = None -> default 0 (f_post f) < u64_MAX ->
  cmp (full_tuple f) (full_tuple (set_f_max (Some 0) (bare e r))) = Lt.
Proof.
  intros Hm Hx Hp. apply N.compare_lt_iff in Hp. unfold full_tuple, sortable_tuple. cbn -[u64_MAX].
  rewrite Hm, Hx.
  destruct (f_pre f) as [[[] p]|], (f_post f) as [n|], (f_dev f); cbn -[cmp u64_MAX];
    apply tuple_lt; cbn -[u64_MAX]; try done; exact Hp.
Qed.

Lemma gt_max0 f e r :
  f_min f = None -> f_max f = None -> default 0 (f_post f) < u64_MAX ->
  cmp f (set_f_max (Some 0) (bare e r)) = Gt <-> head_cmp f (bare e r) = Gt.
Proof.
  intros Hm Hx Hp. rewrite cmp_head, (max0_greatest f e r Hm Hx Hp).
  change (head_cmp f (set_f_max (Some 0) (bare e r))) with (head_cmp f (bare e r)).
  by destruct (head_cmp f (bare e r)).
Qed.

(** Nothing but post-releases and local versions sorts above the bare release. *)
Lemma bare_greatest f e r :
  f_min f = None -> f_max f = None -> f_post f = None -> f_local f = LocalVersion_empty ->
  cmp (full_tuple f) (full_tuple (bare e r)) <> Gt.
Proof.
  intros Hm Hx Hp Hl. unfold full_tuple, sortable_tuple. cbn. rewrite Hm, Hx, Hp, Hl.
  by destruct (f_pre f) as [[[] p]|], (f_dev f).
Qed.

Lemma ltb_iff c d : (c = Lt <-> d = Lt) -> ltb_cmp c = ltb_cmp d.
Proof. destruct c, d; cbn; intros [H1 H2]; try done; (discriminate (H1 eq_refl) || discriminate (H2 eq_refl)). Qed.

Lemma gtb_iff c d : (c = Gt <-> d = Gt) -> gtb_cmp c = gtb_cmp d.
Proof. destruct c, d; cbn; intros [H1 H2]; try done; (discriminate (H1 eq_refl) || discriminate (H2 eq_refl)). Qed.

Lemma gt_bare_contains this v :
  unmarked this -> plain v -> value this = bare (epoch this) (release this) ->
  contains (mkSpec GreaterThan this) v
  = Some (gtb_cmp (head_cmp (value v) (bare (epoch this) (release this)))).
Proof.
  intros (Hw&_) (Hwv&Hm&Hx&_) Eb.
  assert (LocalVersion_is_empty (local this) = true /\ post this = None) as [Hl Hpo].
  { rewrite value_local, value_post, Eb. done. }
  rewrite contains_gt; [|done|done|]. 2: { unfold spec_ok, is_local. cbn. by rewrite Hl. }
  f_equal. unfold is_post. rewrite Hpo. cbn [negb]. rewrite andb_true_r.
  assert (cmp (seen this v) (value this)
          = match head_cmp (value v) (bare (epoch this) (release this)) with
            | Lt => Lt | Gt => Gt
            | Eq => cmp (full_tuple (seen this v)) (full_tuple (bare (epoch this) (release this))) end) as E.
  { rewrite cmp_head, seen_head, Eb. by destruct (head_cmp (value v) _). }
  rewrite E. destruct (head_cmp (value v) _) eqn:Eh; cbn [gtb_cmp andb]; [|done|].
  - apply andb_negb_implies. intros Hgt.
    unfold head_cmp in Eh. apply then_with_eq in Eh as [E1 E2]. apply N_cmp_eq in E1. cbn in E1, E2.
    rewrite (value_epoch v), E1, N.eqb_refl, (value_release v), compare_release_opp, E2. cbn.
    destruct (post v) as [n|] eqn:Ep; [done|]. exfalso.
    rewrite value_post in Ep. rewrite value_min in Hm. rewrite value_max in Hx.
    pose proof (bare_greatest (seen this v) (epoch this) (release this)) as Hg.
    unfold seen in *. rewrite Hl in *. specialize (Hg Hm Hx Ep eq_refl).
    by destruct (cmp _ (full_tuple (bare (epoch this) (release this)))).
  - apply negb_true_iff. unfold head_cmp in Eh. cbn in Eh. rewrite (value_epoch v), (value_release v).
    destruct (N.eqb_spec (epoch this) (f_epoch (value v))) as [Ee|]; [|done]. cbn.
    rewrite <- Ee, cmp_refl in Eh. cbn in Eh. by rewrite compare_release_opp, Eh.
Qed.

(** ** The release one up *)

Lemma increment_last_app P n :
  n < u64_MAX -> increment_last (P ++ [n]) = Some (P ++ [n + 1]).
Proof.
  intros Hn. induction P as [|x P IH]; cbn [app increment_last]; [by rewrite u64_add_1|].
  destruct (P ++ [n]) eqn:E; [by destruct P|]. by rewrite IH.
Qed.

Lemma increment_second_last_app P n t :
  n < u64_MAX -> increment_second_last (P ++ [n; t]) = Some (P ++ [n + 1]).
Proof.
  intros Hn. induction P as [|x P IH]; cbn [app increment_second_last]; [by rewrite u64_add_1|].
  destruct (P ++ [n; t]) as [|y [|z l]] eqn:E;
    [by destruct P|destruct P as [|? [|]]; discriminate E|]. by rewrite IH.
Qed.

(** Releases with at least one or two segments. *)
Lemma last_split (l : list N) : l <> [] -> exists P n, l = P ++ [n].
Proof. intros H. destruct (exists_last H) as (P&n&->). eauto. Qed.

Lemma last_two_split (l : list N) : (2 <= length l)%nat -> exists P n t, l = P ++ [n; t].
Proof.
  intros H. destruct (last_split l) as (Q&t&->); [intros ->; cbn in H; lia|].
  rewrite length_app in H. cbn in H.
  destruct (last_split Q) as (P&n&->); [destruct Q; cbn in H; [lia|done]|].
  exists P, n, t. by rewrite <- app_assoc.
Qed.

Section conversion_releases.
Context {R : Type} `{RangesLaws R}.
Context (this v : Version) (Hthis : unmarked this) (Hv : plain v).

Lemma convert_lt :
  spec_ok (mkSpec LessThan this) = true -> post this = None \/ any_prerelease this = true ->
  exists r : R, range_from_specifier (mkSpec LessThan this) = Some r /\
    Some (ranges_contains r v) = contains (mkSpec LessThan this) v.
Proof using All.
  intros Hok Hpost. destruct (no_local_incompatible this _ Hok eq_refl) as [E1 E2].
  pose proof Hthis as (Hw&_). pose proof Hv as (Hwv&Hm&_). unfold range_from_specifier. cbn [operator spec_version].
  destruct (any_prerelease this) eqn:Ea; (eexists; split; [done|]).
  - rewrite contains_lt, Ea, contains_strictly_lower_than, ltb_value by done. cbn [negb].
    rewrite andb_false_r. cbn [andb negb]. rewrite andb_true_r. unfold seen. rewrite E1.
    by rewrite lt_no_local.
  - destruct Hpost as [Hpost|]; [|done].
    assert (pre this = None /\ dev this = None) as [Hp Hd].
    { unfold any_prerelease, is_pre, is_dev in Ea. by destruct (pre this), (dev this). }
    pose proof (bare_of this Hthis E1 Hp Hpost Hd) as Eb.
    rewrite (contains_lt_bare this v _ _ Hw Hwv Eb Hm).
    rewrite contains_strictly_lower_than, ltb_value, with_min_value, Eb by auto using with_min_wf.
    f_equal. apply ltb_iff, lt_min0. by rewrite <- value_min.
Qed.

Lemma convert_gt :
  spec_ok (mkSpec GreaterThan this) = true ->
  pre this = None -> post this = None -> dev this = None ->
  exists r : R, range_from_specifier (mkSpec GreaterThan this) = Some r /\
    Some (ranges_contains r v) = contains (mkSpec GreaterThan this) v.
Proof using All.
  intros Hok Hp Hq Hd. destruct (no_local_incompatible this _ Hok eq_refl) as [E1 E2].
  pose proof Hthis as (Hw&_). pose proof Hv as (Hwv&Hm&Hx&_&Hpo). unfold range_from_specifier.
  cbn [operator spec_version]. rewrite Hd, Hq. eexists. split; [done|].
  pose proof (bare_of this Hthis E1 Hp Hq Hd) as Eb.
  rewrite gt_bare_contains by done.
  rewrite contains_strictly_higher_than, gtb_value, with_max_value, Eb by auto using with_max_wf.
  f_equal. apply gtb_iff. rewrite value_min in Hm. rewrite value_max in Hx. rewrite value_post in Hpo.
  by apply gt_max0.
Qed.

(** The upper bound [e!P.(n+1).dev0]. *)
Lemma upper_dev0 e P n :
  exists u, new (P ++ [n]) = Some u /\
    let w := with_dev (with_epoch u e) (Some 0) in version_wf w /\ value w = dev0 (bare e (P ++ [n])).
Proof using.
  destruct (new_spec (P ++ [n])) as (u&E&Hu&Ev); [by destruct P|]. exists u. split; [done|]. cbn zeta.
  assert (version_wf (with_epoch u e)) as He by by apply with_epoch_wf.
  split; [by apply with_dev_wf|]. rewrite with_dev_value, with_epoch_value, Ev by done. done.
Qed.

Lemma convert_tilde :
  spec_ok (mkSpec TildeEqual this) = true ->
  (forall P n t, release this = P ++ [n; t] -> n < u64_MAX) ->
  exists r : R, range_from_specifier (mkSpec TildeEqual this) = Some r /\
    Some (ranges_contains r v) = contains (mkSpec TildeEqual this) v.
Proof using All.
  intros Hok Hmax. destruct (no_local_incompatible this _ Hok eq_refl) as [E1 E2].
  pose proof Hthis as (Hw&_). pose proof Hv as (Hwv&Hm&_).
  assert (2 <= length (release this))%nat as Hlen.
  { unfold spec_ok in Hok. apply andb_true_iff in Hok as [_ Hok]. by apply Nat.leb_le. }
  destruct (last_two_split _ Hlen) as (P&n&t&Er). pose proof (Hmax P n t Er) as Hn.
  unfold range_from_specifier. cbn [operator spec_version].
  rewrite Er, increment_second_last_app by done. cbn [mbind option_bind].
  destruct (upper_dev0 (epoch this) P (n + 1)) as (u&->&Hu&Eu). cbn [mbind option_bind].
  eexists. split; [done|]. rewrite contains_from_range_bounds, geb_value, ltb_value, Eu by done.
  rewrite ge_no_local by done. rewrite (ltb_iff _ _ (lt_dev0 _ _ _ (eq_trans (eq_sym (value_min v)) Hm))).
  rewrite contains_tilde by done. f_equal.
  assert (seen this v = drop_local (value v)) as Es by (unfold seen; by rewrite E1).
  assert (removelast (release this) = P ++ [n]) as ->.
  { rewrite Er. change (P ++ [n; t]) with (P ++ [n] ++ [t]). rewrite app_assoc. apply removelast_last. }
  pose proof (tilde_interval this v P n [t] Er) as Hint. rewrite <- Es in *.
  apply eq_true_iff_eq. rewrite (andb_true_iff _ (ltb_cmp _)), (andb_true_iff _ (_ && _)).
  destruct (cmp (seen this v) (value this)) eqn:Ec; cbn [geb_cmp]; [|naive_solver|];
    rewrite Hint by done; destruct (head_cmp (value v) _); naive_solver.
Qed.

(** A star specifier as the parser builds it: epoch and release only. *)
Lemma convert_star P n :
  value this = bare (epoch this) (P ++ [n]) -> n < u64_MAX ->
  (length (release this) <= length (release v))%nat ->
  exists r : R, star_range this = Some r /\
    Some (ranges_contains r v) = contains (mkSpec EqualStar this) v.
Proof using All.
  intros Eb Hn Hlen. pose proof Hthis as (Hw&_). pose proof Hv as (Hwv&Hm&_). unfold star_range, star_high.
  assert (version_wf (with_dev this (Some 0))) as Hlw by by apply with_dev_wf.
  assert (value (with_dev this (Some 0)) = dev0 (bare (epoch this) (P ++ [n]))) as El
    by by rewrite with_dev_value, Eb.
  assert (release this = P ++ [n]) as Er by by rewrite value_release, Eb.
  rewrite (value_post (with_dev _ _)), (value_pre (with_dev _ _)), (value_release (with_dev _ _)), El.
  cbn [f_post f_pre f_release dev0 set_f_dev bare set_f_epoch release_value].
  rewrite increment_last_app by done. cbn [mbind option_bind].
  destruct (with_release_spec _ (P ++ [n + 1]) Hlw) as (h&->&Hh&Eh); [by destruct P|].
  cbn [mbind option_bind]. eexists. split; [done|].
  rewrite contains_from_range_bounds, geb_value, ltb_value, Eh, El by done.
  change (set_f_release (P ++ [n + 1]) (dev0 (bare (epoch this) (P ++ [n]))))
    with (dev0 (bare (epoch this) (P ++ [n + 1]))).
  rewrite value_min in Hm. rewrite (ltb_iff _ _ (lt_dev0 _ (epoch this) (P ++ [n + 1]) Hm)).
  rewrite contains_star, Er by done. f_equal.
  rewrite Er, length_app, Nat.add_comm in Hlen. cbn in Hlen.
  pose proof (star_interval (epoch this) P n v Hlen) as Hint.
  assert (geb_cmp (cmp (value v) (dev0 (bare (epoch this) (P ++ [n])))) = true <->
          head_cmp (bare (epoch this) (P ++ [n])) (value v) <> Gt) as Hge.
  { pose proof (lt_dev0 (value v) (epoch this) (P ++ [n]) Hm) as Hl. rewrite (head_cmp_opp (value v)).
    destruct (cmp (value v) (dev0 _)), (head_cmp (value v) (bare (epoch this) (P ++ [n]))); naive_solver. }
  apply eq_true_iff_eq. rewrite Hint, <- Hge, andb_true_iff.
  destruct (head_cmp (value v) (bare (epoch this) (P ++ [n + 1]))); naive_solver.
Qed.
End conversion_releases.

(** ** Release-only ranges and the bounds of [requires-python] *)

(** ** Release-only versions *)

(** [v] is the version with release [r] and nothing else. *)
Definition release_is (v : Version) (r : list N) : Prop :=
  version_wf v /\ r <> [] /\ value v = bare 0 r.

Lemma bare_cmp e r e' r' :
  cmp (bare e r) (bare e' r') = head_cmp (bare e r) (bare e' r').
Proof. rewrite cmp_head. change (full_tuple (bare e r)) with (full_tuple (bare e' r')). rewrite cmp_refl. by destruct (head_cmp _ _). Qed.

Lemma release_cmp v w r s :
  release_is v r -> release_is w s -> cmp v w = compare_release r s.
Proof.
  intros (Hv&_&Ev) (Hw&_&Ew). rewrite cmp_value, Ev, Ew, bare_cmp by done. done.
Qed.

Lemma release_is_release v r : release_is v r -> release v = r /\ epoch v = 0.
Proof. intros (_&_&E). rewrite value_release, value_epoch, E. done. Qed.

Lemma release_is_unmarked v r : release_is v r -> unmarked v.
Proof. intros (Hv&_&E). unfold unmarked. autorewrite with value. by rewrite E. Qed.

Lemma release_is_plain v r : release_is v r -> plain v.
Proof.
  intros (Hv&_&E). unfold plain. autorewrite with value. rewrite E. cbn.
  split_and!; try done.
Qed.

Lemma new_release r : r <> [] -> exists v, new r = Some v /\ release_is v r.
Proof. intros Hr. destruct (new_spec r Hr) as (v&E&Hw&Ev). exists v. by split_and!. Qed.

Lemma release_is_seen this v r : release_is v r -> seen this v = value v.
Proof. intros (_&_&E). unfold seen. rewrite E. by case_match. Qed.

(** Matching of release-only versions is the comparison of releases. *)
Section release_matching.
Context (this v : Version) (r s : list N) (Hthis : release_is this r) (Hv : release_is v s).

Lemma contains_release op :
  contains (mkSpec op this) v =
  match op with
  | Equal => Some (eqb_cmp (compare_release s r))
  | NotEqual => Some (negb (eqb_cmp (compare_release s r)))
  | LessThan => Some (ltb_cmp (compare_release s r))
  | LessThanEqual => Some (leb_cmp (compare_release s r))
  | GreaterThan => Some (gtb_cmp (compare_release s r))
  | GreaterThanEqual => Some (geb_cmp (compare_release s r))
  | EqualStar => Some (zip_all_eq r s)
  | NotEqualStar => Some (negb (zip_all_eq r s))
  | TildeEqual =>
      if Nat.leb 2 (length r) then Some (geb_cmp (compare_release s r) && zip_all_eq (removelast r) s)
      else None
  | ExactEqual => Some (bool_decide (show this = show v))
  end.
Proof using All.
  pose proof (release_cmp v this s r Hv Hthis) as Hcmp.
  pose proof Hthis as (Hw&_&Et). pose proof Hv as (Hwv&_&Ev).
  destruct (release_is_release _ _ Hthis) as [Rt Pt], (release_is_release _ _ Hv) as [Rv Pv].
  rewrite cmp_value in Hcmp by done.
  destruct op; rewrite ?contains_eq, ?contains_ne, ?contains_le, ?contains_ge, ?contains_star,
    ?contains_not_star, ?(release_is_seen this v s Hv), ?Hcmp, ?Rt, ?Rv, ?Pt, ?Pv by done; try done.
  - destruct (Nat.leb_spec 2 (length r)) as [Hl|Hl].
    + rewrite contains_tilde, (release_is_seen this v s Hv), Hcmp, Rt, Rv, Pt, Pv by (done || by rewrite Rt).
      done.
    + rewrite contains_candidate. cbn [operator spec_version]. rewrite Rt.
      by rewrite (proj2 (Nat.ltb_ge 1 (length r))) by lia.
  - rewrite (contains_lt_bare this v 0 r Hw Hwv Et) by (rewrite value_min, Ev; done).
    rewrite Ev. done.
  - rewrite gt_bare_contains; [|by eapply release_is_unmarked|by eapply release_is_plain|by rewrite Pt, Rt].
    rewrite Ev, Pt, Rt. done.
Qed.
End release_matching.

(** ** Truncation to major and minor *)

Lemma take_release_mono n a b :
  compare_release a b <> Gt -> compare_release (take n a) (take n b) <> Gt.
Proof.
  revert a b. induction n as [|n IH]; intros a b; [done|].
  rewrite (compare_release_step a b), (compare_release_step (take (S n) a) (take (S n) b)).
  assert (forall l : list N, head (take (S n) l) = head l /\ tail (take (S n) l) = take n (tail l)) as Ht.
  { intros [|x l]; cbn; [by rewrite take_nil|done]. }
  destruct (Ht a) as [-> ->], (Ht b) as [-> ->]. rewrite !then_with_ngt. naive_solver.
Qed.

(** Below a release of at most three segments whose third is zero, the truncation
    is below too. *)
Lemma take_release_lt n a b :
  (forall i x, (n <= i)%nat -> b !! i = Some x -> x = 0) ->
  compare_release a b = Lt -> compare_release (take n a) (take n b) = Lt.
Proof.
  revert a b. induction n as [|n IH]; intros a b Hz Hlt.
  - exfalso. cut (compare_release a b <> Lt); [done|].
    assert (compare_release a b = compare_release a []) as ->; [|apply compare_release_nil_r].
    apply (@cmp_eq_r _ release_ord release_ord_laws). apply compare_release_eq.
    clear Hlt. induction b as [|x b IHb]; [done|]. cbn. rewrite IHb.
    + by rewrite (Hz 0%nat x) by (done || lia).
    + intros i y _ Hi. apply (Hz (S i) y); [lia|done].
  - rewrite (compare_release_step a b) in Hlt.
    rewrite (compare_release_step (take (S n) a) (take (S n) b)).
    assert (forall l : list N, head (take (S n) l) = head l /\ tail (take (S n) l) = take n (tail l)) as Ht.
    { intros [|x l]; cbn; [by rewrite take_nil|done]. }
    destruct (Ht a) as [-> ->], (Ht b) as [-> ->]. rewrite then_with_lt in *.
    destruct Hlt as [?|[? Hlt]]; [by left|right]. split; [done|]. apply IH; [|done].
    intros i x Hi Hx. destruct b as [|y b]; [done|]. apply (Hz (S i) x); [lia|done].
Qed.

(** ** The order on bounds *)

Definition lower_key (b : Bound) : option (VersionFull * N) :=
  match b with
  | Included v => Some (value v, 0)
  | Excluded v => Some (value v, 1)
  | Unbounded => None
  end.

Definition upper_key (b : Bound) : N * option (VersionFull * N) :=
  match b with
  | Included v => (0, Some (value v, 1))
  | Excluded v => (0, Some (value v, 0))
  | Unbounded => (1, None)
  end.

Definition bound_wf (b : Bound) : Prop :=
  match b with
  | Included v | Excluded v => version_wf v
  | Unbounded => True
  end.

Lemma some_cmp {A} `{Ord A} (a b : A) : cmp (Some a) (Some b) = cmp a b.
Proof. done. Qed.

Lemma lower_cmp_key a b :
  bound_wf a -> bound_wf b -> LowerBound_cmp a b = cmp (lower_key a) (lower_key b).
Proof.
  destruct a as [v|v|], b as [w|w|]; intros Ha Hb; try done; cbn [LowerBound_cmp lower_key];
    rewrite cmp_value, some_cmp, prod_cmp by done; by destruct (cmp (value v) (value w)).
Qed.

Lemma upper_cmp_key a b :
  bound_wf a -> bound_wf b -> UpperBound_cmp a b = cmp (upper_key a) (upper_key b).
Proof.
  destruct a as [v|v|], b as [w|w|]; intros Ha Hb; try done; cbn [UpperBound_cmp upper_key];
    rewrite cmp_value, prod_cmp, cmp_refl, some_cmp, prod_cmp by done; cbn [then_with]; by destruct (cmp (value v) (value w)).
Qed.
