(* ===== verification/SpecifierTheorems.v ===== *)
(** * Theorems on specifiers and ranges *)

From stdpp Require Import base numbers list strings sorting.
From S2P Require Import Prelude VersionTypes VersionSmall Version VersionFacts VersionParser ParserFacts RoundTrip ParserSafe VersionOps Specifier SpecifierFacts Ranges SpecifierParse RangesFacts.

Local Open Scope uv_scope.

(** ** Building and parsing *)

(** Building a specifier from an operator and a pattern fails exactly when a
    wildcard is used with an operator other than [==] and [!=], when a local version
    is used with an operator that does not allow one, or when [~=] has fewer than
    two release segments, in this order; otherwise it keeps operator and version. *)
Theorem from_pattern_spec (op : Operator) (p : VersionPattern) :
  let op' := if wildcard p then to_star op else Some op in
  from_pattern op p =
  match op' with
  | None => Err (OperatorWithStar op)
  | Some op' =>
      if is_local (version p) && negb (is_local_compatible op') then
        Err (OperatorLocalCombo op' (version p))
      else if bool_decide (op' = TildeEqual /\ (length (release (version p)) < 2)%nat) then
        Err CompatibleRelease
      else Ok (mkSpec op' (version p))
  end.
Proof.
  assert (forall o v, from_version o v =
    if is_local v && negb (is_local_compatible o) then Err (OperatorLocalCombo o v)
    else if bool_decide (o = TildeEqual /\ (length (release v) < 2)%nat) then Err CompatibleRelease
    else Ok (mkSpec o v)) as Hfrom.
  { intros o v. unfold from_version. case_match; [done|].
    assert (bool_decide (o = TildeEqual) && Nat.ltb (length (release v)) 2
            = bool_decide (o = TildeEqual /\ (length (release v) < 2)%nat)) as ->; [|done].
    apply eq_true_iff_eq. by rewrite andb_true_iff, !bool_decide_eq_true, Nat.ltb_lt. }
  cbn zeta. unfold from_pattern. destruct (wildcard p); [destruct (to_star op)|]; cbn [rbind]; auto.
Qed.

(** Parsing a list of specifiers never panics; the specifiers it returns are
    well-formed and sorted by version, and matching a version against them never
    hits the assertion on the length of a [~=] release. *)
Theorem specs_from_str_safe {Sc : Type} `{Scanner Sc} (t : text) :
  specs_from_str t <> Err Panic /\
  forall l, specs_from_str t = Ok l ->
    Forall spec_wf l /\ StronglySorted le_version l /\
    forall v, is_Some (specs_contains l v).
Proof.
  pose proof (specs_from_str_inv t) as H1. destruct (specs_from_str t) as [l|[]]; [|done..].
  split; [done|]. intros k E%Ok_inj. subst k. destruct H1 as [H1 H2]. split_and!; [|done|].
  - eapply Forall_impl; [done|]. by intros s (?&_).
  - intros v. unfold specs_contains. rewrite try_forallb_total; [by eexists|].
    eapply Forall_impl; [done|]. intros s ((?&_)&_). by apply contains_total.
Qed.

(** A parsed list of specifiers survives both of its printed forms: the
    [Display] form (separated by comma and space) and the serialized form
    (separated by commas) parse back to the same list in the same order. *)
Theorem specs_show_round_trip {Sc : Type} `{ScannerLaws Sc} (t : text) (l : VersionSpecifiers)
    (Hparse : specs_from_str t = Ok l) :
  specs_from_str (specs_show l) = Ok l /\ specs_from_str (specs_serialize l) = Ok l.
Proof.
  pose proof (specs_from_str_inv t) as H1. rewrite Hparse in H1. destruct H1 as [H1 H2]. split.
  - apply (specs_round_trip [32]); auto. by constructor.
  - apply (specs_round_trip []); auto. constructor.
Qed.

(** The error of a failed parse points at the specifier that failed: its span
    lies inside the line (so slicing it in the message cannot panic) and covers
    exactly the bytes of a piece whose own parse fails with the same error. *)
Theorem specs_error_span {Sc : Type} `{Scanner Sc} (t : text) (e : VersionSpecifiersParseError)
    (Hparse : specs_from_str t = Err (Error e)) :
  line e = t /\ (start e <= end_ e <= length (utf8 t))%nat /\
  exists piece, spec_from_str piece = Err (Error (err e)) /\
    take (end_ e - start e) (drop (start e) (utf8 t)) = utf8 piece.
Proof.
  unfold specs_from_str, parse_version_specifiers in Hparse. destruct t as [|c t]; [done|].
  destruct (parse_pieces (c :: t) 0 (split_commas (c :: t))) as [|f] eqn:Ep; [done|].
  cbn in Hparse. injection Hparse as ->.
  assert (split_commas (c :: t) <> []) as Hne.
  { cbn [split_commas]. repeat case_match; done. }
  destruct (parse_pieces_span (c :: t) [] _ e Hne Ep) as (p&Hp&Hl&Hb&Ht).
  cbn [app] in Hb, Ht. rewrite joined_split in Hb, Ht. split_and!; [done|lia|lia|eauto].
Qed.

(** The hint of the "expected operator" error unwraps a specifier built from
    [==] and the pattern that was read; it never panics. *)
Theorem operator_hint_total (input : bytes) :
  is_Some (operator_hint (result_ok (VersionPattern_from_str input))).
Proof.
  destruct (VersionPattern_from_str input) as [vpat|] eqn:E; [|by eexists]. cbn.
  pose proof (pattern_wildcard_bare input vpat E) as Hb. unfold from_pattern.
  destruct (wildcard vpat) eqn:Ew; cbn [to_star rbind]; rewrite from_version_ok; unfold spec_ok; cbn.
  - assert (is_local (version vpat) = false) as ->; [|by eexists].
    unfold is_local. rewrite value_local. by destruct (Hb Ew) as (_&_&_&->&_).
  - rewrite orb_true_r. by eexists.
Qed.

(** ** Matching *)

(** Sorting does not change what a list of specifiers matches. *)
Theorem from_unsorted_matches (l : list VersionSpecifier) (v : Version)
    (Hl : Forall (fun s => spec_ok s = true) l) :
  specs_contains (from_unsorted l) v = specs_contains l v.
Proof. symmetry. apply specs_contains_perm; [done|]. symmetry. apply sort_perm. Qed.

(** The compatible-release clause is what PEP 440 says it is: [~=V.N] matches
    exactly the versions that both [>=V.N] and [==V.*] match. *)
Theorem tilde_is_ge_and_star (this prefix v : Version)
    (Hthis : version_wf this) (Hv : version_wf v)
    (Hlen : (2 <= length (release this))%nat)
    (Hprefix : with_release this (removelast (release this)) = Some prefix) :
  contains (mkSpec TildeEqual this) v =
  match contains (mkSpec GreaterThanEqual this) v, contains (mkSpec EqualStar prefix) v with
  | Some a, Some b => Some (a && b)
  | _, _ => None
  end.
Proof.
  pose proof (with_release_cases this (removelast (release this)) Hthis) as Hp. rewrite Hprefix in Hp.
  destruct Hp as (_&Hpw&Epv).
  assert (epoch prefix = epoch this /\ release prefix = removelast (release this)) as [E1 E2].
  { rewrite (value_epoch prefix), (value_epoch this), (value_release prefix), Epv. done. }
  by rewrite contains_ge, contains_star, E1, E2, contains_tilde.
Qed.

(** [2.2] and its prefix [2]. *)
Definition v2_2 : Version := default (Small VersionSmall.new) (new [2; 2]).
Definition v2 : Version := default (Small VersionSmall.new) (new [2]).

Lemma new_example_wf ns : version_wf (default (Small VersionSmall.new) (new ns)).
Proof.
  destruct (decide (ns = [])) as [->|Hne]; [exact new_small_wf|].
  destruct (new_spec ns Hne) as (v&->&Hw&_). exact Hw.
Qed.

(** [negate] is sound for matching: an operator and its negation never match the
    same version, and for (in)equality, exact or by prefix, exactly one of them does. *)
Theorem negate_excludes (op nop : Operator) (this v : Version)
    (Hneg : negate op = Some nop) (Hthis : version_wf this) (Hv : version_wf v)
    (Hop : spec_ok (mkSpec op this) = true) (Hnop : spec_ok (mkSpec nop this) = true)
    (Hp : printable (value this)) (Hpv : printable (value v)) :
  exists a b, contains (mkSpec op this) v = Some a /\ contains (mkSpec nop this) v = Some b /\
    a && b = false /\
    (op = Equal \/ op = NotEqual \/ op = EqualStar \/ op = NotEqualStar -> b = negb a).
Proof.
  destruct op; cbn in Hneg; injection Hneg as <- || done;
    rewrite ?contains_eq, ?contains_ne, ?contains_star, ?contains_not_star, ?contains_lt,
      ?contains_ge, ?contains_le, ?contains_gt by done.
  - do 2 eexists. split_and!; [done..| |done]. apply andb_negb_r.
  - do 2 eexists. split_and!; [done..| |done]. apply andb_negb_r.
  - rewrite contains_candidate. cbn [operator spec_version]. do 2 eexists. split_and!; [done..| |naive_solver].
    case_bool_decide as E; [|done]. cbn. apply negb_false_iff.
    destruct (from_str_show this Hp) as (w&Ew&_&Vw), (from_str_show v Hpv) as (u&Eu&_&Vu).
    assert (value v = value this) as Evt.
    { rewrite E in Ew. rewrite Ew in Eu. apply Ok_inj in Eu. subst u. congruence. }
    unfold seen. rewrite (value_local this), Evt.
    destruct (LocalVersion_is_empty (f_local (value this))) eqn:El; [|by rewrite cmp_refl].
    apply LocalVersion_is_empty_spec in El. unfold drop_local. rewrite <- El, set_local_same.
    by rewrite cmp_refl.
  - do 2 eexists. split_and!; [done..| |by rewrite negb_involutive]. apply andb_negb_l.
  - do 2 eexists. split_and!; [done..| |by rewrite negb_involutive]. apply andb_negb_l.
  - do 2 eexists. split_and!; [done..| |naive_solver]. by destruct (cmp (seen this v) (value this)), (negb _).
  - do 2 eexists. split_and!; [done..| |naive_solver]. by destruct (cmp (seen this v) (value this)), (negb _).
  - do 2 eexists. split_and!; [done..| |naive_solver]. by destruct (cmp (seen this v) (value this)), (negb _).
  - do 2 eexists. split_and!; [done..| |naive_solver]. by destruct (cmp (seen this v) (value this)), (negb _).
Qed.

Lemma example_printable r rs :
  Forall (fun n => n <= u64_MAX) (r :: rs) ->
  printable (value (default (Small VersionSmall.new) (new (r :: rs)))).
Proof.
  intros Hr. destruct (new_spec (r :: rs)) as (v&->&_&Hv); [done|]. cbn [default id]. rewrite Hv.
  repeat split; try done. constructor.
Qed.

