(* ===== verification/RangesTheorems.v ===== *)
(** * Theorems on ranges and bounds *)

From stdpp Require Import base numbers list strings sorting.
From S2P Require Import Prelude VersionTypes VersionSmall Version VersionFacts VersionParser ParserSafe VersionOps Specifier SpecifierFacts Ranges SpecifierParse RangesFacts.

(** ** The resolver's ranges *)

(** The specifiers whose range is exact on the candidate [v]. *)
Definition converts_exactly (v : Version) (s : VersionSpecifier) : Prop :=
  let this := spec_version s in
  unmarked this /\ spec_ok s = true /\
  match operator s with
  | ExactEqual => False
  | LessThan => post this = None \/ any_prerelease this = true
  | GreaterThan => pre this = None /\ post this = None /\ dev this = None
  | TildeEqual => Forall (fun n => n < u64_MAX) (release this)
  | EqualStar | NotEqualStar =>
      is_bare (value this) /\ release this <> [] /\ Forall (fun n => n < u64_MAX) (release this) /\
      (length (release this) <= length (release v))%nat
  | _ => True
  end.

Lemma convert_specifier {R} `{RangesLaws R} s v :
  plain v -> converts_exactly v s ->
  exists r : R, range_from_specifier s = Some r /\ Some (ranges_contains r v) = contains s v.
Proof.
  intros Hv (Hthis&Hok&Hc). destruct s as [op this]. cbn [operator spec_version] in *.
  assert (forall P n, is_bare (value this) -> release this = P ++ [n] ->
            value this = bare (epoch this) (P ++ [n])) as Hbare.
  { intros P n (?&?&?&?&?&?) Er. rewrite <- Er, value_release, value_epoch.
    destruct (value this). cbn in *. by subst. }
  destruct op; cbn in Hc.
  - by apply convert_equal.
  - destruct Hc as (Hb&Hne&Hmax&Hl). destruct (last_split _ Hne) as (P&n&Er).
    rewrite Er in Hmax. apply Forall_app in Hmax as [_ Hn]. inversion Hn; subst.
    by apply (convert_star this v Hthis Hv P n); auto.
  - done.
  - by apply convert_not_equal.
  - destruct Hc as (Hb&Hne&Hmax&Hl). destruct (last_split _ Hne) as (P&n&Er).
    rewrite Er in Hmax. apply Forall_app in Hmax as [_ Hn]. inversion Hn; subst.
    destruct (convert_star (R := R) this v Hthis Hv P n) as (r&E&Hr); auto.
    unfold range_from_specifier. cbn [operator spec_version]. rewrite E. cbn [mbind option_bind].
    eexists. split; [done|]. rewrite contains_complement.
    pose proof Hthis as (Hw&_). pose proof Hv as (Hwv&_).
    rewrite contains_not_star by done. rewrite contains_star in Hr by done. by injection Hr as ->.
  - apply convert_tilde; try done. intros P n t Er. rewrite Er in Hc. apply Forall_app in Hc as [_ Hc].
    by inversion Hc.
  - by apply convert_lt.
  - eexists. split; [done|]. by apply convert_le.
  - destruct Hc as (?&?&?). by apply convert_gt.
  - eexists. split; [done|]. by apply convert_ge.
Qed.

(** C17: the ranges the resolver works with agree with PEP 440 matching: for
    candidates without internal markers, the range built from a list of specifiers
    contains exactly the versions the list matches, for every operator where the
    translation is exact ([==], [!=], [<=], [>=] always; [~=] and the star forms for
    candidates with at least as many segments; [<] and [>] of a final release, and
    [<] of a pre-release). *)
Theorem ranges_agree {R} `{RangesLaws R} (l : VersionSpecifiers) (v : Version)
    (Hv : plain v) (Hl : Forall (converts_exactly v) l) :
  exists r : R, range_from_specifiers l = Some r /\ Some (ranges_contains r v) = specs_contains l v.
Proof.
  unfold range_from_specifiers.
  assert (forall r0 : R, exists r : R, intersect_all range_from_specifier r0 l = Some r /\
    Some (ranges_contains r v) = (b ← specs_contains l v; Some (ranges_contains r0 v && b))) as Hgen.
  { induction Hl as [|s l Hs _ IH]; intros r0.
    - exists r0. cbn. by rewrite andb_true_r.
    - destruct (convert_specifier (R := R) s v Hv Hs) as (r&E&Hr). cbn [intersect_all]. rewrite E.
      cbn [mbind option_bind]. destruct (IH (ranges_intersection r0 r)) as (r'&E'&Hr').
      exists r'. split; [done|]. rewrite Hr', contains_intersection. unfold specs_contains. cbn [try_forallb].
      rewrite <- Hr. destruct (ranges_contains r v); [by rewrite andb_true_r|]. rewrite andb_false_r.
      assert (is_Some (try_forallb (fun s => contains s v) l)) as [b ->].
      { destruct (IH r0) as (r1&_&E1). unfold specs_contains in E1.
        destruct (try_forallb _ l); [by eexists|done]. }
      cbn. by rewrite andb_false_r. }
  destruct (Hgen ranges_full) as (r&E&Hr). exists r. split; [done|]. rewrite Hr, contains_full. cbn.
  by destruct (specs_contains l v).
Qed.

Definition example (ns : list N) : Version := default (Small VersionSmall.new) (new ns).

Lemma example_release_is r rs : release_is (example (r :: rs)) (r :: rs).
Proof. destruct (new_release (r :: rs)) as (v&E&Hv); [done|]. unfold example. rewrite E. exact Hv. Qed.

Lemma ranges_agree_witness :
  exists r : Version -> bool,
    range_from_specifiers [mkSpec GreaterThanEqual (example [1; 2]); mkSpec LessThan (example [2])] = Some r /\
    Some (r (example [1; 9; 1])) = Some true.
Proof.
  destruct (ranges_agree (R := Version -> bool)
    [mkSpec GreaterThanEqual (example [1; 2]); mkSpec LessThan (example [2])] (example [1; 9; 1]))
    as (r&E&Hr).
  - eapply release_is_plain, example_release_is.
  - constructor; [|constructor; [|constructor]];
      (split; [eapply release_is_unmarked, example_release_is|]);
      (split; [vm_compute; reflexivity|]); [exact I|left; vm_compute; reflexivity].
  - exists r. split; [exact E|]. transitivity (Some (ranges_contains r (example [1; 9; 1]))); [reflexivity|].
    rewrite Hr. vm_compute. reflexivity.
Defined.

(** The translation of [<V] is not exact for a post-release [V]: [<1.0.post1]
    matches [1.0], but its range excludes [1.0], because the [min] marker that is
    put on [1.0.post1] sorts below everything with the release [1.0]. *)
Theorem lt_post_range_drops_final {R} `{RangesLaws R} :
  exists this v (r : R),
    Version_from_str (bs "1.0.post1") = Ok this /\ Version_from_str (bs "1.0") = Ok v /\
    contains (mkSpec LessThan this) v = Some true /\
    range_from_specifier (mkSpec LessThan this) = Some r /\ ranges_contains r v = false.
Proof.
  do 3 eexists. split; [vm_compute; reflexivity|]. split; [vm_compute; reflexivity|].
  split; [vm_compute; reflexivity|]. unfold range_from_specifier. cbn [operator spec_version].
  match goal with |- (if ?b then _ else _) = _ /\ _ => replace b with false by (vm_compute; reflexivity) end.
  split; [reflexivity|]. rewrite contains_strictly_lower_than. vm_compute. reflexivity.
Qed.

(** ** Release-only ranges *)

Lemma increment_last_split r :
  r <> [] -> Forall (fun n => n < u64_MAX) r ->
  exists P n, r = P ++ [n] /\ increment_last r = Some (P ++ [n + 1]).
Proof.
  intros Hne Hmax. destruct (last_split r Hne) as (P&n&->). exists P, n. split; [done|].
  apply increment_last_app. apply Forall_app in Hmax as [_ Hn]. by inversion Hn.
Qed.

(** The release-only star range is the prefix test. *)
Lemma release_star_convert {R} `{RangesLaws R} this v r s :
  release_is this r -> release_is v s -> Forall (fun n => n < u64_MAX) r ->
  (length r <= length s)%nat ->
  exists x : R, release_star_range this = Some x /\ ranges_contains x v = zip_all_eq r s.
Proof.
  intros Ht Hv Hmax Hl. pose proof Ht as (Hw&Hne&Et).
  destruct (release_is_release _ _ Ht) as [Rt Pt], (release_is_release _ _ Hv) as [Rv Pv].
  destruct (increment_last_split r Hne Hmax) as (P&n&->&Ei).
  unfold release_star_range, only_release. rewrite Rt.
  destruct (new_release (P ++ [n]) Hne) as (lo&->&Hlo). cbn [mbind option_bind].
  destruct (release_is_release _ _ Hlo) as [Rlo _]. rewrite Rlo, Ei. cbn [mbind option_bind].
  destruct Hlo as (Hlw&_&Elo).
  destruct (with_release_spec lo (P ++ [n + 1]) Hlw) as (hi&->&Hhw&Ehi); [by destruct P|].
  cbn [mbind option_bind]. eexists. split; [done|].
  assert (release_is hi (P ++ [n + 1])) as Hhi.
  { split_and!; [done|by destruct P|]. by rewrite Ehi, Elo. }
  rewrite contains_from_range_bounds. unfold cmp_geb, cmp_ltb.
  rewrite (release_cmp v this s (P ++ [n]) Hv Ht), (release_cmp v hi s (P ++ [n + 1]) Hv Hhi).
  apply eq_true_iff_eq. rewrite andb_true_iff, (compare_release_opp (P ++ [n]) s).
  assert (length (P ++ [n]) = S (length P)) as El by (rewrite length_app; cbn; lia).
  transitivity (prefix0 (S (length P)) s = P ++ [n]).
  - rewrite <- prefix_interval. destruct (compare_release (P ++ [n]) s), (compare_release s (P ++ [n + 1])); naive_solver.
  - rewrite <- El. split; [apply prefix0_zip|]. by apply zip_prefix0_long.
Qed.

(** The release-only [~=] range. *)
Lemma release_tilde_convert {R} `{RangesLaws R} this t v r r' s :
  release_is this r -> release_is t r' -> compare_release r r' = Eq -> release_is v s -> Forall (fun n => n < u64_MAX) r ->
  (2 <= length r)%nat ->
  exists u, (release ← increment_second_last (release this); new release) = Some u /\
    ranges_contains (ranges_from_range_bounds t u : R) v
    = geb_cmp (compare_release s r) && zip_all_eq (removelast r) s.
Proof.
  intros Ht Htt Hr Hv Hmax Hl. destruct (release_is_release _ _ Ht) as [Rt Pt], (release_is_release _ _ Hv) as [Rv Pv].
  destruct (last_two_split r Hl) as (P&n&x&->).
  apply Forall_app in Hmax as [_ [Hn _]%Forall_cons].
  rewrite Rt, increment_second_last_app by done. cbn [mbind option_bind].
  destruct (new_release (P ++ [n + 1])) as (u&->&Hu); [by destruct P|]. exists u. split; [done|].
  rewrite contains_from_range_bounds. unfold cmp_geb, cmp_ltb.
  rewrite (release_cmp v t s _ Hv Htt), (release_cmp v u s _ Hv Hu).
  rewrite <- (compare_release_eq_r _ _ s Hr).
  assert (removelast (P ++ [n; x]) = P ++ [n]) as ->.
  { change (P ++ [n; x]) with (P ++ [n] ++ [x]). rewrite app_assoc. apply removelast_last. }
  pose proof Ht as (_&_&Et). pose proof Hv as (_&_&Ev).
  pose proof (tilde_interval this v P n [x] Rt) as Hint.
  rewrite (release_is_seen this v s Hv), Pt, Pv, Rv, Ev, Et, bare_cmp in Hint.
  change (head_cmp (bare 0 s) (bare 0 (P ++ [n; x]))) with (compare_release s (P ++ [n; x])) in Hint.
  change (head_cmp (bare 0 s) (bare 0 (P ++ [n + 1]))) with (compare_release s (P ++ [n + 1])) in Hint.
  cbn [N.eqb andb] in Hint. apply eq_true_iff_eq. rewrite !andb_true_iff.
  destruct (compare_release s (P ++ [n; x])); cbn [geb_cmp]; [|naive_solver|];
    rewrite Hint by done; destruct (compare_release s (P ++ [n + 1])); naive_solver.
Qed.

(** The release-only range of a specifier is what the specifier matches. *)
Lemma release_range_exact {R} `{RangesLaws R} (op : Operator) (this v : Version) (r s : list N)
    (trim : bool) (Hop : op <> ExactEqual)
    (Hthis : release_is this r) (Hv : release_is v s)
    (Hmax : Forall (fun n => n < u64_MAX) r)
    (Htilde : op = TildeEqual -> (2 <= length r)%nat)
    (Hstar : is_star op = true -> (length r <= length s)%nat) :
  exists x : R, release_specifier_to_range (mkSpec op this) trim = Some x /\
    Some (ranges_contains x v) = contains (mkSpec op this) v.
Proof.
  pose proof Hthis as (Hw&Hne&Et). destruct (release_is_release _ _ Hthis) as [Rt Pt].
  assert (exists t r', (if trim then only_release_trimmed this else only_release this) = Some t /\
            release_is t r' /\ compare_release r r' = Eq) as (t&r'&Ett&Ht&Hr).
  { destruct trim.
    - destruct (trimmed_spec this) as (t&E&Htw&Etv). exists t, (trimmed r). rewrite Rt in Etv.
      split_and!; [done| |apply compare_trimmed]. split_and!; [done| |done].
      unfold trimmed. by destruct (pop_zeros r).
    - unfold only_release. rewrite Rt. destruct (new_release r Hne) as (t&E&Ht). exists t, r.
      split_and!; [done|done|]. by apply compare_release_eq. }
  unfold release_specifier_to_range. cbn [operator spec_version]. rewrite Ett. cbn [mbind option_bind].
  rewrite (contains_release this v r s Hthis Hv).
  pose proof (release_cmp v t s r' Hv Ht) as Hc.
  rewrite <- (compare_release_eq_r _ _ s Hr) in Hc.
  destruct op; try done;
    try (eexists; split; [reflexivity|];
         rewrite ?contains_complement, ?contains_singleton, ?contains_strictly_lower_than,
           ?contains_lower_than, ?contains_strictly_higher_than, ?contains_higher_than;
         unfold cmp_eqb, cmp_ltb, cmp_leb, cmp_gtb, cmp_geb; rewrite Hc; reflexivity).
  - destruct (release_star_convert (R := R) this v r s Hthis Hv Hmax (Hstar eq_refl)) as (x&->&Hx).
    eexists. split; [done|]. by rewrite Hx.
  - destruct (release_star_convert (R := R) this v r s Hthis Hv Hmax (Hstar eq_refl)) as (x&->&Hx).
    eexists. split; [done|]. by rewrite contains_complement, Hx.
  - destruct (release_tilde_convert (R := R) this t v r r' s Hthis Ht Hr Hv Hmax (Htilde eq_refl)) as (u&E&Hx).
    destruct (increment_second_last (release this)) as [w|]; [|done]. cbn [mbind option_bind] in *. rewrite E.
    cbn [mbind option_bind]. eexists. split; [done|]. rewrite Hx.
    by rewrite (proj2 (Nat.leb_le 2 (length r)) (Htilde eq_refl)).
Qed.

(** For release-only versions (a Python version against [requires-python]) the
    release-only range, trimmed or not, contains exactly what the specifier
    matches; prefix forms need a candidate with at least as many segments. *)
Theorem release_range_agrees {R} `{RangesLaws R} (op : Operator) (this v : Version) (r s : list N)
    (trim : bool) (Hop : op <> ExactEqual)
    (Hthis : release_is this r) (Hv : release_is v s)
    (Hmax : Forall (fun n => n < u64_MAX) r)
    (Htilde : op = TildeEqual -> (2 <= length r)%nat)
    (Hstar : is_star op = true -> (length r <= length s)%nat) :
  exists x : R, release_specifier_to_range (mkSpec op this) trim = Some x /\
    Some (ranges_contains x v) = contains (mkSpec op this) v.
Proof. by apply (release_range_exact op this v r s). Qed.

(** ** Bounds *)

(** A bound on release-only versions. *)
Definition bound_release (b : Bound) : Prop :=
  match b with
  | Included v | Excluded v => release_is v (release v) /\ Forall (fun n => n < u64_MAX) (release v)
  | Unbounded => True
  end.

Lemma trimmed_release v r :
  release_is v r -> exists t, only_release_trimmed v = Some t /\ release_is t (trimmed r).
Proof.
  intros Hv. destruct (release_is_release _ _ Hv) as [Rv _].
  destruct (trimmed_spec v) as (t&E&Hw&Et). exists t. split; [done|]. rewrite Rv in Et.
  split_and!; [done| |done]. unfold trimmed. by destruct (pop_zeros r).
Qed.

(** [star_of] gives a prefix only for an interval that is one. *)
Lemma star_of_interval v1 v2 v r1 r2 s :
  release_is v1 r1 -> release_is v2 r2 -> release_is v s ->
  Forall (fun n => n < u64_MAX) r1 -> (2 <= length s)%nat ->
  exists o, star_of v1 v2 = Some o /\
    match o with
    | Some u => exists k, release_is u k /\
        zip_all_eq k s = geb_cmp (compare_release s r1) && ltb_cmp (compare_release s r2)
    | None => True
    end.
Proof.
  intros H1 H2 Hv Hmax Hl. unfold star_of.
  destruct (trimmed_release v1 r1 H1) as (t1&->&T1), (trimmed_release v2 r2 H2) as (t2&->&T2).
  cbn [mbind option_bind].
  destruct (release_is_release _ _ T1) as [-> _], (release_is_release _ _ T2) as [-> _].
  rewrite (compare_release_eq_r _ _ s (compare_trimmed r1)), (compare_release_eq_r _ _ s (compare_trimmed r2)).
  assert (forall P n, length P = 1%nat ->
    zip_all_eq (P ++ [n]) s = geb_cmp (compare_release s (P ++ [n])) && ltb_cmp (compare_release s (P ++ [n + 1]))) as Hz.
  { intros P n HP. apply eq_true_iff_eq. rewrite andb_true_iff, (compare_release_opp (P ++ [n]) s).
    assert (length (P ++ [n]) = S (length P)) as El by (rewrite length_app; cbn; lia).
    transitivity (prefix0 (S (length P)) s = P ++ [n]).
    - rewrite <- El. split; [apply zip_prefix0_long; lia|apply prefix0_zip].
    - rewrite <- prefix_interval. destruct (compare_release (P ++ [n]) s), (compare_release s (P ++ [n + 1])); naive_solver. }
  destruct (trimmed r1) as [|major [|minor [|x l]]] eqn:E1; [by exists None| | |by exists None].
  - case_decide as Ed; [|by exists None].
    destruct (new_release [major; 0]) as (u&->&Hu); [done|]. exists (Some u). split; [done|].
    exists [major; 0]. split; [done|].
    pose proof (Hz [major] 0 eq_refl) as Hz0. cbn [app] in Hz0. rewrite Ed, Hz0.
    rewrite (compare_release_eq_r [major; 0] [major] s); [done|].
    apply compare_release_eq. by destruct major.
  - case_decide as Ed; [|by exists None].
    destruct (new_release [major; minor]) as (u&->&Hu); [done|]. exists (Some u). split; [done|].
    exists [major; minor]. split; [done|].
    assert (minor < u64_MAX) as Hm.
    { unfold trimmed in E1. destruct (pop_zeros_pad r1) as [n En]. rewrite En in Hmax.
      apply Forall_app in Hmax as [Hmax _]. destruct (pop_zeros r1); [done|]. injection E1 as -> ->.
      apply Forall_cons in Hmax as [_ Hmax]. by apply Forall_cons in Hmax as [? _]. }
    rewrite Ed, u64_add_1 by done. apply (Hz [major] minor eq_refl).
Qed.

Lemma lower_release v w r s :
  release_is v r -> release_is w s ->
  LowerBound_contains (Included v) w = geb_cmp (compare_release s r) /\
  LowerBound_contains (Excluded v) w = gtb_cmp (compare_release s r) /\
  UpperBound_contains (Included v) w = leb_cmp (compare_release s r) /\
  UpperBound_contains (Excluded v) w = ltb_cmp (compare_release s r).
Proof.
  intros Hv Hw. cbn. unfold cmp_leb, cmp_ltb, cmp_geb, cmp_gtb.
  rewrite (release_cmp v w r s Hv Hw), (compare_release_opp s r). by destruct (compare_release s r).
Qed.

(** The two default specifiers of an interval. *)
Lemma from_bounds_default lo hi v :
  bound_release lo -> bound_release hi -> release_is v (release v) ->
  exists b1 b2, from_lower_bound lo = Some b1 /\ from_upper_bound hi = Some b2 /\
    specs_contains (to_iter b1 b2) v = Some (LowerBound_contains lo v && UpperBound_contains hi v).
Proof.
  intros Hlo Hhi Hv.
  assert (forall op w, release_is w (release w) -> op <> TildeEqual ->
            from_version_unwrap op w = Some (mkSpec op w)) as Hfrom.
  { intros op w (_&_&E) Hop. unfold from_version_unwrap. rewrite from_version_ok.
    assert (spec_ok (mkSpec op w) = true) as ->; [|done]. unfold spec_ok, is_local. cbn [operator spec_version].
    rewrite value_local, E, bool_decide_eq_false_2 by done. done. }
  assert (exists b1, from_lower_bound lo = Some b1 /\
    forall b2, specs_contains (to_iter b1 b2) v
      = if LowerBound_contains lo v then specs_contains (to_iter None b2) v else Some false) as (b1&->&Hb1).
  { destruct lo as [w|w|]; cbn [from_lower_bound]; [| |by exists None];
      destruct Hlo as [Hw _]; rewrite Hfrom by done; eexists; (split; [done|]); intros b2;
      destruct (lower_release w v _ _ Hw Hv) as (H1&H2&_); rewrite ?H1, ?H2;
      unfold specs_contains, to_iter; cbn [app try_forallb];
      rewrite (contains_release w v _ _ Hw Hv); done. }
  assert (exists b2, from_upper_bound hi = Some b2 /\
    specs_contains (to_iter None b2) v = Some (UpperBound_contains hi v)) as (b2&->&Hb2).
  { destruct hi as [w|w|]; cbn [from_upper_bound]; [| |by exists None];
      destruct Hhi as [Hw _]; rewrite Hfrom by done; eexists; (split; [done|]);
      destruct (lower_release w v _ _ Hw Hv) as (_&_&H1&H2); rewrite ?H1, ?H2;
      unfold specs_contains, to_iter; cbn [app try_forallb];
      rewrite (contains_release w v _ _ Hw Hv); by destruct (compare_release _ _). }
  exists b1, b2. split_and!; [done..|]. rewrite Hb1, Hb2. by destruct (LowerBound_contains lo v).
Qed.

(** The specifiers written for an interval of release-only versions never panic and
    describe the interval, also when it is abbreviated to [==V] or [==V.*]. *)
Lemma bounds_exact (lo hi : Bound) (v : Version)
    (Hlo : bound_release lo) (Hhi : bound_release hi)
    (Hv : release_is v (release v)) (Hlen : (2 <= length (release v))%nat) :
  exists l, spec_from_release_only_bounds (lo, hi) = Some l /\
    specs_contains l v = Some (LowerBound_contains lo v && UpperBound_contains hi v).
Proof.
  assert (forall lo hi, bound_release lo -> bound_release hi ->
    exists l, (b1 ← from_lower_bound lo; b2 ← from_upper_bound hi; Some (to_iter b1 b2)) = Some l /\
      specs_contains l v = Some (LowerBound_contains lo v && UpperBound_contains hi v)) as Hdef.
  { intros lo' hi' H1 H2. destruct (from_bounds_default lo' hi' v H1 H2 Hv) as (b1&b2&->&->&E).
    cbn [mbind option_bind]. eauto. }
  unfold spec_from_release_only_bounds.
  destruct lo as [w|w|], hi as [u|u|]; try (by apply Hdef);
    pose proof Hlo as [Hw Hwm]; pose proof Hhi as [Hu _].
  - destruct (Version_eq w u) eqn:E; [|by apply Hdef]. eexists. split; [done|].
    apply Version_eq_cmp in E. rewrite (release_cmp w u _ _ Hw Hu) in E.
    unfold specs_contains, to_iter. cbn [app try_forallb]. unfold equals_version.
    rewrite (contains_release w v _ _ Hw Hv).
    destruct (lower_release w v _ _ Hw Hv) as (->&_), (lower_release u v _ _ Hu Hv) as (_&_&->&_).
    rewrite <- (compare_release_eq_r _ _ (release v) E).
    by destruct (compare_release (release v) (release w)).
  - destruct (star_of_interval w u v _ _ _ Hw Hu Hv Hwm Hlen) as ([x|]&->&Hx); cbn [mbind option_bind];
      [|by apply Hdef]. eexists. split; [done|]. destruct Hx as (k&Hk&Hz).
    unfold specs_contains, to_iter. cbn [app try_forallb]. unfold equals_star_version.
    rewrite (contains_release x v _ _ Hk Hv), Hz.
    destruct (lower_release w v _ _ Hw Hv) as (->&_), (lower_release u v _ _ Hu Hv) as (_&_&_&->).
    by destruct (geb_cmp _ && ltb_cmp _).
Qed.

Lemma example_bound r rs : Forall (fun n => n < u64_MAX) (r :: rs) -> bound_release (Included (example (r :: rs))).
Proof.
  intros Hm. pose proof (example_release_is r rs) as H.
  destruct (release_is_release _ _ H) as [E _]. cbn. by rewrite E.
Qed.

(** Bounds are ordered by what they admit: a lower (upper) bound that is not
    greater (not smaller) admits every version the other one admits; and both
    comparisons are total preorders. *)
Theorem bounds_order (a b c : Bound) (v : Version)
    (Ha : bound_wf a) (Hb : bound_wf b) (Hc : bound_wf c) (Hv : version_wf v) :
  (LowerBound_cmp a b <> Gt -> LowerBound_contains b v = true -> LowerBound_contains a v = true) /\
  (UpperBound_cmp a b <> Gt -> UpperBound_contains a v = true -> UpperBound_contains b v = true) /\
  LowerBound_cmp b a = CompOpp (LowerBound_cmp a b) /\
  UpperBound_cmp b a = CompOpp (UpperBound_cmp a b) /\
  (LowerBound_cmp a b <> Gt -> LowerBound_cmp b c <> Gt -> LowerBound_cmp a c <> Gt) /\
  (UpperBound_cmp a b <> Gt -> UpperBound_cmp b c <> Gt -> UpperBound_cmp a c <> Gt).
Proof.
  split; [|split].
  - destruct a as [x|x|], b as [y|y|]; cbn; unfold cmp_leb, cmp_ltb; try done;
      rewrite !cmp_value by done; pose proof (cmp_le_trans (value x) (value y) (value v));
      pose proof (cmp_lt_le_trans (value x) (value y) (value v));
      pose proof (cmp_le_lt_trans (value x) (value y) (value v));
      destruct (cmp (value x) (value y)), (cmp (value y) (value v)), (cmp (value x) (value v)); naive_solver.
  - destruct a as [x|x|], b as [y|y|]; cbn; unfold cmp_geb, cmp_gtb; try done;
      rewrite !cmp_value, (cmp_opp (value v) (value x)), (cmp_opp (value v) (value y)) by done;
      pose proof (cmp_le_trans (value v) (value x) (value y));
      pose proof (cmp_lt_le_trans (value v) (value x) (value y));
      pose proof (cmp_le_lt_trans (value v) (value x) (value y));
      destruct (cmp (value x) (value y)), (cmp (value v) (value x)), (cmp (value v) (value y)); naive_solver.
  - rewrite !lower_cmp_key, !upper_cmp_key by done.
    split_and!; [apply cmp_opp|apply cmp_opp|apply cmp_le_trans|apply cmp_le_trans].
Qed.

(** Truncating bounds to major and minor is sound: a release-only version inside
    a bound is, truncated to major and minor, inside the truncated bound. For upper
    bounds this needs a bound of at most three segments. *)
Theorem major_minor_sound (b : Bound) (v w : Version)
    (Hb : bound_release b) (Hv : release_is v (release v)) (Hw : new (take 2 (release v)) = Some w) :
  (exists b', LowerBound_major_minor b = Some b' /\
     (LowerBound_contains b v = true -> LowerBound_contains b' w = true)) /\
  (match b with Included u | Excluded u => (length (release u) <= 3)%nat | Unbounded => True end ->
   exists b', UpperBound_major_minor b = Some b' /\
     (UpperBound_contains b v = true -> UpperBound_contains b' w = true)).
Proof.
  assert (forall u, release_is u (release u) -> take 2 (release u) <> []) as Hne.
  { intros u (_&Hne&_). by destruct (release u). }
  destruct (new_release _ (Hne v Hv)) as (w'&Ew&Hw'). rewrite Hw in Ew. injection Ew as <-.
  destruct b as [u|u|]; [destruct Hb as [Hu _]|destruct Hb as [Hu _]|].
  3: { split; [|intros _]; by exists Unbounded. }
  all: destruct (new_release _ (Hne u Hu)) as (u'&Eu&Hu').
  all: destruct (lower_release u v _ _ Hu Hv) as (L1&L2&U1&U2).
  all: destruct (lower_release u' w _ _ Hu' Hw') as (L1'&L2'&U1'&U2').
  all: pose proof (take_release_mono 2 (release v) (release u)) as M1.
  all: pose proof (take_release_mono 2 (release u) (release v)) as M2.
  all: rewrite (compare_release_opp (release v) (release u)) in M2.
  all: rewrite (compare_release_opp (take 2 (release v)) (take 2 (release u))) in M2.
  all: unfold LowerBound_major_minor, UpperBound_major_minor; rewrite Eu; cbn [mbind option_bind].
  - split; [|intros _]; (eexists; split; [done|]).
    + rewrite L1, L1'. destruct (compare_release (release v) _), (compare_release (take 2 (release v)) _); naive_solver.
    + rewrite U1, U1'. destruct (compare_release (release v) _), (compare_release (take 2 (release v)) _); naive_solver.
  - split; [|intros Hl].
    + eexists. split; [done|]. rewrite L2, L1'.
      destruct (compare_release (release v) _), (compare_release (take 2 (release v)) _); naive_solver.
    + destruct (release u !! 2%nat) as [p|] eqn:Ep; [destruct (0 <? p) eqn:E0|]; (eexists; split; [done|]);
        rewrite U2, ?U1', ?U2'.
      1: destruct (compare_release (release v) _), (compare_release (take 2 (release v)) _); naive_solver.
      all: intros Hlt; rewrite (take_release_lt 2 (release v) (release u)); [done| |];
        try (by destruct (compare_release (release v) (release u))).
      all: intros i x Hi Hx; pose proof (lookup_lt_Some _ _ _ Hx); assert (i = 2%nat) as -> by lia.
      all: rewrite Ep in Hx; simplify_eq; bool_to_prop; lia.
Qed.

(** ** [~=] with major, minor and patch *)

(** The bounding pair of a tilde specifier without an epoch is equivalent to it:
    [~=3.13] matches what both [>=3.13] and [<4] match, [~=3.13.0] what both
    [>=3.13.0] and [<3.14] match. *)
Theorem tilde_bounding_exact (s : VersionSpecifier) (ts : TildeVersionSpecifier) (v : Version)
    (Hs : tilde_new s = Some ts) (Hthis : unmarked (spec_version s)) (Hepoch : epoch (spec_version s) = 0)
    (Hmax : Forall (fun n => n < u64_MAX) (release (spec_version s)))
    (Hv : version_wf v) (Hmin : min v = None) :
  exists lower upper, bounding_specifiers ts = Some (lower, upper) /\
    contains s v = specs_contains [lower; upper] v.
Proof.
  destruct s as [op this]. unfold tilde_new in Hs. cbn [operator spec_version] in *.
  case_bool_decide as Eop; [subst op|done]. cbn [negb] in Hs.
  destruct (Nat.ltb (length (release this)) 2 || Nat.ltb 3 (length (release this))) eqn:El; [done|].
  apply orb_false_iff in El as [El1%Nat.ltb_ge El2%Nat.ltb_ge].
  destruct (any_prerelease this || is_local this || is_post this); [done|]. injection Hs as <-.
  pose proof Hthis as (Hw&_).
  assert (exists P n t, release this = P ++ [n; t] /\
    (if Nat.eqb (length (release this)) 3 then
       r0 ← release this !! 0%nat; r1 ← release this !! 1%nat; new [r0; u64_add r1 1]
     else r0 ← release this !! 0%nat; new [u64_add r0 1]) = new (P ++ [n + 1])) as (P&n&t&Er&Eu).
  { destruct (release this) as [|a [|b [|c [|]]]]; cbn in *; try lia;
      apply Forall_cons in Hmax as [Ha Hmax]; apply Forall_cons in Hmax as [Hb _].
    - exists [], a, b. by rewrite u64_add_1.
    - exists [a], b, c. by rewrite u64_add_1. }
  unfold bounding_specifiers, has_patch. cbn [tilde_inner spec_version]. rewrite Eu.
  destruct (new_release (P ++ [n + 1])) as (u&->&Hu); [by destruct P|]. cbn [mbind option_bind].
  do 2 eexists. split; [done|]. pose proof Hu as (Huw&_&Eub).
  unfold specs_contains, greater_than_equal_version, less_than_version. cbn [try_forallb].
  rewrite contains_tilde, contains_ge, (contains_lt_bare u v 0 (P ++ [n + 1])) by done.
  assert (removelast (release this) = P ++ [n]) as ->.
  { rewrite Er. change (P ++ [n; t]) with (P ++ [n] ++ [t]). rewrite app_assoc. apply removelast_last. }
  pose proof (tilde_interval this v P n [t] Er) as Hint. rewrite Hepoch in *.
  destruct (cmp (seen this v) (value this)); cbn [geb_cmp andb]; [|done|];
    specialize (Hint ltac:(done)); destruct (head_cmp (value v) _), (_ && _); naive_solver.
Qed.

(** With an epoch the bounding pair is wrong: the upper bound is built without
    the epoch, so the pair of [~=1!3.13] rejects [1!3.14], which the specifier itself
    matches. *)
Theorem tilde_bounding_loses_epoch :
  exists this v ts lower upper,
    Version_from_str (bs "1!3.13") = Ok this /\ Version_from_str (bs "1!3.14") = Ok v /\
    tilde_new (mkSpec TildeEqual this) = Some ts /\ bounding_specifiers ts = Some (lower, upper) /\
    contains (mkSpec TildeEqual this) v = Some true /\ specs_contains [lower; upper] v = Some false.
Proof. do 5 eexists. repeat (split; [vm_compute; reflexivity|]). vm_compute. reflexivity. Qed.

Lemma tilde_new_inv s ts :
  tilde_new s = Some ts -> ts = {| tilde_inner := s |} /\ operator s = TildeEqual /\
    exists a b, release (spec_version s) = [a; b] \/ exists c, release (spec_version s) = [a; b; c].
Proof.
  unfold tilde_new. case_bool_decide as Eop; [|done]. cbn [negb].
  destruct (release (spec_version s)) as [|a [|b [|c [|]]]]; cbn; try done;
    (destruct (_ || _); [done|]); intros [= <-]; eauto 8.
Qed.

Lemma tilde_new_release v r :
  release_is v r -> (2 <= length r <= 3)%nat ->
  from_version_unwrap TildeEqual v = Some (mkSpec TildeEqual v) /\
  tilde_new (mkSpec TildeEqual v) = Some {| tilde_inner := mkSpec TildeEqual v |}.
Proof.
  intros Hv Hl. destruct (release_is_release _ _ Hv) as [Er _]. pose proof Hv as (_&_&Ev).
  assert (is_local v = false) as Hloc by (unfold is_local; by rewrite value_local, Ev).
  split.
  - unfold from_version_unwrap. rewrite from_version_ok. unfold spec_ok. cbn [operator spec_version].
    rewrite Hloc, Er, (proj2 (Nat.leb_le 2 _)) by lia. done.
  - unfold tilde_new. cbn [operator spec_version]. rewrite bool_decide_eq_true_2, Er, Hloc by done.
    rewrite (proj2 (Nat.ltb_ge _ 2)), (proj2 (Nat.ltb_ge 3 _)) by lia.
    unfold any_prerelease, is_pre, is_dev, is_post. by rewrite value_pre, value_dev, value_post, Ev.
Qed.

(** Replacing the patch number of a tilde specifier never reaches either of its
    [expect]s: the result is again a tilde specifier, with the same major and minor
    and the given patch, whether or not there was a patch before. *)
Theorem tilde_with_patch (s : VersionSpecifier) (ts : TildeVersionSpecifier) (patch : N)
    (Hs : tilde_new s = Some ts) :
  exists ts', with_patch_version ts patch = Some ts' /\ has_patch ts' = true /\
    release (spec_version (tilde_inner ts')) = take 2 (release (spec_version s)) ++ [patch].
Proof.
  destruct (tilde_new_inv _ _ Hs) as (->&_&a&b&E).
  assert (exists v, release_is v [a; b; patch] /\
    with_patch_version {| tilde_inner := s |} patch
    = (specifier ← from_version_unwrap TildeEqual v; tilde_new specifier)) as (v&Hv&->).
  { unfold with_patch_version, has_patch. cbn [tilde_inner].
    destruct E as [->|[c ->]]; cbn; destruct (new_release [a; b; patch]) as (v&->&Hv); eauto. }
  destruct (tilde_new_release v _ Hv) as [-> Et]; [cbn; lia|]. cbn [mbind option_bind]. rewrite Et.
  eexists. split; [done|]. unfold has_patch. cbn [tilde_inner spec_version].
  destruct (release_is_release _ _ Hv) as [-> _]. split; [done|]. by destruct E as [->|[c ->]].
Qed.

(** ** Specifiers for a union of intervals ([requires-python])

    [VersionSpecifiers::from_release_only_bounds] writes a union of intervals of
    release-only versions as one list of specifiers: the bounding interval, and a
    [!=] specifier for each hole it can express. *)

(** ** Intervals in order *)

(** [lo] to [hi] has a version in it, as every segment of a range has. *)
Definition inhabited (lo hi : Bound) : bool :=
  match lo, hi with
  | Included a, Included b => cmp_leb a b
  | Included a, Excluded b | Excluded a, Included b | Excluded a, Excluded b => cmp_ltb a b
  | Unbounded, _ | _, Unbounded => true
  end.

(** The interval that ends at [hi] lies before the one that starts at [lo]. *)
Definition precedes (hi lo : Bound) : bool :=
  match hi, lo with
  | Included a, Included b => cmp_ltb a b
  | Included a, Excluded b | Excluded a, Included b | Excluded a, Excluded b => cmp_leb a b
  | Unbounded, _ | _, Unbounded => false
  end.

Fixpoint follow (next : Bound) (bounds : list (Bound * Bound)) : bool :=
  match bounds with
  | [] => true
  | (lower, upper) :: rest => precedes next lower && inhabited lower upper && follow upper rest
  end.

(** The segments of a range: inhabited, in order, apart. *)
Definition in_order (bounds : list (Bound * Bound)) : bool :=
  match bounds with
  | [] => true
  | (start, next) :: rest => inhabited start next && follow next rest
  end.

Definition within (v : Version) (b : Bound * Bound) : bool :=
  LowerBound_contains (fst b) v && UpperBound_contains (snd b) v.

Definition interval_release (b : Bound * Bound) : Prop := bound_release (fst b) /\ bound_release (snd b).

(** Every hole between the intervals has a specifier. *)
Fixpoint expressible (next : Bound) (bounds : list (Bound * Bound)) : bool :=
  match bounds with
  | [] => true
  | (lower, upper) :: rest =>
      match hole next lower with Some (Some _) => expressible upper rest | _ => false end
  end.

Section candidate.
Context (v : Version) (Hv : release_is v (release v)) (Hlen : (2 <= length (release v))%nat).

Lemma bound_release_wf b : bound_release b -> bound_wf b.
Proof using. destruct b as [w|w|]; cbn; [by intros [(?&_) _]..|done]. Qed.

(** A version above an inhabited interval is above its start, and no version is in
    two consecutive intervals. *)
Lemma inhabited_above lo hi :
  bound_release lo -> bound_release hi -> inhabited lo hi = true ->
  UpperBound_contains hi v = false -> LowerBound_contains lo v = true.
Proof using Hv.
  intros Hlo%bound_release_wf Hhi%bound_release_wf. destruct Hv as (Hw&_&_).
  destruct lo as [x|x|], hi as [y|y|]; cbn; unfold cmp_leb, cmp_ltb, cmp_geb, cmp_gtb; try done;
    rewrite !cmp_value by done;
    pose proof (cmp_le_trans (value x) (value y) (value v));
    pose proof (cmp_lt_le_trans (value x) (value y) (value v));
    pose proof (cmp_le_lt_trans (value x) (value y) (value v));
    destruct (cmp (value x) (value y)), (cmp (value y) (value v)), (cmp (value x) (value v)); naive_solver.
Qed.

Lemma precedes_disjoint hi lo :
  bound_release hi -> bound_release lo -> precedes hi lo = true ->
  UpperBound_contains hi v = true -> LowerBound_contains lo v = false.
Proof using Hv.
  intros Hhi%bound_release_wf Hlo%bound_release_wf. destruct Hv as (Hw&_&_).
  destruct hi as [x|x|], lo as [y|y|]; cbn; unfold cmp_leb, cmp_ltb, cmp_geb, cmp_gtb; try done;
    rewrite !cmp_value by done;
    pose proof (cmp_le_trans (value x) (value y) (value v));
    pose proof (cmp_lt_le_trans (value x) (value y) (value v));
    pose proof (cmp_le_lt_trans (value x) (value y) (value v));
    destruct (cmp (value x) (value y)), (cmp (value y) (value v)), (cmp (value x) (value v)); naive_solver.
Qed.

(** The specifier of a hole rejects exactly the versions in it. *)
Lemma hole_spec next lower :
  bound_release next -> bound_release lower ->
  exists o, hole next lower = Some o /\ Forall (fun s => spec_ok s = true) (to_iter o None) /\
    forall l, specs_contains (to_iter o None ++ l) v =
      if match o with Some _ => UpperBound_contains next v || LowerBound_contains lower v | None => true end
      then specs_contains l v else Some false.
Proof using All.
  intros Hn Hl.
  destruct next as [x|x|], lower as [y|y|]; cbn [hole]; try (exists None; by repeat constructor);
    destruct Hn as [Hx Hmax], Hl as [Hy _];
    destruct (lower_release x v _ _ Hx Hv) as (_&_&_&->), (lower_release y v _ _ Hy Hv) as (Ei&Ee&_); rewrite ?Ei, ?Ee.
  - destruct (star_of_interval x y v _ _ _ Hx Hy Hv Hmax Hlen) as ([u|]&->&Hu); cbn [mbind option_bind];
      [|exists None; by repeat constructor].
    destruct Hu as (k&Hk&Hz). eexists. split; [done|]. split.
    + constructor; [|done]. unfold spec_ok, is_local. cbn. destruct Hk as (_&_&E). by rewrite value_local, E.
    + intros l. unfold specs_contains, not_equals_star_version. cbn [to_iter app try_forallb].
      rewrite (contains_release u v _ _ Hk Hv), Hz.
      by destruct (compare_release _ (release x)), (compare_release _ (release y)).
  - destruct (Version_eq x y) eqn:E; [|exists None; by repeat constructor].
    eexists. split; [done|]. split; [constructor; [|done]; unfold spec_ok; cbn; by rewrite orb_true_r|].
    intros l. unfold specs_contains, not_equals_version. cbn [to_iter app try_forallb].
    rewrite (contains_release x v _ _ Hx Hv).
    apply Version_eq_cmp in E. rewrite (release_cmp x y _ _ Hx Hy) in E.
    rewrite <- (compare_release_eq_r _ _ (release v) E). by destruct (compare_release (release v) (release x)).
Qed.

(** Walking the holes: the versions below the last bound that no hole rejects are
    those of the intervals; holes without a specifier only add versions. *)
Lemma holes_spec bounds next :
  bound_release next -> Forall interval_release bounds -> follow next bounds = true ->
  exists (specs : list VersionSpecifier) (end_ : Bound) (c : bool), holes next bounds = Some (specs, end_) /\ bound_release end_ /\
    Forall (fun s => spec_ok s = true) specs /\
    (forall l, specs_contains (specs ++ l) v = if c then specs_contains l v else Some false) /\
    (existsb (within v) bounds = true -> UpperBound_contains next v = false) /\
    (UpperBound_contains next v || existsb (within v) bounds = true -> UpperBound_contains end_ v && c = true) /\
    (expressible next bounds = true ->
     UpperBound_contains end_ v && c = UpperBound_contains next v || existsb (within v) bounds).
Proof using All.
  revert next. induction bounds as [|[lower upper] rest IH]; intros next Hn Hb Hf.
  - exists [], next, true. cbn. rewrite orb_false_r, andb_true_r. by repeat constructor.
  - apply Forall_cons in Hb as [[Hlo Hup] Hb]. cbn [fst snd] in *.
    cbn [follow] in Hf. apply andb_prop in Hf as [[Hp Hi]%andb_prop Hf].
    destruct (IH upper Hup Hb Hf) as (specs&end_&c&E&He&Hok&Hc&Hd&Hs&Hx).
    destruct (hole_spec next lower Hn Hlo) as (o&Eo&Hoko&Ho).
    pose proof (inhabited_above lower upper Hlo Hup Hi) as Habove.
    pose proof (precedes_disjoint next lower Hn Hlo Hp) as Hdis.
    set (c0 := match o with
               | Some _ => UpperBound_contains next v || LowerBound_contains lower v
               | None => true end) in Ho.
    exists (to_iter o None ++ specs), end_, (c0 && c). cbn [holes existsb expressible]. rewrite Eo, E.
    split_and!; [done|done|by apply Forall_app| |..].
    + intros l. rewrite <- app_assoc, Ho, Hc. by destruct c0, c.
    + unfold within at 1. cbn [fst snd]. destruct (UpperBound_contains next v), (LowerBound_contains lower v),
        (UpperBound_contains upper v), (existsb (within v) rest); naive_solver.
    + unfold within at 1. cbn [fst snd]. subst c0. destruct o, (UpperBound_contains next v),
        (LowerBound_contains lower v), (UpperBound_contains upper v), (existsb (within v) rest),
        (UpperBound_contains end_ v), c; naive_solver.
    + unfold within at 1. cbn [fst snd]. subst c0. destruct o; [|done]. destruct (UpperBound_contains next v),
        (LowerBound_contains lower v), (UpperBound_contains upper v), (existsb (within v) rest),
        (UpperBound_contains end_ v), c; naive_solver.
Qed.

(** The specifiers of one interval are well-formed. *)
Lemma from_version_unwrap_ok op w s : from_version_unwrap op w = Some s -> spec_ok s = true.
Proof using.
  unfold from_version_unwrap. rewrite from_version_ok.
  destruct (spec_ok (mkSpec op w)) eqn:E; [by intros [= <-]|]. by destruct (_ && _).
Qed.

Lemma default_bounds_ok lo hi l :
  (b1 ← from_lower_bound lo; b2 ← from_upper_bound hi; Some (to_iter b1 b2)) = Some l ->
  Forall (fun s => spec_ok s = true) l.
Proof using.
  assert (forall o, from_lower_bound lo = Some (Some o) -> spec_ok o = true) as H1.
  { destruct lo; cbn [from_lower_bound]; intros o E; try done; apply bind_Some in E as (s&E&[= <-]);
      by eapply from_version_unwrap_ok. }
  assert (forall o, from_upper_bound hi = Some (Some o) -> spec_ok o = true) as H2.
  { destruct hi; cbn [from_upper_bound]; intros o E; try done; apply bind_Some in E as (s&E&[= <-]);
      by eapply from_version_unwrap_ok. }
  intros (b1&E1&(b2&E2&[= <-])%bind_Some)%bind_Some.
  unfold to_iter. apply Forall_app. split; case_match; subst; repeat constructor; auto.
Qed.

Lemma interval_specs_ok lo hi l :
  bound_release lo -> bound_release hi -> spec_from_release_only_bounds (lo, hi) = Some l ->
  Forall (fun s => spec_ok s = true) l.
Proof using All.
  intros Hlo Hhi. unfold spec_from_release_only_bounds.
  destruct lo as [x|x|], hi as [y|y|]; try apply default_bounds_ok.
  - destruct (Version_eq x y); [|apply default_bounds_ok]. intros [= <-].
    constructor; [|done]. unfold spec_ok. cbn. by rewrite orb_true_r.
  - destruct Hlo as [Hx Hmax], Hhi as [Hy _].
    destruct (star_of_interval x y v _ _ _ Hx Hy Hv Hmax Hlen) as ([u|]&->&Hu); cbn [mbind option_bind];
      [|apply default_bounds_ok]. intros [= <-]. destruct Hu as (k&(_&_&E)&_).
    constructor; [|done]. unfold spec_ok, is_local. cbn. by rewrite value_local, E.
Qed.

End candidate.

(** A union of intervals of release-only versions, written as specifiers, never
    loses a version and never panics: every version with at least two segments in one
    of the intervals satisfies the specifiers; and when each hole between consecutive
    intervals is a single version or one minor series, the specifiers match exactly
    the union. *)
Theorem release_union_bounds (bounds : list (Bound * Bound)) (v : Version)
    (Hb : Forall interval_release bounds) (Hne : bounds <> []) (Ho : in_order bounds = true)
    (Hv : release_is v (release v)) (Hlen : (2 <= length (release v))%nat) :
  exists l c, specs_from_release_only_bounds bounds = Some l /\ specs_contains l v = Some c /\
    (existsb (within v) bounds = true -> c = true) /\
    match bounds with
    | (_, next) :: rest => expressible next rest = true -> c = existsb (within v) bounds
    | [] => True
    end.
Proof.
  destruct bounds as [|[start next] rest]; [done|]. apply Forall_cons in Hb as [[Hs Hn] Hb].
  cbn [fst snd] in *. cbn [in_order] in Ho. apply andb_prop in Ho as [Hi Hf].
  destruct (holes_spec v Hv Hlen rest next Hn Hb Hf) as (specs&end_&c&E&He&Hok&Hc&Hd&Hsound&Hx).
  destruct (bounds_exact start end_ v Hs He Hv Hlen) as (l&El&Hl).
  cbn [specs_from_release_only_bounds]. rewrite E, El. cbn [mbind option_bind].
  eexists _, (LowerBound_contains start v && (UpperBound_contains end_ v && c)). split; [done|].
  pose proof (inhabited_above v Hv start next Hs Hn Hi) as Habove. cbn [existsb]. unfold within at 1 3.
  cbn [fst snd]. split_and!.
  - unfold from_unsorted. rewrite <- (specs_contains_perm (specs ++ l)).
    + rewrite Hc, Hl. by destruct c, (LowerBound_contains start v), (UpperBound_contains end_ v).
    + apply Forall_app. eauto using interval_specs_ok.
    + symmetry. apply sort_perm.
  - destruct (LowerBound_contains start v), (UpperBound_contains next v), (existsb (within v) rest),
      (UpperBound_contains end_ v && c); naive_solver.
  - intros Hex. rewrite (Hx Hex). destruct (LowerBound_contains start v), (UpperBound_contains next v),
      (existsb (within v) rest); naive_solver.
Qed.
