(* ===== verification/Names.v ===== *)
(** * Normalized names ([uv-normalize])

    Package, extra and group names: validation and normalization of a byte
    string, the already-normalized fast path, and the derived spellings. A string
    is the list of its UTF-8 bytes. *)

From stdpp Require Import base numbers list strings.
From S2P Require Import Prelude Specifier.

Local Open Scope uv_scope.

(** [InvalidNameError(name)] *)
Record InvalidNameError := { invalid_name : bytes }.

Definition is_punctuation (c : N) : bool := (c =? 45) || (c =? 95) || (c =? 46).

(** [matches!(last, Some(b'-' | b'_' | b'.'))] *)
Definition ends_in_punctuation (last : option N) : bool :=
  match last with
  | Some c => is_punctuation c
  | None => false
  end.

(** ** [lib.rs] *)

(** The loop over the bytes, with [last] the previous byte and [normalized] the
    string built so far. *)
Fixpoint normalize_loop (name : bytes) (last : option N) (normalized rest : bytes)
    : result bytes InvalidNameError :=
  match rest with
  | [] =>
      if ends_in_punctuation last then Err {| invalid_name := name |} else Ok normalized
  | char :: rest =>
      let? normalized :=
        if is_ascii_uppercase char then Ok (normalized ++ [to_ascii_lowercase char])
        else if is_ascii_lowercase char || is_ascii_digit char then Ok (normalized ++ [char])
        else if is_punctuation char then
          match last with
          | None => Err {| invalid_name := name |}
          | Some l => if is_punctuation l then Ok normalized else Ok (normalized ++ [45])
          end
        else Err {| invalid_name := name |} in
      normalize_loop name (Some char) normalized rest
  end.

Definition normalize (name : bytes) : result bytes InvalidNameError :=
  normalize_loop name None [] name.

Fixpoint is_normalized_loop (name : bytes) (last : option N) (rest : bytes)
    : result bool InvalidNameError :=
  match rest with
  | [] => if ends_in_punctuation last then Err {| invalid_name := name |} else Ok true
  | char :: rest =>
      if is_ascii_uppercase char then Ok false
      else if is_ascii_lowercase char || is_ascii_digit char then
        is_normalized_loop name (Some char) rest
      else if (char =? 95) || (char =? 46) then Ok false
      else if char =? 45 then
        match last with
        | None => Err {| invalid_name := name |}
        | Some l => if l =? 45 then Ok false else is_normalized_loop name (Some char) rest
        end
      else Err {| invalid_name := name |}
  end.

Definition is_normalized (name : bytes) : result bool InvalidNameError :=
  is_normalized_loop name None name.

Definition validate_and_normalize_ref (name : bytes) : result bytes InvalidNameError :=
  let? already := is_normalized name in
  if already then Ok name
  else
    let? normalized := normalize name in
    Ok normalized.

(** ** [package_name.rs], [extra_name.rs], [group_name.rs]

    Each type wraps the normalized string. *)

Record PackageName := { package_name : bytes }.
Record ExtraName := { extra_name : bytes }.
Record GroupName := { group_name : bytes }.

Definition PackageName_from_str (name : bytes) : result PackageName InvalidNameError :=
  rmap Build_PackageName (validate_and_normalize_ref name).
Definition PackageName_from_owned (name : bytes) : result PackageName InvalidNameError :=
  rmap Build_PackageName (validate_and_normalize_ref name).
Definition ExtraName_from_str (name : bytes) : result ExtraName InvalidNameError :=
  rmap Build_ExtraName (validate_and_normalize_ref name).
Definition ExtraName_from_owned (name : bytes) : result ExtraName InvalidNameError :=
  rmap Build_ExtraName (validate_and_normalize_ref name).
Definition GroupName_from_str (name : bytes) : result GroupName InvalidNameError :=
  rmap Build_GroupName (validate_and_normalize_ref name).
Definition GroupName_from_owned (name : bytes) : result GroupName InvalidNameError :=
  rmap Build_GroupName (validate_and_normalize_ref name).

(** [s.find(c)], the index of the first occurrence. *)
Fixpoint find_byte (c : N) (s : bytes) : option nat :=
  match s with
  | [] => None
  | x :: s' => if x =? c then Some O else n ← find_byte c s'; Some (S n)
  end.

Definition as_dist_info_name (self : PackageName) : bytes :=
  match find_byte 45 (package_name self) with
  | Some dash_position =>
      take dash_position (package_name self) ++ [95]
      ++ map (fun character => if character =? 45 then 95 else character)
           (drop (dash_position + 1) (package_name self))
  | None => package_name self
  end.

(** ** [dist_info_name.rs] *)

(** A byte that is no letter or punctuation is pushed as the character with its
    value, which is two bytes of UTF-8 above 127. *)
Fixpoint dist_normalize_loop (last : option N) (normalized rest : bytes) : bytes :=
  match rest with
  | [] => normalized
  | char :: rest =>
      if is_ascii_uppercase char then
        dist_normalize_loop (Some char) (normalized ++ [to_ascii_lowercase char]) rest
      else if is_punctuation char then
        if ends_in_punctuation last then dist_normalize_loop last normalized rest
        else dist_normalize_loop (Some char) (normalized ++ [45]) rest
      else dist_normalize_loop (Some char) (normalized ++ utf8_char char) rest
  end.

Definition DistInfoName_normalize (name : bytes) : bytes := dist_normalize_loop None [] name.

Fixpoint dist_is_normalized_loop (last : option N) (rest : bytes) : bool :=
  match rest with
  | [] => true
  | char :: rest =>
      if is_ascii_uppercase char then false
      else if (char =? 95) || (char =? 46) then false
      else if (char =? 45) && match last with Some l => l =? 45 | None => false end then false
      else dist_is_normalized_loop (Some char) rest
  end.

Definition DistInfoName_is_normalized (name : bytes) : bool := dist_is_normalized_loop None name.

Definition DistInfoName_new (name : bytes) : bytes :=
  if DistInfoName_is_normalized name then name else DistInfoName_normalize name.

(** ** [PipGroupName] *)

Record PipGroupName := { pip_path : option bytes; pip_name : GroupName }.

Inductive InvalidPipGroupError :=
| InvalidGroupName (e : InvalidNameError)
| InvalidGroupPath (path : bytes).

(** [s.rsplit_once(c)]: the parts around the last occurrence. *)
Fixpoint rsplit_once (c : N) (s : bytes) : option (bytes * bytes) :=
  match s with
  | [] => None
  | x :: s' =>
      match rsplit_once c s' with
      | Some (a, b) => Some (x :: a, b)
      | None => if x =? c then Some ([], s') else None
      end
  end.

Definition ends_with (suffix s : bytes) : bool :=
  Nat.leb (length suffix) (length s)
  && bool_decide (drop (length s - length suffix) s = suffix).

Definition PipGroupName_from_str (path_and_name : bytes) : result PipGroupName InvalidPipGroupError :=
  match rsplit_once 58 path_and_name with
  | Some (path, name) =>
      if negb (ends_with (bs "pyproject.toml") path) then Err (InvalidGroupPath path)
      else
        let? name := map_err InvalidGroupName (GroupName_from_str name) in
        Ok {| pip_path := Some path; pip_name := name |}
  | None =>
      let? name := map_err InvalidGroupName (GroupName_from_str path_and_name) in
      Ok {| pip_path := None; pip_name := name |}
  end.

Definition PipGroupName_show (self : PipGroupName) : bytes :=
  match pip_path self with
  | Some path => path ++ bs ":" ++ group_name (pip_name self)
  | None => group_name (pip_name self)
  end.

(** ** Properties *)

(** A byte that may occur in a name. *)
Definition name_char (c : N) : bool := is_ascii_alphanumeric c || is_punctuation c.

(** What the code accepts: letters, digits and punctuation, with no punctuation at
    either end. The empty string is allowed. *)
Definition valid_name (name : bytes) : bool :=
  forallb name_char name
  && negb (ends_in_punctuation (head name)) && negb (ends_in_punctuation (last name)).

(** [[A-Z0-9._-]*[A-Z0-9]], ignoring case. *)
Fixpoint packaging_name_end (name : bytes) : bool :=
  match name with
  | [] => false
  | [c] => is_ascii_alphanumeric c
  | c :: rest => name_char c && packaging_name_end rest
  end.

(** The grammar of names in the packaging specification:
    [^([A-Z0-9]|[A-Z0-9][A-Z0-9._-]*[A-Z0-9])$], ignoring case. *)
Definition packaging_name (name : bytes) : bool :=
  match name with
  | [] => false
  | [c] => is_ascii_alphanumeric c
  | c :: rest => is_ascii_alphanumeric c && packaging_name_end rest
  end.

(** The normal form in the packaging specification, [re.sub("[-_.]+", "-", name).lower()]:
    lower case, every run of punctuation one dash. *)
Fixpoint reference_normal (name : bytes) : bytes :=
  match name with
  | [] => []
  | c :: rest =>
      if is_punctuation c then
        if ends_in_punctuation (head rest) then reference_normal rest else 45 :: reference_normal rest
      else to_ascii_lowercase c :: reference_normal rest
  end.
