(* ===== verification/NamesTheorems.v ===== *)
(** * Theorems on names *)

From stdpp Require Import base numbers list strings.
From S2P Require Import Prelude Specifier Names.

Local Open Scope uv_scope.

(** ** The normalization loop *)

(** What the loop still appends, given the previous byte. *)
Fixpoint norm_from (last : option N) (rest : bytes) : bytes :=
  match rest with
  | [] => []
  | c :: rest =>
      if is_punctuation c then
        (if ends_in_punctuation last then [] else [45]) ++ norm_from (Some c) rest
      else to_ascii_lowercase c :: norm_from (Some c) rest
  end.

Lemma norm_from_reference rest :
  (forall l, ends_in_punctuation l = false -> norm_from l rest = reference_normal rest) /\
  (forall l c, ends_in_punctuation l = true -> is_punctuation c = true ->
     45 :: norm_from l rest = reference_normal (c :: rest)).
Proof.
  induction rest as [|d rest [IHa IHb]]; split.
  - done.
  - intros l c Hl Hc. cbn. by rewrite Hc.
  - intros l Hl. cbn [norm_from]. rewrite Hl. destruct (is_punctuation d) eqn:Ed.
    + by apply IHb.
    + cbn [reference_normal]. rewrite Ed. f_equal. by apply IHa.
  - intros l c Hl Hc.
    change (reference_normal (c :: d :: rest)) with
      (if is_punctuation c then
         if is_punctuation d then reference_normal (d :: rest) else 45 :: reference_normal (d :: rest)
       else to_ascii_lowercase c :: reference_normal (d :: rest)).
    rewrite Hc. cbn [norm_from]. rewrite Hl. destruct (is_punctuation d) eqn:Ed.
    + by apply IHb.
    + cbn [reference_normal]. rewrite Ed. do 2 f_equal. by apply IHa.
Qed.

(** The last byte of [rest], or [l]. *)
Definition last_or (l : option N) (rest : bytes) : option N :=
  match last rest with
  | Some c => Some c
  | None => l
  end.

Lemma last_or_cons l c rest : last_or l (c :: rest) = last_or (Some c) rest.
Proof. unfold last_or. destruct rest as [|d rest]; [done|]. rewrite last_cons. by destruct (last (d :: rest)). Qed.

(** Letter, digit, punctuation are disjoint. *)
Lemma char_classes c :
  match is_ascii_uppercase c, is_ascii_lowercase c || is_ascii_digit c, is_punctuation c with
  | true, false, false | false, true, false | false, false, true | false, false, false => True
  | _, _, _ => False
  end.
Proof.
  unfold is_punctuation.
  destruct (is_ascii_uppercase c) eqn:E1, (is_ascii_lowercase c || is_ascii_digit c) eqn:E2,
    ((c =? 45) || (c =? 95) || (c =? 46)) eqn:E3; try done;
  unfold is_ascii_uppercase, is_ascii_lowercase, is_ascii_digit in *;
  rewrite ?orb_true_iff, ?andb_true_iff, ?N.leb_le, ?N.eqb_eq in *; lia.
Qed.

Lemma lower_id c : is_ascii_uppercase c = false -> to_ascii_lowercase c = c.
Proof. intros E. unfold to_ascii_lowercase. by rewrite E. Qed.

Lemma normalize_loop_spec name rest : forall l acc,
  normalize_loop name l acc rest =
  if forallb name_char rest
     && (match l with None => negb (ends_in_punctuation (head rest)) | Some _ => true end)
     && negb (ends_in_punctuation (last_or l rest))
  then Ok (acc ++ norm_from l rest) else Err {| invalid_name := name |}.
Proof.
  induction rest as [|c rest IH]; intros l acc.
  - cbn. rewrite app_nil_r. unfold last_or. cbn. destruct l as [x|]; cbn; by try destruct (is_punctuation x).
  - cbn [normalize_loop forallb norm_from]. rewrite last_or_cons. unfold name_char at 1.
    unfold is_ascii_alphanumeric, is_ascii_alphabetic.
    pose proof (char_classes c) as Hc. pose proof (lower_id c) as Hlow. cbn [head ends_in_punctuation].
    destruct (is_ascii_uppercase c) eqn:Eu, (is_ascii_lowercase c) eqn:El, (is_ascii_digit c) eqn:Ed,
      (is_punctuation c) eqn:Ep; cbn [orb] in Hc; try done; cbn [orb andb rbind negb];
      rewrite ?andb_true_r; rewrite ?IH; cbn [andb]; rewrite ?andb_true_r.
    all: try (rewrite Hlow by done).
    all: rewrite <- ?app_assoc; try done; try (destruct l; rewrite ?andb_true_r; done).
    destruct l as [x|]; cbn [ends_in_punctuation negb rbind].
    + destruct (is_punctuation x); cbn [rbind]; rewrite IH, ?andb_true_r; [done|]. by rewrite <- app_assoc.
    + by rewrite andb_false_r.
Qed.

Lemma normalize_spec name :
  normalize name = if valid_name name then Ok (reference_normal name) else Err {| invalid_name := name |}.
Proof.
  unfold normalize, valid_name. rewrite normalize_loop_spec.
  destruct (norm_from_reference name) as [H _]. rewrite H by done.
  unfold last_or. by destruct (last name).
Qed.

(** ** The fast path *)

(** The previous byte as the fast path can have it. *)
Definition clean (l : option N) : Prop :=
  match l with
  | None => True
  | Some c => is_punctuation c = (c =? 45)
  end.

Lemma is_normalized_loop_spec name rest : forall l acc,
  clean l ->
  match is_normalized_loop name l rest with
  | Ok true => normalize_loop name l acc rest = Ok (acc ++ rest)
  | Ok false => True
  | Err e => normalize_loop name l acc rest = Err e
  end.
Proof.
  induction rest as [|c rest IH]; intros l acc Hl.
  - cbn. destruct (ends_in_punctuation l); [done|]. by rewrite app_nil_r.
  - cbn [is_normalized_loop normalize_loop]. pose proof (char_classes c) as Hc.
    destruct (is_ascii_uppercase c) eqn:Eu; [done|].
    destruct (is_ascii_lowercase c || is_ascii_digit c) eqn:El.
    + cbn [rbind]. specialize (IH (Some c) (acc ++ [c])).
      destruct (is_punctuation c) eqn:Ep; [done|].
      assert (clean (Some c)) as Hcl.
      { cbn. rewrite Ep. symmetry. apply N.eqb_neq. intros ->. done. }
      specialize (IH Hcl). destruct (is_normalized_loop name (Some c) rest) as [[]|]; [|done|done].
      by rewrite IH, <- app_assoc.
    + destruct ((c =? 95) || (c =? 46)) eqn:E1; [done|]. destruct (c =? 45) eqn:E2.
      * apply N.eqb_eq in E2 as ->. cbn [is_punctuation N.eqb orb].
        destruct l as [x|]; [|done]. cbn in Hl. destruct (x =? 45); [done|]. rewrite Hl.
        change (is_punctuation 45) with true. cbn [rbind].
        specialize (IH (Some 45) (acc ++ [45]) eq_refl).
        destruct (is_normalized_loop name (Some 45) rest) as [[]|]; [|done|done].
        by rewrite IH, <- app_assoc.
      * assert (is_punctuation c = false) as ->; [|done]. unfold is_punctuation.
        apply orb_false_iff in E1 as [E1 E1']. by rewrite E1, E1', E2.
Qed.

Lemma is_normalized_spec name :
  match is_normalized name with
  | Ok true => normalize name = Ok name
  | Ok false => True
  | Err e => normalize name = Err e
  end.
Proof. apply (is_normalized_loop_spec name name None []). done. Qed.

Lemma validate_normalize name : validate_and_normalize_ref name = normalize name.
Proof.
  unfold validate_and_normalize_ref. pose proof (is_normalized_spec name) as H.
  destruct (is_normalized name) as [[]|]; cbn; [by rewrite H|by destruct (normalize name)|by rewrite H].
Qed.

(** ** Normal forms *)

(** Lower-case letters and digits with single dashes between them. *)
Fixpoint normal_form (after_dash : bool) (s : bytes) : bool :=
  match s with
  | [] => negb after_dash
  | c :: s' =>
      if c =? 45 then negb after_dash && normal_form true s'
      else (is_ascii_lowercase c || is_ascii_digit c) && normal_form false s'
  end.

Lemma lower_alnum_lower c :
  is_ascii_alphanumeric c = true ->
  is_ascii_lowercase (to_ascii_lowercase c) || is_ascii_digit (to_ascii_lowercase c) = true /\
  (to_ascii_lowercase c =? 45) = false.
Proof.
  unfold is_ascii_alphanumeric, is_ascii_alphabetic, to_ascii_lowercase, is_ascii_uppercase,
    is_ascii_lowercase, is_ascii_digit. intros H.
  destruct ((65 <=? c) && (c <=? 90)) eqn:E.
  - bool_to_prop. rewrite (proj2 (N.leb_le 97 (c + 32))), (proj2 (N.leb_le (c + 32) 122)) by lia.
    split; [done|]. apply N.eqb_neq. lia.
  - rewrite orb_false_r in H. split; [done|]. apply N.eqb_neq. intros ->. done.
Qed.

Lemma reference_normal_form name : forall b,
  forallb name_char name = true ->
  (b = true -> ends_in_punctuation (head name) = false) ->
  ends_in_punctuation (last_or (if b then Some 45 else None) name) = false ->
  normal_form b (reference_normal name) = true.
Proof.
  induction name as [|c name IH]; intros b Hn Hb Hl; [by destruct b|].
  cbn [forallb] in Hn. apply andb_true_iff in Hn as [Hc Hn]. rewrite last_or_cons in Hl.
  cbn [reference_normal]. unfold name_char in Hc. destruct (is_punctuation c) eqn:Ep.
  - destruct b; [cbn in Hb; rewrite Ep in Hb; by specialize (Hb eq_refl)|].
    assert (ends_in_punctuation (last_or (Some 45) name) = false) as Hl'.
    { unfold last_or in *. destruct (last name); [done|]. cbn in *. congruence. }
    destruct (ends_in_punctuation (head name)) eqn:Eh.
    + apply (IH false); [done|done|]. unfold last_or in *. by destruct (last name).
    + cbn. apply (IH true); done.
  - rewrite orb_false_r in Hc. destruct (lower_alnum_lower c Hc) as [H1 H2].
    cbn [normal_form]. rewrite H1, H2. cbn. apply IH; [done|done|].
    unfold last_or in *. by destruct (last name).
Qed.

Lemma normal_form_normalized name s : forall l,
  normal_form (match l with Some 45 => true | _ => false end) s = true ->
  (l = None -> head s <> Some 45) -> clean l ->
  is_normalized_loop name l s = Ok true.
Proof.
  induction s as [|c s IH]; intros l Hs Hh Hl.
  - cbn in *. destruct l as [x|]; [|done]. cbn in *. rewrite Hl.
    destruct (N.eqb_spec x 45) as [->|Hx]; [done|done].
  - cbn [normal_form is_normalized_loop] in *. destruct (c =? 45) eqn:E45.
    + apply N.eqb_eq in E45 as ->. apply andb_true_iff in Hs as [Hd Hs].
      cbn. destruct l as [x|]; [|by specialize (Hh eq_refl)].
      destruct (N.eqb_spec x 45) as [->|Hx]; [done|]. by apply IH.
    + apply andb_true_iff in Hs as [Hc Hs]. pose proof (char_classes c) as Hcl. rewrite Hc in *.
      destruct (is_ascii_uppercase c) eqn:Eu; [done|].
      destruct (is_punctuation c) eqn:Ep; [done|].
      apply IH; [|done|].
      * apply N.eqb_neq in E45. destruct c as [|p]; [done|].
        do 6 (destruct p as [p|p|]; try exact Hs); done.
      * cbn. by rewrite Ep, E45.
Qed.

(** A normalized name: empty, or a normal form that does not start with a dash. *)
Definition normalized (n : bytes) : Prop := n = [] \/ normal_form true n = true.

Lemma reference_normalized name : valid_name name = true -> normalized (reference_normal name).
Proof.
  unfold valid_name. rewrite !andb_true_iff, !negb_true_iff. intros [[Hn Hh] Hl].
  destruct name as [|c name]; [by left|right]. apply reference_normal_form; [done|done|].
  rewrite last_or_cons. unfold last_or. rewrite last_cons in Hl. by destruct (last name).
Qed.

Lemma normal_true_cons s :
  normal_form true s = true ->
  exists c s', s = c :: s' /\ (c =? 45) = false /\ (is_ascii_lowercase c || is_ascii_digit c) = true /\
    normal_form false s' = true.
Proof.
  destruct s as [|c s]; [done|]. cbn. destruct (c =? 45) eqn:E; [done|].
  intros [H1 H2]%andb_true_iff. by exists c, s.
Qed.

Lemma normalized_is_normalized n : normalized n -> is_normalized n = Ok true.
Proof.
  intros [->|H]; [done|]. unfold is_normalized. destruct (normal_true_cons n H) as (c&s&->&Ec&Hc&Hs).
  apply normal_form_normalized; [|intros _ [= ->]; done|done]. cbn. by rewrite Ec, Hc.
Qed.

Lemma normalized_normalize n : normalized n -> normalize n = Ok n.
Proof.
  intros H%normalized_is_normalized. pose proof (is_normalized_spec n) as Hs. by rewrite H in Hs.
Qed.

Lemma validate_normalized name n : validate_and_normalize_ref name = Ok n -> normalized n.
Proof.
  rewrite validate_normalize, normalize_spec. destruct (valid_name name) eqn:E; [|done].
  intros [= <-]. by apply reference_normalized.
Qed.

(** ** Theorems *)

Lemma name_char_end c : name_char c && negb (is_punctuation c) = is_ascii_alphanumeric c.
Proof.
  unfold name_char, is_ascii_alphanumeric, is_ascii_alphabetic. pose proof (char_classes c) as Hc.
  by destruct (is_ascii_uppercase c), (is_ascii_lowercase c), (is_ascii_digit c), (is_punctuation c).
Qed.

Lemma packaging_name_end_spec c rest :
  packaging_name_end (c :: rest) = forallb name_char (c :: rest) && negb (ends_in_punctuation (last (c :: rest))).
Proof.
  revert c. induction rest as [|d rest IH]; intros c; [cbn; by rewrite andb_true_r, name_char_end|].
  change (packaging_name_end (c :: d :: rest)) with (name_char c && packaging_name_end (d :: rest)).
  change (last (c :: d :: rest)) with (last (d :: rest)). rewrite IH. cbn [forallb]. by rewrite !andb_assoc.
Qed.

(** On names that are not empty the code and the packaging specification accept the same. *)
Lemma packaging_name_spec c rest : packaging_name (c :: rest) = valid_name (c :: rest).
Proof.
  unfold valid_name. cbn [head ends_in_punctuation]. destruct rest as [|d rest].
  - cbn. rewrite andb_true_r, name_char_end. rewrite <- name_char_end. by destruct (name_char c), (is_punctuation c).
  - change (packaging_name (c :: d :: rest)) with (is_ascii_alphanumeric c && packaging_name_end (d :: rest)).
    rewrite packaging_name_end_spec, <- name_char_end. change (last (c :: d :: rest)) with (last (d :: rest)).
    change (forallb name_char (c :: d :: rest)) with (name_char c && forallb name_char (d :: rest)).
    by destruct (name_char c), (is_punctuation c), (forallb name_char (d :: rest)), (negb (ends_in_punctuation (last (d :: rest)))).
Qed.

(** C40: normalization follows the packaging specification on every name but the empty
    one: a name that is not empty is accepted exactly when the expression for names
    [^([A-Z0-9]|[A-Z0-9][A-Z0-9._-]*[A-Z0-9])$] matches it, the result is the lower-case
    name with every run of [-_.] replaced by one dash, and the error carries the name,
    whichever of the two code paths is taken. The empty name, which the specification and
    the error message exclude, is accepted as it is. *)
Theorem normalize_reference (name : bytes) :
  validate_and_normalize_ref name
  = match name with
    | [] => Ok []
    | _ :: _ => if packaging_name name then Ok (reference_normal name) else Err {| invalid_name := name |}
    end.
Proof. rewrite validate_normalize, normalize_spec. destruct name as [|c rest]; [done|]. by rewrite packaging_name_spec. Qed.

(** Normalization is idempotent, and a normalized name always takes the fast path. *)
Theorem normalize_idempotent (name n : bytes) (H : validate_and_normalize_ref name = Ok n) :
  is_normalized n = Ok true /\ validate_and_normalize_ref n = Ok n.
Proof.
  apply validate_normalized in H. split; [by apply normalized_is_normalized|].
  rewrite validate_normalize. by apply normalized_normalize.
Qed.

(** The empty string is accepted as a package name, although the error message says
    that names must start and end with a letter or digit. *)
Example empty_name_accepted : PackageName_from_str [] = Ok {| package_name := [] |}.
Proof. reflexivity. Qed.

(** *** Escaping with underscores *)

Definition underscored (s : bytes) : bytes := map (fun c => if c =? 45 then 95 else c) s.

Lemma dist_info_underscored p : as_dist_info_name p = underscored (package_name p).
Proof.
  unfold as_dist_info_name. generalize (package_name p) as s. intros s.
  assert (match find_byte 45 s with
          | Some n => take n s ++ [95] ++ underscored (drop (n + 1) s) = underscored s
          | None => underscored s = s
          end) as H.
  { induction s as [|c s IH]; [done|]. cbn. destruct (c =? 45) eqn:E; [done|].
    destruct (find_byte 45 s) as [n|]; cbn; f_equal; exact IH. }
  by destruct (find_byte 45 s).
Qed.

Lemma lower_digit_facts c :
  is_ascii_lowercase c || is_ascii_digit c = true ->
  is_punctuation c = false /\ name_char c = true /\ to_ascii_lowercase c = c.
Proof.
  intros H. pose proof (char_classes c) as Hc. rewrite H in Hc.
  destruct (is_ascii_uppercase c) eqn:Eu, (is_punctuation c) eqn:Ep; try done.
  split_and!; [done| |by apply lower_id]. unfold name_char, is_ascii_alphanumeric, is_ascii_alphabetic.
  apply orb_true_iff in H as [-> | ->]; by rewrite ?orb_true_r.
Qed.

Lemma underscored_spec s : forall b,
  normal_form b s = true ->
  reference_normal (underscored s) = s /\ forallb name_char (underscored s) = true /\
  ends_in_punctuation (last_or (if b then Some 45 else None) (underscored s)) = false /\
  (b = true -> ends_in_punctuation (head (underscored s)) = false).
Proof.
  induction s as [|c s IH]; intros b Hs; [by destruct b|].
  change (underscored (c :: s)) with ((if c =? 45 then 95 else c) :: underscored s).
  rewrite last_or_cons. cbn [normal_form] in Hs. destruct (c =? 45) eqn:Ec.
  - apply andb_true_iff in Hs as [Hb Hs]. destruct (IH true Hs) as (E1&E2&E3&E4).
    apply N.eqb_eq in Ec as ->. destruct b; [done|]. split_and!; [|done| |done].
    + cbn [reference_normal]. change (is_punctuation 95) with true. cbn iota. by rewrite E4, E1.
    + unfold last_or in *. by destruct (last (underscored s)).
  - apply andb_true_iff in Hs as [Hc Hs]. destruct (IH false Hs) as (E1&E2&E3&_).
    destruct (lower_digit_facts c Hc) as (F1&F2&F3). split_and!.
    + cbn [reference_normal]. by rewrite F1, F3, E1.
    + cbn. by rewrite F2.
    + unfold last_or in *. by destruct (last (underscored s)).
    + intros _. done.
Qed.

Lemma dist_info_parse name p :
  PackageName_from_str name = Ok p -> PackageName_from_str (as_dist_info_name p) = Ok p.
Proof.
  rewrite dist_info_underscored. unfold PackageName_from_str. intros H.
  destruct (validate_and_normalize_ref name) as [n|] eqn:E; [|done].
  injection H as <-. cbn [package_name].
  rewrite validate_normalize, normalize_spec. apply validate_normalized in E as [->|Hn]; [done|].
  destruct (underscored_spec n true Hn) as (E1&E2&E3&E4).
  assert (valid_name (underscored n) = true) as ->; [|by rewrite E1].
  unfold valid_name. rewrite E2, E4 by done. cbn [negb andb].
  unfold last_or in E3. by destruct (last (underscored n)); [rewrite E3|].
Qed.

(** Escaping a package name for a [.dist-info] directory replaces every dash by an
    underscore and loses nothing: parsing the escaped form gives the name back. *)
Theorem dist_info_name_round_trip (name : bytes) (p : PackageName)
    (H : PackageName_from_str name = Ok p) :
  as_dist_info_name p = map (fun c => if c =? 45 then 95 else c) (package_name p) /\
  PackageName_from_str (as_dist_info_name p) = Ok p.
Proof. split; [apply dist_info_underscored|by eapply dist_info_parse]. Qed.

(** *** [.dist-info] names *)

Lemma utf8_ascii c : name_char c = true -> utf8_char c = [c].
Proof.
  unfold name_char, is_punctuation, is_ascii_alphanumeric, is_ascii_alphabetic, is_ascii_lowercase,
    is_ascii_uppercase, is_ascii_digit. rewrite !orb_true_iff, !andb_true_iff, !N.leb_le, !N.eqb_eq.
  intros H. unfold utf8_char. by rewrite (proj2 (N.ltb_lt c 128)) by lia.
Qed.

Lemma dist_normalize_loop_spec rest : forall l acc,
  forallb name_char rest = true -> dist_normalize_loop l acc rest = acc ++ norm_from l rest.
Proof.
  induction rest as [|c rest IH]; intros l acc Hn; [by rewrite app_nil_r|].
  cbn [forallb] in Hn. apply andb_true_iff in Hn as [Hc Hn].
  cbn [dist_normalize_loop norm_from]. pose proof (char_classes c) as Hcl. pose proof (lower_id c) as Hlow.
  destruct (is_ascii_uppercase c), (is_ascii_lowercase c || is_ascii_digit c), (is_punctuation c) eqn:Ep; try done.
  - by rewrite IH, <- app_assoc.
  - by rewrite utf8_ascii, IH, Hlow, <- app_assoc.
  - destruct (ends_in_punctuation l) eqn:El; rewrite IH by done; [|by rewrite <- app_assoc].
    cbn [app]. f_equal.
    assert (forall k m r, ends_in_punctuation k = true -> ends_in_punctuation m = true ->
              norm_from k r = norm_from m r) as Hk.
    { intros k m [|d r] Hk Hm; [done|]. cbn. by rewrite Hk, Hm. }
    by apply Hk.
  - by rewrite utf8_ascii, IH, Hlow, <- app_assoc.
Qed.

Lemma dist_is_normalized_loop_spec rest : forall l,
  forallb name_char rest = true -> clean l -> dist_is_normalized_loop l rest = true ->
  norm_from l rest = rest.
Proof.
  induction rest as [|c rest IH]; intros l Hn Hl Hd; [done|].
  cbn [forallb] in Hn. apply andb_true_iff in Hn as [Hc Hn]. cbn [dist_is_normalized_loop] in Hd.
  pose proof (char_classes c) as Hcl. pose proof (lower_id c) as Hlow.
  destruct (is_ascii_uppercase c); [done|]. destruct ((c =? 95) || (c =? 46)) eqn:E1; [done|].
  assert (is_punctuation c = (c =? 45)) as Ep.
  { unfold is_punctuation. apply orb_false_iff in E1 as [E1 E1']. by rewrite E1, E1', !orb_false_r. }
  cbn [norm_from]. rewrite Ep. destruct (c =? 45) eqn:E45.
  - apply N.eqb_eq in E45 as ->. cbn [andb] in Hd.
    assert (ends_in_punctuation l = false) as ->.
    { destruct l as [x|]; [|done]. cbn in *. rewrite Hl. by destruct (x =? 45). }
    cbn [app]. f_equal. apply IH; [done|done|]. destruct l as [x|]; [by destruct (x =? 45)|done].
  - cbn [andb] in Hd. rewrite Hlow by done. f_equal. apply IH; [done| |done]. cbn. by rewrite E45.
Qed.

(** The lenient normalization of [.dist-info] directory names agrees with the
    strict one on every valid package name, so a directory is found under the
    normalized package name. *)
Theorem dist_info_agrees (name n : bytes) (H : validate_and_normalize_ref name = Ok n) :
  DistInfoName_new name = n.
Proof.
  rewrite validate_normalize, normalize_spec in H. destruct (valid_name name) eqn:E; [|done].
  injection H as <-. unfold valid_name in E. rewrite !andb_true_iff in E. destruct E as [[Hn _] _].
  unfold DistInfoName_new, DistInfoName_normalize, DistInfoName_is_normalized.
  destruct (norm_from_reference name) as [Href _]. rewrite <- (Href None) by done.
  destruct (dist_is_normalized_loop None name) eqn:Ed.
  - symmetry. by apply dist_is_normalized_loop_spec.
  - by rewrite dist_normalize_loop_spec.
Qed.

(** *** [PipGroupName] *)

Lemma rsplit_once_none c s : Forall (fun x => x <> c) s -> rsplit_once c s = None.
Proof.
  induction 1 as [|x s Hx _ IH]; [done|]. cbn. rewrite IH. by rewrite (proj2 (N.eqb_neq _ _) Hx).
Qed.

Lemma rsplit_once_app c a b : Forall (fun x => x <> c) b -> rsplit_once c (a ++ c :: b) = Some (a, b).
Proof.
  intros Hb. induction a as [|x a IH]; cbn; [|by rewrite IH].
  by rewrite rsplit_once_none, N.eqb_refl.
Qed.

Lemma normal_no_colon s b : normal_form b s = true -> Forall (fun x => x <> 58) s.
Proof.
  revert b. induction s as [|c s IH]; intros b Hs; [constructor|]. cbn in Hs.
  destruct (c =? 45) eqn:E; apply andb_true_iff in Hs as [Hc Hs]; (constructor; [|by eapply IH]).
  - apply N.eqb_eq in E. lia.
  - unfold is_ascii_lowercase, is_ascii_digit in Hc. rewrite orb_true_iff, !andb_true_iff, !N.leb_le in Hc. lia.
Qed.

(** A pip group name prints to a string that parses back to it, also when the
    path contains further colons; and with a path, the path ends in
    [pyproject.toml]. *)
Theorem pip_group_round_trip (s : bytes) (g : PipGroupName) (H : PipGroupName_from_str s = Ok g) :
  PipGroupName_from_str (PipGroupName_show g) = Ok g /\
  match pip_path g with Some path => ends_with (bs "pyproject.toml") path = true | None => True end.
Proof.
  assert (forall name gn, GroupName_from_str name = Ok gn ->
    Forall (fun x => x <> 58) (group_name gn) /\ GroupName_from_str (group_name gn) = Ok gn) as Hg.
  { unfold GroupName_from_str. intros name gn Hgn.
    destruct (validate_and_normalize_ref name) as [n|] eqn:E; [|done]. injection Hgn as <-.
    apply validate_normalized in E. cbn [group_name]. rewrite validate_normalize, normalized_normalize by done.
    split; [|done]. destruct E as [->|E]; [constructor|by eapply normal_no_colon]. }
  unfold PipGroupName_from_str in H. destruct (rsplit_once 58 s) as [[path name]|].
  - destruct (ends_with (bs "pyproject.toml") path) eqn:Ee; [|done]. cbn [negb] in H.
    destruct (GroupName_from_str name) as [gn|] eqn:En; [|done]. cbn in H. injection H as <-.
    destruct (Hg name gn En) as [H1 H2]. split; [|done]. unfold PipGroupName_show, PipGroupName_from_str.
    cbn [pip_path pip_name]. change (bs ":") with [58]. cbn [app]. rewrite rsplit_once_app by done.
    by rewrite Ee, H2.
  - destruct (GroupName_from_str s) as [gn|] eqn:En; [|done]. cbn in H. injection H as <-.
    destruct (Hg s gn En) as [H1 H2]. split; [|done]. unfold PipGroupName_show, PipGroupName_from_str.
    cbn [pip_path pip_name]. by rewrite rsplit_once_none, H2.
Qed.

