(* ===== verification/CacheKey.v ===== *)
(** * Stable cache keys ([uv-cache-key/src/cache_key.rs])

    A value feeds a sequence of primitive writes to a hasher. The hash function
    belongs to the [seahash] crate; the state of the hasher is modelled as the
    writes it has received, so that what distinguishes two keys is visible. The
    keys of versions ([uv-pep440]) are built from these. *)

From stdpp Require Import base numbers list strings.
From S2P Require Import Prelude VersionTypes VersionSmall Version.

(** ** [CacheKeyHasher] *)

Inductive int_kind := U8 | U16 | U32 | U64 | U128 | Usize | I8 | I16 | I32 | I64 | I128 | Isize.

Inductive Write :=
| WriteInt (kind : int_kind) (value : Z)
| WriteBytes (value : bytes).

Definition CacheKeyHasher := list Write.

Definition CacheKeyHasher_new : CacheKeyHasher := [].

(** [write_u8] and so on, and [write]. *)
Definition write_int (k : int_kind) (i : Z) (self : CacheKeyHasher) : CacheKeyHasher :=
  self ++ [WriteInt k i].
Definition write (value : bytes) (self : CacheKeyHasher) : CacheKeyHasher := self ++ [WriteBytes value].

(** ** The trait and its implementations *)

Class CacheKey (A : Type) := cache_key : A -> CacheKeyHasher -> CacheKeyHasher.

(** [cache_key_slice]: every piece in turn. *)
Definition cache_key_slice {A} `{CacheKey A} (data : list A) (state : CacheKeyHasher) : CacheKeyHasher :=
  foldl (fun state piece => cache_key piece state) state data.

(** An integer of a given width. *)
Record int (k : int_kind) := Int { int_value : Z }.
Arguments Int {k} int_value.
Arguments int_value {k} _.

#[export] Instance int_cache_key {k} : CacheKey (int k) := fun i => write_int k (int_value i).
#[export] Instance bool_cache_key : CacheKey bool := fun b => write_int U8 (if b then 1 else 0)%Z.

(** A character, by its code point. *)
Record char := Char { code_point : N }.
#[export] Instance char_cache_key : CacheKey char := fun c => write_int U32 (Z.of_N (code_point c)).

(** [str] and [String] through [Hash]: the bytes, then [0xff]. *)
Record str := Str { str_bytes : bytes }.
#[export] Instance str_cache_key : CacheKey str := fun s state => write_int U8 255%Z (write (str_bytes s) state).

#[export] Instance unit_cache_key : CacheKey unit := fun _ state => state.
#[export] Instance pair_cache_key {A B} `{CacheKey A, CacheKey B} : CacheKey (A * B) :=
  fun '(a, b) state => cache_key b (cache_key a state).

#[export] Instance option_cache_key {A} `{CacheKey A} : CacheKey (option A) :=
  fun o state =>
    match o with
    | None => write_int Usize 0%Z state
    | Some value => cache_key value (write_int Usize 1%Z state)
    end.

(** Slices, vectors and ordered sets: the length, then the elements. *)
#[export] Instance list_cache_key {A} `{CacheKey A} : CacheKey (list A) :=
  fun l state => cache_key_slice l (write_int Usize (Z.of_nat (length l)) state).

(** An ordered map, as its entries in key order. *)
Record BTreeMap (K V : Type) := Entries { entries : list (K * V) }.
Arguments Entries {K V} entries.
Arguments entries {K V} _.

#[export] Instance map_cache_key {K V} `{CacheKey K, CacheKey V} : CacheKey (BTreeMap K V) :=
  fun m state =>
    foldl (fun state '(key, value) => cache_key value (cache_key key state))
      (write_int Usize (Z.of_nat (length (entries m))) state) (entries m).

(** ** The keys of [uv-pep440/src/version.rs] *)

Definition key_u8 (n : Z) : CacheKeyHasher -> CacheKeyHasher := cache_key (Int n : int U8).
Definition key_u64 (n : N) : CacheKeyHasher -> CacheKeyHasher := cache_key (Int (Z.of_N n) : int U64).
Definition key_usize (n : nat) : CacheKeyHasher -> CacheKeyHasher := cache_key (Int (Z.of_nat n) : int Usize).

#[export] Instance LocalSegment_cache_key : CacheKey LocalSegment :=
  fun self state =>
    match self with
    | LSString string => cache_key (Str string) (key_u8 0 state)
    | LSNumber number => key_u64 number (key_u8 1 state)
    end.

#[export] Instance LocalVersion_cache_key : CacheKey LocalVersion :=
  fun self state =>
    match self with
    | Segments segments =>
        foldl (fun state segment => cache_key segment state)
          (key_usize (length segments) (key_u8 0 state)) segments
    | LocalMax => key_u8 1 state
    end.

#[export] Instance Version_cache_key : CacheKey Version :=
  fun self state =>
    let state := key_u64 (epoch self) state in
    let state := key_usize (length (release self)) state in
    let state := foldl (fun state segment => key_u64 segment state) state (release self) in
    let state :=
      match pre self with
      | Some pre =>
          key_u64 (number pre)
            (key_u8 (match kind pre with Alpha => 0 | Beta => 1 | Rc => 2 end) (key_u8 1 state))
      | None => key_u8 0 state
      end in
    let state :=
      match post self with
      | Some post => key_u64 post (key_u8 1 state)
      | None => key_u8 0 state
      end in
    let state :=
      match dev self with
      | Some dev => key_u64 dev (key_u8 1 state)
      | None => key_u8 0 state
      end in
    cache_key (local self) state.

(** ** Keys are uniquely decodable *)

(** [k] appends a code, and codes are prefix-free: the value and what follows can be
    read back from the writes. *)
Class PrefixFree {A} (k : A -> CacheKeyHasher -> CacheKeyHasher) : Prop := {
  code_of : exists code : A -> list Write,
    (forall x state, k x state = state ++ code x) /\
    (forall x y s t, code x ++ s = code y ++ t -> x = y /\ s = t)
}.

(** Running [k] and then [m]. *)
Definition seq_key {A B} (k : A -> CacheKeyHasher -> CacheKeyHasher)
    (m : B -> CacheKeyHasher -> CacheKeyHasher) : A * B -> CacheKeyHasher -> CacheKeyHasher :=
  fun '(a, b) state => m b (k a state).

#[export] Instance seq_prefix_free {A B} (k : A -> CacheKeyHasher -> CacheKeyHasher)
    (m : B -> CacheKeyHasher -> CacheKeyHasher) `{!PrefixFree k, !PrefixFree m} : PrefixFree (seq_key k m).
Proof.
  destruct (code_of (k := k)) as (ck&Ek&Pk), (code_of (k := m)) as (cm&Em&Pm).
  split. exists (fun '(a, b) => ck a ++ cm b). split.
  - intros [a b] state. cbn. by rewrite Em, Ek, app_assoc.
  - intros [a b] [c d] s t. rewrite <- !app_assoc. intros [-> E]%Pk. by apply Pm in E as [-> ->].
Qed.

(** A key is prefix-free when it is the image of one under an injection. *)
Lemma prefix_free_image {A B} (f : A -> B) (k : A -> CacheKeyHasher -> CacheKeyHasher)
    (m : B -> CacheKeyHasher -> CacheKeyHasher) :
  PrefixFree m -> (forall x y, f x = f y -> x = y) -> (forall x state, k x state = m (f x) state) ->
  PrefixFree k.
Proof.
  intros Hm Hf Hk. destruct (code_of (k := m)) as (cm&Em&Pm). split. exists (fun x => cm (f x)). split.
  - intros x state. by rewrite Hk, Em.
  - intros x y s t [E ->]%Pm. by apply Hf in E.
Qed.

#[export] Instance write_prefix_free {A} (f : A -> Write) :
  (forall x y, f x = f y -> x = y) -> PrefixFree (fun x state => state ++ [f x]).
Proof.
  intros Hf. split. exists (fun x => [f x]). split; [done|]. intros x y s t [= E ->]. by apply Hf in E.
Qed.

Lemma int_prefix_free k : PrefixFree (cache_key (A := int k)).
Proof. apply (write_prefix_free (fun i => WriteInt k (int_value i))). intros [x] [y] [= ->]. done. Qed.

#[export] Instance u64_prefix_free : PrefixFree key_u64.
Proof. apply (write_prefix_free (fun n => WriteInt U64 (Z.of_N n))). intros x y [= E]. lia. Qed.

#[export] Instance usize_prefix_free : PrefixFree key_usize.
Proof. apply (write_prefix_free (fun n => WriteInt Usize (Z.of_nat n))). intros x y [= E]. lia. Qed.

#[export] Instance u8_prefix_free : PrefixFree key_u8.
Proof. apply (write_prefix_free (fun n => WriteInt U8 n)). by intros x y [= ->]. Qed.

#[export] Instance str_prefix_free : PrefixFree (cache_key (A := str)).
Proof.
  split. exists (fun s => [WriteBytes (str_bytes s); WriteInt U8 255]). split.
  - intros x state. unfold cache_key, str_cache_key, write_int, write. by rewrite <- app_assoc.
  - intros [x] [y] s t [= -> ->]. done.
Qed.

(** A list behind its length. *)
Definition counted {A} (k : A -> CacheKeyHasher -> CacheKeyHasher) (l : list A) (state : CacheKeyHasher)
    : CacheKeyHasher :=
  foldl (fun state x => k x state) (key_usize (length l) state) l.

#[export] Instance counted_prefix_free {A} (k : A -> CacheKeyHasher -> CacheKeyHasher) `{!PrefixFree k} :
  PrefixFree (counted k).
Proof.
  destruct (code_of (k := k)) as (ck&Ek&Pk), (code_of (k := key_usize)) as (cn&En&Pn).
  split. exists (fun l => cn (length l) ++ concat (map ck l)). split.
  - intros l state. unfold counted. rewrite En, app_assoc. generalize (state ++ cn (length l)). clear state.
    induction l as [|x l IH]; intros state; cbn; [by rewrite app_nil_r|]. by rewrite IH, Ek, app_assoc.
  - intros x y s t. rewrite <- !app_assoc. intros [Hl E]%Pn. revert y Hl s t E.
    induction x as [|a x IH]; intros [|b y] Hl s t E; try done. cbn in E. rewrite <- !app_assoc in E.
    apply Pk in E as [-> E]. injection Hl as Hl. by destruct (IH y Hl s t E) as [-> ->].
Qed.

(** A tag that says which of two keys follows. *)
Definition tagged {A B} (k : A -> CacheKeyHasher -> CacheKeyHasher)
    (m : B -> CacheKeyHasher -> CacheKeyHasher) (x : A + B) (state : CacheKeyHasher) : CacheKeyHasher :=
  match x with
  | inl a => k a (key_u8 0 state)
  | inr b => m b (key_u8 1 state)
  end.

#[export] Instance tagged_prefix_free {A B} (k : A -> CacheKeyHasher -> CacheKeyHasher)
    (m : B -> CacheKeyHasher -> CacheKeyHasher) `{!PrefixFree k, !PrefixFree m} : PrefixFree (tagged k m).
Proof.
  destruct (code_of (k := k)) as (ck&Ek&Pk), (code_of (k := m)) as (cm&Em&Pm).
  split. exists (fun x => match x with inl a => WriteInt U8 0 :: ck a | inr b => WriteInt U8 1 :: cm b end). split.
  - intros [a|b] state; cbn [tagged]; rewrite ?Ek, ?Em;
      [change (key_u8 0 state) with (state ++ [WriteInt U8 0])
      |change (key_u8 1 state) with (state ++ [WriteInt U8 1])]; by rewrite <- app_assoc.
  - intros [a|b] [c|d] s t E; cbn in E; try done; injection E as E.
    + by apply Pk in E as [-> ->].
    + by apply Pm in E as [-> ->].
Qed.

#[export] Instance empty_prefix_free : PrefixFree (fun (_ : unit) (state : CacheKeyHasher) => state).
Proof. split. exists (fun _ => []). split; [intros [] ?; by rewrite app_nil_r|]. intros [] [] s t E. by split. Qed.

#[export] Instance segment_prefix_free : PrefixFree (cache_key (A := LocalSegment)).
Proof.
  apply (prefix_free_image
    (fun x => match x with LSString s => inl (Str s) | LSNumber n => inr n end)
    _ (tagged (cache_key (A := str)) key_u64) _).
  - intros [] []; naive_solver.
  - by intros [] ?.
Qed.

#[export] Instance local_prefix_free : PrefixFree (cache_key (A := LocalVersion)).
Proof.
  apply (prefix_free_image (fun x => match x with Segments l => inl l | LocalMax => inr tt end)
    _ (tagged (counted (cache_key (A := LocalSegment))) (fun (_ : unit) state => state)) _).
  - intros [] []; naive_solver.
  - by intros [] ?.
Qed.

(** An optional number, as versions write it. *)
Definition option_number (o : option N) (state : CacheKeyHasher) : CacheKeyHasher :=
  match o with
  | Some n => key_u64 n (key_u8 1 state)
  | None => key_u8 0 state
  end.

#[export] Instance option_number_prefix_free : PrefixFree option_number.
Proof.
  apply (prefix_free_image (fun o => match o with Some n => inr n | None => inl tt end)
    _ (tagged (fun (_ : unit) state => state) key_u64) _).
  - intros [] []; naive_solver.
  - by intros [] ?.
Qed.

Definition option_pre (o : option Prerelease) (state : CacheKeyHasher) : CacheKeyHasher :=
  match o with
  | Some pre =>
      key_u64 (number pre)
        (key_u8 (match kind pre with Alpha => 0 | Beta => 1 | Rc => 2 end) (key_u8 1 state))
  | None => key_u8 0 state
  end.

#[export] Instance option_pre_prefix_free : PrefixFree option_pre.
Proof.
  apply (prefix_free_image
    (fun o => match o with
              | Some p => inr (match kind p with Alpha => 0%Z | Beta => 1%Z | Rc => 2%Z end, number p)
              | None => inl tt end)
    _ (tagged (fun (_ : unit) state => state) (seq_key key_u8 key_u64)) _).
  - intros [[[] ?]|] [[[] ?]|]; naive_solver.
  - by intros [[[] ?]|] ?.
Qed.

(** Everything that goes into the key of a version. *)
Definition key_components (v : Version) :=
  (epoch v, (release v, (pre v, (post v, (dev v, local v))))).

Lemma version_key_components v state :
  cache_key v state
  = seq_key key_u64 (seq_key (counted key_u64) (seq_key option_pre
      (seq_key option_number (seq_key option_number (cache_key (A := LocalVersion))))))
      (key_components v) state.
Proof. done. Qed.

(** The cache key of a version identifies it: if two versions, in whatever
    representation, feed the hasher the same writes, even followed by further
    writes, then epoch, release (with its trailing zeros), pre, post, dev and local
    segments are the same, and so is what follows. *)
Theorem version_cache_key_injective (v w : Version) (state s t : CacheKeyHasher)
    (H : cache_key v state ++ s = cache_key w state ++ t) :
  epoch v = epoch w /\ release v = release w /\ pre v = pre w /\ post v = post w /\
  dev v = dev w /\ local v = local w /\ s = t.
Proof.
  destruct (code_of (k := seq_key key_u64 (seq_key (counted key_u64) (seq_key option_pre
      (seq_key option_number (seq_key option_number (cache_key (A := LocalVersion)))))))) as (code&E&P).
  rewrite !version_key_components, !E, <- !app_assoc in H. apply app_inv_head in H.
  apply P in H as [H ->]. unfold key_components in H. naive_solver.
Qed.

(** ** Composite keys *)

Section composite.
Context {A B : Type} `{CacheKey A, CacheKey B}
  `{!PrefixFree (cache_key (A := A)), !PrefixFree (cache_key (A := B))}.

Lemma pair_prefix_free : PrefixFree (cache_key (A := A * B)).
Proof using All.
  apply (prefix_free_image id _ (seq_key cache_key cache_key) _); [done|]. by intros [a b] state.
Qed.

Lemma list_prefix_free : PrefixFree (cache_key (A := list A)).
Proof using All. apply (prefix_free_image id _ (counted cache_key) _); done. Qed.

Lemma option_prefix_free : PrefixFree (cache_key (A := option A)).
Proof using All.
  destruct (code_of (k := cache_key (A := A))) as (ck&Ek&Pk).
  split. exists (fun o => match o with None => [WriteInt Usize 0] | Some x => WriteInt Usize 1 :: ck x end). split.
  - intros [x|] state; [|done]. change (cache_key (Some x) state) with (cache_key x (state ++ [WriteInt Usize 1])).
    by rewrite Ek, <- app_assoc.
  - intros [x|] [y|] s t E; cbn in E; try done; injection E as E; [|done]. by apply Pk in E as [-> ->].
Qed.

Lemma map_prefix_free : PrefixFree (cache_key (A := BTreeMap A B)).
Proof using All.
  apply (prefix_free_image entries _ (counted (seq_key cache_key cache_key)) _).
  - intros [x] [y]. cbn. by intros ->.
  - intros [l] state. unfold cache_key at 1, map_cache_key, counted. cbn [entries].
    change (key_usize (length l) state) with (write_int Usize (Z.of_nat (length l)) state).
    generalize (write_int Usize (Z.of_nat (length l)) state). clear state.
    induction l as [|[a b] l IH]; intros state; cbn; [done|]. apply IH.
Qed.
End composite.

(** Composite values have unambiguous keys: if the keys of the parts are uniquely
    decodable, so are those of pairs, options, slices and ordered maps, since lengths
    and tags are written first. *)
Theorem composite_keys_prefix_free {A B : Type} `{CacheKey A, CacheKey B}
    (HA : PrefixFree (cache_key (A := A))) (HB : PrefixFree (cache_key (A := B))) :
  PrefixFree (cache_key (A := A * B)) /\ PrefixFree (cache_key (A := option A)) /\
  PrefixFree (cache_key (A := list A)) /\ PrefixFree (cache_key (A := BTreeMap A B)).
Proof.
  split_and!; [apply pair_prefix_free|apply option_prefix_free|apply (list_prefix_free (B := B))|apply map_prefix_free].
Qed.

