(* ===== verification/Text.v ===== *)
(** * Methods of [str] used by tags and file names

    [strip_prefix], [strip_suffix], [split_once], [str::parse] for unsigned
    integers, and how they undo concatenation; and the interface of the byte
    search of the [memchr] crate. *)

From stdpp Require Import base numbers list strings.
From S2P Require Import Prelude VersionTypes VersionSmall Version VersionParser ParserFacts.

(** ** Definitions *)

Fixpoint strip_prefix (prefix s : bytes) : option bytes :=
  match prefix, s with
  | [], _ => Some s
  | p :: prefix, c :: s => if c =? p then strip_prefix prefix s else None
  | _ :: _, [] => None
  end.

Definition strip_suffix (suffix s : bytes) : option bytes :=
  if Nat.leb (length suffix) (length s)
     && bool_decide (drop (length s - length suffix) s = suffix)
  then Some (take (length s - length suffix) s) else None.

(** The index of the first occurrence of a byte. *)
Fixpoint first_index (c : N) (s : bytes) : option nat :=
  match s with
  | [] => None
  | x :: s' => if x =? c then Some O else n ← first_index c s'; Some (S n)
  end.

(** All the indices of a byte, counted from [i], in ascending order. *)
Fixpoint all_indices (c : N) (i : nat) (s : bytes) : list nat :=
  match s with
  | [] => []
  | x :: s => if x =? c then i :: all_indices c (S i) s else all_indices c (S i) s
  end.

(** The [memchr] crate: [memchr::memchr] returns the index of the first occurrence
    of a byte, and [memchr::Memchr] is the iterator over all of them. *)
Class Memchr := {
  memchr : N -> bytes -> option nat;
  Memchr_new : N -> bytes -> list nat
}.

Class MemchrLaws (M : Memchr) : Prop := {
  memchr_first c s : memchr c s = first_index c s;
  Memchr_all c s : Memchr_new c s = all_indices c 0 s
}.

(** An implementation, byte by byte. *)
Definition memchr_scan : Memchr := {| memchr := first_index; Memchr_new c s := all_indices c 0 s |}.

#[export] Instance memchr_scan_laws : MemchrLaws memchr_scan.
Proof. by split. Qed.

(** The parts around the first occurrence. *)
Definition split_once (c : N) (s : bytes) : option (bytes * bytes) :=
  i ← first_index c s; Some (take i s, drop (S i) s).

(** [s.get(1..)] after a one-byte first character. *)
Definition get_rest (s : bytes) : option bytes :=
  match s with [] => None | _ :: rest => Some rest end.

(** [s.parse::<uN>().ok()]: an optional plus sign, then at least one digit, below
    the maximum of the type. *)
Fixpoint parse_digits (max acc : N) (s : bytes) : option N :=
  match s with
  | [] => Some acc
  | c :: s' =>
      if is_ascii_digit c then
        m ← checked_mul max acc 10; a ← checked_add max m (c - 48); parse_digits max a s'
      else None
  end.

Definition parse_unsigned (max : N) (s : bytes) : option N :=
  match s with
  | [] => None
  | [c] => if (c =? 43) || (c =? 45) then None else parse_digits max 0 s
  | c :: rest => if c =? 43 then parse_digits max 0 rest else parse_digits max 0 s
  end.

(** ** Lemmas *)

Lemma strip_prefix_app p s : strip_prefix p (p ++ s) = Some s.
Proof. induction p as [|x p IH]; [by destruct s|]. cbn. by rewrite N.eqb_refl. Qed.

Lemma strip_prefix_some p s t : strip_prefix p s = Some t -> s = p ++ t.
Proof.
  revert s. induction p as [|x p IH]; intros s; [by destruct s; intros [= <-]|].
  destruct s as [|c s]; [done|]. cbn. destruct (N.eqb_spec c x) as [->|]; [|done].
  intros H. by rewrite <- (IH _ H).
Qed.

Lemma strip_suffix_app s p : strip_suffix p (s ++ p) = Some s.
Proof.
  unfold strip_suffix. rewrite length_app.
  replace (length s + length p - length p)%nat with (length s) by lia.
  rewrite drop_app_length, take_app_length, bool_decide_eq_true_2 by done.
  by rewrite (proj2 (Nat.leb_le _ _)) by lia.
Qed.

Lemma strip_suffix_some p s t : strip_suffix p s = Some t -> s = t ++ p.
Proof.
  unfold strip_suffix. destruct (Nat.leb _ _); [|done]. case_bool_decide as E; [|done].
  intros [= <-]. rewrite <- E at 2. by rewrite take_drop.
Qed.

(** No byte of [s] is [c]. *)
Abbreviation free c s := (Forall (fun x => x <> c) s).

Lemma first_index_app c s t : free c s -> first_index c (s ++ c :: t) = Some (length s).
Proof.
  induction 1 as [|x s Hx _ IH]; cbn; [by rewrite N.eqb_refl|].
  rewrite (proj2 (N.eqb_neq x c) Hx), IH. done.
Qed.

Lemma first_index_free c s : first_index c s = None <-> free c s.
Proof.
  induction s as [|x s IH]; cbn; [done|]. destruct (N.eqb_spec x c) as [->|Hx].
  - split; [done|]. intros H. by inversion H.
  - rewrite Forall_cons. destruct (first_index c s); cbn; [|naive_solver].
    split; [done|]. intros [_ H]. by apply IH in H.
Qed.

Lemma first_index_some c s i : first_index c s = Some i -> free c (take i s) /\ s = take i s ++ c :: drop (S i) s.
Proof.
  revert i. induction s as [|x s IH]; intros i; cbn; [done|]. destruct (N.eqb_spec x c) as [->|Hx].
  - intros [= <-]. done.
  - intros (j&E&[= <-])%bind_Some. destruct (IH j E) as [Hf Es]. cbn [take drop].
    split; [by constructor|]. cbn [app]. by f_equal.
Qed.

Section memchr.
Context `{HM : MemchrLaws}.

Lemma memchr_app c s t : free c s -> memchr c (s ++ c :: t) = Some (length s).
Proof. rewrite memchr_first. apply first_index_app. Qed.

Lemma memchr_free c s : memchr c s = None <-> free c s.
Proof. rewrite memchr_first. apply first_index_free. Qed.
End memchr.

Lemma split_once_app c s t : free c s -> split_once c (s ++ c :: t) = Some (s, t).
Proof.
  intros H. unfold split_once. rewrite first_index_app by done. cbn [mbind option_bind].
  rewrite take_app_length. change (c :: t) with ([c] ++ t). rewrite app_assoc, drop_app_length'; [done|].
  rewrite length_app. cbn. lia.
Qed.

Lemma split_once_some c s a b : split_once c s = Some (a, b) -> free c a /\ s = a ++ c :: b.
Proof. unfold split_once. intros (i&E&[= <- <-])%bind_Some. by apply first_index_some. Qed.

Lemma parse_digits_ok max ds a :
  all_digits ds -> digits_val a ds <= max -> parse_digits max a ds = Some (digits_val a ds).
Proof.
  intros Hd. revert a. induction Hd as [|d ds Hx _ IH]; intros a Ha; [done|].
  rewrite digits_val_cons in *. cbn [parse_digits].
  pose proof (digits_val_ge ds (a * 10 + (d - 48))).
  assert (is_ascii_digit d = true) as -> by (unfold is_ascii_digit; apply andb_true_intro; split; apply N.leb_le; lia).
  unfold checked_mul, checked_add. rewrite (proj2 (N.leb_le _ _)) by lia. cbn [mbind option_bind].
  rewrite (proj2 (N.leb_le _ _)) by lia. cbn [mbind option_bind]. by apply IH.
Qed.

Lemma parse_digits_bound max ds a n :
  a <= max -> parse_digits max a ds = Some n -> n <= max.
Proof.
  revert a. induction ds as [|d ds IH]; intros a Ha; cbn; [by intros [= <-]|].
  destruct (is_ascii_digit d); [|done]. unfold checked_mul, checked_add.
  destruct (_ <=? _); cbn; [|done]. destruct (_ <=? _) eqn:E; cbn; [|done].
  apply IH. by apply N.leb_le.
Qed.

Lemma parse_unsigned_bound max s n : parse_unsigned max s = Some n -> n <= max.
Proof.
  unfold parse_unsigned. destruct s as [|c [|d s]]; [done| |]; case_match; try done;
    apply parse_digits_bound; lia.
Qed.

(** Display and parse of a number. *)
Lemma parse_unsigned_show max n :
  n <= max -> max <= u64_MAX -> parse_unsigned max (show_u64 n) = Some n.
Proof.
  intros Hn Hm. pose proof (show_u64_val n ltac:(lia)) as Ev. pose proof (show_u64_digits n) as Hd.
  pose proof (parse_digits_ok max (show_u64 n) 0 Hd ltac:(by rewrite Ev)) as E. rewrite Ev in E.
  pose proof (show_u64_nonempty n). unfold parse_unsigned. destruct (show_u64 n) as [|c ds]; [done|].
  inversion Hd; subst. destruct ds; rewrite (proj2 (N.eqb_neq c 43)) by lia; [|done].
  by rewrite (proj2 (N.eqb_neq c 45)) by lia.
Qed.

Lemma digits_free c ds : all_digits ds -> (c < 48 \/ 57 < c) -> free c ds.
Proof. intros Hd Hc. eapply Forall_impl; [done|]. cbn. lia. Qed.

(** One digit followed by a number: the [39] of [cp39]. *)
Lemma show_digit n : n < 10 -> show_u64 n = [48 + n].
Proof.
  intros Hn. assert (forallb (fun d => bool_decide (show_u64 d = [48 + d])) (map N.of_nat (seq 0 10)) = true) as H
    by reflexivity.
  rewrite forallb_forall in H. eapply bool_decide_eq_true, H, in_map_iff.
  exists (N.to_nat n). rewrite in_seq. lia.
Qed.
