(* ===== verification/PlatformTags.v ===== *)
(** * Wheel tags ([uv-platform-tags])

    The language, ABI and platform tags of a wheel with their [Display] and
    [FromStr], one definition per [impl]. A [u8] or [u16] number is an [N]; the
    parsers reject what does not fit. *)

From stdpp Require Import base numbers list strings.
From S2P Require Import Prelude Text.

#[local] Open Scope uv_scope.

(** Comparison with a literal, as in [match s { "any" => .. }]. *)
Definition is_str (s : bytes) (literal : string) : bool := bool_decide (s = bs literal).

(** ** Architectures ([platform.rs]) *)

Inductive Arch :=
| Aarch64 | Armv5TEL | Armv6L | Armv7L | Powerpc64Le | Powerpc64 | Powerpc | X86 | X86_64
| S390X | LoongArch64 | Riscv64 | Wasm32.

#[export] Instance Arch_eq_dec : EqDecision Arch.
Proof. solve_decision. Defined.

Definition Arch_name (self : Arch) : bytes :=
  bs match self with
     | Aarch64 => "aarch64" | Armv5TEL => "armv5tel" | Armv6L => "armv6l" | Armv7L => "armv7l"
     | Powerpc64Le => "ppc64le" | Powerpc64 => "ppc64" | Powerpc => "ppc" | X86 => "i686"
     | X86_64 => "x86_64" | S390X => "s390x" | LoongArch64 => "loongarch64" | Riscv64 => "riscv64"
     | Wasm32 => "wasm32"
     end.

(** [None] is the error; its text is dropped by every caller. *)
Definition Arch_from_str (s : bytes) : option Arch :=
  if is_str s "aarch64" then Some Aarch64
  else if is_str s "armv5tel" then Some Armv5TEL
  else if is_str s "armv6l" then Some Armv6L
  else if is_str s "armv7l" then Some Armv7L
  else if is_str s "ppc64le" then Some Powerpc64Le
  else if is_str s "ppc64" then Some Powerpc64
  else if is_str s "ppc" then Some Powerpc
  else if is_str s "i686" then Some X86
  else if is_str s "x86_64" then Some X86_64
  else if is_str s "s390x" then Some S390X
  else if is_str s "loongarch64" then Some LoongArch64
  else if is_str s "riscv64" then Some Riscv64
  else None.

Definition get_minimum_manylinux_minor (self : Arch) : option N :=
  match self with
  | Aarch64 | Armv7L | Powerpc64 | Powerpc64Le | S390X => Some 17
  | X86 | X86_64 => Some 5
  | Riscv64 => Some 31
  | LoongArch64 => Some 36
  | Powerpc | Armv5TEL | Armv6L | Wasm32 => None
  end.

Definition machine (self : Arch) : bytes :=
  bs match self with
     | Aarch64 => "arm64"
     | Armv5TEL | Armv6L | Armv7L => "arm"
     | Powerpc | Powerpc64Le | Powerpc64 => "powerpc"
     | X86 => "i386"
     | X86_64 => "amd64"
     | Riscv64 => "riscv"
     | Wasm32 => "wasm32"
     | S390X => "s390x"
     | LoongArch64 => "loongarch64"
     end.

(** ** Binary formats, Android ABIs and iOS targets ([tags.rs]) *)

Inductive BinaryFormat :=
| BF_Arm64 | BF_Fat | BF_Fat32 | BF_Fat64 | BF_I386 | BF_Intel | BF_Ppc | BF_Ppc64 | BF_Universal
| BF_Universal2 | BF_X86_64.

#[export] Instance BinaryFormat_eq_dec : EqDecision BinaryFormat.
Proof. solve_decision. Defined.

Definition BinaryFormat_name (self : BinaryFormat) : bytes :=
  bs match self with
     | BF_Arm64 => "arm64" | BF_Fat => "fat" | BF_Fat32 => "fat32" | BF_Fat64 => "fat64"
     | BF_I386 => "i386" | BF_Intel => "intel" | BF_Ppc => "ppc" | BF_Ppc64 => "ppc64"
     | BF_Universal => "universal" | BF_Universal2 => "universal2" | BF_X86_64 => "x86_64"
     end.

Definition BinaryFormat_from_str (s : bytes) : option BinaryFormat :=
  if is_str s "arm64" then Some BF_Arm64
  else if is_str s "fat" then Some BF_Fat
  else if is_str s "fat32" then Some BF_Fat32
  else if is_str s "fat64" then Some BF_Fat64
  else if is_str s "i386" then Some BF_I386
  else if is_str s "intel" then Some BF_Intel
  else if is_str s "ppc" then Some BF_Ppc
  else if is_str s "ppc64" then Some BF_Ppc64
  else if is_str s "universal" then Some BF_Universal
  else if is_str s "universal2" then Some BF_Universal2
  else if is_str s "x86_64" then Some BF_X86_64
  else None.

(** [None] is the [unreachable!()] of the source. *)
Definition BinaryFormat_from_arch (arch : Arch) : option (list BinaryFormat) :=
  match arch with
  | Aarch64 => Some [BF_Arm64; BF_Universal2]
  | Powerpc64 => Some [BF_Ppc64; BF_Fat64; BF_Universal]
  | Powerpc => Some [BF_Ppc; BF_Fat32; BF_Fat; BF_Universal]
  | X86 => Some [BF_I386; BF_Intel; BF_Fat32; BF_Fat; BF_Universal]
  | X86_64 => Some [BF_X86_64; BF_Intel; BF_Fat64; BF_Fat32; BF_Universal2; BF_Universal]
  | _ => None
  end.

Inductive AndroidAbi := AA_ArmeabiV7a | AA_Arm64V8a | AA_X86 | AA_X86_64.

#[export] Instance AndroidAbi_eq_dec : EqDecision AndroidAbi.
Proof. solve_decision. Defined.

Definition AndroidAbi_name (self : AndroidAbi) : bytes :=
  bs match self with
     | AA_ArmeabiV7a => "armeabi_v7a" | AA_Arm64V8a => "arm64_v8a" | AA_X86 => "x86"
     | AA_X86_64 => "x86_64"
     end.

Definition AndroidAbi_from_str (s : bytes) : option AndroidAbi :=
  if is_str s "armeabi_v7a" then Some AA_ArmeabiV7a
  else if is_str s "arm64_v8a" then Some AA_Arm64V8a
  else if is_str s "x86" then Some AA_X86
  else if is_str s "x86_64" then Some AA_X86_64
  else None.

Definition AndroidAbi_from_arch (arch : Arch) : result AndroidAbi bytes :=
  match arch with
  | Aarch64 => Ok AA_Arm64V8a
  | Armv7L => Ok AA_ArmeabiV7a
  | X86 => Ok AA_X86
  | X86_64 => Ok AA_X86_64
  | _ => Err (bs "Invalid Android arch format: " ++ Arch_name arch)
  end.

Inductive IosMultiarch := IM_Arm64Device | IM_Arm64Simulator | IM_X86_64Simulator.

#[export] Instance IosMultiarch_eq_dec : EqDecision IosMultiarch.
Proof. solve_decision. Defined.

Definition IosMultiarch_name (self : IosMultiarch) : bytes :=
  bs match self with
     | IM_Arm64Device => "arm64_iphoneos" | IM_Arm64Simulator => "arm64_iphonesimulator"
     | IM_X86_64Simulator => "x86_64_iphonesimulator"
     end.

Definition IosMultiarch_from_str (s : bytes) : option IosMultiarch :=
  if is_str s "arm64_iphoneos" then Some IM_Arm64Device
  else if is_str s "arm64_iphonesimulator" then Some IM_Arm64Simulator
  else if is_str s "x86_64_iphonesimulator" then Some IM_X86_64Simulator
  else None.

Definition IosMultiarch_from_arch (arch : Arch) (simulator : bool) : result IosMultiarch bytes :=
  if simulator then
    match arch with
    | Aarch64 => Ok IM_Arm64Simulator
    | X86_64 => Ok IM_X86_64Simulator
    | _ => Err (bs "Invalid iOS simulator arch: " ++ Arch_name arch)
    end
  else
    match arch with
    | Aarch64 => Ok IM_Arm64Device
    | _ => Err (bs "Invalid iOS device arch: " ++ Arch_name arch)
    end.

(** ** Language tags ([language_tag.rs]) *)

Inductive LanguageTag :=
| LT_None
| LT_Python (major : N) (minor : option N)
| LT_CPython (python_version : N * N)
| LT_PyPy (python_version : N * N)
| LT_GraalPy (python_version : N * N)
| LT_Pyston (python_version : N * N).

#[export] Instance LanguageTag_eq_dec : EqDecision LanguageTag.
Proof. solve_decision. Defined.

Definition show_pair (version : N * N) : bytes := show_u64 (fst version) ++ show_u64 (snd version).

Definition LanguageTag_show (self : LanguageTag) : bytes :=
  match self with
  | LT_None => bs "none"
  | LT_Python major (Some minor) => bs "py" ++ show_u64 major ++ show_u64 minor
  | LT_Python major None => bs "py" ++ show_u64 major
  | LT_CPython version => bs "cp" ++ show_pair version
  | LT_PyPy version => bs "pp" ++ show_pair version
  | LT_GraalPy version => bs "graalpy" ++ show_pair version
  | LT_Pyston version => bs "pyston" ++ show_pair version
  end.

Inductive ParseLanguageTagError :=
| LTE_UnknownFormat (tag : bytes)
| LTE_MissingMajorVersion (implementation : string) (tag : bytes)
| LTE_InvalidMajorVersion (implementation : string) (tag : bytes)
| LTE_MissingMinorVersion (implementation : string) (tag : bytes)
| LTE_InvalidMinorVersion (implementation : string) (tag : bytes).

(** [c.to_digit(10)] *)
Definition to_digit (c : N) : option N := if is_ascii_digit c then Some (c - 48) else None.

Definition language_python_version (version_str : bytes) (implementation : string) (full_tag : bytes)
    : result (N * N) ParseLanguageTagError :=
  let? first := ok_or (head version_str) (LTE_MissingMajorVersion implementation full_tag) in
  let? major := ok_or (to_digit first) (LTE_InvalidMajorVersion implementation full_tag) in
  let? rest := ok_or (get_rest version_str) (LTE_MissingMinorVersion implementation full_tag) in
  let? minor := ok_or (parse_unsigned u8_MAX rest) (LTE_InvalidMinorVersion implementation full_tag) in
  Ok (major, minor).

(** The tags that start with [py]. *)
Definition language_py (s py : bytes) : result LanguageTag ParseLanguageTagError :=
  match length py with
  | 0%nat => Err (LTE_MissingMajorVersion "Python" s)
  | 1%nat =>
      let? first := ok_or (head py) (LTE_MissingMajorVersion "Python" s) in
      let? major := ok_or (to_digit first) (LTE_InvalidMajorVersion "Python" s) in
      Ok (LT_Python major None)
  | 2%nat | 3%nat =>
      let? '(major, minor) := language_python_version py "Python" s in
      Ok (LT_Python major (Some minor))
  | _ =>
      match strip_prefix (bs "ston") py with
      | Some pyston =>
          let? version := language_python_version pyston "Pyston" s in Ok (LT_Pyston version)
      | None => Err (LTE_UnknownFormat s)
      end
  end.

Definition LanguageTag_from_str (s : bytes) : result LanguageTag ParseLanguageTagError :=
  if is_str s "none" then Ok LT_None
  else
    match strip_prefix (bs "py") s with
    | Some py => language_py s py
    | None =>
    match strip_prefix (bs "cp") s with
    | Some cp => let? version := language_python_version cp "CPython" s in Ok (LT_CPython version)
    | None =>
    match strip_prefix (bs "pp") s with
    | Some pp => let? version := language_python_version pp "PyPy" s in Ok (LT_PyPy version)
    | None =>
    match strip_prefix (bs "graalpy") s with
    | Some graalpy =>
        let? version := language_python_version graalpy "GraalPy" s in Ok (LT_GraalPy version)
    | None => Err (LTE_UnknownFormat s)
    end
    end
    end
    end.

(** ** ABI tags ([abi_tag.rs]) *)

Inductive AbiTag :=
| AT_None
| AT_Abi3
| AT_CPython (gil_disabled : bool) (python_version : N * N)
| AT_PyPy (python_version : option (N * N)) (implementation_version : N * N)
| AT_GraalPy (python_version implementation_version : N * N)
| AT_Pyston (implementation_version : N * N).

#[export] Instance AbiTag_eq_dec : EqDecision AbiTag.
Proof. solve_decision. Defined.

Definition AbiTag_show (self : AbiTag) : bytes :=
  match self with
  | AT_None => bs "none"
  | AT_Abi3 => bs "abi3"
  | AT_CPython gil_disabled version =>
      if snd version <=? 7 then bs "cp" ++ show_pair version ++ bs "m"
      else if gil_disabled then bs "cp" ++ show_pair version ++ bs "t"
      else bs "cp" ++ show_pair version
  | AT_PyPy (Some version) implementation =>
      bs "pypy" ++ show_pair version ++ bs "_pp" ++ show_pair implementation
  | AT_PyPy None implementation => bs "pypy_" ++ show_pair implementation
  | AT_GraalPy version implementation =>
      bs "graalpy" ++ show_pair implementation ++ bs "_" ++ show_pair version ++ bs "_native"
  | AT_Pyston implementation => bs "pyston_" ++ show_pair implementation ++ bs "_x86_64_linux_gnu"
  end.

Inductive ParseAbiTagError :=
| ATE_UnknownFormat (tag : bytes)
| ATE_MissingMajorVersion (implementation : string) (tag : bytes)
| ATE_InvalidMajorVersion (implementation : string) (tag : bytes)
| ATE_MissingMinorVersion (implementation : string) (tag : bytes)
| ATE_InvalidMinorVersion (implementation : string) (tag : bytes)
| ATE_InvalidFormat (implementation : string) (tag : bytes)
| ATE_MissingImplMajorVersion (implementation : string) (tag : bytes)
| ATE_InvalidImplMajorVersion (implementation : string) (tag : bytes)
| ATE_MissingImplMinorVersion (implementation : string) (tag : bytes)
| ATE_InvalidImplMinorVersion (implementation : string) (tag : bytes).

(** [b.checked_sub(b'0')] below ten. *)
Definition byte_digit (b : N) : option N :=
  d ← checked_sub b 48; if d <? 10 then Some d else None.

Definition abi_python_version (version_str : bytes) (implementation : string) (full_tag : bytes)
    : result (N * N) ParseAbiTagError :=
  let? first := ok_or (head version_str) (ATE_MissingMajorVersion implementation full_tag) in
  let? major := ok_or (byte_digit first) (ATE_InvalidMajorVersion implementation full_tag) in
  let? rest := ok_or (get_rest version_str) (ATE_MissingMinorVersion implementation full_tag) in
  let? minor := ok_or (parse_unsigned u8_MAX rest) (ATE_InvalidMinorVersion implementation full_tag) in
  Ok (major, minor).

Definition abi_impl_version (version_str : bytes) (implementation : string) (full_tag : bytes)
    : result (N * N) ParseAbiTagError :=
  let? first := ok_or (head version_str) (ATE_MissingImplMajorVersion implementation full_tag) in
  let? major := ok_or (byte_digit first) (ATE_InvalidImplMajorVersion implementation full_tag) in
  let? rest := ok_or (get_rest version_str) (ATE_MissingImplMinorVersion implementation full_tag) in
  let? minor := ok_or (parse_unsigned u8_MAX rest) (ATE_InvalidImplMinorVersion implementation full_tag) in
  Ok (major, minor).

(** [&cp[..version_end]]: the leading digits. *)
Fixpoint leading_digits (s : bytes) : bytes :=
  match s with
  | c :: s' => if is_ascii_digit c then c :: leading_digits s' else []
  | [] => []
  end.

Definition abi_cpython (s cp : bytes) : result AbiTag ParseAbiTagError :=
  let? version := abi_python_version (leading_digits cp) "CPython" s in
  let gil_disabled := match strip_suffix (bs "t") cp with Some _ => true | None => false end in
  Ok (AT_CPython gil_disabled version).

Definition abi_pypy (s rest : bytes) : result AbiTag ParseAbiTagError :=
  match strip_prefix (bs "_") rest with
  | Some rest => let? implementation := abi_impl_version rest "PyPy" s in Ok (AT_PyPy None implementation)
  | None =>
      let? '(version_str, rest) := ok_or (split_once 95 rest) (ATE_InvalidFormat "PyPy" s) in
      let? version := abi_python_version version_str "PyPy" s in
      let? rest := ok_or (strip_prefix (bs "pp") rest) (ATE_InvalidFormat "PyPy" s) in
      let? implementation := abi_impl_version rest "PyPy" s in
      Ok (AT_PyPy (Some version) implementation)
  end.

Definition abi_graalpy (s rest : bytes) : result AbiTag ParseAbiTagError :=
  let? '(impl_ver_str, rest) := ok_or (split_once 95 rest) (ATE_InvalidFormat "GraalPy" s) in
  let? implementation := abi_impl_version impl_ver_str "GraalPy" s in
  let? '(py_ver_str, _) := ok_or (split_once 95 rest) (ATE_InvalidFormat "GraalPy" s) in
  let? version := abi_python_version py_ver_str "GraalPy" s in
  Ok (AT_GraalPy version implementation).

Definition abi_pyston (s rest : bytes) : result AbiTag ParseAbiTagError :=
  let? rest := ok_or (strip_prefix (bs "_") rest) (ATE_InvalidFormat "Pyston" s) in
  let? rest := ok_or (strip_suffix (bs "_x86_64_linux_gnu") rest) (ATE_InvalidFormat "Pyston" s) in
  let? implementation := abi_impl_version rest "Pyston" s in
  Ok (AT_Pyston implementation).

Definition AbiTag_from_str (s : bytes) : result AbiTag ParseAbiTagError :=
  if is_str s "none" then Ok AT_None
  else if is_str s "abi3" then Ok AT_Abi3
  else
    match strip_prefix (bs "cp") s with
    | Some cp => abi_cpython s cp
    | None =>
    match strip_prefix (bs "pypy") s with
    | Some rest => abi_pypy s rest
    | None =>
    match strip_prefix (bs "graalpy") s with
    | Some rest => abi_graalpy s rest
    | None =>
    match strip_prefix (bs "pyston") s with
    | Some rest => abi_pyston s rest
    | None => Err (ATE_UnknownFormat s)
    end
    end
    end
    end.

(** ** Platform tags ([platform_tag.rs]) *)

Inductive PlatformTag :=
| PT_Any
| PT_Manylinux (major minor : N) (arch : Arch)
| PT_Manylinux1 (arch : Arch)
| PT_Manylinux2010 (arch : Arch)
| PT_Manylinux2014 (arch : Arch)
| PT_Linux (arch : Arch)
| PT_Musllinux (major minor : N) (arch : Arch)
| PT_Macos (major minor : N) (binary_format : BinaryFormat)
| PT_Win32
| PT_WinAmd64
| PT_WinArm64
| PT_WinIa64
| PT_Android (api_level : N) (abi : AndroidAbi)
| PT_FreeBsd (release_arch : bytes)
| PT_NetBsd (release_arch : bytes)
| PT_OpenBsd (release_arch : bytes)
| PT_Dragonfly (release_arch : bytes)
| PT_Haiku (release_arch : bytes)
| PT_Illumos (release_arch : bytes)
| PT_Solaris (release_arch : bytes)
| PT_Pyodide (major minor : N)
| PT_Ios (major minor : N) (multiarch : IosMultiarch).

#[export] Instance PlatformTag_eq_dec : EqDecision PlatformTag.
Proof. solve_decision. Defined.

Definition is_any (self : PlatformTag) : bool :=
  match self with PT_Any => true | _ => false end.

Definition is_manylinux (self : PlatformTag) : bool :=
  match self with
  | PT_Manylinux _ _ _ | PT_Manylinux1 _ | PT_Manylinux2010 _ | PT_Manylinux2014 _ => true
  | _ => false
  end.

(** [{major}_{minor}_{suffix}] *)
Definition show_versioned (major minor : N) (suffix : bytes) : bytes :=
  show_u64 major ++ bs "_" ++ show_u64 minor ++ bs "_" ++ suffix.

Definition PlatformTag_show (self : PlatformTag) : bytes :=
  match self with
  | PT_Any => bs "any"
  | PT_Manylinux major minor arch => bs "manylinux_" ++ show_versioned major minor (Arch_name arch)
  | PT_Manylinux1 arch => bs "manylinux1_" ++ Arch_name arch
  | PT_Manylinux2010 arch => bs "manylinux2010_" ++ Arch_name arch
  | PT_Manylinux2014 arch => bs "manylinux2014_" ++ Arch_name arch
  | PT_Linux arch => bs "linux_" ++ Arch_name arch
  | PT_Musllinux major minor arch => bs "musllinux_" ++ show_versioned major minor (Arch_name arch)
  | PT_Macos major minor format => bs "macosx_" ++ show_versioned major minor (BinaryFormat_name format)
  | PT_Win32 => bs "win32"
  | PT_WinAmd64 => bs "win_amd64"
  | PT_WinArm64 => bs "win_arm64"
  | PT_WinIa64 => bs "win_ia64"
  | PT_Android api_level abi => bs "android_" ++ show_u64 api_level ++ bs "_" ++ AndroidAbi_name abi
  | PT_FreeBsd release_arch => bs "freebsd_" ++ release_arch
  | PT_NetBsd release_arch => bs "netbsd_" ++ release_arch
  | PT_OpenBsd release_arch => bs "openbsd_" ++ release_arch
  | PT_Dragonfly release_arch => bs "dragonfly_" ++ release_arch
  | PT_Haiku release_arch => bs "haiku_" ++ release_arch
  | PT_Illumos release_arch => bs "illumos_" ++ release_arch
  | PT_Solaris release_arch => bs "solaris_" ++ release_arch ++ bs "_64bit"
  | PT_Pyodide major minor => bs "pyodide_" ++ show_u64 major ++ bs "_" ++ show_u64 minor ++ bs "_wasm32"
  | PT_Ios major minor multiarch => bs "ios_" ++ show_versioned major minor (IosMultiarch_name multiarch)
  end.

Inductive ParsePlatformTagError :=
| PTE_UnknownFormat (tag : bytes)
| PTE_InvalidFormat (platform : string) (tag : bytes)
| PTE_InvalidMajorVersion (platform : string) (tag : bytes)
| PTE_InvalidMinorVersion (platform : string) (tag : bytes)
| PTE_InvalidArch (platform : string) (tag : bytes)
| PTE_InvalidApiLevel (platform : string) (tag : bytes).

(** Parsing searches with the [memchr] crate. *)
Section memchr.
Context {M : Memchr}.

(** The shape shared by [manylinux_], [musllinux_], [macosx_] and [ios_]: two
    numbers and a suffix, separated by underscores. *)
Definition platform_versioned {A} (platform : string) (s rest : bytes) (parse : bytes -> option A)
    (build : N -> N -> A -> PlatformTag) : result PlatformTag ParsePlatformTagError :=
  let? first_underscore := ok_or (memchr 95 rest) (PTE_InvalidFormat platform s) in
  let? i := ok_or (memchr 95 (drop (first_underscore + 1) rest)) (PTE_InvalidFormat platform s) in
  let second_underscore := (i + first_underscore + 1)%nat in
  let? major := ok_or (parse_unsigned u16_MAX (take first_underscore rest))
                  (PTE_InvalidMajorVersion platform s) in
  let? minor :=
    ok_or (parse_unsigned u16_MAX
             (take (second_underscore - (first_underscore + 1)) (drop (first_underscore + 1) rest)))
      (PTE_InvalidMinorVersion platform s) in
  let suffix := drop (second_underscore + 1) rest in
  match suffix with
  | [] => Err (PTE_InvalidFormat platform s)
  | _ :: _ =>
      let? x := ok_or (parse suffix) (PTE_InvalidArch platform s) in
      Ok (build major minor x)
  end.

Definition platform_arch (platform : string) (s rest : bytes) (build : Arch -> PlatformTag)
    : result PlatformTag ParsePlatformTagError :=
  let? arch := ok_or (Arch_from_str rest) (PTE_InvalidArch platform s) in Ok (build arch).

(** The systems with an opaque suffix. *)
Definition platform_opaque (platform : string) (s rest : bytes) (build : bytes -> PlatformTag)
    : result PlatformTag ParsePlatformTagError :=
  match rest with
  | [] => Err (PTE_InvalidFormat platform s)
  | _ :: _ => Ok (build rest)
  end.

Definition platform_android (s rest : bytes) : result PlatformTag ParsePlatformTagError :=
  let? underscore := ok_or (memchr 95 rest) (PTE_InvalidFormat "android" s) in
  let? api_level := ok_or (parse_unsigned u16_MAX (take underscore rest))
                      (PTE_InvalidApiLevel "android" s) in
  let abi_str := drop (underscore + 1) rest in
  match abi_str with
  | [] => Err (PTE_InvalidFormat "android" s)
  | _ :: _ =>
      let? abi := ok_or (AndroidAbi_from_str abi_str) (PTE_InvalidArch "android" s) in
      Ok (PT_Android api_level abi)
  end.

Definition platform_solaris (s rest : bytes) : result PlatformTag ParsePlatformTagError :=
  match rest with
  | [] => Err (PTE_InvalidFormat "solaris" s)
  | _ :: _ =>
      match strip_suffix (bs "_64bit") rest with
      | Some (c :: release_arch) => Ok (PT_Solaris (c :: release_arch))
      | _ => Err (PTE_InvalidArch "solaris" s)
      end
  end.

Definition platform_pyodide (s rest : bytes) : result PlatformTag ParsePlatformTagError :=
  let? mid := ok_or (strip_suffix (bs "_wasm32") rest) (PTE_InvalidArch "pyodide" s) in
  let? underscore := ok_or (memchr 95 mid) (PTE_InvalidFormat "pyodide" s) in
  let? major := ok_or (parse_unsigned u16_MAX (take underscore mid))
                  (PTE_InvalidMajorVersion "pyodide" s) in
  let? minor := ok_or (parse_unsigned u16_MAX (drop (underscore + 1) mid))
                  (PTE_InvalidMinorVersion "pyodide" s) in
  Ok (PT_Pyodide major minor).

(** One definition per prefix. *)
Definition platform_manylinux (s rest : bytes) : result PlatformTag ParsePlatformTagError :=
  platform_versioned "manylinux" s rest Arch_from_str PT_Manylinux.
Definition platform_manylinux1 (s rest : bytes) : result PlatformTag ParsePlatformTagError :=
  platform_arch "manylinux1" s rest PT_Manylinux1.
Definition platform_manylinux2010 (s rest : bytes) : result PlatformTag ParsePlatformTagError :=
  platform_arch "manylinux2010" s rest PT_Manylinux2010.
Definition platform_manylinux2014 (s rest : bytes) : result PlatformTag ParsePlatformTagError :=
  platform_arch "manylinux2014" s rest PT_Manylinux2014.
Definition platform_linux (s rest : bytes) : result PlatformTag ParsePlatformTagError :=
  platform_arch "linux" s rest PT_Linux.
Definition platform_musllinux (s rest : bytes) : result PlatformTag ParsePlatformTagError :=
  platform_versioned "musllinux" s rest Arch_from_str PT_Musllinux.
Definition platform_macosx (s rest : bytes) : result PlatformTag ParsePlatformTagError :=
  platform_versioned "macosx" s rest BinaryFormat_from_str PT_Macos.
Definition platform_freebsd (s rest : bytes) : result PlatformTag ParsePlatformTagError :=
  platform_opaque "freebsd" s rest PT_FreeBsd.
Definition platform_netbsd (s rest : bytes) : result PlatformTag ParsePlatformTagError :=
  platform_opaque "netbsd" s rest PT_NetBsd.
Definition platform_openbsd (s rest : bytes) : result PlatformTag ParsePlatformTagError :=
  platform_opaque "openbsd" s rest PT_OpenBsd.
Definition platform_dragonfly (s rest : bytes) : result PlatformTag ParsePlatformTagError :=
  platform_opaque "dragonfly" s rest PT_Dragonfly.
Definition platform_haiku (s rest : bytes) : result PlatformTag ParsePlatformTagError :=
  platform_opaque "haiku" s rest PT_Haiku.
Definition platform_illumos (s rest : bytes) : result PlatformTag ParsePlatformTagError :=
  platform_opaque "illumos" s rest PT_Illumos.
Definition platform_ios (s rest : bytes) : result PlatformTag ParsePlatformTagError :=
  platform_versioned "ios" s rest IosMultiarch_from_str PT_Ios.

(** The [if let Some(rest) = s.strip_prefix(..)] cascade, in its order. *)
Definition platform_prefixes : list (string * (bytes -> bytes -> result PlatformTag ParsePlatformTagError)) :=
  [("manylinux_", platform_manylinux);
   ("manylinux1_", platform_manylinux1);
   ("manylinux2010_", platform_manylinux2010);
   ("manylinux2014_", platform_manylinux2014);
   ("linux_", platform_linux);
   ("musllinux_", platform_musllinux);
   ("macosx_", platform_macosx);
   ("android_", platform_android);
   ("freebsd_", platform_freebsd);
   ("netbsd_", platform_netbsd);
   ("openbsd_", platform_openbsd);
   ("dragonfly_", platform_dragonfly);
   ("haiku_", platform_haiku);
   ("illumos_", platform_illumos);
   ("solaris_", platform_solaris);
   ("pyodide_", platform_pyodide);
   ("ios_", platform_ios)].

Fixpoint first_prefix (s : bytes)
    (l : list (string * (bytes -> bytes -> result PlatformTag ParsePlatformTagError)))
    : result PlatformTag ParsePlatformTagError :=
  match l with
  | [] => Err (PTE_UnknownFormat s)
  | (prefix, parse) :: l =>
      match strip_prefix (bs prefix) s with
      | Some rest => parse s rest
      | None => first_prefix s l
      end
  end.

Definition PlatformTag_from_str (s : bytes) : result PlatformTag ParsePlatformTagError :=
  if is_str s "any" then Ok PT_Any
  else if is_str s "win32" then Ok PT_Win32
  else if is_str s "win_amd64" then Ok PT_WinAmd64
  else if is_str s "win_arm64" then Ok PT_WinArm64
  else if is_str s "win_ia64" then Ok PT_WinIa64
  else first_prefix s platform_prefixes.

End memchr.
