(* ===== verification/PlatformTagsFacts.v ===== *)
(** * Printing and parsing wheel tags

    The tags the parsers return, and that [Display] and [FromStr] are inverse on
    them. *)

From stdpp Require Import base numbers list strings.
From S2P Require Import Prelude VersionTypes VersionSmall Version VersionParser ParserFacts Text PlatformTags.

(** ** Literals *)

(** The two strings differ at a position both have. *)
Fixpoint clash (p q : bytes) : bool :=
  match p, q with
  | x :: p, y :: q => if y =? x then clash p q else true
  | _, _ => false
  end.

Lemma strip_prefix_clash p q t : clash p q = true -> strip_prefix p (q ++ t) = None.
Proof.
  revert q. induction p as [|x p IH]; intros [|y q]; cbn; try done. destruct (y =? x); [apply IH|done].
Qed.

Lemma is_str_clash q t (l : string) : clash (bs l) q = true -> is_str (q ++ t) l = false.
Proof.
  intros H. apply bool_decide_eq_false_2. intros E.
  pose proof (strip_prefix_clash (bs l) q t H) as Hn. rewrite E in Hn.
  rewrite <- (app_nil_r (bs l)) in Hn at 2. by rewrite strip_prefix_app in Hn.
Qed.

Ltac no_literal := rewrite ?is_str_clash, ?strip_prefix_clash by reflexivity.

Lemma strip_last_free c s : free c s -> strip_suffix [c] s = None.
Proof.
  intros Hf. destruct (strip_suffix [c] s) as [t|] eqn:E; [|done]. apply strip_suffix_some in E. subst.
  apply Forall_app in Hf as [_ Hf]. by inversion Hf.
Qed.

(** ** Version pairs: a digit and a [u8] *)

Definition pair_ok (v : N * N) : Prop := fst v < 10 /\ snd v <= u8_MAX.

Lemma show_pair_cons v : pair_ok v -> show_pair v = (48 + fst v) :: show_u64 (snd v).
Proof. intros [Hv _]. unfold show_pair. by rewrite show_digit. Qed.

Lemma show_pair_digits v : all_digits (show_pair v).
Proof. apply Forall_app. split; apply show_u64_digits. Qed.

Lemma byte_digit_spec c : byte_digit c = to_digit c.
Proof.
  unfold byte_digit, to_digit, checked_sub, is_ascii_digit.
  destruct (N.leb_spec 48 c); cbn; [|done].
  destruct (N.ltb_spec (c - 48) 10), (N.leb_spec c 57); try done; lia.
Qed.

Lemma to_digit_some c d : to_digit c = Some d -> d < 10.
Proof.
  unfold to_digit, is_ascii_digit. destruct (N.leb_spec 48 c), (N.leb_spec c 57); cbn; try done.
  intros [= <-]. lia.
Qed.

Lemma to_digit_show n : n < 10 -> to_digit (48 + n) = Some n.
Proof.
  intros Hn. unfold to_digit, is_ascii_digit.
  rewrite !(proj2 (N.leb_le _ _)) by lia. cbn. f_equal. lia.
Qed.

Section version_pair.
Context (v : N * N) (i : string) (tag : bytes).

Lemma language_version_show : pair_ok v -> language_python_version (show_pair v) i tag = Ok v.
Proof using.
  intros Hv. unfold language_python_version. rewrite show_pair_cons by done. destruct Hv as [H1 H2].
  cbn [head ok_or rbind get_rest]. rewrite to_digit_show by done. cbn [ok_or rbind].
  rewrite parse_unsigned_show by done. cbn. by destruct v.
Qed.

Lemma abi_version_show :
  pair_ok v -> abi_python_version (show_pair v) i tag = Ok v /\ abi_impl_version (show_pair v) i tag = Ok v.
Proof using.
  intros Hv. unfold abi_python_version, abi_impl_version. rewrite show_pair_cons by done. destruct Hv as [H1 H2].
  cbn [head ok_or rbind get_rest]. rewrite byte_digit_spec, to_digit_show by done. cbn [ok_or rbind].
  rewrite parse_unsigned_show by done. cbn. by destruct v.
Qed.

Lemma language_version_ok s : language_python_version s i tag = Ok v -> pair_ok v.
Proof using.
  unfold language_python_version. destruct s as [|c s]; cbn [head ok_or rbind get_rest]; [done|].
  destruct (to_digit c) eqn:Ec; cbn [ok_or rbind]; [|done].
  destruct (parse_unsigned _ s) eqn:Es; cbn [ok_or rbind]; [|done]. intros [= <-].
  split; [by eapply to_digit_some|by eapply parse_unsigned_bound].
Qed.

Lemma abi_python_version_ok s : abi_python_version s i tag = Ok v -> pair_ok v.
Proof using.
  unfold abi_python_version. destruct s as [|c s]; cbn [head ok_or rbind get_rest]; [done|].
  rewrite byte_digit_spec. destruct (to_digit c) eqn:Ec; cbn [ok_or rbind]; [|done].
  destruct (parse_unsigned _ s) eqn:Es; cbn [ok_or rbind]; [|done]. intros [= <-].
  split; [by eapply to_digit_some|by eapply parse_unsigned_bound].
Qed.

Lemma abi_impl_version_ok s : abi_impl_version s i tag = Ok v -> pair_ok v.
Proof using.
  unfold abi_impl_version. destruct s as [|c s]; cbn [head ok_or rbind get_rest]; [done|].
  rewrite byte_digit_spec. destruct (to_digit c) eqn:Ec; cbn [ok_or rbind]; [|done].
  destruct (parse_unsigned _ s) eqn:Es; cbn [ok_or rbind]; [|done]. intros [= <-].
  split; [by eapply to_digit_some|by eapply parse_unsigned_bound].
Qed.
End version_pair.

(** ** Language tags *)

(** Numbers in range; a [py] tag has at most three digits. *)
Definition language_ok (t : LanguageTag) : Prop :=
  match t with
  | LT_None => True
  | LT_Python major None => major < 10
  | LT_Python major (Some minor) => major < 10 /\ minor < 100
  | LT_CPython v | LT_PyPy v | LT_GraalPy v | LT_Pyston v => pair_ok v
  end.

Lemma show_two_digits n : n < 100 -> length (show_u64 n) = 1%nat \/ length (show_u64 n) = 2%nat.
Proof.
  intros Hn.
  assert (forallb (fun n => Nat.eqb (length (show_u64 n)) 1 || Nat.eqb (length (show_u64 n)) 2)
            (map N.of_nat (seq 0 100)) = true) as H by (vm_compute; reflexivity).
  rewrite forallb_forall in H.
  assert (In n (map N.of_nat (seq 0 100))) as Hin%H.
  { apply in_map_iff. exists (N.to_nat n). split; [lia|]. apply in_seq. lia. }
  apply orb_prop in Hin as [?%Nat.eqb_eq|?%Nat.eqb_eq]; auto.
Qed.

Lemma parse_digits_length max ds a n :
  parse_digits max a ds = Some n -> n < (a + 1) * 10 ^ N.of_nat (length ds).
Proof.
  revert a. induction ds as [|d ds IH]; intros a; cbn [parse_digits length].
  - intros [= <-]. cbn. lia.
  - destruct (is_ascii_digit d) eqn:Ed; [|done]. unfold checked_mul, checked_add.
    destruct (_ <=? _); cbn [mbind option_bind]; [|done]. destruct (_ <=? _); cbn [mbind option_bind]; [|done].
    intros H%IH. rewrite Nat2N.inj_succ, N.pow_succ_r by lia.
    unfold is_ascii_digit in Ed. apply andb_prop in Ed as [E1%N.leb_le E2%N.leb_le].
    eapply N.lt_le_trans; [exact H|].
    rewrite N.mul_assoc. apply N.mul_le_mono_r. lia.
Qed.

Lemma parse_unsigned_length max s n :
  (length s <= 2)%nat -> parse_unsigned max s = Some n -> n < 100.
Proof.
  intros Hl. unfold parse_unsigned. destruct s as [|c [|d [|]]]; cbn in Hl; try done; try lia;
    case_match; try done; intros E%parse_digits_length;
    (eapply N.lt_le_trans; [exact E|]; vm_compute; discriminate).
Qed.

Lemma LanguageTag_round_trip t : language_ok t -> LanguageTag_from_str (LanguageTag_show t) = Ok t.
Proof.
  unfold LanguageTag_from_str.
  destruct t as [|major [minor|]|v|v|v|v]; cbn [language_ok LanguageTag_show]; intros Hok; [reflexivity|..];
    no_literal; rewrite ?strip_prefix_app.
  - destruct Hok as [H1 H2]. unfold language_py.
    assert (length (show_u64 major ++ show_u64 minor) = 2%nat \/ length (show_u64 major ++ show_u64 minor) = 3%nat) as Hl.
    { rewrite length_app, show_digit by done. cbn [length Nat.add]. destruct (show_two_digits minor H2); lia. }
    change (show_u64 major ++ show_u64 minor) with (show_pair (major, minor)) in *.
    assert (pair_ok (major, minor)) as Hp by (split; [done|]; unfold u8_MAX; cbn; lia).
    destruct Hl as [->| ->]; by rewrite language_version_show.
  - unfold language_py. rewrite show_digit by done. cbn [length head ok_or rbind].
    by rewrite to_digit_show.
  - by rewrite language_version_show.
  - by rewrite language_version_show.
  - by rewrite language_version_show.
  - change (bs "pyston" ++ show_pair v) with (bs "py" ++ bs "ston" ++ show_pair v).
    rewrite strip_prefix_app. unfold language_py. rewrite strip_prefix_app.
    change (length (bs "ston" ++ show_pair v)) with (S (S (S (S (length (show_pair v)))))).
    by rewrite language_version_show.
Qed.

Lemma LanguageTag_parsed s t : LanguageTag_from_str s = Ok t -> language_ok t.
Proof.
  assert (forall (f : N * N -> LanguageTag) v i s t, (forall v, pair_ok v -> language_ok (f v)) ->
    rbind (language_python_version v i s) (fun v => Ok (f v)) = Ok t -> language_ok t) as Hpair.
  { intros f v i s' t' Hf. destruct (language_python_version v i s') eqn:E; cbn [rbind]; [|done].
    intros [= <-]. apply Hf. by eapply language_version_ok. }
  assert (forall py, (length py <= 3)%nat ->
    rbind (language_python_version py "Python" s)
      (fun x => match x with (major, minor) => Ok (LT_Python major (Some minor)) end) = Ok t -> language_ok t) as Hpy.
  { intros py Hl. destruct (language_python_version py "Python" s) as [[a b]|] eqn:E; cbn [rbind]; [|done].
    intros [= <-]. pose proof (language_version_ok _ _ _ _ E) as [H1 _]. split; [done|].
    unfold language_python_version in E. destruct py as [|c py]; [done|].
    cbn [head ok_or rbind get_rest] in E. destruct (to_digit c); cbn [ok_or rbind] in E; [|done].
    destruct (parse_unsigned _ py) eqn:Ep; cbn [ok_or rbind] in E; [|done]. injection E as -> ->.
    eapply parse_unsigned_length, Ep. cbn in Hl. lia. }
  unfold LanguageTag_from_str. destruct (is_str s "none"); [by intros [= <-]|].
  destruct (strip_prefix (bs "py") s) as [py|].
  - unfold language_py. destruct (length py) as [|[|[|[|]]]] eqn:Hl; [done| | | |].
    + destruct py as [|c]; [done|]. cbn [head ok_or rbind]. destruct (to_digit c) eqn:Ec; cbn [ok_or rbind]; [|done].
      intros [= <-]. by eapply to_digit_some.
    + apply Hpy. lia.
    + apply Hpy. lia.
    + destruct (strip_prefix (bs "ston") py); [|done]. by apply Hpair.
  - destruct (strip_prefix (bs "cp") s); [by apply Hpair|].
    destruct (strip_prefix (bs "pp") s); [by apply Hpair|].
    destruct (strip_prefix (bs "graalpy") s); [by apply Hpair|done].
Qed.

(** ** ABI tags *)

(** Numbers in range; up to Python 3.7 the flag position is taken by [m]. *)
Definition abi_ok (t : AbiTag) : Prop :=
  match t with
  | AT_None | AT_Abi3 => True
  | AT_CPython gil_disabled v => pair_ok v /\ (snd v <= 7 -> gil_disabled = false)
  | AT_PyPy (Some v) w => pair_ok v /\ pair_ok w
  | AT_PyPy None w | AT_Pyston w => pair_ok w
  | AT_GraalPy v w => pair_ok v /\ pair_ok w
  end.

Lemma leading_digits_app ds s :
  all_digits ds -> match s with c :: _ => is_ascii_digit c = false | [] => True end ->
  leading_digits (ds ++ s) = ds.
Proof.
  intros Hd Hs. induction Hd as [|d ds Hx _ IH]; cbn [app leading_digits].
  - destruct s as [|c s]; [done|]. cbn. by rewrite Hs.
  - assert (is_ascii_digit d = true) as ->; [|by rewrite IH].
    unfold is_ascii_digit. apply andb_true_intro. split; apply N.leb_le; lia.
Qed.

Lemma abi_cpython_show s v suffix :
  pair_ok v -> free 116 suffix -> match suffix with c :: _ => is_ascii_digit c = false | [] => True end ->
  abi_cpython s (show_pair v ++ suffix) = Ok (AT_CPython false v) /\
  abi_cpython s (show_pair v ++ bs "t") = Ok (AT_CPython true v).
Proof.
  intros Hv Hf Hs. unfold abi_cpython. pose proof (show_pair_digits v) as Hd.
  rewrite !leading_digits_app by done. rewrite (proj1 (abi_version_show v "CPython" s Hv)). cbn [rbind].
  rewrite strip_suffix_app. split; [|done]. change (bs "t") with [116]. rewrite strip_last_free; [done|].
  apply Forall_app. split; [apply digits_free; [done|lia]|done].
Qed.

Lemma AbiTag_round_trip t : abi_ok t -> AbiTag_from_str (AbiTag_show t) = Ok t.
Proof.
  unfold AbiTag_from_str.
  destruct t as [| |gil v|[v|] w|v w|w]; cbn [abi_ok AbiTag_show]; intros Hok; [reflexivity..| | | | |].
  - destruct Hok as [Hv Hg].
    assert (forall s, abi_cpython s (show_pair v) = Ok (AT_CPython false v)) as Hplain.
    { intros s. rewrite <- (app_nil_r (show_pair v)). by apply (abi_cpython_show s v []). }
    destruct (N.leb_spec (snd v) 7) as [H7|H7]; [rewrite Hg by done|destruct gil];
      no_literal; rewrite strip_prefix_app; [| |apply Hplain].
    + apply (abi_cpython_show _ v (bs "m")); [done|by repeat constructor|done].
    + by apply (abi_cpython_show _ v []).
  - destruct Hok as [Hv Hw]. no_literal. rewrite strip_prefix_app. unfold abi_pypy.
    pose proof (show_pair_cons v Hv) as Ec. rewrite Ec at 1. cbn [app].
    assert (strip_prefix (bs "_") ((48 + fst v) :: show_u64 (snd v) ++ bs "_pp" ++ show_pair w) = None) as ->.
    { change (bs "_") with [95]. cbn [strip_prefix]. destruct Hv as [Hv _].
      rewrite (proj2 (N.eqb_neq (48 + fst v) 95)) by lia. done. }
    change (bs "_pp" ++ show_pair w) with (95 :: bs "pp" ++ show_pair w).
    rewrite split_once_app by (apply digits_free; [apply show_pair_digits|lia]). cbn [ok_or rbind].
    rewrite (proj1 (abi_version_show v "PyPy" _ Hv)). cbn [rbind]. rewrite strip_prefix_app. cbn [ok_or rbind].
    by rewrite (proj2 (abi_version_show w "PyPy" _ Hw)).
  - no_literal. change (bs "pypy_" ++ show_pair w) with (bs "pypy" ++ bs "_" ++ show_pair w).
    rewrite strip_prefix_app. unfold abi_pypy. rewrite strip_prefix_app.
    by rewrite (proj2 (abi_version_show w "PyPy" _ Hok)).
  - destruct Hok as [Hv Hw]. no_literal. rewrite strip_prefix_app. unfold abi_graalpy.
    change (bs "_" ++ show_pair v ++ bs "_native") with (95 :: show_pair v ++ 95 :: bs "native").
    rewrite split_once_app by (apply digits_free; [apply show_pair_digits|lia]). cbn [ok_or rbind].
    rewrite (proj2 (abi_version_show w "GraalPy" _ Hw)). cbn [rbind].
    rewrite split_once_app by (apply digits_free; [apply show_pair_digits|lia]). cbn [ok_or rbind].
    by rewrite (proj1 (abi_version_show v "GraalPy" _ Hv)).
  - no_literal. change (bs "pyston_" ++ show_pair w ++ bs "_x86_64_linux_gnu")
      with (bs "pyston" ++ bs "_" ++ show_pair w ++ bs "_x86_64_linux_gnu").
    rewrite strip_prefix_app. unfold abi_pyston. rewrite strip_prefix_app. cbn [ok_or rbind].
    rewrite strip_suffix_app. cbn [ok_or rbind]. by rewrite (proj2 (abi_version_show w "Pyston" _ Hok)).
Qed.

(** Everything the parser returns, except a free-threaded ABI of Python 3.7 or
    earlier, which prints with the flag [m]. *)
Lemma AbiTag_parsed s t :
  AbiTag_from_str s = Ok t ->
  match t with AT_CPython true v => 7 < snd v | _ => True end -> abi_ok t.
Proof.
  unfold AbiTag_from_str. destruct (is_str s "none"); [by intros [= <-]|].
  destruct (is_str s "abi3"); [by intros [= <-]|].
  destruct (strip_prefix (bs "cp") s) as [cp|].
  { unfold abi_cpython. destruct (abi_python_version _ _ _) eqn:E; cbn [rbind]; [|done].
    intros [= <-] Hg. split; [by eapply abi_python_version_ok|]. intros H7.
    destruct (strip_suffix _ _); [lia|done]. }
  destruct (strip_prefix (bs "pypy") s) as [rest|].
  { unfold abi_pypy. destruct (strip_prefix (bs "_") rest).
    - destruct (abi_impl_version _ _ _) eqn:E; cbn [rbind]; [|done]. intros [= <-] _.
      by eapply abi_impl_version_ok.
    - destruct (split_once 95 rest) as [[a b]|]; cbn [ok_or rbind]; [|done].
      destruct (abi_python_version _ _ _) eqn:E1; cbn [rbind]; [|done].
      destruct (strip_prefix (bs "pp") b); cbn [ok_or rbind]; [|done].
      destruct (abi_impl_version _ _ _) eqn:E2; cbn [rbind]; [|done]. intros [= <-] _.
      split; [by eapply abi_python_version_ok|by eapply abi_impl_version_ok]. }
  destruct (strip_prefix (bs "graalpy") s) as [rest|].
  { unfold abi_graalpy. destruct (split_once 95 rest) as [[a b]|]; cbn [ok_or rbind]; [|done].
    destruct (abi_impl_version _ _ _) eqn:E1; cbn [rbind]; [|done].
    destruct (split_once 95 b) as [[c d]|]; cbn [ok_or rbind]; [|done].
    destruct (abi_python_version _ _ _) eqn:E2; cbn [rbind]; [|done]. intros [= <-] _.
    split; [by eapply abi_python_version_ok|by eapply abi_impl_version_ok]. }
  destruct (strip_prefix (bs "pyston") s) as [rest|]; [|done].
  unfold abi_pyston. destruct (strip_prefix (bs "_") rest); cbn [ok_or rbind]; [|done].
  destruct (strip_suffix _ _); cbn [ok_or rbind]; [|done].
  destruct (abi_impl_version _ _ _) eqn:E; cbn [rbind]; [|done]. intros [= <-] _. by eapply abi_impl_version_ok.
Qed.

(** ** Platform tags *)

(** Architectures [FromStr] knows: all but [wasm32]. *)
Definition arch_ok (a : Arch) : Prop := a <> Wasm32.

Definition platform_ok (t : PlatformTag) : Prop :=
  match t with
  | PT_Manylinux major minor arch | PT_Musllinux major minor arch =>
      major <= u16_MAX /\ minor <= u16_MAX /\ arch_ok arch
  | PT_Manylinux1 arch | PT_Manylinux2010 arch | PT_Manylinux2014 arch | PT_Linux arch => arch_ok arch
  | PT_Macos major minor _ | PT_Ios major minor _ | PT_Pyodide major minor =>
      major <= u16_MAX /\ minor <= u16_MAX
  | PT_Android api_level _ => api_level <= u16_MAX
  | PT_FreeBsd r | PT_NetBsd r | PT_OpenBsd r | PT_Dragonfly r | PT_Haiku r | PT_Illumos r
  | PT_Solaris r => r <> []
  | PT_Any | PT_Win32 | PT_WinAmd64 | PT_WinArm64 | PT_WinIa64 => True
  end.

Lemma Arch_round_trip a : arch_ok a -> Arch_from_str (Arch_name a) = Some a.
Proof. by destruct a. Qed.

Lemma Arch_parsed s a : Arch_from_str s = Some a -> arch_ok a.
Proof. unfold Arch_from_str. repeat case_match; try done; by intros [= <-]. Qed.

Lemma BinaryFormat_round_trip f : BinaryFormat_from_str (BinaryFormat_name f) = Some f.
Proof. by destruct f. Qed.

Lemma AndroidAbi_round_trip a : AndroidAbi_from_str (AndroidAbi_name a) = Some a.
Proof. by destruct a. Qed.

Lemma IosMultiarch_round_trip m : IosMultiarch_from_str (IosMultiarch_name m) = Some m.
Proof. by destruct m. Qed.

Lemma drop_after {A} (x : list A) c y : drop (length x + 1) (x ++ c :: y) = y.
Proof.
  change (c :: y) with ([c] ++ y). rewrite app_assoc. apply drop_app_length'.
  rewrite length_app. cbn. lia.
Qed.

(** The branches of the cascade by their shape. *)
Ltac branches :=
  cbv delta [platform_manylinux platform_manylinux1 platform_manylinux2010 platform_manylinux2014 platform_linux platform_musllinux platform_macosx platform_freebsd platform_netbsd platform_openbsd platform_dragonfly platform_haiku platform_illumos platform_ios] beta.

Section memchr.
Context {M : Memchr} {HM : MemchrLaws M}.

Section shapes.
Context {A : Type} (platform : string) (s : bytes).

Lemma platform_versioned_show (parse : bytes -> option A) build major minor suffix x :
  major <= u16_MAX -> minor <= u16_MAX -> suffix <> [] -> parse suffix = Some x ->
  platform_versioned platform s (show_versioned major minor suffix) parse build = Ok (build major minor x).
Proof using HM.
  intros H1 H2 Hne Hp. unfold platform_versioned, show_versioned.
  assert (forall n, free 95 (show_u64 n)) as Hfree.
  { intros n. apply digits_free; [apply show_u64_digits|lia]. }
  change (bs "_" ++ show_u64 minor ++ bs "_" ++ suffix) with (95 :: show_u64 minor ++ 95 :: suffix).
  rewrite memchr_app by done. cbn [ok_or rbind]. rewrite drop_after, memchr_app by done. cbn [ok_or rbind].
  rewrite take_app_length, parse_unsigned_show by done. cbn [ok_or rbind].
  replace (length (show_u64 minor) + length (show_u64 major) + 1 - (length (show_u64 major) + 1))%nat
    with (length (show_u64 minor)) by lia.
  rewrite take_app_length, parse_unsigned_show by done. cbn [ok_or rbind].
  replace (length (show_u64 minor) + length (show_u64 major) + 1 + 1)%nat
    with ((length (show_u64 major) + 1) + (length (show_u64 minor) + 1))%nat by lia.
  rewrite <- drop_drop, drop_after, drop_after. destruct suffix; [done|]. by rewrite Hp.
Qed.

Lemma platform_versioned_ok (parse : bytes -> option A) build rest t :
  platform_versioned platform s rest parse build = Ok t ->
  exists major minor suffix x, t = build major minor x /\ parse suffix = Some x /\
    major <= u16_MAX /\ minor <= u16_MAX.
Proof.
  unfold platform_versioned. destruct (memchr 95 rest); cbn [ok_or rbind]; [|done].
  destruct (memchr 95 _); cbn [ok_or rbind]; [|done].
  destruct (parse_unsigned u16_MAX (take n rest)) eqn:E1; cbn [ok_or rbind]; [|done].
  match goal with |- context [ok_or (parse_unsigned u16_MAX ?r)] => destruct (parse_unsigned u16_MAX r) eqn:E2 end;
    cbn [ok_or rbind]; [|done].
  destruct (drop (_ + _ + 1 + 1) rest) eqn:Ed; [done|]. destruct (parse _) eqn:Ex; cbn [ok_or rbind]; [|done].
  intros [= <-]. do 4 eexists. split_and!; eauto using parse_unsigned_bound.
Qed.
End shapes.

Lemma PlatformTag_round_trip t : platform_ok t -> PlatformTag_from_str (PlatformTag_show t) = Ok t.
Proof.
  assert (forall a, Arch_name a <> []) as Ha by (by destruct a).
  unfold PlatformTag_from_str.
  destruct t; cbn [platform_ok PlatformTag_show]; intros Hok; try reflexivity;
    no_literal; cbn [first_prefix platform_prefixes]; branches; no_literal; rewrite ?strip_prefix_app.
  all: try (unfold platform_arch; by rewrite Arch_round_trip).
  all: try (unfold platform_opaque; by destruct release_arch).
  1, 2: destruct Hok as (?&?&?); apply platform_versioned_show; auto using Arch_round_trip.
  - destruct Hok. apply platform_versioned_show; [done..|by destruct binary_format|by destruct binary_format].
  - unfold platform_android.
    change (bs "_" ++ AndroidAbi_name abi) with (95 :: AndroidAbi_name abi).
    rewrite memchr_app by (apply digits_free; [apply show_u64_digits|lia]). cbn [ok_or rbind].
    rewrite take_app_length, drop_after, parse_unsigned_show by done. cbn [ok_or rbind].
    rewrite AndroidAbi_round_trip. by destruct abi.
  - unfold platform_solaris. destruct release_arch as [|c r]; [done|].
    rewrite strip_suffix_app. done.
  - destruct Hok. unfold platform_pyodide.
    assert (show_u64 major ++ bs "_" ++ show_u64 minor ++ bs "_wasm32"
            = (show_u64 major ++ 95 :: show_u64 minor) ++ bs "_wasm32") as -> by (by rewrite <- app_assoc).
    rewrite strip_suffix_app. cbn [ok_or rbind].
    rewrite memchr_app by (apply digits_free; [apply show_u64_digits|lia]). cbn [ok_or rbind].
    rewrite take_app_length, drop_after, !parse_unsigned_show by done. done.
  - destruct Hok. apply platform_versioned_show; [done..|by destruct multiarch|by destruct multiarch].
Qed.

Lemma PlatformTag_parsed s t : PlatformTag_from_str s = Ok t -> platform_ok t.
Proof.
  assert (forall build (P : PlatformTag -> Prop) p rest, (forall a, arch_ok a -> P (build a)) ->
            platform_arch p s rest build = Ok t -> P t) as Harch.
  { intros build P p rest HP. unfold platform_arch. destruct (Arch_from_str rest) eqn:E; cbn [ok_or rbind]; [|done].
    intros [= <-]. eauto using Arch_parsed. }
  assert (forall build (P : PlatformTag -> Prop) p rest, (forall r, r <> [] -> P (build r)) ->
            platform_opaque p s rest build = Ok t -> P t) as Hopaque.
  { intros build P p rest HP. unfold platform_opaque. destruct rest; [done|]. intros [= <-]. by apply HP. }
  unfold PlatformTag_from_str. do 5 (case_match; [by intros [= <-]|]).
  cbn [first_prefix platform_prefixes]; branches.
  case_match. { intros (?&?&?&?&->&?%Arch_parsed&?&?)%platform_versioned_ok. done. }
  do 4 (case_match; [by apply Harch|]).
  case_match. { intros (?&?&?&?&->&?%Arch_parsed&?&?)%platform_versioned_ok. done. }
  case_match. { intros (?&?&?&?&->&?&?&?)%platform_versioned_ok. done. }
  case_match.
  { unfold platform_android. destruct (memchr _ _); cbn [ok_or rbind]; [|done].
    destruct (parse_unsigned _ _) eqn:E; cbn [ok_or rbind]; [|done]. destruct (drop _ _); [done|].
    destruct (AndroidAbi_from_str _); cbn [ok_or rbind]; [|done]. intros [= <-]. by eapply parse_unsigned_bound. }
  do 6 (case_match; [by apply Hopaque|]).
  case_match.
  { unfold platform_solaris. case_match; [done|]. repeat (case_match; try done). by intros [= <-]. }
  case_match.
  { unfold platform_pyodide. destruct (strip_suffix _ _); cbn [ok_or rbind]; [|done].
    destruct (memchr _ _); cbn [ok_or rbind]; [|done].
    destruct (parse_unsigned _ (take _ _)) eqn:E1; cbn [ok_or rbind]; [|done].
    destruct (parse_unsigned _ (drop _ _)) eqn:E2; cbn [ok_or rbind]; [|done]. intros [= <-].
    split; by eapply parse_unsigned_bound. }
  case_match; [|done]. intros (?&?&?&?&->&?&?&?)%platform_versioned_ok. done.
Qed.

End memchr.
