(* ===== verification/Tags.v ===== *)
(** * Compatible tags ([tags.rs] and [platform.rs] of [uv-platform-tags])

    The tags an interpreter on a platform accepts, in order of preference, the
    index built from them, and the compatibility of a wheel's tags with it. *)

From stdpp Require Import base numbers list strings gmap.
From S2P Require Import Prelude Text PlatformTags.

#[local] Open Scope uv_scope.

(** ** Tags as keys *)

#[export] Instance Arch_countable : Countable Arch.
Proof.
  refine (inj_countable
    (fun a => match a with
      | Aarch64 => 0 | Armv5TEL => 1 | Armv6L => 2 | Armv7L => 3 | Powerpc64Le => 4 | Powerpc64 => 5
      | Powerpc => 6 | X86 => 7 | X86_64 => 8 | S390X => 9 | LoongArch64 => 10 | Riscv64 => 11
      | Wasm32 => 12 end)
    (fun n => match n with
      | 0 => Some Aarch64 | 1 => Some Armv5TEL | 2 => Some Armv6L | 3 => Some Armv7L
      | 4 => Some Powerpc64Le | 5 => Some Powerpc64 | 6 => Some Powerpc | 7 => Some X86
      | 8 => Some X86_64 | 9 => Some S390X | 10 => Some LoongArch64 | 11 => Some Riscv64
      | 12 => Some Wasm32 | _ => None end) _).
  by intros [].
Defined.

#[export] Instance BinaryFormat_countable : Countable BinaryFormat.
Proof.
  refine (inj_countable
    (fun a => match a with
      | BF_Arm64 => 0 | BF_Fat => 1 | BF_Fat32 => 2 | BF_Fat64 => 3 | BF_I386 => 4 | BF_Intel => 5
      | BF_Ppc => 6 | BF_Ppc64 => 7 | BF_Universal => 8 | BF_Universal2 => 9 | BF_X86_64 => 10 end)
    (fun n => match n with
      | 0 => Some BF_Arm64 | 1 => Some BF_Fat | 2 => Some BF_Fat32 | 3 => Some BF_Fat64
      | 4 => Some BF_I386 | 5 => Some BF_Intel | 6 => Some BF_Ppc | 7 => Some BF_Ppc64
      | 8 => Some BF_Universal | 9 => Some BF_Universal2 | 10 => Some BF_X86_64 | _ => None end) _).
  by intros [].
Defined.

#[export] Instance AndroidAbi_countable : Countable AndroidAbi.
Proof.
  refine (inj_countable
    (fun a => match a with AA_ArmeabiV7a => 0 | AA_Arm64V8a => 1 | AA_X86 => 2 | AA_X86_64 => 3 end)
    (fun n => match n with
      | 0 => Some AA_ArmeabiV7a | 1 => Some AA_Arm64V8a | 2 => Some AA_X86 | 3 => Some AA_X86_64
      | _ => None end) _).
  by intros [].
Defined.

#[export] Instance IosMultiarch_countable : Countable IosMultiarch.
Proof.
  refine (inj_countable
    (fun a => match a with IM_Arm64Device => 0 | IM_Arm64Simulator => 1 | IM_X86_64Simulator => 2 end)
    (fun n => match n with
      | 0 => Some IM_Arm64Device | 1 => Some IM_Arm64Simulator | 2 => Some IM_X86_64Simulator
      | _ => None end) _).
  by intros [].
Defined.

#[export] Instance LanguageTag_countable : Countable LanguageTag.
Proof.
  refine (inj_countable
    (fun t => match t with
      | LT_None => (0, (0, 0), None)
      | LT_Python major minor => (1, (major, 0), minor)
      | LT_CPython v => (2, v, None) | LT_PyPy v => (3, v, None)
      | LT_GraalPy v => (4, v, None) | LT_Pyston v => (5, v, None) end)
    (fun x => match x with
      | (0, _, _) => Some LT_None
      | (1, v, minor) => Some (LT_Python (fst v) minor)
      | (2, v, _) => Some (LT_CPython v) | (3, v, _) => Some (LT_PyPy v)
      | (4, v, _) => Some (LT_GraalPy v) | (5, v, _) => Some (LT_Pyston v)
      | _ => None end) _).
  by intros [].
Defined.

#[export] Instance AbiTag_countable : Countable AbiTag.
Proof.
  refine (inj_countable
    (fun t => match t with
      | AT_None => (0, false, None, (0, 0))
      | AT_Abi3 => (1, false, None, (0, 0))
      | AT_CPython gil v => (2, gil, None, v)
      | AT_PyPy v w => (3, false, v, w)
      | AT_GraalPy v w => (4, false, Some v, w)
      | AT_Pyston w => (5, false, None, w) end)
    (fun x => match x with
      | (0, _, _, _) => Some AT_None
      | (1, _, _, _) => Some AT_Abi3
      | (2, gil, _, v) => Some (AT_CPython gil v)
      | (3, _, v, w) => Some (AT_PyPy v w)
      | (4, _, Some v, w) => Some (AT_GraalPy v w)
      | (5, _, _, w) => Some (AT_Pyston w)
      | _ => None end) _).
  by intros [].
Defined.

(** Constructor, numbers, enumeration, text. *)
Definition PlatformTag_code (t : PlatformTag) : N * (N * N) * option (Arch + BinaryFormat + AndroidAbi + IosMultiarch) * bytes :=
  match t with
  | PT_Any => (0, (0, 0), None, [])
  | PT_Manylinux a b arch => (1, (a, b), Some (inl (inl (inl arch))), [])
  | PT_Manylinux1 arch => (2, (0, 0), Some (inl (inl (inl arch))), [])
  | PT_Manylinux2010 arch => (3, (0, 0), Some (inl (inl (inl arch))), [])
  | PT_Manylinux2014 arch => (4, (0, 0), Some (inl (inl (inl arch))), [])
  | PT_Linux arch => (5, (0, 0), Some (inl (inl (inl arch))), [])
  | PT_Musllinux a b arch => (6, (a, b), Some (inl (inl (inl arch))), [])
  | PT_Macos a b f => (7, (a, b), Some (inl (inl (inr f))), [])
  | PT_Win32 => (8, (0, 0), None, [])
  | PT_WinAmd64 => (9, (0, 0), None, [])
  | PT_WinArm64 => (10, (0, 0), None, [])
  | PT_WinIa64 => (11, (0, 0), None, [])
  | PT_Android a abi => (12, (a, 0), Some (inl (inr abi)), [])
  | PT_FreeBsd r => (13, (0, 0), None, r)
  | PT_NetBsd r => (14, (0, 0), None, r)
  | PT_OpenBsd r => (15, (0, 0), None, r)
  | PT_Dragonfly r => (16, (0, 0), None, r)
  | PT_Haiku r => (17, (0, 0), None, r)
  | PT_Illumos r => (18, (0, 0), None, r)
  | PT_Solaris r => (19, (0, 0), None, r)
  | PT_Pyodide a b => (20, (a, b), None, [])
  | PT_Ios a b m => (21, (a, b), Some (inr m), [])
  end.

#[export] Instance PlatformTag_countable : Countable PlatformTag.
Proof.
  refine (inj_countable PlatformTag_code
    (fun x => match x with
      | (0, _, _, _) => Some PT_Any
      | (1, (a, b), Some (inl (inl (inl arch))), _) => Some (PT_Manylinux a b arch)
      | (2, _, Some (inl (inl (inl arch))), _) => Some (PT_Manylinux1 arch)
      | (3, _, Some (inl (inl (inl arch))), _) => Some (PT_Manylinux2010 arch)
      | (4, _, Some (inl (inl (inl arch))), _) => Some (PT_Manylinux2014 arch)
      | (5, _, Some (inl (inl (inl arch))), _) => Some (PT_Linux arch)
      | (6, (a, b), Some (inl (inl (inl arch))), _) => Some (PT_Musllinux a b arch)
      | (7, (a, b), Some (inl (inl (inr f))), _) => Some (PT_Macos a b f)
      | (8, _, _, _) => Some PT_Win32
      | (9, _, _, _) => Some PT_WinAmd64
      | (10, _, _, _) => Some PT_WinArm64
      | (11, _, _, _) => Some PT_WinIa64
      | (12, (a, _), Some (inl (inr abi)), _) => Some (PT_Android a abi)
      | (13, _, _, r) => Some (PT_FreeBsd r)
      | (14, _, _, r) => Some (PT_NetBsd r)
      | (15, _, _, r) => Some (PT_OpenBsd r)
      | (16, _, _, r) => Some (PT_Dragonfly r)
      | (17, _, _, r) => Some (PT_Haiku r)
      | (18, _, _, r) => Some (PT_Illumos r)
      | (19, _, _, r) => Some (PT_Solaris r)
      | (20, (a, b), _, _) => Some (PT_Pyodide a b)
      | (21, (a, b), Some (inr m), _) => Some (PT_Ios a b m)
      | _ => None end) _).
  by intros [].
Defined.

(** ** Compatibility *)

Inductive IncompatibleTag := IT_Invalid | IT_Python | IT_Abi | IT_AbiPythonVersion | IT_Platform.

(** The derived order is that of the declaration. *)
Definition IncompatibleTag_index (t : IncompatibleTag) : N :=
  match t with
  | IT_Invalid => 0 | IT_Python => 1 | IT_Abi => 2 | IT_AbiPythonVersion => 3 | IT_Platform => 4
  end.

#[export] Instance IncompatibleTag_ord : Ord IncompatibleTag :=
  fun a b => cmp (IncompatibleTag_index a) (IncompatibleTag_index b).

(** [TagPriority(NonZeroU32)] *)
Abbreviation TagPriority := N.

Inductive TagCompatibility :=
| Incompatible (reason : IncompatibleTag)
| Compatible (priority : TagPriority).

#[export] Instance TagCompatibility_ord : Ord TagCompatibility :=
  fun self other =>
    match self, other with
    | Compatible p_self, Compatible p_other => cmp p_self p_other
    | Incompatible _, Compatible _ => Lt
    | Compatible _, Incompatible _ => Gt
    | Incompatible t_self, Incompatible t_other => cmp t_self t_other
    end.

Definition TagCompatibility_is_compatible (self : TagCompatibility) : bool :=
  match self with Compatible _ => true | Incompatible _ => false end.

(** [Ord::max]: the second unless the first is greater. *)
Definition ord_max {A} `{Ord A} (a b : A) : A := match cmp a b with Gt => a | _ => b end.

Definition u32_MAX : N := 4294967295.

(** [None] is the error [InvalidPriority]. *)
Definition TagPriority_try_from (priority : N) : option TagPriority :=
  if priority <=? u32_MAX then
    let p := (1 + priority) mod 2 ^ 32 in
    if p =? 0 then None else Some p
  else None.

(** ** The index of compatible tags *)

Abbreviation tag := (LanguageTag * AbiTag * PlatformTag)%type.
Abbreviation tag_map := (gmap LanguageTag (gmap AbiTag (gmap PlatformTag TagPriority))).

Record Tags := { map_ : tag_map; best : option tag }.

(** [map.entry(py).or_insert(..).entry(abi).or_insert(..).entry(platform).or_insert(priority)] *)
Definition or_insert_tag (map : tag_map) (t : tag) (priority : TagPriority) : tag_map :=
  let '(py, abi, platform) := t in
  let abis := default ∅ (map !! py) in
  let platforms := default ∅ (abis !! abi) in
  let platforms :=
    match platforms !! platform with
    | Some _ => platforms
    | None => <[platform := priority]> platforms
    end in
  <[py := <[abi := platforms]> abis]> map.

(** The loop of [Tags::new] over the reversed, numbered tags; [None] when
    [expect] fails. *)
Fixpoint index_tags (index : N) (tags : list tag) (map : tag_map) : option tag_map :=
  match tags with
  | [] => Some map
  | t :: rest =>
      priority ← TagPriority_try_from index;
      index_tags (index + 1) rest (or_insert_tag map t priority)
  end.

Definition Tags_new (tags : list tag) : option Tags :=
  map ← index_tags 0 (rev tags) ∅;
  Some {| map_ := map; best := head tags |}.

Definition Tags_is_compatible (self : Tags) (wheel_python_tags : list LanguageTag)
    (wheel_abi_tags : list AbiTag) (wheel_platform_tags : list PlatformTag) : bool :=
  existsb (fun wheel_py =>
    match map_ self !! wheel_py with
    | None => false
    | Some abis =>
        existsb (fun wheel_abi =>
          match abis !! wheel_abi with
          | None => false
          | Some platforms =>
              existsb (fun wheel_platform => bool_decide (is_Some (platforms !! wheel_platform)))
                wheel_platform_tags
          end) wheel_abi_tags
    end) wheel_python_tags.

Definition platform_step (platforms : gmap PlatformTag TagPriority) (max_compatibility : TagCompatibility)
    (wheel_platform : PlatformTag) : TagCompatibility :=
  match platforms !! wheel_platform with
  | Some priority => ord_max max_compatibility (Compatible priority)
  | None => ord_max max_compatibility (Incompatible IT_Platform)
  end.

Definition abi_step (abis : gmap AbiTag (gmap PlatformTag TagPriority))
    (wheel_platform_tags : list PlatformTag) (max_compatibility : TagCompatibility) (wheel_abi : AbiTag)
    : TagCompatibility :=
  match abis !! wheel_abi with
  | None => ord_max max_compatibility (Incompatible IT_Abi)
  | Some platforms => foldl (platform_step platforms) max_compatibility wheel_platform_tags
  end.

Definition python_step (map : tag_map) (wheel_abi_tags : list AbiTag)
    (wheel_platform_tags : list PlatformTag) (max_compatibility : TagCompatibility)
    (wheel_py : LanguageTag) : TagCompatibility :=
  match map !! wheel_py with
  | None => ord_max max_compatibility (Incompatible IT_Python)
  | Some abis => foldl (abi_step abis wheel_platform_tags) max_compatibility wheel_abi_tags
  end.

Definition Tags_compatibility (self : Tags) (wheel_python_tags : list LanguageTag)
    (wheel_abi_tags : list AbiTag) (wheel_platform_tags : list PlatformTag) : TagCompatibility :=
  foldl (python_step (map_ self) wheel_abi_tags wheel_platform_tags) (Incompatible IT_Invalid)
    wheel_python_tags.

Definition is_compatible_abi (self : Tags) (python_tag : LanguageTag) (abi_tag : AbiTag) : bool :=
  match map_ self !! python_tag with
  | Some abis => bool_decide (is_Some (abis !! abi_tag))
  | None => false
  end.

(** ** The tags of an environment *)

Inductive Os :=
| Os_Manylinux (major minor : N)
| Os_Musllinux (major minor : N)
| Os_Windows
| Os_Pyodide (major minor : N)
| Os_Macos (major minor : N)
| Os_FreeBsd (release : bytes)
| Os_NetBsd (release : bytes)
| Os_OpenBsd (release : bytes)
| Os_Dragonfly (release : bytes)
| Os_Illumos (release arch : bytes)
| Os_Haiku (release : bytes)
| Os_Android (api_level : N)
| Os_Ios (major minor : N) (simulator : bool).

Record Platform := { os : Os; arch : Arch }.

(** Errors without their texts. *)
Inductive PlatformError := IOError | OsVersionDetectionError | ArchDetectionError (message : bytes).

Inductive TagsError :=
| PlatformErr (e : PlatformError)
| UnsupportedImplementation (name : bytes)
| UnknownImplementation (name : bytes)
| InvalidPriority (priority : N)
| GilIsACPythonProblem (name : bytes).

Inductive Implementation := Impl_CPython (gil_disabled : bool) | Impl_PyPy | Impl_GraalPy | Impl_Pyston.

Definition language_tag (self : Implementation) (python_version : N * N) : LanguageTag :=
  match self with
  | Impl_CPython _ => LT_CPython python_version
  | Impl_PyPy => LT_PyPy python_version
  | Impl_GraalPy => LT_GraalPy python_version
  | Impl_Pyston => LT_Pyston python_version
  end.

Definition abi_tag (self : Implementation) (python_version implementation_version : N * N) : AbiTag :=
  match self with
  | Impl_CPython gil_disabled => AT_CPython gil_disabled python_version
  | Impl_PyPy => AT_PyPy (Some python_version) implementation_version
  | Impl_GraalPy => AT_GraalPy python_version implementation_version
  | Impl_Pyston => AT_Pyston implementation_version
  end.

Definition Implementation_parse (name : bytes) (gil_disabled : bool) : result Implementation TagsError :=
  if gil_disabled && negb (is_str name "cpython") then Err (GilIsACPythonProblem name)
  else if is_str name "cpython" then Ok (Impl_CPython gil_disabled)
  else if is_str name "pypy" then Ok Impl_PyPy
  else if is_str name "graalpy" then Ok Impl_GraalPy
  else if is_str name "pyston" then Ok Impl_Pyston
  else if is_str name "python" then Err (UnsupportedImplementation name)
  else if is_str name "ironpython" then Err (UnsupportedImplementation name)
  else if is_str name "jython" then Err (UnsupportedImplementation name)
  else Err (UnknownImplementation name).

(** [(a..=b).rev()] *)
Definition rev_range (a b : N) : list N :=
  map (fun i => b - N.of_nat i) (seq 0 (N.to_nat (b + 1 - a))).

(** [release.replace(['.', '-'], "_")] *)
Definition underscores (release : bytes) : bytes :=
  map (fun c => if (c =? 46) || (c =? 45) then 95 else c) release.

Definition manylinux_tags (major minor : N) (arch : Arch) : list PlatformTag :=
  match get_minimum_manylinux_minor arch with
  | Some min_minor =>
      concat (map (fun minor =>
        [PT_Manylinux major minor arch]
        ++ (if minor =? 12 then [PT_Manylinux2010 arch] else [])
        ++ (if minor =? 17 then [PT_Manylinux2014 arch] else [])
        ++ (if minor =? 5 then [PT_Manylinux1 arch] else [])) (rev_range min_minor minor))
  | None => []
  end ++ [PT_Linux arch].

Definition musllinux_tags (major minor : N) (arch : Arch) : list PlatformTag :=
  PT_Linux arch :: map (fun minor => PT_Musllinux major (N.of_nat minor) arch) (seq 0 (N.to_nat (minor + 1))).

(** A tag for each version, newest first, and each binary format; the outer
    [option] is the [unreachable!()] of [BinaryFormat::from_arch]. *)
Definition macos_formats (arch : Arch) (versions : list (N * N)) : option (list PlatformTag) :=
  match versions with
  | [] => Some []
  | _ :: _ =>
      formats ← BinaryFormat_from_arch arch;
      Some (concat (map (fun v => map (fun f => PT_Macos (fst v) (snd v) f) formats) versions))
  end.

Definition macos_x86_64_tags (major minor : N) : option (result (list PlatformTag) PlatformError) :=
  if major =? 10 then
    tags ← macos_formats X86_64 (map (fun minor => (10, minor)) (rev_range 4 minor)); Some (Ok tags)
  else if 11 <=? major then
    tags ← macos_formats X86_64 (map (fun major => (major, 0)) (rev_range 11 major));
    tags' ← macos_formats X86_64 (map (fun minor => (10, minor)) (rev_range 4 16));
    Some (Ok (tags ++ tags'))
  else Some (Err OsVersionDetectionError).

Definition macos_aarch64_tags (major : N) : option (list PlatformTag) :=
  tags ← macos_formats Aarch64 (map (fun major => (major, 0)) (rev_range 11 major));
  Some (tags ++ map (fun minor => PT_Macos 10 minor BF_Universal2) (rev_range 4 16)).

Definition illumos_tags (release arch : bytes) : result (list PlatformTag) PlatformError :=
  let illumos := Ok [PT_Illumos (release ++ bs "_" ++ arch)] in
  match split_once 95 release with
  | Some (major, other) =>
      match parse_unsigned u64_MAX major with
      | None => Err OsVersionDetectionError
      | Some major_ver =>
          if 5 <=? major_ver then
            let release := show_u64 (major_ver - 3) ++ bs "_" ++ other in
            let arch := arch ++ bs "_64bit" in
            Ok [PT_Solaris (release ++ bs "_" ++ arch)]
          else illumos
      end
  | None => illumos
  end.

(** The error is that of the first iteration; without one there is no error. *)
Definition android_tags (api_level : N) (arch : Arch) : result (list PlatformTag) PlatformError :=
  match rev_range 16 api_level with
  | [] => Ok []
  | versions =>
      let? abi := map_err ArchDetectionError (AndroidAbi_from_arch arch) in
      Ok (map (fun ver => PT_Android ver abi) versions)
  end.

Definition ios_tags (major minor : N) (simulator : bool) (arch : Arch)
    : result (list PlatformTag) PlatformError :=
  let? multiarch := map_err ArchDetectionError (IosMultiarch_from_arch arch simulator) in
  if major <? 12 then Ok []
  else
    Ok ([PT_Ios major minor multiarch]
        ++ (if minor =? 0 then [] else map (fun min => PT_Ios major min multiarch) (rev_range 0 (minor - 1)))
        ++ concat (map (fun maj => map (fun min => PT_Ios maj min multiarch) (rev_range 0 9))
                     (rev_range 12 (major - 1)))).

Section environment.
(** [str::to_lowercase], which folds all of Unicode. *)
Context (to_lowercase : bytes -> bytes).

Definition compatible_tags (platform : Platform) : option (result (list PlatformTag) PlatformError) :=
  let arch := arch platform in
  match os platform, arch with
  | Os_Manylinux major minor, _ => Some (Ok (manylinux_tags major minor arch))
  | Os_Musllinux major minor, _ => Some (Ok (musllinux_tags major minor arch))
  | Os_Macos major minor, X86_64 => macos_x86_64_tags major minor
  | Os_Macos major _, Aarch64 => tags ← macos_aarch64_tags major; Some (Ok tags)
  | Os_Windows, X86 => Some (Ok [PT_Win32])
  | Os_Windows, X86_64 => Some (Ok [PT_WinAmd64])
  | Os_Windows, Aarch64 => Some (Ok [PT_WinArm64])
  | Os_FreeBsd release, _ =>
      Some (Ok [PT_FreeBsd (to_lowercase (underscores release) ++ bs "_" ++ machine arch)])
  | Os_NetBsd release, _ => Some (Ok [PT_NetBsd (underscores release ++ bs "_" ++ machine arch)])
  | Os_OpenBsd release, _ => Some (Ok [PT_OpenBsd (underscores release ++ bs "_" ++ machine arch)])
  | Os_Dragonfly release, _ => Some (Ok [PT_Dragonfly (underscores release ++ bs "_" ++ Arch_name arch)])
  | Os_Haiku release, _ => Some (Ok [PT_Haiku (underscores release ++ bs "_" ++ Arch_name arch)])
  | Os_Illumos release arch, _ => Some (illumos_tags release arch)
  | Os_Android api_level, _ => Some (android_tags api_level arch)
  | Os_Pyodide major minor, Wasm32 => Some (Ok [PT_Pyodide major minor])
  | Os_Ios major minor simulator, _ => Some (ios_tags major minor simulator arch)
  | _, _ => Some (Err OsVersionDetectionError)
  end.

(** The list [from_env] passes to [Tags::new]. *)
Definition env_tags (platform_tags : list PlatformTag) (implementation : Implementation)
    (python_version implementation_version : N * N) : list tag :=
  let '(major, minor) := python_version in
  let each (language : LanguageTag) (abi : AbiTag) : list tag :=
    map (fun platform_tag => (language, abi, platform_tag)) platform_tags in
  (* 1. This exact c api version *)
  each (language_tag implementation python_version)
    (abi_tag implementation python_version implementation_version)
  (* 2. abi3 and no abi *)
  ++ match implementation with
     | Impl_CPython gil_disabled =>
         concat (map (fun m =>
           (if gil_disabled then [] else each (language_tag implementation (major, m)) AT_Abi3)
           ++ (if m =? minor then each (language_tag implementation (major, m)) AT_None else []))
           (rev_range 2 minor))
     | _ => []
     end
  (* 3. no abi *)
  ++ concat (map (fun m =>
       each (LT_Python major (Some m)) AT_None
       ++ (if m =? minor then each (LT_Python major None) AT_None else [])) (rev_range 0 minor))
  (* 4. no binary *)
  ++ match implementation with
     | Impl_CPython _ => [(language_tag implementation python_version, AT_None, PT_Any)]
     | _ => []
     end
  ++ concat (map (fun m =>
       [(LT_Python major (Some m), AT_None, PT_Any)]
       ++ (if m =? minor then [(LT_Python major None, AT_None, PT_Any)] else [])) (rev_range 0 minor)).

(** [None] is a panic. *)
Definition from_env (platform : Platform) (python_version : N * N) (implementation_name : bytes)
    (implementation_version : N * N) (manylinux_compatible gil_disabled : bool)
    : option (result Tags TagsError) :=
  match Implementation_parse implementation_name gil_disabled with
  | Err e => Some (Err e)
  | Ok implementation =>
      tags ← compatible_tags platform;
      match tags with
      | Err e => Some (Err (PlatformErr e))
      | Ok platform_tags =>
          let platform_tags :=
            match os platform with
            | Os_Manylinux _ _ =>
                if manylinux_compatible then platform_tags
                else List.filter (fun tag => negb (is_manylinux tag)) platform_tags
            | _ => platform_tags
            end in
          tags ← Tags_new (env_tags platform_tags implementation python_version implementation_version);
          Some (Ok tags)
      end
  end.

End environment.
