(* ===== verification/TagsTheorems.v ===== *)
(** * Theorems on wheel tags *)

From stdpp Require Import base numbers list strings gmap.
From S2P Require Import Prelude Text PlatformTags PlatformTagsFacts Tags.

(** ** The index *)

(** The rank of a tag in the list of preferences: the length of the list from its
    last occurrence on, so earlier tags rank higher. *)
Fixpoint rank (tags : list tag) (t : tag) : option N :=
  match tags with
  | [] => None
  | x :: rest =>
      match rank rest t with
      | Some r => Some r
      | None => if decide (x = t) then Some (N.of_nat (length tags)) else None
      end
  end.

Definition lookup_tag (map : tag_map) (t : tag) : option TagPriority :=
  let '(py, abi, platform) := t in
  abis ← map !! py; platforms ← abis !! abi; platforms !! platform.

Lemma rank_app l k t :
  rank (l ++ k) t = match rank k t with
                    | Some r => Some r
                    | None => r ← rank l t; Some (r + N.of_nat (length k)) end.
Proof.
  induction l as [|x l IH]; cbn [app rank]; [by destruct (rank k t)|].
  rewrite IH. destruct (rank k t); [done|]. destruct (rank l t); cbn; [done|].
  case_decide; [|done]. cbn. f_equal. rewrite length_app. lia.
Qed.

Lemma rank_some l t : is_Some (rank l t) <-> t ∈ l.
Proof.
  induction l as [|x l IH]; cbn [rank].
  - split; [by intros [? ?]|by intros ?%elem_of_nil].
  - rewrite elem_of_cons, <- IH. destruct (rank l t); [naive_solver|]. case_decide; [naive_solver|].
    split; [by intros [? ?]|]. intros [->|[? ?]]; done.
Qed.

Lemma or_insert_lookup map t p u :
  lookup_tag (or_insert_tag map t p) u =
  match lookup_tag map u with Some q => Some q | None => if decide (t = u) then Some p else None end.
Proof.
  destruct t as [[py abi] platform], u as [[py' abi'] platform']. unfold lookup_tag, or_insert_tag.
  destruct (decide (py = py')) as [<-|Hpy].
  2: { rewrite lookup_insert_ne by done. destruct (map !! py'); cbn; [|by rewrite decide_False by congruence].
       destruct (g !! abi'); cbn; [|by rewrite decide_False by congruence].
       destruct (_ !! platform'); [done|by rewrite decide_False by congruence]. }
  rewrite lookup_insert. rewrite decide_True by done. cbn [mbind option_bind].
  set (abis := default ∅ (map !! py)).
  transitivity (match platforms ← abis !! abi'; platforms !! platform' with
                | Some q => Some q | None => if decide (abi = abi' /\ platform = platform') then Some p else None end).
  - destruct (decide (abi = abi')) as [<-|Habi].
    2: { rewrite lookup_insert_ne by done. destruct (abis !! abi'); cbn; [|by rewrite decide_False by naive_solver].
         destruct (_ !! platform'); [done|by rewrite decide_False by naive_solver]. }
    rewrite lookup_insert, decide_True by done. cbn [mbind option_bind].
    set (plats := default ∅ (abis !! abi)).
    assert ((platforms ← abis !! abi; platforms !! platform') = plats !! platform') as ->.
    { subst plats. destruct (abis !! abi); cbn; [done|]. by rewrite lookup_empty. }
    destruct (plats !! platform) eqn:Ep.
    + destruct (plats !! platform') eqn:Ep'; [done|]. rewrite decide_False; [done|]. intros [_ ->]. congruence.
    + destruct (decide (platform = platform')) as [<-|Hp].
      * rewrite lookup_insert, Ep, !decide_True by done. done.
      * rewrite lookup_insert_ne by done. destruct (plats !! platform'); [done|].
        by rewrite decide_False by naive_solver.
  - subst abis. destruct (map !! py) as [abis|]; cbn.
    + destruct (platforms ← abis !! abi'; platforms !! platform'); [done|].
      repeat case_decide; naive_solver.
    + rewrite lookup_empty. cbn. repeat case_decide; naive_solver.
Qed.

Lemma TagPriority_try_from_spec i :
  TagPriority_try_from i = if i <? u32_MAX then Some (i + 1) else None.
Proof.
  unfold TagPriority_try_from, u32_MAX. destruct (N.leb_spec i 4294967295), (N.ltb_spec i 4294967295); try lia; [| |done].
  - rewrite N.mod_small by (cbn; lia). rewrite (proj2 (N.eqb_neq _ _)) by lia. f_equal. lia.
  - by replace i with 4294967295 by lia.
Qed.

(** The index answers with the rank, and building it fails only on more tags than
    a priority can count. *)
Lemma index_tags_spec l i map :
  if i + N.of_nat (length l) <=? u32_MAX then
    exists map', index_tags i l map = Some map' /\
      forall t, lookup_tag map' t = match lookup_tag map t with
                                    | Some p => Some p
                                    | None => p ← rank (rev l) t; Some (p + i) end
  else l <> [] -> index_tags i l map = None.
Proof.
  revert i map. induction l as [|x l IH]; intros i map.
  - case_match; [|done]. exists map. split; [done|]. intros t. cbn. by destruct (lookup_tag map t).
  - cbn [index_tags]. rewrite TagPriority_try_from_spec. specialize (IH (i + 1) (or_insert_tag map x (i + 1))).
    replace (i + 1 + N.of_nat (length l)) with (i + N.of_nat (length (x :: l))) in IH by (cbn [length]; lia).
    destruct (N.leb_spec (i + N.of_nat (length (x :: l))) u32_MAX) as [Hl|Hl].
    + rewrite (proj2 (N.ltb_lt i u32_MAX)) by (cbn [length] in Hl; lia). cbn [mbind option_bind].
      destruct IH as (map'&->&Hmap). exists map'. split; [done|]. intros t.
      rewrite Hmap, or_insert_lookup. cbn [rev]. rewrite rank_app. cbn [rank length].
      destruct (lookup_tag map t); [done|]. destruct (decide (x = t)) as [->|]; [cbn; f_equal; lia|].
      destruct (rank (rev l) t); cbn; [|done]. f_equal. lia.
    + intros _. destruct (i <? u32_MAX) eqn:Ei; cbn [mbind option_bind]; [|done]. apply IH.
      destruct l; [|done]. cbn in Hl. apply N.ltb_lt in Ei. lia.
Qed.

Lemma Tags_new_spec tags :
  if N.of_nat (length tags) <=? u32_MAX then
    exists self, Tags_new tags = Some self /\ forall t, lookup_tag (map_ self) t = rank tags t
  else Tags_new tags = None.
Proof.
  unfold Tags_new. pose proof (index_tags_spec (rev tags) 0 ∅) as H. rewrite length_rev, N.add_0_l in H.
  destruct (N.leb_spec (N.of_nat (length tags)) u32_MAX) as [Hl|Hl].
  - destruct H as (map&->&Hm). eexists. split; [done|]. intros t. cbn [map_]. rewrite Hm, rev_involutive.
    destruct t as [[py abi] platform]. cbn [lookup_tag]. rewrite lookup_empty. cbn.
    destruct (rank tags _); cbn; [|done]. f_equal. lia.
  - rewrite H; [done|]. intros E. apply (f_equal (@rev _)) in E. rewrite rev_involutive in E. by subst.
Qed.

(** The keys of the two outer maps are the languages and ABIs that occur. *)
Lemma or_insert_keys map t p py abi :
  let '(py', abi', _) := t in
  let has_abi (m : tag_map) := is_Some (abis ← m !! py; abis !! abi) in
  (is_Some (or_insert_tag map t p !! py) <-> is_Some (map !! py) \/ py' = py) /\
  (has_abi (or_insert_tag map t p) <-> has_abi map \/ py' = py /\ abi' = abi).
Proof.
  destruct t as [[py' abi'] platform]. cbn zeta. unfold or_insert_tag.
  destruct (decide (py' = py)) as [->|Hpy].
  - rewrite lookup_insert, decide_True by done. split; [naive_solver|]. cbn [mbind option_bind].
    destruct (decide (abi' = abi)) as [->|Habi].
    + rewrite lookup_insert, decide_True by done. naive_solver.
    + rewrite lookup_insert_ne by done. destruct (map !! py) as [abis|]; cbn; [naive_solver|].
      rewrite lookup_empty. split; [by intros [? ?]|]. intros [[? ?]|[_ ?]]; done.
  - rewrite lookup_insert_ne by done. naive_solver.
Qed.

Lemma index_tags_keys l i map map' py abi :
  index_tags i l map = Some map' ->
  (is_Some (map' !! py) <-> is_Some (map !! py) \/ exists abi plat, (py, abi, plat) ∈ l) /\
  (is_Some (abis ← map' !! py; abis !! abi) <->
   is_Some (abis ← map !! py; abis !! abi) \/ exists plat, (py, abi, plat) ∈ l).
Proof.
  revert i map. induction l as [|t l IH]; intros i map.
  - intros [= <-]. split; (split; [by left|]); intros [?|H]; try done;
      repeat destruct H as [? H]; by apply elem_of_nil in H.
  - cbn [index_tags]. intros (p&_&E)%bind_Some. destruct (IH _ _ E) as [H1 H2]. rewrite H1, H2.
    pose proof (or_insert_keys map t p py abi) as Hk. destruct t as [[py' abi'] plat']. cbn zeta in Hk.
    destruct Hk as [-> ->]. setoid_rewrite elem_of_cons. split; naive_solver.
Qed.

Lemma Tags_new_keys tags self py abi :
  Tags_new tags = Some self ->
  (is_Some (map_ self !! py) <-> exists abi plat, (py, abi, plat) ∈ tags) /\
  (is_Some (abis ← map_ self !! py; abis !! abi) <-> exists plat, (py, abi, plat) ∈ tags).
Proof.
  unfold Tags_new. intros (map&E&[= <-])%bind_Some. cbn [map_].
  destruct (index_tags_keys _ _ _ _ py abi E) as [-> ->]. rewrite lookup_empty. cbn.
  setoid_rewrite list_elem_of_In. setoid_rewrite <- in_rev.
  split; (split; [intros [[? ?]|?]; [done|done]|by right]).
Qed.

(** ** Compatibility *)

Definition compatibility_key (c : TagCompatibility) : N * N :=
  match c with
  | Incompatible t => (0, IncompatibleTag_index t)
  | Compatible p => (1, p)
  end.

Lemma compatibility_cmp a b : cmp a b = cmp (compatibility_key a) (compatibility_key b).
Proof. by destruct a, b. Qed.

(** A running maximum is one of the values and bounds all of them. *)
Lemma foldl_max_spec (l : list TagCompatibility) c :
  foldl ord_max c l ∈ c :: l /\ forall x, x ∈ c :: l -> cmp x (foldl ord_max c l) <> Gt.
Proof.
  revert c. induction l as [|y l IH]; intros c; cbn [foldl].
  - split; [apply list_elem_of_here|]. intros x ->%list_elem_of_singleton.
    rewrite compatibility_cmp, cmp_refl. done.
  - destruct (IH (ord_max c y)) as [Hin Hle].
    assert (ord_max c y ∈ [c; y] /\ cmp c (ord_max c y) <> Gt /\ cmp y (ord_max c y) <> Gt) as (Hm&Hc&Hy).
    { unfold ord_max. rewrite !compatibility_cmp. pose proof (cmp_opp (compatibility_key c) (compatibility_key y)) as Ho.
      pose proof (cmp_refl (compatibility_key c)) as R1. pose proof (cmp_refl (compatibility_key y)) as R2.
      destruct (cmp (compatibility_key c) (compatibility_key y)) eqn:E; cbn in Ho;
        rewrite ?compatibility_cmp, ?E, ?Ho, ?R1, ?R2;
        (split; [rewrite elem_of_cons, list_elem_of_singleton; naive_solver|done]). }
    split.
    + apply elem_of_cons in Hin as [->|Hin]; [|by do 2 apply list_elem_of_further].
      rewrite elem_of_cons, list_elem_of_singleton in Hm. rewrite !elem_of_cons. naive_solver.
    + intros x Hx. assert (exists z, z ∈ ord_max c y :: l /\ cmp x z <> Gt) as (z&Hz&Hxz).
      { rewrite !elem_of_cons in Hx. destruct Hx as [->|[->|Hx]].
        - exists (ord_max c y). split; [apply list_elem_of_here|done].
        - exists (ord_max c y). split; [apply list_elem_of_here|done].
        - exists x. split; [by apply list_elem_of_further|]. by rewrite compatibility_cmp, cmp_refl. }
      specialize (Hle z Hz). rewrite !compatibility_cmp in *. by eapply cmp_le_trans.
Qed.

Section outcomes.
Context (map : tag_map) (pys : list LanguageTag) (abis : list AbiTag) (plats : list PlatformTag).

Definition platform_outcome (platforms : gmap PlatformTag TagPriority) (plat : PlatformTag) : TagCompatibility :=
  match platforms !! plat with Some p => Compatible p | None => Incompatible IT_Platform end.

Definition abi_outcomes (m : gmap AbiTag (gmap PlatformTag TagPriority)) (abi : AbiTag) : list TagCompatibility :=
  match m !! abi with
  | None => [Incompatible IT_Abi]
  | Some platforms => platform_outcome platforms <$> plats
  end.

Definition python_outcomes (py : LanguageTag) : list TagCompatibility :=
  match map !! py with None => [Incompatible IT_Python] | Some m => abis ≫= abi_outcomes m end.

Lemma compatibility_outcomes c :
  foldl (python_step map abis plats) c pys = foldl ord_max c (pys ≫= python_outcomes).
Proof using.
  assert (forall platforms l c, foldl (platform_step platforms) c l
            = foldl ord_max c (platform_outcome platforms <$> l)) as Hp.
  { intros platforms l. induction l as [|x l IH]; intros c'; [done|]. cbn [foldl fmap list_fmap].
    rewrite IH. unfold platform_step, platform_outcome. by destruct (platforms !! x). }
  assert (forall m l c, foldl (abi_step m plats) c l = foldl ord_max c (l ≫= abi_outcomes m)) as Ha.
  { intros m l. induction l as [|x l IH]; intros c'; [done|]. cbn [foldl mbind list_bind].
    rewrite foldl_app, IH. unfold abi_step, abi_outcomes. destruct (m !! x); [by rewrite Hp|done]. }
  revert c. induction pys as [|x l IH]; intros c; [done|]. cbn [foldl mbind list_bind].
  rewrite foldl_app, IH. unfold python_step, python_outcomes. destruct (map !! x); [by rewrite Ha|done].
Qed.
End outcomes.

(** Some tag of the list has this language, or this language and ABI. *)
Definition knows_py (tags : list tag) (py : LanguageTag) : bool :=
  existsb (fun t : tag => bool_decide (fst (fst t) = py)) tags.
Definition knows_abi (tags : list tag) (py : LanguageTag) (abi : AbiTag) : bool :=
  existsb (fun t : tag => bool_decide (fst t = (py, abi))) tags.

(** The most specific reason for which no tag of the wheel is in the list. *)
Definition closest (tags : list tag) (pys : list LanguageTag) (abis : list AbiTag)
    (plats : list PlatformTag) : IncompatibleTag :=
  if existsb (fun py => existsb (knows_abi tags py) abis) pys && negb (bool_decide (plats = [])) then IT_Platform
  else if existsb (fun py => knows_py tags py && existsb (fun abi => negb (knows_abi tags py abi)) abis) pys then IT_Abi
  else if existsb (fun py => negb (knows_py tags py)) pys then IT_Python
  else IT_Invalid.

Section compatibility.
Context (tags : list tag) (self : Tags) (Hself : Tags_new tags = Some self).
Context (pys : list LanguageTag) (abis : list AbiTag) (plats : list PlatformTag).

Let outcomes := pys ≫= python_outcomes (map_ self) abis plats.

Lemma lookup_rank t : lookup_tag (map_ self) t = rank tags t.
Proof using Hself.
  pose proof (Tags_new_spec tags) as H. destruct (_ <=? _); [|congruence].
  destruct H as (self'&E&H). rewrite Hself in E. injection E as <-. apply H.
Qed.

(** What each triple, pair and language contributes. *)
Lemma outcome_compatible p :
  Compatible p ∈ outcomes <->
  exists py abi plat, py ∈ pys /\ abi ∈ abis /\ plat ∈ plats /\ rank tags (py, abi, plat) = Some p.
Proof using Hself.
  unfold outcomes. rewrite list_elem_of_bind. unfold python_outcomes.
  setoid_rewrite <- lookup_rank. unfold lookup_tag. split.
  - intros (py&Hin&Hpy). destruct (map_ self !! py) as [m|] eqn:Em; [|by apply list_elem_of_singleton in Hin].
    apply list_elem_of_bind in Hin as (abi&Hin&Habi). unfold abi_outcomes in Hin.
    destruct (m !! abi) as [pm|] eqn:Ea; [|by apply list_elem_of_singleton in Hin].
    apply list_elem_of_fmap in Hin as (plat&E&Hplat). unfold platform_outcome in E.
    exists py, abi, plat. rewrite Em. cbn. rewrite Ea. cbn. by destruct (pm !! plat); simplify_eq.
  - intros (py&abi&plat&Hpy&Habi&Hplat&E). exists py. split; [|done].
    apply bind_Some in E as (m&->&(pm&Ea&Ep)%bind_Some). apply list_elem_of_bind. exists abi. split; [|done].
    unfold abi_outcomes. rewrite Ea. apply list_elem_of_fmap. exists plat. unfold platform_outcome. by rewrite Ep.
Qed.

Lemma knows_py_spec py :
  knows_py tags py = bool_decide (is_Some (map_ self !! py)).
Proof using Hself.
  unfold knows_py. apply eq_true_iff_eq. rewrite existsb_exists, bool_decide_eq_true.
  rewrite (proj1 (Tags_new_keys tags self py AT_None Hself)). setoid_rewrite bool_decide_eq_true.
  setoid_rewrite list_elem_of_In. split.
  - intros ([[py' abi'] plat']&Hin&E). cbn in E. subst. eauto.
  - intros (abi&plat&Hin). by exists (py, abi, plat).
Qed.

Lemma knows_abi_spec py abi :
  knows_abi tags py abi
  = bool_decide (is_Some (abis ← map_ self !! py; abis !! abi)).
Proof using Hself.
  unfold knows_abi. apply eq_true_iff_eq. rewrite existsb_exists, bool_decide_eq_true.
  rewrite (proj2 (Tags_new_keys tags self py abi Hself)). setoid_rewrite bool_decide_eq_true.
  setoid_rewrite list_elem_of_In. split.
  - intros ([[py' abi'] plat']&Hin&E). cbn in E. simplify_eq. eauto.
  - intros (plat&Hin). by exists (py, abi, plat).
Qed.

Lemma outcome_platform :
  (forall p, Compatible p ∉ outcomes) ->
  Incompatible IT_Platform ∈ outcomes <->
  existsb (fun py => existsb (fun abi =>
    knows_abi tags py abi) abis) pys
  && negb (bool_decide (plats = [])) = true.
Proof using Hself.
  intros Hno. rewrite andb_true_iff, existsb_exists, negb_true_iff, bool_decide_eq_false.
  setoid_rewrite existsb_exists. setoid_rewrite knows_abi_spec. setoid_rewrite bool_decide_eq_true.
  setoid_rewrite <- list_elem_of_In. unfold outcomes in *. split.
  - intros (py&Hin&Hpy)%list_elem_of_bind. unfold python_outcomes in Hin.
    destruct (map_ self !! py) as [m|] eqn:Em; [|by apply list_elem_of_singleton in Hin].
    apply list_elem_of_bind in Hin as (abi&Hin&Habi). unfold abi_outcomes in Hin.
    destruct (m !! abi) as [pm|] eqn:Ea; [|by apply list_elem_of_singleton in Hin].
    apply list_elem_of_fmap in Hin as (plat&_&Hplat).
    split; [|intros ->; by apply elem_of_nil in Hplat].
    exists py. split; [done|]. exists abi. split; [done|]. rewrite Em. cbn. rewrite Ea. by eexists.
  - intros [(py&Hpy&abi&Habi&[pm E]) Hne]. apply bind_Some in E as (m&Em&Ea).
    destruct plats as [|plat plats'] eqn:Eplats; [done|].
    assert (platform_outcome pm plat ∈ pys ≫= python_outcomes (map_ self) abis (plat :: plats')) as Hin.
    { apply list_elem_of_bind. exists py. split; [|done]. unfold python_outcomes. rewrite Em.
      apply list_elem_of_bind. exists abi. split; [|done]. unfold abi_outcomes. rewrite Ea.
      apply list_elem_of_here. }
    unfold platform_outcome in Hin. destruct (pm !! plat); [by apply Hno in Hin|done].
Qed.

Lemma outcome_abi :
  Incompatible IT_Abi ∈ outcomes <->
  existsb (fun py => knows_py tags py
    && existsb (fun abi => negb (knows_abi tags py abi)) abis) pys = true.
Proof using Hself.
  rewrite existsb_exists. setoid_rewrite andb_true_iff. setoid_rewrite knows_py_spec.
  setoid_rewrite existsb_exists. setoid_rewrite negb_true_iff. setoid_rewrite knows_abi_spec.
  setoid_rewrite bool_decide_eq_true. setoid_rewrite bool_decide_eq_false. setoid_rewrite <- list_elem_of_In.
  unfold outcomes. rewrite list_elem_of_bind. unfold python_outcomes. split.
  - intros (py&Hin&Hpy). destruct (map_ self !! py) as [m|] eqn:Em; [|by apply list_elem_of_singleton in Hin].
    apply list_elem_of_bind in Hin as (abi&Hin&Habi). unfold abi_outcomes in Hin. destruct (m !! abi) eqn:Ea.
    + apply list_elem_of_fmap in Hin as (plat&E&_). unfold platform_outcome in E. by destruct (g !! plat).
    + exists py. split; [done|]. rewrite Em. split; [by eexists|]. exists abi. split; [done|]. cbn.
      rewrite Ea. by intros [? ?].
  - intros (py&Hpy&[m Em]&abi&Habi&Hn). exists py. split; [|done]. rewrite Em in Hn |- *. cbn in Hn.
    apply list_elem_of_bind. exists abi. split; [|done]. unfold abi_outcomes.
    destruct (m !! abi); [destruct Hn; by eexists|apply list_elem_of_here].
Qed.

Lemma outcome_python :
  Incompatible IT_Python ∈ outcomes <->
  existsb (fun py => negb (knows_py tags py)) pys = true.
Proof using Hself.
  rewrite existsb_exists. setoid_rewrite negb_true_iff. setoid_rewrite knows_py_spec.
  setoid_rewrite bool_decide_eq_false. setoid_rewrite <- list_elem_of_In.
  unfold outcomes. rewrite list_elem_of_bind. unfold python_outcomes. split.
  - intros (py&Hin&Hpy). exists py. split; [done|]. destruct (map_ self !! py) as [m|]; [|by intros [? ?]].
    apply list_elem_of_bind in Hin as (abi&Hin&Habi). unfold abi_outcomes in Hin. destruct (m !! abi).
    + apply list_elem_of_fmap in Hin as (plat&E&_). unfold platform_outcome in E. by destruct (g !! plat).
    + by apply list_elem_of_singleton in Hin.
  - intros (py&Hpy&Hn). exists py. split; [|done].
    destruct (map_ self !! py); [destruct Hn; by eexists|apply list_elem_of_here].
Qed.

Lemma outcome_reasons reason :
  Incompatible reason ∈ outcomes -> reason = IT_Python \/ reason = IT_Abi \/ reason = IT_Platform.
Proof using.
  unfold outcomes. intros (py&Hin&_)%list_elem_of_bind. unfold python_outcomes in Hin.
  destruct (map_ self !! py) as [m|]; [|apply list_elem_of_singleton in Hin; naive_solver].
  apply list_elem_of_bind in Hin as (abi&Hin&_). unfold abi_outcomes in Hin.
  destruct (m !! abi) as [pm|]; [|apply list_elem_of_singleton in Hin; naive_solver].
  apply list_elem_of_fmap in Hin as (plat&E&_). unfold platform_outcome in E. destruct (pm !! plat); naive_solver.
Qed.

End compatibility.

(** The short-circuiting test is the existence of a compatible triple. *)
Lemma is_compatible_outcomes self pys abis plats :
  Tags_is_compatible self pys abis plats
  = existsb TagCompatibility_is_compatible (pys ≫= python_outcomes (map_ self) abis plats).
Proof.
  unfold Tags_is_compatible. induction pys as [|py pys IH]; [done|]. cbn [existsb mbind list_bind].
  rewrite existsb_app, <- IH. f_equal. unfold python_outcomes. destruct (map_ self !! py) as [m|]; [|done].
  clear IH. induction abis as [|abi abis IH]; [done|]. cbn [existsb mbind list_bind].
  rewrite existsb_app, <- IH. f_equal. unfold abi_outcomes. destruct (m !! abi) as [pm|]; [|done].
  clear IH. induction plats as [|plat plats IH]; [done|]. cbn [existsb fmap list_fmap]. rewrite <- IH. f_equal.
  unfold platform_outcome. by destruct (pm !! plat).
Qed.

(** C37: compatibility of a wheel is decided by the list of preferences: the result is
    compatible with the highest rank of any combination of the wheel's language, ABI
    and platform tags in the list, and if there is none it names the most specific
    component that fails; and the short-circuiting test agrees with it. *)
Theorem compatibility_best_rank (tags : list tag) (self : Tags) (Hself : Tags_new tags = Some self)
    (pys : list LanguageTag) (abis : list AbiTag) (plats : list PlatformTag) :
  Tags_is_compatible self pys abis plats
  = TagCompatibility_is_compatible (Tags_compatibility self pys abis plats) /\
  match Tags_compatibility self pys abis plats with
  | Compatible p =>
      (exists py abi plat, py ∈ pys /\ abi ∈ abis /\ plat ∈ plats /\ rank tags (py, abi, plat) = Some p) /\
      (forall py abi plat q, py ∈ pys -> abi ∈ abis -> plat ∈ plats ->
         rank tags (py, abi, plat) = Some q -> q <= p)
  | Incompatible reason =>
      (forall py abi plat, py ∈ pys -> abi ∈ abis -> plat ∈ plats -> (py, abi, plat) ∉ tags) /\
      reason = closest tags pys abis plats
  end.
Proof.
  pose proof (outcome_compatible tags self Hself pys abis plats) as Hc.
  pose proof (outcome_platform tags self Hself pys abis plats) as Hp.
  pose proof (outcome_abi tags self Hself pys abis plats) as Ha.
  pose proof (outcome_python tags self Hself pys abis plats) as Hpy.
  unfold Tags_compatibility. rewrite compatibility_outcomes, is_compatible_outcomes.
  set (l := pys ≫= _) in *. destruct (foldl_max_spec l (Incompatible IT_Invalid)) as [Hin Hle].
  destruct (foldl _ _ l) as [reason|p]; cbn [TagCompatibility_is_compatible].
  - assert (forall p, Compatible p ∉ l) as Hno.
    { intros p Hpin. by specialize (Hle (Compatible p) (list_elem_of_further _ _ _ Hpin)). }
    split; [|split].
    + apply not_true_is_false. rewrite existsb_exists. intros ([]&Hx&E); [done|].
      apply list_elem_of_In in Hx. by eapply Hno.
    + intros py abi plat H1 H2 H3 [q Hq]%rank_some. apply (Hno q), Hc. eauto 10.
    + assert (forall t, Incompatible t ∈ l -> IncompatibleTag_index t <= IncompatibleTag_index reason) as Hmax.
      { intros t Ht. specialize (Hle _ (list_elem_of_further _ (Incompatible IT_Invalid) _ Ht)).
        exact Hle. }
      pose proof (outcome_reasons self pys abis plats reason) as Hr. fold l in Hr.
      unfold closest. specialize (Hp Hno).
      destruct (existsb (fun py => existsb _ abis) pys && _), (existsb (fun py => knows_py _ _ && _) pys),
        (existsb (fun py => negb _) pys);
        apply elem_of_cons in Hin as [[= ->]|Hin];
        repeat match goal with
        | H : _ <-> true = true |- _ => apply proj2 in H; specialize (H eq_refl); apply Hmax in H; cbn in H
        end; try (exfalso; lia); try done;
        destruct (Hr Hin) as [->|[->| ->]]; cbn in *; try lia; try done; naive_solver.
  - apply elem_of_cons in Hin as [?|Hin]; [done|]. split; [|split].
    + apply existsb_exists. exists (Compatible p). split; [by apply list_elem_of_In|done].
    + by apply Hc.
    + intros py abi plat q H1 H2 H3 Hq.
      assert (Compatible q ∈ l) as Hql by (apply Hc; eauto 10).
      specialize (Hle _ (list_elem_of_further _ (Incompatible IT_Invalid) _ Hql)). exact Hle.
Qed.

Definition example_tags : list tag :=
  [(LT_CPython (3, 9), AT_CPython false (3, 9), PT_Linux X86_64); (LT_CPython (3, 9), AT_Abi3, PT_Linux X86_64);
   (LT_Python 3 None, AT_None, PT_Any)].

Lemma compatibility_best_rank_witness :
  exists self, Tags_new example_tags = Some self /\
    Tags_is_compatible self [LT_Python 2 None; LT_Python 3 None] [AT_None] [PT_Any]
    = TagCompatibility_is_compatible
        (Tags_compatibility self [LT_Python 2 None; LT_Python 3 None] [AT_None] [PT_Any]).
Proof.
  destruct (Tags_new example_tags) as [self|] eqn:E.
  - exists self. split; [reflexivity|]. apply (compatibility_best_rank example_tags self E).
  - exfalso. pose proof (Tags_new_spec example_tags) as H. rewrite E in H. cbn in H. destruct H as (?&?&_). discriminate.
Defined.

(** ** Building the tags of an environment *)

(** Versions are [u16] numbers. *)
Definition os_ok (o : Os) : Prop :=
  match o with
  | Os_Manylinux major minor | Os_Musllinux major minor | Os_Pyodide major minor | Os_Macos major minor
  | Os_Ios major minor _ => major <= u16_MAX /\ minor <= u16_MAX
  | Os_Android api_level => api_level <= u16_MAX
  | _ => True
  end.

Lemma length_rev_range a b : length (rev_range a b) = N.to_nat (b + 1 - a).
Proof. unfold rev_range. by rewrite length_map, length_seq. Qed.

Lemma length_concat_map {A B} (f : A -> list B) l n :
  (forall x, (length (f x) <= n)%nat) -> (length (concat (map f l)) <= length l * n)%nat.
Proof.
  intros Hf. induction l as [|x l IH]; cbn; [lia|]. rewrite length_app. specialize (Hf x). lia.
Qed.

Lemma macos_formats_length a vs :
  a = X86_64 \/ a = Aarch64 ->
  exists l, macos_formats a vs = Some l /\ (length l <= length vs * 6)%nat.
Proof.
  intros [-> | ->]; (destruct vs as [|v vs]; [by exists []|]); cbn [macos_formats BinaryFormat_from_arch mbind option_bind];
    (eexists; split; [done|]); apply length_concat_map; intros x; cbn; lia.
Qed.

(** The platform tags of an environment exist and are not too many to count. *)
Lemma compatible_tags_length lower p :
  os_ok (os p) ->
  exists r, compatible_tags lower p = Some r /\
    match r with Ok l => N.of_nat (length l) <= 800000 | Err _ => True end.
Proof.
  unfold os_ok, compatible_tags, u16_MAX.
  destruct (os p) as [major minor|major minor| |major minor|major minor|r|r|r|r|r a|r|api|major minor sim];
    intros Hok; try (eexists; split; [done|]; cbn; lia).
  - eexists. split; [done|]. unfold manylinux_tags. rewrite length_app. cbn [length].
    destruct (get_minimum_manylinux_minor (arch p)) as [m|]; [|cbn; lia].
    match goal with |- context [concat (map ?f ?l)] =>
      pose proof (length_concat_map f l 4) as Hl end.
    rewrite length_rev_range in Hl. lapply Hl; [clear Hl; intros Hl; lia|].
    intros x. rewrite !length_app. repeat case_match; cbn; lia.
  - eexists. split; [done|]. unfold musllinux_tags. cbn [length]. rewrite length_map, length_seq. lia.
  - destruct (arch p); eexists; (split; [done|]); cbn; lia || done.
  - destruct (arch p); eexists; (split; [done|]); cbn; lia || done.
  - destruct (arch p); try (by eexists).
    + unfold macos_aarch64_tags.
      destruct (macos_formats_length Aarch64 (map (fun major => (major, 0)) (rev_range 11 major))) as (l&->&Hl); [by right|].
      cbn [mbind option_bind]. eexists. split; [done|]. rewrite length_map, length_rev_range in Hl.
      cbv iota. rewrite length_app, length_map, length_rev_range. lia.
    + unfold macos_x86_64_tags.
      destruct (macos_formats_length X86_64 (map (fun minor => (10, minor)) (rev_range 4 minor))) as (l1&->&H1); [by left|].
      destruct (macos_formats_length X86_64 (map (fun major => (major, 0)) (rev_range 11 major))) as (l2&->&H2); [by left|].
      destruct (macos_formats_length X86_64 (map (fun minor => (10, minor)) (rev_range 4 16))) as (l3&->&H3); [by left|].
      cbn [mbind option_bind]. rewrite length_map, length_rev_range in H1, H2, H3.
      repeat case_match; (eexists; split; [done|]); cbv iota; rewrite ?length_app; lia || done.
  - eexists. split; [done|]. unfold illumos_tags. repeat case_match; simplify_eq; cbn; lia || done.
  - eexists. split; [done|]. unfold android_tags. pose proof (length_rev_range 16 api) as Hl.
    destruct (rev_range 16 api); [cbn; lia|]. destruct (AndroidAbi_from_arch _); cbn [map_err rbind]; [|done].
    rewrite length_map, Hl. lia.
  - eexists. split; [done|]. unfold ios_tags. destruct (IosMultiarch_from_arch _ _); cbn [map_err rbind]; [|done].
    destruct (major <? 12); [cbn; lia|]. rewrite !length_app. cbn [length].
    match goal with |- context [concat (map ?f ?l)] => pose proof (length_concat_map f l 10) as Hl end.
    rewrite length_rev_range in Hl. lapply Hl; [clear Hl; intros Hl|intros x; by rewrite length_map, length_rev_range].
    case_match; rewrite ?length_map, ?length_rev_range; cbn [length]; lia.
Qed.

Lemma env_tags_length l impl v w :
  N.of_nat (length l) <= 800000 -> snd v <= u8_MAX ->
  N.of_nat (length (env_tags l impl v w)) <= u32_MAX.
Proof.
  destruct v as [major minor]. unfold env_tags, u8_MAX, u32_MAX. cbn [snd]. intros Hl Hm.
  set (n := N.to_nat 1600000).
  assert (forall (f : N -> list tag) a, (forall x, (length (f x) <= n)%nat) ->
            (length (concat (map f (rev_range a minor))) <= 256 * n)%nat) as Hc.
  { intros f a Hf. pose proof (length_concat_map f (rev_range a minor) n Hf) as H.
    rewrite length_rev_range in H. etransitivity; [exact H|]. apply Nat.mul_le_mono_r. lia. }
  rewrite !length_app, length_map.
  match goal with |- context [(length (concat (map ?f (rev_range 0 minor))) + (_ + length (concat (map ?g _))))%nat] =>
    pose proof (Hc f 0) as H1; pose proof (Hc g 0) as H2 end.
  lapply H1; [clear H1; intros H1|intros x; rewrite length_app; case_match; rewrite ?length_map; cbn [length]; lia].
  lapply H2; [clear H2; intros H2|intros x; case_match; cbn; lia].
  assert (forall gil : bool, (length (concat (map (fun m : N =>
      (if gil then [] else map (fun t => (language_tag impl (major, m), AT_Abi3, t)) l)
      ++ (if (m =? minor)%N then map (fun t => (language_tag impl (major, m), AT_None, t)) l else []))
      (rev_range 2 minor))) <= 256 * n)%nat) as H3.
  { intros gil. apply Hc. intros x. rewrite length_app. repeat case_match; rewrite ?length_map; cbn [length]; lia. }
  destruct impl as [gil| | |]; cbn [length]; [specialize (H3 gil); lia|lia..].
Qed.

(** Building the tags of an environment never panics: with versions in the range
    of their types there are never more tags than a priority can count, and the
    [unreachable!()] of the binary formats is not reached. *)
Theorem from_env_total (to_lowercase : bytes -> bytes) (platform : Platform) (python_version implementation_version : N * N)
    (name : bytes) (manylinux_compatible gil_disabled : bool)
    (Hos : os_ok (os platform)) (Hpy : snd python_version <= u8_MAX) :
  is_Some (from_env to_lowercase platform python_version name implementation_version manylinux_compatible gil_disabled).
Proof.
  unfold from_env. destruct (Implementation_parse name gil_disabled) as [impl|]; [|by eexists].
  destruct (compatible_tags_length to_lowercase platform Hos) as (r&->&Hr). cbn [mbind option_bind].
  destruct r as [l|]; [|by eexists].
  match goal with |- context [env_tags ?x impl] => set (l' := x) end.
  assert (N.of_nat (length l') <= 800000) as Hl.
  { subst l'. repeat case_match; try done. etransitivity; [|exact Hr].
    pose proof (filter_length_le (fun tag => negb (is_manylinux tag)) l). lia. }
  pose proof (Tags_new_spec (env_tags l' impl python_version implementation_version)) as H.
  rewrite (proj2 (N.leb_le _ _)) in H by (by apply env_tags_length). destruct H as (self&->&_). by eexists.
Qed.

Definition example_platform : Platform := {| os := Os_Manylinux 2 17; arch := X86_64 |}.

(** ** The environment's own tags are recognised *)

Lemma rev_range_le a b x : x ∈ rev_range a b -> x <= b.
Proof. unfold rev_range. intros (i&->&_)%list_elem_of_fmap. lia. Qed.

Lemma Forall_concat_map {A B} (P : B -> Prop) (f : A -> list B) l :
  (forall x, x ∈ l -> Forall P (f x)) -> Forall P (concat (map f l)).
Proof.
  intros H. induction l as [|x l IH]; cbn; [done|]. apply Forall_app. split.
  - apply H, list_elem_of_here.
  - apply IH. intros y Hy. by apply H, list_elem_of_further.
Qed.

Lemma macos_formats_ok a vs l :
  Forall (fun v => fst v <= u16_MAX /\ snd v <= u16_MAX) vs -> macos_formats a vs = Some l -> Forall platform_ok l.
Proof.
  intros Hvs. unfold macos_formats. destruct vs as [|v vs]; [by intros [= <-]|].
  intros (formats&_&[= <-])%bind_Some.
  apply (Forall_concat_map _ (fun v => map (fun f => PT_Macos (fst v) (snd v) f) formats) (v :: vs)). intros x Hx.
  rewrite Forall_forall in Hvs. specialize (Hvs x Hx). induction formats; cbn; constructor; done.
Qed.

Lemma compatible_tags_ok lower p l :
  os_ok (os p) -> arch_ok (arch p) \/ (exists a b, os p = Os_Pyodide a b) ->
  compatible_tags lower p = Some (Ok l) -> Forall platform_ok l.
Proof.
  assert (forall x y : bytes, x ++ bs "_" ++ y <> []) as Hne by (intros []; done).
  assert (forall n : N, n <= u16_MAX -> forall a (f : N -> N * N), (forall x, x <= n -> fst (f x) <= u16_MAX /\ snd (f x) <= u16_MAX) ->
    Forall (fun v => fst v <= u16_MAX /\ snd v <= u16_MAX) (map f (rev_range a n))) as Hvs.
  { intros n Hn a f Hf. apply Forall_fmap, Forall_forall. intros x Hx%rev_range_le. by apply Hf. }
  unfold os_ok, compatible_tags.
  destruct (os p) as [major minor|major minor| |major minor|major minor|r|r|r|r|r a|r|api|major minor sim] eqn:Eos;
    intros Hok Ha; try (intros [= <-]; constructor; [by apply Hne|done]).
  - destruct Ha as [Ha|(?&?&?)]; [|done]. intros [= <-]. unfold manylinux_tags. apply Forall_app.
    split; [|by constructor]. destruct (get_minimum_manylinux_minor (arch p)); [|done].
    apply Forall_concat_map. intros x Hx%rev_range_le. destruct Hok.
    repeat (apply Forall_app; split); repeat case_match; repeat constructor; try done; lia.
  - destruct Ha as [Ha|(?&?&?)]; [|done]. intros [= <-]. unfold musllinux_tags. constructor; [done|].
    apply Forall_fmap, Forall_forall. intros x Hx. apply elem_of_seq in Hx. destruct Hok. repeat split; try done; cbn; lia.
  - destruct (arch p); intros [= <-]; by repeat constructor.
  - destruct (arch p); try done. intros [= <-]. constructor; [done|constructor].
  - destruct Hok as [H1 H2].
    assert (forall n, n <= 16 -> Forall (fun v => fst v <= u16_MAX /\ snd v <= u16_MAX) (map (fun minor => (10, minor)) (rev_range 4 n))) as H16.
    { intros n Hn. apply Hvs; unfold u16_MAX; [lia|]. cbn. lia. }
    destruct (arch p); try done.
    + unfold macos_aarch64_tags. intros (tags&(tags'&E&[= <-])%bind_Some&[= <-])%bind_Some. apply Forall_app. split.
      * eapply macos_formats_ok, E. apply Hvs; [done|]. cbn. unfold u16_MAX in *. lia.
      * repeat (constructor; [split; vm_compute; discriminate|]). constructor.
    + unfold macos_x86_64_tags. case_match; [|case_match; [|done]].
      * intros (tags&E&[= <-])%bind_Some. eapply macos_formats_ok, E. apply Hvs; [done|]. cbn. unfold u16_MAX in *. lia.
      * intros (tags&E&(tags'&E'&[= <-])%bind_Some)%bind_Some. apply Forall_app. split.
        -- eapply macos_formats_ok, E. apply Hvs; [done|]. cbn. unfold u16_MAX in *. lia.
        -- eapply macos_formats_ok, E'. by apply H16.
  - unfold illumos_tags. repeat case_match; intros [= <-]; constructor; try done; by apply Hne || apply Hne.
  - unfold android_tags. destruct (rev_range 16 api) as [|x xs] eqn:Er; [by intros [= <-]|].
    destruct (AndroidAbi_from_arch _) as [abi|]; cbn [map_err rbind]; [|done]. intros [= <-].
    change (Forall platform_ok (map (fun ver => PT_Android ver abi) (x :: xs))). rewrite <- Er. apply Forall_fmap, Forall_forall. intros y Hy%rev_range_le. cbn. lia.
  - destruct Hok as [H1 H2]. unfold ios_tags. destruct (IosMultiarch_from_arch _ _); cbn [map_err rbind]; [|done].
    destruct (major <? 12); [by intros [= <-]|]. intros [= <-].
    constructor; [done|]. apply Forall_app. split.
    + case_match; [done|]. apply Forall_fmap, Forall_forall. intros x Hx%rev_range_le. cbn. lia.
    + apply Forall_concat_map. intros x Hx%rev_range_le. unfold u16_MAX in *.
      repeat (constructor; [cbn [platform_ok]; unfold u16_MAX; split; lia|]). constructor.
Qed.

Lemma env_tags_ok l impl major minor w language abi platform :
  Forall platform_ok l -> major < 10 -> minor < 100 -> pair_ok w ->
  (impl = Impl_CPython true -> 7 < minor) ->
  (language, abi, platform) ∈ env_tags l impl (major, minor) w ->
  language_ok language /\ abi_ok abi /\ platform_ok platform.
Proof.
  intros Hl Hma Hmi Hw Hgil.
  assert (forall m, m <= minor -> pair_ok (major, m)) as Hp by (split; cbn; unfold u8_MAX; lia).
  set (ok (t : tag) := language_ok (fst (fst t)) /\ abi_ok (snd (fst t)) /\ platform_ok (snd t)).
  assert (forall a b, language_ok a -> abi_ok b -> Forall ok (map (fun t => (a, b, t)) l)) as Heach.
  { intros a b Ha Hb. apply Forall_fmap. eapply Forall_impl; [done|]. intros t Ht. by split. }
  enough (Forall ok (env_tags l impl (major, minor) w)) as H by (rewrite Forall_forall in H; apply (H (_, _, _))).
  assert (forall m, m <= minor -> language_ok (language_tag impl (major, m))) as Hlang.
  { intros m Hm. destruct impl; by apply Hp. }
  unfold env_tags. repeat (apply Forall_app; split).
  - apply Heach; [by apply Hlang|]. destruct impl as [gil| | |]; cbn [abi_tag abi_ok]; [|by split; [apply Hp|]..|done].
    split; [by apply Hp|]. cbn. intros H7. destruct gil; [specialize (Hgil eq_refl); lia|done].
  - destruct impl as [gil| | |]; try done. apply Forall_concat_map. intros m Hm%rev_range_le.
    apply Forall_app. split; (case_match; [done || apply Heach|done || apply Heach]); try done; by apply Hlang.
  - apply Forall_concat_map. intros m Hm%rev_range_le. apply Forall_app.
    split; [apply Heach; cbn; [lia|done]|]. case_match; [|done]. apply Heach; done.
  - destruct impl; try done. constructor; [|done]. split; [by apply (Hlang minor)|done].
  - apply Forall_concat_map. intros m Hm%rev_range_le. constructor; [split; cbn; [lia|done]|].
    case_match; [|done]. constructor; [|done]. done.
Qed.

(** An environment recognises its own tags: every tag in the list of preferences,
    printed in a wheel's file name, is parsed back to the same tag (for Python
    versions up to [X.99], architectures other than [wasm32] on Linux, and
    free-threading after 3.7). *)
Theorem env_tags_recognised {M : Memchr} {HM : MemchrLaws M} (to_lowercase : bytes -> bytes) (p : Platform) (l : list PlatformTag)
    (impl : Implementation) (major minor : N) (w : N * N)
    (language : LanguageTag) (abi : AbiTag) (platform : PlatformTag)
    (Hos : os_ok (os p)) (Harch : arch_ok (arch p) \/ exists a b, os p = Os_Pyodide a b)
    (Hl : compatible_tags to_lowercase p = Some (Ok l))
    (Hmajor : major < 10) (Hminor : minor < 100) (Hw : pair_ok w)
    (Hgil : impl = Impl_CPython true -> 7 < minor)
    (Hin : (language, abi, platform) ∈ env_tags l impl (major, minor) w) :
  LanguageTag_from_str (LanguageTag_show language) = Ok language /\
  AbiTag_from_str (AbiTag_show abi) = Ok abi /\
  PlatformTag_from_str (PlatformTag_show platform) = Ok platform.
Proof.
  pose proof (compatible_tags_ok _ _ _ Hos Harch Hl) as Hok.
  destruct (env_tags_ok l impl major minor w language abi platform) as (H1&H2&H3); [done..|].
  split_and!; [by apply LanguageTag_round_trip|by apply AbiTag_round_trip|by apply PlatformTag_round_trip].
Qed.

(** Parsing and printing tags: a parsed language or platform tag prints to a
    string that parses to the same tag, and so does a parsed ABI tag, unless it is a
    free-threaded one of Python 3.7 or earlier. *)
Theorem tags_round_trip {M : Memchr} {HM : MemchrLaws M} (s : bytes) :
  (forall t, LanguageTag_from_str s = Ok t -> LanguageTag_from_str (LanguageTag_show t) = Ok t) /\
  (forall t, PlatformTag_from_str s = Ok t -> PlatformTag_from_str (PlatformTag_show t) = Ok t) /\
  (forall t, AbiTag_from_str s = Ok t -> match t with AT_CPython true v => 7 < snd v | _ => True end ->
     AbiTag_from_str (AbiTag_show t) = Ok t).
Proof.
  split_and!; intros t Ht.
  - eauto using LanguageTag_round_trip, LanguageTag_parsed.
  - eauto using PlatformTag_round_trip, PlatformTag_parsed.
  - eauto using AbiTag_round_trip, AbiTag_parsed.
Qed.

(** On illumos the architecture of the environment's only platform tag already
    ends in [_64bit], which [FromStr] strips from a wheel's tag and [Display] appends,
    so the tag [solaris_2_11_i86pc_64bit] of a wheel does not match it. *)
Theorem illumos_tag_unmatched {M : Memchr} (to_lowercase : bytes -> bytes) :
  exists env_tag wheel_tag,
    compatible_tags to_lowercase {| os := Os_Illumos (bs "5_11") (bs "i86pc"); arch := X86_64 |} = Some (Ok [env_tag]) /\
    PlatformTag_from_str (bs "solaris_2_11_i86pc_64bit") = Ok wheel_tag /\
    wheel_tag <> env_tag /\ PlatformTag_show env_tag = bs "solaris_2_11_i86pc_64bit_64bit".
Proof. do 2 eexists. split; [reflexivity|]. split; [vm_compute; reflexivity|]. split; [discriminate|reflexivity]. Qed.
