(* ===== verification/Filename.v ===== *)
(** * Distribution file names ([uv-distribution-filename])

    Wheel file names with their compressed tag sets, the expanded tags of a
    [WHEEL] file, and source distribution file names. *)

From stdpp Require Import base numbers list strings gmap.
From S2P Require Import Prelude VersionTypes VersionSmall Version VersionParser Specifier Names Text PlatformTags Tags.

#[local] Open Scope uv_scope.

(** ** Build tags ([build_tag.rs]) *)

Record BuildTag := mkBuildTag { build_number : N; build_suffix : option bytes }.

Inductive BuildTagError := BTE_Empty | BTE_NoLeadingDigit | BTE_ParseInt.

Definition BuildTag_from_str (s : bytes) : result BuildTag BuildTagError :=
  match s with
  | [] => Err BTE_Empty
  | _ :: _ =>
      let prefix := leading_digits s in
      match prefix, drop (length prefix) s with
      | [], _ => Err BTE_NoLeadingDigit
      | _ :: _, suffix =>
          let? number := ok_or (parse_unsigned u64_MAX prefix) BTE_ParseInt in
          Ok (mkBuildTag number (match suffix with [] => None | _ :: _ => Some suffix end))
      end
  end.

Definition BuildTag_show (self : BuildTag) : bytes :=
  show_u64 (build_number self) ++ match build_suffix self with Some suffix => suffix | None => [] end.

(** ** Splitting ([splitter.rs]) *)

(** [&s[i..j]] *)
Definition slice (i j : nat) (s : bytes) : bytes := take (j - i) (drop i s).

Section memchr.
Context {M : Memchr}.

(** The pieces [next] yields from an offset, given the indices that [Memchr] still
    has; an empty last piece is dropped. *)
Fixpoint splitter_next (indices : list nat) (haystack : bytes) (offset : nat) : list bytes :=
  match indices with
  | index :: indices => slice offset index haystack :: splitter_next indices haystack (index + 1)
  | [] => if Nat.ltb offset (length haystack) then [drop offset haystack] else []
  end.

Definition MemchrSplitter_split (haystack : bytes) (delimiter : N) : list bytes :=
  splitter_next (Memchr_new delimiter haystack) haystack 0.

End memchr.

(** ** Wheel tags ([wheel_tag.rs]) *)

Record WheelTagSmall := mkSmall {
  small_python_tag : LanguageTag;
  small_abi_tag : AbiTag;
  small_platform_tag : PlatformTag
}.

Record WheelTagLarge := mkLarge {
  large_build_tag : option BuildTag;
  large_python_tag : list LanguageTag;
  large_abi_tag : list AbiTag;
  large_platform_tag : list PlatformTag;
  repr : bytes
}.

Inductive WheelTag :=
| WT_Small (small : WheelTagSmall)
| WT_Large (large : WheelTagLarge).

Definition python_tags (self : WheelTag) : list LanguageTag :=
  match self with
  | WT_Small small => [small_python_tag small]
  | WT_Large large => large_python_tag large
  end.

Definition abi_tags (self : WheelTag) : list AbiTag :=
  match self with
  | WT_Small small => [small_abi_tag small]
  | WT_Large large => large_abi_tag large
  end.

Definition platform_tags (self : WheelTag) : list PlatformTag :=
  match self with
  | WT_Small small => [small_platform_tag small]
  | WT_Large large => large_platform_tag large
  end.

Definition build_tag (self : WheelTag) : option BuildTag :=
  match self with
  | WT_Small _ => None
  | WT_Large large => large_build_tag large
  end.

Definition WheelTagSmall_show (self : WheelTagSmall) : bytes :=
  LanguageTag_show (small_python_tag self) ++ bs "-" ++ AbiTag_show (small_abi_tag self)
  ++ bs "-" ++ PlatformTag_show (small_platform_tag self).

Definition WheelTag_show (self : WheelTag) : bytes :=
  match self with
  | WT_Small small => WheelTagSmall_show small
  | WT_Large large => repr large
  end.

Definition result_option {A E} (r : result A E) : option A :=
  match r with Ok a => Some a | Err _ => None end.

Section parsing.
Context {M : Memchr}.

(** The small form, if all three tags are known. *)
Definition small_tag (python_tag abi_tag platform_tag : bytes) : option WheelTagSmall :=
  python ← result_option (LanguageTag_from_str python_tag);
  abi ← result_option (AbiTag_from_str abi_tag);
  platform ← result_option (PlatformTag_from_str platform_tag);
  Some (mkSmall python abi platform).

(** [MemchrSplitter::split(tag, b'.').map(T::from_str).filter_map(Result::ok).collect()] *)
Definition tag_set {A E} (from_str : bytes -> result A E) (tag : bytes) : list A :=
  omap (fun piece => result_option (from_str piece)) (MemchrSplitter_split tag 46).

Definition make_wheel_tag (is_small : bool) (build : option BuildTag)
    (python_tag abi_tag platform_tag repr : bytes) : WheelTag :=
  match (if is_small then small_tag python_tag abi_tag platform_tag else None) with
  | Some small => WT_Small small
  | None =>
      WT_Large (mkLarge build (tag_set LanguageTag_from_str python_tag) (tag_set AbiTag_from_str abi_tag)
                  (tag_set PlatformTag_from_str platform_tag) repr)
  end.

(** ** Wheel file names ([wheel.rs]) *)

Record WheelFilename := mkWheel { wheel_name : PackageName; wheel_version : Version; wheel_tags : WheelTag }.

Inductive WheelFilenameError :=
| WFE_InvalidWheelFileName (filename : bytes) (message : string)
| WFE_InvalidVersion (filename : bytes) (err : ErrorKind)
| WFE_InvalidPackageName (filename : bytes) (err : InvalidNameError)
| WFE_InvalidBuildTag (filename : bytes) (err : BuildTagError)
| WFE_InvalidLanguageTag (filename : bytes) (err : ParseLanguageTagError)
| WFE_InvalidAbiTag (filename : bytes) (err : ParseAbiTagError)
| WFE_InvalidPlatformTag (filename : bytes) (err : ParsePlatformTagError)
| WFE_MissingLanguageTag (filename : bytes)
| WFE_MissingAbiTag (filename : bytes)
| WFE_MissingPlatformTag (filename : bytes)
| WFE_UnexpectedExtension (filename : bytes).

Definition wheel_fail {A} (filename : bytes) (message : string) : result A (failure WheelFilenameError) :=
  Err (Error (WFE_InvalidWheelFileName filename message)).

(** The parts of the stem: name, version, build tag, the three tags, and whether
    there can be one tag of each kind. *)
Record wheel_parts := mkParts {
  part_name : bytes; part_version : bytes; part_build : option bytes;
  part_python : bytes; part_abi : bytes; part_platform : bytes; is_small : bool; part_repr : bytes
}.

Definition split_stem (stem filename : bytes) : result wheel_parts (failure WheelFilenameError) :=
  match Memchr_new 45 stem with
  | [] => wheel_fail filename "Must have a version"
  | [_] => wheel_fail filename "Must have a Python tag"
  | [_; _] => wheel_fail filename "Must have an ABI tag"
  | [_; _; _] => wheel_fail filename "Must have a platform tag"
  | version :: build_or_python :: python_or_abi :: abi_or_platform :: rest =>
      let repr := drop (build_or_python + 1) stem in
      match rest with
      | [] =>
          Ok (mkParts (take version stem) (slice (version + 1) build_or_python stem) None
                (slice (build_or_python + 1) python_or_abi stem)
                (slice (python_or_abi + 1) abi_or_platform stem)
                (drop (abi_or_platform + 1) stem)
                (match memchr 46 (drop build_or_python stem) with None => true | Some _ => false end) repr)
      | [platform] =>
          Ok (mkParts (take version stem) (slice (version + 1) build_or_python stem)
                (Some (slice (build_or_python + 1) python_or_abi stem))
                (slice (python_or_abi + 1) abi_or_platform stem)
                (slice (abi_or_platform + 1) platform stem)
                (drop (platform + 1) stem) false repr)
      | _ => wheel_fail filename "Must have 5 or 6 components, but has more"
      end
  end.

Definition finish_parts (filename : bytes) (p : wheel_parts) : result WheelFilename (failure WheelFilenameError) :=
  let? name := map_err (fun e => Error (WFE_InvalidPackageName filename e)) (PackageName_from_str (part_name p)) in
  let? version :=
    map_err (fun e => match e with Error e => Error (WFE_InvalidVersion filename e) | Panic => Panic end)
      (Version_from_str (part_version p)) in
  let? build :=
    match part_build p with
    | None => Ok None
    | Some b => map_err (fun e => Error (WFE_InvalidBuildTag filename e)) (rmap Some (BuildTag_from_str b))
    end in
  Ok (mkWheel name version
        (make_wheel_tag (is_small p) build (part_python p) (part_abi p) (part_platform p) (part_repr p))).

Definition WheelFilename_parse (stem filename : bytes) : result WheelFilename (failure WheelFilenameError) :=
  let? p := split_stem stem filename in finish_parts filename p.

Definition WheelFilename_from_str (filename : bytes) : result WheelFilename (failure WheelFilenameError) :=
  match strip_suffix (bs ".whl") filename with
  | None => wheel_fail filename "Must end with .whl"
  | Some stem => WheelFilename_parse stem filename
  end.

End parsing.

Definition wheel_stem (self : WheelFilename) : bytes :=
  as_dist_info_name (wheel_name self) ++ bs "-" ++ show (wheel_version self)
  ++ bs "-" ++ WheelTag_show (wheel_tags self).

Definition WheelFilename_show (self : WheelFilename) : bytes := wheel_stem self ++ bs ".whl".

Definition WheelFilename_new (name : PackageName) (version : Version) (python_tag : LanguageTag)
    (abi_tag : AbiTag) (platform_tag : PlatformTag) : WheelFilename :=
  mkWheel name version (WT_Small (mkSmall python_tag abi_tag platform_tag)).

Definition wheel_is_compatible (self : WheelFilename) (compatible_tags : Tags) : bool :=
  Tags_is_compatible compatible_tags (python_tags (wheel_tags self)) (abi_tags (wheel_tags self))
    (platform_tags (wheel_tags self)).

Definition wheel_compatibility (self : WheelFilename) (compatible_tags : Tags) : TagCompatibility :=
  Tags_compatibility compatible_tags (python_tags (wheel_tags self)) (abi_tags (wheel_tags self))
    (platform_tags (wheel_tags self)).

(** ** Expanded tags ([expanded_tags.rs]) *)

Abbreviation ExpandedTags := (list WheelTag).

Inductive ExpandedTagError :=
| ETE_MissingLanguageTag (tag : bytes)
| ETE_MissingAbiTag (tag : bytes)
| ETE_MissingPlatformTag (tag : bytes)
| ETE_ExtraSegment (tag : bytes)
| ETE_InvalidLanguageTag (tag : bytes) (err : ParseLanguageTagError)
| ETE_InvalidAbiTag (tag : bytes) (err : ParseAbiTagError)
| ETE_InvalidPlatformTag (tag : bytes) (err : ParsePlatformTagError).

Section expanded.
Context {M : Memchr}.

Definition parse_expanded_tag (tag : bytes) : result WheelTag ExpandedTagError :=
  if bool_decide (tag = []) then Err (ETE_MissingLanguageTag tag)
  else
    match Memchr_new 45 tag with
    | [] => Err (ETE_MissingAbiTag tag)
    | [_] => Err (ETE_MissingPlatformTag tag)
    | [python_tag_index; abi_tag_index] =>
        let python_tag := take python_tag_index tag in
        let abi_tag := slice (python_tag_index + 1) abi_tag_index tag in
        let platform_tag := drop (abi_tag_index + 1) tag in
        let is_small := match memchr 46 tag with None => true | Some _ => false end in
        Ok (make_wheel_tag is_small None python_tag abi_tag platform_tag tag)
    | _ => Err (ETE_ExtraSegment tag)
    end.

Fixpoint ExpandedTags_parse (tags : list bytes) : result ExpandedTags ExpandedTagError :=
  match tags with
  | [] => Ok []
  | tag :: tags =>
      let? t := parse_expanded_tag tag in
      let? ts := ExpandedTags_parse tags in
      Ok (t :: ts)
  end.

End expanded.

Definition expanded_is_compatible (self : ExpandedTags) (compatible_tags : Tags) : bool :=
  existsb (fun tag => Tags_is_compatible compatible_tags (python_tags tag) (abi_tags tag) (platform_tags tag)) self.

Definition expanded_compatibility (self : ExpandedTags) (compatible_tags : Tags) : TagCompatibility :=
  Tags_compatibility compatible_tags (self ≫= python_tags) (self ≫= abi_tags) (self ≫= platform_tags).

(** ** Source distributions ([source_dist.rs], [extension.rs]) *)

Inductive SourceDistExtension :=
| Tar | TarBz2 | TarGz | TarLz | TarLzma | TarXz | TarZst | Tbz | Tgz | Tlz | Txz | Zip.

Definition extension_name (self : SourceDistExtension) : bytes :=
  bs match self with
     | Tar => "tar" | TarBz2 => "tar.bz2" | TarGz => "tar.gz" | TarLz => "tar.lz"
     | TarLzma => "tar.lzma" | TarXz => "tar.xz" | TarZst => "tar.zst" | Tbz => "tbz"
     | Tgz => "tgz" | Tlz => "tlz" | Txz => "txz" | Zip => "zip"
     end.

Record SourceDistFilename := mkSdist {
  sdist_name : PackageName; sdist_version : Version; extension : SourceDistExtension
}.

Inductive SourceDistFilenameError :=
| SDE_Filename (name : PackageName)
| SDE_Extension
| SDE_Version (err : ErrorKind)
| SDE_PackageName (err : InvalidNameError)
| SDE_Minus.

(** [is_char_boundary]: the end, or not at a continuation byte of UTF-8. *)
Definition is_char_boundary (s : bytes) (i : nat) : bool :=
  match s !! i with
  | Some c => negb ((128 <=? c) && (c <=? 191))
  | None => Nat.eqb i (length s)
  end.

(** [&s[..i]] and [&s[i..]], which panic inside a character. *)
Definition slice_to (i : nat) (s : bytes) : option bytes :=
  if is_char_boundary s i then Some (take i s) else None.
Definition slice_from (i : nat) (s : bytes) : option bytes :=
  if is_char_boundary s i then Some (drop i s) else None.

Definition or_panic {A E} (o : option A) : result A (failure E) := ok_or o Panic.

Definition SourceDistFilename_parse (filename : bytes) (extension : SourceDistExtension)
    (name : PackageName) : result SourceDistFilename (failure SourceDistFilenameError) :=
  let ext := length (extension_name extension) in
  let n := length (package_name name) in
  if Nat.leb (length filename) (ext + 1) then Err (Error SDE_Extension)
  else
    let? stem := or_panic (slice_to (length filename - (ext + 1)) filename) in
    if Nat.leb (length stem) (n + 1) then Err (Error (SDE_Filename name))
    else
      let? prefix := or_panic (slice_to n stem) in
      let? actual := map_err (fun e => Error (SDE_PackageName e)) (PackageName_from_str prefix) in
      if negb (bool_decide (package_name actual = package_name name)) then Err (Error (SDE_Filename name))
      else
        let? rest := or_panic (slice_from (n + 1) stem) in
        let? version :=
          map_err (fun e => match e with Error e => Error (SDE_Version e) | Panic => Panic end)
            (Version_from_str rest) in
        Ok (mkSdist name version extension).

Definition SourceDistFilename_show (self : SourceDistFilename) : bytes :=
  as_dist_info_name (sdist_name self) ++ bs "-" ++ show (sdist_version self)
  ++ bs "." ++ extension_name (extension self).
