(* ===== verification/FilenameTheorems.v ===== *)
(** * Theorems on distribution file names *)

From stdpp Require Import base numbers list strings gmap.
From S2P Require Import Prelude VersionTypes VersionSmall Version VersionFacts VersionParser ParserFacts RoundTrip ParserSafe Specifier SpecifierFacts SpecifierParse Names NamesTheorems Text PlatformTags PlatformTagsFacts Tags TagsTheorems Filename.

(** ** Dashes *)

Lemma all_indices_app c i a s :
  free c a -> all_indices c i (a ++ c :: s) = (i + length a)%nat :: all_indices c (S (i + length a)) s.
Proof.
  intros Ha. revert i. induction Ha as [|x a Hx _ IH]; intros i; cbn [app all_indices length].
  - rewrite N.eqb_refl, Nat.add_0_r. done.
  - rewrite (proj2 (N.eqb_neq x c) Hx), IH. by rewrite Nat.add_succ_r.
Qed.

Lemma all_indices_free c i a : free c a -> all_indices c i a = [].
Proof.
  intros Ha. revert i. induction Ha as [|x a Hx _ IH]; intros i; cbn; [done|].
  by rewrite (proj2 (N.eqb_neq x c) Hx).
Qed.

Lemma cut (c : N) (s : bytes) : free c s \/ exists a t : bytes, free c a /\ s = a ++ c :: t.
Proof.
  destruct (first_index c s) as [i|] eqn:E; [|left; by apply first_index_free]. right.
  destruct (first_index_some _ _ _ E) as [Ha Hs]. eauto.
Qed.

(** Slices of a string that is put together from known parts. *)
Lemma slice_mid s x y z i j :
  s = x ++ y ++ z -> i = length x -> j = (length x + length y)%nat -> slice i j s = y.
Proof.
  intros -> -> ->. unfold slice. rewrite drop_app_length.
  replace (length x + length y - length x)%nat with (length y) by lia. apply take_app_length.
Qed.

Lemma drop_mid (s x y : bytes) i : s = x ++ y -> i = length x -> drop i s = y.
Proof. intros -> ->. apply drop_app_length. Qed.

Lemma take_mid (s x y : bytes) i : s = x ++ y -> i = length x -> take i s = x.
Proof. intros -> ->. apply take_app_length. Qed.

Ltac parts :=
  repeat (rewrite <- ?app_assoc; cbn [app]); try reflexivity;
  repeat (rewrite ?length_app; cbn [length]); lia.

Section wheel.
Context {M : Memchr} {HM : MemchrLaws M}.

Definition no_dot (s : bytes) : bool := match memchr 46 s with None => true | Some _ => false end.

Lemma split_stem_5 f n v p a t :
  free 45 n -> free 45 v -> free 45 p -> free 45 a -> free 45 t ->
  split_stem (n ++ 45 :: v ++ 45 :: p ++ 45 :: a ++ 45 :: t) f
  = Ok (mkParts n v None p a t (no_dot (45 :: p ++ 45 :: a ++ 45 :: t)) (p ++ 45 :: a ++ 45 :: t)).
Proof.
  intros Hn Hv Hp Ha Ht. unfold split_stem. rewrite Memchr_all, !all_indices_app, all_indices_free by done.
  set (s := n ++ _). cbn zeta.
  rewrite (take_mid s n (45 :: v ++ 45 :: p ++ 45 :: a ++ 45 :: t)) by parts.
  rewrite (slice_mid s (n ++ [45]) v (45 :: p ++ 45 :: a ++ 45 :: t)) by parts.
  rewrite (slice_mid s (n ++ 45 :: v ++ [45]) p (45 :: a ++ 45 :: t)) by parts.
  rewrite (slice_mid s (n ++ 45 :: v ++ 45 :: p ++ [45]) a (45 :: t)) by parts.
  rewrite (drop_mid s (n ++ 45 :: v ++ 45 :: p ++ 45 :: a ++ [45]) t) by parts.
  rewrite (drop_mid s (n ++ 45 :: v) (45 :: p ++ 45 :: a ++ 45 :: t)) by parts.
  rewrite (drop_mid s (n ++ 45 :: v ++ [45]) (p ++ 45 :: a ++ 45 :: t)) by parts.
  done.
Qed.

Lemma split_stem_6 f n v b p a t :
  free 45 n -> free 45 v -> free 45 b -> free 45 p -> free 45 a -> free 45 t ->
  split_stem (n ++ 45 :: v ++ 45 :: b ++ 45 :: p ++ 45 :: a ++ 45 :: t) f
  = Ok (mkParts n v (Some b) p a t false (b ++ 45 :: p ++ 45 :: a ++ 45 :: t)).
Proof.
  intros Hn Hv Hb Hp Ha Ht. unfold split_stem. rewrite Memchr_all, !all_indices_app, all_indices_free by done.
  set (s := n ++ _). cbn zeta.
  rewrite (take_mid s n (45 :: v ++ 45 :: b ++ 45 :: p ++ 45 :: a ++ 45 :: t)) by parts.
  rewrite (slice_mid s (n ++ [45]) v (45 :: b ++ 45 :: p ++ 45 :: a ++ 45 :: t)) by parts.
  rewrite (slice_mid s (n ++ 45 :: v ++ [45]) b (45 :: p ++ 45 :: a ++ 45 :: t)) by parts.
  rewrite (slice_mid s (n ++ 45 :: v ++ 45 :: b ++ [45]) p (45 :: a ++ 45 :: t)) by parts.
  rewrite (slice_mid s (n ++ 45 :: v ++ 45 :: b ++ 45 :: p ++ [45]) a (45 :: t)) by parts.
  rewrite (drop_mid s (n ++ 45 :: v ++ 45 :: b ++ 45 :: p ++ 45 :: a ++ [45]) t) by parts.
  rewrite (drop_mid s (n ++ 45 :: v ++ [45]) (b ++ 45 :: p ++ 45 :: a ++ 45 :: t)) by parts.
  done.
Qed.

(** A stem that is accepted has five or six parts. *)
Lemma split_stem_inv f stem parts :
  split_stem stem f = Ok parts ->
  exists n v p a t, free 45 n /\ free 45 v /\ free 45 p /\ free 45 a /\ free 45 t /\
    ((parts = mkParts n v None p a t (no_dot (45 :: p ++ 45 :: a ++ 45 :: t)) (p ++ 45 :: a ++ 45 :: t)) \/
     exists b, free 45 b /\ parts = mkParts n v (Some b) p a t false (b ++ 45 :: p ++ 45 :: a ++ 45 :: t)).
Proof.
  destruct (cut 45 stem) as [Hs|(n&s1&Hn&->)].
  { unfold split_stem. by rewrite Memchr_all, all_indices_free. }
  destruct (cut 45 s1) as [Hs|(v&s2&Hv&->)].
  { unfold split_stem. by rewrite Memchr_all, all_indices_app, all_indices_free. }
  destruct (cut 45 s2) as [Hs|(b&s3&Hb&->)].
  { unfold split_stem. by rewrite Memchr_all, !all_indices_app, all_indices_free. }
  destruct (cut 45 s3) as [Hs|(p&s4&Hp&->)].
  { unfold split_stem. by rewrite Memchr_all, !all_indices_app, all_indices_free. }
  destruct (cut 45 s4) as [Hs|(a&s5&Ha&->)].
  { rewrite split_stem_5 by done. intros E%Ok_inj. subst.
    exists n, v, b, p, s4. split_and!; try done. by left. }
  destruct (cut 45 s5) as [Hs|(t&s6&Ht&->)].
  { rewrite split_stem_6 by done. intros E%Ok_inj. subst.
    exists n, v, p, a, s5. split_and!; try done. right. by exists b. }
  unfold split_stem. by rewrite Memchr_all, !all_indices_app.
Qed.

(** ** The parts of a printed name *)

Lemma dist_info_free p : free 45 (as_dist_info_name p).
Proof.
  rewrite dist_info_underscored. unfold underscored. apply Forall_fmap, Forall_forall. intros c _. cbn.
  destruct (N.eqb_spec c 45); [done|]. done.
Qed.

Lemma show_version_free v : printable (value v) -> free 45 (show v).
Proof.
  intros Hp. pose proof (show_full_version_char _ Hp) as H. rewrite <- show_full_value in H.
  apply Forall_forall. intros c Hc ->. rewrite forallb_forall in H.
  by specialize (H 45 (proj1 (list_elem_of_In _ _) Hc)).
Qed.

(** Tags with letters, digits and underscores only; the opaque ones print as they
    were read. *)
Definition word (s : bytes) : Prop := free 45 s /\ free 46 s.

Lemma word_app a b : word a -> word b -> word (a ++ b).
Proof. intros [? ?] [? ?]. split; apply Forall_app; done. Qed.

Lemma word_u64 n : word (show_u64 n).
Proof. split; apply digits_free; (apply show_u64_digits || lia). Qed.

Lemma word_pair v : word (show_pair v).
Proof. apply word_app; apply word_u64. Qed.

Ltac word := repeat first
  [apply word_app|apply word_u64|apply word_pair|split; by repeat constructor].

Lemma word_language t : word (LanguageTag_show t).
Proof. destruct t as [|major [minor|]|v|v|v|v]; cbn [LanguageTag_show]; word. Qed.

Lemma word_abi t : word (AbiTag_show t).
Proof. destruct t as [| |gil v|[v|] w|v w|w]; cbn [AbiTag_show]; repeat case_match; word. Qed.

(** The opaque suffix of a platform tag is part of the text it was read from. *)
Lemma PlatformTag_opaque s t :
  PlatformTag_from_str s = Ok t ->
  match t with
  | PT_FreeBsd r | PT_NetBsd r | PT_OpenBsd r | PT_Dragonfly r | PT_Haiku r | PT_Illumos r | PT_Solaris r =>
      exists x y, s = x ++ r ++ y
  | _ => True
  end.
Proof.
  set (Q := fun t => match t with
    | PT_FreeBsd r | PT_NetBsd r | PT_OpenBsd r | PT_Dragonfly r | PT_Haiku r | PT_Illumos r | PT_Solaris r =>
        exists x y, s = x ++ r ++ y
    | _ => True end). change (PlatformTag_from_str s = Ok t -> Q t).
  assert (forall build p rest, (forall a, Q (build a)) -> platform_arch p s rest build = Ok t -> Q t) as Harch.
  { intros build p rest HQ. unfold platform_arch. destruct (Arch_from_str rest); cbn [ok_or rbind]; [|done].
    by intros [= <-]. }
  assert (forall build p (q : string) rest, (forall r, (exists x y, s = x ++ r ++ y) -> Q (build r)) ->
            strip_prefix (bs q) s = Some rest -> platform_opaque p s rest build = Ok t -> Q t) as Hopaque.
  { intros build p q rest HQ E%strip_prefix_some. unfold platform_opaque. destruct rest as [|c rest]; [done|].
    intros [= <-]. apply HQ. exists (bs q), []. by rewrite app_nil_r. }
  unfold PlatformTag_from_str. do 5 (case_match; [by intros [= <-]|]).
  cbn [first_prefix platform_prefixes]; branches.
  case_match. { intros (?&?&?&?&->&_)%platform_versioned_ok. done. }
  do 4 (case_match; [by apply Harch|]).
  case_match. { intros (?&?&?&?&->&_)%platform_versioned_ok. done. }
  case_match. { intros (?&?&?&?&->&_)%platform_versioned_ok. done. }
  case_match.
  { unfold platform_android. destruct (memchr _ _); cbn [ok_or rbind]; [|done].
    destruct (parse_unsigned _ _); cbn [ok_or rbind]; [|done]. destruct (drop _ _); [done|].
    destruct (AndroidAbi_from_str _); cbn [ok_or rbind]; [|done]. by intros [= <-]. }
  do 6 (case_match; [by eapply Hopaque|]).
  destruct (strip_prefix (bs "solaris_") s) as [rest|] eqn:E.
  { unfold platform_solaris. destruct rest as [|c rest]; [done|].
    destruct (strip_suffix (bs "_64bit") (c :: rest)) as [[|d r]|] eqn:Es; [done| |done]. intros [= <-].
    apply strip_prefix_some in E. apply strip_suffix_some in Es. exists (bs "solaris_"), (bs "_64bit").
    by rewrite E, Es. }
  case_match.
  { unfold platform_pyodide. destruct (strip_suffix _ _); cbn [ok_or rbind]; [|done].
    destruct (memchr _ _); cbn [ok_or rbind]; [|done].
    destruct (parse_unsigned _ (take _ _)); cbn [ok_or rbind]; [|done].
    destruct (parse_unsigned _ (drop _ _)); cbn [ok_or rbind]; [|done]. by intros [= <-]. }
  case_match; [|done]. intros (?&?&?&?&->&_)%platform_versioned_ok. done.
Qed.

Lemma word_platform s t : word s -> PlatformTag_from_str s = Ok t -> word (PlatformTag_show t).
Proof.
  assert (forall a, word (Arch_name a)) as Ha by (destruct a; word).
  assert (forall a, word (BinaryFormat_name a)) as Hb by (destruct a; word).
  assert (forall a, word (AndroidAbi_name a)) as Hc by (destruct a; word).
  assert (forall a, word (IosMultiarch_name a)) as Hd by (destruct a; word).
  assert (forall major minor x, word x -> word (show_versioned major minor x)) as Hv.
  { intros. unfold show_versioned. repeat apply word_app; auto; word. }
  intros Hs Ht.
  pose proof (PlatformTag_opaque s t Ht) as Ho.
  assert (forall r, (exists x y, s = x ++ r ++ y) -> word r) as Hr.
  { intros r (x&y&->). destruct Hs as [[_ [? _]%Forall_app]%Forall_app [_ [? _]%Forall_app]%Forall_app]. done. }
  destruct t; cbn [PlatformTag_show]; try apply word_app; auto; word; auto.
Qed.

(** ** Wheels *)

Lemma parsed_version input v :
  Version_from_str input = Ok v -> Version_from_str (show v) = Ok v /\ free 45 (show v).
Proof.
  intros Hv. pose proof (from_str_inv input) as H. rewrite Hv in H. split; [by apply from_str_show_parsed|].
  destruct H as (_&Hp&_). by apply show_version_free.
Qed.

Lemma Version_from_str_no_panic input : Version_from_str input <> Err Panic.
Proof. pose proof (from_str_inv input) as H. intros E. by rewrite E in H. Qed.

(** Tags read from one small name print to parts that read the same. *)
Lemma small_tag_show p a t small :
  word p -> word a -> word t -> small_tag p a t = Some small ->
  match small_abi_tag small with AT_CPython true v => 7 < snd v | _ => True end ->
  exists p' a' t', WheelTagSmall_show small = p' ++ 45 :: a' ++ 45 :: t' /\ word p' /\ word a' /\ word t' /\
    small_tag p' a' t' = Some small.
Proof.
  unfold small_tag, result_option. intros Hp Ha Ht.
  destruct (LanguageTag_from_str p) as [lt|] eqn:E1; cbn [mbind option_bind]; [|done].
  destruct (AbiTag_from_str a) as [at_|] eqn:E2; cbn [mbind option_bind]; [|done].
  destruct (PlatformTag_from_str t) as [pt|] eqn:E3; cbn [mbind option_bind]; [|done].
  intros [= <-] Hg. cbn [small_abi_tag] in Hg.
  exists (LanguageTag_show lt), (AbiTag_show at_), (PlatformTag_show pt). split_and!; [done|..].
  - apply word_language.
  - apply word_abi.
  - by apply (word_platform t).
  - rewrite LanguageTag_round_trip by (by eapply LanguageTag_parsed).
    rewrite AbiTag_round_trip by (by eapply AbiTag_parsed).
    by rewrite PlatformTag_round_trip by (by eapply PlatformTag_parsed).
Qed.

Lemma no_dot_free s : no_dot s = true <-> free 46 s.
Proof. unfold no_dot. rewrite <- memchr_free. by destruct (memchr 46 s). Qed.

Lemma finish_parts_ok f p w :
  finish_parts f p = Ok w ->
  exists build, PackageName_from_str (part_name p) = Ok (wheel_name w) /\
    Version_from_str (part_version p) = Ok (wheel_version w) /\
    wheel_tags w = make_wheel_tag (is_small p) build (part_python p) (part_abi p) (part_platform p) (part_repr p) /\
    match part_build p with None => build = None | Some b => exists bt, BuildTag_from_str b = Ok bt /\ build = Some bt end.
Proof.
  unfold finish_parts. destruct (PackageName_from_str _) as [n|]; cbn [map_err rbind]; [|done].
  destruct (Version_from_str _) as [v|]; cbn [map_err rbind]; [|done].
  destruct (part_build p) as [b|].
  - destruct (BuildTag_from_str b) as [bt|]; cbn [rmap map_err rbind]; [|done]. intros <-%Ok_inj. cbn. eauto 10.
  - cbn [rbind]. intros <-%Ok_inj. cbn. eauto 10.
Qed.

(** The same name, version and build tag, and tags that read the same. *)
Lemma finish_parts_same f p w build :
  PackageName_from_str (part_name p) = Ok (wheel_name w) ->
  Version_from_str (part_version p) = Ok (wheel_version w) ->
  match part_build p with None => build = None | Some b => exists bt, BuildTag_from_str b = Ok bt /\ build = Some bt end ->
  make_wheel_tag (is_small p) build (part_python p) (part_abi p) (part_platform p) (part_repr p) = wheel_tags w ->
  finish_parts f p = Ok w.
Proof.
  intros Hn Hv Hb Ht. unfold finish_parts. rewrite Hn, Hv. cbn [map_err rbind].
  destruct (part_build p) as [b|].
  - destruct Hb as (bt&->&->). cbn [rmap map_err rbind]. rewrite Ht. by destruct w.
  - subst build. cbn [rbind]. rewrite Ht. by destruct w.
Qed.

(** Parsing a wheel file name never panics, whatever the bytes: every failure is
    one of the errors, and a name is accepted only with four or five dashes. *)
Theorem wheel_filename_total (filename : bytes) :
  WheelFilename_from_str filename <> Err Panic /\
  (forall w, WheelFilename_from_str filename = Ok w ->
     exists stem, filename = stem ++ bs ".whl" /\
       (length (Memchr_new 45 stem) = 4%nat \/ length (Memchr_new 45 stem) = 5%nat)).
Proof.
  unfold WheelFilename_from_str. destruct (strip_suffix (bs ".whl") filename) as [stem|] eqn:Es; [|done].
  apply strip_suffix_some in Es. unfold WheelFilename_parse. split.
  - assert (split_stem stem filename <> Err Panic) as Hs.
    { unfold split_stem, wheel_fail. by repeat case_match. }
    destruct (split_stem stem filename) as [p|e]; cbn [rbind]; [|congruence].
    unfold finish_parts. destruct (PackageName_from_str _); cbn [map_err rbind]; [|done].
    pose proof (Version_from_str_no_panic (part_version p)) as Hv.
    destruct (Version_from_str _) as [v|[]]; cbn [map_err rbind]; [|done|done].
    destruct (part_build p) as [b|]; [|done]. by destruct (BuildTag_from_str b).
  - intros w Hw. exists stem. split; [done|].
    destruct (split_stem stem filename) as [p|] eqn:E; [|done]. unfold split_stem, wheel_fail in E.
    destruct (Memchr_new 45 stem) as [|x1 [|x2 [|x3 [|x4 [|x5 [|]]]]]]; try done; cbn; auto.
Qed.

(** C38: wheel file names survive printing: a parsed name prints to a file name that
    parses to the same name, version and tags, with one tag of each kind, with
    compressed tag sets or unknown tags, and with a build tag. (Excepted are the
    free-threaded ABI tags of Python 3.7 or earlier, which do not exist.) *)
Theorem wheel_filename_round_trip (filename : bytes) (w : WheelFilename)
    (Hparse : WheelFilename_from_str filename = Ok w)
    (Habi : match wheel_tags w with
            | WT_Small small => match small_abi_tag small with AT_CPython true v => 7 < snd v | _ => True end
            | WT_Large _ => True
            end) :
  WheelFilename_from_str (WheelFilename_show w) = Ok w.
Proof.
  unfold WheelFilename_from_str in *. destruct (strip_suffix (bs ".whl") filename) as [stem|]; [|done].
  unfold WheelFilename_show. rewrite strip_suffix_app. set (f' := wheel_stem w ++ bs ".whl").
  unfold WheelFilename_parse in *. destruct (split_stem stem filename) as [parts|] eqn:Es; [|done]. cbn [rbind] in Hparse.
  destruct (finish_parts_ok _ _ _ Hparse) as (build&Hn&Hv&Ht&Hb).
  destruct (split_stem_inv _ _ _ Es) as (n&v&p&a&t&Fn&Fv&Fp&Fa&Ft&Hparts).
  pose proof (dist_info_parse _ _ Hn) as Hn'. destruct (parsed_version _ _ Hv) as [Hv' Fv'].
  pose proof (dist_info_free (wheel_name w)) as Fn'.
  change (wheel_stem w) with (as_dist_info_name (wheel_name w) ++ 45 :: show (wheel_version w)
    ++ 45 :: WheelTag_show (wheel_tags w)).
  destruct Hparts as [->|(b&Fb&->)]; cbn [part_name part_version part_build part_python part_abi part_platform is_small part_repr] in *.
  - unfold make_wheel_tag in Ht. destruct (no_dot _) eqn:Edot.
    + destruct (small_tag p a t) as [small|] eqn:Esmall.
      * rewrite Ht in *. cbn [WheelTag_show].
        assert (free 46 (45 :: p ++ 45 :: a ++ 45 :: t)) as Hd by (by apply no_dot_free).
        apply Forall_cons in Hd as [_ Hd]. apply Forall_app in Hd as [Dp Hd].
        apply Forall_cons in Hd as [_ Hd]. apply Forall_app in Hd as [Da Hd]. apply Forall_cons in Hd as [_ Dt].
        destruct (small_tag_show p a t small) as (p'&a'&t'&->&[Wp Wp']&[Wa Wa']&[Wt Wt']&Es'); [done..|].
        rewrite split_stem_5 by done. cbn [rbind]. apply (finish_parts_same _ _ _ None); try done. cbn.
        assert (no_dot (45 :: p' ++ 45 :: a' ++ 45 :: t') = true) as ->.
        { apply no_dot_free. constructor; [done|]. apply Forall_app. split; [done|]. constructor; [done|].
          apply Forall_app. split; [done|]. by constructor. }
        unfold make_wheel_tag. by rewrite Es', Ht.
      * rewrite Ht. cbn [WheelTag_show repr]. rewrite split_stem_5 by done. cbn [rbind].
        apply (finish_parts_same _ _ _ build); try done. cbn. rewrite Edot, Ht. unfold make_wheel_tag. by rewrite Esmall.
    + rewrite Ht. cbn [WheelTag_show repr]. rewrite split_stem_5 by done. cbn [rbind].
      apply (finish_parts_same _ _ _ build); try done. cbn. by rewrite Edot, Ht.
  - cbn [make_wheel_tag] in Ht. rewrite Ht. cbn [WheelTag_show repr]. rewrite split_stem_6 by done. cbn [rbind].
    by apply (finish_parts_same _ _ _ build).
Qed.

End wheel.

Lemma wheel_filename_round_trip_witness :
  exists w, WheelFilename_from_str (M := memchr_scan) (bs "Foo_Bar-1.0.0-202206090410-py2.py3-none-any.whl") = Ok w /\
    WheelFilename_from_str (M := memchr_scan) (WheelFilename_show w) = Ok w.
Proof.
  eexists. split; [vm_compute; reflexivity|].
  apply (wheel_filename_round_trip (M := memchr_scan) (bs "Foo_Bar-1.0.0-202206090410-py2.py3-none-any.whl"));
    [vm_compute; reflexivity|exact I].
Defined.

(** ** Expanded tags *)

Lemma compatible_flag self pys abis plats :
  TagCompatibility_is_compatible (Tags_compatibility self pys abis plats) = Tags_is_compatible self pys abis plats.
Proof.
  rewrite is_compatible_outcomes. unfold Tags_compatibility. rewrite compatibility_outcomes.
  set (l := pys ≫= _). destruct (foldl_max_spec l (Incompatible IT_Invalid)) as [Hin Hle].
  destruct (foldl _ _ l) as [reason|p]; cbn [TagCompatibility_is_compatible]; symmetry.
  - apply not_true_is_false. rewrite existsb_exists. intros ([|p]&Hx&E); [done|]. apply list_elem_of_In in Hx.
    by specialize (Hle (Compatible p) (list_elem_of_further _ _ _ Hx)).
  - apply elem_of_cons in Hin as [?|Hin]; [done|]. apply existsb_exists. exists (Compatible p).
    split; [by apply list_elem_of_In|done].
Qed.

Lemma is_compatible_spec self pys abis plats :
  Tags_is_compatible self pys abis plats = true <->
  exists py abi plat, py ∈ pys /\ abi ∈ abis /\ plat ∈ plats /\ is_Some (lookup_tag (map_ self) (py, abi, plat)).
Proof.
  unfold Tags_is_compatible, lookup_tag. rewrite existsb_exists. setoid_rewrite <- list_elem_of_In. split.
  - intros (py&Hpy&H). destruct (map_ self !! py) as [m|] eqn:Em; [|done]. apply existsb_exists in H as (abi&Habi&H).
    destruct (m !! abi) as [pm|] eqn:Ea; [|done]. apply existsb_exists in H as (plat&Hplat&H).
    apply bool_decide_eq_true in H. exists py, abi, plat. rewrite !list_elem_of_In. split_and!; try done.
    { by apply list_elem_of_In. } rewrite Em. cbn. by rewrite Ea.
  - intros (py&abi&plat&Hpy&Habi&Hplat&[p E]). exists py. split; [done|].
    apply bind_Some in E as (m&->&(pm&Ea&Ep)%bind_Some). apply existsb_exists. exists abi.
    split; [by apply list_elem_of_In|]. rewrite Ea. apply existsb_exists. exists plat.
    split; [by apply list_elem_of_In|]. apply bool_decide_eq_true. by eexists.
Qed.

(** The tags of a [WHEEL] file: whenever one of the lines is compatible, the
    compatibility computed from all of them is too; but the converse fails, because
    the components of different lines are mixed: with the lines [py3-none-win32] and
    [py2-none-linux_x86_64] an environment that only takes [py3-none-linux_x86_64]
    gets a priority although no line is compatible. *)
Theorem expanded_compatibility_mixes_lines {M : Memchr} {HM : MemchrLaws M} :
  (forall (self : ExpandedTags) (tags : Tags), expanded_is_compatible self tags = true ->
     TagCompatibility_is_compatible (expanded_compatibility self tags) = true) /\
  exists self tags,
    ExpandedTags_parse [bs "py3-none-win32"; bs "py2-none-linux_x86_64"] = Ok self /\
    Tags_new [(LT_Python 3 None, AT_None, PT_Linux X86_64)] = Some tags /\
    expanded_is_compatible self tags = false /\ expanded_compatibility self tags = Compatible 1.
Proof.
  split.
  - intros self tags (t&Hin&H)%existsb_exists. unfold expanded_compatibility. rewrite compatible_flag.
    apply is_compatible_spec in H as (py&abi&plat&H1&H2&H3&H). apply is_compatible_spec.
    apply list_elem_of_In in Hin. exists py, abi, plat. rewrite !list_elem_of_bind. eauto 10.
  - do 2 eexists. split.
    { unfold ExpandedTags_parse, parse_expanded_tag. rewrite !Memchr_all, !memchr_first. vm_compute. reflexivity. }
    split; [vm_compute; reflexivity|]. split; vm_compute; reflexivity.
Qed.

(** ** Source distributions *)

Lemma ascii_boundary (s : bytes) i : Forall (fun c => c < 128) s -> (i <= length s)%nat -> is_char_boundary s i = true.
Proof.
  intros Hs Hi. unfold is_char_boundary. destruct (s !! i) as [c|] eqn:E.
  - rewrite Forall_lookup in Hs. specialize (Hs _ _ E). by rewrite (proj2 (N.leb_gt 128 c)).
  - apply lookup_ge_None in E. apply Nat.eqb_eq. lia.
Qed.

Lemma show_version_ascii v : printable (value v) -> Forall (fun c => c < 128) (show v).
Proof.
  intros Hp. pose proof (show_full_version_char _ Hp) as H. rewrite <- show_full_value in H.
  apply Forall_forall. intros c Hc. rewrite forallb_forall in H.
  specialize (H c (proj1 (list_elem_of_In _ _) Hc)). revert H.
  unfold version_char, is_ascii_lowercase, is_ascii_digit.
  rewrite !orb_true_iff, !andb_true_iff, !N.leb_le, !N.eqb_eq. lia.
Qed.

Lemma normal_form_ascii s : forall b, normal_form b s = true -> Forall (fun c => c < 128) s.
Proof.
  induction s as [|c s IH]; intros b; [constructor|]. cbn [normal_form].
  destruct (N.eqb_spec c 45) as [->|_]; intros [H1 H2]%andb_prop; (constructor; [|by eapply IH]); [done|].
  unfold is_ascii_lowercase, is_ascii_digit in H1. rewrite orb_true_iff, !andb_true_iff, !N.leb_le in H1. lia.
Qed.

Lemma dist_info_ascii input p :
  PackageName_from_str input = Ok p ->
  Forall (fun c => c < 128) (as_dist_info_name p) /\ length (as_dist_info_name p) = length (package_name p).
Proof.
  unfold PackageName_from_str. destruct (validate_and_normalize_ref input) as [n|] eqn:E; [|done].
  intros [= <-]. rewrite dist_info_underscored. unfold underscored. rewrite length_map. split; [|done].
  apply Forall_fmap. apply validate_normalized in E as [->|Hn]; [constructor|].
  eapply Forall_impl; [by eapply normal_form_ascii|]. intros c Hc. cbn. by destruct (c =? 45).
Qed.

Lemma sdist_parse_inv filename ext name d :
  SourceDistFilename_parse filename ext name = Ok d ->
  exists prefix rest, PackageName_from_str prefix = Ok name /\
    Version_from_str rest = Ok (sdist_version d) /\ d = mkSdist name (sdist_version d) ext.
Proof.
  intros Hparse. unfold SourceDistFilename_parse, or_panic in Hparse. destruct (Nat.leb _ _); [done|].
  destruct (slice_to _ _) as [stem|]; cbn [ok_or rbind] in Hparse; [|done]. destruct (Nat.leb _ _); [done|].
  destruct (slice_to _ _) as [prefix|]; cbn [ok_or rbind] in Hparse; [|done].
  destruct (PackageName_from_str prefix) as [actual|] eqn:En; cbn [map_err rbind] in Hparse; [|done].
  case_bool_decide as Ename; cbn [negb] in Hparse; [|done].
  destruct (slice_from _ _) as [rest|]; cbn [ok_or rbind] in Hparse; [|done].
  destruct (Version_from_str rest) as [v|] eqn:Ev; cbn [map_err rbind] in Hparse; [|done].
  apply Ok_inj in Hparse as <-. exists prefix, rest. split_and!; [|done..]. rewrite En. f_equal.
  by destruct actual, name; cbn in *; subst.
Qed.

(** Source distribution file names survive printing: a parsed name prints to a file
    name that parses, for the same package and extension, to the same version. *)
Theorem sdist_filename_round_trip (filename : bytes) (ext : SourceDistExtension) (name : PackageName)
    (d : SourceDistFilename) (Hparse : SourceDistFilename_parse filename ext name = Ok d) :
  SourceDistFilename_parse (SourceDistFilename_show d) ext name = Ok d.
Proof.
  destruct (sdist_parse_inv _ _ _ _ Hparse) as (prefix&rest&Hn&Hv&->).
  cbn [sdist_version] in *. set (v := sdist_version d) in *.
  pose proof (from_str_inv rest) as Hinv. rewrite Hv in Hinv.
  pose proof (from_str_show_parsed _ Hinv) as Hv'. destruct Hinv as (_&Hp&_).
  pose proof (show_version_ascii v Hp) as Av. destruct (dist_info_ascii _ _ Hn) as [An Ln].
  pose proof (dist_info_parse _ _ Hn) as Hn'.
  assert (show v <> []) as Hne.
  { destruct (show_full_head _ Hp) as (c&t&E&_). rewrite show_full_value, E. done. }
  assert (Forall (fun c => c < 128) (extension_name ext)) as Ae by (destruct ext; by repeat constructor).
  unfold SourceDistFilename_show. cbn [sdist_name sdist_version extension].
  set (stem := as_dist_info_name name ++ 45 :: show v).
  assert (as_dist_info_name name ++ bs "-" ++ show v ++ bs "." ++ extension_name ext
          = stem ++ 46 :: extension_name ext) as -> by (subst stem; rewrite <- app_assoc; done).
  assert (Forall (fun c => c < 128) stem) as As by (apply Forall_app; split; [done|constructor; [lia|done]]).
  assert (length stem = length (package_name name) + 1 + length (show v))%nat as Ls
    by (subst stem; rewrite length_app, Ln; cbn [length]; lia).
  assert (length (show v) <> 0)%nat as Lv by (by destruct (show v)).
  assert (length (stem ++ 46%N :: extension_name ext) = length stem + 1 + length (extension_name ext))%nat as Lf
    by (rewrite length_app; cbn [length]; lia).
  assert (length (stem ++ 46%N :: extension_name ext) - (length (extension_name ext) + 1) = length stem)%nat as Lstem by lia.
  unfold SourceDistFilename_parse, or_panic. rewrite Lstem, Lf, (proj2 (Nat.leb_gt _ _)) by lia.
  unfold slice_to at 1. rewrite ascii_boundary;
    [|apply Forall_app; split; [done|constructor; [lia|done]]|lia].
  cbn [ok_or rbind]. rewrite take_app_length, (proj2 (Nat.leb_gt _ _)) by lia.
  unfold slice_to. rewrite ascii_boundary by (done || lia). cbn [ok_or rbind].
  assert (take (length (package_name name)) stem = as_dist_info_name name) as ->
    by (subst stem; rewrite <- Ln; apply take_app_length).
  rewrite Hn'. cbn [map_err rbind]. rewrite bool_decide_eq_true_2 by done. cbn [negb].
  unfold slice_from. rewrite ascii_boundary by (done || lia). cbn [ok_or rbind].
  assert (drop (length (package_name name) + 1) stem = show v) as ->
    by (subst stem; rewrite <- Ln; apply drop_after).
  rewrite Hv'. done.
Qed.

(** Parsing a source distribution name can panic: the name is cut at the length of
    the expected package name, which may be inside a character of more than one byte,
    as in [é1.0.zip] for the package [a]. A name of ASCII characters never panics. *)
Theorem sdist_filename_panics :
  SourceDistFilename_parse ([195; 169] ++ bs "1.0.zip") Zip {| package_name := bs "a" |} = Err Panic /\
  forall filename ext name, Forall (fun c => c < 128) filename ->
    SourceDistFilename_parse filename ext name <> Err Panic.
Proof.
  split; [vm_compute; reflexivity|]. intros f ext name Hf. unfold SourceDistFilename_parse, or_panic.
  destruct (Nat.leb_spec (length f) (length (extension_name ext) + 1)); [done|].
  unfold slice_to at 1. rewrite ascii_boundary by (done || lia). cbn [ok_or rbind].
  set (stem := take _ f). assert (Forall (fun c => c < 128) stem) as Hs by (by apply Forall_take).
  destruct (Nat.leb_spec (length stem) (length (package_name name) + 1)); [done|].
  unfold slice_to. rewrite ascii_boundary by (done || lia). cbn [ok_or rbind].
  destruct (PackageName_from_str _); cbn [map_err rbind]; [|done]. case_bool_decide; cbn [negb]; [|done].
  unfold slice_from. rewrite ascii_boundary by (done || lia). cbn [ok_or rbind].
  pose proof (Version_from_str_no_panic (drop (length (package_name name) + 1) stem)).
  by destruct (Version_from_str _) as [|[]].
Qed.
