(* ===== verification/RangeSet.v ===== *)
(** * Sets of ordered values (the [version-ranges] crate)

    [Ranges<T>] as the markers use it, for versions and for strings: an interface
    with the laws its documentation states, and an executable implementation by
    sorted cuts. Types that are ordered only on their well-formed values, as the
    packed versions are, take part through a predicate [valid]. *)

From stdpp Require Import base numbers list strings.
From S2P Require Import Prelude VersionTypes VersionSmall Version VersionFacts VersionParser Specifier Ranges.

(** ** Bounds *)

Inductive bound (T : Type) : Type :=
| B_Included (v : T)
| B_Excluded (v : T)
| B_Unbounded.

Arguments B_Included {T} v.
Arguments B_Excluded {T} v.
Arguments B_Unbounded {T}.

Section bounds.
Context {T : Type} `{Ord T}.

Definition lower_contains (b : bound T) (v : T) : bool :=
  match b with
  | B_Included x => cmp_geb v x
  | B_Excluded x => cmp_gtb v x
  | B_Unbounded => true
  end.

Definition upper_contains (b : bound T) (v : T) : bool :=
  match b with
  | B_Included x => cmp_leb v x
  | B_Excluded x => cmp_ltb v x
  | B_Unbounded => true
  end.

Definition segment_contains (v : T) (s : bound T * bound T) : bool :=
  lower_contains (fst s) v && upper_contains (snd s) v.

Definition bound_valid (valid : T -> Prop) (b : bound T) : Prop :=
  match b with
  | B_Included x | B_Excluded x => valid x
  | B_Unbounded => True
  end.

Definition segment_valid (valid : T -> Prop) (s : bound T * bound T) : Prop :=
  bound_valid valid (fst s) /\ bound_valid valid (snd s).
End bounds.

(** ** Places of bounds

    A bound sits just below (0) or just above (2) a value, whose own side is 1; an
    unbounded end is below or above everything. Bounds are compared by their
    places. *)

Abbreviation place T := (N * list (T * N))%type.

Section places.
Context {T : Type} `{Ord T}.

Definition bottom : place T := (0, []).
Definition top : place T := (2, []).

Definition lower_place (b : bound T) : place T :=
  match b with B_Included x => (1, [(x, 0)]) | B_Excluded x => (1, [(x, 2)]) | B_Unbounded => bottom end.

Definition upper_place (b : bound T) : place T :=
  match b with B_Included x => (1, [(x, 2)]) | B_Excluded x => (1, [(x, 0)]) | B_Unbounded => top end.

(** The segment has a place inside. *)
Definition segment_proper (s : bound T * bound T) : bool := cmp_ltb (lower_place (fst s)) (upper_place (snd s)).

(** The bound on the other side of the same place. *)
Definition flip (b : bound T) : bound T :=
  match b with B_Included x => B_Excluded x | B_Excluded x => B_Included x | B_Unbounded => B_Unbounded end.

Definition no_bound (b : bound T) : bool := match b with B_Unbounded => true | _ => false end.

Definition segment_inter (s u : bound T * bound T) : bound T * bound T :=
  (if cmp_ltb (lower_place (fst s)) (lower_place (fst u)) then fst u else fst s,
   if cmp_ltb (upper_place (snd u)) (upper_place (snd s)) then snd u else snd s).

(** Proper segments, each strictly above the one before. *)
Fixpoint ascending_from (p : place T) (l : list (bound T * bound T)) : bool :=
  match l with
  | [] => true
  | s :: l => cmp_ltb p (lower_place (fst s)) && segment_proper s && ascending_from (upper_place (snd s)) l
  end.

Definition ascending (l : list (bound T * bound T)) : bool :=
  match l with
  | [] => true
  | s :: l => segment_proper s && ascending_from (upper_place (snd s)) l
  end.

(** What lies between the segments, starting at [lo]. *)
Fixpoint gaps (lo : bound T) (l : list (bound T * bound T)) : list (bound T * bound T) :=
  match l with
  | [] => [(lo, B_Unbounded)]
  | (a, b) :: l =>
      (if no_bound a then [] else [(lo, flip a)]) ++ (if no_bound b then [] else gaps (flip b) l)
  end.

Definition segment_eqb (s u : bound T * bound T) : bool :=
  cmp_eqb (lower_place (fst s)) (lower_place (fst u)) && cmp_eqb (upper_place (snd s)) (upper_place (snd u)).

Fixpoint segments_eqb (l k : list (bound T * bound T)) : bool :=
  match l, k with
  | [], [] => true
  | s :: l, u :: k => segment_eqb s u && segments_eqb l k
  | _, _ => false
  end.

Definition bounding (l : list (bound T * bound T)) : option (bound T * bound T) :=
  match l, last l with
  | (lo, _) :: _, Some (_, hi) => Some (lo, hi)
  | _, _ => None
  end.
End places.

(** Places are ordered lawfully where the values are: if some [key] carries the
    order of the valid values, it carries the order of their places. *)
Section place_laws.
Context {T K : Type} {OT : Ord T} {OK : Ord K} {LK : OrdLaws K}.
Context (key : T -> K) (valid : T -> Prop) (Hkey : forall a b, valid a -> valid b -> cmp a b = cmp (key a) (key b)).

Definition place_key (p : place T) : place K := (fst p, map (fun c => (key (fst c), snd c)) (snd p)).
Definition place_ok (p : place T) : Prop := Forall (fun c => valid (fst c)) (snd p).

Lemma place_key_cmp p q : place_ok p -> place_ok q -> cmp p q = cmp (place_key p) (place_key q).
Proof.
  destruct p as [n l], q as [m k]. unfold place_ok, place_key. cbn [fst snd]. rewrite !prod_cmp. intros Hl Hk. f_equal.
  revert k Hk. induction Hl as [|[x i] l Hx _ IH]; intros [|[y j] k] Hk; try done. apply Forall_cons in Hk as [Hy Hk].
  cbn [map fst snd]. rewrite !list_cmp_cons, !prod_cmp. cbn in Hx, Hy. by rewrite (Hkey x y), IH.
Qed.

Lemma lower_place_ok b : bound_valid valid b -> place_ok (lower_place b).
Proof. destruct b; cbn; repeat constructor; done. Qed.

Lemma upper_place_ok b : bound_valid valid b -> place_ok (upper_place b).
Proof. destruct b; cbn; repeat constructor; done. Qed.
End place_laws.

(** The number of elements that pass a test. *)
Fixpoint count_if {A} (p : A -> bool) (l : list A) : nat :=
  match l with
  | [] => O
  | x :: l => ((if p x then 1 else 0) + count_if p l)%nat
  end.

Lemma count_if_app {A} (p : A -> bool) l k : count_if p (l ++ k) = (count_if p l + count_if p k)%nat.
Proof. induction l as [|x l IH]; cbn; [done|]. rewrite IH. lia. Qed.

Lemma count_if_map {A B} (p : B -> bool) (f : A -> B) l : count_if p (map f l) = count_if (fun x => p (f x)) l.
Proof. induction l as [|x l IH]; cbn; [done|]. by rewrite IH. Qed.

Lemma count_if_perm {A} (p : A -> bool) l k : l ≡ₚ k -> count_if p l = count_if p k.
Proof. induction 1; cbn; lia. Qed.

Lemma count_if_ext {A} (p q : A -> bool) l : (forall x, x ∈ l -> p x = q x) -> count_if p l = count_if q l.
Proof.
  induction l as [|x l IH]; intros E; cbn; [done|]. rewrite (E x), IH; [done| |].
  - intros y Hy. apply E. by right.
  - by left.
Qed.

(** ** The interface *)

Class RangeSet (T R : Type) := {
  rs_full : R;
  rs_singleton : T -> R;
  rs_strictly_lower_than : T -> R;
  rs_lower_than : T -> R;
  rs_higher_than : T -> R;
  rs_strictly_higher_than : T -> R;
  rs_from_range_bounds : bound T * bound T -> R;
  rs_from_iter : list (bound T * bound T) -> R;
  rs_complement : R -> R;
  rs_intersection : R -> R -> R;
  rs_union : R -> R -> R;
  rs_is_empty : R -> bool;
  rs_is_disjoint : R -> R -> bool;
  rs_contains : R -> T -> bool;
  rs_iter : R -> list (bound T * bound T);
  rs_bounding_range : R -> option (bound T * bound T);
  rs_eqb : R -> R -> bool
}.

(** [ok] says that the endpoints of a range are [valid]. *)
Class RangeSetLaws (T R : Type) `{Ord T} `{RangeSet T R} (valid : T -> Prop) (ok : R -> Prop) : Prop := {
  rs_contains_full v : rs_contains rs_full v = true;
  rs_contains_singleton a v : rs_contains (rs_singleton a) v = cmp_eqb v a;
  rs_contains_strictly_lower_than a v : rs_contains (rs_strictly_lower_than a) v = cmp_ltb v a;
  rs_contains_lower_than a v : rs_contains (rs_lower_than a) v = cmp_leb v a;
  rs_contains_higher_than a v : rs_contains (rs_higher_than a) v = cmp_geb v a;
  rs_contains_strictly_higher_than a v : rs_contains (rs_strictly_higher_than a) v = cmp_gtb v a;
  rs_contains_from_range_bounds s v : rs_contains (rs_from_range_bounds s) v = segment_contains v s;
  rs_contains_from_iter l v : rs_contains (rs_from_iter l) v = existsb (segment_contains v) l;
  rs_contains_complement r v : rs_contains (rs_complement r) v = negb (rs_contains r v);
  rs_contains_intersection r s v : rs_contains (rs_intersection r s) v = rs_contains r v && rs_contains s v;
  rs_contains_union r s v : rs_contains (rs_union r s) v = rs_contains r v || rs_contains s v;
  rs_ok_full : ok rs_full;
  rs_ok_singleton a : valid a -> ok (rs_singleton a);
  rs_ok_strictly_lower_than a : valid a -> ok (rs_strictly_lower_than a);
  rs_ok_lower_than a : valid a -> ok (rs_lower_than a);
  rs_ok_higher_than a : valid a -> ok (rs_higher_than a);
  rs_ok_strictly_higher_than a : valid a -> ok (rs_strictly_higher_than a);
  rs_ok_from_range_bounds s : segment_valid valid s -> ok (rs_from_range_bounds s);
  rs_ok_from_iter l : Forall (segment_valid valid) l -> ok (rs_from_iter l);
  rs_ok_complement r : ok r -> ok (rs_complement r);
  rs_ok_intersection r s : ok r -> ok s -> ok (rs_intersection r s);
  rs_ok_union r s : ok r -> ok s -> ok (rs_union r s);
  (** The segments of a set are disjoint and their union is the set. *)
  rs_iter_valid r : ok r -> Forall (segment_valid valid) (rs_iter r);
  rs_iter_count r v : ok r -> valid v ->
    count_if (segment_contains v) (rs_iter r) = (if rs_contains r v then 1 else 0)%nat;
  rs_empty_none r v : ok r -> valid v -> rs_is_empty r = true -> rs_contains r v = false;
  rs_disjoint_none r s v : ok r -> ok s -> valid v -> rs_is_disjoint r s = true ->
    rs_contains r v && rs_contains s v = false;
  (** The segments increase, do not touch and are not empty. *)
  rs_iter_ascending r : ok r -> ascending (rs_iter r) = true;
  rs_empty_iter r : ok r -> rs_is_empty r = match rs_iter r with [] => true | _ => false end;
  rs_bounding_iter r : ok r -> rs_bounding_range r = bounding (rs_iter r);
  rs_iter_from_range_bounds s : segment_valid valid s ->
    rs_iter (rs_from_range_bounds s) = if segment_proper s then [s] else [];
  rs_iter_complement r : ok r -> rs_iter (rs_complement r) = gaps B_Unbounded (rs_iter r);
  rs_iter_intersection r t s u : ok r -> ok t -> rs_iter r = [s] -> rs_iter t = [u] ->
    segments_eqb (rs_iter (rs_intersection r t)) (if segment_proper (segment_inter s u) then [segment_inter s u] else []) = true;
  rs_iter_union_adjacent r t s u : ok r -> ok t -> rs_iter r = [s] -> rs_iter t = [u] ->
    cmp (upper_place (snd s)) (lower_place (fst u)) = Eq ->
    segments_eqb (rs_iter (rs_union r t)) [(fst s, snd u)] = true;
  rs_eqb_refl r : ok r -> rs_eqb r r = true;
  rs_eqb_sym r s : ok r -> ok s -> rs_eqb r s = true -> rs_eqb s r = true;
  rs_eqb_trans r s t : ok r -> ok s -> ok t -> rs_eqb r s = true -> rs_eqb s t = true -> rs_eqb r t = true;
  rs_eqb_contains r s v : ok r -> ok s -> valid v -> rs_eqb r s = true -> rs_contains r v = rs_contains s v
}.

Lemma ascending_proper {T} `{Ord T} l s : ascending l = true -> s ∈ l -> segment_proper s = true.
Proof.
  assert (forall p k, ascending_from p k = true -> s ∈ k -> segment_proper s = true) as Hf.
  { intros p k. revert p. induction k as [|u k IH]; intros p; cbn; [by intros _ ?%not_elem_of_nil|].
    intros [[_ Hu]%andb_prop Hk]%andb_prop [->|Hs]%elem_of_cons; [done|by eapply IH]. }
  destruct l as [|u l]; cbn; [by intros _ ?%not_elem_of_nil|].
  intros [Hu Hk]%andb_prop [->|Hs]%elem_of_cons; [done|by eapply Hf].
Qed.

Section derived.
Context {T R : Type} `{RangeSetLaws T R valid ok}.

(** Only the empty set has no bounding range, and no segment is empty. *)
Lemma rs_bounding_some (r : R) : ok r -> rs_is_empty r = false -> is_Some (rs_bounding_range r).
Proof.
  intros Hr. rewrite rs_empty_iter, rs_bounding_iter by done. unfold bounding. destruct (rs_iter r) as [|[a b] l]; [done|]. intros _.
  destruct (last ((a, b) :: l)) as [[c d]|] eqn:El; [by eexists|]. by apply last_None in El.
Qed.

Lemma rs_iter_nonempty (r : R) s : ok r -> s ∈ rs_iter r -> rs_is_empty (rs_from_range_bounds s) = false.
Proof.
  intros Hr Hs. pose proof (rs_iter_valid r Hr) as Hv. rewrite Forall_forall in Hv. specialize (Hv s Hs).
  rewrite rs_empty_iter by (by apply rs_ok_from_range_bounds). rewrite rs_iter_from_range_bounds by done.
  by rewrite (ascending_proper _ _ (rs_iter_ascending r Hr) Hs).
Qed.
End derived.

(** A set of versions serves where the specifiers are translated. *)
#[export] Instance ranges_of_set {R} `{RangeSet Version R} : Ranges R := {|
  ranges_full := rs_full;
  ranges_singleton := rs_singleton;
  ranges_between a b := rs_from_range_bounds (B_Included a, B_Excluded b);
  ranges_from_range_bounds a b := rs_from_range_bounds (B_Included a, B_Excluded b);
  ranges_strictly_lower_than := rs_strictly_lower_than;
  ranges_lower_than := rs_lower_than;
  ranges_higher_than := rs_higher_than;
  ranges_strictly_higher_than := rs_strictly_higher_than;
  ranges_complement := rs_complement;
  ranges_intersection := rs_intersection;
  ranges_contains := rs_contains
|}.

#[export] Instance ranges_of_set_laws {R} {S : RangeSet Version R} (valid : Version -> Prop) (ok : R -> Prop)
    {L : RangeSetLaws Version R valid ok} : RangesLaws R.
Proof.
  split; cbn; intros.
  - apply rs_contains_full.
  - apply rs_contains_singleton.
  - by rewrite rs_contains_from_range_bounds.
  - by rewrite rs_contains_from_range_bounds.
  - apply rs_contains_strictly_lower_than.
  - apply rs_contains_lower_than.
  - apply rs_contains_higher_than.
  - apply rs_contains_strictly_higher_than.
  - apply rs_contains_complement.
  - apply rs_contains_intersection.
Qed.
