(* ===== verification/Cuts.v ===== *)
(** * An implementation of [RangeSet] by sorted cuts

    A set is given by whether it starts inside and by the increasing list of cuts
    where a walk from below enters or leaves it. The implementation shows that
    the laws of [RangeSetLaws] can hold, and evaluates the examples. *)

From Stdlib Require Import Sorted.
From stdpp Require Import base numbers list strings.
From S2P Require Import Prelude VersionTypes VersionSmall Version VersionFacts VersionParser Specifier Ranges RangeSet.

(** A cut just below (0) or just above (2) a value, whose own place is 1. *)
Abbreviation cut T := (T * N)%type.

Record cuts (T : Type) : Type := mkCuts { starts_inside : bool; cut_list : list (cut T) }.

Arguments mkCuts {T} starts_inside cut_list.
Arguments starts_inside {T} c.
Arguments cut_list {T} c.

Section cuts.
Context {T : Type} `{Ord T}.

(** [v] lies above the cut. *)
Definition above (v c : cut T) : bool := cmp_ltb c v.

(** The place of a value. *)
Definition at_value (v : T) : cut T := (v, 1).

Fixpoint walk (inside : bool) (l : list (cut T)) (v : cut T) : bool :=
  match l with
  | [] => inside
  | c :: l => if above v c then walk (negb inside) l v else inside
  end.

(** The cuts of two sets in increasing order, with which of the two they belong to. *)
Fixpoint events (l : list (cut T)) : list (cut T) -> list (cut T * (bool * bool)) :=
  fix events_l k :=
    match l, k with
    | [], _ => map (fun c => (c, (false, true))) k
    | _, [] => map (fun c => (c, (true, false))) l
    | c :: l', d :: k' =>
        match cmp c d with
        | Lt => (c, (true, false)) :: events l' k
        | Gt => (d, (false, true)) :: events_l k'
        | Eq => (c, (true, true)) :: events l' k'
        end
    end.

(** The cuts at which [f] of the two states changes. *)
Fixpoint emit (f : bool -> bool -> bool) (b1 b2 : bool) (l : list (cut T * (bool * bool))) : list (cut T) :=
  match l with
  | [] => []
  | (c, (t1, t2)) :: l =>
      let b1' := xorb t1 b1 in
      let b2' := xorb t2 b2 in
      if eqb (f b1 b2) (f b1' b2') then emit f b1' b2' l else c :: emit f b1' b2' l
  end.

Definition combine (f : bool -> bool -> bool) (r s : cuts T) : cuts T :=
  mkCuts (f (starts_inside r) (starts_inside s))
    (emit f (starts_inside r) (starts_inside s) (events (cut_list r) (cut_list s))).

Definition lower_of (c : cut T) : bound T := if snd c =? 0 then B_Included (fst c) else B_Excluded (fst c).
Definition upper_of (c : cut T) : bound T := if snd c =? 0 then B_Excluded (fst c) else B_Included (fst c).

Fixpoint segments (lo : bound T) (inside : bool) (l : list (cut T)) : list (bound T * bound T) :=
  match l with
  | [] => if inside then [(lo, B_Unbounded)] else []
  | c :: l => if inside then (lo, upper_of c) :: segments lo false l else segments (lower_of c) true l
  end.

Definition lower_cut (b : bound T) : list (cut T) :=
  match b with B_Included x => [(x, 0)] | B_Excluded x => [(x, 2)] | B_Unbounded => [] end.
Definition upper_cut (b : bound T) : list (cut T) :=
  match b with B_Included x => [(x, 2)] | B_Excluded x => [(x, 0)] | B_Unbounded => [] end.

Definition of_segment (s : bound T * bound T) : cuts T :=
  match lower_cut (fst s), upper_cut (snd s) with
  | [c], [d] => match cmp c d with Lt => mkCuts false [c; d] | _ => mkCuts false [] end
  | [], l => mkCuts true l
  | l, _ => mkCuts false l
  end.

Fixpoint cuts_eqb (l k : list (cut T)) : bool :=
  match l, k with
  | [], [] => true
  | c :: l, d :: k => cmp_eqb c d && cuts_eqb l k
  | _, _ => false
  end.
End cuts.

(** A set with its membership test. *)
Record interval_set (T : Type) : Type := mkSet { member : T -> bool; shape : cuts T }.

Arguments mkSet {T} member shape.
Arguments member {T} i.
Arguments shape {T} i.

Section sets.
Context {T : Type} `{Ord T}.

Definition set_segment (s : bound T * bound T) : interval_set T :=
  mkSet (fun v => segment_contains v s) (of_segment s).

Definition set_combine (f : bool -> bool -> bool) (r s : interval_set T) : interval_set T :=
  mkSet (fun v => f (member r v) (member s v)) (combine f (shape r) (shape s)).

Definition set_iter (r : interval_set T) : list (bound T * bound T) :=
  segments B_Unbounded (starts_inside (shape r)) (cut_list (shape r)).

Definition set_from_iter (l : list (bound T * bound T)) : interval_set T :=
  fold_right (fun s r => set_combine orb (set_segment s) r) (mkSet (fun _ => false) (mkCuts false [])) l.

Definition set_is_empty (r : interval_set T) : bool :=
  negb (starts_inside (shape r)) && match cut_list (shape r) with [] => true | _ => false end.

#[export] Instance interval_set_ops : RangeSet T (interval_set T) := {|
  rs_full := set_segment (B_Unbounded, B_Unbounded);
  rs_singleton a := mkSet (fun v => cmp_eqb v a) (of_segment (B_Included a, B_Included a));
  rs_strictly_lower_than a := set_segment (B_Unbounded, B_Excluded a);
  rs_lower_than a := set_segment (B_Unbounded, B_Included a);
  rs_higher_than a := set_segment (B_Included a, B_Unbounded);
  rs_strictly_higher_than a := set_segment (B_Excluded a, B_Unbounded);
  rs_from_range_bounds := set_segment;
  rs_from_iter := set_from_iter;
  rs_complement r :=
    mkSet (fun v => negb (member r v)) (mkCuts (negb (starts_inside (shape r))) (cut_list (shape r)));
  rs_intersection := set_combine andb;
  rs_union := set_combine orb;
  rs_is_empty := set_is_empty;
  rs_is_disjoint r s := set_is_empty (set_combine andb r s);
  rs_contains := member;
  rs_iter := set_iter;
  rs_bounding_range r := bounding (set_iter r);
  rs_eqb r s :=
    eqb (starts_inside (shape r)) (starts_inside (shape s)) && cuts_eqb (cut_list (shape r)) (cut_list (shape s))
|}.
End sets.

(** ** The laws *)

(** Being equal is being neither below nor above. *)
Lemma cmp_eqb_geb_leb {T} `{Ord T} (a b : T) : cmp_geb a b && cmp_leb a b = cmp_eqb a b.
Proof. unfold cmp_geb, cmp_leb, cmp_eqb. by destruct (cmp a b). Qed.

Lemma Forall_not_above {T} `{Ord T} (v : cut T) b l : Forall (fun c => above v c = false) l -> walk b l v = b.
Proof. destruct 1 as [|c l Hc _]; cbn; [done|]. by rewrite Hc. Qed.

(** Both sets walked along the events. *)
Fixpoint event_walk {T} `{Ord T} (b1 b2 : bool) (l : list (cut T * (bool * bool))) (v : cut T) : bool * bool :=
  match l with
  | [] => (b1, b2)
  | (c, (t1, t2)) :: l => if above v c then event_walk (xorb t1 b1) (xorb t2 b2) l v else (b1, b2)
  end.

(** Cuts in which everything below a value comes first. *)
Abbreviation ordered_for v l := (StronglySorted (fun c d => above v d = true -> above v c = true) l).

Lemma ordered_for_stop {T} `{Ord T} (v : cut T) c l :
  above v c = false -> ordered_for v (c :: l) -> Forall (fun d => above v d = false) l.
Proof.
  intros Hc [_ Hl]%StronglySorted_inv. eapply Forall_impl; [done|]. intros d Hd.
  cbn in Hd. destruct (above v d); [|done]. specialize (Hd eq_refl). congruence.
Qed.

Lemma emit_forall {T} (P : cut T -> Prop) f l : forall b1 b2, Forall P (map fst l) -> Forall P (emit f b1 b2 l).
Proof.
  induction l as [|[c [t1 t2]] l IH]; intros b1 b2; cbn; [done|]. intros [Hc Hl]%Forall_cons.
  case_match; [by apply IH|]. constructor; [done|by apply IH].
Qed.

Lemma emit_sorted {T} (Rel : cut T -> cut T -> Prop) f l : forall b1 b2,
  StronglySorted Rel (map fst l) -> StronglySorted Rel (emit f b1 b2 l).
Proof.
  induction l as [|[c [t1 t2]] l IH]; intros b1 b2; cbn; [done|]. intros [Hl Hc]%StronglySorted_inv.
  case_match; [by apply IH|]. constructor; [by apply IH|by apply emit_forall].
Qed.

Lemma emit_walk {T} `{Ord T} (v : cut T) f l : forall b1 b2,
  ordered_for v (map fst l) ->
  walk (f b1 b2) (emit f b1 b2 l) v = f (fst (event_walk b1 b2 l v)) (snd (event_walk b1 b2 l v)).
Proof.
  induction l as [|[c [t1 t2]] l IH]; intros b1 b2 Ho; cbn [emit event_walk map fst] in *; [done|].
  pose proof Ho as [Hl _]%StronglySorted_inv. destruct (above v c) eqn:Ec.
  - rewrite <- IH by done. destruct (f b1 b2) eqn:E1, (f (xorb t1 b1) (xorb t2 b2)) eqn:E2; cbn [eqb walk]; by rewrite ?Ec, ?E2.
  - pose proof (ordered_for_stop _ _ _ Ec Ho) as Hs. case_match eqn:E; cbn [fst snd]; [|cbn [walk]; by rewrite Ec].
    apply eqb_prop in E. rewrite E. apply Forall_not_above, emit_forall. done.
Qed.

Section laws.
Context {T K : Type} {OT : Ord T} {OK : Ord K} {LK : OrdLaws K}.
Context (key : T -> K) (valid : T -> Prop).
Context (Hkey : forall a b, valid a -> valid b -> cmp a b = cmp (key a) (key b)).

Definition cut_key (c : cut T) : K * N := (key (fst c), snd c).
Definition cut_ok (c : cut T) : Prop := valid (fst c) /\ (snd c = 0 \/ snd c = 2).

Lemma cut_cmp c d : cut_ok c -> cut_ok d -> cmp c d = cmp (cut_key c) (cut_key d).
Proof. intros [Hc _] [Hd _]. unfold cmp at 1 2, prod_ord, cut_key. cbn. by rewrite Hkey. Qed.

Lemma above_key v c : valid (fst v) -> cut_ok c -> above v c = cmp_ltb (cut_key c) (cut_key v).
Proof.
  intros Hv [Hc _]. unfold above, cmp_ltb, cut_key. unfold cmp at 1, prod_ord at 1. cbn [fst snd].
  by rewrite Hkey.
Qed.

Lemma above_mono v c d : valid (fst v) -> cut_ok c -> cut_ok d -> cmp c d <> Gt -> above v d = true -> above v c = true.
Proof.
  intros Hv Hc Hd. rewrite cut_cmp, !above_key by done. unfold cmp_ltb. intros Hcd Hd'.
  destruct (cmp (cut_key d) _) eqn:E; try done. by rewrite (cmp_le_lt_trans _ _ _ Hcd E).
Qed.

Lemma above_eq v c d : valid (fst v) -> cut_ok c -> cut_ok d -> cmp c d = Eq -> above v c = above v d.
Proof.
  intros Hv Hc Hd. rewrite cut_cmp, !above_key by done. intros E. unfold cmp_ltb. by rewrite (cmp_eq_l _ _ _ E).
Qed.

Abbreviation cut_lt := (fun c d : cut T => cmp c d = Lt).

Lemma ascending_ordered v l : valid (fst v) -> Forall cut_ok l -> StronglySorted cut_lt l -> ordered_for v l.
Proof.
  intros Hv Hl Hs. induction Hs as [|c l Hs IH Hc]; [constructor|]. apply Forall_cons in Hl as [Hc' Hl].
  constructor; [by apply IH|]. rewrite Forall_forall in *. intros d Hd. apply above_mono; auto.
  rewrite (Hc d Hd). done.
Qed.

Lemma events_nil_l (k : list (cut T)) : events [] k = map (fun c => (c, (false, true))) k.
Proof. by destruct k. Qed.

Lemma events_nil_r (c : cut T) l : events (c :: l) [] = map (fun c => (c, (true, false))) (c :: l).
Proof. done. Qed.

Lemma events_cons (c : cut T) l d k :
  events (c :: l) (d :: k) =
  match cmp c d with
  | Lt => (c, (true, false)) :: events l (d :: k)
  | Gt => (d, (false, true)) :: events (c :: l) k
  | Eq => (c, (true, true)) :: events l k
  end.
Proof. done. Qed.

Lemma map_fst_tag (t : bool * bool) (l : list (cut T)) : map fst (map (fun c => (c, t)) l) = l.
Proof. rewrite map_map. cbn. apply map_id. Qed.

Lemma events_forall (P : cut T -> Prop) l : forall k, Forall P l -> Forall P k -> Forall P (map fst (events l k)).
Proof.
  induction l as [|c l IH]; intros k Hl Hk; [rewrite events_nil_l; by rewrite map_fst_tag|].
  induction k as [|d k IHk]; [rewrite events_nil_r; by rewrite map_fst_tag|].
  apply Forall_cons in Hk as [Hd Hk]. pose proof Hl as [Hc Hl']%Forall_cons. rewrite events_cons.
  destruct (cmp c d); cbn [map fst]; constructor; auto.
Qed.

Lemma cut_lt_trans c d e : cut_ok c -> cut_ok d -> cut_ok e -> cmp c d = Lt -> cmp d e = Lt -> cmp c e = Lt.
Proof. intros Hc Hd He. rewrite !cut_cmp by done. apply cmp_lt_trans. Qed.

Lemma cut_lt_tail c d k :
  cut_ok c -> cut_ok d -> Forall cut_ok k -> cmp c d = Lt -> Forall (cut_lt d) k -> Forall (cut_lt c) k.
Proof.
  intros Hc Hd Hk E Hdk. rewrite Forall_forall in *. intros e He. eapply cut_lt_trans; [| |by apply Hk|done|by apply Hdk]; done.
Qed.

Lemma events_sorted l : forall k,
  Forall cut_ok l -> Forall cut_ok k -> StronglySorted cut_lt l -> StronglySorted cut_lt k ->
  StronglySorted cut_lt (map fst (events l k)).
Proof.
  induction l as [|c l IH]; intros k Hl Hk Sl Sk; [rewrite events_nil_l; by rewrite map_fst_tag|].
  induction k as [|d k IHk]; [rewrite events_nil_r; by rewrite map_fst_tag|].
  pose proof Hl as [Hc Hl']%Forall_cons. pose proof Hk as [Hd Hk']%Forall_cons.
  pose proof Sl as [Sl' Fc]%StronglySorted_inv. pose proof Sk as [Sk' Fd]%StronglySorted_inv.
  rewrite events_cons. destruct (cmp c d) eqn:E; cbn [map fst]; constructor; auto.
  - apply events_forall; [done|]. rewrite cut_cmp in E by done. rewrite Forall_forall in *. intros e He.
    specialize (Fd e He). cbn in Fd. rewrite cut_cmp in * by auto. by rewrite (cmp_eq_l _ _ _ E).
  - apply events_forall; [done|]. constructor; [done|]. by eapply cut_lt_tail.
  - apply events_forall; [|done]. assert (cmp d c = Lt) as E' by (rewrite cut_cmp in * by done; by apply cmp_gt_lt).
    constructor; [done|]. by eapply (cut_lt_tail d c).
Qed.

Lemma event_walk_tag b1 b2 t1 t2 l (v : cut T) :
  event_walk b1 b2 (map (fun c => (c, (t1, t2))) l) v
  = (if t1 then walk b1 l v else b1, if t2 then walk b2 l v else b2).
Proof.
  revert b1 b2. induction l as [|c l IH]; intros b1 b2; cbn [map event_walk walk]; [by destruct t1, t2|].
  destruct (above v c); [|by destruct t1, t2]. rewrite IH. by destruct t1, t2.
Qed.

Lemma events_walk (v : cut T) l : forall k b1 b2,
  valid (fst v) -> Forall cut_ok l -> Forall cut_ok k ->
  event_walk b1 b2 (events l k) v = (walk b1 l v, walk b2 k v).
Proof.
  induction l as [|c l IH]; intros k b1 b2 Hv Hl Hk; [rewrite events_nil_l; apply event_walk_tag|].
  revert b1 b2. induction k as [|d k IHk]; intros b1 b2; [rewrite events_nil_r; apply event_walk_tag|].
  pose proof Hl as [Hc Hl']%Forall_cons. pose proof Hk as [Hd Hk']%Forall_cons. rewrite events_cons.
  destruct (cmp c d) eqn:E; cbn [event_walk].
  - rewrite IH by done. cbn [walk]. rewrite <- (above_eq v c d) by done. by destruct (above v c).
  - rewrite IH by done. cbn [walk]. destruct (above v c) eqn:Ec; [done|].
    destruct (above v d) eqn:Ed; [|done]. rewrite (above_mono v c d) in Ec; [done..|by rewrite E|done].
  - rewrite IHk by done. cbn [walk]. destruct (above v d) eqn:Ed; [done|].
    destruct (above v c) eqn:Ec; [|done]. rewrite (above_mono v d c) in Ed; [done..| |done].
    rewrite cut_cmp in * by done. apply cmp_gt_lt in E. by rewrite E.
Qed.
Definition shape_ok (c : cuts T) : Prop := Forall cut_ok (cut_list c) /\ StronglySorted cut_lt (cut_list c).

Definition set_ok (r : interval_set T) : Prop :=
  shape_ok (shape r) /\
  forall v, valid v -> member r v = walk (starts_inside (shape r)) (cut_list (shape r)) (at_value v).

Lemma combine_ok f r s : set_ok r -> set_ok s -> set_ok (set_combine f r s).
Proof.
  intros [[Or Sr] Mr] [[Os Ss] Ms].
  assert (Forall cut_ok (map fst (events (cut_list (shape r)) (cut_list (shape s))))) as Hok by (by apply events_forall).
  assert (StronglySorted cut_lt (map fst (events (cut_list (shape r)) (cut_list (shape s))))) as Hs by (by apply events_sorted).
  split; [split; cbn; [by apply emit_forall|by apply emit_sorted]|]. intros v Hv. cbn.
  rewrite emit_walk by (by apply ascending_ordered). rewrite events_walk by done. cbn. by rewrite Mr, Ms.
Qed.

Lemma lower_of_contains v c : valid v -> cut_ok c -> lower_contains (lower_of c) v = above (at_value v) c.
Proof.
  intros Hv Hc. pose proof Hc as [Hc' Hs]. rewrite above_key by done. unfold lower_of, cmp_ltb, cut_key, at_value. cbn [fst snd].
  rewrite prod_cmp. destruct Hs as [-> | ->]; cbn [lower_contains N.eqb]; unfold cmp_geb, cmp_gtb;
    rewrite (Hkey v) by done; rewrite (cmp_opp (key (fst c)) (key v)); by destruct (cmp (key (fst c)) (key v)).
Qed.

Lemma upper_of_contains v c : valid v -> cut_ok c -> upper_contains (upper_of c) v = negb (above (at_value v) c).
Proof.
  intros Hv Hc. pose proof Hc as [Hc' Hs]. rewrite above_key by done. unfold upper_of, cmp_ltb, cut_key, at_value. cbn [fst snd].
  rewrite prod_cmp. destruct Hs as [-> | ->]; cbn [upper_contains N.eqb]; unfold cmp_ltb, cmp_leb;
    rewrite (Hkey v) by done; rewrite (cmp_opp (key (fst c)) (key v)); by destruct (cmp (key (fst c)) (key v)).
Qed.

Lemma lower_cut_spec b : bound_valid valid b ->
  (b = B_Unbounded /\ lower_cut b = []) \/ exists c, lower_cut b = [c] /\ cut_ok c /\ b = lower_of c.
Proof. destruct b as [x|x|]; cbn; intros Hx; [right; eexists (x, 0)|right; eexists (x, 2)|by left]; unfold cut_ok; cbn; auto. Qed.

Lemma upper_cut_spec b : bound_valid valid b ->
  (b = B_Unbounded /\ upper_cut b = []) \/ exists c, upper_cut b = [c] /\ cut_ok c /\ b = upper_of c.
Proof. destruct b as [x|x|]; cbn; intros Hx; [right; eexists (x, 2)|right; eexists (x, 0)|by left]; unfold cut_ok; cbn; auto. Qed.

Lemma segment_ok s : segment_valid valid s -> set_ok (set_segment s).
Proof.
  destruct s as [lo hi]. intros [Hlo Hhi]. cbn in Hlo, Hhi. unfold set_ok, set_segment, of_segment. cbn [shape member fst snd].
  destruct (lower_cut_spec lo Hlo) as [[-> ->]|(c&->&Hc&->)], (upper_cut_spec hi Hhi) as [[-> ->]|(d&->&Hd&->)].
  - split; [by split; constructor|done].
  - split; [split; cbn; constructor; (done || constructor)|]. intros v Hv. unfold segment_contains. cbn -[upper_of above].
    rewrite upper_of_contains by done. by destruct (above (at_value v) d).
  - split; [split; cbn; constructor; (done || constructor)|]. intros v Hv. unfold segment_contains. cbn -[lower_of above].
    rewrite lower_of_contains, andb_true_r by done. by destruct (above (at_value v) c).
  - assert (forall v, valid v -> segment_contains v (lower_of c, upper_of d) = above (at_value v) c && negb (above (at_value v) d)) as E.
    { intros v Hv. unfold segment_contains. cbn -[lower_of upper_of above]. by rewrite lower_of_contains, upper_of_contains. }
    assert (cmp c d <> Lt -> cmp d c <> Gt) as Hnlt.
    { rewrite !cut_cmp, (cmp_opp (cut_key c)) by done. by destruct (cmp (cut_key c) _). }
    destruct (cmp c d) eqn:Ecd.
    2: { split; [split; cbn; [constructor; [done|constructor; (done || constructor)]|]|].
         - constructor; [by repeat constructor|]. by repeat constructor.
         - intros v Hv. rewrite E by done. cbn -[above]. by destruct (above (at_value v) c), (above (at_value v) d). }
    all: split; [by split; constructor|]; intros v Hv; rewrite E by done; cbn -[above];
      destruct (above (at_value v) c) eqn:Ec; [|done]; rewrite (above_mono (at_value v) d c); auto.
Qed.

Lemma segments_none v l : forall lo inside,
  Forall (fun c => above (at_value v) c = false) l -> Forall cut_ok l -> valid v ->
  (inside = true -> lower_contains lo v = false) -> count_if (segment_contains v) (segments lo inside l) = 0%nat.
Proof.
  induction l as [|c l IH]; intros lo inside Ha Hok Hv Hlo; cbn [segments].
  - destruct inside; [|done]. cbn. unfold segment_contains. cbn. by rewrite Hlo.
  - apply Forall_cons in Ha as [Hc Ha]. apply Forall_cons in Hok as [Hc' Hok]. destruct inside.
    + cbn [count_if]. unfold segment_contains at 1. cbn [fst]. rewrite Hlo by done. cbn [andb]. by rewrite IH.
    + apply IH; try done. intros _. by rewrite lower_of_contains.
Qed.

Lemma segments_count v l : forall lo inside,
  Forall cut_ok l -> valid v -> ordered_for (at_value v) l -> (inside = true -> lower_contains lo v = true) ->
  count_if (segment_contains v) (segments lo inside l) = (if walk inside l (at_value v) then 1 else 0)%nat.
Proof.
  induction l as [|c l IH]; intros lo inside Hok Hv Ho Hlo; cbn [segments walk].
  - destruct inside; [|done]. cbn. unfold segment_contains. cbn. by rewrite Hlo.
  - pose proof Ho as [Ho' _]%StronglySorted_inv. pose proof Hok as [Hc' Hok']%Forall_cons.
    destruct (above (at_value v) c) eqn:Ec.
    + destruct inside; cbn [negb].
      * cbn [count_if]. unfold segment_contains at 1. cbn [snd]. rewrite upper_of_contains, Ec, andb_false_r by done.
        rewrite IH by done. done.
      * rewrite IH; try done. intros _. by rewrite lower_of_contains.
    + pose proof (ordered_for_stop _ _ _ Ec Ho) as Hs. destruct inside.
      * cbn [count_if]. unfold segment_contains at 1. cbn [fst snd]. rewrite upper_of_contains, Ec, Hlo by done. cbn [negb andb].
        by rewrite segments_none.
      * apply segments_none; try done. intros _. by rewrite lower_of_contains.
Qed.

Lemma segments_valid l : forall lo inside, bound_valid valid lo -> Forall cut_ok l ->
  Forall (segment_valid valid) (segments lo inside l).
Proof.
  assert (forall c, cut_ok c -> bound_valid valid (lower_of c) /\ bound_valid valid (upper_of c)) as Hb.
  { intros c [Hc _]. unfold lower_of, upper_of. by case_match. }
  induction l as [|c l IH]; intros lo inside Hlo Hl; cbn.
  - destruct inside; [|constructor]. by repeat constructor.
  - apply Forall_cons in Hl as [Hc Hl]. destruct (Hb c Hc). destruct inside; [|by apply IH].
    constructor; [by split|by apply IH].
Qed.

Lemma from_iter_ok l : Forall (segment_valid valid) l -> set_ok (set_from_iter l).
Proof.
  induction 1 as [|s l Hs _ IH]; cbn.
  - split; [by split; constructor|done].
  - apply combine_ok; [by apply segment_ok|done].
Qed.

Lemma cuts_eqb_walk v l : forall k b, valid (fst v) -> Forall cut_ok l -> Forall cut_ok k -> cuts_eqb l k = true -> walk b l v = walk b k v.
Proof.
  induction l as [|c l IH]; intros [|d k] b Hv Hl Hk; cbn; try done. intros [E1 E2]%andb_prop.
  apply Forall_cons in Hl as [Hc Hl]. apply Forall_cons in Hk as [Hd Hk].
  rewrite (above_eq v c d); [|done..|]. 2: { unfold cmp_eqb in E1. by destruct (cmp c d). }
  destruct (above v d); [by apply IH|done].
Qed.

Lemma cut_eqb_key c d : cut_ok c -> cut_ok d -> cmp_eqb c d = true <-> cmp (cut_key c) (cut_key d) = Eq.
Proof. intros Hc Hd. unfold cmp_eqb. rewrite cut_cmp by done. by destruct (cmp _ _). Qed.

Lemma cuts_eqb_refl l : Forall cut_ok l -> cuts_eqb l l = true.
Proof. induction 1 as [|c l Hc _ IH]; cbn; [done|]. rewrite IH, andb_true_r. apply cut_eqb_key; [done..|]. apply cmp_refl. Qed.

Lemma cuts_eqb_sym l : forall k, Forall cut_ok l -> Forall cut_ok k -> cuts_eqb l k = true -> cuts_eqb k l = true.
Proof.
  induction l as [|c l IH]; intros [|d k] Hl Hk; cbn; try done. intros [E1 E2]%andb_prop.
  apply Forall_cons in Hl as [Hc Hl]. apply Forall_cons in Hk as [Hd Hk]. rewrite IH, andb_true_r by done.
  apply cut_eqb_key in E1; [|done..]. apply cut_eqb_key; [done..|]. by apply cmp_eq_sym.
Qed.

Lemma cuts_eqb_trans l : forall k m, Forall cut_ok l -> Forall cut_ok k -> Forall cut_ok m ->
  cuts_eqb l k = true -> cuts_eqb k m = true -> cuts_eqb l m = true.
Proof.
  induction l as [|c l IH]; intros [|d k] [|e m] Hl Hk Hm; cbn; try done. intros [E1 E2]%andb_prop [E3 E4]%andb_prop.
  apply Forall_cons in Hl as [Hc Hl]. apply Forall_cons in Hk as [Hd Hk]. apply Forall_cons in Hm as [He Hm].
  rewrite (IH k m), andb_true_r by done. rewrite cut_eqb_key in * by done. by rewrite (cmp_eq_l _ _ _ E1).
Qed.

Lemma is_empty_none r v : set_ok r -> valid v -> set_is_empty r = true -> member r v = false.
Proof.
  intros [_ Hr] Hv. rewrite (Hr v Hv). unfold set_is_empty.
  destruct (starts_inside (shape r)); [done|]. by destruct (cut_list (shape r)).
Qed.

Lemma lower_cut_of c : cut_ok c -> lower_cut (lower_of c) = [c].
Proof. destruct c as [x n]. by intros [_ [E|E]]; cbn in E; subst n. Qed.

Lemma upper_cut_of c : cut_ok c -> upper_cut (upper_of c) = [c].
Proof. destruct c as [x n]. by intros [_ [E|E]]; cbn in E; subst n. Qed.

(** ** Segments *)

Lemma lower_place_of c : cut_ok c -> lower_place (lower_of c) = (1, [c]).
Proof. destruct c as [x n]. by intros [_ [E|E]]; cbn in E; subst n. Qed.

Lemma upper_place_of c : cut_ok c -> upper_place (upper_of c) = (1, [c]).
Proof. destruct c as [x n]. by intros [_ [E|E]]; cbn in E; subst n. Qed.

Lemma place_cmp (c d : cut T) : cmp (1, [c]) (1, [d]) = cmp c d.
Proof. rewrite prod_cmp. cbn. by destruct (cmp c d). Qed.

Lemma flip_of c : cut_ok c -> flip (lower_of c) = upper_of c /\ flip (upper_of c) = lower_of c.
Proof. destruct c as [x n]. by intros [_ [E|E]]; cbn in E; subst n. Qed.

Lemma segments_in (lo : bound T) l : exists hi k, segments lo true l = (lo, hi) :: k.
Proof. destruct l; cbn; eauto. Qed.

Lemma ascending_from_in p (lo : bound T) l :
  ascending_from p (segments lo true l) = cmp_ltb p (lower_place lo) && ascending (segments lo true l).
Proof. destruct (segments_in lo l) as (hi&k&->). cbn. by rewrite andb_assoc. Qed.

Lemma segments_ascending l : forall c lo, Forall cut_ok (c :: l) -> StronglySorted cut_lt (c :: l) ->
  ascending (segments (lower_of c) true l) = true /\ ascending_from (1, [c]) (segments lo false l) = true.
Proof.
  induction l as [|d l IH]; intros c lo Hok Hs; pose proof Hok as [Hc Hok']%Forall_cons; cbn [segments].
  - split; [|done]. cbn. unfold segment_proper. cbn [fst snd]. by rewrite lower_place_of.
  - pose proof Hs as [Hs' [Hcd _]%Forall_cons]%StronglySorted_inv. pose proof Hok' as [Hd _]%Forall_cons.
    destruct (IH d (lower_of c) Hok' Hs') as [IH1 IH2]. split.
    + cbn [ascending]. unfold segment_proper. cbn [fst snd]. rewrite lower_place_of, upper_place_of by done.
      rewrite IH2, andb_true_r. unfold cmp_ltb. by rewrite place_cmp, Hcd.
    + rewrite ascending_from_in, IH1, andb_true_r, lower_place_of by done. unfold cmp_ltb. by rewrite place_cmp, Hcd.
Qed.

Lemma iter_ascending (r : interval_set T) :
  Forall cut_ok (cut_list (shape r)) -> StronglySorted cut_lt (cut_list (shape r)) -> ascending (set_iter r) = true.
Proof.
  unfold set_iter. destruct (cut_list (shape r)) as [|c l]; [by destruct (starts_inside (shape r))|]. intros Hok Hs.
  pose proof Hok as [Hc Hok']%Forall_cons. destruct (segments_ascending l c B_Unbounded Hok Hs) as [H1 H2].
  destruct (starts_inside (shape r)); cbn [segments]; [|done]. cbn [ascending]. unfold segment_proper. cbn [fst snd].
  by rewrite upper_place_of.
Qed.

Lemma is_empty_iter (r : interval_set T) : set_is_empty r = match set_iter r with [] => true | _ => false end.
Proof.
  unfold set_is_empty, set_iter. destruct (starts_inside (shape r)), (cut_list (shape r)) as [|c l]; try done.
  cbn [segments]. by destruct (segments_in (lower_of c) l) as (hi&k&->).
Qed.

Lemma segment_iter s : segment_valid valid s -> set_iter (set_segment s) = if segment_proper s then [s] else [].
Proof.
  destruct s as [lo hi]. intros [Hlo Hhi]. cbn in Hlo, Hhi. unfold set_iter, set_segment, of_segment, segment_proper. cbn [shape fst snd].
  destruct (lower_cut_spec lo Hlo) as [[-> ->]|(c&->&Hc&->)], (upper_cut_spec hi Hhi) as [[-> ->]|(d&->&Hd&->)].
  - done.
  - by rewrite upper_place_of.
  - by rewrite lower_place_of.
  - rewrite lower_place_of, upper_place_of by done. unfold cmp_ltb. rewrite place_cmp. by destruct (cmp c d).
Qed.

Lemma gaps_segments l : forall lo lo', Forall cut_ok l ->
  gaps lo (segments lo' false l) = segments lo true l /\
  gaps lo (segments lo' true l) = (if no_bound lo' then [] else [(lo, flip lo')]) ++ segments lo false l.
Proof.
  induction l as [|c l IH]; intros lo lo' Hok; [done|]. apply Forall_cons in Hok as [Hc Hok]. destruct (flip_of c Hc) as [Ef Ef'].
  cbn [segments]. assert (no_bound (lower_of c) = false /\ no_bound (upper_of c) = false) as [Eb Eb'].
  { unfold lower_of, upper_of. by destruct (snd c =? 0). }
  split.
  - destruct (IH lo (lower_of c) Hok) as [_ ->]. by rewrite Eb, Ef.
  - cbn [gaps]. rewrite Eb', Ef'. f_equal. destruct (IH (lower_of c) lo' Hok) as [-> _]. done.
Qed.

Lemma complement_iter (r : interval_set T) : Forall cut_ok (cut_list (shape r)) ->
  set_iter (rs_complement r) = gaps B_Unbounded (set_iter r).
Proof.
  intros Hok. unfold set_iter. cbn. destruct (gaps_segments (cut_list (shape r)) B_Unbounded B_Unbounded Hok) as [H1 H2].
  by destruct (starts_inside (shape r)).
Qed.

(** ** A set is determined by what it contains at all places *)

Definition after (c : cut T) : cut T := (fst c, snd c + 1).

Lemma above_after c : cut_ok c -> above (after c) c = true.
Proof.
  intros Hc. rewrite above_key by (done || apply Hc). unfold cmp_ltb, cut_key, after. cbn. rewrite prod_cmp, cmp_refl. cbn.
  assert (cmp (snd c) (snd c + 1) = Lt) as ->; [|done]. apply N.compare_lt_iff. lia.
Qed.

Lemma not_above_after c d : cut_ok c -> cut_ok d -> cmp c d = Lt -> above (after c) d = false.
Proof.
  intros Hc Hd. rewrite cut_cmp by done. rewrite above_key by (done || apply Hc). unfold cmp_ltb, cut_key, after. cbn [fst snd].
  rewrite !prod_cmp, (cmp_opp (key (fst c)) (key (fst d))). destruct (cmp (key (fst c)) (key (fst d))); cbn; try done.
  destruct Hc as [_ [-> | ->]], Hd as [_ [-> | ->]]; done.
Qed.

Lemma not_above_after_all c l : cut_ok c -> Forall cut_ok l -> Forall (cut_lt c) l -> Forall (fun d => above (after c) d = false) l.
Proof. intros Hc Hl Hs. rewrite Forall_forall in *. intros d Hd. apply not_above_after; auto. Qed.

Lemma walk_after c l b : Forall cut_ok (c :: l) -> StronglySorted cut_lt (c :: l) -> walk b (c :: l) (after c) = negb b.
Proof.
  intros [Hc Hl]%Forall_cons [_ Hs]%StronglySorted_inv. cbn [walk]. rewrite above_after by done.
  by apply Forall_not_above, not_above_after_all.
Qed.

Lemma walk_before c l b : Forall cut_ok (c :: l) -> StronglySorted cut_lt (c :: l) -> forall d, cut_ok d -> cmp d c = Lt -> walk b (c :: l) (after d) = b.
Proof. intros [Hc Hl]%Forall_cons _ d Hd E. cbn [walk]. by rewrite not_above_after. Qed.

Lemma walk_unique l : forall k b, Forall cut_ok l -> Forall cut_ok k -> StronglySorted cut_lt l -> StronglySorted cut_lt k ->
  (forall p, valid (fst p) -> walk b l p = walk b k p) -> cuts_eqb l k = true.
Proof.
  induction l as [|c l IH]; intros [|d k] b Hl Hk Sl Sk Hw; [done| | |].
  - pose proof Hk as [Hd _]%Forall_cons. specialize (Hw (after d) (proj1 Hd)). rewrite walk_after in Hw by done. by destruct b.
  - pose proof Hl as [Hc _]%Forall_cons. specialize (Hw (after c) (proj1 Hc)). rewrite walk_after in Hw by done. by destruct b.
  - pose proof Hl as [Hc Hl']%Forall_cons. pose proof Hk as [Hd Hk']%Forall_cons.
    pose proof Sl as [Sl' Fc]%StronglySorted_inv. pose proof Sk as [Sk' Fd]%StronglySorted_inv. cbn [cuts_eqb]. unfold cmp_eqb at 1.
    destruct (cmp c d) eqn:E.
    + apply (IH k (negb b)); try done. intros p Hp. specialize (Hw p Hp). cbn [walk] in Hw. rewrite <- (above_eq p c d) in Hw by done.
      destruct (above p c) eqn:Ea; [done|]. rewrite !Forall_not_above; [done| |].
      * eapply (ordered_for_stop p d); [by rewrite <- (above_eq p c d)|]. by apply ascending_ordered.
      * eapply (ordered_for_stop p c); [done|]. by apply ascending_ordered.
    + specialize (Hw (after c) (proj1 Hc)). rewrite walk_after, (walk_before d k) in Hw by done. by destruct b.
    + assert (cmp d c = Lt) as E' by (rewrite cut_cmp in * by done; by apply cmp_gt_lt).
      specialize (Hw (after d) (proj1 Hd)). rewrite (walk_after d), (walk_before c l) in Hw by done. by destruct b.
Qed.

Lemma segments_eqb_of l : forall k lo lo' b, Forall cut_ok l -> Forall cut_ok k -> cuts_eqb l k = true ->
  (b = true -> cmp (lower_place lo) (lower_place lo') = Eq) -> segments_eqb (segments lo b l) (segments lo' b k) = true.
Proof.
  induction l as [|c l IH]; intros [|d k] lo lo' b Hl Hk; try done.
  - intros _ Hlo. destruct b; [|done]. cbn. unfold segment_eqb, cmp_eqb. cbn [fst snd]. by rewrite Hlo.
  - cbn [cuts_eqb]. intros [E1 E2]%andb_prop Hlo. apply Forall_cons in Hl as [Hc Hl]. apply Forall_cons in Hk as [Hd Hk].
    assert (cmp c d = Eq) as E by (unfold cmp_eqb in E1; by destruct (cmp c d)). cbn [segments]. destruct b.
    + cbn [segments_eqb]. rewrite IH by done. unfold segment_eqb, cmp_eqb. cbn [fst snd].
      rewrite Hlo, !upper_place_of by done. by rewrite place_cmp, E.
    + apply IH; try done. intros _. rewrite !lower_place_of by done. by rewrite place_cmp.
Qed.

(** Two sets that start alike and agree at all places have the same segments. *)
Lemma same_segments (r t : interval_set T) : set_ok r -> set_ok t -> starts_inside (shape r) = starts_inside (shape t) ->
  (forall p, valid (fst p) -> walk (starts_inside (shape r)) (cut_list (shape r)) p = walk (starts_inside (shape t)) (cut_list (shape t)) p) ->
  segments_eqb (set_iter r) (set_iter t) = true.
Proof.
  intros [[Or Sr] _] [[Ot St] _] E Hw. unfold set_iter. rewrite <- E in *. apply segments_eqb_of; [done..| |done].
  by eapply walk_unique.
Qed.

(** ** Sets with one segment *)

Definition above_lower (p : cut T) (b : bound T) : bool := forallb (above p) (lower_cut b).
Definition above_upper (p : cut T) (b : bound T) : bool := existsb (above p) (upper_cut b).
Definition inside (s : bound T * bound T) (p : cut T) : bool := above_lower p (fst s) && negb (above_upper p (snd s)).

Lemma single_shape (r : interval_set T) s : set_ok r -> set_iter r = [s] ->
  segment_valid valid s /\ segment_proper s = true /\ starts_inside (shape r) = no_bound (fst s) /\
  forall p, walk (starts_inside (shape r)) (cut_list (shape r)) p = inside s p.
Proof.
  intros [[Ho Hs] _] E. split; [|split].
  - pose proof (segments_valid (cut_list (shape r)) B_Unbounded (starts_inside (shape r)) I Ho) as Hv. unfold set_iter in E.
    rewrite E in Hv. by apply Forall_cons in Hv as [? _].
  - pose proof (iter_ascending r Ho Hs) as Ha. rewrite E in Ha. cbn in Ha. by rewrite andb_true_r in Ha.
  - clear Hs. unfold set_iter in E. destruct (starts_inside (shape r)), (cut_list (shape r)) as [|c l]; cbn [segments] in E; try done.
    + by simplify_eq.
    + destruct l as [|d l]; [|cbn [segments] in E; by destruct (segments_in (lower_of d) l) as (hi&k&E'); rewrite E' in E].
      cbn in E. simplify_eq. split; [done|]. intros p. apply Forall_cons in Ho as [Hc _]. unfold inside, above_upper. cbn [fst snd].
      rewrite upper_cut_of by done. cbn. by destruct (above p c).
    + pose proof Ho as [Hc Ho']%Forall_cons. assert (no_bound (lower_of c) = false) as Hb by (unfold lower_of; by destruct (snd c =? 0)).
      destruct l as [|d l]; cbn [segments] in E.
      * simplify_eq. cbn [fst]. rewrite Hb. split; [done|]. intros p. unfold inside, above_lower. cbn [fst snd]. rewrite lower_cut_of by done.
        cbn. by destruct (above p c).
      * destruct l as [|e l]; [|cbn [segments] in E; by destruct (segments_in (lower_of e) l) as (hi&k&E'); rewrite E' in E].
        cbn in E. simplify_eq. cbn [fst]. rewrite Hb. split; [done|]. intros p. apply Forall_cons in Ho' as [Hd _].
        unfold inside, above_lower, above_upper. cbn [fst snd]. rewrite lower_cut_of, upper_cut_of by done. cbn.
        by destruct (above p c), (above p d).
Qed.

Lemma above_bounds p lo hi : valid (fst p) -> bound_valid valid lo -> bound_valid valid hi ->
  cmp (lower_place lo) (upper_place hi) <> Lt -> above_lower p lo = true -> above_upper p hi = true.
Proof.
  intros Hp Hlo Hhi. unfold above_lower, above_upper.
  destruct (lower_cut_spec lo Hlo) as [[-> ->]|(c&->&Hc&->)], (upper_cut_spec hi Hhi) as [[-> ->]|(d&->&Hd&->)]; try done.
  - by rewrite upper_place_of.
  - by rewrite lower_place_of.
  - rewrite lower_place_of, upper_place_of by done. rewrite place_cmp. cbn. intros E. rewrite andb_true_r, orb_false_r.
    apply above_mono; [done..|]. rewrite !cut_cmp in * by done. rewrite (cmp_opp (cut_key c)). by destruct (cmp (cut_key c) _).
Qed.

Lemma above_bounds_lt p lo hi : valid (fst p) -> bound_valid valid lo -> bound_valid valid hi ->
  cmp (lower_place lo) (upper_place hi) <> Gt -> above_upper p hi = true -> above_lower p lo = true.
Proof.
  intros Hp Hlo Hhi. unfold above_lower, above_upper.
  destruct (lower_cut_spec lo Hlo) as [[-> ->]|(c&->&Hc&->)], (upper_cut_spec hi Hhi) as [[-> ->]|(d&->&Hd&->)]; try done.
  rewrite lower_place_of, upper_place_of by done. rewrite place_cmp. cbn. intros E. rewrite andb_true_r, orb_false_r. by apply above_mono.
Qed.

Lemma segment_walk s : segment_valid valid s ->
  starts_inside (of_segment s) = no_bound (fst s) /\
  forall p, valid (fst p) -> walk (starts_inside (of_segment s)) (cut_list (of_segment s)) p = inside s p.
Proof.
  intros Hs. destruct (segment_proper s) eqn:E.
  - pose proof (segment_iter s Hs) as Ei. rewrite E in Ei. destruct (single_shape _ s (segment_ok s Hs) Ei) as (_&_&H1&H2). auto.
  - destruct s as [lo hi], Hs as [Hlo Hhi]. unfold segment_proper in E. cbn [fst snd] in *. cbn in Hlo, Hhi.
    assert (of_segment (lo, hi) = mkCuts false [] /\ no_bound lo = false) as [-> ->].
    { unfold of_segment. cbn [fst snd].
      destruct (lower_cut_spec lo Hlo) as [[-> ->]|(c&->&Hc&->)], (upper_cut_spec hi Hhi) as [[-> ->]|(d&->&Hd&->)]; try done.
      - by rewrite upper_place_of in E.
      - by rewrite lower_place_of in E.
      - rewrite lower_place_of, upper_place_of in E by done. unfold cmp_ltb in E. rewrite place_cmp in E.
        split; [by destruct (cmp c d)|]. unfold lower_of. by destruct (snd c =? 0). }
    split; [done|]. intros p Hp. cbn. unfold inside. cbn [fst snd]. destruct (above_lower p lo) eqn:Ea; [|done].
    rewrite (above_bounds p lo hi); [done..| |done]. unfold cmp_ltb in E. intros E'. by rewrite E' in E.
Qed.

Lemma no_bound_max (a b : bound T) : no_bound (if cmp_ltb (lower_place a) (lower_place b) then b else a) = no_bound a && no_bound b.
Proof. destruct a, b; try done; by case_match. Qed.

Lemma above_lower_max p a b : valid (fst p) -> bound_valid valid a -> bound_valid valid b ->
  above_lower p (if cmp_ltb (lower_place a) (lower_place b) then b else a) = above_lower p a && above_lower p b.
Proof.
  intros Hp Ha Hb.
  destruct (lower_cut_spec a Ha) as [[-> _]|(c&_&Hc&->)], (lower_cut_spec b Hb) as [[-> _]|(d&_&Hd&->)]; unfold above_lower;
    rewrite ?lower_place_of, ?(lower_cut_of c), ?(lower_cut_of d) by done.
  1: done.
  1: cbn; by rewrite lower_cut_of.
  1: cbn; rewrite lower_cut_of, !andb_true_r by done; apply andb_true_r.
  unfold cmp_ltb. rewrite place_cmp. destruct (cmp c d) eqn:E; rewrite lower_cut_of by done; cbn; rewrite !andb_true_r.
  - rewrite (above_eq p c d) by done. by destruct (above p d).
  - destruct (above p d) eqn:Ed; [|by rewrite andb_false_r]. rewrite (above_mono p c d); [done..|by rewrite E|done].
  - destruct (above p c) eqn:Ec; [|done]. rewrite (above_mono p d c); [done..| |done]. rewrite cut_cmp in * by done. apply cmp_gt_lt in E. by rewrite E.
Qed.

Lemma above_upper_min p a b : valid (fst p) -> bound_valid valid a -> bound_valid valid b ->
  above_upper p (if cmp_ltb (upper_place b) (upper_place a) then b else a) = above_upper p a || above_upper p b.
Proof.
  intros Hp Ha Hb.
  destruct (upper_cut_spec a Ha) as [[-> _]|(c&_&Hc&->)], (upper_cut_spec b Hb) as [[-> _]|(d&_&Hd&->)]; unfold above_upper;
    rewrite ?upper_place_of, ?(upper_cut_of c), ?(upper_cut_of d) by done.
  1: done.
  1: cbn; by rewrite upper_cut_of.
  1: cbn; rewrite upper_cut_of, !orb_false_r by done; apply orb_false_r.
  unfold cmp_ltb. rewrite place_cmp. destruct (cmp d c) eqn:E; rewrite upper_cut_of by done; cbn; rewrite orb_false_r.
  - rewrite (above_eq p d c) by done. by destruct (above p c).
  - destruct (above p c) eqn:Ec; [|done]. rewrite (above_mono p d c); [done..|by rewrite E|done].
  - destruct (above p d) eqn:Ed; [|by rewrite orb_false_r]. rewrite (above_mono p c d); [done..| |done]. rewrite cut_cmp in * by done. apply cmp_gt_lt in E. by rewrite E.
Qed.

Lemma intersection_iter r t s u : set_ok r -> set_ok t -> set_iter r = [s] -> set_iter t = [u] ->
  segments_eqb (set_iter (set_combine andb r t)) (if segment_proper (segment_inter s u) then [segment_inter s u] else []) = true.
Proof.
  intros Hr Ht Es Eu. destruct (single_shape r s Hr Es) as ([Hs1 Hs2]&_&Bs&Ws), (single_shape t u Ht Eu) as ([Hu1 Hu2]&_&Bu&Wu).
  assert (segment_valid valid (segment_inter s u)) as Hz by (unfold segment_inter; split; cbn [fst snd]; by case_match).
  rewrite <- segment_iter by done. destruct (segment_walk _ Hz) as [Bz Wz].
  apply same_segments; [by apply combine_ok|by apply segment_ok| |].
  - cbn. rewrite Bz, Bs, Bu. symmetry. by apply no_bound_max.
  - intros p Hp. cbn [set_combine shape combine starts_inside cut_list]. destruct Hr as [[Or Sr] _], Ht as [[Ot St] _]. fold (set_segment (segment_inter s u)).
    rewrite emit_walk by (apply ascending_ordered; [done|by apply events_forall|by apply events_sorted]).
    rewrite events_walk by done. cbn [fst snd]. rewrite Ws, Wu. change (shape (set_segment (segment_inter s u))) with (of_segment (segment_inter s u)).
    rewrite Wz by done. unfold inside, segment_inter. cbn [fst snd].
    rewrite above_upper_min by done. rewrite above_lower_max by done.
    by destruct (above_lower p (fst s)), (above_lower p (fst u)), (above_upper p (snd s)), (above_upper p (snd u)).
Qed.

Lemma adjacent_above p hi lo : valid (fst p) -> bound_valid valid hi -> bound_valid valid lo -> cmp (upper_place hi) (lower_place lo) = Eq ->
  above_upper p hi = above_lower p lo /\ no_bound hi = false /\ no_bound lo = false.
Proof.
  intros Hp Hhi Hlo E. unfold above_lower, above_upper.
  destruct (lower_cut_spec lo Hlo) as [[-> ->]|(c&->&Hc&->)], (upper_cut_spec hi Hhi) as [[-> ->]|(d&->&Hd&->)]; try done.
  - by rewrite upper_place_of in E.
  - by rewrite lower_place_of in E.
  - rewrite upper_place_of, lower_place_of in E by done. rewrite place_cmp in E. cbn. rewrite andb_true_r, orb_false_r.
    rewrite (above_eq p d c) by done. split; [done|]. unfold lower_of, upper_of. by destruct (snd c =? 0), (snd d =? 0).
Qed.

Lemma union_iter r t s u : set_ok r -> set_ok t -> set_iter r = [s] -> set_iter t = [u] ->
  cmp (upper_place (snd s)) (lower_place (fst u)) = Eq -> segments_eqb (set_iter (set_combine orb r t)) [(fst s, snd u)] = true.
Proof.
  intros Hr Ht Es Eu E. destruct (single_shape r s Hr Es) as ([Hs1 Hs2]&Ps&Bs&Ws), (single_shape t u Ht Eu) as ([Hu1 Hu2]&Pu&Bu&Wu).
  assert (segment_valid valid (fst s, snd u)) as Hz by done.
  assert (cmp (lower_place (fst s)) (upper_place (snd s)) <> Gt /\ cmp (lower_place (fst u)) (upper_place (snd u)) <> Gt) as [Qs Qu].
  { unfold segment_proper, cmp_ltb in Ps, Pu. by destruct (cmp (lower_place (fst s)) _), (cmp (lower_place (fst u)) _). }
  assert (forall p, valid (fst p) -> inside s p || inside u p = inside (fst s, snd u) p) as Hw.
  { intros p Hp. destruct (adjacent_above p (snd s) (fst u) Hp Hs2 Hu1 E) as (Ea&_&_). unfold inside. cbn [fst snd]. rewrite Ea.
    pose proof (above_bounds_lt p (fst s) (snd s) Hp Hs1 Hs2 Qs) as H1. pose proof (above_bounds_lt p (fst u) (snd u) Hp Hu1 Hu2 Qu) as H2.
    rewrite Ea in H1. destruct (above_lower p (fst s)), (above_lower p (fst u)), (above_upper p (snd u)); cbn; naive_solver. }
  assert (segment_proper (fst s, snd u) = true) as Pz.
  { unfold segment_proper, cmp_ltb in *. cbn [fst snd]. rewrite (place_key_cmp key valid Hkey) in * by (by apply lower_place_ok || by apply upper_place_ok).
    destruct (cmp _ (place_key key (upper_place (snd s)))) eqn:E1; try done.
    rewrite (cmp_lt_le_trans _ _ _ E1); [done|]. by rewrite (cmp_eq_l _ _ _ E). }
  pose proof (segment_iter _ Hz) as Ez. rewrite Pz in Ez. rewrite <- Ez. destruct (segment_walk _ Hz) as [Bz Wz].
  apply same_segments; [by apply combine_ok|by apply segment_ok| |].
  - cbn. rewrite Bz, Bs, Bu. cbn [fst]. destruct (fst u); try apply orb_false_r. cbn in E.
    destruct (snd s); try done; cbn in E; by rewrite prod_cmp in E.
  - intros p Hp. cbn [set_combine shape combine starts_inside cut_list]. destruct Hr as [[Or Sr] _], Ht as [[Ot St] _].
    rewrite emit_walk by (apply ascending_ordered; [done|by apply events_forall|by apply events_sorted]).
    rewrite events_walk by done. cbn [fst snd]. rewrite Ws, Wu. change (shape (set_segment (fst s, snd u))) with (of_segment (fst s, snd u)).
    rewrite Wz by done. by apply Hw.
Qed.

Lemma interval_set_laws : RangeSetLaws T (interval_set T) valid set_ok.
Proof.
  split; cbn; try done.
  - intros a v. apply andb_true_r.
  - intros a v. apply andb_true_r.
  - intros l v. induction l as [|s l IH]; [done|]. cbn [existsb]. rewrite <- IH. done.
  - by apply segment_ok.
  - intros a Ha. destruct (segment_ok (B_Included a, B_Included a)) as [Hs Hm]; [by split|]. split; [done|].
    intros v Hv. cbn in *. rewrite <- Hm by done. unfold segment_contains. cbn.
    rewrite cmp_eqb_geb_leb. done.
  - intros a Ha. by apply segment_ok.
  - intros a Ha. by apply segment_ok.
  - intros a Ha. by apply segment_ok.
  - intros a Ha. by apply segment_ok.
  - apply segment_ok.
  - apply from_iter_ok.
  - intros r [Hs Hm]. split; [done|]. intros v Hv. cbn. rewrite Hm by done.
    generalize (cut_list (shape r)) (starts_inside (shape r)). intros l. induction l as [|c l IH]; intros b; cbn; [done|].
    destruct (above (at_value v) c); [apply IH|done].
  - intros r s. apply combine_ok.
  - intros r s. apply combine_ok.
  - intros r [[Ho _] _]. by apply segments_valid.
  - intros r v [[Ho Hs] Hm] Hv. rewrite Hm by done. apply segments_count; [done..|by apply ascending_ordered|done].
  - apply is_empty_none.
  - intros r s v Hr Hs Hv He. by apply (is_empty_none (set_combine andb r s) v (combine_ok andb r s Hr Hs) Hv).
  - intros r [[Ho Hs] _]. by apply iter_ascending.
  - intros r _. apply is_empty_iter.
  - intros s Hs. by apply segment_iter.
  - intros r [[Ho _] _]. by apply complement_iter.
  - intros r t s u. apply intersection_iter.
  - intros r t s u. apply union_iter.
  - intros r [[Ho _] _]. rewrite cuts_eqb_refl by done. by destruct (starts_inside _).
  - intros r s [[Ho _] _] [[Ho' _] _] [E1 E2]%andb_prop. rewrite cuts_eqb_sym, andb_true_r by done.
    apply eqb_prop in E1. rewrite E1. apply eqb_reflx.
  - intros r s t [[Ho _] _] [[Ho' _] _] [[Ho2 _] _] [E1 E2]%andb_prop [E3 E4]%andb_prop.
    rewrite (cuts_eqb_trans _ (cut_list (shape s))), andb_true_r by done. apply eqb_prop in E1, E3. rewrite E1, E3. apply eqb_reflx.
  - intros r s v [[Ho _] Hm] [[Ho' _] Hm'] Hv [E1 E2]%andb_prop. rewrite Hm, Hm' by done. apply eqb_prop in E1. rewrite E1.
    by apply cuts_eqb_walk.
Qed.
End laws.

#[export] Instance version_set_laws : RangeSetLaws Version (interval_set Version) version_wf (set_ok version_wf) :=
  interval_set_laws value version_wf cmp_value.

#[export] Instance string_set_laws : RangeSetLaws bytes (interval_set bytes) (fun _ => True) (set_ok (fun _ => True)) :=
  interval_set_laws (fun s => s) (fun _ => True) (fun a b _ _ => eq_refl).
