(* ===== verification/Tiling.v ===== *)
(** * Edges that tile a line

    The ranges on the edges of a node are single segments, in increasing order,
    each starting at the place where the one before ends. This is what lets the
    program speak of the first and the last range, and of the bounds of a range. *)

From Stdlib Require Import Sorted.
From stdpp Require Import base numbers list strings.
From S2P Require Import Prelude VersionTypes VersionSmall Version VersionFacts VersionParser Specifier Ranges RangeSet.

(** ** Orders on finitely many elements are orders of numbers *)

Section rank.
Context {A : Type} `{OrdLaws A}.

Definition rank (l : list A) (x : A) : nat := count_if (fun y => cmp_ltb y x) l.

Lemma count_if_le {B} (p q : B -> bool) l : (forall y, p y = true -> q y = true) -> (count_if p l <= count_if q l)%nat.
Proof.
  intros Hpq. induction l as [|y l IH]; cbn; [lia|]. specialize (Hpq y). destruct (p y), (q y); cbn; (lia || by specialize (Hpq eq_refl)).
Qed.

Lemma rank_mono l x y : cmp x y <> Gt -> (rank l x <= rank l y)%nat.
Proof.
  intros E. apply count_if_le. intros z. unfold cmp_ltb. destruct (cmp z x) eqn:Ez; try done. by rewrite (cmp_lt_le_trans z x y Ez E).
Qed.

Lemma rank_strict l x y : x ∈ l -> cmp x y = Lt -> (rank l x < rank l y)%nat.
Proof.
  intros Hx E. induction l as [|z l IH]; [by apply not_elem_of_nil in Hx|]. unfold rank in *. cbn.
  assert (rank l x <= rank l y)%nat as Hle by (apply rank_mono; by rewrite E). unfold rank in Hle.
  apply elem_of_cons in Hx as [-> | Hx].
  - unfold cmp_ltb at 1 3. rewrite cmp_refl, E. lia.
  - assert (rank [z] x <= rank [z] y)%nat as Hz by (apply rank_mono; by rewrite E). unfold rank in Hz. cbn in Hz. specialize (IH Hx). lia.
Qed.

Lemma rank_cmp l x y : x ∈ l -> y ∈ l -> cmp x y = (rank l x ?= rank l y)%nat.
Proof.
  intros Hx Hy. destruct (cmp x y) eqn:E; symmetry.
  - apply Nat.compare_eq_iff. assert (cmp y x <> Gt) as E' by (rewrite cmp_opp, E; done).
    assert (cmp x y <> Gt) as E2 by (by rewrite E). pose proof (rank_mono l x y E2). pose proof (rank_mono l y x E'). lia.
  - apply Nat.compare_lt_iff. by apply rank_strict.
  - apply Nat.compare_gt_iff. apply rank_strict; [done|]. by apply cmp_gt_lt.
Qed.

Lemma rank_lt l x y : x ∈ l -> y ∈ l -> cmp x y = Lt <-> (rank l x < rank l y)%nat.
Proof. intros Hx Hy. rewrite (rank_cmp l) by done. apply Nat.compare_lt_iff. Qed.

Lemma rank_eq l x y : x ∈ l -> y ∈ l -> cmp x y = Eq <-> rank l x = rank l y.
Proof. intros Hx Hy. rewrite (rank_cmp l) by done. apply Nat.compare_eq_iff. Qed.

Lemma rank_gt l x y : x ∈ l -> y ∈ l -> cmp x y = Gt <-> (rank l y < rank l x)%nat.
Proof. intros Hx Hy. rewrite (rank_cmp l) by done. apply Nat.compare_gt_iff. Qed.
End rank.

Ltac elem_tac := solve [repeat first [apply list_elem_of_here | apply list_elem_of_further]].

(** Comparisons between elements of [l], in the hypotheses and the goal, by [lia]. *)
Ltac order_lia l :=
  repeat match goal with
  | H : @cmp ?A ?O ?x ?y = Lt |- _ => apply (rank_lt l x y) in H; [|elem_tac..]
  | H : @cmp ?A ?O ?x ?y = Eq |- _ => apply (rank_eq l x y) in H; [|elem_tac..]
  | H : @cmp ?A ?O ?x ?y = Gt |- _ => apply (rank_gt l x y) in H; [|elem_tac..]
  | H : @cmp ?A ?O ?x ?y <> Gt |- _ => rewrite (rank_gt l x y) in H; [|elem_tac..]
  | H : @cmp ?A ?O ?x ?y <> Lt |- _ => rewrite (rank_lt l x y) in H; [|elem_tac..]
  end;
  match goal with
  | |- @cmp ?A ?O ?x ?y = Lt => apply (rank_lt l x y); [elem_tac..|lia]
  | |- @cmp ?A ?O ?x ?y = Eq => apply (rank_eq l x y); [elem_tac..|lia]
  | |- @cmp ?A ?O ?x ?y = Gt => apply (rank_gt l x y); [elem_tac..|lia]
  | |- @cmp ?A ?O ?x ?y <> Gt => rewrite (rank_gt l x y); [lia|elem_tac..]
  | |- False => exfalso; lia
  | |- _ => exfalso; lia
  end.

Section clamp.
Context {A : Type} `{OrdLaws A}.

(** The place in [a, b] closest to [c]. *)
Definition clamp (c a b : A) : A := if cmp_leb c a then a else if cmp_leb c b then c else b.

Ltac clamp_cases := unfold clamp, cmp_leb, cmp_ltb in *;
  repeat match goal with
  | |- context [match cmp ?x ?y with _ => _ end] => destruct (cmp x y) eqn:?
  | H : context [match cmp ?x ?y with _ => _ end] |- _ => destruct (cmp x y) eqn:?
  end; try done.

Lemma clamp_low p a b : cmp a b = Lt -> cmp p a <> Gt -> cmp (clamp p a b) a = Eq.
Proof. intros Hab Hp. clamp_cases; try apply cmp_refl; order_lia [p; a; b]. Qed.

Lemma clamp_high p a b : cmp a b = Lt -> cmp b p <> Gt -> cmp (clamp p a b) b = Eq.
Proof. intros Hab Hp. clamp_cases; try apply cmp_refl; order_lia [p; a; b]. Qed.

Lemma clamp_skip c d a b lo hi : cmp c d = Lt -> cmp a b = Lt ->
  cmp lo (if cmp_ltb c a then a else c) = Eq -> cmp hi (if cmp_ltb b d then b else d) = Eq -> cmp lo hi <> Lt ->
  cmp (clamp c a b) (clamp d a b) = Eq.
Proof. intros Hcd Hab Hlo Hhi Hn. clamp_cases; order_lia [a; b; c; d; lo; hi]. Qed.

Lemma clamp_start c d a b lo hi : cmp c d = Lt -> cmp a b = Lt ->
  cmp lo (if cmp_ltb c a then a else c) = Eq -> cmp hi (if cmp_ltb b d then b else d) = Eq -> cmp lo hi = Lt ->
  cmp (clamp c a b) lo = Eq /\ cmp (clamp d a b) hi = Eq.
Proof. intros Hcd Hab Hlo Hhi Hn. split; clamp_cases; order_lia [a; b; c; d; lo; hi]. Qed.
End clamp.

(** ** Values ordered by a key *)

Class OrdKey (T : Type) (valid : T -> Prop) {OT : Ord T} := {
  key_type : Type;
  key_ord : Ord key_type;
  key_laws : OrdLaws key_type;
  key : T -> key_type;
  key_cmp a b : valid a -> valid b -> cmp a b = @cmp _ key_ord (key a) (key b)
}.

#[export] Hint Extern 0 (Ord (@key_type _ _ _ _)) => exact key_ord : typeclass_instances.
#[export] Hint Extern 0 (OrdLaws (@key_type _ _ _ _)) => exact key_laws : typeclass_instances.

#[export] Instance version_key : OrdKey Version version_wf :=
  {| key := value; key_laws := _; key_cmp := cmp_value |}.

#[export] Instance bytes_key : OrdKey bytes (fun _ => True) :=
  {| key := fun s => s; key_laws := _; key_cmp a b _ _ := eq_refl |}.

(** ** Tilings *)

Section tiled.
Context {T R X : Type} {OT : Ord T} {SR : RangeSet T R} (valid : T -> Prop) {KT : OrdKey T valid}.
Abbreviation P := (place key_type).

Definition lower_at (b : bound T) : P := place_key key (lower_place b).
Definition upper_at (b : bound T) : P := place_key key (upper_place b).

(** The edges lead from the place [p] to the place [q]. *)
Fixpoint tiled (p q : P) (l : list (R * X)) : Prop :=
  match l with
  | [] => cmp p q = Eq
  | (r, _) :: l =>
      exists s, rs_iter r = [s] /\ segment_valid valid s /\ cmp p (lower_at (fst s)) = Eq /\
        cmp (lower_at (fst s)) (upper_at (snd s)) = Lt /\ tiled (upper_at (snd s)) q l
  end.

Definition tiles (l : list (R * X)) : Prop := tiled bottom top l.

Lemma tiled_cons p q r x l s : rs_iter r = [s] -> segment_valid valid s -> cmp p (lower_at (fst s)) = Eq ->
  cmp (lower_at (fst s)) (upper_at (snd s)) = Lt -> tiled (upper_at (snd s)) q l -> tiled p q ((r, x) :: l).
Proof. intros. by exists s. Qed.

Lemma tiled_eq_l p p' q l : cmp p p' = Eq -> tiled p q l -> tiled p' q l.
Proof.
  intros E. destruct l as [|[r x] l]; cbn; [by rewrite (cmp_eq_l _ _ _ E)|].
  intros (s&Hr&Hv&Hp&Hl). exists s. by rewrite <- (cmp_eq_l _ _ _ E).
Qed.

Lemma tiled_eq_r p q q' l : cmp q q' = Eq -> tiled p q l -> tiled p q' l.
Proof.
  intros E. revert p. induction l as [|[r x] l IH]; intros p; cbn; [by rewrite (cmp_eq_r _ _ _ E)|].
  intros (s&Hr&Hv&Hp&Hl&Ht). exists s. split_and!; auto.
Qed.

Lemma tiled_app p q q' l k : tiled p q l -> tiled q q' k -> tiled p q' (l ++ k).
Proof.
  revert p. induction l as [|[r x] l IH]; intros p; cbn.
  - intros E. apply tiled_eq_l. by apply cmp_eq_sym.
  - intros (s&Hr&Hv&Hp&Hl&Ht) Hk. exists s. split_and!; auto.
Qed.

Lemma tiled_app_inv p q l k : tiled p q (l ++ k) -> exists m, tiled p m l /\ tiled m q k.
Proof.
  revert p. induction l as [|[r x] l IH]; intros p; cbn.
  - intros Hk. exists p. split; [apply cmp_refl|done].
  - intros (s&Hr&Hv&Hp&Hl&Ht). destruct (IH _ Ht) as (m&Hm&Hk). exists m. split; [|done]. exists s. split_and!; auto.
Qed.

Lemma tiled_le p q l : tiled p q l -> cmp p q <> Gt.
Proof.
  revert p. induction l as [|[r x] l IH]; intros p; cbn; [by intros ->|].
  intros (s&_&_&Hp&Hl&Ht). apply IH in Ht. order_lia [p; q; lower_at (fst s); upper_at (snd s)].
Qed.

Lemma tiled_lt p q e l : tiled p q (e :: l) -> cmp p q = Lt.
Proof.
  destruct e as [r x]. cbn. intros (s&_&_&Hp&Hl&Ht). apply tiled_le in Ht. order_lia [p; q; lower_at (fst s); upper_at (snd s)].
Qed.

Lemma lower_at_top b : cmp (lower_at b) top = Lt.
Proof. by destruct b. Qed.

Lemma upper_at_bottom b : cmp bottom (upper_at b) = Lt.
Proof. by destruct b. Qed.

Lemma bottom_le p : (exists b, p = lower_at b) \/ (exists b, p = upper_at b) -> cmp bottom p <> Gt.
Proof. by intros [[[] ->]|[[] ->]]. Qed.

Lemma le_top p : (exists b, p = lower_at b) \/ (exists b, p = upper_at b) -> cmp p top <> Gt.
Proof. by intros [[[] ->]|[[] ->]]. Qed.
End tiled.

Section laws.
Context {T R : Type} {OT : Ord T} {SR : RangeSet T R} (valid : T -> Prop) (ok : R -> Prop).
Context {KT : OrdKey T valid} {L : RangeSetLaws T R valid ok}.
Abbreviation lower_at := (Tiling.lower_at valid).
Abbreviation upper_at := (Tiling.upper_at valid).

Lemma lower_upper_cmp a b : bound_valid valid a -> bound_valid valid b ->
  cmp (lower_place a) (upper_place b) = cmp (lower_at a) (upper_at b).
Proof. intros. apply (place_key_cmp key valid key_cmp); [by apply lower_place_ok|by apply upper_place_ok]. Qed.

Lemma upper_lower_cmp a b : bound_valid valid a -> bound_valid valid b ->
  cmp (upper_place a) (lower_place b) = cmp (upper_at a) (lower_at b).
Proof. intros. apply (place_key_cmp key valid key_cmp); [by apply upper_place_ok|by apply lower_place_ok]. Qed.

Lemma lower_cmp a b : bound_valid valid a -> bound_valid valid b -> cmp (lower_place a) (lower_place b) = cmp (lower_at a) (lower_at b).
Proof. intros. apply (place_key_cmp key valid key_cmp); by apply lower_place_ok. Qed.

Lemma upper_cmp a b : bound_valid valid a -> bound_valid valid b -> cmp (upper_place a) (upper_place b) = cmp (upper_at a) (upper_at b).
Proof. intros. apply (place_key_cmp key valid key_cmp); by apply upper_place_ok. Qed.

Lemma proper_at s : segment_valid valid s -> segment_proper s = true <-> cmp (lower_at (fst s)) (upper_at (snd s)) = Lt.
Proof. intros [Ha Hb]. unfold segment_proper, cmp_ltb. rewrite lower_upper_cmp by done. by destruct (cmp _ _). Qed.

(** ** Values as places *)

Definition point (v : T) : place key_type := (1, [(key v, 1)]).

Lemma single_cmp {A} `{Ord A} (x y : A * N) : cmp (1, [x]) (1, [y]) = cmp x y.
Proof. rewrite prod_cmp. cbn. by destruct (cmp x y). Qed.

Lemma lower_contains_at b v : bound_valid valid b -> valid v -> lower_contains b v = cmp_ltb (lower_at b) (point v).
Proof.
  intros Hb Hv. destruct b as [x|x|]; cbn in Hb; [| |done]; unfold lower_contains, cmp_ltb, lower_at, point, place_key; cbn [lower_place fst snd map];
    rewrite single_cmp, prod_cmp; unfold cmp_geb, cmp_gtb; rewrite (key_cmp v x), (cmp_opp (key x) (key v)) by done; by destruct (cmp (key x) (key v)).
Qed.

Lemma upper_contains_at b v : bound_valid valid b -> valid v -> upper_contains b v = cmp_ltb (point v) (upper_at b).
Proof.
  intros Hb Hv. destruct b as [x|x|]; cbn in Hb; [| |done]; unfold upper_contains, cmp_ltb, upper_at, point, place_key; cbn [upper_place fst snd map];
    rewrite single_cmp, prod_cmp; unfold cmp_leb; rewrite (key_cmp v x) by done; by destruct (cmp (key v) (key x)).
Qed.

(** A place is never the point of a value. *)
Lemma lower_at_point b v : cmp (lower_at b) (point v) <> Eq.
Proof. destruct b; unfold lower_at, point, place_key; cbn [lower_place fst snd map]; rewrite ?single_cmp, ?prod_cmp; [| |done]; by destruct (cmp (key _) _). Qed.

Lemma upper_at_point b v : cmp (upper_at b) (point v) <> Eq.
Proof. destruct b; unfold upper_at, point, place_key; cbn [upper_place fst snd map]; rewrite ?single_cmp, ?prod_cmp; [| |done]; by destruct (cmp (key _) _). Qed.

Definition between (p q : place key_type) (v : T) : bool := cmp_ltb p (point v) && cmp_ltb (point v) q.

Lemma segment_between s v : segment_valid valid s -> valid v -> segment_contains v s = between (lower_at (fst s)) (upper_at (snd s)) v.
Proof. intros [Ha Hb] Hv. unfold segment_contains, between. by rewrite lower_contains_at, upper_contains_at. Qed.

Lemma iter_single r s v : ok r -> valid v -> rs_iter r = [s] -> rs_contains r v = segment_contains v s.
Proof.
  intros Hr Hv E. pose proof (rs_iter_count r v Hr Hv) as Hc. rewrite E in Hc. cbn in Hc. by destruct (segment_contains v s), (rs_contains r v).
Qed.

Lemma tiled_between {X} p q (l : list (R * X)) v : Forall (fun e => ok e.1) l -> valid v -> tiled valid p q l ->
  cmp p (point v) <> Eq -> count_if (fun e => rs_contains (fst e) v) l = (if between p q v then 1 else 0)%nat.
Proof.
  intros Hok Hv. revert p. induction l as [|[r x] l IH]; intros p Ht Hp; cbn in *.
  - unfold between, cmp_ltb. rewrite <- (cmp_eq_r _ _ (point v) Ht). destruct (cmp p (point v)) eqn:E, (cmp (point v) p) eqn:E'; try done;
      order_lia [p; point v].
  - apply Forall_cons in Hok as [Hr Hok]. destruct Ht as (s&Es&Hs&Hl&Hlu&Ht). pose proof (tiled_le _ _ _ _ Ht) as Hq.
    rewrite (IH Hok _ Ht) by apply upper_at_point. cbn in Hr. rewrite (iter_single r s v Hr Hv Es), (segment_between s v Hs Hv).
    pose proof (upper_at_point (snd s) v) as Hu. unfold between, cmp_ltb. set (a := lower_at (fst s)) in *. set (b := upper_at (snd s)) in *. set (y := point v) in *.
    clearbody a b y. destruct (cmp a y) eqn:E1, (cmp y b) eqn:E2, (cmp b y) eqn:E3, (cmp y q) eqn:E4, (cmp p y) eqn:E5; cbn; try done;
      order_lia [p; q; a; b; y].
Qed.

Lemma tiles_count {X} (l : list (R * X)) v : Forall (fun e => ok e.1) l -> valid v -> tiles valid l ->
  count_if (fun e => rs_contains (fst e) v) l = 1%nat.
Proof. intros Hok Hv Ht. by rewrite (tiled_between bottom top l v Hok Hv Ht). Qed.

(** ** Single segments *)

Lemma single_eqb r z : ok r -> segment_valid valid z -> segments_eqb (rs_iter r) [z] = true ->
  exists w, rs_iter r = [w] /\ segment_valid valid w /\
    cmp (lower_at (fst w)) (lower_at (fst z)) = Eq /\ cmp (upper_at (snd w)) (upper_at (snd z)) = Eq.
Proof.
  intros Hr [Hz1 Hz2] E. pose proof (rs_iter_valid r Hr) as Hv. destruct (rs_iter r) as [|w [|]]; cbn in E; try done; [|by rewrite andb_false_r in E].
  apply Forall_cons in Hv as [[Hw1 Hw2] _]. exists w. split; [done|]. split; [done|]. rewrite andb_true_r in E. unfold segment_eqb, cmp_eqb in E.
  rewrite lower_cmp, upper_cmp in E by done. by destruct (cmp (lower_at _) _), (cmp (upper_at _) _).
Qed.

Lemma inter_valid s u : segment_valid valid s -> segment_valid valid u -> segment_valid valid (segment_inter s u).
Proof. intros [] []. unfold segment_inter. split; cbn [fst snd]; by case_match. Qed.

Lemma single_inter r t s u : ok r -> ok t -> rs_iter r = [s] -> rs_iter t = [u] ->
  rs_is_empty (rs_intersection r t) = negb (segment_proper (segment_inter s u)) /\
  (segment_proper (segment_inter s u) = true -> exists w, rs_iter (rs_intersection r t) = [w] /\ segment_valid valid w /\
    cmp (lower_at (fst w)) (lower_at (fst (segment_inter s u))) = Eq /\ cmp (upper_at (snd w)) (upper_at (snd (segment_inter s u))) = Eq).
Proof.
  intros Hr Ht Es Eu. pose proof (rs_iter_intersection r t s u Hr Ht Es Eu) as E. pose proof (rs_ok_intersection r t Hr Ht) as Ho.
  rewrite rs_empty_iter by done. pose proof (rs_iter_valid r Hr) as Hs. pose proof (rs_iter_valid t Ht) as Hu. rewrite Es in Hs. rewrite Eu in Hu.
  apply Forall_cons in Hs as [Hs _]. apply Forall_cons in Hu as [Hu _]. destruct (segment_proper _) eqn:Ep.
  - split; [by destruct (rs_iter (rs_intersection r t))|]. intros _. apply single_eqb; [done|by apply inter_valid|done].
  - split; [|done]. by destruct (rs_iter (rs_intersection r t)).
Qed.

Lemma inter_lower s u : bound_valid valid (fst s) -> bound_valid valid (fst u) ->
  let a := lower_at (fst s) in let b := lower_at (fst u) in
  cmp (lower_at (fst (segment_inter s u))) (if cmp_ltb a b then b else a) = Eq.
Proof.
  intros Hs Hu a b. unfold segment_inter, cmp_ltb. cbn [fst]. rewrite lower_cmp by done. subst a b.
  destruct (cmp (lower_at (fst s)) (lower_at (fst u))); apply cmp_refl.
Qed.

Lemma inter_upper s u : bound_valid valid (snd s) -> bound_valid valid (snd u) ->
  let a := upper_at (snd s) in let b := upper_at (snd u) in
  cmp (upper_at (snd (segment_inter s u))) (if cmp_ltb b a then b else a) = Eq.
Proof.
  intros Hs Hu a b. unfold segment_inter, cmp_ltb. cbn [snd]. rewrite upper_cmp by done. subst a b.
  destruct (cmp (upper_at (snd u)) (upper_at (snd s))); apply cmp_refl.
Qed.

(** ** A set and its complement *)

Section weave.
Context {X : Type} (yes no : X).

(** The segments and the gaps between them, starting at [lo]. *)
Fixpoint weave (lo : bound T) (l : list (bound T * bound T)) : list ((bound T * bound T) * X) :=
  match l with
  | [] => [((lo, B_Unbounded), no)]
  | (a, b) :: l =>
      (if no_bound a then [] else [((lo, flip a), no)]) ++ ((a, b), yes) :: (if no_bound b then [] else weave (flip b) l)
  end.

Lemma ascending_from_top (l : list (bound T * bound T)) : ascending_from top l = true -> l = [].
Proof. destruct l as [|[a b] l]; [done|]. cbn. by destruct a. Qed.

Lemma weave_perm l : forall lo p, ascending_from p l = true ->
  map (fun s => (s, yes)) l ++ map (fun s => (s, no)) (gaps lo l) ≡ₚ weave lo l.
Proof.
  induction l as [|[a b] l IH]; intros lo p; [done|]. cbn [ascending_from map gaps weave fst snd].
  intros [[_ _]%andb_prop Ha]%andb_prop. destruct (no_bound b) eqn:Eb.
  - destruct b; try done. apply ascending_from_top in Ha as ->. cbn. destruct (no_bound a); cbn; [done|]. apply Permutation_swap.
  - specialize (IH (flip b) _ Ha). destruct (no_bound a); cbn [map app]; rewrite <- IH; [done|].
    rewrite <- Permutation_middle. apply Permutation_swap.
Qed.

Lemma weave_perm_all l : ascending l = true ->
  map (fun s => (s, yes)) l ++ map (fun s => (s, no)) (gaps B_Unbounded l) ≡ₚ weave B_Unbounded l.
Proof.
  destruct l as [|[a b] l]; [done|]. cbn [ascending map gaps weave fst snd]. intros [_ Ha]%andb_prop. destruct (no_bound b) eqn:Eb.
  - destruct b; try done. apply ascending_from_top in Ha as ->. cbn. destruct (no_bound a); cbn; [done|]. apply Permutation_swap.
  - pose proof (weave_perm l (flip b) _ Ha) as IH. destruct (no_bound a); cbn [map app]; rewrite <- IH; [done|].
    rewrite <- Permutation_middle. apply Permutation_swap.
Qed.

Definition range_of (e : (bound T * bound T) * X) : R * X := (rs_from_range_bounds (fst e), snd e).

Lemma tiled_segment a b x p q (l : list (R * X)) : segment_valid valid (a, b) -> cmp p (lower_at a) = Eq -> cmp (lower_at a) (upper_at b) = Lt ->
  tiled valid (upper_at b) q l -> tiled valid p q (range_of ((a, b), x) :: l).
Proof.
  intros Hs Hp Hlt Ht. cbn. exists (a, b). split_and!; try done. rewrite rs_iter_from_range_bounds by done.
  by rewrite (proj2 (proper_at (a, b) Hs)).
Qed.

Lemma flip_valid b : bound_valid valid b -> bound_valid valid (flip b).
Proof. by destruct b. Qed.

Lemma flip_lower b : no_bound b = false -> lower_at (flip b) = upper_at b.
Proof. by destruct b. Qed.

Lemma flip_upper b : no_bound b = false -> upper_at (flip b) = lower_at b.
Proof. by destruct b. Qed.

Lemma weave_tiled l : forall b, ascending_from (upper_place b) l = true -> no_bound b = false -> bound_valid valid b ->
  Forall (segment_valid valid) l -> tiled valid (upper_at b) top (map range_of (weave (flip b) l)).
Proof.
  induction l as [|[a c] l IH]; intros b Ha Hb Hv Hl; cbn [weave map app].
  - apply tiled_segment; [split; [by apply flip_valid|done]|rewrite flip_lower by done; apply cmp_refl|by destruct b|apply cmp_refl].
  - apply Forall_cons in Hl as [[Hva Hvc] Hl]. cbn in Hva, Hvc. cbn [ascending_from fst snd] in Ha. apply andb_prop in Ha as [[Hba Hac]%andb_prop Ha].
    assert (no_bound a = false) as Hna by (destruct a, b; done). rewrite Hna. cbn [app map].
    apply (proper_at (a, c)) in Hac; [|done]. unfold cmp_ltb in Hba. rewrite upper_lower_cmp in Hba by done.
    apply tiled_segment; [split; by apply flip_valid|rewrite flip_lower by done; apply cmp_refl| |].
    { rewrite flip_lower, flip_upper by done. by destruct (cmp (upper_at b) (lower_at a)). }
    rewrite flip_upper by done. apply tiled_segment; [done|apply cmp_refl|done|]. destruct (no_bound c) eqn:Ec; [by destruct c|]. by apply IH.
Qed.

Lemma weave_tiles l : ascending l = true -> Forall (segment_valid valid) l -> tiles valid (map range_of (weave B_Unbounded l)).
Proof.
  intros Ha Hl. unfold tiles. destruct l as [|[a c] l]; cbn [weave map app]; [by apply tiled_segment|].
  apply Forall_cons in Hl as [[Hva Hvc] Hl]. cbn in Hva, Hvc. cbn [ascending fst snd] in Ha. apply andb_prop in Ha as [Hac Ha].
  apply (proper_at (a, c)) in Hac; [|done]. cbn [fst snd] in Hac.
  assert (forall p, cmp p (lower_at a) = Eq -> tiled valid p top (map range_of ((a, c, yes) :: (if no_bound c then [] else weave (flip c) l)))) as Ht.
  { intros p Hp. cbn [map]. apply tiled_segment; [done..|]. destruct (no_bound c) eqn:Ec; [by destruct c|]. by apply weave_tiled. }
  destruct (no_bound a) eqn:Ena; cbn [app map].
  - apply Ht. by destruct a.
  - apply tiled_segment; [split; [done|by apply flip_valid]|done|by destruct a|]. apply Ht. rewrite flip_upper by done. apply cmp_refl.
Qed.
End weave.

(** Later edges start later. *)
Lemma tiled_sorted {X} p q (l : list (R * X)) : tiled valid p q l ->
  StronglySorted (fun e e' => exists s s', rs_iter e.1 = [s] /\ rs_iter e'.1 = [s'] /\ segment_valid valid s /\ segment_valid valid s' /\
    cmp (upper_at (snd s)) (lower_at (fst s')) <> Gt /\ cmp (lower_at (fst s)) (lower_at (fst s')) = Lt) l.
Proof.
  revert p. induction l as [|[r x] l IH]; intros p Ht; [constructor|]. cbn in Ht. destruct Ht as (s&Es&Hs&Hp&Hlt&Ht). constructor; [by eapply IH|].
  assert (forall m, cmp (upper_at (snd s)) m <> Gt -> tiled valid m q l -> Forall (fun e' => exists s', rs_iter e'.1 = [s'] /\ segment_valid valid s' /\
    cmp (upper_at (snd s)) (lower_at (fst s')) <> Gt) l) as Hf.
  { clear Ht IH. induction l as [|[r' x'] l IH]; intros m Hm Ht; constructor; cbn in Ht; destruct Ht as (s'&Es'&Hs'&Hp'&Hlt'&Ht').
    - exists s'. split_and!; try done. order_lia [upper_at (snd s); m; lower_at (fst s')].
    - apply (IH (upper_at (snd s'))); [|done]. order_lia [upper_at (snd s); m; lower_at (fst s'); upper_at (snd s')]. }
  assert (cmp (upper_at (snd s)) (upper_at (snd s)) <> Gt) as Hrefl by (by rewrite cmp_refl).
  eapply Forall_impl; [exact (Hf _ Hrefl Ht)|]. intros [r' x'] (s'&Es'&Hs'&Hle). exists s, s'. split_and!; try done.
  order_lia [upper_at (snd s); lower_at (fst s); lower_at (fst s')].
Qed.
End laws.
