(* ===== verification/MarkerTypes.v ===== *)
(** * Environment markers: the vocabulary ([uv-pep508/src/marker])

    Keys, operators and expressions of PEP 508 markers ([tree.rs]), their
    canonical keys ([lowering.rs]), and the environment markers are evaluated in
    ([environment.rs]). Strings are lists of code points, which are ordered as the
    UTF-8 bytes of the source are. *)

From stdpp Require Import base numbers list strings.
From S2P Require Import Prelude VersionTypes VersionSmall Version VersionParser Specifier Names Text RangeSet.

(** ** Keys *)

Inductive MarkerValueVersion :=
| MVV_ImplementationVersion | MVV_PythonFullVersion | MVV_PythonVersion.

Inductive MarkerValueString :=
| MVS_ImplementationName
| MVS_OsName | MVS_OsNameDeprecated
| MVS_PlatformMachine | MVS_PlatformMachineDeprecated
| MVS_PlatformPythonImplementation | MVS_PlatformPythonImplementationDeprecated
| MVS_PythonImplementationDeprecated
| MVS_PlatformRelease
| MVS_PlatformSystem
| MVS_PlatformVersion | MVS_PlatformVersionDeprecated
| MVS_SysPlatform | MVS_SysPlatformDeprecated.

Inductive MarkerValueList := MVL_Extras | MVL_DependencyGroups.

Inductive MarkerValue :=
| MV_MarkerEnvVersion (key : MarkerValueVersion)
| MV_MarkerEnvString (key : MarkerValueString)
| MV_MarkerEnvList (key : MarkerValueList)
| MV_Extra
| MV_QuotedString (value : text).

Definition MarkerValueVersion_show (self : MarkerValueVersion) : bytes :=
  bs match self with
     | MVV_ImplementationVersion => "implementation_version"
     | MVV_PythonFullVersion => "python_full_version"
     | MVV_PythonVersion => "python_version"
     end.

Definition MarkerValueString_show (self : MarkerValueString) : bytes :=
  bs match self with
     | MVS_ImplementationName => "implementation_name"
     | MVS_OsName | MVS_OsNameDeprecated => "os_name"
     | MVS_PlatformMachine | MVS_PlatformMachineDeprecated => "platform_machine"
     | MVS_PlatformPythonImplementation | MVS_PlatformPythonImplementationDeprecated
     | MVS_PythonImplementationDeprecated => "platform_python_implementation"
     | MVS_PlatformRelease => "platform_release"
     | MVS_PlatformSystem => "platform_system"
     | MVS_PlatformVersion | MVS_PlatformVersionDeprecated => "platform_version"
     | MVS_SysPlatform | MVS_SysPlatformDeprecated => "sys_platform"
     end.

Definition MarkerValueList_show (self : MarkerValueList) : bytes :=
  bs match self with MVL_Extras => "extras" | MVL_DependencyGroups => "dependency_groups" end.

Definition MarkerValue_show (self : MarkerValue) : text :=
  match self with
  | MV_MarkerEnvVersion key => MarkerValueVersion_show key
  | MV_MarkerEnvString key => MarkerValueString_show key
  | MV_MarkerEnvList key => MarkerValueList_show key
  | MV_Extra => bs "extra"
  | MV_QuotedString value => bs "'" ++ value ++ bs "'"
  end.

(** The reserved words of [FromStr for MarkerValue]. *)
Definition marker_words : list (string * MarkerValue) :=
  [("implementation_name", MV_MarkerEnvString MVS_ImplementationName);
   ("implementation_version", MV_MarkerEnvVersion MVV_ImplementationVersion);
   ("os_name", MV_MarkerEnvString MVS_OsName);
   ("os.name", MV_MarkerEnvString MVS_OsNameDeprecated);
   ("platform_machine", MV_MarkerEnvString MVS_PlatformMachine);
   ("platform.machine", MV_MarkerEnvString MVS_PlatformMachineDeprecated);
   ("platform_python_implementation", MV_MarkerEnvString MVS_PlatformPythonImplementation);
   ("platform.python_implementation", MV_MarkerEnvString MVS_PlatformPythonImplementationDeprecated);
   ("python_implementation", MV_MarkerEnvString MVS_PythonImplementationDeprecated);
   ("platform_release", MV_MarkerEnvString MVS_PlatformRelease);
   ("platform_system", MV_MarkerEnvString MVS_PlatformSystem);
   ("platform_version", MV_MarkerEnvString MVS_PlatformVersion);
   ("platform.version", MV_MarkerEnvString MVS_PlatformVersionDeprecated);
   ("python_full_version", MV_MarkerEnvVersion MVV_PythonFullVersion);
   ("python_version", MV_MarkerEnvVersion MVV_PythonVersion);
   ("sys_platform", MV_MarkerEnvString MVS_SysPlatform);
   ("sys.platform", MV_MarkerEnvString MVS_SysPlatformDeprecated);
   ("extras", MV_MarkerEnvList MVL_Extras);
   ("dependency_groups", MV_MarkerEnvList MVL_DependencyGroups);
   ("extra", MV_Extra)].

Fixpoint find_word {A} (s : text) (l : list (string * A)) : option A :=
  match l with
  | [] => None
  | (word, a) :: l => if bool_decide (s = bs word) then Some a else find_word s l
  end.

Definition MarkerValue_from_str (s : text) : option MarkerValue := find_word s marker_words.

(** ** Operators *)

Inductive MarkerOperator :=
| MO_Equal | MO_NotEqual | MO_GreaterThan | MO_GreaterEqual | MO_LessThan | MO_LessEqual | MO_TildeEqual
| MO_In | MO_NotIn | MO_Contains | MO_NotContains.

#[export] Instance MarkerOperator_eq_dec : EqDecision MarkerOperator.
Proof. solve_decision. Defined.

Definition to_pep440_operator (self : MarkerOperator) : option Operator :=
  match self with
  | MO_Equal => Some Equal
  | MO_NotEqual => Some NotEqual
  | MO_GreaterThan => Some GreaterThan
  | MO_GreaterEqual => Some GreaterThanEqual
  | MO_LessThan => Some LessThan
  | MO_LessEqual => Some LessThanEqual
  | MO_TildeEqual => Some TildeEqual
  | _ => None
  end.

Definition MarkerOperator_invert (self : MarkerOperator) : MarkerOperator :=
  match self with
  | MO_LessThan => MO_GreaterThan
  | MO_LessEqual => MO_GreaterEqual
  | MO_GreaterThan => MO_LessThan
  | MO_GreaterEqual => MO_LessEqual
  | MO_Equal => MO_Equal
  | MO_NotEqual => MO_NotEqual
  | MO_TildeEqual => MO_TildeEqual
  | MO_In => MO_Contains
  | MO_NotIn => MO_NotContains
  | MO_Contains => MO_In
  | MO_NotContains => MO_NotIn
  end.

Definition MarkerOperator_negate (self : MarkerOperator) : option MarkerOperator :=
  match self with
  | MO_Equal => Some MO_NotEqual
  | MO_NotEqual => Some MO_Equal
  | MO_TildeEqual => None
  | MO_LessThan => Some MO_GreaterEqual
  | MO_LessEqual => Some MO_GreaterThan
  | MO_GreaterThan => Some MO_LessEqual
  | MO_GreaterEqual => Some MO_LessThan
  | MO_In => Some MO_NotIn
  | MO_NotIn => Some MO_In
  | MO_Contains => Some MO_NotContains
  | MO_NotContains => Some MO_Contains
  end.

Definition marker_from_lower_bound (b : bound text) : option (MarkerOperator * text) :=
  match b with
  | B_Included value => Some (MO_GreaterEqual, value)
  | B_Excluded value => Some (MO_GreaterThan, value)
  | B_Unbounded => None
  end.

Definition marker_from_upper_bound (b : bound text) : option (MarkerOperator * text) :=
  match b with
  | B_Included value => Some (MO_LessEqual, value)
  | B_Excluded value => Some (MO_LessThan, value)
  | B_Unbounded => None
  end.

Definition marker_from_bounds (bounds : bound text * bound text) : list (MarkerOperator * text) :=
  match bounds with
  | (B_Included v1, B_Included v2) =>
      if bool_decide (v1 = v2) then [(MO_Equal, v1)]
      else [(MO_GreaterEqual, v1); (MO_LessEqual, v2)]
  | (B_Excluded v1, B_Excluded v2) =>
      if bool_decide (v1 = v2) then [(MO_NotEqual, v1)]
      else [(MO_GreaterThan, v1); (MO_LessThan, v2)]
  | (lower, upper) =>
      match marker_from_lower_bound lower with Some x => [x] | None => [] end
      ++ match marker_from_upper_bound upper with Some x => [x] | None => [] end
  end.

Definition operator_words : list (string * MarkerOperator) :=
  [("==", MO_Equal); ("!=", MO_NotEqual); (">", MO_GreaterThan); (">=", MO_GreaterEqual);
   ("<", MO_LessThan); ("<=", MO_LessEqual); ("~=", MO_TildeEqual); ("in", MO_In)].

(** Any whitespace is allowed between [not] and [in]. *)
Definition MarkerOperator_from_str (s : text) : option MarkerOperator :=
  match find_word s operator_words with
  | Some operator => Some operator
  | None =>
      space_in ← strip_prefix (bs "not") s;
      space ← strip_suffix (bs "in") space_in;
      match space with
      | [] => None
      | _ :: _ => if forallb is_whitespace space then Some MO_NotIn else None
      end
  end.

Definition MarkerOperator_show (self : MarkerOperator) : bytes :=
  bs match self with
     | MO_Equal => "==" | MO_NotEqual => "!="
     | MO_GreaterThan => ">" | MO_GreaterEqual => ">="
     | MO_LessThan => "<" | MO_LessEqual => "<="
     | MO_TildeEqual => "~="
     | MO_In | MO_Contains => "in"
     | MO_NotIn | MO_NotContains => "not in"
     end.

Inductive ExtraOperator := EO_Equal | EO_NotEqual.
Inductive ContainerOperator := CO_In | CO_NotIn.

#[export] Instance ExtraOperator_eq_dec : EqDecision ExtraOperator.
Proof. solve_decision. Defined.
#[export] Instance ContainerOperator_eq_dec : EqDecision ContainerOperator.
Proof. solve_decision. Defined.

Definition ExtraOperator_from_marker_operator (operator : MarkerOperator) : option ExtraOperator :=
  match operator with MO_Equal => Some EO_Equal | MO_NotEqual => Some EO_NotEqual | _ => None end.

Definition ExtraOperator_negate (self : ExtraOperator) : ExtraOperator :=
  match self with EO_Equal => EO_NotEqual | EO_NotEqual => EO_Equal end.

Definition ExtraOperator_show (self : ExtraOperator) : bytes :=
  bs match self with EO_Equal => "==" | EO_NotEqual => "!=" end.

Definition ContainerOperator_from_marker_operator (operator : MarkerOperator) : option ContainerOperator :=
  match operator with MO_In => Some CO_In | MO_NotIn => Some CO_NotIn | _ => None end.

Definition ContainerOperator_show (self : ContainerOperator) : bytes :=
  bs match self with CO_In => "in" | CO_NotIn => "not in" end.

(** ** Canonical keys ([lowering.rs]) *)

Inductive CanonicalMarkerValueVersion := CV_ImplementationVersion | CV_PythonFullVersion.

Inductive CanonicalMarkerValueString :=
| CS_OsName | CS_SysPlatform | CS_PlatformSystem | CS_PlatformMachine
| CS_PlatformPythonImplementation | CS_PlatformRelease | CS_PlatformVersion | CS_ImplementationName.

#[export] Instance CanonicalMarkerValueVersion_eq_dec : EqDecision CanonicalMarkerValueVersion.
Proof. solve_decision. Defined.
#[export] Instance CanonicalMarkerValueString_eq_dec : EqDecision CanonicalMarkerValueString.
Proof. solve_decision. Defined.

(** The derived orders: the position of the variant. *)
Definition version_key_index (k : CanonicalMarkerValueVersion) : N :=
  match k with CV_ImplementationVersion => 0 | CV_PythonFullVersion => 1 end.

Definition string_key_index (k : CanonicalMarkerValueString) : N :=
  match k with
  | CS_OsName => 0 | CS_SysPlatform => 1 | CS_PlatformSystem => 2 | CS_PlatformMachine => 3
  | CS_PlatformPythonImplementation => 4 | CS_PlatformRelease => 5 | CS_PlatformVersion => 6
  | CS_ImplementationName => 7
  end.

(** [self <= Self::PlatformSystem] *)
Definition is_conflicting (self : CanonicalMarkerValueString) : bool :=
  string_key_index self <=? string_key_index CS_PlatformSystem.

Definition canonical_string (value : MarkerValueString) : CanonicalMarkerValueString :=
  match value with
  | MVS_ImplementationName => CS_ImplementationName
  | MVS_OsName => CS_OsName
  | MVS_OsNameDeprecated => CS_OsName
  | MVS_PlatformMachine => CS_PlatformMachine
  | MVS_PlatformMachineDeprecated => CS_PlatformMachine
  | MVS_PlatformPythonImplementation => CS_PlatformPythonImplementation
  | MVS_PlatformPythonImplementationDeprecated => CS_PlatformPythonImplementation
  | MVS_PythonImplementationDeprecated => CS_PlatformPythonImplementation
  | MVS_PlatformRelease => CS_PlatformRelease
  | MVS_PlatformSystem => CS_PlatformSystem
  | MVS_PlatformVersion => CS_PlatformVersion
  | MVS_PlatformVersionDeprecated => CS_PlatformVersion
  | MVS_SysPlatform => CS_SysPlatform
  | MVS_SysPlatformDeprecated => CS_SysPlatform
  end.

Definition marker_string (value : CanonicalMarkerValueString) : MarkerValueString :=
  match value with
  | CS_ImplementationName => MVS_ImplementationName
  | CS_OsName => MVS_OsName
  | CS_PlatformMachine => MVS_PlatformMachine
  | CS_PlatformPythonImplementation => MVS_PlatformPythonImplementation
  | CS_PlatformRelease => MVS_PlatformRelease
  | CS_PlatformSystem => MVS_PlatformSystem
  | CS_PlatformVersion => MVS_PlatformVersion
  | CS_SysPlatform => MVS_SysPlatform
  end.

Definition marker_version (value : CanonicalMarkerValueVersion) : MarkerValueVersion :=
  match value with
  | CV_ImplementationVersion => MVV_ImplementationVersion
  | CV_PythonFullVersion => MVV_PythonFullVersion
  end.

Inductive MarkerValueExtra := MVE_Extra (extra : ExtraName) | MVE_Arbitrary (value : text).

Inductive CanonicalMarkerListPair :=
| LP_Extras (extra : ExtraName)
| LP_DependencyGroup (group : GroupName)
| LP_Arbitrary (key : MarkerValueList) (value : text).

Definition list_pair_key (self : CanonicalMarkerListPair) : MarkerValueList :=
  match self with
  | LP_Extras _ => MVL_Extras
  | LP_DependencyGroup _ => MVL_DependencyGroups
  | LP_Arbitrary key _ => key
  end.

Definition list_pair_value (self : CanonicalMarkerListPair) : text :=
  match self with
  | LP_Extras extra => extra_name extra
  | LP_DependencyGroup group => group_name group
  | LP_Arbitrary _ value => value
  end.

#[export] Instance ExtraName_eq_dec : EqDecision ExtraName.
Proof. solve_decision. Defined.
#[export] Instance GroupName_eq_dec : EqDecision GroupName.
Proof. solve_decision. Defined.
#[export] Instance MarkerValueList_eq_dec : EqDecision MarkerValueList.
Proof. solve_decision. Defined.
#[export] Instance MarkerValueVersion_eq_dec : EqDecision MarkerValueVersion.
Proof. solve_decision. Defined.
#[export] Instance MarkerValueString_eq_dec : EqDecision MarkerValueString.
Proof. solve_decision. Defined.
#[export] Instance MarkerValueExtra_eq_dec : EqDecision MarkerValueExtra.
Proof. solve_decision. Defined.
#[export] Instance CanonicalMarkerListPair_eq_dec : EqDecision CanonicalMarkerListPair.
Proof. solve_decision. Defined.

(** ** Expressions *)

Inductive MarkerExpression :=
| ME_Version (key : MarkerValueVersion) (specifier : VersionSpecifier)
| ME_VersionIn (key : MarkerValueVersion) (versions : list Version) (operator : ContainerOperator)
| ME_String (key : MarkerValueString) (operator : MarkerOperator) (value : text)
| ME_List (pair : CanonicalMarkerListPair) (operator : ContainerOperator)
| ME_Extra (name : MarkerValueExtra) (operator : ExtraOperator).

Definition MarkerValueExtra_show (self : MarkerValueExtra) : text :=
  match self with MVE_Extra extra => extra_name extra | MVE_Arbitrary value => value end.

Definition MarkerExpression_show (self : MarkerExpression) : text :=
  match self with
  | ME_Version key specifier =>
      let op := operator specifier in
      MarkerValueVersion_show key ++ bs " " ++ Operator_as_str op ++ bs " '" ++ show (spec_version specifier)
      ++ match op with EqualStar | NotEqualStar => bs ".*'" | _ => bs "'" end
  | ME_VersionIn key versions operator =>
      MarkerValueVersion_show key ++ bs " " ++ ContainerOperator_show operator ++ bs " '"
      ++ join (bs " ") (map show versions) ++ bs "'"
  | ME_String key operator value =>
      match operator with
      | MO_Contains | MO_NotContains =>
          bs "'" ++ value ++ bs "' " ++ MarkerOperator_show (MarkerOperator_invert operator) ++ bs " "
          ++ MarkerValueString_show key
      | _ =>
          MarkerValueString_show key ++ bs " " ++ MarkerOperator_show operator ++ bs " '" ++ value ++ bs "'"
      end
  | ME_List lp operator =>
      bs "'" ++ list_pair_value lp ++ bs "' " ++ ContainerOperator_show operator ++ bs " "
      ++ MarkerValueList_show (list_pair_key lp)
  | ME_Extra name operator =>
      bs "extra " ++ ExtraOperator_show operator ++ bs " '" ++ MarkerValueExtra_show name ++ bs "'"
  end.

(** ** The environment ([environment.rs]) *)

(** [StringVersion] without its original text. *)
Record MarkerEnvironment := {
  implementation_name : text;
  implementation_version : Version;
  os_name : text;
  platform_machine : text;
  platform_python_implementation : text;
  platform_release : text;
  platform_system : text;
  platform_version : text;
  python_full_version : Version;
  python_version : Version;
  sys_platform : text
}.

Definition get_version (self : MarkerEnvironment) (key : CanonicalMarkerValueVersion) : Version :=
  match key with
  | CV_ImplementationVersion => implementation_version self
  | CV_PythonFullVersion => python_full_version self
  end.

Definition get_string (self : MarkerEnvironment) (key : CanonicalMarkerValueString) : text :=
  match key with
  | CS_ImplementationName => implementation_name self
  | CS_OsName => os_name self
  | CS_PlatformMachine => platform_machine self
  | CS_PlatformPythonImplementation => platform_python_implementation self
  | CS_PlatformRelease => platform_release self
  | CS_PlatformSystem => platform_system self
  | CS_PlatformVersion => platform_version self
  | CS_SysPlatform => sys_platform self
  end.

Inductive ExtrasEnvironment :=
| EE_Extras (extras : list ExtraName)
| EE_Pep751 (extras : list ExtraName) (groups : list GroupName).

Definition env_extra (self : ExtrasEnvironment) : list ExtraName :=
  match self with EE_Extras extra => extra | EE_Pep751 _ _ => [] end.
Definition env_extras (self : ExtrasEnvironment) : list ExtraName :=
  match self with EE_Extras _ => [] | EE_Pep751 extras _ => extras end.
Definition env_dependency_groups (self : ExtrasEnvironment) : list GroupName :=
  match self with EE_Extras _ => [] | EE_Pep751 _ groups => groups end.
