(* ===== verification/MarkerAlgebra.v ===== *)
(** * The marker algebra ([uv-pep508/src/marker/algebra.rs])

    Markers are reduced ordered decision diagrams with complemented edges, interned
    in one table. An operation reads and extends the table: it is a function of the
    interner that returns its result and the new interner, or [None] when the
    source panics (an index out of range, an [unwrap] or an [unreachable!]).
    Recursions on node identifiers take fuel. *)

From stdpp Require Import base numbers list strings gmap.
From S2P Require Import Prelude VersionTypes VersionSmall Version VersionParser Specifier Ranges Names Text RangeSet MarkerTypes.

(** ** Variables *)

Inductive MarkerVariable :=
| V_String (key : CanonicalMarkerValueString)
| V_Version (key : CanonicalMarkerValueVersion)
| V_In (key : CanonicalMarkerValueString) (value : text)
| V_Contains (key : CanonicalMarkerValueString) (value : text)
| V_Extra (extra : ExtraName)
| V_List (list_pair : CanonicalMarkerListPair).

#[export] Instance Variable_eq_dec : EqDecision MarkerVariable.
Proof. solve_decision. Defined.

(** The derived order compares the variant, then its fields. *)
Definition list_key_index (k : MarkerValueList) : N :=
  match k with MVL_Extras => 0 | MVL_DependencyGroups => 1 end.

Definition variable_key (v : MarkerVariable) : list N :=
  match v with
  | V_String key => [0; string_key_index key]
  | V_Version key => [1; version_key_index key]
  | V_In key value => 2 :: string_key_index key :: value
  | V_Contains key value => 3 :: string_key_index key :: value
  | V_Extra extra => 4 :: extra_name extra
  | V_List (LP_Extras extra) => 5 :: 0 :: extra_name extra
  | V_List (LP_DependencyGroup group) => 5 :: 1 :: group_name group
  | V_List (LP_Arbitrary key value) => 5 :: 2 :: list_key_index key :: value
  end.

#[export] Instance Variable_ord : Ord MarkerVariable := cmp_by variable_key.

Definition is_conflicting_variable (self : MarkerVariable) : bool :=
  match self with V_String marker => is_conflicting marker | _ => false end.

(** ** Node identifiers: the lowest bit marks a complemented edge *)

Abbreviation NodeId := N.

Module NodeId.
Definition TRUE : NodeId := 0.
Definition FALSE : NodeId := 1.

Definition new (index : N) (complement : bool) : NodeId :=
  N.lor (N.shiftl (index + 1) 1) (if complement then 1 else 0).

(** The terminals have no index: the subtraction fails. *)
Definition index (self : NodeId) : option N := checked_sub (N.shiftr self 1) 1.

Definition is_complement (self : NodeId) : bool := N.land self 1 =? 1.
Definition not (self : NodeId) : NodeId := N.lxor self 1.
Definition negate (self parent : NodeId) : NodeId := if is_complement parent then not self else self.
Definition is_false (self : NodeId) : bool := self =? FALSE.
Definition is_true (self : NodeId) : bool := self =? TRUE.
End NodeId.

(** ** Operations that read and extend a state, or panic *)

Definition act (S A : Type) : Type := S -> option (A * S).

Section act.
Context {S : Type}.

Definition mret {A} (a : A) : act S A := fun s => Some (a, s).
Definition mfail {A} : act S A := fun _ => None.
Definition mlift {A} (o : option A) : act S A := fun s => a ← o; Some (a, s).
Definition mbind' {A B} (m : act S A) (k : A -> act S B) : act S B :=
  fun s => match m s with Some (a, s') => k a s' | None => None end.
End act.

Notation "'let!' x := m 'in' k" := (mbind' m (fun x => k))
  (at level 10, x binder, m at level 100, k at level 200).

(** [sort_by] with a comparison that can panic, as a stable insertion. *)
Fixpoint insert_by {A} (compare : A -> A -> option comparison) (x : A) (l : list A) : option (list A) :=
  match l with
  | [] => Some [x]
  | y :: l' =>
      c ← compare x y;
      match c with
      | Gt => l'' ← insert_by compare x l'; Some (y :: l'')
      | _ => Some (x :: l)
      end
  end.

Fixpoint sort_by {A} (compare : A -> A -> option comparison) (l : list A) : option (list A) :=
  match l with
  | [] => Some []
  | x :: l => l' ← sort_by compare l; insert_by compare x l'
  end.

(** ** Ranges as edges *)

Section range_edges.
Context {T R : Type} `{Ord T} `{RangeSet T R}.

Definition compare_disjoint_range_start (range1 range2 : R) : option comparison :=
  b1 ← rs_bounding_range range1;
  b2 ← rs_bounding_range range2;
  Some match fst b1, fst b2 with
       | B_Unbounded, _ => Lt
       | _, B_Unbounded => Gt
       | B_Included v1, B_Excluded v2 => if cmp_eqb v1 v2 then Lt else cmp v1 v2
       | B_Excluded v1, B_Included v2 => if cmp_eqb v1 v2 then Gt else cmp v1 v2
       | B_Included v1, B_Included v2 | B_Excluded v1, B_Excluded v2 => cmp v1 v2
       end.

Definition can_conjoin (range1 range2 : R) : bool :=
  match rs_bounding_range range1, rs_bounding_range range2 with
  | Some (_, B_Included v1), Some (B_Excluded v2, _) => cmp_eqb v1 v2
  | Some (_, B_Excluded v1), Some (B_Included v2, _) => cmp_eqb v1 v2
  | _, _ => false
  end.

(** The edges of a range before they are sorted. *)
Definition range_edges (range : R) : list (R * NodeId) :=
  map (fun s => (rs_from_range_bounds s, NodeId.TRUE)) (rs_iter range)
  ++ map (fun s => (rs_from_range_bounds s, NodeId.FALSE)) (rs_iter (rs_complement range)).

Definition from_range (range : R) : option (list (R * NodeId)) :=
  sort_by (fun e1 e2 => compare_disjoint_range_start (fst e1) (fst e2)) (range_edges range).

(** The last edge is at the head of [combined]. *)
Definition push_combined (combined : list (R * NodeId)) (intersection : R) (node : NodeId) : list (R * NodeId) :=
  match combined with
  | (range, prev) :: rest =>
      if (prev =? node) && can_conjoin range intersection then (rs_union range intersection, prev) :: rest
      else (intersection, node) :: combined
  | [] => [(intersection, node)]
  end.

Fixpoint ranges_eqb (l k : list (R * NodeId)) : bool :=
  match l, k with
  | [], [] => true
  | (r, a) :: l, (s, b) :: k => rs_eqb r s && (a =? b) && ranges_eqb l k
  | _, _ => false
  end.
End range_edges.

(** ** [python_version] in terms of [python_full_version] *)

Definition all_zero (l : list N) : bool := forallb (fun x => x =? 0) l.

(** [Err] holds the constant the comparison always gives. *)
Definition python_version_to_full_version (specifier : VersionSpecifier)
    : option (result VersionSpecifier NodeId) :=
  let op := operator specifier in
  if is_star op then
    match release (spec_version specifier) with
    | [_] => Some (Ok specifier)
    | major :: minor :: rest =>
        if all_zero rest then
          python_version ← new [major; minor];
          specifier ← from_version_unwrap op python_version;
          Some (Ok specifier)
        else Some (Err NodeId.FALSE)
    | [] => Some (Err NodeId.FALSE)
    end
  else
    match op with
    | TildeEqual =>
        match release (spec_version specifier) with
        | [_; _] => Some (Ok specifier)
        | major :: minor :: rest =>
            if all_zero rest then
              python_version ← new [major; minor];
              Some (Ok (equals_star_version python_version))
            else Some (Err NodeId.FALSE)
        | _ => Some (Err NodeId.FALSE)
        end
    | _ =>
        trimmed ← only_release_trimmed (spec_version specifier);
        let major_minor :=
          match release trimmed with
          | [major] => Some (major, 0)
          | [major; minor] => Some (major, minor)
          | _ => None
          end in
        match major_minor with
        | Some (major, minor) =>
            version ← new [major; minor];
            next ← new [major; u64_add minor 1];
            match op with
            | Equal | ExactEqual => Some (Ok (equals_star_version version))
            | NotEqual => Some (Ok (not_equals_star_version version))
            | GreaterThan => Some (Ok (greater_than_equal_version next))
            | LessThan => Some (Ok specifier)
            | GreaterThanEqual => Some (Ok specifier)
            | LessThanEqual => Some (Ok (less_than_version next))
            | EqualStar | NotEqualStar | TildeEqual => None
            end
        | None =>
            match release (spec_version specifier) with
            | major :: minor :: _ =>
                next ← new [major; u64_add minor 1];
                match op with
                | Equal | ExactEqual => Some (Err NodeId.FALSE)
                | NotEqual => Some (Err NodeId.TRUE)
                | LessThan | LessThanEqual => Some (Ok (less_than_version next))
                | GreaterThan | GreaterThanEqual => Some (Ok (greater_than_equal_version next))
                | EqualStar | NotEqualStar | TildeEqual => None
                end
            | _ => None
            end
        end
    end.

Section algebra.
Context {RV RS : Type} `{RangeSet Version RV} `{RangeSet text RS}.

(** ** Nodes and the interner *)

Inductive Edges :=
| E_Version (edges : list (RV * NodeId))
| E_String (edges : list (RS * NodeId))
| E_Boolean (high low : NodeId).

Record Node := mkNode { var : MarkerVariable; children : Edges }.

(** [InternerShared] and [InternerState]. A hash map from nodes is a list of
    pairs searched with the equality of the source. *)
Record Interner := mkInterner {
  nodes : list Node;
  unique : list (Node * NodeId);
  cache : gmap (N * N) N;
  known_exclusions : option NodeId
}.

Definition Interner_default : Interner := mkInterner [] [] ∅ None.

Abbreviation IM := (act Interner).

Definition shared_node (nodes : list Node) (id : NodeId) : option Node :=
  i ← NodeId.index id; nodes !! N.to_nat i.

Definition get_node (id : NodeId) : IM Node := fun s => n ← shared_node (nodes s) id; Some (n, s).

(** ** Edges *)

Definition from_bool (complemented : bool) : Edges :=
  if complemented then E_Boolean NodeId.TRUE NodeId.FALSE else E_Boolean NodeId.FALSE NodeId.TRUE.

(** Ordinary comparisons only: [~=], [in] and [contains] are unreachable. *)
Definition from_string (operator : MarkerOperator) (value : text) : option Edges :=
  range ← match operator with
          | MO_Equal => Some (rs_singleton value)
          | MO_NotEqual => Some (rs_complement (rs_singleton value))
          | MO_GreaterThan => Some (rs_strictly_higher_than value)
          | MO_GreaterEqual => Some (rs_higher_than value)
          | MO_LessThan => Some (rs_strictly_lower_than value)
          | MO_LessEqual => Some (rs_lower_than value)
          | _ => None
          end;
  edges ← from_range range; Some (E_String edges).

Definition from_specifier (specifier : VersionSpecifier) : option Edges :=
  specifier ← spec_only_release specifier;
  range ← release_specifier_to_range specifier true;
  edges ← from_range range; Some (E_Version edges).

Definition from_versions (versions : list Version) (operator : ContainerOperator) : option Edges :=
  let range : RV := rs_from_iter (map (fun version => (B_Included version, B_Included version)) versions) in
  let range := match operator with CO_NotIn => rs_complement range | CO_In => range end in
  edges ← from_range range; Some (E_Version edges).

Definition edges_nodes (self : Edges) : list NodeId :=
  match self with
  | E_Version map => snd <$> map
  | E_String map => snd <$> map
  | E_Boolean high low => [high; low]
  end.

Definition edges_not (self : Edges) : Edges :=
  match self with
  | E_Version map => E_Version (prod_map id NodeId.not <$> map)
  | E_String map => E_String (prod_map id NodeId.not <$> map)
  | E_Boolean high low => E_Boolean (NodeId.not high) (NodeId.not low)
  end.

Definition Node_not (self : Node) : Node := mkNode (var self) (edges_not (children self)).

Definition Edges_eqb (a b : Edges) : bool :=
  match a, b with
  | E_Version l, E_Version k => ranges_eqb l k
  | E_String l, E_String k => ranges_eqb l k
  | E_Boolean h l, E_Boolean h' l' => (h =? h') && (l =? l')
  | _, _ => false
  end.

Definition Node_eqb (a b : Node) : bool :=
  bool_decide (var a = var b) && Edges_eqb (children a) (children b).

Fixpoint map_edges {R} (f : NodeId -> IM NodeId) (parent : NodeId) (l : list (R * NodeId)) : IM (list (R * NodeId)) :=
  match l with
  | [] => mret []
  | (range, node) :: l =>
      let! node := f (NodeId.negate node parent) in
      let! l := map_edges f parent l in
      mret ((range, node) :: l)
  end.

Definition edges_map (self : Edges) (parent : NodeId) (f : NodeId -> IM NodeId) : IM Edges :=
  match self with
  | E_Version map => let! l := map_edges f parent map in mret (E_Version l)
  | E_String map => let! l := map_edges f parent map in mret (E_String l)
  | E_Boolean high low =>
      let! low := f (NodeId.negate low parent) in
      let! high := f (NodeId.negate high parent) in
      mret (E_Boolean high low)
  end.

Section apply.
Context {T R : Type} `{Ord T} `{RangeSet T R} (apply : NodeId -> NodeId -> IM NodeId).

Fixpoint apply_right (left_range : R) (left_child right_parent : NodeId) (right_edges : list (R * NodeId))
    (combined : list (R * NodeId)) : IM (list (R * NodeId)) :=
  match right_edges with
  | [] => mret combined
  | (right_range, right_child) :: right_edges =>
      let intersection := rs_intersection right_range left_range in
      if rs_is_empty intersection then apply_right left_range left_child right_parent right_edges combined
      else
        let! node := apply left_child (NodeId.negate right_child right_parent) in
        apply_right left_range left_child right_parent right_edges (push_combined combined intersection node)
  end.

Fixpoint apply_left (left_edges : list (R * NodeId)) (left_parent : NodeId) (right_edges : list (R * NodeId))
    (right_parent : NodeId) (combined : list (R * NodeId)) : IM (list (R * NodeId)) :=
  match left_edges with
  | [] => mret combined
  | (left_range, left_child) :: left_edges =>
      let! combined :=
        apply_right left_range (NodeId.negate left_child left_parent) right_parent right_edges combined in
      apply_left left_edges left_parent right_edges right_parent combined
  end.

Definition apply_ranges (left_edges : list (R * NodeId)) (left_parent : NodeId) (right_edges : list (R * NodeId))
    (right_parent : NodeId) : IM (list (R * NodeId)) :=
  let! combined := apply_left left_edges left_parent right_edges right_parent [] in
  mret (rev combined).
End apply.

Definition edges_apply (self : Edges) (parent : NodeId) (right_edges : Edges) (right_parent : NodeId)
    (apply : NodeId -> NodeId -> IM NodeId) : IM Edges :=
  match self, right_edges with
  | E_Version edges, E_Version right_edges =>
      let! l := apply_ranges apply edges parent right_edges right_parent in mret (E_Version l)
  | E_String edges, E_String right_edges =>
      let! l := apply_ranges apply edges parent right_edges right_parent in mret (E_String l)
  | E_Boolean high low, E_Boolean right_high right_low =>
      let! high := apply (NodeId.negate high parent) (NodeId.negate right_high right_parent) in
      let! low := apply (NodeId.negate low parent) (NodeId.negate right_low right_parent) in
      mret (E_Boolean high low)
  | _, _ => mfail
  end.

(** ** Creating nodes *)

Fixpoint find_node (n : Node) (l : list (Node * NodeId)) : option NodeId :=
  match l with
  | [] => None
  | (m, i) :: l => if Node_eqb m n then Some i else find_node n l
  end.

(** [unique.entry(node).or_insert_with(push)] *)
Definition intern (node : Node) : IM NodeId := fun s =>
  match find_node node (unique s) with
  | Some i => Some (i, s)
  | None =>
      let i := NodeId.new (N.of_nat (length (nodes s))) false in
      Some (i, mkInterner (nodes s ++ [node]) (unique s ++ [(node, i)]) (cache s) (known_exclusions s))
  end.

Definition create_node (v : MarkerVariable) (edges : Edges) : IM NodeId :=
  let node := mkNode v edges in
  let! first := mlift (head (edges_nodes (children node))) in
  let flipped := NodeId.is_complement first in
  let node := if flipped then Node_not node else node in
  let first := if flipped then NodeId.not first else first in
  if forallb (fun n => n =? first) (edges_nodes (children node)) then
    mret (if flipped then NodeId.not first else first)
  else
    let! i := intern node in
    mret (if flipped then NodeId.not i else i).

(** ** Expressions *)

(** The ranges of a list of [python_version]s; the first constant ends the list. *)
Fixpoint python_ranges (versions : list Version) : option (result (list RV) NodeId) :=
  match versions with
  | [] => Some (Ok [])
  | version :: versions =>
      version ← only_release version;
      specifier ← python_version_to_full_version (equals_version version);
      match specifier with
      | Err node => Some (Err node)
      | Ok specifier =>
          range ← release_specifier_to_range specifier true;
          rest ← python_ranges versions;
          match rest with
          | Err node => Some (Err node)
          | Ok ranges => Some (Ok (range :: ranges))
          end
      end
  end.

Definition from_python_versions (versions : list Version) (operator : ContainerOperator)
    : option (result Edges NodeId) :=
  ranges ← python_ranges versions;
  match ranges with
  | Err node => Some (Err node)
  | Ok ranges =>
      let range : RV := rs_from_iter (concat (map rs_iter ranges)) in
      let range := match operator with CO_NotIn => rs_complement range | CO_In => range end in
      edges ← from_range range; Some (Ok (E_Version edges))
  end.

(** [platform_system] values that determine [sys_platform]. *)
Definition normalize_platform (key : MarkerValueString) (value : text) : CanonicalMarkerValueString * text :=
  match key with
  | MVS_PlatformSystem =>
      if bool_decide (value = bs "Windows") then (CS_SysPlatform, bs "win32")
      else if bool_decide (value = bs "Darwin") then (CS_SysPlatform, bs "darwin")
      else if bool_decide (value = bs "Linux") then (CS_SysPlatform, bs "linux")
      else if bool_decide (value = bs "AIX") then (CS_SysPlatform, bs "aix")
      else if bool_decide (value = bs "Emscripten") then (CS_SysPlatform, bs "emscripten")
      else if bool_decide (value = bs "Android") then (CS_SysPlatform, bs "android")
      else (canonical_string key, value)
  | _ => (canonical_string key, value)
  end.

(** The variable and the edges of an expression, or its constant. *)
Definition expression_node (expr : MarkerExpression) : option (result (MarkerVariable * Edges) NodeId) :=
  match expr with
  | ME_Version MVV_ImplementationVersion specifier =>
      edges ← from_specifier specifier; Some (Ok (V_Version CV_ImplementationVersion, edges))
  | ME_Version MVV_PythonFullVersion specifier =>
      edges ← from_specifier specifier; Some (Ok (V_Version CV_PythonFullVersion, edges))
  | ME_Version MVV_PythonVersion specifier =>
      specifier ← spec_only_release specifier;
      specifier ← python_version_to_full_version specifier;
      match specifier with
      | Ok specifier => edges ← from_specifier specifier; Some (Ok (V_Version CV_PythonFullVersion, edges))
      | Err node => Some (Err node)
      end
  | ME_VersionIn MVV_ImplementationVersion versions operator =>
      edges ← from_versions versions operator; Some (Ok (V_Version CV_ImplementationVersion, edges))
  | ME_VersionIn MVV_PythonFullVersion versions operator =>
      edges ← from_versions versions operator; Some (Ok (V_Version CV_PythonFullVersion, edges))
  | ME_VersionIn MVV_PythonVersion versions operator =>
      edges ← from_python_versions versions operator;
      match edges with
      | Ok edges => Some (Ok (V_Version CV_PythonFullVersion, edges))
      | Err node => Some (Err node)
      end
  | ME_String key MO_In value => Some (Ok (V_In (canonical_string key) value, from_bool true))
  | ME_String key MO_NotIn value => Some (Ok (V_In (canonical_string key) value, from_bool false))
  | ME_String key MO_Contains value => Some (Ok (V_Contains (canonical_string key) value, from_bool true))
  | ME_String key MO_NotContains value => Some (Ok (V_Contains (canonical_string key) value, from_bool false))
  | ME_String key operator value =>
      let '(key, value) := normalize_platform key value in
      edges ← from_string operator value; Some (Ok (V_String key, edges))
  | ME_List lp operator =>
      Some (Ok (V_List lp, from_bool (match operator with CO_In => true | CO_NotIn => false end)))
  | ME_Extra (MVE_Extra extra) EO_Equal => Some (Ok (V_Extra extra, from_bool true))
  | ME_Extra (MVE_Extra extra) EO_NotEqual => Some (Ok (V_Extra extra, from_bool false))
  | ME_Extra (MVE_Arbitrary _) _ => Some (Err NodeId.FALSE)
  end.

Definition expression (expr : MarkerExpression) : IM NodeId :=
  let! node := mlift (expression_node expr) in
  match node with
  | Ok (v, edges) => create_node v edges
  | Err node => mret node
  end.

(** ** Conjunction *)

Definition cache_insert (xi yi node : NodeId) : IM unit := fun s =>
  Some (tt, mkInterner (nodes s) (unique s) (<[(xi, yi) := node]> (cache s)) (known_exclusions s)).

(** The Shannon expansion that [and] and the [conjunction] of [exclusions] share;
    [finish] is what [and] does with the node before it is memoized. *)
Fixpoint conjoin (finish : Node -> Node -> NodeId -> IM NodeId) (fuel : nat) (xi yi : NodeId) : IM NodeId :=
  match fuel with
  | O => mfail
  | S fuel =>
      if NodeId.is_true xi then mret yi
      else if NodeId.is_true yi then mret xi
      else if xi =? yi then mret xi
      else if NodeId.is_false xi || NodeId.is_false yi then mret NodeId.FALSE
      else if NodeId.not xi =? yi then mret NodeId.FALSE
      else fun s =>
        match cache s !! (xi, yi) with
        | Some result => Some (result, s)
        | None =>
            (let! x := get_node xi in
             let! y := get_node yi in
             let! node :=
               match cmp (var x) (var y) with
               | Lt =>
                   let! edges := edges_map (children x) xi (fun node => conjoin finish fuel node yi) in
                   create_node (var x) edges
               | Gt =>
                   let! edges := edges_map (children y) yi (fun node => conjoin finish fuel node xi) in
                   create_node (var y) edges
               | Eq =>
                   let! edges := edges_apply (children x) xi (children y) yi (conjoin finish fuel) in
                   create_node (var x) edges
               end in
             let! node := finish x y node in
             let! _ := cache_insert xi yi node in
             mret node) s
        end
  end.

(** Every recursive call is on smaller identifiers. *)
Definition fuel_for (xi yi : NodeId) : nat := S (N.to_nat (xi + yi)).

Definition conjunction (xi yi : NodeId) : IM NodeId :=
  conjoin (fun _ _ node => mret node) (fuel_for xi yi) xi yi.

Definition disjunction (xi yi : NodeId) : IM NodeId :=
  let! node := conjunction (NodeId.not xi) (NodeId.not yi) in mret (NodeId.not node).

(** ** Known incompatible conditions *)

Definition string_equals (key : MarkerValueString) (value : string) : MarkerExpression :=
  ME_String key MO_Equal (bs value).

(** The nodes the source creates upfront, in its order. *)
Definition exclusion_expressions : list MarkerExpression :=
  [string_equals MVS_OsName "nt"; string_equals MVS_OsName "posix";
   string_equals MVS_SysPlatform "linux"; string_equals MVS_SysPlatform "darwin";
   string_equals MVS_SysPlatform "ios"; string_equals MVS_SysPlatform "win32";
   string_equals MVS_PlatformSystem "FreeBSD"; string_equals MVS_PlatformSystem "NetBSD";
   string_equals MVS_PlatformSystem "OpenBSD"; string_equals MVS_PlatformSystem "SunOS";
   string_equals MVS_PlatformSystem "iOS"; string_equals MVS_PlatformSystem "iPadOS";
   string_equals MVS_SysPlatform "aix"; string_equals MVS_SysPlatform "android";
   string_equals MVS_SysPlatform "emscripten"; string_equals MVS_SysPlatform "cygwin";
   string_equals MVS_SysPlatform "wasi"].

Definition exclusion_pairs (ids : list NodeId) : option (list (NodeId * NodeId)) :=
  match ids with
  | [os_name_nt; os_name_posix; sys_platform_linux; sys_platform_darwin; sys_platform_ios; sys_platform_win32;
     platform_system_freebsd; platform_system_netbsd; platform_system_openbsd; platform_system_sunos;
     platform_system_ios; platform_system_ipados; sys_platform_aix; sys_platform_android;
     sys_platform_emscripten; sys_platform_cygwin; sys_platform_wasi] =>
      Some ([(os_name_nt, sys_platform_linux); (os_name_nt, sys_platform_darwin);
             (os_name_nt, sys_platform_ios); (os_name_posix, sys_platform_win32)]
            ++ concat (map (fun platform_system =>
                 concat (map (fun sys_platform =>
                   if (sys_platform =? sys_platform_ios)
                      && ((platform_system =? platform_system_ios) || (platform_system =? platform_system_ipados))
                   then []
                   else [(platform_system, sys_platform)])
                   [sys_platform_aix; sys_platform_android; sys_platform_emscripten; sys_platform_ios;
                    sys_platform_linux; sys_platform_darwin; sys_platform_win32; sys_platform_cygwin;
                    sys_platform_wasi]))
                 [platform_system_freebsd; platform_system_netbsd; platform_system_openbsd;
                  platform_system_sunos; platform_system_ios; platform_system_ipados]))
  | _ => None
  end.

Fixpoint create_all (l : list MarkerExpression) : IM (list NodeId) :=
  match l with
  | [] => mret []
  | e :: l => let! i := expression e in let! ids := create_all l in mret (i :: ids)
  end.

Fixpoint exclude_pairs (l : list (NodeId * NodeId)) (tree : NodeId) : IM NodeId :=
  match l with
  | [] => mret tree
  | (a, b) :: l =>
      let! a_and_b := conjunction a b in
      let! tree := disjunction tree a_and_b in
      exclude_pairs l tree
  end.

Definition set_exclusions (tree : NodeId) : IM unit := fun s =>
  Some (tt, mkInterner (nodes s) (unique s) (cache s) (Some tree)).

Definition exclusions : IM NodeId := fun s =>
  match known_exclusions s with
  | Some exclusions => Some (exclusions, s)
  | None =>
      (let! ids := create_all exclusion_expressions in
       let! pairs := mlift (exclusion_pairs ids) in
       let! tree := exclude_pairs pairs NodeId.FALSE in
       let! _ := set_exclusions tree in
       mret tree) s
  end.

(** ** Disjointness *)

(** [f] on every intersecting pair of edges. *)
Definition is_disjoint_ranges {T R} `{RangeSet T R} (f : NodeId -> NodeId -> option bool)
    (left_edges : list (R * NodeId)) (left_parent : NodeId) (right_edges : list (R * NodeId))
    (right_parent : NodeId) : option bool :=
  try_forallb (fun l =>
    try_forallb (fun r =>
      if rs_is_disjoint (fst r) (fst l) then Some true
      else f (NodeId.negate (snd l) left_parent) (NodeId.negate (snd r) right_parent)) right_edges) left_edges.

Definition edges_is_disjoint (f : NodeId -> NodeId -> option bool) (self : Edges) (parent : NodeId)
    (right_edges : Edges) (right_parent : NodeId) : option bool :=
  match self, right_edges with
  | E_Version edges, E_Version right_edges => is_disjoint_ranges f edges parent right_edges right_parent
  | E_String edges, E_String right_edges => is_disjoint_ranges f edges parent right_edges right_parent
  | E_Boolean high low, E_Boolean right_high right_low =>
      d ← f (NodeId.negate high parent) (NodeId.negate right_high right_parent);
      if d : bool then f (NodeId.negate low parent) (NodeId.negate right_low right_parent) else Some false
  | _, _ => None
  end.

Fixpoint disjointness_loop (fuel : nat) (nodes : list Node) (xi yi : NodeId) : option bool :=
  match fuel with
  | O => None
  | S fuel =>
      if NodeId.is_false xi || NodeId.is_false yi then Some true
      else if NodeId.is_true xi || NodeId.is_true yi then Some false
      else if xi =? yi then Some false
      else if NodeId.not xi =? yi then Some true
      else
        x ← shared_node nodes xi;
        y ← shared_node nodes yi;
        match cmp (var x) (var y) with
        | Lt => try_forallb (fun c => disjointness_loop fuel nodes (NodeId.negate c xi) yi) (edges_nodes (children x))
        | Gt => try_forallb (fun c => disjointness_loop fuel nodes (NodeId.negate c yi) xi) (edges_nodes (children y))
        | Eq => edges_is_disjoint (disjointness_loop fuel nodes) (children x) xi (children y) yi
        end
  end.

Definition disjointness (xi yi : NodeId) : IM bool := fun s =>
  d ← disjointness_loop (fuel_for xi yi) (nodes s) xi yi; Some (d, s).

(** ** [and], [or], [is_disjoint] *)

(** Known incompatibilities map to [false]. *)
Definition and_finish (x y : Node) (node : NodeId) : IM NodeId :=
  if is_conflicting_variable (var x) && is_conflicting_variable (var y) then
    let! exclusions := exclusions in
    let! d := disjointness node (NodeId.not exclusions) in
    mret (if d : bool then NodeId.FALSE else node)
  else mret node.

Definition and_ (xi yi : NodeId) : IM NodeId := conjoin and_finish (fuel_for xi yi) xi yi.

Definition or_ (xi yi : NodeId) : IM NodeId :=
  let! node := and_ (NodeId.not xi) (NodeId.not yi) in mret (NodeId.not node).

(** Past the test for conflicts, [is_disjoint] expands as [disjointness] does. *)
Definition is_disjoint (xi yi : NodeId) : IM bool :=
  if NodeId.is_false xi || NodeId.is_false yi then mret true
  else if NodeId.is_true xi || NodeId.is_true yi then mret false
  else if xi =? yi then mret false
  else if NodeId.not xi =? yi then mret true
  else
    let! x := get_node xi in
    let! y := get_node yi in
    if is_conflicting_variable (var x) && is_conflicting_variable (var y) then
      let! node := and_ xi yi in mret (NodeId.is_false node)
    else disjointness xi yi.

(** ** Restriction *)

Fixpoint restrict_loop (fuel : nat) (f : MarkerVariable -> option bool) (i : NodeId) : IM NodeId :=
  match fuel with
  | O => mfail
  | S fuel =>
      if NodeId.is_true i || NodeId.is_false i then mret i
      else
        let! node := get_node i in
        let rebuild :=
          let! edges := edges_map (children node) i (restrict_loop fuel f) in
          create_node (var node) edges in
        match children node with
        | E_Boolean high low =>
            match f (var node) with
            | Some value => restrict_loop fuel f (NodeId.negate (if value : bool then high else low) i)
            | None => rebuild
            end
        | _ => rebuild
        end
  end.

Definition restrict (i : NodeId) (f : MarkerVariable -> option bool) : IM NodeId :=
  restrict_loop (S (N.to_nat i)) f i.


(** ** Projections on the extras *)

(** [fold] of the children with [or]. *)
Fixpoint or_children (parent : NodeId) (children : list NodeId) (i : NodeId) : IM NodeId :=
  match children with
  | [] => mret i
  | child :: children => let! i := or_ i (NodeId.negate child parent) in or_children parent children i
  end.

(** The nodes that [drop] selects are replaced by the disjunction of their children. *)
Fixpoint project_loop (fuel : nat) (drop : MarkerVariable -> bool) (i : NodeId) : IM NodeId :=
  match fuel with
  | O => mfail
  | S fuel =>
      if NodeId.is_true i || NodeId.is_false i then mret i
      else
        let! node := get_node i in
        if drop (var node) then
          let! i := or_children i (edges_nodes (children node)) NodeId.FALSE in
          if NodeId.is_true i then mret NodeId.TRUE else project_loop fuel drop i
        else
          let! edges := edges_map (children node) i (project_loop fuel drop) in
          create_node (var node) edges
  end.

Definition is_extra_variable (v : MarkerVariable) : bool := match v with V_Extra _ => true | _ => false end.

(** The variable of the root grows with each call, and the disjunctions bring in
    no variables but the three of the exclusions. *)
Definition project (drop : MarkerVariable -> bool) (i : NodeId) : IM NodeId := fun s =>
  project_loop (S (length (nodes s) + 3)) drop i s.

Definition without_extras (i : NodeId) : IM NodeId := project is_extra_variable i.
Definition only_extras (i : NodeId) : IM NodeId := project (fun v => negb (is_extra_variable v)) i.

(** ** Python bounds *)

Definition is_unbounded {T} (b : bound T) : bool := match b with B_Unbounded => true | _ => false end.

(** The edges of a node on [python_full_version]. *)
Definition python_edges (node : Node) : option (list (RV * NodeId)) :=
  match var node, children node with
  | V_Version CV_PythonFullVersion, E_Version edges => Some edges
  | _, _ => None
  end.

(** [*list.first_mut().unwrap() = f(list.first().unwrap())] *)
Definition update_first {A} (f : A -> option A) (l : list A) : option (list A) :=
  match l with [] => None | x :: l => x ← f x; Some (x :: l) end.

Definition update_last {A} (f : A -> option A) (l : list A) : option (list A) :=
  l ← update_first f (rev l); Some (rev l).

Definition clip_lower (lower : bound Version) (e : RV * NodeId) : option (RV * NodeId) :=
  b ← rs_bounding_range (fst e); Some (rs_from_range_bounds (lower, snd b), snd e).

Definition clip_upper (upper : bound Version) (e : RV * NodeId) : option (RV * NodeId) :=
  b ← rs_bounding_range (fst e); Some (rs_from_range_bounds (fst b, upper), snd e).

(** The edges that meet the bounds, the outermost ones extended to infinity. *)
Definition simplified_edges (py_range : RV) (edges : list (RV * NodeId)) : option (list (RV * NodeId)) :=
  let new := concat (map (fun e =>
    let overlap := rs_intersection (fst e) py_range in
    if rs_is_empty overlap then [] else [(overlap, snd e)]) edges) in
  new ← update_first (clip_lower B_Unbounded) new;
  update_last (clip_upper B_Unbounded) new.

Fixpoint simplify_loop (fuel : nat) (py_lower py_upper : bound Version) (i : NodeId) : IM NodeId :=
  match fuel with
  | O => mfail
  | S fuel =>
      if NodeId.is_true i || NodeId.is_false i || (is_unbounded py_lower && is_unbounded py_upper) then mret i
      else
        let! node := get_node i in
        match python_edges node with
        | None =>
            let! edges := edges_map (children node) i (simplify_loop fuel py_lower py_upper) in
            create_node (var node) edges
        | Some edges =>
            let py_range := rs_from_range_bounds (py_lower, py_upper) in
            if rs_is_empty py_range then mret NodeId.FALSE
            else
              let! new := mlift (simplified_edges py_range edges) in
              let! z := create_node (var node) (E_Version new) in
              mret (NodeId.negate z i)
        end
  end.

Definition simplify_python_versions (i : NodeId) (py_lower py_upper : bound Version) : IM NodeId :=
  simplify_loop (S (N.to_nat i)) py_lower py_upper i.

(** The edge below the bounds leads to [false], merged with a first edge that does. *)
Definition exclude_below (py_lower : bound Version) (exclude : NodeId) (new : list (RV * NodeId)) : option (list (RV * NodeId)) :=
  if is_unbounded py_lower then Some new
  else
    first ← head new;
    if exclude =? snd first then update_first (clip_lower B_Unbounded) new
    else
      new ← update_first (clip_lower py_lower) new;
      Some ((rs_complement (rs_from_range_bounds (py_lower, B_Unbounded)), exclude) :: new).

Definition exclude_above (py_upper : bound Version) (exclude : NodeId) (new : list (RV * NodeId)) : option (list (RV * NodeId)) :=
  if is_unbounded py_upper then Some new
  else
    last ← last new;
    if exclude =? snd last then update_last (clip_upper B_Unbounded) new
    else
      new ← update_last (clip_upper py_upper) new;
      Some (new ++ [(rs_complement (rs_from_range_bounds (B_Unbounded, py_upper)), exclude)]).

(** The [assert!] fails on an empty list, as [head] does. *)
Definition complexified_edges (py_lower py_upper : bound Version) (py_range : RV) (exclude : NodeId)
    (edges : list (RV * NodeId)) : option (list (RV * NodeId)) :=
  let new := List.filter (fun e => negb (rs_is_empty (rs_intersection py_range (fst e)))) edges in
  _ ← head new;
  new ← exclude_below py_lower exclude new;
  exclude_above py_upper exclude new.

Fixpoint complexify_loop (fuel : nat) (py_lower py_upper : bound Version) (i : NodeId) : IM NodeId :=
  match fuel with
  | O => mfail
  | S fuel =>
      if NodeId.is_false i || (is_unbounded py_lower && is_unbounded py_upper) then mret i
      else
        let py_range := rs_from_range_bounds (py_lower, py_upper) in
        if rs_is_empty py_range then mret NodeId.FALSE
        else if NodeId.is_true i then
          let! edges := mlift (from_range py_range) in
          let! z := create_node (V_Version CV_PythonFullVersion) (E_Version edges) in
          mret (NodeId.negate z i)
        else
          let! node := get_node i in
          match python_edges node with
          | None =>
              let! edges := edges_map (children node) i (complexify_loop fuel py_lower py_upper) in
              create_node (var node) edges
          | Some edges =>
              let! new := mlift (complexified_edges py_lower py_upper py_range (NodeId.negate NodeId.FALSE i) edges) in
              let! z := create_node (var node) (E_Version new) in
              mret (NodeId.negate z i)
          end
  end.

Definition complexify_python_versions (i : NodeId) (py_lower py_upper : bound Version) : IM NodeId :=
  complexify_loop (S (N.to_nat i)) py_lower py_upper i.
End algebra.
