(* ===== verification/MarkerEval.v ===== *)
(** * The meaning of decision diagrams

    A node stands for a Boolean function of the marker variables. This file defines
    that function for a table of nodes, and shows how it follows the edges,
    complements and grows with the table. *)

From stdpp Require Import base numbers list strings gmap.
From S2P Require Import Prelude VersionTypes VersionSmall Version VersionFacts VersionParser Specifier Ranges Names Text RangeSet Tiling MarkerTypes MarkerAlgebra.

(** ** Identifiers *)

Definition position (id : NodeId) : nat := N.to_nat (N.div2 id).

Lemma is_complement_odd id : NodeId.is_complement id = N.odd id.
Proof.
  unfold NodeId.is_complement. change 1 with (N.ones 1) at 1. rewrite N.land_ones, <- N.bit0_odd, N.testbit_eqb, N.div_1_r.
  change (2 ^ 1) with 2. done.
Qed.

Lemma not_odd id : N.odd (NodeId.not id) = negb (N.odd id).
Proof. unfold NodeId.not. rewrite <- !N.bit0_odd, N.lxor_spec. cbn. apply xorb_true_r. Qed.

Lemma not_div2 id : N.div2 (NodeId.not id) = N.div2 id.
Proof. unfold NodeId.not. rewrite !N.div2_spec, N.shiftr_lxor. apply N.lxor_0_r. Qed.

Lemma not_not id : NodeId.not (NodeId.not id) = id.
Proof. unfold NodeId.not. by rewrite N.lxor_assoc, N.lxor_nilpotent, N.lxor_0_r. Qed.

Lemma position_not id : position (NodeId.not id) = position id.
Proof. unfold position. by rewrite not_div2. Qed.

Lemma position_negate id p : position (NodeId.negate id p) = position id.
Proof. unfold NodeId.negate. case_match; [apply position_not|done]. Qed.

Lemma negate_odd id p : N.odd (NodeId.negate id p) = xorb (N.odd p) (N.odd id).
Proof. unfold NodeId.negate. rewrite is_complement_odd. destruct (N.odd p); [by rewrite not_odd|by destruct (N.odd id)]. Qed.

Lemma id_eq i j : position i = position j -> N.odd i = N.odd j -> i = j.
Proof.
  unfold position. intros E1 E2. rewrite (N.div2_odd i), (N.div2_odd j), E2. f_equal. f_equal. lia.
Qed.

Lemma new_facts k : N.odd (NodeId.new k false) = false /\ position (NodeId.new k false) = S (N.to_nat k).
Proof.
  unfold NodeId.new, position. rewrite N.lor_0_r, N.shiftl_mul_pow2. change (2 ^ 1) with 2. split.
  - by rewrite N.mul_comm, N.odd_mul.
  - rewrite N.mul_comm, N.div2_double. lia.
Qed.

Lemma position_lt_fuel i : (position i <= N.to_nat i)%nat.
Proof. unfold position. rewrite N.div2_div. pose proof (N.Div0.div_le_upper_bound i 2 i). lia. Qed.

Lemma terminal_position id : position id = O <-> id = NodeId.TRUE \/ id = NodeId.FALSE.
Proof.
  unfold position, NodeId.TRUE, NodeId.FALSE. rewrite N.div2_div. split; [|by intros [-> | ->]].
  intros E. assert (id / 2 = 0) as E' by lia. apply N.div_small_iff in E'; lia.
Qed.

(** ** Assignments *)

Record assignment := {
  a_string : CanonicalMarkerValueString -> text;
  a_version : CanonicalMarkerValueVersion -> Version;
  a_bool : MarkerVariable -> bool
}.

Definition assignment_wf (a : assignment) : Prop := forall k, version_wf (a_version a k).

(** The edges tile the values, so they cover every value once. *)
Definition partition {T R} {OT : Ord T} {SR : RangeSet T R} (valid : T -> Prop) {KT : OrdKey T valid} (ok : R -> Prop) (l : list (R * NodeId)) : Prop :=
  Forall (fun e => ok (fst e)) l /\ tiles valid l.

Lemma partition_count {T R} {OT : Ord T} {SR : RangeSet T R} (valid : T -> Prop) {KT : OrdKey T valid} (ok : R -> Prop) {L : RangeSetLaws T R valid ok} l x :
  partition valid ok l -> valid x -> count_if (fun e => rs_contains (fst e) x) l = 1%nat.
Proof. intros [Ho Ht] Hx. by eapply tiles_count. Qed.

Section pick.
Context {T R : Type} `{RangeSet T R}.

(** The child of the first edge that contains a value. *)
Fixpoint pick (x : T) (l : list (R * NodeId)) : option NodeId :=
  match l with
  | [] => None
  | (r, c) :: l => if rs_contains r x then Some c else pick x l
  end.

Lemma pick_none x l : count_if (fun e => rs_contains (fst e) x) l = O -> pick x l = None.
Proof. induction l as [|[r c] l IH]; cbn; [done|]. case_match; [lia|]. intros E. by apply IH. Qed.

Lemma pick_some x l : count_if (fun e => rs_contains (fst e) x) l <> O -> is_Some (pick x l).
Proof. induction l as [|[r c] l IH]; cbn; [done|]. case_match; [by eexists|]. intros E. by apply IH. Qed.

Lemma pick_elem x l c : pick x l = Some c -> exists r, (r, c) ∈ l /\ rs_contains r x = true.
Proof.
  induction l as [|[r d] l IH]; cbn; [done|]. case_match eqn:E.
  - intros [= ->]. exists r. split; [left|done].
  - intros Hp. destruct (IH Hp) as (r'&Hin&Hr). exists r'. split; [by right|done].
Qed.

Lemma pick_map x l f : pick x (prod_map id f <$> l) = f <$> pick x l.
Proof. induction l as [|[r c] l IH]; cbn; [done|]. by case_match. Qed.
End pick.

Section eval.
Context {RV RS : Type} {SV : RangeSet Version RV} {SS : RangeSet text RS}.
Abbreviation Edges := (@Edges RV RS).
Abbreviation Node := (@Node RV RS).

Definition is_boolean (v : MarkerVariable) : bool :=
  match v with V_String _ | V_Version _ => false | _ => true end.

Definition choose (a : assignment) (v : MarkerVariable) (edges : Edges) : option NodeId :=
  match v, edges with
  | V_Version k, E_Version l => pick (a_version a k) l
  | V_String k, E_String l => pick (a_string a k) l
  | _, E_Boolean high low => if is_boolean v then Some (if a_bool a v then high else low) else None
  | _, _ => None
  end.

(** The function of the node at a position, computed along the reversed table. *)
Fixpoint value_at (a : assignment) (r : list Node) (p : nat) : bool :=
  match r with
  | [] => true
  | n :: r' =>
      if Nat.eqb p (length r) then
        let c := default NodeId.TRUE (choose a (var n) (children n)) in
        xorb (N.odd c) (value_at a r' (position c))
      else value_at a r' p
  end.

Definition eval (nodes : list Node) (a : assignment) (id : NodeId) : bool :=
  xorb (N.odd id) (value_at a (rev nodes) (position id)).

Definition valid_id (nodes : list Node) (id : NodeId) : Prop := (position id <= length nodes)%nat.

Lemma value_at_zero a r : value_at a r O = true.
Proof. induction r as [|n r IH]; [done|]. exact IH. Qed.

Lemma eval_true nodes a : eval nodes a NodeId.TRUE = true.
Proof. unfold eval. cbn. apply value_at_zero. Qed.

Lemma eval_false nodes a : eval nodes a NodeId.FALSE = false.
Proof. unfold eval. cbn. change (position NodeId.FALSE) with O. by rewrite value_at_zero. Qed.

Lemma eval_not nodes a id : eval nodes a (NodeId.not id) = negb (eval nodes a id).
Proof. unfold eval. rewrite not_odd, position_not. by destruct (N.odd id), (value_at _ _ _). Qed.

Lemma eval_negate nodes a id p : eval nodes a (NodeId.negate id p) = xorb (N.odd p) (eval nodes a id).
Proof. unfold eval. rewrite negate_odd, position_negate. by destruct (N.odd p), (N.odd id), (value_at _ _ _). Qed.

Lemma eval_snoc (ns : list Node) n a id : valid_id ns id -> eval (ns ++ [n]) a id = eval ns a id.
Proof.
  unfold valid_id, eval. intros H. rewrite rev_app_distr. cbn [rev app value_at].
  rewrite (proj2 (Nat.eqb_neq _ _)); [done|]. cbn. rewrite length_rev. lia.
Qed.

Lemma eval_app (ns k : list Node) a id : valid_id ns id -> eval (ns ++ k) a id = eval ns a id.
Proof.
  revert ns. induction k as [|n k IH]; intros ns H; [by rewrite app_nil_r|].
  replace (ns ++ n :: k) with ((ns ++ [n]) ++ k) by (by rewrite <- app_assoc).
  rewrite IH; [by apply eval_snoc|]. unfold valid_id in *. rewrite length_app. lia.
Qed.

Lemma shared_node_spec (ns : list Node) id n :
  shared_node ns id = Some n <-> exists k, position id = S k /\ ns !! k = Some n.
Proof.
  unfold shared_node, NodeId.index, position, checked_sub. rewrite N.div2_spec.
  destruct (1 <=? N.shiftr id 1) eqn:E; cbn [mbind option_bind].
  - apply N.leb_le in E. split.
    + intros Hn. exists (N.to_nat (N.shiftr id 1 - 1)). split; [lia|done].
    + intros (k&Hk&Hn). by replace (N.to_nat (N.shiftr id 1 - 1)) with k by lia.
  - apply N.leb_gt in E. split; [done|]. intros (k&Hk&_). lia.
Qed.

Lemma shared_node_none (ns : list Node) id : shared_node ns id = None -> valid_id ns id -> position id = O.
Proof.
  intros Hn Hv. destruct (position id) as [|k] eqn:E; [done|]. exfalso. unfold valid_id in Hv. rewrite E in Hv.
  destruct (lookup_lt_is_Some_2 ns k) as [n Hk]; [lia|].
  assert (shared_node ns id = Some n) as E' by (apply shared_node_spec; eauto). congruence.
Qed.

Lemma shared_node_valid (ns : list Node) id n : shared_node ns id = Some n -> valid_id ns id.
Proof. intros (k&Hk&Hn)%shared_node_spec. apply lookup_lt_Some in Hn. unfold valid_id. lia. Qed.

Lemma shared_node_app (ns k : list Node) id : valid_id ns id -> shared_node (ns ++ k) id = shared_node ns id.
Proof.
  intros H. destruct (shared_node ns id) as [n|] eqn:E.
  - apply shared_node_spec in E as (i&Hi&Hn). apply shared_node_spec. exists i. split; [done|]. by apply lookup_app_l_Some.
  - destruct (shared_node (ns ++ k) id) as [n|] eqn:E'; [|done]. apply shared_node_spec in E' as (i&Hi&_).
    by rewrite (shared_node_none ns id E H) in Hi.
Qed.

(** The value depends on the values of the variables only. *)
Lemma eval_ext (ns : list Node) a b id :
  a_string a = a_string b -> a_version a = a_version b -> (forall v, a_bool a v = a_bool b v) -> eval ns a id = eval ns b id.
Proof.
  intros H1 H2 H3. unfold eval. f_equal. generalize (position id). induction (rev ns) as [|n l IH]; intros p; cbn; [done|].
  assert (choose a (var n) (children n) = choose b (var n) (children n)) as ->.
  { unfold choose. rewrite H1, H2. destruct (var n), (children n); by rewrite ?H3. }
  by rewrite !IH.
Qed.

(** A node has the value of the child it chooses. *)
Lemma eval_node (ns : list Node) a id n c :
  shared_node ns id = Some n -> choose a (var n) (children n) = Some c -> (position c < position id)%nat ->
  eval ns a id = xorb (N.odd id) (eval ns a c).
Proof.
  intros (k&Hk&Hn)%shared_node_spec Hc Hlt. apply list_elem_of_split_length in Hn as (l1&l2&->&Hl).
  assert (valid_id (l1 ++ [n]) id) as H1 by (unfold valid_id; rewrite length_app; cbn; lia).
  assert (valid_id l1 c) as H2 by (unfold valid_id; lia).
  replace (l1 ++ n :: l2) with ((l1 ++ [n]) ++ l2) by (by rewrite <- app_assoc).
  assert (valid_id (l1 ++ [n]) c) as H3 by (unfold valid_id in *; rewrite length_app; lia).
  rewrite (eval_app _ _ _ id) by done. unfold eval at 1. rewrite rev_app_distr. cbn [rev app value_at].
  rewrite (proj2 (Nat.eqb_eq _ _)); [|cbn; rewrite length_rev; lia]. rewrite Hc. rewrite !eval_app by done. done.
Qed.
End eval.
