(* ===== verification/MarkerWf.v ===== *)
(** * The invariant of the interner

    What every reachable interner satisfies: its nodes are ordered, reduced and
    distinct decision nodes whose edges partition the values of their variable,
    the memo table holds conjunctions, and the known exclusions never hold. The
    file also has the rules for operations on a state and the theorem of
    [create_node], through which all nodes are made. *)

From stdpp Require Import base numbers list strings gmap.
From S2P Require Import Prelude VersionTypes VersionSmall Version VersionFacts VersionParser Specifier Ranges Names Text RangeSet Tiling MarkerTypes MarkerAlgebra MarkerEval.

(** ** Total correctness of operations *)

(** [m] does not panic in [s] and its result satisfies [Q]. *)
Definition spec {S A} (m : act S A) (s : S) (Q : A -> S -> Prop) : Prop :=
  match m s with Some (a, s') => Q a s' | None => False end.

Section spec.
Context {S A B : Type}.

Lemma spec_result (m : act S A) (s : S) (Q : A -> S -> Prop) : spec m s Q -> spec m s (fun a s' => m s = Some (a, s') /\ Q a s').
Proof. unfold spec. by destruct (m s) as [[a s']|]. Qed.

Lemma spec_ret (a : A) (s : S) (Q : A -> S -> Prop) : Q a s -> spec (mret a) s Q.
Proof. done. Qed.

Lemma spec_bind (m : act S A) (k : A -> act S B) s Q :
  spec m s (fun a s' => spec (k a) s' Q) -> spec (mbind' m k) s Q.
Proof. unfold spec, mbind'. by destruct (m s) as [[a s']|]. Qed.

Lemma spec_mono (m : act S A) s (Q Q' : A -> S -> Prop) :
  spec m s Q -> (forall a s', Q a s' -> Q' a s') -> spec m s Q'.
Proof. unfold spec. destruct (m s) as [[a s']|]; eauto. Qed.

Lemma spec_elim (m : act S A) s Q : spec m s Q -> exists a s', m s = Some (a, s') /\ Q a s'.
Proof. unfold spec. destruct (m s) as [[a s']|]; naive_solver. Qed.

(** A value that is looked up before it is computed. *)
Lemma spec_memo (look : S -> option A) (m : act S A) s (Q : A -> S -> Prop) :
  (forall a, look s = Some a -> Q a s) -> (look s = None -> spec m s Q) ->
  spec (fun s => match look s with Some a => Some (a, s) | None => m s end) s Q.
Proof. unfold spec. destruct (look s); naive_solver. Qed.

Lemma spec_intro (m : act S A) s (Q : A -> S -> Prop) a s' : m s = Some (a, s') -> Q a s' -> spec m s Q.
Proof. unfold spec. by intros ->. Qed.
End spec.

(** ** The order of variables *)

#[export] Instance Variable_ord_laws : OrdLaws MarkerVariable.
Proof. apply cmp_by_laws. Qed.

Lemma list_cmp_N_eq (l k : list N) : cmp l k = Eq -> l = k.
Proof.
  revert k. induction l as [|x l IH]; intros [|y k]; try done. unfold cmp, list_ord. cbn.
  destruct (cmp x y) eqn:E; [|done|done]. intros H. apply N.compare_eq in E as ->. f_equal. by apply IH.
Qed.

Lemma variable_key_inj v w : variable_key v = variable_key w -> v = w.
Proof.
  assert (forall k k', string_key_index k = string_key_index k' -> k = k') as Hs by (by intros [] []).
  assert (forall k k', version_key_index k = version_key_index k' -> k = k') as Hv by (by intros [] []).
  assert (forall k k', list_key_index k = list_key_index k' -> k = k') as Hl by (by intros [] []).
  destruct v as [k|k|k x|k x|[x]|[[x]|[x]|k x]], w as [k'|k'|k' y|k' y|[y]|[[y]|[y]|k' y]]; cbn; intros E; simplify_eq;
    try done; f_equal; auto. by f_equal; auto.
Qed.

Lemma variable_cmp_eq (v w : MarkerVariable) : cmp v w = Eq -> v = w.
Proof. intros E. apply variable_key_inj, list_cmp_N_eq, E. Qed.

(** ** The incompatible conditions *)

(** Values of two string keys that no platform has together, as listed in
    [exclusions]. *)
Definition incompatible_platforms : list (CanonicalMarkerValueString * string * (CanonicalMarkerValueString * string)) :=
  [((CS_OsName, "nt"), (CS_SysPlatform, "linux")); ((CS_OsName, "nt"), (CS_SysPlatform, "darwin"));
   ((CS_OsName, "nt"), (CS_SysPlatform, "ios")); ((CS_OsName, "posix"), (CS_SysPlatform, "win32"))]
  ++ (system ← ["FreeBSD"; "NetBSD"; "OpenBSD"; "SunOS"; "iOS"; "iPadOS"];
      platform ← ["aix"; "android"; "emscripten"; "ios"; "linux"; "darwin"; "win32"; "cygwin"; "wasi"];
      if bool_decide (platform = "ios") && (bool_decide (system = "iOS") || bool_decide (system = "iPadOS")) then []
      else [((CS_PlatformSystem, system), (CS_SysPlatform, platform))]).

Definition has (a : assignment) (c : CanonicalMarkerValueString * string) : bool :=
  bool_decide (a_string a (fst c) = bs (snd c)).

(** The assignments that can describe an environment. *)
Definition admissible (a : assignment) : Prop :=
  assignment_wf a /\ forallb (fun p => negb (has a (fst p) && has a (snd p))) incompatible_platforms = true.

Section wf.
Context {RV RS : Type} {SV : RangeSet Version RV} {SS : RangeSet text RS}.
Context (okV : RV -> Prop) (okS : RS -> Prop) (ordered : bool).
Context {LV : RangeSetLaws Version RV version_wf okV} {LS : RangeSetLaws text RS (fun _ => True) okS}.
Abbreviation Edges := (@Edges RV RS).
Abbreviation Node := (@Node RV RS).
Abbreviation Interner := (@Interner RV RS).

(** ** Nodes *)

(** The edges fit the variable and partition its values. *)
Definition edges_ok (v : MarkerVariable) (e : Edges) : Prop :=
  match v, e with
  | V_Version _, E_Version l => partition version_wf okV l
  | V_String _, E_String l => partition (fun _ => True) okS l
  | _, E_Boolean _ _ => is_boolean v = true
  | _, _ => False
  end.

(** The variables of [id] come after [v], in a table that is to be [ordered]. *)
Definition var_lt (ns : list Node) (v : MarkerVariable) (id : NodeId) : Prop :=
  match shared_node ns id with Some n => ordered = true -> cmp v (var n) = Lt | None => True end.

(** The first edge is not complemented and not all edges are the same. *)
Definition reduced (n : Node) : Prop :=
  match edges_nodes (children n) with
  | [] => False
  | c :: l => N.odd c = false /\ forallb (fun d => d =? c) (c :: l) = false
  end.

Record node_ok (ns : list Node) (k : nat) (n : Node) : Prop := {
  node_edges : edges_ok (var n) (children n);
  node_children : Forall (fun c => (position c <= k)%nat /\ var_lt ns (var n) c) (edges_nodes (children n));
  node_reduced : reduced n
}.

Definition table_ok (ns : list Node) : Prop := forall k n, ns !! k = Some n -> node_ok ns k n.

(** ** Interners *)

(** [z] is the conjunction of [x] and [y] in every possible environment. *)
Record conj_of (ns : list Node) (x y z : NodeId) : Prop := {
  conj_valid : valid_id ns z;
  conj_eval a : admissible a -> eval ns a z = eval ns a x && eval ns a y;
  conj_above v : var_lt ns v x -> var_lt ns v y -> var_lt ns v z
}.

Record interner_wf (s : Interner) : Prop := {
  wf_table : table_ok (nodes s);
  wf_unique : unique s = imap (fun k n => (n, NodeId.new (N.of_nat k) false)) (nodes s);
  wf_distinct j k m n : nodes s !! j = Some m -> nodes s !! k = Some n -> (j < k)%nat -> Node_eqb m n = false;
  wf_cache x y z : cache s !! (x, y) = Some z ->
    valid_id (nodes s) x /\ valid_id (nodes s) y /\ conj_of (nodes s) x y z;
  wf_exclusions e : known_exclusions s = Some e ->
    valid_id (nodes s) e /\ forall a, admissible a -> eval (nodes s) a e = false
}.

Definition extends (s s' : Interner) : Prop := exists k, nodes s' = nodes s ++ k.

#[export] Instance extends_preorder : PreOrder extends.
Proof.
  split; [intros s; exists []; by rewrite app_nil_r|].
  intros s t u [k E] [l E']. exists (k ++ l). by rewrite E', E, app_assoc.
Qed.

(** ** What extending the table preserves *)

Lemma valid_id_app (ns k : list Node) id : valid_id ns id -> valid_id (ns ++ k) id.
Proof. unfold valid_id. rewrite length_app. lia. Qed.

Lemma var_lt_app (ns k : list Node) v id : valid_id ns id -> var_lt (ns ++ k) v id <-> var_lt ns v id.
Proof. intros H. unfold var_lt. by rewrite shared_node_app. Qed.

Lemma conj_of_app (ns k : list Node) x y z :
  valid_id ns x -> valid_id ns y -> conj_of ns x y z -> conj_of (ns ++ k) x y z.
Proof.
  intros Hx Hy [Hz He Ha]. split; [by apply valid_id_app| |].
  - intros a Had. rewrite !eval_app by done. by apply He.
  - intros v. rewrite !var_lt_app by done. apply Ha.
Qed.

Lemma extends_valid s s' id : extends s s' -> valid_id (nodes s) id -> valid_id (nodes s') id.
Proof. intros [k ->]. apply valid_id_app. Qed.

Lemma extends_eval s s' a id : extends s s' -> valid_id (nodes s) id -> eval (nodes s') a id = eval (nodes s) a id.
Proof. intros [k ->]. apply eval_app. Qed.

Lemma extends_var_lt s s' v id :
  extends s s' -> valid_id (nodes s) id -> var_lt (nodes s') v id <-> var_lt (nodes s) v id.
Proof. intros [k ->]. apply var_lt_app. Qed.

Lemma extends_conj s s' x y z :
  extends s s' -> valid_id (nodes s) x -> valid_id (nodes s) y ->
  conj_of (nodes s) x y z -> conj_of (nodes s') x y z.
Proof. intros [k ->]. apply conj_of_app. Qed.

Lemma valid_not (ns : list Node) id : valid_id ns (NodeId.not id) <-> valid_id ns id.
Proof. unfold valid_id. by rewrite position_not. Qed.

Lemma valid_negate (ns : list Node) id p : valid_id ns (NodeId.negate id p) <-> valid_id ns id.
Proof. unfold valid_id. by rewrite position_negate. Qed.

Lemma shared_node_position (ns : list Node) i j : position i = position j -> shared_node ns i = shared_node ns j.
Proof.
  intros E. destruct (shared_node ns j) as [n|] eqn:Ej.
  - apply shared_node_spec in Ej as (k&Hk&Hn). apply shared_node_spec. exists k. by rewrite E.
  - destruct (shared_node ns i) as [n|] eqn:Ei; [|done]. apply shared_node_spec in Ei as (k&Hk&Hn).
    assert (shared_node ns j = Some n); [|congruence]. apply shared_node_spec. exists k. by rewrite <- E.
Qed.

Lemma var_lt_not (ns : list Node) v id : var_lt ns v (NodeId.not id) <-> var_lt ns v id.
Proof. unfold var_lt. by rewrite (shared_node_position ns (NodeId.not id) id) by apply position_not. Qed.

Lemma var_lt_negate (ns : list Node) v id p : var_lt ns v (NodeId.negate id p) <-> var_lt ns v id.
Proof. unfold var_lt. by rewrite (shared_node_position ns (NodeId.negate id p) id) by apply position_negate. Qed.

Lemma var_lt_trans (ns : list Node) v w id : (ordered = true -> cmp v w = Lt) -> var_lt ns w id -> var_lt ns v id.
Proof. unfold var_lt. destruct (shared_node ns id); [|done]. intros Hv Hw Ho. eapply cmp_lt_trans; eauto. Qed.

Lemma terminal_valid (ns : list Node) id : position id = O -> valid_id ns id.
Proof. unfold valid_id. lia. Qed.

Lemma terminal_var_lt (ns : list Node) v id : position id = O -> var_lt ns v id.
Proof.
  intros E. unfold var_lt. destruct (shared_node ns id) as [n|] eqn:Es; [|done].
  apply shared_node_spec in Es as (k&Hk&_). lia.
Qed.

(** ** Choosing an edge *)

Lemma partition_some {T R} {OT : Ord T} {SR : RangeSet T R} (valid : T -> Prop) {KT : OrdKey T valid} ok {L : RangeSetLaws T R valid ok} (l : list (R * NodeId)) x :
  partition valid ok l -> valid x -> exists c, pick x l = Some c.
Proof. intros Hp Hx. apply pick_some. by rewrite (partition_count valid ok). Qed.

Lemma pick_in {T R} `{RangeSet T R} (l : list (R * NodeId)) x c : pick x l = Some c -> c ∈ l.*2.
Proof. intros (r&Hin&_)%pick_elem. apply (list_elem_of_fmap_2 snd l (r, c)) in Hin. done. Qed.

Lemma choose_some a v e : assignment_wf a -> edges_ok v e -> exists c, choose a v e = Some c /\ c ∈ edges_nodes e.
Proof.
  intros Ha He. destruct v, e as [l|l|h lo]; cbn in *; try done.
  2: { destruct (partition_some _ _ _ (a_version a key) He) as [c Hc]; [apply Ha|]. exists c. split; [done|by eapply pick_in]. }
  1: { destruct (partition_some _ _ _ (a_string a key) He) as [c Hc]; [done|]. exists c. split; [done|by eapply pick_in]. }
  all: eexists; split; [done|]; case_match; set_solver.
Qed.

Lemma edges_nodes_nonempty v e : edges_ok v e -> edges_nodes e <> [].
Proof.
  intros He Hn. destruct (choose_some {| a_string := fun _ => []; a_version := fun _ => Small VersionSmall.new; a_bool := fun _ => true |} v e)
    as (c&_&Hc); [intros k; apply new_small_wf|done|]. rewrite Hn in Hc. by apply not_elem_of_nil in Hc.
Qed.

Lemma edges_nodes_not (e : Edges) : edges_nodes (edges_not e) = NodeId.not <$> edges_nodes e.
Proof. destruct e; cbn; try done; rewrite <- !list_fmap_compose; by apply list_fmap_ext; intros ? [] ?. Qed.

Lemma choose_not a v (e : Edges) : choose a v (edges_not e) = NodeId.not <$> choose a v e.
Proof. destruct v, e; cbn; try done; try apply pick_map; by destruct (a_bool _ _). Qed.

Lemma partition_map {T R} {OT : Ord T} {SR : RangeSet T R} (valid : T -> Prop) {KT : OrdKey T valid} ok (l : list (R * NodeId)) f :
  partition valid ok l -> partition valid ok (prod_map id f <$> l).
Proof.
  intros [Ho Ht]. split.
  - apply Forall_fmap. eapply Forall_impl; [done|]. by intros [].
  - unfold tiles in *. revert Ht. generalize (bottom : place key_type). induction l as [|[r c] l IH]; intros p; cbn; [done|].
    intros (s&Es&Hs&Hp&Hlt&Ht). apply Forall_cons in Ho as [_ Ho]. exists s. do 4 (split; [done|]). auto.
Qed.

Lemma edges_ok_not v e : edges_ok v e -> edges_ok v (edges_not e).
Proof. destruct v, e; cbn; try done; apply partition_map. Qed.

Lemma ranges_eqb_pick {T R} `{Ord T} `{RangeSet T R} (valid : T -> Prop) (ok : R -> Prop) {L : RangeSetLaws T R valid ok} x :
  forall l k : list (R * NodeId), Forall (fun e => ok e.1) l -> Forall (fun e => ok e.1) k -> valid x ->
  ranges_eqb l k = true -> pick x l = pick x k.
Proof.
  induction l as [|[r c] l IH]; intros [|[r' d] k] Hl Hk Hx; cbn; try done.
  intros [[E1 E2]%andb_prop E3]%andb_prop. apply Forall_cons in Hl as [Hr Hl]. apply Forall_cons in Hk as [Hr' Hk].
  rewrite (rs_eqb_contains r r' x) by done. apply N.eqb_eq in E2 as ->. case_match; [done|]. by apply IH.
Qed.

Lemma Edges_eqb_choose a v e e' :
  assignment_wf a -> edges_ok v e -> edges_ok v e' -> Edges_eqb e e' = true -> choose a v e = choose a v e'.
Proof.
  intros Ha He He'. destruct v, e, e'; cbn in *; try done.
  2: { apply (ranges_eqb_pick version_wf okV); [by destruct He|by destruct He'|apply Ha]. }
  1: { apply (ranges_eqb_pick (fun _ => True) okS); [by destruct He|by destruct He'|done]. }
  all: by intros [-> %N.eqb_eq -> %N.eqb_eq]%andb_prop.
Qed.

(** A node has the value of its chosen edge. *)
Lemma eval_chosen ns a id n c :
  table_ok ns -> assignment_wf a -> shared_node ns id = Some n -> choose a (var n) (children n) = Some c ->
  eval ns a id = eval ns a (NodeId.negate c id).
Proof.
  intros Ht Ha Hn Hc. rewrite eval_negate. eapply eval_node; [done..|].
  pose proof Hn as (k&Hk&Hk')%shared_node_spec. destruct (Ht k n Hk') as [He Hch _].
  destruct (choose_some a _ _ Ha He) as (c'&Hc'&Hin). rewrite Hc in Hc'. injection Hc' as <-.
  rewrite Forall_forall in Hch. destruct (Hch c Hin). lia.
Qed.

(** ** Interning a node *)

Lemma find_node_some (n : Node) l i : find_node n l = Some i -> exists m, (m, i) ∈ l /\ Node_eqb m n = true.
Proof.
  induction l as [|[m j] l IH]; cbn; [done|]. case_match eqn:E.
  - intros [= ->]. exists m. split; [left|done].
  - intros Hf. destruct (IH Hf) as (m'&Hin&He). exists m'. split; [by right|done].
Qed.

Lemma find_node_none (n : Node) l m i : find_node n l = None -> (m, i) ∈ l -> Node_eqb m n = false.
Proof.
  induction l as [|[m' j] l IH]; cbn; [by intros _ ?%not_elem_of_nil|]. case_match eqn:E; [done|].
  intros Hf [[= -> ->]|Hin]%elem_of_cons; [done|by apply IH].
Qed.

Lemma unique_in (ns : list Node) m i :
  (m, i) ∈ imap (fun k n => (n, NodeId.new (N.of_nat k) false)) ns <->
  exists k, ns !! k = Some m /\ i = NodeId.new (N.of_nat k) false.
Proof.
  rewrite list_elem_of_lookup. setoid_rewrite list_lookup_imap. split.
  - intros (k&Hk). exists k. destruct (ns !! k); cbn in Hk; by simplify_eq.
  - intros (k&Hk&->). exists k. by rewrite Hk.
Qed.

Lemma node_ok_app (ns : list Node) l k n : (k <= length ns)%nat -> node_ok ns k n -> node_ok (ns ++ l) k n.
Proof.
  intros Hk [He Hc Hr]. split; [done| |done]. eapply Forall_impl; [done|]. intros c [Hp Hv]. split; [done|].
  apply var_lt_app; [unfold valid_id; lia|done].
Qed.

Lemma table_ok_snoc (ns : list Node) n : table_ok ns -> node_ok ns (length ns) n -> table_ok (ns ++ [n]).
Proof.
  intros Ht Hn k m Hm. apply node_ok_app.
  - apply lookup_lt_Some in Hm. rewrite length_app in Hm. cbn in Hm. lia.
  - apply lookup_app_Some in Hm as [Hm|[Hk Hm]]; [by apply Ht|]. apply list_lookup_singleton_Some in Hm as [Hk' ->].
    by replace k with (length ns) by lia.
Qed.

Lemma shared_node_new (ns : list Node) k n :
  ns !! k = Some n -> shared_node ns (NodeId.new (N.of_nat k) false) = Some n.
Proof. intros Hn. apply shared_node_spec. exists k. split; [|done]. destruct (new_facts (N.of_nat k)) as [_ ->]. lia. Qed.

Lemma intern_wf s n k :
  interner_wf s -> node_ok (nodes s) (length (nodes s)) n -> find_node n (unique s) = None ->
  k = NodeId.new (N.of_nat (length (nodes s))) false ->
  interner_wf (mkInterner (nodes s ++ [n]) (unique s ++ [(n, k)]) (cache s) (known_exclusions s)).
Proof.
  intros [Ht Hu Hd Hc Hx] Hn Hf ->. split; cbn.
  - by apply table_ok_snoc.
  - by rewrite imap_app, Hu; cbn; rewrite Nat.add_0_r.
  - intros i j m m' Hi Hj Hlt. apply lookup_app_Some in Hj as [Hj|[Hk Hj]].
    + eapply (Hd i j); [|done..]. apply lookup_lt_Some in Hj. rewrite lookup_app_l in Hi by lia. done.
    + apply list_lookup_singleton_Some in Hj as [Hj ->]. rewrite lookup_app_l in Hi by lia.
      eapply find_node_none; [done|]. rewrite Hu. apply unique_in. eauto.
  - intros x y z Hz. destruct (Hc x y z Hz) as (Hx'&Hy&Hz'). split_and!; [by apply valid_id_app..|by apply conj_of_app].
  - intros e He. destruct (Hx e He) as [Hv Ha]. split; [by apply valid_id_app|]. intros a Had. rewrite eval_app; auto.
Qed.

(** Interning gives an identifier of a node with the same edges. *)
Lemma intern_spec s n :
  interner_wf s -> node_ok (nodes s) (length (nodes s)) n ->
  spec (intern n) s (fun i s' =>
    extends s s' /\ interner_wf s' /\ N.odd i = false /\
    exists m, shared_node (nodes s') i = Some m /\ var m = var n /\ forall a, assignment_wf a ->
      choose a (var m) (children m) = choose a (var n) (children n)).
Proof.
  intros Hs Hn. unfold spec, intern. destruct (find_node n (unique s)) as [i|] eqn:Ef.
  - split; [done|]. split; [done|]. apply find_node_some in Ef as (m&Hin&He). rewrite (wf_unique s Hs) in Hin.
    apply unique_in in Hin as (k&Hk&->). split; [apply new_facts|]. exists m. split; [by apply shared_node_new|].
    unfold Node_eqb in He. apply andb_prop in He as [Hv He]. apply bool_decide_eq_true in Hv. split; [done|].
    intros a Ha. rewrite Hv. apply Edges_eqb_choose; [done| |apply Hn|done]. rewrite <- Hv. apply (wf_table s Hs k m Hk).
  - split; [by exists [n]|]. split; [by apply intern_wf|]. split; [apply new_facts|]. exists n. split; [|done].
    apply shared_node_new. cbn. by rewrite lookup_app_r, Nat.sub_diag.
Qed.

(** The value of the chosen edge, and the variables that come before. *)
Definition decides (s : Interner) (v : MarkerVariable) (e : Edges) (z : NodeId) (s' : Interner) : Prop :=
  extends s s' /\ interner_wf s' /\ valid_id (nodes s') z /\
  (forall w, (ordered = true -> cmp w v = Lt) -> var_lt (nodes s') w z) /\
  forall a c, assignment_wf a -> choose a v e = Some c -> eval (nodes s') a z = eval (nodes s) a c.

Definition children_ok (ns : list Node) (v : MarkerVariable) (e : Edges) : Prop :=
  Forall (fun c => valid_id ns c /\ var_lt ns v c) (edges_nodes e).

Lemma children_ok_not ns v e : children_ok ns v e -> children_ok ns v (edges_not e).
Proof.
  unfold children_ok. rewrite edges_nodes_not, Forall_fmap. intros H. eapply Forall_impl; [done|].
  intros c [Hv Hl]. cbn. by rewrite valid_not, var_lt_not.
Qed.

Lemma children_ok_extends s s' v e : extends s s' -> children_ok (nodes s) v e -> children_ok (nodes s') v e.
Proof.
  intros Hx Hc. eapply Forall_impl; [done|]. intros c [Hv Hl].
  split; [by eapply extends_valid|by eapply extends_var_lt].
Qed.

(** A node whose first edge is not complemented. *)
Lemma intern_decides s v e :
  interner_wf s -> edges_ok v e -> children_ok (nodes s) v e -> reduced (mkNode v e) ->
  spec (intern (mkNode v e)) s (fun i s' => decides s v e i s').
Proof.
  intros Hs He Hc Hr. eapply spec_mono.
  - apply intern_spec; [done|]. split; [done| |done]. eapply Forall_impl; [done|]. intros c [Hv Hl]. done.
  - intros i s' (Hx&Hs'&Ho&m&Hm&Hv&Hch). cbn in *. split; [done|]. split; [done|]. split; [by eapply shared_node_valid|]. split.
    + intros w Hw. unfold var_lt. by rewrite Hm, Hv.
    + intros a c Ha Hcc. erewrite eval_chosen; [|apply Hs'|done|done|by rewrite Hch].
      unfold NodeId.negate. rewrite is_complement_odd, Ho. eapply extends_eval; [done|].
      destruct (choose_some a v e Ha He) as (c'&Hc'&Hin). rewrite Hcc in Hc'. injection Hc' as <-.
      unfold children_ok in Hc. rewrite Forall_forall in Hc. by apply Hc.
Qed.

Lemma decides_not s v e i s' : decides s v (edges_not e) i s' -> edges_ok v e -> children_ok (nodes s) v e ->
  decides s v e (NodeId.not i) s'.
Proof.
  intros (Hx&Hs'&Hv&Hl&Hc) He Hch. split; [done|]. split; [done|]. split; [by apply valid_not|]. split.
  - intros w Hw. by apply var_lt_not, Hl.
  - intros a c Ha Hcc. rewrite eval_not. rewrite (Hc a (NodeId.not c)); [by rewrite eval_not, negb_involutive|done|].
    by rewrite choose_not, Hcc.
Qed.

Lemma decides_same s v e c0 :
  interner_wf s -> edges_ok v e -> children_ok (nodes s) v e -> Forall (fun c => c = c0) (edges_nodes e) ->
  decides s v e c0 s.
Proof.
  intros Hs He Hch Hall. assert (c0 ∈ edges_nodes e) as Hin.
  { pose proof (edges_nodes_nonempty v e He). destruct (edges_nodes e) as [|c l]; [done|]. apply Forall_cons in Hall as [-> _]. left. }
  unfold children_ok in Hch. rewrite Forall_forall in Hch, Hall. destruct (Hch c0 Hin) as [Hv Hl].
  split; [done|]. split; [done|]. split; [done|]. split; [intros w Hw; by eapply var_lt_trans|].
  intros a c Ha Hc. destruct (choose_some a v e Ha He) as (c'&Hc'&Hin'). rewrite Hc in Hc'. injection Hc' as <-.
  by rewrite (Hall c Hin').
Qed.

Lemma forallb_same c0 l : forallb (fun c => c =? c0) l = true -> Forall (fun c => c = c0) l.
Proof.
  intros H. apply Forall_forall. intros c Hc. apply N.eqb_eq. rewrite forallb_forall in H. by apply H, list_elem_of_In.
Qed.

Lemma create_node_decides s v e :
  interner_wf s -> edges_ok v e -> children_ok (nodes s) v e ->
  spec (create_node v e) s (fun z s' => decides s v e z s').
Proof.
  intros Hs He Hch. unfold create_node. apply spec_bind. cbn [children var].
  pose proof (edges_nodes_nonempty v e He) as Hne. destruct (edges_nodes e) as [|c0 l] eqn:En; [done|].
  unfold spec at 1. cbn. rewrite is_complement_odd. destruct (N.odd c0) eqn:Eo.
  - unfold Node_not. cbn [children var]. rewrite edges_nodes_not, En. case_match eqn:Eall.
    + apply spec_ret. rewrite not_not. apply decides_same; [done..|]. rewrite En. apply forallb_same in Eall.
      change (NodeId.not c0 :: _) with (NodeId.not <$> (c0 :: l)) in Eall. rewrite Forall_fmap in Eall.
      eapply Forall_impl; [done|]. intros c Hc. cbn in Hc. by rewrite <- (not_not c), Hc, not_not.
    + apply spec_bind. eapply spec_mono.
      * apply intern_decides; [done|by apply edges_ok_not|by apply children_ok_not|].
        unfold reduced. cbn [children]. rewrite edges_nodes_not, En. split; [by rewrite not_odd, Eo|done].
      * intros i s' Hd. apply spec_ret. by apply decides_not.
  - cbn [children var]. rewrite En. case_match eqn:Eall.
    + apply spec_ret. apply decides_same; [done..|]. rewrite En. by apply forallb_same.
    + apply spec_bind. eapply spec_mono.
      * apply intern_decides; [done..|]. unfold reduced. cbn [children]. by rewrite En.
      * intros i s' Hd. by apply spec_ret.
Qed.

(** ** Equal nodes have one identifier *)

Lemma ranges_eqb_nodes {T R} `{RangeSet T R} (l k : list (R * NodeId)) : ranges_eqb l k = true -> l.*2 = k.*2.
Proof.
  revert k. induction l as [|[r c] l IH]; intros [|[r' d] k]; cbn; try done. intros [[_ E]%andb_prop E']%andb_prop.
  apply N.eqb_eq in E as ->. f_equal. by apply IH.
Qed.

Lemma ranges_eqb_equiv {T R} `{Ord T} `{RangeSet T R} (valid : T -> Prop) (ok : R -> Prop) {L : RangeSetLaws T R valid ok} :
  forall l k m : list (R * NodeId), Forall (fun e => ok e.1) l -> Forall (fun e => ok e.1) k -> Forall (fun e => ok e.1) m ->
  (ranges_eqb l k = true -> ranges_eqb k l = true) /\
  (ranges_eqb l k = true -> ranges_eqb k m = true -> ranges_eqb l m = true).
Proof.
  induction l as [|[r c] l IH]; intros [|[r' d] k] [|[r2 b] m] Hl Hk Hm; cbn; try done;
    repeat match goal with H : Forall _ (_ :: _) |- _ => apply Forall_cons in H as [? ?] end.
  - destruct (IH k [] ltac:(done) ltac:(done) ltac:(done)) as [IH1 _]. split; [|done].
    intros [[E1 E2]%andb_prop E3]%andb_prop. rewrite (rs_eqb_sym r r'), N.eqb_sym, E2, IH1 by done. done.
  - destruct (IH k m ltac:(done) ltac:(done) ltac:(done)) as [IH1 IH2]. split.
    + intros [[E1 E2]%andb_prop E3]%andb_prop. rewrite (rs_eqb_sym r r'), N.eqb_sym, E2, IH1 by done. done.
    + intros [[E1 E2]%andb_prop E3]%andb_prop [[E4 E5]%andb_prop E6]%andb_prop. apply N.eqb_eq in E2 as ->.
      rewrite (rs_eqb_trans r r' r2), E5, IH2 by done. done.
Qed.

Lemma Edges_eqb_nodes (e e' : Edges) : Edges_eqb e e' = true -> edges_nodes e = edges_nodes e'.
Proof.
  destruct e, e'; cbn; try done; [apply ranges_eqb_nodes..|]. intros [E1 E2]%andb_prop. apply N.eqb_eq in E1 as ->, E2 as ->. done.
Qed.

Lemma Edges_eqb_equiv v e e' e2 : edges_ok v e -> edges_ok v e' -> edges_ok v e2 ->
  (Edges_eqb e e' = true -> Edges_eqb e' e = true) /\
  (Edges_eqb e e' = true -> Edges_eqb e' e2 = true -> Edges_eqb e e2 = true).
Proof.
  intros He He' He2. destruct v, e, e', e2; cbn in *; try done.
  2: { apply (ranges_eqb_equiv version_wf okV); [by destruct He|by destruct He'|by destruct He2]. }
  1: { apply (ranges_eqb_equiv (fun _ => True) okS); [by destruct He|by destruct He'|by destruct He2]. }
  all: rewrite !andb_true_iff, !N.eqb_eq; naive_solver congruence.
Qed.

Lemma ranges_eqb_not {T R} `{RangeSet T R} (l k : list (R * NodeId)) :
  ranges_eqb l k = true -> ranges_eqb (prod_map id NodeId.not <$> l) (prod_map id NodeId.not <$> k) = true.
Proof.
  revert k. induction l as [|[r c] l IH]; intros [|[r' d] k]; cbn; try done. intros [[E1 E2]%andb_prop E3]%andb_prop.
  apply N.eqb_eq in E2 as ->. rewrite E1, N.eqb_refl, IH by done. done.
Qed.

Lemma Edges_eqb_not (e e' : Edges) : Edges_eqb e e' = true -> Edges_eqb (edges_not e) (edges_not e') = true.
Proof.
  destruct e, e'; cbn; try done; try apply ranges_eqb_not. intros [E1 E2]%andb_prop. apply N.eqb_eq in E1 as ->, E2 as ->.
  by rewrite !N.eqb_refl.
Qed.

(** What a table holds is found again under the same identifier. *)
Lemma find_node_again s v e e' m k :
  interner_wf s -> nodes s !! k = Some m -> var m = v -> Edges_eqb (children m) e = true -> Edges_eqb e e' = true ->
  edges_ok v e -> edges_ok v e' -> find_node (mkNode v e') (unique s) = Some (NodeId.new (N.of_nat k) false).
Proof.
  intros Hs Hm Hv Hme Hee He He'. pose proof (node_edges _ _ _ (wf_table s Hs k m Hm)) as Hmo. rewrite Hv in Hmo.
  assert (Edges_eqb (children m) e' = true) as Hme' by (by apply (proj2 (Edges_eqb_equiv v _ e _ Hmo He He'))).
  rewrite (wf_unique s Hs). destruct (find_node _ _) as [i|] eqn:Ef.
  - apply find_node_some in Ef as (m'&Hin&Hq). apply unique_in in Hin as (j&Hj&->). do 3 f_equal.
    unfold Node_eqb in Hq. apply andb_prop in Hq as [Hq1 Hq2]. apply bool_decide_eq_true in Hq1. cbn in Hq1, Hq2.
    pose proof (node_edges _ _ _ (wf_table s Hs j m' Hj)) as Hmo'. rewrite Hq1 in Hmo'.
    assert (Edges_eqb (children m') (children m) = true) as Hmm.
    { apply (proj2 (Edges_eqb_equiv v _ e' _ Hmo' He' Hmo)); [done|]. by apply (proj1 (Edges_eqb_equiv v _ _ _ Hmo He' He')). }
    destruct (Nat.lt_trichotomy j k) as [Hlt|[->|Hlt]]; [|done|]; exfalso.
    + pose proof (wf_distinct s Hs j k m' m Hj Hm Hlt) as Hd. unfold Node_eqb in Hd.
      rewrite Hq1, Hv, bool_decide_eq_true_2, Hmm in Hd by done. done.
    + pose proof (wf_distinct s Hs k j m m' Hm Hj Hlt) as Hd. unfold Node_eqb in Hd.
      rewrite Hq1, Hv, bool_decide_eq_true_2 in Hd by done.
      rewrite (proj1 (Edges_eqb_equiv v (children m') (children m) (children m) Hmo' Hmo Hmo) Hmm) in Hd. done.
  - exfalso. pose proof (find_node_none _ _ m (NodeId.new (N.of_nat k) false) Ef) as Hd. unfold Node_eqb in Hd. cbn in Hd.
    rewrite Hv, bool_decide_eq_true_2, Hme' in Hd by done. discriminate Hd. apply unique_in. eauto.
Qed.

Lemma Edges_eqb_refl v e : edges_ok v e -> Edges_eqb e e = true.
Proof.
  assert (forall {T R} `{Ord T} `{RangeSet T R} (valid : T -> Prop) (ok : R -> Prop) (L : RangeSetLaws T R valid ok) (l : list (R * NodeId)),
    Forall (fun e => ok e.1) l -> ranges_eqb l l = true) as Hr.
  { intros T R ? ? valid ok L l. induction 1 as [|[r c] l Hr _ IH]; cbn; [done|]. cbn in Hr. by rewrite rs_eqb_refl, N.eqb_refl, IH. }
  intros He. destruct v, e; cbn in *; try done.
  2: { apply (Hr _ _ _ _ version_wf okV _). by destruct He. }
  1: { apply (Hr _ _ _ _ (fun _ => True) okS _). by destruct He. }
  all: by rewrite !N.eqb_refl.
Qed.

(** Interning a node and, later, an equal one. *)
Lemma intern_again s v e e' i s1 s2 :
  interner_wf s -> edges_ok v e -> edges_ok v e' -> Edges_eqb e e' = true ->
  intern (mkNode v e) s = Some (i, s1) -> extends s1 s2 -> interner_wf s2 -> intern (mkNode v e') s2 = Some (i, s2).
Proof.
  intros Hs He He' Hee Hi [l Hl] Hs2. unfold intern in *. destruct (find_node (mkNode v e) (unique s)) as [j|] eqn:Ef.
  - injection Hi as -> ->. apply find_node_some in Ef as (m&Hin&Hq). rewrite (wf_unique s1 Hs) in Hin.
    apply unique_in in Hin as (k&Hk&->). unfold Node_eqb in Hq. apply andb_prop in Hq as [Hq1 Hq2]. apply bool_decide_eq_true in Hq1.
    erewrite find_node_again; [done|done| |exact Hq1|exact Hq2|done..]. rewrite Hl. by apply lookup_app_l_Some.
  - injection Hi as <- <-. erewrite (find_node_again s2 v e e' (mkNode v e) (length (nodes s))); [done|done| |done| |done..].
    + rewrite Hl. cbn. rewrite <- app_assoc. by rewrite lookup_app_r, Nat.sub_diag.
    + by eapply Edges_eqb_refl.
Qed.

Lemma create_node_again s v e e' z s1 s2 :
  interner_wf s -> edges_ok v e -> edges_ok v e' -> Edges_eqb e e' = true ->
  create_node v e s = Some (z, s1) -> extends s1 s2 -> interner_wf s2 -> create_node v e' s2 = Some (z, s2).
Proof.
  intros Hs He He' Hee Hz Hx Hs2. pose proof (Edges_eqb_nodes _ _ Hee) as En. unfold create_node, mbind', mlift in *. cbn [children] in *.
  rewrite <- En. destruct (edges_nodes e) as [|c l] eqn:El; [done|]. cbn [head mbind option_bind] in *.
  assert (edges_nodes (children (if NodeId.is_complement c then Node_not (mkNode v e) else mkNode v e))
    = edges_nodes (children (if NodeId.is_complement c then Node_not (mkNode v e') else mkNode v e'))) as Ec.
  { destruct (NodeId.is_complement c); cbn; rewrite ?edges_nodes_not; congruence. }
  rewrite <- Ec. destruct (forallb _ _); [by injection Hz as -> ->|].
  destruct (NodeId.is_complement c); unfold Node_not in *; cbn [var children] in *.
  - destruct (intern (mkNode v (edges_not e)) s) as [[i s']|] eqn:Ei; [|done]. injection Hz as <- <-.
    rewrite (intern_again s v _ _ i s' s2 Hs (edges_ok_not _ _ He) (edges_ok_not _ _ He') (Edges_eqb_not _ _ Hee) Ei Hx Hs2). done.
  - destruct (intern (mkNode v e) s) as [[i s']|] eqn:Ei; [|done]. injection Hz as <- <-.
    rewrite (intern_again s v _ _ i s' s2 Hs He He' Hee Ei Hx Hs2). done.
Qed.
End wf.
