(* ===== verification/MarkerEdges.v ===== *)
(** * Rebuilding and merging edges

    [Edges::map] and [Edges::apply] run an operation on the children of one node
    or on the overlapping children of two. If the operation relates what it is
    given to what it returns, the new edges do so for every value of the variable,
    and they partition the values again. *)

From stdpp Require Import base numbers list strings gmap.
From S2P Require Import Prelude VersionTypes VersionSmall Version VersionFacts VersionParser Specifier Ranges Names Text RangeSet Tiling MarkerTypes MarkerAlgebra MarkerEval MarkerWf.

(** ** Lists of edges *)

Lemma subseteq_head {A} (a : A) l : [a] ⊆ a :: l.
Proof. intros x ->%list_elem_of_singleton. left. Qed.

Lemma subseteq_tail {A} (a : A) l : l ⊆ a :: l.
Proof. intros x Hx. by right. Qed.


Section lists.
Context {T R : Type} {OT : Ord T} {SR : RangeSet T R} (valid : T -> Prop) (ok : R -> Prop) {KT : OrdKey T valid} {L : RangeSetLaws T R valid ok}.
Abbreviation count x l := (count_if (fun e => rs_contains (fst e) x) l).

Lemma pick_perm x (l k : list (R * NodeId)) : l ≡ₚ k -> count x l = 1%nat -> pick x l = pick x k.
Proof.
  induction 1 as [|[r c] l k Hp IH|[r c] [r' c'] l|l k m Hp IH Hp' IH']; cbn; intros Hc; [done| | |].
  - case_match; [done|]. apply IH. lia.
  - by destruct (rs_contains r x), (rs_contains r' x).
  - rewrite IH by done. apply IH'. by rewrite <- (count_if_perm _ _ _ Hp).
Qed.

Lemma push_combined_facts x (combined : list (R * NodeId)) inter node :
  (rs_contains inter x = true -> count x combined = O) ->
  count x (push_combined combined inter node) = (count x combined + if rs_contains inter x then 1 else 0)%nat /\
  pick x (push_combined combined inter node) = if rs_contains inter x then Some node else pick x combined.
Proof.
  intros H0. unfold push_combined. destruct combined as [|[r p] l]; cbn; [by destruct (rs_contains inter x)|].
  destruct ((p =? node) && can_conjoin r inter) eqn:E; cbn.
  - apply andb_prop in E as [->%N.eqb_eq _]. rewrite rs_contains_union. cbn in H0.
    destruct (rs_contains inter x), (rs_contains r x); cbn; (split; [lia|done]).
  - destruct (rs_contains inter x); split; [lia|done|lia|done].
Qed.

Lemma push_combined_forall (P : NodeId -> Prop) (combined : list (R * NodeId)) inter node :
  ok inter -> P node -> Forall (fun e => ok e.1 /\ P e.2) combined ->
  Forall (fun e => ok e.1 /\ P e.2) (push_combined combined inter node).
Proof.
  intros Hi Hn Hc. unfold push_combined. destruct combined as [|[r p] l]; [by repeat constructor|].
  apply Forall_cons in Hc as [[Hr Hp] Hl]. cbn in Hr, Hp. case_match.
  - constructor; [|done]. split; [by apply rs_ok_union|done].
  - constructor; [done|]. by constructor.
Qed.

Lemma related_pick {Q : NodeId -> NodeId -> Prop} x (l k : list (R * NodeId)) :
  Forall2 (fun e e' => e.1 = e'.1 /\ Q e.2 e'.2) l k ->
  count x k = count x l /\ forall c, pick x l = Some c -> exists z, pick x k = Some z /\ Q c z.
Proof.
  induction 1 as [|[r c] [r' z] l k [Hr Hq] _ [IHc IHp]]; cbn in *; [done|]. subst r'. rewrite IHc. split; [done|].
  intros d. case_match; [|apply IHp]. intros [= <-]. eauto.
Qed.

Lemma related_partition {Q : NodeId -> NodeId -> Prop} (l k : list (R * NodeId)) :
  Forall2 (fun e e' => e.1 = e'.1 /\ Q e.2 e'.2) l k -> partition valid ok l -> partition valid ok k.
Proof.
  intros H [Ho Ht]. split.
  - clear Ht. induction H as [|e e' l k [Hr _] _ IH]; [constructor|]. apply Forall_cons in Ho as [He Ho].
    constructor; [by rewrite <- Hr|auto].
  - unfold tiles in *. clear Ho. revert Ht. generalize (bottom : place key_type).
    induction H as [|[r c] [r' c'] l k [Hr _] _ IH]; intros p; [done|]. cbn in Hr. subst r'. cbn.
    intros (s&Es&Hs&Hp&Hlt&Ht). exists s. do 4 (split; [done|]). auto.
Qed.

(** Pushing a range that starts where the edges end. *)
Lemma push_combined_tiled p q (combined : list (R * NodeId)) inter node z :
  Forall (fun e => ok e.1) combined -> ok inter -> tiled valid p q (rev combined) -> rs_iter inter = [z] -> segment_valid valid z ->
  cmp q (lower_at valid (fst z)) = Eq -> cmp (lower_at valid (fst z)) (upper_at valid (snd z)) = Lt ->
  tiled valid p (upper_at valid (snd z)) (rev (push_combined combined inter node)).
Proof.
  intros Hc Hi Ht Ez Hz Hq Hlt.
  assert (tiled valid q (upper_at valid (snd z)) [(inter, node)]) as Hone.
  { cbn. exists z. split_and!; try done; try apply Hz. apply cmp_refl. }
  unfold push_combined. destruct combined as [|[r c] l]; cbn [rev app].
  - cbn in Ht. by apply (tiled_app _ _ q _ []).
  - case_match eqn:E.
    2: { cbn [rev]. by eapply tiled_app. }
    cbn [rev] in *. apply Forall_cons in Hc as [Hr _]. cbn in Hr. apply tiled_app_inv in Ht as (m&Hl&Hm). cbn in Hm.
    destruct Hm as (s&Es&Hs&Hps&Hlts&Hqs).
    assert (cmp (upper_place (snd s)) (lower_place (fst z)) = Eq) as Hadj.
    { rewrite (upper_lower_cmp valid) by (apply Hs || apply Hz). order_lia [upper_at valid (snd s); q; lower_at valid (fst z)]. }
    destruct (single_eqb valid ok (rs_union r inter) (fst s, snd z)) as (w&Ew&Hw&Hwl&Hwu);
      [by apply rs_ok_union|split; [apply Hs|apply Hz]|by apply rs_iter_union_adjacent|]. cbn [fst snd] in Hwl, Hwu.
    eapply tiled_app; [exact Hl|]. cbn. exists w.
    rewrite (upper_lower_cmp valid) in Hadj by (apply Hs || apply Hz).
    set (ls := lower_at valid (fst s)) in *. set (us := upper_at valid (snd s)) in *. set (lz := lower_at valid (fst z)) in *.
    set (uz := upper_at valid (snd z)) in *. set (lw := lower_at valid (fst w)) in *. set (uw := upper_at valid (snd w)) in *.
    split_and!; try done; try apply Hw; order_lia [m; q; ls; us; lz; uz; lw; uw].
Qed.
End lists.

Section edges.
Context {RV RS : Type} {SV : RangeSet Version RV} {SS : RangeSet text RS}.
Context (okV : RV -> Prop) (okS : RS -> Prop) (ordered : bool).
Context {LV : RangeSetLaws Version RV version_wf okV} {LS : RangeSetLaws text RS (fun _ => True) okS}.
Abbreviation Edges := (@Edges RV RS).
Abbreviation Node := (@Node RV RS).
Abbreviation Interner := (@Interner RV RS).
Abbreviation wf := (interner_wf okV okS ordered).

(** ** [map] *)

Definition edges_rel (Q : NodeId -> NodeId -> Prop) (e e' : Edges) : Prop :=
  match e, e' with
  | E_Version l, E_Version k => Forall2 (fun e e' => e.1 = e'.1 /\ Q e.2 e'.2) l k
  | E_String l, E_String k => Forall2 (fun e e' => e.1 = e'.1 /\ Q e.2 e'.2) l k
  | E_Boolean h l, E_Boolean h' l' => Q h h' /\ Q l l'
  | _, _ => False
  end.

Lemma edges_rel_ok Q v e e' : edges_rel Q e e' -> edges_ok okV okS v e -> edges_ok okV okS v e'.
Proof. destruct v, e, e'; cbn; try done; apply related_partition. Qed.

Lemma edges_rel_choose Q a v e e' c :
  edges_rel Q e e' -> choose a v e = Some c -> exists z, choose a v e' = Some z /\ Q c z.
Proof.
  destruct v, e, e'; cbn; try done; try (intros H; by apply (related_pick _ _ _ H));
    intros [Hh Hl]; destruct (a_bool a _); intros [= <-]; eauto.
Qed.

Lemma related_nodes {X} (Q : NodeId -> NodeId -> Prop) (l k : list (X * NodeId)) :
  Forall2 (fun e e' => e.1 = e'.1 /\ Q e.2 e'.2) l k -> Forall (fun z => exists c, Q c z) k.*2.
Proof. induction 1 as [|e e' l k [_ Hq] _ IH]; cbn; [constructor|]. constructor; eauto. Qed.

Lemma edges_rel_nodes Q e e' : edges_rel Q e e' -> Forall (fun z => exists c, Q c z) (edges_nodes e').
Proof.
  destruct e, e'; cbn; try done; try apply related_nodes. intros [Hh Hl]. repeat constructor; eauto.
Qed.

Section map.
Context (I : Interner -> Prop).
Context (parent : NodeId) (f : NodeId -> act Interner NodeId) (Q : list Node -> NodeId -> NodeId -> Prop).
Context (Qmono : forall s s' c z, extends s s' -> Q (nodes s) c z -> Q (nodes s') c z).

(** [f] relates the children among [cs] to its results from every later state. *)
Definition maps (s : Interner) (cs : list NodeId) : Prop := forall s1 c,
  extends s s1 -> I s1 -> c ∈ cs ->
  spec (f (NodeId.negate c parent)) s1 (fun z s2 => extends s1 s2 /\ I s2 /\ Q (nodes s2) c z).

Lemma map_edges_spec {X} (l : list (X * NodeId)) : forall s, I s -> maps s l.*2 ->
  spec (map_edges f parent l) s (fun k s' =>
    extends s s' /\ I s' /\ Forall2 (fun e e' => e.1 = e'.1 /\ Q (nodes s') e.2 e'.2) l k).
Proof.
  induction l as [|[r c] l IH]; intros s Hs Hf; cbn [map_edges]; [by apply spec_ret|].
  apply spec_bind. eapply spec_mono; [apply Hf; [done|done|left]|]. intros z s1 (Hx1&Hs1&Hz).
  apply spec_bind. eapply spec_mono; [apply IH; [done|]|].
  { intros s2 d Hx2 Hs2 Hd. apply Hf; [by etrans|done|by right]. }
  intros k s2 (Hx2&Hs2&Hk). apply spec_ret. split; [by etrans|]. split; [done|]. constructor; [|done].
  split; [done|]. by eapply Qmono.
Qed.

Lemma edges_map_spec e s : I s -> maps s (edges_nodes e) ->
  spec (edges_map e parent f) s (fun e' s' => extends s s' /\ I s' /\ edges_rel (Q (nodes s')) e e').
Proof.
  intros Hs Hf. destruct e as [l|l|h lo]; cbn [edges_map].
  1,2: apply spec_bind; eapply spec_mono; [by apply map_edges_spec|]; intros k s' Hk; by apply spec_ret.
  apply spec_bind. eapply spec_mono; [apply Hf; [done|done|set_solver]|]. intros z s1 (Hx1&Hs1&Hz).
  apply spec_bind. eapply spec_mono; [apply Hf; [done|done|set_solver]|]. intros y s2 (Hx2&Hs2&Hy).
  apply spec_ret. split; [by etrans|]. split; [done|]. split; [done|]. by eapply Qmono.
Qed.
End map.

(** ** [apply] *)

Section apply.
Context (apply : NodeId -> NodeId -> act Interner NodeId) (Q : list Node -> NodeId -> NodeId -> NodeId -> Prop).
Context (Qmono : forall s s' l r z, extends s s' -> Q (nodes s) l r z -> Q (nodes s') l r z).

(** [apply] relates the pairs of [ls] and [rs] to its results. *)
Definition applies (s : Interner) (ls rs : list NodeId) : Prop := forall s1 l r,
  extends s s1 -> wf s1 -> l ∈ ls -> r ∈ rs ->
  spec (apply l r) s1 (fun z s2 => extends s1 s2 /\ wf s2 /\ Q (nodes s2) l r z).

Lemma applies_weaken s s' ls rs ls' rs' : applies s ls rs -> extends s s' -> ls' ⊆ ls -> rs' ⊆ rs -> applies s' ls' rs'.
Proof. intros H Hx Hl Hr s1 l r Hx1 Hs1 Hl1 Hr1. apply H; [by etrans|done|by apply Hl|by apply Hr]. Qed.

Definition results (s : Interner) (z : NodeId) : Prop := exists l r, Q (nodes s) l r z.

Lemma results_mono s s' z : extends s s' -> results s z -> results s' z.
Proof. intros Hx (l&r&H). exists l, r. by eapply Qmono. Qed.

Section ranges.
Context {T R : Type} {OT : Ord T} {SR : RangeSet T R} (valid : T -> Prop) (ok : R -> Prop) {KT : OrdKey T valid} {L : RangeSetLaws T R valid ok}.
Abbreviation count x l := (count_if (fun e => rs_contains (fst e) x) l).
Abbreviation neg p l := ((fun e => NodeId.negate (snd e) p) <$> l).
Abbreviation combined_ok s l := (Forall (fun e => ok e.1 /\ results s e.2) l).

(** Merging the right edges into one left edge, for one value of the variable. *)
Definition merged_right (s : Interner) left_range lc rp redges combined combined' (x : T) : Prop :=
  count x combined' = (count x combined + if rs_contains left_range x then count x redges else 0)%nat /\
  ((rs_contains left_range x = false \/ pick x redges = None) -> pick x combined' = pick x combined) /\
  (rs_contains left_range x = true -> forall rc, pick x redges = Some rc ->
     exists z, pick x combined' = Some z /\ Q (nodes s) lc (NodeId.negate rc rp) z).

Lemma combined_ok_mono s s' (l : list (R * NodeId)) : extends s s' -> combined_ok s l -> combined_ok s' l.
Proof. intros Hx H. eapply Forall_impl; [done|]. intros e [Ho Hr]. split; [done|by eapply results_mono]. Qed.

Lemma merged_skip s left_range lc rp rr rc redges combined combined' x :
  rs_contains rr x && rs_contains left_range x = false ->
  merged_right s left_range lc rp redges combined combined' x ->
  merged_right s left_range lc rp ((rr, rc) :: redges) combined combined' x.
Proof.
  unfold merged_right. cbn. intros E (Hc&Hn&Hs). destruct (rs_contains left_range x).
  - rewrite andb_true_r in E. by rewrite E.
  - split_and!; [done| |done]. intros _. apply Hn. by left.
Qed.

Lemma merged_push s1 s left_range lc rp rr rc redges combined combined' x z :
  extends s1 s -> Q (nodes s1) lc (NodeId.negate rc rp) z ->
  (rs_contains left_range x = true -> (count x combined + count x ((rr, rc) :: redges) <= 1)%nat) ->
  merged_right s left_range lc rp redges (push_combined combined (rs_intersection rr left_range) z) combined' x ->
  merged_right s left_range lc rp ((rr, rc) :: redges) combined combined' x.
Proof.
  intros Hx Hq Hle (Hc&Hn&Hs). cbn in Hle.
  destruct (push_combined_facts valid ok x combined (rs_intersection rr left_range) z) as [Ec Ep].
  { rewrite rs_contains_intersection. intros [Hr Hl]%andb_prop. specialize (Hle Hl). rewrite Hr in Hle. lia. }
  rewrite Ec, rs_contains_intersection in Hc. rewrite Ep, rs_contains_intersection in Hn. unfold merged_right. cbn.
  destruct (rs_contains left_range x) eqn:El; cbn in *.
  - specialize (Hle eq_refl). destruct (rs_contains rr x) eqn:Er; cbn in *.
    + split_and!; [lia|naive_solver|]. intros _ c [= <-]. exists z. split; [|by eapply Qmono]. apply Hn. right.
      apply pick_none. lia.
    + split_and!; [lia|done|done].
  - rewrite andb_false_r in *. split_and!; [lia| |done]. intros _. apply Hn. by left.
Qed.

(** The merged edges end where the left edge is covered by the right ones seen so far. *)
Definition tiled_right (left_range : R) (redges combined combined' : list (R * NodeId)) : Prop := forall s c q,
  rs_iter left_range = [s] -> segment_valid valid s -> cmp (lower_at valid (fst s)) (upper_at valid (snd s)) = Lt ->
  tiled valid c top redges -> tiled valid bottom q (rev combined) -> cmp q (clamp c (lower_at valid (fst s)) (upper_at valid (snd s))) = Eq ->
  tiled valid bottom (upper_at valid (snd s)) (rev combined').

Lemma tiled_right_nil left_range combined : tiled_right left_range [] combined combined.
Proof.
  intros s c q Es Hs Hlt Hc Ht Hq. cbn in Hc. eapply tiled_eq_r; [|exact Ht].
  pose proof (le_top valid (upper_at valid (snd s)) (or_intror (ex_intro _ _ eq_refl))) as Htop.
  assert (cmp (upper_at valid (snd s)) c <> Gt) as Hle by (order_lia [upper_at valid (snd s); c; top : place key_type]).
  pose proof (clamp_high _ _ _ Hlt Hle) as Hh.
  order_lia [q; clamp c (lower_at valid (fst s)) (upper_at valid (snd s)); upper_at valid (snd s)].
Qed.

Lemma tiled_right_cons left_range rr rc redges combined combined' z :
  ok left_range -> ok rr -> Forall (fun e => ok e.1) combined ->
  tiled_right left_range redges
    (if rs_is_empty (rs_intersection rr left_range) then combined else push_combined combined (rs_intersection rr left_range) z) combined' ->
  tiled_right left_range ((rr, rc) :: redges) combined combined'.
Proof.
  intros Hl Hr Hc H s c q Es Hs Hlt Htc Ht Hq. cbn in Htc. destruct Htc as (u&Eu&Hu&Hcu&Hltu&Htu).
  destruct (single_inter valid ok rr left_range u s Hr Hl Eu Es) as [Ee Hw]. rewrite Ee in H.
  pose proof (inter_lower valid u s ltac:(apply Hu) ltac:(apply Hs)) as Hlow. pose proof (inter_upper valid u s ltac:(apply Hu) ltac:(apply Hs)) as Hup.
  assert (segment_valid valid (segment_inter u s)) as Hiv by (by apply inter_valid).
  pose proof (proper_at valid (segment_inter u s) Hiv) as Hpr. cbn zeta in Hlow, Hup.
  set (lu := lower_at valid (fst u)) in *. set (uu := upper_at valid (snd u)) in *. set (ls := lower_at valid (fst s)) in *. set (us := upper_at valid (snd s)) in *.
  set (li := lower_at valid (fst (segment_inter u s))) in *. set (ui := upper_at valid (snd (segment_inter u s))) in *.
  assert (cmp (clamp c ls us) (clamp lu ls us) = Eq) as Ec.
  { unfold clamp, cmp_leb. rewrite (cmp_eq_l _ _ ls Hcu), (cmp_eq_l _ _ us Hcu). destruct (cmp lu ls); [apply cmp_refl..|].
    destruct (cmp lu us); [done|done|apply cmp_refl]. }
  destruct (segment_proper (segment_inter u s)) eqn:Ep; cbn [negb] in H.
  - destruct (Hw eq_refl) as (w&Ew&Hwv&Hwl&Hwu). pose proof (proj1 Hpr eq_refl) as Hlu.
    destruct (clamp_start _ _ _ _ _ _ Hltu Hlt Hlow Hup Hlu) as [Hs1 Hs2].
    eapply (H s uu (upper_at valid (snd w))); try done.
    + eapply (push_combined_tiled valid ok); [done|by apply rs_ok_intersection|exact Ht|done|done| |].
      * order_lia [q; clamp c ls us; clamp lu ls us; li; lower_at valid (fst w)].
      * order_lia [li; ui; lower_at valid (fst w); upper_at valid (snd w)].
    + fold ls us. order_lia [upper_at valid (snd w); ui; clamp uu ls us].
  - assert (cmp li ui <> Lt) as Hn by (intros E; by apply Hpr in E).
    pose proof (clamp_skip _ _ _ _ _ _ Hltu Hlt Hlow Hup Hn) as Hsk.
    eapply (H s uu q); try done. fold ls us. order_lia [q; clamp c ls us; clamp lu ls us; clamp uu ls us].
Qed.

Lemma apply_right_spec left_range lc rp redges : forall s combined,
  wf s -> ok left_range -> Forall (fun e => ok e.1) redges -> combined_ok s combined ->
  applies s [lc] (neg rp redges) ->
  spec (apply_right apply left_range lc rp redges combined) s (fun combined' s' =>
    extends s s' /\ wf s' /\ combined_ok s' combined' /\ tiled_right left_range redges combined combined' /\
    forall x, valid x -> (rs_contains left_range x = true -> (count x combined + count x redges <= 1)%nat) ->
      merged_right s' left_range lc rp redges combined combined' x).
Proof.
  induction redges as [|[rr rc] redges IH]; intros s combined Hs Hl Hr Hc Ha; cbn [apply_right].
  - apply spec_ret. split_and!; [done..|apply tiled_right_nil|]. intros x _ _. unfold merged_right. cbn. split_and!; [case_match; lia|done|done].
  - apply Forall_cons in Hr as [Hrr Hr]. cbn in Hrr.
    assert (Forall (fun e => ok e.1) combined) as Hc0 by (eapply Forall_impl; [exact Hc|]; by intros e []).
    case_match eqn:Ee.
    + eapply spec_mono; [apply IH; try done; eapply applies_weaken; [exact Ha|done|done|apply subseteq_tail]|].
      intros combined' s' (Hx&Hs'&Hc'&Ht&Hm).
      split_and!; [done..|eapply (tiled_right_cons _ _ _ _ _ _ NodeId.TRUE); [done..|by rewrite Ee]|]. intros x Hv Hle.
      pose proof (rs_empty_none _ x (rs_ok_intersection _ _ Hrr Hl) Hv Ee) as E0. rewrite rs_contains_intersection in E0.
      apply merged_skip; [done|]. apply Hm; [done|]. intros Hl'. specialize (Hle Hl'). cbn in Hle. lia.
    + apply spec_bind. eapply spec_mono; [apply Ha; [done|done|left|left]|]. intros z s1 (Hx1&Hs1&Hz).
      eapply spec_mono; [apply IH; try done|].
      * apply (push_combined_forall valid ok (results s1)); [by apply rs_ok_intersection|by exists lc, (NodeId.negate rc rp)|by eapply combined_ok_mono].
      * eapply applies_weaken; [exact Ha|done|done|apply subseteq_tail].
      * intros combined' s' (Hx&Hs'&Hc'&Ht&Hm).
        split_and!; [by etrans|done..|eapply (tiled_right_cons _ _ _ _ _ _ z); [done..|by rewrite Ee]|]. intros x Hv Hle.
        eapply merged_push; [done|done|done|]. apply Hm; [done|]. intros Hl'. specialize (Hle Hl'). cbn in Hle.
        edestruct (push_combined_facts valid ok x combined (rs_intersection rr left_range) z) as [-> _].
        { rewrite rs_contains_intersection. intros [Hr' _]%andb_prop. rewrite Hr' in Hle. lia. }
        rewrite rs_contains_intersection, Hl', andb_true_r. lia.
Qed.

(** Merging all left edges, when the right edges contain the value once. *)
Definition merged_left (s : Interner) ledges lp rp redges combined combined' (x : T) : Prop :=
  count x combined' = (count x combined + count x ledges)%nat /\
  (pick x ledges = None -> pick x combined' = pick x combined) /\
  forall lc rc, pick x ledges = Some lc -> pick x redges = Some rc ->
    exists z, pick x combined' = Some z /\ Q (nodes s) (NodeId.negate lc lp) (NodeId.negate rc rp) z.

Lemma merged_left_cons s1 s lr lc ledges lp rp redges combined combined1 combined' x :
  extends s1 s -> count x redges = 1%nat -> (count x combined + count x ((lr, lc) :: ledges) <= 1)%nat ->
  merged_right s1 lr (NodeId.negate lc lp) rp redges combined combined1 x ->
  merged_left s ledges lp rp redges combined1 combined' x ->
  merged_left s ((lr, lc) :: ledges) lp rp redges combined combined' x.
Proof.
  intros Hx Hr Hle (Hc1&Hn1&Hs1) (Hc&Hn&Hs). cbn in Hle. unfold merged_left. cbn. rewrite Hc, Hc1, Hr.
  destruct (rs_contains lr x); split_and!; try lia.
  - done.
  - intros l r [= <-] Hp. destruct (Hs1 eq_refl r Hp) as (z&Hz&Hq). exists z. split; [|by eapply Qmono].
    rewrite Hn; [done|]. apply pick_none. lia.
  - intros Hp. rewrite Hn by done. apply Hn1. by left.
  - done.
Qed.

Lemma apply_left_spec lp rp redges (ledges : list (R * NodeId)) : forall s combined,
  wf s -> Forall (fun e => ok e.1) ledges -> Forall (fun e => ok e.1) redges -> combined_ok s combined ->
  applies s (neg lp ledges) (neg rp redges) ->
  (forall x, valid x -> count x redges = 1 /\ count x combined + count x ledges <= 1)%nat ->
  spec (apply_left apply ledges lp redges rp combined) s (fun combined' s' =>
    extends s s' /\ wf s' /\ combined_ok s' combined' /\
    (forall p, tiles valid redges -> tiled valid p top ledges -> tiled valid bottom p (rev combined) -> tiles valid (rev combined')) /\
    forall x, valid x -> merged_left s' ledges lp rp redges combined combined' x).
Proof.
  induction ledges as [|[lr lc] ledges IH]; intros s combined Hs Hl Hr Hc Ha Hcount; cbn [apply_left].
  - apply spec_ret. split_and!; [done..| |].
    + intros p _ Hp Ht. by apply (tiled_eq_r valid bottom p).
    + intros x _. unfold merged_left. cbn. split_and!; [lia|done|done].
  - apply Forall_cons in Hl as [Hlr Hl]. apply spec_bind. eapply spec_mono.
    { apply apply_right_spec; try done. eapply applies_weaken; [exact Ha|done|apply subseteq_head|done]. }
    intros combined1 s1 (Hx1&Hs1&Hc1&Ht1&Hm1). eapply spec_mono.
    { apply IH; try done; [eapply applies_weaken; [exact Ha|done|apply subseteq_tail|done]|].
      intros x Hv. destruct (Hcount x Hv) as [Hr1 Hle]. split; [done|]. cbn in Hle.
      destruct (Hm1 x Hv) as [-> _]; [|case_match; lia]. intros Hlx. rewrite Hlx in Hle. lia. }
    intros combined' s' (Hx&Hs'&Hc'&Ht&Hm). split_and!; [by etrans|done..| |].
    { intros p Hr0 Hp Hc0. cbn in Hp. destruct Hp as (w&Ew&Hw&Hpw&Hltw&Htw). eapply (Ht (upper_at valid (snd w))); [done|exact Htw|].
      eapply Ht1; [done..|exact Hr0|exact Hc0|].
      pose proof (bottom_le valid (lower_at valid (fst w)) (or_introl (ex_intro _ _ eq_refl))) as Hb. pose proof (clamp_low _ _ _ Hltw Hb) as Hcl.
      order_lia [p; lower_at valid (fst w); clamp bottom (lower_at valid (fst w)) (upper_at valid (snd w))]. }
    intros x Hv.
    destruct (Hcount x Hv) as [Hr1 Hle]. eapply merged_left_cons; [done|done|done| |by apply Hm].
    apply Hm1; [done|]. intros Hlx. cbn in Hle. rewrite Hlx in Hle. lia.
Qed.

Lemma apply_ranges_spec s lp rp (ledges redges : list (R * NodeId)) :
  wf s -> partition valid ok ledges -> partition valid ok redges -> applies s (neg lp ledges) (neg rp redges) ->
  spec (apply_ranges apply ledges lp redges rp) s (fun l s' =>
    extends s s' /\ wf s' /\ partition valid ok l /\ Forall (results s') l.*2 /\
    forall x lc rc, valid x -> pick x ledges = Some lc -> pick x redges = Some rc ->
      exists z, pick x l = Some z /\ Q (nodes s') (NodeId.negate lc lp) (NodeId.negate rc rp) z).
Proof.
  intros Hs Hpl Hpr Ha. unfold apply_ranges. apply spec_bind. eapply spec_mono.
  { apply apply_left_spec; [done|apply Hpl|apply Hpr|constructor|done|]. intros x Hx. cbn. rewrite !(partition_count valid ok) by done. lia. }
  intros combined s' (Hx&Hs'&Hc&Ht&Hm). apply spec_ret. pose proof (Permutation_rev combined) as Hp.
  assert (forall x, valid x -> count x combined = 1%nat) as Hone.
  { intros x Hv. destruct (Hm x Hv) as [-> _]. cbn. by apply (partition_count valid ok). }
  split; [done|]. split; [done|]. split; [split|split].
  - rewrite <- Hp. eapply Forall_impl; [done|]. by intros e [].
  - apply (Ht bottom); [apply Hpr|apply Hpl|apply cmp_refl].
  - rewrite <- Hp. apply Forall_fmap. eapply Forall_impl; [done|]. by intros e [].
  - intros x lc rc Hv Hl Hr. destruct (Hm x Hv) as (_&_&Hs1). destruct (Hs1 lc rc Hl Hr) as (z&Hz&Hq). exists z.
    split; [|done]. rewrite <- (pick_perm x _ _ Hp); auto.
Qed.
End ranges.

Abbreviation negs p l := ((fun c => NodeId.negate c p) <$> l).

Lemma negs_snd {X} p (l : list (X * NodeId)) : (fun e => NodeId.negate (snd e) p) <$> l = negs p l.*2.
Proof. by rewrite <- list_fmap_compose. Qed.

Lemma edges_apply_spec s v e lp e' rp :
  wf s -> edges_ok okV okS v e -> edges_ok okV okS v e' -> applies s (negs lp (edges_nodes e)) (negs rp (edges_nodes e')) ->
  spec (edges_apply e lp e' rp apply) s (fun e2 s' =>
    extends s s' /\ wf s' /\ edges_ok okV okS v e2 /\ Forall (results s') (edges_nodes e2) /\
    forall a lc rc, assignment_wf a -> choose a v e = Some lc -> choose a v e' = Some rc ->
      exists z, choose a v e2 = Some z /\ Q (nodes s') (NodeId.negate lc lp) (NodeId.negate rc rp) z).
Proof.
  intros Hs He He' Ha. destruct v, e as [l|l|h lo], e' as [k|k|h' lo']; try done; cbn in He, He', Ha; rewrite <- ?negs_snd in Ha.
  1: { apply spec_bind. eapply spec_mono; [by apply (apply_ranges_spec (fun _ => True) okS)|].
       intros m s' (Hx&Hs'&Hm&Hr&Hp). apply spec_ret. split_and!; [done..|]. intros a lc rc _. by apply Hp. }
  1: { apply spec_bind. eapply spec_mono; [by apply (apply_ranges_spec version_wf okV)|].
       intros m s' (Hx&Hs'&Hm&Hr&Hp). apply spec_ret. split_and!; [done..|]. intros a lc rc Hwf. apply Hp. apply Hwf. }
  all: apply spec_bind; (eapply spec_mono; [apply Ha; [done|done|left|left]|]); intros z s1 (Hx1&Hs1&Hz);
    apply spec_bind; (eapply spec_mono; [apply Ha; [done|done|right; left|right; left]|]); intros z' s2 (Hx2&Hs2&Hz');
    apply (Qmono _ _ _ _ _ Hx2) in Hz; apply spec_ret; (split_and!; [by etrans|done|done| |]);
    [repeat constructor; unfold results; eauto
    |intros a lc rc _; cbn; destruct (a_bool a _); intros [= <-] [= <-]; eauto].
Qed.
End apply.
End edges.

(** ** Conjunction, exclusions and disjointness

    The Shannon expansion shared by [and] and [conjunction] returns, without a
    panic and within its fuel, a node whose value is the conjunction of the values
    of its arguments in every possible environment. *)

Section conj.
Context {RV RS : Type} {SV : RangeSet Version RV} {SS : RangeSet text RS}.
Context (okV : RV -> Prop) (okS : RS -> Prop) (ordered : bool).
Context {LV : RangeSetLaws Version RV version_wf okV} {LS : RangeSetLaws text RS (fun _ => True) okS}.
Abbreviation Edges := (@Edges RV RS).
Abbreviation Node := (@Node RV RS).
Abbreviation Interner := (@Interner RV RS).
Abbreviation wf := (interner_wf okV okS ordered).
Abbreviation conj_of := (MarkerWf.conj_of ordered).
Abbreviation var_lt := (MarkerWf.var_lt ordered).
Abbreviation children_ok := (MarkerWf.children_ok ordered).

(** ** Conjunctions of terminals and complements *)

Lemma conj_true_l (ns : list Node) y : valid_id ns y -> conj_of ns NodeId.TRUE y y.
Proof. intros Hy. split; [done| |done]. intros a _. by rewrite eval_true. Qed.

Lemma conj_same (ns : list Node) x : valid_id ns x -> conj_of ns x x x.
Proof. intros Hx. split; [done| |done]. intros a _. by rewrite andb_diag. Qed.

Lemma conj_comm (ns : list Node) x y z : conj_of ns x y z -> conj_of ns y x z.
Proof. intros [Hv He Ha]. split; [done| |auto]. intros a Had. rewrite andb_comm. by apply He. Qed.

Lemma conj_false (ns : list Node) x y :
  (forall a, admissible a -> eval ns a x && eval ns a y = false) -> conj_of ns x y NodeId.FALSE.
Proof.
  intros H. split; [by apply terminal_valid| |].
  - intros a Ha. by rewrite eval_false, H.
  - intros v _ _. by apply terminal_var_lt.
Qed.

(** ** One step of the expansion *)

Lemma node_position ns id n : table_ok okV okS ordered ns -> shared_node ns id = Some n ->
  edges_ok okV okS (var n) (children n) /\
  forall c, c ∈ edges_nodes (children n) ->
    valid_id ns c /\ (position c < position id)%nat /\ var_lt ns (var n) c.
Proof.
  intros Ht (k&Hk&Hn)%shared_node_spec. destruct (Ht k n Hn) as [He Hc _]. split; [done|].
  intros c Hin. rewrite Forall_forall in Hc. destruct (Hc c Hin) as [Hp Hv]. apply lookup_lt_Some in Hn.
  unfold valid_id. split_and!; [lia|lia|done].
Qed.

(** The children of [x] conjoined with [y]. *)
Lemma expand_left s x y n f :
  wf s -> valid_id (nodes s) x -> valid_id (nodes s) y ->
  shared_node (nodes s) x = Some n -> var_lt (nodes s) (var n) y ->
  (forall s1 c, extends s s1 -> wf s1 -> c ∈ edges_nodes (children n) ->
     spec (f (NodeId.negate c x)) s1 (fun z s2 => extends s1 s2 /\ wf s2 /\ conj_of (nodes s2) (NodeId.negate c x) y z)) ->
  spec (let! edges := edges_map (children n) x f in create_node (var n) edges) s
    (fun z s' => extends s s' /\ wf s' /\ conj_of (nodes s') x y z).
Proof.
  intros Hs Hx Hy Hn Hl Hf. destruct (node_position _ _ _ (wf_table _ _ _ _ Hs) Hn) as [He Hc].
  set (Q := fun ns c z => c ∈ edges_nodes (children n) /\ conj_of ns (NodeId.negate c x) y z).
  assert (forall s', extends s s' -> forall c, c ∈ edges_nodes (children n) -> valid_id (nodes s') (NodeId.negate c x)) as Hcv.
  { intros s' Hx' c Hin. apply valid_negate. eapply extends_valid; [done|]. by apply Hc. }
  assert (forall s1 s', extends s s1 -> extends s1 s' -> forall c z, Q (nodes s1) c z -> Q (nodes s') c z) as Hmono.
  { intros s1 s' H1 H2 c z [Hin Hq]. split; [done|]. eapply extends_conj; [done|by apply Hcv|by eapply extends_valid|done]. }
  apply spec_bind. eapply spec_mono.
  { apply (edges_map_spec okV okS wf x f (fun ns c z => (exists k, ns = nodes s ++ k) /\ Q ns c z)); [|done|].
    - intros s1 s2 c z H12 [H1 Hq]. change (extends s s1) in H1. split; [change (extends s s2); by etrans|by eapply Hmono].
    - intros s1 c H1 Hs1 Hin. eapply spec_mono; [by apply Hf|]. intros z s2 (H12&Hs2&Hq). split; [done|]. split; [done|]. split; [|done].
      change (extends s s2). by etrans. }
  intros e' s1 (H1&Hs1&Hrel). eapply spec_mono.
  { apply (create_node_decides okV okS ordered); [done|by eapply edges_rel_ok|]. apply edges_rel_nodes in Hrel.
    eapply Forall_impl; [done|]. intros z (c&_&Hin&Hq). split; [apply Hq|]. apply Hq.
    - apply var_lt_negate. eapply extends_var_lt; [done|by apply Hc|by apply Hc].
    - by eapply extends_var_lt. }
  intros z s2 (H2&Hs2&Hz&Hlt&Hd). split_and!; [by etrans|done|]. split; [done| |].
  - intros a Ha. destruct (choose_some okV okS a _ _ (proj1 Ha) He) as (c&Hch&Hin).
    destruct (edges_rel_choose _ _ _ _ _ _ Hrel Hch) as (z'&Hz'&_&_&Hq).
    assert (shared_node (nodes s2) x = Some n) as Hn2. { destruct H2 as [k2 ->], H1 as [k1 ->]. by rewrite !shared_node_app by auto using valid_id_app. }
    rewrite (Hd a z') by (done || apply Ha). rewrite (eval_chosen okV okS ordered _ _ _ _ _ (wf_table _ _ _ _ Hs2) (proj1 Ha) Hn2 Hch).
    rewrite (extends_eval s1 s2) by (done || by apply Hcv). rewrite (extends_eval s1 s2 a y) by (done || by eapply extends_valid).
    by apply Hq.
  - intros w Hw _. apply Hlt. unfold var_lt in Hw. destruct H2 as [k2 E2], H1 as [k1 E1].
    rewrite E2, E1, !shared_node_app, Hn in Hw by auto using valid_id_app. done.
Qed.

Lemma extends_shared (s s' : Interner) id n :
  extends s s' -> shared_node (nodes s) id = Some n -> shared_node (nodes s') id = Some n.
Proof. intros [k ->] H. rewrite shared_node_app; [done|by eapply shared_node_valid]. Qed.

Lemma in_negs p c (l : list NodeId) : c ∈ (fun c => NodeId.negate c p) <$> l -> exists d, c = NodeId.negate d p /\ d ∈ l.
Proof. intros (d&->&Hd)%list_elem_of_fmap. eauto. Qed.

(** The overlapping children of two nodes on the same variable, conjoined. *)
Lemma expand_both s x y n m f :
  wf s -> shared_node (nodes s) x = Some n -> shared_node (nodes s) y = Some m -> var n = var m ->
  (forall s1 c d, extends s s1 -> wf s1 -> c ∈ edges_nodes (children n) -> d ∈ edges_nodes (children m) ->
     spec (f (NodeId.negate c x) (NodeId.negate d y)) s1
       (fun z s2 => extends s1 s2 /\ wf s2 /\ conj_of (nodes s2) (NodeId.negate c x) (NodeId.negate d y) z)) ->
  spec (let! edges := edges_apply (children n) x (children m) y f in create_node (var n) edges) s
    (fun z s' => extends s s' /\ wf s' /\ conj_of (nodes s') x y z).
Proof.
  intros Hs Hn Hm Hv Hf.
  destruct (node_position _ _ _ (wf_table _ _ _ _ Hs) Hn) as [He Hc], (node_position _ _ _ (wf_table _ _ _ _ Hs) Hm) as [He' Hc'].
  rewrite <- Hv in He', Hc'.
  set (Q := fun ns l r z => (valid_id ns l /\ var_lt ns (var n) l) /\ (valid_id ns r /\ var_lt ns (var n) r) /\ conj_of ns l r z).
  assert (forall s1 s2 l r z, extends s1 s2 -> Q (nodes s1) l r z -> Q (nodes s2) l r z) as Hmono.
  { intros s1 s2 l r z H12 ([Hl Hl']&[Hr Hr']&Hq). split_and!; try (by eapply extends_valid); try (by eapply extends_var_lt).
    by eapply extends_conj. }
  assert (forall s1 p c, extends s s1 -> valid_id (nodes s) c -> var_lt (nodes s) (var n) c ->
    valid_id (nodes s1) (NodeId.negate c p) /\ var_lt (nodes s1) (var n) (NodeId.negate c p)) as Hneg.
  { intros s1 p c H1 Hcv Hcl. rewrite valid_negate, var_lt_negate. split; [by eapply extends_valid|by eapply extends_var_lt]. }
  apply spec_bind. eapply spec_mono.
  { apply (edges_apply_spec okV okS ordered f Q Hmono s (var n)); [done..|].
    intros s1 l r H1 Hs1 (c&->&Hin)%in_negs (d&->&Hin')%in_negs. eapply spec_mono; [by apply Hf|].
    intros z s2 (H12&Hs2&Hq). split; [done|]. split; [done|]. assert (extends s s2) by (by etrans).
    split; [|split; [|done]]; apply Hneg; [done|by apply Hc|by apply Hc|done|by apply Hc'|by apply Hc']. }
  intros e2 s1 (H1&Hs1&He2&Hr&Hch). eapply spec_mono.
  { apply (create_node_decides okV okS ordered); [done..|]. eapply Forall_impl; [done|].
    intros z (l&r&[_ Hl]&[_ Hr']&Hq). split; [apply Hq|]. by apply Hq. }
  intros z s2 (H2&Hs2&Hz&Hlt&Hd). split_and!; [by etrans|done|]. assert (extends s s2) as H02 by (by etrans). split; [done| |].
  - intros a Ha. destruct (choose_some okV okS a _ _ (proj1 Ha) He) as (c&Hcn&_).
    destruct (choose_some okV okS a _ _ (proj1 Ha) He') as (d&Hcm&_).
    destruct (Hch a c d (proj1 Ha) Hcn Hcm) as (z'&Hz'&[Hl _]&[Hr' _]&Hq). rewrite (Hd a z') by (done || apply Ha).
    rewrite (eval_chosen okV okS ordered _ _ _ _ _ (wf_table _ _ _ _ Hs2) (proj1 Ha) (extends_shared _ _ _ _ H02 Hn) Hcn).
    rewrite Hv in Hcm. rewrite (eval_chosen okV okS ordered _ _ _ _ _ (wf_table _ _ _ _ Hs2) (proj1 Ha) (extends_shared _ _ _ _ H02 Hm) Hcm).
    rewrite !(extends_eval s1 s2) by done. by apply Hq.
  - intros w Hw _. apply Hlt. unfold var_lt in Hw. by rewrite (extends_shared _ _ _ _ H02 Hn) in Hw.
Qed.

(** ** The expansion *)

(** What [finish] may do with a node: replace it by one with the same value. *)
Definition finishes (finish : Node -> Node -> NodeId -> act Interner NodeId) : Prop := forall s x y node,
  wf s -> valid_id (nodes s) node ->
  spec (finish x y node) s (fun z s' =>
    extends s s' /\ wf s' /\ valid_id (nodes s') z /\
    (forall a, admissible a -> eval (nodes s') a z = eval (nodes s) a node) /\
    forall v, var_lt (nodes s) v node -> var_lt (nodes s') v z).

Lemma cache_insert_wf s x y z :
  wf s -> valid_id (nodes s) x -> valid_id (nodes s) y -> conj_of (nodes s) x y z ->
  wf (mkInterner (nodes s) (unique s) (<[(x, y) := z]> (cache s)) (known_exclusions s)).
Proof.
  intros [Ht Hu Hd Hc Hx] Hxv Hyv Hz. split; cbn; try done. intros x' y' z' Hl.
  apply lookup_insert_Some in Hl as [[E <-]|[_ Hl]]; [by injection E as <- <-|by apply Hc].
Qed.

Lemma conjoin_spec finish : finishes finish -> forall fuel s x y,
  wf s -> valid_id (nodes s) x -> valid_id (nodes s) y -> (position x + position y < fuel)%nat ->
  spec (conjoin finish fuel x y) s (fun z s' => extends s s' /\ wf s' /\ conj_of (nodes s') x y z).
Proof.
  intros Hfin. induction fuel as [|fuel IH]; intros s x y Hs Hx Hy Hlt; [lia|]. cbn [conjoin].
  unfold NodeId.is_true, NodeId.is_false.
  destruct (N.eqb_spec x NodeId.TRUE) as [->|Hx1]; [apply spec_ret; split_and!; [done..|by apply conj_true_l]|].
  destruct (N.eqb_spec y NodeId.TRUE) as [->|Hy1]; [apply spec_ret; split_and!; [done..|by apply conj_comm, conj_true_l]|].
  destruct (N.eqb_spec x y) as [<-|Hxy]; [apply spec_ret; split_and!; [done..|by apply conj_same]|].
  destruct ((x =? NodeId.FALSE) || (y =? NodeId.FALSE)) eqn:Ef.
  { apply spec_ret. split_and!; [done..|]. apply conj_false. intros a _.
    apply orb_prop in Ef as [E|E]; apply N.eqb_eq in E as ->; rewrite eval_false; [done|apply andb_false_r]. }
  destruct (N.eqb_spec (NodeId.not x) y) as [<-|Hn].
  { apply spec_ret. split_and!; [done..|]. apply conj_false. intros a _. rewrite eval_not. apply andb_negb_r. }
  apply orb_false_elim in Ef as [Hx0 Hy0]. apply N.eqb_neq in Hx0, Hy0.
  destruct (shared_node (nodes s) x) as [n|] eqn:En.
  2: { apply shared_node_none, terminal_position in En; [tauto|done]. }
  destruct (shared_node (nodes s) y) as [m|] eqn:Em.
  2: { apply shared_node_none, terminal_position in Em; [tauto|done]. }
  apply (spec_memo (fun s => cache s !! (x, y))).
  { intros z Hz. split_and!; [done..|]. by apply (wf_cache _ _ _ _ Hs). }
  intros _.
  apply spec_bind, (spec_intro _ _ _ n s); [unfold get_node; by rewrite En|].
  apply spec_bind, (spec_intro _ _ _ m s); [unfold get_node; by rewrite Em|].
  destruct (node_position _ _ _ (wf_table _ _ _ _ Hs) En) as [_ Hcn], (node_position _ _ _ (wf_table _ _ _ _ Hs) Em) as [_ Hcm].
  apply spec_bind. eapply spec_mono with (Q := fun z s' => extends s s' /\ wf s' /\ conj_of (nodes s') x y z).
  - destruct (cmp (var n) (var m)) eqn:Ec.
    + apply expand_both; [done..|by apply variable_cmp_eq|]. intros s1 c d H1 Hs1 Hc Hd.
      destruct (Hcn c Hc) as (Hcv&Hcp&_), (Hcm d Hd) as (Hdv&Hdp&_).
      apply IH; [done| | |rewrite !position_negate; lia]; apply valid_negate; by eapply extends_valid.
    + apply expand_left; [done..|unfold var_lt; by rewrite Em|]. intros s1 c H1 Hs1 Hc. destruct (Hcn c Hc) as (Hcv&Hcp&_).
      apply IH; [done| |by eapply extends_valid|rewrite !position_negate; lia]. apply valid_negate. by eapply extends_valid.
    + eapply spec_mono; [apply (expand_left s y x)|].
      1-4: done.
      * unfold MarkerWf.var_lt. rewrite En. intros _. by apply cmp_gt_lt.
      * intros s1 c H1 Hs1 Hc. destruct (Hcm c Hc) as (Hcv&Hcp&_).
        apply IH; [done| |by eapply extends_valid|rewrite !position_negate; lia]. apply valid_negate. by eapply extends_valid.
      * intros z s' (H1&H2&H3). split_and!; [done..|by apply conj_comm].
  - intros z s1 (H1&Hs1&Hz). apply spec_bind. eapply spec_mono; [by apply Hfin; [|apply Hz]|].
    intros z' s2 (H12&Hs2&Hz'&He&Hl). assert (extends s s2) as H02 by (by etrans).
    assert (conj_of (nodes s2) x y z') as Hconj.
    { assert (conj_of (nodes s2) x y z) as Hz2 by (eapply extends_conj; [exact H12|by eapply extends_valid..|done]).
      split; [done| |].
      - intros a Ha. rewrite He by done. rewrite <- (extends_eval s1 s2) by (done || apply Hz). by apply Hz2.
      - intros v Hvx Hvy. apply Hl. rewrite <- extends_var_lt by (done || apply Hz). by apply Hz2. }
    apply spec_bind. unfold spec at 1, cache_insert. cbn. split_and!; [done| |done].
    apply cache_insert_wf; [done|by eapply extends_valid..|done].
Qed.

Lemma fuel_for_enough x y : (position x + position y < fuel_for x y)%nat.
Proof. unfold fuel_for. pose proof (position_lt_fuel x). pose proof (position_lt_fuel y). lia. Qed.
End conj.
