(* ===== verification/MarkerExpr.v ===== *)
(** * The decision nodes of expressions

    [Edges::from_range] sorts the segments of a range and of its complement; its
    edges partition the values and lead to [true] exactly on the range. From this
    the value of the node of every expression follows. *)

From Stdlib Require Import Sorted.
From stdpp Require Import base numbers list strings sorting gmap.
From S2P Require Import Prelude VersionTypes VersionSmall Version VersionFacts VersionParser VersionOps Specifier SpecifierFacts Ranges RangesFacts RangesTheorems Names Text RangeSet Tiling MarkerTypes MarkerAlgebra MarkerEval MarkerWf MarkerEdges.

(** ** Sorting *)

Section sort.
Context {A : Type} (compare : A -> A -> option comparison).

(** [x] goes before [y]. *)
Definition precedes (x y : A) : Prop := compare y x = Some Gt /\ (compare x y = Some Lt \/ compare x y = Some Eq).

Lemma insert_by_middle x w1 w2 : (forall y, y ∈ w1 -> precedes y x) -> (forall y, y ∈ w2 -> precedes x y) ->
  insert_by compare x (w1 ++ w2) = Some (w1 ++ x :: w2).
Proof.
  intros H1 H2. induction w1 as [|y w1 IH]; cbn.
  - destruct w2 as [|y w2]; [done|]. cbn. destruct (H2 y) as [_ [-> | ->]]; [left|done|done].
  - destruct (H1 y) as [-> _]; [left|]. cbn. rewrite IH; [done|]. intros z Hz. apply H1. by right.
Qed.

(** Sorting a permutation of a strictly sorted list gives the list. *)
Lemma sort_by_strict l : forall w, StronglySorted precedes w -> l ≡ₚ w -> sort_by compare l = Some w.
Proof.
  induction l as [|x l IH]; intros w Hw Hp; cbn; [by apply Permutation_nil_l in Hp as <-|].
  apply Permutation_cons_inv_l in Hp as (w1&w2&->&Hp). apply StronglySorted_app in Hw as (H12&H1&H2).
  apply StronglySorted_inv in H2 as [H2 Hx]. rewrite Forall_forall in Hx.
  rewrite (IH (w1 ++ w2)); [|apply StronglySorted_app_2; [|done|done]|done].
  - cbn. apply insert_by_middle; [|done]. intros y Hy. apply H12; [done|left].
  - intros y z Hy Hz. apply H12; [done|by right].
Qed.
End sort.

(** ** The edges of a range *)

Section from_range.
Context {T R : Type} {OT : Ord T} {SR : RangeSet T R} (valid : T -> Prop) (ok : R -> Prop) {KT : OrdKey T valid} {L : RangeSetLaws T R valid ok}.
Abbreviation count x l := (count_if (fun e => rs_contains (fst e) x) l).

Lemma pick_app x (l k : list (R * NodeId)) :
  pick x (l ++ k) = match pick x l with Some c => Some c | None => pick x k end.
Proof. induction l as [|[r c] l IH]; cbn; [done|]. by destruct (rs_contains r x). Qed.

Lemma pick_const x c (l : list (bound T * bound T)) :
  count_if (segment_contains x) l <> O -> pick x (map (fun s => (rs_from_range_bounds s, c)) l) = Some c.
Proof.
  induction l as [|s l IH]; cbn; [done|]. rewrite rs_contains_from_range_bounds. case_match; [done|]. intros Hne. by apply IH.
Qed.

Lemma count_const x (c : NodeId) (l : list (bound T * bound T)) :
  count x (map (fun s => (rs_from_range_bounds s, c)) l) = count_if (segment_contains x) l.
Proof. rewrite count_if_map. apply count_if_ext. intros s _. apply rs_contains_from_range_bounds. Qed.

Lemma range_edges_count r x : ok r -> valid x -> count x (range_edges r) = 1%nat.
Proof.
  intros Hr Hx. unfold range_edges. rewrite count_if_app, !count_const.
  rewrite !rs_iter_count by (done || by apply rs_ok_complement). rewrite rs_contains_complement. by destruct (rs_contains r x).
Qed.

Lemma range_edges_pick r x : ok r -> valid x ->
  pick x (range_edges r) = Some (if rs_contains r x then NodeId.TRUE else NodeId.FALSE).
Proof.
  intros Hr Hx. unfold range_edges. rewrite pick_app. pose proof (rs_iter_count r x Hr Hx) as H1.
  pose proof (rs_iter_count (rs_complement r) x (rs_ok_complement r Hr) Hx) as H2. rewrite rs_contains_complement in H2.
  destruct (rs_contains r x) eqn:E.
  - rewrite pick_const; [done|lia].
  - rewrite pick_none; [|rewrite count_const; lia]. apply pick_const. cbn in H2. lia.
Qed.

(** ** The sorted edges *)

Definition sorted_edges (r : R) : list (R * NodeId) := map range_of (weave NodeId.TRUE NodeId.FALSE B_Unbounded (rs_iter r)).

Lemma sorted_edges_perm r : ok r -> range_edges r ≡ₚ sorted_edges r.
Proof.
  intros Hr. unfold sorted_edges. rewrite <- (weave_perm_all NodeId.TRUE NodeId.FALSE _ (rs_iter_ascending r Hr)).
  unfold range_edges. rewrite rs_iter_complement, map_app, !map_map by done. done.
Qed.

Lemma sorted_edges_tiles r : ok r -> tiles valid (sorted_edges r).
Proof. intros Hr. apply (weave_tiles valid ok); [by apply rs_iter_ascending|by apply rs_iter_valid]. Qed.

Lemma compare_starts e e' s s' : ok e.1 -> ok e'.1 -> rs_iter (R := R) (e : R * NodeId).1 = [s] -> rs_iter (e' : R * NodeId).1 = [s'] ->
  segment_valid valid s -> segment_valid valid s' -> cmp (lower_at valid (fst s)) (lower_at valid (fst s')) = Lt ->
  precedes (fun e1 e2 => compare_disjoint_range_start (fst e1) (fst e2)) e e'.
Proof.
  intros He He' Es Es' [Hs _] [Hs' _] Hlt. unfold precedes, compare_disjoint_range_start. rewrite !rs_bounding_iter, Es, Es' by done.
  destruct s as [a b], s' as [a' b']. cbn [bounding last mbind option_bind fst snd] in *. unfold lower_at, place_key in Hlt.
  destruct a as [x|x|], a' as [y|y|]; cbn [lower_place fst snd map bound_valid] in *; try done; try (split; [done|by left]);
    rewrite single_cmp, prod_cmp in Hlt; unfold cmp_eqb; rewrite (key_cmp x y), (key_cmp y x), (cmp_opp (key x) (key y)) by done;
    destruct (cmp (key x) (key y)); cbn in *; try done; (split; [done|]); auto.
Qed.

Lemma range_edges_ok r : ok r -> Forall (fun e => ok e.1 /\ (e.2 = NodeId.TRUE \/ e.2 = NodeId.FALSE)) (range_edges r).
Proof.
  intros Hr. unfold range_edges. pose proof (rs_iter_valid r Hr) as H1. pose proof (rs_iter_valid _ (rs_ok_complement r Hr)) as H2.
  apply Forall_app. split; apply Forall_fmap; (eapply Forall_impl; [eassumption|]); intros s Hs; cbn; split; auto; by apply rs_ok_from_range_bounds.
Qed.

Lemma from_range_sorted r : ok r -> from_range r = Some (sorted_edges r).
Proof.
  intros Hr. apply sort_by_strict; [|by apply sorted_edges_perm]. pose proof (range_edges_ok r Hr) as Hok. rewrite sorted_edges_perm in Hok by done.
  pose proof (tiled_sorted valid _ _ _ (sorted_edges_tiles r Hr)) as Hs. induction Hs as [|e l _ IH Hf]; [constructor|].
  apply Forall_cons in Hok as [[He _] Hok]. constructor; [by apply IH|]. rewrite Forall_forall in *. intros e' He'.
  destruct (Hf e' He') as (s&s'&Es&Es'&Hs&Hs'&_&Hlt). eapply compare_starts; try done. by apply Hok.
Qed.

(** [from_range] does not panic; its edges partition the values. *)
Lemma from_range_spec r : ok r ->
  exists l, from_range r = Some l /\ partition valid ok l /\
    Forall (fun c => c = NodeId.TRUE \/ c = NodeId.FALSE) l.*2 /\
    forall x, valid x -> pick x l = Some (if rs_contains r x then NodeId.TRUE else NodeId.FALSE).
Proof.
  intros Hr. exists (sorted_edges r). pose proof (range_edges_ok r Hr) as Hok. pose proof (sorted_edges_perm r Hr) as Hp. rewrite Hp in Hok.
  split; [by apply from_range_sorted|]. split; [split; [|by apply sorted_edges_tiles]|split].
  - eapply Forall_impl; [exact Hok|]. by intros e [].
  - apply Forall_fmap. eapply Forall_impl; [exact Hok|]. by intros e [].
  - intros x Hx. rewrite <- (pick_perm x _ _ Hp) by (by apply range_edges_count). by apply range_edges_pick.
Qed.
End from_range.

Section expressions.
Context {RV RS : Type} {SV : RangeSet Version RV} {SS : RangeSet text RS}.
Context (okV : RV -> Prop) (okS : RS -> Prop) (ordered : bool).
Context {LV : RangeSetLaws Version RV version_wf okV} {LS : RangeSetLaws text RS (fun _ => True) okS}.
Abbreviation Edges := (@Edges RV RS).
Abbreviation Node := (@Node RV RS).
Abbreviation Interner := (@Interner RV RS).
Abbreviation wf := (interner_wf okV okS ordered).
Abbreviation conj_of := (MarkerWf.conj_of ordered).
Abbreviation var_lt := (MarkerWf.var_lt ordered).
Abbreviation children_ok := (MarkerWf.children_ok ordered).

(** [m] does not panic, keeps the invariant, and returns a node with the value [f]. *)
Definition yields (P : assignment -> Prop) (m : act Interner NodeId) (s : Interner) (f : assignment -> bool) : Prop :=
  spec m s (fun z s' => extends s s' /\ wf s' /\ valid_id (nodes s') z /\ forall a, P a -> eval (nodes s') a z = f a).

Lemma yields_weaken (P P' : assignment -> Prop) m s f g :
  yields P m s f -> (forall a, P' a -> P a) -> (forall a, P' a -> f a = g a) -> yields P' m s g.
Proof.
  intros H HP Hfg. eapply spec_mono; [exact H|]. intros z s' (Hx&Hs&Hv&He). split_and!; [done..|].
  intros a Ha. rewrite He by auto. auto.
Qed.

Lemma yields_const P s b : wf s -> yields P (mret (if b : bool then NodeId.TRUE else NodeId.FALSE)) s (fun _ => b).
Proof.
  intros Hs. apply spec_ret. split_and!; [done|done|by apply terminal_valid; destruct b|].
  intros a _. destruct b; [apply eval_true|apply eval_false].
Qed.

Lemma terminals_ok (ns : list Node) v (e : Edges) :
  Forall (fun c => c = NodeId.TRUE \/ c = NodeId.FALSE) (edges_nodes e) -> children_ok ns v e.
Proof.
  intros H. eapply Forall_impl; [done|]. intros c Hc. apply terminal_position in Hc.
  split; [by apply terminal_valid|by apply terminal_var_lt].
Qed.

(** A node over terminals has the value its edges choose. *)
Lemma create_terminals s v e f :
  wf s -> edges_ok okV okS v e -> Forall (fun c => c = NodeId.TRUE \/ c = NodeId.FALSE) (edges_nodes e) ->
  (forall a, assignment_wf a -> choose a v e = Some (if f a : bool then NodeId.TRUE else NodeId.FALSE)) ->
  yields assignment_wf (create_node v e) s f.
Proof.
  intros Hs He Ht Hf. eapply spec_mono.
  - apply (create_node_decides okV okS ordered); [done..|by apply terminals_ok].
  - intros z s' (Hx&Hs'&Hv&_&Hd). split_and!; [done..|]. intros a Ha. rewrite (Hd a _ Ha (Hf a Ha)).
    destruct (f a); [apply eval_true|apply eval_false].
Qed.

Lemma create_string_range s k r l : wf s -> okS r -> from_range r = Some l ->
  yields assignment_wf (create_node (V_String k) (E_String l)) s (fun a => rs_contains r (a_string a k)).
Proof.
  intros Hs Hr El. destruct (from_range_spec (fun _ => True) okS r Hr) as (l'&E&Hp&Ht&Hk). rewrite El in E. injection E as <-.
  apply create_terminals; [done..|]. intros a Ha. cbn. by apply Hk.
Qed.

Lemma create_version_range s k r l : wf s -> okV r -> from_range r = Some l ->
  yields assignment_wf (create_node (V_Version k) (E_Version l)) s (fun a => rs_contains r (a_version a k)).
Proof.
  intros Hs Hr El. destruct (from_range_spec version_wf okV r Hr) as (l'&E&Hp&Ht&Hk). rewrite El in E. injection E as <-.
  apply create_terminals; [done..|]. intros a Ha. cbn. apply Hk, Ha.
Qed.

Lemma create_boolean s v b : wf s -> is_boolean v = true ->
  yields assignment_wf (create_node v (from_bool b)) s (fun a => eqb (a_bool a v) b).
Proof.
  intros Hs Hv. apply create_terminals; [done|by destruct v, b|destruct b; cbn; repeat constructor; tauto|].
  intros a Ha. by destruct v, b; cbn; destruct (a_bool a _).
Qed.

(** ** Strings, lists and extras *)

(** The comparisons of [from_string]. *)
Definition string_test (op : MarkerOperator) (l r : text) : option bool :=
  match op with
  | MO_Equal => Some (cmp_eqb l r)
  | MO_NotEqual => Some (negb (cmp_eqb l r))
  | MO_GreaterThan => Some (cmp_gtb l r)
  | MO_GreaterEqual => Some (cmp_geb l r)
  | MO_LessThan => Some (cmp_ltb l r)
  | MO_LessEqual => Some (cmp_leb l r)
  | _ => None
  end.

(** The value of an expression that is not about versions; [None] is [~=] on a string. *)
Definition plain_value (e : MarkerExpression) (a : assignment) : option bool :=
  match e with
  | ME_String key MO_In value => Some (a_bool a (V_In (canonical_string key) value))
  | ME_String key MO_NotIn value => Some (negb (a_bool a (V_In (canonical_string key) value)))
  | ME_String key MO_Contains value => Some (a_bool a (V_Contains (canonical_string key) value))
  | ME_String key MO_NotContains value => Some (negb (a_bool a (V_Contains (canonical_string key) value)))
  | ME_String key op value =>
      let '(k, v) := normalize_platform key value in string_test op (a_string a k) v
  | ME_List lp CO_In => Some (a_bool a (V_List lp))
  | ME_List lp CO_NotIn => Some (negb (a_bool a (V_List lp)))
  | ME_Extra (MVE_Extra extra) EO_Equal => Some (a_bool a (V_Extra extra))
  | ME_Extra (MVE_Extra extra) EO_NotEqual => Some (negb (a_bool a (V_Extra extra)))
  | ME_Extra (MVE_Arbitrary _) _ => Some false
  | ME_Version _ _ | ME_VersionIn _ _ _ => None
  end.

Lemma string_range s k op v f : wf s -> (forall a, string_test op (a_string a k) v = Some (f a)) ->
  exists e, from_string op v = Some e /\ yields assignment_wf (create_node (V_String k) e) s f.
Proof.
  intros Hs Hf. assert (exists r, okS r /\ from_string op v = (l ← from_range r; Some (E_String l : Edges)) /\
    forall a, rs_contains r (a_string a k) = f a) as (r&Hr&E&Hrf).
  { assert (forall a, string_test op (a_string a k) v = Some (f a)) as Hf' by done.
    destruct op; cbn in Hf; try (by specialize (Hf {| a_string := fun _ => []; a_version := fun _ => Small VersionSmall.new; a_bool := fun _ => true |}));
      (eexists; split; [|split; [reflexivity|]]);
      [by apply rs_ok_singleton| |by apply rs_ok_complement, rs_ok_singleton| |by apply rs_ok_strictly_higher_than|
      |by apply rs_ok_higher_than| |by apply rs_ok_strictly_lower_than| |by apply rs_ok_lower_than|];
      intros a; specialize (Hf a); injection Hf as <-;
      rewrite ?rs_contains_complement, ?rs_contains_singleton, ?rs_contains_strictly_higher_than, ?rs_contains_higher_than,
        ?rs_contains_strictly_lower_than, ?rs_contains_lower_than; done. }
  destruct (from_range_spec (fun _ => True) okS r Hr) as (l&El&_). exists (E_String l). rewrite E, El. split; [done|].
  eapply yields_weaken; [by apply create_string_range|done|]. intros a _. apply Hrf.
Qed.

Lemma expression_plain s e f : wf s -> (forall a, plain_value e a = Some (f a)) -> yields assignment_wf (expression e) s f.
Proof.
  intros Hs Hf. unfold expression, yields. apply spec_bind.
  assert (forall v b, is_boolean v = true -> (forall a, eqb (a_bool a v) b = f a) ->
    yields assignment_wf (create_node v (from_bool b)) s f) as Hb.
  { intros v b Hv Hfa. eapply yields_weaken; [by apply create_boolean|done|]. intros a _. apply Hfa. }
  assert (forall x b c, Some (if b : bool then x else negb x) = Some c -> eqb x b = c) as Hx by (by intros [] [] [] [=]).
  pose proof (fun a => Hf a) as Hf'.
  destruct e as [k sp|k vs op|k op v|lp op|[ex|ar] op]; cbn in Hf.
  1,2: by specialize (Hf {| a_string := fun _ => []; a_version := fun _ => Small VersionSmall.new; a_bool := fun _ => true |}).
  2: destruct op; [apply (Hb (V_List lp) true)|apply (Hb (V_List lp) false)]; (done || (intros a; apply Hx, Hf)).
  2: destruct op; [apply (Hb (V_Extra ex) true)|apply (Hb (V_Extra ex) false)]; (done || (intros a; apply Hx, Hf)).
  2: { eapply yields_weaken; [by apply (yields_const assignment_wf s false)|done|]. intros a _. specialize (Hf a). by destruct op; injection Hf. }
  destruct op.
  8: apply (Hb (V_In _ _) true); [done|intros a; apply Hx, Hf].
  8: apply (Hb (V_In _ _) false); [done|intros a; apply Hx, Hf].
  8: apply (Hb (V_Contains _ _) true); [done|intros a; apply Hx, Hf].
  8: apply (Hb (V_Contains _ _) false); [done|intros a; apply Hx, Hf].
  all: cbn [expression_node]; destruct (normalize_platform k v) as [k' v'] eqn:En;
    destruct (string_range s k' _ v' f Hs Hf) as (e&E&Hy); rewrite E; exact Hy.
Qed.
End expressions.
