(* ===== verification/MarkerOps.v ===== *)
(** * The operations on markers are Boolean operations

    [and], [or], [is_disjoint] and [restrict] of the interner, with the exclusions
    they compute: they never panic, they keep the invariant, and on every
    environment that can exist their results have the value of the operation. *)

From stdpp Require Import base numbers list strings gmap.
From S2P Require Import Prelude VersionTypes VersionSmall Version VersionFacts VersionParser Specifier Ranges Names Text RangeSet Tiling MarkerTypes MarkerAlgebra MarkerEval MarkerWf MarkerEdges MarkerExpr.

Lemma text_eqb (l r : text) : cmp_eqb l r = bool_decide (l = r).
Proof.
  unfold cmp_eqb. destruct (cmp l r) eqn:E; symmetry.
  - apply list_cmp_N_eq in E as ->. by apply bool_decide_eq_true.
  - apply bool_decide_eq_false. intros ->. by rewrite cmp_refl in E.
  - apply bool_decide_eq_false. intros ->. by rewrite cmp_refl in E.
Qed.

Lemma admissible_pair a p q :
  admissible a -> bool_decide ((p, q) ∈ incompatible_platforms) = true -> has a p && has a q = false.
Proof.
  intros [_ Ha] Hin%bool_decide_eq_true. rewrite forallb_forall in Ha.
  specialize (Ha (p, q) (proj1 (list_elem_of_In _ _) Hin)). cbn in Ha. by destruct (has a p && has a q).
Qed.

Section ops.
Context {RV RS : Type} {SV : RangeSet Version RV} {SS : RangeSet text RS}.
Context (okV : RV -> Prop) (okS : RS -> Prop) (ordered : bool).
Context {LV : RangeSetLaws Version RV version_wf okV} {LS : RangeSetLaws text RS (fun _ => True) okS}.
Abbreviation Edges := (@Edges RV RS).
Abbreviation Node := (@Node RV RS).
Abbreviation Interner := (@Interner RV RS).
Abbreviation wf := (interner_wf okV okS ordered).
Abbreviation conj_of := (MarkerWf.conj_of ordered).
Abbreviation var_lt := (MarkerWf.var_lt ordered).
Abbreviation children_ok := (MarkerWf.children_ok ordered).
Abbreviation yields := (yields okV okS ordered).

Lemma Interner_default_wf : wf Interner_default.
Proof. by split. Qed.

(** ** Conjunction without exclusions *)

Lemma conjunction_spec s x y : wf s -> valid_id (nodes s) x -> valid_id (nodes s) y ->
  spec (conjunction x y) s (fun z s' => extends s s' /\ wf s' /\ conj_of (nodes s') x y z).
Proof.
  intros Hs Hx Hy. apply (conjoin_spec okV okS ordered); [|done..|apply fuel_for_enough].
  intros s1 n m z Hs1 Hz. apply spec_ret. by split_and!.
Qed.

Lemma disjunction_spec s x y : wf s -> valid_id (nodes s) x -> valid_id (nodes s) y ->
  spec (disjunction x y) s (fun z s' => extends s s' /\ wf s' /\ valid_id (nodes s') z /\
    forall a, admissible a -> eval (nodes s') a z = eval (nodes s) a x || eval (nodes s) a y).
Proof.
  intros Hs Hx Hy. apply spec_bind. eapply spec_mono; [apply conjunction_spec; [done|by apply valid_not..]|].
  intros z s' (H1&Hs'&Hz). apply spec_ret. split_and!; [done..|apply valid_not, Hz|]. intros a Ha.
  rewrite eval_not, (conj_eval _ _ _ _ _ Hz a Ha), !eval_not. rewrite !(extends_eval s s') by done.
  by destruct (eval _ a x), (eval _ a y).
Qed.

(** ** The known exclusions *)

Definition pair_excluded (s : Interner) (p : NodeId * NodeId) : Prop :=
  valid_id (nodes s) p.1 /\ valid_id (nodes s) p.2 /\
  forall a, admissible a -> eval (nodes s) a p.1 && eval (nodes s) a p.2 = false.

Lemma pair_excluded_extends s s' p : extends s s' -> pair_excluded s p -> pair_excluded s' p.
Proof.
  intros Hx (H1&H2&H3). split_and!; [by eapply extends_valid..|]. intros a Ha. rewrite !(extends_eval s s') by done. auto.
Qed.

Lemma exclude_pairs_spec l : forall s tree, wf s -> Forall (pair_excluded s) l -> valid_id (nodes s) tree ->
  (forall a, admissible a -> eval (nodes s) a tree = false) ->
  spec (exclude_pairs l tree) s (fun z s' => extends s s' /\ wf s' /\ valid_id (nodes s') z /\
    forall a, admissible a -> eval (nodes s') a z = false).
Proof.
  induction l as [|[i j] l IH]; intros s tree Hs Hl Ht He; cbn [exclude_pairs]; [by apply spec_ret|].
  apply Forall_cons in Hl as [(Hi&Hj&Hij) Hl]. cbn in Hi, Hj, Hij.
  apply spec_bind. eapply spec_mono; [by apply conjunction_spec|]. intros z s1 (H1&Hs1&Hz).
  apply spec_bind. eapply spec_mono; [apply disjunction_spec; [done|by eapply extends_valid|apply Hz]|].
  intros z' s2 (H12&Hs2&Hz'&He'). assert (extends s s2) as H02 by (by etrans). eapply spec_mono.
  - apply IH; [done| |done|].
    + eapply Forall_impl; [done|]. intros p Hp. by eapply pair_excluded_extends.
    + intros a Ha. rewrite He', (conj_eval _ _ _ _ _ Hz) by done. rewrite !(extends_eval s s1) by done. by rewrite He, Hij.
  - intros z3 s3 (H23&Hs3&Hz3). split; [by etrans|done].
Qed.

(** The node of an equality of a string. *)
Definition equals_node (s : Interner) (e : MarkerExpression) (i : NodeId) : Prop :=
  valid_id (nodes s) i /\ forall a, assignment_wf a -> plain_value e a = Some (eval (nodes s) a i).

Lemma create_all_spec l : Forall (fun e => exists k v, e = string_equals k v) l -> forall s, wf s ->
  spec (create_all l) s (fun ids s' => extends s s' /\ wf s' /\ Forall2 (equals_node s') l ids).
Proof.
  induction 1 as [|e l (k&v&->) _ IH]; intros s Hs; cbn [create_all]; [by apply spec_ret|].
  destruct (normalize_platform k (bs v)) as [k' v'] eqn:En. apply spec_bind. eapply spec_mono.
  { apply (expression_plain okV okS ordered s (string_equals k v) (fun a => cmp_eqb (a_string a k') v')); [done|].
    intros a. cbn. by rewrite En. }
  intros i s1 (H1&Hs1&Hi&He). apply spec_bind. eapply spec_mono; [by apply IH|]. intros ids s2 (H12&Hs2&Hids).
  apply spec_ret. split_and!; [by etrans|done|]. constructor; [|done]. split; [by eapply extends_valid|].
  intros a Ha. rewrite (extends_eval s1 s2), He by done. cbn. by rewrite En.
Qed.

Lemma equals_pair s k v k' v' p q i j :
  equals_node s (string_equals k v) i -> equals_node s (string_equals k' v') j ->
  normalize_platform k (bs v) = (p.1, bs p.2) -> normalize_platform k' (bs v') = (q.1, bs q.2) ->
  bool_decide ((p, q) ∈ incompatible_platforms) = true -> pair_excluded s (i, j).
Proof.
  intros [Hi Ei] [Hj Ej] Hp Hq Hin. split_and!; [done..|]. intros a Ha. cbn.
  specialize (Ei a (proj1 Ha)). specialize (Ej a (proj1 Ha)). cbn in Ei, Ej. rewrite Hp in Ei. rewrite Hq in Ej.
  injection Ei as <-. injection Ej as <-. rewrite !text_eqb. by apply (admissible_pair a p q).
Qed.

Lemma Forall_unless {A} (P : A -> Prop) (b : bool) x : (b = false -> P x) -> Forall P (if b then [] else [x]).
Proof. destruct b; [done|]. intros H. constructor; [auto|done]. Qed.

Lemma exclusion_pairs_spec s ids : Forall2 (equals_node s) exclusion_expressions ids ->
  exists pairs, exclusion_pairs ids = Some pairs /\ Forall (pair_excluded s) pairs.
Proof.
  unfold exclusion_expressions. intros H. repeat (apply Forall2_cons_inv_l in H as (?&?&?&H&->)).
  apply Forall2_nil_inv_l in H as ->. eexists. split; [reflexivity|]. cbn [map concat app].
  repeat apply Forall_cons_2; repeat apply Forall_app_2; try apply Forall_nil_2; try (apply Forall_unless; intros Hf).
  all: lazymatch goal with
    | H1 : equals_node ?t (string_equals ?k ?v) ?i, H2 : equals_node ?t (string_equals ?k' ?v') ?j |- pair_excluded ?t (?i, ?j) =>
        first [ refine (equals_pair t k v k' v' (canonical_string k, v) (canonical_string k', v') i j H1 H2 eq_refl eq_refl _);
                vm_compute; reflexivity
              | exfalso; revert Hf; rewrite !N.eqb_refl, ?orb_true_r; discriminate ]
    end.
Qed.

Lemma exclusion_expressions_equals : Forall (fun e => exists k v, e = string_equals k v) exclusion_expressions.
Proof. unfold exclusion_expressions. repeat (apply Forall_cons_2; [by do 2 eexists|]). apply Forall_nil_2. Qed.

Lemma exclusions_spec s : wf s ->
  spec exclusions s (fun e s' => extends s s' /\ wf s' /\ valid_id (nodes s') e /\
    forall a, admissible a -> eval (nodes s') a e = false).
Proof.
  intros Hs. apply (spec_memo known_exclusions).
  { intros e He. by destruct (wf_exclusions _ _ _ _ Hs e He). }
  intros _. apply spec_bind. eapply spec_mono; [apply create_all_spec; [apply exclusion_expressions_equals|done]|].
  intros ids s1 (H1&Hs1&Hids). destruct (exclusion_pairs_spec s1 ids Hids) as (pairs&Ep&Hp).
  apply spec_bind, (spec_intro _ _ _ pairs s1); [unfold mlift; by rewrite Ep|].
  apply spec_bind. eapply spec_mono; [apply exclude_pairs_spec; [done|done|by apply terminal_valid|]|].
  { intros a _. apply eval_false. }
  intros e s2 (H12&Hs2&He&Hf). apply spec_bind. unfold spec at 1, set_exclusions. apply spec_ret.
  split_and!; [|split|done..]; cbn.
  - change (extends s s2). by etrans.
  - apply Hs2.
  - apply Hs2.
  - apply Hs2.
  - apply Hs2.
  - intros e' [= <-]. done.
Qed.

(** ** Disjointness *)

Definition disjoint_in (ns : list Node) (x y : NodeId) : Prop :=
  forall a, assignment_wf a -> eval ns a x && eval ns a y = false.

Lemma try_forallb_spec {A} (f : A -> option bool) (P : A -> Prop) l :
  (forall x, x ∈ l -> exists b, f x = Some b /\ (b = true -> P x)) ->
  exists b, try_forallb f l = Some b /\ (b = true -> Forall P l).
Proof.
  induction l as [|x l IH]; intros H; cbn; [by exists true|].
  destruct (H x) as ([]&->&Hx); [left| |by exists false]. cbn. destruct IH as (b&->&Hb); [intros y Hy; apply H; by right|].
  exists b. split; [done|]. intros ->. constructor; auto.
Qed.

Lemma is_disjoint_ranges_spec {T R} {OT : Ord T} {SR : RangeSet T R} (valid : T -> Prop) ok {L : RangeSetLaws T R valid ok}
    f (P : NodeId -> NodeId -> Prop) (l k : list (R * NodeId)) p q :
  Forall (fun e => ok e.1) l -> Forall (fun e => ok e.1) k ->
  (forall c d, c ∈ l.*2 -> d ∈ k.*2 ->
     exists b, f (NodeId.negate c p) (NodeId.negate d q) = Some b /\ (b = true -> P c d)) ->
  exists b, is_disjoint_ranges f l p k q = Some b /\
    (b = true -> forall x c d, valid x -> pick x l = Some c -> pick x k = Some d -> P c d).
Proof.
  intros Hl Hk Hf. unfold is_disjoint_ranges.
  edestruct (try_forallb_spec (fun e => try_forallb (fun r => if rs_is_disjoint r.1 e.1 then Some true
      else f (NodeId.negate e.2 p) (NodeId.negate r.2 q)) k)
    (fun e => Forall (fun r => forall x, valid x -> rs_contains e.1 x = true -> rs_contains r.1 x = true -> P e.2 r.2) k) l)
    as (b&->&Hb).
  - intros e He. apply try_forallb_spec. intros r Hr. rewrite Forall_forall in Hl, Hk. case_match eqn:Ed.
    + exists true. split; [done|]. intros _ x Hx He' Hr'.
      pose proof (rs_disjoint_none r.1 e.1 x (Hk _ Hr) (Hl _ He) Hx Ed) as E0. by rewrite He', Hr' in E0.
    + destruct (Hf e.2 r.2) as (b&Eb&Hb); [by apply list_elem_of_fmap_2..|]. exists b. split; [done|]. auto.
  - exists b. split; [done|]. intros Ht x c d Hx (r&Hr&Hrx)%pick_elem (r'&Hr'&Hrx')%pick_elem. specialize (Hb Ht).
    rewrite Forall_forall in Hb. specialize (Hb _ Hr). rewrite Forall_forall in Hb. by apply (Hb _ Hr' x).
Qed.

(** The children that an assignment chooses are disjoint. *)
Lemma edges_is_disjoint_spec f (P : NodeId -> NodeId -> Prop) v e e' p q :
  edges_ok okV okS v e -> edges_ok okV okS v e' ->
  (forall c d, c ∈ edges_nodes e -> d ∈ edges_nodes e' ->
     exists b, f (NodeId.negate c p) (NodeId.negate d q) = Some b /\ (b = true -> P c d)) ->
  exists b, edges_is_disjoint f e p e' q = Some b /\
    (b = true -> forall a c d, assignment_wf a -> choose a v e = Some c -> choose a v e' = Some d -> P c d).
Proof.
  intros He He' Hf. destruct v, e as [l|l|h lo], e' as [k|k|h' lo']; try done; cbn in He, He', Hf |- *.
  1: { destruct (is_disjoint_ranges_spec (fun _ => True) okS f P l k p q) as (b&->&Hb); [apply He|apply He'|done|].
       exists b. split; [done|]. intros Ht a c d _. by apply Hb. }
  1: { destruct (is_disjoint_ranges_spec version_wf okV f P l k p q) as (b&->&Hb); [apply He|apply He'|done|].
       exists b. split; [done|]. intros Ht a c d Ha. apply Hb; [done|apply Ha]. }
  all: destruct (Hf h h') as ([]&->&Hb); [left|left|cbn|by exists false];
    destruct (Hf lo lo') as (b'&->&Hb'); [right; left|right; left|];
    exists b'; (split; [done|]); intros Ht a c d _; destruct (a_bool a _); intros [= <-] [= <-]; auto.
Qed.

Lemma disjointness_spec ns : table_ok okV okS ordered ns -> forall fuel x y,
  valid_id ns x -> valid_id ns y -> (position x + position y < fuel)%nat ->
  exists b, disjointness_loop fuel ns x y = Some b /\ (b = true -> disjoint_in ns x y).
Proof.
  intros Ht. induction fuel as [|fuel IH]; intros x y Hx Hy Hlt; [lia|]. cbn [disjointness_loop].
  unfold NodeId.is_true, NodeId.is_false. destruct ((x =? NodeId.FALSE) || (y =? NodeId.FALSE)) eqn:Ef.
  { exists true. split; [done|]. intros _ a _. apply orb_prop in Ef as [E|E]; apply N.eqb_eq in E as ->; rewrite eval_false; [done|apply andb_false_r]. }
  destruct ((x =? NodeId.TRUE) || (y =? NodeId.TRUE)) eqn:Et; [by exists false|].
  destruct (x =? y); [by exists false|]. destruct (N.eqb_spec (NodeId.not x) y) as [<-|Hn].
  { exists true. split; [done|]. intros _ a _. rewrite eval_not. apply andb_negb_r. }
  apply orb_false_elim in Ef as [Hx0 Hy0], Et as [Hx1 Hy1]. apply N.eqb_neq in Hx0, Hy0, Hx1, Hy1.
  destruct (shared_node ns x) as [n|] eqn:En; [|apply shared_node_none, terminal_position in En; [tauto|done]].
  destruct (shared_node ns y) as [m|] eqn:Em; [|apply shared_node_none, terminal_position in Em; [tauto|done]].
  destruct (node_position okV okS ordered _ _ _ Ht En) as [He Hc], (node_position okV okS ordered _ _ _ Ht Em) as [He' Hc']. cbn.
  destruct (cmp (var n) (var m)) eqn:Ec.
  - apply variable_cmp_eq in Ec. rewrite <- Ec in He'.
    destruct (edges_is_disjoint_spec (disjointness_loop fuel ns)
      (fun c d => disjoint_in ns (NodeId.negate c x) (NodeId.negate d y)) (var n) _ _ x y He He') as (b&->&Hb).
    + intros c d Hcn Hdm. destruct (Hc c Hcn) as (?&?&_), (Hc' d Hdm) as (?&?&_).
      apply IH; [by apply valid_negate..|rewrite !position_negate; lia].
    + exists b. split; [done|]. intros Hb' a Ha. destruct (choose_some okV okS a _ _ Ha He) as (c&Hcn&_).
      destruct (choose_some okV okS a _ _ Ha He') as (d&Hdm&_).
      rewrite (eval_chosen okV okS ordered _ _ _ _ _ Ht Ha En Hcn).
      pose proof Hdm as Hdm'. rewrite Ec in Hdm'. rewrite (eval_chosen okV okS ordered _ _ _ _ _ Ht Ha Em Hdm'). by apply (Hb Hb' a c d).
  - destruct (try_forallb_spec (fun c => disjointness_loop fuel ns (NodeId.negate c x) y)
      (fun c => disjoint_in ns (NodeId.negate c x) y) (edges_nodes (children n))) as (b&->&Hb).
    + intros c Hcn. destruct (Hc c Hcn) as (?&?&_). apply IH; [by apply valid_negate|done|rewrite position_negate; lia].
    + exists b. split; [done|]. intros Hb' a Ha. destruct (choose_some okV okS a _ _ Ha He) as (c&Hcn&Hin).
      rewrite (eval_chosen okV okS ordered _ _ _ _ _ Ht Ha En Hcn). specialize (Hb Hb'). rewrite Forall_forall in Hb. by apply Hb.
  - destruct (try_forallb_spec (fun c => disjointness_loop fuel ns (NodeId.negate c y) x)
      (fun c => disjoint_in ns (NodeId.negate c y) x) (edges_nodes (children m))) as (b&->&Hb).
    + intros c Hcm. destruct (Hc' c Hcm) as (?&?&_). apply IH; [by apply valid_negate|done|rewrite position_negate; lia].
    + exists b. split; [done|]. intros Hb' a Ha. destruct (choose_some okV okS a _ _ Ha He') as (c&Hcm&Hin).
      rewrite (eval_chosen okV okS ordered _ _ _ _ _ Ht Ha Em Hcm), andb_comm. specialize (Hb Hb'). rewrite Forall_forall in Hb. by apply Hb.
Qed.

(** ** [and], [or], [is_disjoint] *)

Lemma and_finish_spec : finishes okV okS ordered and_finish.
Proof.
  intros s n m z Hs Hz. unfold and_finish. case_match; [|apply spec_ret; by split_and!].
  apply spec_bind. eapply spec_mono; [by apply exclusions_spec|]. intros e s1 (H1&Hs1&He&Hf).
  assert (valid_id (nodes s1) z) as Hz1 by (by eapply extends_valid).
  destruct (disjointness_spec (nodes s1) (wf_table _ _ _ _ Hs1) (fuel_for z (NodeId.not e)) z (NodeId.not e)) as (b&Eb&Hb);
    [done|by apply valid_not|apply fuel_for_enough|].
  apply spec_bind, (spec_intro _ _ _ b s1); [unfold disjointness; by rewrite Eb|]. apply spec_ret.
  destruct b.
  - split_and!; [done..|by apply terminal_valid| |].
    + intros a Ha. rewrite eval_false. specialize (Hb eq_refl a (proj1 Ha)). rewrite eval_not, Hf, andb_true_r in Hb by done.
      by rewrite <- (extends_eval s s1) by done.
    + intros v _. by apply terminal_var_lt.
  - split_and!; [done..| |].
    + intros a _. by apply extends_eval.
    + intros v Hv. by eapply extends_var_lt.
Qed.

Lemma and_spec s x y : wf s -> valid_id (nodes s) x -> valid_id (nodes s) y ->
  spec (and_ x y) s (fun z s' => extends s s' /\ wf s' /\ conj_of (nodes s') x y z).
Proof.
  intros Hs Hx Hy. apply (conjoin_spec okV okS ordered); [apply and_finish_spec|done..|apply fuel_for_enough].
Qed.

Lemma and_yields s x y : wf s -> valid_id (nodes s) x -> valid_id (nodes s) y ->
  yields admissible (and_ x y) s (fun a => eval (nodes s) a x && eval (nodes s) a y).
Proof.
  intros Hs Hx Hy. eapply spec_mono; [by apply and_spec|]. intros z s' (H1&Hs'&Hz). split_and!; [done..|apply Hz|].
  intros a Ha. rewrite (conj_eval _ _ _ _ _ Hz a Ha). by rewrite !(extends_eval s s') by done.
Qed.

Lemma or_yields s x y : wf s -> valid_id (nodes s) x -> valid_id (nodes s) y ->
  yields admissible (or_ x y) s (fun a => eval (nodes s) a x || eval (nodes s) a y).
Proof.
  intros Hs Hx Hy. apply spec_bind. eapply spec_mono; [apply and_yields; [done|by apply valid_not..]|].
  intros z s' (H1&Hs'&Hz&He). apply spec_ret. split_and!; [done..|by apply valid_not|]. intros a Ha.
  rewrite eval_not, He, !eval_not by done. by destruct (eval _ a x), (eval _ a y).
Qed.

Lemma get_node_spec s x (Q : Node -> Interner -> Prop) :
  valid_id (nodes s) x -> x <> NodeId.TRUE -> x <> NodeId.FALSE ->
  (forall n, shared_node (nodes s) x = Some n -> Q n s) -> spec (get_node x) s Q.
Proof.
  intros Hv Ht Hf HQ. unfold spec, get_node. destruct (shared_node (nodes s) x) as [n|] eqn:E; [by apply HQ|].
  apply shared_node_none, terminal_position in E; tauto.
Qed.

Lemma is_disjoint_spec s x y : wf s -> valid_id (nodes s) x -> valid_id (nodes s) y ->
  spec (is_disjoint x y) s (fun b s' => extends s s' /\ wf s' /\
    (b = true -> forall a, admissible a -> eval (nodes s) a x && eval (nodes s) a y = false)).
Proof.
  intros Hs Hx Hy. unfold is_disjoint, NodeId.is_true, NodeId.is_false.
  destruct ((x =? NodeId.FALSE) || (y =? NodeId.FALSE)) eqn:Ef.
  { apply spec_ret. split_and!; [done..|]. intros _ a _.
    apply orb_prop in Ef as [E|E]; apply N.eqb_eq in E as ->; rewrite eval_false; [done|apply andb_false_r]. }
  destruct ((x =? NodeId.TRUE) || (y =? NodeId.TRUE)) eqn:Et; [by apply spec_ret|].
  destruct (x =? y); [by apply spec_ret|]. destruct (N.eqb_spec (NodeId.not x) y) as [<-|Hn].
  { apply spec_ret. split_and!; [done..|]. intros _ a _. rewrite eval_not. apply andb_negb_r. }
  apply orb_false_elim in Ef as [Hx0 Hy0], Et as [Hx1 Hy1]. apply N.eqb_neq in Hx0, Hy0, Hx1, Hy1.
  apply spec_bind, get_node_spec; [done..|]. intros n _. apply spec_bind, get_node_spec; [done..|]. intros m _. case_match.
  - apply spec_bind. eapply spec_mono; [by apply and_yields|]. intros z s' (H1&Hs'&Hz&He). apply spec_ret.
    split_and!; [done..|]. intros Ez%N.eqb_eq a Ha. by rewrite <- He, Ez, eval_false.
  - destruct (disjointness_spec (nodes s) (wf_table _ _ _ _ Hs) (fuel_for x y) x y) as (b&Eb&Hb);
      [done|done|apply fuel_for_enough|].
    unfold spec, disjointness. rewrite Eb. split_and!; [done..|]. intros -> a Ha. by apply Hb; [|apply Ha].
Qed.

(** ** Restriction *)

(** The assignment that agrees with [f] where [f] is defined. *)
Definition override (f : MarkerVariable -> option bool) (a : assignment) : assignment :=
  {| a_string := a_string a; a_version := a_version a; a_bool := fun v => default (a_bool a v) (f v) |}.

(** ** Rebuilding a node from its children

    [W f a v] says that [v] is the value a result should have under [a], if [f] is
    the value of what was given, for the assignments in [P]. *)
Section rebuild.
Context (P : assignment -> Prop) (Pwf : forall a, P a -> assignment_wf a) (W : (assignment -> bool) -> assignment -> bool -> Prop).
Context (Wext : forall f f' a v, (forall b, f b = f' b) -> W f a v -> W f' a v) (J : Interner -> Prop).

(** [J] is kept as well. *)
Definition transforms (s : Interner) (i z : NodeId) (s' : Interner) : Prop :=
  extends s s' /\ (wf s' /\ J s') /\ valid_id (nodes s') z /\ (forall v, var_lt (nodes s) v i -> var_lt (nodes s') v z) /\
  forall a, P a -> W (fun b => eval (nodes s) b i) a (eval (nodes s') a z).

(** Running an operation on the children of a node and making a node of the results. *)
Lemma rebuild_spec s i n g : wf s -> J s -> shared_node (nodes s) i = Some n ->
  (forall s1 e z s2, J s1 -> create_node (var n) e s1 = Some (z, s2) -> J s2) ->
  (forall a c v, P a -> choose a (var n) (children n) = Some c ->
     W (fun b => eval (nodes s) b (NodeId.negate c i)) a v -> W (fun b => eval (nodes s) b i) a v) ->
  (forall s1 c, extends s s1 -> wf s1 -> J s1 -> c ∈ edges_nodes (children n) -> spec (g (NodeId.negate c i)) s1 (transforms s1 (NodeId.negate c i))) ->
  spec (let! edges := edges_map (children n) i g in create_node (var n) edges) s (transforms s i).
Proof.
  intros Hs HJ Hn HJc Hch Hg. destruct (node_position okV okS ordered _ _ _ (wf_table _ _ _ _ Hs) Hn) as [He Hc].
  set (Q := fun ns c z => c ∈ edges_nodes (children n) /\ valid_id ns z /\ var_lt ns (var n) z /\
    forall a, P a -> W (fun b => eval (nodes s) b (NodeId.negate c i)) a (eval ns a z)).
  apply spec_bind. eapply spec_mono.
  { apply (edges_map_spec okV okS (fun s => wf s /\ J s) i g Q); [|done|].
    - intros s1 s2 c z H12 (Hin&Hz&Hl&Hq). split; [done|]. split; [by eapply extends_valid|].
      split; [by eapply extends_var_lt|]. intros a Ha. rewrite (extends_eval s1 s2) by done. auto.
    - intros s1 c H1 [Hs1 HJ1] Hin. destruct (Hc c Hin) as (Hcv&_&Hcl). eapply spec_mono; [by apply Hg|].
      intros z s2 (H12&Hs2&Hz&Hl&Hq). do 4 (split; [done|]). split.
      + apply Hl, var_lt_negate. by eapply extends_var_lt.
      + intros a Ha. eapply Wext; [|by apply Hq]. intros b. apply extends_eval; [done|by apply valid_negate]. }
  intros e' s1 (H1&[Hs1 HJ1]&Hrel). eapply spec_mono.
  { apply spec_result, (create_node_decides okV okS ordered); [done|by eapply edges_rel_ok|]. apply edges_rel_nodes in Hrel.
    eapply Forall_impl; [done|]. by intros z (c&_&Hz&Hl&_). }
  intros z s2 (Hcr&H2&Hs2&Hz&Hlt&Hd). split_and!; [by etrans|done|by eapply HJc|done| |].
  - intros v Hv. apply Hlt. unfold var_lt in Hv. by rewrite Hn in Hv.
  - intros a Ha. destruct (choose_some okV okS a _ _ (Pwf a Ha) He) as (c&Hcn&Hin).
    destruct (edges_rel_choose _ _ _ _ _ _ Hrel Hcn) as (z'&Hz'&_&_&_&Hq).
    rewrite (Hd a z') by auto. by apply (Hch a c); [..|apply Hq].
Qed.
End rebuild.

(** The value under a changed assignment, or changed by the assignment. *)
Lemma override_ext f (g g' : assignment -> bool) a v : (forall b, g b = g' b) -> v = g (override f a) -> v = g' (override f a).
Proof. intros E ->. apply E. Qed.

Lemma restrict_loop_spec f : forall fuel s i, wf s -> valid_id (nodes s) i -> (position i < fuel)%nat ->
  spec (restrict_loop fuel f i) s (transforms assignment_wf (fun g a v => v = g (override f a)) (fun _ => True) s i).
Proof.
  induction fuel as [|fuel IH]; intros s i Hs Hi Hlt; [lia|]. cbn [restrict_loop].
  unfold NodeId.is_true, NodeId.is_false. destruct ((i =? NodeId.TRUE) || (i =? NodeId.FALSE)) eqn:Et.
  { apply spec_ret. split_and!; [done..|]. intros a _.
    apply orb_prop in Et as [E|E]; apply N.eqb_eq in E as ->; by rewrite ?eval_true, ?eval_false. }
  apply orb_false_elim in Et as [Ht Hf]. apply N.eqb_neq in Ht, Hf.
  apply spec_bind, get_node_spec; [done..|]. intros n Hn.
  destruct (node_position okV okS ordered _ _ _ (wf_table _ _ _ _ Hs) Hn) as [He Hc].
  assert (forall s1 c, extends s s1 -> wf s1 -> c ∈ edges_nodes (children n) ->
     spec (restrict_loop fuel f (NodeId.negate c i)) s1 (transforms assignment_wf (fun g a v => v = g (override f a)) (fun _ => True) s1 (NodeId.negate c i))) as Hg.
  { intros s1 c H1 Hs1 Hin. destruct (Hc c Hin) as (Hcv&Hcp&_).
    apply IH; [done|apply valid_negate; by eapply extends_valid|rewrite position_negate; lia]. }
  assert ((forall a, choose (override f a) (var n) (children n) = choose a (var n) (children n)) ->
    spec (let! edges := edges_map (children n) i (restrict_loop fuel f) in create_node (var n) edges) s
      (transforms assignment_wf (fun g a v => v = g (override f a)) (fun _ => True) s i)) as Hrebuild.
  { intros Hch. apply rebuild_spec; [done|intros; by eapply override_ext|done..| |by auto].
    intros a c v Ha Hc' ->. symmetry. apply (eval_chosen okV okS ordered _ _ _ n); [apply Hs|done|done|]. by rewrite Hch. }
  destruct (children n) as [l|l|h lo] eqn:Ech.
  1,2: apply Hrebuild; intros a; by destruct (var n).
  destruct (f (var n)) as [b|] eqn:Ef.
  - eapply spec_mono; [apply Hg; [done|done|destruct b; [left|right; left]]|].
    intros z s' (H1&[Hs' _]&Hz&Hl&Hev). split_and!; [done..| |].
    + intros v Hv. apply Hl, var_lt_negate. unfold var_lt in Hv. rewrite Hn in Hv. eapply var_lt_trans; [exact Hv|].
      apply Hc. destruct b; [left|right; left].
    + intros a Ha. rewrite Hev by done. symmetry. apply (eval_chosen okV okS ordered _ _ _ n); [apply Hs|done|done|].
      rewrite Ech. destruct (var n); cbn in *; try done; by rewrite Ef.
  - apply Hrebuild. intros a. destruct (var n); cbn in *; try done; by rewrite Ef.
Qed.

Lemma restrict_yields s i f : wf s -> valid_id (nodes s) i ->
  yields assignment_wf (restrict i f) s (fun a => eval (nodes s) (override f a) i).
Proof.
  intros Hs Hi. eapply spec_mono; [apply restrict_loop_spec; [done..|pose proof (position_lt_fuel i); lia]|].
  intros z s' (H1&[Hs' _]&Hz&_&He). by split_and!.
Qed.
End ops.
