(* ===== verification/MarkerVersions.v ===== *)
(** * Version markers

    [python_version] is [python_full_version] cut to two segments. The algebra
    knows only the latter, so a comparison of the former is rewritten into one of
    the latter or into a constant; this file shows for which comparisons that is
    exact, and what the nodes of version expressions evaluate to. *)

From stdpp Require Import base numbers list strings gmap.
From S2P Require Import Prelude VersionTypes VersionSmall Version VersionFacts VersionParser VersionOps Specifier SpecifierFacts Ranges RangesFacts RangesTheorems Names Text RangeSet Cuts Tiling MarkerTypes MarkerAlgebra MarkerEval MarkerWf MarkerEdges MarkerExpr.

(** ** Releases of two segments *)

(** PEP 440 matching of releases, missing segments being zero. *)
Definition release_matches (op : Operator) (r s : list N) : bool :=
  match op with
  | Equal | ExactEqual => eqb_cmp (compare_release s r)
  | NotEqual => negb (eqb_cmp (compare_release s r))
  | LessThan => ltb_cmp (compare_release s r)
  | LessThanEqual => leb_cmp (compare_release s r)
  | GreaterThan => gtb_cmp (compare_release s r)
  | GreaterThanEqual => geb_cmp (compare_release s r)
  | EqualStar => bool_decide (prefix0 (length r) s = r)
  | NotEqualStar => negb (bool_decide (prefix0 (length r) s = r))
  | TildeEqual => geb_cmp (compare_release s r) && bool_decide (prefix0 (length (removelast r)) s = removelast r)
  end.

Lemma all_zero_spec l : all_zero l = true <-> l = replicate (length l) 0.
Proof.
  induction l as [|x l IH]; cbn; [done|]. rewrite andb_true_iff, N.eqb_eq, IH. split; [by intros [-> <-]|].
  intros E. injection E as -> E. done.
Qed.

Lemma all_zero_pop l : all_zero l = true <-> pop_zeros l = [].
Proof.
  induction l as [|x l IH]; cbn [all_zero forallb pop_zeros]; [done|]. change (forallb _ l) with (all_zero l).
  rewrite andb_true_iff, IH, N.eqb_eq. destruct (pop_zeros l); [|naive_solver].
  destruct (N.eqb_spec x 0); naive_solver.
Qed.

Lemma compare_all_zero t : compare_release [] t = if all_zero t then Eq else Lt.
Proof.
  destruct (all_zero t) eqn:E.
  - apply compare_release_eq. symmetry. by apply all_zero_pop.
  - pose proof (compare_release_nil_l t). destruct (compare_release [] t) eqn:Ec; try done.
    apply compare_release_eq in Ec. cbn in Ec. symmetry in Ec. apply all_zero_pop in Ec. congruence.
Qed.

(** The trimmed release has at most two segments when the others are zero. *)
Lemma trimmed_shape a b t :
  match trimmed (a :: b :: t) with
  | [] => False
  | [x] => x = a /\ b = 0 /\ all_zero t = true
  | [x; y] => x = a /\ y = b /\ all_zero t = true
  | _ => all_zero t = false
  end.
Proof.
  unfold trimmed. cbn [pop_zeros]. pose proof (all_zero_pop t) as Ht. destruct (pop_zeros t) as [|x l].
  - rewrite (proj2 Ht) by done. destruct (N.eqb_spec b 0); [|done]. destruct (N.eqb_spec a 0); naive_solver.
  - destruct (all_zero t); [|done]. discriminate (proj1 Ht eq_refl).
Qed.

Lemma trimmed_shape_one a : trimmed [a] = [a].
Proof. unfold trimmed. cbn. destruct (N.eqb_spec a 0); by subst. Qed.

(** Comparing a version, and its first two segments, with [a.b.t]. *)
Lemma compare_two M m rest a b t :
  compare_release (M :: m :: rest) (a :: b :: t) = then_with (cmp M a) (then_with (cmp m b) (compare_release rest t)).
Proof. by rewrite compare_release_step, (compare_release_step (tail _)). Qed.

Lemma prefix0_two k M m : prefix0 (S (S k)) [M; m] = M :: m :: replicate k 0.
Proof. cbn [prefix0 head tail default id]. do 2 f_equal. induction k as [|k IH]; cbn; [done|]. by rewrite IH. Qed.

Lemma prefix0_two_eq M m a b t :
  bool_decide (prefix0 (length (a :: b :: t)) [M; m] = a :: b :: t) = (M =? a) && (m =? b) && all_zero t.
Proof.
  cbn [length]. rewrite prefix0_two. apply eq_true_iff_eq. rewrite bool_decide_eq_true, !andb_true_iff, !N.eqb_eq, all_zero_spec.
  split; [intros [= -> -> <-]; by rewrite length_replicate|]. by intros [[-> ->] <-].
Qed.

(** ** Rewriting [python_version] *)

Section python_version.
Context (this full : Version) (M m : N) (rest : list N).
Context (Hfull : release_is full (M :: m :: rest)).

(** What the rewriting gives is the match of the first two segments. *)
Definition rewritten (op : Operator) (r : list N) (res : result VersionSpecifier NodeId) : Prop :=
  match res with
  | Ok sp => contains sp full = Some (release_matches op r [M; m])
  | Err node => node = if release_matches op r [M; m] then NodeId.TRUE else NodeId.FALSE
  end.

Lemma star_contains a b v : release_is v [a; b] ->
  contains (equals_star_version v) full = Some ((M =? a) && (m =? b)) /\
  contains (not_equals_star_version v) full = Some (negb ((M =? a) && (m =? b))).
Proof.
  intros Hv. unfold equals_star_version, not_equals_star_version. rewrite !(contains_release v full [a; b] _ Hv Hfull). cbn.
  rewrite (N.eqb_sym a), (N.eqb_sym b), andb_true_r. done.
Qed.

Lemma release_new a b : exists v, new [a; b] = Some v /\ release_is v [a; b].
Proof. by apply new_release. Qed.

(** The candidates below the next minor version. *)
Lemma next_contains a b v : release_is v [a; b + 1] ->
  contains (less_than_version v) full = Some (leb_cmp (then_with (cmp M a) (cmp m b))) /\
  contains (greater_than_equal_version v) full = Some (gtb_cmp (then_with (cmp M a) (cmp m b))).
Proof.
  intros Hv. unfold less_than_version, greater_than_equal_version. rewrite !(contains_release v full [a; b + 1] _ Hv Hfull).
  rewrite compare_two. pose proof (compare_release_nil_r rest) as Hr.
  pose proof (cmp_N_spec M a). pose proof (cmp_N_spec m b). pose proof (cmp_N_spec m (b + 1)).
  destruct (cmp M a); cbn [then_with]; [|done|done].
  destruct (cmp m b) eqn:E1, (cmp m (b + 1)) eqn:E2; cbn [then_with]; try lia; by destruct (compare_release rest []).
Qed.

Lemma from_version_release op v r : release_is v r -> op <> TildeEqual -> from_version_unwrap op v = Some (mkSpec op v).
Proof.
  intros Hv Hop. unfold from_version_unwrap, from_version. destruct (release_is_plain _ _ Hv) as (_&_&_&_).
  assert (is_local v = false) as ->.
  { destruct Hv as (_&_&E). unfold is_local. autorewrite with value. by rewrite E. }
  by rewrite bool_decide_eq_false_2.
Qed.

Lemma star_rewritten op r : is_star op = true -> release_is this r ->
  (op = NotEqualStar -> all_zero (drop 2 r) = true) ->
  exists res, python_version_to_full_version (mkSpec op this) = Some res /\ rewritten op r res.
Proof.
  intros Hop Ht Hn. unfold python_version_to_full_version. cbn [operator spec_version]. rewrite Hop.
  destruct (release_is_release _ _ Ht) as [-> _]. pose proof Ht as (_&Hne&_). destruct r as [|a [|b t]]; [done| |].
  - eexists. split; [done|]. unfold rewritten. rewrite (contains_release this full _ _ Ht Hfull).
    destruct op; try done; cbn; rewrite andb_true_r, (N.eqb_sym a); do 2 f_equal;
      apply eq_true_iff_eq; rewrite N.eqb_eq, bool_decide_eq_true; naive_solver.
  - destruct (all_zero t) eqn:Et.
    + destruct (release_new a b) as (v&->&Hv). cbn [mbind option_bind].
      rewrite (from_version_release op v [a; b] Hv) by (by destruct op). eexists. split; [done|]. unfold rewritten.
      destruct (star_contains a b v Hv) as [E1 E2].
      destruct op; try done; cbn [release_matches]; rewrite prefix0_two_eq, Et, andb_true_r; done.
    + eexists. split; [done|]. cbn. destruct op; try done; cbn [release_matches]; rewrite prefix0_two_eq, Et, andb_false_r; [done|].
      specialize (Hn eq_refl). change (drop 2 (a :: b :: t)) with t in Hn. congruence.
Qed.

Lemma tilde_rewritten r : release_is this r -> (2 <= length r)%nat ->
  exists res, python_version_to_full_version (mkSpec TildeEqual this) = Some res /\ rewritten TildeEqual r res.
Proof.
  intros Ht Hl. unfold python_version_to_full_version. cbn [operator spec_version is_star].
  destruct (release_is_release _ _ Ht) as [-> _]. destruct r as [|a [|b t]]; cbn in Hl; try lia.
  assert (forall b' t', t = b' :: t' -> removelast (a :: b :: t) = a :: b :: removelast t) as Hrl by (by intros ? ? ->).
  pose proof (cmp_N_spec M a) as HM. pose proof (cmp_N_spec m b) as Hm. destruct t as [|c t].
  - eexists. split; [done|]. unfold rewritten. rewrite (contains_release this full _ _ Ht Hfull). cbn [length Nat.leb removelast].
    cbn [release_matches removelast length zip_all_eq prefix0 head default id]. rewrite !compare_two.
    pose proof (compare_release_nil_r rest). f_equal.
    rewrite andb_true_r. replace (bool_decide ([M] = [a])) with (a =? M).
    2: { apply eq_true_iff_eq. rewrite N.eqb_eq, bool_decide_eq_true. naive_solver. }
    destruct (cmp M a), (cmp m b); cbn [then_with]; try done. by destruct (compare_release rest []).
  - specialize (Hrl c t eq_refl). assert (all_zero (removelast (c :: t)) = true \/ all_zero (c :: t) = false) as Hz.
    { destruct (all_zero (c :: t)) eqn:E; [left|by right]. apply all_zero_spec in E. rewrite E.
      clear. cbn [length]. generalize (length t) as n. induction n as [|n IH]; [done|]. cbn in *. done. }
    destruct (all_zero (c :: t)) eqn:Et.
    + destruct Hz as [Hz|]; [|done]. destruct (release_new a b) as (v&->&Hv). cbn [mbind option_bind]. eexists. split; [done|].
      unfold rewritten. rewrite (proj1 (star_contains a b v Hv)). f_equal. unfold release_matches. rewrite Hrl, prefix0_two_eq, Hz, compare_two.
      rewrite compare_all_zero, Et. rewrite andb_true_r. destruct (N.eqb_spec M a), (N.eqb_spec m b); cbn; rewrite ?andb_false_r; try done.
      subst. by rewrite !cmp_refl.
    + eexists. split; [done|]. cbn [rewritten]. unfold release_matches. rewrite Hrl, prefix0_two_eq, compare_two, compare_all_zero, Et.
      destruct (N.eqb_spec M a), (N.eqb_spec m b); cbn [andb]; rewrite ?andb_false_r; try done. subst. by rewrite !cmp_refl.
Qed.

Lemma next_minor b : b < u64_MAX -> u64_add b 1 = b + 1.
Proof. intros Hb. unfold u64_add, u64_MAX in *. apply N.mod_small. lia. Qed.

Lemma eqb_two a b : eqb_cmp (then_with (cmp M a) (cmp m b)) = (M =? a) && (m =? b).
Proof.
  pose proof (cmp_N_spec M a). pose proof (cmp_N_spec m b).
  destruct (N.eqb_spec M a), (N.eqb_spec m b), (cmp M a), (cmp m b); subst; cbn; (done || lia).
Qed.

(** Specifiers with at most two segments that count. *)
Lemma short_rewritten op r a b trimmed_version :
  is_star op = false -> op <> TildeEqual -> release_is this r -> b < u64_MAX ->
  only_release_trimmed this = Some trimmed_version ->
  (release trimmed_version = [a] /\ b = 0 \/ release trimmed_version = [a; b]) ->
  (forall x, compare_release x r = compare_release x [a; b]) ->
  exists res, python_version_to_full_version (mkSpec op this) = Some res /\ rewritten op r res.
Proof.
  intros Hs Ho Ht Hb Et Hr Hc. unfold python_version_to_full_version. cbn [operator spec_version]. rewrite Hs, Et.
  destruct (release_new a b) as (v&Ev&Hv), (release_new a (b + 1)) as (w&Ew&Hw).
  assert (compare_release [M; m] [a; b] = then_with (cmp M a) (cmp m b)) as E2.
  { rewrite compare_two. change (compare_release [] []) with Eq. by destruct (cmp M a), (cmp m b). }
  assert (forall f, (f = ltb_cmp \/ f = geb_cmp) -> f (compare_release (M :: m :: rest) [a; b]) = f (then_with (cmp M a) (cmp m b))) as Hf.
  { intros f Hff. rewrite compare_two. pose proof (compare_release_nil_r rest).
    destruct (cmp M a), (cmp m b); try done. cbn. destruct (compare_release rest []); destruct Hff; by subst. }
  destruct (star_contains a b v Hv) as [S1 S2], (next_contains a b w Hw) as [N1 N2].
  assert ((match release trimmed_version with [major] => Some (major, 0) | [major; minor] => Some (major, minor) | _ => None end) = Some (a, b)) as E.
  { destruct Hr as [[-> ->]| ->]; done. }
  destruct op; try done; cbn [mbind option_bind]; rewrite E, (next_minor b Hb), Ev, Ew; cbn [mbind option_bind];
    (eexists; split; [reflexivity|]); unfold rewritten, release_matches; rewrite Hc, E2.
  - by rewrite eqb_two.
  - by rewrite eqb_two.
  - by rewrite eqb_two.
  - rewrite (contains_release this full _ _ Ht Hfull), Hc, Hf by auto. done.
  - done.
  - done.
  - rewrite (contains_release this full _ _ Ht Hfull), Hc, Hf by auto. done.
Qed.

(** Specifiers with a patch segment that is not zero. *)
Lemma long_rewritten op a b t trimmed_version :
  is_star op = false -> op <> TildeEqual -> release_is this (a :: b :: t) -> b < u64_MAX ->
  only_release_trimmed this = Some trimmed_version -> (3 <= length (release trimmed_version))%nat -> all_zero t = false ->
  exists res, python_version_to_full_version (mkSpec op this) = Some res /\ rewritten op (a :: b :: t) res.
Proof.
  intros Hs Ho Ht Hb Et Hl Hz. unfold python_version_to_full_version. cbn [operator spec_version].
  destruct (release_is_release _ _ Ht) as [Er _]. rewrite Hs, Et, Er.
  destruct (release_new a (b + 1)) as (w&Ew&Hw). destruct (next_contains a b w Hw) as [N1 N2].
  assert (compare_release [M; m] (a :: b :: t) = then_with (cmp M a) (then_with (cmp m b) Lt)) as E2.
  { by rewrite compare_two, compare_all_zero, Hz. }
  assert ((match release trimmed_version with [major] => Some (major, 0) | [major; minor] => Some (major, minor) | _ => None end) = None) as E.
  { destruct (release trimmed_version) as [|? [|? [|]]]; cbn in Hl; (lia || done). }
  destruct op; try done; cbn [mbind option_bind]; rewrite E, (next_minor b Hb), Ew; cbn [mbind option_bind];
    (eexists; split; [reflexivity|]); unfold rewritten, release_matches; rewrite ?N1, ?N2, E2; by destruct (cmp M a), (cmp m b).
Qed.

Lemma python_version_rewritten op r :
  release_is this r -> Forall (fun n => n < u64_MAX) r -> (op = TildeEqual -> (2 <= length r)%nat) ->
  (op = NotEqualStar -> all_zero (drop 2 r) = true) ->
  exists res, python_version_to_full_version (mkSpec op this) = Some res /\ rewritten op r res.
Proof.
  intros Ht Hmax Htilde Hn. destruct (is_star op) eqn:Es; [by apply star_rewritten|].
  destruct (decide (op = TildeEqual)) as [->|Ho]; [apply tilde_rewritten; auto|].
  destruct (trimmed_spec this) as (w&Ew&Hw&Vw). destruct (release_is_release _ _ Ht) as [Er _]. rewrite Er in Vw.
  assert (release w = trimmed r) as Rw by (by rewrite value_release, Vw).
  pose proof Ht as (_&Hne&_). destruct r as [|a [|b t]]; [done| |].
  - apply (short_rewritten op [a] a 0 w); try done; [left; by rewrite Rw, trimmed_shape_one|]. intros x.
    apply compare_release_eq_r, compare_release_eq. done.
  - apply Forall_cons in Hmax as [_ [Hb _]%Forall_cons]. pose proof (trimmed_shape a b t) as Hs. rewrite <- Rw in Hs.
    assert (all_zero t = true -> forall x, compare_release x (a :: b :: t) = compare_release x [a; b]) as Hc.
    { intros Hz x. apply compare_release_eq_r. rewrite compare_two, !cmp_refl. cbn.
      rewrite compare_release_opp, compare_all_zero, Hz. done. }
    destruct (release w) as [|x [|y [|z l]]] eqn:El; [done| | |].
    + destruct Hs as (->&->&Hz). apply (short_rewritten op _ a 0 w); try done; auto.
    + destruct Hs as (->&->&Hz). apply (short_rewritten op _ a b w); try done; auto.
    + apply (long_rewritten op a b t w); try done. rewrite El. cbn. lia.
Qed.
End python_version.

(** Specifiers whose release-only range is exact for versions of at least [n] segments. *)
Definition usable (n : nat) (sp : VersionSpecifier) (r : list N) : Prop :=
  release_is (spec_version sp) r /\ Forall (fun x => x < u64_MAX) r /\ operator sp <> ExactEqual /\
  (operator sp = TildeEqual -> (2 <= length r)%nat) /\ (is_star (operator sp) = true -> (length r <= n)%nat).

Lemma new_is l v : new l = Some v -> l <> [] -> release_is v l.
Proof. intros E Hl. destruct (new_release l Hl) as (w&Ew&Hw). congruence. Qed.

Lemma usable_new n op v l : new l = Some v -> l <> [] -> Forall (fun x => x < u64_MAX) l -> op <> ExactEqual -> op <> TildeEqual ->
  (length l <= n)%nat -> usable n (mkSpec op v) l.
Proof. intros E Hl Hm Hx Ht Hn. split_and!; [by apply new_is|done..]. Qed.

Lemma Forall_trimmed (P : N -> Prop) l : P 0 -> Forall P l -> Forall P (trimmed l).
Proof.
  intros H0 Hl. unfold trimmed. destruct (pop_zeros_pad l) as [n E]. rewrite E in Hl. apply Forall_app in Hl as [Hl _].
  destruct (pop_zeros l); [by repeat constructor|done].
Qed.

(** The next minor version of [a.b]. *)
Lemma usable_next op a b w : new [a; u64_add b 1] = Some w -> a + 1 < u64_MAX -> b + 1 < u64_MAX -> op <> ExactEqual -> op <> TildeEqual ->
  exists r, usable 2 (mkSpec op w) r.
Proof.
  intros Ew Ha Hb Hx Ht. rewrite next_minor in Ew by lia. exists [a; b + 1]. apply usable_new; try done.
  apply Forall_cons_2; [lia|]. by apply Forall_cons_2.
Qed.

Lemma ordinary_usable op this r sp :
  is_star op = false -> op <> TildeEqual -> release_is this r -> Forall (fun x => x + 1 < u64_MAX) r ->
  python_version_to_full_version (mkSpec op this) = Some (Ok sp) -> exists r', usable 2 sp r'.
Proof.
  intros Es Ho Ht Hmax. destruct (release_is_release _ _ Ht) as [Er _].
  destruct (trimmed_spec this) as (w&Ew&Hw&Vw). rewrite Er in Vw.
  assert (Forall (fun x => x + 1 < u64_MAX) (release w)) as Hmw.
  { rewrite value_release, Vw. by apply Forall_trimmed. }
  assert (op <> ExactEqual -> usable 2 (mkSpec op this) r) as Hthis.
  { intros Hx. split_and!; [done|eapply Forall_impl; [done|]; cbn; lia|done..|]. cbn. by rewrite Es. }
  unfold python_version_to_full_version. cbn [operator spec_version]. rewrite Es, Ew, Er. cbn [mbind option_bind].
  assert (forall a b, a + 1 < u64_MAX -> b + 1 < u64_MAX ->
    (version ← new [a; b]; next ← new [a; u64_add b 1];
     match op with
     | Equal | ExactEqual => Some (Ok (equals_star_version version))
     | NotEqual => Some (Ok (not_equals_star_version version))
     | GreaterThan => Some (Ok (greater_than_equal_version next))
     | LessThan => Some (Ok (mkSpec op this))
     | GreaterThanEqual => Some (Ok (mkSpec op this))
     | LessThanEqual => Some (Ok (less_than_version next))
     | EqualStar | NotEqualStar | TildeEqual => None (A := result VersionSpecifier NodeId)
     end) = Some (Ok sp) -> exists r', usable 2 sp r') as Hmm.
  { intros a b Ha Hb. destruct (new [a; b]) as [v|] eqn:Ev; [|done]. destruct (new [a; u64_add b 1]) as [x|] eqn:Ex; [|done].
    assert (forall op', op' <> ExactEqual -> op' <> TildeEqual -> usable 2 (mkSpec op' v) [a; b]) as Hv.
    { intros op' Hx Hy. apply usable_new; try done. apply Forall_cons_2; [lia|]. apply Forall_cons_2; [lia|done]. }
    cbn. destruct op; try done; intros [= <-]; eauto using usable_next. }
  destruct (release w) as [|a [|b [|c l]]].
  4: { destruct r as [|a' [|b' t]]; [by destruct op|by destruct op|]. apply Forall_cons in Hmax as [Ha [Hb _]%Forall_cons].
       destruct (new [a'; u64_add b' 1]) as [x|] eqn:Ex; [|by destruct op].
       destruct op; try done; intros [= <-]; eapply usable_next; done. }
  - destruct r as [|a' [|b' t]]; [by destruct op|by destruct op|]. apply Forall_cons in Hmax as [Ha [Hb _]%Forall_cons].
    destruct (new [a'; u64_add b' 1]) as [x|] eqn:Ex; [|by destruct op].
    destruct op; try done; intros [= <-]; eapply usable_next; done.
  - apply Forall_cons in Hmw as [Ha _]. specialize (Hmm a 0 Ha eq_refl). by destruct op.
  - apply Forall_cons in Hmw as [Ha [Hb _]%Forall_cons]. specialize (Hmm a b Ha Hb). by destruct op.
Qed.

Lemma rewritten_usable op this r sp :
  release_is this r -> Forall (fun x => x + 1 < u64_MAX) r -> (op = TildeEqual -> (2 <= length r)%nat) ->
  python_version_to_full_version (mkSpec op this) = Some (Ok sp) -> exists r', usable 2 sp r'.
Proof.
  intros Ht Hmax Htilde E. pose proof E as E0. destruct (release_is_release _ _ Ht) as [Er _].
  assert (Forall (fun x => x < u64_MAX) r) as Hmax' by (eapply Forall_impl; [done|]; cbn; lia).
  assert (op <> ExactEqual -> (is_star op = true -> (length r <= 2)%nat) -> usable 2 (mkSpec op this) r) as Hthis by done.
  unfold python_version_to_full_version in E. cbn [operator spec_version] in E. destruct (is_star op) eqn:Es.
  - rewrite Er in E. destruct r as [|a [|b t]]; [done| |].
    + injection E as <-. exists [a]. apply Hthis; [by destruct op|cbn; lia].
    + destruct (all_zero t); [|done]. destruct (new [a; b]) as [v|] eqn:Ev; [|done]. cbn in E.
      rewrite (from_version_release op v [a; b]) in E by (by apply new_is || by destruct op). injection E as <-.
      exists [a; b]. apply Forall_cons in Hmax' as [Ha [Hb _]%Forall_cons].
      apply usable_new; [done|done|by repeat constructor|by destruct op|by destruct op|done].
  - destruct (decide (op = TildeEqual)) as [->|Ho].
    + rewrite Er in E. destruct r as [|a [|b t]]; [done|done|]. destruct t as [|c t].
      * injection E as <-. exists [a; b]. by apply Hthis.
      * case_match; [|done]. destruct (new [a; b]) as [v|] eqn:Ev; [|done]. injection E as <-. exists [a; b].
        apply Forall_cons in Hmax' as [Ha [Hb _]%Forall_cons]. apply usable_new; [done|done|by repeat constructor|done..].
    + by apply (ordinary_usable op this r).
Qed.

(** [contains] on release-only versions, for candidates that are long enough. *)
Lemma contains_matches op this v r seg : op <> ExactEqual ->
  release_is this r -> release_is v seg -> (op = TildeEqual -> (2 <= length r)%nat) ->
  (is_star op = true -> (length r <= length seg)%nat) ->
  contains (mkSpec op this) v = Some (release_matches op r seg).
Proof.
  intros Hx Ht Hv Htilde Hstar. rewrite (contains_release this v r seg Ht Hv).
  assert ((length r <= length seg)%nat -> zip_all_eq r seg = bool_decide (prefix0 (length r) seg = r)) as Hz.
  { intros Hl. apply eq_true_iff_eq. rewrite bool_decide_eq_true. split; [by apply zip_prefix0_long|apply prefix0_zip]. }
  destruct op; try done; cbn [release_matches]; rewrite ?Hz by auto; try done.
  rewrite (proj2 (Nat.leb_le 2 (length r)) (Htilde eq_refl)). f_equal. destruct (geb_cmp (compare_release seg r)) eqn:Eg; [|done]. cbn.
  apply eq_true_iff_eq. rewrite bool_decide_eq_true. split; [|apply prefix0_zip]. intros Hz'.
  destruct (last_split r) as (P&n&->); [by destruct Ht as (_&?&_)|]. rewrite removelast_last in *.
  apply (zip_prefix0_above P [n]); [done|]. rewrite compare_release_opp. by destruct (compare_release seg (P ++ [n])).
Qed.

(** ** The nodes of version expressions *)

Section nodes.
Context {RV RS : Type} {SV : RangeSet Version RV} {SS : RangeSet text RS}.
Context (okV : RV -> Prop) (okS : RS -> Prop) (ordered : bool).
Context {LV : RangeSetLaws Version RV version_wf okV} {LS : RangeSetLaws text RS (fun _ => True) okS}.
Abbreviation Edges := (@Edges RV RS).
Abbreviation wf := (interner_wf okV okS ordered).
Abbreviation yields := (yields okV okS ordered).

Lemma only_release_is v r : release_is v r -> exists w, only_release v = Some w /\ release_is w r.
Proof.
  intros Hv. destruct (release_is_release _ _ Hv) as [Er _]. unfold only_release. rewrite Er. apply new_release, Hv.
Qed.

Lemma release_range_ok op this r (x : RV) :
  release_is this r -> Forall (fun n => n < u64_MAX) r ->
  release_specifier_to_range (mkSpec op this) true = Some x -> okV x.
Proof.
  intros Ht Hmax. destruct (release_is_release _ _ Ht) as [Er _]. pose proof Ht as (Hw&Hne&_).
  destruct (trimmed_spec this) as (t&Et&Htw&_). unfold release_specifier_to_range. cbn [operator spec_version]. rewrite Et.
  cbn [mbind option_bind].
  assert (forall y : RV, release_star_range this = Some y -> okV y) as Hstar.
  { intros y. unfold release_star_range. destruct (only_release_is this r Ht) as (lo&->&Hlo). cbn [mbind option_bind].
    destruct (release_is_release _ _ Hlo) as [-> _]. destruct (increment_last_split r Hne Hmax) as (P&n&->&Ei).
    rewrite Ei. cbn [mbind option_bind]. destruct (with_release_spec lo (P ++ [n + 1])) as (hi&->&Hhw&_); [apply Hlo|by destruct P|].
    intros [= <-]. by apply rs_ok_from_range_bounds. }
  destruct op; cbn.
  1,3: intros [= <-]; by apply rs_ok_singleton.
  2: intros [= <-]; by apply rs_ok_complement, rs_ok_singleton.
  1: apply Hstar.
  1: { destruct (release_star_range this) as [y|] eqn:Ey; [|done]. intros [= <-]. by apply rs_ok_complement, Hstar. }
  - destruct (increment_second_last (release this)) as [l|]; [|done]. cbn. destruct (new l) as [u|] eqn:Eu; [|done].
    intros [= <-]. apply rs_ok_from_range_bounds. split; cbn; [done|]. destruct l as [|y l]; [done|].
    by apply (new_is _ _ Eu).
  - intros [= <-]. by apply rs_ok_strictly_lower_than.
  - intros [= <-]. by apply rs_ok_lower_than.
  - intros [= <-]. by apply rs_ok_strictly_higher_than.
  - intros [= <-]. by apply rs_ok_higher_than.
Qed.

Lemma only_release_of v : release v <> [] -> exists w, only_release v = Some w /\ release_is w (release v).
Proof. intros Hv. unfold only_release. by apply new_release. Qed.

(** The range of a release-only specifier. *)
Lemma release_range_matches op w r : release_is w r -> Forall (fun n => n < u64_MAX) r ->
  (op = TildeEqual -> (2 <= length r)%nat) ->
  exists x : RV, release_specifier_to_range (mkSpec op w) true = Some x /\ okV x /\
    forall v seg, release_is v seg -> (is_star op = true -> (length r <= length seg)%nat) ->
      rs_contains x v = release_matches op r seg.
Proof.
  intros Hw Hmax Htilde. set (op' := match op with ExactEqual => Equal | op => op end).
  assert (release_specifier_to_range (mkSpec op w) true = (release_specifier_to_range (mkSpec op' w) true : option RV)) as E by (unfold op'; by destruct op).
  assert (forall v seg, release_is v seg -> (is_star op = true -> (length r <= length seg)%nat) ->
    exists x : RV, release_specifier_to_range (mkSpec op w) true = Some x /\ rs_contains x v = release_matches op r seg) as Hex.
  { intros v seg Hv Hstar. rewrite E.
    assert (op' <> ExactEqual) by (unfold op'; by destruct op).
    assert (op' = TildeEqual -> (2 <= length r)%nat) by (unfold op'; destruct op; auto; done).
    assert (is_star op' = true -> (length r <= length seg)%nat) by (unfold op'; destruct op; auto).
    destruct (release_range_exact (R := RV) op' w v r seg true) as (x&->&Hx); try done. exists x. split; [done|].
    rewrite (contains_matches op' w v r seg) in Hx by done. injection Hx as Hx. etrans; [exact Hx|]. unfold op'. by destruct op. }
  destruct (Hex (example (0 :: replicate (length r) 0)) (0 :: replicate (length r) 0)) as (x&Ex&_);
    [apply example_release_is|cbn; rewrite length_replicate; lia|].
  exists x. split; [done|]. split.
  - apply (release_range_ok op' w r x Hw Hmax). by rewrite <- E.
  - intros v seg Hv Hstar. destruct (Hex v seg Hv Hstar) as (x'&Ex'&Hx'). rewrite Ex in Ex'. by injection Ex' as ->.
Qed.

(** The edges of a specifier evaluate to its match with the release. *)
Lemma from_specifier_yields k sp r : release (spec_version sp) = r -> r <> [] -> Forall (fun n => n < u64_MAX) r ->
  (operator sp = TildeEqual -> (2 <= length r)%nat) ->
  exists e f, from_specifier sp = Some e /\ (forall s, wf s -> yields assignment_wf (create_node (V_Version k) e) s f) /\
    forall a seg, release_is (a_version a k) seg -> (is_star (operator sp) = true -> (length r <= length seg)%nat) ->
      f a = release_matches (operator sp) r seg.
Proof.
  intros Hr Hne Hmax Htilde. destruct sp as [op this]. cbn [operator spec_version] in *. subst r.
  unfold from_specifier, spec_only_release. cbn [operator spec_version].
  destruct (only_release_of this Hne) as (w&->&Hw). cbn [mbind option_bind].
  destruct (release_range_matches op w _ Hw Hmax Htilde) as (x&->&Hok&Hx). cbn [mbind option_bind].
  destruct (from_range_spec version_wf okV x Hok) as (l&El&_). rewrite El. do 2 eexists. split; [done|].
  split; [intros s Hs; by apply (create_version_range okV okS ordered)|]. intros a seg Hv Hl. by apply Hx.
Qed.

(** Expressions on [python_full_version] and [implementation_version]. *)
Lemma version_expression key k sp r : release (spec_version sp) = r -> r <> [] -> Forall (fun n => n < u64_MAX) r ->
  (operator sp = TildeEqual -> (2 <= length r)%nat) ->
  (key = MVV_PythonFullVersion /\ k = CV_PythonFullVersion \/ key = MVV_ImplementationVersion /\ k = CV_ImplementationVersion) ->
  exists f, (forall s, wf s -> yields assignment_wf (expression (ME_Version key sp)) s f) /\
    forall a seg, release_is (a_version a k) seg -> (is_star (operator sp) = true -> (length r <= length seg)%nat) ->
      f a = release_matches (operator sp) r seg.
Proof.
  intros Hr Hne Hmax Htilde Hk. destruct (from_specifier_yields k sp r Hr Hne Hmax Htilde) as (e&f&E&Hy&Hf). exists f. split; [|done].
  intros s Hs. unfold expression. destruct Hk as [[-> ->]|[-> ->]]; cbn [expression_node]; rewrite E; exact (Hy s Hs).
Qed.

(** Expressions on [python_version]. *)
Lemma python_version_expression op this r :
  release this = r -> r <> [] -> Forall (fun x => x + 1 < u64_MAX) r -> (op = TildeEqual -> (2 <= length r)%nat) ->
  (op = NotEqualStar -> all_zero (drop 2 r) = true) ->
  exists f, (forall s, wf s -> yields assignment_wf (expression (ME_Version MVV_PythonVersion (mkSpec op this))) s f) /\
    forall a M m rest, release_is (a_version a CV_PythonFullVersion) (M :: m :: rest) -> f a = release_matches op r [M; m].
Proof.
  intros Ht Hne Hmax Htilde Hn. unfold expression. cbn [expression_node]. unfold spec_only_release. cbn [operator spec_version].
  subst r. destruct (only_release_of this Hne) as (w&->&Hw). cbn [mbind option_bind]. set (r := release this) in *. clearbody r.
  assert (Forall (fun x => x < u64_MAX) r) as Hmax' by (eapply Forall_impl; [done|]; cbn; lia).
  assert (forall full M m rest, release_is full (M :: m :: rest) -> exists res,
    python_version_to_full_version (mkSpec op w) = Some res /\ rewritten full M m op r res) as Hex.
  { intros full M m rest Hf. by apply (python_version_rewritten w full M m rest Hf op r). }
  destruct (Hex (example [0; 0]) 0 0 []) as (res&Eres&_); [apply example_release_is|]. rewrite Eres.
  destruct res as [sp|node].
  - destruct (rewritten_usable op w r sp Hw Hmax Htilde Eres) as (r'&Hu).
    destruct Hu as (Hsp&Hmsp&Hxsp&Htsp&Hssp). destruct (release_is_release _ _ Hsp) as [Rsp _]. pose proof Hsp as (_&Hnsp&_).
    destruct (from_specifier_yields CV_PythonFullVersion sp r' Rsp Hnsp Hmsp Htsp) as (e&f&E&Hy&Hf). exists f. split.
    + intros s Hs. cbn [mbind option_bind]. rewrite E. exact (Hy s Hs).
    + intros a M m rest Hfull. destruct (Hex _ M m rest Hfull) as (res'&Eres'&Hres). rewrite Eres in Eres'. injection Eres' as <-.
      cbn in Hres. assert (is_star (operator sp) = true -> (length r' <= length (M :: m :: rest))%nat) as Hl.
      { intros Hst. specialize (Hssp Hst). cbn. lia. }
      rewrite (Hf a _ Hfull Hl). destruct sp as [op' w']. cbn [operator spec_version] in *.
      rewrite (contains_matches op' w' _ r' _ Hxsp Hsp Hfull Htsp Hl) in Hres. by injection Hres.
  - exists (fun _ => node =? NodeId.TRUE). destruct (Hex (example [0; 0]) 0 0 []) as (res'&Eres'&Hres); [apply example_release_is|].
    rewrite Eres in Eres'. injection Eres' as <-. cbn in Hres. split.
    + intros s Hs. rewrite Hres. destruct (release_matches op r [0; 0]); [apply (yields_const okV okS ordered assignment_wf s true Hs)|apply (yields_const okV okS ordered assignment_wf s false Hs)].
    + intros a M m rest Hfull. destruct (Hex _ M m rest Hfull) as (res'&Eres'&Hres'). rewrite Eres in Eres'. injection Eres' as <-.
      cbn in Hres'. rewrite Hres'. by destruct (release_matches op r [M; m]).
Qed.

(** Lists of versions on [python_full_version] and [implementation_version]. *)
Lemma version_in_expression s key k versions op : wf s -> Forall version_wf versions ->
  (key = MVV_PythonFullVersion /\ k = CV_PythonFullVersion \/ key = MVV_ImplementationVersion /\ k = CV_ImplementationVersion) ->
  yields assignment_wf (expression (ME_VersionIn key versions op)) s (fun a =>
    eqb (existsb (fun v => cmp_eqb (a_version a k) v) versions) (match op with CO_In => true | CO_NotIn => false end)).
Proof.
  intros Hs Hv Hk. set (r := rs_from_iter (map (fun version => (B_Included version, B_Included version)) versions) : RV).
  assert (okV r) as Hr.
  { apply rs_ok_from_iter, Forall_fmap. eapply Forall_impl; [done|]. by intros v Hv'. }
  assert (forall v, rs_contains r v = existsb (fun w => cmp_eqb v w) versions) as Hc.
  { intros v. unfold r. rewrite rs_contains_from_iter. clear. induction versions as [|w l IH]; cbn; [done|].
    unfold segment_contains at 1. cbn. by rewrite cmp_eqb_geb_leb, IH. }
  set (r' := match op with CO_NotIn => rs_complement r | CO_In => r end).
  assert (okV r') as Hr' by (unfold r'; destruct op; [done|by apply rs_ok_complement]).
  destruct (from_range_spec version_wf okV r' Hr') as (l&El&_).
  assert (yields assignment_wf (create_node (V_Version k) (E_Version l)) s (fun a =>
    eqb (existsb (fun v => cmp_eqb (a_version a k) v) versions) (match op with CO_In => true | CO_NotIn => false end))) as Hy.
  { eapply yields_weaken; [by apply (create_version_range okV okS ordered)|done|]. intros a _. unfold r'. destruct op;
      rewrite ?rs_contains_complement, Hc; by destruct (existsb _ _). }
  unfold expression. destruct Hk as [[-> ->]|[-> ->]]; cbn [expression_node]; unfold from_versions; fold r; fold r'; rewrite El; exact Hy.
Qed.

(** ** Lists of [python_version]s *)

Lemma iter_existsb (r : RV) v : okV r -> version_wf v -> existsb (segment_contains v) (rs_iter r) = rs_contains r v.
Proof.
  intros Hr Hv. pose proof (rs_iter_count r v Hr Hv) as Hc.
  assert (forall l, existsb (segment_contains v) l = negb (Nat.eqb (count_if (segment_contains v) l) 0)) as ->.
  { induction l as [|x l IH]; cbn; [done|]. rewrite IH. by destruct (segment_contains v x). }
  rewrite Hc. by destruct (rs_contains r v).
Qed.

(** The versions that the rewriting accepts, as [python_version == V]. *)
Definition python_list_ok (v : Version) : Prop :=
  release v <> [] /\ Forall (fun x => x + 1 < u64_MAX) (release v).

Lemma python_equal_result w r : release_is w r -> Forall (fun x => x + 1 < u64_MAX) r ->
  exists res, python_version_to_full_version (mkSpec Equal w) = Some res /\
    match res with
    | Ok sp => exists r', usable 2 sp r'
    | Err node => node = NodeId.FALSE
    end /\ forall full M m rest, release_is full (M :: m :: rest) -> rewritten full M m Equal r res.
Proof.
  intros Hw Hmax. assert (Forall (fun x => x < u64_MAX) r) as Hmax' by (eapply Forall_impl; [done|]; cbn; lia).
  assert (forall full M m rest, release_is full (M :: m :: rest) -> exists res,
    python_version_to_full_version (mkSpec Equal w) = Some res /\ rewritten full M m Equal r res) as Hex.
  { intros full M m rest Hf. by apply (python_version_rewritten w full M m rest Hf Equal r). }
  destruct (Hex (example [0; 0]) 0 0 []) as (res&E&_); [apply example_release_is|]. exists res. split; [done|]. split.
  - destruct res as [sp|node]; [by apply (rewritten_usable Equal w r)|].
    unfold python_version_to_full_version in E. cbn [operator spec_version is_star] in E. repeat (case_match; try done);
      unfold mbind, option_bind in E; repeat (case_match; try done); by simplify_eq.
  - intros full M m rest Hf. destruct (Hex full M m rest Hf) as (res'&E'&Hr). rewrite E in E'. by injection E' as <-.
Qed.

(** Two segments and zeros are matched by themselves. *)
Lemma two_segments_match r : r <> [] -> all_zero (drop 2 r) = true -> exists M m, release_matches Equal r [M; m] = true.
Proof.
  intros Hne Hz. destruct r as [|a [|b t]]; [done|exists a, 0|exists a, b]; unfold release_matches.
  - assert (compare_release [a; 0] [a] = Eq) as ->; [|done]. rewrite compare_release_step. cbn [head tail default id]. rewrite cmp_refl. cbn [then_with]. by rewrite compare_release_step.
  - change (drop 2 (a :: b :: t)) with t in Hz. rewrite compare_release_step. cbn [head tail default id]. rewrite cmp_refl. cbn [then_with].
    rewrite compare_release_step. cbn [head tail default id]. rewrite cmp_refl. cbn [then_with]. by rewrite compare_all_zero, Hz.
Qed.

Lemma python_ranges_spec versions : Forall python_list_ok versions ->
  exists res, python_ranges versions = Some res /\
    match res with
    | Ok l => Forall okV l /\ forall full M m rest, release_is full (M :: m :: rest) ->
        existsb (fun r => rs_contains r full) l = existsb (fun v => release_matches Equal (release v) [M; m]) versions
    | Err node => node = NodeId.FALSE /\ Exists (fun v => all_zero (drop 2 (release v)) = false) versions
    end.
Proof.
  induction 1 as [|v l [Hne Hmax] _ (res&E&Hres)]; cbn [python_ranges]; [exists (Ok []); by repeat constructor|].
  destruct (only_release_of v Hne) as (w&->&Hw). cbn [mbind option_bind].
  change (equals_version w) with (mkSpec Equal w). destruct (python_equal_result w _ Hw Hmax) as (r1&->&Hr1&Hrw). cbn [mbind option_bind].
  destruct r1 as [sp|node].
  2: { exists (Err node). split; [done|]. split; [done|]. left. destruct (all_zero (drop 2 (release v))) eqn:Ez; [|done]. exfalso.
    destruct (two_segments_match _ Hne Ez) as (M&m&E'). pose proof (Hrw (example [M; m]) M m [] (example_release_is M [m])) as Hn. cbn [rewritten] in Hn.
    rewrite E' in Hn. by rewrite Hr1 in Hn. }
  destruct Hr1 as (r'&Hsp&Hm&Hx&Ht&Hst). destruct sp as [op w']. cbn [operator spec_version] in *.
  destruct (release_range_matches op w' r' Hsp Hm Ht) as (x&->&Hok&Hxm). rewrite E. cbn [mbind option_bind].
  destruct res as [ranges|node]; [|exists (Err node); split_and!; [done|apply Hres|right; apply Hres]].
  destruct Hres as [Hall Hval]. eexists. split; [done|].
  split; [by constructor|]. intros full M m rest Hf. cbn. rewrite (Hval full M m rest Hf). f_equal.
  assert (is_star op = true -> (length r' <= length (M :: m :: rest))%nat) as Hl by (intros Hs; specialize (Hst Hs); cbn; lia).
  specialize (Hrw full M m rest Hf). cbn [rewritten] in Hrw. rewrite (contains_matches op w' _ r' _ Hx Hsp Hf Ht Hl) in Hrw.
  rewrite (Hxm _ _ Hf Hl). by injection Hrw.
Qed.

(** The node of a list of [python_version]s, or the constant [false]. *)
Lemma python_version_in_expression versions op : Forall python_list_ok versions ->
  exists f, (forall s, wf s -> yields assignment_wf (expression (ME_VersionIn MVV_PythonVersion versions op)) s f) /\
    ((forall a, f a = false) /\ Exists (fun v => all_zero (drop 2 (release v)) = false) versions \/ forall a M m rest, assignment_wf a -> release_is (a_version a CV_PythonFullVersion) (M :: m :: rest) ->
       f a = eqb (existsb (fun v => release_matches Equal (release v) [M; m]) versions) (match op with CO_In => true | CO_NotIn => false end)).
Proof.
  intros Hv. unfold expression. cbn [expression_node]. unfold from_python_versions.
  destruct (python_ranges_spec versions Hv) as (res&->&Hres). cbn [mbind option_bind].
  destruct res as [ranges|node]; [|destruct Hres as [-> Hex]; exists (fun _ => false); split; [intros s Hs; apply (yields_const okV okS ordered assignment_wf s false Hs)|by left]].
  destruct Hres as [Hall Hval]. set (r := rs_from_iter (concat (map rs_iter ranges)) : RV).
  assert (okV r) as Hr.
  { apply rs_ok_from_iter. clear Hval. induction Hall as [|x l Hx _ IH]; cbn; [constructor|]. apply Forall_app. split; [by apply rs_iter_valid|done]. }
  set (r' := match op with CO_NotIn => rs_complement r | CO_In => r end).
  assert (okV r') as Hr' by (unfold r'; destruct op; [done|by apply rs_ok_complement]).
  destruct (from_range_spec version_wf okV r' Hr') as (l&El&_). rewrite El. cbn [mbind option_bind].
  eexists. split; [intros s Hs; by apply (create_version_range okV okS ordered)|]. right. intros a M m rest Ha Hf. cbv beta.
  rewrite <- (Hval _ M m rest Hf).
  assert (rs_contains r (a_version a CV_PythonFullVersion) = existsb (fun r => rs_contains r (a_version a CV_PythonFullVersion)) ranges) as Hc.
  { unfold r. rewrite rs_contains_from_iter. clear -Hall Ha LV. induction Hall as [|x l Hx _ IH]; cbn; [done|].
    rewrite existsb_app, IH, iter_existsb by (done || apply Ha). done. }
  unfold r'. destruct op; rewrite ?rs_contains_complement, Hc; by destruct (existsb _ ranges).
Qed.
End nodes.
