(* ===== verification/MarkerTree.v ===== *)
(** * Marker trees ([uv-pep508/src/marker/tree.rs])

    A marker tree is a node of the interner. [kind] reads its root; evaluation
    walks the tree in an environment, or with the extras alone. The warnings that
    evaluation reports are not modelled. The operations that build trees are those
    of the interner. *)

From stdpp Require Import base numbers list strings gmap.
From S2P Require Import Prelude VersionTypes VersionSmall Version VersionFacts VersionParser Specifier Ranges Names Text RangeSet MarkerTypes MarkerAlgebra MarkerEval MarkerWf MarkerEdges MarkerExpr MarkerOps.

(** [str::contains] *)
Fixpoint text_contains (haystack needle : text) : bool :=
  match strip_prefix needle haystack with
  | Some _ => true
  | None => match haystack with [] => false | _ :: rest => text_contains rest needle end
  end.

(** The first matching item of an iteration decides. *)
Fixpoint try_existsb {A} (f : A -> option bool) (l : list A) : option bool :=
  match l with
  | [] => Some false
  | x :: l =>
      match f x with
      | Some true => Some true
      | Some false => try_existsb f l
      | None => None
      end
  end.

Section tree.
Context {RV RS : Type} {SV : RangeSet Version RV} {SS : RangeSet text RS}.
Abbreviation Edges := (@Edges RV RS).
Abbreviation Node := (@Node RV RS).
Abbreviation Interner := (@Interner RV RS).
Abbreviation IM := (act Interner).

(** ** The root of a tree *)

(** The children hold the complement of the root. *)
Inductive MarkerTreeKind :=
| K_True
| K_False
| K_Version (key : CanonicalMarkerValueVersion) (edges : list (RV * NodeId))
| K_String (key : CanonicalMarkerValueString) (children : list (RS * NodeId))
| K_In (key : CanonicalMarkerValueString) (value : text) (high low : NodeId)
| K_Contains (key : CanonicalMarkerValueString) (value : text) (high low : NodeId)
| K_List (pair : CanonicalMarkerListPair) (high low : NodeId)
| K_Extra (name : ExtraName) (high low : NodeId).

Definition tree_edges {R} (id : NodeId) (map : list (R * NodeId)) : list (R * NodeId) :=
  (fun e => (fst e, NodeId.negate (snd e) id)) <$> map.

Definition kind (nodes : list Node) (id : NodeId) : option MarkerTreeKind :=
  if NodeId.is_true id then Some K_True
  else if NodeId.is_false id then Some K_False
  else
    node ← shared_node nodes id;
    match var node, children node with
    | V_Version key, E_Version map => Some (K_Version key (tree_edges id map))
    | V_String key, E_String map => Some (K_String key (tree_edges id map))
    | V_In key value, E_Boolean high low => Some (K_In key value (NodeId.negate high id) (NodeId.negate low id))
    | V_Contains key value, E_Boolean high low =>
        Some (K_Contains key value (NodeId.negate high id) (NodeId.negate low id))
    | V_List lp, E_Boolean high low => Some (K_List lp (NodeId.negate high id) (NodeId.negate low id))
    | V_Extra name, E_Boolean high low => Some (K_Extra name (NodeId.negate high id) (NodeId.negate low id))
    | _, _ => None
    end.

(** [edge(value)] *)
Definition edge (high low : NodeId) (value : bool) : NodeId := if value then high else low.

(** [children()] of a Boolean node, [true] first. *)
Definition bool_children (high low : NodeId) : list NodeId := [high; low].

(** ** Evaluation *)

(** Every recursive call is on a smaller identifier. *)
Definition tree_fuel (id : NodeId) : nat := S (N.to_nat id).

(** The value of an invalid list marker is always [false]. *)
Definition list_edge (extras : ExtrasEnvironment) (lp : CanonicalMarkerListPair) : option bool :=
  match lp with
  | LP_Extras extra => Some (bool_decide (extra ∈ env_extras extras))
  | LP_DependencyGroup group => Some (bool_decide (group ∈ env_dependency_groups extras))
  | LP_Arbitrary _ _ => None
  end.

Fixpoint evaluate_loop (fuel : nat) (nodes : list Node) (env : MarkerEnvironment) (extras : ExtrasEnvironment)
    (id : NodeId) : option bool :=
  match fuel with
  | O => None
  | S fuel =>
      let recurse := evaluate_loop fuel nodes env extras in
      k ← kind nodes id;
      match k with
      | K_True => Some true
      | K_False => Some false
      | K_Version key edges =>
          match pick (get_version env key) edges with Some tree => recurse tree | None => Some false end
      | K_String key children =>
          match pick (get_string env key) children with Some tree => recurse tree | None => Some false end
      | K_In key value high low => recurse (edge high low (text_contains value (get_string env key)))
      | K_Contains key value high low => recurse (edge high low (text_contains (get_string env key) value))
      | K_Extra name high low => recurse (edge high low (bool_decide (name ∈ env_extra extras)))
      | K_List lp high low =>
          match list_edge extras lp with Some b => recurse (edge high low b) | None => Some false end
      end
  end.

Definition evaluate_reporter_impl (env : MarkerEnvironment) (extras : ExtrasEnvironment) (self : NodeId) : IM bool :=
  fun s => b ← evaluate_loop (tree_fuel self) (nodes s) env extras self; Some (b, s).

Definition evaluate (self : NodeId) (env : MarkerEnvironment) (extras : list ExtraName) : IM bool :=
  evaluate_reporter_impl env (EE_Extras extras) self.

Definition evaluate_pep751 (self : NodeId) (env : MarkerEnvironment) (extras : list ExtraName) (groups : list GroupName) : IM bool :=
  evaluate_reporter_impl env (EE_Pep751 extras groups) self.

(** [any] or [all] of the children that do not test an extra. *)
Fixpoint evaluate_extras_loop (fuel : nat) (nodes : list Node) (extras : list ExtraName) (id : NodeId) : option bool :=
  match fuel with
  | O => None
  | S fuel =>
      let recurse := evaluate_extras_loop fuel nodes extras in
      k ← kind nodes id;
      match k with
      | K_True => Some true
      | K_False => Some false
      | K_Version _ edges => try_existsb (fun e => recurse (snd e)) edges
      | K_String _ children => try_existsb (fun e => recurse (snd e)) children
      | K_In _ _ high low | K_Contains _ _ high low | K_List _ high low => try_existsb recurse (bool_children high low)
      | K_Extra name high low => recurse (edge high low (bool_decide (name ∈ extras)))
      end
  end.

Fixpoint evaluate_only_extras_loop (fuel : nat) (nodes : list Node) (extras : list ExtraName) (id : NodeId) : option bool :=
  match fuel with
  | O => None
  | S fuel =>
      let recurse := evaluate_only_extras_loop fuel nodes extras in
      k ← kind nodes id;
      match k with
      | K_True => Some true
      | K_False => Some false
      | K_Version _ edges => try_forallb (fun e => recurse (snd e)) edges
      | K_String _ children => try_forallb (fun e => recurse (snd e)) children
      | K_In _ _ high low | K_Contains _ _ high low | K_List _ high low => try_forallb recurse (bool_children high low)
      | K_Extra name high low => recurse (edge high low (bool_decide (name ∈ extras)))
      end
  end.

Definition evaluate_extras (self : NodeId) (extras : list ExtraName) : IM bool :=
  fun s => b ← evaluate_extras_loop (tree_fuel self) (nodes s) extras self; Some (b, s).

Definition evaluate_only_extras (self : NodeId) (extras : list ExtraName) : IM bool :=
  fun s => b ← evaluate_only_extras_loop (tree_fuel self) (nodes s) extras self; Some (b, s).

Definition evaluate_optional_environment (self : NodeId) (env : option MarkerEnvironment) (extras : list ExtraName) : IM bool :=
  match env with
  | None => evaluate_extras self extras
  | Some env => evaluate_reporter_impl env (EE_Extras extras) self
  end.

(** ** Building trees *)

Definition implies (self consequent : NodeId) : IM NodeId := or_ (NodeId.not self) consequent.

(** [is_extra(name).then_some(value)] *)
Definition restrict_extras (is_extra : ExtraName -> bool) (value : bool) (v : MarkerVariable) : option bool :=
  match v with
  | V_Extra name => if is_extra name then Some value else None
  | _ => None
  end.

Definition simplify_extras_with (self : NodeId) (is_extra : ExtraName -> bool) : IM NodeId :=
  restrict self (restrict_extras is_extra true).

Definition simplify_not_extras_with (self : NodeId) (is_extra : ExtraName -> bool) : IM NodeId :=
  restrict self (restrict_extras is_extra false).

Definition simplify_extras (self : NodeId) (extras : list ExtraName) : IM NodeId :=
  simplify_extras_with self (fun name => bool_decide (name ∈ extras)).

Definition simplify_not_extras (self : NodeId) (extras : list ExtraName) : IM NodeId :=
  simplify_not_extras_with self (fun name => bool_decide (name ∈ extras)).
End tree.
