(* ===== verification/MarkerTreeFacts.v ===== *)
(** * Evaluating marker trees

    A walk through the tree gives the value of its node at the environment, and
    the walks that know only the extras bound that value from both sides. *)

From stdpp Require Import base numbers list strings gmap.
From S2P Require Import Prelude VersionTypes VersionSmall Version VersionFacts VersionParser Specifier Ranges Names Text RangeSet Tiling MarkerTypes MarkerAlgebra MarkerEval MarkerWf MarkerEdges MarkerExpr MarkerOps MarkerTree.

(** The assignment of an environment. *)
Definition env_assignment (env : MarkerEnvironment) (extras : ExtrasEnvironment) : assignment := {|
  a_string := get_string env;
  a_version := get_version env;
  a_bool v :=
    match v with
    | V_In k x => text_contains x (get_string env k)
    | V_Contains k x => text_contains (get_string env k) x
    | V_Extra e => bool_decide (e ∈ env_extra extras)
    | V_List lp => default false (list_edge extras lp)
    | _ => false
    end
|}.

Definition env_wf (env : MarkerEnvironment) : Prop :=
  version_wf (implementation_version env) /\ version_wf (python_full_version env).

Lemma env_assignment_wf env extras : env_wf env -> assignment_wf (env_assignment env extras).
Proof. intros [Hi Hp] []; done. Qed.

Lemma elem_of_two {A} (x a b : A) : x ∈ [a; b] -> x = a \/ x = b.
Proof. rewrite elem_of_cons, list_elem_of_singleton. done. Qed.

Section facts.
Context {RV RS : Type} {SV : RangeSet Version RV} {SS : RangeSet text RS}.
Context (okV : RV -> Prop) (okS : RS -> Prop) (ordered : bool).
Context {LV : RangeSetLaws Version RV version_wf okV} {LS : RangeSetLaws text RS (fun _ => True) okS}.
Abbreviation Node := (@Node RV RS).
Abbreviation Interner := (@Interner RV RS).
Abbreviation wf := (interner_wf okV okS ordered).

Definition valid_lists (ns : list Node) : Prop :=
  Forall (fun n => match var n with V_List (LP_Arbitrary _ _) => False | _ => True end) ns.

Lemma pick_tree_edges {T R} `{RangeSet T R} (x : T) id (l : list (R * NodeId)) :
  pick x (tree_edges id l) = (fun c => NodeId.negate c id) <$> pick x l.
Proof. induction l as [|[r c] l IH]; cbn; [done|]. by destruct (rs_contains r x). Qed.

(** A tree that is not constant, and the children of its root. *)
Lemma node_cases ns id : table_ok okV okS ordered ns -> valid_id ns id ->
  id = NodeId.TRUE \/ id = NodeId.FALSE \/
  (NodeId.is_true id = false /\ NodeId.is_false id = false /\ exists n, shared_node ns id = Some n /\
    edges_ok okV okS (var n) (children n) /\
    forall c, c ∈ edges_nodes (children n) -> valid_id ns (NodeId.negate c id) /\ (position (NodeId.negate c id) < position id)%nat).
Proof.
  intros Ht Hv. unfold NodeId.is_true, NodeId.is_false. destruct (N.eqb_spec id NodeId.TRUE); [by left|].
  destruct (N.eqb_spec id NodeId.FALSE); [by right; left|]. right; right. split_and!; [done..|].
  destruct (shared_node ns id) as [nd|] eqn:En; [|apply shared_node_none, terminal_position in En; [tauto|done]].
  destruct (node_position okV okS ordered _ _ _ Ht En) as [He Hc]. exists nd. split_and!; [done..|]. intros c Hin.
  rewrite valid_negate, position_negate. by destruct (Hc c Hin) as (?&?&_).
Qed.

Lemma kind_terminal (ns : list Node) : kind ns NodeId.TRUE = Some K_True /\ kind ns NodeId.FALSE = Some K_False.
Proof. done. Qed.

Lemma kind_node (ns : list Node) id (n : Node) : NodeId.is_true id = false -> NodeId.is_false id = false -> shared_node ns id = Some n ->
  kind ns id =
    match var n, children n with
    | V_Version key, E_Version map => Some (K_Version key (tree_edges id map))
    | V_String key, E_String map => Some (K_String key (tree_edges id map))
    | V_In key value, E_Boolean high low => Some (K_In key value (NodeId.negate high id) (NodeId.negate low id))
    | V_Contains key value, E_Boolean high low =>
        Some (K_Contains key value (NodeId.negate high id) (NodeId.negate low id))
    | V_List lp, E_Boolean high low => Some (K_List lp (NodeId.negate high id) (NodeId.negate low id))
    | V_Extra name, E_Boolean high low => Some (K_Extra name (NodeId.negate high id) (NodeId.negate low id))
    | _, _ => None
    end.
Proof. intros H1 H2 H3. unfold kind. by rewrite H1, H2, H3. Qed.

Lemma edge_negate high low id b : edge (NodeId.negate high id) (NodeId.negate low id) b = NodeId.negate (if b then high else low) id.
Proof. by destruct b. Qed.

Lemma evaluate_loop_spec ns env extras : table_ok okV okS ordered ns -> valid_lists ns -> env_wf env ->
  forall fuel id, valid_id ns id -> (position id < fuel)%nat ->
  evaluate_loop fuel ns env extras id = Some (eval ns (env_assignment env extras) id).
Proof.
  intros Ht Hl Hw. induction fuel as [|fuel IH]; intros id Hv Hlt; [lia|]. cbn [evaluate_loop].
  destruct (node_cases ns id Ht Hv) as [->|[->|(H1&H2&n&Hn&He&Hc)]].
  { by rewrite eval_true. }
  { by rewrite eval_false. }
  assert (forall c, choose (env_assignment env extras) (var n) (children n) = Some c ->
    evaluate_loop fuel ns env extras (NodeId.negate c id) = Some (eval ns (env_assignment env extras) id)) as Hgo.
  { intros c Hch. rewrite (eval_chosen okV okS ordered _ _ _ _ _ Ht (env_assignment_wf env extras Hw) Hn Hch).
    destruct (choose_some okV okS _ _ _ (env_assignment_wf env extras Hw) He) as (c'&Hch'&Hin). rewrite Hch in Hch'. injection Hch' as <-.
    destruct (Hc c Hin). apply IH; [done|lia]. }
  pose proof Hn as (k&_&Hk)%shared_node_spec. pose proof (proj1 (Forall_lookup _ _) Hl k n Hk) as Hlist. cbn in Hlist.
  destruct (choose_some okV okS _ _ _ (env_assignment_wf env extras Hw) He) as (c&Hch&_).
  rewrite (kind_node ns id n H1 H2 Hn). destruct (var n) as [key|key|key v|key v|x|lp], (children n) as [l|l|h lo]; try done; cbn [mbind option_bind].
  1,2: rewrite pick_tree_edges; cbn in Hch |- *; rewrite Hch; by apply Hgo.
  all: rewrite ?edge_negate. 1-3: apply Hgo; reflexivity.
  destruct (list_edge extras lp) as [b|] eqn:Eb; [|by destruct lp].
  rewrite edge_negate. apply Hgo. cbn. rewrite Eb. reflexivity.
Qed.

(** ** Evaluation of the extras *)

Definition knows_extras (a : assignment) (extras : list ExtraName) : Prop :=
  assignment_wf a /\ forall name, a_bool a (V_Extra name) = bool_decide (name ∈ extras).

Lemma try_existsb_total {A} (f : A -> option bool) (P : A -> Prop) l :
  (forall x, x ∈ l -> exists b, f x = Some b /\ (P x -> b = true)) ->
  exists b, try_existsb f l = Some b /\ ((exists x, x ∈ l /\ P x) -> b = true).
Proof.
  induction l as [|x l IH]; intros H; cbn; [exists false; split; [done|]; by intros (?&?%not_elem_of_nil&_)|].
  destruct (H x) as ([]&->&Hx); [left|by exists true|]. destruct IH as (b&->&Hb); [intros y Hy; apply H; by right|].
  exists b. split; [done|]. intros (y&[->|Hy]%elem_of_cons&HP); [by specialize (Hx HP)|eauto].
Qed.

Lemma evaluate_extras_loop_spec ns extras : table_ok okV okS ordered ns -> forall fuel id, valid_id ns id -> (position id < fuel)%nat ->
  exists b, evaluate_extras_loop fuel ns extras id = Some b /\
    ((exists a, knows_extras a extras /\ eval ns a id = true) -> b = true).
Proof.
  intros Ht. induction fuel as [|fuel IH]; intros id Hv Hlt; [lia|]. cbn [evaluate_extras_loop].
  destruct (node_cases ns id Ht Hv) as [->|[->|(H1&H2&n&Hn&He&Hc)]].
  { by exists true. }
  { exists false. split; [done|]. intros (a&_&Ha). by rewrite eval_false in Ha. }
  set (P := fun c => exists a, knows_extras a extras /\ eval ns a c = true).
  assert (forall c, c ∈ edges_nodes (children n) ->
    exists b, evaluate_extras_loop fuel ns extras (NodeId.negate c id) = Some b /\ (P (NodeId.negate c id) -> b = true)) as Hgo.
  { intros c Hin. destruct (Hc c Hin). apply IH; [done|lia]. }
  assert (P id -> exists c a, c ∈ edges_nodes (children n) /\ knows_extras a extras /\ choose a (var n) (children n) = Some c /\
    eval ns a (NodeId.negate c id) = true) as Hch.
  { intros (a&Ha&Hea). destruct (choose_some okV okS _ _ _ (proj1 Ha) He) as (c&Hch&Hin). exists c, a. split_and!; [done..|].
    by rewrite <- (eval_chosen okV okS ordered _ _ _ _ _ Ht (proj1 Ha) Hn Hch). }
  assert (forall {X} (l : list (X * NodeId)), l.*2 = edges_nodes (children n) ->
    exists b, try_existsb (fun e => evaluate_extras_loop fuel ns extras e.2) (tree_edges id l) = Some b /\ (P id -> b = true)) as Hlist.
  { intros X l El. destruct (try_existsb_total (fun e : X * NodeId => evaluate_extras_loop fuel ns extras e.2) (fun e => P e.2) (tree_edges id l)) as (b&->&Hb).
    - intros e (e'&->&Hin)%list_elem_of_fmap. cbn. apply Hgo. rewrite <- El. by apply list_elem_of_fmap_2.
    - exists b. split; [done|]. intros HP. apply Hb. destruct (Hch HP) as (c&a&Hin&Ha&_&Hca). rewrite <- El in Hin.
      apply list_elem_of_fmap in Hin as ([r c']&->&Hin). exists (r, NodeId.negate c' id). split; [|by exists a].
      unfold tree_edges. by apply (list_elem_of_fmap_2 (fun e => (e.1, NodeId.negate e.2 id))) in Hin. }
  assert (forall h l, [h; l] = edges_nodes (children n) ->
    exists b, try_existsb (evaluate_extras_loop fuel ns extras) (bool_children (NodeId.negate h id) (NodeId.negate l id)) = Some b /\ (P id -> b = true)) as Hbool.
  { intros h l El. destruct (try_existsb_total (evaluate_extras_loop fuel ns extras) P (bool_children (NodeId.negate h id) (NodeId.negate l id))) as (b&->&Hb).
    - intros c Hin. unfold bool_children in Hin. apply elem_of_two in Hin as [-> | ->]; apply Hgo; rewrite <- El; [left|right; left].
    - exists b. split; [done|]. intros HP. apply Hb. destruct (Hch HP) as (c&a&Hin&Ha&_&Hca). rewrite <- El in Hin.
      exists (NodeId.negate c id). split; [|by exists a]. unfold bool_children.
      apply elem_of_two in Hin as [-> | ->]; [left|right; left]. }
  rewrite (kind_node ns id n H1 H2 Hn). destruct (var n) as [key|key|key v|key v|x|lp], (children n) as [l|l|h lo]; try done; cbn [mbind option_bind];
    try (by apply Hlist); try (by apply Hbool).
  rewrite edge_negate. destruct (Hgo (if bool_decide (x ∈ extras) then h else lo)) as (b&->&Hb); [case_bool_decide; [left|right; left]|].
  exists b. split; [done|]. intros HP. apply Hb. destruct (Hch HP) as (c&a&_&Ha&Hca&Hev). cbn in Hca. rewrite (proj2 Ha x) in Hca.
  injection Hca as <-. by exists a.
Qed.

(** The walk that demands all children is the dual of the one that allows any. *)
Lemma try_dual {A B} (f : A -> option bool) (g : B -> option bool) l k :
  Forall2 (fun x y => g y = negb <$> f x) l k -> try_forallb g k = negb <$> try_existsb f l.
Proof. induction 1 as [|x y l k E _ IH]; cbn; [done|]. rewrite E. by destruct (f x) as [[]|]. Qed.

Lemma negate_not c id : NodeId.negate c (NodeId.not id) = NodeId.not (NodeId.negate c id).
Proof.
  unfold NodeId.negate. rewrite !is_complement_odd, not_odd. destruct (N.odd id); cbn; by rewrite ?not_not.
Qed.

Lemma evaluate_only_extras_dual ns extras : table_ok okV okS ordered ns -> forall fuel id, valid_id ns id -> (position id < fuel)%nat ->
  evaluate_only_extras_loop fuel ns extras (NodeId.not id) = negb <$> evaluate_extras_loop fuel ns extras id.
Proof.
  intros Ht. induction fuel as [|fuel IH]; intros id Hv Hlt; [lia|]. cbn [evaluate_extras_loop evaluate_only_extras_loop].
  destruct (node_cases ns id Ht Hv) as [->|[->|(H1&H2&n&Hn&He&Hc)]]; [done..|].
  assert (NodeId.is_true (NodeId.not id) = false /\ NodeId.is_false (NodeId.not id) = false) as [H1' H2'].
  { unfold NodeId.is_true, NodeId.is_false in *. rewrite !N.eqb_neq in *.
    split; intros E; apply (f_equal NodeId.not) in E; rewrite not_not in E; [by apply H2|by apply H1]. }
  assert (shared_node ns (NodeId.not id) = Some n) as Hn' by (by rewrite (shared_node_position ns _ id (position_not id))).
  rewrite (kind_node ns id n H1 H2 Hn), (kind_node ns _ n H1' H2' Hn').
  assert (forall c, c ∈ edges_nodes (children n) ->
    evaluate_only_extras_loop fuel ns extras (NodeId.negate c (NodeId.not id)) = negb <$> evaluate_extras_loop fuel ns extras (NodeId.negate c id)) as Hgo.
  { intros c Hin. destruct (Hc c Hin). rewrite negate_not. apply IH; [done|lia]. }
  assert (forall {X} (l : list (X * NodeId)), l.*2 = edges_nodes (children n) ->
    try_forallb (fun e => evaluate_only_extras_loop fuel ns extras e.2) (tree_edges (NodeId.not id) l)
    = negb <$> try_existsb (fun e => evaluate_extras_loop fuel ns extras e.2) (tree_edges id l)) as Hlist.
  { intros X l El. apply try_dual. unfold tree_edges. rewrite Forall2_fmap. apply Forall_Forall2_diag. apply Forall_forall. intros e Hin. cbn. apply Hgo.
    rewrite <- El. by apply list_elem_of_fmap_2. }
  assert (forall h l, [h; l] = edges_nodes (children n) ->
    try_forallb (evaluate_only_extras_loop fuel ns extras) (bool_children (NodeId.negate h (NodeId.not id)) (NodeId.negate l (NodeId.not id)))
    = negb <$> try_existsb (evaluate_extras_loop fuel ns extras) (bool_children (NodeId.negate h id) (NodeId.negate l id))) as Hbool.
  { intros h l El. apply try_dual. constructor; [|constructor; [|done]]; apply Hgo; rewrite <- El; [left|right; left]. }
  destruct (var n) as [key|key|key v|key v|x|lp], (children n) as [l|l|h lo]; try done; cbn [mbind option_bind];
    try (by apply Hlist); try (by apply Hbool).
  rewrite !edge_negate. apply Hgo. case_bool_decide; [left|right; left].
Qed.
End facts.

(** ** The fuel of the conjunction does not matter

    The recursion of the conjunction is modelled with fuel. Results do not change
    when the fuel grows, so the recursion of the source returns what the model
    returns with enough fuel. *)

Section refines.
Context {S A : Type}.

(** [m'] returns whatever [m] returns. *)
Definition refines (m m' : act S A) : Prop := forall s r, m s = Some r -> m' s = Some r.

#[export] Instance refines_preorder : PreOrder refines.
Proof. split; [by intros m s r|]. intros m m' m'' H1 H2 s r H. auto. Qed.
End refines.

Lemma refines_bind {S A B} (m m' : act S A) (k k' : A -> act S B) :
  refines m m' -> (forall a, refines (k a) (k' a)) -> refines (mbind' m k) (mbind' m' k').
Proof.
  intros Hm Hk s r. unfold mbind'. destruct (m s) as [[a s']|] eqn:E; [|done]. rewrite (Hm _ _ E). apply Hk.
Qed.

Section fuel.
Context {RV RS : Type} {SV : RangeSet Version RV} {SS : RangeSet text RS}.
Abbreviation Edges := (@Edges RV RS).
Abbreviation Node := (@Node RV RS).
Abbreviation Interner := (@Interner RV RS).

Lemma map_edges_refines {R} (f g : NodeId -> act Interner NodeId) p (l : list (R * NodeId)) :
  (forall c, refines (f c) (g c)) -> refines (map_edges f p l) (map_edges g p l).
Proof.
  intros H. induction l as [|[r c] l IH]; cbn; [done|]. apply refines_bind; [done|]. intros z. by apply refines_bind.
Qed.

Lemma edges_map_refines (e : Edges) p (f g : NodeId -> act Interner NodeId) :
  (forall c, refines (f c) (g c)) -> refines (edges_map e p f) (edges_map e p g).
Proof.
  intros H. destruct e; cbn; (apply refines_bind; [done || by apply map_edges_refines|]); intros z; try done.
  by apply refines_bind.
Qed.

Section apply.
Context (f g : NodeId -> NodeId -> act Interner NodeId) (Hfg : forall c d, refines (f c d) (g c d)).

Lemma apply_ranges_refines {T R} `{Ord T} `{RangeSet T R} (l : list (R * NodeId)) p k q :
  refines (apply_ranges f l p k q) (apply_ranges g l p k q).
Proof.
  assert (forall lr lc (k : list (R * NodeId)) combined, refines (apply_right f lr lc q k combined) (apply_right g lr lc q k combined)) as Hr.
  { intros lr lc k'. induction k' as [|[r c] k' IH]; intros combined; cbn; [done|]. case_match; [done|]. by apply refines_bind. }
  apply refines_bind; [|done]. generalize (@nil (R * NodeId)). induction l as [|[r c] l IH]; intros combined; cbn; [done|].
  by apply refines_bind.
Qed.

Lemma edges_apply_refines (e e' : Edges) p q : refines (edges_apply e p e' q f) (edges_apply e p e' q g).
Proof.
  destruct e, e'; cbn; try done; (apply refines_bind; [done || apply apply_ranges_refines|]); intros z; try done.
  by apply refines_bind.
Qed.
End apply.

Lemma conjoin_refines (finish : Node -> Node -> NodeId -> act Interner NodeId) n : forall x y,
  refines (conjoin finish n x y) (conjoin finish (S n) x y).
Proof.
  induction n as [|n IH]; intros x y; [by intros s r|]. intros s r. set (f := conjoin finish (S n)) in *.
  change (conjoin finish (S (S n)) x y s) with
    ((if NodeId.is_true x then mret y else if NodeId.is_true y then mret x else if x =? y then mret x
      else if NodeId.is_false x || NodeId.is_false y then mret NodeId.FALSE else if NodeId.not x =? y then mret NodeId.FALSE
      else fun s => match cache s !! (x, y) with
        | Some result => Some (result, s)
        | None =>
            (let! a := get_node x in let! b := get_node y in
             let! node := match cmp (var a) (var b) with
               | Lt => let! edges := edges_map (children a) x (fun node => f node y) in create_node (var a) edges
               | Gt => let! edges := edges_map (children b) y (fun node => f node x) in create_node (var b) edges
               | Eq => let! edges := edges_apply (children a) x (children b) y f in create_node (var a) edges
               end in
             let! node := finish a b node in let! _ := cache_insert x y node in mret node) s
        end) s).
  unfold f at 1. cbn [conjoin]. repeat (case_match; [done|]).
  apply refines_bind; [done|]. intros a. apply refines_bind; [done|]. intros b. apply refines_bind; [|done].
  destruct (cmp (var a) (var b)).
  - apply refines_bind; [|done]. by apply edges_apply_refines.
  - apply refines_bind; [|done]. by apply edges_map_refines.
  - apply refines_bind; [|done]. by apply edges_map_refines.
Qed.

Lemma conjoin_more_fuel (finish : Node -> Node -> NodeId -> act Interner NodeId) n m x y :
  (n <= m)%nat -> refines (conjoin finish n x y) (conjoin finish m x y).
Proof. induction 1 as [|m _ IH]; [done|]. etrans; [exact IH|apply conjoin_refines]. Qed.
End fuel.

(** ** The variables of the interner

    Operations on existing nodes introduce no variables but the platform strings of
    the exclusions: a property of all variables that strings have is kept. *)

Section vars.
Context {RV RS : Type} {SV : RangeSet Version RV} {SS : RangeSet text RS}.
Context (P : MarkerVariable -> Prop) (Pstring : forall k, is_conflicting k = true -> P (V_String k)).
Abbreviation Edges := (@Edges RV RS).
Abbreviation Node := (@Node RV RS).
Abbreviation Interner := (@Interner RV RS).

Definition vars_ok (s : Interner) : Prop := Forall (fun n => P (var n)) (nodes s).

Definition keeps {A} (m : act Interner A) : Prop := forall s a s', vars_ok s -> m s = Some (a, s') -> vars_ok s'.

Lemma keeps_ret {A} (a : A) : keeps (mret a).
Proof. intros s b s' Hs [= _ <-]. done. Qed.

Lemma keeps_lift {A} (o : option A) : keeps (mlift o).
Proof. intros s b s' Hs. unfold mlift. destruct o; [|done]. by intros [= _ <-]. Qed.

Lemma keeps_bind {A B} (m : act Interner A) (k : A -> act Interner B) : keeps m -> (forall a, keeps (k a)) -> keeps (mbind' m k).
Proof.
  intros Hm Hk s b s' Hs. unfold mbind'. destruct (m s) as [[a s1]|] eqn:E; [|done]. apply Hk. by apply (Hm s a s1).
Qed.

Lemma keeps_get {B} i (k : Node -> act Interner B) : (forall n, P (var n) -> keeps (k n)) -> keeps (let! n := get_node i in k n).
Proof.
  intros Hk s b s' Hs. unfold mbind', get_node. destruct (shared_node (nodes s) i) as [n|] eqn:E; [|done]. cbn. apply Hk; [|done].
  unfold shared_node in E. destruct (NodeId.index i) as [j|]; [|done]. cbn in E. by apply (proj1 (Forall_lookup _ _) Hs _ _ E).
Qed.

Lemma keeps_memo {A} (look : Interner -> option A) (m : act Interner A) :
  keeps m -> keeps (fun s => match look s with Some a => Some (a, s) | None => m s end).
Proof. intros Hm s a s' Hs. destruct (look s); [by intros [= _ <-]|by apply Hm]. Qed.

Lemma keeps_create v (e : Edges) : P v -> keeps (create_node v e).
Proof.
  intros Hv. apply keeps_bind; [apply keeps_lift|]. intros c.
  assert (forall n, var n = v -> keeps (intern n)) as Hi.
  { intros n Hn s a s' Hs. unfold intern. destruct (find_node n (unique s)); intros [= _ <-]; [done|].
    apply Forall_app. split; [done|]. repeat constructor. by rewrite Hn. }
  cbv zeta. destruct (forallb _ _); [apply keeps_ret|]. apply keeps_bind; [|intros i; apply keeps_ret]. apply Hi. by destruct (NodeId.is_complement c).
Qed.

Lemma keeps_map_edges {R} (f : NodeId -> act Interner NodeId) p (l : list (R * NodeId)) :
  (forall c, keeps (f c)) -> keeps (map_edges f p l).
Proof.
  intros Hf. induction l as [|[r c] l IH]; cbn; [apply keeps_ret|]. apply keeps_bind; [done|]. intros z.
  apply keeps_bind; [done|]. intros k. apply keeps_ret.
Qed.

Lemma keeps_edges_map (e : Edges) p (f : NodeId -> act Interner NodeId) : (forall c, keeps (f c)) -> keeps (edges_map e p f).
Proof.
  intros Hf. destruct e; cbn.
  1,2: apply keeps_bind; [by apply keeps_map_edges|intros; apply keeps_ret].
  apply keeps_bind; [done|]. intros z. apply keeps_bind; [done|]. intros y. apply keeps_ret.
Qed.

Lemma keeps_apply_ranges {T R} `{Ord T} `{RangeSet T R} (f : NodeId -> NodeId -> act Interner NodeId) (l : list (R * NodeId)) p k q :
  (forall c d, keeps (f c d)) -> keeps (apply_ranges f l p k q).
Proof.
  intros Hf. assert (forall lr lc (k : list (R * NodeId)) combined, keeps (apply_right f lr lc q k combined)) as Hr.
  { intros lr lc k'. induction k' as [|[r c] k' IH]; intros combined; cbn; [apply keeps_ret|]. case_match; [done|]. by apply keeps_bind. }
  apply keeps_bind; [|intros; apply keeps_ret]. generalize (@nil (R * NodeId)).
  induction l as [|[r c] l IH]; intros combined; cbn; [apply keeps_ret|]. by apply keeps_bind.
Qed.

Lemma keeps_edges_apply (e e' : Edges) p q (f : NodeId -> NodeId -> act Interner NodeId) :
  (forall c d, keeps (f c d)) -> keeps (edges_apply e p e' q f).
Proof.
  intros Hf. destruct e, e'; cbn; try (by intros s a s' _).
  1,2: apply keeps_bind; [by apply keeps_apply_ranges|intros; apply keeps_ret].
  apply keeps_bind; [done|]. intros z. apply keeps_bind; [done|]. intros y. apply keeps_ret.
Qed.

Lemma keeps_conjoin (finish : Node -> Node -> NodeId -> act Interner NodeId) :
  (forall n m z, keeps (finish n m z)) -> forall fuel x y, keeps (conjoin finish fuel x y).
Proof.
  intros Hf. induction fuel as [|fuel IH]; intros x y; cbn [conjoin]; [by intros s a s' _|].
  repeat (case_match; [apply keeps_ret|]). apply (keeps_memo (fun s => cache s !! (x, y))).
  apply keeps_get. intros n Hn. apply keeps_get. intros m Hm. apply keeps_bind.
  - case_match; (apply keeps_bind; [|intros e; by apply keeps_create]); auto using keeps_edges_map, keeps_edges_apply.
  - intros z. apply keeps_bind; [done|]. intros w. apply keeps_bind; [|intros; apply keeps_ret].
    intros s a s' Hs. unfold cache_insert. by intros [= _ <-].
Qed.

Lemma keeps_equals k v : is_conflicting (fst (normalize_platform k (bs v))) = true -> keeps (expression (string_equals k v)).
Proof.
  unfold expression, string_equals. cbn [expression_node]. destruct (normalize_platform k (bs v)) as [k' v']. intros Hk.
  destruct (from_string MO_Equal v') as [e|] eqn:E; [|by intros s a s' _].
  exact (keeps_create (V_String k') e (Pstring k' Hk)).
Qed.

Lemma keeps_exclusions : keeps exclusions.
Proof.
  assert (forall x y, keeps (conjunction x y)) as Hc.
  { intros x y. apply keeps_conjoin. intros n m z. apply keeps_ret. }
  apply (keeps_memo known_exclusions). apply keeps_bind.
  - assert (Forall (fun e => exists k v, e = string_equals k v /\ is_conflicting (fst (normalize_platform k (bs v))) = true) exclusion_expressions) as Hl.
    { unfold exclusion_expressions. repeat (apply Forall_cons_2; [do 2 eexists; split; reflexivity|]). apply Forall_nil_2. }
    revert Hl. generalize exclusion_expressions as l. induction 1 as [|e l (k&v&->&Hk) _ IH]; cbn; [apply keeps_ret|]. apply keeps_bind; [by apply keeps_equals|]. intros i.
    apply keeps_bind; [done|]. intros ids. apply keeps_ret.
  - intros ids. apply keeps_bind; [apply keeps_lift|]. intros pairs. apply keeps_bind.
    + generalize NodeId.FALSE. induction pairs as [|[a b] l IH]; intros tree; cbn [exclude_pairs]; [apply keeps_ret|].
      apply keeps_bind; [apply Hc|]. intros z. apply keeps_bind; [|done]. apply keeps_bind; [apply Hc|]. intros w. apply keeps_ret.
    + intros tree. apply keeps_bind; [|intros; apply keeps_ret]. intros s a s' Hs. unfold set_exclusions. by intros [= _ <-].
Qed.

Lemma keeps_and x y : keeps (and_ x y).
Proof.
  apply keeps_conjoin. intros n m z. unfold and_finish. case_match; [|apply keeps_ret].
  apply keeps_bind; [apply keeps_exclusions|]. intros e. apply keeps_bind; [|intros; apply keeps_ret].
  intros s a s' Hs. unfold disjointness. destruct (disjointness_loop _ _ _ _); [|done]. by intros [= _ <-].
Qed.

Lemma keeps_or x y : keeps (or_ x y).
Proof. apply keeps_bind; [apply keeps_and|]. intros z. apply keeps_ret. Qed.
End vars.
