(* ===== verification/MarkerPython.v ===== *)
(** * Clipping the edges of a node to a Python range

    [simplify_python_versions] keeps the overlap of the edges with a range and
    extends the outermost edges; [complexify_python_versions] cuts the edges off at
    the range and sends the rest to [false]. Both leave a tiling, and inside the
    range every version takes the edge it took before. *)

From stdpp Require Import base numbers list strings gmap.
From S2P Require Import Prelude VersionTypes VersionSmall Version VersionFacts VersionParser Specifier Ranges Names Text RangeSet Tiling MarkerTypes MarkerAlgebra MarkerEval MarkerWf MarkerEdges MarkerExpr MarkerOps.

Section clip.
Context {RV : Type} {SV : RangeSet Version RV} (okV : RV -> Prop) {LV : RangeSetLaws Version RV version_wf okV}.
Abbreviation edge_list := (list (RV * NodeId)).
Abbreviation lower_at := (Tiling.lower_at version_wf).
Abbreviation upper_at := (Tiling.upper_at version_wf).
Abbreviation point := (Tiling.point version_wf).
Abbreviation tiled := (Tiling.tiled version_wf).
Abbreviation all_ok l := (Forall (fun e : RV * NodeId => okV e.1) l).

(** Some edge to [c] contains [x]. *)
Definition has (x : Version) (c : NodeId) (l : edge_list) : Prop := exists r, (r, c) ∈ l /\ rs_contains r x = true.

Lemma has_count x c l : has x c l -> count_if (fun e => rs_contains (fst e) x) l <> O.
Proof.
  intros (r&Hin&Hr). induction l as [|e l IH]; [by apply not_elem_of_nil in Hin|]. cbn.
  apply elem_of_cons in Hin as [<-|Hin]; [cbn; by rewrite Hr|]. specialize (IH Hin). lia.
Qed.

Lemma has_pick x c l : partition version_wf okV l -> version_wf x -> has x c l -> pick x l = Some c.
Proof.
  intros Hp Hx (r&Hin&Hr). pose proof (partition_count _ _ l x Hp Hx) as Hc. clear Hp.
  induction l as [|[r' c'] l IH]; [by apply not_elem_of_nil in Hin|]. cbn in *. destruct (rs_contains r' x) eqn:E.
  - apply elem_of_cons in Hin as [[= -> ->]|Hin]; [done|]. exfalso.
    apply (has_count x c l); [by exists r|lia].
  - apply elem_of_cons in Hin as [[= -> ->]|Hin]; [congruence|]. apply IH; [done|lia].
Qed.

Lemma pick_has x c l : pick x l = Some c -> has x c l.
Proof. intros (r&Hin&Hr)%pick_elem. by exists r. Qed.

Lemma contains_between (r : RV) s x : okV r -> segment_valid version_wf s -> version_wf x -> rs_iter r = [s] ->
  rs_contains r x = true <-> cmp (lower_at (fst s)) (point x) = Lt /\ cmp (point x) (upper_at (snd s)) = Lt.
Proof.
  intros Hr Hs Hx E. rewrite (iter_single version_wf okV r s x Hr Hx E), (segment_between version_wf s x Hs Hx). unfold between, cmp_ltb.
  destruct (cmp (lower_at _) _), (cmp (point x) _); cbn; naive_solver.
Qed.

Lemma from_bounds_between a b x : segment_valid version_wf (a, b) -> version_wf x ->
  rs_contains (rs_from_range_bounds (a, b) : RV) x = true <-> cmp (lower_at a) (point x) = Lt /\ cmp (point x) (upper_at b) = Lt.
Proof.
  intros Hs Hx. rewrite rs_contains_from_range_bounds, (segment_between version_wf (a, b) x Hs Hx). unfold between, cmp_ltb. cbn [fst snd].
  destruct (cmp (lower_at _) _), (cmp (point x) _); cbn; naive_solver.
Qed.

(** ** Moving the first and the last bound *)

Lemma update_first_spec b p q l e k s : all_ok l -> l = e :: k -> tiled p q l -> rs_iter e.1 = [s] -> bound_valid version_wf b ->
  cmp (lower_at b) (upper_at (snd s)) = Lt ->
  exists r, update_first (clip_lower b) l = Some ((r, e.2) :: k) /\ all_ok ((r, e.2) :: k) /\ tiled (lower_at b) q ((r, e.2) :: k) /\
    rs_iter r = [(b, snd s)] /\
    (forall x, version_wf x -> cmp (lower_at b) (point x) = Lt -> cmp (point x) (upper_at (snd s)) = Lt -> rs_contains r x = true).
Proof.
  intros Hok -> Ht Es Hb Hlt. destruct e as [r0 c]. apply Forall_cons in Hok as [Hr0 Hok]. cbn in Hr0, Es.
  destruct Ht as (s'&Es'&Hs&Hp&_&Ht). rewrite Es in Es'. injection Es' as <-.
  assert (segment_valid version_wf (b, snd s)) as Hv by (split; [done|apply Hs]).
  assert (rs_iter (rs_from_range_bounds (b, snd s) : RV) = [(b, snd s)]) as Ei.
  { rewrite rs_iter_from_range_bounds by done. by rewrite (proj2 (proper_at version_wf (b, snd s) Hv)). }
  exists (rs_from_range_bounds (b, snd s)). unfold update_first, clip_lower. cbn [fst snd]. rewrite rs_bounding_iter, Es by done.
  unfold bounding. cbn [last]. destruct s as [s1 s2]. cbn [mbind option_bind fst snd] in *. split_and!; [done| | |done|].
  - constructor; [by apply rs_ok_from_range_bounds|done].
  - eapply (tiled_cons version_wf _ _ _ _ _ (b, s2)); [done|done|apply cmp_refl|done|done].
  - intros x Hx H1 H2. by apply from_bounds_between.
Qed.

Lemma update_last_spec b p q l e k s : all_ok l -> l = k ++ [e] -> tiled p q l -> rs_iter e.1 = [s] -> bound_valid version_wf b ->
  cmp (lower_at (fst s)) (upper_at b) = Lt ->
  exists r, update_last (clip_upper b) l = Some (k ++ [(r, e.2)]) /\ all_ok (k ++ [(r, e.2)]) /\ tiled p (upper_at b) (k ++ [(r, e.2)]) /\
    rs_iter r = [(fst s, b)] /\
    (forall x, version_wf x -> cmp (lower_at (fst s)) (point x) = Lt -> cmp (point x) (upper_at b) = Lt -> rs_contains r x = true).
Proof.
  intros Hok -> Ht Es Hb Hlt. destruct e as [r0 c]. apply Forall_app in Hok as [Hok [Hr0 _]%Forall_cons]. cbn in Hr0, Es.
  apply tiled_app_inv in Ht as (m&Hk&Ht). destruct Ht as (s'&Es'&Hs&Hp&_&_). rewrite Es in Es'. injection Es' as <-.
  assert (segment_valid version_wf (fst s, b)) as Hv by (split; [apply Hs|done]).
  assert (rs_iter (rs_from_range_bounds (fst s, b) : RV) = [(fst s, b)]) as Ei.
  { rewrite rs_iter_from_range_bounds by done. by rewrite (proj2 (proper_at version_wf (fst s, b) Hv)). }
  exists (rs_from_range_bounds (fst s, b)). unfold update_last. rewrite rev_app_distr. cbn [rev app update_first]. unfold clip_upper. cbn [fst snd].
  rewrite rs_bounding_iter, Es by done. unfold bounding. cbn [last]. destruct s as [s1 s2]. cbn [mbind option_bind fst snd rev] in *. rewrite rev_involutive.
  split_and!; [done| | |done|].
  - apply Forall_app. split; [done|]. constructor; [by apply rs_ok_from_range_bounds|done].
  - eapply tiled_app; [exact Hk|]. eapply (tiled_cons version_wf _ _ _ _ _ (s1, b)); [done|done|done|done|apply cmp_refl].
  - intros x Hx H1 H2. by apply from_bounds_between.
Qed.
(** The other edges keep their versions. *)
Lemma first_has b e k s r x c : okV e.1 -> segment_valid version_wf s -> rs_iter e.1 = [s] -> version_wf x ->
  (forall x, version_wf x -> cmp (lower_at b) (point x) = Lt -> cmp (point x) (upper_at (snd s)) = Lt -> rs_contains r x = true) ->
  cmp (lower_at b) (point x) = Lt -> has x c (e :: k) -> has x c ((r, e.2) :: k).
Proof.
  intros Ho Hs Es Hx Hr Hb (r'&[<-|Hin]%elem_of_cons&Hc); [|exists r'; split; [by right|done]].
  exists r. split; [left|]. apply Hr; [done..|]. by apply (contains_between _ s) in Hc as [_ ?].
Qed.

Lemma last_has b e k s r x c : okV e.1 -> segment_valid version_wf s -> rs_iter e.1 = [s] -> version_wf x ->
  (forall x, version_wf x -> cmp (lower_at (fst s)) (point x) = Lt -> cmp (point x) (upper_at b) = Lt -> rs_contains r x = true) ->
  cmp (point x) (upper_at b) = Lt -> has x c (k ++ [e]) -> has x c (k ++ [(r, e.2)]).
Proof.
  intros Ho Hs Es Hx Hr Hb (r'&[Hin|<-%list_elem_of_singleton]%elem_of_app&Hc).
  - exists r'. split; [apply elem_of_app; by left|done].
  - exists r. split; [apply elem_of_app; right; left|]. apply Hr; [done| |done]. by apply (contains_between _ s) in Hc as [? _].
Qed.

(** ** Overlaps *)

Section bounds.
Context (lo hi : bound Version) (Hv : segment_valid version_wf (lo, hi)).
Context (Hlt : cmp (lower_at lo) (upper_at hi) = Lt).
Abbreviation py := (rs_from_range_bounds (lo, hi) : RV).
Abbreviation L := (lower_at lo).
Abbreviation U := (upper_at hi).

Lemma py_ok : okV py.
Proof. by apply rs_ok_from_range_bounds. Qed.

Lemma py_iter : rs_iter py = [(lo, hi)].
Proof. rewrite rs_iter_from_range_bounds by done. by rewrite (proj2 (proper_at version_wf (lo, hi) Hv)). Qed.

Definition overlaps (edges : edge_list) : edge_list :=
  concat (map (fun e =>
    let overlap := rs_intersection (fst e) py in
    if rs_is_empty overlap then [] else [(overlap, snd e)]) edges).

Lemma clamp_eq p p' : cmp p p' = Eq -> cmp (clamp p L U) (clamp p' L U) = Eq.
Proof.
  intros E. unfold clamp, cmp_leb. rewrite (cmp_eq_l _ _ L E), (cmp_eq_l _ _ U E). destruct (cmp p' L); [apply cmp_refl..|].
  destruct (cmp p' U); [done|done|apply cmp_refl].
Qed.

Lemma overlaps_tiled l : all_ok l -> forall p q, tiled p q l -> tiled (clamp p L U) (clamp q L U) (overlaps l).
Proof.
  induction l as [|[r c] l IH]; intros Hok p q Ht; [by apply clamp_eq|].
  apply Forall_cons in Hok as [Hr Hok]. cbn in Hr. destruct Ht as (u&Eu&Hu&Hpu&Hltu&Ht). specialize (IH Hok _ _ Ht).
  destruct (single_inter version_wf okV r py u (lo, hi) Hr py_ok Eu py_iter) as [Ee Hw].
  pose proof (inter_lower version_wf u (lo, hi) ltac:(apply Hu) ltac:(apply Hv)) as Hlow.
  pose proof (inter_upper version_wf u (lo, hi) ltac:(apply Hu) ltac:(apply Hv)) as Hup.
  pose proof (proper_at version_wf _ (inter_valid version_wf u (lo, hi) Hu Hv)) as Hpr. cbn zeta in Hlow, Hup. cbn [fst snd] in Hlow, Hup.
  pose proof (clamp_eq _ _ Hpu) as Ec.
  set (lu := lower_at (fst u)) in *. set (uu := upper_at (snd u)) in *.
  set (li := lower_at (fst (segment_inter u (lo, hi)))) in *. set (ui := upper_at (snd (segment_inter u (lo, hi)))) in *.
  unfold overlaps. cbn [map concat fst snd]. fold (overlaps l). rewrite Ee. destruct (segment_proper _) eqn:Ep; cbn [negb].
  - destruct (Hw eq_refl) as (w&Ew&Hwv&Hwl&Hwu). pose proof (proj1 Hpr eq_refl) as Hlu.
    destruct (clamp_start _ _ _ _ _ _ Hltu Hlt Hlow Hup Hlu) as [H1 H2]. cbn [app].
    eapply (tiled_cons version_wf _ _ _ _ _ w); [done|done|..].
    + order_lia [clamp p L U; clamp lu L U; li; lower_at (fst w)].
    + order_lia [li; ui; lower_at (fst w); upper_at (snd w)].
    + eapply tiled_eq_l; [|exact IH]. order_lia [clamp uu L U; ui; upper_at (snd w)].
  - assert (cmp li ui <> Lt) as Hn by (intros E; by apply Hpr in E). cbn [app].
    pose proof (clamp_skip _ _ _ _ _ _ Hltu Hlt Hlow Hup Hn) as Hsk. eapply tiled_eq_l; [|exact IH].
    order_lia [clamp p L U; clamp lu L U; clamp uu L U].
Qed.

Lemma overlaps_ok l : all_ok l -> all_ok (overlaps l).
Proof.
  induction 1 as [|[r c] l Hr _ IH]; [constructor|]. unfold overlaps. cbn [map concat fst snd]. fold (overlaps l). apply Forall_app. split; [|done].
  case_match; [done|]. constructor; [|done]. apply rs_ok_intersection; [done|apply py_ok].
Qed.

Lemma overlaps_nodes l c : c ∈ (overlaps l).*2 -> c ∈ l.*2.
Proof.
  induction l as [|[r d] l IH]; [done|]. unfold overlaps. cbn [map concat fst snd]. fold (overlaps l). rewrite fmap_app, elem_of_app.
  intros [H|H]; [|right; by apply IH]. case_match; [by apply not_elem_of_nil in H|]. apply list_elem_of_singleton in H as ->. left.
Qed.

Lemma overlaps_has l x c : all_ok l -> version_wf x -> cmp L (point x) = Lt -> cmp (point x) U = Lt -> has x c l -> has x c (overlaps l).
Proof.
  intros Hok Hx H1 H2 (r&Hin&Hr). induction l as [|[r' d] l IH]; [by apply not_elem_of_nil in Hin|]. apply Forall_cons in Hok as [Hr' Hok].
  unfold overlaps. cbn [map concat fst snd]. fold (overlaps l). apply elem_of_cons in Hin as [[= <- <-]|Hin].
  - assert (rs_contains (rs_intersection r py) x = true) as Hc.
    { rewrite rs_contains_intersection, Hr. cbn. by apply from_bounds_between. }
    case_match eqn:Ee. 2: exists (rs_intersection r py); split; [left|done].
    rewrite (rs_empty_none _ x (rs_ok_intersection _ _ Hr' py_ok) Hx Ee) in Hc. done.
  - destruct (IH Hok Hin) as (r2&Hin2&Hc2). exists r2. split; [apply elem_of_app; by right|done].
Qed.

(** [simplified_edges] tiles all versions, and inside the bounds nothing changes. *)
Lemma simplified_edges_spec l : partition version_wf okV l ->
  exists new, simplified_edges py l = Some new /\ partition version_wf okV new /\ (forall c, c ∈ new.*2 -> c ∈ l.*2) /\
    forall x, version_wf x -> segment_contains x (lo, hi) = true -> pick x new = pick x l.
Proof.
  intros Hp. pose proof Hp as [Hok Ht]. unfold simplified_edges. change (concat _) with (overlaps l).
  pose proof (overlaps_tiled l Hok _ _ Ht) as Hov. pose proof (overlaps_ok l Hok) as Hook.
  assert (cmp (clamp bottom L U) L = Eq) as Eb by (apply clamp_low; [done|by destruct lo]).
  assert (cmp (clamp top L U) U = Eq) as Et by (apply clamp_high; [done|by destruct hi]).
  apply (tiled_eq_l _ _ _ _ _ Eb) in Hov. apply (tiled_eq_r _ _ _ _ _ Et) in Hov.
  destruct (overlaps l) as [|e k] eqn:Eo; [exfalso; assert (cmp L U = Eq) by exact Hov; congruence|].
  pose proof Hov as Hov'. destruct e as [r0 c0]. destruct Hov' as (s0&Es0&Hs0&_&_&_).
  destruct (update_first_spec B_Unbounded _ _ _ (r0, c0) k s0 Hook eq_refl Hov Es0 I (upper_at_bottom _ _)) as (r1&E1&Hok1&Ht1&Ei1&Hr1).
  rewrite E1. cbn [mbind option_bind]. cbn [snd] in *.
  destruct (exists_last (l := (r1, c0) :: k)) as (k2&[r2 c2]&Ek2); [done|]. pose proof Ht1 as Ht2. rewrite Ek2 in Ht2.
  apply tiled_app_inv in Ht2 as (m&_&Hlast). destruct Hlast as (s2&Es2&Hs2&_&_&_).
  destruct (update_last_spec B_Unbounded _ _ _ (r2, c2) k2 s2 Hok1 Ek2 Ht1 Es2 I (lower_at_top _ _)) as (r3&E3&Hok3&Ht3&Ei3&Hr3).
  exists (k2 ++ [(r3, c2)]). cbn [snd] in *. split; [done|]. assert (partition version_wf okV (k2 ++ [(r3, c2)])) as Hp3 by done. split; [done|]. split.
  - intros c Hc. apply (overlaps_nodes l). rewrite Eo. rewrite fmap_app in Hc. cbn in Hc.
    assert (((r1, c0) :: k).*2 = k2.*2 ++ [c2]) as En by (by rewrite Ek2, fmap_app). cbn in En. cbn. by rewrite En.
  - intros x Hx Hin. rewrite (segment_between version_wf _ _ Hv Hx) in Hin. unfold between, cmp_ltb in Hin. cbn [fst snd] in Hin.
    assert (cmp L (point x) = Lt /\ cmp (point x) U = Lt) as [H1 H2] by (by destruct (cmp L (point x)), (cmp (point x) U)).
    destruct (partition_some version_wf okV l x Hp Hx) as (c&Hc). rewrite Hc. apply has_pick; [done..|].
    apply pick_has in Hc. apply (overlaps_has l x c Hok Hx H1 H2) in Hc. rewrite Eo in Hc.
    apply Forall_cons in Hook as [Ho0 Hook]. apply (first_has B_Unbounded (r0, c0) k s0 r1 x c Ho0 Hs0 Es0 Hx Hr1 eq_refl) in Hc.
    cbn [snd] in Hc. rewrite Ek2 in Hc, Hok1. apply Forall_app in Hok1 as [_ [Ho2 _]%Forall_cons].
    by apply (last_has B_Unbounded (r2, c2) k2 s2 r3 x c Ho2 Hs2 Es2 Hx Hr3 eq_refl) in Hc.
Qed.

(** ** Edges that meet the bounds *)

Definition kept (l : edge_list) : edge_list := List.filter (fun e => negb (rs_is_empty (rs_intersection py (fst e)))) l.

Lemma kept_in l e : e ∈ kept l <-> e ∈ l /\ rs_is_empty (rs_intersection py (fst e)) = false.
Proof. unfold kept. by rewrite !list_elem_of_In, List.filter_In, negb_true_iff. Qed.

Lemma meets r u : okV r -> segment_valid version_wf u -> rs_iter r = [u] -> cmp (lower_at (fst u)) (upper_at (snd u)) = Lt ->
  rs_is_empty (rs_intersection py r) = false <-> cmp L (upper_at (snd u)) = Lt /\ cmp (lower_at (fst u)) U = Lt.
Proof.
  intros Hr Hu Eu Hltu. destruct (single_inter version_wf okV py r (lo, hi) u py_ok Hr py_iter Eu) as [-> _].
  pose proof (proper_at version_wf _ (inter_valid version_wf (lo, hi) u Hv Hu)) as Hpr.
  pose proof (inter_lower version_wf (lo, hi) u ltac:(apply Hv) ltac:(apply Hu)) as Hlow.
  pose proof (inter_upper version_wf (lo, hi) u ltac:(apply Hv) ltac:(apply Hu)) as Hup. cbn zeta in Hlow, Hup. cbn [fst snd] in Hlow, Hup.
  set (lu := lower_at (fst u)) in *. set (uu := upper_at (snd u)) in *.
  set (li := lower_at (fst (segment_inter (lo, hi) u))) in *. set (ui := upper_at (snd (segment_inter (lo, hi) u))) in *.
  unfold cmp_ltb in Hlow, Hup. rewrite negb_false_iff, Hpr. clearbody li ui.
  destruct (cmp L lu) eqn:E1, (cmp uu U) eqn:E2; split;
    first [intros H; split; order_lia [L; U; lu; uu; li; ui] | intros [H H']; order_lia [L; U; lu; uu; li; ui]].
Qed.

Lemma kept_none l : all_ok l -> forall p q, tiled p q l -> cmp U p <> Gt -> kept l = [].
Proof.
  induction l as [|[r c] l IH]; intros Hok p q Ht Hp; [done|]. apply Forall_cons in Hok as [Hr Hok]. destruct Ht as (u&Eu&Hu&Hpu&Hltu&Ht).
  unfold kept. cbn [List.filter fst]. destruct (rs_is_empty _) eqn:Ee; cbn [negb].
  - apply (IH Hok _ _ Ht). order_lia [U; p; lower_at (fst u); upper_at (snd u)].
  - apply (meets r u Hr Hu Eu Hltu) in Ee as [_ Ee]. order_lia [U; p; lower_at (fst u)].
Qed.

Lemma kept_tiled l : all_ok l -> forall p q, tiled p q l -> cmp p U = Lt -> cmp U q <> Gt ->
  exists p' q', tiled p' q' (kept l) /\ kept l <> [] /\ cmp U q' <> Gt /\ (cmp p L <> Gt -> cmp p' L <> Gt) /\ (cmp L p = Lt -> cmp p' p = Eq).
Proof.
  induction l as [|[r c] l IH]; intros Hok p q Ht Hp Hq; [exfalso; assert (cmp p q = Eq) by exact Ht; order_lia [p; q; U]|].
  apply Forall_cons in Hok as [Hr Hok]. cbn in Hr. destruct Ht as (u&Eu&Hu&Hpu&Hltu&Ht). pose proof (meets r u Hr Hu Eu Hltu) as Hm.
  unfold kept. cbn [List.filter fst]. fold (kept l). set (lu := lower_at (fst u)) in *. set (uu := upper_at (snd u)) in *.
  destruct (rs_is_empty _) eqn:Ee; cbn [negb].
  - assert (cmp uu L <> Gt) as Hle.
    { intros E. destruct Hm as [_ Hm]. discriminate Hm. split; [order_lia [uu; L]|order_lia [lu; p; U]]. }
    destruct (IH Hok uu q Ht ltac:(order_lia [uu; L; U]) Hq) as (p'&q'&Ht'&Hne&Hq'&Hp'&_). exists p', q'. split_and!; [done..| |].
    + intros _. by apply Hp'.
    + intros E. order_lia [L; p; lu; uu].
  - destruct (proj1 Hm eq_refl) as [HL HU]. destruct (cmp uu U) eqn:EU.
    2: { destruct (IH Hok uu q Ht EU Hq) as (p'&q'&Ht'&Hne&Hq'&_&Hp'). exists p, q'. split_and!; [|done|done|done|intros _; apply cmp_refl].
         eapply (tiled_cons version_wf _ _ _ _ _ u); [done..|]. fold uu. eapply tiled_eq_l; [|exact Ht']. by apply Hp'. }
    all: rewrite (kept_none l Hok uu q Ht) by (order_lia [uu; U]); exists p, uu;
      split_and!; [|done|order_lia [uu; U]|done|intros _; apply cmp_refl];
      eapply (tiled_cons version_wf _ _ _ _ _ u); [done..|apply cmp_refl].
Qed.

Lemma kept_ok l : all_ok l -> all_ok (kept l).
Proof. intros Hok. rewrite Forall_forall in *. intros e [He _]%kept_in. by apply Hok. Qed.

Lemma kept_has l x c : all_ok l -> version_wf x -> cmp L (point x) = Lt -> cmp (point x) U = Lt -> has x c l -> has x c (kept l).
Proof.
  intros Hok Hx H1 H2 (r&Hin&Hr). exists r. split; [|done]. apply kept_in. split; [done|]. rewrite Forall_forall in Hok. specialize (Hok _ Hin). cbn in Hok.
  destruct (rs_is_empty _) eqn:Ee; [|done]. pose proof (rs_empty_none _ x (rs_ok_intersection _ _ py_ok Hok) Hx Ee) as Hn. cbn [fst] in Hn.
  rewrite rs_contains_intersection, Hr, andb_true_r in Hn. rewrite (proj2 (from_bounds_between lo hi x Hv Hx)) in Hn; done.
Qed.

(** ** Sending the rest to one node *)

Context (exclude : NodeId).

(** The edges start below the upper bound. *)
Definition low (l : edge_list) : Prop := forall e s, e ∈ l -> rs_iter e.1 = [s] -> cmp (lower_at (fst s)) U = Lt.

Lemma below_iter : no_bound lo = false -> let r := rs_complement (rs_from_range_bounds (lo, B_Unbounded)) : RV in
  okV r /\ rs_iter r = [(B_Unbounded, flip lo)].
Proof.
  intros Hb r. assert (segment_valid version_wf (lo, B_Unbounded)) as Hs by (split; [apply Hv|done]).
  pose proof (rs_ok_from_range_bounds _ Hs : okV _) as Ho. split; [by apply rs_ok_complement|]. unfold r.
  rewrite rs_iter_complement, rs_iter_from_range_bounds by done.
  rewrite (proj2 (proper_at version_wf (lo, B_Unbounded) Hs)) by (by destruct lo). cbn. by rewrite Hb.
Qed.

Lemma above_iter : no_bound hi = false -> let r := rs_complement (rs_from_range_bounds (B_Unbounded, hi)) : RV in
  okV r /\ rs_iter r = [(flip hi, B_Unbounded)].
Proof.
  intros Hb r. assert (segment_valid version_wf (B_Unbounded, hi)) as Hs by (split; [done|apply Hv]).
  pose proof (rs_ok_from_range_bounds _ Hs : okV _) as Ho. split; [by apply rs_ok_complement|]. unfold r.
  rewrite rs_iter_complement, rs_iter_from_range_bounds by done.
  rewrite (proj2 (proper_at version_wf (B_Unbounded, hi) Hs)) by (by destruct hi). cbn. by rewrite Hb.
Qed.

Lemma point_bottom x : cmp (point x) bottom <> Lt.
Proof. done. Qed.

Lemma exclude_below_spec k p q e k' : k = e :: k' -> all_ok k -> tiled p q k -> cmp p L <> Gt ->
  (forall s, rs_iter e.1 = [s] -> cmp L (upper_at (snd s)) = Lt) -> low k ->
  exists new, exclude_below lo exclude k = Some new /\ all_ok new /\ tiled bottom q new /\ new <> [] /\ low new /\
    (forall c, c ∈ new.*2 -> c = exclude \/ c ∈ k.*2) /\
    (forall x c, version_wf x -> cmp L (point x) = Lt -> has x c k -> has x c new) /\
    (forall x, version_wf x -> cmp (point x) L = Lt -> has x exclude new).
Proof.
  intros Ek Hok Ht Hp Hup Hlow. pose proof Ht as Ht'. rewrite Ek in Ht'. destruct e as [r0 c0]. destruct Ht' as (s0&Es0&Hs0&Hps&Hlts&_).
  specialize (Hup s0 Es0). assert (okV r0) as Ho0 by (rewrite Ek in Hok; by apply Forall_cons in Hok as [? _]).
  assert (forall b, cmp (lower_at b) U = Lt -> forall r, rs_iter r = [(b, snd s0)] -> low ((r, c0) :: k')) as Hlow'.
  { intros b Hb r Er e s [-> | Hin]%elem_of_cons Es; [cbn in Es; rewrite Er in Es; by injection Es as <-|].
    apply (Hlow e); [rewrite Ek; by right|done]. }
  unfold exclude_below. destruct (is_unbounded lo) eqn:Eb.
  { exists k. assert (lo = B_Unbounded) as El by (by destruct lo). split_and!; try done; [|by rewrite Ek| |].
    - eapply tiled_eq_l; [|exact Ht]. pose proof (bottom_le version_wf (lower_at (fst s0)) (or_introl (ex_intro _ _ eq_refl))) as Hbl.
      assert (cmp p bottom <> Gt) as Hpb by (by rewrite El in Hp). order_lia [p; lower_at (fst s0); bottom : place key_type].
    - intros c Hc. by right.
    - intros x Hx Hlt'. rewrite El in Hlt'. by apply point_bottom in Hlt'. }
  rewrite Ek. cbn [head mbind option_bind snd]. destruct (N.eqb_spec exclude c0) as [<- | Hne].
  - destruct (update_first_spec B_Unbounded p q k (r0, exclude) k' s0 Hok Ek Ht Es0 I (upper_at_bottom _ _)) as (r&E&Ho&Htr&Er&Hr).
    rewrite <- Ek, E. cbn [snd] in *. eexists. split; [done|]. split_and!; [done..| | | |].
    + apply (Hlow' B_Unbounded); [by destruct hi|done].
    + intros c Hc. right. by rewrite Ek.
    + intros x c Hx Hl Hh. rewrite Ek in Hh. by apply (first_has B_Unbounded (r0, exclude) k' s0 r x c Ho0 Hs0 Es0 Hx Hr eq_refl) in Hh.
    + intros x Hx Hl. exists r. split; [left|]. apply Hr; [done|done|]. order_lia [point x; L; upper_at (snd s0)].
  - destruct (update_first_spec lo p q k (r0, c0) k' s0 Hok Ek Ht Es0 ltac:(apply Hv) Hup) as (r&E&Ho&Htr&Er&Hr).
    rewrite <- Ek, E. cbn [snd mbind option_bind] in *. eexists. split; [done|].
    assert (no_bound lo = false) as Enb by (by destruct lo). destruct (below_iter Enb) as [Hob Eib].
    split_and!; [by constructor| |done| | | |].
    + eapply (tiled_cons version_wf _ _ _ _ _ (B_Unbounded, flip lo)); [done|split; [done|by apply flip_valid, Hv]|done|by destruct lo|].
      cbn [snd]. by rewrite (flip_upper version_wf) by done.
    + intros e s [-> | Hin]%elem_of_cons Es; [cbn in Es; rewrite Eib in Es; injection Es as <-; by destruct hi|]. by apply (Hlow' lo Hlt r Er e).
    + intros c [-> | Hc]%elem_of_cons; [by left|]. right. by rewrite Ek.
    + intros x c Hx Hl Hh. rewrite Ek in Hh. apply (first_has lo (r0, c0) k' s0 r x c Ho0 Hs0 Es0 Hx Hr Hl) in Hh as (r'&Hin&Hc).
      exists r'. split; [by right|done].
    + intros x Hx Hl. eexists. split; [left|]. eapply (contains_between _ (B_Unbounded, flip lo)); [done|split; [done|by apply flip_valid, Hv]|done|done|].
      cbn [fst snd]. rewrite (flip_upper version_wf) by done. done.
Qed.

Lemma exclude_above_spec k q : all_ok k -> tiled bottom q k -> k <> [] -> cmp U q <> Gt -> low k ->
  exists new, exclude_above hi exclude k = Some new /\ all_ok new /\ tiled bottom top new /\
    (forall c, c ∈ new.*2 -> c = exclude \/ c ∈ k.*2) /\
    (forall x c, version_wf x -> cmp (point x) U = Lt -> has x c k -> has x c new) /\
    (forall x, version_wf x -> cmp U (point x) = Lt -> has x exclude new).
Proof.
  intros Hok Ht Hne Hq Hlow. destruct (exists_last Hne) as (k'&[r0 c0]&Ek). pose proof Ht as Ht'. rewrite Ek in Ht'.
  apply tiled_app_inv in Ht' as (m&_&Ht'). destruct Ht' as (s0&Es0&Hs0&Hps&Hlts&Hq0). assert (cmp (upper_at (snd s0)) q = Eq) as Hq1 by exact Hq0. clear Hq0.
  assert (okV r0) as Ho0 by (rewrite Ek in Hok; by apply Forall_app in Hok as [_ [? _]%Forall_cons]).
  assert (cmp (lower_at (fst s0)) U = Lt) as Hlo by (apply (Hlow (r0, c0)); [rewrite Ek; apply elem_of_app; right; left|done]).
  unfold exclude_above. destruct (is_unbounded hi) eqn:Eb.
  { exists k. assert (hi = B_Unbounded) as El by (by destruct hi). split_and!; try done.
    - eapply tiled_eq_r; [|exact Ht]. pose proof (le_top version_wf (upper_at (snd s0)) (or_intror (ex_intro _ _ eq_refl))) as Hbl.
      assert (cmp top q <> Gt) as Hpb by (by rewrite El in Hq). order_lia [q; upper_at (snd s0); top : place key_type].
    - intros c Hc. by right.
    - intros x Hx Hlt'. by rewrite El in Hlt'. }
  rewrite Ek, last_snoc. cbn [mbind option_bind snd]. destruct (N.eqb_spec exclude c0) as [<- | Hnc].
  - destruct (update_last_spec B_Unbounded _ _ k (r0, exclude) k' s0 Hok Ek Ht Es0 I (lower_at_top _ _)) as (r&E&Ho&Htr&Er&Hr).
    rewrite <- Ek, E. cbn [snd] in *. eexists. split; [done|]. split_and!; [done..| | |].
    + intros c Hc. right. rewrite Ek, fmap_app. by rewrite fmap_app in Hc.
    + intros x c Hx Hl Hh. rewrite Ek in Hh. by apply (last_has B_Unbounded (r0, exclude) k' s0 r x c Ho0 Hs0 Es0 Hx Hr eq_refl) in Hh.
    + intros x Hx Hl. exists r. split; [apply elem_of_app; right; left|]. apply Hr; [done| |done]. order_lia [point x; U; lower_at (fst s0)].
  - destruct (update_last_spec hi _ _ k (r0, c0) k' s0 Hok Ek Ht Es0 ltac:(apply Hv) Hlo) as (r&E&Ho&Htr&Er&Hr).
    rewrite <- Ek, E. cbn [snd mbind option_bind] in *. eexists. split; [done|].
    assert (no_bound hi = false) as Enb by (by destruct hi). destruct (above_iter Enb) as [Hob Eib].
    split_and!; [by apply Forall_app_2; [|constructor]| | | |].
    + eapply tiled_app; [exact Htr|]. eapply (tiled_cons version_wf _ _ _ _ _ (flip hi, B_Unbounded)); [done|split; [by apply flip_valid, Hv|done]| |by destruct hi|apply cmp_refl].
      cbn [fst]. rewrite (flip_lower version_wf) by done. apply cmp_refl.
    + intros c Hc. rewrite fmap_app, elem_of_app in Hc. destruct Hc as [Hc| ->%list_elem_of_singleton]; [|by left]. right. rewrite Ek, fmap_app. by rewrite fmap_app in Hc.
    + intros x c Hx Hl Hh. rewrite Ek in Hh. apply (last_has hi (r0, c0) k' s0 r x c Ho0 Hs0 Es0 Hx Hr Hl) in Hh as (r'&Hin&Hc).
      exists r'. split; [apply elem_of_app; by left|done].
    + intros x Hx Hl. eexists. split; [apply elem_of_app; right; left|].
      eapply (contains_between _ (flip hi, B_Unbounded)); [done|split; [by apply flip_valid, Hv|done]|done|done|].
      cbn [fst snd]. rewrite (flip_lower version_wf) by done. done.
Qed.

(** [complexified_edges] tiles all versions; inside the bounds nothing changes, and
    the rest goes to [exclude]. *)
Lemma complexified_edges_spec l : partition version_wf okV l ->
  exists new, complexified_edges lo hi py exclude l = Some new /\ partition version_wf okV new /\
    (forall c, c ∈ new.*2 -> c = exclude \/ c ∈ l.*2) /\
    forall x, version_wf x -> pick x new = if segment_contains x (lo, hi) then pick x l else Some exclude.
Proof.
  intros Hp. pose proof Hp as [Hok Ht]. unfold complexified_edges. change (List.filter _ l) with (kept l).
  assert (cmp U top <> Gt) as Htop by (by destruct hi). assert (cmp bottom U = Lt) as Hbot by (by destruct hi). assert (cmp bottom L <> Gt) as HbL by (by destruct lo).
  destruct (kept_tiled l Hok _ _ Ht Hbot Htop) as (p&q&Hk&Hne&Hq&HpL&_). specialize (HpL HbL). pose proof (kept_ok l Hok) as Hkok.
  assert (forall e s, e ∈ kept l -> rs_iter e.1 = [s] -> cmp L (upper_at (snd s)) = Lt /\ cmp (lower_at (fst s)) U = Lt) as Hmeet.
  { intros e s [Hin Ee]%kept_in Es. pose proof (rs_iter_valid e.1 (proj1 (Forall_forall _ _) Hok e Hin)) as Hsv. rewrite Es in Hsv. apply Forall_cons in Hsv as [Hsv _].
    apply (meets e.1 s); [by apply (proj1 (Forall_forall _ _) Hok e Hin)|done|done| |done].
    pose proof (rs_iter_ascending e.1 (proj1 (Forall_forall _ _) Hok e Hin)) as Ha. rewrite Es in Ha. cbn in Ha. rewrite andb_true_r in Ha.
    by apply (proper_at version_wf s Hsv). }
  destruct (kept l) as [|e k'] eqn:Ek; [done|]. cbn [head mbind option_bind].
  destruct (exclude_below_spec (e :: k') p q e k' eq_refl Hkok Hk HpL) as (new1&E1&Hok1&Ht1&Hne1&Hlow1&Hn1&Hh1&Hx1).
  { intros s Es. apply (Hmeet e); [left|done]. }
  { intros e' s Hin Es. by apply (Hmeet e'). }
  rewrite E1. cbn [mbind option_bind].
  destruct (exclude_above_spec new1 q Hok1 Ht1 Hne1 Hq Hlow1) as (new&E2&Hok2&Ht2&Hn2&Hh2&Hx2).
  exists new. split; [done|]. assert (partition version_wf okV new) as Hpn by done. split; [done|]. split.
  - intros c Hc. destruct (Hn2 c Hc) as [-> | Hc1]; [by left|]. destruct (Hn1 c Hc1) as [-> | Hc2]; [by left|]. right.
    rewrite <- Ek in Hc2. apply list_elem_of_fmap in Hc2 as (e'&->&[Hin _]%kept_in). by apply list_elem_of_fmap_2.
  - intros x Hx. rewrite (segment_between version_wf _ _ Hv Hx). unfold between, cmp_ltb. cbn [fst snd].
    pose proof (lower_at_point version_wf lo x) as HnL. pose proof (upper_at_point version_wf hi x) as HnU.
    destruct (cmp L (point x)) eqn:EL; [done| |].
    + destruct (cmp (point x) U) eqn:EU; cbn [andb].
      * exfalso. apply HnU. by apply cmp_eq_sym.
      * destruct (partition_some version_wf okV l x Hp Hx) as (c&Hc). rewrite Hc. apply has_pick; [done..|]. apply Hh2; [done..|]. apply Hh1; [done..|].
        rewrite <- Ek. apply kept_has; [done..|]. by apply pick_has.
      * apply has_pick; [done..|]. apply Hx2; [done|]. by apply cmp_gt_lt.
    + apply has_pick; [done..|]. apply Hh2; [done|order_lia [L; U; point x]|]. apply Hx1; [done|]. by apply cmp_gt_lt.
Qed.
End bounds.
End clip.

(** ** Assuming and requiring a Python range

    [simplify_python_versions] may change a marker outside the given range but not
    inside it; [complexify_python_versions] conjoins the range. The latter puts nodes
    on [python_full_version] below others, so its interner is sound but not ordered. *)

Section python.
Context {RV RS : Type} {SV : RangeSet Version RV} {SS : RangeSet text RS}.
Context (okV : RV -> Prop) (okS : RS -> Prop).
Context {LV : RangeSetLaws Version RV version_wf okV} {LS : RangeSetLaws text RS (fun _ => True) okS}.
Abbreviation Node := (@Node RV RS).
Abbreviation Interner := (@Interner RV RS).
Abbreviation sound := (interner_wf okV okS false).

Lemma var_lt_false (ns : list Node) v id : var_lt false ns v id.
Proof. unfold var_lt. by destruct (shared_node ns id). Qed.

(** An ordered interner is sound. *)
Lemma sound_of_wf s : interner_wf okV okS true s -> sound s.
Proof.
  intros [Ht Hu Hd Hc Hx]. split; try done.
  - intros k n Hn. destruct (Ht k n Hn) as [He Hch Hr]. split; [done| |done]. eapply Forall_impl; [done|].
    intros c [Hp _]. split; [done|apply var_lt_false].
  - intros x y z Hz. destruct (Hc x y z Hz) as (Hxv&Hyv&[Hv He _]). split_and!; [done..|]. split; [done..|].
    intros v _ _. apply var_lt_false.
Qed.

End python.

Section rebuild.
Context {RV RS : Type} {SV : RangeSet Version RV} {SS : RangeSet text RS}.
Context (okV : RV -> Prop) (okS : RS -> Prop) (ordered : bool).
Context {LV : RangeSetLaws Version RV version_wf okV} {LS : RangeSetLaws text RS (fun _ => True) okS}.
Context (P : assignment -> Prop) (Pwf : forall a, P a -> assignment_wf a) (V : assignment -> bool -> bool).
Abbreviation Node := (@Node RV RS).
Abbreviation Interner := (@Interner RV RS).
Abbreviation wf := (interner_wf okV okS ordered).
Abbreviation var_lt := (MarkerWf.var_lt ordered).

Abbreviation transforms := (MarkerOps.transforms okV okS ordered P (fun f a v => v = V a (f a)) (fun _ => True)).

(** Replacing the edges of a node on [python_full_version]. *)
Lemma replace_edges s i n l new : wf s -> shared_node (nodes s) i = Some n -> python_edges n = Some l -> partition version_wf okV new ->
  (forall c, c ∈ new.*2 -> position c = O \/ c ∈ l.*2) ->
  (forall a c, P a -> pick (a_version a CV_PythonFullVersion) l = Some c ->
     exists c', pick (a_version a CV_PythonFullVersion) new = Some c' /\
       eval (nodes s) a (NodeId.negate c' i) = V a (eval (nodes s) a (NodeId.negate c i))) ->
  spec (let! z := create_node (var n) (E_Version new) in mret (NodeId.negate z i)) s (transforms s i).
Proof.
  intros Hs Hn Hpy Hp Hin HV. destruct (node_position okV okS ordered _ _ _ (wf_table _ _ _ _ Hs) Hn) as [He Hc].
  assert (var n = V_Version CV_PythonFullVersion /\ children n = E_Version l) as [Ev Ec].
  { unfold python_edges in Hpy. destruct (var n) as [|k| | | |], (children n); try done; destruct k; try done. by injection Hpy as <-. }
  apply spec_bind. eapply spec_mono.
  { apply (create_node_decides okV okS ordered); [done|by rewrite Ev|]. apply Forall_forall. intros c Hcn. cbn in Hcn.
    destruct (Hin c Hcn) as [Hpos|Hl]; [split; [by apply terminal_valid|by apply terminal_var_lt]|].
    destruct (Hc c) as (Hcv&_&Hcl); [by rewrite Ec|done]. }
  intros z s' (H1&Hs'&Hz&Hv&Hd). apply spec_ret. split_and!; [done|done|done|by apply valid_negate| |].
  - intros v Hvi. apply var_lt_negate, Hv. unfold MarkerWf.var_lt in Hvi. by rewrite Hn in Hvi.
  - intros a Ha. destruct (choose_some okV okS a _ _ (Pwf a Ha) He) as (c&Hcn&_). pose proof Hcn as Hcn'. rewrite Ev, Ec in Hcn'. cbn in Hcn'.
    destruct (HV a c Ha Hcn') as (c'&Hc'&Hval).
    rewrite (eval_chosen okV okS ordered (nodes s) a i n c); [|apply Hs|by apply Pwf|done|done]. rewrite <- Hval, !eval_negate. f_equal.
    apply Hd; [by apply Pwf|]. by rewrite Ev.
Qed.
End rebuild.

Section bounds.
Context {RV RS : Type} {SV : RangeSet Version RV} {SS : RangeSet text RS}.
Context (okV : RV -> Prop) (okS : RS -> Prop).
Context {LV : RangeSetLaws Version RV version_wf okV} {LS : RangeSetLaws text RS (fun _ => True) okS}.
Context (lo hi : bound Version) (Hv : segment_valid version_wf (lo, hi)).
Abbreviation inside a := (segment_contains (a_version a CV_PythonFullVersion) (lo, hi)).
Abbreviation py := (rs_from_range_bounds (lo, hi) : RV).

Lemma py_proper : rs_is_empty py = false -> cmp (lower_at version_wf lo) (upper_at version_wf hi) = Lt.
Proof.
  rewrite rs_empty_iter by (by apply rs_ok_from_range_bounds). rewrite rs_iter_from_range_bounds by done.
  destruct (segment_proper (lo, hi)) eqn:E; [|done]. intros _. by apply (proper_at version_wf (lo, hi)).
Qed.

Lemma py_empty a : rs_is_empty py = true -> assignment_wf a -> inside a = false.
Proof.
  intros E Ha. pose proof (rs_empty_none py (a_version a CV_PythonFullVersion) (rs_ok_from_range_bounds _ Hv) (Ha _) E) as H.
  by rewrite rs_contains_from_range_bounds in H.
Qed.

Lemma simplify_loop_spec ordered : forall fuel s i, interner_wf okV okS ordered s -> valid_id (nodes s) i -> (position i < fuel)%nat ->
  spec (simplify_loop fuel lo hi i) s (transforms okV okS ordered (fun a => assignment_wf a /\ inside a = true) (fun f a v => v = f a) (fun _ => True) s i).
Proof.
  induction fuel as [|fuel IH]; intros s i Hs Hi Hlt; [lia|]. cbn [simplify_loop].
  destruct (NodeId.is_true i || NodeId.is_false i) eqn:Et; [by apply spec_ret|]. cbn [orb].
  destruct (is_unbounded lo && is_unbounded hi); [by apply spec_ret|].
  assert (i <> NodeId.TRUE /\ i <> NodeId.FALSE) as [Hnt Hnf].
  { unfold NodeId.is_true, NodeId.is_false in Et. apply orb_false_iff in Et as [E1%N.eqb_neq E2%N.eqb_neq]. done. }
  apply spec_bind, get_node_spec; [done..|]. intros n Hn. destruct (python_edges n) as [l|] eqn:Ep.
  - destruct (node_position okV okS ordered _ _ _ (wf_table _ _ _ _ Hs) Hn) as [He _].
    assert (partition version_wf okV l) as Hpl.
    { unfold python_edges in Ep. destruct (var n) as [|k| | | |], (children n); try done; destruct k; try done. by injection Ep as <-. }
    destruct (rs_is_empty py) eqn:Ee.
    { apply spec_ret. split_and!; [done|done|done|by apply terminal_valid|by intros; apply terminal_var_lt|]. intros a [Ha Hin]. by rewrite py_empty in Hin. }
    destruct (simplified_edges_spec okV lo hi Hv (py_proper Ee) l Hpl) as (new&En&Hpn&Hin&Hpick).
    apply spec_bind, (spec_intro _ _ _ new s); [unfold mlift; by rewrite En|].
    eapply (replace_edges okV okS ordered _) with (V := fun _ b => b); [by intros a []|done|done|done|done|by intros c Hc; right; apply Hin|].
    intros a c [Ha Hia] Hc. exists c. split; [|done]. by rewrite Hpick.
  - apply (rebuild_spec okV okS ordered); [by intros a []|by intros f f' a v E ->|done..| |].
    { intros a c v [Ha _] Hc ->. symmetry. by apply (eval_chosen okV okS ordered _ _ _ n); [apply Hs|..]. }
    intros s1 c H1 Hs1 _ Hin.
    destruct (node_position okV okS ordered _ _ _ (wf_table _ _ _ _ Hs) Hn) as [_ Hpos]. destruct (Hpos c Hin) as (Hcv&Hcp&_).
    apply IH; [done|apply valid_negate; by eapply extends_valid|rewrite position_negate; lia].
Qed.

Lemma complexify_loop_spec : forall fuel s i, interner_wf okV okS false s -> valid_id (nodes s) i -> (position i < fuel)%nat ->
  spec (complexify_loop fuel lo hi i) s (transforms okV okS false assignment_wf (fun f a v => v = f a && inside a) (fun _ => True) s i).
Proof.
  induction fuel as [|fuel IH]; intros s i Hs Hi Hlt; [lia|]. cbn [complexify_loop].
  destruct (is_unbounded lo && is_unbounded hi) eqn:Eu.
  { rewrite orb_true_r. apply spec_ret. split_and!; [done..|]. intros a _. apply andb_prop in Eu as [E1 E2].
    destruct lo, hi; try done. unfold segment_contains. cbn. by rewrite andb_true_r. }
  rewrite orb_false_r. unfold NodeId.is_true, NodeId.is_false. destruct (N.eqb_spec i NodeId.FALSE) as [->|Hf].
  { apply spec_ret. split_and!; [done..|]. intros a _. by rewrite eval_false. }
  destruct (rs_is_empty py) eqn:Hne.
  { apply spec_ret. split_and!; [done|done|done|by apply terminal_valid|intros; apply var_lt_false|]. intros a Ha. rewrite eval_false, py_empty by done. by rewrite andb_false_r. }
  destruct (N.eqb_spec i NodeId.TRUE) as [->|Ht].
  - assert (okV py) as Hok by (by apply rs_ok_from_range_bounds).
    destruct (from_range_spec version_wf okV _ Hok) as (l&El&_). apply spec_bind, (spec_intro _ _ _ l s); [unfold mlift; by rewrite El|].
    apply spec_bind. eapply spec_mono; [by apply (create_version_range okV okS false)|]. intros z s' (H1&Hs'&Hz&He).
    apply spec_ret. change (NodeId.negate z NodeId.TRUE) with z. split_and!; [done..|intros; apply var_lt_false|].
    intros a Ha. rewrite He, eval_true by done. apply rs_contains_from_range_bounds.
  - apply spec_bind, get_node_spec; [done..|]. intros n Hn. destruct (python_edges n) as [l|] eqn:Ep.
    + destruct (node_position okV okS false _ _ _ (wf_table _ _ _ _ Hs) Hn) as [He _].
      assert (partition version_wf okV l) as Hpl.
      { unfold python_edges in Ep. destruct (var n) as [|k| | | |], (children n); try done; destruct k; try done. by injection Ep as <-. }
      destruct (complexified_edges_spec okV lo hi Hv (py_proper Hne) (NodeId.negate NodeId.FALSE i) l Hpl) as (new&En&Hpn&Hin&Hpick).
      apply spec_bind, (spec_intro _ _ _ new s); [unfold mlift; by rewrite En|].
      eapply (replace_edges okV okS false _) with (V := fun a b => b && inside a); [done|done|done|done|done| |].
      { intros c Hc. destruct (Hin c Hc) as [-> | ?]; [left; by rewrite position_negate|by right]. }
      intros a c Ha Hc. rewrite Hpick by apply Ha. destruct (inside a); [exists c; split; [done|by rewrite andb_true_r]|].
      eexists. split; [done|]. rewrite !eval_negate, eval_false, andb_false_r. by destruct (N.odd i).
    + apply (rebuild_spec okV okS false); [done|by intros f f' a v E ->; rewrite E|done..| |].
      { intros a c v Ha Hc ->. f_equal. symmetry. by apply (eval_chosen okV okS false _ _ _ n); [apply Hs|..]. }
      intros s1 c H1 Hs1 _ Hin.
      destruct (node_position okV okS false _ _ _ (wf_table _ _ _ _ Hs) Hn) as [_ Hpos]. destruct (Hpos c Hin) as (Hcv&Hcp&_).
      apply IH; [done|apply valid_negate; by eapply extends_valid|rewrite position_negate; lia].
Qed.
End bounds.
