(* ===== verification/MarkerProject.v ===== *)
(** * Projecting variables out ([without_extras], [only_extras])

    A projection replaces each node on a dropped variable by the disjunction of its
    children. The result holds wherever the marker holds for some values of the
    dropped variables, and only there if these are Boolean, as extras are. *)

From stdpp Require Import base numbers list strings gmap.
From S2P Require Import Prelude VersionTypes VersionSmall Version VersionFacts VersionParser Specifier Ranges Names Text RangeSet Tiling MarkerTypes MarkerAlgebra MarkerEval MarkerWf MarkerEdges MarkerExpr MarkerOps MarkerTreeFacts.

(** ** Assignments that agree *)

Definition agree (v : MarkerVariable) (a b : assignment) : Prop :=
  match v with
  | V_String k => a_string a k = a_string b k
  | V_Version k => a_version a k = a_version b k
  | v => a_bool a v = a_bool b v
  end.

(** [b] has the values of [a] but for the dropped variables. *)
Definition similar (drop : MarkerVariable -> bool) (a b : assignment) : Prop :=
  admissible b /\ forall v, drop v = false -> agree v a b.

(** The value of a variable can be replaced. *)
Definition set_bool (v : MarkerVariable) (x : bool) (a : assignment) : assignment :=
  {| a_string := a_string a; a_version := a_version a; a_bool := fun w => if bool_decide (w = v) then x else a_bool a w |}.

Lemma set_bool_admissible v x a : admissible a -> admissible (set_bool v x a).
Proof. done. Qed.

Section project.
Context {RV RS : Type} {SV : RangeSet Version RV} {SS : RangeSet text RS}.
Context (okV : RV -> Prop) (okS : RS -> Prop).
Context {LV : RangeSetLaws Version RV version_wf okV} {LS : RangeSetLaws text RS (fun _ => True) okS}.
Abbreviation Edges := (@Edges RV RS).
Abbreviation Node := (@Node RV RS).
Abbreviation Interner := (@Interner RV RS).
Abbreviation wf := (interner_wf okV okS true).
Abbreviation var_lt := (MarkerWf.var_lt true).

Lemma agree_choose a b v (e : Edges) : agree v a b -> choose a v e = choose b v e.
Proof. destruct v, e; cbn; try done; by intros ->. Qed.

(** A node does not depend on the variables before its own. *)
Lemma eval_after (ns : list Node) v a b : table_ok okV okS true ns -> assignment_wf a -> assignment_wf b ->
  (forall w, cmp v w = Lt -> agree w a b) -> forall k i, (position i < k)%nat -> var_lt ns v i -> valid_id ns i ->
  eval ns a i = eval ns b i.
Proof.
  intros Ht Ha Hb Hag. induction k as [|k IH]; intros i Hk Hv Hi; [lia|].
  destruct (shared_node ns i) as [n|] eqn:En.
  - unfold MarkerWf.var_lt in Hv. rewrite En in Hv. specialize (Hv eq_refl).
    destruct (node_position okV okS true ns i n Ht En) as [He Hc]. destruct (choose_some okV okS a _ _ Ha He) as (c&Hch&Hin).
    destruct (Hc c Hin) as (Hcv&Hcp&Hcl). pose proof (agree_choose a b (var n) (children n) (Hag _ Hv)) as Hab.
    rewrite (eval_chosen okV okS true ns a i n c), (eval_chosen okV okS true ns b i n c) by (done || congruence).
    rewrite !eval_negate. f_equal. apply IH; [lia| |done]. eapply var_lt_trans; [|exact Hcl]. done.
  - apply shared_node_none, terminal_position in En; [|done]. destruct En as [-> | ->]; by rewrite ?eval_true, ?eval_false.
Qed.

(** ** How often a projection can descend *)

Context (vars : list MarkerVariable).

Definition later (v : MarkerVariable) : nat := count_if (fun w => cmp_ltb v w) vars.

Definition height (ns : list Node) (i : NodeId) : nat :=
  match shared_node ns i with Some n => S (later (var n)) | None => O end.

Abbreviation known := (vars_ok (RV := RV) (RS := RS) (fun v => v ∈ vars)).

Lemma later_lt v w : w ∈ vars -> cmp v w = Lt -> (later w < later v)%nat.
Proof.
  intros Hw E. unfold later. induction vars as [|x l IH]; [by apply not_elem_of_nil in Hw|]. cbn.
  assert (count_if (fun y => cmp_ltb w y) l <= count_if (fun y => cmp_ltb v y) l)%nat as Hle.
  { apply count_if_le. intros y. unfold cmp_ltb. destruct (cmp w y) eqn:Ey; try done. intros _. by rewrite (cmp_lt_trans v w y E Ey). }
  apply elem_of_cons in Hw as [<- | Hw].
  - unfold cmp_ltb at 1 3. rewrite E, cmp_refl. lia.
  - specialize (IH Hw). assert ((if cmp_ltb w x then 1 else 0) <= (if cmp_ltb v x then 1 else 0))%nat; [|lia].
    unfold cmp_ltb. destruct (cmp w x) eqn:Ex; try lia. by rewrite (cmp_lt_trans v w x E Ex).
Qed.

Lemma later_bound v : v ∈ vars -> (later v < length vars)%nat.
Proof.
  intros Hv. unfold later. assert (forall l, count_if (fun w => cmp_ltb v w) l <= length l)%nat as Hle.
  { induction l as [|x l IH]; cbn; [lia|]. case_match; lia. }
  induction vars as [|x l IH]; [by apply not_elem_of_nil in Hv|]. cbn. apply elem_of_cons in Hv as [<- | Hv].
  - unfold cmp_ltb at 1. rewrite cmp_refl. specialize (Hle l). lia.
  - specialize (IH Hv). case_match; lia.
Qed.

Lemma shared_var s i n : known s -> shared_node (nodes s) i = Some n -> var n ∈ vars.
Proof. intros Hk (k&_&Hn)%shared_node_spec. exact (proj1 (Forall_lookup _ _) Hk _ _ Hn). Qed.

Lemma height_var_lt s v i : known s -> var_lt (nodes s) v i -> (height (nodes s) i <= later v)%nat.
Proof.
  intros Hk Hv. unfold height, MarkerWf.var_lt in *. destruct (shared_node (nodes s) i) as [n|] eqn:En; [|lia].
  apply later_lt; [by eapply shared_var|auto].
Qed.

(** ** Disjunctions of children *)

Context (Hstring : forall k, is_conflicting k = true -> V_String k ∈ vars).

Lemma or_spec s x y : wf s -> known s -> valid_id (nodes s) x -> valid_id (nodes s) y ->
  spec (or_ x y) s (fun z s' => extends s s' /\ wf s' /\ known s' /\ valid_id (nodes s') z /\
    (forall v, var_lt (nodes s) v x -> var_lt (nodes s) v y -> var_lt (nodes s') v z) /\
    forall a, admissible a -> eval (nodes s') a z = eval (nodes s) a x || eval (nodes s) a y).
Proof.
  intros Hs Hk Hx Hy. apply spec_bind. eapply spec_mono; [apply spec_result, (and_spec okV okS true); [done|by apply valid_not..]|].
  intros z s' (E&H1&Hs'&Hz). apply spec_ret. split_and!; [done|done| |apply valid_not, Hz| |].
  - by eapply (keeps_and _ Hstring).
  - intros v Hvx Hvy. apply var_lt_not, (conj_above _ _ _ _ _ Hz); apply var_lt_not; by eapply extends_var_lt.
  - intros a Ha. rewrite eval_not, (conj_eval _ _ _ _ _ Hz a Ha), !eval_not, !(extends_eval s s') by done.
    by destruct (eval _ a x), (eval _ a y).
Qed.

Lemma or_children_spec parent cs : forall s i, wf s -> known s -> valid_id (nodes s) i -> Forall (valid_id (nodes s)) cs ->
  spec (or_children parent cs i) s (fun z s' => extends s s' /\ wf s' /\ known s' /\ valid_id (nodes s') z /\
    (forall v, var_lt (nodes s) v i -> Forall (var_lt (nodes s) v) cs -> var_lt (nodes s') v z) /\
    forall a, admissible a -> eval (nodes s') a z = eval (nodes s) a i || existsb (fun c => eval (nodes s) a (NodeId.negate c parent)) cs).
Proof.
  induction cs as [|c cs IH]; intros s i Hs Hk Hi Hcs; cbn [or_children].
  - apply spec_ret. split_and!; try done. intros a _. cbn. by rewrite orb_false_r.
  - apply Forall_cons in Hcs as [Hc Hcs]. apply spec_bind. eapply spec_mono; [apply or_spec; [done|done|done|by apply valid_negate]|].
    intros z s1 (H1&Hs1&Hk1&Hz&Hv&He). eapply spec_mono; [apply IH; [done|done|done|]|].
    { eapply Forall_impl; [exact Hcs|]. intros d. by apply extends_valid. }
    intros z' s2 (H2&Hs2&Hk2&Hz'&Hv'&He'). split_and!; [by etrans|done..| |].
    + intros v Hvi [Hvc Hvcs]%Forall_cons. apply Hv'; [apply Hv; [done|by apply var_lt_negate]|].
      rewrite Forall_forall in *. intros d Hd. by eapply extends_var_lt; [..|apply Hvcs]; [done|apply Hcs|].
    + intros a Ha. rewrite He', He by done. cbn [existsb]. rewrite <- orb_assoc. do 2 f_equal.
      clear -Hcs H1. induction Hcs as [|d cs Hd _ IH]; cbn; [done|]. by rewrite IH, (extends_eval s s1) by (done || by apply valid_negate).
Qed.

(** ** The projection *)

Context (drop : MarkerVariable -> bool).

(** The projected value: an upper bound, exact if only Boolean variables are dropped. *)
Definition projected (f : assignment -> bool) (a : assignment) (v : bool) : Prop :=
  (forall b, similar drop a b -> f b = true -> v = true) /\
  ((forall w, drop w = true -> is_boolean w = true) -> v = true -> exists b, similar drop a b /\ f b = true).

Lemma projected_ext f f' a v : (forall b, f b = f' b) -> projected f a v -> projected f' a v.
Proof. intros E [H1 H2]. split; [intros b Hb Hf; apply (H1 b Hb); by rewrite E|]. intros Hd Hv. destruct (H2 Hd Hv) as (b&Hb&Hf). exists b. by rewrite <- E. Qed.

Lemma similar_refl a : admissible a -> similar drop a a.
Proof. intros Ha. split; [done|]. intros v _. by destruct v. Qed.

Lemma agree_set_bool v w x a b : w <> v -> agree w a b -> agree w a (set_bool v x b).
Proof. intros Hne Hw. destruct w; try done; cbn in *; by rewrite bool_decide_eq_false_2. Qed.

(** What holds for some child holds for some value of the node's variable. *)
Lemma some_child s i n a b c : wf s -> shared_node (nodes s) i = Some n -> drop (var n) = true -> is_boolean (var n) = true ->
  similar drop a b -> c ∈ edges_nodes (children n) -> eval (nodes s) b (NodeId.negate c i) = true ->
  exists b', similar drop a b' /\ eval (nodes s) b' i = true.
Proof.
  intros Hs Hn Hd Hb [Hadm Hag] Hin Hev. destruct (node_position okV okS true _ _ _ (wf_table _ _ _ _ Hs) Hn) as [He Hc].
  assert (exists high low, children n = E_Boolean high low) as (high&low&Ech).
  { destruct (var n), (children n); try done; by do 2 eexists. }
  exists (set_bool (var n) (bool_decide (c = high)) b). split.
  - split; [done|]. intros w Hw. apply agree_set_bool; [intros ->; congruence|by apply Hag].
  - destruct (Hc c Hin) as (Hcv&Hcp&Hcl).
    assert (choose (set_bool (var n) (bool_decide (c = high)) b) (var n) (children n) = Some c) as Hch.
    { rewrite Ech in *. assert (c = high \/ c = low) as Hor by (clear -Hin; set_solver). clear Hin.
      assert ((if bool_decide (c = high) then high else low) = c) as Hsel by (case_bool_decide; [done|by destruct Hor]).
      clear -Hsel Hb. destruct (var n); try done; cbn; rewrite bool_decide_eq_true_2 by done; by f_equal. }
    rewrite (eval_chosen okV okS true (nodes s) _ i n c); [|apply Hs|apply Hadm|done|done]. rewrite <- Hev, !eval_negate. f_equal.
    apply (eval_after (nodes s) (var n) _ _ (wf_table _ _ _ _ Hs)) with (k := S (position c)); [apply Hadm|apply Hadm| |lia|done|done].
    intros w Hw. destruct w; try done; cbn; rewrite bool_decide_eq_false_2; try done; intros Ew; rewrite <- Ew, cmp_refl in Hw; done.
Qed.

Lemma projected_children s i n a v : wf s -> shared_node (nodes s) i = Some n -> drop (var n) = true ->
  projected (fun b => existsb (fun c => eval (nodes s) b (NodeId.negate c i)) (edges_nodes (children n))) a v ->
  projected (fun b => eval (nodes s) b i) a v.
Proof.
  intros Hs Hn Hd [H1 H2]. destruct (node_position okV okS true _ _ _ (wf_table _ _ _ _ Hs) Hn) as [He Hc]. split.
  - intros b Hb Hi. apply (H1 b Hb), existsb_exists. destruct (choose_some okV okS b _ _ (proj1 (proj1 Hb)) He) as (c&Hch&Hin).
    exists c. split; [by apply list_elem_of_In|]. by rewrite <- (eval_chosen okV okS true (nodes s) b i n c (wf_table _ _ _ _ Hs) (proj1 (proj1 Hb)) Hn Hch).
  - intros Hdrop Hv. destruct (H2 Hdrop Hv) as (b&Hb&(c&Hin&Hev)%existsb_exists). apply list_elem_of_In in Hin.
    apply (some_child s i n a b c); try done. by apply Hdrop.
Qed.

Lemma project_loop_spec : forall fuel s i, wf s -> known s -> valid_id (nodes s) i -> (height (nodes s) i < fuel)%nat ->
  spec (project_loop fuel drop i) s (transforms okV okS true admissible projected known s i).
Proof.
  induction fuel as [|fuel IH]; intros s i Hs Hk Hi Hlt; [lia|]. cbn [project_loop].
  destruct (NodeId.is_true i || NodeId.is_false i) eqn:Et.
  { apply spec_ret. split_and!; [done..|]. intros a Ha. split.
    - intros b Hb Hev. apply orb_prop in Et as [E|E]; apply N.eqb_eq in E as ->; by rewrite ?eval_true, ?eval_false in *.
    - intros _ Hv. exists a. split; [by apply similar_refl|done]. }
  assert (i <> NodeId.TRUE /\ i <> NodeId.FALSE) as [Hnt Hnf].
  { unfold NodeId.is_true, NodeId.is_false in Et. apply orb_false_iff in Et as [E1%N.eqb_neq E2%N.eqb_neq]. done. }
  apply spec_bind, get_node_spec; [done..|]. intros n Hn.
  destruct (node_position okV okS true _ _ _ (wf_table _ _ _ _ Hs) Hn) as [He Hc].
  assert (height (nodes s) i = S (later (var n))) as Hh by (unfold height; by rewrite Hn).
  destruct (drop (var n)) eqn:Ed.
  - apply spec_bind. eapply spec_mono; [apply (or_children_spec i); [done|done|by apply terminal_valid|]|].
    { apply Forall_forall. intros c Hin. by apply Hc. }
    intros z s1 (H1&Hs1&Hk1&Hz&Hv&Hev). assert (var_lt (nodes s1) (var n) z) as Hvz.
    { apply Hv; [by apply terminal_var_lt|]. apply Forall_forall. intros c Hin. by apply Hc. }
    assert (forall w, var_lt (nodes s) w i -> var_lt (nodes s1) w z) as Hvi.
    { intros w Hw. unfold MarkerWf.var_lt in Hw. rewrite Hn in Hw. by eapply var_lt_trans. }
    assert (forall a v, projected (fun b => eval (nodes s1) b z) a v -> projected (fun b => eval (nodes s) b i) a v) as Hproj.
    { intros a v [P1 P2]. apply (projected_children s i n a v Hs Hn Ed). split.
      - intros b Hb Hx. apply (P1 b Hb). rewrite Hev by apply Hb. by rewrite Hx, orb_true_r.
      - intros Hdrop Hv'. destruct (P2 Hdrop Hv') as (b&Hb&Hx). exists b. split; [done|]. by rewrite Hev, eval_false in Hx by apply Hb. }
    destruct (NodeId.is_true z) eqn:Ez.
    + apply N.eqb_eq in Ez as ->. apply spec_ret. split_and!; [done|done|done|by apply terminal_valid|intros; by apply terminal_var_lt|].
      intros a Ha. apply Hproj. rewrite eval_true. split; [done|]. intros _ _. exists a. split; [by apply similar_refl|apply eval_true].
    + eapply spec_mono; [apply IH; [done..|]|].
      { pose proof (height_var_lt s1 (var n) z Hk1 Hvz). lia. }
      intros y s2 (H2&Hs2&Hy&Hvy&Hpy). split_and!; [by etrans|apply Hs2|apply Hs2|done| |].
      * intros w Hw. by apply Hvy, Hvi.
      * intros a Ha. by apply Hproj, Hpy.
  - apply (rebuild_spec okV okS true); [by intros a []|intros; by eapply projected_ext|done|done|done| | |].
    + intros s1 e z s2 Hk1 E. refine (keeps_create _ (var n) e _ s1 z s2 Hk1 E). exact (shared_var s i n Hk Hn).
    + intros a c v Ha Hch [P1 P2].
      assert (forall b, similar drop a b -> eval (nodes s) b i = eval (nodes s) b (NodeId.negate c i)) as Hb.
      { intros b [Hb Hag]. apply (eval_chosen okV okS true _ _ _ n); [apply Hs|apply Hb|done|]. by rewrite <- (agree_choose a b _ _ (Hag _ Ed)). }
      split; [intros b Hs'; rewrite (Hb b Hs'); by apply P1|]. intros Hdrop Hv. destruct (P2 Hdrop Hv) as (b&Hs'&Hx). exists b. by rewrite (Hb b Hs').
    + intros s1 c H1 Hs1 Hk1 Hin. destruct (Hc c Hin) as (Hcv&Hcp&Hcl). apply IH; [done|done|apply valid_negate; by eapply extends_valid|].
      assert (var_lt (nodes s1) (var n) (NodeId.negate c i)) as Hlc by (apply var_lt_negate; by eapply extends_var_lt).
      pose proof (height_var_lt s1 (var n) (NodeId.negate c i) Hk1 Hlc). lia.
Qed.
End project.

Section result.
Context {RV RS : Type} {SV : RangeSet Version RV} {SS : RangeSet text RS}.
Context (okV : RV -> Prop) (okS : RS -> Prop).
Context {LV : RangeSetLaws Version RV version_wf okV} {LS : RangeSetLaws text RS (fun _ => True) okS}.

Definition platform_variables : list MarkerVariable := [V_String CS_OsName; V_String CS_SysPlatform; V_String CS_PlatformSystem].

Lemma project_spec drop s i : interner_wf okV okS true s -> valid_id (nodes s) i ->
  spec (project drop i) s (fun z s' => extends s s' /\ interner_wf okV okS true s' /\ valid_id (nodes s') z /\
    forall a, admissible a -> projected drop (fun b => eval (nodes s) b i) a (eval (nodes s') a z)).
Proof.
  intros Hs Hi. set (vars := map var (nodes s) ++ platform_variables).
  assert (vars_ok (fun v => v ∈ vars) s) as Hk.
  { apply Forall_forall. intros n Hn. apply elem_of_app. left. apply list_elem_of_In, in_map. by apply list_elem_of_In. }
  assert (forall k, is_conflicting k = true -> V_String k ∈ vars) as Hstr.
  { intros k Hc. apply elem_of_app. right. destruct k; try done; cbn; set_solver. }
  eapply spec_mono; [unfold project; apply (project_loop_spec okV okS vars Hstr drop); [done..|]|].
  - unfold height. destruct (shared_node (nodes s) i) as [n|] eqn:En; [|lia].
    pose proof (later_bound vars (var n) (shared_var vars s i n Hk En)) as Hb. unfold vars in Hb at 2. rewrite length_app, length_map in Hb. cbn in Hb. lia.
  - intros z s' (H1&[Hs' _]&Hz&_&Hp). by split_and!.
Qed.
End result.
