(* ===== verification/MarkerTheorems.v ===== *)
(** * Theorems on markers

    The interner is a machine whose operations keep an invariant, panic in one case only
    and compute Boolean operations; markers evaluate to what they say; and the places
    where the code departs from that. *)

From stdpp Require Import base numbers list strings gmap.
From S2P Require Import Prelude VersionTypes VersionSmall Version VersionFacts VersionParser VersionOps Specifier SpecifierFacts Ranges RangesFacts RangesTheorems Names Text RangeSet Cuts Tiling MarkerTypes MarkerAlgebra MarkerEval MarkerWf MarkerEdges MarkerExpr MarkerOps MarkerVersions MarkerTree MarkerTreeFacts MarkerPython MarkerProject.

(** ** Expressions that the interner accepts *)

Definition specifier_ok (sp : VersionSpecifier) : Prop :=
  release (spec_version sp) <> [] /\ Forall (fun x => x + 1 < u64_MAX) (release (spec_version sp)) /\
  (operator sp = TildeEqual -> (2 <= length (release (spec_version sp)))%nat).

(** The versions are well-formed, the numbers of their releases leave room for the
    increments, and [~=] has two of them. *)
Definition expression_versions_ok (e : MarkerExpression) : Prop :=
  match e with
  | ME_Version _ sp => specifier_ok sp
  | ME_VersionIn MVV_PythonVersion versions _ => Forall python_list_ok versions
  | ME_VersionIn _ versions _ => Forall version_wf versions
  | _ => True
  end.

(** [~=] on a string, for which [expression] has an [unreachable!]. *)
Definition is_string_tilde (e : MarkerExpression) : bool :=
  match e with ME_String _ MO_TildeEqual _ => true | _ => false end.

Definition expression_ok (e : MarkerExpression) : Prop := expression_versions_ok e /\ is_string_tilde e = false.

Section machine.
Context {RV RS : Type} {SV : RangeSet Version RV} {SS : RangeSet text RS}.
Context (okV : RV -> Prop) (okS : RS -> Prop) (ordered : bool).
Context {LV : RangeSetLaws Version RV version_wf okV} {LS : RangeSetLaws text RS (fun _ => True) okS}.
Abbreviation Interner := (@Interner RV RS).
Abbreviation wf := (interner_wf okV okS ordered).
Abbreviation good m s := (spec m s (fun z s' => extends s s' /\ wf s' /\ valid_id (nodes s') z)).

Lemma yields_good P m s f : yields okV okS ordered P m s f -> good m s.
Proof. intros H. eapply spec_mono; [exact H|]. intros z s' (?&?&?&_). done. Qed.

Lemma star_false this r : release_is this r -> all_zero (drop 2 r) = false ->
  python_version_to_full_version (mkSpec NotEqualStar this) = Some (Err NodeId.FALSE).
Proof.
  intros Ht Hz. unfold python_version_to_full_version. cbn [operator spec_version is_star].
  destruct (release_is_release _ _ Ht) as [-> _]. destruct r as [|a [|b t]]; [done|done|]. change (drop 2 (a :: b :: t)) with t in Hz. by rewrite Hz.
Qed.

Lemma version_total s key sp : wf s -> specifier_ok sp -> good (expression (ME_Version key sp)) s.
Proof.
  intros Hs (Hne&Hmax&Htilde).
  assert (Forall (fun x => x < u64_MAX) (release (spec_version sp))) as Hmax' by (eapply Forall_impl; [done|]; cbn; lia).
  destruct key.
  - destruct (version_expression okV okS ordered MVV_ImplementationVersion CV_ImplementationVersion sp _ eq_refl Hne Hmax' Htilde) as (f&Hy&_); [by right|].
    by eapply yields_good, Hy.
  - destruct (version_expression okV okS ordered MVV_PythonFullVersion CV_PythonFullVersion sp _ eq_refl Hne Hmax' Htilde) as (f&Hy&_); [by left|].
    by eapply yields_good, Hy.
  - destruct sp as [op this]. cbn [operator spec_version] in *. destruct (all_zero (drop 2 (release this))) eqn:Ez.
    + destruct (python_version_expression okV okS ordered op this _ eq_refl Hne Hmax Htilde) as (f&Hy&_); [done|]. by eapply yields_good, Hy.
    + destruct (decide (op = NotEqualStar)) as [->|Hn].
      * unfold expression. cbn [expression_node]. unfold spec_only_release. cbn [operator spec_version].
        destruct (only_release_of this Hne) as (w&->&Hw). cbn [mbind option_bind]. rewrite (star_false w _ Hw Ez).
        eapply yields_good, (yields_const okV okS ordered assignment_wf s false Hs).
      * destruct (python_version_expression okV okS ordered op this _ eq_refl Hne Hmax Htilde) as (f&Hy&_); [done|]. by eapply yields_good, Hy.
Qed.

Lemma expression_tilde_panics s e : is_string_tilde e = true -> expression e s = None.
Proof. destruct e as [| |k [] v| |]; try done. intros _. unfold expression. cbn. by destruct (normalize_platform k v). Qed.

Lemma expression_total s e : wf s -> expression_ok e -> good (expression e) s.
Proof.
  intros Hs [He Ht]. destruct e as [key sp|key vs op|k op v|lp op|n op]; cbn in He, Ht.
  - by apply version_total.
  - destruct key.
    + eapply yields_good, (version_in_expression okV okS ordered s MVV_ImplementationVersion CV_ImplementationVersion); [done|done|by right].
    + eapply yields_good, (version_in_expression okV okS ordered s MVV_PythonFullVersion CV_PythonFullVersion); [done|done|by left].
    + destruct (python_version_in_expression okV okS ordered vs op He) as (f&Hy&_). by eapply yields_good, Hy.
  - eapply yields_good, (expression_plain okV okS ordered s _ (fun a => default false (plain_value (ME_String k op v) a))); [done|].
    intros a. destruct op; cbn in *; try done; by destruct (normalize_platform k v).
  - eapply yields_good, (expression_plain okV okS ordered s _ (fun a => default false (plain_value (ME_List lp op) a))); [done|].
    intros a. by destruct op.
  - eapply yields_good, (expression_plain okV okS ordered s _ (fun a => default false (plain_value (ME_Extra n op) a))); [done|].
    intros a. by destruct n, op.
Qed.

(** ** The interner as a machine *)

(** One operation on the handles that callers hold. *)
Inductive operation :=
| Op_expression (e : MarkerExpression)
| Op_and (x y : NodeId)
| Op_or (x y : NodeId)
| Op_negate (x : NodeId)
| Op_implies (x y : NodeId)
| Op_is_disjoint (x y : NodeId)
| Op_restrict (x : NodeId) (f : MarkerVariable -> option bool)
| Op_without_extras (x : NodeId)
| Op_only_extras (x : NodeId)
| Op_simplify_python_versions (x : NodeId) (lower upper : bound Version)
| Op_complexify_python_versions (x : NodeId) (lower upper : bound Version).

Definition operands (op : operation) : list NodeId :=
  match op with
  | Op_expression _ => []
  | Op_and x y | Op_or x y | Op_implies x y | Op_is_disjoint x y => [x; y]
  | Op_negate x | Op_restrict x _ | Op_without_extras x | Op_only_extras x | Op_simplify_python_versions x _ _
  | Op_complexify_python_versions x _ _ => [x]
  end.

(** The operations of a run: the versions they are given are well-formed, and a run
    either keeps the variable order ([ordered]) and does not complexify, or does not
    project the extras. *)
Definition operation_ok (op : operation) : Prop :=
  match op with
  | Op_expression e => expression_versions_ok e
  | Op_simplify_python_versions _ lower upper => segment_valid version_wf (lower, upper)
  | Op_complexify_python_versions _ lower upper => ordered = false /\ segment_valid version_wf (lower, upper)
  | Op_without_extras _ | Op_only_extras _ => ordered = true
  | _ => True
  end.

(** The one operation that panics. *)
Definition panics (op : operation) : bool := match op with Op_expression e => is_string_tilde e | _ => false end.

Definition run (op : operation) : act Interner NodeId :=
  match op with
  | Op_expression e => expression e
  | Op_and x y => and_ x y
  | Op_or x y => or_ x y
  | Op_negate x => mret (NodeId.not x)
  | Op_implies x y => implies x y
  | Op_is_disjoint x y =>
      let! d := is_disjoint x y in mret (if d : bool then NodeId.FALSE else NodeId.TRUE)
  | Op_restrict x f => restrict x f
  | Op_without_extras x => without_extras x
  | Op_only_extras x => only_extras x
  | Op_simplify_python_versions x lower upper => simplify_python_versions x lower upper
  | Op_complexify_python_versions x lower upper => complexify_python_versions x lower upper
  end.

(** A state with the handles that have been given out. *)
Inductive step : Interner * list NodeId -> Interner * list NodeId -> Prop :=
| step_run s ids op z s' :
    operation_ok op -> Forall (fun x => x ∈ ids) (operands op) -> run op s = Some (z, s') ->
    step (s, ids) (s', z :: ids).

Definition reachable : Interner * list NodeId -> Prop :=
  rtc step (Interner_default, [NodeId.TRUE; NodeId.FALSE]).

(** C6: [and] is conjunction: it returns a node that holds exactly where both
    operands hold, in every environment a platform can have, and keeps the
    invariant and all earlier nodes. *)
Theorem and_is_conjunction (s : Interner) (x y : NodeId) (Hs : interner_wf okV okS ordered s)
    (Hx : valid_id (nodes s) x) (Hy : valid_id (nodes s) y) :
  exists z s', and_ x y s = Some (z, s') /\ extends s s' /\ interner_wf okV okS ordered s' /\ valid_id (nodes s') z /\
    forall a, admissible a -> eval (nodes s') a z = eval (nodes s) a x && eval (nodes s) a y.
Proof. exact (spec_elim _ _ _ (and_yields okV okS ordered s x y Hs Hx Hy)). Qed.

(** [or], [implies] and [negate] are the Boolean operations: [or] through De
    Morgan, implication as [not p or q], and negation without touching the table. *)
Theorem or_implies_negate (s : Interner) (x y : NodeId) (Hs : interner_wf okV okS ordered s)
    (Hx : valid_id (nodes s) x) (Hy : valid_id (nodes s) y) :
  (exists z s', or_ x y s = Some (z, s') /\ interner_wf okV okS ordered s' /\ valid_id (nodes s') z /\
     forall a, admissible a -> eval (nodes s') a z = eval (nodes s) a x || eval (nodes s) a y) /\
  (exists z s', implies x y s = Some (z, s') /\ interner_wf okV okS ordered s' /\ valid_id (nodes s') z /\
     forall a, admissible a -> eval (nodes s') a z = implb (eval (nodes s) a x) (eval (nodes s) a y)) /\
  (forall a, eval (nodes s) a (NodeId.not x) = negb (eval (nodes s) a x)) /\ NodeId.not (NodeId.not x) = x.
Proof.
  split_and!.
  - destruct (spec_elim _ _ _ (or_yields okV okS ordered s x y Hs Hx Hy)) as (z&s'&E&_&H1&H2&H3). by exists z, s'.
  - destruct (spec_elim _ _ _ (or_yields okV okS ordered s (NodeId.not x) y Hs (proj2 (valid_not _ _) Hx) Hy)) as (z&s'&E&_&H1&H2&H3).
    exists z, s'. split_and!; [done..|]. intros a Ha. rewrite H3, eval_not by done. by destruct (eval _ a x).
  - intros a. apply eval_not.
  - apply not_not.
Qed.

(** C18: the recursion of [and] terminates: from some depth on, a deeper recursion
    gives the same result, and that depth is bounded by the identifiers. *)
Theorem and_terminates (s : Interner) (x y : NodeId) (Hs : interner_wf okV okS ordered s)
    (Hx : valid_id (nodes s) x) (Hy : valid_id (nodes s) y) :
  exists r, forall fuel, (fuel_for x y <= fuel)%nat -> conjoin and_finish fuel x y s = Some r.
Proof.
  destruct (spec_elim _ _ _ (and_spec okV okS ordered s x y Hs Hx Hy)) as (z&s'&E&_). exists (z, s').
  intros fuel Hf. by apply (conjoin_more_fuel and_finish (fuel_for x y) fuel x y Hf).
Qed.

(** [is_disjoint] is sound: when it answers yes, no environment that a platform
    can have satisfies both markers; it always answers and keeps the invariant. *)
Theorem is_disjoint_sound (s : Interner) (x y : NodeId) (Hs : interner_wf okV okS ordered s)
    (Hx : valid_id (nodes s) x) (Hy : valid_id (nodes s) y) :
  exists b s', is_disjoint x y s = Some (b, s') /\ extends s s' /\ interner_wf okV okS ordered s' /\
    (b = true -> forall a, admissible a -> eval (nodes s) a x && eval (nodes s) a y = false).
Proof. exact (spec_elim _ _ _ (is_disjoint_spec okV okS ordered s x y Hs Hx Hy)). Qed.

(** [simplify_extras_with] and [simplify_not_extras_with] fix the extras in a
    marker: the result has the value of the marker in which the chosen extras are
    active, or inactive, and does not depend on them any more. *)
Theorem simplify_extras_value (s : Interner) (x : NodeId) (is_extra : ExtraName -> bool) (value : bool)
    (Hs : interner_wf okV okS ordered s) (Hx : valid_id (nodes s) x) :
  exists z s', (if value then simplify_extras_with x is_extra else simplify_not_extras_with x is_extra) s = Some (z, s') /\
    interner_wf okV okS ordered s' /\ valid_id (nodes s') z /\
    forall a, assignment_wf a ->
      eval (nodes s') a z = eval (nodes s) (override (restrict_extras is_extra value) a) x /\
      forall v, eval (nodes s') (override (restrict_extras is_extra v) a) z = eval (nodes s') a z.
Proof.
  assert (yields okV okS ordered assignment_wf ((if value then simplify_extras_with x is_extra else simplify_not_extras_with x is_extra)) s
    (fun a => eval (nodes s) (override (restrict_extras is_extra value) a) x)) as Hy.
  { destruct value; by apply (restrict_yields okV okS ordered). }
  destruct (spec_elim _ _ _ Hy) as (z&s'&E&_&Hs'&Hz&He). exists z, s'. split_and!; [done..|]. intros a Ha. split; [by apply He|].
  intros v. rewrite !He by done. apply eval_ext; [done..|]. intros w. unfold override, restrict_extras. cbn. destruct w as [| | | |name|]; try done. by destruct (is_extra name).
Qed.
(** Interning is canonical: building a node with edges equal to those of a node
    built before returns the same identifier and leaves the table as it is, whatever
    was interned in between. *)
Theorem create_node_canonical (s s1 s2 : Interner) (v : MarkerVariable) (e e' : @Edges RV RS) (z : NodeId)
    (Hs : interner_wf okV okS ordered s) (He : edges_ok okV okS v e) (He' : edges_ok okV okS v e')
    (Heq : Edges_eqb e e' = true) (Hz : create_node v e s = Some (z, s1)) (Hx : extends s1 s2)
    (Hs2 : interner_wf okV okS ordered s2) :
  create_node v e' s2 = Some (z, s2).
Proof. exact (create_node_again okV okS ordered s v e e' z s1 s2 Hs He He' Heq Hz Hx Hs2). Qed.
End machine.

Section reachable.
Context {RV RS : Type} {SV : RangeSet Version RV} {SS : RangeSet text RS}.
Context (okV : RV -> Prop) (okS : RS -> Prop) (ordered : bool).
Context {LV : RangeSetLaws Version RV version_wf okV} {LS : RangeSetLaws text RS (fun _ => True) okS}.
Abbreviation Interner := (@Interner RV RS).
Abbreviation wf := (interner_wf okV okS ordered).
Abbreviation good m s := (spec m s (fun z s' => extends s s' /\ wf s' /\ valid_id (nodes s') z)).

Lemma run_good s op : wf s -> operation_ok ordered op -> panics op = false -> Forall (valid_id (nodes s)) (operands op) -> good (run op) s.
Proof.
  intros Hs Hop Hp Hv. destruct op as [e|x y|x y|x|x y|x y|x f|x|x|x lo hi|x lo hi]; cbn [run operands operation_ok panics] in *; repeat (apply Forall_cons in Hv as [? Hv]).
  - by apply (expression_total okV okS ordered).
  - by eapply yields_good, (and_yields okV okS ordered).
  - by eapply yields_good, (or_yields okV okS ordered).
  - apply spec_ret. split_and!; [done|done|by apply valid_not].
  - unfold implies. eapply yields_good, (or_yields okV okS ordered); [done|by apply valid_not|done].
  - apply spec_bind. eapply spec_mono; [by apply (is_disjoint_spec okV okS ordered)|]. intros d s' (Hx&Hs'&_). apply spec_ret.
    split_and!; [done..|]. apply terminal_valid. by destruct d.
  - by eapply yields_good, (restrict_yields okV okS ordered).
  - subst ordered. eapply spec_mono; [by apply (project_spec okV okS)|]. by intros z s' (?&?&?&_).
  - subst ordered. eapply spec_mono; [by apply (project_spec okV okS)|]. by intros z s' (?&?&?&_).
  - eapply spec_mono; [apply (simplify_loop_spec okV okS lo hi Hop ordered); [done..|]|].
    { pose proof (position_lt_fuel x). lia. }
    by intros z s' (?&[? _]&?&_).
  - destruct Hop as [-> Hop]. eapply spec_mono; [apply (complexify_loop_spec okV okS lo hi Hop); [done..|]|].
    { pose proof (position_lt_fuel x). lia. }
    by intros z s' (?&[? _]&?&_).
Qed.

Lemma run_panics s op : panics op = true -> run op s = None.
Proof. destruct op as [e| | | | | | | | | |]; try done. apply expression_tilde_panics. Qed.

Lemma step_invariant c c' : step ordered c c' -> wf c.1 /\ Forall (valid_id (nodes c.1)) c.2 -> wf c'.1 /\ Forall (valid_id (nodes c'.1)) c'.2.
Proof.
  destruct 1 as [s ids op z s' Hop Hin Hrun]. cbn. intros [Hs Hids].
  destruct (panics op) eqn:Hp; [by rewrite run_panics in Hrun|].
  assert (good (run op) s) as Hg.
  { apply run_good; [done..|]. eapply Forall_impl; [done|]. intros x Hx. rewrite Forall_forall in Hids. by apply Hids. }
  unfold spec in Hg. rewrite Hrun in Hg. destruct Hg as (Hx&Hs'&Hz). split; [done|]. constructor; [done|].
  eapply Forall_impl; [done|]. intros i. by apply extends_valid.
Qed.

Lemma reachable_ok c : reachable ordered c -> wf c.1 /\ Forall (valid_id (nodes c.1)) c.2.
Proof.
  intros Hr. unfold reachable in Hr.
  assert (forall a b, rtc (step ordered) a b -> wf a.1 /\ Forall (valid_id (nodes a.1)) a.2 -> wf b.1 /\ Forall (valid_id (nodes b.1)) b.2) as Hind.
  { induction 1 as [|a b c' Hst _ IH]; [done|]. intros Ha. by apply IH, (step_invariant a b). }
  apply (Hind _ _ Hr). cbn. split; [apply Interner_default_wf|]. repeat constructor; by apply terminal_valid.
Qed.

(** C4: an interner that a run reaches keeps its invariant. For a run of [expression],
    [and], [or], [not], [implies], [is_disjoint], [restrict], [without_extras],
    [only_extras] and [simplify_python_versions] ([ordered]) it is a reduced ordered
    decision diagram with interned nodes: the edges of each node partition the values of
    its variable, children have later variables, no node has equal children or a
    complemented first edge, equal nodes have one identifier, memoized results are
    conjunctions, the exclusions never hold, and every handle given out is valid. For a
    run that has [complexify_python_versions] instead of the two projections all this
    holds but the order of the variables. Versions given to the operations are
    well-formed, with release numbers at least two below the largest. *)
Theorem reachable_invariant (s : Interner) (ids : list NodeId) (Hr : reachable ordered (s, ids)) :
  interner_wf okV okS ordered s /\ Forall (valid_id (nodes s)) ids.
Proof. exact (reachable_ok (s, ids) Hr). Qed.

(** C5: one operation panics and no other: in any state that a run reaches (of the two
    kinds of C4), on handles that were given out, [expression] panics for [~=] on a
    string, and everything else returns and leads to a reachable state that extends the
    old one. Versions given to the operations are well-formed, with release numbers at
    least two below the largest. *)
Theorem reachable_progress (s : Interner) (ids : list NodeId) (op : operation) (Hr : reachable ordered (s, ids))
    (Hop : operation_ok ordered op) (Hin : Forall (fun x => x ∈ ids) (operands op)) :
  if panics op then run op s = None
  else exists z s', run op s = Some (z, s') /\ reachable ordered (s', z :: ids) /\ extends s s'.
Proof.
  destruct (panics op) eqn:Hp; [by apply run_panics|].
  destruct (reachable_ok _ Hr) as [Hs Hids]. cbn in *. destruct (spec_elim _ _ _ (run_good s op Hs Hop Hp
    ltac:(eapply Forall_impl; [exact Hin|]; intros x Hx; rewrite Forall_forall in Hids; by apply Hids))) as (z&s'&E&Hx&_).
  exists z, s'. split_and!; [done| |done]. eapply rtc_r; [exact Hr|]. by econstructor.
Qed.
End reachable.

(** ** What markers mean, and where the code departs from it

    The values of the nodes of expressions, the agreement of evaluation with the
    algebra, and concrete runs that show the defects. The concrete runs and the
    examples use the interval sets of [Cuts]. *)

Section meaning.
Context {RV RS : Type} {SV : RangeSet Version RV} {SS : RangeSet text RS}.
Context (okV : RV -> Prop) (okS : RS -> Prop) (ordered : bool).
Context {LV : RangeSetLaws Version RV version_wf okV} {LS : RangeSetLaws text RS (fun _ => True) okS}.
Abbreviation Interner := (@Interner RV RS).

(** The node of a string, list or extra expression holds exactly where the
    comparison holds, for every operator but [~=] on strings; [platform_system]
    values that determine [sys_platform] are compared there. *)
Theorem plain_expression_value (s : Interner) (e : MarkerExpression) (f : assignment -> bool)
    (Hs : interner_wf okV okS ordered s) (Hf : forall a, plain_value e a = Some (f a)) :
  exists z s', expression e s = Some (z, s') /\ extends s s' /\ interner_wf okV okS ordered s' /\ valid_id (nodes s') z /\
    forall a, assignment_wf a -> eval (nodes s') a z = f a.
Proof. exact (spec_elim _ _ _ (expression_plain okV okS ordered s e f Hs Hf)). Qed.

(** A comparison of [python_full_version] or [implementation_version] holds
    exactly for the releases that match it, [V]'s own suffixes being dropped;
    prefix forms need a candidate with at least as many segments. *)
Theorem version_expression_value (s : Interner) (key : MarkerValueVersion) (k : CanonicalMarkerValueVersion) (sp : VersionSpecifier)
    (Hs : interner_wf okV okS ordered s) (Hsp : specifier_ok sp) (Hk : marker_version k = key) :
  exists z s', expression (ME_Version key sp) s = Some (z, s') /\ interner_wf okV okS ordered s' /\ valid_id (nodes s') z /\
    forall a seg, assignment_wf a -> release_is (a_version a k) seg ->
      (is_star (operator sp) = true -> (length (release (spec_version sp)) <= length seg)%nat) ->
      eval (nodes s') a z = release_matches (operator sp) (release (spec_version sp)) seg.
Proof.
  destruct Hsp as (Hne&Hmax&Htilde).
  assert (Forall (fun x => x < u64_MAX) (release (spec_version sp))) as Hmax' by (eapply Forall_impl; [done|]; cbn; lia).
  destruct (version_expression okV okS ordered key k sp _ eq_refl Hne Hmax' Htilde) as (f&Hy&Hf); [destruct k; cbn in Hk; subst key; tauto|].
  destruct (spec_elim _ _ _ (Hy s Hs)) as (z&s'&E&_&Hs'&Hz&He). exists z, s'. split_and!; [done..|]. intros a seg Ha Hv Hl.
  rewrite He by done. by apply Hf.
Qed.

(** Rewriting a comparison of [python_version] to one of [python_full_version]
    is exact for every operator and every version, [!= X.Y.Z.*] excepted: its node
    holds exactly where the first two segments of the full version match. *)
Theorem python_version_value (s : Interner) (sp : VersionSpecifier) (Hs : interner_wf okV okS ordered s) (Hsp : specifier_ok sp)
    (Hstar : operator sp = NotEqualStar -> all_zero (drop 2 (release (spec_version sp))) = true) :
  exists z s', expression (ME_Version MVV_PythonVersion sp) s = Some (z, s') /\ interner_wf okV okS ordered s' /\ valid_id (nodes s') z /\
    forall a major minor rest, assignment_wf a -> release_is (a_version a CV_PythonFullVersion) (major :: minor :: rest) ->
      eval (nodes s') a z = release_matches (operator sp) (release (spec_version sp)) [major; minor].
Proof.
  destruct Hsp as (Hne&Hmax&Htilde). destruct sp as [op this]. cbn [operator spec_version] in *.
  destruct (python_version_expression okV okS ordered op this _ eq_refl Hne Hmax Htilde Hstar) as (f&Hy&Hf).
  destruct (spec_elim _ _ _ (Hy s Hs)) as (z&s'&E&_&Hs'&Hz&He). exists z, s'. split_and!; [done..|]. intros a M m rest Ha Hv.
  rewrite He by done. by eapply Hf.
Qed.


(** The walks that know only the extras bound evaluation from both sides: what
    holds with the extras alone holds in every environment, and what holds in some
    environment may hold with the extras alone; both walks always return. *)
Theorem extras_bounds (s : Interner) (x : NodeId) (extras : list ExtraName)
    (Hs : interner_wf okV okS ordered s) (Hx : valid_id (nodes s) x) :
  exists lower upper, evaluate_only_extras x extras s = Some (lower, s) /\ evaluate_extras x extras s = Some (upper, s) /\
    forall a, knows_extras a extras ->
      (lower = true -> eval (nodes s) a x = true) /\ (eval (nodes s) a x = true -> upper = true).
Proof.
  assert (position x < tree_fuel x)%nat as Hf by (unfold tree_fuel; pose proof (position_lt_fuel x); lia).
  assert (position (NodeId.not x) < tree_fuel x)%nat as Hf' by (by rewrite position_not).
  pose proof (wf_table _ _ _ _ Hs) as Ht.
  destruct (evaluate_extras_loop_spec okV okS ordered (nodes s) extras Ht (tree_fuel x) x Hx Hf) as (upper&Eu&Hu).
  destruct (evaluate_extras_loop_spec okV okS ordered (nodes s) extras Ht (tree_fuel x) (NodeId.not x) (proj2 (valid_not _ _) Hx) Hf') as (b&Eb&Hb).
  pose proof (evaluate_only_extras_dual okV okS ordered (nodes s) extras Ht (tree_fuel x) (NodeId.not x) (proj2 (valid_not _ _) Hx) Hf') as Hd.
  rewrite not_not, Eb in Hd. exists (negb b), upper. unfold evaluate_only_extras, evaluate_extras. rewrite Hd, Eu. split_and!; [done..|].
  intros a Ha. split; [|intros He; apply Hu; by exists a]. intros Hlow. destruct b; [done|].
  destruct (eval (nodes s) a x) eqn:E; [done|]. exfalso. assert (false = true); [|done]. apply Hb. exists a. split; [done|].
  by rewrite eval_not, E.
Qed.

(** Building a conjunction and evaluating it is evaluating both operands: in an
    environment whose platform names are not known to exclude each other,
    [evaluate] after [and] is the conjunction of the evaluations before. *)
Theorem evaluate_and (s : Interner) (x y : NodeId) (env : MarkerEnvironment) (extras : ExtrasEnvironment)
    (Hs : interner_wf okV okS ordered s) (Hx : valid_id (nodes s) x) (Hy : valid_id (nodes s) y)
    (Hl : valid_lists (nodes s)) (He : env_wf env)
    (Ha : admissible (env_assignment env extras)) :
  exists z s' bx by_, and_ x y s = Some (z, s') /\
    evaluate_reporter_impl env extras x s = Some (bx, s) /\ evaluate_reporter_impl env extras y s = Some (by_, s) /\
    evaluate_reporter_impl env extras z s' = Some (bx && by_, s').
Proof.
  destruct (spec_elim _ _ _ (and_yields okV okS ordered s x y Hs Hx Hy)) as (z&s'&E&Hx'&Hs'&Hz&Hev).
  assert (valid_lists (nodes s')) as Hl' by (exact (keeps_and (fun v => match v with V_List (LP_Arbitrary _ _) => False | _ => True end) (fun _ _ => I) x y s z s' Hl E)).
  assert (forall (t : Interner) w, interner_wf okV okS ordered t -> valid_id (nodes t) w -> valid_lists (nodes t) ->
    evaluate_reporter_impl env extras w t = Some (eval (nodes t) (env_assignment env extras) w, t)) as Hgo.
  { intros t w Ht Hw Hlt. unfold evaluate_reporter_impl.
    rewrite (evaluate_loop_spec okV okS ordered (nodes t) env extras (wf_table _ _ _ _ Ht) Hlt He (tree_fuel w) w Hw); [done|].
    unfold tree_fuel. pose proof (position_lt_fuel w). lia. }
  exists z, s'. do 2 eexists. split_and!; [done|by apply Hgo..|]. rewrite (Hgo s' z Hs' Hz Hl'). by rewrite Hev.
Qed.
End meaning.

Section bounds.
Context {RV RS : Type} {SV : RangeSet Version RV} {SS : RangeSet text RS}.
Context (okV : RV -> Prop) (okS : RS -> Prop).
Context {LV : RangeSetLaws Version RV version_wf okV} {LS : RangeSetLaws text RS (fun _ => True) okS}.
Abbreviation Interner := (@Interner RV RS).

(** [complexify_python_versions] conjoins a range of Python versions to any
    marker: the result holds exactly where the marker holds and the version lies
    within the bounds, empty ranges included. It does not keep the variable order. *)
Theorem complexify_conjoins_range (s : Interner) (x : NodeId) (lower upper : bound Version)
    (Hs : interner_wf okV okS false s) (Hx : valid_id (nodes s) x) (Hb : segment_valid version_wf (lower, upper)) :
  exists z s', complexify_python_versions x lower upper s = Some (z, s') /\ extends s s' /\
    interner_wf okV okS false s' /\ valid_id (nodes s') z /\
    forall a, assignment_wf a ->
      eval (nodes s') a z = eval (nodes s) a x && segment_contains (a_version a CV_PythonFullVersion) (lower, upper).
Proof.
  assert (position x < S (N.to_nat x))%nat as Hf by (pose proof (position_lt_fuel x); lia).
  destruct (spec_elim _ _ _ (complexify_loop_spec okV okS lower upper Hb _ s x Hs Hx Hf)) as (z&s'&E&He&[Hs' _]&Hz&_&Hv).
  by exists z, s'.
Qed.

(** C39: simplifying a marker under the bounds of [requires-python] and putting the
    bounds back gives the marker within them: [simplify_python_versions] keeps the
    value inside the bounds, and [complexify_python_versions] of its result is the
    original marker conjoined with the bounds. *)
Theorem python_bounds_round_trip (s : Interner) (x : NodeId) (lower upper : bound Version)
    (Hs : interner_wf okV okS false s) (Hx : valid_id (nodes s) x) (Hb : segment_valid version_wf (lower, upper)) :
  exists y s1 z s2, simplify_python_versions x lower upper s = Some (y, s1) /\ complexify_python_versions y lower upper s1 = Some (z, s2) /\
    interner_wf okV okS false s2 /\ valid_id (nodes s2) z /\
    forall a, assignment_wf a ->
      (segment_contains (a_version a CV_PythonFullVersion) (lower, upper) = true -> eval (nodes s1) a y = eval (nodes s) a x) /\
      eval (nodes s2) a z = eval (nodes s) a x && segment_contains (a_version a CV_PythonFullVersion) (lower, upper).
Proof.
  assert (forall i, position i < S (N.to_nat i))%nat as Hf by (intros i; pose proof (position_lt_fuel i); lia).
  destruct (spec_elim _ _ _ (simplify_loop_spec okV okS lower upper Hb false _ s x Hs Hx (Hf x))) as (y&s1&E1&_&[Hs1 _]&Hy&_&Hv1).
  destruct (spec_elim _ _ _ (complexify_loop_spec okV okS lower upper Hb _ s1 y Hs1 Hy (Hf y))) as (z&s2&E2&_&[Hs2 _]&Hz&_&Hv2).
  exists y, s1, z, s2. do 4 (split; [done|]). intros a Ha. split; [intros Hin; by apply Hv1|]. rewrite Hv2 by done.
  destruct (segment_contains _ _) eqn:Hin; [|by rewrite !andb_false_r]. by rewrite (Hv1 a).
Qed.

(** [without_extras] is projection: its result holds in an environment exactly
    when the marker holds there for some choice of the active extras. [only_extras]
    is an upper bound: it holds for a choice of extras if the marker holds with it
    in some environment. Both always return and keep the invariant. *)
Theorem extras_projections (s : Interner) (x : NodeId) (Hs : interner_wf okV okS true s) (Hx : valid_id (nodes s) x) :
  (exists z s', without_extras x s = Some (z, s') /\ extends s s' /\ interner_wf okV okS true s' /\ valid_id (nodes s') z /\
     forall a, admissible a ->
       eval (nodes s') a z = true <-> exists b, similar is_extra_variable a b /\ eval (nodes s) b x = true) /\
  (exists z s', only_extras x s = Some (z, s') /\ extends s s' /\ interner_wf okV okS true s' /\ valid_id (nodes s') z /\
     forall a b, admissible a -> similar (fun v => negb (is_extra_variable v)) a b ->
       eval (nodes s) b x = true -> eval (nodes s') a z = true).
Proof.
  split.
  - destruct (spec_elim _ _ _ (project_spec okV okS is_extra_variable s x Hs Hx)) as (z&s'&E&He&Hs'&Hz&Hp). exists z, s'. split_and!; [done..|].
    intros a Ha. destruct (Hp a Ha) as [P1 P2]. split; [|intros (b&Hb&Hv); by apply (P1 b)]. apply P2. by intros [].
  - destruct (spec_elim _ _ _ (project_spec okV okS (fun v => negb (is_extra_variable v)) s x Hs Hx)) as (z&s'&E&He&Hs'&Hz&Hp).
    exists z, s'. split_and!; [done..|]. intros a b Ha Hb. by apply (Hp a Ha).
Qed.
End bounds.
