(* ===== verification/MarkerExamples.v ===== *)
(** * Concrete runs of the marker algebra

    Examples at which the theorems on markers apply, and the runs in which the code
    departs from what its documentation says. They use the interval sets of [Cuts]. *)

From stdpp Require Import base numbers list strings gmap.
From S2P Require Import Prelude VersionTypes VersionSmall Version VersionFacts VersionParser VersionOps Specifier SpecifierFacts Ranges RangesFacts RangesTheorems Names Text RangeSet Cuts Tiling MarkerTypes MarkerAlgebra MarkerEval MarkerWf MarkerEdges MarkerExpr MarkerOps MarkerVersions MarkerTree MarkerTreeFacts MarkerPython MarkerTheorems.

Abbreviation IV := (interval_set Version).
Abbreviation IS := (interval_set text).
Abbreviation ConcreteInterner := (@Interner IV IS).
Abbreviation okIV := (set_ok version_wf).
Abbreviation okIS := (set_ok (fun _ : text => True)).

Definition start : ConcreteInterner := Interner_default.

(** The result of a run, without the interner. *)
Definition result_of {A} (m : act ConcreteInterner A) : option A := fst <$> m start.

Definition nt : MarkerExpression := string_equals MVS_OsName "nt".
Definition posix : MarkerExpression := string_equals MVS_OsName "posix".
Definition linux : MarkerExpression := string_equals MVS_SysPlatform "linux".
Definition win32 : MarkerExpression := string_equals MVS_SysPlatform "win32".
Definition dev_extra : ExtraName := {| extra_name := bs "dev" |}.
Definition dev : MarkerExpression := ME_Extra (MVE_Extra dev_extra) EO_Equal.
Definition python_at_least (r : list N) : MarkerExpression :=
  ME_Version MVV_PythonFullVersion (mkSpec GreaterThanEqual (example r)).

(** ** The memo table and the exclusions *)

(** Conjoins two incompatible conditions both ways, after another conflicting
    conjunction if [warm]. *)
Definition conjoin_twice (warm : bool) : act ConcreteInterner (NodeId * NodeId) :=
  let! a := expression nt in
  let! b := expression linux in
  let! _ := (if warm then let! p := expression posix in let! w := expression win32 in and_ p w else mret NodeId.TRUE) in
  let! z := and_ a b in
  let! z' := and_ b a in
  mret (z, z').

(** What [and] returns depends on what was computed before. From a fresh
    interner [os_name == 'nt' and sys_platform == 'linux'] is [false]; once the
    exclusions have been built their plain conjunctions sit in the same memo table,
    and the same [and] returns a node that is not [false], while [and] with the
    operands swapped still returns [false]. *)
Theorem exclusions_pollute_cache :
  result_of (conjoin_twice false) = Some (NodeId.FALSE, NodeId.FALSE) /\
  exists z, result_of (conjoin_twice true) = Some (z, NodeId.FALSE) /\ z <> NodeId.FALSE.
Proof. split; [vm_compute; reflexivity|]. eexists. split; [vm_compute; reflexivity|]. discriminate. Qed.

(** ** [complexify_python_versions] and the variable order *)

Definition complexify_or_and : act ConcreteInterner (NodeId * NodeId) :=
  let! x := expression dev in
  let! p := expression (python_at_least [3; 8]) in
  let! z := and_ x p in
  let! w := complexify_python_versions x (B_Included (example [3; 8])) B_Unbounded in
  mret (z, w).

(** The interner after [extra == 'dev']. *)
Definition after_dev : ConcreteInterner :=
  {| nodes := [mkNode (V_Extra dev_extra) (E_Boolean NodeId.TRUE NodeId.FALSE)];
     unique := [(mkNode (V_Extra dev_extra) (E_Boolean NodeId.TRUE NodeId.FALSE), 2)];
     cache := ∅; known_exclusions := None |}.

Lemma expression_dev : expression dev start = Some (2, after_dev).
Proof. reflexivity. Qed.

Lemma after_dev_wf ordered : interner_wf okIV okIS ordered after_dev.
Proof.
  pose proof (expression_total okIV okIS ordered start dev (Interner_default_wf okIV okIS ordered) (conj I eq_refl)) as H.
  unfold spec in H. rewrite expression_dev in H. by destruct H as (_&H&_).
Qed.

Lemma after_dev_valid i : (position i <= 1)%nat -> valid_id (nodes after_dev) i.
Proof. done. Qed.

Lemma complexify_or_and_value :
  spec complexify_or_and start (fun r s => interner_wf okIV okIS false s /\ forall a seg, admissible a ->
    release_is (a_version a CV_PythonFullVersion) seg -> eval (nodes s) a (fst r) = eval (nodes s) a (snd r)).
Proof.
  pose proof (after_dev_wf false) as H1. assert (valid_id (nodes after_dev) 2) as Hv by (by apply after_dev_valid). apply spec_bind, (spec_intro _ _ _ 2 after_dev); [exact expression_dev|].
  destruct (version_expression okIV okIS false MVV_PythonFullVersion CV_PythonFullVersion
    (mkSpec GreaterThanEqual (example [3; 8])) [3; 8]) as (f&Hy&Hf); [reflexivity|done|by repeat constructor|done|by left|].
  unfold yields in Hy. apply spec_bind. eapply spec_mono; [exact (Hy _ H1)|]. intros p s2 (H12&H2&Hp&Hpe).
  assert (valid_id (nodes s2) 2) as Hv2 by (by eapply extends_valid).
  pose proof (and_yields okIV okIS false s2 2 p H2 Hv2 Hp) as Hand. unfold yields in Hand.
  apply spec_bind. eapply spec_mono; [exact Hand|]. intros z s3 (H23&H3&Hz&Hze).
  assert (extends after_dev s3) as H13 by (by etrans).
  apply spec_bind. eapply spec_mono; [apply (complexify_loop_spec okIV okIS (B_Included (example [3; 8])) B_Unbounded)|].
  - split; [apply (example_release_is 3 [8])|done].
  - done.
  - by eapply extends_valid.
  - apply Nat.ltb_lt. vm_compute. reflexivity.
  - intros w s4 (H34&[H4 _]&Hw&_&Hwe). apply spec_ret. split; [done|]. intros a seg Ha Hseg. cbn.
    rewrite (extends_eval s3 s4), Hze, Hwe by (done || apply Ha). rewrite Hpe by apply Ha. f_equal.
    + symmetry. rewrite (extends_eval s2 s3) by done. done.
    + rewrite (Hf a seg Hseg) by done. cbn. unfold segment_contains. cbn. rewrite andb_true_r. unfold cmp_geb.
      by rewrite (release_cmp _ _ seg [3; 8] Hseg (example_release_is 3 [8])).
Qed.

(** [complexify_python_versions] breaks the canonical form: for [extra == 'dev']
    and [>= 3.8] it puts the version below the extra, against the variable order, so
    the result is another node than that of [and], although on final releases of
    Python both have the same value. *)
Theorem complexify_not_canonical :
  exists z w s, complexify_or_and start = Some (z, w, s) /\ z <> w /\
    forall a seg, admissible a -> release_is (a_version a CV_PythonFullVersion) seg ->
      eval (nodes s) a z = eval (nodes s) a w.
Proof.
  destruct (spec_elim _ _ _ complexify_or_and_value) as ([z w]&s&E&_&He). exists z, w, s. split_and!; [done| |exact He].
  assert (result_of complexify_or_and = Some (z, w)) as Er by (unfold result_of; by rewrite E).
  vm_compute in Er. by injection Er as <- <-.
Qed.

(** ** Negated markers that are not negations *)

(** [python_version == 'X.Y.Z.*'] and [python_version != 'X.Y.Z.*'] are both
    [false] when [Z] is not zero: the constant of the first is also returned for
    its negation. *)
Theorem python_star_negation_lost (this : Version) (major minor : N) (patch : list N) (s : ConcreteInterner)
    (Hr : release this = major :: minor :: patch) (Hp : all_zero patch = false) :
  expression (ME_Version MVV_PythonVersion (mkSpec EqualStar this)) s = Some (NodeId.FALSE, s) /\
  expression (ME_Version MVV_PythonVersion (mkSpec NotEqualStar this)) s = Some (NodeId.FALSE, s).
Proof.
  destruct (only_release_of this) as (w&Ew&Hw); [by rewrite Hr|]. rewrite Hr in Hw. destruct (release_is_release _ _ Hw) as [Er _].
  unfold expression, mbind'. cbn [expression_node]. unfold spec_only_release. cbn [operator spec_version]. rewrite Ew. cbn [mbind option_bind].
  unfold python_version_to_full_version. cbn [operator spec_version is_star]. rewrite Er, Hp. done.
Qed.

(** One version with a patch segment makes a whole list of [python_version]s
    [false], for [in] and for [not in] alike. *)
Theorem python_list_collapses (v : Version) (versions : list Version) (major minor : N) (patch : list N) (op : ContainerOperator)
    (s : ConcreteInterner) (Hr : release v = major :: minor :: patch) (Hp : all_zero patch = false) :
  expression (ME_VersionIn MVV_PythonVersion (v :: versions) op) s = Some (NodeId.FALSE, s).
Proof.
  destruct (only_release_of v) as (w&Ew&Hw); [by rewrite Hr|]. rewrite Hr in Hw.
  assert (python_version_to_full_version (equals_version w) = Some (Err NodeId.FALSE)) as E.
  { destruct (release_is_release _ _ Hw) as [Er _]. destruct (trimmed_spec w) as (t&Et&_&Vt). rewrite Er in Vt.
    assert (release t = trimmed (major :: minor :: patch)) as Rt by (by rewrite value_release, Vt).
    unfold python_version_to_full_version, equals_version. cbn [operator spec_version is_star]. rewrite Et, Er. cbn [mbind option_bind].
    destruct (release_new major (u64_add minor 1)) as (x&->&_). pose proof (trimmed_shape major minor patch) as Hs. rewrite <- Rt, Hp in Hs.
    destruct (release t) as [|a [|b [|c l]]]; [done|naive_solver|naive_solver|done]. }
  unfold expression, mbind'. cbn [expression_node]. unfold from_python_versions. cbn [python_ranges]. rewrite Ew. cbn [mbind option_bind].
  rewrite E. done.
Qed.

(** A list marker with an invalid name is [false] and so is its negation: both
    ['?' in extras] and ['?' not in extras] evaluate to [false] everywhere. *)
Theorem invalid_list_marker_false (key : MarkerValueList) (value : text) (op : ContainerOperator)
    (env : MarkerEnvironment) (extras : ExtrasEnvironment) :
  result_of (let! z := expression (ME_List (LP_Arbitrary key value) op) in evaluate_reporter_impl env extras z) = Some false.
Proof. by destruct op. Qed.

(** ** [platform_system] in terms of [sys_platform] *)

Definition ios : MarkerEnvironment := {|
  implementation_name := bs "cpython"; implementation_version := example [3; 13; 0]; os_name := bs "posix";
  platform_machine := bs "iPhone13,2"; platform_python_implementation := bs "CPython"; platform_release := bs "17.4";
  platform_system := bs "iOS"; platform_version := bs ""; python_full_version := example [3; 13; 0];
  python_version := example [3; 13]; sys_platform := bs "ios"
|}.

(** Values of [platform_system] that determine [sys_platform] are rewritten for
    every operator, also the lexicographic ones: on iOS [platform_system > 'Windows']
    holds as a comparison of strings, but it is evaluated as [sys_platform > 'win32'],
    which does not. *)
Theorem platform_order_rewritten :
  cmp_gtb (platform_system ios) (bs "Windows") = true /\
  result_of (let! z := expression (ME_String MVS_PlatformSystem MO_GreaterThan (bs "Windows")) in evaluate z ios []) = Some false.
Proof. split; vm_compute; reflexivity. Qed.

(** ** The theorems on markers at [extra == 'dev'] *)

Definition held : list NodeId := [2; NodeId.TRUE; NodeId.FALSE].

Lemma after_dev_reachable ordered : reachable ordered (after_dev, held).
Proof. eapply rtc_l; [|apply rtc_refl]. apply (step_run ordered start [NodeId.TRUE; NodeId.FALSE] (Op_expression dev) 2 after_dev); done. Qed.

Lemma reachable_invariant_witness : interner_wf okIV okIS true after_dev /\ Forall (valid_id (nodes after_dev)) held.
Proof. apply (reachable_invariant okIV okIS true after_dev held). exact (after_dev_reachable true). Defined.

(** Of the runs that complexify. *)
Lemma reachable_progress_witness :
  run (Op_expression (ME_String MVS_OsName MO_TildeEqual [])) after_dev = None /\
  exists z s', run (Op_complexify_python_versions 2 (B_Included (example [3; 8])) B_Unbounded) after_dev = Some (z, s') /\ reachable false (s', z :: held) /\ extends after_dev s'.
Proof.
  split; [apply (reachable_progress okIV okIS false after_dev held (Op_expression (ME_String MVS_OsName MO_TildeEqual []))); [exact (after_dev_reachable false)|exact I|constructor]|].
  apply (reachable_progress okIV okIS false after_dev held (Op_complexify_python_versions 2 (B_Included (example [3; 8])) B_Unbounded)); [exact (after_dev_reachable false)| |].
  - split; [reflexivity|]. split; [apply (example_release_is 3 [8])|exact I].
  - repeat constructor; vm_compute; repeat constructor.
Defined.

Lemma and_is_conjunction_witness :
  exists z s', and_ 2 3 after_dev = Some (z, s') /\ extends after_dev s' /\ interner_wf okIV okIS true s' /\ valid_id (nodes s') z /\
    forall a, admissible a -> eval (nodes s') a z = eval (nodes after_dev) a 2 && eval (nodes after_dev) a 3.
Proof.
  apply (and_is_conjunction okIV okIS true after_dev 2 3); [apply after_dev_wf|apply after_dev_valid; vm_compute; lia..].
Defined.

Lemma and_terminates_witness :
  exists r, forall fuel, (fuel_for 2 3 <= fuel)%nat -> conjoin and_finish fuel 2 3 after_dev = Some r.
Proof.
  apply (and_terminates okIV okIS true after_dev 2 3); [apply after_dev_wf|apply after_dev_valid; vm_compute; lia..].
Defined.

Lemma at_least_ok r rs : Forall (fun x => x + 1 < u64_MAX) (r :: rs) -> specifier_ok (mkSpec GreaterThanEqual (example (r :: rs))).
Proof.
  intros Hr. unfold specifier_ok. cbn [operator spec_version].
  destruct (release_is_release _ _ (example_release_is r rs)) as [-> _]. done.
Qed.



Lemma python_bounds_valid : segment_valid version_wf (B_Included (example [3; 8]), B_Excluded (example [3; 13])).
Proof. split; [apply (example_release_is 3 [8])|apply (example_release_is 3 [13])]. Qed.

Lemma python_bounds_round_trip_witness :
  exists y s1 z s2, simplify_python_versions 2 (B_Included (example [3; 8])) (B_Excluded (example [3; 13])) after_dev = Some (y, s1) /\
    complexify_python_versions y (B_Included (example [3; 8])) (B_Excluded (example [3; 13])) s1 = Some (z, s2).
Proof.
  destruct (python_bounds_round_trip okIV okIS after_dev 2 (B_Included (example [3; 8])) (B_Excluded (example [3; 13])))
    as (y&s1&z&s2&H1&H2&_);
    [apply after_dev_wf|apply after_dev_valid; vm_compute; lia|apply python_bounds_valid|]. exists y, s1, z, s2. split; [exact H1|exact H2].
Defined.

