(* ===== verification/MarkerDnf.v ===== *)
(** * Markers as disjunctions of conjunctions ([uv-pep508/src/marker/simplify.rs])

    The paths of a tree to [true] are collected as clauses, redundant terms and
    clauses are removed, and the rest is sorted and printed. A [None] is a panic of
    the source. *)

From stdpp Require Import base numbers list strings gmap.
From S2P Require Import Prelude VersionTypes VersionSmall Version VersionParser Specifier Ranges Names Text RangeSet MarkerTypes MarkerAlgebra MarkerTree.

(** ** Terms *)

(** The derived equality, where versions compare by [Ord]. *)
Definition VersionSpecifier_eqb (a b : VersionSpecifier) : bool :=
  bool_decide (operator a = operator b) && Version_eq (spec_version a) (spec_version b).

Fixpoint versions_eqb (l k : list Version) : bool :=
  match l, k with
  | [], [] => true
  | v :: l, w :: k => Version_eq v w && versions_eqb l k
  | _, _ => false
  end.

Definition MarkerExpression_eqb (a b : MarkerExpression) : bool :=
  match a, b with
  | ME_Version k s, ME_Version k' s' => bool_decide (k = k') && VersionSpecifier_eqb s s'
  | ME_VersionIn k l op, ME_VersionIn k' l' op' => bool_decide (k = k') && versions_eqb l l' && bool_decide (op = op')
  | ME_String k op v, ME_String k' op' v' => bool_decide (k = k') && bool_decide (op = op') && bool_decide (v = v')
  | ME_List p op, ME_List p' op' => bool_decide (p = p') && bool_decide (op = op')
  | ME_Extra n op, ME_Extra n' op' => bool_decide (n = n') && bool_decide (op = op')
  | _, _ => false
  end.

Definition is_negation (left right : MarkerExpression) : bool :=
  match left, right with
  | ME_Version key specifier, ME_Version key2 specifier2 =>
      bool_decide (key = key2) && Version_eq (spec_version specifier) (spec_version specifier2)
      && bool_decide (negate (operator specifier) = Some (operator specifier2))
  | ME_VersionIn key versions op, ME_VersionIn key2 versions2 op2 =>
      bool_decide (key = key2) && versions_eqb versions versions2 && bool_decide (op <> op2)
  | ME_String key op value, ME_String key2 op2 value2 =>
      bool_decide (key = key2) && bool_decide (value = value2) && bool_decide (MarkerOperator_negate op = Some op2)
  | ME_Extra name op, ME_Extra name2 op2 => bool_decide (name = name2) && bool_decide (ExtraOperator_negate op = op2)
  | ME_List lp op, ME_List lp2 op2 => bool_decide (lp = lp2) && bool_decide (op <> op2)
  | _, _ => false
  end.

(** ** [simplify] *)

Abbreviation clause := (list MarkerExpression).

Fixpoint position_of (term : MarkerExpression) (l : clause) : option nat :=
  match l with
  | [] => None
  | x :: l => if MarkerExpression_eqb x term then Some O else S <$> position_of term l
  end.

(** [other] is contained in the clause with the skipped term negated. *)
Definition covers (self : clause) (redundant : list nat) (skipped_term : MarkerExpression) (other : clause) : bool :=
  forallb (fun term =>
    if MarkerExpression_eqb term skipped_term then false
    else if is_negation term skipped_term then true
    else match position_of term self with
         | Some i => negb (bool_decide (i ∈ redundant))
         | None => false
         end) other.

(** [terms] are the terms from position [skipped] on. *)
Fixpoint redundant_terms (self : clause) (others : list clause) (terms : clause) (skipped : nat) (redundant : list nat) : list nat :=
  match terms with
  | [] => redundant
  | skipped_term :: terms =>
      redundant_terms self others terms (S skipped)
        (if existsb (covers self redundant skipped_term) others then redundant ++ [skipped] else redundant)
  end.

(** The elements whose positions, counted from [i], are not removed. *)
Fixpoint remove_positions {A} (removed : list nat) (i : nat) (l : list A) : list A :=
  match l with
  | [] => []
  | x :: l => if bool_decide (i ∈ removed) then remove_positions removed (S i) l else x :: remove_positions removed (S i) l
  end.

(** The clauses before the current one have been simplified already. *)
Fixpoint simplify_terms (before dnf : list clause) : list clause :=
  match dnf with
  | [] => before
  | self :: dnf =>
      let redundant := redundant_terms self (before ++ dnf) self 0 [] in
      simplify_terms (before ++ [remove_positions redundant 0 self]) dnf
  end.

Definition is_subset (other self : clause) : bool :=
  forallb (fun term => existsb (fun x => MarkerExpression_eqb x term) self) other.

(** The clause at [i] has a subset at another position that stays. *)
Definition redundant_clause (dnf : list clause) (redundant : list nat) (i : nat) (self : clause) : bool :=
  existsb (fun e => negb (Nat.eqb i (fst e) || bool_decide (fst e ∈ redundant)) && is_subset (snd e) self)
    (imap (fun j other => (j, other)) dnf).

Fixpoint redundant_clauses (dnf rest : list clause) (i : nat) (redundant : list nat) : list nat :=
  match rest with
  | [] => redundant
  | self :: rest =>
      redundant_clauses dnf rest (S i) (if redundant_clause dnf redundant i self then redundant ++ [i] else redundant)
  end.

Definition simplify (dnf : list clause) : list clause :=
  let dnf := simplify_terms [] dnf in
  remove_positions (redundant_clauses dnf dnf 0 []) 0 dnf.

(** ** [sort] *)

(** The derived order of [MarkerExpressionKind]. *)
Definition marker_version_index (k : MarkerValueVersion) : N :=
  match k with MVV_ImplementationVersion => 0 | MVV_PythonFullVersion => 1 | MVV_PythonVersion => 2 end.

Definition marker_string_index (k : MarkerValueString) : N :=
  match k with
  | MVS_ImplementationName => 0 | MVS_OsName => 1 | MVS_OsNameDeprecated => 2
  | MVS_PlatformMachine => 3 | MVS_PlatformMachineDeprecated => 4
  | MVS_PlatformPythonImplementation => 5 | MVS_PlatformPythonImplementationDeprecated => 6
  | MVS_PythonImplementationDeprecated => 7 | MVS_PlatformRelease => 8 | MVS_PlatformSystem => 9
  | MVS_PlatformVersion => 10 | MVS_PlatformVersionDeprecated => 11
  | MVS_SysPlatform => 12 | MVS_SysPlatformDeprecated => 13
  end.

Definition expression_kind (e : MarkerExpression) : N * N :=
  match e with
  | ME_Version key _ => (0, marker_version_index key)
  | ME_VersionIn key _ _ => (1, marker_version_index key)
  | ME_String key _ _ => (2, marker_string_index key)
  | ME_List lp _ => (3, list_key_index (list_pair_key lp))
  | ME_Extra _ _ => (4, 0)
  end.

(** A stable sort. *)
Fixpoint insert_sorted {A} (le : A -> A -> bool) (x : A) (l : list A) : list A :=
  match l with
  | [] => [x]
  | y :: l' => if le x y then x :: l else y :: insert_sorted le x l'
  end.

Definition stable_sort {A} (le : A -> A -> bool) (l : list A) : list A := fold_right (insert_sorted le) [] l.

Definition sort (dnf : list clause) : list clause :=
  stable_sort (fun a b => cmp_leb (map expression_kind a) (map expression_kind b))
    (map (stable_sort (fun x y => cmp_leb (expression_kind x) (expression_kind y))) dnf).

(** ** Ranges as terms *)

Section collect.
Context {RV RS : Type} {SV : RangeSet Version RV} {SS : RangeSet text RS}.
Abbreviation Node := (@Node RV RS).

(** The entry of a tree is extended, or made at the end. *)
Fixpoint merge_edge {R} (union : R -> R -> R) (paths : list (NodeId * R)) (tree : NodeId) (range : R) : list (NodeId * R) :=
  match paths with
  | [] => [(tree, range)]
  | (t, r) :: paths => if t =? tree then (t, union r range) :: paths else (t, r) :: merge_edge union paths tree range
  end.

Fixpoint collect_edges_loop {T R} `{RangeSet T R} (paths : list (NodeId * R)) (map : list (R * NodeId)) : option (list (NodeId * R)) :=
  match map with
  | [] => Some paths
  | (range, tree) :: map =>
      bounds ← rs_bounding_range range;
      collect_edges_loop (merge_edge rs_union paths tree (rs_from_range_bounds bounds)) map
  end.

Definition collect_edges {T R} `{RangeSet T R} (map : list (R * NodeId)) : option (list (NodeId * R)) :=
  collect_edges_loop [] map.

(** The points between consecutive segments. *)
Fixpoint excluded_points {T} `{Ord T} (l : list (bound T * bound T)) : option (list T) :=
  match l with
  | (_, B_Excluded v1) :: (((B_Excluded v2, _) :: _) as l') =>
      if cmp_eqb v1 v2 then rest ← excluded_points l'; Some (v1 :: rest) else None
  | _ :: _ :: _ => None
  | _ => Some []
  end.

Definition range_inequality {T R} `{Ord T} `{RangeSet T R} (range : R) : option (list T) :=
  if rs_is_empty range then None
  else
    match rs_bounding_range range with
    | Some (B_Unbounded, B_Unbounded) => excluded_points (rs_iter range)
    | _ => None
    end.

(** The outer [option] is the panic of [Version::new]. *)
Definition star_range_specifier (range : RV) : option (option VersionSpecifier) :=
  match rs_iter range with
  | [(B_Unbounded, B_Excluded v1); (B_Included v2, B_Unbounded)] =>
      trimmed ← only_release_trimmed v1;
      match release trimmed with
      | [major] =>
          if bool_decide (release v2 = [major; 1]) then
            version ← new [major; 0]; Some (Some (not_equals_star_version version))
          else Some None
      | [major; minor] =>
          if bool_decide (release v2 = [major; u64_add minor 1]) then Some (Some (not_equals_star_version v1))
          else Some None
      | _ => Some None
      end
  | _ => Some None
  end.

Definition to_bound (b : bound Version) : Bound :=
  match b with B_Included v => Included v | B_Excluded v => Excluded v | B_Unbounded => Unbounded end.

(** The conjunctions that describe a range of versions: one for each way through. *)
Definition version_terms (key : MarkerValueVersion) (range : RV) : option (list clause) :=
  match range_inequality range with
  | Some excluded => Some [map (fun version => ME_Version key (not_equals_version version)) excluded]
  | None =>
      star ← star_range_specifier range;
      match star with
      | Some specifier => Some [[ME_Version key specifier]]
      | None =>
          mapM (fun bounds =>
            specifiers ← spec_from_release_only_bounds (to_bound (fst bounds), to_bound (snd bounds));
            Some (map (ME_Version key) specifiers)) (rs_iter range)
      end
  end.

Definition string_terms (key : MarkerValueString) (range : RS) : list clause :=
  match range_inequality range with
  | Some excluded => [map (fun value => ME_String key MO_NotEqual value) excluded]
  | None =>
      map (fun bounds => map (fun e => ME_String key (fst e) (snd e)) (marker_from_bounds bounds)) (rs_iter range)
  end.

(** ** [collect_dnf] *)

(** The clauses of the trees below, each after one of the given conjunctions. *)
Fixpoint collect_paths (collect : NodeId -> clause -> option (list clause)) (path : clause) (l : list (NodeId * list clause))
    : option (list clause) :=
  match l with
  | [] => Some []
  | (tree, ways) :: l =>
      ds ← mapM (fun terms => collect tree (path ++ terms)) ways;
      rest ← collect_paths collect path l;
      Some (concat ds ++ rest)
  end.

Definition boolean_paths (high low : NodeId) (term : bool -> MarkerExpression) : list (NodeId * list clause) :=
  [(high, [[term true]]); (low, [[term false]])].

Fixpoint collect_dnf (fuel : nat) (nodes : list Node) (tree : NodeId) (path : clause) : option (list clause) :=
  match fuel with
  | O => None
  | S fuel =>
      k ← kind nodes tree;
      match k with
      | K_False => Some []
      | K_True => Some (match path with [] => [] | _ => [path] end)
      | K_Version key edges =>
          paths ← collect_edges edges;
          ways ← mapM (fun e => terms ← version_terms (marker_version key) (snd e); Some (fst e, terms)) paths;
          collect_paths (collect_dnf fuel nodes) path ways
      | K_String key children =>
          paths ← collect_edges children;
          collect_paths (collect_dnf fuel nodes) path (map (fun e => (fst e, string_terms (marker_string key) (snd e))) paths)
      | K_In key value high low =>
          collect_paths (collect_dnf fuel nodes) path
            (boolean_paths high low (fun b => ME_String (marker_string key) (if b then MO_In else MO_NotIn) value))
      | K_Contains key value high low =>
          collect_paths (collect_dnf fuel nodes) path
            (boolean_paths high low (fun b => ME_String (marker_string key) (if b then MO_Contains else MO_NotContains) value))
      | K_List lp high low =>
          collect_paths (collect_dnf fuel nodes) path
            (boolean_paths high low (fun b => ME_List lp (if b then CO_In else CO_NotIn)))
      | K_Extra name high low =>
          collect_paths (collect_dnf fuel nodes) path
            (boolean_paths high low (fun b => ME_Extra (MVE_Extra name) (if b then EO_Equal else EO_NotEqual)))
      end
  end.

Definition to_dnf (nodes : list Node) (tree : NodeId) : option (list clause) :=
  dnf ← collect_dnf (tree_fuel tree) nodes tree []; Some (sort (simplify dnf)).

(** ** Printing *)

Definition format_conjunction (c : clause) : text := join (bs " and ") (map MarkerExpression_show c).

Definition format_dnf (dnf : list clause) : text :=
  match dnf with
  | [c] => format_conjunction c
  | _ =>
      join (bs " or ") (map (fun c =>
        match c with
        | [_] => format_conjunction c
        | _ => bs "(" ++ format_conjunction c ++ bs ")"
        end) dnf)
  end.

(** [Display for MarkerTreeContents] *)
Definition MarkerTreeContents_show (nodes : list Node) (tree : NodeId) : option text :=
  if NodeId.is_false tree then Some (bs "python_version < '0'")
  else dnf ← to_dnf nodes tree; Some (format_dnf dnf).

(** The outer [option] is the panic. *)
Definition try_to_string (nodes : list Node) (tree : NodeId) : option (option text) :=
  if NodeId.is_true tree then Some None else s ← MarkerTreeContents_show nodes tree; Some (Some s).

(** ** The extra of a marker *)

Definition is_extra_equal (e : MarkerExpression) : bool := match e with ME_Extra _ EO_Equal => true | _ => false end.

(** Every clause must hold the same [extra == '...']. *)
Fixpoint common_extra (dnf : list clause) (extra : option MarkerExpression) : option MarkerExpression :=
  match dnf with
  | [] => extra
  | c :: dnf =>
      found ← List.find is_extra_equal c;
      match extra with
      | Some e => if MarkerExpression_eqb e found then common_extra dnf extra else None
      | None => common_extra dnf (Some found)
      end
  end.

Definition top_level_extra (nodes : list Node) (tree : NodeId) : option (option MarkerExpression) :=
  dnf ← to_dnf nodes tree; Some (common_extra dnf None).

Definition extra_of (e : option MarkerExpression) : option ExtraName :=
  match e with Some (ME_Extra (MVE_Extra extra) _) => Some extra | _ => None end.

Definition top_level_extra_name (nodes : list Node) (tree : NodeId) : option (option ExtraName) :=
  k ← kind nodes tree;
  match k with
  | K_Extra name high low =>
      if NodeId.is_true (edge high low true) then Some (Some name)
      else e ← top_level_extra nodes tree; Some (extra_of e)
  | _ => e ← top_level_extra nodes tree; Some (extra_of e)
  end.
End collect.
