(* ===== verification/MarkerDnfTheorems.v ===== *)
(** * Simplifying disjunctive normal forms

    Removing redundant terms and clauses and sorting what is left does not change
    the value of a disjunction of conjunctions. *)

From stdpp Require Import base numbers list strings gmap.
From S2P Require Import Prelude VersionTypes VersionSmall Version VersionFacts VersionParser VersionOps Specifier SpecifierFacts Ranges RangesFacts RangesTheorems Names Text RangeSet Cuts Tiling MarkerTypes MarkerAlgebra MarkerEval MarkerWf MarkerExpr MarkerOps MarkerVersions MarkerTree MarkerTreeFacts MarkerExamples MarkerDnf.

Section values.
Context (val : MarkerExpression -> bool) (term_ok : MarkerExpression -> Prop).

(** The value of a term respects equality and negation. *)
Record respects : Prop := {
  respects_sym x y : term_ok x -> term_ok y -> MarkerExpression_eqb x y = true -> MarkerExpression_eqb y x = true;
  respects_eq x y : term_ok x -> term_ok y -> MarkerExpression_eqb x y = true -> val x = val y;
  respects_negation x y : term_ok x -> term_ok y -> is_negation x y = true -> val x = negb (val y)
}.

Definition clause_value (c : clause) : bool := forallb val c.
Definition dnf_value (dnf : list clause) : bool := existsb clause_value dnf.

Context (H : respects).

Lemma clause_value_spec c : clause_value c = true <-> forall x, x ∈ c -> val x = true.
Proof. unfold clause_value. rewrite forallb_forall. by setoid_rewrite list_elem_of_In. Qed.

Lemma dnf_value_spec d : dnf_value d = true <-> exists c, c ∈ d /\ clause_value c = true.
Proof. unfold dnf_value. rewrite existsb_exists. by setoid_rewrite list_elem_of_In. Qed.

Lemma position_of_spec t l i : position_of t l = Some i -> exists x, l !! i = Some x /\ MarkerExpression_eqb x t = true.
Proof.
  revert i. induction l as [|x l IH]; intros i; cbn; [done|]. case_match; [intros [= <-]; eauto|].
  destruct (position_of t l) as [j|]; [|done]. intros [= <-]. by apply IH.
Qed.

Lemma remove_positions_spec {A} (removed : list nat) (l : list A) : forall k x,
  x ∈ remove_positions removed k l <-> exists i, l !! i = Some x /\ (k + i)%nat ∉ removed.
Proof.
  induction l as [|y l IH]; intros k x; cbn; [split; [by intros ?%not_elem_of_nil|by intros (i&?&_)]|].
  assert ((exists i, (y :: l) !! i = Some x /\ (k + i)%nat ∉ removed) <->
    (x = y /\ k ∉ removed) \/ exists i, l !! i = Some x /\ (S k + i)%nat ∉ removed) as ->.
  { split.
    - intros ([|i]&Hi&Hn); [left; cbn in Hi; injection Hi as ->; by rewrite Nat.add_0_r in Hn|]. right. exists i. split; [done|].
      by replace (S k + i)%nat with (k + S i)%nat by lia.
    - intros [[-> Hn]|(i&Hi&Hn)]; [exists O; by rewrite Nat.add_0_r|]. exists (S i). split; [done|].
      by replace (k + S i)%nat with (S k + i)%nat by lia. }
  rewrite <- IH. case_bool_decide; [|rewrite elem_of_cons]; naive_solver.
Qed.

(** ** Redundant terms *)

(** What is left of the clause at some point of the search. *)
Definition kept (c : clause) (removed : list nat) : Prop := forall i x, c !! i = Some x -> i ∉ removed -> val x = true.

Lemma kept_value c removed : kept c removed <-> clause_value (remove_positions removed 0 c) = true.
Proof.
  rewrite clause_value_spec. setoid_rewrite remove_positions_spec. cbn. unfold kept. naive_solver.
Qed.

(** A covered term is implied by the others, unless another clause holds. *)
Lemma covers_implied c removed skipped x other :
  Forall term_ok c -> Forall term_ok other -> c !! skipped = Some x -> covers c removed x other = true ->
  kept c (removed ++ [skipped]) -> clause_value other = false -> val x = true.
Proof.
  intros Hc Ho Hx Hcov Hk Hother. destruct (val x) eqn:Ex; [done|]. exfalso.
  assert (clause_value other = true); [|congruence]. apply clause_value_spec. intros t Ht.
  unfold covers in Hcov. rewrite forallb_forall in Hcov. specialize (Hcov t (proj1 (list_elem_of_In _ _) Ht)). cbn in Hcov.
  rewrite Forall_forall in Ho. specialize (Ho t Ht). assert (term_ok x) as Hxo by (by eapply Forall_lookup_1).
  destruct (MarkerExpression_eqb t x) eqn:Etx; [done|]. destruct (is_negation t x) eqn:En.
  - rewrite (respects_negation H t x) by done. by rewrite Ex.
  - destruct (position_of t c) as [i|] eqn:Ei; [|done]. apply position_of_spec in Ei as (y&Hy&Hyt).
    assert (term_ok y) as Hyo by (by eapply Forall_lookup_1). rewrite <- (respects_eq H y t) by done.
    apply (Hk i y Hy). rewrite not_elem_of_app, list_elem_of_singleton. split; [by apply negb_true_iff, bool_decide_eq_false in Hcov|].
    intros ->. rewrite Hx in Hy. injection Hy as ->. apply (respects_sym H) in Hyt; [congruence|done..].
Qed.

Lemma redundant_terms_value c others : Forall term_ok c -> Forall (Forall term_ok) others -> dnf_value others = false ->
  forall terms skipped removed, (forall i, terms !! i = c !! (skipped + i)%nat) ->
  kept c (redundant_terms c others terms skipped removed) -> kept c removed.
Proof.
  intros Hc Ho Hother. induction terms as [|x terms IH]; intros skipped removed Hterms Hk; cbn in Hk; [done|].
  assert (c !! skipped = Some x) as Hx by (specialize (Hterms O); by rewrite Nat.add_0_r in Hterms).
  assert (forall i, terms !! i = c !! (S skipped + i)%nat) as Hterms'.
  { intros i. specialize (Hterms (S i)). cbn in Hterms. by replace (S skipped + i)%nat with (skipped + S i)%nat by lia. }
  apply IH in Hk; [|done]. destruct (existsb _ others) eqn:Ee; [|done].
  apply existsb_exists in Ee as (other&Hin%list_elem_of_In&Hcov). rewrite Forall_forall in Ho.
  assert (clause_value other = false) as Hov.
  { destruct (clause_value other) eqn:E; [|done]. assert (dnf_value others = true); [|congruence]. apply dnf_value_spec. eauto. }
  intros i y Hy Hn. destruct (decide (i = skipped)) as [->|Hne].
  - rewrite Hx in Hy. injection Hy as <-. eapply covers_implied; [done|by apply Ho|done..].
  - apply (Hk i y Hy). rewrite not_elem_of_app, list_elem_of_singleton. done.
Qed.

Lemma simplify_clause_value c others : Forall term_ok c -> Forall (Forall term_ok) others ->
  clause_value (remove_positions (redundant_terms c others c 0 []) 0 c) || dnf_value others = clause_value c || dnf_value others.
Proof.
  intros Hc Ho. destruct (dnf_value others) eqn:E; [by rewrite !orb_true_r|]. rewrite !orb_false_r. apply eq_true_iff_eq.
  rewrite <- kept_value. split.
  - intros Hk. apply (redundant_terms_value c others Hc Ho E c 0 []) in Hk; [|done]. apply clause_value_spec. intros x Hx.
    apply list_elem_of_lookup in Hx as (i&Hi). apply (Hk i x Hi). apply not_elem_of_nil.
  - rewrite clause_value_spec. intros Hv i x Hi _. apply Hv. by eapply list_elem_of_lookup_2.
Qed.

Lemma dnf_value_app d e : dnf_value (d ++ e) = dnf_value d || dnf_value e.
Proof. apply existsb_app. Qed.

Lemma remove_positions_ok {A} (P : A -> Prop) removed k (l : list A) : Forall P l -> Forall P (remove_positions removed k l).
Proof. intros Hl. revert k. induction Hl; intros k; cbn; [constructor|]. case_bool_decide; auto. Qed.

Lemma simplify_terms_value dnf : forall before, Forall (Forall term_ok) before -> Forall (Forall term_ok) dnf ->
  dnf_value (simplify_terms before dnf) = dnf_value (before ++ dnf) /\ Forall (Forall term_ok) (simplify_terms before dnf).
Proof.
  induction dnf as [|c dnf IH]; intros before Hb Hd; cbn [simplify_terms]; [by rewrite app_nil_r|].
  apply Forall_cons in Hd as [Hc Hd]. destruct (IH (before ++ [remove_positions (redundant_terms c (before ++ dnf) c 0 []) 0 c])) as [E1 E2].
  - apply Forall_app. split; [done|]. constructor; [by apply remove_positions_ok|done].
  - done.
  - split; [|done]. rewrite E1. pose proof (simplify_clause_value c (before ++ dnf) Hc ltac:(by apply Forall_app)) as Hs.
    rewrite !dnf_value_app in *. cbn [dnf_value existsb] in *. fold (dnf_value dnf). rewrite orb_false_r.
    revert Hs. generalize (clause_value (remove_positions (redundant_terms c (before ++ dnf) c 0 []) 0 c)) as q. intros q Hs.
    by destruct (dnf_value before), (dnf_value dnf), (clause_value c), q.
Qed.

(** ** Redundant clauses *)

Lemma is_subset_value other self : Forall term_ok other -> Forall term_ok self ->
  is_subset other self = true -> clause_value self = true -> clause_value other = true.
Proof.
  intros Ho Hs Hsub Hv. apply clause_value_spec. intros t Ht. unfold is_subset in Hsub. rewrite forallb_forall in Hsub.
  specialize (Hsub t (proj1 (list_elem_of_In _ _) Ht)). apply existsb_exists in Hsub as (x&Hx%list_elem_of_In&Hxt).
  rewrite Forall_forall in Ho, Hs. rewrite <- (respects_eq H x t) by auto. by apply (proj1 (clause_value_spec self)).
Qed.

(** Some clause that is not removed holds. *)
Definition some_kept (dnf : list clause) (removed : list nat) : Prop :=
  exists j c, dnf !! j = Some c /\ (j ∉ removed) /\ clause_value c = true.

Lemma redundant_clauses_value dnf : Forall (Forall term_ok) dnf -> forall rest i removed,
  (forall k, rest !! k = dnf !! (i + k)%nat) -> some_kept dnf removed -> some_kept dnf (redundant_clauses dnf rest i removed).
Proof.
  intros Hd. induction rest as [|self rest IH]; intros i removed Hrest Hk; cbn; [done|].
  assert (dnf !! i = Some self) as Hself by (specialize (Hrest O); by rewrite Nat.add_0_r in Hrest).
  apply IH.
  { intros k. specialize (Hrest (S k)). cbn in Hrest. by replace (S i + k)%nat with (i + S k)%nat by lia. }
  destruct (redundant_clause dnf removed i self) eqn:Er; [|done].
  apply existsb_exists in Er as ([j other]&Hin%list_elem_of_In&He). apply elem_of_lookup_imap_1 in Hin as (j'&o'&E&Ho).
  injection E as -> ->. cbn in He. apply andb_prop in He as [Hj Hsub]. apply negb_true_iff, orb_false_elim in Hj as [Hij Hjr].
  apply Nat.eqb_neq in Hij. apply bool_decide_eq_false in Hjr. destruct Hk as (k&c&Hkc&Hkr&Hcv). destruct (decide (k = i)) as [->|Hne].
  - rewrite Hself in Hkc. injection Hkc as <-. exists j', o'. split; [done|]. split.
    + rewrite not_elem_of_app, list_elem_of_singleton. naive_solver.
    + eapply is_subset_value; [| |exact Hsub|done]; by eapply Forall_lookup_1.
  - exists k, c. split_and!; [done| |done]. rewrite not_elem_of_app, list_elem_of_singleton. done.
Qed.

Lemma simplify_value dnf : Forall (Forall term_ok) dnf -> dnf_value (simplify dnf) = dnf_value dnf.
Proof.
  intros Hd. unfold simplify. destruct (simplify_terms_value dnf [] ltac:(constructor) Hd) as [E Hd']. cbn [app] in E. rewrite <- E.
  set (d := simplify_terms [] dnf) in *. clearbody d. clear E Hd dnf. apply eq_true_iff_eq. rewrite !dnf_value_spec. split.
  - intros (c&Hc&Hv). apply remove_positions_spec in Hc as (i&Hi&_). exists c. split; [by eapply list_elem_of_lookup_2|done].
  - intros (c&Hc&Hv). apply list_elem_of_lookup in Hc as (i&Hi).
    destruct (redundant_clauses_value d Hd' d 0 []) as (j&c'&Hj&Hn&Hv'); [done|exists i, c; split_and!; [done|apply not_elem_of_nil|done]|].
    exists c'. split; [|done]. apply remove_positions_spec. by exists j.
Qed.

(** ** Sorting *)

Lemma insert_sorted_perm {A} (le : A -> A -> bool) x l : insert_sorted le x l ≡ₚ x :: l.
Proof.
  induction l as [|y l IH]; cbn; [done|]. case_match; [done|]. rewrite IH. apply Permutation_swap.
Qed.

Lemma stable_sort_perm {A} (le : A -> A -> bool) l : stable_sort le l ≡ₚ l.
Proof. induction l as [|x l IH]; cbn; [done|]. by rewrite insert_sorted_perm, IH. Qed.

Lemma sort_value dnf : dnf_value (sort dnf) = dnf_value dnf.
Proof.
  apply eq_true_iff_eq. rewrite !dnf_value_spec. unfold sort. setoid_rewrite stable_sort_perm.
  assert (forall le c, clause_value (stable_sort le c) = clause_value c) as Hc.
  { intros le c. apply eq_true_iff_eq. rewrite !clause_value_spec. by setoid_rewrite stable_sort_perm. }
  split.
  - intros (c&(c'&->&Hin)%list_elem_of_fmap&Hv). exists c'. by rewrite Hc in Hv.
  - intros (c&Hin&Hv). eexists. split; [by apply list_elem_of_fmap_2|]. by rewrite Hc.
Qed.
End values.

(** ** The terms that paths produce *)

Definition release_version (v : Version) : Prop := release_is v (release v).

(** Versions are releases, star terms have two segments, and names are valid. *)
Definition path_term (e : MarkerExpression) : Prop :=
  match e with
  | ME_Version _ sp =>
      release_version (spec_version sp) /\ operator sp <> TildeEqual /\
      (is_star (operator sp) = true -> length (release (spec_version sp)) = 2%nat)
  | ME_VersionIn _ _ _ => False
  | ME_String _ op _ => op <> MO_TildeEqual
  | ME_List _ _ => True
  | ME_Extra (MVE_Extra _) _ => True
  | ME_Extra (MVE_Arbitrary _) _ => False
  end.

Definition version_release (a : assignment) (key : MarkerValueVersion) : list N :=
  match key with
  | MVV_ImplementationVersion => release (a_version a CV_ImplementationVersion)
  | MVV_PythonFullVersion => release (a_version a CV_PythonFullVersion)
  | MVV_PythonVersion => take 2 (release (a_version a CV_PythonFullVersion))
  end.

Definition term_value (a : assignment) (e : MarkerExpression) : bool :=
  match e with
  | ME_Version key sp => release_matches (operator sp) (release (spec_version sp)) (version_release a key)
  | e => default false (plain_value e a)
  end.

Lemma Version_eq_release v w : release_version v -> release_version w ->
  Version_eq v w = true <-> compare_release (release v) (release w) = Eq.
Proof. intros Hv Hw. rewrite Version_eq_cmp. by rewrite (release_cmp v w _ _ Hv Hw). Qed.

Lemma release_matches_eq op r r' seg : compare_release r r' = Eq -> op <> TildeEqual ->
  (is_star op = true -> length r = 2%nat /\ length r' = 2%nat) -> release_matches op r seg = release_matches op r' seg.
Proof.
  intros E Ht Hs. pose proof (compare_release_eq_r r r' seg E) as Ec.
  destruct op; cbn [release_matches]; rewrite ?Ec; try done;
    (destruct (Hs eq_refl) as [L1 L2]; destruct r as [|x [|y [|]]], r' as [|x' [|y' [|]]]; try done;
     rewrite compare_two in E; pose proof (cmp_N_spec x x'); pose proof (cmp_N_spec y y');
     destruct (cmp x x'), (cmp y y'); cbn in E; try done; subst; done).
Qed.

Lemma release_matches_negate op op' r seg : negate op = Some op' -> release_matches op r seg = negb (release_matches op' r seg).
Proof.
  destruct op; cbn; intros [= <-]; cbn; rewrite ?negb_involutive; try done; by destruct (compare_release seg r).
Qed.

Lemma negate_star op op' : negate op = Some op' -> is_star op = is_star op' /\ op' <> TildeEqual.
Proof. destruct op; cbn; intros [= <-]; done. Qed.

Lemma term_value_respects a : respects (term_value a) path_term.
Proof.
  split.
  - intros x y Hx Hy. destruct x as [k s|k l op|k op v|lp op|n op], y as [k' s'|k' l' op'|k' op' v'|lp' op'|n' op']; cbn [MarkerExpression_eqb]; try done.
    + unfold VersionSpecifier_eqb. rewrite !andb_true_iff, !bool_decide_eq_true. intros [-> [Eo E]]. split_and!; [done..|]. destruct Hx as [Hx _], Hy as [Hy _].
      apply (Version_eq_release _ _ Hy Hx). apply (Version_eq_release _ _ Hx Hy) in E. by rewrite compare_release_opp, E.
    + rewrite !andb_true_iff, !bool_decide_eq_true. naive_solver.
    + rewrite !andb_true_iff, !bool_decide_eq_true. naive_solver.
    + rewrite !andb_true_iff, !bool_decide_eq_true. naive_solver.
  - intros x y Hx Hy. destruct x as [k s|k l op|k op v|lp op|n op], y as [k' s'|k' l' op'|k' op' v'|lp' op'|n' op']; cbn [MarkerExpression_eqb]; try done.
    + unfold VersionSpecifier_eqb. rewrite !andb_true_iff, !bool_decide_eq_true. intros [-> [Eo E]]. destruct Hx as (Hx&Ht&Hs), Hy as (Hy&_&Hs').
      apply (Version_eq_release _ _ Hx Hy) in E. cbn. rewrite <- Eo. apply release_matches_eq; [done..|]. rewrite <- Eo in Hs'. auto.
    + rewrite !andb_true_iff, !bool_decide_eq_true. by intros [[-> ->] ->].
    + rewrite !andb_true_iff, !bool_decide_eq_true. by intros [-> ->].
    + rewrite !andb_true_iff, !bool_decide_eq_true. by intros [-> ->].
  - intros x y Hx Hy. destruct x as [k s|k l op|k op v|lp op|n op], y as [k' s'|k' l' op'|k' op' v'|lp' op'|n' op']; cbn [is_negation]; try done.
    + rewrite !andb_true_iff, !bool_decide_eq_true. intros [[-> E] En]. destruct Hx as (Hx&Ht&Hs), Hy as (Hy&_&Hs').
      apply (Version_eq_release _ _ Hx Hy) in E. cbn. rewrite (release_matches_negate _ _ _ _ En). f_equal.
      destruct (negate_star _ _ En) as [Es Et]. apply release_matches_eq; [done..|]. rewrite Es in Hs. auto.
    + rewrite !andb_true_iff, !bool_decide_eq_true. intros [[-> ->] En]. cbn.
      destruct op; cbn in En; try done; injection En as <-; cbn; try (by rewrite ?negb_involutive);
        destruct (normalize_platform k' v') as [k v]; cbn; rewrite ?negb_involutive; try done;
        unfold cmp_gtb, cmp_ltb, cmp_geb, cmp_leb; by destruct (cmp (a_string a k) v).
    + rewrite !andb_true_iff, !bool_decide_eq_true. intros [-> En]. destruct op, op'; cbn; by rewrite ?negb_involutive.
    + rewrite !andb_true_iff, !bool_decide_eq_true. intros [-> En]. destruct n', op, op'; cbn in *; by rewrite ?negb_involutive.
Qed.

(** Simplifying a disjunctive normal form keeps its meaning: dropping the
    redundant terms and clauses and sorting the rest leaves the value unchanged in
    every environment, for all clauses of terms that paths through a tree produce. *)
Theorem simplify_sort_value (a : assignment) (dnf : list clause) (Hd : Forall (Forall path_term) dnf) :
  dnf_value (term_value a) (sort (simplify dnf)) = dnf_value (term_value a) dnf.
Proof. rewrite sort_value. exact (simplify_value (term_value a) path_term (term_value_respects a) dnf Hd). Qed.

(** [A or (not A and B)] *)
Definition a_or_not_a_and_b : list clause :=
  [[nt]; [ME_String MVS_OsName MO_NotEqual (bs "nt"); linux]].

(** ** The extra of a marker *)

Lemma find_extra_spec c e : List.find is_extra_equal c = Some e -> e ∈ c.
Proof. intros [Hin _]%List.find_some. by apply list_elem_of_In. Qed.

Lemma common_extra_spec dnf : forall x e, common_extra dnf x = Some e ->
  (forall y, x = Some y -> e = y) /\ forall c, c ∈ dnf -> exists f, f ∈ c /\ (f = e \/ MarkerExpression_eqb e f = true).
Proof.
  induction dnf as [|c dnf IH]; intros x e.
  - intros [= ->]. split; [by intros y [= ->]|]. by intros c ?%not_elem_of_nil.
  - cbn. destruct (List.find is_extra_equal c) as [f|] eqn:Ef; [|done]. cbn. apply find_extra_spec in Ef. destruct x as [y|].
    + destruct (MarkerExpression_eqb y f) eqn:E; [|done]. intros H. destruct (IH _ _ H) as [Hy Hc]. specialize (Hy y eq_refl) as ->.
      split; [by intros ? [= ->]|]. intros c' [-> | Hc']%elem_of_cons; eauto.
    + intros H. destruct (IH _ _ H) as [Hy Hc]. specialize (Hy f eq_refl) as ->. split; [done|].
      intros c' [-> | Hc']%elem_of_cons; eauto.
Qed.

(** What [top_level_extra] returns is needed: a term that every clause holds is true
    wherever the marker is. *)
Lemma common_extra_needed a dnf e : Forall (Forall path_term) dnf -> common_extra dnf None = Some e ->
  path_term e -> dnf_value (term_value a) dnf = true -> term_value a e = true.
Proof.
  intros Hd He Hp (c&Hc&Hv)%dnf_value_spec. destruct (common_extra_spec _ _ _ He) as [_ H]. destruct (H c Hc) as (f&Hf&Hef).
  pose proof (proj1 (clause_value_spec _ _) Hv f Hf) as Hvf. destruct Hef as [<- | Hef]; [done|].
  rewrite (respects_eq _ _ (term_value_respects a) e f); [done..| |done].
  rewrite Forall_forall in Hd. specialize (Hd c Hc). rewrite Forall_forall in Hd. by apply Hd.
Qed.

(** ** Star terms and trailing zeros *)

Definition python_3_8_1 : MarkerEnvironment := {|
  implementation_name := bs "cpython"; implementation_version := example [3; 8; 1]; os_name := bs "posix";
  platform_machine := bs "x86_64"; platform_python_implementation := bs "CPython"; platform_release := bs "6.1";
  platform_system := bs "Linux"; platform_version := bs ""; python_full_version := example [3; 8; 1];
  python_version := example [3; 8]; sys_platform := bs "linux"
|}.

(** Everything outside [>=3.8.0, <3.9]. *)
Definition outside_3_8_0 : act ConcreteInterner NodeId :=
  let! z := complexify_python_versions NodeId.TRUE (B_Included (example [3; 8; 0])) (B_Excluded (example [3; 9])) in
  mret (NodeId.not z).

(** The star term of a range keeps the trailing zeros of its bound: the marker
    for the Python versions outside [>=3.8.0, <3.9], as [complexify_python_versions]
    builds it for these bounds and negated, is written [!= '3.8.0.*']. Python 3.8.1 is
    not in the marker, but it satisfies the term. *)
Theorem star_range_keeps_zeros :
  (fun r => to_dnf (nodes (snd r)) (fst r)) <$> outside_3_8_0 start
    = Some (Some [[ME_Version MVV_PythonFullVersion (mkSpec NotEqualStar (example [3; 8; 0]))]]) /\
  result_of (let! z := outside_3_8_0 in evaluate z python_3_8_1 []) = Some false /\
  contains (mkSpec NotEqualStar (example [3; 8; 0])) (python_full_version python_3_8_1) = Some true.
Proof. split_and!; vm_compute; reflexivity. Qed.
