(* ===== verification/Cursor.v ===== *)
(** * Cursors over a string ([uv-pep508/src/cursor.rs]) and parser results

    A cursor walks over the characters of a string and counts bytes, which is what
    slices are made of: slicing inside a character of several bytes panics. Errors
    carry a span of the input in bytes. *)

From stdpp Require Import base numbers list strings.
From S2P Require Import Prelude VersionTypes VersionSmall Version VersionParser Specifier Names Text MarkerTypes MarkerAlgebra.

(** ** Bytes of a text *)

(** [char::len_utf8] *)
Definition len_utf8 (c : N) : N := if c <? 128 then 1 else if c <? 2048 then 2 else if c <? 65536 then 3 else 4.

(** [str::len] *)
Fixpoint byte_len (t : text) : N :=
  match t with [] => 0 | c :: t => len_utf8 c + byte_len t end.

(** [(&s[..n], &s[n..])], which panics past the end and inside a character. *)
Fixpoint split_at (n : N) (t : text) : option (text * text) :=
  if n =? 0 then Some ([], t)
  else
    match t with
    | [] => None
    | c :: t =>
        if len_utf8 c <=? n then
          match split_at (n - len_utf8 c) t with Some (a, b) => Some (c :: a, b) | None => None end
        else None
    end.

(** [&s[start..start + len]] *)
Definition byte_slice (start len : N) (t : text) : option text :=
  rest ← snd <$> split_at start t; fst <$> split_at len rest.

(** ** Cursors *)

Record Cursor := mkCursor { input : text; chars : text; pos : N }.

Definition Cursor_new (input : text) : Cursor := {| input := input; chars := input; pos := 0 |}.

(** [None] is the panic of the slice. *)
Definition Cursor_at (self : Cursor) (pos : N) : option Cursor :=
  chars ← snd <$> split_at pos (input self);
  Some {| input := input self; chars := chars; pos := pos |}.

Definition slice (self : Cursor) (start len : N) : option text := byte_slice start len (input self).

Definition peek_char (self : Cursor) : option N := head (chars self).

Definition peek (self : Cursor) : option (N * N) := (fun c => (pos self, c)) <$> head (chars self).

Definition next (self : Cursor) : option (N * N) * Cursor :=
  match chars self with
  | [] => (None, self)
  | c :: chars => (Some (pos self, c), {| input := input self; chars := chars; pos := pos self + len_utf8 c |})
  end.

Definition eat_char (self : Cursor) (token : N) : option N * Cursor :=
  match peek self with
  | Some (start_pos, peek_char) =>
      if peek_char =? token then (Some start_pos, snd (next self)) else (None, self)
  | None => (None, self)
  end.

(** The loop over [chars] of [eat_whitespace] and [take_while]: what is left, the
    position and the number of bytes taken. *)
Fixpoint skip_while (condition : N -> bool) (chars : text) (pos len : N) : text * N * N :=
  match chars with
  | [] => ([], pos, len)
  | c :: rest =>
      if condition c then skip_while condition rest (pos + len_utf8 c) (len + len_utf8 c) else (chars, pos, len)
  end.

Definition take_while (self : Cursor) (condition : N -> bool) : (N * N) * Cursor :=
  let '(chars, pos', len) := skip_while condition (chars self) (pos self) 0 in
  ((pos self, len), {| input := input self; chars := chars; pos := pos' |}).

Definition eat_whitespace (self : Cursor) : Cursor := snd (take_while self is_whitespace).

Definition remaining (self : Cursor) : N := N.of_nat (length (chars self)).

(** The length is a number of characters. *)
Definition peek_while (self : Cursor) (condition : N -> bool) : N * N :=
  (pos self, N.of_nat (length (fst (span condition (chars self))))).

(** ** Errors ([uv-pep508/src/lib.rs]) *)

(** One constructor per message of the parsers, with what it interpolates. *)
Inductive Message :=
| M_ExpectedFoundEnd (expected : N)
| M_ExpectedFound (expected other : N)
| M_NotFoundEnd
| M_NotFound (other : N)
| M_MarkerOperator (operator : text)
| M_MarkerValueEnd
| M_MarkerName (key : text)
| M_ListOnLeft (key : MarkerValueList)
| M_ListOperator (operator : MarkerOperator) (key : MarkerValueList)
| M_Unexpected (char : N)
| M_NameStart (char : N)
| M_NameEmpty
| M_NameEnd (char : N)
| M_ExtrasComma
| M_ExtrasSeparator (other : N)
| M_ExtrasEnd
| M_ExtraStart (other : N)
| M_ExtraChar (char : N)
| M_ExpectedUrl
| M_Specifier (err : ParseErrorKind)
| M_ParenthesisEnd
| M_Kind (other : N)
| M_Trailing (with_marker : bool) (char : N)
| M_Comment (char : N)
| M_UrlWithoutName.

Inductive Pep508ErrorSource (U : Type) :=
| PS_String (message : Message)
| PS_UrlError (err : U)
| PS_UnsupportedRequirement (message : Message).
Arguments PS_String {U} message.
Arguments PS_UrlError {U} err.
Arguments PS_UnsupportedRequirement {U} message.

Record Pep508Error {U : Type} := mkError {
  message : Pep508ErrorSource U;
  err_start : N;
  err_len : N;
  err_input : text
}.
Arguments Pep508Error : clear implicits.

(** [Display for Pep508Error] prints the message, the input and a line that
    underlines the span; only its slices and its assertion can panic. [None] is
    the panic, the result the underlined text. *)
Definition underlined {U} (self : Pep508Error U) : option text :=
  _ ← split_at (err_start self) (err_input self);
  if err_start self =? byte_len (err_input self) then
    if err_len self <=? 1 then Some [] else None
  else byte_slice (err_start self) (err_len self) (err_input self).

(** ** Parsers

    A parser reads from a cursor and acts on a world (the warnings reported and
    the interner); a panic ends the program. *)

Inductive outcome (W E A : Type) :=
| Done (a : A) (cursor : Cursor) (w : W)
| Failed (e : E) (w : W)
| Panicked.
Arguments Done {W E A} a cursor w.
Arguments Failed {W E A} e w.
Arguments Panicked {W E A}.

Definition parser (W U A : Type) : Type := Cursor -> W -> outcome W (Pep508Error U) A.

Definition pret {W U A} (a : A) : parser W U A := fun cursor w => Done a cursor w.

Definition pbind {W U A B} (m : parser W U A) (k : A -> parser W U B) : parser W U B := fun cursor w =>
  match m cursor w with
  | Done a cursor w => k a cursor w
  | Failed e w => Failed e w
  | Panicked => Panicked
  end.

Notation "'let*' x := m 'in' k" := (pbind m (fun x => k))
  (at level 10, x binder, m at level 100, k at level 200).

(** A method of the cursor that takes [&mut self], and one that takes [&self]. *)
Definition advance_with {W U A} (f : Cursor -> A * Cursor) : parser W U A := fun cursor w =>
  let '(a, cursor) := f cursor in Done a cursor w.

Definition look {W U A} (f : Cursor -> A) : parser W U A := fun cursor w => Done (f cursor) cursor w.

(** [unwrap], and slices: [None] panics. *)
Definition unwrap {W U A} (m : option A) : parser W U A := fun cursor w =>
  match m with Some a => Done a cursor w | None => Panicked end.

Definition p_slice {W U} (start len : N) : parser W U text := fun cursor w =>
  unwrap (slice cursor start len) cursor w.

Definition p_eat_whitespace {W U} : parser W U unit := fun cursor w => Done tt (eat_whitespace cursor) w.

(** [Err(Pep508Error { message, start, len, input: cursor.to_string() })] *)
Definition fail {W U A} (message : Pep508ErrorSource U) (start len : N) : parser W U A := fun cursor w =>
  Failed {| message := message; err_start := start; err_len := len; err_input := input cursor |} w.

Definition next_expect_char {W U} (expected span_start : N) : parser W U unit :=
  let* c := advance_with next in
  match c with
  | None => fail (PS_String (M_ExpectedFoundEnd expected)) span_start 1
  | Some (pos, value) =>
      if value =? expected then pret tt
      else fail (PS_String (M_ExpectedFound expected value)) pos (len_utf8 value)
  end.

(** ** Facts about cursors and parsers

    A cursor stays at a boundary of its input, what it takes can be sliced back,
    and the span of an error can be displayed. Parsers are reasoned about with
    postconditions for success and for errors. *)

(** ** Bytes *)

Abbreviation ascii t := (Forall (fun c => c < 128) t).

Lemma len_utf8_pos c : 0 < len_utf8 c.
Proof. unfold len_utf8. repeat case_match; lia. Qed.

Lemma len_utf8_ascii c : c < 128 -> len_utf8 c = 1.
Proof. intros Hc. unfold len_utf8. by rewrite (proj2 (N.ltb_lt c 128) Hc). Qed.

Lemma byte_len_app a b : byte_len (a ++ b) = byte_len a + byte_len b.
Proof. induction a as [|c a IH]; cbn [app byte_len]; lia. Qed.

Lemma byte_len_ascii t : ascii t -> byte_len t = N.of_nat (length t).
Proof. induction 1 as [|c t Hc _ IH]; cbn [byte_len length]; [done|]. rewrite len_utf8_ascii by done. lia. Qed.

Lemma byte_len_nil t : byte_len t = 0 -> t = [].
Proof. destruct t as [|c t]; [done|]. cbn. pose proof (len_utf8_pos c). lia. Qed.

Lemma split_at_app a b : split_at (byte_len a) (a ++ b) = Some (a, b).
Proof.
  induction a as [|c a IH]; [by destruct b|]. cbn [app byte_len split_at]. pose proof (len_utf8_pos c).
  rewrite (proj2 (N.eqb_neq _ _)) by lia. rewrite (proj2 (N.leb_le _ _)) by lia.
  replace (len_utf8 c + byte_len a - len_utf8 c) with (byte_len a) by lia. by rewrite IH.
Qed.

Lemma byte_slice_app a b c : byte_slice (byte_len a) (byte_len b) (a ++ b ++ c) = Some b.
Proof. unfold byte_slice. rewrite split_at_app. cbn. by rewrite split_at_app. Qed.

Lemma skip_while_span p cs n k :
  skip_while p cs n k = (snd (span p cs), n + byte_len (fst (span p cs)), k + byte_len (fst (span p cs))).
Proof.
  revert n k. induction cs as [|c cs IH]; intros n k; cbn; [by rewrite !N.add_0_r|].
  destruct (p c); [|by rewrite !N.add_0_r]. rewrite IH. destruct (span p cs) as [a b]. cbn. f_equal; [f_equal|]; lia.
Qed.

Lemma span_eq p cs : fst (span p cs) ++ snd (span p cs) = cs.
Proof. induction cs as [|c cs IH]; cbn; [done|]. destruct (p c); [|done]. destruct (span p cs). cbn in *. by f_equal. Qed.

Lemma span_all p cs : Forall (fun c => p c = true) (fst (span p cs)).
Proof. induction cs as [|c cs IH]; cbn; [done|]. destruct (p c) eqn:E; [|done]. destruct (span p cs). by constructor. Qed.

(** A run that ends where the predicate fails. *)
Lemma span_run p a b : Forall (fun c => p c = true) a -> match b with c :: _ => p c = false | [] => True end -> span p (a ++ b) = (a, b).
Proof.
  intros Ha Hb. induction Ha as [|c a Hc _ IH]; cbn.
  - destruct b as [|d b]; [done|]. cbn. by rewrite Hb.
  - by rewrite Hc, IH.
Qed.

(** ** Cursors *)

Definition cursor_ok (c : Cursor) : Prop := exists before, input c = before ++ chars c /\ pos c = byte_len before.

(** From [c] to [c']: the same input, at least [n] characters further. *)
Definition goes (c : Cursor) (n : nat) (c' : Cursor) : Prop :=
  cursor_ok c' /\ input c' = input c /\ (length (chars c') + n <= length (chars c))%nat.

Lemma goes_refl c : cursor_ok c -> goes c 0 c.
Proof. intros H. split_and!; [done..|lia]. Qed.

Lemma goes_trans c n c' m c'' : goes c n c' -> goes c' m c'' -> goes c (n + m) c''.
Proof. intros (_&E1&L1) (H&E2&L2). split_and!; [done|congruence|lia]. Qed.

Lemma goes_weak c n m c' : goes c n c' -> (m <= n)%nat -> goes c m c'.
Proof. intros (H&E&L) Hm. split_and!; [done..|lia]. Qed.

Lemma Cursor_new_ok t : cursor_ok (Cursor_new t).
Proof. by exists []. Qed.

Lemma next_some c i x c' : cursor_ok c -> next c = (Some (i, x), c') ->
  goes c 1 c' /\ i = pos c /\ chars c = x :: chars c'.
Proof.
  intros (before&Ei&Ep). unfold next. destruct (chars c) as [|y cs] eqn:Ec; [done|]. intros [= <- <- <-]. cbn. split_and!; [|done|done].
  split_and!; cbn; [|done|rewrite Ec; cbn; lia]. exists (before ++ [y]). cbn.
  rewrite byte_len_app, <- app_assoc. cbn. split; [by rewrite Ei|lia].
Qed.

Lemma next_none c c' : next c = (None, c') -> c' = c /\ chars c = [].
Proof. unfold next. destruct (chars c); [by intros [= <-]|done]. Qed.

Lemma eat_char_cases c x o c' : cursor_ok c -> eat_char c x = (o, c') ->
  (o = None /\ c' = c /\ head (chars c) <> Some x) \/ (o = Some (pos c) /\ chars c = x :: chars c' /\ goes c 1 c').
Proof.
  intros Hc. unfold eat_char, peek. destruct (chars c) as [|y cs] eqn:Ec; cbn [head fmap option_fmap option_map].
  - intros [= <- <-]. by left.
  - destruct (N.eqb_spec y x) as [->|Hne]; intros [= <- <-]; [right|left; split_and!; [done..|congruence]].
    destruct (next c) as [o d] eqn:En. pose proof En as En'. unfold next in En'. rewrite Ec in En'. injection En' as <- <-.
    destruct (next_some c _ _ _ Hc En) as (Hg&_&Ed). done.
Qed.

(** What [take_while] takes is a slice of the input. *)
Lemma take_while_spec c p : cursor_ok c ->
  let '((start, len), c') := take_while c p in
  let taken := fst (span p (chars c)) in
  start = pos c /\ len = byte_len taken /\ chars c' = snd (span p (chars c)) /\ goes c (length taken) c' /\
  pos c' = start + len /\ slice c' start len = Some taken.
Proof.
  intros (before&Ei&Ep). unfold take_while. rewrite skip_while_span. set (taken := fst (span p (chars c))). cbn.
  pose proof (span_eq p (chars c)) as Es. fold taken in Es.
  assert (input c = before ++ taken ++ snd (span p (chars c))) as Ei' by (by rewrite Es).
  split_and!; [done|lia|done| |lia|].
  - split_and!; cbn; [|done|]. 2: { rewrite <- Es at 2. rewrite length_app. lia. }
    exists (before ++ taken). cbn. rewrite <- app_assoc, byte_len_app. split; [done|lia].
  - unfold slice. cbn. rewrite Ei', Ep. apply byte_slice_app.
Qed.

Lemma eat_whitespace_goes c : cursor_ok c -> goes c 0 (eat_whitespace c).
Proof.
  intros H. pose proof (take_while_spec c is_whitespace H) as Ht. unfold eat_whitespace.
  destruct (take_while c is_whitespace) as [[s l] c']. destruct Ht as (_&_&_&Hg&_). eapply goes_weak; [exact Hg|lia].
Qed.

Lemma eat_whitespace_chars c : chars (eat_whitespace c) = snd (span is_whitespace (chars c)).
Proof. unfold eat_whitespace, take_while. by rewrite skip_while_span. Qed.

Lemma chars_ascii c : cursor_ok c -> ascii (input c) -> ascii (chars c).
Proof. intros (before&->&_). by intros [_ H]%Forall_app. Qed.

(** On ASCII, characters are bytes, so what is peeked can be sliced. *)
Lemma peek_while_slice c p : cursor_ok c -> ascii (input c) ->
  slice c (fst (peek_while c p)) (snd (peek_while c p)) = Some (fst (span p (chars c))).
Proof.
  intros Hc Ha. pose proof (chars_ascii c Hc Ha) as Hac. destruct Hc as (before&Ei&Ep). unfold slice, peek_while. cbn [fst snd].
  pose proof (span_eq p (chars c)) as Es. rewrite <- Es in Hac at 1. apply Forall_app in Hac as [Hs _].
  rewrite <- (byte_len_ascii _ Hs), Ei, Ep. rewrite <- Es at 2. apply byte_slice_app.
Qed.

(** ** Errors that can be displayed *)

Definition shown {U} (t : text) (e : Pep508Error U) : Prop := err_input e = t /\ is_Some (underlined e).

Lemma shown_span {U} (m : Pep508ErrorSource U) before x after :
  shown (before ++ x ++ after) {| message := m; err_start := byte_len before; err_len := byte_len x; err_input := before ++ x ++ after |}.
Proof.
  split; [done|]. unfold underlined. cbn [err_start err_len err_input]. rewrite split_at_app. cbn [mbind option_bind]. destruct (N.eqb_spec (byte_len before) (byte_len (before ++ x ++ after))) as [E|_].
  - rewrite !byte_len_app in E. rewrite (proj2 (N.leb_le _ _)) by lia. by eexists.
  - rewrite byte_slice_app. by eexists.
Qed.

Lemma shown_end {U} (m : Pep508ErrorSource U) t : shown t {| message := m; err_start := byte_len t; err_len := 1; err_input := t |}.
Proof.
  split; [done|]. unfold underlined. cbn. rewrite <- (app_nil_r t) at 2. rewrite split_at_app. cbn. rewrite N.eqb_refl. by eexists.
Qed.

(** At the cursor: a prefix of what is left. *)
Lemma shown_ahead {U} (m : Pep508ErrorSource U) c x after : cursor_ok c -> chars c = x ++ after ->
  shown (input c) {| message := m; err_start := pos c; err_len := byte_len x; err_input := input c |}.
Proof. intros (before&Ei&Ep) Ec. rewrite Ei, Ec, Ep. apply shown_span. Qed.

Lemma shown_at_end {U} (m : Pep508ErrorSource U) c : cursor_ok c -> chars c = [] ->
  shown (input c) {| message := m; err_start := pos c; err_len := 1; err_input := input c |}.
Proof. intros (before&Ei&Ep) Ec. rewrite Ei, Ec, Ep, app_nil_r. apply shown_end. Qed.

(** What lies between two positions. *)
Lemma goes_between c n c' : cursor_ok c -> goes c n c' -> exists x, chars c = x ++ chars c' /\ pos c' = pos c + byte_len x.
Proof.
  intros (before&Ei&Ep) ((before'&Ei'&Ep')&Es&Hl). rewrite Es, Ei in Ei'.
  destruct (app_eq_inv _ _ _ _ Ei') as [(x&->&Ex)|(x&->&Ex)].
  - exists []. rewrite Ex, length_app in Hl. assert (x = []) as -> by (destruct x; [done|cbn in Hl; lia]). cbn in Ex. split; [done|]. cbn.
    rewrite Ep, Ep', app_nil_r. lia.
  - exists x. split; [done|]. rewrite Ep, Ep', byte_len_app. lia.
Qed.

Lemma shown_between {U} (m : Pep508ErrorSource U) c n c' : cursor_ok c -> goes c n c' ->
  shown (input c) {| message := m; err_start := pos c; err_len := pos c' - pos c; err_input := input c |}.
Proof.
  intros Hc Hg. destruct (goes_between c n c' Hc Hg) as (x&Ec&->). replace (pos c + byte_len x - pos c) with (byte_len x) by lia.
  by apply (shown_ahead m c x (chars c')).
Qed.

(** ** Postconditions of parsers *)

Definition runs {W U A} (m : parser W U A) (c : Cursor) (w : W) (Q : A -> Cursor -> W -> Prop) (E : Pep508Error U -> W -> Prop) : Prop :=
  match m c w with Done a c' w' => Q a c' w' | Failed e w' => E e w' | Panicked => False end.

Lemma runs_bind {W U A B} (m : parser W U A) (k : A -> parser W U B) c w Q E :
  runs m c w (fun a c' w' => runs (k a) c' w' Q E) E -> runs (pbind m k) c w Q E.
Proof. unfold runs, pbind. by destruct (m c w). Qed.

Lemma runs_mono {W U A} (m : parser W U A) c w (Q Q' : A -> Cursor -> W -> Prop) (E E' : Pep508Error U -> W -> Prop) :
  runs m c w Q E -> (forall a c' w', Q a c' w' -> Q' a c' w') -> (forall e w', E e w' -> E' e w') -> runs m c w Q' E'.
Proof. unfold runs. destruct (m c w); auto. Qed.

(** Which worlds a parser may meet, and how they evolve. *)
Class Worlds (W : Type) := {
  world_ok : W -> Prop;
  world_le : relation W;
  world_le_preorder :: PreOrder world_le
}.

(** Any world will do. *)
#[refine] Definition any_worlds {W} : Worlds W := {| world_ok _ := True; world_le _ _ := True; world_le_preorder := _ |}.
Proof. by split. Defined.

(** From a world that is fine, the parser moves forward and returns [R], and its errors
    can be displayed; either way the world stays fine. *)
Definition returns {W U A} `{Worlds W} (R : W -> A -> Prop) (m : parser W U A) (c : Cursor) (w : W) : Prop := world_ok w ->
  runs m c w (fun a c' w' => goes c 0 c' /\ world_ok w' /\ world_le w w' /\ R w' a) (fun e w' => shown (input c) e /\ world_ok w').

Definition safe {W U A} `{Worlds W} : parser W U A -> Cursor -> W -> Prop := returns (fun _ _ => True).

Section safe.
Context {W U : Type} `{Worlds W}.
Implicit Types (c : Cursor) (w : W).

Lemma returns_then {A B} (m : parser W U A) (k : A -> parser W U B) (R : W -> A -> Prop) (R' : W -> B -> Prop) c w :
  returns R m c w -> (forall a c' w', m c w = Done a c' w' -> goes c 0 c' -> world_ok w' -> world_le w w' -> R w' a -> returns R' (k a) c' w') ->
  returns R' (pbind m k) c w.
Proof.
  unfold returns, runs, pbind. intros Hm Hk Hw. specialize (Hm Hw). destruct (m c w) as [a c' w'|e w'|] eqn:E; [|done|done].
  destruct Hm as (Hg&Hw'&Hle&Ha). specialize (Hk a c' w' eq_refl Hg Hw' Hle Ha Hw'). pose proof (proj1 (proj2 Hg)) as Ei.
  destruct (k a c' w') as [b c'' w''|e w''|]; [|by rewrite <- Ei|done]. destruct Hk as (Hg'&Hw''&Hle'&Hb). split_and!; [by apply (goes_trans c 0 c' 0)|done|by etrans|done].
Qed.

Lemma returns_ret {A} (a : A) (R : W -> A -> Prop) c w : cursor_ok c -> (world_ok w -> R w a) -> returns (U := U) R (pret a) c w.
Proof. intros Hc Ha Hw. split_and!; [by apply goes_refl|done|done|by apply Ha]. Qed.

Lemma returns_weaken {A} (m : parser W U A) (R R' : W -> A -> Prop) c w : returns R m c w -> (forall w' a, R w' a -> R' w' a) -> returns R' m c w.
Proof. intros Hm HR Hw. eapply runs_mono; [by apply Hm| |done]. intros a c' w' (?&?&?&?). split_and!; auto. Qed.

Lemma returns_safe {A} (m : parser W U A) (R : W -> A -> Prop) c w : returns R m c w -> safe m c w.
Proof. intros Hm. by eapply returns_weaken. Qed.

(** Before what returns [R], work that is safe. *)
Lemma returns_after {A B} (m : parser W U A) (k : A -> parser W U B) (R : W -> B -> Prop) c w :
  safe m c w -> (forall a c' w', m c w = Done a c' w' -> goes c 0 c' -> world_le w w' -> returns R (k a) c' w') -> returns R (pbind m k) c w.
Proof. intros Hm Hk. eapply returns_then; [exact Hm|]. intros a c' w' E Hg _ Hle _. by apply Hk. Qed.

Lemma safe_bind {A B} (m : parser W U A) (k : A -> parser W U B) c w :
  safe m c w -> (forall a c' w', m c w = Done a c' w' -> goes c 0 c' -> safe (k a) c' w') -> safe (pbind m k) c w.
Proof. intros Hm Hk. eapply returns_then; [exact Hm|]. intros a c' w' E Hg _ _ _. by apply Hk. Qed.

(** A step that leaves the world alone. *)
Lemma safe_done {A} (m : parser W U A) a c c' w : m c w = Done a c' w -> goes c 0 c' -> safe m c w.
Proof. intros E Hg Hw. unfold runs. by rewrite E. Qed.

Lemma safe_failed {A} (m : parser W U A) e c w : m c w = Failed e w -> shown (input c) e -> safe m c w.
Proof. intros E Hs Hw. unfold runs. by rewrite E. Qed.

Lemma safe_ret {A} (a : A) c w : cursor_ok c -> safe (U := U) (pret a) c w.
Proof. intros Hc. eapply safe_done; [done|by apply goes_refl]. Qed.

Lemma safe_look {A} (f : Cursor -> A) c w : cursor_ok c -> safe (U := U) (look f) c w.
Proof. intros Hc. eapply safe_done; [done|by apply goes_refl]. Qed.

Lemma safe_whitespace c w : cursor_ok c -> safe (U := U) p_eat_whitespace c w.
Proof. intros Hc. eapply safe_done; [done|by apply eat_whitespace_goes]. Qed.

Lemma safe_next c w : cursor_ok c -> safe (U := U) (advance_with next) c w.
Proof.
  intros Hc. destruct (next c) as [[[i x]|] c'] eqn:E; (eapply safe_done; [unfold advance_with; by rewrite E|]).
  - eapply goes_weak; [exact (proj1 (next_some c i x c' Hc E))|lia].
  - apply next_none in E as [-> _]. by apply goes_refl.
Qed.

Lemma safe_take p c w : cursor_ok c -> safe (U := U) (advance_with (fun c => take_while c p)) c w.
Proof.
  intros Hc. pose proof (take_while_spec c p Hc) as Ht. destruct (take_while c p) as [[s l] c'] eqn:E. destruct Ht as (_&_&_&Hg&_).
  eapply safe_done; [unfold advance_with; by rewrite E|]. eapply goes_weak; [exact Hg|lia].
Qed.

Lemma safe_unwrap {A} (o : option A) c w : cursor_ok c -> is_Some o -> safe (U := U) (unwrap o) c w.
Proof. intros Hc [a ->]. eapply safe_done; [done|by apply goes_refl]. Qed.

Lemma safe_slice start len c w : cursor_ok c -> is_Some (slice c start len) -> safe (U := U) (p_slice start len) c w.
Proof. intros Hc [x Hx]. eapply safe_done; [unfold p_slice, unwrap; by rewrite Hx|by apply goes_refl]. Qed.

Lemma safe_fail {A} (m : Pep508ErrorSource U) start len c w :
  is_Some (underlined (mkError _ m start len (input c))) -> safe (A := A) (fail m start len) c w.
Proof. intros Hs. eapply safe_failed; [done|by split]. Qed.

Lemma returns_fail {A} (m : Pep508ErrorSource U) start len c w :
  is_Some (underlined (mkError _ m start len (input c))) -> returns (A := A) (fun _ _ => False) (fail m start len) c w.
Proof. by intros Hs Hw. Qed.

(** The error at the end of the input points to [span_start], a character of one
    byte or the end. *)
Lemma safe_expect expected i c w : cursor_ok c ->
  (forall m : Pep508ErrorSource U, chars c = [] -> is_Some (underlined (mkError _ m i 1 (input c)))) -> safe (U := U) (next_expect_char expected i) c w.
Proof.
  intros Hc Hs. apply safe_bind; [by apply safe_next|]. unfold advance_with. intros a c' w'. destruct (next c) as [o d] eqn:E. intros [= -> -> ->] Hg.
  destruct a as [[j x]|].
  - destruct (next_some c j x c' Hc E) as (_&->&Ec). destruct (x =? expected); [apply safe_ret, Hg|].
    apply safe_fail. rewrite (proj1 (proj2 Hg)). replace (len_utf8 x) with (byte_len [x]) by (cbn; lia).
    exact (proj2 (shown_ahead (PS_String (M_ExpectedFound expected x)) c [x] (chars c') Hc Ec)).
  - apply next_none in E as [-> Ec]. apply safe_fail. by apply Hs.
Qed.
End safe.
