(* ===== verification/MarkerParse.v ===== *)
(** * Parsing markers ([uv-pep508/src/marker/parse.rs])

    The parser of markers, from the operator to the whole marker. It reports
    warnings and builds the tree while it reads: the operations on trees are an
    interface, implemented by the interner and by the syntax of formulas. *)

From stdpp Require Import base numbers list strings.
From S2P Require Import Prelude VersionTypes VersionSmall Version VersionParser Specifier Names Text RangeSet MarkerTypes MarkerAlgebra Cursor.

Inductive MarkerWarningKind :=
| DeprecatedMarkerName | ExtraInvalidComparison | ExtrasInvalidComparison | DependencyGroupsInvalidComparison
| LexicographicComparison | MarkerMarkerComparison | Pep440Error | StringStringComparison.

(** What the parser acts on: the warnings so far and the state of the trees. *)
Record World {I : Type} := mkWorld { warnings : list MarkerWarningKind; trees : I }.
Arguments World : clear implicits.

(** The operations on marker trees that the parser calls. *)
Class MarkerBuilder (I T : Type) := {
  build_expression : MarkerExpression -> act I T;
  build_and : T -> T -> act I T;
  build_or : T -> T -> act I T;
  build_true : T
}.

(** [char::is_alphabetic] *)
Class Alphabetic := is_alphabetic : N -> bool.

Class AlphabeticLaws `{Alphabetic} : Prop :=
  is_alphabetic_ascii c : c < 128 -> is_alphabetic c = is_ascii_alphabetic c.

(** Letters of ASCII only. *)
Definition ascii_alphabetic : Alphabetic := is_ascii_alphabetic.

#[export] Instance ascii_alphabetic_laws : @AlphabeticLaws ascii_alphabetic.
Proof. by intros c _. Qed.

Section parse.
Context {I T U : Type} `{MarkerBuilder I T} `{Alphabetic}.
Abbreviation P := (parser (World I) U).

Definition report (kind : MarkerWarningKind) : P unit := fun cursor w =>
  Done tt cursor {| warnings := warnings w ++ [kind]; trees := trees w |}.

(** An operation on trees. *)
Definition build {A} (m : act I A) : P A := fun cursor w =>
  match m (trees w) with
  | Some (a, i) => Done a cursor {| warnings := warnings w; trees := i |}
  | None => Panicked
  end.

Definition string_error {A} (message : Message) (start len : N) : P A := fail (PS_String message) start len.

(** ** Operators and values *)

Definition word_char (c : N) : bool := negb (is_whitespace c) && negb (c =? 39) && negb (c =? 34).

Definition parse_marker_operator : P MarkerOperator :=
  let* first := look peek_char in
  let* taken := advance_with (fun cursor =>
    take_while cursor (if match first with Some c => is_alphabetic c | None => false end then word_char else operator_char)) in
  let* operator := p_slice (fst taken) (snd taken) in
  if bool_decide (operator = bs "not") then
    let* c := advance_with next in
    match c with
    | None => let* pos := look pos in string_error M_NotFoundEnd pos 1
    | Some (pos, other) =>
        if is_whitespace other then
          let* _ := p_eat_whitespace in
          let* pos := look Cursor.pos in
          let* _ := next_expect_char 105 pos in
          let* pos := look Cursor.pos in
          let* _ := next_expect_char 110 pos in
          pret MO_NotIn
        else string_error (M_NotFound other) pos (len_utf8 other)
    end
  else
    match MarkerOperator_from_str operator with
    | Some operator => pret operator
    | None => string_error (M_MarkerOperator operator) (fst taken) (snd taken)
    end.

(** The names of PEP 345. *)
Definition is_deprecated (value : MarkerValue) : bool :=
  match value with
  | MV_MarkerEnvString
      (MVS_OsNameDeprecated | MVS_PlatformMachineDeprecated | MVS_PlatformPythonImplementationDeprecated
       | MVS_PythonImplementationDeprecated | MVS_PlatformVersionDeprecated | MVS_SysPlatformDeprecated) => true
  | _ => false
  end.

Definition key_char (c : N) : bool :=
  negb (is_whitespace c) && negb ((c =? 62) || (c =? 61) || (c =? 60) || (c =? 33) || (c =? 126) || (c =? 41)).

Definition is_quote (c : N) : bool := (c =? 34) || (c =? 39).

Definition parse_marker_value : P MarkerValue :=
  let* first := look peek in
  match first with
  | None => let* pos := look pos in string_error M_MarkerValueEnd pos 1
  | Some (start_pos, quotation_mark) =>
      if is_quote quotation_mark then
        let* _ := advance_with next in
        let* taken := advance_with (fun cursor => take_while cursor (fun c => negb (c =? quotation_mark))) in
        let* value := p_slice (fst taken) (snd taken) in
        let* _ := next_expect_char quotation_mark start_pos in
        pret (MV_QuotedString value)
      else
        let* taken := advance_with (fun cursor => take_while cursor key_char) in
        let* key := p_slice (fst taken) (snd taken) in
        match MarkerValue_from_str key with
        | None => string_error (M_MarkerName key) (fst taken) (snd taken)
        | Some value =>
            if is_deprecated value then let* _ := report DeprecatedMarkerName in pret value else pret value
        end
  end.

(** ** Expressions *)

(** [Version::from_str] and [VersionPattern::from_str]: [None] for an error. *)
Definition parsed {A E} (m : result A (failure E)) : P (option A) := fun cursor w =>
  match m with
  | Ok a => Done (Some a) cursor w
  | Err (Error _) => Done None cursor w
  | Err Panic => Panicked
  end.

(** The loop of [parse_version_in_expr] over the value. *)
Fixpoint version_list (fuel : nat) (value : Cursor) (versions : list Version) : P (option (list Version)) :=
  match fuel with
  | O => unwrap None
  | S fuel =>
      let value := eat_whitespace value in
      let '((start, len), value) := take_while value (fun c => negb (is_whitespace c)) in
      if len =? 0 then pret (Some versions)
      else
        let* word := unwrap (slice value start len) in
        let* version := parsed (Version_from_str (utf8 word)) in
        match version with
        | Some version => version_list fuel value (versions ++ [version])
        | None => let* _ := report Pep440Error in pret None
        end
  end.

Definition parse_version_in_expr (key : MarkerValueVersion) (operator : MarkerOperator) (value : text)
    : P (option MarkerExpression) :=
  match ContainerOperator_from_marker_operator operator with
  | None => pret None
  | Some operator =>
      let* versions := version_list (S (length value)) (Cursor_new value) [] in
      pret ((fun versions => ME_VersionIn key versions operator) <$> versions)
  end.

(** The specifier of an operator and a version or pattern. *)
Definition build_specifier (key : MarkerValueVersion) (m : result VersionSpecifier BuildErrorKind) : P (option MarkerExpression) :=
  match m with
  | Ok specifier => pret (Some (ME_Version key specifier))
  | Err _ => let* _ := report Pep440Error in pret None
  end.

Definition parse_version_expr (key : MarkerValueVersion) (marker_operator : MarkerOperator) (value : text)
    : P (option MarkerExpression) :=
  let* pattern := parsed (VersionPattern_from_str (utf8 value)) in
  match pattern with
  | None => let* _ := report Pep440Error in pret None
  | Some pattern =>
      match to_pep440_operator marker_operator with
      | None => let* _ := report Pep440Error in pret None
      | Some operator => build_specifier key (from_pattern operator pattern)
      end
  end.

Definition parse_inverted_version_expr (value : text) (marker_operator : MarkerOperator) (key : MarkerValueVersion)
    : P (option MarkerExpression) :=
  let marker_operator := MarkerOperator_invert marker_operator in
  let* version := parsed (Version_from_str (utf8 value)) in
  match version with
  | None => let* _ := report Pep440Error in pret None
  | Some version =>
      match to_pep440_operator marker_operator with
      | None => let* _ := report Pep440Error in pret None
      | Some operator => build_specifier key (from_version operator version)
      end
  end.

Definition parse_extra_expr (operator : MarkerOperator) (value : text) : P (option MarkerExpression) :=
  let* name :=
    match ExtraName_from_str (utf8 value) with
    | Ok name => pret (MVE_Extra name)
    | Err _ => let* _ := report ExtraInvalidComparison in pret (MVE_Arbitrary value)
    end in
  match ExtraOperator_from_marker_operator operator with
  | Some operator => pret (Some (ME_Extra name operator))
  | None => let* _ := report ExtraInvalidComparison in pret None
  end.

(** ['...' in extras] and ['...' in dependency_groups] *)
Definition parse_list_pair (key : MarkerValueList) (l_string : text) : P CanonicalMarkerListPair :=
  match key with
  | MVL_Extras =>
      match ExtraName_from_str (utf8 l_string) with
      | Ok name => pret (LP_Extras name)
      | Err _ => let* _ := report ExtrasInvalidComparison in pret (LP_Arbitrary key l_string)
      end
  | MVL_DependencyGroups =>
      match GroupName_from_str (utf8 l_string) with
      | Ok name => pret (LP_DependencyGroup name)
      | Err _ => let* _ := report ExtrasInvalidComparison in pret (LP_Arbitrary key l_string)
      end
  end.

(** The expression of the two values and the operator; [start] and [len] are its
    span. *)
Definition typed_expression (start len : N) (l_value : MarkerValue) (operator : MarkerOperator) (r_value : MarkerValue)
    : P (option MarkerExpression) :=
  match l_value with
  | MV_MarkerEnvVersion key =>
      match r_value with
      | MV_QuotedString value =>
          let* expr := parse_version_in_expr key operator value in
          match expr with
          | Some expr => pret (Some expr)
          | None => parse_version_expr key operator value
          end
      | _ => let* _ := report Pep440Error in pret None
      end
  | MV_MarkerEnvString key =>
      match r_value with
      | MV_QuotedString value =>
          if bool_decide (operator = MO_TildeEqual) then
            let* _ := report LexicographicComparison in pret None
          else pret (Some (ME_String key operator value))
      | _ => let* _ := report MarkerMarkerComparison in pret None
      end
  | MV_MarkerEnvList key => string_error (M_ListOnLeft key) start len
  | MV_Extra =>
      match r_value with
      | MV_QuotedString value => parse_extra_expr operator value
      | _ => let* _ := report ExtraInvalidComparison in pret None
      end
  | MV_QuotedString l_string =>
      match r_value with
      | MV_MarkerEnvVersion key => parse_inverted_version_expr l_string operator key
      | MV_MarkerEnvString key => pret (Some (ME_String key (MarkerOperator_invert operator) l_string))
      | MV_MarkerEnvList key =>
          match ContainerOperator_from_marker_operator operator with
          | None => string_error (M_ListOperator operator key) start len
          | Some operator =>
              let* lp := parse_list_pair key l_string in
              pret (Some (ME_List lp operator))
          end
      | MV_Extra => parse_extra_expr operator l_string
      | MV_QuotedString _ => let* _ := report StringStringComparison in pret None
      end
  end.

Definition parse_marker_key_op_value : P (option MarkerExpression) :=
  let* _ := p_eat_whitespace in
  let* start := look pos in
  let* l_value := parse_marker_value in
  let* _ := p_eat_whitespace in
  let* operator := parse_marker_operator in
  let* _ := p_eat_whitespace in
  let* r_value := parse_marker_value in
  let* end_ := look pos in
  typed_expression start (end_ - start) l_value operator r_value.

(** ** Conjunctions and disjunctions *)

(** [match tree { Some(tree) => apply(tree, expression), None => tree = Some(expression) }] *)
Definition apply_to (apply : T -> T -> act I T) (tree : option T) (expression : option T) : P (option T) :=
  match expression with
  | None => pret tree
  | Some expression =>
      match tree with
      | None => pret (Some expression)
      | Some tree => let* tree := build (apply tree expression) in pret (Some tree)
      end
  end.

Definition not_whitespace (c : N) : bool := negb (is_whitespace c).

Fixpoint op_loop (fuel : nat) (op : text) (apply : T -> T -> act I T) (parse_inner : P (option T)) (tree : option T) : P (option T) :=
  match fuel with
  | O => unwrap None
  | S fuel =>
      let* _ := p_eat_whitespace in
      let* word := look (fun cursor => peek_while cursor not_whitespace) in
      let* value := p_slice (fst word) (snd word) in
      if bool_decide (value = op) then
        let* _ := advance_with (fun cursor => take_while cursor not_whitespace) in
        let* expression := parse_inner in
        let* tree := apply_to apply tree expression in
        op_loop fuel op apply parse_inner tree
      else pret tree
  end.

(** Each round consumes the operator, so the characters that are left bound the
    number of rounds. *)
Definition parse_marker_op (op : text) (apply : T -> T -> act I T) (parse_inner : P (option T)) : P (option T) :=
  let* first_element := parse_inner in
  let* fuel := look (fun cursor => S (length (chars cursor))) in
  op_loop fuel op apply parse_inner first_element.

(** Each parenthesis consumes a character, so the characters that are left bound
    the depth. *)
Fixpoint parse_marker_expr (fuel : nat) : P (option T) :=
  match fuel with
  | O => unwrap None
  | S fuel =>
      let* _ := p_eat_whitespace in
      let* start_pos := advance_with (fun cursor => eat_char cursor 40) in
      match start_pos with
      | Some start_pos =>
          let* marker := parse_marker_op (bs "or") build_or (parse_marker_op (bs "and") build_and (parse_marker_expr fuel)) in
          let* _ := next_expect_char 41 start_pos in
          pret marker
      | None =>
          let* expr := parse_marker_key_op_value in
          match expr with
          | Some expr => let* tree := build (build_expression expr) in pret (Some tree)
          | None => pret None
          end
      end
  end.

Definition parse_marker_and (fuel : nat) : P (option T) := parse_marker_op (bs "and") build_and (parse_marker_expr fuel).
Definition parse_marker_or (fuel : nat) : P (option T) := parse_marker_op (bs "or") build_or (parse_marker_and fuel).

Definition parse_markers_cursor : P (option T) :=
  let* fuel := look (fun cursor => S (length (chars cursor))) in
  let* marker := parse_marker_or fuel in
  let* _ := p_eat_whitespace in
  let* c := advance_with next in
  match c with
  | Some (pos, unexpected) =>
      let* len := look remaining in
      string_error (M_Unexpected unexpected) pos len
  | None => pret marker
  end.

(** [parse_markers], run on a string. *)
Definition parse_markers (markers : text) (w : World I) : outcome (World I) (Pep508Error U) T :=
  (let* result := parse_markers_cursor in pret (default build_true result)) (Cursor_new markers) w.
End parse.

(** ** Implementations of the builder *)

(** The syntax of formulas. *)
Inductive formula :=
| F_True
| F_Expr (e : MarkerExpression)
| F_And (f g : formula)
| F_Or (f g : formula).

#[export] Instance formula_builder : MarkerBuilder unit formula := {|
  build_expression e := mret (F_Expr e);
  build_and f g := mret (F_And f g);
  build_or f g := mret (F_Or f g);
  build_true := F_True
|}.

(** [MarkerTree::expression], [and] and [or] on the interner. *)
#[export] Instance interner_builder {RV RS} {SV : RangeSet Version RV} {SS : RangeSet text RS} : MarkerBuilder (@Interner RV RS) NodeId := {|
  build_expression := expression;
  build_and := and_;
  build_or := or_;
  build_true := NodeId.TRUE
|}.
