(* ===== verification/MarkerParseFacts.v ===== *)
(** * The marker parser is safe

    On ASCII input the parser of markers always terminates, moves forward only, and
    reports errors whose span can be displayed; it never panics if the builder of trees
    can build the expressions that can be read from the input. *)

From stdpp Require Import base numbers list strings.
From S2P Require Import Prelude VersionTypes VersionSmall Version VersionFacts VersionParser ParserFacts ParserSafe Specifier SpecifierFacts Names Text RangeSet MarkerTypes MarkerAlgebra Cursor MarkerParse.

(** The cursor is at a boundary, from what is known about the way to it. *)
Ltac cursor :=
  match goal with
  | |- cursor_ok _ => assumption
  | H : goes _ _ ?c |- cursor_ok ?c => exact (proj1 H)
  | H : goes ?c _ ?d |- input ?d = input ?c => exact (proj1 (proj2 H))
  | H : goes ?c _ ?d, H' : goes ?b _ ?c |- input ?d = input ?b => exact (eq_trans (proj1 (proj2 H)) (proj1 (proj2 H')))
  end.

(** Steps of a safety proof: the parser is a [let*]. *)
Ltac basic := try (solve [(apply safe_look || apply safe_whitespace || apply safe_next || apply safe_ret || apply safe_take); cursor]).

Ltac step := apply safe_bind; [basic|].

(** The same on the way to a tree. *)
Ltac follow := apply returns_after; [basic|].

(** ** What is read does not depend on the world *)

Section alike.
Context {W W' U U' : Type}.

Definition alike {A} (m : parser W U A) (n : parser W' U' A) : Prop := forall c w w',
  match m c w, n c w' with
  | Done a d _, Done b e _ => a = b /\ d = e
  | Failed _ _, Failed _ _ | Panicked, Panicked => True
  | _, _ => False
  end.

Lemma alike_bind {A B} (m : parser W U A) (n : parser W' U' A) (k : A -> parser W U B) l :
  alike m n -> (forall a, alike (k a) (l a)) -> alike (pbind m k) (pbind n l).
Proof.
  intros Hm Hk c w w'. specialize (Hm c w w'). unfold pbind. destruct (m c w) as [a d v|x v|], (n c w') as [b d' v'|x' v'|]; try done. destruct Hm as [-> ->]. apply Hk.
Qed.

Lemma alike_ret {A} (a : A) : alike (pret a) (pret a).
Proof. by intros c w w'. Qed.

Lemma alike_look {A} (f : Cursor -> A) : alike (look f) (look f).
Proof. by intros c w w'. Qed.

Lemma alike_advance {A} (f : Cursor -> A * Cursor) : alike (advance_with f) (advance_with f).
Proof. intros c w w'. unfold advance_with. by destruct (f c). Qed.

Lemma alike_unwrap {A} (o : option A) : alike (unwrap o) (unwrap o).
Proof. intros c w w'. by destruct o. Qed.

Lemma alike_slice start len : alike (p_slice start len) (p_slice start len).
Proof. intros c w w'. unfold p_slice. by destruct (slice c start len). Qed.

Lemma alike_whitespace : alike p_eat_whitespace p_eat_whitespace.
Proof. by intros c w w'. Qed.

Lemma alike_fail {A} (m : Pep508ErrorSource U) (m' : Pep508ErrorSource U') start len : alike (A := A) (fail m start len) (fail m' start len).
Proof. by intros c w w'. Qed.
End alike.

Lemma alike_report {I I' U U'} k : alike (U := U) (U' := U') (report (I := I) k) (report (I := I') k).
Proof. by intros c w w'. Qed.

Lemma alike_parsed {I I' U U' A E} (m : result A (failure E)) : alike (U := U) (U' := U') (parsed (I := I) m) (parsed (I := I') m).
Proof. intros c w w'. by destruct m as [|[]]. Qed.

Create HintDb alike.
#[export] Hint Resolve alike_ret alike_look alike_advance alike_unwrap alike_slice alike_whitespace alike_fail alike_report alike_parsed : alike.

Ltac alike := repeat first [solve [auto with alike] | apply alike_bind; [|intros ?] | case_match; subst].

Section readings.
Context {I I' U U' : Type} `{Alphabetic}.
Abbreviation alike := (alike (W := World I) (W' := World I') (U := U) (U' := U')).

Lemma alike_expect x i : alike (next_expect_char x i) (next_expect_char x i).
Proof. unfold next_expect_char. alike. Qed.
#[local] Hint Resolve alike_expect : alike.

Lemma alike_operator : alike parse_marker_operator parse_marker_operator.
Proof. unfold parse_marker_operator, string_error. alike. Qed.

Lemma alike_value : alike parse_marker_value parse_marker_value.
Proof. unfold parse_marker_value, string_error. alike. Qed.
#[local] Hint Resolve alike_operator alike_value : alike.

Lemma alike_version_list : forall fuel value versions, alike (version_list fuel value versions) (version_list fuel value versions).
Proof. induction fuel as [|fuel IH]; intros; cbn [version_list]; alike. Qed.
#[local] Hint Resolve alike_version_list : alike.

Lemma alike_key_op_value : alike parse_marker_key_op_value parse_marker_key_op_value.
Proof.
  unfold parse_marker_key_op_value, typed_expression, parse_version_in_expr, parse_version_expr, parse_inverted_version_expr, parse_extra_expr, parse_list_pair, build_specifier, string_error.
  alike.
Qed.
End readings.

(** The expressions that can be read in a text, from each of its characters. *)
Definition read_from `{Alphabetic} (t : text) (n : nat) : option MarkerExpression :=
  match parse_marker_key_op_value (I := unit) (U := unit) (mkCursor t (drop n t) (byte_len (take n t))) (mkWorld _ [] tt) with Done e _ _ => e | _ => None end.

Definition expressions_of `{Alphabetic} (t : text) : list MarkerExpression := omap (read_from t) (seq 0 (S (length t))).

Lemma expressions_of_spec {I U} `{Alphabetic} c (w : World I) e c' w' : cursor_ok c -> parse_marker_key_op_value (U := U) c w = Done (Some e) c' w' -> e ∈ expressions_of (input c).
Proof.
  intros (before&Ei&Ep) E. unfold expressions_of. apply list_elem_of_omap. exists (length before). split.
  - apply list_elem_of_In, in_seq. rewrite Ei, length_app. lia.
  - unfold read_from. pose proof (alike_key_op_value (U := U) (U' := unit) c w (mkWorld _ [] tt)) as Ha. rewrite E in Ha.
    replace (mkCursor (input c) (drop (length before) (input c)) (byte_len (take (length before) (input c)))) with c.
    + clear E. destruct (parse_marker_key_op_value c _) as [o d v|x v|]; [|done|done]. by destruct Ha as [<- _].
    + rewrite Ei, drop_app_length, take_app_length, <- Ei, <- Ep. by destruct c.
Qed.

(** ** What the parser relies on of the trees *)

#[export, refine] Instance World_worlds {I} `{Worlds I} : Worlds (World I) := {|
  world_ok w := world_ok (trees w);
  world_le w w' := world_le (trees w) (trees w');
  world_le_preorder := _
|}.
Proof. split; [by intros w|]. intros w w' w'' H1 H2. by transitivity (trees w'). Defined.

(** The operation builds a tree. *)
Definition builds_tree {I T} `{Worlds I} (tree_of : I -> T -> Prop) (m : act I T) (i : I) : Prop :=
  exists t i', m i = Some (t, i') /\ world_ok i' /\ world_le i i' /\ tree_of i' t.

(** Trees stay trees; of trees the operations build trees, and so do they of the
    expressions that can be built. *)
Class MarkerBuilderLaws (I T : Type) `{MarkerBuilder I T} `{Worlds I} := {
  tree_of : I -> T -> Prop;
  can_build : MarkerExpression -> Prop;
  tree_of_le i i' t : world_le i i' -> tree_of i t -> tree_of i' t;
  build_expression_law e i : world_ok i -> can_build e -> builds_tree tree_of (build_expression e) i;
  build_and_law x y i : world_ok i -> tree_of i x -> tree_of i y -> builds_tree tree_of (build_and x y) i;
  build_or_law x y i : world_ok i -> tree_of i x -> tree_of i y -> builds_tree tree_of (build_or x y) i;
  build_true_law i : world_ok i -> tree_of i build_true
}.

#[export] Instance unit_worlds : Worlds unit := any_worlds.

(** Of formulas, each expression. *)
#[export, refine] Instance formula_laws : MarkerBuilderLaws unit formula := {| tree_of _ _ := True; can_build _ := True |}.
Proof. all: try done; intros; by eexists _, _. Defined.

Section safety.
Context {I T U : Type} `{MarkerBuilderLaws I T} `{Alphabetic}.
Abbreviation P := (parser (World I) U).
Implicit Types (c : Cursor) (w : World I).

Definition tree_option (w : World I) (o : option T) : Prop := match o with Some t => tree_of (trees w) t | None => True end.

Lemma tree_option_le w w' o : world_le w w' -> tree_option w o -> tree_option w' o.
Proof. destruct o as [t|]; [|done]. exact (tree_of_le (trees w) (trees w') t). Qed.

Lemma safe_report k c w : cursor_ok c -> safe (U := U) (report k) c w.
Proof. intros Hc Hw. split_and!; [by apply goes_refl|done|change (world_le (trees w) (trees w)); done|done]. Qed.

Lemma returns_build (m : act I T) c w : cursor_ok c -> (world_ok (trees w) -> builds_tree tree_of m (trees w)) ->
  returns (U := U) tree_option (let* t := build m in pret (Some t)) c w.
Proof.
  intros Hc Hm Hw. destruct (Hm Hw) as (t&i&E&Hi&Hle&Ht). unfold runs, pbind, build. rewrite E. cbn. split_and!; [by apply goes_refl|done..].
Qed.

Lemma safe_parsed {A E} (m : result A (failure E)) c w : cursor_ok c -> m <> Err Panic -> safe (U := U) (parsed m) c w.
Proof. intros Hc Hm. destruct m as [a|[e|]]; [eapply safe_done; [done|by apply goes_refl]..|done]. Qed.

Lemma version_no_panic v : Version_from_str v <> Err Panic.
Proof. pose proof (from_str_inv v) as Hv. intros E. by rewrite E in Hv. Qed.

Lemma pattern_no_panic v : VersionPattern_from_str v <> Err Panic.
Proof. pose proof (pattern_from_str_inv v) as Hv. intros E. by rewrite E in Hv. Qed.

(** Taking characters and slicing them back. *)
Lemma safe_taken {B} p (k : N * N -> text -> P B) c w : cursor_ok c ->
  (forall c', chars c' = snd (span p (chars c)) -> goes c (length (fst (span p (chars c)))) c' ->
     safe (k (pos c, byte_len (fst (span p (chars c)))) (fst (span p (chars c)))) c' w) ->
  safe (let* taken := advance_with (fun cursor => take_while cursor p) in
        let* x := p_slice (fst taken) (snd taken) in k taken x) c w.
Proof.
  intros Hc Hk. step. unfold advance_with. intros a c' w'. pose proof (take_while_spec c p Hc) as Ht.
  destruct (take_while c p) as [[s l] d]. intros [= <- -> <-] Hg. destruct Ht as (->&->&Ec&Hgo&_&Hs). cbn [fst snd].
  apply safe_bind; [apply safe_slice; [apply Hg|by rewrite Hs]|]. unfold p_slice, unwrap. rewrite Hs. intros x c'' w'' [= <- <- <-] _.
  by apply Hk.
Qed.

(** An error over the characters taken from [c]. *)
Lemma safe_fail_taken {A} (m : Pep508ErrorSource U) p c c' w : cursor_ok c -> input c' = input c ->
  safe (A := A) (fail m (pos c) (byte_len (fst (span p (chars c))))) c' w.
Proof.
  intros Hc Ei. apply safe_fail. rewrite Ei. apply (shown_ahead m c _ (snd (span p (chars c)))); [done|]. by rewrite span_eq.
Qed.

Lemma safe_fail_char {A} (m : Pep508ErrorSource U) c x rest c' w : cursor_ok c -> chars c = x :: rest -> input c' = input c ->
  safe (A := A) (fail m (pos c) (len_utf8 x)) c' w.
Proof.
  intros Hc Ec Ei. apply safe_fail. rewrite Ei. replace (len_utf8 x) with (byte_len [x]) by (cbn; lia).
  by apply (shown_ahead m c [x] rest).
Qed.

Lemma safe_fail_end {A} (m : Pep508ErrorSource U) c w : cursor_ok c -> chars c = [] -> safe (A := A) (fail m (pos c) 1) c w.
Proof. intros Hc Ec. apply safe_fail. by apply shown_at_end. Qed.

Lemma next_cases c w a c' w' : cursor_ok c -> advance_with (W := World I) (U := U) next c w = Done a c' w' ->
  (a = None /\ c' = c /\ w' = w /\ chars c = []) \/
  (exists x, a = Some (pos c, x) /\ w' = w /\ chars c = x :: chars c' /\ goes c 1 c').
Proof.
  intros Hc. unfold advance_with. destruct (next c) as [o d] eqn:E. intros [= -> -> ->]. destruct a as [[i x]|].
  - destruct (next_some c i x c' Hc E) as (Hg&->&Ec). right. by exists x.
  - apply next_none in E as [-> Ec]. by left.
Qed.

Lemma safe_expect_here x c w : cursor_ok c -> safe (U := U) (next_expect_char x (pos c)) c w.
Proof. intros Hc. apply safe_expect; [done|]. intros m Ec. by apply (proj2 (shown_at_end m c Hc Ec)). Qed.

Lemma safe_operator c w : cursor_ok c -> safe (U := U) parse_marker_operator c w.
Proof.
  intros Hc. unfold parse_marker_operator. step. intros first c0 w0 [= <- <- <-] _. apply safe_taken; [done|]. intros c' Ec Hg. case_bool_decide.
  - step. intros a c1 w1 Hn Hg1. destruct (next_cases _ _ _ _ _ (proj1 Hg) Hn) as [(->&->&->&El)|(x&->&->&El&_)].
    + step. intros ? ? ? [= <- <- <-] _. apply safe_fail_end; [cursor|done].
    + destruct (is_whitespace x).
      * step. intros [] c2 w2 _ Hg2. step. intros ? ? ? [= <- <- <-] _.
        step; [apply safe_expect_here, Hg2|]. intros [] c3 w3 _ Hg3. step. intros ? ? ? [= <- <- <-] _.
        step; [apply safe_expect_here, Hg3|]. intros [] c4 w4 _ Hg4. apply safe_ret, Hg4.
      * eapply safe_fail_char; [apply Hg|exact El|apply Hg1].
  - destruct (MarkerOperator_from_str _); [apply safe_ret, Hg|]. apply safe_fail_taken; [done|apply Hg].
Qed.

Lemma is_quote_ascii x : is_quote x = true -> x < 128.
Proof. unfold is_quote. intros [->%N.eqb_eq | ->%N.eqb_eq]%orb_prop; lia. Qed.

Lemma safe_value c w : cursor_ok c -> safe (U := U) parse_marker_value c w.
Proof.
  intros Hc. unfold parse_marker_value. step. intros first c0 w0 [= <- <- <-] _. unfold peek. destruct (chars c) as [|q cs] eqn:Ec; cbn [head fmap option_fmap option_map].
  - step. intros ? ? ? [= <- <- <-] _. by apply safe_fail_end.
  - destruct (is_quote q) eqn:Eq.
    + step. intros a c1 w1 _ Hg1. apply safe_taken; [apply Hg1|]. intros c2 _ Hg2.
      step; [|intros [] c3 w3 _ Hg3; apply safe_ret, Hg3].
      { apply safe_expect; [apply Hg2|]. intros m _. rewrite (proj1 (proj2 Hg2)), (proj1 (proj2 Hg1)).
        assert (byte_len [q] = 1) as <- by (cbn; by rewrite len_utf8_ascii by (by apply is_quote_ascii)).
        by apply (shown_ahead m c [q] cs). }
    + apply safe_taken; [done|]. intros c1 _ Hg1. destruct (MarkerValue_from_str _) as [v|].
      * destruct (is_deprecated v); [|apply safe_ret, Hg1]. step; [apply safe_report, Hg1|]. intros [] c2 w2 _ Hg2. apply safe_ret, Hg2.
      * apply safe_fail_taken; [done|apply Hg1].
Qed.

(** ** Expressions *)

Lemma safe_version_list : forall fuel value versions c w, cursor_ok c -> cursor_ok value -> (length (chars value) < fuel)%nat ->
  safe (U := U) (version_list fuel value versions) c w.
Proof.
  induction fuel as [|fuel IH]; intros value versions c w Hc Hv Hlt; [lia|]. cbn [version_list]. set (value' := eat_whitespace value).
  pose proof (eat_whitespace_goes value Hv) as Hgv. fold value' in Hgv.
  pose proof (take_while_spec value' (fun x => negb (is_whitespace x)) (proj1 Hgv)) as Ht.
  destruct (take_while value' _) as [[start len] value2]. destruct Ht as (->&->&_&Hg2&_&Hs). set (word := fst _) in *.
  destruct (N.eqb_spec (byte_len word) 0) as [_|Hne]; [by apply safe_ret|]. rewrite Hs. step.
  intros x c1 w1 [= <- <- <-] _. step; [apply safe_parsed; [done|apply version_no_panic]|]. intros [v|] c2 w2 _ Hg.
  - apply IH; [cursor|cursor|]. destruct Hg2 as (_&_&Hl2), Hgv as (_&_&Hlv). destruct word; [done|]. cbn in Hl2. lia.
  - step; [apply safe_report; cursor|]. intros [] c3 w3 _ Hg3. apply safe_ret; cursor.
Qed.

Lemma safe_reported {A} k (a : A) c w : cursor_ok c -> safe (U := U) (let* _ := report k in pret a) c w.
Proof. intros Hc. step; [by apply safe_report|]. intros [] c1 w1 _ Hg. apply safe_ret; cursor. Qed.

Lemma safe_version_in key op value c w : cursor_ok c -> safe (U := U) (parse_version_in_expr key op value) c w.
Proof.
  intros Hc. unfold parse_version_in_expr. destruct (ContainerOperator_from_marker_operator op); [|by apply safe_ret].
  step; [apply safe_version_list; [done|apply Cursor_new_ok|cbn; lia]|]. intros vs c1 w1 _ Hg. apply safe_ret; cursor.
Qed.

Lemma safe_build_specifier key m c w : cursor_ok c -> safe (U := U) (build_specifier key m) c w.
Proof. intros Hc. destruct m; [by apply safe_ret|by apply safe_reported]. Qed.

Lemma safe_version_expr key op value c w : cursor_ok c -> safe (U := U) (parse_version_expr key op value) c w.
Proof.
  intros Hc. unfold parse_version_expr. step; [apply safe_parsed; [done|apply pattern_no_panic]|]. intros [p|] c1 w1 _ Hg.
  - destruct (to_pep440_operator op); [apply safe_build_specifier; cursor|apply safe_reported; cursor].
  - apply safe_reported; cursor.
Qed.

Lemma safe_inverted_version_expr key op value c w : cursor_ok c -> safe (U := U) (parse_inverted_version_expr value op key) c w.
Proof.
  intros Hc. unfold parse_inverted_version_expr. step; [apply safe_parsed; [done|apply version_no_panic]|]. intros [p|] c1 w1 _ Hg.
  - destruct (to_pep440_operator _); [apply safe_build_specifier; cursor|apply safe_reported; cursor].
  - apply safe_reported; cursor.
Qed.

Lemma safe_extra_expr op value c w : cursor_ok c -> safe (U := U) (parse_extra_expr op value) c w.
Proof.
  intros Hc. unfold parse_extra_expr. step.
  - destruct (ExtraName_from_str _); [by apply safe_ret|by apply safe_reported].
  - intros name c1 w1 _ Hg. destruct (ExtraOperator_from_marker_operator op); [apply safe_ret; cursor|apply safe_reported; cursor].
Qed.

Lemma safe_list_pair key value c w : cursor_ok c -> safe (U := U) (parse_list_pair key value) c w.
Proof.
  intros Hc. unfold parse_list_pair. destruct key; [destruct (ExtraName_from_str _)|destruct (GroupName_from_str _)];
    (by apply safe_ret) || (by apply safe_reported).
Qed.

Lemma safe_typed start len l op r c w : cursor_ok c -> (forall m : Pep508ErrorSource U, is_Some (underlined (mkError _ m start len (input c)))) ->
  safe (U := U) (typed_expression start len l op r) c w.
Proof.
  intros Hc Hs. destruct l as [key|key|key| |l]; cbn [typed_expression].
  - destruct r; try by apply safe_reported. step; [by apply safe_version_in|]. intros [e|] c1 w1 _ Hg; [apply safe_ret; cursor|].
    apply safe_version_expr; cursor.
  - destruct r; try by apply safe_reported. case_bool_decide; [by apply safe_reported|by apply safe_ret].
  - by apply safe_fail.
  - destruct r; try by apply safe_reported. by apply safe_extra_expr.
  - destruct r as [key|key|key| |r].
    + by apply safe_inverted_version_expr.
    + by apply safe_ret.
    + destruct (ContainerOperator_from_marker_operator op); [|by apply safe_fail]. step; [by apply safe_list_pair|].
      intros lp c1 w1 _ Hg. apply safe_ret; cursor.
    + by apply safe_extra_expr.
    + by apply safe_reported.
Qed.

Lemma safe_key_op_value c w : cursor_ok c -> safe (U := U) parse_marker_key_op_value c w.
Proof.
  intros Hc. unfold parse_marker_key_op_value. step. intros [] c1 w1 _ Hg1. step. intros start c1' w1' [= <- <- <-] _.
  step; [apply safe_value; cursor|]. intros l c2 w2 _ Hg2. step. intros [] c3 w3 _ Hg3.
  step; [apply safe_operator; cursor|]. intros op c4 w4 _ Hg4. step. intros [] c5 w5 _ Hg5.
  step; [apply safe_value; cursor|]. intros r c6 w6 _ Hg6. step. intros end_ c6' w6' [= <- <- <-] _.
  assert (goes c1 0 c6) as Hg by (repeat (eapply (goes_trans _ 0 _ 0); [eassumption|]); by apply goes_refl; cursor).
  apply safe_typed; [cursor|]. intros m. rewrite (proj1 (proj2 Hg)). by apply (shown_between m c1 0 c6); [cursor|].
Qed.
(** ** Conjunctions and disjunctions *)

(** An operator on trees. *)
Definition combines (apply : T -> T -> act I T) : Prop := forall x y i, world_ok i -> tree_of i x -> tree_of i y -> builds_tree tree_of (apply x y) i.

Lemma returns_apply_to (apply : T -> T -> act I T) tree e c w : combines apply -> cursor_ok c -> tree_option w tree -> tree_option w e ->
  returns (U := U) tree_option (apply_to apply tree e) c w.
Proof.
  intros Hop Hc Ht He. destruct e as [e|], tree as [tree|]; cbn [apply_to]; try by apply returns_ret.
  apply returns_build; [done|]. intros Hw. by apply Hop.
Qed.

(** A parser that returns a tree when fewer than [n] characters are left of a text whose
    expressions can be built. *)
Definition returns_within (n : nat) (m : P (option T)) : Prop := forall c w,
  cursor_ok c -> ascii (input c) -> Forall can_build (expressions_of (input c)) -> (length (chars c) < n)%nat -> returns tree_option m c w.

Lemma returns_op_loop n op (apply : T -> T -> act I T) (inner : P (option T)) : op <> [] -> combines apply -> returns_within n inner ->
  forall fuel tree c w, cursor_ok c -> ascii (input c) -> Forall can_build (expressions_of (input c)) -> (length (chars c) < n)%nat -> (length (chars c) < fuel)%nat ->
  tree_option w tree -> returns tree_option (op_loop fuel op apply inner tree) c w.
Proof.
  intros Hop Ht Hin. induction fuel as [|fuel IH]; intros tree c w Hc Ha Hb Hn Hf Htree; [lia|]. cbn [op_loop].
  follow. intros [] c1 w1 _ Hg1 Hw1. follow. intros word c1' w1' [= <- <- <-] _ _. assert (input c1 = input c) as Ei1 by apply Hg1.
  assert (ascii (input c1)) as Ha1 by (by rewrite Ei1). pose proof (peek_while_slice c1 not_whitespace (proj1 Hg1) Ha1) as Hs.
  follow; [apply safe_slice; [cursor|by rewrite Hs]|]. unfold p_slice, unwrap. rewrite Hs. intros value c1'' w1'' [= <- <- <-] _ _.
  case_bool_decide as Hv; [|apply returns_ret; [cursor|intros _; by eapply tree_option_le]].
  follow. unfold advance_with. intros taken c2 w2. pose proof (take_while_spec c1 not_whitespace (proj1 Hg1)) as Htk.
  destruct (take_while c1 not_whitespace) as [[s l] d]. intros [= <- -> <-] _ _. destruct Htk as (_&_&_&Hg2&_). rewrite Hv in Hg2.
  assert (0 < length op)%nat by (destruct op; [done|cbn; lia]). pose proof (goes_trans c 0 c1 _ c2 Hg1 Hg2) as Hg.
  assert (input c2 = input c) as Ei2 by apply Hg. pose proof (proj2 (proj2 Hg)).
  eapply returns_then; [apply Hin; [cursor|by rewrite Ei2|by rewrite Ei2|lia]|]. intros e c3 w3 _ Hg3 _ Hw3 He.
  eapply returns_then; [apply returns_apply_to; [done|cursor| |done]; by do 2 (eapply tree_option_le; [done|])|]. intros tree' c4 w4 _ Hg4 _ _ Ht'.
  pose proof (goes_trans _ _ _ _ _ Hg3 Hg4) as Hg'. pose proof (proj2 (proj2 Hg')). assert (input c4 = input c) as Ei4 by (rewrite (proj1 (proj2 Hg')); done).
  apply IH; rewrite ?Ei4; [cursor|done|done|lia|lia|done].
Qed.

Lemma returns_op n op (apply : T -> T -> act I T) (inner : P (option T)) : op <> [] -> combines apply -> returns_within n inner ->
  returns_within n (parse_marker_op op apply inner).
Proof.
  intros Hop Ht Hin c w Hc Ha Hb Hn. unfold parse_marker_op. eapply returns_then; [by apply Hin|]. intros e c1 w1 _ Hg _ _ He. follow. intros fuel c1' w1' [= <- <- <-] _ _.
  pose proof (proj2 (proj2 Hg)). apply (returns_op_loop n); rewrite ?(proj1 (proj2 Hg)); [done..|cursor|done|done|lia|lia|done].
Qed.

Lemma returns_expr : forall n, returns_within n (parse_marker_expr (T := T) n).
Proof.
  induction n as [|n IH]; intros c w Hc Ha Hb Hn; [lia|]. cbn [parse_marker_expr]. follow. intros [] c1 w1 _ Hg1 _.
  apply returns_after.
  - destruct (eat_char c1 40) as [o d] eqn:E. eapply safe_done; [unfold advance_with; by rewrite E|].
    destruct (eat_char_cases c1 40 o d (proj1 Hg1) E) as [(_&->&_)|(_&_&Hg)]; [apply goes_refl; cursor|by apply (goes_weak _ 1); [|lia]].
  - unfold advance_with. intros o c2 w2 E _ _. destruct (eat_char c1 40) as [o' d] eqn:Ee. injection E as -> -> ->.
    assert (input c1 = input c) as Ei1 by apply Hg1. destruct (eat_char_cases c1 40 o c2 (proj1 Hg1) Ee) as [(->&->&_)|(->&Ec&Hg)].
    + follow; [apply safe_key_op_value; cursor|]. intros [e|] c3 w3 Ee3 Hg3 _; [|by apply returns_ret; [cursor|]].
      apply returns_build; [cursor|]. intros Hw. apply build_expression_law; [done|]. apply expressions_of_spec in Ee3; [|cursor]. rewrite Ei1 in Ee3.
      by rewrite Forall_forall in Hb; apply Hb.
    + pose proof (proj2 (proj2 Hg)). pose proof (proj2 (proj2 Hg1)). assert (input c2 = input c) as Ei2 by (rewrite (proj1 (proj2 Hg)); done).
      eapply returns_then; [apply (returns_op n); [done|exact build_or_law|apply (returns_op n); [done|exact build_and_law|done]|cursor|by rewrite Ei2|by rewrite Ei2|lia]|].
      intros marker c3 w3 _ Hg3 _ _ Hm. follow; [|intros [] c4 w4 _ Hg4 Hw4; apply returns_ret; [cursor|intros _; by eapply tree_option_le]].
      apply safe_expect; [cursor|]. intros m _. rewrite (proj1 (proj2 Hg3)), (proj1 (proj2 Hg)).
      apply (shown_ahead m c1 [40] (chars c2)); [cursor|done].
Qed.

(** A span of ASCII characters may start and end anywhere. *)
Lemma shown_ascii (m : Pep508ErrorSource U) c n : cursor_ok c -> ascii (input c) -> (n <= length (chars c))%nat ->
  is_Some (underlined (mkError _ m (pos c) (N.of_nat n) (input c))).
Proof.
  intros Hc Ha Hn. pose proof (chars_ascii c Hc Ha) as Hac. rewrite <- (take_drop n (chars c)) in Hac. apply Forall_app in Hac as [Ht _].
  pose proof (byte_len_ascii _ Ht) as El. rewrite length_take, Nat.min_l in El by done. rewrite <- El.
  apply (shown_ahead m c (take n (chars c)) (drop n (chars c))); [done|]. by rewrite take_drop.
Qed.

Lemma returns_markers c w : cursor_ok c -> ascii (input c) -> Forall can_build (expressions_of (input c)) -> returns (U := U) tree_option (parse_markers_cursor (T := T)) c w.
Proof.
  intros Hc Ha Hb. unfold parse_markers_cursor. follow. intros fuel c' w' [= <- <- <-] _ _.
  eapply returns_then; [apply (returns_op (S (length (chars c)))); [done|exact build_or_law|apply returns_op; [done|exact build_and_law|apply returns_expr]|done|done|done|lia]|].
  intros marker c1 w1 _ Hg1 _ _ Hm. follow. intros [] c2 w2 _ Hg2 Hw2. follow. intros o c3 w3 E Hg3 Hw3.
  destruct (next_cases _ _ _ _ _ (proj1 Hg2) E) as [(->&->&->&_)|(x&->&->&Ec&Hg)]; [apply returns_ret; [cursor|intros _; exact (tree_option_le _ _ _ Hw2 Hm)]|].
  follow. intros len c3' w3' [= <- <- <-] _ _. apply (returns_weaken _ (fun _ _ => False)); [|done]. apply returns_fail. rewrite (proj1 (proj2 Hg)). unfold remaining.
  apply shown_ascii; [cursor| |rewrite Ec; cbn; lia]. by rewrite (proj1 (proj2 Hg2)), (proj1 (proj2 Hg1)).
Qed.
End safety.

(** ** The parser builds the formula that is written

    Running the parser on the interner is running it on the syntax of formulas and
    building the formula it returns, operation by operation. *)

(** ** Building a formula *)

Fixpoint interpret {I T} `{MarkerBuilder I T} (f : formula) : act I T :=
  match f with
  | F_True => mret build_true
  | F_Expr e => build_expression e
  | F_And f g => let! x := interpret f in let! y := interpret g in build_and x y
  | F_Or f g => let! x := interpret f in let! y := interpret g in build_or x y
  end.

Definition interpret_option {I T} `{MarkerBuilder I T} (f : option formula) : act I (option T) :=
  match f with
  | None => mret None
  | Some f => let! x := interpret f in mret (Some x)
  end.

Section same.
Context {I U : Type}.

(** The two parsers do the same, and leave the trees alone. *)
Definition same {A} (m : parser (World unit) U A) (n : parser (World I) U A) : Prop := forall c ws i,
  match m c (mkWorld _ ws tt) with
  | Done a c' w' => n c (mkWorld _ ws i) = Done a c' (mkWorld _ (warnings w') i)
  | Failed e w' => n c (mkWorld _ ws i) = Failed e (mkWorld _ (warnings w') i)
  | Panicked => n c (mkWorld _ ws i) = Panicked
  end.

Lemma same_bind {A B} (m : parser (World unit) U A) n (k : A -> parser (World unit) U B) l :
  same m n -> (forall a, same (k a) (l a)) -> same (pbind m k) (pbind n l).
Proof.
  intros Hm Hk c ws i. specialize (Hm c ws i). unfold pbind. destruct (m c _) as [a c' [ws' []]|e w'|]; rewrite Hm; [apply Hk|done|done].
Qed.

Lemma same_ret {A} (a : A) : same (pret a) (pret a).
Proof. by intros c ws i. Qed.

Lemma same_look {A} (f : Cursor -> A) : same (look f) (look f).
Proof. by intros c ws i. Qed.

Lemma same_advance {A} (f : Cursor -> A * Cursor) : same (advance_with f) (advance_with f).
Proof. intros c ws i. unfold advance_with. by destruct (f c). Qed.

Lemma same_unwrap {A} (o : option A) : same (unwrap o) (unwrap o).
Proof. intros c ws i. by destruct o. Qed.

Lemma same_slice start len : same (p_slice start len) (p_slice start len).
Proof. intros c ws i. unfold p_slice. by destruct (slice c start len). Qed.

Lemma same_whitespace : same p_eat_whitespace p_eat_whitespace.
Proof. by intros c ws i. Qed.

Lemma same_fail {A} (m : Pep508ErrorSource U) start len : same (A := A) (fail m start len) (fail m start len).
Proof. by intros c ws i. Qed.

Lemma same_report k : same (report k) (report k).
Proof. by intros c ws i. Qed.

Lemma same_parsed {A E} (m : result A (failure E)) : same (parsed m) (parsed m).
Proof. intros c ws i. by destruct m as [|[]]. Qed.
End same.

Create HintDb same.
#[export] Hint Resolve same_ret same_look same_advance same_unwrap same_slice same_whitespace same_fail same_report same_parsed : same.

Ltac same := repeat first [solve [auto with same] | apply same_bind; [|intros ?] | case_match; subst].

Section sim.
Context {I T U : Type} `{MarkerBuilder I T} `{Alphabetic}.
Abbreviation same := (same (I := I) (U := U)).

Lemma same_expect x i : same (next_expect_char x i) (next_expect_char x i).
Proof. unfold next_expect_char. same. Qed.
#[local] Hint Resolve same_expect : same.

Lemma same_operator : same parse_marker_operator parse_marker_operator.
Proof. unfold parse_marker_operator, string_error. same. Qed.

Lemma same_value : same parse_marker_value parse_marker_value.
Proof. unfold parse_marker_value, string_error. same. Qed.
#[local] Hint Resolve same_operator same_value : same.

Lemma same_version_list : forall fuel value versions, same (version_list fuel value versions) (version_list fuel value versions).
Proof. induction fuel as [|fuel IH]; intros; cbn [version_list]; same. Qed.
#[local] Hint Resolve same_version_list : same.

Lemma same_typed start len l op r : same (typed_expression start len l op r) (typed_expression start len l op r).
Proof.
  unfold typed_expression, parse_version_in_expr, parse_version_expr, parse_inverted_version_expr, parse_extra_expr, parse_list_pair, build_specifier, string_error.
  same.
Qed.
#[local] Hint Resolve same_typed : same.

Lemma same_key_op_value : same parse_marker_key_op_value parse_marker_key_op_value.
Proof. unfold parse_marker_key_op_value. same. Qed.

(** ** Simulation *)

(** The result of the parser that builds trees from the state [i], given the result
    of the parser of formulas. *)
Definition related (i : I) (r : outcome (World unit) (Pep508Error U) (option formula)) (q : outcome (World I) (Pep508Error U) (option T)) : Prop :=
  match r with
  | Done f c w =>
      match interpret_option f i with
      | Some (t, i') => q = Done t c (mkWorld _ (warnings w) i')
      | None => q = Panicked
      end
  | Failed e w => q = Panicked \/ exists i', q = Failed e (mkWorld _ (warnings w) i')
  | Panicked => q = Panicked
  end.

(** From the state [i], reached from [i0] by building what was read before. *)
Definition simulates_from (i0 i : I) (m : parser (World unit) U (option formula)) (n : parser (World I) U (option T)) : Prop :=
  forall c ws, related i0 (m c (mkWorld _ ws tt)) (n c (mkWorld _ ws i)).

Definition simulates m n : Prop := forall i, simulates_from i i m n.

(** Work before and after that does not touch trees. *)
Lemma sim_before {A} i0 i (m : parser (World unit) U A) n k l :
  same m n -> (forall a, simulates_from i0 i (k a) (l a)) -> simulates_from i0 i (pbind m k) (pbind n l).
Proof.
  intros Hm Hk c ws. specialize (Hm c ws i). unfold pbind. destruct (m c _) as [a c' [ws' []]|e w'|]; rewrite Hm; [apply Hk| |done].
  right. by exists i.
Qed.

(** Going on with a formula and with what was built from it, or could not be. *)
Lemma sim_then i0 i m n (k : option formula -> parser (World unit) U (option formula)) (l : option T -> parser (World I) U (option T)) :
  simulates m n ->
  (forall g t i' c ws, interpret_option g i = Some (t, i') -> related i0 (k g c (mkWorld _ ws tt)) (l t c (mkWorld _ ws i'))) ->
  (forall g c ws, interpret_option g i = None -> related i0 (k g c (mkWorld _ ws tt)) Panicked) ->
  simulates_from i0 i (pbind m k) (pbind n l).
Proof.
  intros Hm Hk Hp c ws. specialize (Hm i c ws). unfold pbind. destruct (m c _) as [f c' [ws' []]|e w'|]; cbn in Hm.
  - destruct (interpret_option f i) as [[t i']|] eqn:Ei; rewrite Hm; [by apply Hk|by apply Hp].
  - destruct Hm as [->|[i' ->]]; [by left|right; by exists i'].
  - by rewrite Hm.
Qed.

(** Work that ends with the formula read before. *)
Lemma sim_end i0 (k : parser (World unit) U unit) (l : parser (World I) U unit) f t i c ws : same k l -> interpret_option f i0 = Some (t, i) ->
  related i0 ((let* _ := k in pret f) c (mkWorld _ ws tt)) ((let* _ := l in pret t) c (mkWorld _ ws i)).
Proof.
  intros Hk Ei. specialize (Hk c ws i). unfold pbind. destruct (k c _) as [[] c'' w''|e w''|]; rewrite Hk; cbn; [by rewrite Ei|right; by exists i|done].
Qed.

Lemma sim_end_none i0 (k : parser (World unit) U unit) f c ws : interpret_option f i0 = None ->
  related i0 ((let* _ := k in pret f) c (mkWorld _ ws tt)) Panicked.
Proof. intros Ei. unfold pbind. destruct (k c _) as [[] c'' w''|e w''|]; cbn; [by rewrite Ei|by left|done]. Qed.

(** ** Operators *)

(** What [apply_to] does to the trees. *)
Definition combine {J V} (apply : V -> V -> act J V) (tree e : option V) : act J (option V) :=
  match e, tree with
  | None, tree => mret tree
  | e, None => mret e
  | Some e, Some tree => let! x := apply tree e in mret (Some x)
  end.

Lemma apply_to_build {J V} (apply : V -> V -> act J V) tree e c ws j :
  apply_to (U := U) apply tree e c (mkWorld _ ws j) = build (combine apply tree e) c (mkWorld _ ws j).
Proof.
  destruct e as [e|], tree as [tree|]; cbn; try done. unfold pbind, build, mbind'. cbn. by destruct (apply tree e j) as [[x j']|].
Qed.

(** An operator and the formula it makes. *)
Definition makes (apply_f : formula -> formula -> act unit formula) (apply : T -> T -> act I T) : Prop := forall f g,
  exists h, (forall u, apply_f f g u = Some (h, u)) /\
    forall i, interpret h i = (let! x := interpret f in let! y := interpret g in apply x y) i.

Lemma makes_and : makes build_and build_and.
Proof. intros f g. exists (F_And f g). by split; [intros []|]. Qed.

Lemma makes_or : makes build_or build_or.
Proof. intros f g. exists (F_Or f g). by split; [intros []|]. Qed.

Lemma makes_combine apply_f apply f g : makes apply_f apply ->
  exists h, (forall u, combine apply_f f g u = Some (h, u)) /\
    forall i, interpret_option h i = (let! x := interpret_option f in let! y := interpret_option g in combine apply x y) i.
Proof.
  intros Hm. destruct g as [g|], f as [f|].
  - destruct (Hm f g) as (h&E1&E2). exists (Some h). split; [intros u; cbn; unfold mbind'; by rewrite E1|].
    intros i. cbn. unfold mbind'. rewrite E2. unfold mbind'. destruct (interpret f i) as [[x i1]|]; [|done].
    cbn. destruct (interpret g i1) as [[y i2]|]; [|done]. done.
  - exists (Some g). split; [done|]. intros i. cbn. unfold mbind'. cbn. by destruct (interpret g i) as [[y i2]|].
  - exists (Some f). split; [done|]. intros i. cbn. unfold mbind'. by destruct (interpret f i) as [[y i2]|].
  - exists None. by split.
Qed.

Section loop.
Context (op : text) (apply_f : formula -> formula -> act unit formula) (apply : T -> T -> act I T).
Context (m : parser (World unit) U (option formula)) (n : parser (World I) U (option T)).
Context (Hop : makes apply_f apply) (Hm : simulates m n).

(** What cannot be built stays so. *)
Lemma op_loop_none : forall fuel f c ws i0, interpret_option f i0 = None ->
  related i0 (op_loop fuel op apply_f m f c (mkWorld _ ws tt)) Panicked.
Proof.
  induction fuel as [|fuel IH]; intros f c ws i0 Hi; [done|]. cbn [op_loop]. unfold pbind at 1 2 3, p_eat_whitespace, look, p_slice, unwrap.
  destruct (slice _ _ _) as [value|]; [|done]. case_bool_decide; [|cbn; by rewrite Hi]. unfold pbind at 1, advance_with.
  destruct (take_while _ not_whitespace) as [taken c2]. unfold pbind at 1. destruct (m c2 _) as [g c3 [ws3 []]|e w3|]; [|by left|done].
  unfold pbind. rewrite apply_to_build. unfold build. destruct (makes_combine apply_f apply f g Hop) as (h&E1&E2). cbn. rewrite E1.
  apply IH. rewrite E2. unfold mbind'. by rewrite Hi.
Qed.

Lemma sim_op_loop : forall fuel f t i0 i, interpret_option f i0 = Some (t, i) ->
  simulates_from i0 i (op_loop fuel op apply_f m f) (op_loop fuel op apply n t).
Proof using Hop Hm.
  induction fuel as [|fuel IH]; intros f t i0 i Hi; [by intros c ws|]. cbn [op_loop].
  apply sim_before; [auto with same|]. intros []. apply sim_before; [auto with same|]. intros word. apply sim_before; [auto with same|]. intros value.
  case_bool_decide; [|intros c ws; cbn; by rewrite Hi]. apply sim_before; [auto with same|]. intros _. apply sim_then; [done|..].
  - intros g x i1 c ws Eg. unfold pbind. rewrite !apply_to_build. unfold build. cbn [trees warnings].
    destruct (makes_combine apply_f apply f g Hop) as (h&E1&E2). rewrite E1.
    specialize (E2 i0). unfold mbind' in E2. rewrite Hi, Eg in E2. destruct (combine apply t x i1) as [[y i2]|] eqn:Ec; [by apply IH|by apply op_loop_none].
  - intros g c ws Eg. unfold pbind. rewrite apply_to_build. unfold build. cbn [trees warnings].
    destruct (makes_combine apply_f apply f g Hop) as (h&E1&E2). rewrite E1. apply op_loop_none. rewrite E2. unfold mbind'. by rewrite Hi, Eg.
Qed.

Lemma sim_op : simulates (parse_marker_op op apply_f m) (parse_marker_op op apply n).
Proof using Hop Hm.
  intros i. unfold parse_marker_op. apply sim_then; [done|..].
  - intros g t i' c ws Eg. unfold pbind, look. by apply sim_op_loop.
  - intros g c ws Eg. unfold pbind, look. by apply op_loop_none.
Qed.
End loop.

Lemma sim_expression e :
  simulates (let* tree := build (build_expression e) in pret (Some tree)) (let* tree := build (build_expression e) in pret (Some tree)).
Proof.
  intros i c ws. unfold pbind, build. cbn. unfold mbind'. by destruct (build_expression e i) as [[t i']|].
Qed.

Lemma sim_none : simulates (pret None) (pret None).
Proof. by intros i c ws. Qed.

Lemma sim_expr : forall fuel, simulates (parse_marker_expr fuel) (parse_marker_expr fuel).
Proof.
  induction fuel as [|fuel IH]; intros i; [by intros c ws|]. cbn [parse_marker_expr].
  apply sim_before; [auto with same|]. intros []. apply sim_before; [auto with same|]. intros [start|].
  - apply sim_then; [|intros; apply sim_end; [apply same_expect|done]|intros; by apply sim_end_none].
    apply sim_op; [apply makes_or|]. apply sim_op; [apply makes_and|done].
  - apply sim_before; [apply same_key_op_value|]. intros [e|]; [apply sim_expression|apply sim_none].
Qed.

(** What may follow a marker: nothing. *)
Definition end_of_markers {J V} (marker : V) : parser (World J) U V :=
  let* _ := p_eat_whitespace in
  let* c := advance_with next in
  match c with
  | Some (pos, unexpected) => let* len := look remaining in string_error (M_Unexpected unexpected) pos len
  | None => pret marker
  end.

Lemma end_of_markers_eq {J V} (marker : V) c w :
  end_of_markers (J := J) marker c w = (let* _ := end_of_markers tt in pret marker) c w.
Proof. unfold end_of_markers, pbind, p_eat_whitespace, advance_with, look. by destruct (next _) as [[[pos x]|] c']. Qed.

Lemma sim_markers : simulates parse_markers_cursor parse_markers_cursor.
Proof.
  intros i. unfold parse_markers_cursor. apply sim_before; [auto with same|]. intros fuel. apply sim_then.
  - apply sim_op; [apply makes_or|]. apply sim_op; [apply makes_and|apply sim_expr].
  - intros g t i' c ws Eg. fold (end_of_markers (J := unit) g) (end_of_markers (J := I) t). rewrite !end_of_markers_eq. apply sim_end; [|done].
    unfold end_of_markers, string_error. same.
  - intros g c ws Eg. fold (end_of_markers (J := unit) g). rewrite end_of_markers_eq. by apply sim_end_none.
Qed.
End sim.
