(* ===== verification/MarkerFormula.v ===== *)
(** * What a written marker says

    A reference semantics of formulas, on environments whose Python versions are
    final releases, and the agreement of the nodes built for a formula with it. *)

From stdpp Require Import base numbers list strings gmap.
From S2P Require Import Prelude VersionTypes VersionSmall Version VersionFacts VersionParser ParserFacts ParserSafe Specifier SpecifierFacts Ranges RangesFacts RangesTheorems Names Text RangeSet MarkerTypes MarkerAlgebra MarkerEval MarkerWf MarkerEdges MarkerExpr MarkerOps MarkerVersions MarkerTheorems Cursor MarkerParse MarkerParseFacts.

(** ** Reference semantics *)

(** The variable that a version key reads. *)
Definition version_variable (key : MarkerValueVersion) : CanonicalMarkerValueVersion :=
  match key with MVV_ImplementationVersion => CV_ImplementationVersion | _ => CV_PythonFullVersion end.

(** The segments compared: [python_version] has the first two of the full version. *)
Definition compared (a : assignment) (key : MarkerValueVersion) : list N :=
  let segments := release (a_version a (version_variable key)) in
  match key with MVV_PythonVersion => take 2 segments | _ => segments end.

Definition is_in (op : ContainerOperator) : bool := match op with CO_In => true | CO_NotIn => false end.

Definition expression_holds (a : assignment) (e : MarkerExpression) : bool :=
  match e with
  | ME_Version key sp => release_matches (operator sp) (release (spec_version sp)) (compared a key)
  | ME_VersionIn MVV_PythonVersion versions op =>
      eqb (existsb (fun v => release_matches Equal (release v) (compared a MVV_PythonVersion)) versions) (is_in op)
  | ME_VersionIn key versions op =>
      eqb (existsb (fun v => cmp_eqb (a_version a (version_variable key)) v) versions) (is_in op)
  | e => default false (plain_value e a)
  end.

Fixpoint formula_holds (a : assignment) (f : formula) : bool :=
  match f with
  | F_True => true
  | F_Expr e => expression_holds a e
  | F_And f g => formula_holds a f && formula_holds a g
  | F_Or f g => formula_holds a f || formula_holds a g
  end.

Fixpoint leaves (f : formula) : list MarkerExpression :=
  match f with
  | F_True => []
  | F_Expr e => [e]
  | F_And f g | F_Or f g => leaves f ++ leaves g
  end.

(** The versions of the environment are final releases, the one of Python with at
    least a major and a minor number. *)
Definition final (a : assignment) : Prop :=
  (forall k, exists r, release_is (a_version a k) r) /\
  exists major minor rest, release_is (a_version a CV_PythonFullVersion) (major :: minor :: rest).

(** Where the rewriting to [python_full_version] is exact: a prefix must not be
    longer than the version, [!= X.Y.Z.*] and lists must not have a patch number. *)
Definition faithful_at (a : assignment) (e : MarkerExpression) : Prop :=
  match e with
  | ME_Version MVV_PythonVersion sp => operator sp = NotEqualStar -> all_zero (drop 2 (release (spec_version sp))) = true
  | ME_Version key sp => is_star (operator sp) = true -> (length (release (spec_version sp)) <= length (compared a key))%nat
  | ME_VersionIn MVV_PythonVersion versions _ => Forall (fun v => all_zero (drop 2 (release v)) = true) versions
  | _ => True
  end.

Section values.
Context {RV RS : Type} {SV : RangeSet Version RV} {SS : RangeSet text RS}.
Context (okV : RV -> Prop) (okS : RS -> Prop) (ordered : bool).
Context {LV : RangeSetLaws Version RV version_wf okV} {LS : RangeSetLaws text RS (fun _ => True) okS}.
Abbreviation Interner := (@Interner RV RS).
Abbreviation wf := (interner_wf okV okS ordered).

Definition faithful_value (e : MarkerExpression) (v : assignment -> bool) : Prop :=
  (forall s, wf s -> yields okV okS ordered assignment_wf (expression e) s v) /\
  forall a, assignment_wf a -> final a -> faithful_at a e -> v a = expression_holds a e.

Lemma plain_holds e : (forall a, plain_value e a = Some (expression_holds a e)) -> exists v, faithful_value e v.
Proof. intros Hp. exists (fun a => expression_holds a e). split; [intros s Hs; by apply (expression_plain okV okS ordered)|done]. Qed.

Lemma version_holds key sp : specifier_ok sp -> exists v, faithful_value (ME_Version key sp) v.
Proof.
  intros (Hne&Hmax&Htilde).
  assert (Forall (fun x => x < u64_MAX) (release (spec_version sp))) as Hmax' by (eapply Forall_impl; [done|]; cbn; lia).
  assert (forall k, key <> MVV_PythonVersion -> version_variable key = k -> exists v, faithful_value (ME_Version key sp) v) as Hfull.
  { intros k Hkey Hk. destruct (version_expression okV okS ordered key k sp _ eq_refl Hne Hmax' Htilde) as (v&Hy&Hv); [destruct key; subst k; tauto|].
    exists v. split; [done|]. intros a Ha [Hfin _] Hl. destruct (Hfin k) as [r Hr]. destruct (release_is_release _ _ Hr) as [Er _].
    rewrite (Hv a r Hr).
    - destruct key; try done; cbn in *; subst k; unfold compared; cbn; by rewrite Er.
    - destruct key; try done; cbn in *; subst k; unfold compared in Hl; cbn in Hl; by rewrite Er in Hl. }
  destruct key; [by apply (Hfull CV_ImplementationVersion)|by apply (Hfull CV_PythonFullVersion)|]. clear Hfull. destruct sp as [op this].
  cbn [operator spec_version] in *. destruct (decide (op = NotEqualStar /\ all_zero (drop 2 (release this)) = false)) as [[-> Hz]|Hn].
  - exists (fun _ => false). split.
    + intros s Hs. unfold expression. cbn [expression_node]. unfold spec_only_release. cbn [operator spec_version].
      destruct (only_release_of this Hne) as (w&->&Hw). cbn [mbind option_bind]. rewrite (star_false w _ Hw Hz).
      apply (yields_const okV okS ordered assignment_wf s false Hs).
    + intros a _ _ Hf. cbn in Hf. by rewrite Hf in Hz.
  - destruct (python_version_expression okV okS ordered op this _ eq_refl Hne Hmax Htilde) as (v&Hy&Hv).
    { intros ->. destruct (all_zero _) eqn:E; [done|]. by destruct Hn. }
    exists v. split; [done|]. intros a Ha [_ (M&m&rest&Hr)] _. rewrite (Hv a M m rest Hr). cbn. unfold compared. cbn.
    by rewrite (proj1 (release_is_release _ _ Hr)).
Qed.

Lemma version_in_holds key versions op : expression_ok (ME_VersionIn key versions op) -> exists v, faithful_value (ME_VersionIn key versions op) v.
Proof.
  intros [Hok _].
  assert (forall k, key <> MVV_PythonVersion -> version_variable key = k -> Forall version_wf versions -> exists v, faithful_value (ME_VersionIn key versions op) v) as Hfull.
  { intros k Hkey Hk Hv. eexists. split; [intros s Hs; apply (version_in_expression okV okS ordered s key k); [done|done|destruct key; subst k; tauto]|].
    intros a _ _ _. destruct key; try done; by subst k. }
  destruct key; cbn in Hok; [by apply (Hfull CV_ImplementationVersion)|by apply (Hfull CV_PythonFullVersion)|].
  destruct (python_version_in_expression okV okS ordered versions op Hok) as (v&Hy&Hv). exists v. split; [done|].
  intros a Ha [_ (M&m&rest&Hr)] Hf. cbn in Hf. destruct Hv as [[_ Hex]|Hv].
  - exfalso. apply Exists_exists in Hex as (x&Hin&Hx). rewrite Forall_forall in Hf. specialize (Hf x Hin). congruence.
  - rewrite (Hv a M m rest Ha Hr). cbn. unfold compared. cbn. by rewrite (proj1 (release_is_release _ _ Hr)).
Qed.

Lemma expression_faithful e : expression_ok e -> exists v, faithful_value e v.
Proof.
  destruct e as [key sp|key versions op|key op value|lp op|name op]; intros Hok.
  - by apply version_holds, Hok.
  - by apply version_in_holds.
  - apply plain_holds. intros a. destruct Hok as [_ Hok]. destruct op; cbn in *; try done; by destruct (normalize_platform key value).
  - apply plain_holds. intros a. by destruct op.
  - apply plain_holds. intros a. by destruct name, op.
Qed.

(** A node with the value of a formula. *)
Definition builds (f : formula) (m : act Interner NodeId) : Prop := forall s, wf s ->
  spec m s (fun z s' => extends s s' /\ wf s' /\ valid_id (nodes s') z /\
    forall a, admissible a -> final a -> Forall (faithful_at a) (leaves f) -> eval (nodes s') a z = formula_holds a f).

Lemma builds_binary f g m (op : bool -> bool -> bool) h n : builds f m -> builds g n -> leaves h = leaves f ++ leaves g ->
  (forall a, formula_holds a h = op (formula_holds a f) (formula_holds a g)) ->
  forall apply, (forall s x y, wf s -> valid_id (nodes s) x -> valid_id (nodes s) y ->
    yields okV okS ordered admissible (apply x y) s (fun a => op (eval (nodes s) a x) (eval (nodes s) a y))) ->
  builds h (let! x := m in let! y := n in apply x y).
Proof.
  intros Hf Hg El Hh apply Hop s Hs. apply spec_bind. eapply spec_mono; [exact (Hf s Hs)|]. intros x s1 (H1&Hs1&Hx&Hxv).
  apply spec_bind. eapply spec_mono; [exact (Hg s1 Hs1)|]. intros y s2 (H2&Hs2&Hy&Hyv).
  assert (valid_id (nodes s2) x) as Hx2 by (by eapply extends_valid).
  eapply spec_mono; [exact (Hop s2 x y Hs2 Hx2 Hy)|]. intros z s3 (H3&Hs3&Hz&Hzv).
  split_and!; [by etrans; [|etrans]|done|done|]. intros a Ha Hfin. rewrite El. intros [Hff Hfg]%Forall_app.
  rewrite Hzv, (extends_eval s1 s2) by done. by rewrite Hxv, Hyv, Hh.
Qed.

Lemma interpret_builds f : Forall expression_ok (leaves f) -> builds f (interpret f).
Proof.
  induction f as [|e|f IHf g IHg|f IHf g IHg]; cbn [leaves interpret]; intros Hok.
  - intros s Hs. apply spec_ret. split_and!; [done|done|by apply terminal_valid|]. intros a _ _ _. apply eval_true.
  - intros s Hs. apply Forall_cons in Hok as [Hok _]. destruct (expression_faithful e Hok) as (v&Hy&Hv). eapply spec_mono; [exact (Hy s Hs)|].
    intros z s' (H1&Hs'&Hz&He). split_and!; [done..|]. intros a Ha Hfin [Hf _]%Forall_cons. rewrite He by apply Ha. by apply Hv; [apply Ha|..].
  - apply Forall_app in Hok as [Hof Hog]. eapply (builds_binary f g _ andb); [by apply IHf|by apply IHg|done|done|].
    intros s x y Hs Hx Hy. change (build_and x y) with (and_ x y : act Interner NodeId). exact (and_yields okV okS ordered s x y Hs Hx Hy).
  - apply Forall_app in Hok as [Hof Hog]. eapply (builds_binary f g _ orb); [by apply IHf|by apply IHg|done|done|].
    intros s x y Hs Hx Hy. change (build_or x y) with (or_ x y : act Interner NodeId). exact (or_yields okV okS ordered s x y Hs Hx Hy).
Qed.
End values.
