(* ===== verification/MarkerParseTheorems.v ===== *)
(** * Theorems on the marker parser *)

From stdpp Require Import base numbers list strings gmap.
From S2P Require Import Prelude VersionTypes VersionSmall Version VersionFacts VersionParser ParserFacts RoundTrip ParserSafe Specifier SpecifierFacts Ranges RangesFacts RangesTheorems Names Text RangeSet Cuts MarkerTypes MarkerAlgebra MarkerEval MarkerWf MarkerEdges MarkerExpr MarkerOps MarkerVersions MarkerTheorems MarkerExamples Cursor MarkerParse MarkerParseFacts MarkerFormula.

(** ** What the parser returns *)

(** Every result satisfies [R]. *)
Definition gives {W U A} (m : parser W U A) (R : A -> Prop) : Prop := forall c w,
  match m c w with Done a _ _ => R a | _ => True end.

Lemma gives_bind {W U A B} (m : parser W U A) (k : A -> parser W U B) (R : A -> Prop) (R' : B -> Prop) :
  gives m R -> (forall a, R a -> gives (k a) R') -> gives (pbind m k) R'.
Proof. intros Hm Hk c w. specialize (Hm c w). unfold pbind. destruct (m c w) as [a c' w'| |]; [by apply Hk|done|done]. Qed.

Lemma gives_any {W U A} (m : parser W U A) : gives m (fun _ => True).
Proof. intros c w. by destruct (m c w). Qed.

Lemma gives_then {W U A B} (m : parser W U A) (k : A -> parser W U B) R : (forall a, gives (k a) R) -> gives (pbind m k) R.
Proof. intros Hk. eapply gives_bind; [apply gives_any|]. intros a _. apply Hk. Qed.

Lemma gives_ret {W U A} (a : A) (R : A -> Prop) : R a -> gives (W := W) (U := U) (pret a) R.
Proof. by intros Ha c w. Qed.

Lemma gives_fail {W U A} (m : Pep508ErrorSource U) start len (R : A -> Prop) : gives (W := W) (fail m start len) R.
Proof. by intros c w. Qed.

Lemma gives_parsed {I U A E} (m : result A (failure E)) (R : A -> Prop) : (forall a, m = Ok a -> R a) ->
  gives (parsed (I := I) (U := U) m) (fun o => match o with Some a => R a | None => True end).
Proof. intros Hm c w. destruct m as [a|[e|]]; [by apply Hm|done|done]. Qed.

(** ** Expressions that can be built *)

(** The numbers that an expression compares. *)
Definition numbers (e : MarkerExpression) : list N :=
  match e with
  | ME_Version _ sp => release (spec_version sp)
  | ME_VersionIn _ versions _ => concat (map release versions)
  | _ => []
  end.

(** Not [~=] on a string, and no number so large that adding one overflows. *)
Definition buildable (e : MarkerExpression) : bool :=
  match e with
  | ME_String _ MO_TildeEqual _ => false
  | _ => forallb (fun n => n + 1 <? u64_MAX) (numbers e)
  end.

Definition well_read (e : MarkerExpression) : Prop := buildable e = true -> expression_ok e.

Abbreviation well_read_option o := (match o with Some e => well_read e | None => True end).

Lemma forallb_Forall_numbers l : forallb (fun n => n + 1 <? u64_MAX) l = true -> Forall (fun n => n + 1 < u64_MAX) l.
Proof. rewrite forallb_forall, Forall_forall. intros Hl n Hn. apply N.ltb_lt, Hl. by apply list_elem_of_In. Qed.

Lemma parsed_release v : parsed_ok v -> release v <> [].
Proof. intros (_&(_&Hr&_)&_). by rewrite value_release. Qed.

Lemma well_read_specifier key sp : spec_ok sp = true -> parsed_ok (spec_version sp) -> well_read (ME_Version key sp).
Proof.
  intros Hs Hp Hb. split; [|done]. cbn in *. split_and!; [by apply parsed_release|by apply forallb_Forall_numbers|]. intros Et.
  unfold spec_ok in Hs. rewrite Et in Hs. apply andb_prop in Hs as [_ Hs]. rewrite bool_decide_eq_true_2 in Hs by done. by apply Nat.leb_le.
Qed.

Section gives.
Context {I T U : Type} `{MarkerBuilder I T} `{Alphabetic}.
Abbreviation P := (parser (World I) U).

Lemma gives_reported k : gives ((let* _ := report k in pret None) : P (option MarkerExpression)) (fun o => well_read_option o).
Proof. apply gives_then. intros []. by apply gives_ret. Qed.

Lemma gives_build_specifier key m : (forall sp, m = Ok sp -> spec_ok sp = true /\ parsed_ok (spec_version sp)) ->
  gives (build_specifier key m : P _) (fun o => well_read_option o).
Proof.
  intros Hm. destruct m as [sp|e]; [|apply gives_reported]. apply gives_ret. destruct (Hm sp eq_refl). by apply well_read_specifier.
Qed.

Lemma gives_version_list : forall fuel value versions, Forall parsed_ok versions ->
  gives (version_list fuel value versions : P _) (fun o => match o with Some l => Forall parsed_ok l | None => True end).
Proof.
  induction fuel as [|fuel IH]; intros value versions Hv; [by intros c w|]. cbn [version_list].
  destruct (take_while _ _) as [[start len] value']. destruct (len =? 0); [by apply gives_ret|]. apply gives_then. intros word.
  eapply gives_bind; [apply (gives_parsed _ parsed_ok)|].
  - intros v E. pose proof (from_str_inv (utf8 word)) as Hp. by rewrite E in Hp.
  - intros [v|] Hp; [|apply gives_then; intros []; by apply gives_ret]. apply IH. apply Forall_app. split; [done|]. by apply Forall_singleton.
Qed.

Lemma gives_version_in key op value : gives (parse_version_in_expr key op value : P _) (fun o => well_read_option o).
Proof.
  unfold parse_version_in_expr. destruct (ContainerOperator_from_marker_operator op) as [o|]; [|by apply gives_ret].
  eapply gives_bind; [by apply gives_version_list|]. intros [l|] Hl; apply gives_ret; [|done]. cbn. intros Hb%forallb_Forall_numbers. cbn in Hb.
  assert (Forall python_list_ok l) as Hp.
  { clear -Hl Hb. induction Hl as [|v l Hv _ IH]; cbn in *; [done|]. apply Forall_app in Hb as [H1 H2]. constructor; [|auto].
    split; [by apply parsed_release|done]. }
  split; [|done]. destruct key; [| |done]; cbn; eapply Forall_impl; try exact Hl; by intros v [].
Qed.

Lemma gives_version_expr key op value : gives (parse_version_expr key op value : P _) (fun o => well_read_option o).
Proof.
  unfold parse_version_expr. eapply gives_bind; [apply (gives_parsed _ (fun p => parsed_ok (version p)))|].
  - intros p E. pose proof (pattern_from_str_inv (utf8 value)) as Hp. by rewrite E in Hp.
  - intros [p|] Hp; [|apply gives_reported]. destruct (to_pep440_operator op) as [o|]; [|apply gives_reported].
    apply gives_build_specifier. intros sp (Hs&Ev&_)%from_pattern_ok. by rewrite Ev.
Qed.

Lemma gives_inverted_version_expr key op value : gives (parse_inverted_version_expr value op key : P _) (fun o => well_read_option o).
Proof.
  unfold parse_inverted_version_expr. eapply gives_bind; [apply (gives_parsed _ parsed_ok)|].
  - intros p E. pose proof (from_str_inv (utf8 value)) as Hp. by rewrite E in Hp.
  - intros [p|] Hp; [|apply gives_reported]. destruct (to_pep440_operator _) as [o|]; [|apply gives_reported].
    apply gives_build_specifier. intros sp. rewrite from_version_ok. destruct (spec_ok _) eqn:Es; [by intros [= <-]|]. by case_match.
Qed.

Lemma gives_typed start len l op r : gives (typed_expression start len l op r : P _) (fun o => well_read_option o).
Proof.
  assert (forall op value, gives (parse_extra_expr op value : P _) (fun o => well_read_option o)) as Hextra.
  { intros op' value. unfold parse_extra_expr. apply gives_then. intros name. destruct (ExtraOperator_from_marker_operator op'); [by apply gives_ret|apply gives_reported]. }
  destruct l as [key|key|key| |l]; cbn [typed_expression].
  - destruct r; try apply gives_reported. eapply gives_bind; [apply gives_version_in|]. intros [e|] He; [by apply gives_ret|apply gives_version_expr].
  - destruct r; try apply gives_reported. case_bool_decide; [apply gives_reported|]. apply gives_ret. intros Hb. split; [done|]. by destruct op.
  - apply gives_fail.
  - destruct r; try apply gives_reported. apply Hextra.
  - destruct r as [key|key|key| |r].
    + apply gives_inverted_version_expr.
    + apply gives_ret. intros Hb. split; [done|]. by destruct (MarkerOperator_invert op).
    + destruct (ContainerOperator_from_marker_operator op); [|apply gives_fail]. apply gives_then. intros lp. by apply gives_ret.
    + apply Hextra.
    + apply gives_reported.
Qed.

Lemma gives_key_op_value : gives (parse_marker_key_op_value : P _) (fun o => well_read_option o).
Proof. unfold parse_marker_key_op_value. do 8 (apply gives_then; intros ?). apply gives_typed. Qed.
End gives.

Section formulas.
Context {U : Type} `{Alphabetic}.
Abbreviation P := (parser (World unit) U).
Abbreviation read_option o := (match o with Some f => Forall well_read (leaves f) | None => True end).




End formulas.

(** ** Theorems *)

Lemma parse_markers_consumes {I T U} `{MarkerBuilder I T} `{Alphabetic} t w a c w' :
  parse_markers t w = @Done _ (Pep508Error U) T a c w' -> chars c = [].
Proof.
  unfold parse_markers, parse_markers_cursor, pbind, look, p_eat_whitespace, advance_with.
  destruct (parse_marker_or _ _ _) as [marker c1 w1| |]; [|done|done].
  destruct (next (eat_whitespace c1)) as [[[pos x]|] c2] eqn:En; [done|]. intros [= _ <- _]. by apply next_none in En as [-> ->].
Qed.

Lemma ascii_dec t : forallb (fun c => c <? 128) t = true -> ascii t.
Proof. rewrite forallb_forall, Forall_forall. intros H c Hc. apply N.ltb_lt, H. by apply list_elem_of_In. Qed.

Section value.
Context {RV RS : Type} {SV : RangeSet Version RV} {SS : RangeSet text RS}.
Context (okV : RV -> Prop) (okS : RS -> Prop) (ordered : bool).
Context {LV : RangeSetLaws Version RV version_wf okV} {LS : RangeSetLaws text RS (fun _ => True) okS}.
Context {U : Type} {A : Alphabetic}.
Abbreviation Interner := (@Interner RV RS).
Abbreviation wf := (interner_wf okV okS ordered).

(** *** The interner keeps the laws of the builder *)

Definition interner_worlds : Worlds Interner := {| world_ok := wf; world_le := extends |}.
#[local] Existing Instance interner_worlds.

Lemma good_builds m s : spec m s (fun z s' => extends s s' /\ wf s' /\ valid_id (nodes s') z) -> builds_tree (fun s' z => valid_id (nodes s') z) m s.
Proof. intros Hm. destruct (spec_elim _ _ _ Hm) as (z&s'&E&Hx&Hs'&Hz). by exists z, s'. Qed.

#[refine] Definition interner_laws : MarkerBuilderLaws Interner NodeId := {|
  tree_of s z := valid_id (nodes s) z;
  can_build := expression_ok
|}.
Proof.
  - intros s s' z. apply extends_valid.
  - intros e s Hs He. apply good_builds. by apply (expression_total okV okS ordered).
  - intros x y s Hs Hx Hy. apply good_builds. eapply yields_good. exact (and_yields okV okS ordered s x y Hs Hx Hy).
  - intros x y s Hs Hx Hy. apply good_builds. eapply yields_good. exact (or_yields okV okS ordered s x y Hs Hx Hy).
  - intros s Hs. by apply terminal_valid.
Defined.
#[local] Existing Instance interner_laws.

Lemma read_from_well_read t n : well_read_option (read_from t n).
Proof.
  unfold read_from. pose proof (gives_key_op_value (U := unit) (mkCursor t (drop n t) (byte_len (take n t))) (mkWorld _ [] tt)) as Hg.
  destruct (parse_marker_key_op_value _ _) as [o c w|e w|]; done.
Qed.

Lemma buildable_can_build t : forallb buildable (expressions_of t) = true -> Forall expression_ok (expressions_of t).
Proof.
  rewrite forallb_forall, Forall_forall. intros Hb e He. pose proof He as (n&_&Hn)%list_elem_of_omap. pose proof (read_from_well_read t n) as Hr. rewrite Hn in Hr.
  apply Hr, Hb. by apply list_elem_of_In.
Qed.

(** C22: on ASCII text the marker parser, building its trees in a well-formed interner,
    never panics and always terminates: it reads the whole text and returns a node, or
    reports an error whose span of the text can be displayed, and leaves the interner
    well-formed either way. The condition is on the expressions that can be read from
    the characters of the text: none is [~=] on a quoted string, on which building
    panics ([parse_markers_panics]), or has a release number less than two below the
    largest. *)
Theorem parse_markers_safe (s : Interner) (t : text) (ws : list MarkerWarningKind)
    (Hs : interner_wf okV okS ordered s) (Ha : ascii t) (Hb : forallb buildable (expressions_of t) = true) :
  match parse_markers (T := NodeId) (U := U) t (mkWorld _ ws s) with
  | Done z c w => chars c = [] /\ extends s (trees w) /\ interner_wf okV okS ordered (trees w) /\ valid_id (nodes (trees w)) z
  | Failed e w => err_input e = t /\ is_Some (underlined e) /\ interner_wf okV okS ordered (trees w)
  | Panicked => False
  end.
Proof.
  pose proof (returns_markers (U := U) (Cursor_new t) (mkWorld _ ws s) (Cursor_new_ok t) Ha (buildable_can_build t Hb) Hs) as Hr.
  destruct (parse_markers t _) as [z c w|e w|] eqn:E; pose proof E as E'; unfold parse_markers, pbind in E'; unfold runs in Hr;
    destruct (parse_markers_cursor _ _) as [o c' w'|e' w'|]; try done.
  - injection E' as <- <- <-. destruct Hr as (_&Hw&Hle&Ho). split_and!; [exact (parse_markers_consumes _ _ _ _ _ E)|done|done|]. destruct o as [z|]; [exact Ho|]. by apply terminal_valid.
  - injection E' as <- <-. by destruct Hr as [[Hi Hu] Hw].
Qed.


(** An error of the reader is the error of the parser, unless an expression before
    it could not be built. *)
Lemma parse_markers_error (s : Interner) t ws e w : parse_markers (T := formula) t (mkWorld _ ws tt) = @Failed _ (Pep508Error U) _ e w ->
  parse_markers (T := NodeId) (U := U) t (mkWorld _ ws s) = Panicked \/
  exists s', parse_markers (T := NodeId) t (mkWorld _ ws s) = Failed e (mkWorld _ (warnings w) s').
Proof.
  unfold parse_markers, pbind. pose proof (sim_markers (U := U) s (Cursor_new t) ws) as Hsim.
  set (q := parse_markers_cursor (T := NodeId) _ _) in *. clearbody q.
  destruct (parse_markers_cursor (T := formula) _ _) as [r c' w'| |]; [done| |done]. intros [= <- <-]. cbn in Hsim.
  destruct Hsim as [->|[s' ->]]; [by left|right; by exists s'].
Qed.
End value.



Lemma parse_markers_safe_witness :
  match parse_markers (T := NodeId) (U := unit) (H0 := ascii_alphabetic) (bs "os_name == 'a' and 'b' ~= x") (mkWorld _ [] start) with
  | Done z c w => chars c = []
  | Failed e w => err_input e = bs "os_name == 'a' and 'b' ~= x" /\ is_Some (underlined e)
  | Panicked => False
  end.
Proof.
  pose proof (parse_markers_safe okIV okIS true (U := unit) (A := ascii_alphabetic) start (bs "os_name == 'a' and 'b' ~= x") []
    (Interner_default_wf okIV okIS true) ltac:(apply ascii_dec; reflexivity) ltac:(vm_compute; reflexivity)) as Hs.
  destruct (parse_markers _ _) as [z c w|e w|]; [exact (proj1 Hs)|exact (conj (proj1 Hs) (proj1 (proj2 Hs)))|exact Hs].
Defined.


(** The parser can panic: an operator position that is not ASCII is sliced by
    its number of characters, and [~=] between a quoted string and a key, which the
    parser rejects the other way round, reaches an unreachable branch. *)
Theorem parse_markers_panics :
  parse_markers (T := NodeId) (U := unit) (H0 := ascii_alphabetic) (bs "os_name == 'a' " ++ [233]) (mkWorld _ [] start) = Panicked /\
  parse_markers (T := NodeId) (U := unit) (H0 := ascii_alphabetic) (bs "'a' ~= os_name") (mkWorld _ [] start) = Panicked.
Proof. split; vm_compute; reflexivity. Qed.
