(* ===== verification/MarkerRoundTrip.v ===== *)
(** * Printed markers read back

    The parser reads what [Display] prints: every expression, and every disjunctive
    normal form, without warnings. *)

From stdpp Require Import base numbers list strings gmap.
From S2P Require Import Prelude VersionTypes VersionSmall Version VersionFacts VersionParser ParserFacts RoundTrip ParserSafe Specifier SpecifierFacts SpecifierParse Names NamesTheorems Text RangeSet MarkerTypes MarkerAlgebra MarkerEval MarkerDnf Cursor MarkerParse MarkerFormula.

Section reads.
Context {I U : Type}.
Abbreviation P := (parser (World I) U).

(** Before a rest that satisfies [follow], [m] consumes [x] and returns [a],
    without warnings. *)
Definition reads {A} (follow : text -> Prop) (m : P A) (x : text) (a : A) : Prop := forall c w rest,
  cursor_ok c -> chars c = x ++ rest -> follow rest ->
  exists c', m c w = Done a c' w /\ chars c' = rest /\ goes c 0 c'.

Lemma reads_bind {A B} (F G : text -> Prop) (m : P A) (k : A -> P B) x y a b :
  reads F m x a -> reads G (k a) y b -> (forall r, G r -> F (y ++ r)) -> reads G (pbind m k) (x ++ y) b.
Proof.
  intros Hm Hk HF c w rest Hc Ec Hr. rewrite <- app_assoc in Ec. destruct (Hm c w (y ++ rest) Hc Ec (HF _ Hr)) as (c1&E1&Ec1&Hg1).
  destruct (Hk c1 w rest (proj1 Hg1) Ec1 Hr) as (c2&E2&Ec2&Hg2). exists c2. unfold pbind. rewrite E1. split_and!; [done|done|].
  by apply (goes_trans c 0 c1 0).
Qed.

(** Steps that consume nothing and may look anywhere. *)
Lemma reads_look {A B} (F : text -> Prop) (f : Cursor -> A) (k : A -> P B) x b :
  (forall a, reads F (k a) x b) -> reads F (let* a := look f in k a) x b.
Proof. intros Hk c w rest Hc Ec Hr. by apply Hk. Qed.

Lemma reads_ret {A} F (a : A) : reads F (pret a) [] a.
Proof. intros c w rest Hc Ec _. exists c. split_and!; [done|done|by apply goes_refl]. Qed.

Lemma reads_weak {A} (F G : text -> Prop) (m : P A) x a : reads F m x a -> (forall r, G r -> F r) -> reads G m x a.
Proof. intros Hm HF c w rest Hc Ec Hr. apply Hm; auto. Qed.

Definition starts_without (p : N -> bool) (rest : text) : Prop := match rest with c :: _ => p c = false | [] => True end.

Lemma reads_whitespace x : Forall (fun c => is_whitespace c = true) x -> reads (starts_without is_whitespace) p_eat_whitespace x tt.
Proof.
  intros Hx c w rest Hc Ec Hr. exists (eat_whitespace c). split_and!; [done| |by apply eat_whitespace_goes].
  by rewrite eat_whitespace_chars, Ec, span_run.
Qed.

(** Taking a run of characters and slicing it. *)
Lemma reads_taken {B} (F : text -> Prop) p (k : N * N -> text -> P B) x y b : Forall (fun c => p c = true) x ->
  (forall t, reads F (k t x) y b) -> (forall r, F r -> starts_without p (y ++ r)) ->
  reads F (let* taken := advance_with (fun cursor => take_while cursor p) in let* s := p_slice (fst taken) (snd taken) in k taken s) (x ++ y) b.
Proof.
  intros Hx Hk HF c w rest Hc Ec Hr. unfold pbind, advance_with. pose proof (take_while_spec c p Hc) as Ht.
  destruct (take_while c p) as [[s l] c1]. destruct Ht as (_&_&Ec1&Hg1&_&Hs). rewrite <- app_assoc in Ec.
  rewrite Ec, (span_run p x (y ++ rest) Hx (HF _ Hr)) in Ec1, Hs, Hg1. cbn [fst snd] in *. unfold p_slice. rewrite Hs. cbn.
  destruct (Hk (s, l) c1 w rest (proj1 Hg1) Ec1 Hr) as (c2&E2&Ec2&Hg2). exists c2. split_and!; [done|done|].
  eapply goes_weak; [exact (goes_trans _ _ _ _ _ Hg1 Hg2)|lia].
Qed.

Lemma reads_next {B} F (k : option (N * N) -> P B) d y b : (forall i, reads F (k (Some (i, d))) y b) ->
  reads F (let* o := advance_with next in k o) (d :: y) b.
Proof.
  intros Hk c w rest Hc Ec Hr. destruct (next c) as [o c1] eqn:En. assert (o = Some (pos c, d)) as ->.
  { unfold next in En. rewrite Ec in En. by injection En. }
  destruct (next_some c _ _ _ Hc En) as (Hg1&_&Ec'). rewrite Ec in Ec'. injection Ec' as Ec1.
  destruct (Hk (pos c) c1 w rest (proj1 Hg1) (eq_sym Ec1) Hr) as (c2&E2&Ec2&Hg2). exists c2. unfold pbind, advance_with. rewrite En.
  split_and!; [done|done|]. eapply goes_weak; [exact (goes_trans _ _ _ _ _ Hg1 Hg2)|lia].
Qed.

Lemma reads_expect F d i : reads F (next_expect_char d i) [d] tt.
Proof. apply (reads_next F). intros j. rewrite N.eqb_refl. apply reads_ret. Qed.

(** Looking at the next character. *)
Lemma reads_peek {B} F (k : option (N * N) -> P B) d x b : (forall i, reads F (k (Some (i, d))) (d :: x) b) ->
  reads F (let* o := look peek in k o) (d :: x) b.
Proof. intros Hk c w rest Hc Ec Hr. unfold pbind, look, peek. rewrite Ec. cbn. by apply Hk. Qed.

Lemma reads_peek_char {B} F (k : option N -> P B) d x b : reads F (k (Some d)) (d :: x) b ->
  reads F (let* o := look peek_char in k o) (d :: x) b.
Proof. intros Hk c w rest Hc Ec Hr. unfold pbind, look, peek_char. rewrite Ec. cbn. by apply Hk. Qed.
End reads.

(** Writes the text that is read another way. *)
Ltac read_as t := match goal with |- reads ?F ?m _ ?a => change (reads F m t a) end.

(** ** Values and operators *)

Section values.
Context {I T U : Type} `{MarkerBuilder I T} {A : Alphabetic} {L : AlphabeticLaws}.
Abbreviation P := (parser (World I) U).

Lemma reads_quoted F v : Forall (fun c => c <> 39) v -> reads F (parse_marker_value : P _) (bs "'" ++ v ++ bs "'") (MV_QuotedString v).
Proof.
  intros Hv. cbn [app bs]. change (bs "'" ++ v ++ bs "'") with (39 :: v ++ [39]). unfold parse_marker_value. apply reads_peek. intros i. cbn [is_quote N.eqb orb].
  apply reads_next. intros j. apply reads_taken; [|intros t|by intros r _].
  - eapply Forall_impl; [exact Hv|]. cbn. intros c Hc. by rewrite (proj2 (N.eqb_neq c 39) Hc).
  - apply (reads_bind (fun _ => True) F _ _ [39] [] tt); [apply reads_expect|apply reads_ret|done].
Qed.

Lemma reads_key d x v : is_quote d = false -> Forall (fun c => key_char c = true) (d :: x) -> MarkerValue_from_str (d :: x) = Some v -> is_deprecated v = false ->
  reads (starts_without key_char) (parse_marker_value : P _) (d :: x) v.
Proof.
  intros Hd Hx Ev Hdep. unfold parse_marker_value. apply reads_peek. intros i. rewrite Hd.
  rewrite <- (app_nil_r (d :: x)). apply reads_taken; [done| |done]. intros t. rewrite Ev, Hdep. apply reads_ret.
Qed.

Lemma reads_symbol o d x op : o = d :: x -> is_alphabetic d = false -> Forall (fun c => operator_char c = true) o -> MarkerOperator_from_str o = Some op ->
  bool_decide (o = bs "not") = false ->
  reads (starts_without operator_char) (parse_marker_operator : P _) o op.
Proof.
  intros -> Hd Hx Eop Hn. unfold parse_marker_operator. apply reads_peek_char. rewrite Hd.
  rewrite <- (app_nil_r (d :: x)). apply reads_taken; [done| |done]. intros t. rewrite Hn, Eop. apply reads_ret.
Qed.

Lemma alphabetic_ascii c : c < 128 -> is_alphabetic c = is_ascii_alphabetic c.
Proof. apply L. Qed.

Lemma reads_in : reads (starts_without word_char) (parse_marker_operator : P _) (bs "in") MO_In.
Proof.
  unfold parse_marker_operator. apply reads_peek_char. rewrite alphabetic_ascii by done. cbn [is_ascii_alphabetic].
  read_as (bs "in" ++ []). apply reads_taken; [by repeat constructor| |done]. intros t. apply reads_ret.
Qed.

Lemma reads_not_in F : reads F (parse_marker_operator : P _) (bs "not in") MO_NotIn.
Proof.
  unfold parse_marker_operator. apply reads_peek_char. rewrite alphabetic_ascii by done.
  read_as (bs "not" ++ 32 :: bs "in"). apply reads_taken; [by repeat constructor| |done]. intros t.
  change (bool_decide (bs "not" = bs "not")) with true. cbn iota. apply reads_next. intros i. cbn [is_whitespace].
  apply (reads_bind (starts_without is_whitespace) F _ _ [] (bs "in") tt); [by apply reads_whitespace| |done].
  apply reads_look. intros p. apply (reads_bind (fun _ => True) F _ _ [105] [110] tt); [apply reads_expect| |done].
  apply reads_look. intros q. apply (reads_bind (fun _ => True) F _ _ [110] [] tt); [apply reads_expect|apply reads_ret|done].
Qed.
End values.

(** ** Expressions *)

(** What can be printed and read back: versions as parsed, keys that are not
    deprecated, values without the quote, normalized names. *)
Definition printable_expression (e : MarkerExpression) : Prop :=
  match e with
  | ME_Version _ sp => spec_parsed sp /\ operator sp <> ExactEqual
  | ME_VersionIn _ versions _ => Forall parsed_ok versions
  | ME_String key op value => is_deprecated (MV_MarkerEnvString key) = false /\ op <> MO_TildeEqual /\ Forall (fun c => c <> 39) value
  | ME_List (LP_Extras extra) _ | ME_Extra (MVE_Extra extra) _ => normalized (extra_name extra)
  | ME_List (LP_DependencyGroup group) _ => normalized (group_name group)
  | ME_List (LP_Arbitrary _ _) _ | ME_Extra (MVE_Arbitrary _) _ => False
  end.

Definition before_space (r : text) : Prop := head r = Some 32.

Lemma before_space_without p r : before_space r -> p 32 = false -> starts_without p r.
Proof. destruct r as [|c r]; [done|]. by intros [= ->]. Qed.

Definition container_operator (op : ContainerOperator) : MarkerOperator := match op with CO_In => MO_In | CO_NotIn => MO_NotIn end.

(** *** Names *)

Lemma normalized_chars n : normalized n -> Forall (fun c => c = 45 \/ 48 <= c <= 57 \/ 97 <= c <= 122) n.
Proof.
  assert (forall s b, normal_form b s = true -> Forall (fun c => c = 45 \/ 48 <= c <= 57 \/ 97 <= c <= 122) s) as Hs.
  { induction s as [|c s IH]; intros b Hs; [constructor|]. cbn in Hs. destruct (N.eqb_spec c 45) as [->|_]; apply andb_true_iff in Hs as [Hc Hs];
      (constructor; [|by eapply IH]); [by left|right]. unfold is_ascii_lowercase, is_ascii_digit in Hc. rewrite orb_true_iff, !andb_true_iff, !N.leb_le in Hc. lia. }
  intros [->|H]; [constructor|by eapply Hs].
Qed.

Lemma normalized_utf8 n : normalized n -> utf8 n = n.
Proof.
  intros H%normalized_chars. induction H as [|c n Hc _ IH]; [done|]. change (utf8 (c :: n)) with (utf8_char c ++ utf8 n). rewrite IH.
  unfold utf8_char. by rewrite (proj2 (N.ltb_lt c 128)) by lia.
Qed.

Lemma normalized_quote n : normalized n -> Forall (fun c => c <> 39) n.
Proof. intros H%normalized_chars. eapply Forall_impl; [exact H|]. cbn. lia. Qed.

Lemma normalized_validate n : normalized n -> validate_and_normalize_ref n = Ok n.
Proof. intros H. rewrite validate_normalize. by apply normalized_normalize. Qed.

Section expressions.
Context {I T U : Type} `{MarkerBuilder I T} {A : Alphabetic} {L : AlphabeticLaws}.
Abbreviation P := (parser (World I) U).

Lemma reads_pure {B} F (m : P B) b : (forall c w, m c w = Done b c w) -> reads F m [] b.
Proof. intros Hm c w rest Hc Ec _. exists c. split_and!; [done|done|by apply goes_refl]. Qed.

Lemma reads_key_op_value F x y z lv op rv e :
  x <> [] -> y <> [] -> z <> [] -> starts_without is_whitespace x -> starts_without is_whitespace y -> starts_without is_whitespace z ->
  reads before_space (parse_marker_value : P _) x lv -> reads before_space (parse_marker_operator : P _) y op ->
  reads F (parse_marker_value : P _) z rv -> (forall s n c w, (typed_expression s n lv op rv : P _) c w = Done (Some e) c w) ->
  reads F (parse_marker_key_op_value : P _) (x ++ bs " " ++ y ++ bs " " ++ z) (Some e).
Proof.
  intros Hx Hy Hz Wx Wy Wz Rx Ry Rz Ht. unfold parse_marker_key_op_value.
  assert (forall (a b : text), a <> [] -> starts_without is_whitespace a -> starts_without is_whitespace (a ++ b)) as Hws by (by intros [|]).
  apply (reads_bind (starts_without is_whitespace) F _ _ [] _ tt); [by apply reads_whitespace| |intros r _; rewrite <- app_assoc; auto].
  apply reads_look. intros start.
  apply (reads_bind before_space F _ _ x _ lv); [done| |done].
  apply (reads_bind (starts_without is_whitespace) F _ _ (bs " ") _ tt); [apply reads_whitespace; by repeat constructor| |intros r _; rewrite <- app_assoc; auto].
  apply (reads_bind before_space F _ _ y _ op); [done| |done].
  apply (reads_bind (starts_without is_whitespace) F _ _ (bs " ") _ tt); [apply reads_whitespace; by repeat constructor| |intros r _; auto].
  rewrite <- (app_nil_r z). apply (reads_bind F F _ _ z [] rv); [done| |done].
  apply reads_look. intros end_. apply reads_pure. apply Ht.
Qed.

Lemma reads_version_key key : reads (starts_without key_char) (parse_marker_value : P _) (MarkerValueVersion_show key) (MV_MarkerEnvVersion key).
Proof. destruct key; apply reads_key; done || by repeat constructor. Qed.

Lemma reads_string_key key : is_deprecated (MV_MarkerEnvString key) = false ->
  reads (starts_without key_char) (parse_marker_value : P _) (MarkerValueString_show key) (MV_MarkerEnvString key).
Proof. intros Hd. destruct key; try discriminate Hd; apply reads_key; done || by repeat constructor. Qed.

Lemma reads_list_key key : reads (starts_without key_char) (parse_marker_value : P _) (MarkerValueList_show key) (MV_MarkerEnvList key).
Proof. destruct key; apply reads_key; done || by repeat constructor. Qed.

Lemma reads_extra_key : reads (starts_without key_char) (parse_marker_value : P _) (bs "extra") MV_Extra.
Proof. apply reads_key; done || by repeat constructor. Qed.

(** The operator of a marker that prints as that of a specifier. *)
Definition marker_operator (op : Operator) : MarkerOperator :=
  match op with
  | Equal | EqualStar | ExactEqual => MO_Equal
  | NotEqual | NotEqualStar => MO_NotEqual
  | TildeEqual => MO_TildeEqual
  | LessThan => MO_LessThan
  | LessThanEqual => MO_LessEqual
  | GreaterThan => MO_GreaterThan
  | GreaterThanEqual => MO_GreaterEqual
  end.

Lemma reads_symbols o op : o ∈ [(bs "==", MO_Equal); (bs "!=", MO_NotEqual); (bs ">", MO_GreaterThan); (bs ">=", MO_GreaterEqual);
    (bs "<", MO_LessThan); (bs "<=", MO_LessEqual); (bs "~=", MO_TildeEqual)] -> o.2 = op ->
  reads before_space (parse_marker_operator : P _) o.1 op.
Proof.
  intros Ho <-. apply (reads_weak (starts_without operator_char)); [|intros r Hr; by apply before_space_without].
  repeat (apply elem_of_cons in Ho as [->|Ho]); [..|by apply not_elem_of_nil in Ho];
    eapply reads_symbol; [reflexivity|by rewrite alphabetic_ascii|by repeat constructor|reflexivity|reflexivity| ..];
    try reflexivity; try (by rewrite alphabetic_ascii); by repeat constructor.
Qed.
(** ** What the values and the operator mean *)

Lemma from_pattern_back sp : spec_ok sp = true -> operator sp <> ExactEqual -> exists op,
  to_pep440_operator (marker_operator (operator sp)) = Some op /\
  from_pattern op {| version := spec_version sp; wildcard := is_star (operator sp) |} = Ok sp.
Proof.
  intros Hs Hx. destruct sp as [op v]. cbn [operator spec_version] in *. destruct op; try done; eexists; (split; [reflexivity|]);
    unfold from_pattern; cbn; by rewrite from_version_ok, Hs.
Qed.

Lemma typed_version key sp s n c w : spec_parsed sp -> operator sp <> ExactEqual ->
  (typed_expression s n (MV_MarkerEnvVersion key) (marker_operator (operator sp)) (MV_QuotedString (show_pattern sp)) : P _) c w
  = Done (Some (ME_Version key sp)) c w.
Proof.
  intros Hs Hx. cbn [typed_expression]. unfold pbind at 1, parse_version_in_expr.
  assert (ContainerOperator_from_marker_operator (marker_operator (operator sp)) = None) as -> by (by destruct (operator sp)).
  cbn. unfold parse_version_expr, pbind. destruct (show_pattern_chars sp Hs) as [Hc _]. rewrite utf8_version_chars, pattern_from_str_show by done.
  destruct (from_pattern_back sp (proj1 (proj1 Hs)) Hx) as (op&Eop&Ep). cbn. rewrite Eop. unfold build_specifier. by rewrite Ep.
Qed.

Lemma show_word v : parsed_ok v -> exists d x, show v = d :: x /\ Forall (fun c => negb (is_whitespace c) = true) (show v) /\ utf8 (show v) = show v.
Proof.
  intros (_&Hp&_). rewrite show_full_value. destruct (show_full_head _ Hp) as (d&x&E&_). exists d, x. split; [done|].
  pose proof (show_full_version_char _ Hp) as Hc. split; [|by apply utf8_version_chars]. apply Forall_forall. intros c Hin.
  rewrite forallb_forall in Hc. apply list_elem_of_In, Hc, version_char_spec in Hin as (->&_). done.
Qed.

Lemma version_list_show c w : forall vs fuel value ws acc, Forall parsed_ok vs -> cursor_ok value -> Forall (fun c => is_whitespace c = true) ws ->
  chars value = ws ++ join (bs " ") (map show vs) -> (length (chars value) < fuel)%nat ->
  (version_list fuel value acc : P _) c w = Done (Some (acc ++ vs)) c w.
Proof.
  induction vs as [|v vs IH]; intros fuel value ws acc Hvs Hv Hws Ec Hf; (destruct fuel as [|fuel]; [lia|]); cbn [version_list].
  - cbn in Ec. pose proof (eat_whitespace_chars value) as Ew. rewrite Ec, (span_run is_whitespace ws []) in Ew by done.
    unfold take_while. rewrite skip_while_span, Ew. cbn. by rewrite app_nil_r.
  - apply Forall_cons in Hvs as [Hp Hvs]. destruct (show_word v Hp) as (d&x&Es&Hw&Hu).
    assert (exists rest, join (bs " ") (map show (v :: vs)) = show v ++ rest /\
      (exists ws', Forall (fun c => is_whitespace c = true) ws' /\ rest = ws' ++ join (bs " ") (map show vs)) /\ starts_without (fun c => negb (is_whitespace c)) rest) as (rest&Ej&(ws'&Hws'&Er)&Hr).
    { destruct vs as [|v' vs]; [exists []; cbn; rewrite app_nil_r; split_and!; [done|by exists []|done]|].
      exists (bs " " ++ join (bs " ") (map show (v' :: vs))). split_and!; [done| |done]. exists (bs " "). split; [by repeat constructor|done]. }
    rewrite Ej in Ec. pose proof (eat_whitespace_goes value Hv) as Hg. pose proof (eat_whitespace_chars value) as Ew.
    rewrite Ec, (span_run is_whitespace ws) in Ew; [|done|rewrite Es in *; apply Forall_cons in Hw as [Hw _]; cbn; by apply negb_true_iff in Hw].
    cbn [snd] in Ew. pose proof (take_while_spec (eat_whitespace value) (fun c => negb (is_whitespace c)) (proj1 Hg)) as Ht.
    destruct (take_while (eat_whitespace value) _) as [[start len] value2]. rewrite Ew, (span_run _ _ _ Hw Hr) in Ht. cbn [fst snd] in Ht.
    destruct Ht as (->&->&Ec2&Hg2&_&Hs). rewrite (proj2 (N.eqb_neq _ _)).
    2: { rewrite Es. cbn. pose proof (len_utf8_pos d). lia. }
    rewrite Hs. unfold pbind, unwrap, parsed. rewrite Hu, (from_str_show_parsed v Hp).
    rewrite (IH fuel value2 ws' (acc ++ [v])); [by rewrite <- app_assoc|done|apply Hg2|done|by rewrite Ec2|].
    destruct Hg as (_&_&Hl), Hg2 as (_&_&Hl2). rewrite Es in Hl2. cbn in Hl2. lia.
Qed.

Lemma typed_version_in key vs op s n c w : Forall parsed_ok vs ->
  (typed_expression s n (MV_MarkerEnvVersion key) (container_operator op) (MV_QuotedString (join (bs " ") (map show vs))) : P _) c w
  = Done (Some (ME_VersionIn key vs op)) c w.
Proof.
  intros Hvs. cbn [typed_expression]. unfold parse_version_in_expr, pbind.
  assert (ContainerOperator_from_marker_operator (container_operator op) = Some op) as -> by (by destruct op).
  rewrite (version_list_show c w vs _ (Cursor_new _) [] []); [done|done|apply Cursor_new_ok|done|done|]. cbn. lia.
Qed.

Lemma typed_extra name op s n c w : normalized (extra_name name) ->
  (typed_expression s n MV_Extra (match op with EO_Equal => MO_Equal | EO_NotEqual => MO_NotEqual end) (MV_QuotedString (extra_name name)) : P _) c w
  = Done (Some (ME_Extra (MVE_Extra name) op)) c w.
Proof.
  intros Hn. cbn [typed_expression]. unfold parse_extra_expr, ExtraName_from_str. rewrite normalized_utf8, normalized_validate by done. destruct name. by destruct op.
Qed.

Lemma typed_list lp op s n c w : printable_expression (ME_List lp op) ->
  (typed_expression s n (MV_QuotedString (list_pair_value lp)) (container_operator op) (MV_MarkerEnvList (list_pair_key lp)) : P _) c w
  = Done (Some (ME_List lp op)) c w.
Proof.
  destruct lp as [name|name|]; [| |done]; intros Hn; cbn [printable_expression] in Hn; cbn [typed_expression list_pair_value list_pair_key];
    unfold parse_list_pair, ExtraName_from_str, GroupName_from_str; rewrite normalized_utf8, normalized_validate by done; destruct name; by destruct op.
Qed.

(** ** Printed expressions *)

Lemma reads_container op : reads before_space (parse_marker_operator : P _) (ContainerOperator_show op) (container_operator op).
Proof. destruct op; [|apply reads_not_in]. apply (reads_weak (starts_without word_char)); [apply reads_in|]. intros r Hr. by apply before_space_without. Qed.

Lemma reads_before_space {B} p (m : P B) x b : p 32 = false -> reads (starts_without p) m x b -> reads before_space m x b.
Proof. intros Hp Hm. apply (reads_weak (starts_without p)); [done|]. intros r Hr. by apply before_space_without. Qed.

(** A key, an operator and a quoted value, or the other way round. *)
Lemma reads_key_first F key op v kv e : key <> [] -> starts_without is_whitespace key -> op.1 <> [] -> starts_without is_whitespace op.1 ->
  reads (starts_without key_char) (parse_marker_value : P _) key kv -> reads before_space (parse_marker_operator : P _) op.1 op.2 ->
  Forall (fun c => c <> 39) v -> (forall s n c w, (typed_expression s n kv op.2 (MV_QuotedString v) : P _) c w = Done (Some e) c w) ->
  reads F (parse_marker_key_op_value : P _) (key ++ bs " " ++ op.1 ++ bs " '" ++ v ++ bs "'") (Some e).
Proof.
  intros Hk Wk Ho Wo Rk Ro Hv Ht. read_as (key ++ bs " " ++ op.1 ++ bs " " ++ (bs "'" ++ v ++ bs "'")).
  apply (reads_key_op_value F key op.1 _ kv op.2 (MV_QuotedString v)); try done.
  - by apply (reads_before_space key_char).
  - by apply reads_quoted.
Qed.

Lemma reads_key_last key op v kv e : key <> [] -> starts_without is_whitespace key -> op.1 <> [] -> starts_without is_whitespace op.1 ->
  reads (starts_without key_char) (parse_marker_value : P _) key kv -> reads before_space (parse_marker_operator : P _) op.1 op.2 ->
  Forall (fun c => c <> 39) v -> (forall s n c w, (typed_expression s n (MV_QuotedString v) op.2 kv : P _) c w = Done (Some e) c w) ->
  reads (starts_without key_char) (parse_marker_key_op_value : P _) (bs "'" ++ v ++ bs "' " ++ op.1 ++ bs " " ++ key) (Some e).
Proof.
  intros Hk Wk Ho Wo Rk Ro Hv Ht.
  assert (bs "'" ++ v ++ bs "' " ++ op.1 ++ bs " " ++ key = (bs "'" ++ v ++ bs "'") ++ bs " " ++ op.1 ++ bs " " ++ key) as -> by (by rewrite <- !app_assoc).
  apply (reads_key_op_value _ _ op.1 key (MV_QuotedString v) op.2 kv); try done. by apply reads_quoted.
Qed.

Lemma reads_expression e : printable_expression e ->
  reads (starts_without key_char) (parse_marker_key_op_value : P _) (MarkerExpression_show e) (Some e).
Proof.
  destruct e as [key sp|key vs op|key op v|lp op|[name|] op]; cbn [printable_expression MarkerExpression_show].
  - intros [Hs Hx].
    assert (show (spec_version sp) ++ match operator sp with EqualStar | NotEqualStar => bs ".*'" | _ => bs "'" end = show_pattern sp ++ bs "'") as ->.
    { unfold show_pattern. by destruct (operator sp); rewrite <- ?app_assoc. }
    apply (reads_key_first _ _ (Operator_as_str (operator sp), marker_operator (operator sp)) _ (MV_MarkerEnvVersion key));
      [by destruct key|by destruct key|by destruct (operator sp)|by destruct (operator sp)|apply reads_version_key| | |intros; by apply typed_version].
    + destruct sp as [op v]. cbn in *. destruct op; try done; eapply (reads_symbols (_, _)); try reflexivity; cbn; set_solver.
    + destruct (show_pattern_chars sp Hs) as [Hc _]. apply Forall_forall. intros c Hin ->. rewrite forallb_forall in Hc. apply list_elem_of_In, Hc in Hin. done.
  - intros Hvs. apply (reads_key_first _ _ (ContainerOperator_show op, container_operator op) _ (MV_MarkerEnvVersion key));
      [by destruct key|by destruct key|by destruct op|by destruct op|apply reads_version_key|apply reads_container| |intros; by apply typed_version_in].
    clear -Hvs. induction Hvs as [|v vs (_&Hp&_) _ IH]; [constructor|]. assert (Forall (fun c => c <> 39) (show v)) as Hv.
    { rewrite show_full_value. pose proof (show_full_version_char _ Hp) as Hc. apply Forall_forall. intros c Hin ->. rewrite forallb_forall in Hc. by apply list_elem_of_In, Hc in Hin. }
    destruct vs as [|v' vs]; [done|]. change (join (bs " ") (map show (v :: v' :: vs))) with (show v ++ bs " " ++ join (bs " ") (map show (v' :: vs))).
    apply Forall_app. split; [done|]. by constructor.
  - intros (Hd&Ho&Hv). assert (MarkerValueString_show key <> [] /\ starts_without is_whitespace (MarkerValueString_show key)) as [Hk Wk] by (by destruct key).
    assert (forall o, o ∈ [(bs "==", MO_Equal); (bs "!=", MO_NotEqual); (bs ">", MO_GreaterThan); (bs ">=", MO_GreaterEqual); (bs "<", MO_LessThan); (bs "<=", MO_LessEqual)] ->
      reads (starts_without key_char) (parse_marker_key_op_value : P _) (MarkerValueString_show key ++ bs " " ++ o.1 ++ bs " '" ++ v ++ bs "'") (Some (ME_String key o.2 v))) as Hsym.
    { intros o Hin. apply (reads_key_first _ _ o _ (MV_MarkerEnvString key)); [done|done| | |by apply reads_string_key| |done|].
      - clear -Hin. by repeat (apply elem_of_cons in Hin as [->|Hin]); [..|apply not_elem_of_nil in Hin].
      - clear -Hin. by repeat (apply elem_of_cons in Hin as [->|Hin]); [..|apply not_elem_of_nil in Hin].
      - apply reads_symbols; [|done]. set_solver.
      - intros s n c w. cbn. rewrite bool_decide_eq_false_2; [done|]. clear -Hin. by repeat (apply elem_of_cons in Hin as [->|Hin]); [..|apply not_elem_of_nil in Hin]. }
    destruct op; try done.
    + apply (Hsym (bs "==", MO_Equal)). set_solver.
    + apply (Hsym (bs "!=", MO_NotEqual)). set_solver.
    + apply (Hsym (bs ">", MO_GreaterThan)). set_solver.
    + apply (Hsym (bs ">=", MO_GreaterEqual)). set_solver.
    + apply (Hsym (bs "<", MO_LessThan)). set_solver.
    + apply (Hsym (bs "<=", MO_LessEqual)). set_solver.
    + apply (reads_key_first _ _ (ContainerOperator_show CO_In, MO_In) _ (MV_MarkerEnvString key)); try done; [by apply reads_string_key|apply (reads_container CO_In)].
    + apply (reads_key_first _ _ (ContainerOperator_show CO_NotIn, MO_NotIn) _ (MV_MarkerEnvString key)); try done; [by apply reads_string_key|apply (reads_container CO_NotIn)].
    + apply (reads_key_last _ (ContainerOperator_show CO_In, MO_In) _ (MV_MarkerEnvString key)); try done; [by apply reads_string_key|apply (reads_container CO_In)].
    + apply (reads_key_last _ (ContainerOperator_show CO_NotIn, MO_NotIn) _ (MV_MarkerEnvString key)); try done; [by apply reads_string_key|apply (reads_container CO_NotIn)].
  - intros Hp. apply (reads_key_last _ (ContainerOperator_show op, container_operator op) _ (MV_MarkerEnvList (list_pair_key lp)));
      [by destruct (list_pair_key lp)|by destruct (list_pair_key lp)|by destruct op|by destruct op|apply reads_list_key|apply reads_container| |intros; by apply typed_list].
    destruct lp; [by apply normalized_quote..|done].
  - intros Hn. read_as (bs "extra" ++ bs " " ++ ExtraOperator_show op ++ bs " '" ++ extra_name name ++ bs "'").
    apply (reads_key_first _ _ (ExtraOperator_show op, match op with EO_Equal => MO_Equal | EO_NotEqual => MO_NotEqual end) _ MV_Extra);
      [done|done|by destruct op|by destruct op|apply reads_extra_key| |by apply normalized_quote|intros; by apply typed_extra].
    destruct op; eapply (reads_symbols (_, _)); try reflexivity; cbn; set_solver.
  - done.
Qed.
End expressions.

(** ** Conjunctions and disjunctions *)

(** The word that follows, after the whitespace. *)
Definition after_space (t : text) : text := snd (span is_whitespace t).
Definition next_word (t : text) : text := fst (span not_whitespace (after_space t)).

(** What may follow an expression. *)
Definition follows (t : text) : Prop := starts_without key_char t /\ ascii (fst (span not_whitespace t)) /\ ascii (next_word t).

Section formulas.
Context {U : Type} {A : Alphabetic} {L : AlphabeticLaws}.
Abbreviation P := (parser (World unit) U).

(** After whitespace [m] reads [x] before any [rest] in [Ok], and stops there or
    after the whitespace that comes next. *)
Definition item (Ok : text -> Prop) (m : P (option formula)) (x : text) (f : formula) : Prop := forall c w before rest,
  Forall (fun c => is_whitespace c = true) before -> cursor_ok c -> chars c = before ++ x ++ rest -> follows rest -> Ok rest ->
  exists c', m c w = Done (Some f) c' w /\ goes c 0 c' /\ (chars c' = rest \/ chars c' = after_space rest).

Lemma after_space_idem t : after_space (after_space t) = after_space t.
Proof.
  unfold after_space. assert (starts_without is_whitespace (snd (span is_whitespace t))) as H.
  { induction t as [|c t IH]; [done|]. cbn. destruct (is_whitespace c) eqn:E; cbn; [by destruct (span is_whitespace t)|done]. }
  pose proof (span_run is_whitespace [] _ (Forall_nil_2 _) H) as E. cbn [app] in E. by rewrite E.
Qed.

Lemma slice_word c : cursor_ok c -> ascii (fst (span not_whitespace (chars c))) ->
  slice c (fst (peek_while c not_whitespace)) (snd (peek_while c not_whitespace)) = Some (fst (span not_whitespace (chars c))).
Proof.
  intros (before&Ei&Ep) Ha. unfold slice, peek_while. cbn [fst snd]. rewrite <- (byte_len_ascii _ Ha), Ei, Ep.
  rewrite <- (span_eq not_whitespace (chars c)) at 2. apply byte_slice_app.
Qed.

(** The rounds of the loop: the operator, a space and an item, again and again. *)
Fixpoint rounds (op : text) (xs : list (text * formula)) (t rest : text) : Prop :=
  match xs with
  | [] => t = rest
  | (x, _) :: xs => exists t', follows t' /\ after_space t = op ++ bs " " ++ x ++ t' /\ rounds op xs t' rest
  end.

Definition joins (op : text) : (formula -> formula -> act unit formula) * (formula -> formula -> formula) -> Prop := fun p =>
  (forall f g i, p.1 f g i = Some (p.2 f g, i)) /\ op <> [] /\ Forall (fun c => not_whitespace c = true) op /\ ascii op.

Lemma op_loop_items Ok op p m : joins op p -> (forall t, next_word t = op -> Ok t) ->
  forall xs f fuel c w rest, Forall (fun x => item Ok m x.1 x.2) xs -> cursor_ok c -> (length (chars c) < fuel)%nat ->
  (exists t, (chars c = t \/ chars c = after_space t) /\ rounds op xs t rest) -> follows rest -> Ok rest -> next_word rest <> op ->
  exists c', op_loop fuel op p.1 m (Some f) c w = Done (Some (fold_left p.2 (map snd xs) f)) c' w /\ goes c 0 c' /\ chars c' = after_space rest.
Proof.
  intros (Hp&Hop&Hw&Ha) HS. induction xs as [|[x g] xs IH]; intros f fuel c w rest Hxs Hc Hf (t&Et&Hr) Fr Sr Wr;
    (destruct fuel as [|fuel]; [lia|]); cbn [op_loop]; unfold pbind, p_eat_whitespace, look, p_slice, unwrap;
    pose proof (eat_whitespace_goes c Hc) as Hg; pose proof (eat_whitespace_chars c) as Ec;
    assert (chars (eat_whitespace c) = after_space t) as Ec1 by (rewrite Ec; destruct Et as [->| ->]; [done|apply after_space_idem]); clear Ec Et.
  - cbn in Hr. subst t. rewrite slice_word; [|apply Hg|rewrite Ec1; apply Fr]. rewrite Ec1. fold (next_word rest). rewrite bool_decide_eq_false_2 by done.
    by exists (eat_whitespace c).
  - destruct Hr as (t'&Ft'&Et&Hr). rewrite Et in Ec1. apply Forall_cons in Hxs as [Hx Hxs]. cbn [fst snd] in Hx.
    assert (span not_whitespace (op ++ bs " " ++ x ++ t') = (op, bs " " ++ x ++ t')) as Es by (by apply span_run).
    rewrite slice_word; [|apply Hg|by rewrite Ec1, Es]. rewrite Ec1, Es. cbn [fst]. rewrite bool_decide_eq_true_2 by done.
    unfold advance_with. pose proof (take_while_spec (eat_whitespace c) not_whitespace (proj1 Hg)) as Ht.
    destruct (take_while (eat_whitespace c) not_whitespace) as [tk c2]. destruct tk as [s l]. rewrite Ec1, Es in Ht. cbn [fst snd] in Ht. destruct Ht as (_&_&Ec2&Hg2&_).
    destruct (Hx c2 w (bs " ") t') as (c3&E3&Hg3&Ec3); [by repeat constructor|apply Hg2|done|done| |].
    { destruct xs as [|[y h] xs]; cbn in Hr; [by subst t'|]. apply HS. destruct Hr as (t2&_&E2&_). unfold next_word. rewrite E2, (span_run not_whitespace op) by done. done. }
    rewrite E3. unfold apply_to, pbind, build, pret. rewrite Hp. cbn [fst snd map fold_left].
    replace ({| warnings := warnings w; trees := trees w |}) with w by (by destruct w).
    assert (0 < length op)%nat by (destruct op; [done|cbn; lia]). pose proof (goes_trans _ _ _ _ _ (goes_trans _ _ _ _ _ Hg Hg2) Hg3) as Hg'.
    pose proof (proj2 (proj2 Hg')).
    destruct (IH (p.2 f g) fuel c3 w rest) as (c4&E4&Hg4&Ec4); [done|apply Hg3|lia|by exists t'|done|done|done|].
    exists c4. split_and!; [done| |done]. eapply goes_weak; [exact (goes_trans _ _ _ _ _ Hg' Hg4)|lia].
Qed.

Lemma items_op Ok op p m x f xs text_ : joins op p -> (forall t, next_word t = op -> Ok t) -> item Ok m x f -> Forall (fun x => item Ok m x.1 x.2) xs ->
  (forall rest, follows rest -> exists t, text_ ++ rest = x ++ t /\ follows t /\ rounds op xs t rest) ->
  item (fun t => Ok t /\ next_word t <> op) (parse_marker_op op p.1 m) text_ (fold_left p.2 (map snd xs) f).
Proof.
  intros Hj HS Hx Hxs Ht c w before rest Hb Hc Ec Fr [Sr Wr]. destruct (Ht rest Fr) as (t&Et&Ft&Hr). rewrite Et in Ec.
  destruct (Hx c w before t Hb Hc Ec Ft) as (c1&E1&Hg1&Ec1).
  { destruct xs as [|[y h] xs]; cbn in Hr; [by subst t|]. apply HS. destruct Hr as (t2&_&E2&_). unfold next_word. destruct Hj as (_&_&Hw&_).
    by rewrite E2, (span_run not_whitespace op) by done. }
  unfold parse_marker_op, pbind, look. rewrite E1.
  destruct (op_loop_items Ok op p m Hj HS xs f (S (length (chars c1))) c1 w rest) as (c2&E2&Hg2&Ec2); [done|apply Hg1|lia|by exists t|done..|].
  exists c2. rewrite E2. split_and!; [done| |by right]. by apply (goes_trans c 0 c1 0).
Qed.

Lemma rounds_join op p : joins op p -> forall xs x rest, follows rest ->
  exists t, join (bs " " ++ op ++ bs " ") (x :: map fst xs) ++ rest = x ++ t /\ follows t /\ rounds op xs t rest.
Proof.
  intros (_&Hop&Hw&Ha). induction xs as [|[y g] xs IH]; intros x rest Fr; [by exists rest|].
  destruct (IH y rest Fr) as (t&Et&Ft&Hr). exists (bs " " ++ op ++ bs " " ++ y ++ t). assert (after_space (bs " " ++ op ++ bs " " ++ y ++ t) = op ++ bs " " ++ y ++ t) as Es.
  { unfold after_space. rewrite (span_run is_whitespace (bs " ") (op ++ _)); [done|by repeat constructor|]. destruct op as [|d op]; [done|].
    apply Forall_cons in Hw as [Hd _]. by apply negb_true_iff in Hd. }
  split_and!.
  - change (join (bs " " ++ op ++ bs " ") (x :: map fst ((y, g) :: xs))) with (x ++ (bs " " ++ op ++ bs " ") ++ join (bs " " ++ op ++ bs " ") (y :: map fst xs)).
    rewrite <- !app_assoc, Et. by rewrite !app_assoc.
  - split_and!; [done|done|]. unfold next_word. rewrite Es, (span_run not_whitespace op); done.
  - exists t. split_and!; done.
Qed.

Lemma items_join Ok op p m x f xs : joins op p -> (forall t, next_word t = op -> Ok t) -> item Ok m x f -> Forall (fun x => item Ok m x.1 x.2) xs ->
  item (fun t => Ok t /\ next_word t <> op) (parse_marker_op op p.1 m) (join (bs " " ++ op ++ bs " ") (x :: map fst xs)) (fold_left p.2 (map snd xs) f).
Proof. intros Hj HO Hx Hxs. apply (items_op Ok op p m x); [done..|]. intros rest Fr. by apply (rounds_join op p). Qed.

Definition and_op : (formula -> formula -> act unit formula) * (formula -> formula -> formula) := (build_and, F_And).
Definition or_op : (formula -> formula -> act unit formula) * (formula -> formula -> formula) := (build_or, F_Or).

Lemma joins_and : joins (bs "and") and_op.
Proof. split_and!; [done|done|by repeat constructor|repeat constructor; by apply N.ltb_lt]. Qed.

Lemma joins_or : joins (bs "or") or_op.
Proof. split_and!; [done|done|by repeat constructor|repeat constructor; by apply N.ltb_lt]. Qed.

(** ** Expressions and parentheses *)

Lemma show_starts e : printable_expression e -> exists d x, MarkerExpression_show e = d :: x /\ is_whitespace d = false /\ d <> 40.
Proof.
  assert (forall d x, is_whitespace d = false -> d <> 40 -> exists d' x', d :: x = d' :: x' /\ is_whitespace d' = false /\ d' <> 40) as H by eauto.
  destruct e as [key sp|key vs op|key op v|lp op|[name|] op]; cbn [printable_expression MarkerExpression_show]; intros Hp; try done;
    [destruct key|destruct key|destruct op; destruct key| |]; by apply H.
Qed.

Lemma pbind_done {W X Y} (m : parser W U X) (k : X -> parser W U Y) a c w c' w' : m c w = Done a c' w' -> pbind m k c w = k a c' w'.
Proof. unfold pbind. by intros ->. Qed.

Lemma pbind_failed {W X Y} (m : parser W U X) (k : X -> parser W U Y) e c w w' : m c w = Failed e w' -> pbind m k c w = Failed e w'.
Proof. unfold pbind. by intros ->. Qed.

Lemma eat_char_other c d x t : chars c = d :: x -> d <> t -> eat_char c t = (None, c).
Proof. intros E Hd. unfold eat_char, peek. rewrite E. cbn. by rewrite (proj2 (N.eqb_neq _ _) Hd). Qed.

Lemma item_expression fuel e : printable_expression e -> item (fun _ => True) (parse_marker_expr (S fuel)) (MarkerExpression_show e) (F_Expr e).
Proof.
  intros Hp c w before rest Hb Hc Ec (Fk&_) _. destruct (show_starts e Hp) as (d&x&Es&Hd&Hne). cbn [parse_marker_expr].
  unfold pbind at 1. unfold p_eat_whitespace. pose proof (eat_whitespace_goes c Hc) as Hg. pose proof (eat_whitespace_chars c) as Ec1.
  rewrite Ec, (span_run is_whitespace before) in Ec1 by (rewrite ?Es; done). cbn [snd] in Ec1.
  unfold pbind at 1. unfold advance_with. rewrite Es in Ec1. rewrite (eat_char_other _ d (x ++ rest)) by done.
  destruct (reads_expression (U := U) e Hp (eat_whitespace c) w rest (proj1 Hg)) as (c2&E2&Ec2&Hg2); [by rewrite Es|done|].
  unfold pbind. rewrite E2. unfold build, pret. cbn. exists c2. split_and!; [by destruct w|by apply (goes_trans c 0 (eat_whitespace c) 0)|by left].
Qed.

Lemma follows_close rest : follows rest -> follows (41 :: rest) /\ (forall op, op <> [] -> head op <> Some 41 -> next_word (41 :: rest) <> op).
Proof.
  intros (_&Ha&_). unfold follows, next_word, after_space. cbn [span]. change (is_whitespace 41) with false. cbn [fst snd]. change (not_whitespace 41) with true. cbn [span].
  change (not_whitespace 41) with true. destruct (span not_whitespace rest) as [a b]. cbn [fst] in *. split.
  - assert (ascii (41 :: a)) by (by constructor). by split_and!.
  - intros op Hop Hh <-. by apply Hh.
Qed.

Lemma item_parens fuel x f :
  item (fun t => (True /\ next_word t <> bs "and") /\ next_word t <> bs "or") (parse_marker_op (bs "or") build_or (parse_marker_op (bs "and") build_and (parse_marker_expr fuel))) x f ->
  item (fun _ => True) (parse_marker_expr (S fuel)) (bs "(" ++ x ++ bs ")") f.
Proof.
  intros Hx c w before rest Hb Hc Ec Fr _. cbn [parse_marker_expr]. unfold pbind at 1. unfold p_eat_whitespace.
  pose proof (eat_whitespace_goes c Hc) as Hg. pose proof (eat_whitespace_chars c) as Ec1.
  assert (chars c = before ++ 40 :: x ++ 41 :: rest) as Ec' by (by rewrite Ec; cbn; rewrite <- !app_assoc).
  rewrite Ec', (span_run is_whitespace before) in Ec1 by done. cbn [snd] in Ec1.
  unfold pbind at 1. unfold advance_with. destruct (eat_char (eat_whitespace c) 40) as [o c2] eqn:E2.
  destruct (eat_char_cases _ _ _ _ (proj1 Hg) E2) as [(_&_&Hn)|(->&Ec2&Hg2)]; [by rewrite Ec1 in Hn|]. rewrite Ec1 in Ec2. injection Ec2 as Ec2.
  destruct (follows_close rest Fr) as [Fc Wc].
  destruct (Hx c2 w [] (41 :: rest)) as (c3&E3&Hg3&Ec3); [done|apply Hg2|done|done|split_and!; [done|by apply Wc|by apply Wc]|].
  assert (chars c3 = 41 :: rest) as Ec3' by (by destruct Ec3). rewrite (pbind_done _ _ _ _ _ _ _ E3).
  destruct (reads_expect (I := unit) (U := U) (fun _ => True) 41 (pos (eat_whitespace c)) c3 w rest (proj1 Hg3)) as (c4&E4&Ec4&Hg4); [done|done|].
  rewrite (pbind_done _ _ _ _ _ _ _ E4). exists c4. split_and!; [done| |by left].
  eapply goes_weak; [exact (goes_trans _ _ _ _ _ Hg (goes_trans _ _ _ _ _ Hg2 (goes_trans _ _ _ _ _ Hg3 Hg4)))|lia].
Qed.

(** ** Disjunctive normal forms *)

Definition clause_formula (c : clause) : formula :=
  match c with
  | [] => F_True
  | e :: c => fold_left F_And (map F_Expr c) (F_Expr e)
  end.

Definition dnf_formula (dnf : list clause) : formula :=
  match dnf with
  | [] => F_True
  | c :: dnf => fold_left F_Or (map clause_formula dnf) (clause_formula c)
  end.

Definition printable_clause (c : clause) : Prop := c <> [] /\ Forall printable_expression c.

Lemma item_clause fuel c : printable_clause c ->
  item (fun t => True /\ next_word t <> bs "and") (parse_marker_and (S fuel)) (format_conjunction c) (clause_formula c).
Proof.
  intros [Hne Hc]. destruct c as [|e c]; [done|]. apply Forall_cons in Hc as [He Hc].
  set (xs := map (fun e => (MarkerExpression_show e, F_Expr e)) c).
  assert (format_conjunction (e :: c) = join (bs " " ++ bs "and" ++ bs " ") (MarkerExpression_show e :: map fst xs)) as ->.
  { unfold xs. rewrite map_map. done. }
  assert (clause_formula (e :: c) = fold_left and_op.2 (map snd xs) (F_Expr e)) as -> by (unfold xs; by rewrite map_map).
  apply (items_join (fun _ => True) (bs "and") and_op); [apply joins_and|done|by apply item_expression|].
  apply Forall_map. apply (Forall_impl _ _ _ Hc). intros e' He'. by apply item_expression.
Qed.

(** A clause of several terms is printed in parentheses among others. *)
Definition format_clause (c : clause) : text :=
  match c with
  | [_] => format_conjunction c
  | _ => bs "(" ++ format_conjunction c ++ bs ")"
  end.

Lemma item_or_clause fuel c : printable_clause c ->
  item (fun t => True /\ next_word t <> bs "and") (parse_marker_and (S (S fuel))) (format_clause c) (clause_formula c).
Proof.
  intros Hc. assert (format_clause c = format_conjunction c \/ format_clause c = bs "(" ++ format_conjunction c ++ bs ")") as [->| ->] by (destruct c as [|e [|e' c]]; eauto).
  - by apply item_clause.
  - apply (items_join (fun _ => True) (bs "and") and_op _ _ (clause_formula c) []); [apply joins_and|done| |done].
    apply item_parens. apply (items_join _ (bs "or") or_op _ (format_conjunction c) (clause_formula c) []); [apply joins_or| |by apply item_clause|done].
    intros t Ht. by rewrite Ht.
Qed.

Lemma item_dnf fuel dnf : dnf <> [] -> Forall printable_clause dnf ->
  item (fun t => (True /\ next_word t <> bs "and") /\ next_word t <> bs "or") (parse_marker_or (S (S fuel))) (format_dnf dnf) (dnf_formula dnf).
Proof.
  intros Hne Hd. assert (forall t, next_word t = bs "or" -> True /\ next_word t <> bs "and") as Ho by (by intros t ->).
  destruct dnf as [|c [|c' dnf]]; [done| |].
  - apply Forall_cons in Hd as [Hc _]. apply (items_join _ (bs "or") or_op _ (format_conjunction c) (clause_formula c) []); [apply joins_or|done|by apply item_clause|done].
  - apply Forall_cons in Hd as [Hc Hd]. set (xs := map (fun c => (format_clause c, clause_formula c)) (c' :: dnf)).
    assert (format_dnf (c :: c' :: dnf) = join (bs " " ++ bs "or" ++ bs " ") (format_clause c :: map fst xs)) as -> by (unfold xs; by rewrite map_map).
    assert (dnf_formula (c :: c' :: dnf) = fold_left or_op.2 (map snd xs) (clause_formula c)) as -> by (unfold xs; by rewrite map_map).
    apply (items_join _ (bs "or") or_op); [apply joins_or|done|by apply item_or_clause|].
    apply Forall_map. apply (Forall_impl _ _ _ Hd). intros c'' Hc''. by apply item_or_clause.
Qed.

Lemma format_dnf_long dnf : dnf <> [] -> Forall printable_clause dnf -> exists n, length (format_dnf dnf) = S n.
Proof.
  intros Hne Hd. destruct dnf as [|c dnf]; [done|]. apply Forall_cons in Hd as [[Hc Hp] _]. destruct c as [|e c]; [done|]. apply Forall_cons in Hp as [He _].
  destruct (show_starts e He) as (d&x&Es&_). assert (exists y, format_conjunction (e :: c) = d :: y) as [y Ey].
  { unfold format_conjunction. cbn [map join]. rewrite Es. destruct c; cbn; eauto. }
  assert (exists z, format_clause (e :: c) = d :: z \/ format_clause (e :: c) = 40 :: z) as [z Hz].
  { unfold format_clause. destruct c; rewrite Ey; cbn; eauto. }
  destruct dnf as [|c' dnf]; [cbn [format_dnf]; rewrite Ey; cbn; eauto|].
  change (format_dnf ((e :: c) :: c' :: dnf)) with (format_clause (e :: c) ++ bs " or " ++ join (bs " or ") (map format_clause (c' :: dnf))).
  destruct Hz as [->| ->]; cbn; eauto.
Qed.
End formulas.

Lemma clause_formula_holds a c : formula_holds a (clause_formula c) = forallb (expression_holds a) c.
Proof.
  destruct c as [|e c]; [done|]. cbn [clause_formula forallb]. change (expression_holds a e) with (formula_holds a (F_Expr e)).
  generalize (F_Expr e). induction c as [|e' c IH]; intros f; cbn; [by rewrite andb_true_r|]. rewrite IH. cbn. by rewrite andb_assoc.
Qed.

Lemma dnf_formula_holds a dnf : dnf <> [] -> formula_holds a (dnf_formula dnf) = existsb (forallb (expression_holds a)) dnf.
Proof.
  destruct dnf as [|c dnf]; [done|]. intros _. cbn [dnf_formula existsb]. rewrite <- clause_formula_holds.
  generalize (clause_formula c). induction dnf as [|c' dnf IH]; intros f; cbn; [by rewrite orb_false_r|].
  rewrite IH. cbn. by rewrite <- clause_formula_holds, orb_assoc.
Qed.

(** The whole of a printed form is read from any cursor, after whitespace. *)
Lemma parse_markers_cursor_dnf {U : Type} {A : Alphabetic} {L : AlphabeticLaws} dnf before (c : Cursor) (w : World unit) :
  dnf <> [] -> Forall printable_clause dnf -> Forall (fun c => is_whitespace c = true) before -> cursor_ok c -> chars c = before ++ format_dnf dnf ->
  exists c', (parse_markers_cursor : parser _ U _) c w = Done (Some (dnf_formula dnf)) c' w /\ chars c' = [] /\ goes c 0 c'.
Proof.
  intros Hne Hd Hb Hc Ec. destruct (format_dnf_long dnf Hne Hd) as [n En]. assert (length (chars c) = S (length before + n))%nat as El by (rewrite Ec, length_app; lia).
  destruct (item_dnf (U := U) (length before + n) dnf Hne Hd c w before []) as (c1&E&Hg&Ec1); [done|done|by rewrite app_nil_r|done|done|].
  assert (chars c1 = []) as Ec' by (by destruct Ec1). exists (eat_whitespace c1).
  assert (chars (eat_whitespace c1) = []) as Ee by (by rewrite eat_whitespace_chars, Ec').
  unfold parse_markers_cursor, pbind at 1, look at 1. rewrite El, (pbind_done _ _ _ _ _ _ _ E). unfold pbind, p_eat_whitespace, advance_with, next. rewrite Ee.
  split_and!; [done|done|]. apply (goes_trans c 0 c1 0 _ Hg), eat_whitespace_goes, Hg.
Qed.

(** C21: printed markers read back. The parser reads the text of a disjunctive normal form
    to its end, without warnings, as a formula that holds exactly where some clause has
    all its expressions hold. The form is not empty and no clause is; its expressions
    are [printable_clause]s: versions are as parsed and their operator is not [===],
    strings are compared with keys that are not deprecated, not with [~=], and have no
    single quote, and the names of extras and groups are normalized and not arbitrary
    texts. (A value with a single quote is printed between single quotes and not read
    back: [quote_not_read_back].) *)
Theorem format_dnf_round_trip {U : Type} {A : Alphabetic} {L : AlphabeticLaws} (dnf : list clause) (ws : list MarkerWarningKind)
    (Hne : dnf <> []) (Hd : Forall printable_clause dnf) :
  exists f c, parse_markers (format_dnf dnf) (mkWorld _ ws tt) = @Done _ (Pep508Error U) _ f c (mkWorld _ ws tt) /\ chars c = [] /\
    forall a, formula_holds a f = existsb (forallb (expression_holds a)) dnf.
Proof.
  destruct (parse_markers_cursor_dnf (U := U) dnf [] (Cursor_new (format_dnf dnf)) (mkWorld _ ws tt)) as (c&E&Ec&_); [done|done|done|apply Cursor_new_ok|done|].
  exists (dnf_formula dnf), c. split_and!; [|done|intros a; by apply dnf_formula_holds]. unfold parse_markers, pbind. by rewrite E.
Qed.

(** A value with a single quote is read between double quotes, and printed between single
    quotes, where it ends too early. *)
Definition quoted_expression : MarkerExpression := ME_String MVS_OsName MO_Equal (bs "a'b").

Lemma quote_not_read_back :
  (exists c, parse_markers (H0 := ascii_alphabetic) (bs "os_name == " ++ [34] ++ bs "a'b" ++ [34]) (mkWorld _ [] tt)
    = @Done _ (Pep508Error unit) _ (F_Expr quoted_expression) c (mkWorld _ [] tt)) /\
  exists e, parse_markers (H0 := ascii_alphabetic) (format_dnf [[quoted_expression]]) (mkWorld _ [] tt)
    = @Failed _ (Pep508Error unit) formula e (mkWorld _ [] tt).
Proof. split; eexists; vm_compute; reflexivity. Qed.

Definition sample_dnf : list clause :=
  [[ME_String MVS_SysPlatform MO_Equal (bs "linux"); ME_Extra (MVE_Extra {| extra_name := bs "dev" |}) EO_Equal]; [ME_String MVS_OsName MO_Contains (bs "nt")]].

Lemma format_dnf_round_trip_witness :
  exists f c, parse_markers (H0 := ascii_alphabetic) (format_dnf sample_dnf) (mkWorld _ [] tt) = @Done _ (Pep508Error unit) _ f c (mkWorld _ [] tt) /\ chars c = [] /\
    forall a, formula_holds a f = existsb (forallb (expression_holds a)) sample_dnf.
Proof.
  apply (@format_dnf_round_trip unit ascii_alphabetic ascii_alphabetic_laws); [done|].
  repeat first [apply Forall_nil_2 | apply Forall_cons_2 | split]; try discriminate; by right.
Defined.
