(* ===== verification/UrlText.v ===== *)
(** * URLs as texts ([uv-pep508/src/verbatim_url.rs])

    Splitting the scheme, the host and the extras off a URL, expanding environment
    variables, recognising archives, and the schemes of direct URL requirements.
    Paths are those of Unix. *)

From stdpp Require Import base numbers list strings.
From S2P Require Import Prelude VersionTypes VersionSmall Version VersionParser Specifier Names Text MarkerTypes.

(** ** Schemes *)

(** [str::trim_matches] *)
Fixpoint trim_start_matches (p : N -> bool) (s : text) : text :=
  match s with [] => [] | c :: rest => if p c then trim_start_matches p rest else s end.

Definition trim_matches (p : N -> bool) (s : text) : text :=
  rev (trim_start_matches p (rev (trim_start_matches p s))).

Definition c0_control_or_space (c : N) : bool := c <=? 32.

Definition scheme_char (c : N) : bool := is_ascii_alphanumeric c || (c =? 43) || (c =? 45) || (c =? 46).

(** The loop that looks for the colon. *)
Fixpoint scheme_loop (s : text) : option (text * text) :=
  match s with
  | [] => None
  | c :: s =>
      if scheme_char c then '(scheme, rest) ← scheme_loop s; Some (c :: scheme, rest)
      else if c =? 58 then Some ([], s)
      else None
  end.

Definition split_scheme (s : text) : option (text * text) :=
  let s := trim_matches c0_control_or_space s in
  match s with
  | [] => None
  | c :: _ => if is_ascii_alphabetic c then scheme_loop s else None
  end.

Inductive Scheme :=
| SC_File
| SC_Git (transport : text)
| SC_BzrHttp | SC_BzrHttps | SC_BzrSsh | SC_BzrSftp | SC_BzrFtp | SC_BzrLp | SC_BzrFile
| SC_HgFile | SC_HgHttp | SC_HgHttps | SC_HgSsh | SC_HgStaticHttp
| SC_SvnSsh | SC_SvnHttp | SC_SvnHttps | SC_SvnSvn | SC_SvnFile
| SC_Http | SC_Https.

Definition scheme_words : list (string * Scheme) :=
  [("file", SC_File); ("bzr+http", SC_BzrHttp); ("bzr+https", SC_BzrHttps); ("bzr+ssh", SC_BzrSsh);
   ("bzr+sftp", SC_BzrSftp); ("bzr+ftp", SC_BzrFtp); ("bzr+lp", SC_BzrLp); ("bzr+file", SC_BzrFile);
   ("hg+file", SC_HgFile); ("hg+http", SC_HgHttp); ("hg+https", SC_HgHttps); ("hg+ssh", SC_HgSsh);
   ("hg+static-http", SC_HgStaticHttp); ("svn+ssh", SC_SvnSsh); ("svn+http", SC_SvnHttp);
   ("svn+https", SC_SvnHttps); ("svn+svn", SC_SvnSvn); ("svn+file", SC_SvnFile);
   ("http", SC_Http); ("https", SC_Https)].

Definition Scheme_parse (s : text) : option Scheme :=
  match split_once 43 s with
  | Some (vcs, transport) =>
      if bool_decide (vcs = bs "git") then Some (SC_Git transport) else find_word s scheme_words
  | None => find_word s scheme_words
  end.

Definition is_file (self : Scheme) : bool := match self with SC_File => true | _ => false end.

Definition Scheme_show (self : Scheme) : text :=
  match self with
  | SC_File => bs "file"
  | SC_Git transport => bs "git+" ++ transport
  | SC_BzrHttp => bs "bzr+http" | SC_BzrHttps => bs "bzr+https" | SC_BzrSsh => bs "bzr+ssh"
  | SC_BzrSftp => bs "bzr+sftp" | SC_BzrFtp => bs "bzr+ftp" | SC_BzrLp => bs "bzr+lp" | SC_BzrFile => bs "bzr+file"
  | SC_HgFile => bs "hg+file" | SC_HgHttp => bs "hg+http" | SC_HgHttps => bs "hg+https" | SC_HgSsh => bs "hg+ssh"
  | SC_HgStaticHttp => bs "hg+static-http"
  | SC_SvnSsh => bs "svn+ssh" | SC_SvnHttp => bs "svn+http" | SC_SvnHttps => bs "svn+https"
  | SC_SvnSvn => bs "svn+svn" | SC_SvnFile => bs "svn+file"
  | SC_Http => bs "http" | SC_Https => bs "https"
  end.

Definition strip_host (path : text) : text :=
  match strip_prefix (bs "//localhost") path with
  | Some ((47 :: _) as rest) => rest
  | _ =>
      match strip_prefix (bs "//") path with
      | Some rest => rest
      | None => path
      end
  end.

(** The part before a fragment, and the fragment; for paths that are UTF-8. *)
Definition split_fragment (path : text) : text * option text :=
  match split_once 35 path with
  | Some (path, fragment) => (path, Some fragment)
  | None => (path, None)
  end.

(** ** Environment variables *)

Definition variable_char (c : N) : bool := is_ascii_uppercase c || is_ascii_digit c || (c =? 95).

(** A match of [\$\{[A-Z0-9_]+}] at the start: the name and what follows. *)
Definition match_variable (s : text) : option (text * text) :=
  rest ← strip_prefix (bs "${") s;
  match span variable_char rest with
  | ((_ :: _) as name, 125 :: rest) => Some (name, rest)
  | _ => None
  end.

Section environment.
(** [std::env::var], and the current directory. *)
Context (env_var : text -> option text) (project_root : text).

Definition variable_value (name : text) : text :=
  match env_var name with
  | Some value => value
  | None => if bool_decide (name = bs "PROJECT_ROOT") then project_root else bs "${" ++ name ++ bs "}"
  end.

(** [replace_all]: leftmost matches that do not overlap. *)
Fixpoint expand_loop (fuel : nat) (s : text) : text :=
  match fuel, s with
  | S fuel, c :: s' =>
      match match_variable s with
      | Some (name, rest) => variable_value name ++ expand_loop fuel rest
      | None => c :: expand_loop fuel s'
      end
  | _, _ => []
  end.

Definition expand_env_vars (s : text) : text := expand_loop (length s) s.
End environment.

(** ** Extras and archives ([lib.rs]) *)

(** The last closing bracket must come last, and an opening one before any other. *)
Definition split_extras (given : text) : option (text * text) :=
  match rev given with
  | 93 :: r =>
      let '(inside, before) := span (fun c => negb (c =? 93) && negb (c =? 91)) r in
      match before with
      | 91 :: before => Some (rev before, 91 :: rev inside ++ [93])
      | _ => None
      end
  | _ => None
  end.

(** [Path::file_name]: the last component unless it is [..]; empty components
    and [.] do not count. *)
Fixpoint split_slashes (s : text) : list text :=
  match s with
  | [] => [[]]
  | c :: s =>
      match split_slashes s with
      | part :: parts => if c =? 47 then [] :: part :: parts else (c :: part) :: parts
      | [] => [[c]]
      end
  end.

Definition file_name (path : text) : option text :=
  match last (List.filter (fun part => negb (bool_decide (part = [])) && negb (bool_decide (part = bs "."))) (split_slashes path)) with
  | Some name => if bool_decide (name = bs "..") then None else Some name
  | None => None
  end.

(** The part of a file name before its last dot and the part after it. *)
Definition rsplit_file_at_dot (file : text) : option text * option text :=
  if bool_decide (file = bs "..") then (Some file, None)
  else
    match rsplit_once 46 file with
    | None => (None, Some file)
    | Some ([], _) => (Some file, None)
    | Some (before, after) => (Some before, Some after)
    end.

Definition extension (path : text) : option text :=
  name ← file_name path;
  match rsplit_file_at_dot name with (Some _, after) => after | (None, _) => None end.

Definition file_stem (path : text) : option text :=
  name ← file_name path;
  match rsplit_file_at_dot name with (Some before, _) => Some before | (None, after) => after end.

Definition looks_like_archive (file : text) : bool :=
  match extension file with
  | None => false
  | Some ext =>
      let pre_extension := file_stem file ≫= extension in
      existsb (fun e => bool_decide (ext = bs e)) ["whl"; "tbz"; "txz"; "tlz"; "zip"; "tgz"; "tar"]
      || (bool_decide (pre_extension = Some (bs "tar"))
          && existsb (fun e => bool_decide (ext = bs e)) ["bz2"; "xz"; "lz"; "lzma"; "gz"])
  end.
