(* ===== verification/Requirement.v ===== *)
(** * Requirements ([uv-pep508/src/lib.rs], [origin.rs], [unnamed.rs])

    The parser of dependency specifiers: name, extras, version specifiers or URL,
    and marker; requirements that are only a URL; and how requirements are printed.
    The type of URLs is an interface, as it is in the source. *)

From stdpp Require Import base numbers list strings.
From S2P Require Import Prelude VersionTypes VersionSmall Version VersionParser Specifier Names CacheKey Text RangeSet MarkerTypes MarkerAlgebra MarkerTree MarkerDnf Cursor MarkerParse UrlText.

(** ** Data *)

Inductive RequirementOrigin (Path : Type) :=
| RO_File (path : Path)
| RO_Project (path : Path) (name : PackageName)
| RO_Group (path : Path) (name : option PackageName) (group : GroupName)
| RO_Workspace.
Arguments RO_File {Path} path.
Arguments RO_Project {Path} path name.
Arguments RO_Group {Path} path name group.
Arguments RO_Workspace {Path}.

(** [workspace] is the path written [(workspace)]. *)
Definition origin_path {Path} (workspace : Path) (self : RequirementOrigin Path) : Path :=
  match self with
  | RO_File path | RO_Project path _ | RO_Group path _ _ => path
  | RO_Workspace => workspace
  end.

(** The trait [Pep508Url]: [Url] is the type that implements it, [U] its error, and
    [Path] the type of the working directory. *)
Class Pep508Url (Url U Path : Type) := {
  url_parse : text -> option Path -> result Url U;
  url_show : Url -> text;
  url_show_with_credentials : Url -> text;
  url_cache_key : Url -> CacheKeyHasher -> CacheKeyHasher
}.

Inductive VersionOrUrl (Url : Type) :=
| VU_VersionSpecifier (specifiers : VersionSpecifiers)
| VU_Url (url : Url).
Arguments VU_VersionSpecifier {Url} specifiers.
Arguments VU_Url {Url} url.

Record Requirement {Url Path T : Type} := mkRequirement {
  req_name : PackageName;
  req_extras : list ExtraName;
  version_or_url : option (VersionOrUrl Url);
  req_marker : T;
  req_origin : option (RequirementOrigin Path)
}.
Arguments Requirement : clear implicits.

Section operations.
Context {Url U Path T : Type} `{Pep508Url Url U Path}.
Abbreviation Requirement := (Requirement Url Path T).

Definition clear_url (self : Requirement) : Requirement :=
  match version_or_url self with
  | Some (VU_Url _) => mkRequirement _ _ _ (req_name self) (req_extras self) None (req_marker self) (req_origin self)
  | _ => self
  end.

Definition with_origin (self : Requirement) (origin : RequirementOrigin Path) : Requirement :=
  mkRequirement _ _ _ (req_name self) (req_extras self) (version_or_url self) (req_marker self) (Some origin).

(** [name[extra1,extra2]], without brackets if there are no extras. *)
Definition extras_show (extras : list ExtraName) : text :=
  match extras with
  | [] => []
  | _ => bs "[" ++ join (bs ",") (map extra_name extras) ++ bs "]"
  end.

Definition version_or_url_show (display_credentials : bool) (self : option (VersionOrUrl Url)) : text :=
  match self with
  | None => []
  | Some (VU_VersionSpecifier specifiers) => join (bs ",") (map spec_show specifiers)
  | Some (VU_Url url) => bs " @ " ++ (if display_credentials then url_show_with_credentials url else url_show url)
  end.

(** [marker] is the text of the marker, if it is not always true. *)
Definition requirement_show (display_credentials : bool) (self : Requirement) (marker : option text) : text :=
  package_name (req_name self) ++ extras_show (req_extras self)
  ++ version_or_url_show display_credentials (version_or_url self)
  ++ match marker with Some marker => bs " ; " ++ marker | None => [] end.

Definition key_str (s : bytes) : CacheKeyHasher -> CacheKeyHasher := cache_key (Str s).

(** [cache_key], as the writes to the hasher. *)
Definition requirement_cache_key (self : Requirement) (marker : option text) (state : CacheKeyHasher) : CacheKeyHasher :=
  let state := key_str (package_name (req_name self)) state in
  let state := key_usize (length (req_extras self)) state in
  let state := foldl (fun state extra => key_str (extra_name extra) state) state (req_extras self) in
  let state :=
    match version_or_url self with
    | Some version_or_url =>
        let state := key_u8 1 state in
        match version_or_url with
        | VU_VersionSpecifier spec =>
            let state := key_u8 0 state in
            let state := key_usize (length spec) state in
            foldl (fun state specifier =>
              cache_key (spec_version specifier) (key_str (Operator_as_str (operator specifier)) state)) state spec
        | VU_Url url => url_cache_key url (key_u8 1 state)
        end
    | None => key_u8 0 state
    end in
  match marker with
  | Some marker => key_str (utf8 marker) (key_u8 1 state)
  | None => key_u8 0 state
  end.
End operations.

(** Requires the extra as well. *)
Definition with_extra_marker {I T Url Path} `{MarkerBuilder I T} (self : Requirement Url Path T) (extra : ExtraName) : act I (Requirement Url Path T) :=
  let! tree := build_expression (ME_Extra (MVE_Extra extra) EO_Equal) in
  let! marker := build_and (req_marker self) tree in
  mret (mkRequirement _ _ _ (req_name self) (req_extras self) (version_or_url self) marker (req_origin self)).

(** ** Parsing *)

Section parse.
Context {I T Url U Path S : Type} `{MarkerBuilder I T} `{Alphabetic} `{Pep508Url Url U Path} `{Scanner S}.
(** [std::env::var] and the current directory. *)
Context (env_var : text -> option text) (project_root : text).
Abbreviation P := (parser (World I) U).

(** Parses a potential URL, to choose the error: whether it looks like a
    requirement without a name, and the cursor after it. [None] is a panic. *)
Definition looks_like_unnamed_requirement (cursor : Cursor) : option (bool * Cursor) :=
  let '((start, len), cursor) := take_while cursor (fun c => negb (is_whitespace c)) in
  url ← slice cursor start len;
  let expanded := expand_env_vars env_var project_root url in
  let url := match split_extras expanded with Some (url, _) => url | None => expanded end in
  Some (match url with
        | [] => false
        | first_char :: _ =>
            (first_char =? 92) || (first_char =? 47) || (first_char =? 46)
            || bool_decide (is_Some (split_scheme url))
            || existsb (fun c => (c =? 47) || (c =? 92)) url
            || looks_like_archive url
        end, cursor).

(** The two errors at the start of a requirement: one if it looks like a URL. *)
Definition unnamed_or {A} (start : N) (other : P A) : P A := fun cursor w =>
  match clone ← Cursor_at cursor start; looks_like_unnamed_requirement clone with
  | None => Panicked
  | Some (true, clone) => fail (PS_UnsupportedRequirement M_UrlWithoutName) start (pos clone - start) clone w
  | Some (false, _) => other cursor w
  end.

Definition name_part (c : N) : bool := is_ascii_alphanumeric c || (c =? 46) || (c =? 45) || (c =? 95).

Definition parse_name : P PackageName :=
  let* start := look pos in
  let* first := advance_with next in
  match first with
  | None => string_error M_NameEmpty 0 1
  | Some (index, char) =>
      if negb (is_ascii_alphanumeric char) then
        unnamed_or start (string_error (M_NameStart char) index (len_utf8 char))
      else
        let* _ := advance_with (fun cursor => take_while cursor name_part) in
        let* end_ := look pos in
        let* name := p_slice start (end_ - start) in
        let* last := unwrap (last name) in
        if negb (is_ascii_alphanumeric last) then
          string_error (M_NameEnd last) (end_ - len_utf8 last) (len_utf8 last)
        else
          match PackageName_from_str (utf8 name) with
          | Ok name => pret name
          | Err _ => unwrap None
          end
  end.

(** One round of the loop of [parse_extras_cursor] after the separator: an extra. *)
Definition parse_extra (bracket_pos : N) : P ExtraName :=
  let* _ := p_eat_whitespace in
  let* first := advance_with next in
  match first with
  | None => string_error M_ExtrasEnd bracket_pos 1
  | Some (pos, char) =>
      if is_ascii_alphanumeric char then
        let* taken := advance_with (fun cursor => take_while cursor name_part) in
        let* rest := p_slice (fst taken) (snd taken) in
        let* following := look peek in
        match following with
        | Some (pos, c) =>
            if negb (c =? 44) && negb (c =? 93) && negb (is_whitespace c) then
              string_error (M_ExtraChar c) pos (len_utf8 c)
            else
              let* _ := p_eat_whitespace in
              match ExtraName_from_str (utf8 (char :: rest)) with Ok extra => pret extra | Err _ => unwrap None end
        | None =>
            let* _ := p_eat_whitespace in
            match ExtraName_from_str (utf8 (char :: rest)) with Ok extra => pret extra | Err _ => unwrap None end
        end
      else string_error (M_ExtraStart char) pos (len_utf8 char)
  end.

Fixpoint extras_loop (fuel : nat) (bracket_pos : N) (is_first_iteration : bool) (extras : list ExtraName) : P (list ExtraName) :=
  match fuel with
  | O => unwrap None
  | Datatypes.S fuel =>
      let* following := look peek in
      match following with
      | Some (pos, c) =>
          if c =? 93 then let* _ := advance_with next in pret extras
          else if (c =? 44) && is_first_iteration then string_error M_ExtrasComma pos 1
          else if negb (c =? 44) && negb is_first_iteration then string_error (M_ExtrasSeparator c) pos 1
          else
            let* _ := (if c =? 44 then let* _ := advance_with next in pret tt else pret tt) in
            let* extra := parse_extra bracket_pos in
            extras_loop fuel bracket_pos false (extras ++ [extra])
      | None =>
          let* extra := parse_extra bracket_pos in
          extras_loop fuel bracket_pos false (extras ++ [extra])
      end
  end.

Definition parse_extras_cursor : P (list ExtraName) :=
  let* bracket := advance_with (fun cursor => eat_char cursor 91) in
  match bracket with
  | None => pret []
  | Some bracket_pos =>
      let* _ := p_eat_whitespace in
      let* fuel := look (fun cursor => Datatypes.S (length (chars cursor))) in
      extras_loop fuel bracket_pos true []
  end.

(** ** URLs *)

(** A semicolon or hash, or the end. *)
Definition url_ends (s : text) : bool :=
  match s with [] => true | c :: _ => (c =? 59) || (c =? 35) end.

(** A semicolon or hash, then whitespace. *)
Definition ambiguous_end (s : text) : bool :=
  match s with c :: d :: _ => ((c =? 59) || (c =? 35)) && is_whitespace d | _ => false end.

Definition u32_MAX : N := 4294967295.

(** The loop over the characters of a URL; [brackets] tracks their depth, for URLs
    with extras. *)
Fixpoint url_loop (brackets : bool) (chars : text) (pos len depth : N) : text * N * N :=
  match chars with
  | [] => ([], pos, len)
  | c :: rest =>
      let pos := pos + len_utf8 c in
      if (c =? 13) || (c =? 10) then (rest, pos, len)
      else
        let depth :=
          if brackets && (c =? 91) then N.min (depth + 1) u32_MAX
          else if brackets && (c =? 93) then depth - 1
          else depth in
        if (depth =? 0) && is_whitespace c && url_ends (snd (span is_whitespace rest)) then (rest, pos, len)
        else
          let len := len + len_utf8 c in
          if (depth =? 0) && ambiguous_end rest then (rest, pos, len)
          else url_loop brackets rest pos len depth
  end.

Definition take_url (brackets : bool) (self : Cursor) : (N * N) * Cursor :=
  let '(chars, pos', len) := url_loop brackets (chars self) (pos self) 0 0 in
  ((pos self, len), {| input := input self; chars := chars; pos := pos' |}).

Definition parse_url (working_dir : option Path) : P Url :=
  let* _ := p_eat_whitespace in
  let* taken := advance_with (take_url false) in
  let* url := p_slice (fst taken) (snd taken) in
  match url with
  | [] => string_error M_ExpectedUrl (fst taken) (snd taken)
  | _ =>
      match url_parse url working_dir with
      | Ok url => pret url
      | Err err => fail (PS_UrlError err) (fst taken) (snd taken)
      end
  end.

(** ** Version specifiers *)

Definition parse_specifier (buffer : text) (start end_ : N) : P VersionSpecifier :=
  match spec_from_str (S := S) buffer with
  | Ok specifier => pret specifier
  | Err (Error err) => string_error (M_Specifier err) start (end_ - start)
  | Err Panic => unwrap None
  end.

(** The loop of [parse_version_specifier]; [fuel] bounds the characters. *)
Fixpoint specifier_loop (fuel : nat) (start : N) (specifiers : list VersionSpecifier) (buffer : text) : P (list VersionSpecifier) :=
  match fuel with
  | O => unwrap None
  | Datatypes.S fuel =>
      let* following := look peek in
      match following with
      | Some (end_, c) =>
          if c =? 44 then
            let* specifier := parse_specifier buffer start end_ in
            let* _ := advance_with next in
            specifier_loop fuel (end_ + 1) (specifiers ++ [specifier]) []
          else if c =? 59 then
            let* specifier := parse_specifier buffer start end_ in
            pret (specifiers ++ [specifier])
          else
            let* _ := advance_with next in
            specifier_loop fuel start specifiers (buffer ++ [c])
      | None =>
          let* end_ := look pos in
          let* specifier := parse_specifier buffer start end_ in
          pret (specifiers ++ [specifier])
      end
  end.

Definition parse_version_specifier : P (option (VersionOrUrl Url)) :=
  let* start := look pos in
  let* fuel := look (fun cursor => Datatypes.S (length (chars cursor))) in
  let* specifiers := specifier_loop fuel start [] [] in
  pret (Some (VU_VersionSpecifier (from_unsorted specifiers))).

Fixpoint parentheses_loop (fuel : nat) (brace_pos start : N) (specifiers : list VersionSpecifier) (buffer : text) : P (list VersionSpecifier) :=
  match fuel with
  | O => unwrap None
  | Datatypes.S fuel =>
      let* c := advance_with next in
      match c with
      | Some (end_, c) =>
          if c =? 44 then
            let* specifier := parse_specifier buffer start end_ in
            parentheses_loop fuel brace_pos (end_ + 1) (specifiers ++ [specifier]) []
          else if c =? 41 then
            let* specifier := parse_specifier buffer start end_ in
            pret (specifiers ++ [specifier])
          else parentheses_loop fuel brace_pos start specifiers (buffer ++ [c])
      | None => string_error M_ParenthesisEnd brace_pos 1
      end
  end.

Definition parse_version_specifier_parentheses : P (option (VersionOrUrl Url)) :=
  let* brace_pos := look pos in
  let* _ := advance_with next in
  let* _ := p_eat_whitespace in
  let* start := look pos in
  let* fuel := look (fun cursor => Datatypes.S (length (chars cursor))) in
  let* specifiers := parentheses_loop fuel brace_pos start [] [] in
  pret (Some (VU_VersionSpecifier (from_unsorted specifiers))).

(** ** The requirement *)

(** [wsp* ( ';' wsp* marker )?] *)
Definition parse_quoted_marker : P (option T) :=
  let* _ := p_eat_whitespace in
  let* following := look peek_char in
  if bool_decide (following = Some 59) then
    let* _ := advance_with next in
    parse_markers_cursor
  else pret None.

Definition parse_requirement_kind (start : N) (working_dir : option Path) : P (option (VersionOrUrl Url)) :=
  let* following := look peek_char in
  match following with
  | None => pret None
  | Some c =>
      if c =? 64 then
        let* _ := advance_with next in
        let* url := parse_url working_dir in
        pret (Some (VU_Url url))
      else if c =? 40 then parse_version_specifier_parentheses
      else if operator_char c then parse_version_specifier
      else if c =? 59 then pret None
      else
        let* pos := look pos in
        unnamed_or start (string_error (M_Kind c) pos (len_utf8 c))
  end.

(** A name alone that looks like an archive is rejected. *)
Definition reject_archive (start name_start name_end : N) (kind : option (VersionOrUrl Url)) : P unit :=
  match kind with
  | Some _ => pret tt
  | None =>
      let* name := p_slice name_start (name_end - name_start) in
      if looks_like_archive name then fun cursor w =>
        match Cursor_at cursor start with
        | Some clone => fail (PS_UnsupportedRequirement M_UrlWithoutName) start (pos clone - start) clone w
        | None => Panicked
        end
      else pret tt
  end.

(** Nothing may follow but a comment. *)
Definition expect_end (comment : bool) (with_marker : bool) : P unit :=
  let* _ := p_eat_whitespace in
  let* c := advance_with next in
  match c with
  | None => pret tt
  | Some (pos, char) =>
      if comment && (char =? 35) then pret tt
      else string_error (if char =? 35 then M_Comment char else M_Trailing with_marker char) pos (len_utf8 char)
  end.

Definition parse_pep508_requirement (working_dir : option Path) : P (Requirement Url Path T) :=
  let* start := look pos in
  let* _ := p_eat_whitespace in
  let* name_start := look pos in
  let* name := parse_name in
  let* name_end := look pos in
  let* _ := p_eat_whitespace in
  let* extras := parse_extras_cursor in
  let* _ := p_eat_whitespace in
  let* requirement_kind := parse_requirement_kind start working_dir in
  let* _ := reject_archive start name_start name_end requirement_kind in
  let* marker := parse_quoted_marker in
  let* _ := expect_end true (bool_decide (is_Some marker)) in
  pret (mkRequirement _ _ _ name extras requirement_kind (default build_true marker) None).

(** [Requirement::parse] and [from_str], which has no working directory. *)
Definition Requirement_parse (input : text) (working_dir : option Path) (w : World I)
    : outcome (World I) (Pep508Error U) (Requirement Url Path T) :=
  parse_pep508_requirement working_dir (Cursor_new input) w.

Definition Extras_parse (input : text) (w : World I) : outcome (World I) (Pep508Error U) (list ExtraName) :=
  parse_extras_cursor (Cursor_new input) w.
End parse.
