(* ===== verification/Unnamed.v ===== *)
(** * Requirements without a name ([uv-pep508/src/unnamed.rs])

    The parser of the URLs and paths that [requirements.txt] files allow in place
    of a requirement, with the extras at their end. *)

From stdpp Require Import base numbers list strings.
From S2P Require Import Prelude VersionTypes VersionSmall Version VersionParser Specifier Names CacheKey Text RangeSet MarkerTypes MarkerAlgebra MarkerTree Cursor MarkerParse UrlText Requirement.

(** The trait [UnnamedRequirementUrl]. *)
Class UnnamedRequirementUrl (Url U Path : Type) `{Pep508Url Url U Path} := {
  parse_path : text -> Path -> result Url U;
  parse_absolute_path : text -> result Url U;
  parse_unnamed_url_str : text -> result Url U;
  with_given : Url -> text -> Url;
  given : Url -> option text
}.

Record UnnamedRequirement {Url Path T : Type} := mkUnnamed {
  un_url : Url;
  un_extras : list ExtraName;
  un_marker : T;
  un_origin : option (RequirementOrigin Path)
}.
Arguments UnnamedRequirement : clear implicits.

Definition unnamed_with_origin {Url Path T} (self : UnnamedRequirement Url Path T) (origin : RequirementOrigin Path) : UnnamedRequirement Url Path T :=
  mkUnnamed _ _ _ (un_url self) (un_extras self) (un_marker self) (Some origin).

(** [marker] is the text of the marker, if it is not always true. *)
Definition unnamed_show {Url U Path T} `{Pep508Url Url U Path} (self : UnnamedRequirement Url Path T) (marker : option text) : text :=
  url_show (un_url self) ++ extras_show (un_extras self) ++ match marker with Some marker => bs " ; " ++ marker | None => [] end.

Section parse.
Context {I T Url U Path : Type} `{MarkerBuilder I T} `{Alphabetic} `{UnnamedRequirementUrl Url U Path}.
(** [std::env::var], the current directory, and the percent-decoding of paths. *)
Context (env_var : text -> option text) (project_root : text) (normalize_url_path : text -> text).
Abbreviation P := (parser (World I) U).

(** [parse_extras_cursor] on the text of the extras; an error is moved to where
    they are in the input. *)
Definition extras_of_url (start : N) (url : text) (extras : option text) : P (list ExtraName) :=
  match extras with
  | None => pret []
  | Some extras => fun cursor w =>
      match parse_extras_cursor (Cursor_new extras) w with
      | Done extras _ w => Done extras cursor w
      | Failed err w => Failed (mkError _ (message err) (start + byte_len url + err_start err) (err_len err) (input cursor)) w
      | Panicked => Panicked
      end
  end.

Definition from_given (start len : N) (url : text) (m : result Url U) : P Url :=
  match m with
  | Ok parsed => pret (with_given parsed url)
  | Err err => fail (PS_UrlError err) start len
  end.

Definition path_or_absolute (path : text) (working_dir : option Path) : result Url U :=
  match working_dir with
  | Some working_dir => parse_path path working_dir
  | None => parse_absolute_path path
  end.

Definition preprocess_unnamed_url (url : text) (working_dir : option Path) (start len : N) : P (Url * list ExtraName) :=
  let '(url, extras) := match split_extras url with Some (url, extras) => (url, Some extras) | None => (url, None) end in
  let* extras := extras_of_url start url extras in
  let expanded := expand_env_vars env_var project_root url in
  let* parsed := from_given start len url
    match split_scheme expanded with
    | Some (scheme, path) =>
        match Scheme_parse scheme with
        | Some SC_File => path_or_absolute (normalize_url_path (strip_host path)) working_dir
        | Some _ => parse_unnamed_url_str expanded
        | None => path_or_absolute expanded working_dir
        end
    | None => path_or_absolute expanded working_dir
    end in
  pret (parsed, extras).

Definition parse_unnamed_url (working_dir : option Path) : P (Url * list ExtraName) :=
  let* _ := p_eat_whitespace in
  let* taken := advance_with (take_url true) in
  let* url := p_slice (fst taken) (snd taken) in
  match url with
  | [] => string_error M_ExpectedUrl (fst taken) (snd taken)
  | _ => preprocess_unnamed_url url working_dir (fst taken) (snd taken)
  end.

Definition parse_unnamed_requirement (working_dir : option Path) : P (UnnamedRequirement Url Path T) :=
  let* _ := p_eat_whitespace in
  let* parsed := parse_unnamed_url working_dir in
  let* marker := parse_quoted_marker in
  let* _ := expect_end false (bool_decide (is_Some marker)) in
  pret (mkUnnamed _ _ _ (fst parsed) (snd parsed) (default build_true marker) None).

(** [UnnamedRequirement::parse] and [from_str], which has no working directory. *)
Definition UnnamedRequirement_parse (input : text) (working_dir : option Path) (w : World I)
    : outcome (World I) (Pep508Error U) (UnnamedRequirement Url Path T) :=
  parse_unnamed_requirement working_dir (Cursor_new input) w.
End parse.
