(* ===== verification/RequirementRoundTrip.v ===== *)
(** * Printed requirements read back

    The parser of requirements reads what [Display] prints: the name, the extras,
    the version specifiers or the URL, and the marker. *)

From stdpp Require Import base numbers list strings sorting.
From S2P Require Import Prelude VersionTypes VersionSmall Version VersionFacts VersionParser ParserFacts RoundTrip ParserSafe Specifier SpecifierFacts SpecifierParse Names NamesTheorems CacheKey Text RangeSet MarkerTypes MarkerAlgebra MarkerEval MarkerDnf Cursor MarkerParse MarkerFormula MarkerRoundTrip UrlText Requirement.

(** ** Names *)

(** The text between two positions of a cursor. *)
Lemma slice_between c n c' x : cursor_ok c -> goes c n c' -> chars c = x ++ chars c' -> slice c' (pos c) (pos c' - pos c) = Some x.
Proof.
  intros Hc Hg Ec. destruct (goes_between c n c' Hc Hg) as (y&Ey&Ep). rewrite Ec in Ey. apply app_inv_tail in Ey. subst y.
  destruct Hc as (before&Ei&Eb). unfold slice. rewrite (proj1 (proj2 Hg)), Ei, Ep, Eb, Ec, N.add_comm, N.add_sub. apply byte_slice_app.
Qed.

Definition proper_name (n : bytes) : Prop := n <> [] /\ normalized n.

Lemma lower_alnum c : is_ascii_lowercase c || is_ascii_digit c = true -> is_ascii_alphanumeric c = true.
Proof. unfold is_ascii_alphanumeric, is_ascii_alphabetic. destruct (is_ascii_lowercase c), (is_ascii_digit c), (is_ascii_uppercase c); done. Qed.

Lemma alnum_not d : is_ascii_alphanumeric d = true -> is_whitespace d = false /\ (d =? 93) = false /\ (d =? 44) = false.
Proof.
  unfold is_ascii_alphanumeric, is_ascii_alphabetic, is_ascii_lowercase, is_ascii_uppercase, is_ascii_digit, is_whitespace.
  rewrite !orb_true_iff, !andb_true_iff, !N.leb_le, !N.eqb_neq. intros Hd. split; [|lia].
  apply not_true_iff_false. rewrite !orb_true_iff, ?andb_true_iff, ?N.leb_le, ?N.eqb_eq. lia.
Qed.

Lemma normal_form_last s : forall b, normal_form b s = true -> match last s with Some l => is_ascii_alphanumeric l = true | None => b = false end.
Proof.
  induction s as [|c s IH]; intros b; [by destruct b|]. cbn [normal_form]. rewrite last_cons. destruct (N.eqb_spec c 45) as [->|Hc].
  - intros [_ H]%andb_true_iff. specialize (IH _ H). by destruct (last s).
  - intros [Hl H]%andb_true_iff. specialize (IH _ H). destruct (last s); [done|]. by apply lower_alnum.
Qed.

Lemma proper_name_shape n : proper_name n -> exists d x l, n = d :: x /\ is_ascii_alphanumeric d = true /\ last n = Some l /\ is_ascii_alphanumeric l = true /\
  Forall (fun c => name_part c = true) n /\ Forall (fun c => c <> 46 /\ c <> 47) n.
Proof.
  intros [Hne Hn]. pose proof (normalized_chars n Hn) as Hc. destruct Hn as [->|Hn]; [done|]. destruct n as [|d x]; [done|].
  pose proof (normal_form_last _ _ Hn) as Hl. destruct (last (d :: x)) as [l|] eqn:El; [|by destruct x]. exists d, x, l. split_and!; [done| |done|done| |].
  - cbn in Hn. destruct (N.eqb_spec d 45); [done|]. apply andb_true_iff in Hn as [Hd _]. by apply lower_alnum.
  - apply (Forall_impl _ _ _ Hc). intros c H. unfold name_part, is_ascii_alphanumeric, is_ascii_alphabetic, is_ascii_lowercase, is_ascii_digit.
    destruct H as [->|H]; [done|]. rewrite !orb_true_iff, !andb_true_iff, !N.leb_le. lia.
  - apply (Forall_impl _ _ _ Hc). lia.
Qed.

Section parts.
Context {I T Url U Path S : Type} `{MarkerBuilder I T} {A : Alphabetic} `{Pep508Url Url U Path} `{ScannerLaws S}.
Context (env_var : text -> option text) (project_root : text).
Abbreviation P := (parser (World I) U).

Lemma reads_name n : proper_name n -> reads (starts_without name_part) (parse_name env_var project_root : P _) n {| package_name := n |}.
Proof.
  intros Hp c w rest Hc Ec Hr. destruct (proper_name_shape n Hp) as (d&x&l&En&Hd&El&Hl&Hn&_).
  unfold parse_name, pbind at 1, look at 1. destruct (next c) as [o c1] eqn:E1. assert (o = Some (pos c, d)) as ->.
  { unfold next in E1. rewrite Ec, En in E1. by injection E1. }
  destruct (next_some c _ _ _ Hc E1) as (Hg1&_&Ec'). rewrite Ec, En in Ec'. injection Ec' as Ec1.
  unfold pbind at 1. unfold advance_with at 1. rewrite E1, Hd. cbn [negb].
  unfold pbind at 1. unfold advance_with. pose proof (take_while_spec c1 name_part (proj1 Hg1)) as Ht. destruct (take_while c1 name_part) as [[s k] c2].
  rewrite En in Hn. apply Forall_cons in Hn as [_ Hx]. rewrite <- Ec1, (span_run name_part x rest Hx Hr) in Ht. cbn [fst snd] in Ht. destruct Ht as (_&_&Ec2&Hg2&_).
  pose proof (goes_trans _ _ _ _ _ Hg1 Hg2) as Hg. unfold pbind at 1, look at 1. unfold pbind at 1. unfold p_slice, unwrap.
  rewrite (slice_between c _ c2 n Hc Hg) by (by rewrite Ec, Ec2). unfold pbind. rewrite El, Hl. cbn [negb].
  unfold PackageName_from_str. rewrite normalized_utf8, normalized_validate by apply Hp. cbn. exists c2. split_and!; [done|done|]. eapply goes_weak; [exact Hg|lia].
Qed.

(** ** Extras *)

Definition list_end (c : N) : Prop := c = 44 \/ c = 93.

Lemma reads_extra b e : proper_name e -> reads (fun r => exists d r', r = d :: r' /\ list_end d) (parse_extra b : P _) e {| extra_name := e |}.
Proof.
  intros Hp. destruct (proper_name_shape e Hp) as (d&x&l&->&Hd&_&_&Hn&_). apply Forall_cons in Hn as [_ Hx].
  destruct (alnum_not d Hd) as (Hw&_).
  unfold parse_extra. read_as ([] ++ d :: x). apply (reads_bind (starts_without is_whitespace)) with (a := tt); [by apply reads_whitespace| |by intros r _].
  apply reads_next. intros i. rewrite Hd. rewrite <- (app_nil_r x). apply reads_taken; [done| |].
  - intros taken c w rest Hc Ec (q&r&->&Hq). unfold pbind, look, peek. cbn in Ec. rewrite Ec. cbn [head fmap option_fmap option_map].
    assert (negb (q =? 44) && negb (q =? 93) && negb (is_whitespace q) = false) as -> by (by destruct Hq as [->| ->]).
    unfold p_eat_whitespace. unfold ExtraName_from_str. rewrite app_nil_r, normalized_utf8, normalized_validate by apply Hp. cbn.
    exists (eat_whitespace c). split_and!; [done| |by apply eat_whitespace_goes]. rewrite eat_whitespace_chars, Ec. cbn. by destruct Hq as [->| ->].
  - intros r (q&r'&->&Hq). cbn. by destruct Hq as [->| ->].
Qed.

Definition commas (es : list ExtraName) : text := concat (map (fun e => 44 :: extra_name e) es).

Lemma commas_end es r : list_end 93 /\ exists d r', commas es ++ 93 :: r = d :: r' /\ list_end d.
Proof. split; [by right|]. destruct es as [|e es]; [exists 93, r|eexists 44, _]; (split; [reflexivity|by (left + right)]). Qed.

Lemma reads_extras_rest b : forall es fuel acc, Forall (fun e => proper_name (extra_name e)) es -> (length es < fuel)%nat ->
  reads (fun _ => True) (extras_loop fuel b false acc : P _) (commas es ++ [93]) (acc ++ es).
Proof.
  induction es as [|e es IH]; intros fuel acc He Hf; (destruct fuel as [|fuel]; [cbn in Hf; lia|]); cbn [extras_loop].
  - apply (reads_peek _ _ 93 []). intros i. rewrite N.eqb_refl, app_nil_r. apply (reads_next _ _ 93 []). intros j. apply reads_ret.
  - apply Forall_cons in He as [He Hes]. cbn in Hf.
    assert (commas (e :: es) ++ [93] = 44 :: extra_name e ++ commas es ++ [93]) as -> by (cbn; by rewrite <- app_assoc).
    apply reads_peek. intros i. change (44 =? 93) with false. change (44 =? 44) with true. cbn [andb negb].
    read_as ([44] ++ extra_name e ++ commas es ++ [93]).
    apply (reads_bind (fun _ => True)) with (a := tt); [apply (reads_next _ _ 44 []); intros j; apply reads_ret| |done].
    apply (reads_bind (fun r => exists d r', r = d :: r' /\ list_end d)) with (a := e).
    + pose proof (reads_extra b _ He) as Hx. by destruct e.
    + assert (acc ++ e :: es = (acc ++ [e]) ++ es) as -> by (by rewrite <- app_assoc). apply IH; [done|lia].
    + intros r _. rewrite <- app_assoc. apply (commas_end es r).
Qed.

Lemma extras_show_commas e es : extras_show (e :: es) = 91 :: extra_name e ++ commas es ++ [93].
Proof.
  unfold extras_show. cbn [app bs]. f_equal. revert e. induction es as [|e' es IH]; intros e; [done|].
  change (join (bs ",") (map extra_name (e :: e' :: es))) with (extra_name e ++ 44 :: join (bs ",") (map extra_name (e' :: es))).
  rewrite <- app_assoc. cbn [app]. rewrite IH. cbn. by rewrite <- !app_assoc.
Qed.

Lemma reads_extras es : Forall (fun e => proper_name (extra_name e)) es ->
  reads (fun r => head r <> Some 91) (parse_extras_cursor : P _) (extras_show es) es.
Proof.
  intros He c w rest Hc Ec Hr. unfold parse_extras_cursor, pbind at 1. unfold advance_with at 1. destruct (eat_char c 91) as [o c1] eqn:E1.
  destruct (eat_char_cases c 91 o c1 Hc E1) as [(->&->&Hh)|(->&Ec1&Hg1)].
  - destruct es as [|e es]; [|by rewrite Ec, extras_show_commas in Hh]. exists c. split_and!; [done|done|by apply goes_refl].
  - destruct es as [|e es]; [cbn in Ec; rewrite Ec1 in Ec; by subst rest|]. rewrite extras_show_commas, Ec1 in Ec. injection Ec as Ec.
    apply Forall_cons in He as [He Hes]. rewrite <- !app_assoc in Ec. destruct (proper_name_shape _ He) as (d&x&l&En&Hd&_).
    destruct (alnum_not d Hd) as (Hw&Hd1&Hd2).
    pose proof (eat_whitespace_goes c1 (proj1 Hg1)) as Hg2. pose proof (eat_whitespace_chars c1) as Ec2. rewrite Ec, En in Ec2. cbn in Ec2. rewrite Hw in Ec2. cbn in Ec2.
    unfold pbind at 1, p_eat_whitespace at 1. unfold pbind at 1, look at 1. cbn [extras_loop]. unfold pbind at 1, look at 1, peek. rewrite Ec2. cbn [head fmap option_fmap option_map].
    rewrite Hd1, Hd2. cbn [andb negb].
    destruct (reads_extra (pos c) _ He (eat_whitespace c1) w (commas es ++ [93] ++ rest) (proj1 Hg2)) as (c3&E3&Ec3&Hg3);
      [by rewrite Ec2, En|apply (commas_end es rest)|].
    unfold pbind at 1. unfold pret at 1. rewrite (pbind_done _ _ _ _ _ _ _ E3).
    destruct (reads_extras_rest (pos c) es (length (chars (eat_whitespace c1))) [{| extra_name := extra_name e |}] Hes) with (c := c3) (w := w) (rest := rest) as (c4&E4&Ec4&Hg4).
    + pose proof (proj2 (proj2 Hg3)). rewrite Ec2. cbn [length]. rewrite !length_app. assert (length es <= length (commas es))%nat; [|lia].
      clear. induction es as [|e es IH]; [done|]. change (commas (e :: es)) with (44 :: extra_name e ++ commas es). cbn [length]. rewrite length_app. lia.
    + apply Hg3.
    + by rewrite Ec3, app_assoc.
    + done.
    + exists c4. split_and!; [rewrite Ec2 in E4; rewrite app_nil_l, E4; by destruct e|done|].
      eapply goes_weak; [exact (goes_trans _ _ _ _ _ Hg1 (goes_trans _ _ _ _ _ Hg2 (goes_trans _ _ _ _ _ Hg3 Hg4)))|lia].
Qed.

(** ** Version specifiers *)

Abbreviation specifier_loop := (Requirement.specifier_loop (I := I) (U := U) (S := S)).

(** Characters that are neither a comma nor a semicolon go to the buffer. *)
Lemma specifier_loop_chars start specs w : forall x fuel buffer c rest, Forall (fun c => c <> 44 /\ c <> 59) x -> cursor_ok c -> chars c = x ++ rest ->
  (length (chars c) < fuel)%nat -> exists fuel' c', specifier_loop fuel start specs buffer c w = specifier_loop fuel' start specs (buffer ++ x) c' w /\
    chars c' = rest /\ goes c 0 c' /\ (length rest < fuel')%nat.
Proof.
  induction x as [|d x IH]; intros fuel buffer c rest Hx Hc Ec Hf.
  { cbn in Ec. exists fuel, c. rewrite app_nil_r. split_and!; [done|done|by apply goes_refl|by rewrite <- Ec]. }
  apply Forall_cons in Hx as [[Hd1 Hd2] Hx]. destruct fuel as [|fuel]; [lia|]. cbn [Requirement.specifier_loop]. unfold pbind at 1, look at 1, peek. rewrite Ec. cbn [app head fmap option_fmap option_map].
  rewrite (proj2 (N.eqb_neq _ _) Hd1), (proj2 (N.eqb_neq _ _) Hd2). destruct (next c) as [o c1] eqn:E1.
  assert (o = Some (pos c, d)) as -> by (unfold next in E1; rewrite Ec in E1; by injection E1).
  destruct (next_some c _ _ _ Hc E1) as (Hg1&_&Ec'). rewrite Ec in Ec'. injection Ec' as Ec1. unfold pbind at 1, advance_with at 1. rewrite E1.
  pose proof (proj2 (proj2 Hg1)). destruct (IH fuel (buffer ++ [d]) c1 rest Hx (proj1 Hg1)) as (fuel'&c2&E2&Ec2&Hg2&Hf2); [done|lia|].
  exists fuel', c2. rewrite E2, <- app_assoc. split_and!; [done|done| |done]. eapply goes_weak; [exact (goes_trans _ _ _ _ _ Hg1 Hg2)|lia].
Qed.

Lemma spec_show_chars sp : spec_parsed sp -> Forall (fun c => c <> 44 /\ c <> 59) (spec_show sp).
Proof.
  intros Hs. rewrite spec_show_split. apply Forall_app. split.
  - destruct (operator sp); cbn; repeat constructor; lia.
  - destruct (show_pattern_chars sp Hs) as [Hc _]. apply Forall_forall. intros c Hin. rewrite forallb_forall in Hc. apply list_elem_of_In, Hc in Hin.
    split; intros ->; done.
Qed.

(** What may follow the specifiers: spaces, then a semicolon or the end. *)
Definition specifiers_end (ws rest : text) : Prop := Forall (fun c => is_whitespace c = true) ws /\ (rest = [] \/ exists r, rest = 59 :: r).

Lemma space_not_separator c : is_whitespace c = true -> c <> 44 /\ c <> 59.
Proof. intros Hs. split; intros ->; done. Qed.

Lemma specifier_loop_shows start w : forall l sp fuel specs c ws rest, Forall spec_parsed (sp :: l) -> cursor_ok c ->
  chars c = join (bs ",") (map spec_show (sp :: l)) ++ ws ++ rest -> specifiers_end ws rest -> (length (chars c) < fuel)%nat ->
  exists c', specifier_loop fuel start specs [] c w = Done (specs ++ sp :: l) c' w /\ chars c' = rest /\ goes c 0 c'.
Proof.
  intros l. revert start. induction l as [|sp' l IH]; intros start sp fuel specs c ws rest Hl Hc Ec [Hws Hr] Hf; apply Forall_cons in Hl as [Hs Hl].
  - cbn [map join] in Ec. rewrite app_assoc in Ec.
    destruct (specifier_loop_chars start specs w (spec_show sp ++ ws) fuel [] c rest) as (fuel'&c1&E1&Ec1&Hg1&Hf1); [|done|done|done|].
    { apply Forall_app. split; [by apply spec_show_chars|]. apply (Forall_impl _ _ _ Hws). apply space_not_separator. }
    rewrite E1, app_nil_l. destruct fuel' as [|fuel']; [lia|]. cbn [Requirement.specifier_loop]. unfold pbind at 1, look at 1, peek. rewrite Ec1.
    assert (spec_from_str (S := S) (spec_show sp ++ ws) = Ok sp) as Eo.
    { apply (spec_from_str_around []); [done| |done]. apply forallb_forall. intros c' Hin. apply list_elem_of_In in Hin. revert c' Hin. by apply Forall_forall. }
    exists c1. destruct Hr as [->|[r ->]]; cbn [head fmap option_fmap option_map]; unfold pbind, look, parse_specifier; rewrite Eo; done.
  - change (join (bs ",") (map spec_show (sp :: sp' :: l))) with (spec_show sp ++ 44 :: join (bs ",") (map spec_show (sp' :: l))) in Ec. rewrite <- app_assoc in Ec. cbn [app] in Ec.
    destruct (specifier_loop_chars start specs w (spec_show sp) fuel [] c _ (spec_show_chars _ Hs) Hc Ec Hf) as (fuel'&c1&E1&Ec1&Hg1&Hf1).
    rewrite E1, app_nil_l. destruct fuel' as [|fuel']; [lia|]. cbn [Requirement.specifier_loop]. unfold pbind at 1, look at 1, peek. rewrite Ec1. cbn [head fmap option_fmap option_map].
    change (44 =? 44) with true. assert (spec_from_str (S := S) (spec_show sp) = Ok sp) as Eo by (by apply (spec_from_str_show [])).
    unfold pbind at 1, parse_specifier. rewrite Eo. unfold pret at 1. destruct (next c1) as [o c2] eqn:E2.
    assert (o = Some (pos c1, 44)) as -> by (unfold next in E2; rewrite Ec1 in E2; by injection E2).
    destruct (next_some c1 _ _ _ (proj1 Hg1) E2) as (Hg2&_&Ec'). rewrite Ec1 in Ec'. apply (f_equal (@tail N)) in Ec'. cbn [tail] in Ec'. rename Ec' into Ec2. unfold pbind at 1, advance_with at 1. rewrite E2.
    cbn [length] in Hf1. destruct (IH (pos c1 + 1) sp' fuel' (specs ++ [sp]) c2 ws rest Hl (proj1 Hg2)) as (c3&E3&Ec3&Hg3); [done|done|rewrite <- Ec2; lia|].
    exists c3. rewrite E3, <- app_assoc. split_and!; [done|done|]. eapply goes_weak; [exact (goes_trans _ _ _ _ _ Hg1 (goes_trans _ _ _ _ _ Hg2 Hg3))|lia].
Qed.

(** ** URLs *)

(** The marker after the rest of the requirement, and what is left of it when the
    rest is read. *)
Definition marker_tail (marker : option text) : text := match marker with Some marker => bs " ; " ++ marker | None => [] end.
Definition marker_rest (marker : option text) : text := match marker with Some marker => 59 :: 32 :: marker | None => [] end.

(** URLs that end where they are meant to: no whitespace, and no separator last. *)
Definition url_text_ok (t : text) : Prop := t <> [] /\ Forall (fun c => is_whitespace c = false) t /\ last t <> Some 59 /\ last t <> Some 35.

Lemma last_tail (d : N) t x : last (d :: t) <> Some x -> last t <> Some x.
Proof. rewrite last_cons. by destruct (last t). Qed.

Lemma url_loop_text m : forall t pos len, Forall (fun c => is_whitespace c = false) t -> last t <> Some 59 -> last t <> Some 35 ->
  exists pos', url_loop false (t ++ marker_tail m) pos len 0 = (marker_rest m, pos', len + byte_len t) /\
    pos' + byte_len (marker_rest m) = pos + byte_len (t ++ marker_tail m).
Proof.
  induction t as [|d t IH]; intros p len Hw H59 H35.
  - destruct m as [m|]; [exists (p + 1)|exists p]; (split; [change (byte_len []) with 0; by rewrite N.add_0_r|]); [|done].
    cbn [app marker_rest marker_tail]. change (bs " ; " ++ m) with (32 :: 59 :: 32 :: m). cbn [byte_len]. change (len_utf8 32) with 1. lia.
  - apply Forall_cons in Hw as [Hd Hw]. apply last_tail in H59 as H59'. apply last_tail in H35 as H35'. cbn [app url_loop].
    assert ((d =? 13) || (d =? 10) = false) as ->.
    { apply orb_false_iff. rewrite !N.eqb_neq. split; intros ->; done. }
    change (false && (d =? 91)) with false. change (false && (d =? 93)) with false. cbv iota. rewrite Hd. change ((0 =? 0) && false && _) with false. cbv iota.
    change ((0 =? 0) && ?x) with x. assert (ambiguous_end (t ++ marker_tail m) = false) as ->.
    { destruct t as [|e [|f t]]; [by destruct m| |].
      - destruct m as [m|]; [|done]. cbn. apply andb_false_iff. left. apply orb_false_iff. cbn in H59', H35'. rewrite !N.eqb_neq. split; congruence.
      - cbn. apply Forall_cons in Hw as [_ [Hf _]%Forall_cons]. rewrite Hf. apply andb_false_r. }
    destruct (IH (p + len_utf8 d) (len + len_utf8 d) Hw H59' H35') as (p'&E&Ep). exists p'. rewrite E. cbn [byte_len]. split; [f_equal; lia|lia].
Qed.

Lemma take_url_text c t m : cursor_ok c -> chars c = t ++ marker_tail m -> url_text_ok t ->
  exists c', take_url false c = ((pos c, byte_len t), c') /\ chars c' = marker_rest m /\ goes c 0 c' /\ slice c' (pos c) (byte_len t) = Some t.
Proof.
  intros Hc Ec (_&Hw&H59&H35). unfold take_url. rewrite Ec. destruct (url_loop_text m t (pos c) 0 Hw H59 H35) as (p'&->&Ep). rewrite N.add_0_l.
  eexists. split; [reflexivity|]. cbn [chars]. pose proof Hc as (before&Ei&Eb). split_and!; [done| |].
  - assert (exists gap, t ++ marker_tail m = (t ++ gap) ++ marker_rest m) as [gap Eg].
    { destruct m as [m|]; [exists (bs " ")|exists []]; by rewrite <- app_assoc. }
    split_and!.
    + exists (before ++ t ++ gap). cbn [input chars pos]. split; [by rewrite Ei, Ec, Eg, app_assoc|]. rewrite Eg, byte_len_app in Ep. rewrite byte_len_app. lia.
    + done.
    + cbn [chars]. rewrite Ec, Eg, !length_app. lia.
  - unfold slice. cbn [input]. rewrite Ei, Ec, Eb. apply byte_slice_app.
Qed.

(** ** The kind of a requirement *)

(** Specifiers as parsed, in their order; URLs whose text has no whitespace and does not
    end in a semicolon or a hash. *)
Definition kind_ok (kind : option (VersionOrUrl Url)) : Prop :=
  match kind with
  | None => True
  | Some (VU_VersionSpecifier l) => l <> [] /\ Forall spec_parsed l /\ StronglySorted le_version l
  | Some (VU_Url url) => url_text_ok (url_show url)
  end.

(** What is read for it: of a URL, what the parser of URLs makes of its text. *)
Definition reread (working_dir : option Path) (kind : option (VersionOrUrl Url)) : result (option (VersionOrUrl Url)) U :=
  match kind with
  | Some (VU_Url url) => match url_parse (url_show url) working_dir with Ok url => Ok (Some (VU_Url url)) | Err e => Err e end
  | kind => Ok kind
  end.

(** What is left after the extras and the whitespace. *)
Definition kind_rest (kind : option (VersionOrUrl Url)) (m : option text) : text :=
  match kind with
  | None => marker_rest m
  | Some (VU_VersionSpecifier l) => join (bs ",") (map spec_show l) ++ marker_tail m
  | Some (VU_Url url) => 64 :: 32 :: url_show url ++ marker_tail m
  end.

Lemma join_specs_head l : l <> [] -> exists d x, join (bs ",") (map spec_show l) = d :: x /\ operator_char d = true.
Proof.
  destruct l as [|sp l]; [done|]. intros _. assert (exists d x, spec_show sp = d :: x /\ operator_char d = true) as (d&x&E&Hd).
  { rewrite spec_show_split. destruct (operator sp); eexists _, _; (split; [reflexivity|done]). }
  destruct l as [|sp' l]; cbn [map join]; rewrite E; cbn [app]; eauto.
Qed.

Lemma operator_char_cases d : operator_char d = true -> is_whitespace d = false /\ d <> 91 /\ d <> 64 /\ d <> 40 /\ name_part d = false.
Proof. unfold operator_char. rewrite !orb_true_iff, !N.eqb_eq. intros Hd. by destruct_or? Hd; subst d. Qed.

Lemma after_space_kind kind m : kind_ok kind -> after_space (version_or_url_show false kind ++ marker_tail m) = kind_rest kind m /\
  starts_without is_whitespace (kind_rest kind m) /\ head (kind_rest kind m) <> Some 91 /\ starts_without name_part (version_or_url_show false kind ++ marker_tail m).
Proof.
  unfold after_space. destruct kind as [[l|url]|]; cbn [version_or_url_show kind_rest].
  - intros (Hne&_). destruct (join_specs_head l Hne) as (d&x&->&Hd). destruct (operator_char_cases d Hd) as (Hw&H91&_&_&Hn). cbn. rewrite Hw. split_and!; [done|done|congruence|done].
  - done.
  - intros _. by destruct m.
Qed.

Lemma url_kind_read wd start url m c w : url_text_ok (url_show url) -> cursor_ok c -> chars c = kind_rest (Some (VU_Url url)) m ->
  exists c' start', chars c' = marker_rest m /\ goes c 0 c' /\ (parse_requirement_kind env_var project_root start wd : P _) c w =
    match url_parse (url_show url) wd with
    | Ok url => Done (Some (VU_Url url)) c' w
    | Err e => Failed (mkError _ (PS_UrlError e) start' (byte_len (url_show url)) (input c)) w
    end.
Proof.
  intros Hu Hc Ec. unfold parse_requirement_kind, pbind at 1, look at 1, peek_char. rewrite Ec. cbn [kind_rest] in *. cbn [head]. change (64 =? 64) with true. destruct (next c) as [o c1] eqn:E1.
  assert (o = Some (pos c, 64)) as -> by (unfold next in E1; rewrite Ec in E1; by injection E1).
  destruct (next_some c _ _ _ Hc E1) as (Hg1&_&Ec'). rewrite Ec in Ec'. injection Ec' as Ec1. unfold pbind at 1, advance_with at 1. rewrite E1.
  pose proof (eat_whitespace_goes c1 (proj1 Hg1)) as Hg2. pose proof (eat_whitespace_chars c1) as Ec2. rewrite <- Ec1 in Ec2.
  assert (chars (eat_whitespace c1) = url_show url ++ marker_tail m) as Ec3.
  { rewrite Ec2. change (32 :: ?x) with ([32] ++ x). rewrite (span_run is_whitespace [32]); [done|by repeat constructor|]. destruct Hu as (Hne&Hw&_).
    destruct (url_show url) as [|d t]; [done|]. by apply Forall_cons in Hw as [Hd _]. }
  destruct (take_url_text _ _ m (proj1 Hg2) Ec3 Hu) as (c4&E4&Ec4&Hg4&Es). pose proof (goes_trans _ _ _ _ _ Hg1 (goes_trans _ _ _ _ _ Hg2 Hg4)) as Hg.
  exists c4, (pos (eat_whitespace c1)). split_and!; [done|eapply goes_weak; [exact Hg|lia]|].
  unfold parse_url, pbind, p_eat_whitespace, advance_with, p_slice, unwrap. rewrite E4. cbn [fst snd]. rewrite Es. destruct Hu as (Hne&_). destruct (url_show url) as [|d t] eqn:Eu; [done|].
  destruct (url_parse _ _); [done|]. unfold fail. by rewrite (proj1 (proj2 Hg)).
Qed.

Lemma kind_read wd start kind m c w : kind_ok kind -> cursor_ok c -> chars c = kind_rest kind m ->
  match reread wd kind with
  | Ok kind => exists c', (parse_requirement_kind env_var project_root start wd : P _) c w = Done kind c' w /\ chars c' = marker_rest m /\ goes c 0 c'
  | Err e => exists err, (parse_requirement_kind env_var project_root start wd : P _) c w = Failed err w /\ message err = PS_UrlError e
  end.
Proof.
  intros Hk Hc Ec. destruct kind as [[l|url]|]; cbn [reread].
  - cbn [kind_rest] in Ec. unfold parse_requirement_kind, pbind at 1, look at 1, peek_char. rewrite Ec. destruct Hk as (Hne&Hl&Hs). destruct (join_specs_head l Hne) as (d&x&Ed&Hd). destruct (operator_char_cases d Hd) as (_&_&H64&H40&_).
    rewrite Ed. cbn [app head]. rewrite (proj2 (N.eqb_neq _ _) H64), (proj2 (N.eqb_neq _ _) H40), Hd. destruct l as [|sp l]; [done|].
    unfold parse_version_specifier, pbind at 1 2, look at 1 2.
    destruct (specifier_loop_shows (pos c) w l sp (Datatypes.S (length (chars c))) [] c (match m with Some _ => bs " " | None => [] end) (marker_rest m)) as (c'&E&Ec'&Hg);
      [done|done|rewrite Ec; by destruct m|destruct m; split; [by repeat constructor|by right; eexists|done|by left]|lia|].
    exists c'. rewrite (pbind_done _ _ _ _ _ _ _ E). cbn [app]. unfold pret, from_unsorted. rewrite sort_id by done. done.
  - destruct (url_kind_read wd start url m c w Hk Hc Ec) as (c'&start'&Ec'&Hg&E). destruct (url_parse (url_show url) wd); [by exists c'|by eexists].
  - cbn [kind_rest] in Ec. exists c. split_and!; [|done|by apply goes_refl]. unfold parse_requirement_kind, pbind, look, peek_char. rewrite Ec. by destruct m.
Qed.
End parts.

(** ** Requirements *)

(** A name without dots is not the name of an archive. *)
Lemma split_slashes_plain t : Forall (fun c => c <> 46 /\ c <> 47) t -> split_slashes t = [t].
Proof. induction 1 as [|c t [_ Hc] _ IH]; [done|]. cbn. by rewrite IH, (proj2 (N.eqb_neq _ _) Hc). Qed.

Lemma proper_not_archive n : proper_name n -> looks_like_archive n = false.
Proof.
  intros Hp. destruct (proper_name_shape n Hp) as (d&x&l&->&_&_&_&_&Hn). unfold looks_like_archive, extension, file_name.
  rewrite split_slashes_plain by done. apply Forall_cons in Hn as Hd. destruct Hd as [[Hd _] _]. cbn [List.filter]. rewrite (bool_decide_eq_false_2 (d :: x = [])) by done.
  assert (d :: x <> bs "." /\ d :: x <> bs "..") as [H1 H2] by (split; intros [= -> _]; done). rewrite (bool_decide_eq_false_2 _ H1). cbn. rewrite (bool_decide_eq_false_2 _ H2). cbn.
  unfold rsplit_file_at_dot. rewrite (bool_decide_eq_false_2 _ H2), rsplit_once_none; [done|]. apply (Forall_impl _ _ _ Hn). naive_solver.
Qed.

Section requirements.
Context {Url U Path S : Type} {A : Alphabetic} {L : AlphabeticLaws} `{Pep508Url Url U Path} `{ScannerLaws S}.
Context (env_var : text -> option text) (project_root : text).
Abbreviation P := (parser (World unit) U).

(** A requirement and the disjunctive normal form of its marker. *)
Definition printable_requirement (r : Requirement Url Path formula) (dnf : option (list clause)) : Prop :=
  proper_name (package_name (req_name r)) /\ Forall (fun e => proper_name (extra_name e)) (req_extras r) /\
  kind_ok (version_or_url r) /\ req_origin r = None /\
  match dnf with
  | None => req_marker r = F_True
  | Some dnf => dnf <> [] /\ Forall printable_clause dnf /\ req_marker r = dnf_formula dnf
  end.

Lemma quoted_marker_read dnf c w : match dnf with Some dnf => dnf <> [] /\ Forall printable_clause dnf | None => True end ->
  cursor_ok c -> chars c = marker_rest (format_dnf <$> dnf) ->
  exists c', (parse_quoted_marker : P _) c w = Done (dnf_formula <$> dnf) c' w /\ chars c' = [] /\ goes c 0 c'.
Proof.
  intros Hd Hc Ec. unfold parse_quoted_marker, pbind at 1, p_eat_whitespace. pose proof (eat_whitespace_goes c Hc) as Hg. pose proof (eat_whitespace_chars c) as Ec1.
  unfold pbind at 1, look at 1, peek_char. destruct dnf as [dnf|]; cbn [fmap option_fmap option_map marker_rest] in *; rewrite Ec in Ec1; cbn in Ec1; rewrite Ec1; cbn [head].
  - destruct Hd as [Hne Hd]. rewrite bool_decide_eq_true_2 by done. destruct (next (eat_whitespace c)) as [o c1] eqn:E1.
    destruct o as [[i d]|]; [|unfold next in E1; by rewrite Ec1 in E1]. destruct (next_some _ _ _ _ (proj1 Hg) E1) as (Hg1&_&Ec2). rewrite Ec1 in Ec2. injection Ec2 as _ Ec2.
    unfold pbind at 1, advance_with at 1. rewrite E1.
    destruct (parse_markers_cursor_dnf (U := U) dnf [32] c1 w Hne Hd) as (c2&E2&Ec3&Hg2); [by repeat constructor|apply Hg1|done|].
    exists c2. split_and!; [done|done|]. eapply goes_weak; [exact (goes_trans _ _ _ _ _ Hg (goes_trans _ _ _ _ _ Hg1 Hg2))|lia].
  - rewrite bool_decide_eq_false_2 by done. by exists (eat_whitespace c).
Qed.

Lemma extras_read es kind m c w : Forall (fun e => proper_name (extra_name e)) es -> kind_ok kind -> cursor_ok c ->
  chars c = extras_show es ++ version_or_url_show false kind ++ marker_tail m ->
  exists c1, (parse_extras_cursor : P _) (eat_whitespace c) w = Done es c1 w /\ goes c 0 c1 /\ chars (eat_whitespace c1) = kind_rest kind m.
Proof.
  intros He Hk Hc Ec. destruct (after_space_kind kind m Hk) as (Ea&Hw&Hh&_). pose proof (eat_whitespace_goes c Hc) as Hg.
  assert (exists r, chars (eat_whitespace c) = extras_show es ++ r /\ after_space r = kind_rest kind m /\ head r <> Some 91) as (r&Er&Ear&Hr).
  { pose proof (eat_whitespace_chars c) as Ec1. rewrite Ec in Ec1. destruct es as [|e es].
    - exists (kind_rest kind m). rewrite Ec1. split_and!; [exact Ea| |done]. rewrite <- Ea. apply after_space_idem.
    - exists (version_or_url_show false kind ++ marker_tail m). rewrite Ec1, extras_show_commas. split_and!; [done|done|].
      intros Hx. apply Hh. rewrite <- Ea. destruct (version_or_url_show false kind ++ marker_tail m) as [|d t]; [done|]. injection Hx as ->. done. }
  destruct (reads_extras (U := U) es He (eat_whitespace c) w r (proj1 Hg) Er Hr) as (c1&E1&Ec1&Hg1). exists c1. split_and!; [done|by apply (goes_trans c 0 (eat_whitespace c) 0)|].
  by rewrite eat_whitespace_chars, Ec1.
Qed.

(** C23: printed requirements read back. The parser reads the text of a requirement (name,
    extras, version specifiers or URL, marker) to its end, without warnings, whatever the
    environment, and returns the same name, extras, specifiers and marker; of a URL, what
    the parser of URLs answers for exactly the text that was printed for it, or its
    error. The requirement is one that the parser can have made ([printable_requirement]):
    its names are normalized and not empty, its specifiers are as
    parsed and in order, the text of its URL has no whitespace and does not end in a
    semicolon or a hash, and the expressions of its marker are [printable_clause]s. *)
Theorem requirement_round_trip (working_dir : option Path) (r : Requirement Url Path formula) (dnf : option (list clause)) (w : World unit)
    (Hr : printable_requirement r dnf) :
  match reread working_dir (version_or_url r) with
  | Ok kind => exists c, Requirement_parse (S := S) env_var project_root (requirement_show false r (format_dnf <$> dnf)) working_dir w
      = @Done _ (Pep508Error U) _ (mkRequirement _ _ _ (req_name r) (req_extras r) kind (req_marker r) None) c w /\ chars c = []
  | Err e => exists err, Requirement_parse (T := formula) (S := S) env_var project_root (requirement_show false r (format_dnf <$> dnf)) working_dir w
      = @Failed _ (Pep508Error U) (Requirement Url Path formula) err w /\ message err = PS_UrlError e
  end.
Proof.
  destruct Hr as (Hn&He&Hk&Ho&Hd). set (m := format_dnf <$> dnf). set (t := requirement_show false r m). set (q := Requirement_parse _ _ _ _ _). assert (q = q) as Eq by done. unfold q at 2 in Eq. clearbody q.
  assert (chars (Cursor_new t) = package_name (req_name r) ++ extras_show (req_extras r) ++ version_or_url_show false (version_or_url r) ++ marker_tail m) as E0 by done.
  pose proof (Cursor_new_ok t) as Hc0. destruct (proper_name_shape _ Hn) as (d&x&l&En&Hd0&_). destruct (alnum_not d Hd0) as (Hw&_).
  assert (eat_whitespace (Cursor_new t) = Cursor_new t) as Ew.
  { assert (exists y, t = d :: y) as [y ->] by (unfold t, requirement_show; rewrite En; cbn; eauto). unfold eat_whitespace, take_while. cbn. by rewrite Hw. }
  unfold Requirement_parse, parse_pep508_requirement, pbind at 1 2, look at 1, p_eat_whitespace at 1 in Eq. rewrite Ew in Eq. unfold pbind at 1, look at 1 in Eq.
  destruct (reads_name (I := unit) (U := U) env_var project_root _ Hn (Cursor_new t) w _ Hc0 E0) as (c1&E1&Ec1&Hg1).
  { destruct (after_space_kind (version_or_url r) m Hk) as (_&_&_&Hs). destruct (req_extras r); done. }
  rewrite (pbind_done _ _ _ _ _ _ _ E1) in Eq. unfold pbind at 1, look at 1 in Eq. unfold pbind at 1, p_eat_whitespace at 1 in Eq.
  destruct (extras_read (req_extras r) (version_or_url r) m c1 w He Hk (proj1 Hg1) Ec1) as (c2&E2&Hg2&Ec2).
  rewrite (pbind_done _ _ _ _ _ _ _ E2) in Eq. unfold pbind at 1, p_eat_whitespace at 1 in Eq. pose proof (eat_whitespace_goes c2 (proj1 Hg2)) as Hg3.
  pose proof (kind_read (I := unit) (S := S) env_var project_root working_dir 0 (version_or_url r) m (eat_whitespace c2) w Hk (proj1 Hg3) Ec2) as Hkind.
  destruct (reread working_dir (version_or_url r)) as [kind|e]; [|destruct Hkind as (err&E4&Em); exists err; split; [|done]; by rewrite Eq, (pbind_failed _ _ _ _ _ _ E4)].
  destruct Hkind as (c4&E4&Ec4&Hg4). rewrite (pbind_done _ _ _ _ _ _ _ E4) in Eq. pose proof (goes_trans _ _ _ _ _ Hg1 (goes_trans _ _ _ _ _ Hg2 (goes_trans _ _ _ _ _ Hg3 Hg4))) as Hg.
  assert ((reject_archive 0 0 (pos c1) kind : P _) c4 w = Done tt c4 w) as E5.
  { unfold reject_archive. destruct kind; [done|]. unfold pbind, p_slice, unwrap. unfold slice. rewrite (proj1 (proj2 Hg)).
    pose proof (slice_between _ _ c1 (package_name (req_name r)) Hc0 Hg1) as Hs. rewrite E0, Ec1 in Hs. specialize (Hs eq_refl).
    unfold slice in Hs. rewrite (proj1 (proj2 Hg1)) in Hs. change (pos (Cursor_new t)) with 0 in Hs. rewrite Hs. by rewrite proper_not_archive. }
  rewrite (pbind_done _ _ _ _ _ _ _ E5) in Eq.
  destruct (quoted_marker_read dnf c4 w) as (c6&E6&Ec6&Hg6); [by destruct dnf; naive_solver|apply Hg|done|]. rewrite (pbind_done _ _ _ _ _ _ _ E6) in Eq.
  exists (eat_whitespace c6). assert (chars (eat_whitespace c6) = []) as E7 by (by rewrite eat_whitespace_chars, Ec6). split; [|done]. rewrite Eq.
  unfold pbind, expect_end, pbind, p_eat_whitespace, advance_with, next. rewrite E7. unfold pret. f_equal.
  destruct r as [n es k mk o]. cbn in *. destruct n. f_equal. destruct dnf; cbn; naive_solver.
Qed.
End requirements.

(** URLs as they are written. *)
Definition text_url : Pep508Url text unit unit := {|
  url_parse := fun t _ => Ok t;
  url_show := fun t => t;
  url_show_with_credentials := fun t => t;
  url_cache_key := fun t => cache_key (Str (utf8 t))
|}.

Definition sample_requirement : Requirement text unit formula :=
  mkRequirement _ _ _ {| package_name := bs "requests" |} [{| extra_name := bs "security" |}; {| extra_name := bs "tests" |}]
    (Some (VU_Url (bs "https://example.org/requests.whl#sha256=1"))) (dnf_formula sample_dnf) None.

Lemma requirement_round_trip_witness :
  exists c, Requirement_parse (T := formula) (S := text) (H0 := ascii_alphabetic) (H1 := text_url) (fun _ => None) []
    (requirement_show (H := text_url) false sample_requirement (Some (format_dnf sample_dnf))) None (mkWorld _ [] tt) = @Done _ (Pep508Error unit) _ sample_requirement c (mkWorld _ [] tt)
    /\ chars c = [].
Proof.
  apply (@requirement_round_trip text unit unit text ascii_alphabetic ascii_alphabetic_laws text_url text_scanner text_scanner_laws (fun _ => None) [] None sample_requirement (Some sample_dnf)).
  unfold printable_requirement, proper_name, kind_ok, url_text_ok, printable_clause. cbn -[bs normalized].
  repeat first [apply Forall_nil_2 | apply Forall_cons_2 | split]; try discriminate; try reflexivity; by right.
Defined.
