(* ===== verification/RequirementSafe.v ===== *)
(** * The requirement parser is safe

    On ASCII input whose extras do not end in punctuation and whose marker expressions can
    be built, the parser of requirements never panics, terminates, and reports errors that
    can be displayed. *)

From stdpp Require Import base numbers list strings.
From S2P Require Import Prelude VersionTypes VersionSmall Version VersionFacts VersionParser ParserFacts ParserSafe Specifier SpecifierFacts SpecifierParse Names NamesTheorems CacheKey Text RangeSet MarkerTypes MarkerAlgebra Cursor MarkerParse MarkerParseFacts MarkerRoundTrip UrlText Requirement RequirementRoundTrip.

(** ** Spans of ASCII texts *)

Lemma split_at_ascii t n : ascii t -> n <= byte_len t -> exists a b, split_at n t = Some (a, b) /\ t = a ++ b /\ byte_len a = n.
Proof.
  intros Ha Hn. exists (take (N.to_nat n) t), (drop (N.to_nat n) t).
  rewrite byte_len_ascii in Hn by done. assert (byte_len (take (N.to_nat n) t) = n) as El.
  { rewrite byte_len_ascii by (by apply Forall_take). rewrite length_take. lia. }
  split_and!; [|by rewrite take_drop|done]. rewrite <- El at 1. rewrite <- (take_drop (N.to_nat n) t) at 2. apply split_at_app.
Qed.

(** A span inside an ASCII text can be displayed, and so can one at its end. *)
Definition fits (t : text) (start len : N) : Prop := start + len <= byte_len t \/ (start = byte_len t /\ len <= 1).

Lemma shown_fits {U} (m : Pep508ErrorSource U) t start len : ascii t -> fits t start len -> is_Some (underlined (mkError _ m start len t)).
Proof.
  intros Ha Hf. assert (start <= byte_len t) as Hs by (destruct Hf; lia). unfold underlined. cbn [err_start err_len err_input].
  destruct (split_at_ascii t start Ha Hs) as (a&b&->&Et&El). cbn. destruct (N.eqb_spec start (byte_len t)) as [E|Hne].
  - assert ((len <=? 1) = true) as -> by (apply N.leb_le; destruct Hf; lia). done.
  - destruct Hf as [Hf|[? _]]; [|done]. rewrite Et in Ha. apply Forall_app in Ha as [_ Hb]. rewrite Et, byte_len_app in Hf.
    destruct (split_at_ascii b len Hb) as (x&y&_&Eb&Ex); [lia|]. rewrite Et, Eb, <- El, <- Ex. rewrite byte_slice_app. done.
Qed.

Lemma pos_fits c : cursor_ok c -> pos c + byte_len (chars c) = byte_len (input c).
Proof. intros (before&->&->). by rewrite byte_len_app. Qed.

Lemma goes_pos c n c' : cursor_ok c -> goes c n c' -> pos c <= pos c'.
Proof. intros Hc Hg. destruct (goes_between c n c' Hc Hg) as (x&_&->). lia. Qed.

Section safety.
Context {I T Url U Path S : Type} `{MarkerBuilderLaws I T} `{Alphabetic} `{Pep508Url Url U Path} `{Scanner S}.
Context (env_var : text -> option text) (project_root : text).
Abbreviation P := (parser (World I) U).
Implicit Types (c : Cursor) (w : World I).

Lemma safe_fail_fits {X} (m : Pep508ErrorSource U) start len c w : ascii (input c) -> fits (input c) start len -> safe (A := X) (fail m start len) c w.
Proof. intros Ha Hf. apply safe_fail. by apply shown_fits. Qed.

(** ** Names *)

Lemma unnamed_total c : cursor_ok c -> exists b c', looks_like_unnamed_requirement env_var project_root c = Some (b, c') /\ goes c 0 c'.
Proof.
  intros Hc. unfold looks_like_unnamed_requirement. pose proof (take_while_spec c (fun x => negb (is_whitespace x)) Hc) as Ht.
  destruct (take_while c _) as [[s l] c']. destruct Ht as (_&_&_&Hg&_&->). cbn. eexists _, c'. split; [reflexivity|]. eapply goes_weak; [exact Hg|lia].
Qed.

Lemma safe_unnamed_or {X} start (other : P X) c w : cursor_ok c -> ascii (input c) -> start <= byte_len (input c) -> safe other c w -> safe (unnamed_or env_var project_root start other) c w.
Proof.
  intros Hc Ha Hs Ho. unfold safe, returns, runs, unnamed_or, Cursor_at. intros Hw. destruct (split_at_ascii _ _ Ha Hs) as (a&b&->&Ei&El). cbn.
  set (clone := {| input := input c; chars := b; pos := start |}). assert (cursor_ok clone) as Hcl by (by exists a).
  destruct (unnamed_total clone Hcl) as ([]&c'&->&Hg); [|by apply Ho]. cbn [fail]. rewrite (proj1 (proj2 Hg)). split; [split; [done|]|done]. apply shown_fits; [done|]. left.
  pose proof (pos_fits c' (proj1 Hg)) as Hp. rewrite (proj1 (proj2 Hg)) in Hp. pose proof (goes_pos _ _ _ Hcl Hg). cbn in *. lia.
Qed.

Lemma name_part_spec (c : N) : name_part c = name_char c.
Proof. unfold name_part, name_char, is_punctuation. destruct (is_ascii_alphanumeric c), (c =? 46), (c =? 45), (c =? 95); done. Qed.

Lemma alnum_not_punctuation (c : N) : is_ascii_alphanumeric c = true -> is_punctuation c = false.
Proof.
  unfold is_ascii_alphanumeric, is_ascii_alphabetic, is_ascii_lowercase, is_ascii_uppercase, is_ascii_digit, is_punctuation.
  rewrite !orb_true_iff, !andb_true_iff, !N.leb_le, !orb_false_iff, !N.eqb_neq. lia.
Qed.

(** A name that does not end in punctuation is accepted. *)
Lemma name_validates d x : is_ascii_alphanumeric d = true -> Forall (fun y => name_part y = true) x -> ends_in_punctuation (last (d :: x)) = false ->
  exists n, validate_and_normalize_ref (utf8 (d :: x)) = Ok n.
Proof.
  intros Hd Hx Hl. assert (forallb name_char (d :: x) = true) as Hn.
  { cbn [forallb]. unfold name_char at 1. rewrite Hd. cbn. apply forallb_forall. intros c Hin. rewrite <- name_part_spec. revert c Hin. intros c Hin%list_elem_of_In. by rewrite Forall_forall in Hx; apply Hx. }
  assert (utf8 (d :: x) = d :: x) as ->.
  { clear -Hn. revert Hn. generalize (d :: x). intros l. induction l as [|c l IH]; [done|]. cbn [forallb]. intros [Hc Hl]%andb_true_iff.
    change (utf8 (c :: l)) with (utf8_char c ++ utf8 l). by rewrite utf8_ascii, IH. }
  exists (reference_normal (d :: x)). rewrite validate_normalize, normalize_spec. unfold valid_name. rewrite Hn, Hl. cbn [head ends_in_punctuation]. by rewrite alnum_not_punctuation.
Qed.

Lemma safe_name c w : cursor_ok c -> ascii (input c) -> safe (U := U) (parse_name env_var project_root) c w.
Proof.
  intros Hc Ha. unfold parse_name. step. intros start c' w' [= <- <- <-] _. step. intros o c1 w1 E1 _.
  destruct (next_cases _ _ _ _ _ Hc E1) as [(->&->&->&En)|(d&->&->&Ec&Hg1)].
  { apply safe_fail_fits; [done|]. unfold fits. lia. }
  pose proof (pos_fits c Hc) as Hp. rewrite Ec in Hp. cbn [byte_len] in Hp. assert (ascii (input c1)) as Ha1 by (by rewrite (proj1 (proj2 Hg1))).
  destruct (is_ascii_alphanumeric d) eqn:Hd; cbn [negb].
  2: { apply safe_unnamed_or; [cursor|done|rewrite (proj1 (proj2 Hg1)); lia|]. apply safe_fail_fits; [done|]. rewrite (proj1 (proj2 Hg1)). left. lia. }
  step. unfold advance_with. intros taken c2 w2. pose proof (take_while_spec c1 name_part (proj1 Hg1)) as Ht. destruct (take_while c1 name_part) as [[s l] c2'].
  intros [= <- -> <-] _. destruct Ht as (_&_&Ec2&Hg2&_). set (x := fst (span name_part (chars c1))) in *. assert (chars c = (d :: x) ++ chars c2) as Ex by (rewrite Ec, Ec2; unfold x; cbn; by rewrite span_eq).
  pose proof (goes_trans _ _ _ _ _ Hg1 Hg2) as Hg. step. intros end_ c2' w2' [= <- <- <-] _. pose proof (slice_between c _ c2 (d :: x) Hc Hg Ex) as Hs.
  step; [apply safe_slice; [cursor|by rewrite Hs]|]. unfold p_slice, unwrap. rewrite Hs. intros name c2' w2' [= <- <- <-] _.
  destruct (last (d :: x)) as [z|] eqn:Ez; [|by apply last_None in Ez]. step. unfold unwrap. intros z' c2' w2' [= <- <- <-] _.
  destruct (is_ascii_alphanumeric z) eqn:Hz; cbn [negb].
  - destruct (name_validates d x Hd (span_all _ _)) as [n En]; [rewrite Ez; by apply alnum_not_punctuation|]. unfold PackageName_from_str. rewrite En. cbn [rmap rbind]. apply safe_ret; cursor.
  - assert (ascii (input c2)) as Ha2 by (by rewrite (proj1 (proj2 Hg))). apply safe_fail_fits; [done|]. left. pose proof (pos_fits c2 (proj1 Hg)). 
    assert (len_utf8 z = 1) as ->; [|pose proof (goes_pos _ _ _ Hc Hg1); pose proof (goes_pos _ _ _ (proj1 Hg1) Hg2)].
    { apply len_utf8_ascii. pose proof (chars_ascii c Hc Ha) as Hac. rewrite Ex in Hac. apply Forall_app in Hac as [Hac _]. rewrite Forall_forall in Hac. apply Hac.
      rewrite last_lookup in Ez. by eapply list_elem_of_lookup_2. }
    destruct (goes_between _ _ _ Hc Hg) as (y&Ey&Epy). rewrite Ex in Ey. apply app_inv_tail in Ey as <-. cbn [byte_len] in Epy. pose proof (len_utf8_pos d). lia.
Qed.

(** ** Extras *)

(** No punctuation comes before a comma, a closing bracket, whitespace or the end. *)
Definition extras_closed (t : text) : Prop := forall a p b, t = a ++ p :: b -> is_punctuation p = true ->
  match b with [] => False | q :: _ => q <> 44 /\ q <> 93 /\ is_whitespace q = false end.

Lemma safe_extra b c w : cursor_ok c -> ascii (input c) -> fits (input c) b 1 -> extras_closed (input c) -> safe (U := U) (parse_extra b) c w.
Proof.
  intros Hc Ha Hb Hx. unfold parse_extra. step. intros [] c1 w1 _ Hg1. step. intros o c2 w2 E2 _.
  assert (input c1 = input c) as Ei1 by cursor. destruct (next_cases _ _ _ _ _ (proj1 Hg1) E2) as [(->&->&->&En)|(d&->&->&Ec&Hg2)].
  { apply safe_fail_fits; rewrite Ei1; done. }
  assert (input c2 = input c) as Ei2 by cursor. pose proof (pos_fits c1 (proj1 Hg1)) as Hp. rewrite Ec, Ei1 in Hp. cbn [byte_len] in Hp.
  destruct (is_ascii_alphanumeric d) eqn:Hd; [|apply safe_fail_fits; rewrite Ei2; [done|left; lia]].
  step. unfold advance_with. intros taken c3 w3. pose proof (take_while_spec c2 name_part (proj1 Hg2)) as Ht. destruct (take_while c2 name_part) as [[s l] c3'].
  intros [= <- -> <-] _. destruct Ht as (_&_&Ec3&Hg3&_&Hs). set (x := fst (span name_part (chars c2))) in *. assert (input c3 = input c) as Ei3 by (rewrite (proj1 (proj2 Hg3)); done).
  step; [apply safe_slice; [cursor|cbn [fst snd]; by rewrite Hs]|]. unfold p_slice, unwrap. cbn [fst snd]. rewrite Hs. intros rest c3' w3' [= <- <- <-] _. step. intros following c3' w3' [= <- <- <-] _.
  assert (match chars c3 with [] => True | q :: _ => negb (q =? 44) && negb (q =? 93) && negb (is_whitespace q) = false end -> exists n, validate_and_normalize_ref (utf8 (d :: x)) = Ok n) as Hv.
  { intros Hq. apply (name_validates d x Hd (span_all _ _)). destruct (last (d :: x)) as [z|] eqn:Ez; [|done]. cbn. apply not_true_iff_false. intros Hz.
    apply last_Some in Ez as [y Ey]. destruct (proj1 Hg1) as (before&Eb&_). assert (input c = (before ++ y) ++ z :: chars c3) as Ei.
    { assert (d :: chars c2 = (d :: x) ++ chars c3) as Er by (rewrite Ec3; unfold x; cbn; by rewrite span_eq). by rewrite <- Ei1, Eb, Ec, Er, Ey, <- !app_assoc. }
    pose proof (Hx _ _ _ Ei Hz) as Hc3. destruct (chars c3) as [|q r]; [done|]. destruct Hc3 as (H44&H93&Hw). by rewrite (proj2 (N.eqb_neq _ _) H44), (proj2 (N.eqb_neq _ _) H93), Hw in Hq. }
  unfold peek. destruct (chars c3) as [|q r] eqn:Eq; cbn [head fmap option_fmap option_map].
  - destruct (Hv Logic.I) as [n En]. step. intros [] c4 w4 _ Hg4. unfold ExtraName_from_str. rewrite En. cbn [rmap rbind]. apply safe_ret; cursor.
  - destruct (negb (q =? 44) && negb (q =? 93) && negb (is_whitespace q)) eqn:Hq.
    + apply safe_fail_fits; rewrite Ei3; [done|]. left. pose proof (pos_fits c3 (proj1 Hg3)) as Hp3. rewrite Eq, Ei3 in Hp3. cbn [byte_len] in Hp3. lia.
    + destruct (Hv eq_refl) as [n En]. step. intros [] c4 w4 _ Hg4. unfold ExtraName_from_str. rewrite En. cbn [rmap rbind]. apply safe_ret; cursor.
Qed.

(** Parsers that only move forward, whatever they return. *)
Definition forward {X} (m : P X) : Prop := forall c w a c' w', cursor_ok c -> m c w = Done a c' w' -> goes c 0 c'.

Lemma forward_bind {X Y} (m : P X) (k : X -> P Y) : forward m -> (forall a, forward (k a)) -> forward (pbind m k).
Proof.
  intros Hm Hk c w a c' w' Hc. unfold pbind. destruct (m c w) as [x c1 w1| |] eqn:E; [|done|done]. intros E'. pose proof (Hm _ _ _ _ _ Hc E) as Hg.
  exact (goes_trans _ _ _ _ _ Hg (Hk _ _ _ _ _ _ (proj1 Hg) E')).
Qed.

Lemma forward_safe {X} (m : P X) : (forall c w, cursor_ok c -> safe (H := any_worlds) m c w) -> forward m.
Proof. intros Hm c w a c' w' Hc E. specialize (Hm c w Hc Logic.I). unfold runs in Hm. rewrite E in Hm. apply Hm. Qed.

Lemma forward_unwrap {X} (o : option X) : forward (unwrap o).
Proof. intros c w a c' w' Hc. destruct o; [|done]. intros [= <- <- <-]. by apply goes_refl. Qed.

Lemma forward_slice s l : forward (p_slice s l).
Proof. intros c w a c' w' Hc. unfold p_slice. by apply forward_unwrap. Qed.

Lemma forward_fail {X} m s l : forward (fail (A := X) m s l).
Proof. done. Qed.

Ltac forwards :=
  repeat first
    [ apply forward_bind; [|intros ?] | apply forward_unwrap | apply forward_slice | apply forward_fail
    | solve [apply forward_safe; intros; (apply safe_look || apply safe_whitespace || apply safe_next || apply safe_ret || apply safe_take); assumption]
    | case_match ].

Lemma extra_consumes b c w e c' w' : cursor_ok c -> (parse_extra b : P _) c w = Done e c' w' -> goes c 1 c'.
Proof.
  intros Hc. unfold parse_extra, pbind at 1, p_eat_whitespace. pose proof (eat_whitespace_goes c Hc) as Hg1. unfold pbind at 1, advance_with at 1.
  destruct (next (eat_whitespace c)) as [[[i d]|] c2] eqn:E2; [|done]. destruct (next_some _ _ _ _ (proj1 Hg1) E2) as (Hg2&_&Ec).
  destruct (is_ascii_alphanumeric d); [|done]. set (m := pbind _ _). assert (forward m) as Hm by (unfold m; forwards).
  intros E. eapply goes_weak; [exact (goes_trans _ _ _ _ _ Hg1 (goes_trans _ _ _ _ _ Hg2 (Hm _ _ _ _ _ (proj1 Hg2) E)))|lia].
Qed.

Lemma safe_extras_loop b : forall fuel first acc c w, cursor_ok c -> ascii (input c) -> fits (input c) b 1 -> extras_closed (input c) -> (length (chars c) < fuel)%nat ->
  safe (U := U) (extras_loop fuel b first acc) c w.
Proof.
  assert (forall c q r, cursor_ok c -> chars c = q :: r -> fits (input c) (pos c) 1) as Hfit.
  { intros c q r Hc Ec. left. pose proof (pos_fits c Hc) as Hp. rewrite Ec in Hp. cbn [byte_len] in Hp. pose proof (len_utf8_pos q). lia. }
  induction fuel as [|fuel IH]; intros first acc c w Hc Ha Hb Hx Hf; [lia|]. cbn [extras_loop].
  assert (forall c1 w1, goes c 0 c1 -> safe (U := U) (let* extra := parse_extra b in extras_loop fuel b false (acc ++ [extra])) c1 w1) as Hrest.
  { intros c1 w1 Hg1. pose proof (proj1 (proj2 Hg1)) as Ei. apply safe_bind; [apply safe_extra; rewrite ?Ei; done || apply Hg1|]. intros e c2 w2 E2 _.
    pose proof (extra_consumes b c1 w1 e c2 w2 (proj1 Hg1) E2) as Hg2. pose proof (goes_trans _ _ _ _ _ Hg1 Hg2) as Hg. pose proof (proj1 (proj2 Hg)) as Ei2.
    pose proof (proj2 (proj2 Hg)). apply IH; rewrite ?Ei2; try done; [apply Hg|lia]. }
  step. intros following c' w' [= <- <- <-] _. unfold peek. destruct (chars c) as [|q r] eqn:Eq; cbn [head fmap option_fmap option_map]; [apply Hrest; by apply goes_refl|].
  destruct (q =? 93); [step; intros; apply safe_ret; cursor|]. destruct ((q =? 44) && first); [apply safe_fail_fits; [done|by eapply Hfit]|].
  destruct (negb (q =? 44) && negb first); [apply safe_fail_fits; [done|by eapply Hfit]|].
  apply safe_bind; [destruct (q =? 44); [step; intros; apply safe_ret; cursor|by apply safe_ret]|]. intros [] c1 w1 _ Hg1. by apply Hrest.
Qed.

Lemma safe_extras c w : cursor_ok c -> ascii (input c) -> (91 ∉ input c) \/ extras_closed (input c) -> safe (U := U) parse_extras_cursor c w.
Proof.
  intros Hc Ha Hx. unfold parse_extras_cursor. apply safe_bind.
  { destruct (eat_char c 91) as [o d] eqn:E. eapply safe_done; [unfold advance_with; by rewrite E|].
    destruct (eat_char_cases c 91 o d Hc E) as [(_&->&_)|(_&_&Hg)]; [by apply goes_refl|eapply goes_weak; [exact Hg|lia]]. }
  unfold advance_with. intros o c1 w1. destruct (eat_char c 91) as [o' d] eqn:E. intros [= -> -> ->] Hg.
  destruct (eat_char_cases c 91 o c1 Hc E) as [(->&->&_)|(->&Ec&Hg1)]; [by apply safe_ret|].
  step. intros [] c2 w2 _ Hg2. step. intros fuel c2' w2' [= <- <- <-] _. pose proof (proj1 (proj2 (goes_trans _ _ _ _ _ Hg1 Hg2))) as Ei.
  apply safe_extras_loop; rewrite ?Ei; [apply Hg2|done| | |lia].
  - left. pose proof (pos_fits c Hc) as Hp. rewrite Ec in Hp. cbn [byte_len] in Hp. change (len_utf8 91) with 1 in Hp. lia.
  - destruct Hx as [Hx|Hx]; [|done]. destruct Hx. destruct Hc as (before&->&_). rewrite Ec. apply elem_of_app. right. apply elem_of_cons. by left.
Qed.

(** ** URLs *)

Lemma url_loop_spec b : forall cs p l depth rest p' l', url_loop b cs p l depth = (rest, p', l') ->
  exists x y, cs = x ++ y ++ rest /\ p' = p + byte_len (x ++ y) /\ l' = l + byte_len x.
Proof.
  induction cs as [|d cs IH]; intros p l depth rest p' l'; cbn [url_loop].
  { intros [= <- <- <-]. exists [], []. cbn. rewrite !N.add_0_r. done. }
  generalize (if b && (d =? 91) then N.min (depth + 1) u32_MAX else if b && (d =? 93) then depth - 1 else depth) as depth'. intros depth'.
  destruct ((d =? 13) || (d =? 10)). { intros [= <- <- <-]. exists [], [d]. cbn. split_and!; [done|lia|lia]. }
  destruct ((depth' =? 0) && is_whitespace d && _). { intros [= <- <- <-]. exists [], [d]. cbn. split_and!; [done|lia|lia]. }
  destruct ((depth' =? 0) && ambiguous_end cs). { intros [= <- <- <-]. exists [d], []. cbn. split_and!; [done|lia|lia]. }
  intros E. apply IH in E as (x&y&->&->&->). exists (d :: x), y. cbn. split_and!; [done|lia|lia].
Qed.

Lemma take_url_spec b c : cursor_ok c -> exists len c' x, take_url b c = ((pos c, len), c') /\ goes c 0 c' /\ slice c' (pos c) len = Some x /\ pos c + len <= byte_len (input c).
Proof.
  intros (before&Ei&Ep). unfold take_url. destruct (url_loop b (chars c) (pos c) 0 0) as [[rest p'] l'] eqn:E. apply url_loop_spec in E as (x&y&Ec&->&->).
  eexists _, _, x. split; [reflexivity|]. rewrite N.add_0_l. rewrite app_assoc in Ec. split_and!.
  - split_and!; [|done|cbn; rewrite Ec, !length_app; lia]. exists (before ++ x ++ y). cbn [input chars pos]. split; [by rewrite Ei, Ec, !app_assoc|]. rewrite Ep. by rewrite !byte_len_app.
  - unfold slice. cbn [input]. rewrite Ei, Ec, Ep, <- app_assoc. apply byte_slice_app.
  - rewrite Ei, Ec, Ep, !byte_len_app. lia.
Qed.

Lemma safe_url wd c w : cursor_ok c -> ascii (input c) -> safe (U := U) (parse_url wd) c w.
Proof.
  intros Hc Ha. unfold parse_url. step. intros [] c1 w1 _ Hg1. destruct (take_url_spec false c1 (proj1 Hg1)) as (len&c2&x&Et&Hg2&Hs&Hl).
  apply safe_bind; unfold advance_with; [by eapply safe_done; [rewrite Et|]|]. rewrite Et. intros taken c2' w2 [= <- <- <-] _.
  pose proof (proj1 (proj2 Hg1)) as Ei1. pose proof (proj1 (proj2 Hg2)) as Ei2. rewrite Ei1 in Hl, Ei2. cbn [fst snd].
  step; [apply safe_slice; [cursor|by rewrite Hs]|]. unfold p_slice, unwrap. rewrite Hs. intros url c2' w2 [= <- <- <-] _.
  assert (forall (m : Pep508ErrorSource U), safe (A := Url) (fail m (pos c1) len) c2 w1) as Hf by (intros m; apply safe_fail_fits; rewrite Ei2; [done|by left]).
  destruct x as [|d x]; [apply Hf|]. destruct (url_parse (d :: x) wd); [apply safe_ret; cursor|apply Hf].
Qed.

(** ** Version specifiers *)

Lemma safe_specifier buffer start end_ c w : cursor_ok c -> ascii (input c) -> start <= end_ -> end_ <= byte_len (input c) ->
  safe (U := U) (parse_specifier (S := S) buffer start end_) c w.
Proof.
  intros Hc Ha Hs He. unfold parse_specifier. pose proof (spec_from_str_inv (S := S) buffer) as Hy. destruct (spec_from_str buffer) as [sp|[e|]]; [by apply safe_ret| |done].
  apply safe_fail_fits; [done|]. left. lia.
Qed.

Lemma comma_next c d r w o c' w' : cursor_ok c -> ascii (input c) -> chars c = d :: r -> advance_with (W := World I) (U := U) next c w = Done o c' w' ->
  goes c 1 c' /\ pos c' = pos c + 1 /\ w' = w /\ o = Some (pos c, d).
Proof.
  intros Hc Ha Ec E. destruct (next_cases _ _ _ _ _ Hc E) as [(_&_&_&En)|(x&->&->&Ec'&Hg)]; [congruence|]. rewrite Ec in Ec'. injection Ec' as <- ->.
  split_and!; [done| |done|done]. destruct (goes_between _ _ _ Hc Hg) as (y&Ey&->). rewrite Ec in Ey. change (d :: chars c') with ([d] ++ chars c') in Ey. apply app_inv_tail in Ey as <-.
  pose proof (chars_ascii c Hc Ha) as Hac. rewrite Ec in Hac. apply Forall_cons in Hac as [Hd _]. cbn [byte_len]. rewrite (len_utf8_ascii _ Hd). lia.
Qed.

Lemma safe_specifier_loop : forall fuel start specs buffer c w, cursor_ok c -> ascii (input c) -> start <= pos c -> (length (chars c) < fuel)%nat ->
  safe (U := U) (specifier_loop (S := S) fuel start specs buffer) c w.
Proof.
  induction fuel as [|fuel IH]; intros start specs buffer c w Hc Ha Hs Hf; [lia|]. cbn [specifier_loop]. pose proof (pos_fits c Hc) as Hp.
  step. intros following c' w' [= <- <- <-] _. unfold peek. destruct (chars c) as [|q r] eqn:Eq; cbn [head fmap option_fmap option_map].
  { step. intros end_ c' w' [= <- <- <-] _. apply safe_bind; [apply safe_specifier; [done|done|done|lia]|]. intros sp c1 w1 _ Hg. apply safe_ret; cursor. }
  assert (forall start' specs' buffer' c1 w1 c2 w2 o, goes c 0 c1 -> chars c1 = chars c -> pos c1 = pos c -> advance_with (U := U) next c1 w1 = Done o c2 w2 -> start' <= pos c + 1 -> safe (U := U) (specifier_loop (S := S) fuel start' specs' buffer') c2 w2) as Hstep.
  { intros start' specs' buffer' c1 w1 c2 w2 o Hg1 Ec1 Ep1 E2 Hs'. pose proof (proj1 (proj2 Hg1)) as Ei1. destruct (comma_next c1 q r w1 o c2 w2 (proj1 Hg1)) as (Hg2&Ep2&->&_); [by rewrite Ei1|by rewrite Ec1|done|].
    pose proof (proj2 (proj2 Hg2)). rewrite Ec1, Eq in *. cbn [length] in *. apply IH; [apply Hg2|by rewrite (proj1 (proj2 Hg2)), Ei1|lia|lia]. }
  destruct (q =? 44).
  - apply safe_bind; [apply safe_specifier; [done|done|done|lia]|]. unfold parse_specifier. intros sp c1 w1 E1 Hg1. destruct (spec_from_str buffer) as [sp'|[]]; [|done|done]. injection E1 as <- <- <-.
    step. intros o c2 w2 E2 _. apply (Hstep _ _ _ c w _ _ o); done || lia.
  - destruct (q =? 59).
    + apply safe_bind; [apply safe_specifier; [done|done|done|lia]|]. intros sp c1 w1 _ Hg. apply safe_ret; cursor.
    + step. intros o c2 w2 E2 _. apply (Hstep _ _ _ c w _ _ o); try done; [by apply goes_refl|lia].
Qed.

Lemma safe_parentheses_loop b : forall fuel start specs buffer c w, cursor_ok c -> ascii (input c) -> fits (input c) b 1 -> start <= pos c -> (length (chars c) < fuel)%nat ->
  safe (U := U) (parentheses_loop (S := S) fuel b start specs buffer) c w.
Proof.
  induction fuel as [|fuel IH]; intros start specs buffer c w Hc Ha Hb Hs Hf; [lia|]. cbn [parentheses_loop]. pose proof (pos_fits c Hc) as Hp.
  step. intros o c1 w1 E1 _. destruct (next_cases _ _ _ _ _ Hc E1) as [(->&->&->&_)|(q&->&->&Eq&Hg1)]; [by apply safe_fail_fits|].
  destruct (comma_next c q (chars c1) w _ c1 w Hc Ha Eq E1) as (_&Ep1&_&_). pose proof (proj1 (proj2 Hg1)) as Ei1. rewrite Eq in Hp, Hf. cbn [byte_len length] in *.
  assert (ascii (input c1)) as Ha1 by (by rewrite Ei1).
  assert (forall start' specs' buffer' c2 w2, goes c1 0 c2 -> chars c2 = chars c1 -> pos c2 = pos c1 -> start' <= pos c + 1 -> safe (U := U) (parentheses_loop (S := S) fuel b start' specs' buffer') c2 w2) as Hstep.
  { intros start' specs' buffer' c2 w2 Hg2 Ec2 Ep2 Hs'. pose proof (proj1 (proj2 Hg2)) as Ei2. apply IH; rewrite ?Ei2, ?Ei1, ?Ec2, ?Ep2; [apply Hg2|done|done|lia|lia]. }
  destruct (q =? 44).
  - apply safe_bind; [apply safe_specifier; [cursor|done|lia|rewrite Ei1; lia]|]. unfold parse_specifier. intros sp c2 w2 E2 Hg2. destruct (spec_from_str buffer) as [sp'|[]]; [|done|done]. injection E2 as <- <- <-.
    apply Hstep; done || lia.
  - destruct (q =? 41).
    + apply safe_bind; [apply safe_specifier; [cursor|done|lia|rewrite Ei1; lia]|]. intros sp c2 w2 _ Hg. apply safe_ret; cursor.
    + apply Hstep; [apply goes_refl; cursor|done|done|lia].
Qed.

(** ** Requirements *)

Lemma safe_kind start wd c w : cursor_ok c -> ascii (input c) -> start <= byte_len (input c) ->
  safe (U := U) (parse_requirement_kind (S := S) env_var project_root start wd : P (option (VersionOrUrl Url))) c w.
Proof.
  intros Hc Ha Hs. unfold parse_requirement_kind. step. intros following c' w' [= <- <- <-] _. unfold peek_char. pose proof (pos_fits c Hc) as Hp.
  destruct (chars c) as [|q r] eqn:Eq; cbn [head]; [by apply safe_ret|]. cbn [byte_len] in Hp. pose proof (len_utf8_pos q) as Hq0.
  destruct (q =? 64).
  { step. intros o c1 w1 _ Hg1. apply safe_bind; [apply safe_url; [cursor|by rewrite (proj1 (proj2 Hg1))]|]. intros url c2 w2 _ Hg2. apply safe_ret; cursor. }
  destruct (q =? 40).
  { unfold parse_version_specifier_parentheses. step. intros b c' w' [= <- <- <-] _. step. intros o c1 w1 _ Hg1. step. intros [] c2 w2 _ Hg2. step. intros s c2' w2' [= <- <- <-] _.
    step. intros fuel c2' w2' [= <- <- <-] _. pose proof (proj1 (proj2 (goes_trans _ _ _ _ _ Hg1 Hg2))) as Ei. apply safe_bind.
    - apply safe_parentheses_loop; rewrite ?Ei; [cursor|done|left; lia|lia|lia].
    - intros specs c3 w3 _ Hg3. apply safe_ret; cursor. }
  destruct (operator_char q).
  { unfold parse_version_specifier. step. intros s c' w' [= <- <- <-] _. step. intros fuel c' w' [= <- <- <-] _. apply safe_bind; [apply safe_specifier_loop; [done|done|lia|lia]|].
    intros specs c3 w3 _ Hg3. apply safe_ret; cursor. }
  destruct (q =? 59); [by apply safe_ret|]. step. intros p c' w' [= <- <- <-] _. apply safe_unnamed_or; [done|done|done|]. apply safe_fail_fits; [done|]. left. lia.
Qed.

Lemma safe_quoted_marker c w : cursor_ok c -> ascii (input c) -> Forall can_build (expressions_of (input c)) -> safe (U := U) (parse_quoted_marker (T := T)) c w.
Proof.
  intros Hc Ha Hb. unfold parse_quoted_marker. step. intros [] c1 w1 _ Hg1. step. intros following c1' w1' [= <- <- <-] _.
  case_bool_decide; [|apply safe_ret; cursor]. step. intros o c2 w2 _ Hg2. eapply returns_safe, returns_markers; rewrite ?(proj1 (proj2 Hg2)), ?(proj1 (proj2 Hg1)); [cursor|done|done].
Qed.

Lemma safe_end a b c w : cursor_ok c -> ascii (input c) -> safe (U := U) (expect_end a b) c w.
Proof.
  intros Hc Ha. unfold expect_end. step. intros [] c1 w1 _ Hg1. step. intros o c2 w2 E2 _.
  destruct (next_cases _ _ _ _ _ (proj1 Hg1) E2) as [(->&->&->&_)|(q&->&->&Eq&Hg2)]; [apply safe_ret; cursor|].
  destruct (a && (q =? 35)); [apply safe_ret; cursor|]. pose proof (pos_fits c1 (proj1 Hg1)) as Hp. rewrite Eq in Hp. cbn [byte_len] in Hp.
  pose proof (proj1 (proj2 Hg1)) as Ei1. pose proof (proj1 (proj2 Hg2)) as Ei2. apply safe_fail_fits; rewrite Ei2; [by rewrite Ei1|left; lia].
Qed.

Lemma safe_reject_archive start c0 c1 c w kind : cursor_ok c0 -> goes c0 0 c1 -> goes c1 0 c -> start <= byte_len (input c) -> ascii (input c) ->
  safe (U := U) (reject_archive start (pos c0) (pos c1) (kind : option (VersionOrUrl Url))) c w.
Proof.
  intros Hc0 Hg1 Hg Hs Ha. unfold reject_archive. destruct kind; [apply safe_ret; cursor|].
  destruct (goes_between _ _ _ Hc0 Hg1) as (x&Ex&_). pose proof (slice_between c0 _ c1 x Hc0 Hg1 Ex) as Hsl. unfold slice in Hsl. rewrite <- (proj1 (proj2 Hg)) in Hsl.
  apply safe_bind; [apply safe_slice; [cursor|unfold slice; by rewrite Hsl]|]. unfold p_slice, unwrap, slice. rewrite Hsl. intros name c' w' [= <- <- <-] _.
  destruct (looks_like_archive x); [|apply safe_ret; cursor]. destruct (split_at_ascii _ _ Ha Hs) as (a&b&Es&Ei&El). eapply safe_failed; [unfold Cursor_at; by rewrite Es|]. split; [done|].
  apply shown_fits; [done|]. left. cbn. lia.
Qed.

Lemma safe_requirement wd c w : cursor_ok c -> ascii (input c) -> Forall can_build (expressions_of (input c)) -> (91 ∉ input c) \/ extras_closed (input c) ->
  safe (U := U) (parse_pep508_requirement (S := S) (T := T) env_var project_root wd : P (Requirement Url Path T)) c w.
Proof.
  intros Hc Ha Hb Hx. unfold parse_pep508_requirement. step. intros start c' w' [= <- <- <-] _. step. intros [] c1 w1 _ Hg1. pose proof (proj1 (proj2 Hg1)) as Ei1.
  pose proof (pos_fits c Hc) as Hp. step. intros ns c1' w1' [= <- <- <-] _. apply safe_bind; [apply safe_name; [cursor|by rewrite Ei1]|]. intros name c2 w2 _ Hg2. pose proof (proj1 (proj2 Hg2)) as Ei2.
  step. intros ne c2' w2' [= <- <- <-] _. step. intros [] c3 w3 _ Hg3. pose proof (proj1 (proj2 Hg3)) as Ei3. assert (input c3 = input c) as Ei by congruence.
  apply safe_bind; [apply safe_extras; rewrite ?Ei; [cursor|done|done]|]. intros extras c4 w4 _ Hg4. step. intros [] c5 w5 _ Hg5.
  pose proof (proj1 (proj2 (goes_trans _ _ _ _ _ Hg4 Hg5))) as Ei5. assert (input c5 = input c) as E5 by congruence.
  apply safe_bind; [apply safe_kind; rewrite ?E5; [cursor|done|lia]|]. intros kind c6 w6 _ Hg6. assert (input c6 = input c) as E6 by (rewrite (proj1 (proj2 Hg6)); done).
  apply safe_bind; [apply safe_reject_archive; rewrite ?E6; [cursor|done| |lia|done]|].
  { exact (goes_trans _ _ _ _ _ Hg3 (goes_trans _ _ _ _ _ Hg4 (goes_trans _ _ _ _ _ Hg5 Hg6))). }
  intros [] c7 w7 _ Hg7. assert (input c7 = input c) as E7 by (rewrite (proj1 (proj2 Hg7)); done).
  apply safe_bind; [apply safe_quoted_marker; [cursor|by rewrite E7|by rewrite E7]|]. intros marker c8 w8 _ Hg8. assert (input c8 = input c) as E8 by (rewrite (proj1 (proj2 Hg8)); done).
  apply safe_bind; [apply safe_end; [cursor|by rewrite E8]|]. intros [] c9 w9 _ Hg9. apply safe_ret; cursor.
Qed.
End safety.
