(* ===== verification/RequirementTheorems.v ===== *)
(** * Properties of requirements

    Parsing is safe, cache keys identify requirements up to the star of their
    specifiers, and the defects of the parser of extras. *)

From stdpp Require Import base numbers list strings.
From S2P Require Import Prelude VersionTypes VersionSmall Version VersionFacts VersionParser ParserFacts ParserSafe Specifier SpecifierFacts SpecifierParse RangesTheorems Names NamesTheorems CacheKey Text RangeSet Cuts MarkerTypes MarkerAlgebra MarkerWf MarkerOps MarkerTheorems MarkerExamples MarkerDnf Cursor MarkerParse MarkerParseFacts MarkerParseTheorems MarkerRoundTrip UrlText Requirement Unnamed RequirementRoundTrip RequirementSafe.

(** ** Unnamed requirements *)

Section unnamed.
Context {I T Url U Path : Type} `{MarkerBuilderLaws I T} `{Alphabetic} `{UnnamedRequirementUrl Url U Path}.
Context (env_var : text -> option text) (project_root : text) (normalize_url_path : text -> text).
Abbreviation P := (parser (World I) U).
Implicit Types (c : Cursor) (w : World I).

Lemma split_at_lens n t a b : split_at n t = Some (a, b) -> t = a ++ b /\ byte_len a = n.
Proof.
  revert n a b. induction t as [|d t IH]; intros n a b; cbn [split_at]; (destruct (N.eqb_spec n 0) as [->|_]; [by intros [= <- <-]|]); [done|].
  destruct (N.leb_spec (len_utf8 d) n); [|done]. destruct (split_at (n - len_utf8 d) t) as [[x y]|] eqn:E; [|done]. intros [= <- <-].
  apply IH in E as [-> E]. cbn. split; [done|lia].
Qed.

(** What can be displayed lies in the text. *)
Lemma fits_shown (e : Pep508Error U) t : shown t e -> fits t (err_start e) (err_len e).
Proof.
  intros [Ei Hu]. unfold underlined in Hu. rewrite Ei in Hu. destruct (split_at (err_start e) t) as [[a b]|] eqn:Es; [|by destruct Hu]. cbn in Hu.
  destruct (N.eqb_spec (err_start e) (byte_len t)) as [E|_]; [right; split; [done|]; destruct (N.leb_spec (err_len e) 1); [done|by destruct Hu]|].
  left. unfold byte_slice in Hu. rewrite Es in Hu. cbn in Hu. pose proof (split_at_lens _ _ _ _ Es) as [-> <-]. rewrite byte_len_app.
  destruct (split_at (err_len e) b) as [[x y]|] eqn:Eb; [|by destruct Hu]. apply split_at_lens in Eb as [-> <-]. rewrite byte_len_app. lia.
Qed.

Lemma split_extras_app url u ex : split_extras url = Some (u, ex) -> url = u ++ ex.
Proof.
  unfold split_extras. destruct (rev url) as [|d r] eqn:Er; [done|]. assert (url = rev r ++ [d]) as -> by (rewrite <- (rev_involutive url), Er; done).
  destruct (N.eqb_spec d 93) as [->|Hd]; [|by repeat case_match]. destruct (span _ r) as [inside before] eqn:Es. pose proof (span_eq (fun y => negb (y =? 93) && negb (y =? 91)) r) as E.
  rewrite Es in E. cbn in E. destruct before as [|q before]; [done|]. destruct (N.eqb_spec q 91) as [->|Hq]; [|by repeat case_match].
  intros [= <- <-]. rewrite <- E, rev_app_distr. cbn. by rewrite <- !app_assoc.
Qed.

(** A part of a text whose extras are closed, up to its end. *)
Lemma extras_closed_suffix a b : extras_closed (a ++ b) -> extras_closed b.
Proof. intros Hx x p y ->. apply (Hx (a ++ x)). by rewrite <- app_assoc. Qed.

Lemma extras_closed_prefix a b : extras_closed (a ++ b) -> ends_in_punctuation (last a) = false -> extras_closed a.
Proof.
  intros Hx Hl x p y -> Hp. destruct y as [|q y]; [|exact (Hx x p (q :: y ++ b) ltac:(by rewrite <- app_assoc) Hp)].
  rewrite last_app in Hl. cbn in Hl. congruence.
Qed.

Lemma safe_extras_of_url start url u extras before after c w : cursor_ok c -> ascii (input c) -> (91 ∉ input c) \/ extras_closed (input c) ->
  input c = before ++ url ++ after -> start = byte_len before -> split_extras url = Some (u, extras) -> safe (U := U) (extras_of_url start u (Some extras)) c w.
Proof.
  intros Hc Ha Hx Ei -> Hs. pose proof (split_extras_app url u extras Hs) as Eu. assert (ascii extras) as Hae.
  { rewrite Ei, Eu in Ha. apply Forall_app in Ha as [_ [[_ Ha]%Forall_app _]%Forall_app]. done. }
  assert (exists ex, extras = 91 :: ex ++ [93]) as [ex Ex].
  { revert Hs. unfold split_extras. destruct (rev url) as [|d r]; [done|]. repeat case_match; try done. intros [= <- <-]. eauto. }
  assert ((91 ∉ extras) \/ extras_closed extras) as Hxe.
  { right. destruct Hx as [Hx|Hx]; [destruct Hx; rewrite Ei, Eu, Ex; apply elem_of_app; right; apply elem_of_app; left; apply elem_of_app; right; apply elem_of_cons; by left|].
    apply (extras_closed_prefix extras after); [|rewrite Ex; change (91 :: ex ++ [93]) with ((91 :: ex) ++ [93]); by rewrite last_snoc].
    apply (extras_closed_suffix (before ++ u)). by rewrite Ei, Eu, <- !app_assoc in Hx; rewrite <- app_assoc. }
  pose proof (safe_extras (U := U) (Cursor_new extras) w (Cursor_new_ok _) Hae Hxe) as Hse. unfold extras_of_url, safe, returns, runs in *. intros Hw. specialize (Hse Hw).
  destruct (parse_extras_cursor (Cursor_new extras) w) as [es c' w'|e w'|]; [destruct Hse as (_&Hw'&Hle&_); split_and!; [by apply goes_refl|done..]| |done].
  destruct Hse as [Hse Hw']. split; [split; [done|]|done]. apply shown_fits; [done|]. apply fits_shown in Hse. assert (byte_len (input c) = byte_len before + byte_len u + byte_len extras + byte_len after) as El by (rewrite Ei, Eu, !byte_len_app; lia).
  change (input (Cursor_new extras)) with extras in Hse. unfold fits in *. rewrite El. destruct (N.eq_dec (byte_len after) 0); lia.
Qed.

Lemma safe_from_given start len u m c w : cursor_ok c -> ascii (input c) -> fits (input c) start len -> safe (U := U) (from_given start len u m : P Url) c w.
Proof. intros Hc Ha Hf. unfold from_given. destruct m; [by apply safe_ret|by apply safe_fail_fits]. Qed.

Lemma safe_unnamed wd c w : cursor_ok c -> ascii (input c) -> Forall can_build (expressions_of (input c)) -> (91 ∉ input c) \/ extras_closed (input c) ->
  safe (U := U) (parse_unnamed_requirement env_var project_root normalize_url_path wd : P (UnnamedRequirement Url Path T)) c w.
Proof.
  intros Hc Ha Hb Hx. unfold parse_unnamed_requirement. step. intros [] c1 w1 _ Hg1. apply safe_bind.
  - unfold parse_unnamed_url. step. intros [] c2 w2 _ Hg2. pose proof (proj1 (proj2 (goes_trans _ _ _ _ _ Hg1 Hg2))) as Ei2.
    destruct (take_url_spec true c2 (proj1 Hg2)) as (len&c3&x&Et&Hg3&Hs&Hl). apply safe_bind; unfold advance_with; [by eapply safe_done; [rewrite Et|]|].
    rewrite Et. intros taken c3' w3 [= <- <- <-] _. pose proof (proj1 (proj2 Hg3)) as Ei3. rewrite Ei2 in Hl, Ei3. cbn [fst snd].
    step; [apply safe_slice; [cursor|by rewrite Hs]|]. unfold p_slice, unwrap. rewrite Hs. intros url c3' w3 [= <- <- <-] _.
    assert (ascii (input c3)) as Ha3 by (by rewrite Ei3). assert (fits (input c3) (pos c2) len) as Hf by (rewrite Ei3; by left).
    destruct x as [|d x]; [by apply safe_fail_fits|]. generalize dependent (d :: x). clear x. intros x Hs. unfold preprocess_unnamed_url.
    assert (exists before after, input c3 = before ++ x ++ after /\ pos c2 = byte_len before) as (before&after&Ei&Eb).
    { unfold slice, byte_slice in Hs. destruct (split_at (pos c2) (input c3)) as [[a b]|] eqn:E1; [|done]. cbn in Hs. destruct (split_at len b) as [[y z]|] eqn:E2; [|done]. cbn in Hs. injection Hs as ->.
      apply split_at_lens in E1 as [-> <-], E2 as [-> <-]. by exists a, z. }
    destruct (split_extras x) as [[u extras]|] eqn:Ee.
    + apply safe_bind; [apply (safe_extras_of_url _ x u extras before after); rewrite ?Ei3; first [done|apply Hg3|congruence]|]. intros es c4 w4 _ Hg4. pose proof (proj1 (proj2 Hg4)) as Ei4.
      apply safe_bind; [apply safe_from_given; rewrite ?Ei4; done || apply Hg4|]. intros parsed c5 w5 _ Hg5. apply safe_ret; cursor.
    + cbn [extras_of_url]. step. intros es c4 w4 _ Hg4. pose proof (proj1 (proj2 Hg4)) as Ei4.
      apply safe_bind; [apply safe_from_given; rewrite ?Ei4; done || apply Hg4|]. intros parsed c5 w5 _ Hg5. apply safe_ret; cursor.
  - intros parsed c2 w2 _ Hg2. pose proof (proj1 (proj2 (goes_trans _ _ _ _ _ Hg1 Hg2))) as Ei2. apply safe_bind; [apply safe_quoted_marker; [cursor|by rewrite Ei2|by rewrite Ei2]|].
    intros marker c3 w3 _ Hg3. pose proof (proj1 (proj2 Hg3)) as Ei3. apply safe_bind; [apply safe_end; [cursor|by rewrite Ei3, Ei2]|]. intros [] c4 w4 _ Hg4. apply safe_ret; cursor.
Qed.
End unnamed.

(** C24: parsing requirements is safe. The parsers of named and of unnamed requirements,
    building their markers in a well-formed interner, never panic, terminate within
    their fuel, and leave the interner well-formed; an error they report lies in the
    input and can be displayed. The conditions are those that the parsers miss: the
    input is ASCII; it has no opening bracket, or every dash, underscore and dot in it
    is followed by a character that is no comma, closing bracket or whitespace
    ([extras_closed]); and no marker expression that can be read from a character of it
    is [~=] on a quoted string or has a release number less than two below the largest. *)
Theorem requirement_parse_safe {RV RS : Type} {SV : RangeSet Version RV} {SS : RangeSet text RS} (okV : RV -> Prop) (okS : RS -> Prop) (ordered : bool)
    {LV : RangeSetLaws Version RV version_wf okV} {LS : RangeSetLaws text RS (fun _ => True) okS}
    {Url U Path S : Type} {A : Alphabetic} {PU : Pep508Url Url U Path} {UU : UnnamedRequirementUrl Url U Path} {Sc : Scanner S}
    (env_var : text -> option text) (project_root : text) (normalize_url_path : text -> text) (t : text) (working_dir : option Path)
    (s : @Interner RV RS) (ws : list MarkerWarningKind)
    (Hs : interner_wf okV okS ordered s) (Ha : ascii t) (Hb : forallb buildable (expressions_of t) = true) (Hx : (91 ∉ t) \/ extras_closed t) :
  match Requirement_parse (T := NodeId) (S := S) env_var project_root t working_dir (mkWorld _ ws s) : outcome _ (Pep508Error U) (Requirement Url Path NodeId) with
  | Done _ c w => input c = t /\ interner_wf okV okS ordered (trees w)
  | Failed e w => shown t e /\ interner_wf okV okS ordered (trees w)
  | Panicked => False
  end /\
  match UnnamedRequirement_parse (T := NodeId) env_var project_root normalize_url_path t working_dir (mkWorld _ ws s) : outcome _ (Pep508Error U) (UnnamedRequirement Url Path NodeId) with
  | Done _ c w => input c = t /\ interner_wf okV okS ordered (trees w)
  | Failed e w => shown t e /\ interner_wf okV okS ordered (trees w)
  | Panicked => False
  end.
Proof.
  pose proof (safe_requirement (H1 := interner_laws okV okS ordered) (Url := Url) (S := S) env_var project_root working_dir (Cursor_new t) (mkWorld _ ws s) (Cursor_new_ok t) Ha (buildable_can_build t Hb) Hx Hs) as Hn.
  pose proof (safe_unnamed (H1 := interner_laws okV okS ordered) (Url := Url) env_var project_root normalize_url_path working_dir (Cursor_new t) (mkWorld _ ws s) (Cursor_new_ok t) Ha (buildable_can_build t Hb) Hx Hs) as Hu.
  unfold runs in Hn, Hu. unfold Requirement_parse, UnnamedRequirement_parse. split.
  - destruct (parse_pep508_requirement _ _ _ _ _); [|done|done]. destruct Hn as ((_&Hi&_)&Hw&_). by split.
  - destruct (parse_unnamed_requirement _ _ _ _ _ _); [|done|done]. destruct Hu as ((_&Hi&_)&Hw&_). by split.
Qed.

(** [extras_closed], decided. *)
Fixpoint extras_closedb (t : text) : bool :=
  match t with
  | [] => true
  | p :: t => (negb (is_punctuation p) || match t with [] => false | q :: _ => negb (q =? 44) && negb (q =? 93) && negb (is_whitespace q) end) && extras_closedb t
  end.

Lemma extras_closedb_spec t : extras_closedb t = true -> extras_closed t.
Proof.
  induction t as [|d t IH]; [by intros _ []|]. cbn [extras_closedb]. intros [Hd Ht]%andb_true_iff a p b E Hp. destruct a as [|a0 a]; injection E as -> E.
  - subst b. rewrite Hp in Hd. cbn in Hd. destruct t as [|q t]; [done|]. apply andb_true_iff in Hd as [[H1 H2]%andb_true_iff H3]. rewrite !negb_true_iff in *. rewrite !N.eqb_neq in *. done.
  - exact (IH Ht a p b E Hp).
Qed.

Definition text_unnamed_url : @UnnamedRequirementUrl text unit unit text_url := {|
  parse_path := fun t _ => Ok t;
  parse_absolute_path := fun t => Ok t;
  parse_unnamed_url_str := fun t => Ok t;
  with_given := fun _ t => t;
  given := fun t => Some t
|}.

Definition sample_text : text := bs "requests[security,tests]>=2.8.1,==2.8.* ; python_version > '3.8' and (".

Lemma requirement_parse_safe_witness :
  match Requirement_parse (T := NodeId) (S := text) (H0 := ascii_alphabetic) (H1 := text_url) (fun _ => None) [] sample_text None (mkWorld _ [] start) with
  | Done _ c _ => input c = sample_text
  | Failed e _ => shown sample_text e
  | Panicked => False
  end.
Proof.
  destruct (@requirement_parse_safe _ _ _ _ okIV okIS true _ _ text unit unit text ascii_alphabetic text_url text_unnamed_url text_scanner
    (fun _ => None) [] (fun t => t) sample_text None start []) as [Hs _].
  - apply (Interner_default_wf okIV okIS true).
  - apply ascii_dec. reflexivity.
  - vm_compute. reflexivity.
  - right. apply extras_closedb_spec. reflexivity.
  - destruct (Requirement_parse _ _ _ _ _) as [r c w|e w|]; [exact (proj1 Hs)|exact (proj1 Hs)|exact Hs].
Defined.

(** ** Cache keys *)

Lemma div64_inj (c d : N) : c / 64 = d / 64 -> c mod 64 = d mod 64 -> c = d.
Proof. intros Hq Hm. rewrite (N.div_mod' c 64), (N.div_mod' d 64). congruence. Qed.

(** UTF-8 is a prefix code. *)
Lemma utf8_char_inj (c d : N) s t : utf8_char c ++ s = utf8_char d ++ t -> c = d /\ s = t.
Proof.
  assert (forall c : N, c / 4096 = c / 64 / 64 /\ c / 262144 = c / 64 / 64 / 64) as Hd by (intros x; rewrite !N.Div0.div_div; done).
  assert (forall c : N, c < 2048 -> c / 64 < 32) as H1 by (intros x Hx; apply N.Div0.div_lt_upper_bound; lia).
  assert (forall c : N, c < 65536 -> c / 4096 < 16) as H2 by (intros x Hx; apply N.Div0.div_lt_upper_bound; lia).
  unfold utf8_char. destruct (Hd c) as [Ec1 Ec2], (Hd d) as [Ed1 Ed2]. pose proof (H1 c). pose proof (H1 d). pose proof (H2 c). pose proof (H2 d).
  pose proof (fun c n => N.le_0_l (c / n)) as Hpos. pose proof (Hpos c 64). pose proof (Hpos d 64). pose proof (Hpos c 4096). pose proof (Hpos d 4096). pose proof (Hpos c 262144). pose proof (Hpos d 262144).
  repeat match goal with |- context [N.ltb ?x ?y] => destruct (N.ltb_spec x y) end; cbn [app]; intros E;
    match type of E with ?x :: _ = ?y :: _ => assert (x = y) as Eh by congruence; apply (f_equal (@tail N)) in E; cbn [tail] in E end; try (exfalso; lia).
  - done.
  - split; [|congruence]. assert (128 + c mod 64 = 128 + d mod 64) by congruence. apply div64_inj; lia.
  - split; [|congruence]. assert (128 + (c / 64) mod 64 = 128 + (d / 64) mod 64) by congruence. assert (128 + c mod 64 = 128 + d mod 64) by congruence.
    apply div64_inj; [apply div64_inj|]; lia.
  - split; [|congruence]. assert (128 + (c / 4096) mod 64 = 128 + (d / 4096) mod 64) by congruence. assert (128 + (c / 64) mod 64 = 128 + (d / 64) mod 64) by congruence.
    assert (128 + c mod 64 = 128 + d mod 64) by congruence. apply div64_inj; [apply div64_inj; [apply div64_inj; [rewrite <- Ec2, <- Ed2|rewrite <- Ec1, <- Ed1]|]|]; lia.
Qed.

Lemma utf8_inj s t : utf8 s = utf8 t -> s = t.
Proof.
  assert (forall c, utf8_char c <> []) as Hc by (intros c; unfold utf8_char; by repeat case_match).
  revert t. induction s as [|c s IH]; intros [|d t] E; [done| | |].
  - symmetry in E. apply app_eq_nil in E as [E _]. by destruct (Hc d).
  - apply app_eq_nil in E as [E _]. by destruct (Hc c).
  - apply utf8_char_inj in E as [-> E]. f_equal. by apply IH.
Qed.

Section cache_keys.
Context {Url U Path T : Type} `{Pep508Url Url U Path}.

Definition specifier_key (sp : VersionSpecifier) := (Str (Operator_as_str (operator sp)), key_components (spec_version sp)).

Definition version_components_key := seq_key key_u64 (seq_key (counted key_u64) (seq_key option_pre
  (seq_key option_number (seq_key option_number (cache_key (A := LocalVersion)))))).

(** What goes into the key of a requirement. *)
Definition kind_key (kind : option (VersionOrUrl Url)) :=
  match kind with
  | None => inl tt
  | Some (VU_VersionSpecifier l) => inr (inl (map specifier_key l))
  | Some (VU_Url url) => inr (inr url)
  end.

Definition marker_key (m : option text) := match m with None => inl tt | Some m => inr (Str (utf8 m)) end.

Definition requirement_key (r : Requirement Url Path T) (m : option text) :=
  (Str (package_name (req_name r)), (map (fun e => Str (extra_name e)) (req_extras r), (kind_key (version_or_url r), marker_key m))).

Definition unit_key (_ : unit) (state : CacheKeyHasher) : CacheKeyHasher := state.

Definition requirement_code := seq_key (cache_key (A := str)) (seq_key (counted (cache_key (A := str)))
  (seq_key (tagged unit_key (tagged (counted (seq_key (cache_key (A := str)) version_components_key)) url_cache_key)) (tagged unit_key (cache_key (A := str))))).

Lemma counted_map {X Y} (f : X -> Y) (k : Y -> CacheKeyHasher -> CacheKeyHasher) (l : list X) state :
  counted k (map f l) state = foldl (fun s x => k (f x) s) (key_usize (length l) state) l.
Proof.
  unfold counted. rewrite length_map. generalize (key_usize (length l) state). induction l as [|x l IH]; intros s; cbn; [done|apply IH].
Qed.

Lemma requirement_code_spec r m state : requirement_cache_key r m state = requirement_code (requirement_key r m) state.
Proof.
  unfold requirement_cache_key, requirement_code, requirement_key, seq_key. rewrite counted_map.
  destruct (version_or_url r) as [[l|url]|]; cbn [kind_key tagged]; [rewrite counted_map|..]; by destruct m.
Qed.

(** The cache key of a requirement identifies it up to the star of its
    specifiers: if two requirements feed the hasher the same writes, even followed by
    further writes, then their names, extras, URLs and marker texts are the same, and
    their specifiers have the same versions and the same operators without the star. *)
Theorem requirement_cache_key_injective (r q : Requirement Url Path T) (m n : option text) (state s t : CacheKeyHasher)
    (Hu : PrefixFree (url_cache_key (Url := Url))) (E : requirement_cache_key r m state ++ s = requirement_cache_key q n state ++ t) :
  req_name r = req_name q /\ req_extras r = req_extras q /\ m = n /\ s = t /\
  match version_or_url r, version_or_url q with
  | None, None => True
  | Some (VU_Url u), Some (VU_Url v) => u = v
  | Some (VU_VersionSpecifier l), Some (VU_VersionSpecifier k) =>
      Forall2 (fun a b => unstar (operator a) = unstar (operator b) /\ key_components (spec_version a) = key_components (spec_version b)) l k
  | _, _ => False
  end.
Proof.
  assert (PrefixFree unit_key) as Hunit by apply empty_prefix_free.
  destruct (code_of (k := requirement_code)) as (code&Ec&Pc). rewrite !requirement_code_spec, !Ec, <- !app_assoc in E. apply app_inv_head in E.
  apply Pc in E as [E ->]. unfold requirement_key in E. injection E as En Ee Ek Em. split_and!.
  - destruct (req_name r), (req_name q). cbn in En. congruence.
  - revert Ee. generalize (req_extras r) (req_extras q). intros l. induction l as [|[x] l IH]; intros [|[y] k]; try done. cbn. intros [= -> E']. f_equal. by apply IH.
  - destruct m, n; cbn in Em; try congruence. injection Em as Em. f_equal. by apply utf8_inj.
  - done.
  - destruct (version_or_url r) as [[l|u]|], (version_or_url q) as [[k|v]|]; cbn in Ek; try done; [|by injection Ek].
    injection Ek as Ek. revert k Ek. induction l as [|a l IH]; intros [|b k] Ek; try done. cbn in Ek. injection Ek as Eo E1 E2 E3 E4 E5 E6 Ek. constructor; [|by apply IH].
    split; [|unfold key_components; congruence]. by destruct (operator a), (operator b).
Qed.
End cache_keys.

(** ** Examples and defects *)

#[export] Instance text_url_prefix_free : PrefixFree (@url_cache_key text unit unit text_url).
Proof. apply (prefix_free_image (fun t => Str (utf8 t)) _ (cache_key (A := str)) _); [|done]. intros x y [= E]. by apply utf8_inj. Qed.

(** [requests], with the specifiers [l]. *)
Definition requests (l : list VersionSpecifier) : Requirement text unit formula :=
  mkRequirement _ _ _ {| package_name := bs "requests" |} [] (Some (VU_VersionSpecifier l)) F_True None.

Definition one : Version := example [1; 0].

Definition requests_key (op : Operator) : CacheKeyHasher := requirement_cache_key (H := text_url) (requests [mkSpec op one]) None [].

(** Defects of requirements. The key of [requests==1.0] is the key of
    [requests==1.0.*], and likewise for [!=]: requirements that differ share a cache
    entry. An extra that ends in punctuation passes the checks of the parser and
    makes it panic, in named and in unnamed requirements. *)
Theorem requirement_defects :
  (forall v : Version, requirement_cache_key (H := text_url) (requests [mkSpec Equal v]) None [] = requirement_cache_key (H := text_url) (requests [mkSpec EqualStar v]) None [] /\
    requirement_cache_key (H := text_url) (requests [mkSpec NotEqual v]) None [] = requirement_cache_key (H := text_url) (requests [mkSpec NotEqualStar v]) None []) /\
  Requirement_parse (T := formula) (S := text) (H0 := ascii_alphabetic) (H1 := text_url) (fun _ => None) [] (bs "requests[security-]") None (mkWorld _ [] tt) = Panicked /\
  UnnamedRequirement_parse (T := formula) (H0 := ascii_alphabetic) (H2 := text_unnamed_url) (fun _ => None) [] (fun t => t) (bs "./requests[security_]") None (mkWorld _ [] tt) = Panicked.
Proof. split; [intros v; split; reflexivity|]. split; vm_compute; reflexivity. Qed.
