(* ===== verification/HttpControl.v ===== *)
(** * The [Cache-Control] header ([uv-client/src/httpcache/control.rs])

    The parser of directives, an iterator over zero or more header values, and the
    collection of directives into one record. Header values are byte strings. *)

From stdpp Require Import base numbers list strings gmap.
From S2P Require Import Prelude VersionTypes VersionSmall Version VersionParser Text.

(** ** Data *)

Record CacheControl := mkControl {
  max_age_seconds : option N;
  no_cache : bool;
  no_store : bool;
  no_transform : bool;
  max_stale_seconds : option N;
  min_fresh_seconds : option N;
  only_if_cached : bool;
  must_revalidate : bool;
  must_understand : bool;
  private : bool;
  proxy_revalidate : bool;
  public : bool;
  s_maxage_seconds : option N;
  immutable : bool
}.

Definition CacheControl_default : CacheControl :=
  mkControl None false false false None None false false false false false false None false.

Record CacheControlDirective := mkDirective { directive_name : bytes; directive_value : bytes }.

#[export] Instance CacheControlDirective_eq_dec : EqDecision CacheControlDirective.
Proof. solve_decision. Defined.

Definition must_revalidate_directive : CacheControlDirective := mkDirective (bs "must-revalidate") [].

(** The header value being parsed, the values to come and the names seen. *)
Record CacheControlParser := mkParser {
  cur : bytes;
  directives : list bytes;
  seen : gset bytes
}.

Definition set_cur (cur : bytes) (self : CacheControlParser) : CacheControlParser :=
  mkParser cur (directives self) (seen self).

Definition CacheControlParser_new (headers : list bytes) : CacheControlParser :=
  match headers with
  | [] => mkParser [] [] ∅
  | cur :: directives => mkParser cur directives ∅
  end.

(** ** Tokens and values *)

Definition is_token_byte (byte : N) : bool :=
  existsb (N.eqb byte) [33; 35; 36; 37; 38; 39; 42; 43; 45; 46; 94; 95; 96; 124; 126] || is_ascii_alphanumeric byte.

(** The longest prefix of bytes that satisfy [p], and the rest. *)
Fixpoint split_while (p : N -> bool) (s : bytes) : bytes * bytes :=
  match s with
  | [] => ([], [])
  | c :: rest => if p c then let '(a, b) := split_while p rest in (c :: a, b) else ([], s)
  end.

(** A token at the start, and what follows. *)
Definition parse_token (cur : bytes) : option (bytes * bytes) :=
  match split_while is_token_byte cur with
  | ([], _) => None
  | (token, rest) => Some (token, rest)
  end.

Definition maybe_parse_equals (cur : bytes) : bool * bytes :=
  match cur with
  | byte :: rest => if byte =? 61 then (true, rest) else (false, cur)
  | [] => (false, cur)
  end.

Definition is_qdtext_byte (byte : N) : bool :=
  (byte =? 9) || (byte =? 32) || (byte =? 33) || ((35 <=? byte) && (byte <=? 91)) || ((93 <=? byte) && (byte <=? 126))
  || ((128 <=? byte) && (byte <=? 255)).

Definition is_quoted_pair_byte (byte : N) : bool :=
  (byte =? 9) || (byte =? 32) || ((33 <=? byte) && (byte <=? 126)) || ((128 <=? byte) && (byte <=? 255)).

(** The opening quote has been consumed. *)
Fixpoint parse_quoted_string (cur value : bytes) : option (bytes * bytes) :=
  match cur with
  | [] => None
  | byte :: cur =>
      if byte =? 34 then Some (value, cur)
      else if byte =? 92 then
        match cur with
        | [] => None
        | byte :: cur => if is_quoted_pair_byte byte then parse_quoted_string cur (value ++ [byte]) else None
        end
      else if is_qdtext_byte byte then parse_quoted_string cur (value ++ [byte])
      else None
  end.

Definition parse_value (cur : bytes) : option (bytes * bytes) :=
  match cur with
  | [] => None
  | byte :: rest => if byte =? 34 then parse_quoted_string rest [] else parse_token cur
  end.

Definition maybe_parse_directive_delimiter (cur : bytes) : bytes :=
  match cur with
  | byte :: rest => if byte =? 44 then rest else cur
  | [] => cur
  end.

Fixpoint skip_whitespace (cur : bytes) : bytes :=
  match cur with
  | byte :: rest => if is_ascii_whitespace byte then skip_whitespace rest else cur
  | [] => []
  end.

(** ** The iterator *)

Definition emit_revalidation (self : CacheControlParser) : option CacheControlDirective * CacheControlParser :=
  if decide (bs "must-revalidate" ∈ seen self) then (None, self)
  else (Some must_revalidate_directive, mkParser (cur self) (directives self) ({[bs "must-revalidate"]} ∪ seen self)).

Definition emit_directive (directive : CacheControlDirective) (self : CacheControlParser)
    : option CacheControlDirective * CacheControlParser :=
  if decide (directive_name directive ∈ seen self) then emit_revalidation self
  else (Some directive, mkParser (cur self) (directives self) ({[directive_name directive]} ∪ seen self)).

(** One round of [while !self.cur.is_empty()]: a directive to return, if any. *)
Definition parse_directive (self : CacheControlParser) : option CacheControlDirective * CacheControlParser :=
  let s := skip_whitespace (cur self) in
  match parse_token s with
  | None =>
      let invalid := match s with [] => false | _ => true end in
      let self := set_cur [] self in
      if invalid then emit_revalidation self else (None, self)
  | Some (name, s) =>
      let name := map to_ascii_lowercase name in
      match maybe_parse_equals s with
      | (false, s) =>
          emit_directive (mkDirective name []) (set_cur (maybe_parse_directive_delimiter (skip_whitespace s)) self)
      | (true, s) =>
          match parse_value s with
          | None => emit_revalidation (set_cur [] self)
          | Some (value, s) =>
              emit_directive (mkDirective name value) (set_cur (maybe_parse_directive_delimiter (skip_whitespace s)) self)
          end
      end
  end.

(** [Iterator::next]. Each round consumes a byte or a header value; [None] at the
    outside is running out of fuel. *)
Fixpoint next_loop (fuel : nat) (self : CacheControlParser) : option (option CacheControlDirective * CacheControlParser) :=
  match fuel with
  | O => None
  | S fuel =>
      match cur self with
      | [] =>
          match directives self with
          | [] => Some (None, self)
          | header :: rest => next_loop fuel (mkParser header rest (seen self))
          end
      | _ :: _ =>
          match parse_directive self with
          | (Some d, self) => Some (Some d, self)
          | (None, self) => next_loop fuel self
          end
      end
  end.

(** The bytes and the header values that are left. *)
Definition parser_size (self : CacheControlParser) : nat :=
  length (cur self) + sum_list_with (fun h => S (length h)) (directives self).

Definition next (self : CacheControlParser) : option (option CacheControlDirective * CacheControlParser) :=
  next_loop (S (parser_size self)) self.

Fixpoint collect_loop (fuel : nat) (self : CacheControlParser) : option (list CacheControlDirective) :=
  match fuel with
  | O => None
  | S fuel =>
      '(d, self) ← next self;
      match d with
      | None => Some []
      | Some d => ds ← collect_loop fuel self; Some (d :: ds)
      end
  end.

Definition collect (self : CacheControlParser) : option (list CacheControlDirective) := collect_loop (S (parser_size self)) self.

(** ** [CacheControl] from directives *)

Definition parse_int (value : bytes) : option N :=
  if forallb is_ascii_digit value then parse_unsigned u64_MAX value else None.

Definition set_max_age v (cc : CacheControl) := mkControl v (no_cache cc) (no_store cc) (no_transform cc) (max_stale_seconds cc) (min_fresh_seconds cc) (only_if_cached cc) (must_revalidate cc) (must_understand cc) (private cc) (proxy_revalidate cc) (public cc) (s_maxage_seconds cc) (immutable cc).
Definition set_no_cache v (cc : CacheControl) := mkControl (max_age_seconds cc) v (no_store cc) (no_transform cc) (max_stale_seconds cc) (min_fresh_seconds cc) (only_if_cached cc) (must_revalidate cc) (must_understand cc) (private cc) (proxy_revalidate cc) (public cc) (s_maxage_seconds cc) (immutable cc).
Definition set_no_store v (cc : CacheControl) := mkControl (max_age_seconds cc) (no_cache cc) v (no_transform cc) (max_stale_seconds cc) (min_fresh_seconds cc) (only_if_cached cc) (must_revalidate cc) (must_understand cc) (private cc) (proxy_revalidate cc) (public cc) (s_maxage_seconds cc) (immutable cc).
Definition set_no_transform v (cc : CacheControl) := mkControl (max_age_seconds cc) (no_cache cc) (no_store cc) v (max_stale_seconds cc) (min_fresh_seconds cc) (only_if_cached cc) (must_revalidate cc) (must_understand cc) (private cc) (proxy_revalidate cc) (public cc) (s_maxage_seconds cc) (immutable cc).
Definition set_max_stale v (cc : CacheControl) := mkControl (max_age_seconds cc) (no_cache cc) (no_store cc) (no_transform cc) v (min_fresh_seconds cc) (only_if_cached cc) (must_revalidate cc) (must_understand cc) (private cc) (proxy_revalidate cc) (public cc) (s_maxage_seconds cc) (immutable cc).
Definition set_min_fresh v (cc : CacheControl) := mkControl (max_age_seconds cc) (no_cache cc) (no_store cc) (no_transform cc) (max_stale_seconds cc) v (only_if_cached cc) (must_revalidate cc) (must_understand cc) (private cc) (proxy_revalidate cc) (public cc) (s_maxage_seconds cc) (immutable cc).
Definition set_only_if_cached v (cc : CacheControl) := mkControl (max_age_seconds cc) (no_cache cc) (no_store cc) (no_transform cc) (max_stale_seconds cc) (min_fresh_seconds cc) v (must_revalidate cc) (must_understand cc) (private cc) (proxy_revalidate cc) (public cc) (s_maxage_seconds cc) (immutable cc).
Definition set_must_revalidate v (cc : CacheControl) := mkControl (max_age_seconds cc) (no_cache cc) (no_store cc) (no_transform cc) (max_stale_seconds cc) (min_fresh_seconds cc) (only_if_cached cc) v (must_understand cc) (private cc) (proxy_revalidate cc) (public cc) (s_maxage_seconds cc) (immutable cc).
Definition set_must_understand v (cc : CacheControl) := mkControl (max_age_seconds cc) (no_cache cc) (no_store cc) (no_transform cc) (max_stale_seconds cc) (min_fresh_seconds cc) (only_if_cached cc) (must_revalidate cc) v (private cc) (proxy_revalidate cc) (public cc) (s_maxage_seconds cc) (immutable cc).
Definition set_private v (cc : CacheControl) := mkControl (max_age_seconds cc) (no_cache cc) (no_store cc) (no_transform cc) (max_stale_seconds cc) (min_fresh_seconds cc) (only_if_cached cc) (must_revalidate cc) (must_understand cc) v (proxy_revalidate cc) (public cc) (s_maxage_seconds cc) (immutable cc).
Definition set_proxy_revalidate v (cc : CacheControl) := mkControl (max_age_seconds cc) (no_cache cc) (no_store cc) (no_transform cc) (max_stale_seconds cc) (min_fresh_seconds cc) (only_if_cached cc) (must_revalidate cc) (must_understand cc) (private cc) v (public cc) (s_maxage_seconds cc) (immutable cc).
Definition set_public v (cc : CacheControl) := mkControl (max_age_seconds cc) (no_cache cc) (no_store cc) (no_transform cc) (max_stale_seconds cc) (min_fresh_seconds cc) (only_if_cached cc) (must_revalidate cc) (must_understand cc) (private cc) (proxy_revalidate cc) v (s_maxage_seconds cc) (immutable cc).
Definition set_s_maxage v (cc : CacheControl) := mkControl (max_age_seconds cc) (no_cache cc) (no_store cc) (no_transform cc) (max_stale_seconds cc) (min_fresh_seconds cc) (only_if_cached cc) (must_revalidate cc) (must_understand cc) (private cc) (proxy_revalidate cc) (public cc) v (immutable cc).
Definition set_immutable v (cc : CacheControl) := mkControl (max_age_seconds cc) (no_cache cc) (no_store cc) (no_transform cc) (max_stale_seconds cc) (min_fresh_seconds cc) (only_if_cached cc) (must_revalidate cc) (must_understand cc) (private cc) (proxy_revalidate cc) (public cc) (s_maxage_seconds cc) v.

(** A number of seconds, or [must-revalidate]. *)
Definition seconds_or_revalidate (set : option N -> CacheControl -> CacheControl) (value : bytes) (cc : CacheControl) : CacheControl :=
  match parse_int value with
  | None => set_must_revalidate true cc
  | Some seconds => set (Some seconds) cc
  end.

(** The match on the names of directives. *)
Definition directive_actions : list (string * (bytes -> CacheControl -> CacheControl)) :=
  [("max-age", seconds_or_revalidate set_max_age);
   ("no-cache", fun _ => set_no_cache true);
   ("no-store", fun _ => set_no_store true);
   ("no-transform", fun _ => set_no_transform true);
   ("max-stale", fun value => match value with [] => set_max_stale (Some u64_MAX) | _ => seconds_or_revalidate set_max_stale value end);
   ("min-fresh", seconds_or_revalidate set_min_fresh);
   ("only-if-cached", fun _ => set_only_if_cached true);
   ("must-revalidate", fun _ => set_must_revalidate true);
   ("must-understand", fun _ => set_must_understand true);
   ("private", fun _ => set_private true);
   ("proxy-revalidate", fun _ => set_proxy_revalidate true);
   ("public", fun _ => set_public true);
   ("s-maxage", seconds_or_revalidate set_s_maxage);
   ("immutable", fun _ => set_immutable true)].

Fixpoint find_action (name : bytes) (actions : list (string * (bytes -> CacheControl -> CacheControl))) : bytes -> CacheControl -> CacheControl :=
  match actions with
  | [] => fun _ cc => cc
  | (word, action) :: actions => if bool_decide (name = bs word) then action else find_action name actions
  end.

Definition apply_directive (cc : CacheControl) (ccd : CacheControlDirective) : CacheControl :=
  find_action (directive_name ccd) directive_actions (directive_value ccd) cc.

Definition from_directives (it : list CacheControlDirective) : CacheControl := foldl apply_directive CacheControl_default it.

(** From header values. *)
Definition from_headers (it : list bytes) : option CacheControl :=
  ds ← collect (CacheControlParser_new it); Some (from_directives ds).
