(* ===== verification/HttpCache.v ===== *)
(** * HTTP cache policies ([uv-client/src/httpcache/mod.rs])

    What is stored of a request and its response, and the decisions made with it:
    whether a stored response may be reused, the validators a request carries to the
    server, and what the answer means. The [Archived*] types of the source are the
    same data in another layout, so one definition stands for both.

    A [SystemTime] is a number of nanoseconds from the epoch, and the clock is read
    by the caller: an operation takes the times it would read. [None] is a panic. *)

From Stdlib Require Import ZArith.
From stdpp Require Import base numbers list strings gmap.
From S2P Require Import Prelude VersionTypes VersionSmall Version VersionParser Specifier Text UrlText HttpControl.

(** ** The crates [http], [reqwest] and [jiff] *)

Class HeaderMap (HM : Type) := {
  (** [HeaderMap::get_all], [get], [contains_key], [append] and [insert] *)
  get_all : HM -> text -> list bytes;
  HeaderMap_get : HM -> text -> option bytes;
  contains_key : HM -> text -> bool;
  HeaderMap_append : text -> bytes -> HM -> HM;
  HeaderMap_insert : text -> bytes -> HM -> HM;
  (** [HeaderValue::to_str], [from_bytes] and [from_str] *)
  to_str : bytes -> option text;
  HeaderValue_from_bytes : bytes -> option bytes;
  HeaderValue_from_str : text -> option bytes
}.

(** A name in the form the map keeps it. *)
Definition header_name (name : text) : Prop := name <> [] /\ Forall (fun c => is_token_byte c = true /\ to_ascii_lowercase c = c) name.

Class HeaderMapLaws (HM : Type) `{HeaderMap HM} : Prop := {
  get_first m k : HeaderMap_get m k = head (get_all m k);
  contains_some m k : contains_key m k = bool_decide (get_all m k <> []);
  get_all_append m k v k' : header_name k -> header_name k' ->
    get_all (HeaderMap_append k v m) k' = if decide (k' = k) then get_all m k ++ [v] else get_all m k';
  get_all_insert m k v k' : header_name k -> header_name k' ->
    get_all (HeaderMap_insert k v m) k' = if decide (k' = k) then [v] else get_all m k';
  from_bytes_value b v : HeaderValue_from_bytes b = Some v -> v = b;
  from_str_to_str s v : HeaderValue_from_str s = Some v -> to_str v = Some s
}.

Class Jiff (Timestamp : Type) := {
  (** [rfc2822::DateTimeParser::parse_timestamp] *)
  parse_timestamp : text -> option Timestamp;
  (** [rfc2822::DateTimePrinter::timestamp_to_rfc9110_string] *)
  timestamp_to_rfc9110_string : Timestamp -> option text;
  (** [Timestamp::as_second] and [from_second] *)
  as_second : Timestamp -> Z;
  from_second : Z -> option Timestamp
}.

Class JiffLaws (Timestamp : Type) `{Jiff Timestamp} : Prop := {
  from_second_as_second z t : from_second z = Some t -> as_second t = z;
  print_parse z t s : from_second z = Some t -> timestamp_to_rfc9110_string t = Some s -> exists t', parse_timestamp s = Some t' /\ as_second t' = z
}.

(** [reqwest::Request] and [reqwest::Response], of which only these parts are read. *)
Record http_request (HM : Type) := mkHttpRequest { req_url : text; req_method : bytes; req_headers : HM }.
Record http_response (HM : Type) := mkHttpResponse {
  res_status : N;
  res_headers : HM;
  (** the bytes of the body, or a failure to read them *)
  res_body : option bytes;
  (** the extension [reqwest_retry::RetryCount] *)
  res_retries : option N
}.
Arguments mkHttpRequest {HM} _ _ _.
Arguments req_url {HM} _.
Arguments req_method {HM} _.
Arguments req_headers {HM} _.
Arguments mkHttpResponse {HM} _ _ _ _.
Arguments res_status {HM} _.
Arguments res_headers {HM} _.
Arguments res_body {HM} _.
Arguments res_retries {HM} _.

Definition GET : bytes := bs "GET".
Definition HEAD : bytes := bs "HEAD".

(** ** Data *)

Record CacheConfig := mkConfig { shared : bool }.

Definition CacheConfig_default : CacheConfig := mkConfig false.

Inductive Method := Get | Head | Unrecognized.

Record RequestHeaders := mkRequestHeaders { req_cc : CacheControl; authorization : bool }.

Record Request := mkRequest {
  uri : text;
  method : Method;
  request_fields : RequestHeaders;
  request_time : N
}.

Record ETag := mkETag { etag_value : bytes; weak : bool }.

Record ResponseHeaders := mkResponseHeaders {
  cc : CacheControl;
  age_seconds : option N;
  date_unix_timestamp : option N;
  expires_unix_timestamp : option N;
  last_modified_unix_timestamp : option N;
  etag : option ETag
}.

Record Response := mkResponse {
  status : N;
  headers : ResponseHeaders;
  response_time : N
}.

Record VaryField := mkVaryField { vary_name : text; vary_value : bytes }.

Definition Vary : Type := list VaryField.

Record CachePolicy := mkPolicy {
  config : CacheConfig;
  request : Request;
  response : Response;
  vary : Vary
}.

Record CachePolicyBuilder (HM : Type) := mkBuilder {
  b_config : CacheConfig;
  b_request : Request;
  b_request_headers : HM
}.
Arguments mkBuilder {HM} _ _ _.
Arguments b_config {HM} _.
Arguments b_request {HM} _.
Arguments b_request_headers {HM} _.

Inductive BeforeRequest (HM : Type) := Fresh | Stale (builder : CachePolicyBuilder HM) | NoMatch.
Arguments Fresh {HM}.
Arguments Stale {HM} _.
Arguments NoMatch {HM}.

Inductive AfterResponse := NotModified (policy : CachePolicy) | Modified (policy : CachePolicy).

(** ** Numbers and times *)

Definition u64_saturating_add (a b : N) : N := N.min (a + b) u64_MAX.

(** Subtraction on [N] stops at zero. *)
Definition saturating_sub (a b : N) : N := a - b.

Definition unix_timestamp (time : Z) : option N :=
  if (time <? 0)%Z then None else Some (Z.to_N (time / 1000000000)).

Definition parse_seconds (value : bytes) : option N :=
  if forallb is_ascii_digit value then parse_unsigned u64_MAX value else None.

(** [u64::try_from] of an [i64] and [i64::try_from] of a [u64] *)
Definition u64_try_from (z : Z) : option N := if (z <? 0)%Z then None else Some (Z.to_N z).
Definition i64_try_from (n : N) : option Z := if n <=? 9223372036854775807 then Some (Z.of_N n) else None.

(** ** What the stored data says *)

Definition ETag_parse (header_value : bytes) : ETag :=
  match strip_prefix (bs "W/") header_value with
  | Some value => mkETag value true
  | None => mkETag header_value false
  end.

Definition header_age (self : Response) : N := default 0 (age_seconds (headers self)).
Definition header_date (self : Response) : N := default (response_time self) (date_unix_timestamp (headers self)).
Definition has_final_status (self : Response) : bool := 200 <=? status self.

Definition HEURISTICALLY_CACHEABLE_STATUS_CODES : list N := [200; 203; 204; 206; 300; 301; 308; 404; 405; 410; 414; 501].

Definition allows_authorization_storage (self : CachePolicy) : bool :=
  let cc := cc (headers (response self)) in
  must_revalidate cc || public cc || bool_decide (is_Some (s_maxage_seconds cc)).

Definition is_storable (self : CachePolicy) : bool :=
  let rcc := cc (headers (response self)) in
  if negb (match method (request self) with Get | Head => true | Unrecognized => false end) then false
  else if negb (has_final_status (response self)) then false
  else if (status (response self) =? 206) || (status (response self) =? 304) then false
  else if no_store (req_cc (request_fields (request self))) then false
  else if no_store rcc then false
  else if shared (config self) && private rcc then false
  else if shared (config self) && (authorization (request_fields (request self)) && negb (allows_authorization_storage self)) then false
  else if public rcc then true
  else if negb (shared (config self)) && private rcc then true
  else if bool_decide (is_Some (expires_unix_timestamp (headers (response self)))) then true
  else if bool_decide (is_Some (max_age_seconds rcc)) then true
  else if shared (config self) && bool_decide (is_Some (s_maxage_seconds rcc)) then true
  else bool_decide (status (response self) ∈ HEURISTICALLY_CACHEABLE_STATUS_CODES).

Definition freshness_lifetime (self : CachePolicy) : N :=
  let rcc := cc (headers (response self)) in
  match (if shared (config self) then s_maxage_seconds rcc else None) with
  | Some s_maxage => s_maxage
  | None =>
      match max_age_seconds rcc with
      | Some max_age => max_age
      | None =>
          match expires_unix_timestamp (headers (response self)) with
          | Some expires => saturating_sub expires (header_date (response self))
          | None =>
              match last_modified_unix_timestamp (headers (response self)) with
              | Some _ => 600
              | None => 0
              end
          end
      end
  end.

(** The last sum wraps in the release profile. *)
Definition age (self : CachePolicy) (now : Z) : option N :=
  let apparent_age := saturating_sub (response_time (response self)) (header_date (response self)) in
  let response_delay := saturating_sub (response_time (response self)) (request_time (request self)) in
  let corrected_age_value := u64_saturating_add (header_age (response self)) response_delay in
  let corrected_initial_age := N.max apparent_age corrected_age_value in
  now ← unix_timestamp now;
  let resident_age := saturating_sub now (response_time (response self)) in
  Some (u64_add corrected_initial_age resident_age).

Definition allows_stale (self : CachePolicy) (now : Z) : option bool :=
  if must_revalidate (cc (headers (response self))) then Some false
  else
    match max_stale_seconds (req_cc (request_fields (request self))) with
    | Some max_stale =>
        age ← age self now;
        let stale_amount := saturating_sub age (freshness_lifetime self) in
        Some (stale_amount <=? max_stale)
    | None => Some false
    end.

(** [is_modified] of the stored policy, on the policy made of the new response *)
Definition is_modified (self new_policy : CachePolicy) : bool :=
  let old := headers (response self) in
  let new := headers (response new_policy) in
  if negb (status (response new_policy) =? 304) then true
  else if match etag old, etag new with
          | Some old_etag, Some new_etag => negb (weak old_etag) && negb (weak new_etag) && bool_decide (etag_value old_etag = etag_value new_etag)
          | _, _ => false
          end then false
  else if match last_modified_unix_timestamp old, last_modified_unix_timestamp new with
          | Some old_last_modified, Some new_last_modified => old_last_modified =? new_last_modified
          | _, _ => false
          end then false
  else if bool_decide (etag old = None) && bool_decide (etag new = None)
          && bool_decide (last_modified_unix_timestamp old = None) && bool_decide (last_modified_unix_timestamp new = None) then false
  else true.

(** ** Operations on requests and responses *)

Section policies.
Context {HM Timestamp : Type} `{HeaderMap HM} `{Jiff Timestamp}.

Definition rfc2822_to_unix_timestamp (s : text) : option N :=
  timestamp ← parse_timestamp (Timestamp := Timestamp) s; u64_try_from (as_second timestamp).

Definition unix_timestamp_to_datetime (seconds : N) : option Timestamp := z ← i64_try_from seconds; from_second z.

Definition unix_timestamp_to_rfc2822 (seconds : N) : option text :=
  timestamp ← unix_timestamp_to_datetime seconds; timestamp_to_rfc9110_string timestamp.

Definition unix_timestamp_to_header (seconds : N) : option bytes :=
  string ← unix_timestamp_to_rfc2822 seconds; HeaderValue_from_str (HM := HM) string.

Definition Method_from (from : bytes) : Method :=
  if bool_decide (from = GET) then Get else if bool_decide (from = HEAD) then Head else Unrecognized.

Definition RequestHeaders_from (from : HM) : option RequestHeaders :=
  cc ← from_headers (get_all from (bs "cache-control"));
  Some (mkRequestHeaders cc (contains_key from (bs "authorization"))).

Definition Request_from (from : http_request HM) (now : Z) : option Request :=
  headers ← RequestHeaders_from (req_headers from);
  time ← unix_timestamp now;
  Some (mkRequest (req_url from) (Method_from (req_method from)) headers time).

(** A date of a header. *)
Definition header_timestamp (from : HM) (name : text) : option N :=
  header ← HeaderMap_get from name; s ← to_str header; rfc2822_to_unix_timestamp s.

Definition ResponseHeaders_from (from : HM) : option ResponseHeaders :=
  cc ← from_headers (get_all from (bs "cache-control"));
  Some (mkResponseHeaders cc
    (header ← HeaderMap_get from (bs "age"); parse_seconds header)
    (header_timestamp from (bs "date"))
    (header_timestamp from (bs "expires"))
    (header_timestamp from (bs "last-modified"))
    (ETag_parse <$> HeaderMap_get from (bs "etag"))).

Definition Response_from (from : http_response HM) (now : Z) : option Response :=
  headers ← ResponseHeaders_from (res_headers from);
  time ← unix_timestamp now;
  Some (mkResponse (res_status from) headers time).

(** *** [Vary] *)

Definition always_fails_to_match : Vary := [mkVaryField (bs "*") []].

(** The names of one header value; [None] when one of them is [*]. *)
Fixpoint vary_fields (request : HM) (header_names : list text) (fields : Vary) : option Vary :=
  match header_names with
  | [] => Some fields
  | header_name :: header_names =>
      let header_name := map to_ascii_lowercase (trim_matches is_whitespace header_name) in
      if bool_decide (header_name = bs "*") then None
      else vary_fields request header_names (fields ++ [mkVaryField header_name (default [] (HeaderMap_get request header_name))])
  end.

Fixpoint vary_headers (request : HM) (values : list bytes) (fields : Vary) : Vary :=
  match values with
  | [] => fields
  | header :: values =>
      match to_str header with
      | None => vary_headers request values fields
      | Some csv =>
          match vary_fields request (split_commas csv) fields with
          | None => always_fails_to_match
          | Some fields => vary_headers request values fields
          end
      end
  end.

Definition from_request_response_headers (request response : HM) : Vary := vary_headers request (get_all response (bs "vary")) [].

Fixpoint matches (self : Vary) (request_headers : HM) : bool :=
  match self with
  | [] => true
  | field :: fields =>
      if bool_decide (vary_name field = bs "*") then false
      else if negb (bool_decide (vary_value field = default [] (HeaderMap_get request_headers (vary_name field)))) then false
      else matches fields request_headers
  end.

(** *** Builders *)

Definition CachePolicyBuilder_new (request : http_request HM) (now : Z) : option (CachePolicyBuilder HM) :=
  r ← Request_from request now; Some (mkBuilder CacheConfig_default r (req_headers request)).

Definition new_cache_policy_builder (self : CachePolicy) (request : http_request HM) (now : Z) : option (CachePolicyBuilder HM) :=
  r ← Request_from request now; Some (mkBuilder (config self) r (req_headers request)).

Definition build (self : CachePolicyBuilder HM) (response : http_response HM) (now : Z) : option CachePolicy :=
  let vary := from_request_response_headers (b_request_headers self) (res_headers response) in
  r ← Response_from response now;
  Some (mkPolicy (b_config self) (b_request self) r vary).

(** *** Decisions *)

(** The request's headers, changed in place. *)
Definition set_headers (request : http_request HM) (headers : HM) : http_request HM := mkHttpRequest (req_url request) (req_method request) headers.

Definition set_revalidation_headers (self : CachePolicy) (request : http_request HM) : http_request HM :=
  let request :=
    match etag (headers (response self)) with
    | Some etag =>
        if negb (weak etag) then
          match HeaderValue_from_bytes (etag_value etag) with
          | Some header => set_headers request (HeaderMap_append (bs "if-none-match") header (req_headers request))
          | None => request
          end
        else request
    | None => request
    end in
  if negb (contains_key (req_headers request) (bs "if-modified-since")) then
    match last_modified_unix_timestamp (headers (response self)) with
    | Some last_modified_unix_timestamp =>
        match unix_timestamp_to_header last_modified_unix_timestamp with
        | Some last_modified => set_headers request (HeaderMap_insert (bs "if-modified-since") last_modified (req_headers request))
        | None => request
        end
    | None => request
    end
  else request.

(** The directives of the new request that refuse a stored response. *)
Definition request_refuses (reqcc : CacheControl) (age freshness_lifetime : N) (now : Z) : option bool :=
  if no_cache reqcc then Some true
  else if match max_age_seconds reqcc with Some max_age => max_age <? age | None => false end then Some true
  else
    match min_fresh_seconds reqcc with
    | Some min_fresh =>
        now ← unix_timestamp now;
        let time_to_live := saturating_sub freshness_lifetime now in
        Some (time_to_live <? min_fresh)
    | None => Some false
    end.

Definition is_fresh (self : CachePolicy) (now : Z) (request : http_request HM) : option bool :=
  let freshness_lifetime := freshness_lifetime self in
  age ← age self now;
  refuses ← (if negb (immutable (cc (headers (response self)))) then
               reqcc ← from_headers (get_all (req_headers request) (bs "cache-control"));
               request_refuses reqcc age freshness_lifetime now
             else Some false);
  if (refuses : bool) then Some false
  else if freshness_lifetime <? age then
    allows_stale ← allows_stale self now;
    Some (if negb allows_stale then false else true)
  else Some true.

(** The request comes back as the call leaves it; [later] is the time that
    [Request::from] reads. *)
Definition before_request (self : CachePolicy) (request_ : http_request HM) (now later : Z) : option (BeforeRequest HM * http_request HM) :=
  let stale :=
    let request_ := set_revalidation_headers self request_ in
    builder ← new_cache_policy_builder self request_ later;
    Some (Stale builder, request_) in
  if negb (is_storable self) then Some (NoMatch, request_)
  else if negb (bool_decide (uri (request self) = req_url request_)) then Some (NoMatch, request_)
  else if negb (bool_decide (req_method request_ = GET)) && negb (bool_decide (req_method request_ = HEAD)) then Some (NoMatch, request_)
  else if negb (matches (vary self) (req_headers request_)) then stale
  else if no_cache (cc (headers (response self))) then stale
  else
    fresh ← is_fresh self now request_;
    if (fresh : bool) then Some (Fresh, request_) else stale.

Definition set_status (status : N) (policy : CachePolicy) : CachePolicy :=
  mkPolicy (config policy) (request policy) (mkResponse status (headers (response policy)) (response_time (response policy))) (vary policy).

Definition after_response (self : CachePolicy) (cache_policy_builder : CachePolicyBuilder HM) (response_ : http_response HM) (now : Z) : option AfterResponse :=
  new_policy ← build cache_policy_builder response_ now;
  if is_modified self new_policy then Some (Modified new_policy)
  else Some (NotModified (set_status (status (response self)) new_policy)).

End policies.
