(* ===== verification/HttpCacheFacts.v ===== *)
(** * The [Cache-Control] parser terminates and reads what is written *)

From Stdlib Require Import ZArith.
From stdpp Require Import base numbers list strings gmap.
From S2P Require Import Prelude VersionTypes VersionSmall Version VersionParser Specifier Text UrlText HttpControl HttpCache.

#[local] Arguments bs : simpl never.

(** ** Termination *)

Lemma split_while_app p s : let '(a, b) := split_while p s in s = a ++ b /\ Forall (fun c => p c = true) a /\ match b with c :: _ => p c = false | [] => True end.
Proof.
  induction s as [|c s IH]; cbn; [done|]. destruct (p c) eqn:Hc; [|done]. destruct (split_while p s) as [a b]. destruct IH as (->&Ha&Hb). split_and!; [done|by constructor|done].
Qed.

Lemma split_while_run p a b : Forall (fun c => p c = true) a -> match b with c :: _ => p c = false | [] => True end -> split_while p (a ++ b) = (a, b).
Proof.
  intros Ha Hb. induction Ha as [|c a Hc _ IH]; cbn; [|by rewrite Hc, IH]. destruct b as [|c b]; [done|]. by cbn; rewrite Hb.
Qed.

Lemma parse_token_shorter s token rest : parse_token s = Some (token, rest) -> (length rest < length s)%nat.
Proof.
  unfold parse_token. pose proof (split_while_app is_token_byte s) as Hs. destruct (split_while is_token_byte s) as [[|c a] b]; [done|]. intros [= <- <-].
  destruct Hs as (->&_). cbn. rewrite length_app. lia.
Qed.

Lemma skip_whitespace_shorter s : (length (skip_whitespace s) <= length s)%nat.
Proof. induction s as [|c s IH]; cbn; [lia|]. destruct (is_ascii_whitespace c); cbn; lia. Qed.

Lemma delimiter_shorter s : (length (maybe_parse_directive_delimiter s) <= length s)%nat.
Proof. destruct s as [|c s]; cbn; [lia|]. destruct (c =? 44); cbn; lia. Qed.

Lemma parse_quoted_shorter s : forall value v rest, parse_quoted_string s value = Some (v, rest) -> (length rest <= length s)%nat.
Proof.
  induction s as [s IH] using (well_founded_induction (well_founded_ltof _ (@length N))). unfold ltof in IH. intros value v rest. destruct s as [|c s]; [done|]. cbn [parse_quoted_string].
  destruct (c =? 34); [intros [= _ <-]; cbn; lia|]. destruct (c =? 92).
  - destruct s as [|d s]; [done|]. destruct (is_quoted_pair_byte d); [|done]. intros E. apply IH in E; cbn in *; lia.
  - destruct (is_qdtext_byte c); [|done]. intros E. apply IH in E; cbn in *; lia.
Qed.

Lemma parse_value_shorter s v rest : parse_value s = Some (v, rest) -> (length rest <= length s)%nat.
Proof.
  unfold parse_value. destruct s as [|c s]; [done|]. destruct (c =? 34); [intros E; apply parse_quoted_shorter in E; cbn; lia|]. intros E. apply parse_token_shorter in E. lia.
Qed.

Lemma emit_revalidation_keeps self : cur (snd (emit_revalidation self)) = cur self /\ directives (snd (emit_revalidation self)) = directives self.
Proof. unfold emit_revalidation. by case_decide. Qed.

Lemma emit_directive_keeps d self : cur (snd (emit_directive d self)) = cur self /\ directives (snd (emit_directive d self)) = directives self.
Proof. unfold emit_directive. case_decide; [apply emit_revalidation_keeps|done]. Qed.

Lemma parse_directive_shorter self : cur self <> [] -> (parser_size (snd (parse_directive self)) < parser_size self)%nat.
Proof.
  intros Hne. assert (forall s (m : option CacheControlDirective * CacheControlParser), cur m.2 = s -> directives m.2 = directives self -> (length s < length (cur self))%nat ->
    (parser_size m.2 < parser_size self)%nat) as H by (intros s m E1 E2 Hs; unfold parser_size; rewrite E1, E2; lia).
  pose proof (skip_whitespace_shorter (cur self)) as Hw. unfold parse_directive. destruct (parse_token (skip_whitespace (cur self))) as [[name s]|] eqn:Et.
  2: { assert (length (@nil N) < length (cur self))%nat as Hl by (destruct (cur self); [done|cbn; lia]).
    destruct (skip_whitespace (cur self)); apply (H []); try done; apply (emit_revalidation_keeps (set_cur [] self)). }
  apply parse_token_shorter in Et. pose proof (fun s => Nat.le_trans _ _ _ (delimiter_shorter (skip_whitespace s)) (skip_whitespace_shorter s)) as Hd.
  destruct (maybe_parse_equals s) as [b s'] eqn:Ee. assert (length s' <= length s)%nat as He.
  { unfold maybe_parse_equals in Ee. destruct s as [|c s]; [by injection Ee as <- <-|]. destruct (c =? 61); injection Ee as <- <-; cbn; lia. }
  destruct b.
  - destruct (parse_value s') as [[v s2]|] eqn:Ev.
    + apply parse_value_shorter in Ev. apply (H (maybe_parse_directive_delimiter (skip_whitespace s2))); [apply emit_directive_keeps|exact (proj2 (emit_directive_keeps _ _))|]. specialize (Hd s2). lia.
    + apply (H []); [apply emit_revalidation_keeps|exact (proj2 (emit_revalidation_keeps _))|destruct (cur self); [done|cbn; lia]].
  - apply (H (maybe_parse_directive_delimiter (skip_whitespace s'))); [apply emit_directive_keeps|exact (proj2 (emit_directive_keeps _ _))|]. specialize (Hd s'). lia.
Qed.

(** ** The directives of a parser, as a relation *)

Inductive parses : CacheControlParser -> list CacheControlDirective -> Prop :=
| P_end seen : parses (mkParser [] [] seen) []
| P_header h rest seen ds : parses (mkParser h rest seen) ds -> parses (mkParser [] (h :: rest) seen) ds
| P_emit self d self' ds : cur self <> [] -> parse_directive self = (Some d, self') -> parses self' ds -> parses self (d :: ds)
| P_skip self self' ds : cur self <> [] -> parse_directive self = (None, self') -> parses self' ds -> parses self ds.

Lemma parses_functional self ds : parses self ds -> forall ds', parses self ds' -> ds' = ds.
Proof.
  induction 1 as [seen|h rest seen ds H IH|self d self' ds Hne E H IH|self self' ds Hne E H IH]; intros ds' H'.
  - by inversion H'; subst.
  - inversion H'; subst; [by apply IH|done|done].
  - inversion H'; subst; [done|done| |]; match goal with H' : parse_directive _ = _ |- _ => rewrite E in H'; simplify_eq end; f_equal; by apply IH.
  - inversion H'; subst; [done|done| |]; match goal with H' : parse_directive _ = _ |- _ => rewrite E in H'; simplify_eq end; by apply IH.
Qed.

Lemma next_loop_parses : forall fuel self, (parser_size self < fuel)%nat -> exists d self', next_loop fuel self = Some (d, self') /\
  match d with
  | None => parses self []
  | Some d => (parser_size self' < parser_size self)%nat /\ forall ds, parses self' ds -> parses self (d :: ds)
  end.
Proof.
  induction fuel as [|fuel IH]; intros self Hf; [lia|]. cbn [next_loop]. destruct (cur self) as [|c s] eqn:Ec.
  - destruct self as [cu dirs se]. cbn in Ec. subst cu. cbn [directives seen]. destruct dirs as [|h rest]; [eexists None, _; split; [reflexivity|constructor]|].
    destruct (IH (mkParser h rest se)) as (d&self'&->&Hd); [unfold parser_size in *; cbn in *; lia|]. exists d, self'. split; [done|].
    destruct d as [d|]; [|by constructor]. destruct Hd as [Hs Hp]. split; [unfold parser_size in *; cbn in *; lia|]. intros ds Hds. constructor. by apply Hp.
  - assert (cur self <> []) as Hne by (by rewrite Ec). pose proof (parse_directive_shorter self Hne) as Hs. destruct (parse_directive self) as [[d|] self'] eqn:Ed; cbn [snd] in Hs.
    + exists (Some d), self'. split; [done|]. split; [done|]. intros ds Hds. by apply (P_emit self d self').
    + destruct (IH self') as (d&self''&->&Hd); [lia|]. exists d, self''. split; [done|]. destruct d as [d|]; [|by apply (P_skip self self')].
      destruct Hd as [Hs' Hp]. split; [lia|]. intros ds Hds. apply (P_skip self self'); [done|done|]. by apply Hp.
Qed.

Lemma collect_parses self : exists ds, collect self = Some ds /\ parses self ds.
Proof.
  unfold collect. assert (forall fuel self, (parser_size self < fuel)%nat -> exists ds, collect_loop fuel self = Some ds /\ parses self ds) as H; [|apply H; lia].
  induction fuel as [|fuel IH]; intros p Hf; [lia|]. cbn [collect_loop]. unfold next. destruct (next_loop_parses (S (parser_size p)) p) as (d&p'&->&Hd); [lia|]. cbn.
  destruct d as [d|]; [|by exists []]. destruct Hd as [Hs Hp]. destruct (IH p') as (ds&->&Hds); [lia|]. exists (d :: ds). split; [done|]. by apply Hp.
Qed.

Lemma collect_unique self ds : parses self ds -> collect self = Some ds.
Proof. intros H. destruct (collect_parses self) as (ds'&->&H'). by rewrite (parses_functional _ _ H _ H'). Qed.

(** ** The grammar of RFC 9111, Appendix A

    A directive is a token, with an optional value that is a token or a quoted
    string; a header value is a list of directives between commas and white space. *)

Definition is_token (t : bytes) : Prop := t <> [] /\ Forall (fun c => is_token_byte c = true) t.

Inductive quoted : bytes -> bytes -> Prop :=
| Q_nil : quoted [] []
| Q_text c v q : is_qdtext_byte c = true -> quoted v q -> quoted (c :: v) (c :: q)
| Q_pair c v q : is_quoted_pair_byte c = true -> quoted v q -> quoted (c :: v) (92 :: c :: q).

Inductive written : CacheControlDirective -> bytes -> Prop :=
| W_name t : is_token t -> written (mkDirective (map to_ascii_lowercase t) []) t
| W_token t v : is_token t -> is_token v -> written (mkDirective (map to_ascii_lowercase t) v) (t ++ 61 :: v)
| W_quoted t v q : is_token t -> quoted v q -> written (mkDirective (map to_ascii_lowercase t) v) (t ++ 61 :: 34 :: q ++ [34]).

Definition spaces (ws : bytes) : Prop := Forall (fun c => is_ascii_whitespace c = true) ws.

Inductive header_text : list CacheControlDirective -> bytes -> Prop :=
| H_none ws : spaces ws -> header_text [] ws
| H_last ws d t ws' : spaces ws -> written d t -> spaces ws' -> header_text [d] (ws ++ t ++ ws')
| H_more ws d t ws' ds rest : spaces ws -> written d t -> spaces ws' -> header_text ds rest -> header_text (d :: ds) (ws ++ t ++ ws' ++ 44 :: rest).

(** What is kept of the directives: the first of each name, and [must-revalidate]
    where a name is repeated. *)
Fixpoint without_duplicates (seen : gset bytes) (ds : list CacheControlDirective) : list CacheControlDirective * gset bytes :=
  match ds with
  | [] => ([], seen)
  | d :: ds =>
      let '(d, seen) :=
        if decide (directive_name d ∈ seen) then
          if decide (bs "must-revalidate" ∈ seen) then (None, seen) else (Some must_revalidate_directive, {[bs "must-revalidate"]} ∪ seen)
        else (Some d, {[directive_name d]} ∪ seen) in
      let '(ds, seen) := without_duplicates seen ds in (option_list d ++ ds, seen)
  end.

(** ** The parser reads the grammar *)

Lemma skip_whitespace_app ws s : spaces ws -> skip_whitespace (ws ++ s) = skip_whitespace s.
Proof. induction 1 as [|c ws Hc _ IH]; cbn; [done|]. by rewrite Hc. Qed.

Lemma token_not_space c : is_token_byte c = true -> is_ascii_whitespace c = false.
Proof.
  intros Hc. destruct (is_ascii_whitespace c) eqn:E; [|done]. unfold is_ascii_whitespace in E.
  repeat (apply orb_prop in E as [E|E]); apply N.eqb_eq in E; by subst c.
Qed.

Lemma skip_whitespace_token c s : is_token_byte c = true -> skip_whitespace (c :: s) = c :: s.
Proof. intros Hc. cbn. by rewrite (token_not_space _ Hc). Qed.

(** What stops a token: the end, white space, a comma or an equals sign. *)
Definition stops (s : bytes) : Prop := match s with c :: _ => is_token_byte c = false | [] => True end.

Lemma stops_space ws s : spaces ws -> stops s -> stops (ws ++ s).
Proof.
  intros Hws Hs. destruct Hws as [|c ws Hc _]; [done|]. cbn. destruct (is_token_byte c) eqn:E; [|done]. by rewrite (token_not_space _ E) in Hc.
Qed.

Lemma parse_token_run t s : is_token t -> stops s -> parse_token (t ++ s) = Some (t, s).
Proof. intros [Hne Ht] Hs. unfold parse_token. rewrite split_while_run by done. by destruct t. Qed.

Lemma parse_quoted_run v q : quoted v q -> forall acc s, parse_quoted_string (q ++ 34 :: s) acc = Some (acc ++ v, s).
Proof.
  induction 1 as [|c v q Hc _ IH|c v q Hc _ IH]; intros acc s.
  - cbn. by rewrite app_nil_r.
  - assert (c <> 34 /\ c <> 92) as [H1 H2] by (split; intros ->; done). apply N.eqb_neq in H1, H2.
    cbn -[is_qdtext_byte N.eqb] in *. rewrite H1, H2, Hc, IH. by rewrite <- app_assoc.
  - cbn -[is_quoted_pair_byte]. rewrite Hc, IH. by rewrite <- app_assoc.
Qed.

Lemma equals_none s : stops s -> match s with c :: _ => c <> 61 | [] => True end -> maybe_parse_equals s = (false, s).
Proof. destruct s as [|c s]; [done|]. intros _ H. cbn -[N.eqb]. apply N.eqb_neq in H. by rewrite H. Qed.

(** One directive, after which only white space comes before the end or a comma. *)
Lemma parse_directive_written ws d t ws' tail dirs se : spaces ws -> written d t -> spaces ws' -> (tail = [] \/ exists rest, tail = 44 :: rest) ->
  parse_directive (mkParser (ws ++ t ++ ws' ++ tail) dirs se) = emit_directive d (mkParser (maybe_parse_directive_delimiter tail) dirs se).
Proof.
  intros Hws Hd Hws' Htail. assert (stops tail) as Hst by (by destruct Htail as [->|[rest ->]]). assert (skip_whitespace tail = tail) as Hsk by (by destruct Htail as [->|[rest ->]]).
  assert (stops (ws' ++ tail)) as Hs by (by apply stops_space).
  assert (match ws' ++ tail with c :: _ => c <> 61 | [] => True end) as He.
  { destruct Hws' as [|c l Hc _]; [by destruct Htail as [->|[rest ->]]|]. cbn. intros ->. done. }
  unfold parse_directive. cbn [cur]. rewrite skip_whitespace_app by done.
  assert (forall u, is_token u -> forall s, skip_whitespace (u ++ s) = u ++ s) as Hk.
  { intros [|c u] [Hne Hu] s; [done|]. apply Forall_cons in Hu as [Hc _]. by apply skip_whitespace_token. }
  destruct Hd as [u Hu|u v Hu Hv|u v q Hu Hq].
  - rewrite Hk, parse_token_run by done. cbn -[maybe_parse_equals]. rewrite equals_none by done. by rewrite skip_whitespace_app, Hsk by done.
  - rewrite <- app_assoc. cbn [app]. rewrite Hk, parse_token_run by done. cbn -[parse_value]. unfold parse_value. destruct v as [|c v]; [by destruct Hv|].
    assert ((c =? 34) = false) as Hc by (destruct Hv as [_ Hv]; apply Forall_cons in Hv as [Hc _]; destruct (N.eqb_spec c 34) as [->|]; done).
    cbn [app]. rewrite Hc. change (c :: v ++ ws' ++ tail) with ((c :: v) ++ ws' ++ tail). rewrite parse_token_run by done. by rewrite skip_whitespace_app, Hsk by done.
  - rewrite <- app_assoc. cbn [app]. rewrite Hk, parse_token_run by done. cbn -[parse_quoted_string]. rewrite <- app_assoc. cbn [app].
    rewrite (parse_quoted_run _ _ Hq). cbn [app]. by rewrite skip_whitespace_app, Hsk by done.
Qed.

Lemma emit_directive_duplicates d ds s dirs se : exists se',
  emit_directive d (mkParser s dirs se) = (fst (emit_directive d (mkParser s dirs se)), mkParser s dirs se') /\
  without_duplicates se (d :: ds) = (let '(ds, se'') := without_duplicates se' ds in (option_list (fst (emit_directive d (mkParser s dirs se))) ++ ds, se'')).
Proof.
  unfold emit_directive, emit_revalidation. cbn. destruct (decide (directive_name d ∈ se)); [destruct (decide (bs "must-revalidate" ∈ se))|]; cbn; eexists; split; reflexivity.
Qed.

Lemma parses_emitted self d self' ds : cur self <> [] -> parse_directive self = (d, self') -> parses self' ds -> parses self (option_list d ++ ds).
Proof. intros Hne E H. destruct d as [d|]; [by apply (P_emit self d self')|by apply (P_skip self self')]. Qed.

Lemma written_nonempty d t : written d t -> t <> [].
Proof. intros [u [Hu _]|u v [Hu _] _|u v q [Hu _] _]; [done| |]; by destruct u. Qed.

Lemma header_text_parses ds text : header_text ds text -> forall hs se out, parses (mkParser [] hs (snd (without_duplicates se ds))) out ->
  parses (mkParser text hs se) (fst (without_duplicates se ds) ++ out).
Proof.
  induction 1 as [ws Hws|ws d t ws' Hws Hd Hws'|ws d t ws' ds rest Hws Hd Hws' Hrest IH]; intros hs se out Hout.
  - cbn in *. destruct ws as [|c ws]; [done|]. apply (P_skip _ (mkParser [] hs se)); [done| |done].
    unfold parse_directive. cbn [cur]. rewrite <- (app_nil_r (c :: ws)), skip_whitespace_app by done. done.
  - destruct (emit_directive_duplicates d [] [] hs se) as (se'&E&Ed). rewrite Ed in *. cbn [without_duplicates] in *. cbn [fst snd] in *. rewrite app_nil_r.
    apply (parses_emitted _ _ (mkParser [] hs se')); [|rewrite <- E|done].
    + cbn. pose proof (written_nonempty _ _ Hd). destruct ws, t; done.
    + rewrite <- (app_nil_r ws') at 1. by rewrite (parse_directive_written ws d t ws' [] hs se) by auto.
  - destruct (emit_directive_duplicates d ds rest hs se) as (se'&E&Ed). rewrite Ed in *. specialize (IH hs se'). destruct (without_duplicates se' ds) as [ds' se'']. cbn [fst snd] in *.
    rewrite <- app_assoc. apply (parses_emitted _ _ (mkParser rest hs se')); [|rewrite <- E|by apply IH].
    + cbn. pose proof (written_nonempty _ _ Hd). destruct ws, t; done.
    + by rewrite (parse_directive_written ws d t ws' (44 :: rest) hs se) by eauto.
Qed.

Lemma without_duplicates_app ds1 : forall se ds2, without_duplicates se (ds1 ++ ds2) =
  (fst (without_duplicates se ds1) ++ fst (without_duplicates (snd (without_duplicates se ds1)) ds2), snd (without_duplicates (snd (without_duplicates se ds1)) ds2)).
Proof.
  induction ds1 as [|d ds1 IH]; intros se ds2; [cbn; by destruct (without_duplicates se ds2)|].
  destruct (emit_directive_duplicates d ds1 [] [] se) as (se'&E&Ed), (emit_directive_duplicates d (ds1 ++ ds2) [] [] se) as (se2&E2&Ed2). rewrite E in E2. injection E2 as <-.
  cbn [app]. rewrite Ed, Ed2, IH. destruct (without_duplicates se' ds1) as [a s']. cbn. by rewrite app_assoc.
Qed.

Lemma headers_parse dss texts : Forall2 header_text dss texts -> forall se, parses (mkParser [] texts se) (fst (without_duplicates se (concat dss))).
Proof.
  induction 1 as [|ds text dss texts Hd _ IH]; intros se; [constructor|]. cbn [concat]. rewrite without_duplicates_app. cbn [fst].
  constructor. apply header_text_parses; [done|]. apply IH.
Qed.

Lemma collect_headers dss texts : Forall2 header_text dss texts -> collect (CacheControlParser_new texts) = Some (fst (without_duplicates ∅ (concat dss))).
Proof.
  intros H. apply collect_unique. pose proof (headers_parse _ _ H ∅) as Hp. destruct texts as [|text texts]; [done|]. cbn. by inversion Hp; subst.
Qed.

(** ** Repeated names *)

Lemma without_duplicates_distinct ds : forall se, NoDup (map directive_name ds) -> (forall d, d ∈ ds -> directive_name d ∉ se) -> fst (without_duplicates se ds) = ds.
Proof.
  induction ds as [|d ds IH]; intros se Hn Hs; [done|]. cbn. cbn in Hn. apply NoDup_cons in Hn as [Hd Hn]. destruct (decide (directive_name d ∈ se)) as [Hin|_].
  - exfalso. by apply (Hs d); [left|].
  - specialize (IH ({[directive_name d]} ∪ se) Hn). destruct (without_duplicates ({[directive_name d]} ∪ se) ds) as [ds' se']. cbn in *. f_equal. apply IH. intros d' Hd' Hin.
    apply elem_of_union in Hin as [Hin|Hin]; [|by apply (Hs d'); [right|]]. apply elem_of_singleton in Hin. apply Hd. rewrite <- Hin. apply list_elem_of_fmap. by exists d'.
Qed.

Lemma without_duplicates_repeated ds : forall se, (~ NoDup (map directive_name ds) \/ exists d, d ∈ ds /\ directive_name d ∈ se) ->
  bs "must-revalidate" ∈ se \/ exists d, d ∈ fst (without_duplicates se ds) /\ directive_name d = bs "must-revalidate".
Proof.
  induction ds as [|d ds IH]; intros se H; [destruct H as [H|(d&Hd&_)]; [destruct H; constructor|by apply not_elem_of_nil in Hd]|].
  destruct (decide (bs "must-revalidate" ∈ se)) as [|Hm]; [by left|]. right. cbn. destruct (decide (directive_name d ∈ se)) as [Hin|Hin].
  - destruct (decide (bs "must-revalidate" ∈ se)); [done|]. destruct (without_duplicates ({[bs "must-revalidate"]} ∪ se) ds) as [ds' se']. cbn. exists must_revalidate_directive. split; [left|done].
  - specialize (IH ({[directive_name d]} ∪ se)). destruct (without_duplicates ({[directive_name d]} ∪ se) ds) as [ds' se']. cbn in *. destruct IH as [Hi|(d'&Hd'&Hn)].
    + destruct H as [H|(d'&Hd'&Hs)].
      * destruct (decide (directive_name d ∈ map directive_name ds)) as [Hd|Hd]; [|left; contradict H; by constructor]. apply list_elem_of_fmap in Hd as (d'&Hd'&Hi). right. exists d'. split; [done|]. set_solver.
      * apply elem_of_cons in Hd' as [->|Hd']; [done|]. right. exists d'. split; [done|]. set_solver.
    + exists d. split; [left|]. set_solver.
    + exists d'. split; [by right|done].
Qed.

(** ** The record, field by field *)

(** A directive of the name is there. *)
Definition present (word : string) (ds : list CacheControlDirective) : bool := existsb (fun d => bool_decide (directive_name d = bs word)) ds.

(** The number of seconds that the last well-formed directive of the name gives. *)
Definition seconds (word : string) (read : bytes -> option N) (ds : list CacheControlDirective) : option N :=
  foldl (fun acc d => if bool_decide (directive_name d = bs word) then from_option Some acc (read (directive_value d)) else acc) None ds.

Definition stale_seconds (value : bytes) : option N := match value with [] => Some u64_MAX | _ => parse_int value end.

(** A directive whose number cannot be read. *)
Definition malformed (d : CacheControlDirective) : bool :=
  existsb (fun word => bool_decide (directive_name d = bs word) && bool_decide (parse_int (directive_value d) = None)) ["max-age"; "min-fresh"; "s-maxage"]%string
  || bool_decide (directive_name d = bs "max-stale") && bool_decide (stale_seconds (directive_value d) = None).

Definition control_of (ds : list CacheControlDirective) : CacheControl :=
  mkControl (seconds "max-age" parse_int ds) (present "no-cache" ds) (present "no-store" ds) (present "no-transform" ds)
    (seconds "max-stale" stale_seconds ds) (seconds "min-fresh" parse_int ds) (present "only-if-cached" ds)
    (present "must-revalidate" ds || existsb malformed ds) (present "must-understand" ds) (present "private" ds) (present "proxy-revalidate" ds)
    (present "public" ds) (seconds "s-maxage" parse_int ds) (present "immutable" ds).

Lemma present_snoc word ds d : present word (ds ++ [d]) = present word ds || bool_decide (directive_name d = bs word).
Proof. unfold present. rewrite existsb_app. cbn. by rewrite orb_false_r. Qed.

Lemma seconds_snoc word read ds d :
  seconds word read (ds ++ [d]) = if bool_decide (directive_name d = bs word) then from_option Some (seconds word read ds) (read (directive_value d)) else seconds word read ds.
Proof. unfold seconds. by rewrite foldl_app. Qed.

Lemma malformed_snoc ds d : existsb malformed (ds ++ [d]) = existsb malformed ds || malformed d.
Proof. rewrite existsb_app. cbn. by rewrite orb_false_r. Qed.

(** The step on each field of the record. *)
Lemma apply_directive_step ds d : apply_directive (control_of ds) d = control_of (ds ++ [d]).
Proof.
  unfold control_of. rewrite !present_snoc, !seconds_snoc, malformed_snoc. unfold apply_directive, malformed. destruct d as [name value]. cbn [directive_name directive_value].
  unfold directive_actions. cbn [find_action existsb].
  repeat match goal with
  | |- context [bool_decide (name = bs ?w)] =>
      destruct (bool_decide (name = bs w)) eqn:?; [match goal with H : bool_decide (name = bs w) = true |- _ => apply bool_decide_eq_true in H; subst name end|];
      cbn [find_action andb orb]
  end;
  repeat match goal with |- context [bool_decide (bs ?a = bs ?b)] => change (bool_decide (bs a = bs b)) with false || change (bool_decide (bs a = bs b)) with true end;
  unfold seconds_or_revalidate, stale_seconds; try (destruct value); try destruct (parse_int _);
  cbn; rewrite ?orb_false_r, ?orb_true_r; reflexivity.
Qed.

Lemma from_directives_fields ds : from_directives ds = control_of ds.
Proof.
  unfold from_directives. induction ds as [|d ds IH] using rev_ind; [reflexivity|]. rewrite foldl_app. cbn [foldl]. rewrite IH. apply apply_directive_step.
Qed.

(** ** Facts of HTTP cache policies *)

#[local] Arguments bs : simpl never.

Lemma from_headers_total hs : exists cc, from_headers hs = Some cc.
Proof. unfold from_headers. destruct (collect_parses (CacheControlParser_new hs)) as (ds&->&_). by eexists. Qed.

(** ** Ages

    Seconds on the clock and in headers that stay below 2^62 cannot overflow. *)

Definition sane (self : CachePolicy) (now : Z) : Prop :=
  (0 <= now < 2 ^ 62 * 1000000000)%Z /\ header_age (response self) < 2 ^ 62 /\ response_time (response self) < 2 ^ 62.

Lemma unix_timestamp_some now : (0 <= now)%Z -> unix_timestamp now = Some (Z.to_N (now / 1000000000)).
Proof. intros H. unfold unix_timestamp. destruct (Z.ltb_spec now 0); [lia|done]. Qed.

Lemma unix_timestamp_mono now now' s s' : unix_timestamp now = Some s -> unix_timestamp now' = Some s' -> (now <= now')%Z -> s <= s'.
Proof.
  unfold unix_timestamp. destruct (Z.ltb_spec now 0), (Z.ltb_spec now' 0); try done. intros [= <-] [= <-] Hle.
  apply Z2N.inj_le; [by apply Z.div_pos|by apply Z.div_pos|by apply Z.div_le_mono].
Qed.

Lemma age_sane self now : sane self now -> exists s, unix_timestamp now = Some s /\ s < 2 ^ 62 /\
  age self now = Some (N.max (response_time (response self) - header_date (response self))
                         (header_age (response self) + (response_time (response self) - request_time (request self)))
                       + (s - response_time (response self))).
Proof.
  intros (Hnow&Hage&Htime). rewrite unix_timestamp_some by lia. eexists. split; [done|].
  assert (Z.to_N (now / 1000000000) < 2 ^ 62) as Hs.
  { assert (now / 1000000000 < 2 ^ 62)%Z by (apply Z.div_lt_upper_bound; lia). assert (0 <= now / 1000000000)%Z by (apply Z.div_pos; lia). lia. }
  split; [done|]. unfold age. rewrite unix_timestamp_some by lia. cbn -[N.pow N.max Z.div]. f_equal. unfold saturating_sub, u64_saturating_add, u64_add, u64_MAX.
  rewrite N.min_l by lia. rewrite N.mod_small by lia. done.
Qed.

(** The age of a response is at least the time since its date, and at least what
    caches on the way reported, plus the time since the request. *)
Lemma age_bounds self now a s : sane self now -> age self now = Some a -> unix_timestamp now = Some s ->
  s - header_date (response self) <= a /\ header_age (response self) + (s - request_time (request self)) <= a.
Proof.
  intros Hs Ha Ht. destruct (age_sane self now Hs) as (s'&Ht'&_&Ha'). rewrite Ht' in Ht. injection Ht as ->. rewrite Ha' in Ha. injection Ha as <-. lia.
Qed.

Lemma age_mono self now now' a a' : sane self now -> sane self now' -> (now <= now')%Z -> age self now = Some a -> age self now' = Some a' -> a <= a'.
Proof.
  intros H H' Hle Ha Ha'. destruct (age_sane _ _ H) as (s&Hs&_&E), (age_sane _ _ H') as (s'&Hs'&_&E'). pose proof (unix_timestamp_mono _ _ _ _ Hs Hs' Hle).
  rewrite E in Ha. rewrite E' in Ha'. injection Ha as <-. injection Ha' as <-. lia.
Qed.

(** ** Freshness *)

(** When [is_fresh] does not refuse for the directives of a new request: its [min-fresh] is
    compared with the lifetime less the time of the clock. *)
Definition accepted_by (reqcc : CacheControl) (age lifetime now : N) : Prop :=
  no_cache reqcc = false /\ (forall m, max_age_seconds reqcc = Some m -> age <= m) /\ (forall m, min_fresh_seconds reqcc = Some m -> m <= lifetime - now).

(** The age is within the lifetime, or the stored request allowed staleness of this amount. *)
Definition young_enough (self : CachePolicy) (age : N) : Prop :=
  age <= freshness_lifetime self \/
  must_revalidate (cc (headers (response self))) = false /\
  exists m, max_stale_seconds (req_cc (request_fields (request self))) = Some m /\ age <= freshness_lifetime self + m.

Section freshness.
Context {HM : Type} `{HeaderMap HM}.

Definition request_control (request : http_request HM) : CacheControl := control_of (default [] (collect (CacheControlParser_new (get_all (req_headers request) (bs "cache-control"))))).

Lemma from_headers_request request : from_headers (get_all (req_headers request) (bs "cache-control")) = Some (request_control request).
Proof.
  unfold from_headers, request_control. destruct (collect_parses (CacheControlParser_new (get_all (req_headers request) (bs "cache-control")))) as (ds&->&_). cbn. by rewrite from_directives_fields.
Qed.

Lemma request_refuses_spec reqcc a lifetime now s : unix_timestamp now = Some s ->
  exists b, request_refuses reqcc a lifetime now = Some b /\ (b = false <-> accepted_by reqcc a lifetime s).
Proof.
  intros Hs. unfold request_refuses, accepted_by, saturating_sub. rewrite Hs. destruct (no_cache reqcc); [exists true; split; [done|naive_solver]|].
  destruct (max_age_seconds reqcc) as [m|]; [destruct (N.ltb_spec m a) as [Hm|Hm]; [exists true; split; [done|]; split; [done|]; intros (_&Ha&_); specialize (Ha m eq_refl); lia|]|];
    (destruct (min_fresh_seconds reqcc) as [m'|]; cbn; eexists; (split; [reflexivity|]);
     [rewrite N.ltb_ge; split; [intros Hle; split_and!; naive_solver|intros (_&_&Hf); by apply Hf]|split_and!; naive_solver]).
Qed.

Lemma is_fresh_spec self now request a s : age self now = Some a -> unix_timestamp now = Some s ->
  exists b, is_fresh self now request = Some b /\
    (b = true <-> (immutable (cc (headers (response self))) = true \/ accepted_by (request_control request) a (freshness_lifetime self) s) /\ young_enough self a).
Proof.
  intros Ha Hs. unfold is_fresh. rewrite Ha. cbn -[from_headers]. rewrite from_headers_request. cbn.
  destruct (request_refuses_spec (request_control request) a (freshness_lifetime self) now s Hs) as (b&->&Hb).
  assert (exists c, (if freshness_lifetime self <? a then allows_stale ← allows_stale self now; Some (if negb allows_stale then false else true) else Some true) = Some c
    /\ (c = true <-> young_enough self a)) as (c&Ec&Hc).
  { unfold young_enough. destruct (N.ltb_spec (freshness_lifetime self) a) as [Hlt|Hge]; [|exists true; naive_solver]. unfold allows_stale, saturating_sub. rewrite Ha.
    destruct (must_revalidate _); [exists false; split; [done|]; split; [done|]; intros [?|[? _]]; [lia|done]|].
    destruct (max_stale_seconds _) as [m|]; cbn; [|exists false; split; [done|]; split; [done|]; intros [?|(_&m&?&_)]; [lia|done]].
    eexists. split; [reflexivity|]. destruct (N.leb_spec (a - freshness_lifetime self) m); cbn; (split; [|try done]).
    - intros _. right. split; [done|]. exists m. split; [done|lia].
    - done.
    - intros [?|(_&m'&[= <-]&?)]; lia. }
  destruct (immutable _); cbn; [|destruct b]; cbn.
  - rewrite Ec. exists c. split; [done|]. rewrite Hc. naive_solver.
  - exists false. split; [done|]. naive_solver.
  - rewrite Ec. exists c. split; [done|]. rewrite Hc. naive_solver.
Qed.

End freshness.

(** ** [Vary] *)

Section varying.
Context {HM : Type} `{HeaderMap HM}.

Lemma vary_fields_match request names : forall fields fields', vary_fields request names fields = Some fields' -> matches fields request = true -> matches fields' request = true.
Proof.
  induction names as [|name names IH]; intros fields fields'; cbn; [by intros [= <-]|]. case_bool_decide as Hs; [done|]. intros E Hm. apply (IH _ _ E). clear -Hm Hs.
  induction fields as [|f fields IHf]; cbn in *; [by rewrite bool_decide_false, bool_decide_true by done|].
  destruct (bool_decide (vary_name f = bs "*")); [done|]. destruct (negb (bool_decide (vary_value f = _))); [done|]. by apply IHf.
Qed.

(** A stored [Vary] matches the request it was made with, unless it cannot match. *)
Lemma vary_matches_itself request response :
  from_request_response_headers request response = always_fails_to_match \/ matches (from_request_response_headers request response) request = true.
Proof.
  unfold from_request_response_headers. assert (forall values fields, matches fields request = true ->
    vary_headers request values fields = always_fails_to_match \/ matches (vary_headers request values fields) request = true) as Hv; [|by apply Hv].
  induction values as [|v values IH]; intros fields Hm; cbn; [by right|]. destruct (to_str v) as [csv|]; [|by apply IH].
  destruct (vary_fields request (split_commas csv) fields) as [fields'|] eqn:E; [|by left]. apply IH. by apply (vary_fields_match _ _ _ _ E).
Qed.

Lemma star_never_matches request : matches always_fails_to_match request = false.
Proof. done. Qed.

(** A match compares the first value of each nominated header. *)
Lemma matches_all self request : matches self request = true <->
  Forall (fun field => vary_name field <> bs "*" /\ vary_value field = default [] (HeaderMap_get request (vary_name field))) self.
Proof.
  induction self as [|f fields IH]; cbn; [split; [constructor|done]|]. rewrite Forall_cons, <- IH.
  case_bool_decide; [naive_solver|]. case_bool_decide; cbn; naive_solver.
Qed.

End varying.

(** ** Revalidation *)

(** The two responses are the same representation as far as validators can tell. *)
Definition validators_agree (old new : ResponseHeaders) : Prop :=
  (exists e e', etag old = Some e /\ etag new = Some e' /\ weak e = false /\ weak e' = false /\ etag_value e = etag_value e') \/
  (exists t, last_modified_unix_timestamp old = Some t /\ last_modified_unix_timestamp new = Some t) \/
  (etag old = None /\ etag new = None /\ last_modified_unix_timestamp old = None /\ last_modified_unix_timestamp new = None).

Lemma is_modified_spec self new : is_modified self new = false <-> status (response new) = 304 /\ validators_agree (headers (response self)) (headers (response new)).
Proof.
  unfold is_modified, validators_agree. destruct (N.eqb_spec (status (response new)) 304) as [Hs|Hs]; cbn; [|naive_solver]. rewrite Hs.
  destruct (etag (headers (response self))) as [[e w]|], (etag (headers (response new))) as [[e' w']|]; cbn;
    destruct (last_modified_unix_timestamp (headers (response self))) as [t|], (last_modified_unix_timestamp (headers (response new))) as [t'|]; cbn;
    try destruct w; try destruct w'; cbn; try case_bool_decide; try destruct (N.eqb_spec t t'); cbn; naive_solver.
Qed.

Section revalidating.
Context {HM Timestamp : Type} `{HeaderMap HM, !HeaderMapLaws HM} `{Jiff Timestamp, !JiffLaws Timestamp}.

Lemma request_header_names : header_name (bs "if-none-match") /\ header_name (bs "if-modified-since").
Proof. split; (split; [done|]); repeat constructor. Qed.

(** The entity tag that is sent. *)
Definition strong_validator (self : CachePolicy) : option bytes :=
  match etag (headers (response self)) with Some e => if weak e then None else HeaderValue_from_bytes (HM := HM) (etag_value e) | None => None end.

(** The date that is sent when the request has none. *)
Definition date_validator (self : CachePolicy) : option bytes :=
  match last_modified_unix_timestamp (headers (response self)) with Some t => unix_timestamp_to_header (HM := HM) (Timestamp := Timestamp) t | None => None end.

Lemma set_revalidation_headers_spec self request :
  let request' := set_revalidation_headers self request in
  req_url request' = req_url request /\ req_method request' = req_method request /\
  get_all (req_headers request') (bs "if-none-match") = get_all (req_headers request) (bs "if-none-match") ++ option_list (strong_validator self) /\
  get_all (req_headers request') (bs "if-modified-since") =
    match get_all (req_headers request) (bs "if-modified-since") with [] => option_list (date_validator self) | values => values end /\
  forall name, header_name name -> name <> bs "if-none-match" -> name <> bs "if-modified-since" -> get_all (req_headers request') name = get_all (req_headers request) name.
Proof.
  destruct request_header_names as [Hn Hm]. cbn zeta. set (inm := bs "if-none-match") in *. set (ims := bs "if-modified-since") in *. assert (inm <> ims) as Hne by done.
  unfold set_revalidation_headers. fold inm ims.
  set (r1 := match etag (headers (response self)) with Some _ => _ | None => _ end).
  assert (req_url r1 = req_url request /\ req_method r1 = req_method request /\ get_all (req_headers r1) inm = get_all (req_headers request) inm ++ option_list (strong_validator self) /\
    forall name, header_name name -> name <> inm -> get_all (req_headers r1) name = get_all (req_headers request) name) as (Hu&Hmd&Hi&Ho).
  { subst r1. unfold strong_validator. destruct (etag (headers (response self))) as [[e []]|]; cbn; rewrite ?app_nil_r; try done.
    destruct (HeaderValue_from_bytes e) as [v|]; cbn; rewrite ?app_nil_r; [|done]. split_and!; [done|done|by rewrite get_all_append, decide_True by done|].
    intros name Hname Hnn. by rewrite get_all_append, decide_False by done. }
  clearbody r1. rewrite contains_some, (Ho ims) by done. unfold date_validator. destruct (get_all (req_headers request) ims) as [|v vs] eqn:Eims.
  - rewrite bool_decide_false by (intros []; done). cbn [negb]. destruct (last_modified_unix_timestamp (headers (response self))) as [t|]; [|cbn; split_and!; auto; by rewrite Ho].
    destruct (unix_timestamp_to_header t) as [v|]; [|cbn; split_and!; auto; by rewrite Ho]. cbn.
    split_and!; [done|done|by rewrite get_all_insert, decide_False by done|by rewrite get_all_insert, decide_True by done|].
    intros name Hname Hn1 Hn2. rewrite get_all_insert, decide_False by done. auto.
  - rewrite bool_decide_true by done. cbn. split_and!; [done|done|done|by rewrite Ho|]. auto.
Qed.

(** The date sent is read back as the date stored. *)
Lemma date_validator_reads self t v : last_modified_unix_timestamp (headers (response self)) = Some t -> date_validator self = Some v ->
  (s ← to_str (HM := HM) v; rfc2822_to_unix_timestamp (Timestamp := Timestamp) s) = Some t.
Proof.
  unfold date_validator, unix_timestamp_to_header, unix_timestamp_to_rfc2822, unix_timestamp_to_datetime, i64_try_from. intros ->.
  destruct (N.leb_spec t 9223372036854775807) as [Ht|]; [|done]. cbn. destruct (from_second (Z.of_N t)) as [ts|] eqn:Ef; [|done]. cbn.
  destruct (timestamp_to_rfc9110_string ts) as [s|] eqn:Es; [|done]. cbn. intros Ev. rewrite (from_str_to_str _ _ Ev). cbn. unfold rfc2822_to_unix_timestamp.
  destruct (print_parse _ _ _ Ef Es) as (ts'&->&Has). cbn. unfold u64_try_from. rewrite Has. destruct (Z.ltb_spec (Z.of_N t) 0); [lia|]. by rewrite N2Z.id.
Qed.

End revalidating.
