(* ===== verification/HttpCacheTheorems.v ===== *)
(** * What the HTTP cache policy guarantees *)

From Stdlib Require Import ZArith.
From stdpp Require Import base numbers list strings gmap.
From S2P Require Import Prelude VersionTypes VersionSmall Version VersionParser Specifier Text UrlText HttpControl HttpCache HttpCacheFacts.

#[local] Arguments bs : simpl never.

(** ** A header map, and timestamps written in decimal *)

Abbreviation pairs := (list (text * bytes)).

Definition visible (c : N) : bool := (c =? 9) || ((32 <=? c) && (c <? 127)).

Definition values_of (m : list (text * bytes)) (k : text) : list bytes := map snd (filter (fun kv => kv.1 = map to_ascii_lowercase k) m).

#[local] Arguments values_of : simpl never.

#[export] Instance pairs_map : HeaderMap pairs := {|
  get_all := values_of;
  HeaderMap_get m k := head (values_of m k);
  contains_key m k := bool_decide (values_of m k <> []);
  HeaderMap_append k v m := m ++ [(k, v)];
  HeaderMap_insert k v m := filter (fun kv => kv.1 <> k) (m : list (text * bytes)) ++ [(k, v)];
  to_str v := if forallb visible v then Some v else None;
  HeaderValue_from_bytes b := if forallb (fun c => visible c || (128 <=? c)) b then Some b else None;
  HeaderValue_from_str s := if forallb visible s then Some s else None
|}.

Lemma lower_name k : header_name k -> map to_ascii_lowercase k = k.
Proof. intros [_ H]. induction H as [|c k [_ Hc] _ IH]; [done|]. cbn [map]. by rewrite Hc, IH. Qed.

Lemma values_of_snoc m k v k' : header_name k -> header_name k' -> values_of (m ++ [(k, v)]) k' = values_of m k' ++ (if decide (k' = k) then [v] else []).
Proof.
  intros Hk Hk'. unfold values_of. rewrite (lower_name k') by done. rewrite filter_app, map_app. f_equal. cbn. unfold filter, list_filter. cbn.
  destruct (decide (k' = k)), (decide (k = k')); congruence || done.
Qed.

#[export] Instance pairs_laws : HeaderMapLaws pairs.
Proof.
  constructor; cbn.
  - done.
  - done.
  - intros m k v k' Hk Hk'. rewrite values_of_snoc by done. destruct (decide (k' = k)) as [->|]; [done|]. by rewrite app_nil_r.
  - intros m k v k' Hk Hk'. rewrite values_of_snoc by done. assert (values_of (filter (fun kv => kv.1 <> k) m) k' = if decide (k' = k) then [] else values_of m k') as ->.
    { unfold values_of. rewrite lower_name by done. rewrite list_filter_filter. destruct (decide (k' = k)) as [->|Hne].
      - rewrite (list_filter_iff _ (fun _ => False)) by (intros x; naive_solver). by induction m.
      - f_equal. apply list_filter_iff. intros x. naive_solver. }
    by destruct (decide (k' = k)); [|rewrite app_nil_r].
  - intros b v. by destruct (forallb _ b); [intros [= <-]|].
  - intros s v. destruct (forallb visible s) eqn:E; [|done]. intros [= <-]. by rewrite E.
Qed.

Definition decimal_jiff : Jiff Z := {|
  parse_timestamp s := Z.of_N <$> parse_unsigned 253402207200 s;
  timestamp_to_rfc9110_string z := Some (show_u64 (Z.to_N z));
  as_second z := z;
  from_second z := if (0 <=? z)%Z && (z <=? 253402207200)%Z then Some z else None
|}.
#[export] Existing Instance decimal_jiff.

#[export] Instance decimal_laws : JiffLaws Z.
Proof.
  constructor; cbn -[show_u64].
  - intros z t. by destruct (_ && _); [intros [= <-]|].
  - intros z t s. destruct (Z.leb_spec 0 z), (Z.leb_spec z 253402207200); cbn -[show_u64]; try done.
    intros [= <-] Es. assert (s = show_u64 (Z.to_N z)) as -> by congruence. rewrite parse_unsigned_show by (unfold u64_MAX; lia). cbn -[show_u64].
    eexists. split; [done|]. lia.
Qed.

(** ** The decision on a stored response *)

(** The stored response is one for this request. *)
Definition identified {HM} (self : CachePolicy) (request_ : http_request HM) : Prop :=
  is_storable self = true /\ uri (request self) = req_url request_ /\ (req_method request_ = GET \/ req_method request_ = HEAD).

(** When the code reuses a stored response without asking, at the second [s] and of the
    age [a]. *)
Definition reusable {HM} `{HeaderMap HM} (self : CachePolicy) (request_ : http_request HM) (a s : N) : Prop :=
  matches (vary self) (req_headers request_) = true /\
  no_cache (cc (headers (response self))) = false /\
  (immutable (cc (headers (response self))) = true \/ accepted_by (request_control request_) a (freshness_lifetime self) s) /\
  young_enough self a.

(** *** RFC 9111, on the numbers of a stored response *)

Section rfc9111.
#[local] Open Scope Z_scope.

(** Section 4.2.3: the age at the second [now]. *)
Definition rfc_current_age (self : CachePolicy) (now : Z) : Z :=
  let response_time := Z.of_N (response_time (response self)) in
  let request_time := Z.of_N (request_time (request self)) in
  let date_value := Z.of_N (header_date (response self)) in
  let age_value := Z.of_N (header_age (response self)) in
  let apparent_age := Z.max 0 (response_time - date_value) in
  let response_delay := response_time - request_time in
  let corrected_age_value := age_value + response_delay in
  let corrected_initial_age := Z.max apparent_age corrected_age_value in
  let resident_time := now - response_time in
  corrected_initial_age + resident_time.

(** Section 4.2.1: [s-maxage] in a shared cache, [max-age], [Expires]; Section 4.2.2 leaves
    the rest to the cache: ten minutes for a response that says when it was modified. *)
Definition rfc_freshness_lifetime (self : CachePolicy) : Z :=
  let rcc := cc (headers (response self)) in
  match (if shared (config self) then s_maxage_seconds rcc else None), max_age_seconds rcc, expires_unix_timestamp (headers (response self)) with
  | Some s_maxage, _, _ => Z.of_N s_maxage
  | None, Some max_age, _ => Z.of_N max_age
  | None, None, Some expires => Z.max 0 (Z.of_N expires - Z.of_N (header_date (response self)))
  | None, None, None => if bool_decide (is_Some (last_modified_unix_timestamp (headers (response self)))) then 600 else 0
  end.

(** Section 5.2.1: [no-cache], [max-age] and [min-fresh] of a request. *)
Definition rfc_accepts (reqcc : CacheControl) (current_age lifetime : Z) : Prop :=
  no_cache reqcc = false /\
  (forall m, max_age_seconds reqcc = Some m -> current_age <= Z.of_N m) /\
  (forall m, min_fresh_seconds reqcc = Some m -> Z.of_N m <= lifetime - current_age).

(** Section 4.2: fresh, or stale and allowed to be by the [max-stale] of the request
    (Section 5.2.1.2) and not forbidden by [must-revalidate] (Section 5.2.2.2). *)
Definition rfc_fresh_enough (self : CachePolicy) (reqcc : CacheControl) (current_age lifetime : Z) : Prop :=
  current_age < lifetime \/
  must_revalidate (cc (headers (response self))) = false /\ exists m, max_stale_seconds reqcc = Some m /\ current_age - lifetime <= Z.of_N m.

(** Section 4: the stored response may be used for the request without asking. Of an
    [immutable] response (RFC 8246), whatever the request says. *)
Definition rfc_reusable {HM} `{HeaderMap HM} (self : CachePolicy) (request_ : http_request HM) (now : Z) : Prop :=
  let a := rfc_current_age self now in
  let l := rfc_freshness_lifetime self in
  matches (vary self) (req_headers request_) = true /\ no_cache (cc (headers (response self))) = false /\
  (immutable (cc (headers (response self))) = true \/ rfc_accepts (request_control request_) a l) /\
  rfc_fresh_enough self (request_control request_) a l.




End rfc9111.

Section decisions.
Context {HM Timestamp : Type} `{HeaderMap HM} `{Jiff Timestamp}.
Implicit Types (self : CachePolicy).

Lemma Request_from_some (request_ : http_request HM) now : (0 <= now)%Z -> exists r, Request_from request_ now = Some r /\
  uri r = req_url request_ /\ method r = Method_from (req_method request_) /\ req_cc (request_fields r) = request_control request_ /\ unix_timestamp now = Some (request_time r).
Proof.
  intros Hnow. unfold Request_from, RequestHeaders_from. rewrite from_headers_request, unix_timestamp_some by done. cbn. eexists. by split_and!.
Qed.

(** The builder that goes with a revalidation request. *)
Definition revalidates self (request_ : http_request HM) (later : Z) (b : CachePolicyBuilder HM) (request' : http_request HM) : Prop :=
  request' = set_revalidation_headers self request_ /\ b_config b = config self /\ b_request_headers b = req_headers request' /\ Request_from request' later = Some (b_request b).

Lemma before_request_cases self (request_ : http_request HM) now later a s : (0 <= later)%Z -> age self now = Some a -> unix_timestamp now = Some s ->
  exists decision request', before_request self request_ now later = Some (decision, request') /\
    match decision with
    | Fresh => identified self request_ /\ reusable self request_ a s /\ request' = request_
    | NoMatch => ~ identified self request_ /\ request' = request_
    | Stale b => identified self request_ /\ ~ reusable self request_ a s /\ revalidates self request_ later b request'
    end.
Proof.
  intros Hl Ha Hs. destruct (Request_from_some (set_revalidation_headers self request_) later Hl) as (r&Er&_).
  unfold before_request, new_cache_policy_builder. rewrite Er. cbn [mbind option_bind].
  assert (identified self request_ -> ~ reusable self request_ a s -> exists decision request',
    Some (Stale (mkBuilder (config self) r (req_headers (set_revalidation_headers self request_))), set_revalidation_headers self request_) = Some (decision, request') /\
    match decision with
    | Fresh => identified self request_ /\ reusable self request_ a s /\ request' = request_
    | NoMatch => ~ identified self request_ /\ request' = request_
    | Stale b => identified self request_ /\ ~ reusable self request_ a s /\ revalidates self request_ later b request'
    end) as Hstale.
  { intros Hi Hr. eexists _, _. split; [reflexivity|]. split; [done|]. split; [done|]. by split_and!. }
  destruct (is_storable self) eqn:Es; cbn [negb]; [|eexists _, _; split; [reflexivity|]; split; [|done]; unfold identified; naive_solver congruence].
  case_bool_decide as Eu; cbn [negb]; [|eexists _, _; split; [reflexivity|]; split; [|done]; unfold identified; naive_solver].
  destruct (negb (bool_decide (req_method request_ = GET)) && negb (bool_decide (req_method request_ = HEAD))) eqn:Em.
  { eexists _, _. split; [reflexivity|]. split; [|done]. unfold identified. apply andb_prop in Em as [E1 E2]. repeat case_bool_decide; naive_solver. }
  assert (identified self request_) as Hi by (unfold identified; repeat case_bool_decide; naive_solver).
  destruct (matches (vary self) (req_headers request_)) eqn:Ev; cbn [negb]; [|apply Hstale; [done|unfold reusable; naive_solver congruence]].
  destruct (no_cache (cc (headers (response self)))) eqn:En; [apply Hstale; [done|unfold reusable; naive_solver congruence]|].
  destruct (is_fresh_spec self now request_ a s Ha Hs) as (b&->&Hb). cbn [mbind option_bind]. destruct b.
  - eexists _, _. split; [reflexivity|]. split; [done|]. split; [|done]. unfold reusable. naive_solver.
  - apply Hstale; [done|]. unfold reusable. naive_solver.
Qed.

(** What [Stale] says of the request and the builder. *)
Lemma stale_revalidates (self : CachePolicy) (request_ request' : http_request HM) now later builder :
  before_request self request_ now later = Some (Stale builder, request') -> uri (request self) = req_url request_ /\ revalidates self request_ later builder request'.
Proof.
  unfold before_request, new_cache_policy_builder. destruct (is_storable self); cbn [negb]; [|done]. case_bool_decide as Hu; cbn [negb]; [|done]. destruct (_ && _); [done|].
  intros E. split; [done|]. destruct (Request_from (set_revalidation_headers self request_) later) as [r|] eqn:Er; cbn [mbind option_bind] in E;
    (destruct (negb (matches _ _)); [|destruct (no_cache _); [|destruct (is_fresh self now request_) as [[]|]; cbn [mbind option_bind] in E]]); try done; injection E as <- <-; by split_and!.
Qed.


End decisions.

Definition sample_control : CacheControl := set_max_age (Some 600) CacheControl_default.

(** A page of an index, received a second after it was asked for. *)
Definition sample_policy : CachePolicy :=
  mkPolicy CacheConfig_default
    (mkRequest (bs "https://pypi.org/simple/anyio/") Get (mkRequestHeaders CacheControl_default false) 1000)
    (mkResponse 200 (mkResponseHeaders sample_control (Some 3) (Some 1000) None (Some 500) (Some (mkETag (bs "x") false))) 1001) [].

Definition sample_request : http_request pairs := mkHttpRequest (bs "https://pypi.org/simple/anyio/") GET [].


(** A request with a directive. *)
Definition directed (directive : text) : http_request pairs := mkHttpRequest (bs "https://pypi.org/simple/anyio/") GET [(bs "cache-control", directive)].

(** Where the code departs from the RFC: of an age of 200 seconds, less than the lifetime of
    600, [min-fresh=1] refuses; of an age of 700, the [max-stale=1000] of the request does
    not allow staleness; and an age of exactly the lifetime is fresh. *)
Lemma rfc_deviations :
  (rfc_reusable sample_policy (directed (bs "min-fresh=1")) 1200 /\ forall d r', before_request (Timestamp := Z) sample_policy (directed (bs "min-fresh=1")) 1200000000000 0 = Some (d, r') -> d <> Fresh) /\
  (rfc_reusable sample_policy (directed (bs "max-stale=1000")) 1700 /\ forall d r', before_request (Timestamp := Z) sample_policy (directed (bs "max-stale=1000")) 1700000000000 0 = Some (d, r') -> d <> Fresh) /\
  (rfc_current_age sample_policy 1597 = rfc_freshness_lifetime sample_policy /\ ~ rfc_reusable sample_policy sample_request 1597 /\
   before_request (Timestamp := Z) sample_policy sample_request 1597000000000 0 = Some (Fresh, sample_request)).
Proof.
  assert (forall directive now d r', (match before_request (Timestamp := Z) sample_policy (directed directive) now 0 with Some (Fresh, _) => false | _ => true end) = true ->
    before_request (Timestamp := Z) sample_policy (directed directive) now 0 = Some (d, r') -> d <> Fresh) as Hno by (intros directive now d r' Hf E ->; by rewrite E in Hf).
  unfold rfc_reusable. cbv zeta. split_and!.
  - reflexivity.
  - reflexivity.
  - right. split_and!; [reflexivity|vm_compute; congruence|]. intros m [= <-]. by vm_compute.
  - left. by vm_compute.
  - intros d r'. apply Hno. vm_compute. reflexivity.
  - reflexivity.
  - reflexivity.
  - right. split_and!; [reflexivity|vm_compute; congruence|vm_compute; congruence].
  - right. split; [reflexivity|]. eexists. split; [reflexivity|]. by vm_compute.
  - intros d r'. apply Hno. vm_compute. reflexivity.
  - reflexivity.
  - intros (_&_&_&[Hf|(_&m&Hm&_)]); [by vm_compute in Hf|discriminate Hm].
  - vm_compute. reflexivity.
Qed.

(** ** Time *)

Section time.
Context {HM Timestamp : Type} `{HeaderMap HM} `{Jiff Timestamp}.

(** C36: Freshness runs out and is never overstated. While the numbers stay below
    2^62, a response answered [Fresh] at one time was [Fresh] at every earlier time
    for the same request, and the answer bounds the true age: the seconds since the
    response's date, and the reported age plus the seconds since the request was
    sent, are both within the freshness lifetime, or exceed it by at most the
    [max-stale] of the stored request in the absence of [must-revalidate]. *)
Theorem freshness_runs_out (self : CachePolicy) (request_ : http_request HM) now now' later later' :
  sane self now -> sane self now' -> (now <= now')%Z -> (0 <= later)%Z -> (0 <= later')%Z ->
  before_request self request_ now' later' = Some (Fresh, request_) ->
  before_request self request_ now later = Some (Fresh, request_) /\
  exists s allowed, unix_timestamp now' = Some s /\
    s - header_date (response self) <= freshness_lifetime self + allowed /\
    header_age (response self) + (s - request_time (request self)) <= freshness_lifetime self + allowed /\
    (allowed = 0 \/ must_revalidate (cc (headers (response self))) = false /\ max_stale_seconds (req_cc (request_fields (request self))) = Some allowed).
Proof.
  intros Hs Hs' Hle Hl Hl' E'. destruct (age_sane _ _ Hs) as (s&Ht&_&Ea), (age_sane _ _ Hs') as (s'&Ht'&_&Ea').
  pose proof (age_mono _ _ _ _ _ Hs Hs' Hle Ea Ea') as Hmono. pose proof (unix_timestamp_mono _ _ _ _ Ht Ht' Hle) as Hsec. pose proof (age_bounds _ _ _ _ Hs' Ea' Ht') as [Hb1 Hb2].
  set (a := _ + _) in Ea. set (a' := _ + _) in Ea'. fold a a' in Hmono. fold a' in Hb1, Hb2. clearbody a a'.
  destruct (before_request_cases self request_ now' later' a' s' Hl' Ea' Ht') as (d&r&E&Hd). rewrite E in E'. injection E' as -> ->.
  destruct Hd as (Hi&(Hv&Hn&Hacc&Hy)&_). split.
  - destruct (before_request_cases self request_ now later a s Hl Ea Ht) as (d&r&E2&Hd). rewrite E2.
    assert (reusable self request_ a s) as Hr.
    { split_and!; [done|done| |].
      - destruct Hacc as [|(Hc&Hm&Hf)]; [by left|]. right. split_and!; [done| |].
        + intros m Em. specialize (Hm m Em). lia.
        + intros m Em. specialize (Hf m Em). lia.
      - destruct Hy as [|(Hmr&m&Em&Hle2)]; [left; lia|]. right. split; [done|]. exists m. split; [done|lia]. }
    destruct d as [|b|]; [by destruct Hd as (_&_&->)|by destruct Hd as (_&Hd&_)|by destruct Hd as (Hd&_)].
  - exists s'. destruct Hy as [Hy|(Hmr&m&Em&Hy)].
    + exists 0. split_and!; [done|lia|lia|by left].
    + exists m. split_and!; [done|lia|lia|by right].
Qed.

(** A response that was stored is served. Take a request, the policy built from
    its response, and any later time at which the response's age is within its
    lifetime: if the policy is storable and has neither [no-cache] nor a [Vary] of
    [*], the method is one the cache understands and the request's own directives
    accept the age, then the same request is answered [Fresh], and is left as it is. *)
Theorem stored_response_is_served (request_ : http_request HM) (response_ : http_response HM) t0 t1 builder policy now later a s :
  CachePolicyBuilder_new request_ t0 = Some builder -> build (Timestamp := Timestamp) builder response_ t1 = Some policy ->
  is_storable policy = true -> no_cache (cc (headers (response policy))) = false -> vary policy <> always_fails_to_match ->
  age policy now = Some a -> unix_timestamp now = Some s -> (0 <= later)%Z -> a <= freshness_lifetime policy ->
  accepted_by (request_control request_) a (freshness_lifetime policy) s ->
  before_request policy request_ now later = Some (Fresh, request_).
Proof.
  intros Eb Ep Hst Hnc Hvary Ha Hs Hl Hage Hacc. unfold CachePolicyBuilder_new in Eb. destruct (Request_from request_ t0) as [r|] eqn:Er; [|done]. injection Eb as <-.
  unfold build in Ep. destruct (Response_from response_ t1) as [rs|] eqn:Ers; [|done]. injection Ep as <-. cbn in Hst, Hnc, Hvary.
  assert (uri r = req_url request_ /\ method r = Method_from (req_method request_)) as [Hu Hm].
  { unfold Request_from in Er. destruct (RequestHeaders_from (req_headers request_)); [|done]. destruct (unix_timestamp t0); [|done]. by injection Er as <-. }
  destruct (before_request_cases (mkPolicy CacheConfig_default r rs (from_request_response_headers (req_headers request_) (res_headers response_))) request_ now later a s Hl Ha Hs)
    as (d&r'&->&Hd).
  assert (identified (mkPolicy CacheConfig_default r rs (from_request_response_headers (req_headers request_) (res_headers response_))) request_) as Hi.
  { split_and!; [done|done|]. unfold is_storable in Hst. cbn in Hst. rewrite Hm in Hst. unfold Method_from in Hst. do 2 (case_bool_decide; [auto|]). done. }
  destruct d as [|b|]; [by destruct Hd as (_&_&->)| |by destruct Hd as (Hd&_)]. destruct Hd as (_&Hd&_). destruct Hd. split_and!; [|done|by right|by left].
  cbn. by destruct (vary_matches_itself (req_headers request_) (res_headers response_)).
Qed.

End time.

Lemma freshness_runs_out_witness : before_request (Timestamp := Z) sample_policy sample_request 1100000000000 1100000000001 = Some (Fresh, sample_request).
Proof.
  apply (freshness_runs_out (Timestamp := Z) sample_policy sample_request 1100000000000 1200000000000 1100000000001 1200000000001);
    [split_and!; vm_compute; congruence|split_and!; vm_compute; congruence|lia|lia|lia|vm_compute; reflexivity].
Defined.

Definition sample_response : http_response pairs := mkHttpResponse 200 [(bs "cache-control", bs "max-age=600"); (bs "vary", bs "Accept, Accept-Encoding")] None None.
Definition asking : http_request pairs := mkHttpRequest (bs "https://pypi.org/simple/anyio/") GET [(bs "accept", bs "text/html")].

(** ** Revalidation *)

Section revalidation.
Context {HM Timestamp : Type} `{HeaderMap HM, !HeaderMapLaws HM} `{Jiff Timestamp, !JiffLaws Timestamp}.

(** Revalidation asks with the stored validators and believes only matching
    ones. After [Stale], the request keeps its URL, its method and every other
    header; the strong entity tag is added to [If-None-Match] (a weak one never is);
    [If-Modified-Since] is left alone when present and otherwise holds the stored
    date, which a reader of the header gets back. The server's answer is
    [NotModified] exactly for a 304 whose validators agree with the stored ones
    (equal strong tags, equal dates, or none on either side), and then the updated
    policy keeps the stored status and URL; any other answer is [Modified]. *)
Theorem revalidation_outcome (self : CachePolicy) (request_ request' : http_request HM) now later builder :
  before_request (Timestamp := Timestamp) self request_ now later = Some (Stale builder, request') ->
  (req_url request' = req_url request_ /\ req_method request' = req_method request_ /\
   (forall name, header_name name -> name <> bs "if-none-match" -> name <> bs "if-modified-since" -> get_all (req_headers request') name = get_all (req_headers request_) name) /\
   get_all (req_headers request') (bs "if-none-match") = get_all (req_headers request_) (bs "if-none-match") ++ option_list (strong_validator (HM := HM) self) /\
   get_all (req_headers request') (bs "if-modified-since") =
     match get_all (req_headers request_) (bs "if-modified-since") with [] => option_list (date_validator (HM := HM) (Timestamp := Timestamp) self) | values => values end /\
   (forall t v, last_modified_unix_timestamp (headers (response self)) = Some t -> date_validator (HM := HM) (Timestamp := Timestamp) self = Some v ->
      (s ← to_str (HM := HM) v; rfc2822_to_unix_timestamp (Timestamp := Timestamp) s) = Some t)) /\
  forall (response_ : http_response HM) t, (0 <= t)%Z -> exists fields time answer,
    ResponseHeaders_from (Timestamp := Timestamp) (res_headers response_) = Some fields /\ unix_timestamp t = Some time /\
    after_response (Timestamp := Timestamp) self builder response_ t = Some answer /\
    (res_status response_ = 304 /\ validators_agree (headers (response self)) fields /\
       (exists policy, answer = NotModified policy /\ status (response policy) = status (response self) /\ uri (request policy) = uri (request self) /\
          config policy = config self /\ headers (response policy) = fields /\ response_time (response policy) = time) \/
     ~ (res_status response_ = 304 /\ validators_agree (headers (response self)) fields) /\
       (exists policy, answer = Modified policy /\ status (response policy) = res_status response_ /\ uri (request policy) = uri (request self) /\
          config policy = config self /\ headers (response policy) = fields /\ response_time (response policy) = time)).
Proof.
  intros E. destruct (stale_revalidates _ _ _ _ _ _ E) as (Hu&Er'&Hc&Hh&Hr).
  destruct (set_revalidation_headers_spec (Timestamp := Timestamp) self request_) as (S1&S2&S3&S4&S5). rewrite <- Er' in S1, S2, S3, S4, S5.
  split; [split_and!; try done; intros t v; apply date_validator_reads|].
  intros response_ t Ht. destruct (from_headers_total (get_all (res_headers response_) (bs "cache-control"))) as [cc' Ecc].
  unfold after_response, build, Response_from, ResponseHeaders_from. rewrite Ecc. cbn -[unix_timestamp]. rewrite unix_timestamp_some by done. cbn.
  assert (uri (b_request builder) = uri (request self)) as Hub.
  { rewrite Hu. unfold Request_from in Hr. destruct (RequestHeaders_from (req_headers request')); [|done]. destruct (unix_timestamp later); [|done]. injection Hr as <-. by cbn. }
  match goal with |- context [is_modified self ?new] => pose proof (is_modified_spec self new) as Hm; destruct (is_modified self new) end;
    eexists _, _, _; (split; [reflexivity|]); (split; [reflexivity|]); (split; [reflexivity|]).
  - right. split; [intros Hv; by apply Hm in Hv|]. eexists. by split_and!.
  - left. destruct (proj1 Hm eq_refl) as [Hst Hag]. split; [done|]. split; [done|]. eexists. by split_and!.
Qed.

End revalidation.

Definition old_request : http_request pairs := mkHttpRequest (bs "https://pypi.org/simple/anyio/") GET [(bs "cache-control", bs "no-cache")].

(** ** Reading [Cache-Control] *)

(** [Cache-Control] is read as the grammar of RFC 9111 writes it. Reading
    terminates on any header values. On values written in the grammar (directives with
    an optional token or quoted string, with escapes, white space and commas) the
    parser gives back the directives in order when their names are distinct, the
    record has each field from the directive of its name, and a repeated name sets
    [must-revalidate]. *)
Theorem cache_control_reads :
  (forall values, exists control, from_headers values = Some control) /\
  forall dss values, Forall2 header_text dss values ->
    collect (CacheControlParser_new values) = Some (fst (without_duplicates ∅ (concat dss))) /\
    from_headers values = Some (control_of (fst (without_duplicates ∅ (concat dss)))) /\
    (NoDup (map directive_name (concat dss)) -> fst (without_duplicates ∅ (concat dss)) = concat dss) /\
    (~ NoDup (map directive_name (concat dss)) -> must_revalidate (control_of (fst (without_duplicates ∅ (concat dss)))) = true).
Proof.
  split; [apply from_headers_total|]. intros dss values Hv. pose proof (collect_headers _ _ Hv) as Hc. split; [done|]. split.
  { unfold from_headers. rewrite Hc. cbn [mbind option_bind]. by rewrite from_directives_fields. }
  split; [intros Hn; apply without_duplicates_distinct; [done|by intros d _ ?%elem_of_empty]|]. intros Hn. destruct (without_duplicates_repeated (concat dss) ∅) as [H|(d&Hd&Hname)].
  - by left.
  - by apply elem_of_empty in H.
  - unfold control_of. cbn [must_revalidate]. apply orb_true_iff. left. unfold present. apply existsb_exists. exists d. split; [by apply list_elem_of_In|]. by rewrite bool_decide_true.
Qed.

(** ** Where the code departs from its comments *)

Definition asked (control : bytes) : http_request pairs := mkHttpRequest (bs "https://pypi.org/simple/anyio/") GET [(bs "cache-control", control)].

(** The policy of a response received in the second it was asked for. *)
Definition received (fields : pairs) : option CachePolicy :=
  b ← CachePolicyBuilder_new sample_request 1700000000000000000; build (Timestamp := Z) b (mkHttpResponse 200 fields None None) 1700000000000000000.

Definition decision (policy : option CachePolicy) (r : http_request pairs) (now : Z) : option (BeforeRequest pairs) :=
  p ← policy; '(d, _) ← before_request (Timestamp := Z) p r now now; Some d.

(** Four places where caching departs from its comments. A request with
    [min-fresh=1] is refused a response received this very second that stays fresh for
    ten minutes, because the time to live is computed from the absolute time instead
    of the age. A response that reports the largest possible age is fresh a second
    later, since the age wraps around to zero. An [Expires] that is not a date is
    ignored instead of meaning the past, so the response is fresh for ten minutes when
    it has a [Last-Modified]. And a malformed [Cache-Control], which is said to make
    the response stale, leaves it fresh for its lifetime. *)
Theorem http_cache_defects :
  (exists p b, received [(bs "cache-control", bs "max-age=600")] = Some p /\ freshness_lifetime p = 600 /\ age p 1700000000000000000 = Some 0 /\
     decision (Some p) (asked (bs "min-fresh=1")) 1700000000000000000 = Some (Stale b)) /\
  (exists p, received [(bs "cache-control", bs "max-age=600"); (bs "age", bs "18446744073709551615")] = Some p /\
     age p 1700000000000000000 = Some 18446744073709551615 /\ age p 1700000001000000000 = Some 0 /\ decision (Some p) sample_request 1700000001000000000 = Some Fresh) /\
  (exists p, received [(bs "expires", bs "never"); (bs "last-modified", bs "500")] = Some p /\
     expires_unix_timestamp (headers (response p)) = None /\ decision (Some p) sample_request 1700000599000000000 = Some Fresh) /\
  (exists p, received [(bs "cache-control", bs "max-age=600, max-age=x")] = Some p /\
     must_revalidate (cc (headers (response p))) = true /\ decision (Some p) sample_request 1700000599000000000 = Some Fresh).
Proof.
  split; [|split; [|split]].
  - eexists _, _. split; [vm_compute; reflexivity|]. split; [vm_compute; reflexivity|]. split; vm_compute; reflexivity.
  - eexists. split; [vm_compute; reflexivity|]. split; [vm_compute; reflexivity|]. split; vm_compute; reflexivity.
  - eexists. split; [vm_compute; reflexivity|]. split; vm_compute; reflexivity.
  - eexists. split; [vm_compute; reflexivity|]. split; vm_compute; reflexivity.
Qed.
