(* ===== verification/CachedClient.v ===== *)
(** * The caching HTTP client ([uv-client/src/cached_client.rs])

    Requests are answered from a file when its policy allows, revalidated with the
    server when it does not, and the file is kept up to date. A file holds the bytes of
    the payload, the bytes of the policy and the length of the latter.

    The outside is a set of oracles: the server gives the answer to the n-th request,
    the clock its n-th reading, the file system the fault, if any, of its n-th
    operation, given the number of bytes to write. An action takes a world and returns a result and the world after it;
    [None] is a panic. *)

From Stdlib Require Import ZArith.
From stdpp Require Import base numbers list strings gmap.
From S2P Require Import Prelude VersionTypes VersionSmall Version VersionParser Specifier Text UrlText HttpControl HttpCache.

(** ** Errors *)

Section errors.
(** Errors of the network, and the details of a problem. *)
Context {NetError ProblemDetails : Type}.

(** [std::io::Error], whose kind is looked at only for a missing file *)
Inductive IoError := NotFound | OtherIo (code : N).

Inductive ArchiveError := TooShort | BadLength | BadArchive.

(** The kinds of errors that the caching client makes or looks at. *)
Inductive ErrorKind :=
| WrappedReqwestError (url : text) (err : NetError + N) (problem_details : option ProblemDetails)
| Offline (url : text)
| CacheWrite (err : IoError)
| Io (err : IoError)
| ArchiveRead (err : ArchiveError)
| ArchiveWrite
| Decode
| Encode.

Record Error := mkError { kind : ErrorKind; error_retries : N }.

(** [From<ErrorKind>] *)
Definition Error_from (kind : ErrorKind) : Error := mkError kind 0.

Definition is_file_not_exists (self : Error) : bool := match kind self with Io NotFound => true | _ => false end.

Context {CallbackError : Type}.

Inductive CachedClientError :=
| Client (retries : option N) (err : Error)
| Callback (retries : option N) (err : CallbackError).

(** Sums of [u32] wrap in the release profile. *)
Definition u32_add (a b : N) : N := (a + b) mod 2 ^ 32.

Definition with_retries (self : CachedClientError) (retries : N) : CachedClientError :=
  match self with
  | Client existing_retries err => Client (Some (u32_add (default 0 existing_retries) retries)) err
  | Callback existing_retries err => Callback (Some (u32_add (default 0 existing_retries) retries)) err
  end.

Definition retries (self : CachedClientError) : option N :=
  match self with
  | Client retries _ => retries
  | Callback retries _ => retries
  end.

(** [From<Error> for CachedClientError] *)
Definition CachedClientError_from (error : Error) : CachedClientError := Client None error.

End errors.
Arguments ErrorKind : clear implicits.
Arguments Error : clear implicits.
Arguments CachedClientError : clear implicits.

(** [From<CachedClientError<Error>> for Error], attaching the retries *)
Definition Error_from_client {NetError ProblemDetails}
    (error : CachedClientError NetError ProblemDetails (Error NetError ProblemDetails)) : Error NetError ProblemDetails :=
  match error with
  | Client (Some retries) err => mkError (kind err) retries
  | Client None err => err
  | Callback (Some retries) err => mkError (kind err) retries
  | Callback None err => err
  end.

(** ** The crates [rkyv] and [reqwest], and the payloads *)

(** [OwnedArchive<CachePolicy>]: bytes of a policy, and the policy of checked bytes *)
Class PolicyArchive := {
  archive : CachePolicy -> option bytes;
  unarchive : bytes -> option CachePolicy
}.

Class PolicyArchiveLaws `{PolicyArchive} : Prop := {
  unarchive_archive p b : archive p = Some b -> unarchive b = Some p;
  (** a policy holds nothing that could fail to be archived *)
  archive_total p : archive p <> None
}.

(** The trait [Cacheable] *)
Class Cacheable (E Payload Target : Type) := {
  from_aligned_bytes : bytes -> result Target E;
  to_bytes : Payload -> result bytes E;
  into_target : Payload -> Target
}.

Class CacheableLaws (E Payload Target : Type) `{Cacheable E Payload Target} : Prop :=
  read_back p b : to_bytes p = Ok b -> from_aligned_bytes b = Ok (into_target p).

(** [Response::error_for_status_ref]: the status, when the response is an error *)
Class StatusErrors (HM : Type) := error_for_status : http_response HM -> option N.

(** It is one for the statuses of client errors and of server errors. *)
Class StatusErrorsLaws (HM : Type) `{StatusErrors HM} : Prop :=
  error_for_status_law r : error_for_status r = if (400 <=? res_status r) && (res_status r <? 600) then Some (res_status r) else None.

(** ** The file *)

Record DataWithCachePolicy := mkData { data : bytes; cache_policy : CachePolicy }.

(** [u64::to_le_bytes] and [u64::from_le_bytes] *)
Fixpoint le_bytes (n : nat) (x : N) : bytes := match n with O => [] | S n => x mod 256 :: le_bytes n (x / 256) end.
Fixpoint from_le_bytes (s : bytes) : N := match s with [] => 0 | b :: s => b + 256 * from_le_bytes s end.

Section file_format.
Context {NetError ProblemDetails : Type} `{PolicyArchive}.
Local Abbreviation Error := (Error NetError ProblemDetails).

Definition serialize (policy : CachePolicy) (data : bytes) : result bytes Error :=
  match archive policy with
  | None => Err (Error_from ArchiveWrite)
  | Some policy_bytes => Ok (data ++ policy_bytes ++ le_bytes 8 (N.of_nat (length policy_bytes)))
  end.

(** The length of the policy, which is claimed to make the slicing below safe. The sum wraps. *)
Definition deserialize_cache_policy_len (bytes : bytes) : result N Error :=
  match checked_sub (N.of_nat (length bytes)) 8 with
  | None => Err (Error_from (ArchiveRead TooShort))
  | Some cache_policy_len_start =>
      let len := from_le_bytes (drop (N.to_nat cache_policy_len_start) bytes) in
      if N.of_nat (length bytes) <? u64_add len 8 then Err (Error_from (ArchiveRead BadLength)) else Ok len
  end.

(** [None] is the panic of a slice out of range. *)
Definition deserialize_cache_policy (bytes : bytes) : option (result DataWithCachePolicy Error) :=
  match deserialize_cache_policy_len bytes with
  | Err err => Some (Err err)
  | Ok len =>
      start ← checked_sub (N.of_nat (length bytes)) (u64_add len 8);
      let rest := drop (N.to_nat start) bytes in
      if len <=? N.of_nat (length rest) then
        let policy_bytes := take (N.to_nat len) rest in
        match unarchive policy_bytes with
        | None => Some (Err (Error_from (ArchiveRead BadArchive)))
        | Some policy => Some (Ok (mkData (take (N.to_nat start) bytes) policy))
        end
      else None
  end.

End file_format.

(** ** Actions *)

(** The file of the cache entry, the requests sent, how often the clock was read, and
    the operations on files, by the number of bytes to write. *)
Record World (HM : Type) := mkWorld {
  file : option bytes;
  sent : list (http_request HM);
  ticks : nat;
  file_operations : list N
}.
Arguments mkWorld {HM} _ _ _ _.
Arguments file {HM} _.
Arguments sent {HM} _.
Arguments ticks {HM} _.
Arguments file_operations {HM} _.

(** An action that may fail with an error, or panic. *)
Definition action (HM E A : Type) : Type := World HM -> option (result A E * World HM).

Definition ret {HM E A} (x : A) : action HM E A := fun w => Some (Ok x, w).
Definition throw {HM E A} (e : E) : action HM E A := fun w => Some (Err e, w).
Definition panic {HM E A} : action HM E A := fun _ => None.
Definition bind {HM E A B} (m : action HM E A) (k : A -> action HM E B) : action HM E B := fun w =>
  match m w with
  | None => None
  | Some (Err e, w) => Some (Err e, w)
  | Some (Ok x, w) => k x w
  end.
(** [map_err], and the conversion of [?] *)
Definition mapping {HM E F A} (f : E -> F) (m : action HM E A) : action HM F A := fun w => '(r, w) ← m w; Some (map_err f r, w).
Definition of_result {HM E A} (r : result A E) : action HM E A := fun w => Some (r, w).
(** An [expect] *)
Definition expect {HM E A} (m : option A) : action HM E A := match m with Some x => ret x | None => panic end.
(** A [match] on the result of an action *)
Definition attempt {HM E F A} (m : action HM E A) : action HM F (result A E) := fun w => '(r, w) ← m w; Some (Ok r, w).

#[export] Instance action_bind {HM E} : MBind (action HM E) := fun A B k m => bind m k.

(** [CacheControl] of the client: what to do about the header of the request *)
Inductive ControlMode := ControlNone | MustRevalidate | AllowStale | Override (header : text).

Inductive Freshness := FreshEntry | StaleEntry | MissingEntry.

Definition ControlMode_from (value : Freshness) : ControlMode :=
  match value with
  | FreshEntry => ControlNone
  | StaleEntry => MustRevalidate
  | MissingEntry => ControlNone
  end.

Inductive CachedResponse (HM : Type) :=
| FreshCache (cached : DataWithCachePolicy)
| NotModifiedCache (cached : DataWithCachePolicy) (new_policy : CachePolicy)
| ModifiedOrNew (response : http_response HM) (policy : option CachePolicy).
Arguments FreshCache {HM} _.
Arguments NotModifiedCache {HM} _ _.
Arguments ModifiedOrNew {HM} _ _.

Section client.
Context {HM Timestamp : Type} `{HeaderMap HM} `{Jiff Timestamp} `{PolicyArchive} `{StatusErrors HM}.
Context {NetError ProblemDetails CallbackError Payload Target : Type}.
Local Abbreviation Error := (Error NetError ProblemDetails).
Local Abbreviation CachedClientError := (CachedClientError NetError ProblemDetails CallbackError).
Local Abbreviation World := (World HM).
Context `{Cacheable Error Payload Target}.

(** The oracles: the server, with [OfflineError] recognised; the clock; the faults of
    the file system; and the reader of problem details. *)
Context (server : nat -> http_request HM -> result (http_response HM) NetError).
Context (offline_url : NetError -> option text).
Context (clock : nat -> Z).
Context (fault : nat -> N -> option IoError).
Context (problem_from_slice : bytes -> option ProblemDetails).

(** *** The outside *)

Definition now {E} : action HM E Z := fun w => Some (Ok (clock (ticks w)), mkWorld (file w) (sent w) (S (ticks w)) (file_operations w)).

Definition execute {E} (request : http_request HM) : action HM E (result (http_response HM) NetError) := fun w =>
  Some (Ok (server (length (sent w)) request), mkWorld (file w) (sent w ++ [request]) (ticks w) (file_operations w)).

(** A file operation either meets a fault and has no effect, or does its work. *)
Definition operate {A} (size : N) (work : option bytes -> result A IoError * option bytes) : action HM IoError A := fun w =>
  let '(r, f) := match fault (length (file_operations w)) size with Some err => (Err err, file w) | None => work (file w) end in
  Some (r, mkWorld f (sent w) (ticks w) (file_operations w ++ [size])).

Definition remove_file : action HM IoError unit := operate 0 (fun f => match f with Some _ => (Ok tt, None) | None => (Err NotFound, None) end).
Definition create_dir_all : action HM IoError unit := operate 0 (fun f => (Ok tt, f)).

(** [uv_fs::write_atomic], on Unix: a temporary file, which starts empty, is filled and then
    renamed to the file. The temporary file is gone when a step fails. *)
Definition tempfile_in : action HM IoError bytes := operate 0 (fun f => (Ok [], f)).
Definition write (temp_file data : bytes) : action HM IoError bytes := operate (N.of_nat (length data)) (fun f => (Ok data, f)).
Definition persist_with_retry (temp_file : bytes) : action HM IoError unit := operate 0 (fun _ => (Ok tt, Some temp_file)).

Definition write_atomic (data : bytes) : action HM IoError unit :=
  temp_file ← tempfile_in;
  temp_file ← write temp_file data;
  persist_with_retry temp_file.

Definition read_file : action HM IoError bytes := operate 0 (fun f => match f with Some contents => (Ok contents, f) | None => (Err NotFound, f) end).

(** *** Reading the entry *)

Definition from_path_sync : action HM Error DataWithCachePolicy :=
  contents ← mapping (fun err => Error_from (Io err)) read_file;
  r ← expect (deserialize_cache_policy contents);
  of_result r.

Definition read_cache : action HM Error (option DataWithCachePolicy) :=
  r ← attempt from_path_sync;
  match r with
  | Ok data => ret (Some data)
  | Err err =>
      if is_file_not_exists err then ret None
      else _ ← attempt remove_file; ret None
  end.

(** *** Requests *)

Definition from_reqwest_middleware (url : text) (err : NetError) : ErrorKind NetError ProblemDetails :=
  match offline_url err with
  | Some url => Offline url
  | None => WrappedReqwestError url (inl err) None
  end.

Definition extract_problem_details (response : http_response HM) : option ProblemDetails := body ← res_body response; problem_from_slice body.

(** The content type, tested in one way or the other. *)
Definition content_type (response : http_response HM) (test : text -> bool) : bool :=
  match ct ← HeaderMap_get (res_headers response) (bs "content-type"); to_str ct with Some ct => test ct | None => false end.

Definition problem_json : text := bs "application/problem+json".

Definition override_control (cache_control : ControlMode) (response : http_response HM) {E} : action HM E (http_response HM) :=
  match cache_control with
  | Override header =>
      value ← expect (HeaderValue_from_str header);
      ret (mkHttpResponse (res_status response) (HeaderMap_insert (bs "cache-control") value (res_headers response)) (res_body response) (res_retries response))
  | _ => ret response
  end.

(** [to_archived().is_storable().then(...)] *)
Definition when_storable {E} (policy : CachePolicy) : action HM E (option CachePolicy) :=
  _ ← expect (archive policy);
  ret (if is_storable policy then Some policy else None).

Definition fresh_request (request : http_request HM) (cache_control : ControlMode) : action HM Error (http_response HM * option CachePolicy) :=
  let url := req_url request in
  t ← now;
  cache_policy_builder ← expect (CachePolicyBuilder_new request t);
  answer ← execute request;
  response ← of_result (map_err (fun err => Error_from (from_reqwest_middleware url err)) answer);
  response ← override_control cache_control response;
  let retry_count := res_retries response in
  match error_for_status response with
  | Some status_error =>
      let problem_details := if content_type response (fun ct => bool_decide (is_Some (strip_prefix problem_json ct))) then extract_problem_details response else None in
      throw (Error_from_client (Client retry_count (Error_from (WrappedReqwestError url (inr status_error) problem_details))))
  | None =>
      t ← now;
      policy ← expect (build (Timestamp := Timestamp) cache_policy_builder response t);
      policy ← when_storable policy;
      ret (response, policy)
  end.

Definition send_cached_handle_stale (request : http_request HM) (cache_control : ControlMode) (cached : DataWithCachePolicy)
    (new_cache_policy_builder : CachePolicyBuilder HM) : action HM Error (CachedResponse HM) :=
  let url := req_url request in
  answer ← execute request;
  response ← of_result (map_err (fun err => Error_from (from_reqwest_middleware url err)) answer);
  match error_for_status response with
  | Some status_error =>
      let problem_details := if content_type response (fun ct => bool_decide (ct = problem_json)) then extract_problem_details response else None in
      throw (Error_from (WrappedReqwestError url (inr status_error) problem_details))
  | None =>
      response ← override_control cache_control response;
      t ← now;
      outcome ← expect (after_response (Timestamp := Timestamp) (cache_policy cached) new_cache_policy_builder response t);
      match outcome with
      | NotModified new_policy => ret (NotModifiedCache cached new_policy)
      | Modified new_policy => policy ← when_storable new_policy; ret (ModifiedOrNew response policy)
      end
  end.

(** [before_request] reads the clock, and again when it makes a builder. *)
Definition before_request_now {E} (policy : CachePolicy) (request : http_request HM) : action HM E (BeforeRequest HM * http_request HM) := fun w =>
  '(decision, request) ← before_request (Timestamp := Timestamp) policy request (clock (ticks w)) (clock (S (ticks w)));
  let ticks := match decision with Stale _ => S (S (ticks w)) | _ => S (ticks w) end in
  Some (Ok (decision, request), mkWorld (file w) (sent w) ticks (file_operations w)).

Definition send_cached (request : http_request HM) (cache_control : ControlMode) (cached : DataWithCachePolicy) : action HM Error (CachedResponse HM) :=
  let request :=
    match cache_control with
    | MustRevalidate => set_headers request (HeaderMap_insert (bs "cache-control") (bs "no-cache") (req_headers request))
    | _ => request
    end in
  p ← before_request_now (cache_policy cached) request;
  let '(decision, request) := p in
  match decision with
  | Fresh => ret (FreshCache cached)
  | Stale new_cache_policy_builder =>
      match cache_control with
      | AllowStale => ret (FreshCache cached)
      | _ => send_cached_handle_stale request cache_control cached new_cache_policy_builder
      end
  | NoMatch =>
      r ← fresh_request request cache_control;
      let '(response, policy) := r in
      ret (ModifiedOrNew response policy)
  end.

(** *** The operations of the client *)

(** What the caller makes of a response. *)
Context (response_callback : http_response HM -> result Payload CallbackError).

Definition run_response_callback (policy : option CachePolicy) (response : http_response HM) : action HM CachedClientError Target :=
  data ← of_result (map_err (Callback None) (response_callback response));
  match policy with
  | None => ret (into_target data)
  | Some policy =>
      _ ← mapping (fun err => Client None (Error_from (CacheWrite err))) create_dir_all;
      contents ← of_result (map_err CachedClientError_from (to_bytes data));
      contents ← of_result (map_err CachedClientError_from (serialize policy contents));
      _ ← mapping (fun err => Client None (Error_from (CacheWrite err))) (write_atomic contents);
      ret (into_target data)
  end.

Definition resend_and_heal_cache (request : http_request HM) (cache_control : ControlMode) : action HM CachedClientError Target :=
  _ ← attempt remove_file;
  r ← mapping CachedClientError_from (fresh_request request cache_control);
  let '(response, policy) := r in
  run_response_callback policy response.

Definition get_cacheable (request : http_request HM) (cache_control : ControlMode) : action HM CachedClientError Target :=
  let fresh_req := request in
  entry ← mapping CachedClientError_from read_cache;
  cached_response ←
    match entry with
    | Some cached => mapping CachedClientError_from (send_cached request cache_control cached)
    | None =>
        r ← mapping CachedClientError_from (fresh_request request cache_control);
        let '(response, policy) := r in
        ret (ModifiedOrNew response policy)
    end;
  match cached_response with
  | FreshCache cached =>
      match from_aligned_bytes (data cached) with
      | Ok payload => ret payload
      | Err _ => resend_and_heal_cache fresh_req cache_control
      end
  | NotModifiedCache cached new_policy =>
      contents ← of_result (map_err CachedClientError_from (serialize new_policy (data cached)));
      _ ← mapping (fun err => Client None (Error_from (CacheWrite err))) (write_atomic contents);
      match from_aligned_bytes (data cached) with
      | Ok payload => ret payload
      | Err _ => resend_and_heal_cache fresh_req cache_control
      end
  | ModifiedOrNew response policy =>
      if res_status response =? 304 then resend_and_heal_cache fresh_req cache_control
      else run_response_callback policy response
  end.

Definition skip_cache (request : http_request HM) (cache_control : ControlMode) : action HM CachedClientError Target :=
  r ← mapping CachedClientError_from (fresh_request request cache_control);
  let '(response, policy) := r in
  run_response_callback policy response.

(** *** Retries *)

(** [is_transient_network_error] of the error inside, and
    [RetryPolicy::should_retry]: the time of the next try, or none. *)
Context (is_transient_network_error : Error + CallbackError -> bool).
Context (should_retry : Z -> N -> option Z).

Definition error_of (err : CachedClientError) : Error + CallbackError := match err with Client _ err => inl err | Callback _ err => inr err end.

(** The loop around either operation. Sleeping changes nothing but the clock.
    Running out of fuel is [None]. *)
Fixpoint retry_loop (fuel : nat) (operation : action HM CachedClientError Target) (start_time : Z) (past_retries : N) : action HM CachedClientError Target :=
  match fuel with
  | O => panic
  | S fuel =>
      result ← attempt operation;
      let middleware_retries := match result with Err err => default 0 (retries err) | Ok _ => 0 end in
      let decision :=
        match result with
        | Err err => if is_transient_network_error (error_of err) then should_retry start_time (u32_add past_retries middleware_retries) else None
        | Ok _ => None
        end in
      match decision with
      | Some execute_after =>
          _ ← now;
          retry_loop fuel operation start_time (u32_add past_retries 1)
      | None =>
          of_result (if 0 <? past_retries then map_err (fun err => with_retries err past_retries) result else result)
      end
  end.

Definition get_cacheable_with_retry (fuel : nat) (request : http_request HM) (cache_control : ControlMode) : action HM CachedClientError Target :=
  start_time ← now;
  retry_loop fuel (get_cacheable request cache_control) start_time 0.

Definition skip_cache_with_retry (fuel : nat) (request : http_request HM) (cache_control : ControlMode) : action HM CachedClientError Target :=
  start_time ← now;
  retry_loop fuel (skip_cache request cache_control) start_time 0.

End client.
