(* ===== verification/CachedClientFacts.v ===== *)
(** * Reasoning about the caching client

    A logic of actions, the format of the file, and what each step of the client does
    to the world. *)

From Stdlib Require Import ZArith.
From stdpp Require Import base numbers list strings gmap.
From S2P Require Import Prelude VersionTypes VersionSmall Version VersionParser Specifier Text UrlText HttpControl HttpCache HttpCacheFacts HttpCacheTheorems CachedClient.

#[local] Arguments bs : simpl never.

(** ** Outcomes of actions

    [runs strict m w P]: when [m] returns, [P] holds of the result and the world
    after it; and when [strict], it returns. *)

Definition runs {HM E A} (strict : bool) (m : action HM E A) (w : World HM) (P : result A E -> World HM -> Prop) : Prop :=
  match m w with
  | None => strict = false
  | Some (r, w') => P r w'
  end.

Section outcomes.
Context {HM E A : Type} (strict : bool).
Implicit Types (m : action HM E A) (P : result A E -> World HM -> Prop).

Lemma acts_mono m w P Q : (forall r w', P r w' -> Q r w') -> runs strict m w P -> runs strict m w Q.
Proof. unfold runs. intros HPQ. destruct (m w) as [[r w']|]; auto. Qed.

Lemma runs_ret x w P : P (Ok x) w -> runs strict (ret x) w P.
Proof. done. Qed.

Lemma runs_throw e w P : P (Err e) w -> runs strict (throw e) w P.
Proof. done. Qed.

Lemma runs_of_result r w P : P r w -> runs strict (of_result r) w P.
Proof. done. Qed.

Lemma runs_expect o w P : (strict = true -> o <> None) -> (forall x, o = Some x -> P (Ok x) w) -> runs strict (expect o) w P.
Proof. unfold runs. destruct o as [x|]; cbn; [auto|]. intros Hs _. destruct strict; [by destruct Hs|done]. Qed.

Lemma acts_bind {B} (m : action HM E B) k w P :
  runs strict m w (fun r w' => match r with Ok x => runs strict (k x) w' P | Err e => P (Err e) w' end) -> runs strict (m ≫= k) w P.
Proof. unfold runs, mbind, action_bind, bind. destruct (m w) as [[[x|e] w']|]; auto. Qed.

Lemma runs_mapping {F} (f : F -> E) (m : action HM F A) w P : runs strict m w (fun r w' => P (map_err f r) w') -> runs strict (mapping f m) w P.
Proof. unfold runs, mapping. destruct (m w) as [[r w']|]; auto. Qed.

End outcomes.

Lemma runs_attempt {HM E F A} strict (m : action HM E A) w (P : result (result A E) F -> World HM -> Prop) :
  runs strict m w (fun r w' => P (Ok r) w') -> runs strict (attempt m) w P.
Proof. unfold runs, attempt. destruct (m w) as [[r w']|]; auto. Qed.

(** ** The file *)

Lemma le_bytes_length n x : length (le_bytes n x) = n.
Proof. revert x. induction n as [|n IH]; intros x; cbn; [done|]. by rewrite IH. Qed.

Lemma from_le_bytes_inverse n x : x < 256 ^ N.of_nat n -> from_le_bytes (le_bytes n x) = x.
Proof.
  revert x. induction n as [|n IH]; intros x Hx; [cbn in *; lia|]. cbn [le_bytes from_le_bytes]. rewrite IH.
  - pose proof (N.div_mod' x 256). lia.
  - apply N.Div0.div_lt_upper_bound. rewrite Nat2N.inj_succ, N.pow_succ_r' in Hx. lia.
Qed.

Section file_facts.
Context {NetError ProblemDetails : Type} `{PolicyArchive, !PolicyArchiveLaws}.

Lemma serialize_read policy d contents : N.of_nat (length contents) < 2 ^ 63 -> serialize (NetError := NetError) (ProblemDetails := ProblemDetails) policy d = Ok contents ->
  deserialize_cache_policy (NetError := NetError) (ProblemDetails := ProblemDetails) contents = Some (Ok (mkData d policy)).
Proof.
  unfold serialize. intros Hsize. destruct (archive policy) as [pb|] eqn:Ea; [|done]. intros E. assert (contents = d ++ pb ++ le_bytes 8 (N.of_nat (length pb))) as -> by congruence.
  set (n := N.of_nat (length pb)) in *. assert (n < 2 ^ 63) as Hl by (rewrite !length_app in Hsize; subst n; lia). assert (from_le_bytes (le_bytes 8 n) = n) as Hn by (apply from_le_bytes_inverse; change (256 ^ N.of_nat 8) with (2 ^ 64); lia).
  assert (N.of_nat (length (d ++ pb ++ le_bytes 8 n)) = N.of_nat (length d) + n + 8) as Hlen by (rewrite !length_app, le_bytes_length; subst n; lia).
  unfold deserialize_cache_policy, deserialize_cache_policy_len, checked_sub. rewrite Hlen. rewrite (proj2 (N.leb_le 8 _)) by lia.
  assert (N.to_nat (N.of_nat (length d) + n + 8 - 8) = length (d ++ pb)) as -> by (rewrite length_app; subst n; lia). rewrite (app_assoc d), drop_app_length, Hn.
  assert (u64_add n 8 = n + 8) as Eu by (unfold u64_add; apply N.mod_small; lia). rewrite Eu. rewrite (proj2 (N.ltb_ge (N.of_nat (length d) + n + 8) (n + 8))) by lia. cbn match. rewrite Eu. rewrite (proj2 (N.leb_le (n + 8) (N.of_nat (length d) + n + 8))) by lia. cbn [mbind option_bind].
  assert (N.to_nat (N.of_nat (length d) + n + 8 - (n + 8)) = length d) as -> by lia. rewrite <- app_assoc, drop_app_length, take_app_length.
  rewrite (proj2 (N.leb_le _ _)) by (rewrite length_app; subst n; lia). assert (N.to_nat n = length pb) as -> by (subst n; lia). rewrite take_app_length, (unarchive_archive _ _ Ea). done.
Qed.

(** Reading panics exactly when the length is among the eight that wrap around. *)
Lemma deserialize_panics contents : Forall (fun b => b < 256) contents ->
  deserialize_cache_policy (NetError := NetError) (ProblemDetails := ProblemDetails) contents = None <->
  (8 <= length contents)%nat /\ 2 ^ 64 - 8 <= from_le_bytes (drop (length contents - 8) contents) /\
  u64_add (from_le_bytes (drop (length contents - 8) contents)) 8 <= N.of_nat (length contents).
Proof.
  intros Hb. unfold deserialize_cache_policy, deserialize_cache_policy_len, checked_sub. destruct (N.leb_spec 8 (N.of_nat (length contents))) as [H8|H8]; [|split; [done|lia]].
  assert (N.to_nat (N.of_nat (length contents) - 8) = (length contents - 8)%nat) as -> by lia. set (len := from_le_bytes _).
  assert (len < 2 ^ 64) as Hlen.
  { subst len. assert (forall s, Forall (fun b => b < 256) s -> from_le_bytes s < 256 ^ N.of_nat (length s)) as Hle.
    { induction 1 as [|b s Hlt _ IH]; [done|]. cbn [from_le_bytes length]. rewrite Nat2N.inj_succ, N.pow_succ_r'. lia. }
    specialize (Hle _ (Forall_drop _ (length contents - 8) _ Hb)). rewrite length_drop in Hle. replace (length contents - (length contents - 8))%nat with 8%nat in Hle by lia. exact Hle. }
  clearbody len. destruct (N.ltb_spec (N.of_nat (length contents)) (u64_add len 8)) as [Hlt|Hge]; [split; [done|lia]|].
  rewrite (proj2 (N.leb_le (u64_add len 8) _)) by lia. cbn [mbind option_bind]. rewrite length_drop.
  destruct (N.leb_spec len (N.of_nat (length contents - N.to_nat (N.of_nat (length contents) - u64_add len 8)))) as [Hl|Hl].
  - split; [by destruct (unarchive _)|]. intros (_&Hbig&_). exfalso. assert (u64_add len 8 = len + 8 - 2 ^ 64) as Eu; [|lia].
    unfold u64_add. rewrite <- (N.mod_small (len + 8 - 2 ^ 64) (2 ^ 64)) by lia. replace (len + 8) with (len + 8 - 2 ^ 64 + 1 * 2 ^ 64) at 1 by lia. by rewrite N.Div0.mod_add.
  - split; [intros _|done]. split; [lia|]. split; [|done]. destruct (N.le_gt_cases (2 ^ 64 - 8) len) as [|Hs]; [done|exfalso].
    assert (u64_add len 8 = len + 8) as Eu by (unfold u64_add; apply N.mod_small; lia). rewrite Eu in *. lia.
Qed.

End file_facts.

(** ** Steps of the client *)

(** A request to the same place. *)
Definition same_target {HM} (request request' : http_request HM) : Prop := req_url request' = req_url request /\ req_method request' = req_method request.

(** The world after some requests to the same place, at most [n] of them. *)
Definition grows {HM} (request : http_request HM) (n : nat) (w w' : World HM) : Prop :=
  exists l, sent w' = sent w ++ l /\ (length l <= n)%nat /\ Forall (same_target request) l.

Lemma grows_none {HM} (request : http_request HM) (w w' : World HM) : sent w' = sent w -> grows request 0 w w'.
Proof. intros E. exists []. by rewrite E, app_nil_r. Qed.

Lemma grows_one {HM} (request request' : http_request HM) (w w' : World HM) : same_target request request' -> sent w' = sent w ++ [request'] -> grows request 1 w w'.
Proof. intros Hs E. exists [request']. split; [done|]. split; [done|]. by constructor. Qed.

Lemma grows_trans {HM} (request : http_request HM) n m k (w1 w2 w3 : World HM) : (n + m <= k)%nat -> grows request n w1 w2 -> grows request m w2 w3 -> grows request k w1 w3.
Proof.
  intros Hle (l1&E1&Hl1&F1) (l2&E2&Hl2&F2). exists (l1 ++ l2). rewrite E2, E1, app_assoc. split; [done|]. rewrite length_app. split; [lia|]. by apply Forall_app.
Qed.

Lemma grows_weaken {HM} (request : http_request HM) n k (w w' : World HM) : (n <= k)%nat -> grows request n w w' -> grows request k w w'.
Proof. intros Hle (l&E&Hl&F). exists l. split; [done|]. split; [lia|done]. Qed.

Lemma same_target_refl {HM} (request : http_request HM) : same_target request request.
Proof. done. Qed.

(** The operations on files only grow. *)
Ltac ops :=
  first [lia | idtac];
  repeat match goal with E : file_operations ?w = _ |- context [file_operations ?w] => rewrite E end; repeat apply prefix_app_r;
  first [done | assumption | etransitivity; eassumption | etransitivity; [eassumption|]; repeat match goal with E : file_operations ?w = _ |- context [file_operations ?w] => rewrite E end; repeat apply prefix_app_r; assumption].

(** A step of an action that is made of simpler ones. *)
Ltac step := first [apply acts_bind | apply runs_mapping | apply runs_attempt | apply runs_of_result | apply runs_ret | apply runs_throw]; cbn [map_err].

Section steps.
Context {HM Timestamp : Type} `{HeaderMap HM} `{Jiff Timestamp} `{PolicyArchive, !PolicyArchiveLaws} `{StatusErrors HM, !StatusErrorsLaws HM}.
Context {NetError ProblemDetails CallbackError Payload Target : Type}.
Local Abbreviation Error := (Error NetError ProblemDetails).
Context `{Cacheable Error Payload Target}.
Context (server : nat -> http_request HM -> result (http_response HM) NetError) (offline_url : NetError -> option text) (clock : nat -> Z)
  (fault : nat -> N -> option IoError) (problem_from_slice : bytes -> option ProblemDetails) (response_callback : http_response HM -> result Payload CallbackError).
Local Abbreviation fresh_request := (fresh_request (Timestamp := Timestamp) server offline_url clock problem_from_slice).
Local Abbreviation send_cached := (send_cached (Timestamp := Timestamp) server offline_url clock problem_from_slice).

(** The response is what the server said to its [n]-th request, but for an overridden header. *)
Definition gave (n : nat) (request : http_request HM) (response : http_response HM) : Prop :=
  exists original, server n request = Ok original /\ res_status response = res_status original /\ res_body response = res_body original.

(** The server gave no usable answer. *)
Definition failed (n : nat) (request : http_request HM) : Prop :=
  (exists err, server n request = Err err) \/ exists response, server n request = Ok response /\ error_for_status response <> None.

(** What must hold for no step to panic. *)
Definition safe (strict : bool) (cache_control : ControlMode) : Prop :=
  strict = true -> (forall n, (0 <= clock n)%Z) /\
    match cache_control with Override header => HeaderValue_from_str (HM := HM) header <> None | _ => True end.

Lemma override_runs {E} strict cache_control response (w : World HM) (P : result (http_response HM) E -> World HM -> Prop) : safe strict cache_control ->
  (forall response', res_status response' = res_status response -> res_body response' = res_body response -> P (Ok response') w) -> runs strict (override_control cache_control response) w P.
Proof.
  intros Hsafe HP. unfold override_control. destruct cache_control as [| | |header]; try (step; by apply HP). step.
  apply runs_expect; [intros Hs; by destruct (Hsafe Hs) as (_&?)|]. intros v _. step. by apply HP.
Qed.

Lemma when_storable_runs {E} strict policy (w : World HM) (P : result (option CachePolicy) E -> World HM -> Prop) :
  P (Ok (if is_storable policy then Some policy else None)) w -> runs strict (when_storable policy) w P.
Proof. intros HP. unfold when_storable. step. apply runs_expect; [intros _; apply archive_total|]. intros _ _. by step. Qed.

Lemma error_for_status_same (r r' : http_response HM) : res_status r' = res_status r -> error_for_status r' = error_for_status r.
Proof. rewrite !error_for_status_law. by intros ->. Qed.

Lemma build_some (builder : CachePolicyBuilder HM) (response_ : http_response HM) t : (0 <= t)%Z -> build (Timestamp := Timestamp) builder response_ t <> None.
Proof.
  intros Ht. unfold build, Response_from, ResponseHeaders_from. destruct (from_headers_total (get_all (res_headers response_) (bs "cache-control"))) as [c ->]. cbn -[unix_timestamp].
  by rewrite unix_timestamp_some.
Qed.

Lemma build_status (builder : CachePolicyBuilder HM) (response_ : http_response HM) t policy : build (Timestamp := Timestamp) builder response_ t = Some policy -> status (response policy) = res_status response_.
Proof.
  unfold build, Response_from. destruct (ResponseHeaders_from (res_headers response_)); [|done]. destruct (unix_timestamp t); [|done]. by intros [= <-].
Qed.

Lemma Request_from_none (request_ : http_request HM) t : (0 <= t)%Z -> Request_from request_ t <> None.
Proof. intros Ht. unfold Request_from, RequestHeaders_from. rewrite from_headers_request, unix_timestamp_some by done. done. Qed.

(** What a fresh request does, and a response that comes with a policy. *)
Definition answered (n : nat) (request : http_request HM) (response_ : http_response HM) (policy : option CachePolicy) : Prop :=
  gave n request response_ /\ error_for_status response_ = None /\ forall p, policy = Some p -> is_storable p = true /\ status (response p) = res_status response_.

Lemma fresh_request_runs strict request cache_control (w : World HM) : safe strict cache_control ->
  runs strict (fresh_request request cache_control) w (fun r w' =>
    file w' = file w /\ sent w' = sent w ++ [request] /\ file_operations w' = file_operations w /\
    match r with Ok (response, policy) => answered (length (sent w)) request response policy | Err _ => failed (length (sent w)) request end).
Proof.
  intros Hsafe. unfold CachedClient.fresh_request. step. cbn -[mbind]. step. apply runs_expect.
  { intros Hs. destruct (Hsafe Hs) as (Hc&_). unfold CachePolicyBuilder_new. destruct (Request_from request (clock (ticks w))) eqn:E; [done|]. exfalso. by apply (Request_from_none request (clock (ticks w))). }
  intros builder _. step. cbn -[mbind]. step. step. destruct (server (length (sent w)) request) as [original|err] eqn:Es; cbn [map_err]; [|split_and!; try done; left; eauto].
  step. apply (override_runs strict cache_control); [done|]. intros response' Hst Hb. rewrite (error_for_status_same _ _ Hst). destruct (error_for_status original) as [status_error|] eqn:Ee.
  - step. split_and!; try done. right. exists original. split; [done|]. by rewrite Ee.
  - step. cbn -[mbind]. step. apply runs_expect; [intros Hs; destruct (Hsafe Hs) as (Hc&_); by apply build_some|]. intros policy Ep. step. apply when_storable_runs. step. cbn.
    split_and!; try done. split; [by exists original|]. split; [by rewrite (error_for_status_same _ _ Hst)|].
    intros p. destruct (is_storable policy) eqn:Esto; [|done]. intros [= <-]. split; [done|]. by apply build_status in Ep.
Qed.

Lemma set_revalidation_target self (request : http_request HM) : same_target request (set_revalidation_headers (Timestamp := Timestamp) self request).
Proof.
  unfold set_revalidation_headers, same_target, set_headers. set (r := match etag (headers (response self)) with Some _ => _ | None => _ end).
  assert (req_url r = req_url request /\ req_method r = req_method request) as [Hu Hm].
  { subst r. destruct (etag _) as [e|]; [|done]. destruct (negb (weak e)); [|done]. by destruct (HeaderValue_from_bytes _). }
  clearbody r. destruct (negb _); [|done]. destruct (last_modified_unix_timestamp _); [|done]. by destruct (unix_timestamp_to_header _).
Qed.

Lemma before_request_target self (request request' : http_request HM) t t' decision :
  before_request (Timestamp := Timestamp) self request t t' = Some (decision, request') -> same_target request request'.
Proof.
  destruct decision as [|builder|]; intros E.
  2: { apply stale_revalidates in E as (_&->&_). apply set_revalidation_target. }
  all: unfold before_request, new_cache_policy_builder in E; repeat (case_match; simplify_eq; try apply same_target_refl);
    destruct (Request_from (set_revalidation_headers self request) t') as [r|]; cbn [mbind option_bind] in E; try done;
    destruct (is_fresh self t request) as [[]|]; cbn [mbind option_bind] in E; by simplify_eq.
Qed.

Lemma before_request_now_runs {E} strict cache_control policy request (w : World HM) (P : result (BeforeRequest HM * http_request HM) E -> World HM -> Prop) : safe strict cache_control ->
  (forall decision request' w', before_request (Timestamp := Timestamp) policy request (clock (ticks w)) (clock (S (ticks w))) = Some (decision, request') ->
     file w' = file w -> sent w' = sent w -> file_operations w' = file_operations w -> P (Ok (decision, request')) w') ->
  runs strict (before_request_now (Timestamp := Timestamp) clock policy request) w P.
Proof.
  intros Hsafe HP. unfold runs, before_request_now. destruct (before_request policy request (clock (ticks w)) (clock (S (ticks w)))) as [[decision request']|] eqn:Eb; cbn [mbind option_bind]; [by apply HP|].
  destruct strict; [exfalso|done]. destruct (Hsafe eq_refl) as (Hc&_). pose proof (unix_timestamp_some _ (Hc (ticks w))) as Hs.
  destruct (age policy (clock (ticks w))) as [a|] eqn:Ea; [|unfold age in Ea; by rewrite Hs in Ea].
  destruct (before_request_cases (Timestamp := Timestamp) policy request (clock (ticks w)) (clock (S (ticks w))) a _ (Hc _) Ea Hs) as (d&r'&E'&_). congruence.
Qed.

(** What became of a stored response after asking, if it was asked about. *)
Definition resolved (cached : DataWithCachePolicy) (w w' : World HM) (r : CachedResponse HM) : Prop :=
  match r with
  | FreshCache cached' => cached' = cached
  | NotModifiedCache cached' new_policy => cached' = cached /\ status (response new_policy) = status (response (cache_policy cached))
  | ModifiedOrNew response_ policy => exists request', sent w' = sent w ++ [request'] /\ answered (length (sent w)) request' response_ policy
  end.

Lemma send_cached_handle_stale_runs strict request0 request cache_control cached builder (w : World HM) : safe strict cache_control -> same_target request0 request ->
  runs strict (send_cached_handle_stale (Timestamp := Timestamp) server offline_url clock problem_from_slice request cache_control cached builder) w (fun r w' =>
    file w' = file w /\ sent w' = sent w ++ [request] /\ file_operations w' = file_operations w /\
    match r with Ok cached_response => resolved cached w w' cached_response | Err _ => failed (length (sent w)) request end).
Proof.
  intros Hsafe Hsame. unfold send_cached_handle_stale. step. cbn -[mbind]. step. step. destruct (server (length (sent w)) request) as [original|err] eqn:Es; cbn [map_err]; [|split_and!; try done; left; eauto].
  destruct (error_for_status original) as [status_error|] eqn:Ee; [step; split_and!; try done; right; exists original; split; [done|]; by rewrite Ee|].
  step. apply (override_runs strict cache_control); [done|]. intros response' Hst Hb. step. cbn -[mbind]. step. apply runs_expect.
  { intros Hs. destruct (Hsafe Hs) as (Hc&_). unfold after_response. destruct (build builder response' (clock (ticks w))) as [p|] eqn:Ebu; cbn [mbind option_bind]; [by destruct (is_modified _ p)|].
    exfalso. by apply (build_some builder response' (clock (ticks w))). }
  intros outcome Eo. unfold after_response in Eo. destruct (build builder response' (clock (ticks w))) as [p|] eqn:Ebu; [|done]. cbn [mbind option_bind] in Eo.
  destruct (is_modified (cache_policy cached) p); injection Eo as <-.
  - step. apply when_storable_runs. step. cbn. split_and!; try done. exists request. split; [done|]. split; [by exists original|]. split; [by rewrite (error_for_status_same _ _ Hst)|].
    intros p'. destruct (is_storable p) eqn:Ep; [|done]. intros [= <-]. split; [done|]. by apply build_status in Ebu.
  - step. by split_and!.
Qed.

Lemma send_cached_runs strict request cache_control cached (w : World HM) : safe strict cache_control ->
  runs strict (send_cached request cache_control cached) w (fun r w' =>
    file w' = file w /\ file_operations w' = file_operations w /\ grows request 1 w w' /\
    match r with Ok cached_response => resolved cached w w' cached_response | Err _ => exists request', sent w' = sent w ++ [request'] /\ failed (length (sent w)) request' end).
Proof.
  intros Hsafe. unfold CachedClient.send_cached.
  set (request1 := match cache_control with MustRevalidate => _ | _ => request end). assert (same_target request request1) as Hsame by (by destruct cache_control). clearbody request1.
  step. apply (before_request_now_runs strict cache_control); [done|]. intros decision request' w1 Eb Hf Hs Hio. apply before_request_target in Eb as [Hu Hm].
  assert (same_target request request') as Hsame' by (destruct Hsame; split; congruence). rewrite <- Hf, <- Hio.
  assert (forall w', sent w' = sent w1 -> grows request 1 w w') as Hnone by (intros w' E; apply (grows_weaken _ 0); [lia|]; apply grows_none; congruence).
  assert (forall w', sent w' = sent w1 ++ [request'] -> grows request 1 w w') as Hone by (intros w' E; apply (grows_one _ request'); [done|]; congruence).
  destruct decision as [|builder|].
  - step. split_and!; try done. by apply Hnone.
  - assert (runs strict (send_cached_handle_stale (Timestamp := Timestamp) server offline_url clock problem_from_slice request' cache_control cached builder) w1 (fun r w' =>
      file w' = file w1 /\ file_operations w' = file_operations w1 /\ grows request 1 w w' /\
      match r with Ok cached_response => resolved cached w w' cached_response | Err _ => exists request', sent w' = sent w ++ [request'] /\ failed (length (sent w)) request' end)) as Hst.
    { eapply acts_mono; [|by apply (send_cached_handle_stale_runs strict request)]. cbn beta. intros r w' (E1&E2&E3&Hr). split_and!; [done|done|by apply Hone|].
      destruct r as [cr|err]; [|exists request'; split; [congruence|by rewrite <- Hs]]. unfold resolved in *. rewrite <- Hs. by destruct cr. }
    destruct cache_control; try exact Hst. step. split_and!; try done. by apply Hnone.
  - step. eapply acts_mono; [|by apply (fresh_request_runs strict)]. cbn beta. intros r w' (E1&E2&E3&Hr). destruct r as [[resp pol]|err].
    + step. split_and!; [done|done|by apply Hone|]. exists request'. rewrite <- Hs. done.
    + split_and!; [done|done|by apply Hone|]. exists request'. rewrite <- Hs. done.
Qed.

(** *** Causes of failure *)

(** The server gave the response between the two worlds. *)
Definition receives (w w' : World HM) (response_ : http_response HM) : Prop :=
  exists n request, (length (sent w) <= n)%nat /\ sent w' !! n = Some request /\ gave n request response_.

(** Between the two worlds something outside went wrong: the file system, the server,
    the callback, or the encoding of the payload. *)
Definition excused (w w' : World HM) : Prop :=
  (exists n size, (length (file_operations w) <= n)%nat /\ file_operations w' !! n = Some size /\ fault n size <> None) \/
  (exists n request, (length (sent w) <= n)%nat /\ sent w' !! n = Some request /\ failed n request) \/
  (exists response_ err, receives w w' response_ /\ response_callback response_ = Err err) \/
  (exists response_ payload err, receives w w' response_ /\ response_callback response_ = Ok payload /\ to_bytes payload = Err err).

(** Nothing sent is forgotten, and operations are counted. *)
Definition later (w w' : World HM) : Prop := sent w `prefix_of` sent w' /\ file_operations w `prefix_of` file_operations w'.

Lemma later_refl w : later w w.
Proof. done. Qed.

Lemma later_trans w1 w2 w3 : later w1 w2 -> later w2 w3 -> later w1 w3.
Proof. intros [P1 L1] [P2 L2]. split; by etransitivity. Qed.

Lemma later_eq w w' : sent w' = sent w -> file_operations w `prefix_of` file_operations w' -> later w w'.
Proof. intros E Hl. split; [by rewrite E|done]. Qed.

Lemma later_snoc w w' request : sent w' = sent w ++ [request] -> file_operations w `prefix_of` file_operations w' -> later w w'.
Proof. intros E Hl. split; [rewrite E; by apply prefix_app_r|done]. Qed.

Lemma receives_later w0 w1 w2 w3 response_ : later w0 w1 -> later w2 w3 -> receives w1 w2 response_ -> receives w0 w3 response_.
Proof.
  intros [P01 _] [P23 _] (n&r&Hn&Hr&Hg). exists n, r. apply prefix_length in P01. split; [lia|]. split; [|done]. by apply (prefix_lookup_Some (sent w2)).
Qed.

Lemma excused_later w0 w1 w2 w3 : later w0 w1 -> later w2 w3 -> excused w1 w2 -> excused w0 w3.
Proof.
  intros L01 L23 H'. pose proof L01 as [Hp Hf]. pose proof L23 as [Hp' Hf']. apply prefix_length in Hp, Hf. destruct H' as [(n&z&Hn&Hz&Hfl)|[(n&r&Hn&Hr&Hfl)|[(re&err&Hr&Hc)|(re&p&err&Hr&Hc&Hb)]]].
  - left. exists n, z. split; [lia|]. split; [by apply (prefix_lookup_Some (file_operations w2))|done].
  - right; left. exists n, r. split; [lia|]. split; [by apply (prefix_lookup_Some (sent w2))|done].
  - right; right; left. exists re, err. split; [by apply (receives_later w0 w1 w2 w3)|done].
  - do 3 right. exists re, p, err. split; [by apply (receives_later w0 w1 w2 w3)|done].
Qed.

(** A file operation: the world after it, and a fault if it failed otherwise than by
    its own work. *)
Lemma operate_runs {A} strict size (work : option bytes -> result A IoError * option bytes) (w : World HM) (P : result A IoError -> World HM -> Prop) :
  (forall err w', fault (length (file_operations w)) size = Some err -> file w' = file w -> sent w' = sent w -> file_operations w' = file_operations w ++ [size] -> P (Err err) w') ->
  (forall w', file w' = snd (work (file w)) -> sent w' = sent w -> file_operations w' = file_operations w ++ [size] -> P (fst (work (file w))) w') ->
  runs strict (operate fault size work) w P.
Proof.
  intros Hf Hw. unfold runs, operate. destruct (fault (length (file_operations w)) size) as [err|] eqn:Ef; [by apply Hf|]. destruct (work (file w)) as [r f] eqn:Ew. cbn in *. by apply Hw.
Qed.

(** Writing the file: it holds the contents, or is as it was and one of the steps met a
    fault. *)
Lemma write_atomic_runs strict contents (w : World HM) (P : result unit IoError -> World HM -> Prop) :
  (forall err w' n size, (length (file_operations w) <= n)%nat -> file_operations w' !! n = Some size -> fault n size <> None ->
     file w' = file w -> sent w' = sent w -> file_operations w `prefix_of` file_operations w' -> P (Err err) w') ->
  (forall w', file w' = Some contents -> sent w' = sent w -> file_operations w `prefix_of` file_operations w' -> P (Ok tt) w') ->
  runs strict (write_atomic fault contents) w P.
Proof.
  intros Hf Hw. unfold write_atomic, tempfile_in, write, persist_with_retry. step. apply operate_runs.
  { intros err w1 Ef E1 E2 E3. apply (Hf err w1 (length (file_operations w)) 0); [done|by rewrite E3; apply list_lookup_middle|by rewrite Ef|done|done|ops]. }
  intros w1 E1 E2 E3. cbn [fst snd] in *. step. apply operate_runs.
  { intros err w2 Ef F1 F2 F3. apply (Hf err w2 (length (file_operations w1)) (N.of_nat (length contents)));
      [rewrite E3, length_app; lia|by rewrite F3; apply list_lookup_middle|by rewrite Ef|congruence|congruence|ops]. }
  intros w2 F1 F2 F3. cbn [fst snd] in *. apply operate_runs.
  { intros err w3 Ef G1 G2 G3. apply (Hf err w3 (length (file_operations w2)) 0);
      [rewrite F3, E3, !length_app; lia|by rewrite G3; apply list_lookup_middle|by rewrite Ef|congruence|congruence|ops]. }
  intros w3 G1 G2 G3. apply Hw; [done|congruence|ops].
Qed.

Definition readable (strict : bool) (w : World HM) : Prop :=
  strict = true -> match file w with Some contents => deserialize_cache_policy (NetError := NetError) (ProblemDetails := ProblemDetails) contents <> None | None => True end.

Lemma read_cache_runs strict (w : World HM) : readable strict w ->
  runs strict (read_cache (ProblemDetails := ProblemDetails) (NetError := NetError) fault) w (fun r w' => sent w' = sent w /\ file_operations w `prefix_of` file_operations w' /\
    match r with
    | Ok (Some cached) => file w' = file w /\ exists contents, file w = Some contents /\
        deserialize_cache_policy (NetError := NetError) (ProblemDetails := ProblemDetails) contents = Some (Ok cached)
    | Ok None => file w' = file w \/ file w' = None
    | Err _ => False
    end).
Proof.
  intros Hread. unfold read_cache, from_path_sync, read_file, remove_file. step. step. step. step.
  assert (forall (err : Error) (w1 : World HM), file w1 = file w -> sent w1 = sent w -> file_operations w `prefix_of` file_operations w1 ->
    runs strict (if is_file_not_exists err then ret None else attempt (operate fault 0 (fun f => match f with Some _ => (Ok tt, None) | None => (Err NotFound, None) end)) ≫= fun _ => ret None) w1
      (fun (r : result (option DataWithCachePolicy) Error) w' => sent w' = sent w /\ file_operations w `prefix_of` file_operations w' /\
        match r with
        | Ok (Some cached) => file w' = file w /\ exists contents, file w = Some contents /\
            deserialize_cache_policy (NetError := NetError) (ProblemDetails := ProblemDetails) contents = Some (Ok cached)
        | Ok None => file w' = file w \/ file w' = None
        | Err _ => False
        end)) as Hnone.
  { intros err w1 E1 E2 E3. destruct (is_file_not_exists err); [step; split_and!; auto|]. step. step. apply operate_runs.
    - intros e w' _ F1 F2 F3. step. split_and!; [congruence|ops|left; congruence].
    - intros w' F1 F2 F3. step. split_and!; [congruence|ops|]. destruct (file w1); by right. }
  apply operate_runs.
  - intros err w' _ E1 E2 E3. cbn [map_err]. apply Hnone; [done|done|ops].
  - intros w' E1 E2 E3. destruct (file w) as [contents|] eqn:Ef; cbn [fst snd map_err] in *; [|apply Hnone; [congruence|done|ops]].
    step. apply runs_expect; [intros Hs; specialize (Hread Hs); by rewrite Ef in Hread|]. intros r Er. step. destruct r as [cached|err]; cbn [map_err].
    + step. split_and!; [done|ops|done|]. by exists contents.
    + apply Hnone; [done|done|ops].
Qed.

(** *** Storing and healing *)

(** The file was written for the response that the callback made the payload of. *)
Definition wrote (response_ : http_response HM) (policy : option CachePolicy) (payload : Payload) (w w' : World HM) : Prop :=
  match policy with
  | None => file w' = file w
  | Some policy => exists d contents, to_bytes payload = Ok d /\ serialize (NetError := NetError) (ProblemDetails := ProblemDetails) policy d = Ok contents /\ file w' = Some contents
  end.

(** Why a result that is not there is not there: one of the causes that need no request. *)
Definition excused_here (response_ : http_response HM) (w w' : World HM) : Prop :=
  (exists n size, (length (file_operations w) <= n)%nat /\ file_operations w' !! n = Some size /\ fault n size <> None) \/ (exists err, response_callback response_ = Err err) \/
  (exists payload err, response_callback response_ = Ok payload /\ to_bytes payload = Err err).

Lemma excused_here_later w0 w1 w2 response_ : later w0 w1 -> later w1 w2 -> receives w0 w1 response_ -> excused_here response_ w1 w2 -> excused w0 w2.
Proof.
  intros L01 L12 Hr H'. pose proof L01 as [_ Hf]. apply prefix_length in Hf. destruct H' as [(n&z&Hn&Hz&Hfl)|[(err&Hc)|(p&err&Hc&Hb)]].
  - left. exists n, z. split; [ops|done].
  - right; right; left. exists response_, err. split; [|done]. by apply (receives_later w0 w0 w1 w2); [apply later_refl| |].
  - do 3 right. exists response_, p, err. split; [|done]. by apply (receives_later w0 w0 w1 w2); [apply later_refl| |].
Qed.

Lemma run_response_callback_runs strict policy response_ (w : World HM) :
  runs strict (run_response_callback (NetError := NetError) (ProblemDetails := ProblemDetails) fault response_callback policy response_) w (fun r w' =>
    sent w' = sent w /\ file_operations w `prefix_of` file_operations w' /\
    match r with
    | Ok target => exists payload, response_callback response_ = Ok payload /\ target = into_target payload /\ wrote response_ policy payload w w'
    | Err err => retries err = None /\ file w' = file w /\ excused_here response_ w w'
    end).
Proof.
  unfold run_response_callback. step. step. destruct (response_callback response_) as [payload|err] eqn:Ec; cbn [map_err]; [|split_and!; try done; right; left; eauto].
  destruct policy as [policy|]; [|step; split_and!; try done; by exists payload]. unfold create_dir_all. step. step. apply operate_runs.
  { intros e w1 Ef E1 E2 E3. cbn [map_err]. split_and!; try done; [ops|]. left. eexists _, _. split; [done|]. split; [by rewrite E3; apply list_lookup_middle|by rewrite Ef]. }
  intros w1 E1 E2 E3. cbn [fst snd map_err] in *. step. step. destruct (to_bytes payload) as [d|err] eqn:Ed; cbn [map_err]; [|split_and!; try done; [ops|]; do 2 right; eauto].
  step. step. destruct (serialize policy d) as [contents|err] eqn:Es; cbn [map_err].
  2: { exfalso. unfold serialize in Es. destruct (archive policy) eqn:Ea; [done|by apply (archive_total policy)]. }
  assert (forall l, file_operations w1 `prefix_of` l -> file_operations w `prefix_of` l) as Hops by (intros l Hl; etrans; [|exact Hl]; rewrite E3; by apply prefix_app_r).
  step. step. apply write_atomic_runs.
  - intros e w2 n size Hn Hsize Ef F1 F2 F3. cbn [map_err]. split_and!; try done; try congruence; [by apply Hops|]. left. exists n, size. split_and!; [rewrite E3, length_app in Hn; lia|done|done].
  - intros w2 F1 F2 F3. cbn [map_err] in *. step. split_and!; [congruence|by apply Hops|]. exists payload. split_and!; try done. by exists d, contents.
Qed.

(** An outcome of an operation of the client: which requests were sent, what the file is
    now, and what was returned, or why nothing was. *)
Definition outcome (request : http_request HM) (n : nat) (w : World HM) (r : result Target (CachedClientError NetError ProblemDetails CallbackError)) (w' : World HM) : Prop :=
  grows request n w w' /\ later w w' /\
  match r with
  | Ok target => exists response_ payload policy, receives w w' response_ /\ response_callback response_ = Ok payload /\ target = into_target payload /\
      error_for_status response_ = None /\ (forall p, policy = Some p -> is_storable p = true /\ status (response p) = res_status response_) /\
      (file w' = None \/ file w' = file w \/ wrote response_ policy payload w w')
  | Err err => retries err = None /\ (file w' = None \/ file w' = file w) /\ excused w w'
  end.

Lemma answered_receives (w w' : World HM) request response_ policy : sent w' = sent w ++ [request] -> answered (length (sent w)) request response_ policy -> receives w w' response_.
Proof. intros E (Hg&_). exists (length (sent w)), request. split; [ops|]. split; [|done]. rewrite E. by apply list_lookup_middle. Qed.

Lemma failed_excused (w w' : World HM) request : sent w' = sent w ++ [request] -> failed (length (sent w)) request -> excused w w'.
Proof. intros E Hf. right; left. exists (length (sent w)), request. split; [ops|]. split; [|done]. rewrite E. by apply list_lookup_middle. Qed.

(** The callback on a response that was just received. *)
Lemma callback_outcome strict request request' policy response_ (w w1 : World HM) :
  same_target request request' -> sent w1 = sent w ++ [request'] -> file_operations w `prefix_of` file_operations w1 -> (file w1 = None \/ file w1 = file w) ->
  answered (length (sent w)) request' response_ policy ->
  runs strict (run_response_callback (NetError := NetError) (ProblemDetails := ProblemDetails) fault response_callback policy response_) w1 (outcome request 1 w).
Proof.
  intros Hsame Es Hio Hf Ha. eapply acts_mono; [|apply run_response_callback_runs]. cbn beta. intros r w2 (E1&E2&Hr).
  assert (later w w1) as L1 by (by apply (later_snoc _ _ request')). assert (later w1 w2) as L2 by (by apply later_eq). split; [apply (grows_one _ request'); [done|congruence]|].
  split; [by apply (later_trans _ w1)|]. pose proof (answered_receives _ _ _ _ _ Es Ha) as Hrec. destruct r as [target|err].
  - destruct Hr as (payload&Hc&Ht&Hw). destruct Ha as (_&He&Hp). exists response_, payload, policy. split_and!; [by apply (receives_later w w w1 w2); [apply later_refl| |]|done|done|done|done|].
    destruct policy as [policy|]; [right; right; exact Hw|]. cbn in Hw. destruct Hf as [Hf|Hf]; [left; congruence|right; left; congruence].
  - destruct Hr as (Hret&Hfile&Hex). split; [done|]. split; [rewrite Hfile; done|]. by apply (excused_here_later w w1 w2 response_).
Qed.

Lemma skip_cache_runs strict request cache_control (w : World HM) : safe strict cache_control ->
  runs strict (skip_cache (Timestamp := Timestamp) (ProblemDetails := ProblemDetails) server offline_url clock fault problem_from_slice response_callback request cache_control) w (outcome request 1 w).
Proof.
  intros Hsafe. unfold skip_cache. step. step. eapply acts_mono; [|by apply (fresh_request_runs strict)]. cbn beta. intros r w1 (E1&E2&E3&Hr). destruct r as [[response_ policy]|err]; cbn [map_err].
  - apply (callback_outcome strict request request); [apply same_target_refl|done|ops|by right|done].
  - split; [by apply (grows_one _ request)|]. split; [by apply (later_snoc _ _ request); [|ops]|]. split_and!; [done|by right|]. by apply (failed_excused _ _ request).
Qed.

Lemma resend_and_heal_cache_runs strict request cache_control (w : World HM) : safe strict cache_control ->
  runs strict (resend_and_heal_cache (Timestamp := Timestamp) (ProblemDetails := ProblemDetails) server offline_url clock fault problem_from_slice response_callback request cache_control) w (outcome request 1 w).
Proof.
  intros Hsafe. unfold resend_and_heal_cache, remove_file. step. step.
  assert (forall w1 : World HM, (file w1 = None \/ file w1 = file w) -> sent w1 = sent w -> file_operations w `prefix_of` file_operations w1 ->
    runs strict (mapping CachedClientError_from (fresh_request request cache_control) ≫= (fun r => let '(response_, policy) := r in
      run_response_callback (NetError := NetError) (ProblemDetails := ProblemDetails) fault response_callback policy response_)) w1 (outcome request 1 w)) as Hrest.
  { intros w1 Hf Hs Hio. step. step. eapply acts_mono; [|by apply (fresh_request_runs strict)]. cbn beta. intros r w2 (E1&E2&E3&Hr). rewrite Hs in E2, Hr. destruct r as [[response_ policy]|err]; cbn [map_err].
    - apply (callback_outcome strict request request); [apply same_target_refl|done|ops|by rewrite E1|done].
    - split; [by apply (grows_one _ request)|]. split; [by apply (later_snoc _ _ request); [|ops]|]. split_and!; [done|by rewrite E1|]. by apply (failed_excused _ _ request). }
  apply operate_runs.
  - intros e w1 _ F1 F2 F3. apply Hrest; [by right|done|ops].
  - intros w1 F1 F2 F3. apply Hrest; [|done|ops]. destruct (file w); by left.
Qed.

(** *** The whole operation *)

(** The file is gone, or as it was, or holds the same payload with a newer policy. *)
Definition kept (w : World HM) (f : option bytes) : Prop :=
  f = None \/ f = file w \/
  exists contents cached p contents', file w = Some contents /\ deserialize_cache_policy (NetError := NetError) (ProblemDetails := ProblemDetails) contents = Some (Ok cached) /\
    serialize (NetError := NetError) (ProblemDetails := ProblemDetails) p (data cached) = Ok contents' /\ status (response p) = status (response (cache_policy cached)) /\ f = Some contents'.

(** The result was made of a response received now, or there is an excuse. *)
Definition fetched (request : http_request HM) (n : nat) (w : World HM) (r : result Target (CachedClientError NetError ProblemDetails CallbackError)) (w' : World HM) : Prop :=
  grows request n w w' /\ later w w' /\
  match r with
  | Ok target => exists response_ payload, receives w w' response_ /\ response_callback response_ = Ok payload /\ target = into_target payload /\ error_for_status response_ = None /\
      (kept w (file w') \/ exists p d contents, is_storable p = true /\ status (response p) = res_status response_ /\ to_bytes payload = Ok d /\
         serialize (NetError := NetError) (ProblemDetails := ProblemDetails) p d = Ok contents /\ file w' = Some contents)
  | Err err => retries err = None /\ kept w (file w') /\ excused w w'
  end.

(** The result was made of the stored payload. *)
Definition from_cache (request : http_request HM) (w : World HM) (r : result Target (CachedClientError NetError ProblemDetails CallbackError)) (w' : World HM) : Prop :=
  grows request 1 w w' /\ later w w' /\ kept w (file w') /\ file w' <> None /\ exists contents cached target, file w = Some contents /\
    deserialize_cache_policy (NetError := NetError) (ProblemDetails := ProblemDetails) contents = Some (Ok cached) /\ from_aligned_bytes (data cached) = Ok target /\ r = Ok target.

Lemma outcome_fetched request n m k w w1 r w' : (n + m <= k)%nat -> grows request n w w1 -> later w w1 -> kept w (file w1) -> outcome request m w1 r w' -> fetched request k w r w'.
Proof.
  intros Hk Hg Hl Hkept (Hg'&Hl'&Hr). split; [by apply (grows_trans _ n m k w w1 w')|]. split; [by apply (later_trans _ w1)|].
  assert (forall f, f = None \/ f = file w1 -> kept w f) as Hkf by (intros f [->| ->]; [by left|done]). destruct r as [target|err].
  - destruct Hr as (response_&payload&policy&Hrec&Hc&Ht&He&Hp&Hf). exists response_, payload. split_and!; [by apply (receives_later w w1 w' w'); [| apply later_refl|]|done|done|done|].
    destruct policy as [p|]; [|left; apply Hkf; cbn in Hf; naive_solver]. destruct Hf as [Hf|[Hf|(d&contents&Hd&Hs&Hf)]]; [left; by apply Hkf; left|left; by apply Hkf; right|].
    right. destruct (Hp p eq_refl). by exists p, d, contents.
  - destruct Hr as (Hret&Hf&Hex). split; [done|]. split; [by apply Hkf|]. by apply (excused_later w w1 w' w'); [|apply later_refl|].
Qed.

Lemma failed_fetched request request' k w w0 w' err : (1 <= k)%nat -> same_target request request' -> later w w0 -> kept w (file w0) -> sent w0 = sent w ->
  sent w' = sent w0 ++ [request'] -> file w' = file w0 -> file_operations w0 `prefix_of` file_operations w' -> failed (length (sent w)) request' ->
  fetched request k w (Err (CachedClientError_from (CallbackError := CallbackError) err)) w'.
Proof.
  intros Hk Hsame Hl Hkept Hs Es Ef Hio Hfail. rewrite Hs in Es. destruct Hl as [_ Hl]. split; [apply (grows_weaken _ 1); [done|]; by apply (grows_one _ request')|].
  split; [apply (later_snoc _ _ request'); [done|ops]|]. split; [done|]. split; [by rewrite Ef|]. by apply (failed_excused _ _ request').
Qed.

Local Abbreviation resend_and_heal_cache := (resend_and_heal_cache (Timestamp := Timestamp) (ProblemDetails := ProblemDetails) server offline_url clock fault problem_from_slice response_callback).

(** Returning the stored payload, or healing when it cannot be read. *)
Lemma payload_runs strict request cache_control w w1 contents cached : safe strict cache_control -> grows request 1 w w1 -> later w w1 -> kept w (file w1) -> file w1 <> None ->
  file w = Some contents -> deserialize_cache_policy (NetError := NetError) (ProblemDetails := ProblemDetails) contents = Some (Ok cached) ->
  runs strict (match from_aligned_bytes (data cached) with Ok payload => ret payload | Err _ => resend_and_heal_cache request cache_control end) w1
    (fun r w' => fetched request 2 w r w' \/ from_cache request w r w').
Proof.
  intros Hsafe Hg Hl Hkept Hsome Ef Ed. destruct (from_aligned_bytes (data cached)) as [target|err] eqn:Ep.
  - step. right. split_and!; try done. by exists contents, cached, target.
  - eapply acts_mono; [|by apply (resend_and_heal_cache_runs strict)]. intros r w' Hr. left. by apply (outcome_fetched request 1 1 2 w w1).
Qed.

(** A response that is new: a 304 that cannot be used is asked for again. *)
Lemma modified_runs strict request request' cache_control w w0 w1 response_ policy : safe strict cache_control -> same_target request request' -> later w w0 -> kept w (file w0) -> sent w0 = sent w ->
  sent w1 = sent w0 ++ [request'] -> file w1 = file w0 -> file_operations w0 `prefix_of` file_operations w1 -> answered (length (sent w)) request' response_ policy ->
  runs strict (if res_status response_ =? 304 then resend_and_heal_cache request cache_control
               else run_response_callback (NetError := NetError) (ProblemDetails := ProblemDetails) fault response_callback policy response_) w1
    (fun r w' => fetched request 2 w r w' \/ from_cache request w r w').
Proof.
  intros Hsafe Hsame Hl Hkept Hs Es Ef Hio Ha. destruct (res_status response_ =? 304).
  - eapply acts_mono; [|by apply (resend_and_heal_cache_runs strict)]. intros r w' Hr. left. apply (outcome_fetched request 1 1 2 w w1); [ops| | |by rewrite Ef|done].
    + apply (grows_one _ request'); [done|congruence].
    + apply (later_trans _ w0); [done|]. by apply (later_snoc _ _ request').
  - eapply acts_mono; [|apply (callback_outcome strict request request' policy response_ w0 w1); [done|done|done|by right|by rewrite Hs]].
    intros r w' Hr. left. apply (outcome_fetched request 0 1 2 w w0); [ops| |done|done|done]. by apply grows_none.
Qed.

Lemma get_cacheable_runs strict request cache_control (w : World HM) : safe strict cache_control -> readable strict w ->
  runs strict (get_cacheable (Timestamp := Timestamp) (ProblemDetails := ProblemDetails) server offline_url clock fault problem_from_slice response_callback request cache_control) w
    (fun r w' => fetched request 2 w r w' \/ from_cache request w r w').
Proof.
  intros Hsafe Hread. unfold get_cacheable. step. step. eapply acts_mono; [|by apply (read_cache_runs strict)]. cbn beta. intros entry w0 (E1&E2&He).
  destruct entry as [[cached|]|err]; cbn [map_err]; [| |done].
  - destruct He as (Ef&contents&Ec&Ed). assert (later w w0) as L0 by (by apply later_eq). step. step. eapply acts_mono; [|by apply (send_cached_runs strict)]. cbn beta.
    intros r w1 (F1&F2&F3&Hr). assert (grows request 1 w w1) as Hg by (apply (grows_trans _ 0 1 1 w w0 w1); [ops|by apply grows_none|done]).
    assert (later w w1) as L1 by (destruct Hg as (l&El&_); split; [rewrite El; by apply prefix_app_r|ops]).
    assert (kept w (file w0)) as K0 by (right; left; congruence).
    destruct r as [[c|c new_policy|response_ policy]|err]; cbn [map_err resolved] in *.
    + subst c. apply (payload_runs strict request cache_control w w1 contents cached); try done; [right; left; congruence|congruence].
    + destruct Hr as [-> Hst]. step. step. destruct (serialize new_policy (data cached)) as [contents'|err] eqn:Es; cbn [map_err].
      2: { exfalso. unfold serialize in Es. destruct (archive new_policy) eqn:Ea; [done|by apply (archive_total new_policy)]. }
      step. step. apply write_atomic_runs.
      * intros e w2 n size Hn Hsize Eflt G1 G2 G3. cbn [map_err]. left. assert (later w1 w2) as L2 by (by apply later_eq). split; [apply (grows_trans _ 1 0 2 w w1 w2); [ops|done|by apply grows_none]|].
        split; [by apply (later_trans _ w1)|]. split; [done|]. split; [right; left; congruence|]. left. exists n, size. split_and!; [|done|done]. etrans; [by apply prefix_length, L1|done].
      * intros w2 G1 G2 G3. cbn [map_err] in *. assert (later w1 w2) as L2 by (by apply later_eq).
        apply (payload_runs strict request cache_control w w2 contents cached); try done; [|by apply (later_trans _ w1)| |congruence].
        -- apply (grows_trans _ 1 0 1 w w1 w2); [ops|done|by apply grows_none].
        -- right; right. by exists contents, cached, new_policy, contents'.
    + destruct Hr as (request'&Es&Ha). rewrite E1 in Ha. destruct F3 as (l&El&_&Fl). rewrite Es in El. apply app_inv_head in El. subst l. apply Forall_cons in Fl as [Hsame _].
      apply (modified_runs strict request request' cache_control w w0 w1); try done. ops.
    + left. destruct Hr as (request'&Es&Hfail). rewrite E1 in Hfail. destruct F3 as (l&El&_&Fl). rewrite Es in El. apply app_inv_head in El. subst l. apply Forall_cons in Fl as [Hsame _].
      apply (failed_fetched request request' 2 w w0 w1); try done; ops.
  - step. assert (kept w (file w0)) as K0 by (destruct He as [->| ->]; [right; by left|by left]). assert (later w w0) as L0 by (by apply later_eq).
    step. step. eapply acts_mono; [|by apply (fresh_request_runs strict)]. cbn beta. intros r w1 (F1&F2&F3&Hr). rewrite E1 in Hr. destruct r as [[response_ policy]|err]; cbn [map_err].
    + step. apply (modified_runs strict request request cache_control w w0 w1); try done. ops.
    + left. apply (failed_fetched request request 2 w w0 w1); try done; ops.
Qed.

(** *** What the file holds *)

(** The server gave the response at some time. *)
Definition received (w : World HM) (response_ : http_response HM) : Prop := exists n request, sent w !! n = Some request /\ gave n request response_.

(** The contents are the payload that the callback made of a response of the server,
    and a policy with the status of that response. *)
Definition holds (w : World HM) (contents : bytes) : Prop :=
  N.of_nat (length contents) < 2 ^ 63 /\
  exists p d response_ payload, serialize (NetError := NetError) (ProblemDetails := ProblemDetails) p d = Ok contents /\ response_callback response_ = Ok payload /\ to_bytes payload = Ok d /\
    received w response_ /\ error_for_status response_ = None /\ status (response p) = res_status response_ /\ res_status response_ <> 304.

Definition valid (w : World HM) : Prop := forall contents, file w = Some contents -> holds w contents.

Lemma received_later w w' response_ : later w w' -> received w response_ -> received w' response_.
Proof. intros [Hp _] (n&r&Hr&Hg). exists n, r. split; [|done]. by apply (prefix_lookup_Some (sent w)). Qed.

Lemma receives_received w w' response_ : receives w w' response_ -> received w' response_.
Proof. intros (n&r&_&Hr&Hg). by exists n, r. Qed.

Lemma holds_later w w' contents : later w w' -> holds w contents -> holds w' contents.
Proof. intros Hl (Hsize&p&d&re&payload&H'). split; [done|]. exists p, d, re, payload. destruct H' as (Hs&Hc&Hb&Hr&Hrest). split_and!; try done; [|naive_solver|naive_solver|naive_solver]. by apply (received_later w). Qed.

Lemma storable_status p : is_storable p = true -> status (response p) <> 304.
Proof.
  unfold is_storable. intros Hs E. rewrite E in Hs. cbn in Hs. destruct (method (request p)); try done; destruct (has_final_status (response p)); done.
Qed.

Lemma holds_reads w contents : holds w contents -> exists p d response_ payload,
  deserialize_cache_policy (NetError := NetError) (ProblemDetails := ProblemDetails) contents = Some (Ok (mkData d p)) /\ response_callback response_ = Ok payload /\ to_bytes payload = Ok d /\
  received w response_ /\ error_for_status response_ = None /\ status (response p) = res_status response_ /\ res_status response_ <> 304.
Proof. intros (Hsize&p&d&re&payload&Hs&H'). exists p, d, re, payload. split; [by apply serialize_read|done]. Qed.

Lemma valid_readable strict w : valid w -> readable strict w.
Proof. intros Hv _. destruct (file w) as [contents|] eqn:Ef; [|done]. destruct (holds_reads _ _ (Hv _ Ef)) as (p&d&re&payload&->&_). done. Qed.

(** A file that is kept still holds a payload, and so does one that was written, if it
    could be written at all. *)
Lemma valid_kept w w' f : valid w -> later w w' -> kept w f -> (forall contents, f = Some contents -> N.of_nat (length contents) < 2 ^ 63) -> forall contents, f = Some contents -> holds w' contents.
Proof.
  intros Hv Hl Hk Hsize contents Ef. destruct Hk as [->|[->|(c&cached&p&c'&Ec&Ed&Es&Est&->)]]; [done|apply (holds_later w); [done|by apply Hv]|]. injection Ef as ->. split; [by apply Hsize|].
  destruct (holds_reads _ _ (Hv _ Ec)) as (p0&d&re&payload&Ed0&Hc&Hb&Hr&He&Hst&H304). rewrite Ed0 in Ed. injection Ed as <-. cbn in *. exists p, d, re, payload.
  split_and!; try done; [by apply (received_later w)|congruence].
Qed.

End steps.

(** ** Files are not too long

    No file has 2^63 bytes or more: such a write meets a fault. *)

Definition limited (fault : nat -> N -> option IoError) : Prop := forall n size, 2 ^ 63 <= size -> fault n size <> None.

Definition short (f : option bytes) : Prop := forall contents, f = Some contents -> N.of_nat (length contents) < 2 ^ 63.

(** An action leaves a short file short. *)
Definition shortens {HM E A} (m : action HM E A) : Prop := forall w, short (file w) -> runs false m w (fun _ w' => short (file w')).

Create HintDb shortens.

Section shortness.
Context {HM : Type}.

Lemma shortens_bind {E A B} (m : action HM E A) (k : A -> action HM E B) : shortens m -> (forall x, shortens (k x)) -> shortens (m ≫= k).
Proof. intros Hm Hk w Hw. apply acts_bind. eapply acts_mono; [|by apply Hm]. intros [x|e] w' Hw'; [by apply Hk|done]. Qed.

Lemma shortens_mapping {E F A} (f : E -> F) (m : action HM E A) : shortens m -> shortens (mapping f m).
Proof. intros Hm w Hw. apply runs_mapping. by apply Hm. Qed.

Lemma shortens_attempt {E F A} (m : action HM E A) : shortens m -> shortens (attempt (F := F) m).
Proof. intros Hm w Hw. apply runs_attempt. by apply Hm. Qed.

Lemma shortens_ret {E A} (x : A) : shortens (HM := HM) (E := E) (ret x).
Proof. by intros w Hw. Qed.

Lemma shortens_throw {E A} (e : E) : shortens (HM := HM) (A := A) (throw e).
Proof. by intros w Hw. Qed.

Lemma shortens_of_result {E A} (r : result A E) : shortens (HM := HM) (of_result r).
Proof. by intros w Hw. Qed.

Lemma shortens_expect {E A} (o : option A) : shortens (HM := HM) (E := E) (expect o).
Proof. intros w Hw. by apply runs_expect. Qed.

Lemma shortens_now {E} clock : shortens (HM := HM) (E := E) (now clock).
Proof. by intros w Hw. Qed.

Lemma shortens_execute {E NetError} (server : nat -> http_request HM -> result (http_response HM) NetError) request : shortens (E := E) (execute server request).
Proof. by intros w Hw. Qed.

Lemma shortens_operate {A} fault size (work : option bytes -> result A IoError * option bytes) :
  (forall n f, fault n size = None -> short f -> short (snd (work f))) -> shortens (HM := HM) (operate fault size work).
Proof.
  intros Hwork w Hw. unfold runs, operate. destruct (fault (length (file_operations w)) size) as [err|] eqn:Ef; [done|]. pose proof (Hwork _ _ Ef Hw) as Hs.
  by destruct (work (file w)) as [r f].
Qed.

Lemma shortens_if {E A} (b : bool) (m m' : action HM E A) : shortens m -> shortens m' -> shortens (if b then m else m').
Proof. by destruct b. Qed.

End shortness.

#[export] Hint Resolve shortens_bind shortens_mapping shortens_attempt shortens_ret shortens_throw shortens_of_result shortens_expect shortens_now shortens_execute shortens_if : shortens.

(** Case analysis on what an action matches on, then its parts. *)
Ltac shorten := intros; repeat first [progress intros | progress (auto with shortens nocore) | apply shortens_bind | case_match].

Section short_files.
Context {HM Timestamp : Type} `{HeaderMap HM} `{Jiff Timestamp} `{PolicyArchive} `{StatusErrors HM}.
Context {NetError ProblemDetails CallbackError Payload Target : Type}.
Context `{Cacheable (Error NetError ProblemDetails) Payload Target}.
Context (server : nat -> http_request HM -> result (http_response HM) NetError) (offline_url : NetError -> option text) (clock : nat -> Z)
  (fault : nat -> N -> option IoError) (problem_from_slice : bytes -> option ProblemDetails) (response_callback : http_response HM -> result Payload CallbackError).
Context (Hlimit : limited fault).

Lemma shortens_remove_file : shortens (HM := HM) (remove_file fault).
Proof. apply shortens_operate. intros n [f|] _ _; done. Qed.

Lemma shortens_create_dir_all : shortens (HM := HM) (create_dir_all fault).
Proof. apply shortens_operate. by intros n f _ Hf. Qed.

Lemma shortens_read_file : shortens (HM := HM) (read_file fault).
Proof. apply shortens_operate. by intros n [f|] _ Hf. Qed.

Lemma shortens_write_atomic contents : shortens (HM := HM) (write_atomic fault contents).
Proof.
  destruct (N.lt_ge_cases (N.of_nat (length contents)) (2 ^ 63)) as [Hlt|Hge].
  - intros w Hw. apply write_atomic_runs; [intros err w' n size _ _ _ -> _ _; done|]. intros w' Ew _ _ c. rewrite Ew. by intros [= <-].
  - unfold write_atomic, tempfile_in, write. apply shortens_bind; [apply shortens_operate; by intros n f _ Hf|]. intros temp w Hw. apply acts_bind. unfold runs, operate.
    destruct (fault (length (file_operations w)) (N.of_nat (length contents))) eqn:Ef; [done|]. by destruct (Hlimit _ _ Hge Ef).
Qed.

#[local] Hint Resolve shortens_remove_file shortens_create_dir_all shortens_read_file shortens_write_atomic : shortens.

Lemma shortens_read_cache : shortens (HM := HM) (read_cache (ProblemDetails := ProblemDetails) (NetError := NetError) fault).
Proof. unfold read_cache, from_path_sync. shorten. Qed.

Lemma shortens_override {E} cache_control (response_ : http_response HM) : shortens (E := E) (override_control cache_control response_).
Proof. unfold override_control. shorten. Qed.

Lemma shortens_when_storable {E} policy : shortens (HM := HM) (E := E) (when_storable policy).
Proof. unfold when_storable. shorten. Qed.

#[local] Hint Resolve shortens_read_cache shortens_override shortens_when_storable : shortens.

Lemma shortens_fresh_request request cache_control : shortens (fresh_request (Timestamp := Timestamp) server offline_url clock problem_from_slice request cache_control).
Proof. unfold fresh_request. shorten. Qed.

Lemma shortens_before_request_now {E} policy request : shortens (E := E) (before_request_now (HM := HM) (Timestamp := Timestamp) clock policy request).
Proof. intros w Hw. unfold runs, before_request_now. by destruct (before_request _ _ _ _) as [[d r]|]. Qed.

Lemma shortens_handle_stale request cache_control cached builder :
  shortens (send_cached_handle_stale (Timestamp := Timestamp) server offline_url clock problem_from_slice request cache_control cached builder).
Proof. unfold send_cached_handle_stale. shorten. Qed.

#[local] Hint Resolve shortens_fresh_request shortens_before_request_now shortens_handle_stale : shortens.

Lemma shortens_send_cached request cache_control cached : shortens (send_cached (Timestamp := Timestamp) server offline_url clock problem_from_slice request cache_control cached).
Proof. unfold send_cached. shorten. Qed.

Lemma shortens_run_response_callback policy response_ :
  shortens (run_response_callback (NetError := NetError) (ProblemDetails := ProblemDetails) fault response_callback policy response_).
Proof. unfold run_response_callback. shorten. Qed.

#[local] Hint Resolve shortens_send_cached shortens_run_response_callback : shortens.

Lemma shortens_resend request cache_control :
  shortens (resend_and_heal_cache (Timestamp := Timestamp) (ProblemDetails := ProblemDetails) server offline_url clock fault problem_from_slice response_callback request cache_control).
Proof. unfold resend_and_heal_cache. shorten. Qed.

#[local] Hint Resolve shortens_resend : shortens.

Lemma shortens_get_cacheable request cache_control :
  shortens (get_cacheable (Timestamp := Timestamp) (ProblemDetails := ProblemDetails) server offline_url clock fault problem_from_slice response_callback request cache_control).
Proof. unfold get_cacheable. shorten. Qed.

Lemma shortens_skip_cache request cache_control :
  shortens (skip_cache (Timestamp := Timestamp) (ProblemDetails := ProblemDetails) server offline_url clock fault problem_from_slice response_callback request cache_control).
Proof. unfold skip_cache. shorten. Qed.

End short_files.
