(* ===== verification/CachedClientTheorems.v ===== *)
(** * What the caching client guarantees *)

From Stdlib Require Import ZArith.
From stdpp Require Import base numbers list strings gmap countable.
From S2P Require Import Prelude VersionTypes VersionSmall Version VersionParser Specifier Text UrlText HttpControl HttpCache HttpCacheFacts HttpCacheTheorems CachedClient CachedClientFacts.

#[local] Arguments bs : simpl never.

Section client.
Context {HM Timestamp : Type} `{HeaderMap HM} `{Jiff Timestamp} `{PolicyArchive, !PolicyArchiveLaws} `{StatusErrors HM, !StatusErrorsLaws HM}.
Context {NetError ProblemDetails CallbackError Payload Target : Type}.
Local Abbreviation Error := (Error NetError ProblemDetails).
Context `{Cacheable Error Payload Target, !CacheableLaws Error Payload Target}.
Context (server : nat -> http_request HM -> result (http_response HM) NetError) (offline_url : NetError -> option text) (clock : nat -> Z)
  (fault : nat -> N -> option IoError) (problem_from_slice : bytes -> option ProblemDetails) (response_callback : http_response HM -> result Payload CallbackError).
Context (Hlimit : limited fault).

Local Abbreviation get_cacheable := (get_cacheable (Timestamp := Timestamp) (ProblemDetails := ProblemDetails) server offline_url clock fault problem_from_slice response_callback).
Local Abbreviation skip_cache := (skip_cache (Timestamp := Timestamp) (ProblemDetails := ProblemDetails) server offline_url clock fault problem_from_slice response_callback).
Local Abbreviation valid := (valid (NetError := NetError) (ProblemDetails := ProblemDetails) server response_callback).
Local Abbreviation fetched := (fetched (NetError := NetError) (ProblemDetails := ProblemDetails) server fault response_callback).
Local Abbreviation from_cache := (from_cache (NetError := NetError) (ProblemDetails := ProblemDetails) (CallbackError := CallbackError)).

(** The value is what the callback made of a response that the server gave. *)
Definition genuine (w : World HM) (target : Target) : Prop :=
  exists response_ payload, received server w response_ /\ error_for_status response_ = None /\ response_callback response_ = Ok payload /\ target = into_target payload.

Lemma fetched_valid request n w r w' : valid w -> short (file w') -> fetched request n w r w' -> valid w' /\ later w w' /\ forall target, r = Ok target -> genuine w' target.
Proof.
  intros Hv Hshort (Hg&Hl&Hr). split; [|split; [done|]].
  - intros contents Ef. assert (kept (NetError := NetError) (ProblemDetails := ProblemDetails) w (file w') -> holds (NetError := NetError) (ProblemDetails := ProblemDetails) server response_callback w' contents) as Hkept
      by (intros Hk; by apply (valid_kept server response_callback w w' (file w'))).
    destruct r as [target|err]; [|by apply Hkept, Hr]. destruct Hr as (re&payload&Hrec&Hc&Ht&He&[Hk|(p&d&c&Hsto&Hst&Hd&Hser&Hf)]); [by apply Hkept|].
    rewrite Hf in Ef. injection Ef as ->. split; [by apply Hshort|]. exists p, d, re, payload. split_and!; try done; [by apply receives_received in Hrec|].
    rewrite <- Hst. by apply storable_status.
  - intros target ->. destruct Hr as (re&payload&Hrec&Hc&Ht&He&_). exists re, payload. split_and!; try done. by apply receives_received in Hrec.
Qed.

Lemma from_cache_valid request w r w' : valid w -> short (file w') -> from_cache request w r w' -> valid w' /\ later w w' /\ forall target, r = Ok target -> genuine w' target.
Proof.
  intros Hv Hshort (Hg&Hl&Hk&_&contents&cached&target&Ef&Ed&Et&->). split; [by intros c; apply (valid_kept server response_callback w w' (file w'))|]. split; [done|].
  intros target' [= <-]. destruct (holds_reads server response_callback _ _ (Hv _ Ef)) as (p&d&re&payload&Ed'&Hc&Hb&Hr&He&_). rewrite Ed' in Ed. injection Ed as <-. cbn in Et.
  exists re, payload. split_and!; try done; [by apply (received_later server w)|]. apply read_back in Hb. congruence.
Qed.

Lemma valid_short w : valid w -> short (file w).
Proof. intros Hv contents Ef. by destruct (Hv _ Ef). Qed.

Lemma get_cacheable_valid request cache_control w r w' : valid w -> get_cacheable request cache_control w = Some (r, w') ->
  valid w' /\ later w w' /\ forall target, r = Ok target -> genuine w' target.
Proof.
  intros Hv E.
  pose proof (get_cacheable_runs (Timestamp := Timestamp) (ProblemDetails := ProblemDetails) server offline_url clock fault problem_from_slice response_callback false request cache_control w
    ltac:(done) ltac:(done)) as Hr.
  pose proof (shortens_get_cacheable (Timestamp := Timestamp) (ProblemDetails := ProblemDetails) server offline_url clock fault problem_from_slice response_callback Hlimit request cache_control w (valid_short _ Hv)) as Hs.
  unfold runs in Hr, Hs. rewrite E in Hr, Hs. destruct Hr as [Hr|Hr]; [by apply (fetched_valid request 2)|by apply (from_cache_valid request)].
Qed.

Lemma skip_cache_valid request cache_control w r w' : valid w -> skip_cache request cache_control w = Some (r, w') ->
  valid w' /\ later w w' /\ forall target, r = Ok target -> genuine w' target.
Proof.
  intros Hv E.
  pose proof (skip_cache_runs (Timestamp := Timestamp) (ProblemDetails := ProblemDetails) server offline_url clock fault problem_from_slice response_callback false request cache_control w ltac:(done)) as Hr.
  pose proof (shortens_skip_cache (Timestamp := Timestamp) (ProblemDetails := ProblemDetails) server offline_url clock fault problem_from_slice response_callback Hlimit request cache_control w (valid_short _ Hv)) as Hs.
  unfold runs in Hr, Hs. rewrite E in Hr, Hs. apply (fetched_valid request 1); [done|done|]. apply (outcome_fetched server clock fault response_callback request 0 1 1 w w); try done; [by apply grows_none|right; by left].
Qed.

(** Worlds that calls of the client lead to, from one without a file; the file may also
    be removed by someone else. *)
Inductive reachable : World HM -> Prop :=
| Reach_start : reachable (mkWorld None [] 0 [])
| Reach_get request cache_control w r w' : reachable w -> get_cacheable request cache_control w = Some (r, w') -> reachable w'
| Reach_skip request cache_control w r w' : reachable w -> skip_cache request cache_control w = Some (r, w') -> reachable w'
| Reach_removed w : reachable w -> reachable (mkWorld None (sent w) (ticks w) (file_operations w)).

Lemma reachable_valid w : reachable w -> valid w.
Proof.
  induction 1 as [|request cache_control w r w' _ IH E|request cache_control w r w' _ IH E|w _ IH]; [done| | |done].
  - by apply (get_cacheable_valid request cache_control w r).
  - by apply (skip_cache_valid request cache_control w r).
Qed.

(** C12: The cache never makes an answer up. In every world that calls with any
    requests and cache controls lead to, whatever the server answers, whatever the
    clock says and whichever file operations fail, the file, if there is one, is read
    back as the payload the callback made of a response the server really gave, with
    a policy carrying that response's status, never an error or a 304; and every value
    a call returns is the callback's on such a response. *)
Theorem cache_is_genuine w : reachable w ->
  (forall contents, file w = Some contents -> exists p d response_ payload,
     deserialize_cache_policy (NetError := NetError) (ProblemDetails := ProblemDetails) contents = Some (Ok (mkData d p)) /\
     received server w response_ /\ response_callback response_ = Ok payload /\ to_bytes payload = Ok d /\
     error_for_status response_ = None /\ status (response p) = res_status response_ /\ res_status response_ <> 304) /\
  forall request cache_control target w', get_cacheable request cache_control w = Some (Ok target, w') \/ skip_cache request cache_control w = Some (Ok target, w') -> genuine w' target.
Proof.
  intros Hr. apply reachable_valid in Hr as Hv. split.
  - intros contents Ef. destruct (holds_reads server response_callback _ _ (Hv _ Ef)) as (p&d&re&payload&Ed&Hc&Hb&Hrec&Hrest). by exists p, d, re, payload.
  - intros request cache_control target w' [E|E]; [apply get_cacheable_valid in E as (_&_&Hg)|apply skip_cache_valid in E as (_&_&Hg)]; try done; by apply Hg.
Qed.

(** C13: A call returns, asks at most twice, and fails only for a reason outside. From
    any file that can be read without a panic (garbage included), with clocks after the
    epoch and an override that is a valid header value, [get_cacheable] returns; it
    sends at most two requests, all with the URL and the method of the caller's; and an
    error means that in this call a file operation met a fault, the server failed or
    answered with an error status, or the callback or the encoding of its payload
    failed. So a broken cache entry never makes a call fail. *)
Theorem get_cacheable_returns request cache_control w :
  (forall n, (0 <= clock n)%Z) -> match cache_control with Override header => HeaderValue_from_str (HM := HM) header <> None | _ => True end ->
  readable (NetError := NetError) (ProblemDetails := ProblemDetails) true w ->
  exists r w', get_cacheable request cache_control w = Some (r, w') /\ grows request 2 w w' /\
    forall err, r = Err err -> excused (ProblemDetails := ProblemDetails) server fault response_callback w w'.
Proof.
  intros Hc Ho Hread.
  pose proof (get_cacheable_runs (Timestamp := Timestamp) (ProblemDetails := ProblemDetails) server offline_url clock fault problem_from_slice response_callback true request cache_control w
    ltac:(by intros _) Hread) as Hr.
  unfold runs in Hr. destruct (get_cacheable request cache_control w) as [[r w']|]; [|done]. exists r, w'. split; [done|]. destruct Hr as [(Hg&Hl&Hr)|(Hg&Hl&_&_&_&_&t&_&_&_&->)].
  - split; [done|]. intros err ->. by destruct Hr as (_&_&Hex).
  - split; [by apply (grows_weaken _ 1); [lia|]|]. done.
Qed.

(** ** Hits *)

(** A file that can be read, with a policy that is fresh now. *)
Lemma cache_hit request cache_control w contents cached target request' : cache_control <> MustRevalidate ->
  file w = Some contents -> fault (length (file_operations w)) 0 = None ->
  deserialize_cache_policy (NetError := NetError) (ProblemDetails := ProblemDetails) contents = Some (Ok cached) ->
  before_request (Timestamp := Timestamp) (cache_policy cached) request (clock (ticks w)) (clock (S (ticks w))) = Some (Fresh, request') ->
  from_aligned_bytes (data cached) = Ok target ->
  exists w', get_cacheable request cache_control w = Some (Ok target, w') /\ sent w' = sent w /\ file w' = file w.
Proof.
  intros Hcc Ef Hfault Ed Eb Et. set (w0 := mkWorld (file w) (sent w) (ticks w) (file_operations w ++ [0])). set (w1 := mkWorld (file w) (sent w) (S (ticks w)) (file_operations w ++ [0])).
  assert (read_cache (ProblemDetails := ProblemDetails) (NetError := NetError) fault w = Some (Ok (Some cached), w0)) as E0.
  { unfold read_cache, from_path_sync, read_file, operate, mapping, attempt, mbind, action_bind, bind, option_bind. rewrite Hfault, Ef. cbn [map_err]. rewrite Ed. subst w0. by rewrite Ef. }
  assert (send_cached (Timestamp := Timestamp) (NetError := NetError) (ProblemDetails := ProblemDetails) server offline_url clock problem_from_slice request cache_control cached w0 = Some (Ok (FreshCache cached), w1)) as E1.
  { unfold send_cached, before_request_now, mbind, action_bind, bind, option_bind. destruct cache_control; try done; cbn [ticks w0]; by rewrite Eb. }
  exists w1. split; [|done]. unfold CachedClient.get_cacheable, mapping, mbind, action_bind, bind, option_bind. rewrite E0. cbn [map_err]. rewrite E1. cbn [map_err]. by rewrite Et.
Qed.

(** C34: What a call fetched, the next call need not ask for. When a call in a world
    without a file returns a value and leaves a file, then in any later world with
    that file, at any time at which the stored policy is fresh for the new request, a
    call that is not told to revalidate and whose read of the file meets no fault
    returns the same value, sends nothing and leaves the file as it is. (A file of 2^63
    bytes cannot be written: [limited].) *)
Theorem second_call_is_free request cache_control w target w1 contents :
  file w = None -> get_cacheable request cache_control w = Some (Ok target, w1) -> file w1 = Some contents ->
  exists policy d, deserialize_cache_policy (NetError := NetError) (ProblemDetails := ProblemDetails) contents = Some (Ok (mkData d policy)) /\
  forall request2 request2' cache_control2 w2, cache_control2 <> MustRevalidate -> file w2 = Some contents -> fault (length (file_operations w2)) 0 = None ->
    before_request (Timestamp := Timestamp) policy request2 (clock (ticks w2)) (clock (S (ticks w2))) = Some (Fresh, request2') ->
    exists w3, get_cacheable request2 cache_control2 w2 = Some (Ok target, w3) /\ sent w3 = sent w2 /\ file w3 = file w2.
Proof.
  intros Ef E E1.
  pose proof (get_cacheable_runs (Timestamp := Timestamp) (ProblemDetails := ProblemDetails) server offline_url clock fault problem_from_slice response_callback false request cache_control w
    ltac:(done) ltac:(done)) as Hr.
  assert (short (file w)) as Hsh by (by rewrite Ef).
  pose proof (shortens_get_cacheable (Timestamp := Timestamp) (ProblemDetails := ProblemDetails) server offline_url clock fault problem_from_slice response_callback Hlimit request cache_control w Hsh) as Hs.
  unfold runs in Hr, Hs. rewrite E in Hr, Hs. destruct Hr as [(_&_&re&payload&_&_&Ht&_&Hw)|(_&_&_&_&c&_&_&Ef'&_)]; [|congruence].
  destruct Hw as [[Hk|[Hk|(c&_&_&_&Hk&_)]]|(p&d&c&_&_&Hd&Hser&Hf)]; [congruence|congruence|congruence|]. rewrite E1 in Hf. injection Hf as <-.
  assert (deserialize_cache_policy (NetError := NetError) (ProblemDetails := ProblemDetails) contents = Some (Ok (mkData d p))) as Hread by (apply serialize_read; [by apply Hs|done]).
  exists p, d. split; [done|]. intros request2 request2' cache_control2 w2 Hcc Ef2 Hfault Hb. apply (cache_hit request2 cache_control2 w2 contents (mkData d p) target request2'); try done.
  apply read_back in Hd. cbn. congruence.
Qed.

(** ** Retries *)

Context (is_transient_network_error : Error + CallbackError -> bool) (should_retry : Z -> N -> option Z) (max : N).

Lemma retry_loop_runs (Inv : World HM -> Prop) request n (operation : action HM (CachedClientError NetError ProblemDetails CallbackError) Target) :
  (forall start k, max <= k -> should_retry start k = None) -> max < 2 ^ 32 ->
  (forall w w', file w' = file w -> sent w' = sent w -> Inv w -> Inv w') ->
  (forall w, Inv w -> runs true operation w (fun r w' => Inv w' /\ grows request n w w' /\ forall err, r = Err err -> retries err = None)) ->
  forall fuel past start w, Inv w -> past <= max -> (N.to_nat (max - past) < fuel)%nat ->
  runs true (retry_loop clock is_transient_network_error should_retry fuel operation start past) w (fun r w' =>
    Inv w' /\ grows request (n * S (N.to_nat (max - past))) w w' /\ forall err, r = Err err -> default 0 (retries err) <= max).
Proof.
  intros Hmax Hm32 Hmove Hop. induction fuel as [|fuel IH]; intros past start w Hi Hp Hf; [lia|]. cbn [retry_loop]. step. step. eapply acts_mono; [|by apply Hop]. cbn beta.
  intros r w1 (Hi1&Hg1&Hret).
  assert (forall r' : result Target (CachedClientError NetError ProblemDetails CallbackError), (forall err, r' = Err err -> exists err', r = Err err' /\ (err' = err \/ with_retries err' past = err)) ->
    Inv w1 /\ grows request (n * S (N.to_nat (max - past))) w w1 /\ forall err, r' = Err err -> default 0 (retries err) <= max) as Hdone.
  { intros r' Hr'. split; [done|]. split; [apply (grows_weaken _ n); [rewrite Nat.mul_succ_r; apply Nat.le_add_l|done]|]. intros err Er. destruct (Hr' err Er) as (err'&Er'&[->|<-]); specialize (Hret _ Er').
    - rewrite Hret. cbn. lia.
    - destruct err' as [o e|o e]; cbn in Hret; subst o; cbn; unfold u32_add; rewrite N.mod_small; lia. }
  set (decision := match r with Ok _ => None | Err _ => _ end). destruct decision as [t|] eqn:Ed.
  - subst decision. destruct r as [target|err]; [done|]. destruct (is_transient_network_error (error_of err)); [|done]. rewrite (Hret err eq_refl) in Ed. cbn [default] in Ed.
    assert (past < max) as Hlt.
    { destruct (N.lt_ge_cases past max) as [|Hge]; [done|exfalso]. rewrite Hmax in Ed; [done|]. unfold u32_add. cbn. rewrite N.add_0_r, N.mod_small; lia. }
    assert (u32_add past 1 = past + 1) as -> by (unfold u32_add; apply N.mod_small; lia). step. cbn -[retry_loop]. set (w2 := mkWorld _ _ _ _).
    assert (Inv w2) as Hi2 by (by apply (Hmove w1)). assert (grows request n w w2) as Hg2 by (destruct Hg1 as (l&El&Hl&Fl); by exists l).
    eapply acts_mono; [|apply (IH (past + 1) start w2 Hi2); lia]. cbn beta. intros r' w3 (Hi3&Hg3&Hr3). split; [done|]. split; [|done].
    apply (grows_trans request n (n * S (N.to_nat (max - (past + 1)))) _ w w2 w3); [|done|done]. replace (N.to_nat (max - past)) with (S (N.to_nat (max - (past + 1)))) by lia. rewrite (Nat.mul_succ_r n (S _)). lia.
  - step. apply Hdone. destruct (0 <? past); [|intros err ->; eauto]. destruct r as [target|err']; [done|]. cbn. intros err [= <-]. eauto.
Qed.

(** One attempt of either operation. *)
Lemma get_cacheable_step request cache_control w : safe (HM := HM) clock true cache_control -> valid w ->
  runs true (get_cacheable request cache_control) w (fun r w' => valid w' /\ grows request 2 w w' /\ forall err, r = Err err -> retries err = None).
Proof.
  intros Hsafe Hv.
  pose proof (get_cacheable_runs (Timestamp := Timestamp) (ProblemDetails := ProblemDetails) server offline_url clock fault problem_from_slice response_callback true request cache_control w
    Hsafe (valid_readable server response_callback true w Hv)) as Hr. unfold runs in *. destruct (get_cacheable request cache_control w) as [[r w']|] eqn:E; [|done].
  destruct (get_cacheable_valid request cache_control w r w' Hv E) as (Hv'&_). split; [done|]. destruct Hr as [(Hg&_&Hr)|(Hg&_&_&_&_&_&t&_&_&_&->)].
  - split; [done|]. intros err ->. by destruct Hr.
  - split; [by apply (grows_weaken _ 1); [lia|]|done].
Qed.

Lemma skip_cache_step request cache_control w : safe (HM := HM) clock true cache_control -> valid w ->
  runs true (skip_cache request cache_control) w (fun r w' => valid w' /\ grows request 1 w w' /\ forall err, r = Err err -> retries err = None).
Proof.
  intros Hsafe Hv.
  pose proof (skip_cache_runs (Timestamp := Timestamp) (ProblemDetails := ProblemDetails) server offline_url clock fault problem_from_slice response_callback true request cache_control w Hsafe) as Hr.
  unfold runs in *. destruct (skip_cache request cache_control w) as [[r w']|] eqn:E; [|done].
  destruct (skip_cache_valid request cache_control w r w' Hv E) as (Hv'&_). split; [done|]. destruct Hr as (Hg&_&Hr). split; [done|]. intros err ->. by destruct Hr.
Qed.

(** Retrying terminates. With a retry policy that gives up after [max] retries,
    clocks after the epoch, a valid override and a file left by earlier calls, both
    retrying operations return; [get_cacheable_with_retry] sends at most
    [2 * (max + 1)] requests and [skip_cache_with_retry] at most [max + 1], all to the
    caller's URL with the caller's method, and an error reports at most [max] retries. *)
Theorem retries_terminate request cache_control w :
  (forall start k, max <= k -> should_retry start k = None) -> max < 2 ^ 32 -> (forall n, (0 <= clock n)%Z) ->
  match cache_control with Override header => HeaderValue_from_str (HM := HM) header <> None | _ => True end -> reachable w ->
  (exists r w', get_cacheable_with_retry (Timestamp := Timestamp) (ProblemDetails := ProblemDetails) server offline_url clock fault problem_from_slice response_callback
      is_transient_network_error should_retry (S (N.to_nat max)) request cache_control w = Some (r, w') /\
    grows request (2 * S (N.to_nat max)) w w' /\ forall err, r = Err err -> default 0 (retries err) <= max) /\
  (exists r w', skip_cache_with_retry (Timestamp := Timestamp) (ProblemDetails := ProblemDetails) server offline_url clock fault problem_from_slice response_callback
      is_transient_network_error should_retry (S (N.to_nat max)) request cache_control w = Some (r, w') /\
    grows request (1 * S (N.to_nat max)) w w' /\ forall err, r = Err err -> default 0 (retries err) <= max).
Proof.
  intros Hmax Hm32 Hc Ho Hr. apply reachable_valid in Hr as Hv.
  assert (safe (HM := HM) clock true cache_control) as Hsafe by (by intros _).
  assert (forall w w', file w' = file w -> sent w' = sent w -> valid w -> valid w') as Hmove.
  { intros w0 w0' E1 E2 Hv0 contents Ef. rewrite E1 in Ef. destruct (Hv0 _ Ef) as (Hs&p&d&re&payload&H'). split; [done|]. exists p, d, re, payload. unfold received in *. by rewrite E2. }
  set (w0 := mkWorld (file w) (sent w) (S (ticks w)) (file_operations w)). assert (valid w0) as Hv0 by (by apply (Hmove w)).
  split.
  - pose proof (retry_loop_runs valid request 2 (get_cacheable request cache_control) Hmax Hm32 Hmove (fun w1 => get_cacheable_step request cache_control w1 Hsafe)
      (S (N.to_nat max)) 0 (clock (ticks w)) w0 Hv0 ltac:(lia) ltac:(lia)) as Hl. unfold runs in Hl. unfold get_cacheable_with_retry, mbind, action_bind, bind, now. fold w0.
    destruct (retry_loop _ _ _ _ _ _ _ w0) as [[r w']|]; [|done]. destruct Hl as (_&Hg&He). exists r, w'. rewrite N.sub_0_r in Hg. done.
  - pose proof (retry_loop_runs valid request 1 (skip_cache request cache_control) Hmax Hm32 Hmove (fun w1 => skip_cache_step request cache_control w1 Hsafe)
      (S (N.to_nat max)) 0 (clock (ticks w)) w0 Hv0 ltac:(lia) ltac:(lia)) as Hl. unfold runs in Hl. unfold skip_cache_with_retry, mbind, action_bind, bind, now. fold w0.
    destruct (retry_loop _ _ _ _ _ _ _ w0) as [[r w']|]; [|done]. destruct Hl as (_&Hg&He). exists r, w'. rewrite N.sub_0_r in Hg. done.
Qed.

End client.

(** ** Archived policies, as lists of numbers *)

Record Codec (A : Type) := mkCodec {
  enc : A -> list N;
  dec : list N -> option (A * list N);
  dec_enc a rest : dec (enc a ++ rest) = Some (a, rest)
}.
Arguments enc {A} _ _.
Arguments dec {A} _ _.
Arguments dec_enc {A} _ _ _.

Definition codec_N : Codec N.
Proof. by refine (mkCodec _ (fun n => [n]) (fun s => match s with n :: s => Some (n, s) | [] => None end) _). Defined.

Definition codec_pair {A B} (ca : Codec A) (cb : Codec B) : Codec (A * B).
Proof.
  refine (mkCodec _ (fun p => enc ca p.1 ++ enc cb p.2) (fun s => '(a, s) ← dec ca s; '(b, s) ← dec cb s; Some ((a, b), s)) _).
  intros [a b] rest. cbn. rewrite <- app_assoc, dec_enc. cbn. by rewrite dec_enc.
Defined.

Definition codec_option {A} (ca : Codec A) : Codec (option A).
Proof.
  refine (mkCodec _ (fun o => match o with None => [0] | Some a => 1 :: enc ca a end)
    (fun s => match s with 0 :: s => Some (None, s) | _ :: s => '(a, s) ← dec ca s; Some (Some a, s) | [] => None end) _).
  intros [a|] rest; cbn; [by rewrite dec_enc|done].
Defined.

(** A type whose values are those of another one. *)
Definition codec_of {A B} (ca : Codec A) (to : A -> B) (from : B -> A) (E : forall b, to (from b) = b) : Codec B.
Proof.
  refine (mkCodec _ (fun b => enc ca (from b)) (fun s => '(a, s) ← dec ca s; Some (to a, s)) _). intros b rest. rewrite dec_enc. cbn. by rewrite E.
Defined.

Fixpoint dec_list {A} (ca : Codec A) (n : nat) (s : list N) : option (list A * list N) :=
  match n with O => Some ([], s) | S n => '(a, s) ← dec ca s; '(l, s) ← dec_list ca n s; Some (a :: l, s) end.

Definition codec_list {A} (ca : Codec A) : Codec (list A).
Proof.
  refine (mkCodec _ (fun l => N.of_nat (length l) :: concat (map (enc ca) l)) (fun s => match s with n :: s => dec_list ca (N.to_nat n) s | [] => None end) _).
  intros l rest. cbn. rewrite Nat2N.id. induction l as [|a l IH]; [done|]. cbn. rewrite <- app_assoc, dec_enc. cbn. by rewrite IH.
Defined.

Definition codec_bool : Codec bool := codec_of codec_N (fun n => negb (n =? 0)) (fun b : bool => if b then 1 else 0) ltac:(by intros []).

Definition codec_bytes : Codec bytes := codec_list codec_N.

Infix "⊗" := codec_pair (at level 40, left associativity).

Definition codec_control : Codec CacheControl :=
  let b := codec_bool in let n := codec_option codec_N in
  codec_of (n ⊗ b ⊗ b ⊗ b ⊗ n ⊗ n ⊗ b ⊗ b ⊗ b ⊗ b ⊗ b ⊗ b ⊗ n ⊗ b)
    (fun '(a1, a2, a3, a4, a5, a6, a7, a8, a9, a10, a11, a12, a13, a14) => mkControl a1 a2 a3 a4 a5 a6 a7 a8 a9 a10 a11 a12 a13 a14)
    (fun c => (max_age_seconds c, no_cache c, no_store c, no_transform c, max_stale_seconds c, min_fresh_seconds c, only_if_cached c, must_revalidate c, must_understand c,
               private c, proxy_revalidate c, public c, s_maxage_seconds c, immutable c)) ltac:(by intros []).

Definition codec_request : Codec Request :=
  codec_of (codec_bytes ⊗ codec_N ⊗ codec_control ⊗ codec_bool ⊗ codec_N)
    (fun '(u, m, c, a, t) => mkRequest u (match m with 0 => Get | 1 => Head | _ => Unrecognized end) (mkRequestHeaders c a) t)
    (fun r => (uri r, match method r with Get => 0 | Head => 1 | Unrecognized => 2 end, req_cc (request_fields r), authorization (request_fields r), request_time r)) ltac:(by intros [? [] [] ?]).

Definition codec_etag : Codec ETag := codec_of (codec_bytes ⊗ codec_bool) (fun '(v, w) => mkETag v w) (fun e => (etag_value e, weak e)) ltac:(by intros []).

Definition codec_response : Codec Response :=
  let n := codec_option codec_N in
  codec_of (codec_N ⊗ codec_control ⊗ n ⊗ n ⊗ n ⊗ n ⊗ codec_option codec_etag ⊗ codec_N)
    (fun '(s, c, a, d, e, l, t, time) => mkResponse s (mkResponseHeaders c a d e l t) time)
    (fun r => (status r, cc (headers r), age_seconds (headers r), date_unix_timestamp (headers r), expires_unix_timestamp (headers r), last_modified_unix_timestamp (headers r),
               etag (headers r), response_time r)) ltac:(by intros [? [] ?]).

Definition codec_vary : Codec Vary := codec_list (codec_of (codec_bytes ⊗ codec_bytes) (fun '(n, v) => mkVaryField n v) (fun f => (vary_name f, vary_value f)) ltac:(by intros [])).

Definition codec_policy : Codec CachePolicy :=
  codec_of (codec_bool ⊗ codec_request ⊗ codec_response ⊗ codec_vary) (fun '(s, rq, rs, v) => mkPolicy (mkConfig s) rq rs v)
    (fun p => (shared (config p), request p, response p, vary p)) ltac:(by intros [[] ? ? ?]).

Lemma codec_reads {A} (c : Codec A) a b : Some (enc c a) = Some b -> match dec c b with Some (a, []) => Some a | _ => None end = Some a.
Proof. intros [= <-]. pose proof (dec_enc c a []) as E. rewrite app_nil_r in E. by rewrite E. Qed.

(** Statuses of errors. *)
#[export] Instance pairs_statuses : StatusErrors pairs := fun r => if (400 <=? res_status r) && (res_status r <? 600) then Some (res_status r) else None.

#[export] Instance pairs_statuses_laws : StatusErrorsLaws pairs.
Proof. by intros r. Qed.

#[export] Instance number_archive : PolicyArchive := {|
  archive p := Some (enc codec_policy p);
  unarchive s := match dec codec_policy s with Some (p, []) => Some p | _ => None end
|}.

#[export] Instance number_archive_laws : PolicyArchiveLaws.
Proof.
  constructor; [exact (codec_reads codec_policy)|done].
Qed.

(** Payloads that are their own bytes. *)
#[export] Instance raw_payload {E} : Cacheable E bytes bytes := {| from_aligned_bytes := Ok; to_bytes := Ok; into_target b := b |}.

#[export] Instance raw_payload_laws {E} : CacheableLaws E bytes bytes.
Proof. by intros p b [= <-]. Qed.

(** ** The format of the file *)

Section format.
Context {NetError ProblemDetails : Type} `{PolicyArchive, !PolicyArchiveLaws}.

(** C35: A cache file is read back, and what reading does with any other file. A file
    made of a payload and a policy gives both back. Reading any bytes gives a payload
    and a policy or an error, and panics exactly on a length among the eight largest
    numbers, for which the sum that checks it wraps around. *)
Theorem cache_file_round_trip policy d contents rest :
  N.of_nat (length contents) < 2 ^ 63 -> serialize (NetError := NetError) (ProblemDetails := ProblemDetails) policy d = Ok contents -> Forall (fun b => b < 256) rest ->
  deserialize_cache_policy (NetError := NetError) (ProblemDetails := ProblemDetails) contents = Some (Ok (mkData d policy)) /\
  (deserialize_cache_policy (NetError := NetError) (ProblemDetails := ProblemDetails) rest = None <->
   (8 <= length rest)%nat /\ 2 ^ 64 - 8 <= from_le_bytes (drop (length rest - 8) rest) /\ u64_add (from_le_bytes (drop (length rest - 8) rest)) 8 <= N.of_nat (length rest)).
Proof. intros Hsize Hs Hb. split; [by apply serialize_read|by apply deserialize_panics]. Qed.

End format.

(** ** A client with an index page *)

Definition page : http_response pairs := mkHttpResponse 200 [(bs "cache-control", bs "max-age=600"); (bs "etag", bs "x")] (Some (bs "anyio")) None.
Definition page_server (n : nat) (r : http_request pairs) : result (http_response pairs) N := Ok page.
Definition seconds_clock (n : nat) : Z := 1700000000000000000 + Z.of_nat n * 1000000000.
Definition sound_disk (n : nat) (size : N) : option IoError := if 2 ^ 63 <=? size then Some (OtherIo 27) else None.
Definition body_of (r : http_response pairs) : result bytes unit := match res_body r with Some b => Ok b | None => Err tt end.
Definition not_offline (e : N) : option text := None.
Definition details (b : bytes) : option bytes := Some b.

Definition fetch (server : nat -> http_request pairs -> result (http_response pairs) N) (r : http_request pairs) : action pairs (CachedClientError N bytes unit) bytes :=
  get_cacheable (Timestamp := Z) (Target := bytes) server not_offline seconds_clock sound_disk details body_of r ControlNone.

Definition nothing : World pairs := mkWorld None [] 0 [].

Lemma sound_disk_limited : limited sound_disk.
Proof. intros n size Hs. unfold sound_disk. by rewrite (proj2 (N.leb_le _ _) Hs). Qed.

Definition sample_file : bytes := match serialize (NetError := N) (ProblemDetails := bytes) sample_policy (bs "anyio") with Ok contents => contents | Err _ => [] end.

Lemma cache_file_round_trip_witness : serialize (NetError := N) (ProblemDetails := bytes) sample_policy (bs "anyio") = Ok sample_file /\
  deserialize_cache_policy (NetError := N) (ProblemDetails := bytes) sample_file = Some (Ok (mkData (bs "anyio") sample_policy)).
Proof.
  assert (serialize (NetError := N) (ProblemDetails := bytes) sample_policy (bs "anyio") = Ok sample_file) as E by (vm_compute; reflexivity). split; [exact E|].
  assert (N.of_nat (length sample_file) < 2 ^ 63) as Hsize by (vm_compute; reflexivity).
  destruct (cache_file_round_trip sample_policy (bs "anyio") sample_file [] Hsize E (Forall_nil_2 _)) as [H _]. exact H.
Defined.

Lemma cache_is_genuine_witness : exists w, reachable (Timestamp := Z) (ProblemDetails := bytes) page_server not_offline seconds_clock sound_disk details body_of w /\
  genuine (ProblemDetails := bytes) (Payload := bytes) (CallbackError := unit) page_server body_of w (bs "anyio").
Proof.
  eassert (fetch page_server sample_request nothing = Some (Ok (bs "anyio"), _)) as E by (vm_compute; reflexivity). eexists.
  split; [eapply Reach_get; [apply Reach_start|exact E]|].
  destruct (cache_is_genuine (Timestamp := Z) (ProblemDetails := bytes) page_server not_offline seconds_clock sound_disk details body_of sound_disk_limited nothing (Reach_start _ _ _ _ _ _)) as [_ H].
  exact (H _ _ _ _ (or_introl E)).
Defined.

Lemma get_cacheable_returns_witness : exists r w', fetch page_server sample_request nothing = Some (r, w') /\ grows sample_request 2 nothing w'.
Proof.
  destruct (get_cacheable_returns (Timestamp := Z) (ProblemDetails := bytes) page_server not_offline seconds_clock sound_disk details body_of sample_request ControlNone nothing) as (r&w'&E&Hg&_).
  - intros n. unfold seconds_clock. lia.
  - exact I.
  - intros _. exact I.
  - exists r, w'. split; [exact E|exact Hg].
Defined.

Lemma second_call_is_free_witness : exists w1 w3, fetch page_server sample_request nothing = Some (Ok (bs "anyio"), w1) /\
  fetch page_server sample_request w1 = Some (Ok (bs "anyio"), w3) /\ sent w3 = sent w1.
Proof.
  eassert (fetch page_server sample_request nothing = Some (Ok (bs "anyio"), _)) as E by (vm_compute; reflexivity). eexists.
  destruct (second_call_is_free (Timestamp := Z) (ProblemDetails := bytes) page_server not_offline seconds_clock sound_disk details body_of sound_disk_limited sample_request ControlNone
    nothing (bs "anyio") _ _ eq_refl E eq_refl) as (p&d&Hread&Hnext).
  match type of E with _ = Some (_, ?w1) => destruct (Hnext sample_request sample_request ControlNone w1) as (w3&E3&Hs&_) end.
  - discriminate.
  - reflexivity.
  - vm_compute. reflexivity.
  - vm_compute in Hread. injection Hread as <- <-. vm_compute. reflexivity.
  - exists w3. split; [exact E|]. split; [exact E3|exact Hs].
Defined.

Definition always (e : Error N bytes + unit) : bool := true.
Definition three_times (start : Z) (n : N) : option Z := if n <? 3 then Some start else None.

(** ** Where the client departs from its comments *)

(** A server that is overloaded, asked three times by the middleware already. *)
Definition busy (type : bytes) : http_response pairs := mkHttpResponse 503 [(bs "content-type", type)] (Some (bs "{}")) (Some 3).
Definition busy_server (n : nat) (r : http_request pairs) : result (http_response pairs) N := Ok (busy (bs "application/problem+json; charset=utf-8")).

(** A server that confirms what is stored and asks not to store it. *)
Definition confirming_server (n : nat) (r : http_request pairs) : result (http_response pairs) N :=
  Ok (mkHttpResponse 304 [(bs "cache-control", bs "no-store"); (bs "etag", bs "x")] None None).

Definition stored : World pairs := mkWorld (Some sample_file) [] 0 [].

Definition broken_file : bytes := [255; 255; 255; 255; 255; 255; 255; 255].

(** The error of a result, with the retries it reports and those it hides. *)
Definition reported {A} (r : option (result A (CachedClientError N bytes unit) * World pairs)) : option (option N * N * option bytes) :=
  match r with
  | Some (Err (Client n (mkError (WrappedReqwestError _ _ problem) hidden)), _) => Some (n, hidden, problem)
  | _ => None
  end.

(** Four places where the client departs from its comments. A cache file whose
    length field is among the largest numbers makes the call panic, although the length
    is said to be checked so that slicing cannot panic and a broken entry is meant to be
    removed. The retries that the middleware made before an error status are attached to
    the error but not visible to the retry loop, which is said to take them into account:
    with three retries allowed and three already made, the call is attempted four times.
    Problem details sent with a character set are kept for a fresh request and lost for a
    revalidation. And a 304 that forbids storing is stored nonetheless, leaving a policy
    that is not storable, for which the next call finds an entry that does not match. *)
Theorem cached_client_defects :
  fetch page_server sample_request (mkWorld (Some broken_file) [] 0 []) = None /\
  (reported (fetch busy_server sample_request nothing) = Some (None, 3, Some (bs "{}")) /\
   exists r w', get_cacheable_with_retry (Timestamp := Z) (ProblemDetails := bytes) (Target := bytes) busy_server not_offline seconds_clock sound_disk details body_of always three_times 4
     sample_request ControlNone nothing = Some (r, w') /\ length (sent w') = 4%nat) /\
  reported (fetch busy_server sample_request stored) = Some (None, 0, None) /\
  (exists w' contents p d, fetch confirming_server sample_request stored = Some (Ok (bs "anyio"), w') /\ file w' = Some contents /\
     deserialize_cache_policy (NetError := N) (ProblemDetails := bytes) contents = Some (Ok (mkData d p)) /\ is_storable p = false /\
     before_request (Timestamp := Z) p sample_request (seconds_clock 9) (seconds_clock 9) = Some (NoMatch, sample_request)).
Proof.
  split; [vm_compute; reflexivity|]. split; [split; [vm_compute; reflexivity|]; eexists _, _; split; vm_compute; reflexivity|]. split; [vm_compute; reflexivity|].
  eexists _, _, _, _. split; [vm_compute; reflexivity|]. split; [vm_compute; reflexivity|]. split; [vm_compute; reflexivity|]. split; vm_compute; reflexivity.
Qed.
