(* ===== verification/PrioritizedDist.v ===== *)
(** * The markers that a wheel implies ([uv-distribution-types/src/prioritized_distribution.rs])

    From the platform and Python tags of a wheel to a marker of the environments it
    supports. *)

From stdpp Require Import base numbers list strings gmap.
From S2P Require Import Prelude VersionTypes VersionSmall Version VersionFacts VersionParser Specifier Ranges Names Text PlatformTags Tags Filename RangeSet MarkerTypes MarkerAlgebra.

(** [BinaryFormat::platform_machine] ([uv-platform-tags/src/tags.rs]) *)
Definition BinaryFormat_platform_machine (self : BinaryFormat) : list BinaryFormat :=
  match self with
  | BF_Arm64 => [BF_Arm64]
  | BF_Fat => [BF_X86_64; BF_Ppc]
  | BF_Fat32 => [BF_X86_64; BF_I386; BF_Ppc; BF_Ppc64]
  | BF_Fat64 => [BF_X86_64; BF_Ppc64]
  | BF_I386 => [BF_I386]
  | BF_Intel => [BF_X86_64; BF_I386]
  | BF_Ppc => [BF_Ppc]
  | BF_Ppc64 => [BF_Ppc64]
  | BF_Universal => [BF_X86_64; BF_I386; BF_Ppc64; BF_Ppc; BF_Intel]
  | BF_Universal2 => [BF_X86_64; BF_Arm64]
  | BF_X86_64 => [BF_X86_64]
  end.

Definition sys_platform_is (value : text) : MarkerExpression := ME_String MVS_SysPlatform MO_Equal value.
Definition machine_is (value : text) : MarkerExpression := ME_String MVS_PlatformMachine MO_Equal value.
Definition implementation_is (value : text) : MarkerExpression := ME_String MVS_PlatformPythonImplementation MO_Equal value.

Section implied.
Context {RV RS : Type} {SV : RangeSet Version RV} {SS : RangeSet text RS}.
Abbreviation IM := (act (@Interner RV RS)).

(** A conjunction of two expressions. *)
Definition both (e e' : MarkerExpression) : IM NodeId :=
  let! tag_marker := expression e in
  let! other := expression e' in
  and_ tag_marker other.

(** The disjunction over the architectures of a binary format. *)
Fixpoint arch_markers (arch_marker : NodeId) (archs : list BinaryFormat) : IM NodeId :=
  match archs with
  | [] => mret arch_marker
  | arch :: archs =>
      let! marker := expression (machine_is (BinaryFormat_name arch)) in
      let! arch_marker := or_ arch_marker marker in
      arch_markers arch_marker archs
  end.

(** The marker of one platform tag; [None] for a tag that is not known. *)
Definition platform_tag_marker (platform_tag : PlatformTag) : option (IM NodeId) :=
  match platform_tag with
  | PT_Win32 => Some (both (sys_platform_is (bs "win32")) (machine_is (bs "x86")))
  | PT_WinAmd64 => Some (both (sys_platform_is (bs "win32")) (machine_is (bs "AMD64")))
  | PT_WinArm64 => Some (both (sys_platform_is (bs "win32")) (machine_is (bs "ARM64")))
  | PT_Macos _ _ binary_format =>
      Some (let! tag_marker := expression (sys_platform_is (bs "darwin")) in
            let! arch_marker := arch_markers NodeId.FALSE (BinaryFormat_platform_machine binary_format) in
            and_ tag_marker arch_marker)
  | PT_Manylinux _ _ arch | PT_Manylinux1 arch | PT_Manylinux2010 arch | PT_Manylinux2014 arch | PT_Musllinux _ _ arch | PT_Linux arch =>
      Some (both (sys_platform_is (bs "linux")) (machine_is (Arch_name arch)))
  | _ => None
  end.

Fixpoint platform_loop (marker : NodeId) (platform_tags : list PlatformTag) : IM NodeId :=
  match platform_tags with
  | [] => mret marker
  | PT_Any :: _ => mret NodeId.TRUE
  | platform_tag :: platform_tags =>
      match platform_tag_marker platform_tag with
      | Some m =>
          let! tag_marker := m in
          let! marker := or_ marker tag_marker in
          platform_loop marker platform_tags
      | None => platform_loop marker platform_tags
      end
  end.

Definition implied_platform_markers (filename : WheelFilename) : IM NodeId := platform_loop NodeId.FALSE (platform_tags (wheel_tags filename)).

(** The Python versions of a tag, by the segments of the version. *)
Definition tag_version (python_tag : LanguageTag) : list N :=
  match python_tag with
  | LT_None => []
  | LT_Python major None => [major]
  | LT_Python major (Some minor) => [major; minor]
  | LT_CPython (major, minor) | LT_PyPy (major, minor) | LT_GraalPy (major, minor) | LT_Pyston (major, minor) => [major; minor]
  end.

(** The implementation that a tag names. *)
Definition tag_implementation (python_tag : LanguageTag) : option text :=
  match python_tag with
  | LT_None | LT_Python _ _ => None
  | LT_CPython _ => Some (bs "CPython")
  | LT_PyPy _ => Some (bs "PyPy")
  | LT_GraalPy _ => Some (bs "GraalPy")
  | LT_Pyston _ => Some (bs "Pyston")
  end.

Definition python_version_is (version : Version) : MarkerExpression := ME_Version MVV_PythonVersion (equals_star_version version).

Definition python_tag_marker (python_tag : LanguageTag) : IM NodeId :=
  let! version := mlift (new (tag_version python_tag)) in
  match tag_implementation python_tag with
  | None => expression (python_version_is version)
  | Some implementation => both (python_version_is version) (implementation_is implementation)
  end.

Fixpoint python_loop (marker : NodeId) (python_tags : list LanguageTag) : IM NodeId :=
  match python_tags with
  | [] => mret marker
  | LT_None :: _ => mret NodeId.TRUE
  | python_tag :: python_tags =>
      let! tree := python_tag_marker python_tag in
      let! marker := or_ marker tree in
      python_loop marker python_tags
  end.

Definition implied_python_markers (filename : WheelFilename) : IM NodeId := python_loop NodeId.FALSE (python_tags (wheel_tags filename)).

Definition implied_markers (filename : WheelFilename) : IM NodeId :=
  let! marker := implied_platform_markers filename in
  let! other := implied_python_markers filename in
  and_ marker other.

End implied.

(** ** Distributions of one version ([uv-distribution-types/src/prioritized_distribution.rs])

    The wheels and the source distribution of one version of a package, with what makes
    each of them usable or not, the best wheel, and the choice among them. The supported
    environments are a marker of the interner, so the operations that extend them are
    actions on it. A panic is the failure of an action, or [None] for a pure function. *)

#[local] Open Scope N_scope.

#[export] Instance PackageName_eq_dec : EqDecision PackageName. Proof. solve_decision. Defined.
#[export] Instance BuildTag_eq_dec : EqDecision BuildTag. Proof. solve_decision. Defined.
#[export] Instance WheelTagSmall_eq_dec : EqDecision WheelTagSmall. Proof. solve_decision. Defined.
#[export] Instance WheelTagLarge_eq_dec : EqDecision WheelTagLarge. Proof. solve_decision. Defined.
#[export] Instance WheelTag_eq_dec : EqDecision WheelTag. Proof. solve_decision. Defined.

(** ** Files of an index *)

Inductive HashAlgorithm := HA_Md5 | HA_Sha256 | HA_Sha384 | HA_Sha512 | HA_Blake2b.
#[export] Instance HashAlgorithm_eq_dec : EqDecision HashAlgorithm. Proof. solve_decision. Defined.

Record HashDigest := { algorithm : HashAlgorithm; digest : text }.
#[export] Instance HashDigest_eq_dec : EqDecision HashDigest. Proof. solve_decision. Defined.

Inductive Yanked := Y_Bool (is_yanked : bool) | Y_Reason (reason : text).

Definition is_yanked (self : Yanked) : bool := match self with Y_Bool b => b | Y_Reason _ => true end.
Definition has_reason (self : Yanked) : bool := match self with Y_Reason _ => true | _ => false end.

Inductive FileLocation := FL_RelativeUrl (base url : text) | FL_AbsoluteUrl (url : text).
Record Zstd := { zstd_hashes : list HashDigest; zstd_size : option N }.

(** [File]; the upload time is an [i64] of milliseconds. *)
Record File := {
  dist_info_metadata : bool;
  file_filename : text;
  file_hashes : list HashDigest;
  file_requires_python : option VersionSpecifiers;
  file_size : option N;
  upload_time_utc_ms : option Z;
  file_url : FileLocation;
  file_yanked : option Yanked;
  zstd : option Zstd
}.

Inductive IndexUrl := IU_Pypi (url : text) | IU_Url (url : text) | IU_Path (url : text).
#[export] Instance IndexUrl_eq_dec : EqDecision IndexUrl. Proof. solve_decision. Defined.

Record RegistryBuiltWheel := { wheel_filename : WheelFilename; wheel_file : File; wheel_index : IndexUrl }.

Record RegistrySourceDist := {
  sdist_dist_name : PackageName;
  sdist_dist_version : Version;
  sdist_file : File;
  sdist_ext : SourceDistExtension;
  sdist_index : IndexUrl;
  sdist_wheels : list RegistryBuiltWheel
}.

Record RegistryBuiltDist := { built_wheels : list RegistryBuiltWheel; built_best_index : nat; built_sdist : option RegistrySourceDist }.

(** [RegistryBuiltDist::best_wheel], which indexes. *)
Definition RegistryBuiltDist_best_wheel (self : RegistryBuiltDist) : option RegistryBuiltWheel := built_wheels self !! built_best_index self.

(** ** Compatibility *)

Inductive PythonRequirementKind := PRK_Installed | PRK_Target.

Inductive HashComparison := HC_Mismatched | HC_Missing | HC_Matched.

(** The derived order. *)
Definition HashComparison_index (c : HashComparison) : N := match c with HC_Mismatched => 0 | HC_Missing => 1 | HC_Matched => 2 end.
#[export] Instance HashComparison_ord : Ord HashComparison := cmp_by HashComparison_index.
#[export] Instance HashComparison_ord_laws : OrdLaws HashComparison := cmp_by_laws HashComparison_index.

#[export] Instance BuildTag_ord : Ord BuildTag := cmp_by (fun t => (build_number t, build_suffix t)).
#[export] Instance BuildTag_ord_laws : OrdLaws BuildTag := cmp_by_laws (fun t => (build_number t, build_suffix t)).

Inductive IncompatibleWheel :=
| IW_ExcludeNewer (timestamp : option Z)
| IW_Tag (tag : IncompatibleTag)
| IW_RequiresPython (python : VersionSpecifiers) (kind : PythonRequirementKind)
| IW_Yanked (yanked : Yanked)
| IW_NoBinary
| IW_MissingPlatform (marker : NodeId).

Inductive WheelCompatibility :=
| WC_Incompatible (incompatibility : IncompatibleWheel)
| WC_Compatible (hash : HashComparison) (priority : option TagPriority) (build_tag : option BuildTag).

Inductive IncompatibleSource :=
| IS_ExcludeNewer (timestamp : option Z)
| IS_RequiresPython (python : VersionSpecifiers) (kind : PythonRequirementKind)
| IS_Yanked (yanked : Yanked)
| IS_NoBuild.

Inductive SourceDistCompatibility :=
| SC_Incompatible (incompatibility : IncompatibleSource)
| SC_Compatible (hash : HashComparison).

Inductive IncompatibleDist := ID_Wheel (incompatibility : IncompatibleWheel) | ID_Source (incompatibility : IncompatibleSource) | ID_Unavailable.

(** [Option<i64>] under its derived order: [None] first. *)
Definition timestamp_ltb (t u : option Z) : bool :=
  match t, u with None, Some _ => true | Some t, Some u => (t <? u)%Z | _, None => false end.

Definition IncompatibleWheel_is_more_compatible (self other : IncompatibleWheel) : bool :=
  match self with
  | IW_ExcludeNewer timestamp_self =>
      match other with
      | IW_ExcludeNewer timestamp_other =>
          match timestamp_self, timestamp_other with
          | None, _ => true
          | _, None => false
          | Some timestamp_self, Some timestamp_other => (timestamp_other <? timestamp_self)%Z
          end
      | IW_MissingPlatform _ | IW_NoBinary | IW_RequiresPython _ _ | IW_Tag _ | IW_Yanked _ => true
      end
  | IW_Tag tag_self =>
      match other with
      | IW_ExcludeNewer _ => false
      | IW_Tag tag_other => cmp_gtb tag_self tag_other
      | IW_MissingPlatform _ | IW_NoBinary | IW_RequiresPython _ _ | IW_Yanked _ => true
      end
  | IW_RequiresPython _ _ =>
      match other with
      | IW_ExcludeNewer _ | IW_Tag _ => false
      | IW_RequiresPython _ _ => false
      | IW_MissingPlatform _ | IW_NoBinary | IW_Yanked _ => true
      end
  | IW_Yanked _ =>
      match other with
      | IW_ExcludeNewer _ | IW_Tag _ | IW_RequiresPython _ _ => false
      | IW_Yanked yanked_other => has_reason yanked_other
      | IW_MissingPlatform _ | IW_NoBinary => true
      end
  | IW_NoBinary =>
      match other with
      | IW_ExcludeNewer _ | IW_Tag _ | IW_RequiresPython _ _ | IW_Yanked _ => false
      | IW_NoBinary => false
      | IW_MissingPlatform _ => true
      end
  | IW_MissingPlatform _ => false
  end.

Definition IncompatibleSource_is_more_compatible (self other : IncompatibleSource) : bool :=
  match self with
  | IS_ExcludeNewer timestamp_self =>
      match other with
      | IS_ExcludeNewer timestamp_other => timestamp_ltb timestamp_other timestamp_self
      | IS_NoBuild | IS_RequiresPython _ _ | IS_Yanked _ => true
      end
  | IS_RequiresPython _ _ =>
      match other with
      | IS_ExcludeNewer _ => false
      | IS_RequiresPython _ _ => false
      | IS_NoBuild | IS_Yanked _ => true
      end
  | IS_Yanked _ =>
      match other with
      | IS_ExcludeNewer _ | IS_RequiresPython _ _ => false
      | IS_Yanked yanked_other => has_reason yanked_other
      | IS_NoBuild => true
      end
  | IS_NoBuild => false
  end.

Module WheelCompatibility.

Definition is_compatible (self : WheelCompatibility) : bool := match self with WC_Compatible _ _ _ => true | _ => false end.
Definition is_excluded (self : WheelCompatibility) : bool := match self with WC_Incompatible (IW_ExcludeNewer _) => true | _ => false end.

Definition is_more_compatible (self other : WheelCompatibility) : bool :=
  match self, other with
  | WC_Compatible _ _ _, WC_Incompatible _ => true
  | WC_Compatible hash tag_priority build_tag, WC_Compatible other_hash other_tag_priority other_build_tag =>
      cmp_gtb (hash, tag_priority, build_tag) (other_hash, other_tag_priority, other_build_tag)
  | WC_Incompatible _, WC_Compatible _ _ _ => false
  | WC_Incompatible incompatibility, WC_Incompatible other_incompatibility => IncompatibleWheel_is_more_compatible incompatibility other_incompatibility
  end.

End WheelCompatibility.

Module SourceDistCompatibility.

Definition is_compatible (self : SourceDistCompatibility) : bool := match self with SC_Compatible _ => true | _ => false end.
Definition is_excluded (self : SourceDistCompatibility) : bool := match self with SC_Incompatible (IS_ExcludeNewer _) => true | _ => false end.

Definition is_more_compatible (self other : SourceDistCompatibility) : bool :=
  match self, other with
  | SC_Compatible _, SC_Incompatible _ => true
  | SC_Compatible compatibility, SC_Compatible other_compatibility => cmp_gtb compatibility other_compatibility
  | SC_Incompatible _, SC_Compatible _ => false
  | SC_Incompatible incompatibility, SC_Incompatible other_incompatibility => IncompatibleSource_is_more_compatible incompatibility other_incompatibility
  end.

End SourceDistCompatibility.

(** ** [PrioritizedDist] *)

Record PrioritizedDist := mkPrioritized {
  source : option (RegistrySourceDist * SourceDistCompatibility);
  best_wheel_index : option nat;
  wheels : list (RegistryBuiltWheel * WheelCompatibility);
  hashes : list HashDigest;
  markers : NodeId
}.

(** [CompatibleDist]; what is installed is a type of its own. *)
Inductive CompatibleDist (InstalledDist : Type) :=
| CD_InstalledDist (dist : InstalledDist)
| CD_SourceDist (sdist : RegistrySourceDist) (prioritized : PrioritizedDist)
| CD_CompatibleWheel (wheel : RegistryBuiltWheel) (priority : option TagPriority) (prioritized : PrioritizedDist)
| CD_IncompatibleWheel (sdist : RegistrySourceDist) (wheel : RegistryBuiltWheel) (prioritized : PrioritizedDist).
Arguments CD_InstalledDist {_} _.
Arguments CD_SourceDist {_} _ _.
Arguments CD_CompatibleWheel {_} _ _ _.
Arguments CD_IncompatibleWheel {_} _ _ _.

(** [ResolvedDistRef] of an installable distribution. *)
Inductive ResolvedDistRef (InstalledDist : Type) :=
| RD_Installed (dist : InstalledDist)
| RD_InstallableRegistrySourceDist (sdist : RegistrySourceDist) (prioritized : PrioritizedDist)
| RD_InstallableRegistryBuiltDist (wheel : RegistryBuiltWheel) (prioritized : PrioritizedDist).
Arguments RD_Installed {_} _.
Arguments RD_InstallableRegistrySourceDist {_} _ _.
Arguments RD_InstallableRegistryBuiltDist {_} _ _.

Module PrioritizedDist.

Definition default : PrioritizedDist := mkPrioritized None None [] [] NodeId.FALSE.

Definition from_source (dist : RegistrySourceDist) (hashes : list HashDigest) (compatibility : SourceDistCompatibility) : PrioritizedDist :=
  mkPrioritized (Some (dist, compatibility)) None [] hashes NodeId.TRUE.

(** [best_wheel], which indexes: the outer option is a panic. *)
Definition best_wheel (self : PrioritizedDist) : option (option (RegistryBuiltWheel * WheelCompatibility)) :=
  match best_wheel_index self with
  | None => Some None
  | Some i => Some <$> wheels self !! i
  end.

Definition insert_source (self : PrioritizedDist) (dist : RegistrySourceDist) (new_hashes : list HashDigest) (compatibility : SourceDistCompatibility) : PrioritizedDist :=
  let markers := if SourceDistCompatibility.is_compatible compatibility then NodeId.TRUE else markers self in
  let hashes := if SourceDistCompatibility.is_excluded compatibility then hashes self else hashes self ++ new_hashes in
  let source :=
    match source self with
    | Some (_, existing_compatibility) =>
        if SourceDistCompatibility.is_more_compatible compatibility existing_compatibility then Some (dist, compatibility) else source self
    | None => Some (dist, compatibility)
    end in
  mkPrioritized source (best_wheel_index self) (wheels self) hashes markers.

Section interned.
Context {RV RS : Type} {SV : RangeSet Version RV} {SS : RangeSet text RS}.
Abbreviation IM := (act (@Interner RV RS)).

Definition from_built (dist : RegistryBuiltWheel) (hashes : list HashDigest) (compatibility : WheelCompatibility) : IM PrioritizedDist :=
  let! markers := implied_markers (wheel_filename dist) in
  mret (mkPrioritized None (Some O) [(dist, compatibility)] hashes markers).

Definition insert_built (self : PrioritizedDist) (dist : RegistryBuiltWheel) (new_hashes : list HashDigest) (compatibility : WheelCompatibility) : IM PrioritizedDist :=
  let! markers :=
    if WheelCompatibility.is_compatible compatibility then
      if negb (NodeId.is_true (markers self)) then
        let! implied := implied_markers (wheel_filename dist) in
        or_ (markers self) implied
      else mret (markers self)
    else mret (markers self) in
  let hashes := if WheelCompatibility.is_excluded compatibility then hashes self else hashes self ++ new_hashes in
  let! best := mlift (best_wheel self) in
  let best_wheel_index :=
    match best with
    | Some (_, existing_compatibility) =>
        if WheelCompatibility.is_more_compatible compatibility existing_compatibility then Some (length (wheels self)) else best_wheel_index self
    | None => Some (length (wheels self))
    end in
  mret (mkPrioritized (source self) best_wheel_index (wheels self ++ [(dist, compatibility)]) hashes markers).

End interned.

(** [get]; the outer option is a panic. *)
Definition get {InstalledDist} (self : PrioritizedDist) : option (option (CompatibleDist InstalledDist)) :=
  best_wheel ← best_wheel self;
  Some match best_wheel, source self with
  | Some (wheel, WC_Compatible wheel_hash tag_priority _), Some (sdist, SC_Compatible sdist_hash) =>
      if cmp_gtb sdist_hash wheel_hash then Some (CD_SourceDist sdist self) else Some (CD_CompatibleWheel wheel tag_priority self)
  | Some (wheel, WC_Compatible _ tag_priority _), _ => Some (CD_CompatibleWheel wheel tag_priority self)
  | Some (wheel, WC_Incompatible incompatibility), Some (sdist, SC_Compatible _) =>
      if negb (WheelCompatibility.is_excluded (WC_Incompatible incompatibility)) then Some (CD_IncompatibleWheel sdist wheel self)
      else Some (CD_SourceDist sdist self)
  | None, Some (sdist, SC_Compatible _) => Some (CD_SourceDist sdist self)
  | _, _ => None
  end.

Definition incompatible_source (self : PrioritizedDist) : option IncompatibleSource :=
  match source self with
  | Some (_, SC_Incompatible incompatibility) => Some incompatibility
  | _ => None
  end.

Definition incompatible_wheel (self : PrioritizedDist) : option (option IncompatibleWheel) :=
  best_wheel ← best_wheel self;
  Some match best_wheel with
  | Some (_, WC_Incompatible incompatibility) => Some incompatibility
  | _ => None
  end.

Definition is_empty (self : PrioritizedDist) : bool :=
  match source self, wheels self with None, [] => true | _, _ => false end.

(** The loop of [built_dist] over the wheels from index [i]. *)
Fixpoint adjust_wheels (best_wheel_index i : nat) (adjusted_wheels : list RegistryBuiltWheel) (adjusted_best_index : nat)
    (wheels : list (RegistryBuiltWheel * WheelCompatibility)) : list RegistryBuiltWheel * nat :=
  match wheels with
  | [] => (adjusted_wheels, adjusted_best_index)
  | (wheel, compatibility) :: wheels =>
      if WheelCompatibility.is_excluded compatibility then adjust_wheels best_wheel_index (S i) adjusted_wheels adjusted_best_index wheels
      else
        let adjusted_best_index := if Nat.eqb i best_wheel_index then length adjusted_wheels else adjusted_best_index in
        adjust_wheels best_wheel_index (S i) (adjusted_wheels ++ [wheel]) adjusted_best_index wheels
  end.

Definition built_dist (self : PrioritizedDist) : option RegistryBuiltDist :=
  best_wheel_index ← best_wheel_index self;
  let '(adjusted_wheels, adjusted_best_index) := adjust_wheels best_wheel_index 0 [] 0 (wheels self) in
  Some {| built_wheels := adjusted_wheels; built_best_index := adjusted_best_index; built_sdist := fst <$> source self |}.

(** [source_dist], which asserts that the wheels are not set yet: the outer option is
    the panic. *)
Definition source_dist (self : PrioritizedDist) : option (option RegistrySourceDist) :=
  match source self with
  | Some (sdist, compatibility) =>
      if SourceDistCompatibility.is_excluded compatibility then Some None
      else
        match sdist_wheels sdist with
        | [] => Some (Some {| sdist_dist_name := sdist_dist_name sdist; sdist_dist_version := sdist_dist_version sdist; sdist_file := sdist_file sdist;
                              sdist_ext := sdist_ext sdist; sdist_index := sdist_index sdist; sdist_wheels := map fst (wheels self) |})
        | _ => None
        end
  | None => Some None
  end.

Definition files (self : PrioritizedDist) : list File :=
  map (fun w => wheel_file (fst w)) (wheels self) ++ match source self with Some (source_dist, _) => [sdist_file source_dist] | None => [] end.

Definition python_tags (self : PrioritizedDist) : list LanguageTag := flat_map (fun w => Filename.python_tags (wheel_tags (wheel_filename (fst w)))) (wheels self).
Definition abi_tags (self : PrioritizedDist) : list AbiTag := flat_map (fun w => Filename.abi_tags (wheel_tags (wheel_filename (fst w)))) (wheels self).

Definition platform_tags (self : PrioritizedDist) (tags : Tags) : list PlatformTag :=
  flat_map (fun w =>
    let wheel := wheel_tags (wheel_filename (fst w)) in
    if existsb (fun wheel_py => existsb (fun wheel_abi => is_compatible_abi tags wheel_py wheel_abi) (Filename.abi_tags wheel)) (Filename.python_tags wheel)
    then Filename.platform_tags wheel else []) (wheels self).

End PrioritizedDist.

Module CompatibleDist.
Section installed.
Context {InstalledDist : Type}.
Implicit Types self : CompatibleDist InstalledDist.

Definition requires_python self : option VersionSpecifiers :=
  match self with
  | CD_InstalledDist _ => None
  | CD_SourceDist sdist _ => file_requires_python (sdist_file sdist)
  | CD_CompatibleWheel wheel _ _ => file_requires_python (wheel_file wheel)
  | CD_IncompatibleWheel sdist _ _ => file_requires_python (sdist_file sdist)
  end.

Definition prioritized self : option PrioritizedDist :=
  match self with
  | CD_InstalledDist _ => None
  | CD_SourceDist _ prioritized | CD_CompatibleWheel _ _ prioritized | CD_IncompatibleWheel _ _ prioritized => Some prioritized
  end.

Definition implied_markers self : NodeId :=
  match prioritized self with Some prioritized => markers prioritized | None => NodeId.TRUE end.

Definition for_resolution self : ResolvedDistRef InstalledDist :=
  match self with
  | CD_InstalledDist dist => RD_Installed dist
  | CD_SourceDist sdist prioritized => RD_InstallableRegistrySourceDist sdist prioritized
  | CD_CompatibleWheel wheel _ prioritized => RD_InstallableRegistryBuiltDist wheel prioritized
  | CD_IncompatibleWheel _ wheel prioritized => RD_InstallableRegistryBuiltDist wheel prioritized
  end.

Definition for_installation self : ResolvedDistRef InstalledDist :=
  match self with
  | CD_InstalledDist dist => RD_Installed dist
  | CD_SourceDist sdist prioritized => RD_InstallableRegistrySourceDist sdist prioritized
  | CD_CompatibleWheel wheel _ prioritized => RD_InstallableRegistryBuiltDist wheel prioritized
  | CD_IncompatibleWheel sdist _ prioritized => RD_InstallableRegistrySourceDist sdist prioritized
  end.

Definition wheel self : option RegistryBuiltWheel :=
  match self with
  | CD_InstalledDist _ | CD_SourceDist _ _ => None
  | CD_CompatibleWheel wheel _ _ | CD_IncompatibleWheel _ wheel _ => Some wheel
  end.

End installed.
End CompatibleDist.

(** ** [ResolvedDistRef::to_owned] ([resolved.rs]) *)

Inductive ResolvedDist (InstalledDist : Type) :=
| RO_Installed (dist : InstalledDist)
| RO_Source (source : RegistrySourceDist) (version : Version)
| RO_Built (built : RegistryBuiltDist) (version : Version).
Arguments RO_Installed {_} _.
Arguments RO_Source {_} _ _.
Arguments RO_Built {_} _ _.

(** [PartialEq] of [WheelFilename]: versions compare by their order. *)
Definition WheelFilename_eqb (x y : WheelFilename) : bool :=
  bool_decide (wheel_name x = wheel_name y) && cmp_eqb (wheel_version x) (wheel_version y) && bool_decide (wheel_tags x = wheel_tags y).

(** The two lookups that must succeed, and the two assertions, are the [None]s. *)
Definition to_owned {InstalledDist} (self : ResolvedDistRef InstalledDist) : option (ResolvedDist InstalledDist) :=
  match self with
  | RD_InstallableRegistrySourceDist sdist prioritized =>
      source ← PrioritizedDist.source_dist prioritized;
      source ← source;
      if bool_decide (sdist_dist_name sdist = sdist_dist_name source) && cmp_eqb (sdist_dist_version sdist) (sdist_dist_version source)
      then Some (RO_Source source (sdist_dist_version sdist)) else None
  | RD_InstallableRegistryBuiltDist wheel prioritized =>
      best ← PrioritizedDist.best_wheel prioritized;
      '(best, _) ← best;
      if WheelFilename_eqb (wheel_filename wheel) (wheel_filename best) then
        built ← PrioritizedDist.built_dist prioritized;
        Some (RO_Built built (wheel_version (wheel_filename wheel)))
      else None
  | RD_Installed dist => Some (RO_Installed dist)
  end.
