(* ===== verification/OrderedMap.v ===== *)
(** * Ordered maps

    [BTreeMap] of the standard library, as the list of its entries in increasing order
    of keys. Keys are looked up by their order; an insertion at a present key keeps the
    key and replaces the value. *)

From stdpp Require Import base numbers list.
From S2P Require Import Prelude RangeSet.

Section map.
Context {K V : Type} `{Ord K}.
Implicit Types (m : list (K * V)) (k : K) (v : V).

(** [get_key_value] *)
Fixpoint get_key_value m k : option (K * V) :=
  match m with
  | [] => None
  | (k', v) :: m => if cmp_eqb k' k then Some (k', v) else get_key_value m k
  end.

Definition bt_get m k : option V := snd <$> get_key_value m k.

Fixpoint bt_insert m k v : list (K * V) :=
  match m with
  | [] => [(k, v)]
  | (k', v') :: m' =>
      match cmp k k' with
      | Lt => (k, v) :: m
      | Eq => (k', v) :: m'
      | Gt => (k', v') :: bt_insert m' k v
      end
  end.

(** [remove_entry] at a key *)
Fixpoint bt_remove m k : list (K * V) :=
  match m with
  | [] => []
  | (k', v) :: m => if cmp_eqb k' k then m else (k', v) :: bt_remove m k
  end.

Definition bt_keys m : list K := map fst m.

(** [range], which panics on bounds in the wrong order. *)
Definition range_panics (lo hi : bound K) : bool :=
  match lo, hi with
  | B_Excluded a, B_Excluded b => cmp_geb a b
  | B_Included a, B_Included b | B_Included a, B_Excluded b | B_Excluded a, B_Included b => cmp_gtb a b
  | _, _ => false
  end.

Definition bt_range m (lo hi : bound K) : option (list (K * V)) :=
  if range_panics lo hi then None else Some (List.filter (fun e => segment_contains (fst e) (lo, hi)) m).

(** ** Order *)

(** The keys increase. *)
Fixpoint bt_sorted m : Prop :=
  match m with
  | [] => True
  | (k, _) :: m => Forall (fun e => cmp k (fst e) = Lt) m /\ bt_sorted m
  end.

End map.

(** ** Lemmas

    The order of the keys is that of a lawful order on an image of them, on the valid
    keys. *)

Section facts.
Context {K V I : Type} `{Ord K} `{OrdLaws I} (valid : K -> Prop) (image : K -> I).
Context (Himage : forall x y : K, valid x -> valid y -> cmp x y = cmp (image x) (image y)).
Implicit Types (m : list (K * V)) (k : K) (v : V).

Definition bt_valid m : Prop := Forall (fun e => valid (fst e)) m.

Lemma cmp_eqb_valid x y : valid x -> valid y -> cmp_eqb x y = cmp_eqb (image x) (image y).
Proof. intros Hx Hy. unfold cmp_eqb. by rewrite Himage. Qed.

Lemma bt_insert_valid m k v : bt_valid m -> valid k -> bt_valid (bt_insert m k v).
Proof.
  intros Hm Hk. induction Hm as [|[k' v'] m Hk' Hm IH]; cbn; [by repeat constructor|]. destruct (cmp k k'); by repeat constructor.
Qed.

Lemma bt_insert_bound m k v b : Forall (fun e => cmp b (fst e) = Lt) m -> cmp b k = Lt -> Forall (fun e => cmp b (fst e) = Lt) (bt_insert m k v).
Proof.
  intros Hm Hk. induction Hm as [|[k' v'] m Hk' Hm IH]; cbn; [by repeat constructor|]. destruct (cmp k k'); by repeat constructor.
Qed.

Lemma lt_trans_valid x y z : valid x -> valid y -> valid z -> cmp x y = Lt -> cmp y z = Lt -> cmp x z = Lt.
Proof. intros Hx Hy Hz. rewrite !Himage by done. apply cmp_lt_trans. Qed.

Lemma bt_insert_sorted m k v : bt_valid m -> valid k -> bt_sorted m -> bt_sorted (bt_insert m k v).
Proof.
  intros Hm Hk. induction m as [|[k' v'] m IH]; cbn; [done|]. apply Forall_cons in Hm as [Hk' Hm]. cbn in Hk'. intros [Hf Hs]. destruct (cmp k k') eqn:E; cbn.
  - done.
  - split; [|done]. constructor; [done|]. rewrite Forall_forall in Hf, Hm |- *. intros e He. eapply lt_trans_valid; [done|exact Hk'|by apply Hm|done|by apply Hf].
  - split; [|by apply IH]. apply bt_insert_bound; [done|]. rewrite Himage in * by done. by apply cmp_gt_lt.
Qed.

Lemma get_key_value_some m k k' v : get_key_value m k = Some (k', v) -> (k', v) ∈ m /\ cmp_eqb k' k = true.
Proof.
  induction m as [|[k0 v0] m IH]; cbn; [done|]. destruct (cmp_eqb k0 k) eqn:E.
  - intros [= <- <-]. split; [by apply elem_of_cons; left|done].
  - intros Hg. destruct (IH Hg) as [Hin Heq]. split; [by apply elem_of_cons; right|done].
Qed.

(** A key that is present finds its own entry. *)
Lemma get_key_value_in m k v k' : bt_valid m -> bt_sorted m -> valid k' -> (k, v) ∈ m -> cmp_eqb k k' = true -> get_key_value m k' = Some (k, v).
Proof.
  intros Hm Hs Hk' Hin Heq. induction m as [|[k0 v0] m IH]; [by apply not_elem_of_nil in Hin|]. apply Forall_cons in Hm as [Hk0 Hm]. destruct Hs as [Hf Hs]. cbn in *.
  apply elem_of_cons in Hin as [[= <- <-]|Hin]; [by rewrite Heq|]. rewrite Forall_forall in Hf. pose proof (Hf _ Hin) as Hlt. cbn in Hlt.
  unfold bt_valid in Hm. rewrite Forall_forall in Hm. pose proof (Hm _ Hin) as Hk. cbn in Hk.
  assert (cmp_eqb k0 k' = false) as ->; [|by apply IH; [apply Forall_forall| | ]].
  unfold cmp_eqb in *. rewrite Himage in * by done. destruct (cmp (image k) (image k')) eqn:E; try done. by rewrite <- (cmp_eq_r _ _ _ E), Hlt.
Qed.

Lemma bt_get_insert m k v k' : bt_valid m -> valid k -> valid k' -> bt_sorted m ->
  bt_get (bt_insert m k v) k' = if cmp_eqb k k' then Some v else bt_get m k'.
Proof.
  intros Hm Hk Hk'. unfold bt_get. induction m as [|[k0 v0] m IH]; cbn; [by destruct (cmp_eqb k k')|]. apply Forall_cons in Hm as [Hk0 Hm]. cbn in Hk0. intros [Hf Hs].
  destruct (cmp k k0) eqn:E; cbn.
  - rewrite Himage in E by done. rewrite !cmp_eqb_valid by done. assert (cmp_eqb (image k) (image k') = cmp_eqb (image k0) (image k')) as -> by (unfold cmp_eqb; by rewrite (cmp_eq_l _ _ _ E)).
    by destruct (cmp_eqb (image k0) (image k')).
  - by destruct (cmp_eqb k k').
  - destruct (cmp_eqb k0 k') eqn:E0; [|by apply IH]. cbn. assert (cmp_eqb k k' = false) as ->; [|done].
    unfold cmp_eqb in *. rewrite !Himage in * by done. destruct (cmp (image k0) (image k')) eqn:E1; try done. by rewrite <- (cmp_eq_r _ _ _ E1), E.
Qed.

Lemma bt_insert_elem m k v e : e ∈ bt_insert m k v -> (fst e = k \/ fst e ∈ bt_keys m) /\ (snd e = v \/ e ∈ m).
Proof.
  induction m as [|[k0 v0] m IH]; cbn.
  - intros ->%list_elem_of_singleton. cbn. auto.
  - destruct (cmp k k0) eqn:E; rewrite !elem_of_cons.
    + intros [->|Hin]; cbn; [auto|]. split; [right; right; by apply list_elem_of_fmap_2 with (f := fst) in Hin|auto].
    + intros [->|[->|Hin]]; cbn; [auto|auto|]. split; [right; right; by apply list_elem_of_fmap_2 with (f := fst) in Hin|auto].
    + intros [->|Hin]; cbn; [auto|]. destruct (IH Hin) as [[?|?] [?|?]]; auto.
Qed.

Lemma get_key_value_none m k e : bt_valid m -> valid k -> get_key_value m k = None -> e ∈ m -> cmp_eqb (fst e) k = false.
Proof.
  intros Hm Hk. induction m as [|[k0 v0] m IH]; cbn; [by intros _ ?%not_elem_of_nil|]. apply Forall_cons in Hm as [_ Hm]. destruct (cmp_eqb k0 k) eqn:E; [done|].
  intros Hg [->|Hin]%elem_of_cons; [done|by apply IH].
Qed.

Lemma bt_remove_perm m k k' v : get_key_value m k = Some (k', v) -> m ≡ₚ (k', v) :: bt_remove m k.
Proof.
  induction m as [|[k0 v0] m IH]; cbn; [done|]. destruct (cmp_eqb k0 k); [by intros [= <- <-]|]. intros Hg. rewrite (IH Hg) at 1. constructor.
Qed.

Lemma bt_remove_sorted m k : bt_sorted m -> bt_sorted (bt_remove m k).
Proof.
  induction m as [|[k0 v0] m IH]; cbn; [done|]. intros [Hf Hs]. destruct (cmp_eqb k0 k); [done|]. cbn. split; [|by apply IH].
  clear -Hf. induction Hf as [|[k1 v1] m Hy Hf IH]; cbn; [done|]. destruct (cmp_eqb k1 k); [done|]. by constructor.
Qed.

Lemma bt_remove_valid m k : bt_valid m -> bt_valid (bt_remove m k).
Proof. unfold bt_valid. induction 1 as [|[k0 v0] m Hz Hm IH]; cbn; [constructor|]. destruct (cmp_eqb k0 k); [done|]. by constructor. Qed.

Lemma bt_get_remove m k k' : bt_valid m -> valid k -> valid k' -> cmp_eqb k k' = false -> bt_get (bt_remove m k) k' = bt_get m k'.
Proof.
  intros Hm Hk Hk' Hne. unfold bt_get. induction m as [|[k0 v0] m IH]; cbn; [done|]. apply Forall_cons in Hm as [Hz Hm]. cbn in Hz. destruct (cmp_eqb k0 k) eqn:E; cbn.
  - assert (cmp_eqb k0 k' = false) as ->; [|done]. unfold cmp_eqb in *. rewrite Himage in * by done. destruct (cmp (image k0) (image k)) eqn:E0; try done. by rewrite (cmp_eq_l _ _ _ E0).
  - destruct (cmp_eqb k0 k'); [done|by apply IH].
Qed.

Lemma bt_remove_elem m k e : e ∈ bt_remove m k -> e ∈ m.
Proof.
  induction m as [|[k0 v0] m IH]; cbn; [done|]. destruct (cmp_eqb k0 k); rewrite !elem_of_cons; [by right|]. intros [->|Hin]; [by left|right; by apply IH].
Qed.

Lemma bt_filter_sorted (p : K * V -> bool) m : bt_sorted m -> bt_sorted (List.filter p m).
Proof.
  induction m as [|[k v] m IH]; cbn; [done|]. intros [Hf Hs]. destruct (p (k, v)); cbn; [|by apply IH]. split; [|by apply IH].
  rewrite Forall_forall in Hf |- *. intros e He. apply Hf. rewrite list_elem_of_In in He |- *. by apply filter_In in He as [He _].
Qed.

(** Sorted lists stay sorted when only the values change. *)
Lemma bt_map_sorted {W} (f : V -> W) m : bt_sorted m -> bt_sorted (map (fun e => (fst e, f (snd e))) m).
Proof.
  induction m as [|[k v] m IH]; cbn; [done|]. intros [Hf Hs]. split; [|by apply IH]. rewrite Forall_forall in Hf. apply Forall_forall. intros e (e'&->&Hin)%list_elem_of_fmap. by apply Hf.
Qed.

(** *** What the values hold

    A number that some values carry, different in all entries. *)

Context (mark : V -> option N).

Definition marks m : list N := omap (fun e => mark (snd e)) m.

Lemma marks_elem m c : c ∈ marks m <-> exists e, e ∈ m /\ mark (snd e) = Some c.
Proof. unfold marks. rewrite list_elem_of_omap. done. Qed.

Lemma marks_unique m e e' c : NoDup (marks m) -> e ∈ m -> e' ∈ m -> mark (snd e) = Some c -> mark (snd e') = Some c -> e = e'.
Proof.
  induction m as [|e0 m IH]; [by intros _ ?%not_elem_of_nil|]. cbn. intros Hnd He He' Hc Hc'.
  apply elem_of_cons in He as [->|He], He' as [->|He']; [done|..].
  - unfold marks in Hnd. cbn in Hnd. rewrite Hc in Hnd. apply NoDup_cons in Hnd as [Hn _]. exfalso. apply Hn. apply list_elem_of_omap. eauto.
  - unfold marks in Hnd. cbn in Hnd. rewrite Hc' in Hnd. apply NoDup_cons in Hnd as [Hn _]. exfalso. apply Hn. apply list_elem_of_omap. eauto.
  - apply IH; try done. unfold marks in Hnd. cbn in Hnd. destruct (mark (snd e0)); [by apply NoDup_cons in Hnd as [_ Hnd]|done].
Qed.

Lemma marks_insert m k v : NoDup (marks m) -> (forall c, mark v = Some c -> c ∉ marks m) -> NoDup (marks (bt_insert m k v)).
Proof.
  intros Hnd Hv. assert (forall m', NoDup (marks m') -> (forall c, mark v = Some c -> c ∉ marks m') -> NoDup (marks ((k, v) :: m'))) as Hcons.
  { intros m' Hm' Hc. unfold marks in *. cbn. destruct (mark v) as [c|]; [|done]. apply NoDup_cons. split; [by apply Hc|done]. }
  induction m as [|[k0 v0] m IH]; cbn [bt_insert]; [by apply Hcons|].
  assert (NoDup (marks m) /\ (forall c, mark v0 = Some c -> c ∉ marks m) /\ (forall c, mark v = Some c -> c ∉ marks m)) as (Hm&Hz&Hvm).
  { unfold marks in *. cbn in *. destruct (mark v0) as [c0|]; [|by split_and!]. apply NoDup_cons in Hnd as [Hz Hm]. split_and!; [done|by intros c [= <-]|]. intros c Hc Hin. by apply (Hv c Hc), elem_of_cons; right. }
  destruct (cmp k k0); [unfold marks in *; cbn; destruct (mark v) as [c|]; [apply NoDup_cons; split; [by apply Hvm|done]|done]|by apply Hcons|].
  specialize (IH Hm Hvm). unfold marks in *. cbn. cbn in Hv. destruct (mark v0) as [c0|]; [|done]. apply NoDup_cons. split; [|done].
  intros (e&He&Hc)%list_elem_of_omap. apply bt_insert_elem in He as [_ [Ee|He]].
  - rewrite Ee in Hc. apply (Hv c0 Hc), elem_of_cons. by left.
  - apply (Hz c0 eq_refl). apply list_elem_of_omap. eauto.
Qed.

End facts.

(** ** The bounds of a range

    The bounding range of segments that increase contains what they contain, and a map
    can be cut at it. *)

Section bounding.
Context {T I : Type} `{Ord T} `{OrdLaws I} (valid : T -> Prop) (image : T -> I).
Context (Himage : forall x y : T, valid x -> valid y -> cmp x y = cmp (image x) (image y)).

Definition value_place (v : T) : place T := (1%N, [(v, 1%N)]).

Lemma value_place_ok v : valid v -> place_ok valid (value_place v).
Proof. intros Hv. by repeat constructor. Qed.


Abbreviation at_key p := (place_key image p).

Lemma one_place_cmp (a b : I) (i j : N) : cmp ((1%N, [(a, i)]) : place I) (1%N, [(b, j)]) = then_with (cmp a b) (cmp i j).
Proof. rewrite prod_cmp. cbn [fst snd]. rewrite list_cmp_cons, prod_cmp. cbn [fst snd]. change (cmp 1%N 1%N) with Eq. cbn [then_with]. by destruct (cmp a b), (cmp i j). Qed.

Lemma lower_contains_place b v : bound_valid valid b -> valid v -> lower_contains b v = cmp_ltb (at_key (lower_place b)) (at_key (value_place v)).
Proof.
  intros Hb Hv. destruct b as [x|x|]; cbn [bound_valid lower_contains lower_place] in *; [..|done]; unfold cmp_geb, cmp_gtb, cmp_ltb, value_place, place_key; cbn [fst snd map];
    rewrite one_place_cmp, Himage, (cmp_opp (image x) (image v)) by done; by destruct (cmp (image x) (image v)).
Qed.

Lemma upper_contains_place b v : bound_valid valid b -> valid v -> upper_contains b v = cmp_ltb (at_key (value_place v)) (at_key (upper_place b)).
Proof.
  intros Hb Hv. destruct b as [x|x|]; cbn [bound_valid upper_contains upper_place] in *; [..|done]; unfold cmp_leb, cmp_ltb, value_place, place_key; cbn [fst snd map];
    rewrite one_place_cmp, Himage by done; by destruct (cmp (image v) (image x)).
Qed.

(** Segments above a place: each begins above it and ends before the end of the last. *)
Lemma ascending_bounds l : forall p a b, place_ok valid p -> Forall (segment_valid valid) l -> ascending_from p l = true -> last l = Some (a, b) -> forall s, s ∈ l ->
  cmp (at_key p) (at_key (lower_place (fst s))) = Lt /\ cmp (at_key (lower_place (fst s))) (at_key (upper_place (snd s))) = Lt /\ cmp (at_key (upper_place (snd s))) (at_key (upper_place b)) <> Gt.
Proof.
  assert (forall x y, place_ok valid x -> place_ok valid y -> cmp_ltb x y = true -> cmp (at_key x) (at_key y) = Lt) as Hlt.
  { intros x y Hx Hy. unfold cmp_ltb. rewrite (place_key_cmp image valid Himage) by done. by destruct (cmp (at_key x) (at_key y)). }
  induction l as [|s0 l IH]; [done|]. intros p a b Hp Hv Hasc Hlast s Hs. apply Forall_cons in Hv as [[Hv1 Hv2] Hv]. cbn [ascending_from] in Hasc. apply andb_prop in Hasc as [[Ha1 Ha2]%andb_prop Ha3].
  pose proof (lower_place_ok valid _ Hv1) as Hl0. pose proof (upper_place_ok valid _ Hv2) as Hu0. pose proof (Hlt _ _ Hp Hl0 Ha1) as L1. pose proof (Hlt _ _ Hl0 Hu0 Ha2) as L2.
  destruct l as [|s1 l].
  - apply list_elem_of_singleton in Hs as ->. injection Hlast as ->. cbn [fst snd] in *. split_and!; [done|done|]. by rewrite cmp_refl.
  - rewrite last_cons_cons in Hlast. specialize (IH (upper_place (snd s0)) a b Hu0 Hv Ha3 Hlast). apply elem_of_cons in Hs as [->|Hs].
    + split_and!; [done|done|]. destruct (IH s1) as (L3&L4&L5); [by apply elem_of_cons; left|]. pose proof (cmp_lt_trans _ _ _ L3 L4) as L6. by rewrite (cmp_lt_le_trans _ _ _ L6 L5).
    + destruct (IH s Hs) as (L3&L4&L5). split_and!; [|done|done]. eapply cmp_lt_trans; [exact L1|]. by eapply cmp_lt_trans.
Qed.

Lemma bounding_props l lo hi : Forall (segment_valid valid) l -> ascending l = true -> bounding l = Some (lo, hi) ->
  cmp (at_key (lower_place lo)) (at_key (upper_place hi)) = Lt /\ segment_valid valid (lo, hi) /\
  forall s, s ∈ l -> cmp (at_key (lower_place lo)) (at_key (lower_place (fst s))) <> Gt /\ cmp (at_key (upper_place (snd s))) (at_key (upper_place hi)) <> Gt.
Proof.
  destruct l as [|[a0 b0] l]; [done|]. intros Hv Hasc Hb. pose proof Hv as Hall. apply Forall_cons in Hv as [[Hv1 Hv2] Hv]. cbn [fst snd] in *. unfold bounding in Hb.
  destruct (last ((a0, b0) :: l)) as [[c d]|] eqn:El; [|done]. injection Hb as <- <-. cbn [ascending] in Hasc. apply andb_prop in Hasc as [Ha1 Ha2]. cbn [snd] in Ha2.
  assert (bound_valid valid d) as Hvd by (rewrite Forall_forall in Hall; apply (Hall (c, d)); by apply last_Some_elem_of).
  assert (cmp (at_key (lower_place a0)) (at_key (upper_place b0)) = Lt) as L0.
  { unfold segment_proper, cmp_ltb in Ha1. cbn [fst snd] in Ha1. rewrite (place_key_cmp image valid Himage) in Ha1 by (by apply lower_place_ok || by apply upper_place_ok). by destruct (cmp (at_key (lower_place a0)) _). }
  destruct l as [|s1 l].
  - injection El as <- <-. split_and!; [done|done|]. intros s ->%list_elem_of_singleton. cbn [fst snd]. by rewrite !cmp_refl.
  - rewrite last_cons_cons in El. pose proof (ascending_bounds (s1 :: l) (upper_place b0) c d (upper_place_ok valid _ Hv2) Hv Ha2 El) as Hs.
    destruct (Hs s1) as (L1&L2&L3); [by apply elem_of_cons; left|]. pose proof (cmp_lt_le_trans _ _ _ (cmp_lt_trans _ _ _ L1 L2) L3) as L4. split_and!; [by eapply cmp_lt_trans|done|].
    intros s [->|Hin]%elem_of_cons; cbn [fst snd]; [by rewrite cmp_refl, L4|]. destruct (Hs s Hin) as (L5&L6&L7). by rewrite (cmp_lt_trans _ _ _ L0 L5).
Qed.

Lemma bounding_contains l lo hi v s : Forall (segment_valid valid) l -> ascending l = true -> bounding l = Some (lo, hi) -> valid v -> s ∈ l -> segment_contains v s = true -> segment_contains v (lo, hi) = true.
Proof.
  intros Hv Hasc Hb Hvv Hs Hc. destruct (bounding_props l lo hi Hv Hasc Hb) as (_&[Hlo Hhi]&Hbound). destruct (Hbound s Hs) as [B1 B2]. rewrite Forall_forall in Hv. destruct (Hv s Hs) as [Hs1 Hs2].
  unfold segment_contains in *. cbn [fst snd] in *. apply andb_prop in Hc as [C1 C2]. rewrite lower_contains_place in * by done. rewrite upper_contains_place in * by done. unfold cmp_ltb in *.
  destruct (cmp (at_key (lower_place (fst s))) _) eqn:E1; try done. destruct (cmp (at_key (value_place v)) (at_key (upper_place (snd s)))) eqn:E2; try done.
  by rewrite (cmp_le_lt_trans _ _ _ B1 E1), (cmp_lt_le_trans _ _ _ E2 B2).
Qed.

Lemma bounding_no_panic l lo hi : Forall (segment_valid valid) l -> ascending l = true -> bounding l = Some (lo, hi) -> range_panics lo hi = false.
Proof.
  intros Hv Hasc Hb. destruct (bounding_props l lo hi Hv Hasc Hb) as (Hlt&[Hlo Hhi]&_). destruct lo as [a|a|], hi as [b|b|]; cbn [range_panics lower_place upper_place bound_valid fst snd] in *; try done;
    unfold cmp_gtb, cmp_geb; rewrite Himage by done; unfold place_key in Hlt; cbn [fst snd map] in Hlt; rewrite one_place_cmp in Hlt; by destruct (cmp (image a) (image b)).
Qed.

End bounding.
