(* ===== verification/PrioritizedDistTheorems.v ===== *)
(** * What implied markers say, and which distribution is chosen *)

From stdpp Require Import base numbers list strings gmap relations.
From S2P Require Import Prelude VersionTypes VersionSmall Version VersionFacts VersionParser ParserFacts ParserSafe Specifier SpecifierFacts Ranges RangesFacts RangesTheorems Names Text PlatformTags Tags Filename RangeSet Cuts Tiling MarkerTypes MarkerAlgebra MarkerEval MarkerWf MarkerEdges MarkerExpr MarkerOps MarkerVersions MarkerTree MarkerTheorems MarkerExamples MarkerFormula PrioritizedDist.

(** ** Reference: the environments of a tag *)

Definition platform_tag_holds (a : assignment) (platform_tag : PlatformTag) : bool :=
  let runs platform machine := expression_holds a (sys_platform_is platform) && expression_holds a (machine_is machine) in
  match platform_tag with
  | PT_Any => true
  | PT_Win32 => runs (bs "win32") (bs "x86")
  | PT_WinAmd64 => runs (bs "win32") (bs "AMD64")
  | PT_WinArm64 => runs (bs "win32") (bs "ARM64")
  | PT_Macos _ _ binary_format => existsb (fun arch => runs (bs "darwin") (BinaryFormat_name arch)) (BinaryFormat_platform_machine binary_format)
  | PT_Manylinux _ _ arch | PT_Manylinux1 arch | PT_Manylinux2010 arch | PT_Manylinux2014 arch | PT_Musllinux _ _ arch | PT_Linux arch => runs (bs "linux") (Arch_name arch)
  | _ => false
  end.

(** The Python version starts with the segments of the tag, and the implementation is
    the one it names. *)
Definition python_tag_holds (a : assignment) (python_tag : LanguageTag) : bool :=
  match python_tag with
  | LT_None => true
  | _ => release_matches EqualStar (tag_version python_tag) (compared a MVV_PythonVersion) &&
         match tag_implementation python_tag with None => true | Some implementation => expression_holds a (implementation_is implementation) end
  end.

(** The numbers of a tag are bytes. *)
Definition tag_small (python_tag : LanguageTag) : Prop := Forall (fun n => n <= u8_MAX) (tag_version python_tag).

Section values.
Context {RV RS : Type} {SV : RangeSet Version RV} {SS : RangeSet text RS}.
Context (okV : RV -> Prop) (okS : RS -> Prop) (ordered : bool).
Context {LV : RangeSetLaws Version RV version_wf okV} {LS : RangeSetLaws text RS (fun _ => True) okS}.
Abbreviation Interner := (@Interner RV RS).
Abbreviation wf := (interner_wf okV okS ordered).

(** Environments on final releases of Python. *)
Definition real (a : assignment) : Prop := admissible a /\ final a.

(** The action returns a node with this value, from any good state. *)
Definition has_value (m : act Interner NodeId) (v : assignment -> bool) : Prop := forall s, wf s -> yields okV okS ordered real m s v.

Lemma has_value_expression e : expression_ok e -> (forall a, faithful_at a e) -> has_value (expression e) (fun a => expression_holds a e).
Proof.
  intros Hok Hf s Hs. destruct (expression_faithful okV okS ordered e Hok) as (v&Hy&Hv). eapply (yields_weaken okV okS ordered); [by apply Hy|by intros a [[Ha _] _]|].
  intros a [[Ha _] Hfin]. by apply Hv.
Qed.

Lemma has_value_binary m n v w (apply : NodeId -> NodeId -> act Interner NodeId) (op : bool -> bool -> bool) : has_value m v -> has_value n w ->
  (forall s x y, wf s -> valid_id (nodes s) x -> valid_id (nodes s) y -> yields okV okS ordered admissible (apply x y) s (fun a => op (eval (nodes s) a x) (eval (nodes s) a y))) ->
  has_value (let! x := m in let! y := n in apply x y) (fun a => op (v a) (w a)).
Proof.
  intros Hm Hn Hop s Hs. apply spec_bind. eapply spec_mono; [by apply Hm|]. intros x s1 (H1&Hs1&Hx&Hxv). apply spec_bind. eapply spec_mono; [by apply Hn|]. intros y s2 (H2&Hs2&Hy&Hyv).
  assert (valid_id (nodes s2) x) as Hx2 by (by eapply extends_valid). eapply spec_mono; [by apply Hop|]. intros z s3 (H3&Hs3&Hz&Hzv).
  split_and!; [by etrans; [|etrans]|done|done|]. intros a Ha. rewrite Hzv by apply Ha. rewrite (extends_eval s1 s2) by done. by rewrite Hxv, Hyv.
Qed.

Lemma has_value_and m n v w : has_value m v -> has_value n w -> has_value (let! x := m in let! y := n in and_ x y) (fun a => v a && w a).
Proof. intros Hm Hn. apply (has_value_binary m n v w and_ andb Hm Hn). intros s x y. apply (and_yields okV okS ordered). Qed.

(** One more disjunct: the node so far, and the value of the next. *)
Lemma or_step s marker m v (k : NodeId -> act Interner NodeId) f : wf s -> valid_id (nodes s) marker -> has_value m v ->
  (forall s' marker', extends s s' -> wf s' -> valid_id (nodes s') marker' -> (forall a, real a -> eval (nodes s') a marker' = eval (nodes s) a marker || v a) ->
     yields okV okS ordered real (k marker') s' f) ->
  yields okV okS ordered real (let! x := m in let! marker' := or_ marker x in k marker') s f.
Proof.
  intros Hs Hmark Hm Hk. apply spec_bind. eapply spec_mono; [by apply Hm|]. intros x s1 (H1&Hs1&Hx&Hxv). assert (valid_id (nodes s1) marker) as Hm1 by (by eapply extends_valid).
  apply spec_bind. eapply spec_mono; [by apply (or_yields okV okS ordered)|]. intros z s2 (H2&Hs2&Hz&Hzv).
  eapply spec_mono; [apply (Hk s2 z); [by etrans|done|done|]|].
  - intros a Ha. rewrite Hzv by apply Ha. rewrite (extends_eval s s1) by done. by rewrite Hxv.
  - intros y s3 (H3&Hs3&Hy&Hyv). split_and!; [by etrans; [|etrans]|done|done|done].
Qed.

Lemma or_step_value s marker m v : wf s -> valid_id (nodes s) marker -> yields okV okS ordered real m s v ->
  yields okV okS ordered real (let! x := m in or_ marker x) s (fun a => eval (nodes s) a marker || v a).
Proof.
  intros Hs Hmark Hm. apply spec_bind. eapply spec_mono; [exact Hm|]. intros x s1 (H1&Hs1&Hx&Hxv). assert (valid_id (nodes s1) marker) as Hm1 by (by eapply extends_valid).
  eapply spec_mono; [by apply (or_yields okV okS ordered)|]. intros z s2 (H2&Hs2&Hz&Hzv). split_and!; [by etrans|done|done|].
  intros a Ha. rewrite Hzv by apply Ha. rewrite (extends_eval s s1) by done. by rewrite Hxv.
Qed.

Lemma string_value key value : has_value (expression (ME_String key MO_Equal value)) (fun a => expression_holds a (ME_String key MO_Equal value)).
Proof. by apply has_value_expression. Qed.

Lemma both_value key value key' value' : has_value (both (ME_String key MO_Equal value) (ME_String key' MO_Equal value'))
  (fun a => expression_holds a (ME_String key MO_Equal value) && expression_holds a (ME_String key' MO_Equal value')).
Proof. apply has_value_and; apply string_value. Qed.

Lemma arch_markers_value archs : forall s marker, wf s -> valid_id (nodes s) marker ->
  yields okV okS ordered real (arch_markers marker archs) s (fun a => eval (nodes s) a marker || existsb (fun arch => expression_holds a (machine_is (BinaryFormat_name arch))) archs).
Proof.
  induction archs as [|arch archs IH]; intros s marker Hs Hm; cbn [arch_markers existsb].
  - apply spec_ret. split_and!; [done|done|done|]. intros a _. by rewrite orb_false_r.
  - eapply or_step; [done|done|apply string_value|]. intros s' marker' He Hs' Hm' Hv. eapply (yields_weaken okV okS ordered); [by apply IH|done|]. intros a Ha. specialize (Hv a Ha). cbn beta in *. by rewrite Hv, orb_assoc.
Qed.

Lemma platform_tag_value platform_tag : match platform_tag_marker platform_tag with
  | Some m => has_value m (fun a => platform_tag_holds a platform_tag)
  | None => platform_tag = PT_Any \/ forall a, platform_tag_holds a platform_tag = false
  end.
Proof.
  destruct platform_tag; cbn [platform_tag_marker]; try (by apply both_value); try (by right); try (by left).
  intros s Hs.
  assert (has_value (arch_markers NodeId.FALSE (BinaryFormat_platform_machine binary_format)) (fun a => existsb (fun arch => expression_holds a (machine_is (BinaryFormat_name arch))) (BinaryFormat_platform_machine binary_format))) as Ha.
  { intros s' Hs'. eapply (yields_weaken okV okS ordered); [apply arch_markers_value; [done|by apply terminal_valid]|done|]. intros a _. cbn beta. by rewrite eval_false. }
  eapply (yields_weaken okV okS ordered); [by apply (has_value_and _ _ _ _ (string_value MVS_SysPlatform (bs "darwin")) Ha)|done|]. intros a _. cbn [platform_tag_holds].
  set (archs := BinaryFormat_platform_machine binary_format). clearbody archs. change (ME_String MVS_SysPlatform MO_Equal (bs "darwin")) with (sys_platform_is (bs "darwin")).
  induction archs as [|arch archs IH]; cbn [existsb]; [apply andb_false_r|]. rewrite andb_orb_distrib_r. by rewrite IH.
Qed.

Lemma platform_loop_value tags : forall s marker, wf s -> valid_id (nodes s) marker ->
  yields okV okS ordered real (platform_loop marker tags) s (fun a => eval (nodes s) a marker || existsb (platform_tag_holds a) tags).
Proof.
  induction tags as [|tag tags IH]; intros s marker Hs Hm; cbn [existsb].
  - apply spec_ret. split_and!; [done|done|done|]. intros a _. by rewrite orb_false_r.
  - destruct (decide (tag = PT_Any)) as [->|Hne].
    + apply spec_ret. split_and!; [done|done|by apply terminal_valid|]. intros a _. by rewrite eval_true, orb_true_r.
    + assert (platform_loop marker (tag :: tags) = match platform_tag_marker tag with
        | Some m => let! tag_marker := m in let! marker := or_ marker tag_marker in platform_loop marker tags | None => platform_loop marker tags end) as -> by (by destruct tag).
      pose proof (platform_tag_value tag) as Ht. destruct (platform_tag_marker tag) as [m|].
      * eapply or_step; [done|done|exact Ht|]. intros s' marker' He Hs' Hm' Hv. eapply (yields_weaken okV okS ordered); [by apply IH|done|]. intros a Ha. specialize (Hv a Ha). cbn beta in *. by rewrite Hv, orb_assoc.
      * destruct Ht as [->|Ht]; [done|]. eapply (yields_weaken okV okS ordered); [by apply IH|done|]. intros a Ha. by rewrite Ht.
Qed.

Lemma python_tag_value python_tag : python_tag <> LT_None -> tag_small python_tag -> has_value (python_tag_marker python_tag) (fun a => python_tag_holds a python_tag).
Proof.
  intros Hne Hsmall. assert (tag_version python_tag <> []) as Hv by (by destruct python_tag as [|? []|[]|[]|[]|[]]).
  destruct (new_release _ Hv) as (v&En&Hr). destruct (release_is_release _ _ Hr) as [Er _].
  assert (has_value (expression (python_version_is v)) (fun a => release_matches EqualStar (tag_version python_tag) (compared a MVV_PythonVersion))) as Hpv.
  { rewrite <- Er. apply (has_value_expression (python_version_is v)); [|done]. split; [|done]. cbn. unfold specifier_ok. cbn [operator spec_version equals_star_version]. rewrite Er. split_and!; [done| |done].
    eapply Forall_impl; [exact Hsmall|]. unfold u8_MAX, u64_MAX. cbn. lia. }
  assert (forall s, python_tag_marker python_tag s = match tag_implementation python_tag with
    | None => expression (python_version_is v) | Some implementation => both (python_version_is v) (implementation_is implementation) end s) as E by (intros s; unfold python_tag_marker, mbind', mlift; by rewrite En).
  intros s Hs. unfold yields, spec. rewrite E. fold (spec (match tag_implementation python_tag with
    | None => expression (python_version_is v) | Some implementation => both (python_version_is v) (implementation_is implementation) end) s).
  destruct python_tag as [|M mo|p|p|p|p]; cbn [tag_implementation]; [done|..];
    [eapply (yields_weaken okV okS ordered); [by apply Hpv|done|]; intros a _; cbn [python_tag_holds tag_implementation]; by rewrite andb_true_r|..];
    by apply (has_value_and _ _ _ _ Hpv (string_value MVS_PlatformPythonImplementation _)).
Qed.

Lemma python_loop_value tags : Forall tag_small tags -> forall s marker, wf s -> valid_id (nodes s) marker ->
  yields okV okS ordered real (python_loop marker tags) s (fun a => eval (nodes s) a marker || existsb (python_tag_holds a) tags).
Proof.
  induction 1 as [|tag tags Hsmall _ IH]; intros s marker Hs Hm; cbn [existsb].
  - apply spec_ret. split_and!; [done|done|done|]. intros a _. by rewrite orb_false_r.
  - destruct (decide (tag = LT_None)) as [->|Hne].
    + apply spec_ret. split_and!; [done|done|by apply terminal_valid|]. intros a _. by rewrite eval_true, orb_true_r.
    + assert (python_loop marker (tag :: tags) = let! tree := python_tag_marker tag in let! marker := or_ marker tree in python_loop marker tags) as -> by (by destruct tag).
      eapply or_step; [done|done|by apply python_tag_value|]. intros s' marker' He Hs' Hm' Hv. eapply (yields_weaken okV okS ordered); [by apply IH|done|]. intros a Ha. specialize (Hv a Ha). cbn beta in *. by rewrite Hv, orb_assoc.
Qed.

Lemma implied_markers_yields (filename : WheelFilename) s : wf s -> Forall tag_small (python_tags (wheel_tags filename)) ->
  yields okV okS ordered real (implied_markers filename) s
    (fun a => existsb (platform_tag_holds a) (platform_tags (wheel_tags filename)) && existsb (python_tag_holds a) (python_tags (wheel_tags filename))).
Proof.
  intros Hs Hsmall. unfold implied_markers.
  assert (has_value (implied_platform_markers filename) (fun a => existsb (platform_tag_holds a) (platform_tags (wheel_tags filename)))) as Hp.
  { intros s' Hs'. eapply (yields_weaken okV okS ordered); [apply platform_loop_value; [done|by apply terminal_valid]|done|]. intros a _. cbn beta. by rewrite eval_false. }
  assert (has_value (implied_python_markers filename) (fun a => existsb (python_tag_holds a) (python_tags (wheel_tags filename)))) as Hy.
  { intros s' Hs'. eapply (yields_weaken okV okS ordered); [apply python_loop_value; [done|done|by apply terminal_valid]|done|]. intros a _. cbn beta. by rewrite eval_false. }
  exact (has_value_and _ _ _ _ Hp Hy s Hs).
Qed.

(** The marker a wheel implies holds exactly in the environments of its tags: one
    of its platform tags names the platform and the machine, and one of its Python tags
    names the Python version, by prefix, and the implementation. It is built without a
    panic in any state of the interner that the program can reach. *)
Theorem implied_markers_value (filename : WheelFilename) s : wf s -> Forall tag_small (python_tags (wheel_tags filename)) ->
  spec (implied_markers filename) s (fun z s' => extends s s' /\ wf s' /\ valid_id (nodes s') z /\
    forall a, admissible a -> final a ->
      eval (nodes s') a z = existsb (platform_tag_holds a) (platform_tags (wheel_tags filename)) && existsb (python_tag_holds a) (python_tags (wheel_tags filename))).
Proof.
  intros Hs Hsmall. eapply spec_mono; [by apply implied_markers_yields|]. intros z s' (H1&Hs'&Hz&Hv). split_and!; [done|done|done|]. intros a Ha Hfin. by apply Hv.
Qed.

End values.

(** ** Concrete wheels *)

Definition plain_wheel (python_tag : LanguageTag) (abi_tag : AbiTag) (platform_tag : PlatformTag) : WheelFilename :=
  WheelFilename_new {| package_name := bs "foo" |} (example [1; 0]) python_tag abi_tag platform_tag.

(** CPython 3.12 on x86-64 Linux. *)
Definition cpython312 : MarkerEnvironment := {|
  implementation_name := bs "cpython"; implementation_version := example [3; 12; 1]; os_name := bs "posix";
  platform_machine := bs "x86_64"; platform_python_implementation := bs "CPython"; platform_release := bs "6.1";
  platform_system := bs "Linux"; platform_version := bs ""; python_full_version := example [3; 12; 1];
  python_version := example [3; 12]; sys_platform := bs "linux"
|}.

Definition abi3_wheel : WheelFilename := plain_wheel (LT_CPython (3, 8)) AT_Abi3 (PT_Manylinux 2 28 X86_64).
Definition old_wheel : WheelFilename := plain_wheel (LT_Python 3 (Some 7)) AT_None PT_Any.

(** The wheels that can be installed for later versions of Python, [cp38-abi3] and
    [py37-none], are compatible with the tags of CPython 3.12; the markers they imply
    are false there. *)
Lemma implied_markers_too_narrow (to_lowercase : bytes -> bytes) :
  match from_env to_lowercase {| os := Os_Manylinux 2 28; arch := X86_64 |} (3, 12) (bs "cpython") (3, 12) true false with
  | Some (Ok tags) => wheel_is_compatible abi3_wheel tags && wheel_is_compatible old_wheel tags
  | _ => false
  end = true /\
  result_of (let! z := implied_markers abi3_wheel in evaluate z cpython312 []) = Some false /\
  result_of (let! z := implied_markers old_wheel in evaluate z cpython312 []) = Some false.
Proof. split_and!; vm_compute; reflexivity. Qed.

(** ** Theorems on the distributions of one version *)

#[local] Open Scope N_scope.

#[local] Arguments eval : simpl never.

(** ** The order that the comparisons follow *)

(** The class of a wheel, a number within the class, and the key of a compatible wheel.
    Compatible wheels come first; then, from the reason that is the nearest to being
    compatible to the farthest, excluded wheels, wheels of another tag by how far the tag
    matches, wheels for another Python, yanked wheels, wheels that may not be used as
    binaries, and wheels for a missing platform. The order says nothing of two excluded
    or two yanked wheels. *)
Abbreviation rank_type := (N * N * (HashComparison * option TagPriority * option BuildTag))%type.

Definition rank (c : WheelCompatibility) : rank_type :=
  let bottom := (HC_Mismatched, None, None) in
  match c with
  | WC_Compatible hash priority build_tag => (6, 0, (hash, priority, build_tag))
  | WC_Incompatible (IW_ExcludeNewer _) => (5, 0, bottom)
  | WC_Incompatible (IW_Tag tag) => (4, IncompatibleTag_index tag, bottom)
  | WC_Incompatible (IW_RequiresPython _ _) => (3, 0, bottom)
  | WC_Incompatible (IW_Yanked _) => (2, 0, bottom)
  | WC_Incompatible IW_NoBinary => (1, 0, bottom)
  | WC_Incompatible (IW_MissingPlatform _) => (0, 0, bottom)
  end.

Lemma compatible_rank (h h' : HashComparison) (p p' : option TagPriority) (b b' : option BuildTag) :
  cmp (rank (WC_Compatible h p b)) (rank (WC_Compatible h' p' b')) = cmp (h, p, b) (h', p', b').
Proof. done. Qed.

(** The comparison of wheels follows the rank. *)
Lemma more_compatible_rank c d : WheelCompatibility.is_more_compatible c d = true ->
  cmp (rank d) (rank c) <> Gt /\ (WheelCompatibility.is_compatible c = true -> cmp (rank d) (rank c) = Lt).
Proof.
  destruct c as [[[t|]|t|? ?|y| |?]|h p b], d as [[[u|]|u|? ?|z| |?]|h' p' b']; try (by intros); intros E.
  - split; [|done]. by destruct t, u.
  - change (cmp_gtb (h, p, b) (h', p', b') = true) in E. rewrite compatible_rank. unfold cmp_gtb in E. destruct (cmp (h, p, b) (h', p', b')) eqn:Ec; try done.
    apply cmp_gt_lt in Ec. by rewrite Ec.
Qed.

Lemma not_more_compatible_rank c d : WheelCompatibility.is_more_compatible c d = false -> cmp (rank c) (rank d) <> Gt.
Proof.
  destruct c as [[[t|]|t|? ?|y| |?]|h p b], d as [[[u|]|u|? ?|z| |?]|h' p' b']; try (by intros); intros E.
  - by destruct t, u.
  - change (cmp_gtb (h, p, b) (h', p', b') = false) in E. rewrite compatible_rank. unfold cmp_gtb in E. by destruct (cmp (h, p, b) (h', p', b')).
Qed.

Lemma rank_compatible c d : WheelCompatibility.is_compatible d = true -> cmp (rank d) (rank c) <> Gt -> WheelCompatibility.is_compatible c = true.
Proof. by destruct c as [[[t|]|t|? ?|y| |?]|h p b], d as [[[u|]|u|? ?|z| |?]|h' p' b']. Qed.

(** ** The best wheel *)

Abbreviation wheel_list := (list (RegistryBuiltWheel * WheelCompatibility)).

(** The index is that of a wheel of maximal rank; of the first one, when compatible. *)
Definition best_of (l : wheel_list) (index : option nat) : Prop :=
  match index with
  | None => l = []
  | Some i => exists w c, l !! i = Some (w, c) /\ forall j w' c', l !! j = Some (w', c') ->
      cmp (rank c') (rank c) <> Gt /\ (WheelCompatibility.is_compatible c = true -> (j < i)%nat -> cmp (rank c') (rank c) = Lt)
  end.

(** The index after one more wheel, as [insert_built] updates it. *)
Definition next_index (best : option (RegistryBuiltWheel * WheelCompatibility)) (index : option nat) (count : nat) (c : WheelCompatibility) : option nat :=
  match best with
  | Some (_, existing) => if WheelCompatibility.is_more_compatible c existing then Some count else index
  | None => Some count
  end.

Lemma best_of_new (l : wheel_list) w c :
  (forall j w' c', l !! j = Some (w', c') -> cmp (rank c') (rank c) <> Gt /\ (WheelCompatibility.is_compatible c = true -> cmp (rank c') (rank c) = Lt)) ->
  best_of (l ++ [(w, c)]) (Some (length l)).
Proof.
  intros H. exists w, c. split; [by rewrite list_lookup_middle|]. intros j w' c' Hj.
  apply lookup_snoc_Some in Hj as [[Hlt Hj]|[-> [= <- <-]]].
  - destruct (H j w' c' Hj) as [H1 H2]. auto.
  - rewrite cmp_refl. split; [done|lia].
Qed.

Lemma best_of_keep (l : wheel_list) i w c w' c' : best_of l (Some i) -> l !! i = Some (w', c') -> WheelCompatibility.is_more_compatible c c' = false -> best_of (l ++ [(w, c)]) (Some i).
Proof.
  intros (w0&c0&Hi&H) Hi' E. rewrite Hi in Hi'. injection Hi' as <- <-. exists w0, c0. split; [by apply lookup_app_l_Some|]. intros j w' c' Hj.
  apply lookup_snoc_Some in Hj as [[Hlt Hj]|[-> [= <- <-]]]; [by apply (H j w')|].
  split; [by apply not_more_compatible_rank|].
  intros _ Hlt. apply lookup_lt_Some in Hi. lia.
Qed.

Lemma best_of_snoc (l : wheel_list) index best w c : best_of l index -> match index with None => best = None | Some i => best = l !! i end ->
  best_of (l ++ [(w, c)]) (next_index best index (length l) c).
Proof.
  intros Hb Hbest. destruct index as [i|]; cbn in Hb.
  - destruct Hb as (w0&c0&Hi&H). rewrite Hi in Hbest. subst best. cbn [next_index]. destruct (WheelCompatibility.is_more_compatible c c0) eqn:E.
    + destruct (more_compatible_rank _ _ E) as [Hc Hlt]. apply best_of_new. intros j w' c' Hj. destruct (H j w' c' Hj) as [Hle _]. split; [by apply (cmp_le_trans _ (rank c0))|].
      intros Hcompat. exact (cmp_le_lt_trans _ _ _ Hle (Hlt Hcompat)).
    + eapply best_of_keep; [by exists w0, c0|done|done].
  - subst l best. apply best_of_new. intros j w' c' Hj. by rewrite lookup_nil in Hj.
Qed.

(** What every operation keeps. *)
Definition dist_wf (d : PrioritizedDist) : Prop :=
  best_of (wheels d) (best_wheel_index d) /\ match source d with Some (sdist, _) => sdist_wheels sdist = [] | None => True end.

Lemma best_wheel_some d : dist_wf d -> exists best, PrioritizedDist.best_wheel d = Some best /\ match best_wheel_index d with None => best = None | Some i => best = wheels d !! i end.
Proof.
  intros [Hb _]. unfold PrioritizedDist.best_wheel. destruct (best_wheel_index d) as [i|]; [|by eexists].
  destruct Hb as (w&c&Hi&_). rewrite Hi. by eexists.
Qed.

Lemma insert_source_wf d dist hs c : dist_wf d -> sdist_wheels dist = [] -> dist_wf (PrioritizedDist.insert_source d dist hs c).
Proof.
  intros [Hb Hs] Hd. split; [done|]. cbn. destruct (source d) as [[sdist e]|]; [|done]. by destruct (SourceDistCompatibility.is_more_compatible c e).
Qed.

Section states.
Context {RV RS : Type} {SV : RangeSet Version RV} {SS : RangeSet text RS}.
Context (okV : RV -> Prop) (okS : RS -> Prop) (ordered : bool).
Context {LV : RangeSetLaws Version RV version_wf okV} {LS : RangeSetLaws text RS (fun _ => True) okS}.
Abbreviation Interner := (@Interner RV RS).
Abbreviation wf := (interner_wf okV okS ordered).

Definition wheel_small (dist : RegistryBuiltWheel) : Prop := Forall tag_small (Filename.python_tags (wheel_tags (wheel_filename dist))).

(** The environments that a wheel names, and those of the distributions that can be
    used: any, when that is a source distribution. *)
Definition wheel_holds (a : assignment) (dist : RegistryBuiltWheel) : bool :=
  let tags := wheel_tags (wheel_filename dist) in
  existsb (platform_tag_holds a) (Filename.platform_tags tags) && existsb (python_tag_holds a) (Filename.python_tags tags).

Definition supported (d : PrioritizedDist) (a : assignment) : bool :=
  existsb (fun w => WheelCompatibility.is_compatible (snd w) && wheel_holds a (fst w)) (wheels d) ||
  match source d with Some (_, c) => SourceDistCompatibility.is_compatible c | None => false end.

(** The states that the operations reach. The interner may be used in between. The flag
    says that no distribution was made from an incompatible file. *)
Inductive reachable_dist : bool -> Interner -> PrioritizedDist -> Prop :=
| reach_default s : wf s -> reachable_dist true s PrioritizedDist.default
| reach_from_source s dist hs c : wf s -> sdist_wheels dist = [] -> reachable_dist (SourceDistCompatibility.is_compatible c) s (PrioritizedDist.from_source dist hs c)
| reach_from_built s dist hs c d s' : wf s -> wheel_small dist -> PrioritizedDist.from_built dist hs c s = Some (d, s') -> reachable_dist (WheelCompatibility.is_compatible c) s' d
| reach_insert_source e s d dist hs c : reachable_dist e s d -> sdist_wheels dist = [] ->
    reachable_dist (e || SourceDistCompatibility.is_compatible c) s (PrioritizedDist.insert_source d dist hs c)
| reach_insert_built e s d dist hs c d' s' : reachable_dist e s d -> wheel_small dist -> PrioritizedDist.insert_built d dist hs c s = Some (d', s') -> reachable_dist e s' d'
| reach_other e s d s' : reachable_dist e s d -> wf s' -> extends s s' -> reachable_dist e s' d.

Definition state_ok (exact : bool) (s : Interner) (d : PrioritizedDist) : Prop :=
  wf s /\ valid_id (nodes s) (markers d) /\ dist_wf d /\ (exact = true -> forall a, real a -> eval (nodes s) a (markers d) = supported d a).

Lemma implied_ok dist s : wf s -> wheel_small dist ->
  spec (implied_markers (wheel_filename dist)) s (fun z s' => extends s s' /\ wf s' /\ valid_id (nodes s') z /\ forall a, real a -> eval (nodes s') a z = wheel_holds a dist).
Proof. exact (implied_markers_yields okV okS ordered (wheel_filename dist) s). Qed.

Lemma source_status d dist hs c : match source (PrioritizedDist.insert_source d dist hs c) with Some (_, e) => SourceDistCompatibility.is_compatible e | None => false end =
  SourceDistCompatibility.is_compatible c || match source d with Some (_, e) => SourceDistCompatibility.is_compatible e | None => false end.
Proof.
  cbn. destruct (source d) as [[sdist e]|]; [|by rewrite orb_false_r]. destruct c as [c|h], e as [e|h']; cbn; try done.
  - by destruct (IncompatibleSource_is_more_compatible c e).
  - by destruct (cmp_gtb h h').
Qed.

Lemma insert_source_ok e s d dist hs c : state_ok e s d -> sdist_wheels dist = [] -> state_ok (e || SourceDistCompatibility.is_compatible c) s (PrioritizedDist.insert_source d dist hs c).
Proof.
  intros (Hs&Hm&Hd&He) Hw. split_and!; [done| |by apply insert_source_wf|].
  - cbn. destruct (SourceDistCompatibility.is_compatible c); [by apply terminal_valid|done].
  - intros Hexact a Ha. unfold supported. rewrite source_status. cbn. destruct (SourceDistCompatibility.is_compatible c); cbn.
    + by rewrite eval_true, orb_true_r.
    + rewrite orb_false_r in Hexact. by apply He.
Qed.

(** The markers after one more wheel. *)
Lemma insert_markers_ok e s d dist c : state_ok e s d -> wheel_small dist ->
  spec (if WheelCompatibility.is_compatible c then
          if negb (NodeId.is_true (markers d)) then let! implied := implied_markers (wheel_filename dist) in or_ (markers d) implied else mret (markers d)
        else mret (markers d)) s
    (fun z s' => extends s s' /\ wf s' /\ valid_id (nodes s') z /\
       forall a, real a -> eval (nodes s') a z = eval (nodes s) a (markers d) || WheelCompatibility.is_compatible c && wheel_holds a dist).
Proof.
  intros (Hs&Hm&_&_) Hw. destruct (WheelCompatibility.is_compatible c); [|apply spec_ret; split_and!; [done..|]; intros a _; by rewrite orb_false_r].
  destruct (NodeId.is_true (markers d)) eqn:E; cbn [negb].
  - apply spec_ret. split_and!; [done..|]. intros a _. apply N.eqb_eq in E. by rewrite E, eval_true.
  - eapply (or_step_value okV okS ordered); [done|done|by apply implied_ok].
Qed.

Lemma insert_built_ok e s d dist hs c : state_ok e s d -> wheel_small dist ->
  spec (PrioritizedDist.insert_built d dist hs c) s (fun d' s' => extends s s' /\ state_ok e s' d').
Proof.
  intros Hok Hw. apply spec_bind. eapply spec_mono; [by apply (insert_markers_ok e s d dist c)|]. intros z s' (Hx&Hs'&Hz&Hv).
  destruct Hok as (Hs&Hm&Hd&He). destruct (best_wheel_some d Hd) as (best&Hb&Hbest). unfold spec, mbind', mlift. rewrite Hb. cbn.
  split; [done|]. split_and!; [done|done| |].
  - destruct Hd as [Hd Hsrc]. split; [|done]. cbn [wheels best_wheel_index]. by apply (best_of_snoc _ _ best).
  - intros Hexact a Ha. cbn [markers]. rewrite Hv, He by done. unfold supported. cbn [wheels source]. rewrite existsb_app. cbn [existsb fst snd]. rewrite orb_false_r.
    rewrite <- !orb_assoc. f_equal. apply orb_comm.
Qed.

Lemma from_built_ok s dist hs c : wf s -> wheel_small dist ->
  spec (PrioritizedDist.from_built dist hs c) s (fun d s' => extends s s' /\ state_ok (WheelCompatibility.is_compatible c) s' d).
Proof.
  intros Hs Hw. apply spec_bind. eapply spec_mono; [by apply implied_ok|]. intros z s' (Hx&Hs'&Hz&Hv). apply spec_ret. split; [done|]. split_and!; [done|done| |].
  - split; [|done]. exists dist, c. split; [done|]. intros [|j] w' c' Hj; [|by destruct j]. injection Hj as <- <-. rewrite cmp_refl. split; [done|lia].
  - intros Hc a Ha. cbn [markers]. rewrite Hv by done. unfold supported. cbn. by rewrite Hc, !orb_false_r.
Qed.

Lemma reachable_dist_ok e s d : reachable_dist e s d -> state_ok e s d.
Proof.
  induction 1 as [s Hs|s dist hs c Hs Hw|s dist hs c d s' Hs Hw E|e s d dist hs c _ IH Hw|e s d dist hs c d' s' _ IH Hw E|e s d s' _ IH Hs' Hx].
  - split_and!; [done|by apply terminal_valid|done|]. intros _ a _. apply eval_false.
  - split_and!; [done|by apply terminal_valid|done|]. intros Hc a _. cbn. by rewrite eval_true, Hc.
  - pose proof (from_built_ok s dist hs c Hs Hw) as Hsp. unfold spec in Hsp. rewrite E in Hsp. apply Hsp.
  - by apply insert_source_ok.
  - pose proof (insert_built_ok e s d dist hs c IH Hw) as Hsp. unfold spec in Hsp. rewrite E in Hsp. apply Hsp.
  - destruct IH as (Hs&Hm&Hd&He). split_and!; [done|by eapply extends_valid|done|]. intros Hexact a Ha. rewrite (extends_eval s s') by done. by apply He.
Qed.

End states.

(** ** [built_dist] *)

(** The wheels that are not excluded. *)
Definition kept (l : wheel_list) : list RegistryBuiltWheel := map fst (List.filter (fun w => negb (WheelCompatibility.is_excluded (snd w))) l).

Lemma adjust_past b i acc index l : (b < i)%nat -> PrioritizedDist.adjust_wheels b i acc index l = (acc ++ kept l, index).
Proof.
  revert i acc. induction l as [|[w c] l IH]; intros i acc Hlt; unfold kept; cbn [PrioritizedDist.adjust_wheels List.filter map snd]; [by rewrite app_nil_r|].
  destruct (WheelCompatibility.is_excluded c); cbn [negb map fst]; [apply IH; lia|]. destruct (Nat.eqb_spec i b) as [->|]; [lia|].
  rewrite IH by lia. by rewrite <- app_assoc.
Qed.

Lemma adjust_wheels_best l : forall k i acc index w c, l !! k = Some (w, c) -> WheelCompatibility.is_excluded c = false ->
  exists index', PrioritizedDist.adjust_wheels (i + k) i acc index l = (acc ++ kept l, index') /\ (acc ++ kept l) !! index' = Some w.
Proof.
  induction l as [|[w0 c0] l IH]; intros [|k] i acc index w c Hk Hc; [done|done| |]; unfold kept; cbn [PrioritizedDist.adjust_wheels List.filter map snd].
  - injection Hk as -> ->. rewrite Hc, Nat.add_0_r, Nat.eqb_refl, adjust_past by lia. cbn [negb map fst]. rewrite <- app_assoc. eexists. split; [done|]. by apply list_lookup_middle.
  - assert ((i + S k) = (S i + k))%nat as -> by lia. destruct (WheelCompatibility.is_excluded c0); cbn [negb map fst].
    + by apply (IH k (S i) acc index w c).
    + destruct (IH k (S i) (acc ++ [w0]) (if Nat.eqb i (S i + k) then length acc else index) w c Hk Hc) as (index'&E&H). exists index'.
      change (map fst (List.filter (fun x => negb (WheelCompatibility.is_excluded (snd x))) l)) with (kept l). by rewrite <- app_assoc in E, H.
Qed.

Lemma built_dist_best d i w c : best_wheel_index d = Some i -> wheels d !! i = Some (w, c) -> WheelCompatibility.is_excluded c = false ->
  exists b, PrioritizedDist.built_dist d = Some b /\ built_wheels b = kept (wheels d) /\ RegistryBuiltDist_best_wheel b = Some w.
Proof.
  intros Ei Hi Hc. unfold PrioritizedDist.built_dist. rewrite Ei. cbn [mbind option_bind].
  destruct (adjust_wheels_best (wheels d) i 0 [] 0 w c Hi Hc) as (index'&E&H). cbn [Nat.add] in E. rewrite E. eexists. split; [done|]. by split.
Qed.

Lemma version_refl (v : Version) : cmp_eqb v v = true.
Proof.
  unfold cmp_eqb. destruct v as [s|f].
  - change (cmp (Small s) (Small s)) with (cmp (VersionSmall.repr s) (VersionSmall.repr s)). by rewrite cmp_refl.
  - change (cmp (Full f) (Full f)) with (cmp_slow (Full f) (Full f)). by rewrite cmp_slow_value, cmp_refl.
Qed.

Lemma filename_refl (f : WheelFilename) : WheelFilename_eqb f f = true.
Proof. unfold WheelFilename_eqb. by rewrite version_refl, !bool_decide_eq_true_2. Qed.

(** ** What [get] returns *)

(** The choice: a compatible wheel that no other one and no source distribution beats;
    or a compatible source distribution, with a wheel of the version for its metadata when
    only the hash, and not the exclusion, is against the wheels; or nothing, when nothing
    is compatible. *)
Definition best_choice {InstalledDist} (d : PrioritizedDist) (choice : option (CompatibleDist InstalledDist)) : Prop :=
  let compatible_wheel w h p b := (w, WC_Compatible h p b) ∈ wheels d in
  match choice with
  | None => (forall w h p b, ~ compatible_wheel w h p b) /\ forall sdist h, source d <> Some (sdist, SC_Compatible h)
  | Some (CD_CompatibleWheel w p d') => d' = d /\ exists h b, compatible_wheel w h p b /\
      (forall w' h' p' b', compatible_wheel w' h' p' b' -> cmp (h', p', b') (h, p, b) <> Gt) /\ forall sdist h', source d = Some (sdist, SC_Compatible h') -> cmp h' h <> Gt
  | Some (CD_SourceDist sdist d') => d' = d /\ exists h, source d = Some (sdist, SC_Compatible h) /\ forall w h' p b, compatible_wheel w h' p b -> cmp h' h = Lt
  | Some (CD_IncompatibleWheel sdist w d') => d' = d /\ (exists h, source d = Some (sdist, SC_Compatible h)) /\ (forall w' h p b, ~ compatible_wheel w' h p b) /\
      exists c, (w, WC_Incompatible c) ∈ wheels d /\ forall w' t, (w', WC_Incompatible (IW_ExcludeNewer t)) ∉ wheels d
  | Some (CD_InstalledDist _) => False
  end.

(** The best wheel bounds the others. *)
Lemma best_bounds d i w c : dist_wf d -> best_wheel_index d = Some i -> wheels d !! i = Some (w, c) ->
  forall w' c', (w', c') ∈ wheels d -> cmp (rank c') (rank c) <> Gt.
Proof.
  intros [Hb _] Ei Hi w' c' Hin. rewrite Ei in Hb. destruct Hb as (w0&c0&Hi'&H). rewrite Hi in Hi'. injection Hi' as <- <-.
  apply list_elem_of_lookup in Hin as [j Hj]. by apply (H j w').
Qed.

Lemma key_hash (h h' : HashComparison) (p p' : option TagPriority) (b b' : option BuildTag) : cmp (h', p', b') (h, p, b) <> Gt -> cmp h' h <> Gt.
Proof.
  intros H E. apply H. change (cmp (h', p', b') (h, p, b)) with (then_with (then_with (cmp h' h) (cmp p' p)) (cmp b' b)). by rewrite E.
Qed.

Lemma incompatible_bound d i w c : dist_wf d -> best_wheel_index d = Some i -> wheels d !! i = Some (w, WC_Incompatible c) -> forall w' h p b, (w', WC_Compatible h p b) ∉ wheels d.
Proof. intros Hd Ei Hi w' h p b Hin. apply (best_bounds d i w _ Hd Ei Hi _ _ Hin). by destruct c as [[]| | | | |]. Qed.

Section get.
Context {InstalledDist : Type} (d : PrioritizedDist) (Hd : dist_wf d).
Implicit Types choice : option (CompatibleDist InstalledDist).

Lemma get_no_wheel : best_wheel_index d = None ->
  best_choice d match source d with Some (sdist, SC_Compatible _) => Some (@CD_SourceDist InstalledDist sdist d) | _ => None end.
Proof.
  intros Ei. destruct Hd as [Hbo _]. rewrite Ei in Hbo. cbn in Hbo. unfold best_choice. rewrite Hbo.
  destruct (source d) as [[sdist [e|hs]]|] eqn:Es; (split; [try done; intros; apply not_elem_of_nil|]); try done.
  exists hs. split; [done|]. by intros w h' p b Hin%not_elem_of_nil.
Qed.

Lemma get_incompatible i w c : best_wheel_index d = Some i -> wheels d !! i = Some (w, WC_Incompatible c) ->
  best_choice d match source d with
  | Some (sdist, SC_Compatible _) =>
      if negb (WheelCompatibility.is_excluded (WC_Incompatible c)) then Some (@CD_IncompatibleWheel InstalledDist sdist w d) else Some (CD_SourceDist sdist d)
  | _ => None end.
Proof.
  intros Ei Hi. pose proof (incompatible_bound d i w c Hd Ei Hi) as Hno. unfold best_choice.
  destruct (source d) as [[sdist [e|hs]]|] eqn:Es; [by split| |by split].
  destruct (WheelCompatibility.is_excluded (WC_Incompatible c)) eqn:Ex; cbn [negb].
  - split; [done|]. exists hs. split; [done|]. by intros w' h' p b Hin%Hno.
  - split_and!; [done|by eexists|done|]. exists c. split; [by eapply list_elem_of_lookup_2|].
    intros w' t Hin. apply (best_bounds d i w _ Hd Ei Hi _ _ Hin). by destruct c as [[]| | | | |], t.
Qed.

Lemma get_compatible i w h p b : best_wheel_index d = Some i -> wheels d !! i = Some (w, WC_Compatible h p b) ->
  best_choice d match source d with
  | Some (sdist, SC_Compatible sdist_hash) => if cmp_gtb sdist_hash h then Some (@CD_SourceDist InstalledDist sdist d) else Some (CD_CompatibleWheel w p d)
  | _ => Some (CD_CompatibleWheel w p d) end.
Proof.
  intros Ei Hi. assert (forall w' h' p' b', (w', WC_Compatible h' p' b') ∈ wheels d -> cmp (h', p', b') (h, p, b) <> Gt) as Hmax by (intros w' h' p' b' Hin; exact (best_bounds d i w _ Hd Ei Hi _ _ Hin)).
  pose proof (list_elem_of_lookup_2 _ _ _ Hi) as Hin. unfold best_choice.
  destruct (source d) as [[sdist [e|hs]]|] eqn:Es; [by split; [|exists h, b; split_and!]| |by split; [|exists h, b; split_and!]].
  unfold cmp_gtb. destruct (cmp hs h) eqn:Eh; (split; [done|]); [| |exists hs; split; [done|]; intros w' h' p' b' Hin'; apply cmp_gt_lt in Eh; exact (cmp_le_lt_trans _ _ _ (key_hash _ _ _ _ _ _ (Hmax _ _ _ _ Hin')) Eh)].
  all: exists h, b; split_and!; [done|done|]; intros sdist' h' [= <- <-]; congruence.
Qed.

Lemma get_best : exists choice, PrioritizedDist.get d = Some choice /\ best_choice d choice.
Proof.
  destruct (best_wheel_some d Hd) as (best&Hb&Hbest). unfold PrioritizedDist.get. rewrite Hb. cbn [mbind option_bind].
  destruct (best_wheel_index d) as [i|] eqn:Ei.
  - pose proof Hd as [Hbo _]. rewrite Ei in Hbo. destruct Hbo as (w&c&Hi&_). rewrite Hi in Hbest. subst best. destruct c as [c|h p b].
    + pose proof (get_incompatible i w c Ei Hi) as H. by destruct (source d) as [[sdist [e|hs]]|]; eexists.
    + pose proof (get_compatible i w h p b Ei Hi) as H. by destruct (source d) as [[sdist [e|hs]]|]; eexists.
  - subst best. pose proof (get_no_wheel Ei) as H. by destruct (source d) as [[sdist [e|hs]]|]; eexists.
Qed.

End get.

(** ** [to_owned] *)

Lemma source_to_owned {InstalledDist} d sdist h : dist_wf d -> source d = Some (sdist, SC_Compatible h) ->
  is_Some (to_owned (@RD_InstallableRegistrySourceDist InstalledDist sdist d)).
Proof.
  intros [_ Hs] Es. cbn [to_owned]. unfold PrioritizedDist.source_dist. rewrite Es in Hs |- *. rewrite Hs. cbn. rewrite version_refl, bool_decide_eq_true_2 by done. by eexists.
Qed.

Lemma wheel_to_owned {InstalledDist} d i w c : best_wheel_index d = Some i -> wheels d !! i = Some (w, c) -> WheelCompatibility.is_excluded c = false ->
  exists b v, to_owned (@RD_InstallableRegistryBuiltDist InstalledDist w d) = Some (RO_Built b v) /\ built_wheels b = kept (wheels d) /\ RegistryBuiltDist_best_wheel b = Some w.
Proof.
  intros Ei Hi Hc. destruct (built_dist_best d i w c Ei Hi Hc) as (b&Eb&Hk&Hw). cbn [to_owned]. unfold PrioritizedDist.best_wheel. rewrite Ei, Hi. cbn.
  rewrite filename_refl, Eb. cbn. by do 2 eexists.
Qed.

(** What [get] returns holds the best wheel, or the source distribution. *)
Lemma get_parts {InstalledDist} d (choice : CompatibleDist InstalledDist) : PrioritizedDist.get d = Some (Some choice) ->
  match choice with
  | CD_InstalledDist _ => False
  | CD_SourceDist sdist d' => d' = d /\ exists h, source d = Some (sdist, SC_Compatible h)
  | CD_CompatibleWheel w _ d' => d' = d /\ exists i c, best_wheel_index d = Some i /\ wheels d !! i = Some (w, c) /\ WheelCompatibility.is_excluded c = false
  | CD_IncompatibleWheel sdist w d' => d' = d /\ (exists h, source d = Some (sdist, SC_Compatible h)) /\
      exists i c, best_wheel_index d = Some i /\ wheels d !! i = Some (w, c) /\ WheelCompatibility.is_excluded c = false
  end.
Proof.
  unfold PrioritizedDist.get, PrioritizedDist.best_wheel. destruct (best_wheel_index d) as [i|]; cbn; [destruct (wheels d !! i) as [[w c]|] eqn:Hi; cbn; [|done]|].
  - intros H. destruct c as [c|h p b], (source d) as [[sdist [e|hs]]|]; try discriminate; repeat case_match; simplify_eq; cbn in *; eauto 10.
    all: destruct c; simplify_eq/=; eauto 10.
  - intros H. destruct (source d) as [[sdist [e|hs]]|]; simplify_eq; eauto.
Qed.

Section theorems.
Context {RV RS : Type} {SV : RangeSet Version RV} {SS : RangeSet text RS}.
Context (okV : RV -> Prop) (okS : RS -> Prop) (ordered : bool).
Context {LV : RangeSetLaws Version RV version_wf okV} {LS : RangeSetLaws text RS (fun _ => True) okS}.


(** C31: [PrioritizedDist::get] is total on every state the operations reach, and returns
    the best choice: a compatible wheel that is maximal by hash, tag priority and build
    tag and whose hash outcome no source distribution beats; else a compatible source
    distribution, with an incompatible wheel for its metadata if no wheel is excluded;
    and nothing only when nothing is compatible. *)
Theorem get_returns_best {InstalledDist : Type} (exact : bool) (s : Interner) (d : PrioritizedDist) : reachable_dist okV okS ordered exact s d ->
  exists choice, @PrioritizedDist.get InstalledDist d = Some choice /\ best_choice d choice.
Proof. intros Hr. apply get_best. apply (reachable_dist_ok okV okS ordered exact s d Hr). Qed.

(** Whatever [get] returns can be turned into an owned distribution, to resolve with
    and to install, without a failed assertion; when it holds a wheel, the built
    distribution to resolve with lists the wheels that are not excluded, and the index of
    its best wheel points to that wheel. *)
Theorem chosen_dist_resolves {InstalledDist : Type} (exact : bool) (s : Interner) (d : PrioritizedDist) (choice : CompatibleDist InstalledDist) :
  reachable_dist okV okS ordered exact s d -> PrioritizedDist.get d = Some (Some choice) ->
  is_Some (to_owned (CompatibleDist.for_installation choice)) /\
  exists r, to_owned (CompatibleDist.for_resolution choice) = Some r /\
    match CompatibleDist.wheel choice with
    | Some w => exists b v, r = RO_Built b v /\ built_wheels b = kept (wheels d) /\ RegistryBuiltDist_best_wheel b = Some w
    | None => True
    end.
Proof.
  intros Hr Hg. destruct (reachable_dist_ok okV okS ordered exact s d Hr) as (_&_&Hd&_). pose proof (get_parts d choice Hg) as Hp.
  destruct choice as [dist|sdist d'|w p d'|sdist w d']; cbn [CompatibleDist.for_installation CompatibleDist.for_resolution CompatibleDist.wheel].
  - done.
  - destruct Hp as (->&h&Es). destruct (source_to_owned (InstalledDist := InstalledDist) d sdist h Hd Es) as [r Er]. split; [by eexists|by exists r].
  - destruct Hp as (->&i&c&Ei&Hi&Hc). destruct (wheel_to_owned (InstalledDist := InstalledDist) d i w c Ei Hi Hc) as (b&v&E&Hk&Hb). split; [by eexists|]. exists (RO_Built b v). split; [done|by exists b, v].
  - destruct Hp as (->&(h&Es)&i&c&Ei&Hi&Hc). destruct (wheel_to_owned (InstalledDist := InstalledDist) d i w c Ei Hi Hc) as (b&v&E&Hk&Hb).
    split; [by eapply source_to_owned|]. exists (RO_Built b v). split; [done|by exists b, v].
Qed.

End theorems.

(** ** Concrete distributions *)

Definition plain_file : File := {|
  dist_info_metadata := false; file_filename := []; file_hashes := []; file_requires_python := None; file_size := None; upload_time_utc_ms := None;
  file_url := FL_AbsoluteUrl []; file_yanked := None; zstd := None |}.

Definition registry_wheel (filename : WheelFilename) : RegistryBuiltWheel := {| wheel_filename := filename; wheel_file := plain_file; wheel_index := IU_Pypi [] |}.

Definition linux_wheel : RegistryBuiltWheel := registry_wheel (plain_wheel (LT_CPython (3, 12)) AT_None (PT_Linux X86_64)).

(** A distribution with one compatible wheel, run on the fresh interner. *)
Definition linux_dist : PrioritizedDist :=
  mkPrioritized None (Some O) [(linux_wheel, WC_Compatible HC_Matched (Some 5) None)] [] (default NodeId.FALSE (result_of (implied_markers (wheel_filename linux_wheel)))).

Lemma linux_dist_built : result_of (PrioritizedDist.from_built linux_wheel [] (WC_Compatible HC_Matched (Some 5) None)) = Some linux_dist.
Proof. vm_compute. reflexivity. Qed.

Lemma linux_dist_reachable : exists s, reachable_dist okIV okIS true true s linux_dist.
Proof.
  pose proof linux_dist_built as H. unfold result_of in H. apply fmap_Some in H as ([d s]&E&->). exists s.
  apply (reach_from_built okIV okIS true start linux_wheel [] (WC_Compatible HC_Matched (Some 5) None) d s (Interner_default_wf okIV okIS true)); [by repeat constructor|exact E].
Qed.


Lemma get_returns_best_witness : exists choice, @PrioritizedDist.get unit linux_dist = Some choice /\ best_choice linux_dist choice.
Proof. destruct linux_dist_reachable as [s Hr]. exact (get_returns_best okIV okIS true true s linux_dist Hr). Defined.

(** The runs in which the code departs from its comments: of two excluded wheels the
    later is preferred, not the one closer to the cut-off; a yanked wheel with a reason
    gives way to one without; a built distribution of an excluded wheel has no wheel for
    its index; and a distribution made from an incompatible wheel keeps its markers. *)
Lemma prioritized_defects_run :
  WheelCompatibility.is_more_compatible (WC_Incompatible (IW_ExcludeNewer (Some 2%Z))) (WC_Incompatible (IW_ExcludeNewer (Some 1%Z))) = true /\
  WheelCompatibility.is_more_compatible (WC_Incompatible (IW_Yanked (Y_Bool true))) (WC_Incompatible (IW_Yanked (Y_Reason (bs "broken")))) = true /\
  WheelCompatibility.is_more_compatible (WC_Incompatible (IW_Yanked (Y_Reason (bs "broken")))) (WC_Incompatible (IW_Yanked (Y_Bool true))) = false /\
  (exists d b, result_of (PrioritizedDist.from_built linux_wheel [] (WC_Incompatible (IW_ExcludeNewer None))) = Some d /\
     PrioritizedDist.built_dist d = Some b /\ built_wheels b = [] /\ RegistryBuiltDist_best_wheel b = None) /\
  (exists d, result_of (PrioritizedDist.from_built linux_wheel [] (WC_Incompatible IW_NoBinary)) = Some d /\ markers d <> NodeId.FALSE) /\
  (exists d, result_of (PrioritizedDist.insert_built PrioritizedDist.default linux_wheel [] (WC_Incompatible IW_NoBinary)) = Some d /\ markers d = NodeId.FALSE).
Proof.
  split_and!; [reflexivity..| | |].
  - do 2 eexists. split; [vm_compute; reflexivity|]. by split_and!.
  - eexists. split; [vm_compute; reflexivity|]. done.
  - eexists. split; [vm_compute; reflexivity|]. done.
Qed.
