(* ===== verification/PythonRange.v ===== *)
(** * [Requires-Python] ([uv-distribution-types/src/requires_python.rs])

    The specifiers of a project and the range of Python versions they bound. A panic, of a
    version without a release, is [None]. *)

From stdpp Require Import base numbers list strings gmap.
From S2P Require Import Prelude VersionTypes VersionSmall Version Specifier Ranges Names Text PlatformTags Tags Filename RangeSet MarkerTypes MarkerAlgebra MarkerTree MarkerDnf.

#[local] Open Scope N_scope.

Definition of_bound (b : Bound) : bound Version :=
  match b with Included v => B_Included v | Excluded v => B_Excluded v | Unbounded => B_Unbounded end.

(** [RequiresPythonRange], a [LowerBound] and an [UpperBound]. *)
Record RequiresPythonRange := mkPythonRange { lower : Bound; upper : Bound }.

Record RequiresPython := mkRequiresPython { rp_specifiers : VersionSpecifiers; rp_range : RequiresPythonRange }.

(** [PartialEq] of bounds, through the order of versions. *)
Definition Bound_eqb (x y : Bound) : bool :=
  match x, y with
  | Included v, Included w | Excluded v, Excluded w => cmp_eqb v w
  | Unbounded, Unbounded => true
  | _, _ => false
  end.

Module RequiresPythonRange.

Definition default : RequiresPythonRange := mkPythonRange Unbounded Unbounded.

Definition specifiers (self : RequiresPythonRange) : VersionSpecifiers :=
  from_unsorted (to_iter (LowerBound_specifier (lower self)) None ++ to_iter (UpperBound_specifier (upper self)) None).

Definition eqb (x y : RequiresPythonRange) : bool := Bound_eqb (lower x) (lower y) && Bound_eqb (upper x) (upper y).

Section ranges.
Context {R : Type} {S : RangeSet Version R}.

Definition from_range (range : R) : RequiresPythonRange :=
  match rs_bounding_range range with
  | Some (lower_bound, upper_bound) => mkPythonRange (to_bound lower_bound) (to_bound upper_bound)
  | None => mkPythonRange Unbounded Unbounded
  end.

(** [From<RequiresPythonRange> for Ranges<Version>] *)
Definition into_ranges (self : RequiresPythonRange) : R := rs_from_range_bounds (of_bound (lower self), of_bound (upper self)).

End ranges.
End RequiresPythonRange.

Module RequiresPython.

(** ** Making one *)

Definition greater_than_equal_version (version : Version) : option RequiresPython :=
  version ← only_release version;
  lower ← LowerBound_new (Included version);
  upper ← UpperBound_new Unbounded;
  Some (mkRequiresPython [Specifier.greater_than_equal_version version] (mkPythonRange lower upper)).

Section ranges.
Context {R : Type} {S : RangeSet Version R}.

Definition from_specifiers (specifiers : VersionSpecifiers) : option RequiresPython :=
  range ← @release_specifiers_to_ranges R _ specifiers;
  let '(lower_bound, upper_bound) :=
    match rs_bounding_range range with Some (l, u) => (to_bound l, to_bound u) | None => (Unbounded, Unbounded) end in
  lower ← LowerBound_new lower_bound;
  upper ← UpperBound_new upper_bound;
  Some (mkRequiresPython specifiers (mkPythonRange lower upper)).

(** The specifiers and the range that express a set of versions. *)
Definition express (range : R) : option RequiresPython :=
  specifiers ← specs_from_release_only_bounds (map (fun b => (to_bound (fst b), to_bound (snd b))) (rs_iter range));
  Some (mkRequiresPython specifiers (RequiresPythonRange.from_range range)).

Fixpoint intersect_rest (acc : R) (specifiers : list VersionSpecifiers) : option R :=
  match specifiers with
  | [] => Some acc
  | specs :: specifiers => r ← release_specifiers_to_ranges specs; intersect_rest (rs_intersection acc r) specifiers
  end.

(** The outer option is a panic. *)
Definition intersection (specifiers : list VersionSpecifiers) : option (option RequiresPython) :=
  match specifiers with
  | [] => Some None
  | specs :: specifiers =>
      range ← release_specifiers_to_ranges specs;
      range ← intersect_rest range specifiers;
      if rs_is_empty range then Some None else Some <$> express range
  end.

Definition split (self : RequiresPython) (bound : Bound) : option (option (RequiresPython * RequiresPython)) :=
  let upper : R := rs_from_range_bounds (of_bound bound, of_bound (upper (rp_range self))) in
  let lower := rs_complement upper in
  let lower := rs_intersection lower (RequiresPythonRange.into_ranges (rp_range self)) in
  let upper := rs_intersection upper (RequiresPythonRange.into_ranges (rp_range self)) in
  if rs_is_empty lower || rs_is_empty upper then Some None
  else
    lower ← express lower;
    upper ← express upper;
    Some (Some (lower, upper)).

Definition is_contained_by (self : RequiresPython) (target : VersionSpecifiers) : option bool :=
  target ← @release_specifiers_to_ranges R _ target;
  let target := match rs_bounding_range target with Some (l, _) => to_bound l | None => Unbounded end in
  Some match LowerBound_cmp (lower (rp_range self)) target with Lt => false | _ => true end.

End ranges.

(** ** Queries *)

Definition narrow (self : RequiresPython) (range : RequiresPythonRange) : option RequiresPython :=
  if RequiresPythonRange.eqb range (rp_range self) then None
  else
    let lower' := match LowerBound_cmp (lower range) (lower (rp_range self)) with Lt => None | _ => Some (lower range) end in
    let upper' := match UpperBound_cmp (upper range) (upper (rp_range self)) with Gt => None | _ => Some (upper range) end in
    range ← match lower', upper' with
      | Some lower, Some upper => Some (mkPythonRange lower upper)
      | Some lower, None => Some (mkPythonRange lower (upper (rp_range self)))
      | None, Some upper => Some (mkPythonRange (lower (rp_range self)) upper)
      | None, None => None
      end;
    Some (mkRequiresPython (RequiresPythonRange.specifiers range) range).

Definition contains (self : RequiresPython) (version : Version) : option bool :=
  version ← only_release version;
  specs_contains (rp_specifiers self) version.

Definition is_unbounded (self : RequiresPython) : bool := match lower (rp_range self) with Unbounded => true | _ => false end.

Definition is_exact_without_patch (self : RequiresPython) : bool :=
  match lower (rp_range self) with
  | Included version => Nat.eqb (length (release version)) 2 && Bound_eqb (upper (rp_range self)) (Included version)
  | _ => false
  end.

(** [u8::try_from] *)
Definition u8_try_from (n : N) : option N := if n <=? u8_MAX then Some n else None.

Definition abi_tag (self : RequiresPython) : option AbiTag :=
  match lower (rp_range self) with
  | Included version | Excluded version =>
      major ← release version !! 0%nat;
      major ← u8_try_from major;
      minor ← release version !! 1%nat;
      minor ← u8_try_from minor;
      Some (AT_CPython false (major, minor))
  | Unbounded => None
  end.

(** ** Wheels *)

(** [LowerBound(Included(3.minor)) < lower.major_minor()] *)
Definition below_lower (self : RequiresPython) (minor : N) : option bool :=
  wheel_bound ← new [3; minor];
  bound ← LowerBound_major_minor (lower (rp_range self));
  Some match LowerBound_cmp (Included wheel_bound) bound with Lt => true | _ => false end.

(** [UpperBound(Included(3.minor)) > upper.major_minor()] *)
Definition above_upper (self : RequiresPython) (minor : N) : option bool :=
  wheel_bound ← new [3; minor];
  bound ← UpperBound_major_minor (upper (rp_range self));
  Some match UpperBound_cmp (Included wheel_bound) bound with Gt => true | _ => false end.

(** An exact match: within both bounds. *)
Definition within_bounds (self : RequiresPython) (minor : N) : option bool :=
  below ← below_lower self minor;
  if below : bool then Some false
  else
    above ← above_upper self minor;
    if above : bool then Some false else Some true.

Definition python_tag_matches (self : RequiresPython) (python_tag : LanguageTag) : option bool :=
  match python_tag with
  | LT_Python 2 _ | LT_CPython (2, _) | LT_PyPy (2, _) | LT_GraalPy (2, _) | LT_Pyston (2, _) => Some false
  | LT_Python 3 (Some minor) =>
      above ← above_upper self minor;
      if above : bool then Some false else Some true
  | LT_CPython (3, minor) | LT_PyPy (3, minor) | LT_GraalPy (3, minor) | LT_Pyston (3, minor) => within_bounds self minor
  | _ => Some true
  end.

(** [any] over tests that may panic. *)
Fixpoint any_opt {A} (f : A -> option bool) (l : list A) : option bool :=
  match l with
  | [] => Some false
  | x :: l => b ← f x; if b : bool then Some true else any_opt f l
  end.

Definition abi_tag_matches (self : RequiresPython) (python_tags : list LanguageTag) (abi_tag : AbiTag) : option bool :=
  match abi_tag with
  | AT_Abi3 => Some true
  | AT_None => any_opt (python_tag_matches self) python_tags
  | AT_CPython _ (2, _) | AT_PyPy None _ | AT_PyPy (Some (2, _)) _ | AT_GraalPy (2, _) _ => Some false
  | AT_CPython _ (3, minor) | AT_PyPy (Some (3, minor)) _ | AT_GraalPy (3, minor) _ => within_bounds self minor
  | _ => Some true
  end.

Definition matches_wheel_tag (self : RequiresPython) (wheel : WheelFilename) : option bool :=
  any_opt (abi_tag_matches self (python_tags (wheel_tags wheel))) (abi_tags (wheel_tags wheel)).

(** ** Markers *)

Section markers.
Context {RV RS : Type} {SV : RangeSet Version RV} {SS : RangeSet text RS}.
Abbreviation IM := (act (@Interner RV RS)).

Definition full_version (specifier : VersionSpecifier) : MarkerExpression := ME_Version MVV_PythonFullVersion specifier.

Definition to_marker_tree (self : RequiresPython) : IM NodeId :=
  match LowerBound_specifier (lower (rp_range self)), UpperBound_specifier (upper (rp_range self)) with
  | Some lower, Some upper =>
      let! lower := expression (full_version lower) in
      let! upper := expression (full_version upper) in
      and_ lower upper
  | None, None => mret NodeId.TRUE
  | None, Some upper => expression (full_version upper)
  | Some lower, None => expression (full_version lower)
  end.

Definition simplify_markers (self : RequiresPython) (marker : NodeId) : IM NodeId :=
  simplify_python_versions marker (of_bound (lower (rp_range self))) (of_bound (upper (rp_range self))).

Definition complexify_markers (self : RequiresPython) (marker : NodeId) : IM NodeId :=
  complexify_python_versions marker (of_bound (lower (rp_range self))) (of_bound (upper (rp_range self))).

End markers.
End RequiresPython.
