(* ===== verification/PythonRangeTheorems.v ===== *)
(** * Theorems on [Requires-Python] *)

From stdpp Require Import base numbers list strings gmap.
From S2P Require Import Prelude VersionTypes VersionSmall Version VersionFacts VersionParser Specifier SpecifierFacts Ranges SpecifierTheorems RangesFacts RangesTheorems Names Text PlatformTags Tags TagsTheorems Filename FilenameTheorems RangeSet Cuts Tiling MarkerTypes MarkerAlgebra MarkerEval MarkerWf MarkerEdges MarkerExpr MarkerOps MarkerVersions MarkerTree MarkerTheorems MarkerExamples MarkerDnf MarkerFormula PrioritizedDist PrioritizedDistTheorems PythonRange.

#[local] Open Scope N_scope.
Import RequiresPython.

(** ** Bounds *)

(** A version inside a bound compares on the right side of it. *)
Lemma lower_contains_cmp b w : bound_wf b -> version_wf w -> LowerBound_contains b w = true -> LowerBound_cmp (Included w) b <> Lt.
Proof.
  intros Hb Hw. destruct b as [u|u|]; cbn; [| |done]; unfold cmp_leb, cmp_ltb; rewrite !cmp_value by done; rewrite (cmp_opp (value w) (value u)); by destruct (cmp (value w) (value u)).
Qed.

Lemma upper_contains_cmp b w : bound_wf b -> version_wf w -> UpperBound_contains b w = true -> UpperBound_cmp (Included w) b <> Gt.
Proof.
  intros Hb Hw. destruct b as [u|u|]; cbn; [| |done]; unfold cmp_geb, cmp_gtb; rewrite !cmp_value by done; rewrite (cmp_opp (value w) (value u)); by destruct (cmp (value w) (value u)).
Qed.

Lemma new_version_wf l u : new l = Some u -> version_wf u.
Proof.
  intros E. destruct (decide (l = [])) as [->|Hl]; [done|]. destruct (new_release l Hl) as (v&Ev&Hv). rewrite E in Ev. injection Ev as <-. apply Hv.
Qed.

Lemma major_minor_wf b b' : LowerBound_major_minor b = Some b' \/ UpperBound_major_minor b = Some b' -> bound_wf b'.
Proof.
  destruct b as [u|u|]; cbn; intros H; try (destruct H as [[= <-]|[= <-]]; done).
  all: repeat case_match; destruct H as [H|H]; apply bind_Some in H as (v&Ev&[= <-]); by eapply new_version_wf.
Qed.

(** The bounds of a range, as the constructors make them: releases, the upper one of at
    most three segments. *)
Definition range_ok (r : RequiresPythonRange) : Prop :=
  bound_release (lower r) /\ bound_release (upper r) /\ match upper r with Included u | Excluded u => (length (release u) <= 3)%nat | Unbounded => True end.

Definition range_contains (r : RequiresPythonRange) (v : Version) : bool := LowerBound_contains (lower r) v && UpperBound_contains (upper r) v.

Section range.
Context (self : RequiresPython) (Hok : range_ok (rp_range self)).

Lemma below_lower_some minor : is_Some (below_lower self minor).
Proof.
  destruct (new_release [3; minor]) as (w&Ew&Hw); [done|]. destruct Hok as (Hl&_&_). unfold below_lower. rewrite Ew. cbn [mbind option_bind].
  destruct (release_is_release _ _ Hw) as [Er _]. destruct (major_minor_sound (lower (rp_range self)) w w Hl) as [(b'&->&_) _]; [by rewrite Er|by rewrite Er|]. by eexists.
Qed.

Lemma above_upper_some minor : is_Some (above_upper self minor).
Proof.
  destruct (new_release [3; minor]) as (w&Ew&Hw); [done|]. destruct Hok as (_&Hu&Hl). unfold above_upper. rewrite Ew. cbn [mbind option_bind].
  destruct (release_is_release _ _ Hw) as [Er _]. destruct (major_minor_sound (upper (rp_range self)) w w Hu) as [_ (b'&->&_)]; [by rewrite Er|by rewrite Er|done|]. by eexists.
Qed.

Lemma within_bounds_some minor : is_Some (within_bounds self minor).
Proof.
  unfold within_bounds. destruct (below_lower_some minor) as [b ->], (above_upper_some minor) as [c ->]. cbn. by destruct b, c; eexists.
Qed.

Lemma python_tag_matches_some t : is_Some (python_tag_matches self t).
Proof.
  pose proof within_bounds_some as Hw. destruct t as [|M [m|]|[M m]|[M m]|[M m]|[M m]]; cbn; repeat case_match; try done; try apply Hw.
  destruct (above_upper_some m) as [c ->]. cbn. by destruct c; eexists.
Qed.

Lemma any_opt_some {A} (f : A -> option bool) l : (forall x, is_Some (f x)) -> is_Some (any_opt f l).
Proof. intros Hf. induction l as [|x l IH]; cbn; [done|]. destruct (Hf x) as [[] ->]; cbn; [done|exact IH]. Qed.

Lemma any_opt_true {A} (f : A -> option bool) l x : (forall x, is_Some (f x)) -> x ∈ l -> f x = Some true -> any_opt f l = Some true.
Proof.
  intros Hf Hx E. induction l as [|y l IH]; [by apply not_elem_of_nil in Hx|]. cbn. apply elem_of_cons in Hx as [<-|Hx]; [by rewrite E|].
  destruct (Hf y) as [[] ->]; cbn; [done|by apply IH].
Qed.

Lemma abi_tag_matches_some pys t : is_Some (abi_tag_matches self pys t).
Proof.
  pose proof within_bounds_some as Hw. destruct t as [| |? [M m]|[[M m]|] ?|[M m] ?|?]; cbn; repeat case_match; try done; try apply Hw.
  apply any_opt_some, python_tag_matches_some.
Qed.

(** A Python release in the range. *)
Context (v : Version) (minor : N) (patch : list N) (Hv : release_is v (3 :: minor :: patch)) (Hin : range_contains (rp_range self) v = true).

Lemma version_truncated w : new [3; minor] = Some w -> release_is v (release v) /\ new (take 2 (release v)) = Some w.
Proof. destruct (release_is_release _ _ Hv) as [Er _]. rewrite Er. cbn. by rewrite take_0. Qed.

Lemma not_below : below_lower self minor = Some false.
Proof.
  destruct (new_release [3; minor]) as (w&Ew&Hw); [done|]. destruct Hok as (Hl&_&_). destruct (version_truncated w Ew) as [Hr Ht].
  destruct (major_minor_sound (lower (rp_range self)) v w Hl Hr Ht) as [(b'&Eb&Hc) _]. unfold below_lower. rewrite Ew, Eb. cbn [mbind option_bind].
  apply andb_prop in Hin as [Hlow _]. pose proof (lower_contains_cmp b' w (major_minor_wf _ _ (or_introl Eb)) (new_version_wf _ _ Ew) (Hc Hlow)) as Hn.
  by destruct (LowerBound_cmp (Included w) b').
Qed.

Lemma not_above k : k <= minor -> above_upper self k = Some false.
Proof.
  intros Hk. destruct (new_release [3; minor]) as (w&Ew&Hw); [done|]. destruct (new_release [3; k]) as (u&Eu&Hu); [done|]. destruct Hok as (_&Hup&Hlen). destruct (version_truncated w Ew) as [Hr Ht].
  destruct (major_minor_sound (upper (rp_range self)) v w Hup Hr Ht) as [_ (b'&Eb&Hc)]; [done|]. unfold above_upper. rewrite Eu, Eb. cbn [mbind option_bind].
  apply andb_prop in Hin as [_ Hupper]. assert (UpperBound_contains b' u = true) as Hcu.
  { pose proof (major_minor_wf _ _ (or_intror Eb)) as Hwf. assert (cmp u w <> Gt) as Huw.
    { rewrite (release_cmp u w _ _ Hu Hw). cbn. unfold cmp, N_ord. destruct (N.compare_spec k minor); cbn; [done|done|lia]. }
    specialize (Hc Hupper). destruct b' as [x|x|]; cbn in *; [| |done]; unfold cmp_geb, cmp_gtb in *; destruct Hu as [Hu _], Hw as [Hw _]; rewrite !cmp_value in * by done.
    - rewrite (cmp_opp (value u)). rewrite (cmp_opp (value w)) in Hc. pose proof (cmp_le_trans (value u) (value w) (value x) Huw). destruct (cmp (value w) (value x)), (cmp (value u) (value x)); naive_solver.
    - rewrite (cmp_opp (value u)). rewrite (cmp_opp (value w)) in Hc. pose proof (cmp_le_lt_trans (value u) (value w) (value x) Huw). destruct (cmp (value w) (value x)), (cmp (value u) (value x)); naive_solver. }
  pose proof (upper_contains_cmp b' u (major_minor_wf _ _ (or_intror Eb)) (new_version_wf _ _ Eu) Hcu) as Hn. by destruct (UpperBound_cmp (Included u) b').
Qed.

Lemma within_range : within_bounds self minor = Some true.
Proof. unfold within_bounds. rewrite not_below. cbn. by rewrite not_above. Qed.

End range.

(** ** The tags of an environment *)

(** The language and ABI pairs of a Python 3 environment. *)
Definition env_pair (implementation : Implementation) (minor : N) (implementation_version : N * N) (py : LanguageTag) (abi : AbiTag) : Prop :=
  abi = Tags.abi_tag implementation (3, minor) implementation_version \/ abi = AT_Abi3 \/
  abi = AT_None /\ (py = language_tag implementation (3, minor) \/ py = LT_Python 3 None \/ exists k, k <= minor /\ py = LT_Python 3 (Some k)).

Lemma rev_range_at_most a b k : k ∈ rev_range a b -> k <= b.
Proof. unfold rev_range. intros Hk. apply list_elem_of_fmap in Hk as (i&->&_). lia. Qed.

Lemma elem_of_concat_map {A B} (f : A -> list B) (l : list A) (x : B) : x ∈ concat (map f l) -> exists y, y ∈ l /\ x ∈ f y.
Proof.
  rewrite !list_elem_of_In, in_concat. intros (k&Hk&Hx). apply in_map_iff in Hk as (y&<-&Hy). exists y. by rewrite !list_elem_of_In.
Qed.

Lemma env_tags_pair plats implementation minor implementation_version py abi plat :
  (py, abi, plat) ∈ env_tags plats implementation (3, minor) implementation_version -> env_pair implementation minor implementation_version py abi.
Proof.
  unfold env_tags, env_pair. cbn zeta iota beta. rewrite !elem_of_app.
  assert (forall l b, (py, abi, plat) ∈ map (fun p => (l, b, p)) plats -> py = l /\ abi = b) as Heach by (intros l b Hl; apply list_elem_of_fmap in Hl as (p&E&_); by simplify_eq).
  intros [H|[H|[H|[H|H]]]].
  - apply Heach in H as [_ ->]. by left.
  - destruct implementation as [gil| | |]; try (by apply not_elem_of_nil in H). apply elem_of_concat_map in H as (m&Hm&Hin).
    apply elem_of_app in Hin as [Hin|Hin].
    + destruct gil; [by apply not_elem_of_nil in Hin|]. apply Heach in Hin as [_ ->]. naive_solver.
    + destruct (N.eqb_spec m minor) as [->|]; [|by apply not_elem_of_nil in Hin]. apply Heach in Hin as [-> ->]. naive_solver.
  - apply elem_of_concat_map in H as (m&Hm&Hin). apply rev_range_at_most in Hm. apply elem_of_app in Hin as [Hin|Hin].
    + apply Heach in Hin as [-> ->]. right; right. split; [done|]. eauto.
    + destruct (N.eqb_spec m minor) as [->|]; [|by apply not_elem_of_nil in Hin]. apply Heach in Hin as [-> ->]. naive_solver.
  - destruct implementation as [gil| | |]; try (by apply not_elem_of_nil in H). apply list_elem_of_singleton in H. simplify_eq. naive_solver.
  - apply elem_of_concat_map in H as (m&Hm&Hin). apply rev_range_at_most in Hm. apply elem_of_app in Hin as [Hin|Hin].
    + apply list_elem_of_singleton in Hin. simplify_eq. right; right. split; [done|]. eauto.
    + destruct (N.eqb_spec m minor) as [->|]; [|by apply not_elem_of_nil in Hin]. apply list_elem_of_singleton in Hin. simplify_eq. naive_solver.
Qed.

Lemma env_tag_matches self pys implementation v minor patch implementation_version py abi :
  range_ok (rp_range self) -> release_is v (3 :: minor :: patch) -> range_contains (rp_range self) v = true ->
  env_pair implementation minor implementation_version py abi -> py ∈ pys -> abi_tag_matches self pys abi = Some true.
Proof.
  intros Hok Hv Hin [->|[->|[-> H]]] Hpy; [|done|].
  - destruct implementation as [gil| | |]; cbn; try (by eapply within_range); done.
  - cbn. apply (any_opt_true _ _ py); [by apply python_tag_matches_some|done|].
    destruct H as [->|[->|(k&Hk&->)]]; [destruct implementation; by eapply within_range|done|]. cbn. by rewrite (not_above self Hok v minor patch Hv Hin k Hk).
Qed.

(** C32: [matches_wheel_tag] is total and specific on ranges whose bounds are releases and
    whose upper bound has at most three segments ([range_ok]): it never panics there, and
    it keeps every wheel that some Python 3 in the range can use, by the tags that
    [Tags::from_env] gives for any platform and implementation of that version. (The
    perfect specificity that the documentation promises fails for an upper bound of four
    segments such as [<3.10.0.1]: [requires_python_defects_run].) *)
Theorem matches_wheel_tag_specific (self : RequiresPython) (wheel : WheelFilename) : range_ok (rp_range self) ->
  is_Some (matches_wheel_tag self wheel) /\
  forall to_lowercase platform name implementation_version manylinux_compatible gil_disabled tags v minor patch,
    release_is v (3 :: minor :: patch) -> range_contains (rp_range self) v = true ->
    from_env to_lowercase platform (3, minor) name implementation_version manylinux_compatible gil_disabled = Some (Ok tags) ->
    wheel_is_compatible wheel tags = true -> matches_wheel_tag self wheel = Some true.
Proof.
  intros Hok. split; [by apply any_opt_some, abi_tag_matches_some|]. intros lc platform name iv mc gd tags v minor patch Hv Hin Henv Hw.
  unfold from_env in Henv. destruct (Implementation_parse name gd) as [implementation|]; [|done]. apply bind_Some in Henv as (pl&_&Henv). destruct pl as [pl|]; [|done].
  apply bind_Some in Henv as (tags'&Hnew&[= <-]). apply is_compatible_spec in Hw as (py&abi&plat&Hpy&Habi&_&Hl).
  rewrite (lookup_rank _ _ Hnew), rank_some in Hl. apply env_tags_pair in Hl.
  apply (any_opt_true _ _ abi); [by apply abi_tag_matches_some|done|]. by eapply env_tag_matches.
Qed.

(** ** Ranges and their specifiers *)

Lemma python_bound_wf b : bound_release b -> bound_wf b.
Proof. by destruct b as [v|v|]; [intros [[Hv _] _]|intros [[Hv _] _]|]. Qed.

Lemma lower_specifier_contains b v r : bound_release b -> release_is v r -> specs_contains (to_iter (LowerBound_specifier b) None) v = Some (LowerBound_contains b v).
Proof.
  intros Hb Hv. destruct b as [u|u|]; [..|done]; destruct Hb as [Hu _]; destruct (lower_release u v _ _ Hu Hv) as (E1&E2&_&_); unfold specs_contains; cbn [LowerBound_specifier to_iter app try_forallb].
  - unfold Specifier.greater_than_equal_version. rewrite (contains_release u v _ _ Hu Hv), E1. by destruct (geb_cmp _).
  - unfold greater_than_version. rewrite (contains_release u v _ _ Hu Hv), E2. by destruct (gtb_cmp _).
Qed.

Lemma upper_specifier_contains b v r : bound_release b -> release_is v r -> specs_contains (to_iter (UpperBound_specifier b) None) v = Some (UpperBound_contains b v).
Proof.
  intros Hb Hv. destruct b as [u|u|]; [..|done]; destruct Hb as [Hu _]; destruct (lower_release u v _ _ Hu Hv) as (_&_&E1&E2); unfold specs_contains; cbn [UpperBound_specifier to_iter app try_forallb].
  - unfold less_than_equal_version. rewrite (contains_release u v _ _ Hu Hv), E1. by destruct (leb_cmp _).
  - unfold less_than_version. rewrite (contains_release u v _ _ Hu Hv), E2. by destruct (ltb_cmp _).
Qed.

Lemma specs_contains_app l k v : specs_contains (l ++ k) v = match specs_contains l v with Some true => specs_contains k v | o => o end.
Proof. unfold specs_contains. induction l as [|x l IH]; cbn; [done|]. destruct (Specifier.contains x v) as [[]|]; [exact IH|done|done]. Qed.

Lemma release_spec_ok op v r : op <> TildeEqual -> release_is v r -> spec_ok (mkSpec op v) = true.
Proof. intros Hop (_&_&E). unfold spec_ok, is_local. cbn. rewrite value_local, E. cbn. by rewrite bool_decide_eq_false_2. Qed.

Lemma range_specs_ok b : bound_release b -> Forall (fun s => spec_ok s = true) (to_iter (LowerBound_specifier b) None) /\ Forall (fun s => spec_ok s = true) (to_iter (UpperBound_specifier b) None).
Proof. destruct b as [u|u|]; [..|done]; intros [Hu _]; split; repeat constructor; by eapply release_spec_ok. Qed.

Lemma range_specifiers_contains r v seg : bound_release (lower r) -> bound_release (upper r) -> release_is v seg ->
  specs_contains (RequiresPythonRange.specifiers r) v = Some (range_contains r v).
Proof.
  intros Hl Hu Hv. unfold RequiresPythonRange.specifiers. rewrite from_unsorted_matches by (apply Forall_app; split; by apply range_specs_ok).
  rewrite specs_contains_app, (lower_specifier_contains _ v seg), (upper_specifier_contains _ v seg) by done. unfold range_contains. by destruct (LowerBound_contains (lower r) v).
Qed.

Lemma Bound_eqb_contains x y v : bound_wf x -> bound_wf y -> version_wf v -> Bound_eqb x y = true ->
  LowerBound_contains x v = LowerBound_contains y v /\ UpperBound_contains x v = UpperBound_contains y v.
Proof.
  intros Hx Hy Hv. destruct x as [a|a|], y as [b|b|]; cbn; try done; unfold cmp_eqb, cmp_leb, cmp_ltb, cmp_geb, cmp_gtb; rewrite !cmp_value by done;
    intros E; destruct (cmp (value a) (value b)) eqn:Ec; try done; by rewrite (cmp_eq_l _ _ (value v) Ec).
Qed.

Lemma range_contains_release r v w segments : bound_release (lower r) -> bound_release (upper r) -> release_is v segments -> release_is w segments -> range_contains r v = range_contains r w.
Proof.
  intros Hl%python_bound_wf Hu%python_bound_wf (Hv&_&Ev) (Hw&_&Ew). unfold range_contains, LowerBound_contains, UpperBound_contains, cmp_leb, cmp_ltb, cmp_geb, cmp_gtb.
  by destruct (lower r) as [a|a|], (upper r) as [b|b|]; rewrite ?cmp_value, ?Ev, ?Ew by done.
Qed.

(** The greater lower bound and the smaller upper bound admit what both admit. *)
Lemma pick_lower l l' v : bound_release l -> bound_release l' -> version_wf v ->
  LowerBound_contains match LowerBound_cmp l l' with Lt => l' | _ => l end v = LowerBound_contains l' v && LowerBound_contains l v.
Proof.
  intros Hl%python_bound_wf Hl'%python_bound_wf Hv. pose proof (bounds_order l l' l v Hl Hl' Hl Hv) as (B1&_&O&_). pose proof (bounds_order l' l l v Hl' Hl Hl Hv) as (B2&_).
  rewrite O in B2. destruct (LowerBound_cmp l l'), (LowerBound_contains l v), (LowerBound_contains l' v); naive_solver.
Qed.

Lemma pick_upper u u' v : bound_release u -> bound_release u' -> version_wf v ->
  UpperBound_contains match UpperBound_cmp u u' with Gt => u' | _ => u end v = UpperBound_contains u' v && UpperBound_contains u v.
Proof.
  intros Hu%python_bound_wf Hu'%python_bound_wf Hv. pose proof (bounds_order u u' u v Hu Hu' Hu Hv) as (_&B1&_&O&_). pose proof (bounds_order u' u u v Hu' Hu Hu Hv) as (_&B2&_).
  rewrite O in B2. destruct (UpperBound_cmp u u'), (UpperBound_contains u v), (UpperBound_contains u' v); naive_solver.
Qed.

(** The range that [narrow] picks. *)
Definition picked (self range : RequiresPythonRange) : RequiresPythonRange :=
  mkPythonRange match LowerBound_cmp (lower range) (lower self) with Lt => lower self | _ => lower range end
    match UpperBound_cmp (upper range) (upper self) with Gt => upper self | _ => upper range end.

Lemma narrow_cases self range : match narrow self range with
  | Some narrowed => narrowed = mkRequiresPython (RequiresPythonRange.specifiers (picked (rp_range self) range)) (picked (rp_range self) range)
  | None => RequiresPythonRange.eqb range (rp_range self) = true \/
      LowerBound_cmp (lower range) (lower (rp_range self)) = Lt /\ UpperBound_cmp (upper range) (upper (rp_range self)) = Gt
  end.
Proof.
  unfold narrow, picked. destruct (RequiresPythonRange.eqb range (rp_range self)); [by left|].
  destruct (LowerBound_cmp _ _), (UpperBound_cmp _ _); cbn; auto.
Qed.

Lemma picked_bound self range : bound_release (lower range) -> bound_release (upper range) -> bound_release (lower self) -> bound_release (upper self) ->
  bound_release (lower (picked self range)) /\ bound_release (upper (picked self range)).
Proof. intros. unfold picked. cbn. split; by case_match. Qed.

(** [narrow] is the intersection of the two ranges, and the specifiers it returns
    match the releases of the intersection; it returns nothing only if the given range
    contains the current one. *)
Theorem narrow_intersects (self : RequiresPython) (range : RequiresPythonRange) (v : Version) (segments : list N) :
  bound_release (lower range) -> bound_release (upper range) -> bound_release (lower (rp_range self)) -> bound_release (upper (rp_range self)) -> release_is v segments ->
  match narrow self range with
  | Some narrowed =>
      range_contains (rp_range narrowed) v = range_contains (rp_range self) v && range_contains range v /\
      contains narrowed v = Some (range_contains (rp_range narrowed) v)
  | None => range_contains (rp_range self) v = true -> range_contains range v = true
  end.
Proof.
  intros Hl Hu Hl' Hu' Hv. pose proof (narrow_cases self range) as Hn. destruct (narrow self range) as [narrowed|].
  - subst narrowed. cbn [rp_range]. split.
    + unfold range_contains, picked. cbn [lower upper]. rewrite pick_lower, pick_upper by (done || apply Hv).
      by destruct (LowerBound_contains (lower range) v), (LowerBound_contains (lower (rp_range self)) v), (UpperBound_contains (upper range) v), (UpperBound_contains (upper (rp_range self)) v).
    + destruct (picked_bound (rp_range self) range) as [Hpl Hpu]; [done..|]. unfold contains, only_release. destruct (release_is_release _ _ Hv) as [Er _]. rewrite Er.
      destruct (new_release segments) as (w&->&Hw); [apply Hv|]. cbn [mbind option_bind rp_specifiers]. rewrite (range_specifiers_contains _ w segments) by done. f_equal.
      by apply range_contains_release with segments.
  - destruct Hn as [He|[El Eu]].
    + apply andb_prop in He as [H1 H2]. apply Bound_eqb_contains with (v := v) in H1 as [H1 _]; [|by apply python_bound_wf|by apply python_bound_wf|apply Hv].
      apply Bound_eqb_contains with (v := v) in H2 as [_ H2]; [|by apply python_bound_wf|by apply python_bound_wf|apply Hv]. unfold range_contains. by rewrite H1, H2.
    + pose proof (pick_lower (lower range) (lower (rp_range self)) v Hl Hl' (proj1 Hv)) as B1. pose proof (pick_upper (upper range) (upper (rp_range self)) v Hu Hu' (proj1 Hv)) as B2.
      rewrite El in B1. rewrite Eu in B2. unfold range_contains. intros [C1 C2]%andb_prop. rewrite C1 in B1. rewrite C2 in B2. cbn in B1, B2. by rewrite <- B1, <- B2.
Qed.

(** ** The marker of a range *)

Definition bound_small (b : Bound) : Prop :=
  match b with Included u | Excluded u => Forall (fun n => n + 1 < u64_MAX) (release u) | Unbounded => True end.

Section marker.
Context {RV RS : Type} {SV : RangeSet Version RV} {SS : RangeSet text RS}.
Context (okV : RV -> Prop) (okS : RS -> Prop) (ordered : bool).
Context {LV : RangeSetLaws Version RV version_wf okV} {LS : RangeSetLaws text RS (fun _ => True) okS}.

Lemma full_version_value op u : op <> TildeEqual -> is_star op = false -> release u <> [] -> Forall (fun n => n + 1 < u64_MAX) (release u) ->
  has_value okV okS ordered (expression (full_version (mkSpec op u))) (fun a => release_matches op (release u) (release (a_version a CV_PythonFullVersion))).
Proof.
  intros Hop Hstar Hne Hsmall. apply (has_value_expression okV okS ordered (full_version (mkSpec op u))).
  - cbn. by split_and!.
  - intros a. cbn. by rewrite Hstar.
Qed.

(** The version of an environment, by its segments. *)
Lemma final_release a : real a -> exists seg, release_is (a_version a CV_PythonFullVersion) seg /\ release (a_version a CV_PythonFullVersion) = seg.
Proof. intros [_ [Hf _]]. destruct (Hf CV_PythonFullVersion) as [seg Hseg]. exists seg. split; [done|]. by destruct (release_is_release _ _ Hseg). Qed.

Definition marker_of_spec (o : option VersionSpecifier) : act Interner NodeId := match o with Some sp => expression (full_version sp) | None => mret NodeId.TRUE end.

Lemma true_value : has_value okV okS ordered (mret NodeId.TRUE) (fun _ => true).
Proof. intros s Hs. apply (yields_const okV okS ordered real s true Hs). Qed.

Lemma has_value_weaken m f g : has_value okV okS ordered m f -> (forall a, real a -> f a = g a) -> has_value okV okS ordered m g.
Proof. intros Hm Hfg s Hs. eapply (yields_weaken okV okS ordered); [by apply Hm|done|done]. Qed.

Lemma lower_marker b : bound_release b -> bound_small b ->
  has_value okV okS ordered (marker_of_spec (LowerBound_specifier b)) (fun a => LowerBound_contains b (a_version a CV_PythonFullVersion)).
Proof.
  intros Hb Hs. destruct b as [u|u|]; [..|apply true_value]; destruct Hb as [Hu _]; pose proof Hu as (_&Hne&_);
    (eapply has_value_weaken; [by apply full_version_value|]); intros a (seg&Hseg&->)%final_release; by destruct (lower_release u _ _ _ Hu Hseg) as (E1&E2&_&_).
Qed.

Lemma upper_marker b : bound_release b -> bound_small b ->
  has_value okV okS ordered (marker_of_spec (UpperBound_specifier b)) (fun a => UpperBound_contains b (a_version a CV_PythonFullVersion)).
Proof.
  intros Hb Hs. destruct b as [u|u|]; [..|apply true_value]; destruct Hb as [Hu _]; pose proof Hu as (_&Hne&_);
    (eapply has_value_weaken; [by apply full_version_value|]); intros a (seg&Hseg&->)%final_release; by destruct (lower_release u _ _ _ Hu Hseg) as (_&_&E1&E2).
Qed.

(** C33: The marker of a [Requires-Python] holds exactly in the environments whose Python
    version, a final release, is in its range. *)
Theorem to_marker_tree_value (self : RequiresPython) (s : Interner) :
  interner_wf okV okS ordered s -> bound_release (lower (rp_range self)) -> bound_release (upper (rp_range self)) -> bound_small (lower (rp_range self)) -> bound_small (upper (rp_range self)) ->
  spec (to_marker_tree self) s (fun z s' => extends s s' /\ interner_wf okV okS ordered s' /\ valid_id (nodes s') z /\
    forall a, admissible a -> final a -> eval (nodes s') a z = range_contains (rp_range self) (a_version a CV_PythonFullVersion)).
Proof.
  intros Hs Hl Hu Hls Hus. pose proof (lower_marker _ Hl Hls) as Hlow. pose proof (upper_marker _ Hu Hus) as Hup. unfold to_marker_tree, range_contains.
  cut (has_value okV okS ordered (to_marker_tree self) (fun a => LowerBound_contains (lower (rp_range self)) (a_version a CV_PythonFullVersion) && UpperBound_contains (upper (rp_range self)) (a_version a CV_PythonFullVersion))).
  { intros Hv. eapply spec_mono; [by apply (Hv s Hs)|]. intros z s' (H1&H2&H3&H4). split_and!; [done..|]. intros a Ha Hf. by apply H4. }
  unfold to_marker_tree. destruct (lower (rp_range self)) as [x|x|], (upper (rp_range self)) as [y|y|]; cbn [LowerBound_specifier UpperBound_specifier marker_of_spec] in *.
  all: first [by apply (has_value_and okV okS ordered)|eapply has_value_weaken; [exact Hlow|]; intros a _; cbn; by rewrite andb_true_r|exact Hup].
Qed.

End marker.

(** ** Concrete ranges *)

Definition at_least_310 : RequiresPython := mkRequiresPython [] (mkPythonRange (Included (example [3; 10])) Unbounded).
Definition below_313 : RequiresPythonRange := mkPythonRange Unbounded (Excluded (example [3; 13])).

Lemma example_bound_release r rs : Forall (fun n => n < u64_MAX) (r :: rs) -> release_is (example (r :: rs)) (release (example (r :: rs))) /\ Forall (fun n => n < u64_MAX) (release (example (r :: rs))).
Proof. intros Hr. pose proof (example_release_is r rs) as H. destruct (release_is_release _ _ H) as [-> _]. done. Qed.

Lemma at_least_310_ok : range_ok (rp_range at_least_310).
Proof. split; [|done]. by apply (example_bound_release 3 [10]); repeat constructor. Qed.

Lemma below_313_ok : bound_release (upper below_313).
Proof. by apply (example_bound_release 3 [13]); repeat constructor. Qed.

Lemma abi3_wheel_usable (to_lowercase : bytes -> bytes) :
  match from_env to_lowercase {| os := Os_Manylinux 2 28; arch := X86_64 |} (3, 12) (bs "cpython") (3, 12) true false with
  | Some (Ok tags) => wheel_is_compatible abi3_wheel tags
  | _ => false
  end = true.
Proof. vm_compute. reflexivity. Qed.

Lemma matches_wheel_tag_specific_witness : matches_wheel_tag at_least_310 abi3_wheel = Some true.
Proof.
  pose proof (abi3_wheel_usable (fun l => l)) as H.
  destruct (from_env (fun l => l) {| os := Os_Manylinux 2 28; arch := X86_64 |} (3, 12) (bs "cpython") (3, 12) true false) as [[tags|]|] eqn:E; [|discriminate H|discriminate H].
  destruct (matches_wheel_tag_specific at_least_310 abi3_wheel at_least_310_ok) as [_ Hs].
  apply (Hs (fun l => l) {| os := Os_Manylinux 2 28; arch := X86_64 |} (bs "cpython") (3, 12) true false tags (example [3; 12; 1]) 12 [1] (example_release_is 3 [12; 1])); [vm_compute; reflexivity|exact E|exact H].
Defined.

Lemma to_marker_tree_value_witness : spec (to_marker_tree at_least_310) start (fun z s' => interner_wf okIV okIS true s' /\ valid_id (nodes s') z).
Proof.
  eapply spec_mono; [apply (to_marker_tree_value okIV okIS true at_least_310 start (Interner_default_wf okIV okIS true) (proj1 at_least_310_ok) I)|].
  - cbn. destruct (release_is_release _ _ (example_release_is 3 [10])) as [-> _]. by repeat constructor.
  - exact I.
  - intros z s' (_&H1&H2&_). by split.
Defined.

(** The upper bound [<3.10.0.1] keeps Python 3.10.0, but it is truncated to [<3.10], so
    the wheels of CPython 3.10 are dropped; and a range that is not narrower than the
    current one can come back as narrowed. *)
Lemma requires_python_defects_run :
  (let range := mkRequiresPython [] (mkPythonRange Unbounded (Excluded (example [3; 10; 0; 1]))) in
   range_contains (rp_range range) (example [3; 10; 0]) = true /\ matches_wheel_tag range (plain_wheel (LT_CPython (3, 10)) (AT_CPython false (3, 10)) (PT_Linux X86_64)) = Some false) /\
  (let current := mkPythonRange (Included (example [3; 10])) (Excluded (example [3; 13])) in
   exists specifiers, narrow (mkRequiresPython [] current) (mkPythonRange (Included (example [3; 10])) Unbounded) = Some (mkRequiresPython specifiers current)).
Proof. split; [split; vm_compute; reflexivity|]. eexists. vm_compute. reflexivity. Qed.
