(* ===== verification/VersionMap.v ===== *)
(** * Version maps ([uv-resolver/src/version_map.rs], [flat_index.rs])

    The versions of a package and their files: read from an index, where the files of a
    version are prioritized when the version is first asked for, from a flat index, or
    from both. The lazily made distributions live in cells of a store, next to the
    interner; what the program runs on the store is an action that may panic. *)

From stdpp Require Import base numbers list strings gmap.
From S2P Require Import Prelude VersionTypes VersionSmall Version VersionFacts Specifier Names Text PlatformTags Tags Filename RangeSet MarkerTypes MarkerAlgebra PrioritizedDist OrderedMap PythonRange.

#[local] Open Scope N_scope.

(** ** Options that decide what is usable *)

Inductive NoBinary := NB_None | NB_All | NB_Packages (packages : list PackageName).
Inductive NoBuild := NO_None | NO_All | NO_Packages (packages : list PackageName).
Record BuildOptions := { no_binary_option : NoBinary; no_build_option : NoBuild }.

Definition no_binary_package (self : BuildOptions) (name : PackageName) : bool :=
  match no_binary_option self with
  | NB_None => false
  | NB_All => match no_build_option self with NO_Packages packages => negb (bool_decide (name ∈ packages)) | _ => true end
  | NB_Packages packages => bool_decide (name ∈ packages)
  end.

Definition no_build_package (self : BuildOptions) (name : PackageName) : bool :=
  match no_build_option self with
  | NO_All => match no_binary_option self with NB_Packages packages => negb (bool_decide (name ∈ packages)) | _ => true end
  | NO_None => false
  | NO_Packages packages => bool_decide (name ∈ packages)
  end.

Inductive HashGeneration := HG_Url | HG_All.
Inductive HashPolicy := HP_None | HP_Generate (mode : HashGeneration) | HP_Validate (hashes : list HashDigest).

Definition digests (self : HashPolicy) : list HashDigest := match self with HP_None | HP_Generate _ => [] | HP_Validate hashes => hashes end.

Inductive VersionId := VI_NameVersion (name : PackageName) (version : Version) | VI_Url (url : text).

(** [Eq for VersionId]: versions by their order. *)
Definition VersionId_eqb (x y : VersionId) : bool :=
  match x, y with
  | VI_NameVersion name version, VI_NameVersion name' version' => bool_decide (name = name') && cmp_eqb version version'
  | VI_Url url, VI_Url url' => bool_decide (url = url')
  | _, _ => false
  end.

(** A hash map, as its entries. *)
Definition hash_map_get {K V} (eqb : K -> K -> bool) (map : list (K * V)) (key : K) : option V := snd <$> List.find (fun e => eqb (fst e) key) map.

Inductive HashStrategy := HS_None | HS_Generate (mode : HashGeneration) | HS_Verify (hashes : list (VersionId * list HashDigest)) | HS_Require (hashes : list (VersionId * list HashDigest)).

Definition get_package (self : HashStrategy) (name : PackageName) (version : Version) : HashPolicy :=
  match self with
  | HS_None => HP_None
  | HS_Generate mode => HP_Generate mode
  | HS_Verify hashes => match hash_map_get VersionId_eqb hashes (VI_NameVersion name version) with Some hashes => HP_Validate hashes | None => HP_None end
  | HS_Require hashes => HP_Validate (default [] (hash_map_get VersionId_eqb hashes (VI_NameVersion name version)))
  end.

Abbreviation AllowedYanks := (list (PackageName * list Version)).

Definition AllowedYanks_contains (self : AllowedYanks) (name : PackageName) (version : Version) : bool :=
  match hash_map_get (fun x y => bool_decide (x = y)) self name with Some versions => existsb (fun v => cmp_eqb v version) versions | None => false end.

Definition hash_in (hash : HashDigest) (hashes : list HashDigest) : bool := bool_decide (hash ∈ hashes).
Definition is_nil {A} (l : list A) : bool := match l with [] => true | _ => false end.

(** ** Files of a version ([uv-client/src/registry_client.rs]) *)

Inductive DistFilename := DF_Source (filename : SourceDistFilename) | DF_Wheel (filename : WheelFilename).
Record VersionFiles := { version_wheels : list (WheelFilename * File); version_source_dists : list (SourceDistFilename * File) }.

Definition VersionFiles_all (self : VersionFiles) : list (DistFilename * File) :=
  map (fun '(name, file) => (DF_Source name, file)) (version_source_dists self) ++ map (fun '(name, file) => (DF_Wheel name, file)) (version_wheels self).

(** One entry of [SimpleDetailMetadata]; the metadata is of a type of its own. *)
Record SimpleMetadatum (Metadata : Type) := { datum_version : Version; datum_files : VersionFiles; datum_metadata : option Metadata }.
Arguments datum_version {_} _.
Arguments datum_files {_} _.
Arguments datum_metadata {_} _.

(** ** The data *)

(** [SimplePrioritizedDist]: an offset into the metadata, and the cell. *)
Record SimplePrioritizedDist := { datum_index : nat; dist_cell : N }.

Inductive LazyPrioritizedDist :=
| LP_OnlyFlat (dist : PrioritizedDist)
| LP_OnlySimple (dist : SimplePrioritizedDist)
| LP_Both (flat : PrioritizedDist) (simple : SimplePrioritizedDist).

Record VersionMapEager := { eager_map : list (Version * PrioritizedDist); eager_stable : bool; eager_local : bool }.

Record VersionMapLazy (Metadata : Type) := mkLazy {
  lazy_map : list (Version * LazyPrioritizedDist);
  lazy_stable : bool;
  lazy_local : bool;
  core_metadata : list (Version * Metadata);
  simple_metadata : list (SimpleMetadatum Metadata);
  no_binary : bool;
  no_build : bool;
  lazy_index : IndexUrl;
  lazy_tags : option Tags;
  exclude_newer : option Z;
  allowed_yanks : AllowedYanks;
  hasher : HashStrategy;
  requires_python : RequiresPython
}.
Arguments mkLazy {_}.
Arguments lazy_map {_} _.
Arguments lazy_stable {_} _.
Arguments lazy_local {_} _.
Arguments core_metadata {_} _.
Arguments simple_metadata {_} _.
Arguments no_binary {_} _.
Arguments no_build {_} _.
Arguments lazy_index {_} _.
Arguments lazy_tags {_} _.
Arguments exclude_newer {_} _.
Arguments allowed_yanks {_} _.
Arguments hasher {_} _.
Arguments requires_python {_} _.

Inductive VersionMap (Metadata : Type) := VM_Eager (eager : VersionMapEager) | VM_Lazy (lazy : VersionMapLazy Metadata).
Arguments VM_Eager {_} _.
Arguments VM_Lazy {_} _.

(** [VersionMapDistHandle] *)
Inductive VersionMapDistHandle (Metadata : Type) := DH_Eager (dist : PrioritizedDist) | DH_Lazy (lazy : VersionMapLazy Metadata) (dist : LazyPrioritizedDist).
Arguments DH_Eager {_} _.
Arguments DH_Lazy {_} _ _.

(** [Ranges::as_singleton] of the [version-ranges] crate. *)
Class AsSingleton (R : Type) := as_singleton : R -> option Version.
Class AsSingletonLaws (R : Type) `{RangeSet Version R} `{AsSingleton R} (ok : R -> Prop) : Prop := {
  as_singleton_valid r v : ok r -> as_singleton r = Some v -> version_wf v;
  as_singleton_contains r v w : ok r -> version_wf w -> as_singleton r = Some v -> rs_contains r w = cmp_eqb w v
}.

(** [BoundingRange::from] *)
Definition bounding_range {R} `{RangeSet Version R} (range : R) : bound Version * bound Version :=
  default (B_Unbounded, B_Unbounded) (rs_bounding_range range).

(** ** The compatibility of a file *)

(** Hashes that are not required count as matching. *)
Definition compare_hashes (required_hashes hashes : list HashDigest) : HashComparison :=
  if is_nil required_hashes then HC_Matched
  else if is_nil hashes then HC_Missing
  else if existsb (fun hash => hash_in hash required_hashes) hashes then HC_Matched
  else HC_Mismatched.

(** The upload time against the cut-off: whether the file is excluded, and the time. *)
Definition excluded_time (exclude_newer : option Z) (upload_time : option Z) : bool * option Z :=
  match exclude_newer with
  | Some cutoff =>
      match upload_time with
      | Some upload_time => if (cutoff <=? upload_time)%Z then (true, Some upload_time) else (false, None)
      | None => (true, None)
      end
  | None => (false, None)
  end.

(** The yank that is not allowed. *)
Definition forbidden_yank (allowed_yanks : AllowedYanks) (name : PackageName) (version : Version) (yanked : option Yanked) : option Yanked :=
  match yanked with
  | Some yanked => if is_yanked yanked && negb (AllowedYanks_contains allowed_yanks name version) then Some yanked else None
  | None => None
  end.

Section compatibility.
Context {Metadata : Type} (self : VersionMapLazy Metadata).

Definition source_dist_compatibility (name : PackageName) (version : Version) (hashes : list HashDigest) (yanked : option Yanked) (excluded : bool) (upload_time : option Z)
    : SourceDistCompatibility :=
  if no_build self then SC_Incompatible IS_NoBuild
  else if excluded then SC_Incompatible (IS_ExcludeNewer upload_time)
  else
    match forbidden_yank (allowed_yanks self) name version yanked with
    | Some yanked => SC_Incompatible (IS_Yanked yanked)
    | None => SC_Compatible (compare_hashes (digests (get_package (hasher self) name version)) hashes)
    end.

(** [None] is a panic. *)
Definition wheel_compatibility (filename : WheelFilename) (name : PackageName) (version : Version) (hashes : list HashDigest) (yanked : option Yanked) (excluded : bool)
    (upload_time : option Z) : option WheelCompatibility :=
  if no_binary self then Some (WC_Incompatible IW_NoBinary)
  else if excluded then Some (WC_Incompatible (IW_ExcludeNewer upload_time))
  else
    match forbidden_yank (allowed_yanks self) name version yanked with
    | Some yanked => Some (WC_Incompatible (IW_Yanked yanked))
    | None =>
        let compatible priority := Some (WC_Compatible (compare_hashes (digests (get_package (hasher self) name version)) hashes) priority (build_tag (wheel_tags filename))) in
        match lazy_tags self with
        | Some tags =>
            match Filename.wheel_compatibility filename tags with
            | Incompatible tag => Some (WC_Incompatible (IW_Tag tag))
            | Compatible priority => compatible (Some priority)
            end
        | None =>
            matches ← RequiresPython.matches_wheel_tag (requires_python self) filename;
            if negb matches then Some (WC_Incompatible (IW_Tag IT_AbiPythonVersion)) else compatible None
        end
    end.

End compatibility.

(** ** The store *)

Section store.
Context {RV RS : Type} {SV : RangeSet Version RV} {SS : RangeSet text RS}.

(** The interner, the cells that are set, and the next free cell. *)
Record Store := mkStore { st_interner : @Interner RV RS; st_cells : gmap N (option PrioritizedDist); st_next : N }.
Abbreviation SM := (act Store).

Definition with_interner {A} (m : act (@Interner RV RS) A) : SM A :=
  fun st => match m (st_interner st) with Some (a, s) => Some (a, mkStore s (st_cells st) (st_next st)) | None => None end.

(** [OnceLock::new] *)
Definition once_new : SM N := fun st => Some (st_next st, mkStore (st_interner st) (st_cells st) (st_next st + 1)).

(** [OnceLock::get_or_init] *)
Definition get_or_init (cell : N) (init : SM (option PrioritizedDist)) : SM (option PrioritizedDist) :=
  fun st =>
    match st_cells st !! cell with
    | Some dist => Some (dist, st)
    | None => match init st with Some (dist, st) => Some (dist, mkStore (st_interner st) (<[cell := dist]> (st_cells st)) (st_next st)) | None => None end
    end.

Section metadata.
Context {Metadata : Type}.
Implicit Types self : VersionMapLazy Metadata.

(** One file of a version. *)
Definition add_simple_file self (priority_dist : PrioritizedDist) (filename : DistFilename) (file : File) : act (@Interner RV RS) PrioritizedDist :=
  let '(excluded, upload_time) := excluded_time (exclude_newer self) (upload_time_utc_ms file) in
  match filename with
  | DF_Wheel filename =>
      let! compatibility := mlift (wheel_compatibility self filename (wheel_name filename) (wheel_version filename) (file_hashes file) (file_yanked file) excluded upload_time) in
      PrioritizedDist.insert_built priority_dist {| wheel_filename := filename; wheel_file := file; wheel_index := lazy_index self |} (file_hashes file) compatibility
  | DF_Source filename =>
      let compatibility := source_dist_compatibility self (sdist_name filename) (sdist_version filename) (file_hashes file) (file_yanked file) excluded upload_time in
      let dist := {| sdist_dist_name := sdist_name filename; sdist_dist_version := sdist_version filename; sdist_file := file;
                     sdist_ext := extension filename; sdist_index := lazy_index self; sdist_wheels := [] |} in
      mret (PrioritizedDist.insert_source priority_dist dist (file_hashes file) compatibility)
  end.

Fixpoint add_simple_files self (priority_dist : PrioritizedDist) (files : list (DistFilename * File)) : act (@Interner RV RS) PrioritizedDist :=
  match files with
  | [] => mret priority_dist
  | (filename, file) :: files => let! priority_dist := add_simple_file self priority_dist filename file in add_simple_files self priority_dist files
  end.

(** [get_simple]: the files of the datum, added to the flat distribution if any. *)
Definition get_simple self (init : option PrioritizedDist) (simple : SimplePrioritizedDist) : SM (option PrioritizedDist) :=
  get_or_init (dist_cell simple)
    (let! datum := mlift (simple_metadata self !! datum_index simple) in
     let! priority_dist := with_interner (add_simple_files self (default PrioritizedDist.default init) (VersionFiles_all (datum_files datum))) in
     mret (if PrioritizedDist.is_empty priority_dist then None else Some priority_dist)).

Definition get_lazy self (lazy_dist : LazyPrioritizedDist) : SM (option PrioritizedDist) :=
  match lazy_dist with
  | LP_OnlyFlat dist => mret (Some dist)
  | LP_OnlySimple dist => get_simple self None dist
  | LP_Both flat simple => get_simple self (Some flat) simple
  end.

(** [VersionMapLazy::get] *)
Definition lazy_get self (version : Version) : SM (option PrioritizedDist) :=
  match bt_get (lazy_map self) version with
  | Some lazy_dist => get_lazy self lazy_dist
  | None => mret None
  end.

(** [VersionMapDistHandle::prioritized_dist] *)
Definition prioritized_dist (self : VersionMapDistHandle Metadata) : SM (option PrioritizedDist) :=
  match self with
  | DH_Eager dist => mret (Some dist)
  | DH_Lazy lazy dist => get_lazy lazy dist
  end.

End metadata.
End store.

(** ** [FlatDistributions] *)

Module FlatDistributions.

Definition source_dist_compatibility (filename : SourceDistFilename) (hashes : list HashDigest) (hasher : HashStrategy) (build_options : BuildOptions) : SourceDistCompatibility :=
  if no_build_package build_options (sdist_name filename) then SC_Incompatible IS_NoBuild
  else
    SC_Compatible
      match get_package hasher (sdist_name filename) (sdist_version filename) with
      | HP_Validate required =>
          if is_nil hashes then HC_Missing else if existsb (fun hash => hash_in hash hashes) required then HC_Matched else HC_Mismatched
      | _ => HC_Matched
      end.

Definition wheel_compatibility (filename : WheelFilename) (hashes : list HashDigest) (tags : option Tags) (hasher : HashStrategy) (build_options : BuildOptions) : WheelCompatibility :=
  if no_binary_package build_options (wheel_name filename) then WC_Incompatible IW_NoBinary
  else
    let hash :=
      match get_package hasher (wheel_name filename) (wheel_version filename) with
      | HP_Validate required =>
          if is_nil hashes then HC_Missing else if existsb (fun hash => hash_in hash hashes) required then HC_Matched else HC_Mismatched
      | _ => HC_Matched
      end in
    match tags with
    | Some tags =>
        match Filename.wheel_compatibility filename tags with
        | Incompatible tag => WC_Incompatible (IW_Tag tag)
        | Compatible priority => WC_Compatible hash (Some priority) (build_tag (wheel_tags filename))
        end
    | None => WC_Compatible hash None (build_tag (wheel_tags filename))
    end.

Section interned.
Context {RV RS : Type} {SV : RangeSet Version RV} {SS : RangeSet text RS}.
Abbreviation IM := (act (@Interner RV RS)).

Definition add_file (self : list (Version * PrioritizedDist)) (file : File) (filename : DistFilename) (tags : option Tags) (hasher : HashStrategy) (build_options : BuildOptions)
    (index : IndexUrl) : IM (list (Version * PrioritizedDist)) :=
  match filename with
  | DF_Wheel filename =>
      let version := wheel_version filename in
      let compatibility := wheel_compatibility filename (file_hashes file) tags hasher build_options in
      let dist := {| wheel_filename := filename; wheel_file := file; wheel_index := index |} in
      match bt_get self version with
      | Some entry => let! entry := PrioritizedDist.insert_built entry dist [] compatibility in mret (bt_insert self version entry)
      | None => let! entry := PrioritizedDist.from_built dist [] compatibility in mret (bt_insert self version entry)
      end
  | DF_Source filename =>
      let version := sdist_version filename in
      let compatibility := source_dist_compatibility filename (file_hashes file) hasher build_options in
      let dist := {| sdist_dist_name := sdist_name filename; sdist_dist_version := sdist_version filename; sdist_file := file;
                     sdist_ext := extension filename; sdist_index := index; sdist_wheels := [] |} in
      match bt_get self version with
      | Some entry => mret (bt_insert self version (PrioritizedDist.insert_source entry dist [] compatibility))
      | None => mret (bt_insert self version (PrioritizedDist.from_source dist [] compatibility))
      end
  end.

Fixpoint add_files (self : list (Version * PrioritizedDist)) (entries : list (DistFilename * File * IndexUrl)) (tags : option Tags) (hasher : HashStrategy) (build_options : BuildOptions)
    : IM (list (Version * PrioritizedDist)) :=
  match entries with
  | [] => mret self
  | (filename, file, index) :: entries =>
      let! self := add_file self file filename tags hasher build_options index in
      add_files self entries tags hasher build_options
  end.

Definition from_entries (entries : list (DistFilename * File * IndexUrl)) (tags : option Tags) (hasher : HashStrategy) (build_options : BuildOptions) : IM (list (Version * PrioritizedDist)) :=
  add_files [] entries tags hasher build_options.

End interned.
End FlatDistributions.

(** ** [VersionMap] *)

Module VersionMap.
Section maps.
Context {RV RS : Type} {SV : RangeSet Version RV} {SS : RangeSet text RS} {Metadata : Type}.
Abbreviation SM := (act (@Store RV RS)).

(** The stubs for the entries of the index: the map, whether a version is stable or
    local, and the metadata. *)
Fixpoint simple_loop (datum_index : nat) (data : list (SimpleMetadatum Metadata)) (map : list (Version * LazyPrioritizedDist)) (stable local : bool) (core_metadata : list (Version * Metadata))
    : SM (list (Version * LazyPrioritizedDist) * bool * bool * list (Version * Metadata)) :=
  match data with
  | [] => mret (map, stable, local, core_metadata)
  | datum :: data =>
      let version := datum_version datum in
      let core_metadata := match datum_metadata datum with Some core_metadatum => (version, core_metadatum) :: core_metadata | None => core_metadata end in
      let! cell := once_new in
      simple_loop (S datum_index) data (bt_insert map version (LP_OnlySimple {| datum_index := datum_index; dist_cell := cell |}))
        (stable || is_stable version) (local || is_local version) core_metadata
  end.

(** The flat distributions; [unreachable!] is [None]. *)
Fixpoint flat_loop (flat : list (Version * PrioritizedDist)) (map : list (Version * LazyPrioritizedDist)) (stable : bool) : option (list (Version * LazyPrioritizedDist) * bool) :=
  match flat with
  | [] => Some (map, stable)
  | (version, prioritized_dist) :: flat =>
      let stable := stable || is_stable version in
      match get_key_value map version with
      | None => flat_loop flat (bt_insert map version (LP_OnlyFlat prioritized_dist)) stable
      | Some (version', LP_OnlySimple simple_dist) => flat_loop flat (bt_insert (bt_remove map version) version' (LP_Both prioritized_dist simple_dist)) stable
      | Some _ => None
      end
  end.

Definition from_simple_metadata (simple_metadata : list (SimpleMetadatum Metadata)) (package_name : PackageName) (index : IndexUrl) (tags : option Tags) (requires_python : RequiresPython)
    (allowed_yanks : AllowedYanks) (hasher : HashStrategy) (exclude_newer : option Z) (flat_index : option (list (Version * PrioritizedDist))) (build_options : BuildOptions)
    : SM (VersionMap Metadata) :=
  let! loop := simple_loop 0 simple_metadata [] false false [] in
  let '(map, stable, local, core_metadata) := loop in
  let! flat := mlift (flat_loop (default [] flat_index) map stable) in
  let '(map, stable) := flat in
  mret (VM_Lazy (mkLazy map stable local core_metadata simple_metadata (no_binary_package build_options package_name) (no_build_package build_options package_name)
    index tags exclude_newer allowed_yanks hasher requires_python)).

Fixpoint eager_loop (flat : list (Version * PrioritizedDist)) (map : list (Version * PrioritizedDist)) (stable local : bool) : VersionMapEager :=
  match flat with
  | [] => {| eager_map := map; eager_stable := stable; eager_local := local |}
  | (version, dist) :: flat => eager_loop flat (bt_insert map version dist) (stable || is_stable version) (local || is_local version)
  end.

Definition from_flat_metadata (flat_metadata : list (DistFilename * File * IndexUrl)) (tags : option Tags) (hasher : HashStrategy) (build_options : BuildOptions)
    : SM (VersionMap Metadata) :=
  let! flat := with_interner (FlatDistributions.from_entries flat_metadata tags hasher build_options) in
  mret (VM_Eager (eager_loop flat [] false false)).

(** [From<FlatDistributions>] *)
Definition from_flat (flat_index : list (Version * PrioritizedDist)) : VersionMap Metadata :=
  VM_Eager {| eager_map := flat_index; eager_stable := existsb (fun e => is_stable (fst e)) flat_index; eager_local := existsb (fun e => is_local (fst e)) flat_index |}.

Implicit Types self : VersionMap Metadata.

Definition get_metadata self (version : Version) : option Metadata :=
  match self with VM_Eager _ => None | VM_Lazy lazy => hash_map_get cmp_eqb (core_metadata lazy) version end.

Definition get self (version : Version) : SM (option PrioritizedDist) :=
  match self with VM_Eager eager => mret (bt_get (eager_map eager) version) | VM_Lazy lazy => lazy_get lazy version end.

Definition versions self : list Version := match self with VM_Eager eager => bt_keys (eager_map eager) | VM_Lazy lazy => bt_keys (lazy_map lazy) end.
Definition index self : option IndexUrl := match self with VM_Eager _ => None | VM_Lazy lazy => Some (lazy_index lazy) end.
Definition len self : nat := match self with VM_Eager eager => length (eager_map eager) | VM_Lazy lazy => length (lazy_map lazy) end.
Definition stable self : bool := match self with VM_Eager eager => eager_stable eager | VM_Lazy lazy => lazy_stable lazy end.
Definition local self : bool := match self with VM_Eager eager => eager_local eager | VM_Lazy lazy => lazy_local lazy end.

Definition hashes self (version : Version) : SM (option (list HashDigest)) :=
  let! dist := get self version in mret (PrioritizedDist.hashes <$> dist).

Section iter.
Context {R : Type} {S : RangeSet Version R} {A : AsSingleton R}.

(** [iter], in increasing order of versions; [None] is the panic of [BTreeMap::range]. *)
Definition iter self (range : R) : option (list (Version * VersionMapDistHandle Metadata)) :=
  match as_singleton range with
  | Some version =>
      Some match self with
      | VM_Eager eager => match get_key_value (eager_map eager) version with Some (version, dist) => [(version, DH_Eager dist)] | None => [] end
      | VM_Lazy lazy => match get_key_value (lazy_map lazy) version with Some (version, dist) => [(version, DH_Lazy lazy dist)] | None => [] end
      end
  | None =>
      let '(min, max) := bounding_range range in
      match self with
      | VM_Eager eager => map (fun '(version, dist) => (version, DH_Eager dist)) <$> bt_range (eager_map eager) min max
      | VM_Lazy lazy => map (fun '(version, dist) => (version, DH_Lazy lazy dist)) <$> bt_range (lazy_map lazy) min max
      end
  end.

End iter.
End maps.
End VersionMap.
