(* ===== verification/VersionMapTheorems.v ===== *)
(** * Lemmas on version maps

    The distribution that the files of a version make, as a function, and the invariant
    of the store: a cell that is set holds that distribution. *)

From stdpp Require Import base numbers list strings gmap.
From S2P Require Import Prelude VersionTypes VersionSmall Version VersionFacts VersionParser Specifier Ranges RangesFacts RangesTheorems Names Text PlatformTags Tags Filename RangeSet Cuts Tiling MarkerTypes MarkerAlgebra MarkerEval MarkerWf MarkerEdges MarkerExpr MarkerOps MarkerVersions MarkerTree MarkerExamples MarkerFormula PrioritizedDist OrderedMap PrioritizedDistTheorems PythonRange PythonRangeTheorems VersionMap.

#[local] Open Scope N_scope.

(** ** Distributions up to their markers *)

(** The node of the markers depends on what the interner holds; the rest does not. *)
Definition same_dist (d e : PrioritizedDist) : Prop :=
  source d = source e /\ best_wheel_index d = best_wheel_index e /\ wheels d = wheels e /\ hashes d = hashes e.

#[export] Instance same_dist_equivalence : Equivalence same_dist.
Proof. unfold same_dist. split; red; intros; naive_solver congruence. Qed.

(** [insert_built] without the markers. *)
Definition insert_wheel (d : PrioritizedDist) (dist : RegistryBuiltWheel) (hs : list HashDigest) (c : WheelCompatibility) : PrioritizedDist :=
  mkPrioritized (source d) (next_index (default None (PrioritizedDist.best_wheel d)) (best_wheel_index d) (length (wheels d)) c)
    (wheels d ++ [(dist, c)]) (if WheelCompatibility.is_excluded c then hashes d else hashes d ++ hs) (markers d).

#[export] Instance insert_wheel_proper : Proper (same_dist ==> eq ==> eq ==> eq ==> same_dist) insert_wheel.
Proof.
  intros d e (Hs&Hb&Hw&Hh) dist _ <- hs _ <- c _ <-. unfold same_dist, insert_wheel, PrioritizedDist.best_wheel. cbn. by rewrite Hs, Hb, Hw, Hh.
Qed.

#[export] Instance insert_source_proper : Proper (same_dist ==> eq ==> eq ==> eq ==> same_dist) PrioritizedDist.insert_source.
Proof. intros d e (Hs&Hb&Hw&Hh) dist _ <- hs _ <- c _ <-. unfold same_dist, PrioritizedDist.insert_source. cbn. by rewrite Hs, Hb, Hw, Hh. Qed.

#[export] Instance is_empty_proper : Proper (same_dist ==> eq) PrioritizedDist.is_empty.
Proof. intros d e (Hs&_&Hw&_). unfold PrioritizedDist.is_empty. by rewrite Hs, Hw. Qed.

(** ** The files of a version *)

Section reference.
Context {Metadata : Type} (self : VersionMapLazy Metadata).

Definition expected_file (d : PrioritizedDist) (filename : DistFilename) (file : File) : option PrioritizedDist :=
  let '(excluded, upload_time) := excluded_time (exclude_newer self) (upload_time_utc_ms file) in
  match filename with
  | DF_Wheel filename =>
      c ← wheel_compatibility self filename (wheel_name filename) (wheel_version filename) (file_hashes file) (file_yanked file) excluded upload_time;
      Some (insert_wheel d {| wheel_filename := filename; wheel_file := file; wheel_index := lazy_index self |} (file_hashes file) c)
  | DF_Source filename =>
      let c := source_dist_compatibility self (sdist_name filename) (sdist_version filename) (file_hashes file) (file_yanked file) excluded upload_time in
      let dist := {| sdist_dist_name := sdist_name filename; sdist_dist_version := sdist_version filename; sdist_file := file;
                     sdist_ext := extension filename; sdist_index := lazy_index self; sdist_wheels := [] |} in
      Some (PrioritizedDist.insert_source d dist (file_hashes file) c)
  end.

Fixpoint expected_files (d : PrioritizedDist) (files : list (DistFilename * File)) : option PrioritizedDist :=
  match files with
  | [] => Some d
  | (filename, file) :: files => d ← expected_file d filename file; expected_files d files
  end.

Lemma expected_file_proper d e filename file : same_dist d e ->
  match expected_file d filename file, expected_file e filename file with Some d', Some e' => same_dist d' e' | None, None => True | _, _ => False end.
Proof.
  intros Hde. unfold expected_file. destruct (excluded_time _ _) as [x t]. destruct filename as [f|f]; cbn; [by rewrite Hde|]. destruct (wheel_compatibility _ _ _ _ _ _ _ _); cbn; [by rewrite Hde|done].
Qed.

Lemma expected_files_proper files : forall d e, same_dist d e ->
  match expected_files d files, expected_files e files with Some d', Some e' => same_dist d' e' | None, None => True | _, _ => False end.
Proof.
  induction files as [|[filename file] files IH]; intros d e Hde; cbn; [done|]. pose proof (expected_file_proper d e filename file Hde) as H.
  destruct (expected_file d filename file), (expected_file e filename file); cbn; try done. by apply IH.
Qed.

Lemma wheel_compatibility_some filename name version hs yanked excluded upload_time : range_ok (rp_range (requires_python self)) ->
  is_Some (wheel_compatibility self filename name version hs yanked excluded upload_time).
Proof.
  intros Hok. unfold wheel_compatibility. repeat case_match; try done. destruct (any_opt_some (RequiresPython.abi_tag_matches (requires_python self) (python_tags (wheel_tags filename))) (abi_tags (wheel_tags filename))) as [b Hb];
    [by apply abi_tag_matches_some|]. unfold RequiresPython.matches_wheel_tag. rewrite Hb. by destruct b.
Qed.

End reference.

Definition file_small (f : DistFilename * File) : Prop :=
  match fst f with DF_Wheel filename => Forall tag_small (Filename.python_tags (wheel_tags filename)) | DF_Source _ => True end.

Section states.
Context {RV RS : Type} {SV : RangeSet Version RV} {SS : RangeSet text RS}.
Context (okV : RV -> Prop) (okS : RS -> Prop) (ordered : bool).
Context {LV : RangeSetLaws Version RV version_wf okV} {LS : RangeSetLaws text RS (fun _ => True) okS}.
Context {Metadata : Type}.
Implicit Types self : VersionMapLazy Metadata.

Abbreviation Store := (@Store RV RS).
Abbreviation Interner := (@Interner RV RS).
Abbreviation wf := (interner_wf okV okS ordered).
Abbreviation state_ok := (state_ok okV okS ordered).

Lemma state_ok_weaken e x s d : state_ok (e || x) s d -> state_ok e s d.
Proof. intros (H1&H2&H3&H4). split_and!; [done..|]. intros ->. by apply H4. Qed.

Lemma state_ok_extends e s s' d : state_ok e s d -> wf s' -> extends s s' -> state_ok e s' d.
Proof.
  intros (Hs&Hm&Hd&He) Hs' Hx. split_and!; [done|by eapply extends_valid|done|]. intros Hexact a Ha. rewrite (extends_eval s s') by done. by apply He.
Qed.

Lemma insert_built_same d dist hs c s d' s' : PrioritizedDist.insert_built d dist hs c s = Some (d', s') -> same_dist d' (insert_wheel d dist hs c).
Proof.
  unfold PrioritizedDist.insert_built, mbind', mlift, mret. intros H. match type of H with match ?m with _ => _ end = _ => destruct m as [[z s1]|]; [|done] end.
  destruct (PrioritizedDist.best_wheel d) as [best|] eqn:Eb; cbn in H; [|done]. injection H as <- <-. unfold insert_wheel, same_dist. cbn. rewrite Eb. by destruct best as [[? ?]|].
Qed.

Lemma add_simple_file_ok self e s d filename file : range_ok (rp_range (requires_python self)) -> state_ok e s d -> file_small (filename, file) ->
  spec (add_simple_file self d filename file) s (fun d' s' => extends s s' /\ state_ok e s' d' /\ exists d'', expected_file self d filename file = Some d'' /\ same_dist d' d'').
Proof.
  intros Hr Hok Hf. unfold add_simple_file, expected_file. destruct (excluded_time _ _) as [x t]. destruct filename as [f|f].
  - apply spec_ret. split; [done|]. split; [|by eexists]. by eapply state_ok_weaken, insert_source_ok.
  - destruct (wheel_compatibility_some self f (wheel_name f) (wheel_version f) (file_hashes file) (file_yanked file) x t Hr) as [c Ec]. rewrite Ec.
    apply spec_bind. apply (spec_intro _ _ _ c s); [done|]. eapply spec_mono; [apply spec_result; by apply (insert_built_ok okV okS ordered e)|].
    intros d' s' (E&Hx&Hok'). split; [done|]. split; [done|]. eexists. split; [done|]. by eapply insert_built_same.
Qed.

Lemma add_simple_files_ok self e files : range_ok (rp_range (requires_python self)) -> Forall file_small files -> forall s d, state_ok e s d ->
  spec (add_simple_files self d files) s (fun d' s' => extends s s' /\ state_ok e s' d' /\ exists d'', expected_files self d files = Some d'' /\ same_dist d' d'').
Proof.
  intros Hr Hfs. induction Hfs as [|[filename file] files Hf Hfs IH]; intros s d Hok; cbn [add_simple_files expected_files].
  - apply spec_ret. split; [done|]. split; [done|by eexists].
  - apply spec_bind. eapply spec_mono; [by apply (add_simple_file_ok self e)|]. intros d1 s1 (Hx1&Hok1&d1'&E1&Hs1). rewrite E1. cbn [mbind option_bind].
    eapply spec_mono; [by apply IH|]. intros d2 s2 (Hx2&Hok2&d2'&E2&Hs2). split; [by etrans|]. split; [done|].
    pose proof (expected_files_proper self files d1 d1' Hs1) as Hp. rewrite E2 in Hp. destruct (expected_files self d1' files) as [d3|]; [|done]. exists d3. split; [done|]. by etrans.
Qed.

(** ** The store *)

Definition cell_of (dist : LazyPrioritizedDist) : option N :=
  match dist with LP_OnlyFlat _ => None | LP_OnlySimple simple | LP_Both _ simple => Some (dist_cell simple) end.

(** What the distribution starts from. *)
Definition start_of (dist : LazyPrioritizedDist) : PrioritizedDist :=
  match dist with LP_OnlyFlat flat | LP_Both flat _ => flat | LP_OnlySimple _ => PrioritizedDist.default end.

Definition files_of self (dist : LazyPrioritizedDist) : list (DistFilename * File) :=
  match dist with
  | LP_OnlyFlat _ => []
  | LP_OnlySimple simple | LP_Both _ simple => match simple_metadata self !! datum_index simple with Some datum => VersionFiles_all (datum_files datum) | None => [] end
  end.

(** The answer for an entry of the map: the distribution of its files, none if there are
    no files. *)
Definition answers self (dist : LazyPrioritizedDist) (answer : option PrioritizedDist) : Prop :=
  exists d, expected_files self (start_of dist) (files_of self dist) = Some d /\
    match answer with
    | Some d' => same_dist d' d /\ (is_Some (cell_of dist) -> PrioritizedDist.is_empty d = false)
    | None => PrioritizedDist.is_empty d = true
    end.

Definition answer_ok (s : Interner) (answer : option PrioritizedDist) : Prop := match answer with Some d => state_ok false s d | None => True end.

(** An entry that can be answered. *)
Definition entry_ok self (s : Interner) (next : N) (dist : LazyPrioritizedDist) : Prop :=
  state_ok false s (start_of dist) /\ Forall file_small (files_of self dist) /\
  match dist with
  | LP_OnlyFlat _ => True
  | LP_OnlySimple simple | LP_Both _ simple => (datum_index simple < length (simple_metadata self))%nat /\ dist_cell simple < next
  end.

Definition map_ok self (s : Interner) (next : N) : Prop :=
  bt_valid version_wf (lazy_map self) /\ bt_sorted (lazy_map self) /\ range_ok (rp_range (requires_python self)) /\
  Forall (fun e => entry_ok self s next (snd e)) (lazy_map self).

(** The cells of all maps. *)
Definition all_cells (maps : list (VersionMapLazy Metadata)) : list N := maps ≫= (fun self => marks cell_of (lazy_map self)).

Definition store_ok (maps : list (VersionMapLazy Metadata)) (st : Store) : Prop :=
  wf (st_interner st) /\ Forall (fun self => map_ok self (st_interner st) (st_next st)) maps /\ NoDup (all_cells maps) /\
  forall self e c answer, self ∈ maps -> e ∈ lazy_map self -> cell_of (snd e) = Some c -> st_cells st !! c = Some answer -> answers self (snd e) answer /\ answer_ok (st_interner st) answer.

(** A cell that is free is not set. *)
Definition free_unset (st : Store) : Prop := forall c, st_next st <= c -> st_cells st !! c = None.

(** How the store grows. *)
Definition grows (st st' : Store) : Prop := extends (st_interner st) (st_interner st') /\ st_cells st ⊆ st_cells st' /\ st_next st <= st_next st'.

Lemma grows_refl st : grows st st.
Proof. unfold grows. split_and!; [done|done|lia]. Qed.

Lemma store_grows_trans st st' st'' : grows st st' -> grows st' st'' -> grows st st''.
Proof. intros (H1&H2&H3) (H4&H5&H6). split_and!; [by etrans|by etrans|lia]. Qed.

Lemma entry_ok_mono self s next s' next' dist : entry_ok self s next dist -> wf s' -> extends s s' -> next <= next' -> entry_ok self s' next' dist.
Proof.
  intros (H1&H2&H3) Hs' Hx Hn. split_and!; [by eapply state_ok_extends|done|]. destruct dist; [done|..]; destruct H3 as [? ?]; (split; [done|lia]).
Qed.

Lemma map_ok_mono self s next s' next' : map_ok self s next -> wf s' -> extends s s' -> next <= next' -> map_ok self s' next'.
Proof.
  intros (H1&H2&H3&H4) Hs' Hx Hn. split_and!; [done..|]. eapply Forall_impl; [exact H4|]. intros e He. exact (entry_ok_mono _ _ _ _ _ _ He Hs' Hx Hn).
Qed.

Lemma answer_ok_mono s s' answer : answer_ok s answer -> wf s' -> extends s s' -> answer_ok s' answer.
Proof. intros Ha Hs' Hx. destruct answer as [d|]; [|done]. by eapply state_ok_extends. Qed.

(** An action of the interner alone keeps the store. *)
Lemma store_ok_interner maps st s' : store_ok maps st -> wf s' -> extends (st_interner st) s' -> store_ok maps (mkStore s' (st_cells st) (st_next st)).
Proof.
  intros (Hs&Hm&Hn&Hc) Hs' Hx. split_and!; [done| |done|].
  - eapply Forall_impl; [exact Hm|]. intros self H. exact (map_ok_mono _ _ _ _ _ H Hs' Hx (N.le_refl _)).
  - intros self e c answer Hself He Hcell Hans. destruct (Hc self e c answer Hself He Hcell Hans) as [H1 H2]. split; [done|]. by eapply answer_ok_mono.
Qed.

(** Two entries of the maps with the same cell are the same entry. *)
Lemma cells_unique maps self self' e e' c : NoDup (all_cells maps) -> self ∈ maps -> self' ∈ maps -> e ∈ lazy_map self -> e' ∈ lazy_map self' ->
  cell_of (snd e) = Some c -> cell_of (snd e') = Some c -> self = self' /\ e = e'.
Proof.
  intros Hnd Hself Hself' He He' Hc Hc'. assert (c ∈ marks cell_of (lazy_map self)) as Hin by (apply marks_elem; eauto). assert (c ∈ marks cell_of (lazy_map self')) as Hin' by (apply marks_elem; eauto).
  unfold all_cells in Hnd. induction maps as [|m maps IH]; [by apply not_elem_of_nil in Hself|]. cbn in Hnd. apply NoDup_app in Hnd as (Hm&Hdis&Hrest).
  apply elem_of_cons in Hself as [->|Hself], Hself' as [->|Hself'].
  - split; [done|]. by eapply (marks_unique cell_of).
  - exfalso. apply (Hdis c Hin). apply list_elem_of_bind. eauto.
  - exfalso. apply (Hdis c Hin'). apply list_elem_of_bind. eauto.
  - by apply IH.
Qed.

(** *** Asking for an entry *)

(** What a cell is set to: the files of the datum, from a distribution that is fine. *)
Lemma init_ok maps self st (init : option PrioritizedDist) simple datum : store_ok maps st -> range_ok (rp_range (requires_python self)) ->
  simple_metadata self !! datum_index simple = Some datum -> state_ok false (st_interner st) (default PrioritizedDist.default init) -> Forall file_small (VersionFiles_all (datum_files datum)) ->
  spec (let! datum := mlift (simple_metadata self !! datum_index simple) in
        let! priority_dist := with_interner (add_simple_files self (default PrioritizedDist.default init) (VersionFiles_all (datum_files datum))) in
        mret (if PrioritizedDist.is_empty priority_dist then None else Some priority_dist)) st
    (fun answer st' => store_ok maps st' /\ extends (st_interner st) (st_interner st') /\ st_cells st' = st_cells st /\ st_next st' = st_next st /\ answer_ok (st_interner st') answer /\
       exists d, expected_files self (default PrioritizedDist.default init) (VersionFiles_all (datum_files datum)) = Some d /\
         match answer with Some d' => same_dist d' d /\ PrioritizedDist.is_empty d = false | None => PrioritizedDist.is_empty d = true end).
Proof.
  intros Hst Hr Hd Hok Hf. unfold spec, mbind', mlift. rewrite Hd. cbn [mbind option_bind]. unfold with_interner.
  pose proof (add_simple_files_ok self false _ Hr Hf (st_interner st) _ Hok) as H. unfold spec in H. destruct (add_simple_files _ _ _ _) as [[d s']|]; [|done].
  destruct H as (Hx&Hok'&d''&E&Hsame). cbn. split_and!; [by apply store_ok_interner; [|apply Hok'|]|done|done|done|by destruct (PrioritizedDist.is_empty d)|].
  exists d''. split; [done|]. destruct (PrioritizedDist.is_empty d) eqn:Ee; [by rewrite <- Hsame|]. split; [done|]. by rewrite <- Hsame.
Qed.

(** Setting the cell of an entry to its answer. *)
Lemma store_ok_set maps self st e c answer : store_ok maps st -> self ∈ maps -> e ∈ lazy_map self -> cell_of (snd e) = Some c -> answers self (snd e) answer -> answer_ok (st_interner st) answer ->
  store_ok maps (mkStore (st_interner st) (<[c := answer]> (st_cells st)) (st_next st)).
Proof.
  intros (Hs&Hm&Hn&Hc) Hself He Hcell Ha Hok. split_and!; [done..|]. intros self' e' c' answer' Hself' He' Hcell' Hl. cbn in Hl.
  destruct (decide (c = c')) as [->|Hne].
  - rewrite lookup_insert_eq in Hl. injection Hl as <-. destruct (cells_unique maps self self' e e' c' Hn Hself Hself' He He' Hcell Hcell') as [<- <-]. by split.
  - rewrite lookup_insert_ne in Hl by done. by apply (Hc self' e' c').
Qed.

Lemma get_simple_ok maps self st e init simple : store_ok maps st -> self ∈ maps -> e ∈ lazy_map self -> cell_of (snd e) = Some (dist_cell simple) -> start_of (snd e) = default PrioritizedDist.default init ->
  (forall datum, simple_metadata self !! datum_index simple = Some datum -> files_of self (snd e) = VersionFiles_all (datum_files datum)) -> (datum_index simple < length (simple_metadata self))%nat -> dist_cell simple < st_next st ->
  spec (get_simple self init simple) st (fun answer st' => store_ok maps st' /\ grows st st' /\ (free_unset st -> free_unset st') /\ st_cells st' !! dist_cell simple = Some answer /\ answers self (snd e) answer /\ answer_ok (st_interner st') answer).
Proof.
  intros Hst Hself He Hcell Hstart Hfiles Hlt Hnext. pose proof Hst as (Hs&Hm&_&Hc). rewrite Forall_forall in Hm. destruct (Hm self Hself) as (_&_&Hr&Hentries). rewrite Forall_forall in Hentries.
  destruct (Hentries e He) as (Hok&Hf&_). unfold spec, get_simple, get_or_init. destruct (st_cells st !! dist_cell simple) as [answer|] eqn:El.
  - destruct (Hc self e _ answer Hself He Hcell El) as [Ha Hao]. split_and!; [done|apply grows_refl|done|done|done|done].
  - destruct (lookup_lt_is_Some_2 _ _ Hlt) as [datum Hd]. rewrite (Hfiles datum Hd) in Hf. rewrite Hstart in Hok.
    pose proof (init_ok maps self st init simple datum Hst Hr Hd Hok Hf) as H. unfold spec in H. match type of H with match ?m with _ => _ end => destruct m as [[answer st']|]; [|done] end.
    destruct H as (Hst'&Hx&Ecells&Enext&Hao&d&Ed&Hans). assert (answers self (snd e) answer) as Ha by (exists d; rewrite Hstart, (Hfiles datum Hd); split; [done|]; destruct answer; [by destruct Hans|done]). split_and!.
    + by apply (store_ok_set maps self st' e).
    + unfold grows. cbn. rewrite Ecells, Enext. split_and!; [done|by apply insert_subseteq|lia].
    + intros Hfree c. cbn. rewrite Enext, Ecells. intros Hle. rewrite lookup_insert_ne by lia. by apply Hfree.
    + cbn. by rewrite lookup_insert_eq.
    + done.
    + done.
Qed.

(** Once answered, an entry gives the same answer and leaves the store as it is. *)
Definition settled self (dist : LazyPrioritizedDist) (st : Store) (answer : option PrioritizedDist) : Prop :=
  match cell_of dist with Some c => st_cells st !! c = Some answer | None => answer = Some (start_of dist) end.

Lemma settled_again self dist st answer : settled self dist st answer -> get_lazy self dist st = Some (answer, st).
Proof.
  unfold settled. destruct dist as [flat|simple|flat simple]; cbn; [by intros ->|..]; intros Hc; unfold get_simple, get_or_init; by rewrite Hc.
Qed.

Lemma settled_grows self dist st st' answer : settled self dist st answer -> grows st st' -> settled self dist st' answer.
Proof. unfold settled. intros H (_&Hsub&_). destruct (cell_of dist) as [c|]; [|done]. by eapply lookup_weaken. Qed.

Lemma get_lazy_ok maps self st e : store_ok maps st -> self ∈ maps -> e ∈ lazy_map self ->
  spec (get_lazy self (snd e)) st (fun answer st' => store_ok maps st' /\ grows st st' /\ (free_unset st -> free_unset st') /\ settled self (snd e) st' answer /\ answers self (snd e) answer /\ answer_ok (st_interner st') answer).
Proof.
  intros Hst Hself He. pose proof Hst as (Hs&Hm&_&Hc). rewrite Forall_forall in Hm. destruct (Hm self Hself) as (_&_&Hr&Hentries). rewrite Forall_forall in Hentries.
  pose proof (Hentries e He) as (Hok&Hf&Hd). unfold settled. destruct (snd e) as [flat|simple|flat simple] eqn:Ee; cbn [get_lazy cell_of start_of] in *.
  - apply spec_ret. split_and!; [done|apply grows_refl|done|done|exists flat; split; [done|]; split; [done|by intros []]|done].
  - destruct Hd as [Hd Hn]. eapply spec_mono; [apply (get_simple_ok maps self st e None simple Hst Hself He); rewrite ?Ee; cbn; [done|done|by intros datum ->|done|done]|]. intros answer st'. by rewrite Ee.
  - destruct Hd as [Hd Hn]. eapply spec_mono; [apply (get_simple_ok maps self st e (Some flat) simple Hst Hself He); rewrite ?Ee; cbn; [done|done|by intros datum ->|done|done]|]. intros answer st'. by rewrite Ee.
Qed.

(** ** Making a map *)

Definition datum_ok (datum : SimpleMetadatum Metadata) : Prop := version_wf (datum_version datum) /\ Forall file_small (VersionFiles_all (datum_files datum)).

(** The map while it is made: its entries can be answered, by cells from [lo] on. *)
Definition partial_ok self (s : Interner) (lo next : N) (m : list (Version * LazyPrioritizedDist)) : Prop :=
  bt_valid version_wf m /\ bt_sorted m /\ Forall (fun e => entry_ok self s next (snd e)) m /\ NoDup (marks cell_of m) /\ Forall (fun c => lo <= c /\ c < next) (marks cell_of m).

Lemma default_state_ok s : wf s -> state_ok false s PrioritizedDist.default.
Proof. intros Hs. split_and!; [done|by apply terminal_valid|done|done]. Qed.

Lemma simple_step self s lo next m i datum : partial_ok self s lo next m -> wf s -> simple_metadata self !! i = Some datum -> datum_ok datum -> lo <= next ->
  partial_ok self s lo (next + 1) (bt_insert m (datum_version datum) (LP_OnlySimple {| datum_index := i; dist_cell := next |})).
Proof.
  intros (Hv&Hsort&He&Hnd&Hc) Hs Hi [Hvd Hf] Hlo. rewrite Forall_forall in Hc.
  assert (next ∉ marks cell_of m) as Hfresh by (intros Hin; destruct (Hc _ Hin); lia).
  split_and!.
  - by apply bt_insert_valid.
  - by apply (bt_insert_sorted version_wf value cmp_value).
  - rewrite Forall_forall in He |- *. intros e Hin. apply bt_insert_elem in Hin as [_ [->|Hin]].
    + split_and!; [by apply default_state_ok|cbn; by rewrite Hi|cbn; by eapply lookup_lt_Some|cbn; lia].
    + eapply entry_ok_mono; [by apply He|done|done|lia].
  - apply marks_insert; [done|]. by intros c [= <-].
  - apply Forall_forall. intros c (e&Hin&Hce)%marks_elem. apply bt_insert_elem in Hin as [_ [Ee|Hin]].
    + rewrite Ee in Hce. injection Hce as <-. cbn. lia.
    + destruct (Hc c); [apply marks_elem; eauto|]. lia.
Qed.

Lemma simple_loop_ok self lo data : forall i m stable local core st, wf (st_interner st) -> lo <= st_next st ->
  (forall j datum, data !! j = Some datum -> simple_metadata self !! (i + j)%nat = Some datum) -> Forall datum_ok data -> partial_ok self (st_interner st) lo (st_next st) m ->
  Forall (fun e => exists simple, snd e = LP_OnlySimple simple) m ->
  exists m' core' next, VersionMap.simple_loop i data m stable local core st =
      Some ((m', stable || existsb (fun d => is_stable (datum_version d)) data, local || existsb (fun d => is_local (datum_version d)) data, core'), mkStore (st_interner st) (st_cells st) next) /\
    st_next st <= next /\ partial_ok self (st_interner st) lo next m' /\ Forall (fun e => exists simple, snd e = LP_OnlySimple simple) m'.
Proof.
  induction data as [|datum data IH]; intros i m stable local core st Hs Hlo Hj Hok Hm Hsimple; cbn [VersionMap.simple_loop existsb].
  - rewrite !orb_false_r. exists m, core, (st_next st). split_and!; [by destruct st|lia|done|done].
  - apply Forall_cons in Hok as [Hd Hok]. unfold mbind', once_new. pose proof (Hj 0%nat datum eq_refl) as Hi. rewrite Nat.add_0_r in Hi.
    edestruct (IH (S i) (bt_insert m (datum_version datum) (LP_OnlySimple {| datum_index := i; dist_cell := st_next st |})) (stable || is_stable (datum_version datum)) (local || is_local (datum_version datum))
      (match datum_metadata datum with Some x => (datum_version datum, x) :: core | None => core end) (mkStore (st_interner st) (st_cells st) (st_next st + 1))) as (m'&core'&next&E&Hle&Hp&Hs').
    + done.
    + cbn. lia.
    + intros j d Hd'. rewrite Nat.add_succ_comm. by apply Hj.
    + done.
    + by apply simple_step.
    + rewrite Forall_forall in Hsimple |- *. intros e Hin. apply bt_insert_elem in Hin as [_ [->|Hin]]; [by eexists|by apply Hsimple].
    + exists m', core', next. split_and!; [|cbn in Hle; lia|done|done]. rewrite E. cbn. by rewrite <- !orb_assoc.
Qed.

Definition flat_ok (s : Interner) (e : Version * PrioritizedDist) : Prop := version_wf (fst e) /\ state_ok false s (snd e).

(** The keys of the flat distributions still to come are absent, or only simple. *)
Definition mergeable (flat : list (Version * PrioritizedDist)) (m : list (Version * LazyPrioritizedDist)) : Prop :=
  Forall (fun e => match bt_get m (fst e) with None | Some (LP_OnlySimple _) => True | _ => False end) flat.

Lemma mergeable_insert flat m k dist : bt_valid version_wf m -> bt_sorted m -> version_wf k -> Forall (fun e => version_wf (fst e)) flat -> Forall (fun e => cmp_eqb k (fst e) = false) flat ->
  mergeable flat m -> mergeable flat (bt_insert m k dist).
Proof.
  intros Hv Hs Hk Hf Hne Hm. unfold mergeable in *. rewrite Forall_forall in Hf, Hne, Hm |- *. intros e He.
  rewrite (bt_get_insert version_wf value cmp_value) by auto. rewrite (Hne e He). by apply Hm.
Qed.

Lemma mergeable_remove flat m k : bt_valid version_wf m -> version_wf k -> Forall (fun e => version_wf (fst e)) flat -> Forall (fun e => cmp_eqb k (fst e) = false) flat -> mergeable flat m -> mergeable flat (bt_remove m k).
Proof.
  intros Hv Hk Hf Hne Hm. unfold mergeable in *. rewrite Forall_forall in Hf, Hne, Hm |- *. intros e He. rewrite (bt_get_remove version_wf value cmp_value) by auto. by apply Hm.
Qed.

Lemma partial_remove self s lo next m k : partial_ok self s lo next m -> partial_ok self s lo next (bt_remove m k) /\
  forall k' v c, get_key_value m k = Some (k', v) -> cell_of v = Some c -> c ∉ marks cell_of (bt_remove m k).
Proof.
  intros (Hv&Hsort&He&Hnd&Hc). rewrite Forall_forall in He. rewrite Forall_forall in Hc. destruct (get_key_value m k) as [[k' v]|] eqn:E.
  - pose proof (bt_remove_perm m k k' v E) as Hp. assert (marks cell_of m ≡ₚ marks cell_of ((k', v) :: bt_remove m k)) as Hpm by (unfold marks; by rewrite Hp at 1).
    rewrite Hpm in Hnd. unfold marks in Hnd. cbn in Hnd. split.
    + split_and!; [by apply bt_remove_valid|by apply bt_remove_sorted|apply Forall_forall; intros e Hin; apply He; by eapply bt_remove_elem| |].
      * destruct (cell_of v); [by apply NoDup_cons in Hnd as [_ Hnd]|done].
      * apply Forall_forall. intros c (e&Hin&Hce)%marks_elem. apply Hc, marks_elem. exists e. split; [by eapply bt_remove_elem|done].
    + intros k0 v0 c [= <- <-] Hcell. rewrite Hcell in Hnd. by apply NoDup_cons in Hnd as [Hn _].
  - split; [|done]. assert (bt_remove m k = m) as ->; [|split_and!; [done|done|by apply Forall_forall|done|by apply Forall_forall]].
    clear -E. induction m as [|[k0 v0] m IH]; cbn in *; [done|]. destruct (cmp_eqb k0 k); [done|]. by rewrite IH.
Qed.

Lemma partial_insert self s lo next m k dist : partial_ok self s lo next m -> version_wf k -> entry_ok self s next dist ->
  (forall c, cell_of dist = Some c -> lo <= c /\ c ∉ marks cell_of m) -> partial_ok self s lo next (bt_insert m k dist).
Proof.
  intros (Hv&Hsort&He&Hnd&Hc) Hk Hdist Hcell. rewrite Forall_forall in He. rewrite Forall_forall in Hc. split_and!.
  - by apply bt_insert_valid.
  - by apply (bt_insert_sorted version_wf value cmp_value).
  - apply Forall_forall. intros e Hin. apply bt_insert_elem in Hin as [_ [->|Hin]]; [done|by apply He].
  - apply marks_insert; [done|]. intros c E. by apply Hcell.
  - apply Forall_forall. intros c (e&Hin&Hce)%marks_elem. apply bt_insert_elem in Hin as [_ [Ee|Hin]]; [|apply Hc, marks_elem; eauto].
    rewrite Ee in Hce. destruct (Hcell c Hce) as [Hl _]. split; [done|]. destruct Hdist as (_&_&Hd). by destruct dist; [|injection Hce as <-; apply Hd..].
Qed.

Lemma flat_loop_ok self s lo next flat : wf s -> Forall (flat_ok s) flat -> bt_sorted flat -> forall m stable, partial_ok self s lo next m -> mergeable flat m ->
  exists m', VersionMap.flat_loop flat m stable = Some (m', stable || existsb (fun e => is_stable (fst e)) flat) /\ partial_ok self s lo next m'.
Proof.
  intros Hs Hf. induction Hf as [|[k dist] flat [Hk Hd] Hf IH]; intros Hsort m stable Hm Hmerge; cbn [VersionMap.flat_loop existsb fst snd] in *; [rewrite orb_false_r; eauto|].
  cbn in Hk, Hd. destruct Hsort as [Hlt Hsort]. apply Forall_cons in Hmerge as [Hhead Hmerge]. cbn in Hhead. unfold bt_get in Hhead.
  assert (Forall (fun e => version_wf (fst e)) flat) as Hfv by (eapply Forall_impl; [exact Hf|]; by intros e [? _]).
  assert (Forall (fun e => cmp_eqb k (fst e) = false) flat) as Hne by (eapply Forall_impl; [exact Hlt|]; intros e He; unfold cmp_eqb; by rewrite He).
  pose proof Hm as (Hv&Hms&He&_). rewrite orb_assoc. destruct (get_key_value m k) as [[k' [x|simple|x simple]]|] eqn:E; cbn in Hhead; try done.
  - destruct (get_key_value_some m k k' _ E) as [Hin Heq]. rewrite Forall_forall in He. destruct (He _ Hin) as (_&Hfiles&Hcell). unfold bt_valid in Hv. rewrite Forall_forall in Hv. pose proof (Hv _ Hin) as Hk'. cbn in Hk'.
    destruct (partial_remove self s lo next m k Hm) as [Hrem Hfresh]. apply IH; [done| |].
    + apply partial_insert; [done|done|exact (conj Hd (conj Hfiles Hcell))|]. intros c [= <-]. split; [|by eapply Hfresh]. destruct Hm as (_&_&_&_&Hc). rewrite Forall_forall in Hc. by apply (Hc (dist_cell simple)), marks_elem; eexists.
    + assert (Forall (fun e => cmp_eqb k' (fst e) = false) flat) as Hne'.
      { rewrite Forall_forall in Hne, Hfv |- *. intros e Hin'. specialize (Hne e Hin'). specialize (Hfv e Hin'). cbn in Hne, Hfv. unfold cmp_eqb in *. rewrite cmp_value in * by done.
        destruct (cmp (value k') (value k)) eqn:Ek; try done. by rewrite (cmp_eq_l _ _ _ Ek). }
      apply mergeable_insert; [by apply bt_remove_valid, Forall_forall|by apply bt_remove_sorted|done|done|done|]. apply mergeable_remove; try done. by apply Forall_forall.
  - apply IH; [done| |by apply mergeable_insert]. apply partial_insert; [done|done|exact (conj Hd (conj (Forall_nil_2 _) I))|done].
Qed.

Lemma all_cells_elem maps self c : self ∈ maps -> c ∈ marks cell_of (lazy_map self) -> c ∈ all_cells maps.
Proof. intros Hself Hc. apply list_elem_of_bind. eauto. Qed.

Lemma all_cells_bound maps st c : store_ok maps st -> c ∈ all_cells maps -> c < st_next st.
Proof.
  intros (_&Hm&_&_) (self&Hc&Hself)%list_elem_of_bind. rewrite Forall_forall in Hm. destruct (Hm self Hself) as (_&_&_&He). rewrite Forall_forall in He.
  apply marks_elem in Hc as (e&Hin&Hcell). destruct (He e Hin) as (_&_&Hd). by destruct (snd e); [|injection Hcell as <-; apply Hd..].
Qed.

Lemma store_ok_add maps st self next : store_ok maps st -> free_unset st -> st_next st <= next -> range_ok (rp_range (requires_python self)) ->
  partial_ok self (st_interner st) (st_next st) next (lazy_map self) -> store_ok (self :: maps) (mkStore (st_interner st) (st_cells st) next).
Proof.
  intros Hst Hfree Hle Hr (Hv&Hsort&He&Hnd&Hc). pose proof Hst as (Hs&Hm&Hn&Hcells). rewrite Forall_forall in Hc. split_and!; cbn.
  - done.
  - constructor; [by split_and!|]. eapply Forall_impl; [exact Hm|]. intros x Hx. exact (map_ok_mono _ _ _ _ _ Hx Hs (reflexivity _) Hle).
  - unfold all_cells. cbn. apply NoDup_app. split_and!; [done| |done]. intros c Hin Hold. destruct (Hc c Hin) as [Hge _]. pose proof (all_cells_bound maps st c Hst Hold). lia.
  - intros self' e c answer [->|Hself]%elem_of_cons Hin Hcell Hl; [|by apply (Hcells self' e c)].
    destruct (Hc c) as [Hge _]; [apply marks_elem; eauto|]. by rewrite (Hfree c Hge) in Hl.
Qed.

End states.

(** ** Theorems on version maps *)

Section theorems.
Context {RV RS : Type} {SV : RangeSet Version RV} {SS : RangeSet text RS}.
Context (okV : RV -> Prop) (okS : RS -> Prop) (ordered : bool).
Context {LV : RangeSetLaws Version RV version_wf okV} {LS : RangeSetLaws text RS (fun _ => True) okS}.
Context {Metadata : Type}.
Implicit Types (lazy : VersionMapLazy Metadata) (maps : list (VersionMapLazy Metadata)).
Abbreviation Store := (@Store RV RS).
Abbreviation Interner := (@Interner RV RS).
Abbreviation wf := (interner_wf okV okS ordered).

(** The maps of a run and its store: maps are made, asked for versions, and the
    interner is used for other things. *)
Inductive reachable_maps : list (VersionMapLazy Metadata) -> Store -> Prop :=
| maps_start s : wf s -> reachable_maps [] (mkStore s ∅ 0)
| maps_make maps st data name index tags python yanks hasher cutoff flat options lazy st' : reachable_maps maps st ->
    Forall datum_ok data -> range_ok (rp_range python) -> Forall (flat_ok okV okS ordered (st_interner st)) (default [] flat) -> bt_sorted (default [] flat) ->
    VersionMap.from_simple_metadata data name index tags python yanks hasher cutoff flat options st = Some (VM_Lazy lazy, st') -> reachable_maps (lazy :: maps) st'
| maps_get maps st lazy version answer st' : reachable_maps maps st -> lazy ∈ maps -> version_wf version -> lazy_get lazy version st = Some (answer, st') -> reachable_maps maps st'
| maps_other maps st s' : reachable_maps maps st -> wf s' -> extends (st_interner st) s' -> reachable_maps maps (mkStore s' (st_cells st) (st_next st)).

Abbreviation store_ok := (store_ok okV okS ordered).

(** Some version of the index is so. *)
Definition some_datum (p : Version -> bool) (data : list (SimpleMetadatum Metadata)) : bool := existsb (fun d => p (datum_version d)) data.

(** What [from_simple_metadata] returns. *)
Lemma from_simple_metadata_ok maps st data name index tags python yanks hasher cutoff flat options : store_ok maps st -> free_unset st ->
  Forall datum_ok data -> range_ok (rp_range python) -> Forall (flat_ok okV okS ordered (st_interner st)) (default [] flat) -> bt_sorted (default [] flat) ->
  exists lazy next, VersionMap.from_simple_metadata data name index tags python yanks hasher cutoff flat options st = Some (VM_Lazy lazy, mkStore (st_interner st) (st_cells st) next) /\
    st_next st <= next /\ store_ok (lazy :: maps) (mkStore (st_interner st) (st_cells st) next) /\
    lazy_stable lazy = some_datum is_stable data || existsb (fun e => is_stable (fst e)) (default [] flat) /\
    lazy_local lazy = some_datum is_local data.
Proof.
  intros Hst Hfree Hdata Hr Hflat Hsort. pose proof Hst as (Hs&_).
  set (self := mkLazy [] false false [] data (no_binary_package options name) (no_build_package options name) index tags cutoff yanks hasher python : VersionMapLazy Metadata).
  destruct (simple_loop_ok okV okS ordered self (st_next st) data 0 [] false false [] st) as (m&core&next&E&Hle&Hm&Hsimple); [done|lia|done|done|split_and!; [constructor|done|constructor|constructor|constructor]|done|].
  destruct (flat_loop_ok okV okS ordered self (st_interner st) (st_next st) next (default [] flat) Hs Hflat Hsort m (false || existsb (fun d : SimpleMetadatum Metadata => is_stable (datum_version d)) data) Hm) as (m'&E'&Hm').
  { apply Forall_forall. intros e _. unfold bt_get. destruct (get_key_value m (fst e)) as [[k v]|] eqn:Eg; [|done]. apply get_key_value_some in Eg as [Hin _]. rewrite Forall_forall in Hsimple. cbn.
    destruct (Hsimple _ Hin) as [simple Hsimp]. cbn in Hsimp. by subst v. }
  unfold VersionMap.from_simple_metadata, mbind'. rewrite E. unfold mlift. rewrite E'. cbn. do 2 eexists. split; [done|]. split_and!; [done| |done|done].
  apply (store_ok_add okV okS ordered maps st); [done|done|done|done|exact Hm'].
Qed.

Lemma lazy_get_ok maps st lazy version : store_ok maps st -> lazy ∈ maps -> version_wf version ->
  spec (lazy_get lazy version) st (fun answer st' => store_ok maps st' /\ grows st st' /\ (free_unset st -> free_unset st') /\
    match get_key_value (lazy_map lazy) version with
    | Some (_, dist) => settled lazy dist st' answer /\ answers lazy dist answer /\ answer_ok okV okS ordered (st_interner st') answer
    | None => answer = None /\ st' = st
    end).
Proof.
  intros Hst Hlazy Hv. unfold lazy_get, bt_get. destruct (get_key_value (lazy_map lazy) version) as [[k dist]|] eqn:E; cbn.
  - destruct (get_key_value_some _ _ _ _ E) as [Hin _]. eapply spec_mono; [exact (get_lazy_ok okV okS ordered maps lazy st (k, dist) Hst Hlazy Hin)|]. cbn. naive_solver.
  - apply spec_ret. split_and!; [done|apply grows_refl|done|done|done].
Qed.

Lemma reachable_maps_ok maps st : reachable_maps maps st -> store_ok maps st /\ free_unset st.
Proof.
  induction 1 as [s Hs|maps st data name index tags python yanks hasher cutoff flat options lazy st' _ [Hst Hfree] Hdata Hr Hflat Hsort E|maps st lazy version answer st' _ [Hst Hfree] Hlazy Hv E|maps st s' _ [Hst Hfree] Hs' Hx].
  - split; [|by intros c _]. split_and!; [done|done|constructor|]. by intros self e c answer Hself%not_elem_of_nil.
  - destruct (from_simple_metadata_ok maps st data name index tags python yanks hasher cutoff flat options Hst Hfree Hdata Hr Hflat Hsort) as (lazy'&next&E'&Hle&Hst'&_). rewrite E in E'. injection E' as -> ->.
    split; [done|]. intros c Hc. cbn in *. apply Hfree. lia.
  - pose proof (lazy_get_ok maps st lazy version Hst Hlazy Hv) as H. unfold spec in H. rewrite E in H. destruct H as (H1&_&H2&_). auto.
  - split; [by apply store_ok_interner|done].
Qed.

(** *** The map and what it was made from *)

(** The entry of the index for a version: the last one with an equal version. *)
Definition datum_of (data : list (SimpleMetadatum Metadata)) (version : Version) : option (SimpleMetadatum Metadata) :=
  last (List.filter (fun datum => cmp_eqb (datum_version datum) version) data).

Lemma datum_of_snoc data datum version :
  datum_of (data ++ [datum]) version = if cmp_eqb (datum_version datum) version then Some datum else datum_of data version.
Proof. unfold datum_of. rewrite List.filter_app. cbn. destruct (cmp_eqb _ _); [apply last_snoc|by rewrite app_nil_r]. Qed.

(** An entry of the map against the entry of the index and the flat distribution of the
    same version. *)
Definition linked (data : list (SimpleMetadatum Metadata)) (datum : option (SimpleMetadatum Metadata)) (flat : option PrioritizedDist) (entry : option LazyPrioritizedDist) : Prop :=
  match entry with
  | None => datum = None /\ flat = None
  | Some (LP_OnlyFlat dist) => datum = None /\ flat = Some dist
  | Some (LP_OnlySimple simple) => (data !! datum_index simple = datum /\ is_Some datum) /\ flat = None
  | Some (LP_Both dist simple) => (data !! datum_index simple = datum /\ is_Some datum) /\ flat = Some dist
  end.

Lemma simple_loop_linked (data : list (SimpleMetadatum Metadata)) : forall rest done_ m stable local core (st : Store) result (st' : Store),
  data = done_ ++ rest -> Forall (fun d => version_wf (datum_version d)) rest -> bt_valid version_wf m -> bt_sorted m ->
  (forall version, version_wf version -> linked data (datum_of done_ version) None (bt_get m version)) ->
  VersionMap.simple_loop (length done_) rest m stable local core st = Some (result, st') ->
  bt_valid version_wf result.1.1.1 /\ bt_sorted result.1.1.1 /\ forall version, version_wf version -> linked data (datum_of data version) None (bt_get result.1.1.1 version).
Proof.
  induction rest as [|datum rest IH]; intros done_ m stable local core st result st' -> Hwf Hv Hs Hl E; cbn [VersionMap.simple_loop] in E.
  - injection E as <- <-. rewrite app_nil_r in Hl |- *. by split_and!.
  - unfold mbind', once_new in E. apply Forall_cons in Hwf as [Hd Hwf].
    replace (S (length done_)) with (length (done_ ++ [datum])) in E by (rewrite length_app; cbn; lia).
    refine (IH (done_ ++ [datum]) _ _ _ _ _ _ _ _ Hwf _ _ _ E).
    + by rewrite <- app_assoc.
    + by apply bt_insert_valid.
    + by apply (bt_insert_sorted version_wf value cmp_value).
    + intros version Hver. rewrite (bt_get_insert version_wf value cmp_value) by done. rewrite datum_of_snoc. destruct (cmp_eqb (datum_version datum) version); [|by apply Hl].
      split; [|done]. cbn. split; [|by eexists]. by apply list_lookup_middle.
Qed.

Lemma bt_get_below (flat : list (Version * PrioritizedDist)) k version : bt_valid version_wf flat -> version_wf k -> version_wf version ->
  Forall (fun e => cmp k (fst e) = Lt) flat -> cmp_eqb k version = true -> bt_get flat version = None.
Proof.
  intros Hv Hk Hver Hlt He. unfold bt_get. induction flat as [|[k0 v0] flat IH]; [done|]. cbn. apply Forall_cons in Hlt as [H0 Hlt]. apply Forall_cons in Hv as [Hv0 Hv]. cbn in H0, Hv0.
  assert (cmp_eqb k0 version = false) as ->; [|by apply IH]. unfold cmp_eqb in *. rewrite cmp_value in * by done. destruct (cmp (value k) (value version)) eqn:E; try done.
  rewrite <- (cmp_eq_r _ _ _ E). rewrite cmp_opp, H0. done.
Qed.

Lemma flat_loop_linked (data : list (SimpleMetadatum Metadata)) (datum : Version -> option (SimpleMetadatum Metadata)) : forall flat, bt_valid version_wf flat -> bt_sorted flat ->
  forall m stable before result, bt_valid version_wf m -> bt_sorted m ->
  (forall version, version_wf version -> linked data (datum version) (before version) (bt_get m version)) ->
  (forall version version', version_wf version -> version_wf version' -> cmp_eqb version version' = true -> datum version = datum version' /\ before version = before version') ->
  VersionMap.flat_loop flat m stable = Some result ->
  forall version, version_wf version -> linked data (datum version) (match bt_get flat version with Some dist => Some dist | None => before version end) (bt_get result.1 version).
Proof.
  induction flat as [|[k dist] flat IH]; intros Hfv Hfs m stable before result Hv Hs Hl Hp E; cbn [VersionMap.flat_loop] in E; [injection E as <-; exact Hl|].
  apply Forall_cons in Hfv as [Hk Hfv]. cbn in Hk. destruct Hfs as [Hlt Hfs].
  set (before' := fun version => if cmp_eqb k version then Some dist else before version).
  assert (forall version, version_wf version -> (match bt_get ((k, dist) :: flat) version with Some d => Some d | None => before version end) = match bt_get flat version with Some d => Some d | None => before' version end) as Hbefore.
  { intros version Hver. unfold before'. unfold bt_get at 1. cbn [get_key_value]. destruct (cmp_eqb k version) eqn:Ek; [|done]. by rewrite (bt_get_below flat k version). }
  assert (forall x y z, version_wf x -> version_wf y -> version_wf z -> cmp_eqb x y = true -> cmp_eqb x z = cmp_eqb y z) as Heq.
  { intros x y z Hx Hy Hz. unfold cmp_eqb. rewrite !cmp_value by done. destruct (cmp (value x) (value y)) eqn:Exy; try done. intros _. by rewrite (cmp_eq_l _ _ _ Exy). }
  assert (forall x y, version_wf x -> version_wf y -> cmp_eqb x y = true -> cmp_eqb y x = true) as Hsym.
  { intros x y Hx Hy. unfold cmp_eqb. rewrite !cmp_value by done. rewrite (cmp_opp (value x) (value y)). by destruct (cmp (value x) (value y)). }
  assert (forall x y z, version_wf x -> version_wf y -> version_wf z -> cmp_eqb x y = true -> cmp_eqb z x = cmp_eqb z y) as Heqr.
  { intros x y z Hx Hy Hz. unfold cmp_eqb. rewrite !cmp_value by done. destruct (cmp (value x) (value y)) eqn:Exy; try done. intros _. by rewrite (cmp_eq_r _ _ _ Exy). }
  assert (forall version version', version_wf version -> version_wf version' -> cmp_eqb version version' = true -> datum version = datum version' /\ before' version = before' version') as Hp'.
  { intros x y Hx Hy Hxy. destruct (Hp x y Hx Hy Hxy) as [Hd Hb]. split; [done|]. unfold before'. by rewrite (Heqr x y k), Hb. }
  intros version Hver. rewrite Hbefore by done. destruct (get_key_value m k) as [[k' [x|simple|x simple]]|] eqn:Eg; try done.
  - destruct (get_key_value_some m k k' _ Eg) as [Hin Hkk]. pose proof Hv as Hv'. unfold bt_valid in Hv'. rewrite Forall_forall in Hv'. pose proof (Hv' _ Hin) as Hk'. cbn in Hk'.
    refine (IH Hfv Hfs _ _ before' result _ _ _ Hp' E version Hver).
    + by apply bt_insert_valid, Hk'; apply bt_remove_valid.
    + apply (bt_insert_sorted version_wf value cmp_value); [by apply bt_remove_valid|done|by apply bt_remove_sorted].
    + intros v Hvv. rewrite (bt_get_insert version_wf value cmp_value) by (done || by apply bt_remove_valid || by apply bt_remove_sorted). unfold before'.
      rewrite (Heq k' k v) by done. destruct (cmp_eqb k v) eqn:Ekv.
      * pose proof (Hl k Hk) as Hlk. unfold bt_get in Hlk. rewrite Eg in Hlk. destruct Hlk as [[Hd Hsome] _]. destruct (Hp k v Hk Hvv Ekv) as [Hdd _]. rewrite <- Hdd. by split; [split|].
      * rewrite (bt_get_remove version_wf value cmp_value) by done. by apply Hl.
  - refine (IH Hfv Hfs _ _ before' result _ _ _ Hp' E version Hver).
    + by apply bt_insert_valid.
    + by apply (bt_insert_sorted version_wf value cmp_value).
    + intros v Hvv. rewrite (bt_get_insert version_wf value cmp_value) by done. unfold before'. destruct (cmp_eqb k v) eqn:Ekv; [|by apply Hl].
      pose proof (Hl k Hk) as Hlk. unfold bt_get in Hlk. rewrite Eg in Hlk. destruct Hlk as [Hd _]. destruct (Hp k v Hk Hvv Ekv) as [Hdd _]. rewrite <- Hdd. by split.
Qed.

Lemma datum_of_equal data version version' : Forall (fun d => version_wf (datum_version d)) data -> version_wf version -> version_wf version' -> cmp_eqb version version' = true -> datum_of data version = datum_of data version'.
Proof.
  intros Hd Hv Hv' He. unfold datum_of. f_equal. induction Hd as [|d data Hd0 Hd IH]; cbn; [done|]. rewrite IH. replace (cmp_eqb (datum_version d) version') with (cmp_eqb (datum_version d) version); [done|].
  unfold cmp_eqb in *. rewrite !cmp_value in * by done. destruct (cmp (value version) (value version')) eqn:E; try done. by rewrite (cmp_eq_r _ _ _ E).
Qed.

(** Every entry of a map is for the files that the index has for its version, and the
    distribution that the flat index has for it. *)
Lemma from_simple_metadata_linked data name index tags python yanks hasher cutoff flat options (st : Store) lazy (st' : Store) version :
  VersionMap.from_simple_metadata data name index tags python yanks hasher cutoff flat options st = Some (VM_Lazy lazy, st') ->
  Forall (fun d => version_wf (datum_version d)) data -> bt_valid version_wf (default [] flat) -> bt_sorted (default [] flat) -> version_wf version ->
  simple_metadata lazy = data /\ linked data (datum_of data version) (bt_get (default [] flat) version) (bt_get (lazy_map lazy) version).
Proof.
  unfold VersionMap.from_simple_metadata, mbind', mlift. intros E Hd Hfv Hfs Hver. destruct (VersionMap.simple_loop 0 data [] false false [] st) as [[[[[m stable] local] core] st1]|] eqn:E1; [|done].
  apply (simple_loop_linked data data []) in E1; [|done|done|constructor|done|by intros]. destruct E1 as (Hv&Hs&Hl). cbn in Hv, Hs, Hl.
  destruct (VersionMap.flat_loop (default [] flat) m stable) as [[m' stable']|] eqn:E2; [|done]. cbn in E. injection E as <- _. cbn. split; [done|].
  pose proof (flat_loop_linked data (datum_of data) _ Hfv Hfs m stable (fun _ => None) (m', stable') Hv Hs Hl) as H. specialize (H (fun x y Hx Hy Hxy => conj (datum_of_equal data x y Hd Hx Hy Hxy) eq_refl) E2 version Hver).
  cbn in H. by destruct (bt_get (default [] flat) version).
Qed.

(** The answer for a version, from the entry that the index has for it and the flat
    distribution of it: nothing without both, the flat distribution without the former,
    and otherwise the distribution that the files of the entry make when they are added
    to the flat one, up to the node of its markers, or nothing if it has no files. *)
Definition version_answer (lazy : VersionMapLazy Metadata) (datum : option (SimpleMetadatum Metadata)) (flat answer : option PrioritizedDist) : Prop :=
  match datum with
  | None => answer = flat
  | Some datum =>
      exists d, expected_files lazy (default PrioritizedDist.default flat) (VersionFiles_all (datum_files datum)) = Some d /\
        match answer with
        | Some d' => same_dist d' d /\ PrioritizedDist.is_empty d = false
        | None => PrioritizedDist.is_empty d = true
        end
  end.

Lemma linked_answer lazy datum flat dist (st : Store) answer : linked (simple_metadata lazy) datum flat (Some dist) -> settled lazy dist st answer -> answers lazy dist answer -> version_answer lazy datum flat answer.
Proof.
  unfold linked, settled, answers, version_answer, files_of. intros Hl Hset (d&Ed&Ha). destruct dist as [x|simple|x simple]; cbn in *.
  - by destruct Hl as [-> ->].
  - destruct Hl as [[Hd [dm ->]] ->]. rewrite Hd in Ed. exists d. split; [done|]. destruct answer; [|done]. destruct Ha as [Ha He]. split; [done|]. apply He. by eexists.
  - destruct Hl as [[Hd [dm ->]] ->]. rewrite Hd in Ed. exists d. split; [done|]. destruct answer; [|done]. destruct Ha as [Ha He]. split; [done|]. apply He. by eexists.
Qed.

(** C9: A version map answers as if every distribution had been made in advance. In every
    state that a run reaches, asking a lazy map that was made from the entries of an index
    and flat distributions (well-formed versions, the flat ones in order) for a
    well-formed version does not panic. The answer is nothing if neither has the version,
    the flat distribution if only that is there, and otherwise the distribution that the
    files of the last entry of the index with that version make when added to the flat
    one, up to the node of its markers, or nothing if that entry has no files; and asking
    again in any later store gives the same answer and leaves the store unchanged. *)
Theorem version_map_answers (maps : list (VersionMapLazy Metadata)) (st st0 st1 : Store) (lazy : VersionMapLazy Metadata) (version : Version)
    (data : list (SimpleMetadatum Metadata)) (name : PackageName) (index : IndexUrl) (tags : option Tags) (python : RequiresPython)
    (yanks : AllowedYanks) (hasher : HashStrategy) (cutoff : option Z) (flat : option (list (Version * PrioritizedDist))) (options : BuildOptions) :
  reachable_maps maps st -> lazy ∈ maps -> version_wf version ->
  VersionMap.from_simple_metadata data name index tags python yanks hasher cutoff flat options st0 = Some (VM_Lazy lazy, st1) ->
  Forall (fun datum => version_wf (datum_version datum)) data -> bt_valid version_wf (default [] flat) -> bt_sorted (default [] flat) ->
  exists answer st', lazy_get lazy version st = Some (answer, st') /\ reachable_maps maps st' /\
    version_answer lazy (datum_of data version) (bt_get (default [] flat) version) answer /\
    forall later, grows st' later -> lazy_get lazy version later = Some (answer, later).
Proof.
  intros Hreach Hlazy Hv Hmade Hdata Hfv Hfs. destruct (reachable_maps_ok maps st Hreach) as [Hst _]. destruct (spec_elim _ _ _ (lazy_get_ok maps st lazy version Hst Hlazy Hv)) as (answer&st'&E&Hst'&_&_&H).
  destruct (from_simple_metadata_linked _ _ _ _ _ _ _ _ _ _ _ _ _ version Hmade Hdata Hfv Hfs Hv) as [<- Hl].
  exists answer, st'. split; [done|]. split; [by eapply maps_get|]. unfold bt_get at 2 in Hl. unfold lazy_get, bt_get at 2. destruct (get_key_value (lazy_map lazy) version) as [[k dist]|]; cbn in *.
  - destruct H as (Hset&Hans&_). split; [by eapply linked_answer|]. intros later Hg. by eapply settled_again, settled_grows.
  - destruct H as [-> _]. destruct Hl as [-> ->]. by split.
Qed.

(** Making a version map does not panic, in any state that a run reaches: the flat
    distributions are merged with the entries of the index without meeting the case that
    the code declares unreachable. The map knows whether some version is stable, and its
    local flag counts the versions of the index. *)
Theorem version_map_made (maps : list (VersionMapLazy Metadata)) (st : Store) (data : list (SimpleMetadatum Metadata)) (name : PackageName) (index : IndexUrl) (tags : option Tags) (python : RequiresPython)
    (yanks : AllowedYanks) (hasher : HashStrategy) (cutoff : option Z) (flat : option (list (Version * PrioritizedDist))) (options : BuildOptions) :
  reachable_maps maps st -> Forall datum_ok data -> range_ok (rp_range python) -> Forall (flat_ok okV okS ordered (st_interner st)) (default [] flat) -> bt_sorted (default [] flat) ->
  exists lazy st', VersionMap.from_simple_metadata data name index tags python yanks hasher cutoff flat options st = Some (VM_Lazy lazy, st') /\ reachable_maps (lazy :: maps) st' /\
    lazy_stable lazy = some_datum is_stable data || existsb (fun e => is_stable (fst e)) (default [] flat) /\
    lazy_local lazy = some_datum is_local data.
Proof.
  intros Hreach Hdata Hr Hflat Hsort. destruct (reachable_maps_ok maps st Hreach) as [Hst Hfree].
  destruct (from_simple_metadata_ok maps st data name index tags python yanks hasher cutoff flat options Hst Hfree Hdata Hr Hflat Hsort) as (lazy&next&E&_&_&Hs&Hl).
  exists lazy. eexists. split; [done|]. split; [|done]. by eapply maps_make.
Qed.

End theorems.

(** ** Iteration *)

Section iteration.
Context {Metadata : Type}.

Definition entries (self : VersionMap Metadata) : list (Version * VersionMapDistHandle Metadata) :=
  match self with
  | VM_Eager eager => map (fun e => (fst e, DH_Eager (snd e))) (eager_map eager)
  | VM_Lazy lazy => map (fun e => (fst e, DH_Lazy lazy (snd e))) (lazy_map lazy)
  end.

Definition map_sorted (self : VersionMap Metadata) : Prop := bt_valid version_wf (entries self) /\ bt_sorted (entries self).

Context {R : Type} {S : RangeSet Version R} {A : AsSingleton R} (okR : R -> Prop) {L : RangeSetLaws Version R version_wf okR} {LA : AsSingletonLaws R okR}.

Lemma get_key_value_map {V W} (f : V -> W) (m : list (Version * V)) k :
  get_key_value (map (fun e => (fst e, f (snd e))) m) k = (fun e => (fst e, f (snd e))) <$> get_key_value m k.
Proof. induction m as [|[k0 v0] m IH]; cbn; [done|]. by destruct (cmp_eqb k0 k). Qed.

Lemma filter_map_keys {V W} (f : V -> W) (p : Version -> bool) (m : list (Version * V)) :
  List.filter (fun e => p (fst e)) (map (fun e => (fst e, f (snd e))) m) = map (fun e => (fst e, f (snd e))) (List.filter (fun e => p (fst e)) m).
Proof. induction m as [|[k0 v0] m IH]; cbn; [done|]. destruct (p k0); cbn; by rewrite IH. Qed.

Lemma iter_entries (self : VersionMap Metadata) (range : R) : VersionMap.iter self range =
  match as_singleton range with
  | Some version => Some (match get_key_value (entries self) version with Some e => [e] | None => [] end)
  | None => bt_range (entries self) (fst (bounding_range range)) (snd (bounding_range range))
  end.
Proof.
  assert (forall V W (f : V -> W) (m : list (Version * V)), map (fun '(version, dist) => (version, f dist)) m = map (fun e => (fst e, f (snd e))) m) as Hmap by (intros V W f m; apply map_ext; by intros []).
  unfold VersionMap.iter, entries, bt_range. destruct (as_singleton range) as [version|].
  - destruct self as [eager|lazy]; rewrite get_key_value_map; by destruct (get_key_value _ version) as [[k v]|].
  - destruct (bounding_range range) as [lo hi]. cbn [fst snd]. destruct self as [eager|lazy]; destruct (range_panics lo hi); cbn; try done; by rewrite Hmap, (filter_map_keys _ (fun k => segment_contains k (lo, hi))).
Qed.

Lemma bounding_range_spec (range : R) : okR range -> range_panics (fst (bounding_range range)) (snd (bounding_range range)) = false /\
  forall v, version_wf v -> rs_contains range v = true -> segment_contains v (bounding_range range) = true.
Proof.
  intros Hr. unfold bounding_range. rewrite rs_bounding_iter by done. pose proof (rs_iter_valid range Hr) as Hv. pose proof (rs_iter_ascending range Hr) as Ha.
  destruct (bounding (rs_iter range)) as [[lo hi]|] eqn:E; cbn [default fst snd]; [|done]. split; [by apply (bounding_no_panic version_wf value cmp_value (rs_iter range))|].
  intros v Hvv Hc. pose proof (rs_iter_count range v Hr Hvv) as Hcount. rewrite Hc in Hcount. assert (exists s, s ∈ rs_iter range /\ segment_contains v s = true) as (s&Hs&Hsv).
  { clear -Hcount. induction (rs_iter range) as [|s l IH]; [done|]. cbn in Hcount. destruct (segment_contains v s) eqn:Es; [exists s; split; [by apply elem_of_cons; left|done]|].
    destruct (IH Hcount) as (s'&Hs'&Hc'). exists s'. split; [by apply elem_of_cons; right|done]. }
  by apply (bounding_contains version_wf value cmp_value (rs_iter range) lo hi v s).
Qed.

(** [iter] does not panic on the bounds of a range, and yields entries of the map in
    increasing order of versions, with every entry whose version is in the range. *)
Lemma iter_ok (self : VersionMap Metadata) (range : R) : okR range -> map_sorted self ->
  exists items, VersionMap.iter self range = Some items /\ bt_sorted items /\ (forall e, e ∈ items -> e ∈ entries self) /\
    forall e, e ∈ entries self -> rs_contains range (fst e) = true -> e ∈ items.
Proof.
  intros Hr [Hv Hs]. rewrite iter_entries. destruct (as_singleton range) as [version|] eqn:Ea.
  - eexists. split; [done|]. pose proof (as_singleton_valid range version Hr Ea) as Hver. unfold bt_valid in Hv. rewrite Forall_forall in Hv.
    split_and!; [by destruct (get_key_value _ version) as [[]|]| |].
    + intros e He. destruct (get_key_value (entries self) version) as [[k h]|] eqn:E; [|by apply not_elem_of_nil in He]. apply list_elem_of_singleton in He as ->. by apply get_key_value_some in E as [Hin _].
    + intros [k h] Hin Hc. rewrite (as_singleton_contains range version k Hr (Hv _ Hin) Ea) in Hc.
      rewrite (get_key_value_in version_wf value cmp_value (entries self) k h version); [by apply list_elem_of_singleton|by apply Forall_forall|done|done|done|done].
  - destruct (bounding_range_spec range Hr) as [Hp Hc]. unfold bt_range. rewrite Hp. eexists. split; [done|]. split_and!; [by apply bt_filter_sorted| |].
    + intros e He. rewrite list_elem_of_In in He |- *. by apply filter_In in He as [He _].
    + intros e Hin Hce. apply list_elem_of_In, filter_In. split; [by apply list_elem_of_In|]. rewrite <- surjective_pairing. apply Hc; [|done]. unfold bt_valid in Hv. rewrite Forall_forall in Hv. by apply Hv.
Qed.

End iteration.

(** ** Concrete maps *)

(** A set with one segment that is one version. *)
#[export] Instance set_as_singleton {R} `{RangeSet Version R} : AsSingleton R := fun range =>
  match rs_iter range with
  | [(B_Included a, B_Included b)] => if cmp_eqb a b then Some a else None
  | _ => None
  end.

#[export] Instance set_as_singleton_laws {R} {S : RangeSet Version R} (ok : R -> Prop) {L : RangeSetLaws Version R version_wf ok} : AsSingletonLaws R ok.
Proof.
  split; unfold as_singleton, set_as_singleton.
  - intros r v Hr. pose proof (rs_iter_valid r Hr) as Hv. destruct (rs_iter r) as [|[[a|a|] [b|b|]] []]; try done. destruct (cmp_eqb a b); [|done]. intros [= <-]. apply Forall_cons in Hv as [[Ha _] _]. exact Ha.
  - intros r v w Hr Hw. pose proof (rs_iter_valid r Hr) as Hv. pose proof (rs_iter_count r w Hr Hw) as Hc. destruct (rs_iter r) as [|[[a|a|] [b|b|]] []]; try done.
    destruct (cmp_eqb a b) eqn:E; [|done]. intros [= <-]. apply Forall_cons in Hv as [[Ha Hb] _]. cbn in Ha, Hb, Hc. unfold segment_contains in Hc. cbn in Hc.
    unfold cmp_eqb, cmp_leb, cmp_geb in *. rewrite !cmp_value in * by done. assert (cmp (value a) (value b) = Eq) as E' by (by destruct (cmp (value a) (value b))).
    rewrite <- (cmp_eq_r (value a) (value b) (value w) E') in Hc. destruct (rs_contains r w), (cmp (value w) (value a)) eqn:Ew; cbn in Hc; done.
Qed.

Lemma example_wf r rs : version_wf (example (r :: rs)).
Proof. exact (proj1 (example_release_is r rs)). Qed.

Definition foo : PackageName := {| package_name := bs "foo" |}.
Definition build_all : BuildOptions := {| no_binary_option := NB_None; no_build_option := NO_None |}.

(** One version, with a wheel for CPython 3.12 on Linux. *)
Definition linux_datum (version : Version) : SimpleMetadatum unit :=
  {| datum_version := version;
     datum_files := {| version_wheels := [(wheel_filename linux_wheel, plain_file)]; version_source_dists := [] |};
     datum_metadata := None |}.

Definition sample_data : list (SimpleMetadatum unit) := [linux_datum (example [1; 0]); linux_datum (example [2; 0])].

Definition sample_store : @Store IV IS := mkStore start ∅ 0.

(** The map of the versions, and the store after it is made. *)
Definition make_sample (flat : option (list (Version * PrioritizedDist))) : option (VersionMap unit * @Store IV IS) :=
  VersionMap.from_simple_metadata sample_data foo (IU_Pypi []) None at_least_310 [] HS_None None flat build_all sample_store.

Lemma sample_data_ok : Forall datum_ok sample_data.
Proof. constructor; [|constructor; [|constructor]]; (split; [apply example_wf|]); by repeat constructor. Qed.

Lemma version_map_answers_witness :
  exists lazy st answer st', make_sample None = Some (VM_Lazy lazy, st) /\ lazy_get lazy (example [1; 0]) st = Some (answer, st') /\
    version_answer lazy (Some (linux_datum (example [1; 0]))) None answer /\ lazy_get lazy (example [1; 0]) st' = Some (answer, st').
Proof.
  destruct (from_simple_metadata_ok okIV okIS true [] sample_store sample_data foo (IU_Pypi []) None at_least_310 [] HS_None None None build_all) as (lazy&next&E&_);
    [exact (proj1 (reachable_maps_ok okIV okIS true [] sample_store (maps_start okIV okIS true _ (Interner_default_wf okIV okIS true))))|done|exact sample_data_ok|exact at_least_310_ok|constructor|constructor|].
  destruct (version_map_answers okIV okIS true [lazy] _ sample_store (mkStore (st_interner sample_store) (st_cells sample_store) next) lazy (example [1; 0]) sample_data foo (IU_Pypi []) None at_least_310 [] HS_None None None build_all
    (maps_make okIV okIS true [] sample_store sample_data foo (IU_Pypi []) None at_least_310 [] HS_None None None build_all lazy _ (maps_start okIV okIS true _ (Interner_default_wf okIV okIS true)) sample_data_ok at_least_310_ok (Forall_nil_2 _) I E)) as (answer&st'&Ea&_&Hans&Hlater);
    [by apply elem_of_cons; left|apply example_wf|exact E|repeat (apply Forall_cons_2; [apply example_wf|]); apply Forall_nil_2|constructor|exact I|].
  exists lazy, (mkStore (st_interner sample_store) (st_cells sample_store) next), answer, st'. split; [exact E|]. split; [exact Ea|]. split; [exact Hans|]. apply Hlater, grows_refl.
Defined.

(** A local version that only the flat index has is in the map, but the map does not say
    that it has local versions. *)
Lemma local_flag_ignores_flat :
  let local := with_local (example [1; 0]) (Segments [LSString (bs "cpu")]) in
  match make_sample (Some [(local, linux_dist)]) with
  | Some (map, _) => existsb is_local (VersionMap.versions map) = true /\ VersionMap.local map = false
  | None => False
  end.
Proof. vm_compute. split; reflexivity. Qed.
