(* ===== verification/CandidateSelector.v ===== *)
(** * The choice of a candidate ([uv-resolver/src/candidate_selector.rs])

    From the version maps of a package, one per index, the preferences of earlier
    resolutions and what is installed, to the version and the distribution that the
    resolver tries next. *)

From stdpp Require Import base numbers list strings gmap.
From S2P Require Import Prelude VersionTypes VersionSmall Version VersionFacts Specifier Names Text PlatformTags Tags Filename RangeSet MarkerTypes MarkerAlgebra PrioritizedDist OrderedMap PythonRange VersionMap.

#[local] Open Scope N_scope.

(** ** Environments and forks ([resolver/environment.rs], [fork_map.rs]) *)

(** [Kind] of a [ResolverEnvironment], with what the choice uses of it. *)
Inductive ResolverEnvironment := RE_Specific (marker_env : MarkerEnvironment) | RE_Universal (markers : NodeId).

(** [ForkMap] *)
Abbreviation ForkMap T := (list (PackageName * list (T * NodeId))).

Inductive ResolutionStrategy := RS_Highest | RS_Lowest | RS_LowestDirect (direct_dependencies : ForkMap unit).

Inductive PrereleaseStrategy :=
| PS_Disallow
| PS_Allow
| PS_IfNecessary
| PS_Explicit (packages : ForkMap unit)
| PS_IfNecessaryOrExplicit (packages : ForkMap unit).

Inductive AllowPrerelease := AP_Yes | AP_No | AP_IfNecessary.

Inductive IndexStrategy := FirstIndex | UnsafeFirstMatch | UnsafeBestMatch.

Record CandidateSelector := { resolution_strategy : ResolutionStrategy; prerelease_strategy : PrereleaseStrategy; index_strategy : IndexStrategy }.

(** ** Preferences ([preferences.rs]) *)

Inductive PreferenceIndex := PI_Any | PI_Implicit | PI_Explicit (index : IndexUrl).

Definition PreferenceIndex_matches (self : PreferenceIndex) (index : IndexUrl) : bool :=
  match self with PI_Any => true | PI_Implicit => false | PI_Explicit preference => bool_decide (preference = index) end.

Definition PreferenceIndex_from (index : option IndexUrl) : PreferenceIndex := match index with Some index => PI_Explicit index | None => PI_Implicit end.

Inductive PreferenceSource := Source_Environment | Source_Lock | Source_RequirementsTxt | Source_Resolver.

Record Pin := { pin_version : Version; pin_hashes : list HashDigest }.

(** [Entry]; of the universal marker, the PEP 508 part. *)
Record Entry := { entry_marker : NodeId; entry_index : PreferenceIndex; entry_pin : Pin; entry_source : PreferenceSource }.

Abbreviation Preferences := (list (PackageName * list Entry)).

Definition name_eqb (x y : PackageName) : bool := bool_decide (x = y).

Definition Preferences_get (self : Preferences) (package_name : PackageName) : list Entry := default [] (hash_map_get name_eqb self package_name).

(** [or_default().push] at the key of a hash map *)
Fixpoint push_entry {T} (self : list (PackageName * list T)) (package_name : PackageName) (entry : T) : list (PackageName * list T) :=
  match self with
  | [] => [(package_name, [entry])]
  | (name, entries) :: self => if name_eqb name package_name then (name, entries ++ [entry]) :: self else (name, entries) :: push_entry self package_name entry
  end.

Definition Preferences_insert (self : Preferences) (package_name : PackageName) (index : option IndexUrl) (marker : NodeId) (pin : Pin) (source : PreferenceSource) : Preferences :=
  push_entry self package_name {| entry_marker := marker; entry_index := PreferenceIndex_from index; entry_pin := pin; entry_source := source |}.

Definition match_hashes (self : Preferences) (package_name : PackageName) (version : Version) : option (list HashDigest) :=
  pin_hashes ∘ entry_pin <$> List.find (fun entry => cmp_eqb (pin_version (entry_pin entry)) version) (Preferences_get self package_name).

(** ** Candidates *)

Inductive VersionChoiceKind := Kind_Preference | Kind_Installed | Kind_Compatible.

Section candidates.
Context {InstalledDist : Type}.

Inductive CandidateDist :=
| Cand_Compatible (dist : CompatibleDist InstalledDist)
| Cand_Incompatible (incompatible_dist : IncompatibleDist) (prioritized_dist : PrioritizedDist).

Record Candidate := { candidate_name : PackageName; candidate_version : Version; candidate_dist : CandidateDist; choice_kind : VersionChoiceKind }.

(** [From<&PrioritizedDist> for CandidateDist]; [None] is a panic. *)
Definition CandidateDist_from (value : PrioritizedDist) : option CandidateDist :=
  dist ← PrioritizedDist.get value;
  match dist with
  | Some dist => Some (Cand_Compatible dist)
  | None =>
      match PrioritizedDist.incompatible_source value with
      | Some incompatibility => Some (Cand_Incompatible (ID_Source incompatibility) value)
      | None =>
          wheel ← PrioritizedDist.incompatible_wheel value;
          Some (Cand_Incompatible match wheel with Some incompatibility => ID_Wheel incompatibility | None => ID_Unavailable end value)
      end
  end.

Definition Candidate_new (name : PackageName) (version : Version) (dist : PrioritizedDist) (kind : VersionChoiceKind) : option Candidate :=
  dist ← CandidateDist_from dist;
  Some {| candidate_name := name; candidate_version := version; candidate_dist := dist; choice_kind := kind |}.

Definition is_incompatible (self : CandidateDist) : bool := match self with Cand_Incompatible _ _ => true | _ => false end.

(** Incompatible because of the upload time. *)
Definition excluded_newer (self : CandidateDist) : bool :=
  match self with Cand_Incompatible (ID_Source (IS_ExcludeNewer _) | ID_Wheel (IW_ExcludeNewer _)) _ => true | _ => false end.

End candidates.
Arguments CandidateDist InstalledDist : clear implicits.
Arguments Candidate InstalledDist : clear implicits.

(** [kmerge_by] of the [itertools] crate: merges the lists by which element comes first.
    Its documentation: if all lists are sorted, so is the result. *)
Class KMerge := kmerge_by : forall A : Type, (A -> A -> bool) -> list (list A) -> list A.
Arguments kmerge_by {_} {_} _ _.

(** No element after another comes before it. *)
Fixpoint merge_sorted {A} (first : A -> A -> bool) (l : list A) : Prop :=
  match l with [] => True | x :: l => Forall (fun y => first y x = false) l /\ merge_sorted first l end.

Class KMergeLaws (M : KMerge) : Prop := {
  kmerge_perm A (first : A -> A -> bool) ls : kmerge_by first ls ≡ₚ concat ls;
  kmerge_sorted A (first : A -> A -> bool) ls :
    (forall x y, x ∈ concat ls -> y ∈ concat ls -> first x y = true -> first y x = false) ->
    (forall x y z, x ∈ concat ls -> y ∈ concat ls -> z ∈ concat ls -> first x y = false -> first y z = false -> first x z = false) ->
    Forall (merge_sorted first) ls -> merge_sorted first (kmerge_by first ls)
}.

(** The packages that are installed; their tags are read from the file system. *)
Class Installed (InstalledDist : Type) := {
  get_packages : PackageName -> list InstalledDist;
  installed_version : InstalledDist -> Version;
  read_tags : InstalledDist -> option (option ExpandedTags)
}.

Section selector.
Context {RV RS : Type} {SV : RangeSet Version RV} {SS : RangeSet text RS}.
Context {InstalledDist Metadata R : Type} {SR : RangeSet Version R} {AR : AsSingleton R} {I : Installed InstalledDist} {M : KMerge}.
Abbreviation SM := (act (@Store RV RS)).
Abbreviation Candidate := (Candidate InstalledDist).
Implicit Types (version_maps : list (VersionMap Metadata)) (range : R).

(** [ResolverEnvironment::included_by_marker] *)
Definition included_by_marker (self : ResolverEnvironment) (marker : NodeId) : SM bool :=
  match self with
  | RE_Specific _ => mret true
  | RE_Universal markers => let! disjoint := with_interner (is_disjoint markers marker) in mret (negb disjoint)
  end.

(** [ForkMap::get] *)
Fixpoint fork_values {T} (env : ResolverEnvironment) (values : list (T * NodeId)) : SM (list T) :=
  match values with
  | [] => mret []
  | (value, marker) :: values =>
      let! included := included_by_marker env marker in
      let! rest := fork_values env values in
      mret (if included : bool then value :: rest else rest)
  end.

Definition fork_get {T} (self : ForkMap T) (package_name : PackageName) (env : ResolverEnvironment) : SM (list T) :=
  match hash_map_get name_eqb self package_name with Some values => fork_values env values | None => mret [] end.

Definition fork_contains {T} (self : ForkMap T) (package_name : PackageName) (env : ResolverEnvironment) : SM bool :=
  let! values := fork_get self package_name env in mret (negb (is_nil values)).

(** [PrereleaseStrategy::allows] *)
Definition allows (self : PrereleaseStrategy) (package_name : PackageName) (env : ResolverEnvironment) : SM AllowPrerelease :=
  match self with
  | PS_Disallow => mret AP_No
  | PS_Allow => mret AP_Yes
  | PS_IfNecessary => mret AP_IfNecessary
  | PS_Explicit packages => let! contains := fork_contains packages package_name env in mret (if contains : bool then AP_Yes else AP_No)
  | PS_IfNecessaryOrExplicit packages => let! contains := fork_contains packages package_name env in mret (if contains : bool then AP_Yes else AP_IfNecessary)
  end.

Definition use_highest_version (self : CandidateSelector) (package_name : PackageName) (env : ResolverEnvironment) : SM bool :=
  match resolution_strategy self with
  | RS_Highest => mret true
  | RS_Lowest => mret false
  | RS_LowestDirect direct_dependencies => let! contains := fork_contains direct_dependencies package_name env in mret (negb contains)
  end.

(** ** [select_candidate] *)

(** The loop, with the incompatible candidate met so far. *)
Fixpoint select_loop (package_name : PackageName) range (allow_prerelease : bool) (incompatible : option Candidate) (versions : list (Version * VersionMapDistHandle Metadata)) : SM (option Candidate) :=
  match versions with
  | [] => mret incompatible
  | (version, maybe_dist) :: versions =>
      if match incompatible with Some incompatible => negb (cmp_eqb version (candidate_version incompatible)) | None => false end then mret incompatible
      else if any_prerelease version && negb allow_prerelease then select_loop package_name range allow_prerelease incompatible versions
      else if negb (rs_contains range version) then select_loop package_name range allow_prerelease incompatible versions
      else
        let! dist := prioritized_dist maybe_dist in
        match dist with
        | None => select_loop package_name range allow_prerelease incompatible versions
        | Some dist =>
            let! candidate := mlift (Candidate_new package_name version dist Kind_Compatible) in
            if excluded_newer (candidate_dist candidate) then select_loop package_name range allow_prerelease incompatible versions
            else if is_incompatible (candidate_dist candidate) then
              select_loop package_name range allow_prerelease match incompatible with None => Some candidate | Some _ => incompatible end versions
            else mret (Some candidate)
        end
  end.

Definition select_candidate (package_name : PackageName) range (allow_prerelease : bool) (versions : list (Version * VersionMapDistHandle Metadata)) : SM (option Candidate) :=
  select_loop package_name range allow_prerelease None versions.

(** ** [select_no_preference] *)

(** Which of two entries of the maps comes first, by version and by the index of the
    map. *)
Definition merges_first (highest : bool) (x y : nat * (Version * VersionMapDistHandle Metadata)) : bool :=
  match cmp (fst (snd x)) (fst (snd y)) with
  | Eq => Nat.ltb (fst x) (fst y)
  | Lt => negb highest
  | Gt => highest
  end.

Definition directed {A} (highest : bool) (l : list A) : list A := if highest then rev l else l.

(** The entries of each map, with the index of the map. *)
Fixpoint indexed_entries (highest : bool) range (map_index : nat) version_maps : option (list (list (nat * (Version * VersionMapDistHandle Metadata)))) :=
  match version_maps with
  | [] => Some []
  | version_map :: version_maps =>
      items ← VersionMap.iter version_map range;
      rest ← indexed_entries highest range (S map_index) version_maps;
      Some (map (fun item => (map_index, item)) (directed highest items) :: rest)
  end.

(** [find_map] over the maps. *)
Fixpoint first_match (highest : bool) (package_name : PackageName) range (allow_prerelease : bool) version_maps : SM (option Candidate) :=
  match version_maps with
  | [] => mret None
  | version_map :: version_maps =>
      let! items := mlift (VersionMap.iter version_map range) in
      let! candidate := select_candidate package_name range allow_prerelease (directed highest items) in
      match candidate with Some candidate => mret (Some candidate) | None => first_match highest package_name range allow_prerelease version_maps end
  end.

Definition select_no_preference (self : CandidateSelector) (package_name : PackageName) range version_maps (env : ResolverEnvironment) : SM (option Candidate) :=
  let! highest := use_highest_version self package_name env in
  let! allow := allows (prerelease_strategy self) package_name env in
  let allow_prerelease := match allow with AP_Yes => true | AP_No => false | AP_IfNecessary => negb (existsb VersionMap.stable version_maps) end in
  match index_strategy self with
  | UnsafeBestMatch =>
      let! entries := mlift (indexed_entries highest range 0 version_maps) in
      select_candidate package_name range allow_prerelease (map snd (kmerge_by (merges_first highest) entries))
  | _ => first_match highest package_name range allow_prerelease version_maps
  end.

(** ** Installed packages *)

(** The tags are known, and none is compatible with the environment. *)
Definition tags_mismatch (tags : option Tags) (dist : InstalledDist) : bool :=
  match tags with
  | Some tags => match read_tags dist with Some (Some wheel_tags) => negb (expanded_is_compatible wheel_tags tags) | _ => false end
  | None => false
  end.

Definition installed_candidate (package_name : PackageName) (version : Version) (dist : InstalledDist) (kind : VersionChoiceKind) : Candidate :=
  {| candidate_name := package_name; candidate_version := version; candidate_dist := Cand_Compatible (CD_InstalledDist dist); choice_kind := kind |}.

Definition get_installed (package_name : PackageName) range (tags : option Tags) : option Candidate :=
  match get_packages package_name with
  | [dist] =>
      let version := installed_version dist in
      if negb (rs_contains range version) then None
      else if tags_mismatch tags dist then None
      else Some (installed_candidate package_name version dist Kind_Installed)
  | _ => None
  end.

(** ** Preferences *)

(** The first map with the version. *)
Fixpoint find_version version_maps (version : Version) : SM (option (VersionMap Metadata * PrioritizedDist)) :=
  match version_maps with
  | [] => mret None
  | version_map :: version_maps =>
      let! dist := VersionMap.get version_map version in
      match dist with Some dist => mret (Some (version_map, dist)) | None => find_version version_maps version end
  end.

(** The versions from the last on, while they are greater than [version]. *)
Fixpoint take_greater (version : Version) (versions : list Version) : list Version :=
  match versions with
  | [] => []
  | local :: versions => if cmp_gtb local version then local :: take_greater version versions else []
  end.

Fixpoint find_local (version_map : VersionMap Metadata) (version : Version) range (locals : list Version) : SM (option (Version * PrioritizedDist)) :=
  match locals with
  | [] => mret None
  | local :: locals =>
      if negb (is_local local) then find_local version_map version range locals
      else if negb (cmp_eqb (without_local local) version) then find_local version_map version range locals
      else if negb (rs_contains range local) then find_local version_map version range locals
      else
        let! dist := VersionMap.get version_map local in
        match dist with Some dist => mret (Some (local, dist)) | None => find_local version_map version range locals end
  end.

(** What an installed version says to a preference: nothing, to try the next preference,
    or the candidate. *)
Inductive installed_answer := Installed_other | Installed_mismatch | Installed_use (dist : InstalledDist).

Definition installed_preference (package_name : PackageName) (version : Version) (reinstall : bool) (tags : option Tags) : installed_answer :=
  if reinstall then Installed_other
  else
    match get_packages package_name with
    | [dist] =>
        if cmp_eqb (installed_version dist) version then (if tags_mismatch tags dist then Installed_mismatch else Installed_use dist) else Installed_other
    | _ => Installed_other
    end.

Definition prerelease_allowed (self : CandidateSelector) (package_name : PackageName) (env : ResolverEnvironment) (version : Version) (source : PreferenceSource) : SM bool :=
  if any_prerelease version then
    let! allow := allows (prerelease_strategy self) package_name env in
    mret match allow with
    | AP_Yes => true
    | AP_No => false
    | AP_IfNecessary => match source with Source_Resolver => false | _ => true end
    end
  else mret true.

Fixpoint get_preferred_from_iter (self : CandidateSelector) (preferences : list (Version * PreferenceSource)) (package_name : PackageName) range version_maps (reinstall : bool)
    (env : ResolverEnvironment) (tags : option Tags) : SM (option Candidate) :=
  match preferences with
  | [] => mret None
  | (version, source) :: preferences =>
      let next := get_preferred_from_iter self preferences package_name range version_maps reinstall env tags in
      if negb (rs_contains range version) then next
      else
        match installed_preference package_name version reinstall tags with
        | Installed_mismatch => next
        | Installed_use dist => mret (Some (installed_candidate package_name version dist Kind_Preference))
        | Installed_other =>
            let! allow := prerelease_allowed self package_name env version source in
            if negb allow then next
            else
              let! found := find_version version_maps version in
              match found with
              | None => next
              | Some (version_map, file) =>
                  let! local := if VersionMap.local version_map then find_local version_map version range (take_greater version (rev (VersionMap.versions version_map))) else mret None in
                  match local with
                  | Some (local, dist) => mlift (Some <$> Candidate_new package_name local dist Kind_Preference)
                  | None => mlift (Some <$> Candidate_new package_name version file Kind_Preference)
                  end
              end
        end
  end.

(** The key of an entry: whether its marker fits the environment, computed once. *)
Fixpoint entry_keys (env : ResolverEnvironment) (entries : list Entry) : SM (list (bool * Entry)) :=
  match entries with
  | [] => mret []
  | entry :: entries =>
      let! matches_env := included_by_marker env (entry_marker entry) in
      let! rest := entry_keys env entries in
      mret ((matches_env, entry) :: rest)
  end.

(** Whether the key of [x] is below that of [y], under [Reverse]: fitting entries first,
    then the latest (or the earliest) version. *)
Definition key_before (highest : bool) (x y : bool * Entry) : bool :=
  let versions := cmp (pin_version (entry_pin (snd x))) (pin_version (entry_pin (snd y))) in
  match fst x, fst y with
  | true, false => true
  | false, true => false
  | _, _ => match versions with Gt => highest | Lt => negb highest | Eq => false end
  end.

(** [sort_by_key] is stable. *)
Fixpoint insert_entry (highest : bool) (x : bool * Entry) (l : list (bool * Entry)) : list (bool * Entry) :=
  match l with
  | [] => [x]
  | y :: l => if key_before highest y x then y :: insert_entry highest x l else x :: y :: l
  end.

Fixpoint sort_entries (highest : bool) (l : list (bool * Entry)) : list (bool * Entry) :=
  match l with [] => [] | x :: l => insert_entry highest x (sort_entries highest l) end.

Definition pinned (entry : Entry) : Version * PreferenceSource := (pin_version (entry_pin entry), entry_source entry).

(** The entry is not pinned to another index. *)
Definition index_fits (index : option IndexUrl) (entry : Entry) : bool :=
  match index with Some index => PreferenceIndex_matches (entry_index entry) index | None => true end.

Definition get_preferred (self : CandidateSelector) (package_name : PackageName) range version_maps (preferences : Preferences) (reinstall : bool) (index : option IndexUrl)
    (env : ResolverEnvironment) (tags : option Tags) : SM (option Candidate) :=
  match Preferences_get preferences package_name with
  | [] => mret None
  | [entry] =>
      if negb (index_fits index entry) then mret None
      else get_preferred_from_iter self [pinned entry] package_name range version_maps reinstall env tags
  | preferences =>
      let preferences := List.filter (index_fits index) preferences in
      let! highest := use_highest_version self package_name env in
      let! keyed := entry_keys env preferences in
      get_preferred_from_iter self (map (fun e => pinned (snd e)) (sort_entries highest keyed)) package_name range version_maps reinstall env tags
  end.

(** ** [select] *)

Definition select (self : CandidateSelector) (package_name : PackageName) range version_maps (preferences : Preferences) (reinstall upgrade : bool) (index : option IndexUrl)
    (env : ResolverEnvironment) (tags : option Tags) : SM (option Candidate) :=
  let! preferred := get_preferred self package_name range version_maps preferences reinstall index env tags in
  match preferred with
  | Some preferred => mret (Some preferred)
  | None =>
      let installed := if reinstall then None else get_installed package_name range tags in
      match upgrade, installed with
      | false, Some installed => mret (Some installed)
      | _, _ =>
          let! compatible := select_no_preference self package_name range version_maps env in
          match installed with
          | Some installed =>
              match compatible with
              | None => mret (Some installed)
              | Some compatible' =>
                  let! highest := use_highest_version self package_name env in
                  if (if highest : bool then cmp_geb (candidate_version installed) (candidate_version compatible') else cmp_leb (candidate_version installed) (candidate_version compatible'))
                  then mret (Some installed) else mret compatible
              end
          | None => mret compatible
          end
      end
  end.

End selector.
