(* ===== verification/CandidateFacts.v ===== *)
(** * Lemmas on the choice of a candidate

    What the entries of the maps stand for, and the loop over them. *)

From stdpp Require Import base numbers list strings gmap.
From S2P Require Import Prelude VersionTypes VersionSmall Version VersionFacts VersionParser Specifier Ranges RangesFacts RangesTheorems Names Text PlatformTags Tags Filename RangeSet Cuts Tiling MarkerTypes MarkerAlgebra MarkerEval MarkerWf MarkerEdges MarkerExpr MarkerOps MarkerVersions MarkerTree MarkerExamples MarkerFormula PrioritizedDist OrderedMap PrioritizedDistTheorems PythonRange PythonRangeTheorems VersionMap VersionMapTheorems CandidateSelector.

#[local] Open Scope N_scope.

(** ** The status of a distribution *)

Inductive status := St_compatible | St_incompatible | St_excluded.

Definition candidate_status {D} (c : CandidateDist D) : status :=
  if excluded_newer c then St_excluded else if is_incompatible c then St_incompatible else St_compatible.

Definition dist_status (d : PrioritizedDist) : option status := candidate_status <$> CandidateDist_from (InstalledDist := unit) d.

Lemma candidate_from_status {D} d : candidate_status <$> CandidateDist_from (InstalledDist := D) d = dist_status d.
Proof.
  unfold dist_status, CandidateDist_from, PrioritizedDist.get, PrioritizedDist.incompatible_wheel, PrioritizedDist.incompatible_source.
  destruct (PrioritizedDist.best_wheel d) as [[[w [c|h p b]]|]|]; cbn; [| | |done]; destruct (source d) as [[sd [e|hs]]|]; cbn; try done; repeat case_match; simplify_eq; done.
Qed.

Lemma dist_status_same d e : same_dist d e -> dist_status d = dist_status e.
Proof.
  intros (Hs&Hb&Hw&_). unfold dist_status, CandidateDist_from, PrioritizedDist.get, PrioritizedDist.incompatible_wheel, PrioritizedDist.incompatible_source, PrioritizedDist.best_wheel.
  rewrite Hs, Hb, Hw. destruct (best_wheel_index e) as [i|]; cbn; [destruct (wheels e !! i) as [[w [c|h p b]]|]; cbn|]; [| |done|]; destruct (source e) as [[sd [x|hs]]|]; cbn; try done; repeat case_match; simplify_eq; done.
Qed.

Lemma candidate_from_some {D} d : dist_wf d -> is_Some (CandidateDist_from (InstalledDist := D) d).
Proof.
  intros Hd. destruct (best_wheel_some d Hd) as (best&Hb&_). unfold CandidateDist_from, PrioritizedDist.get, PrioritizedDist.incompatible_wheel. rewrite Hb. cbn.
  repeat case_match; simplify_eq/=; try by eexists. all: repeat case_match; by eexists.
Qed.

(** ** Entries of the maps *)

Section entries.
Context {RV RS : Type} {SV : RangeSet Version RV} {SS : RangeSet text RS}.
Context (okV : RV -> Prop) (okS : RS -> Prop) (ordered : bool).
Context {LV : RangeSetLaws Version RV version_wf okV} {LS : RangeSetLaws text RS (fun _ => True) okS}.
Context {InstalledDist Metadata R : Type} {SR : RangeSet Version R} {AR : AsSingleton R} {I : Installed InstalledDist} {M : KMerge}.
Context (lazies : list (VersionMapLazy Metadata)).
Abbreviation Store := (@Store RV RS).
Abbreviation item := (Version * VersionMapDistHandle Metadata)%type.
Abbreviation store_ok := (store_ok okV okS ordered).

Definition handle_ok (h : VersionMapDistHandle Metadata) : Prop :=
  match h with DH_Eager d => dist_wf d | DH_Lazy lazy dist => lazy ∈ lazies /\ exists k, (k, dist) ∈ lazy_map lazy end.

(** The distribution of a handle, up to its markers. *)
Definition handle_dist (h : VersionMapDistHandle Metadata) : option PrioritizedDist :=
  match h with
  | DH_Eager d => Some d
  | DH_Lazy lazy dist =>
      d ← expected_files lazy (start_of dist) (files_of lazy dist);
      match dist with LP_OnlyFlat _ => Some d | _ => if PrioritizedDist.is_empty d then None else Some d end
  end.

Definition item_ok (e : item) : Prop := version_wf (fst e) /\ handle_ok (snd e).

(** After an action on the store. *)
Definition kept_ok (st st' : Store) : Prop := store_ok lazies st' /\ grows st st'.

Lemma kept_refl st : store_ok lazies st -> kept_ok st st.
Proof. intros Hst. split; [done|apply grows_refl]. Qed.

Lemma kept_trans st st' st'' : kept_ok st st' -> kept_ok st' st'' -> kept_ok st st''.
Proof. intros [_ H1] [H2 H3]. split; [done|]. by eapply store_grows_trans. Qed.

Lemma prioritized_dist_ok st h : store_ok lazies st -> handle_ok h ->
  spec (prioritized_dist h) st (fun answer st' => kept_ok st st' /\
    match handle_dist h with None => answer = None | Some d => exists d', answer = Some d' /\ same_dist d' d /\ dist_wf d' end).
Proof.
  intros Hst Hh. destruct h as [d|lazy dist]; cbn [prioritized_dist handle_dist].
  - apply spec_ret. split; [by apply kept_refl|]. by exists d.
  - destruct Hh as (Hlazy&k&Hin). eapply spec_mono; [exact (get_lazy_ok okV okS ordered lazies lazy st (k, dist) Hst Hlazy Hin)|]. intros answer st' (H1&H2&_&Hset&(d&E&Ha)&Hok). split; [by split|]. cbn [snd] in *. rewrite E. cbn [mbind option_bind].
    destruct dist as [flat|simple|flat simple]; cbn in Hset, E, Ha |- *.
    + subst answer. injection E as <-. exists flat. split; [done|]. split; [done|]. by destruct Hok as (_&_&Hd&_).
    + destruct answer as [d'|]; [|by rewrite Ha]. destruct Ha as [Hs ->]; [|done]. exists d'. split; [done|]. split; [done|]. by destruct Hok as (_&_&Hd&_).
    + destruct answer as [d'|]; [|by rewrite Ha]. destruct Ha as [Hs ->]; [|done]. exists d'. split; [done|]. split; [done|]. by destruct Hok as (_&_&Hd&_).
Qed.

(** ** Which entries count *)

Context (range : R) (allow_prerelease : bool) (package_name : PackageName).

Definition item_status (h : VersionMapDistHandle Metadata) : option status := d ← handle_dist h; dist_status d.

(** In the range, allowed, with files that the upload time does not exclude. *)
Definition usable (e : item) : bool :=
  negb (any_prerelease (fst e) && negb allow_prerelease) && rs_contains range (fst e) &&
  match item_status (snd e) with Some St_compatible | Some St_incompatible => true | _ => false end.

Definition is_usable_compatible (e : item) : bool :=
  usable e && match item_status (snd e) with Some St_compatible => true | _ => false end.

(** The candidate is the entry. *)
Definition candidate_of (e : item) (c : Candidate InstalledDist) : Prop :=
  candidate_name c = package_name /\ candidate_version c = fst e /\ choice_kind c = Kind_Compatible /\
  exists d d', handle_dist (snd e) = Some d /\ same_dist d' d /\ CandidateDist_from d' = Some (candidate_dist c).

Lemma candidate_of_status e c : candidate_of e c -> item_status (snd e) = Some (candidate_status (candidate_dist c)).
Proof.
  intros (_&_&_&d&d'&E&Hs&Ec). unfold item_status. rewrite E. cbn. rewrite <- (dist_status_same d' d Hs), <- (candidate_from_status (D := InstalledDist)), Ec. done.
Qed.

(** ** The order of the search *)

(** [x] is tried no later than [y]. *)
Definition precedes (highest : bool) (x y : Version) : Prop := (if highest then cmp y x else cmp x y) <> Gt.

Lemma precedes_trans highest x y z : version_wf x -> version_wf y -> version_wf z -> precedes highest x y -> precedes highest y z -> precedes highest x z.
Proof.
  intros Hx Hy Hz. unfold precedes. destruct highest; rewrite !cmp_value by done.
  - intros H1 H2. by eapply cmp_le_trans.
  - intros H1 H2. by eapply cmp_le_trans.
Qed.

Lemma precedes_refl highest x : version_wf x -> precedes highest x x.
Proof. intros Hx. unfold precedes. destruct highest; by rewrite cmp_value, cmp_refl. Qed.

Lemma precedes_eq highest x y : version_wf x -> version_wf y -> precedes highest x y -> precedes highest y x -> cmp_eqb x y = true.
Proof.
  intros Hx Hy. unfold precedes, cmp_eqb. rewrite !cmp_value by done. rewrite (cmp_opp (value x) (value y)). by destruct highest, (cmp (value x) (value y)).
Qed.

Lemma eqb_precedes highest x y : version_wf x -> version_wf y -> cmp_eqb x y = true -> precedes highest x y /\ precedes highest y x.
Proof.
  intros Hx Hy. unfold precedes, cmp_eqb. rewrite !cmp_value by done. rewrite (cmp_opp (value x) (value y)). by destruct highest, (cmp (value x) (value y)).
Qed.

Fixpoint search_sorted (highest : bool) (l : list item) : Prop :=
  match l with [] => True | e :: l => Forall (fun e' => precedes highest (fst e) (fst e')) l /\ search_sorted highest l end.

(** ** The loop *)

Context (highest : bool).

(** The candidate of an entry that counts: no other entry that counts is tried before
    its version, and if it is incompatible so are the others of the version. *)
Definition best_entry (l : list item) (c : Candidate InstalledDist) (e : item) : Prop :=
  usable e = true /\ candidate_of e c /\ (forall e', e' ∈ l -> usable e' = true -> precedes highest (fst e) (fst e')) /\
  (is_incompatible (candidate_dist c) = true -> forall e', e' ∈ l -> is_usable_compatible e' = true -> cmp_eqb (fst e') (fst e) = false).

Definition best_in (l : list item) (c : Candidate InstalledDist) : Prop := exists e, e ∈ l /\ best_entry l c e.

(** The entry could not have been taken instead: it has another version, or it does not
    count, or it is incompatible and the candidate is not. *)
Definition passed_over (c : Candidate InstalledDist) (e e' : item) : Prop :=
  cmp_eqb (fst e') (fst e) = true -> (if is_incompatible (candidate_dist c) then usable e' else is_usable_compatible e') = false.

(** The candidate is the best, and the first that it could be. *)
Definition best_first (l : list item) (c : Candidate InstalledDist) : Prop :=
  exists l1 e l2, l = l1 ++ e :: l2 /\ best_entry l c e /\ Forall (passed_over c e) l1.

Definition loop_result (incompatible : option (Candidate InstalledDist)) (l : list item) (r : option (Candidate InstalledDist)) : Prop :=
  match incompatible with
  | None => match r with None => forall e, e ∈ l -> usable e = false | Some c => best_first l c end
  | Some c0 => exists c, r = Some c /\
      (c = c0 /\ (forall e, e ∈ l -> is_usable_compatible e = true -> cmp_eqb (fst e) (candidate_version c0) = false) \/
       exists l1 e l2, l = l1 ++ e :: l2 /\ is_usable_compatible e = true /\ candidate_of e c /\ cmp_eqb (fst e) (candidate_version c0) = true /\
         Forall (fun e' => is_usable_compatible e' = false) l1)
  end.

Lemma usable_compatible_usable e : is_usable_compatible e = true -> usable e = true.
Proof. by intros [? _]%andb_prop. Qed.

(** The candidate of a compatible entry is compatible. *)
Lemma candidate_of_compatible e c : is_usable_compatible e = true -> candidate_of e c -> is_incompatible (candidate_dist c) = false.
Proof.
  intros [_ Hcomp]%andb_prop Hce. pose proof (candidate_of_status _ _ Hce) as Hs. rewrite Hs in Hcomp. unfold candidate_status in Hcomp.
  destruct (is_incompatible (candidate_dist c)); [|done]. by destruct (excluded_newer _).
Qed.

(** An entry that does not count can be left out. *)
Lemma loop_result_skip incompatible e l r : usable e = false -> loop_result incompatible l r -> loop_result incompatible (e :: l) r.
Proof.
  intros He. assert (is_usable_compatible e = false) as He' by (unfold is_usable_compatible; by rewrite He). destruct incompatible as [c0|]; cbn.
  - intros (c&->&Hcase). exists c. split; [done|]. destruct Hcase as [[-> H]|(l1&e'&l2&->&H1&H2&H3&H4)].
    + left. split; [done|]. intros e' [->|Hin]%elem_of_cons Hu; [congruence|by apply H].
    + right. exists (e :: l1), e', l2. split_and!; [done..|by constructor].
  - destruct r as [c|].
    + intros (l1&e0&l2&->&(Hu&Hc&Hbest&Hinc)&Hf). exists (e :: l1), e0, l2. split; [done|]. split; [split_and!; [done|done| |]|].
      * intros e' [->|Hin']%elem_of_cons Hu'; [congruence|by apply Hbest].
      * intros Hi e' [->|Hin']%elem_of_cons Hu'; [congruence|by apply Hinc].
      * constructor; [|done]. intros _. by destruct (is_incompatible _).
    + intros H e' [->|Hin]%elem_of_cons; [done|by apply H].
Qed.

(** The invariant of the loop: what is left is not tried before the incompatible
    candidate met so far. *)
Definition held_ok (incompatible : option (Candidate InstalledDist)) (l : list item) : Prop :=
  match incompatible with Some c0 => version_wf (candidate_version c0) /\ Forall (fun e => precedes highest (candidate_version c0) (fst e)) l | None => True end.

Lemma loop_return c0 e l : Forall item_ok (e :: l) -> search_sorted highest (e :: l) -> held_ok (Some c0) (e :: l) -> cmp_eqb (fst e) (candidate_version c0) = false ->
  loop_result (Some c0) (e :: l) (Some c0).
Proof.
  intros Hok [Hs _] [Hw Hp] Hne. exists c0. split; [done|]. left. split; [done|]. intros e' Hin _. apply Forall_cons in Hok as [[He _] Hok]. rewrite Forall_forall in Hok, Hp, Hs.
  assert (version_wf (fst e') /\ precedes highest (fst e) (fst e')) as [He' Hpe] by (apply elem_of_cons in Hin as [->|Hin]; [split; [done|by apply precedes_refl]|split; [by apply Hok|by apply Hs]]).
  destruct (cmp_eqb (fst e') (candidate_version c0)) eqn:E; [|done]. rewrite <- Hne. symmetry. destruct (eqb_precedes highest _ _ He' Hw E) as [Hp1 _]. apply (precedes_eq highest); [done|done| |].
  - by eapply precedes_trans; [| | |exact Hpe|].
  - apply Hp. by apply elem_of_cons; left.
Qed.

(** The entry is incompatible: it is held, unless one already is. *)
Lemma loop_result_incompatible incompatible version h c l r : Forall item_ok ((version, h) :: l) -> search_sorted highest ((version, h) :: l) ->
  match incompatible with Some c0 => negb (cmp_eqb version (candidate_version c0)) | None => false end = false -> usable (version, h) = true ->
  candidate_of (version, h) c -> candidate_version c = version -> is_incompatible (candidate_dist c) = true -> item_status h = Some St_incompatible ->
  loop_result match incompatible with None => Some c | Some _ => incompatible end l r -> loop_result incompatible ((version, h) :: l) r.
Proof.
  intros Hok [Hfirst Hsort] Hpast Hu Hc Hcv Hinc Hst Hr. apply Forall_cons in Hok as [[Hv _] Hl]. cbn [fst] in Hv, Hfirst. rewrite Forall_forall in Hl, Hfirst.
  assert (is_usable_compatible (version, h) = false) as Hnot by (unfold is_usable_compatible; cbn [snd]; by rewrite Hst, andb_false_r).
  assert (precedes highest version version) as Hrefl by (by apply precedes_refl).
  destruct incompatible as [c0|]; cbn in Hr |- *.
  - destruct Hr as (c1&->&Hcase). exists c1. split; [done|]. destruct Hcase as [[-> H]|(l1&e&l2&->&H1&H2&H3&H4)].
    + left. split; [done|]. intros e [->|Hin]%elem_of_cons Hue; [congruence|by apply H].
    + right. exists ((version, h) :: l1), e, l2. split_and!; [done..|by constructor].
  - destruct Hr as (c1&->&[[-> H]|(l1&e&l2&->&Huc&Hce&Heq&Hl1)]).
    + exists [], (version, h), l. split; [done|]. split; [split_and!; [done|done| |]|done].
      * intros e' [->|Hin]%elem_of_cons _; [done|by apply Hfirst].
      * intros _ e' [->|Hin]%elem_of_cons Hue; [congruence|]. cbn [fst]. rewrite <- Hcv. by apply H.
    + assert (e ∈ l1 ++ e :: l2) as Hin by set_solver. exists ((version, h) :: l1), e, l2. rewrite Hcv in Heq. destruct (Hl e Hin) as [Hve _]. destruct (eqb_precedes highest _ _ Hve Hv Heq) as [Hp _].
      pose proof (candidate_of_compatible e c1 Huc Hce) as Hcomp. split; [done|]. split; [split_and!; [by apply usable_compatible_usable|done| |congruence]|].
      * intros e' [->|Hin']%elem_of_cons _; [done|]. destruct (Hl e' Hin') as [Hv' _]. eapply precedes_trans; [exact Hve|exact Hv|done|done|by apply Hfirst].
      * unfold passed_over. rewrite Hcomp. constructor; [done|]. eapply Forall_impl; [exact Hl1|]. by intros x Hx _.
Qed.

(** The entry is compatible: it is the result. *)
Lemma loop_result_compatible incompatible version h c l : Forall item_ok ((version, h) :: l) -> search_sorted highest ((version, h) :: l) ->
  match incompatible with Some c0 => negb (cmp_eqb version (candidate_version c0)) | None => false end = false -> is_usable_compatible (version, h) = true ->
  candidate_of (version, h) c -> is_incompatible (candidate_dist c) = false -> loop_result incompatible ((version, h) :: l) (Some c).
Proof.
  intros Hok [Hfirst Hsort] Hpast Huc Hc Hinc. apply Forall_cons in Hok as [[Hv _] Hl]. cbn [fst] in Hv, Hfirst. rewrite Forall_forall in Hfirst.
  destruct incompatible as [c0|]; cbn.
  - exists c. split; [done|]. right. exists [], (version, h), l. apply negb_false_iff in Hpast. by split_and!.
  - exists [], (version, h), l. split; [done|]. split; [split_and!; [by apply usable_compatible_usable|done| |congruence]|done].
    intros e' [->|Hin]%elem_of_cons _; [by apply precedes_refl|by apply Hfirst].
Qed.

Lemma select_loop_ok l : forall incompatible st, store_ok lazies st -> Forall item_ok l -> search_sorted highest l -> held_ok incompatible l ->
  spec (select_loop package_name range allow_prerelease incompatible l) st (fun r st' => kept_ok st st' /\ loop_result incompatible l r).
Proof.
  induction l as [|[version h] l IH]; intros incompatible st Hst Hok Hsort Hheld; cbn [select_loop].
  - apply spec_ret. split; [by apply kept_refl|]. destruct incompatible as [c0|]; cbn; [|by intros e He%not_elem_of_nil]. exists c0. split; [done|]. left. split; [done|]. by intros e He%not_elem_of_nil.
  - destruct (match incompatible with Some incompatible => negb (cmp_eqb version (candidate_version incompatible)) | None => false end) eqn:Epast.
    { apply spec_ret. split; [by apply kept_refl|]. destruct incompatible as [c0|]; [|done]. apply negb_true_iff in Epast. by apply loop_return. }
    pose proof Hok as Hok'. apply Forall_cons in Hok' as [[Hv Hh] Hl]. cbn [fst snd] in Hv, Hh. pose proof Hsort as [Hfirst Hsort'].
    assert (held_ok incompatible l) as Hheld' by (destruct incompatible as [c0|]; [|done]; destruct Hheld as [Hw Hp]; split; [done|]; by apply Forall_cons in Hp as [_ Hp]).
    assert (forall st1, store_ok lazies st1 -> kept_ok st st1 -> usable (version, h) = false ->
      spec (select_loop package_name range allow_prerelease incompatible l) st1 (fun r st' => kept_ok st st' /\ loop_result incompatible ((version, h) :: l) r)) as Hskip.
    { intros st1 Hst1 Hk Hu. eapply spec_mono; [by apply IH|]. intros r st' [Hk' Hr]. split; [by eapply kept_trans|by apply loop_result_skip]. }
    destruct (any_prerelease version && negb allow_prerelease) eqn:Epre; [apply Hskip; [done|by apply kept_refl|unfold usable; cbn [fst]; by rewrite Epre]|].
    destruct (rs_contains range version) eqn:Erange; cbn [negb]; [|apply Hskip; [done|by apply kept_refl|unfold usable; cbn [fst]; by rewrite Epre, Erange]].
    apply spec_bind. eapply spec_mono; [by apply prioritized_dist_ok|]. intros answer st1 [Hk1 Ha]. pose proof Hk1 as [Hst1 _].
    destruct (handle_dist h) as [d|] eqn:Ed; [destruct Ha as (d'&->&Hsame&Hwf)|subst answer; apply Hskip; [done|done|unfold usable, item_status; cbn [fst snd]; rewrite Epre, Erange, Ed; done]].
    destruct (candidate_from_some (D := InstalledDist) d' Hwf) as [cd Ecd]. apply spec_bind. unfold Candidate_new. rewrite Ecd. cbn [mbind option_bind]. eapply spec_intro; [done|]. cbn [candidate_dist].
    set (c := {| candidate_name := package_name; candidate_version := version; candidate_dist := cd; choice_kind := Kind_Compatible |}).
    assert (candidate_of (version, h) c) as Hc by (split_and!; [done..|by exists d, d']). pose proof (candidate_of_status _ _ Hc) as Hst_eq. cbn [snd candidate_dist c] in Hst_eq. unfold candidate_status in Hst_eq.
    destruct (excluded_newer cd) eqn:Eex; [apply Hskip; [done|done|unfold usable; cbn [fst snd]; by rewrite Epre, Erange, Hst_eq]|].
    destruct (is_incompatible cd) eqn:Einc.
    + eapply spec_mono; [apply IH; [done|done|done|]|].
      { destruct incompatible; [done|]. split; [done|]. by apply Hfirst. }
      intros r st2 [Hk2 Hr]. split; [by eapply kept_trans|]. assert (usable (version, h) = true) as Hu by (unfold usable; cbn [fst snd]; by rewrite Epre, Erange, Hst_eq).
      by apply (loop_result_incompatible incompatible version h c).
    + apply spec_ret. split; [done|]. apply loop_result_compatible; [done|done|done| |done|done]. unfold is_usable_compatible, usable; cbn [fst snd]. by rewrite Epre, Erange, Hst_eq.
Qed.

End entries.

(** ** Searching the maps of a package

    The order of the entries in a search, and what the search over one map and over all
    maps returns. *)

(** ** Lists in the order of the search *)

Section sorted.
Context {Metadata : Type}.
Abbreviation item := (Version * VersionMapDistHandle Metadata)%type.
Implicit Types l : list item.

Lemma search_sorted_app highest l k : search_sorted highest l -> search_sorted highest k -> (forall e e', e ∈ l -> e' ∈ k -> precedes highest (fst e) (fst e')) -> search_sorted highest (l ++ k).
Proof.
  induction l as [|e l IH]; cbn; [done|]. intros [Hf Hs] Hk Hlk. split.
  - apply Forall_app. split; [done|]. apply Forall_forall. intros e' He'. apply Hlk; [by apply elem_of_cons; left|done].
  - apply IH; [done|done|]. intros x y Hx Hy. apply Hlk; [by apply elem_of_cons; right|done].
Qed.

Lemma directed_sorted highest l : bt_valid version_wf l -> bt_sorted l -> search_sorted highest (directed highest l).
Proof.
  intros Hv Hs. unfold directed. destruct highest.
  - induction l as [|[k h] l IH]; cbn; [done|]. apply Forall_cons in Hv as [Hk Hv]. destruct Hs as [Hf Hs]. apply search_sorted_app; [by apply IH|by split|]. intros e e' He ->%list_elem_of_singleton.
    rewrite Forall_forall in Hf. unfold precedes. cbn. rewrite list_elem_of_In, <- in_rev, <- list_elem_of_In in He. by rewrite (Hf e He).
  - induction l as [|[k h] l IH]; cbn; [done|]. apply Forall_cons in Hv as [Hk Hv]. destruct Hs as [Hf Hs]. split; [|by apply IH]. eapply Forall_impl; [exact Hf|]. intros e He. unfold precedes. cbn. by rewrite He.
Qed.

Lemma directed_elem {A} highest (k : list A) x : x ∈ directed highest k <-> x ∈ k.
Proof. unfold directed. destruct highest; [|done]. by rewrite !list_elem_of_In, <- in_rev. Qed.

(** ** Merging *)

(** The order of a version and the index of its map, in the direction of the search. *)
Definition directed_cmp (highest : bool) : Ord VersionFull := fun x y => if highest then cmp y x else cmp x y.

Lemma directed_cmp_laws highest : @OrdLaws _ (directed_cmp highest).
Proof.
  destruct highest; split; unfold cmp, directed_cmp.
  - intros x y. apply cmp_opp.
  - intros x y z E. apply cmp_eq_r. by apply cmp_eq_sym.
  - intros x y z H1 H2. by eapply cmp_lt_trans.
  - intros x y. apply cmp_opp.
  - intros x y z E. by apply cmp_eq_l.
  - intros x y z H1 H2. by eapply cmp_lt_trans.
Qed.

Definition merge_key (x : nat * item) : VersionFull * N := (value (fst (snd x)), N.of_nat (fst x)).

Lemma merges_first_key highest (x y : nat * item) : version_wf (fst (snd x)) -> version_wf (fst (snd y)) ->
  merges_first highest x y = @cmp_ltb _ (@prod_ord _ _ (directed_cmp highest) N_ord) (merge_key x) (merge_key y).
Proof.
  intros Hx Hy. unfold merges_first, cmp_ltb. change (@cmp _ (@prod_ord _ _ (directed_cmp highest) N_ord) (merge_key x) (merge_key y)) with
    (then_with (directed_cmp highest (value (fst (snd x))) (value (fst (snd y)))) (N.compare (N.of_nat (fst x)) (N.of_nat (fst y)))).
  rewrite cmp_value by done. unfold directed_cmp. rewrite (cmp_opp (value (fst (snd x))) (value (fst (snd y)))).
  destruct highest, (cmp (value (fst (snd x))) (value (fst (snd y)))) eqn:E; cbn [CompOpp then_with negb]; try done; destruct (N.compare_spec (N.of_nat (fst x)) (N.of_nat (fst y))), (Nat.ltb_spec (fst x) (fst y)); try done; lia.
Qed.

Lemma merges_first_precedes highest (x y : nat * item) : version_wf (fst (snd x)) -> version_wf (fst (snd y)) -> merges_first highest y x = false -> precedes highest (fst (snd x)) (fst (snd y)).
Proof.
  intros Hx Hy. unfold merges_first, precedes. rewrite !cmp_value by done. rewrite (cmp_opp (value (fst (snd x))) (value (fst (snd y)))).
  by destruct highest, (cmp (value (fst (snd x))) (value (fst (snd y)))).
Qed.

Lemma merge_sorted_search highest (l : list (nat * item)) : Forall (fun x => version_wf (fst (snd x))) l -> merge_sorted (merges_first highest) l -> search_sorted highest (map snd l).
Proof.
  induction l as [|x l IH]; cbn; [done|]. intros [Hx Hl]%Forall_cons [Hf Hs]. split; [|by apply IH]. apply Forall_forall. intros e (y&->&Hy)%list_elem_of_fmap.
  rewrite Forall_forall in Hf, Hl. apply merges_first_precedes; [done|by apply Hl|by apply Hf].
Qed.

Lemma merges_first_sorted highest i l : Forall (fun e => version_wf (fst e)) l -> search_sorted highest l -> merge_sorted (merges_first highest) (map (fun e => (i, e)) l).
Proof.
  induction l as [|e l IH]; cbn; [done|]. intros [He Hl]%Forall_cons [Hf Hs]. split; [|by apply IH]. apply Forall_forall. intros y (e'&->&Hin)%list_elem_of_fmap.
  rewrite Forall_forall in Hf, Hl. specialize (Hf e' Hin). specialize (Hl e' Hin). cbn in Hl. unfold merges_first, precedes in *. cbn [fst snd]. rewrite !cmp_value in * by done.
  rewrite (cmp_opp (value (fst e)) (value (fst e'))) in *. destruct highest, (cmp (value (fst e)) (value (fst e'))); cbn [CompOpp negb] in *; try done; apply Nat.ltb_irrefl.
Qed.

Context {M : KMerge} {LM : KMergeLaws M}.

Lemma kmerge_search highest (ls : list (list (nat * item))) : Forall (Forall (fun x => version_wf (fst (snd x)))) ls -> Forall (merge_sorted (merges_first highest)) ls ->
  merge_sorted (merges_first highest) (kmerge_by (merges_first highest) ls) /\ search_sorted highest (map snd (kmerge_by (merges_first highest) ls)) /\
  forall x, x ∈ kmerge_by (merges_first highest) ls <-> exists l' : list (nat * item), l' ∈ ls /\ x ∈ l'.
Proof.
  intros Hv Hs. assert (forall x, x ∈ concat ls -> version_wf (fst (snd x))) as Hc.
  { intros x Hx. apply list_elem_of_In, in_concat in Hx as (l&Hl&Hx). rewrite Forall_forall in Hv. apply list_elem_of_In in Hl, Hx. specialize (Hv l Hl). rewrite Forall_forall in Hv. by apply Hv. }
  assert (merge_sorted (merges_first highest) (kmerge_by (merges_first highest) ls)) as Hm.
  { pose proof (@prod_ord_laws _ _ (directed_cmp highest) (directed_cmp_laws highest) N_ord _) as HL. apply kmerge_sorted; [| |done].
    + intros x y Hx Hy. rewrite !merges_first_key by auto. unfold cmp_ltb. rewrite (@cmp_opp _ _ HL (merge_key x) (merge_key y)). by destruct (cmp (merge_key x) (merge_key y)).
    + intros x y z Hx Hy Hz. rewrite !merges_first_key by auto. unfold cmp_ltb. intros H1 H2. pose proof (@cmp_le_trans _ _ HL (merge_key z) (merge_key y) (merge_key x)) as Ht.
      rewrite (@cmp_opp _ _ HL (merge_key y) (merge_key z)), (@cmp_opp _ _ HL (merge_key x) (merge_key y)), (@cmp_opp _ _ HL (merge_key x) (merge_key z)) in Ht.
      destruct (cmp (merge_key x) (merge_key y)), (cmp (merge_key y) (merge_key z)), (cmp (merge_key x) (merge_key z)); naive_solver. }
  split_and!; [done|apply merge_sorted_search; [apply Forall_forall; intros x Hx; apply Hc; by rewrite kmerge_perm in Hx|done]|].
  intros x. rewrite kmerge_perm, list_elem_of_In, in_concat. by setoid_rewrite list_elem_of_In.
Qed.

Lemma merge_sorted_after {A} (first : A -> A -> bool) (l1 l2 : list A) x y : merge_sorted first (l1 ++ x :: l2) -> y ∈ l2 -> first y x = false.
Proof. induction l1 as [|z l1 IH]; cbn; [intros [Hf _] Hy; rewrite Forall_forall in Hf; by apply Hf|]. intros [_ Hs]. by apply IH. Qed.

End sorted.

(** ** The maps of a package *)

Section selection.
Context {RV RS : Type} {SV : RangeSet Version RV} {SS : RangeSet text RS}.
Context (okV : RV -> Prop) (okS : RS -> Prop) (ordered : bool).
Context {LV : RangeSetLaws Version RV version_wf okV} {LS : RangeSetLaws text RS (fun _ => True) okS}.
Context {InstalledDist Metadata R : Type} {SR : RangeSet Version R} {AR : AsSingleton R} {I : Installed InstalledDist} {M : KMerge} {LM : KMergeLaws M}.
Context (okR : R -> Prop) {LR : RangeSetLaws Version R version_wf okR} {LA : AsSingletonLaws R okR}.
Context (lazies : list (VersionMapLazy Metadata)).
Abbreviation Store := (@Store RV RS).
Abbreviation item := (Version * VersionMapDistHandle Metadata)%type.
Abbreviation store_ok := (store_ok okV okS ordered lazies).
Abbreviation kept_ok := (kept_ok okV okS ordered lazies).
Abbreviation item_ok := (item_ok lazies).

(** A map that the run has made, or one of distributions that are in order. *)
Definition map_ready (m : VersionMap Metadata) : Prop :=
  match m with
  | VM_Lazy lazy => lazy ∈ lazies
  | VM_Eager eager => bt_valid version_wf (eager_map eager) /\ bt_sorted (eager_map eager) /\ Forall (fun e => dist_wf (snd e)) (eager_map eager)
  end.

Lemma map_ready_ok st m : store_ok st -> map_ready m -> map_sorted m /\ Forall item_ok (entries m).
Proof.
  intros (_&Hm&_&_) Hr. unfold map_sorted. destruct m as [eager|lazy]; cbn [entries].
  - destruct Hr as (Hv&Hs&Hd). unfold bt_valid in *. rewrite Forall_forall in Hd, Hv. split; [split; [|by apply bt_map_sorted]|]; apply Forall_forall; intros e (e'&->&Hin)%list_elem_of_fmap; [by apply Hv|].
    split; [by apply Hv|]. by apply Hd.
  - rewrite Forall_forall in Hm. destruct (Hm lazy Hr) as (Hv&Hs&_&_). unfold bt_valid in *. rewrite Forall_forall in Hv. split; [split; [|by apply bt_map_sorted]|]; apply Forall_forall; intros e (e'&->&Hin)%list_elem_of_fmap; [by apply Hv|].
    split; [by apply Hv|]. split; [done|]. exists (fst e'). by destruct e'.
Qed.

Context (range : R) (Hrange : okR range) (package_name : PackageName).

Section direction.
Context (highest allow_prerelease : bool).
Abbreviation usable := (usable range allow_prerelease).
Abbreviation best_in := (best_in (InstalledDist := InstalledDist) range allow_prerelease package_name highest).
Abbreviation loop_result := (loop_result (InstalledDist := InstalledDist) range allow_prerelease package_name highest None).
Abbreviation best_entry := (best_entry (InstalledDist := InstalledDist) range allow_prerelease package_name highest).

(** What is best only depends on the entries that count. *)
Lemma best_entry_usable (l k : list item) c e : (forall e, usable e = true -> e ∈ l <-> e ∈ k) -> best_entry l c e -> best_entry k c e.
Proof.
  intros Hlk (Hu&Hcand&Hbest&Hinc). split_and!; [done|done| |].
  - intros e' Hin' Hu'. apply Hbest; [by apply Hlk|done].
  - intros Hi e' Hin' Hu'. apply Hinc; [done|apply Hlk; [by apply usable_compatible_usable|done]|done].
Qed.

Lemma loop_result_usable (l k : list item) r : (forall e, usable e = true -> e ∈ l <-> e ∈ k) -> loop_result l r ->
  match r with None => forall e, e ∈ k -> usable e = false | Some c => best_in k c end.
Proof.
  intros Hlk. destruct r as [c|]; cbn.
  - intros (l1&e&l2&->&Hb&_). exists e. split; [apply Hlk; [by destruct Hb as [? _]|set_solver]|]. by eapply best_entry_usable.
  - intros H e Hin. destruct (CandidateFacts.usable range allow_prerelease e) eqn:Hu; [|done]. rewrite <- Hu. apply H. by apply Hlk.
Qed.

Lemma usable_contains (e : item) : usable e = true -> rs_contains range (fst e) = true.
Proof. unfold CandidateFacts.usable. by intros [[_ H]%andb_prop _]%andb_prop. Qed.

(** The entries of a map in the order of the search. *)
Lemma map_items st m : store_ok st -> map_ready m -> exists items, VersionMap.iter m range = Some items /\ Forall item_ok (directed highest items) /\ search_sorted highest (directed highest items) /\
  forall e, usable e = true -> e ∈ directed highest items <-> e ∈ entries m.
Proof.
  intros Hst Hm. destruct (map_ready_ok st m Hst Hm) as [Hsort Hok]. destruct (iter_ok okR m range Hrange Hsort) as (items&E&Hs&Hsub&Hcov). exists items. split; [done|]. rewrite Forall_forall in Hok.
  assert (bt_valid version_wf items) as Hv by (apply Forall_forall; intros e He; by apply Hok, Hsub). split_and!.
  - apply Forall_forall. intros e He%directed_elem. by apply Hok, Hsub.
  - by apply directed_sorted.
  - intros e Hu. rewrite directed_elem. split; [apply Hsub|]. intros Hin. apply Hcov; [done|by apply usable_contains].
Qed.

(** The first map with an entry that counts, and the best of its entries. *)
Definition first_of (maps : list (VersionMap Metadata)) (r : option (Candidate InstalledDist)) : Prop :=
  match r with
  | None => forall m e, m ∈ maps -> e ∈ entries m -> usable e = false
  | Some c => exists before m after, maps = before ++ m :: after /\ (forall m' e, m' ∈ before -> e ∈ entries m' -> usable e = false) /\ best_in (entries m) c
  end.

Lemma first_match_ok maps : Forall map_ready maps -> forall st, store_ok st ->
  spec (first_match highest package_name range allow_prerelease maps) st (fun r st' => kept_ok st st' /\ first_of maps r).
Proof.
  induction 1 as [|m maps Hm _ IH]; intros st Hst; cbn [first_match].
  - apply spec_ret. split; [by apply kept_refl|]. by intros m e Hin%not_elem_of_nil.
  - destruct (map_items st m Hst Hm) as (items&E&Hok&Hs&Hu). apply spec_bind. eapply spec_intro; [unfold mlift; by rewrite E|]. apply spec_bind.
    eapply spec_mono; [by apply (select_loop_ok okV okS ordered lazies range allow_prerelease package_name highest (directed highest items) None st)|].
    intros r st1 [Hk Hr]. apply (loop_result_usable _ (entries m)) in Hr; [|done]. destruct r as [c|].
    + apply spec_ret. split; [done|]. exists [], m, maps. split_and!; [done| |done]. by intros m' e Hin%not_elem_of_nil.
    + pose proof Hk as [Hst1 _]. eapply spec_mono; [by apply IH|]. intros r st2 [Hk2 Hr2]. split; [by eapply kept_trans|]. destruct r as [c|].
      * destruct Hr2 as (before&m1&after&->&Hbefore&Hbest). exists (m :: before), m1, after. split_and!; [done| |done]. intros m' e [->|Hin]%elem_of_cons; [apply Hr|by apply Hbefore].
      * intros m' e [->|Hin]%elem_of_cons; [apply Hr|by apply Hr2].
Qed.

Lemma indexed_entries_ok st maps : store_ok st -> Forall map_ready maps -> forall i, exists ls, indexed_entries highest range i maps = Some ls /\
  Forall (Forall (fun x => item_ok (snd x))) ls /\ Forall (merge_sorted (merges_first highest)) ls /\
  forall j e, usable e = true -> (exists l : list (nat * item), l ∈ ls /\ (j, e) ∈ l) <-> exists k m, j = (i + k)%nat /\ maps !! k = Some m /\ e ∈ entries m.
Proof.
  intros Hst. induction 1 as [|m maps Hm _ IH]; intros i; cbn [indexed_entries].
  - exists []. split_and!; [done|done|done|]. intros j e _. split; [by intros (l&Hl%not_elem_of_nil&_)|by intros (k&m&_&Hk&_)].
  - destruct (map_items st m Hst Hm) as (items&E&Hok&Hs&Hu). destruct (IH (S i)) as (ls&E'&H1&H2&H3). rewrite E, E'. cbn [mbind option_bind]. eexists. split; [done|]. split_and!.
    + constructor; [|done]. apply Forall_forall. intros x (e&->&Hin)%list_elem_of_fmap. rewrite Forall_forall in Hok. by apply Hok.
    + constructor; [|done]. apply merges_first_sorted; [|done]. eapply Forall_impl; [exact Hok|]. by intros e [H _].
    + intros j e Hue. split.
      * intros (l&[->|Hl]%elem_of_cons&Hin).
        -- apply list_elem_of_fmap in Hin as (e'&[= -> ->]&Hin). exists 0%nat, m. split_and!; [lia|done|by apply Hu].
        -- destruct (proj1 (H3 j e Hue)) as (k&m'&->&Hk&He); [by exists l|]. exists (S k), m'. split_and!; [lia|done|done].
      * intros ([|k]&m'&->&Hk&He).
        -- injection Hk as <-. eexists. split; [by apply elem_of_cons; left|]. apply list_elem_of_fmap. exists e. split; [f_equal; lia|by apply Hu].
        -- destruct (proj2 (H3 (i + S k)%nat e Hue)) as (l&Hl&Hin); [exists k, m'; split_and!; [lia|done|done]|]. exists l. split; [by apply elem_of_cons; right|done].
Qed.

(** Over all maps: the best of all entries, from the first map that has it. A map before
    that has no entry of the same version that counts, or, if the candidate is
    compatible, no compatible one. *)
Definition best_of_all (maps : list (VersionMap Metadata)) (r : option (Candidate InstalledDist)) : Prop :=
  match r with
  | None => forall m e, m ∈ maps -> e ∈ entries m -> usable e = false
  | Some c => exists i m e, maps !! i = Some m /\ e ∈ entries m /\ best_entry (maps ≫= entries) c e /\
      forall j m' e', (j < i)%nat -> maps !! j = Some m' -> e' ∈ entries m' -> passed_over range allow_prerelease c e e'
  end.

(** The first of the merged entries that could be taken is from the first map. *)
Lemma merged_first (c : Candidate InstalledDist) (l1 l2 : list (nat * item)) i j (e e' : item) : merge_sorted (merges_first highest) (l1 ++ (i, e) :: l2) ->
  Forall (passed_over range allow_prerelease c e) (map snd l1) -> (usable e' = true -> (j, e') ∈ l1 ++ (i, e) :: l2) -> (j < i)%nat -> passed_over range allow_prerelease c e e'.
Proof.
  intros Hs Hf Hin Hlt Heq. destruct (if is_incompatible (candidate_dist c) then usable e' else is_usable_compatible range allow_prerelease e') eqn:E; [|done]. exfalso.
  assert (usable e' = true) as Hu by (destruct (is_incompatible (candidate_dist c)); [done|by apply usable_compatible_usable]).
  apply Hin in Hu as [Hl1|[[= -> ->]|Hl2]%elem_of_cons]%elem_of_app; [|lia|].
  - rewrite Forall_forall in Hf. rewrite (Hf e') in E; [done|apply list_elem_of_fmap; by exists (j, e')|done].
  - apply (merge_sorted_after _ _ _ _ _ Hs) in Hl2. unfold merges_first in Hl2. cbn in Hl2. unfold cmp_eqb in Heq. destruct (cmp (fst e') (fst e)); try done. apply Nat.ltb_ge in Hl2. lia.
Qed.

Lemma best_match_ok st maps ls : store_ok st -> Forall map_ready maps -> indexed_entries highest range 0 maps = Some ls ->
  spec (select_candidate package_name range allow_prerelease (map snd (kmerge_by (merges_first highest) ls))) st (fun r st' => kept_ok st st' /\ best_of_all maps r).
Proof.
  intros Hst Hm El. destruct (indexed_entries_ok st maps Hst Hm 0) as (ls'&E&H1&H2&H3). rewrite El in E. injection E as <-.
  destruct (kmerge_search highest ls) as (Hsort&Hs&Helem); [eapply Forall_impl; [exact H1|]; intros l Hl; eapply Forall_impl; [exact Hl|]; by intros x [H _]|done|].
  assert (forall j e, usable e = true -> (j, e) ∈ kmerge_by (merges_first highest) ls <-> exists m, maps !! j = Some m /\ e ∈ entries m) as Hall.
  { intros j e Hu. rewrite Helem, H3 by done. cbn. split; [by intros (k&m&->&?&?); exists m|intros (m&?&?); by exists j, m]. }
  assert (forall e, usable e = true -> e ∈ map snd (kmerge_by (merges_first highest) ls) <-> e ∈ maps ≫= entries) as Hset.
  { intros e Hu. rewrite list_elem_of_bind, list_elem_of_fmap. split.
    - intros ([j e0]&->&(m&Hj&He)%Hall); [|done]. exists m. split; [done|]. by eapply list_elem_of_lookup_2.
    - intros (m&He&[j Hj]%list_elem_of_lookup). exists (j, e). split; [done|]. apply Hall; [done|]. by exists m. }
  eapply spec_mono; [apply (select_loop_ok okV okS ordered lazies range allow_prerelease package_name highest _ None st); [done| |done|done]|].
  - apply Forall_forall. intros e ([j e0]&->&(l&Hl&Hin)%Helem)%list_elem_of_fmap. rewrite Forall_forall in H1. specialize (H1 l Hl). rewrite Forall_forall in H1. by apply (H1 (j, e0)).
  - intros r st' [Hk Hr]. split; [done|]. destruct r as [c|].
    + destruct Hr as (k1&e&k2&Ek&Hb&Hf). apply (best_entry_usable _ (maps ≫= entries)) in Hb; [|exact Hset]. pose proof Hb as [Hu _].
      apply fmap_app_inv in Ek as (l1&l2'&->&E2&EL). symmetry in E2. apply fmap_cons_inv in E2 as ([i e0]&l2&->&->&->). cbn in *.
      destruct (proj1 (Hall i e0 Hu)) as (m&Hi&He); [rewrite EL; set_solver|]. exists i, m, e0. split_and!; [done|done|done|]. intros j m' e' Hlt Hj He'.
      rewrite EL in Hsort. eapply merged_first; [exact Hsort|exact Hf| |exact Hlt]. intros Hu'. rewrite <- EL. apply Hall; [done|]. by exists m'.
    + intros m e Hm' He. destruct (CandidateFacts.usable range allow_prerelease e) eqn:Hu; [|done]. rewrite <- Hu. apply Hr, Hset; [done|]. apply list_elem_of_bind. by exists m.
Qed.

End direction.
End selection.
