(* ===== verification/CandidateTheorems.v ===== *)
(** * Theorems on the choice of a candidate *)

From stdpp Require Import base numbers list strings gmap.
From S2P Require Import Prelude VersionTypes VersionSmall Version VersionFacts VersionParser Specifier Ranges RangesFacts RangesTheorems Names Text PlatformTags Tags Filename RangeSet Cuts Tiling MarkerTypes MarkerAlgebra MarkerEval MarkerWf MarkerEdges MarkerExpr MarkerOps MarkerVersions MarkerTree MarkerExamples MarkerFormula PrioritizedDist OrderedMap PrioritizedDistTheorems PythonRange PythonRangeTheorems VersionMap VersionMapTheorems CandidateSelector CandidateFacts.

#[local] Open Scope N_scope.

Lemma hash_map_get_elem {K V} (eqb : K -> K -> bool) (m : list (K * V)) key v : hash_map_get eqb m key = Some v -> exists k, (k, v) ∈ m.
Proof. unfold hash_map_get. intros ([k v']&[Hin _]%List.find_some&->)%fmap_Some. exists k. by apply list_elem_of_In. Qed.

Section selection.
Context {RV RS : Type} {SV : RangeSet Version RV} {SS : RangeSet text RS}.
Context (okV : RV -> Prop) (okS : RS -> Prop) (ordered : bool).
Context {LV : RangeSetLaws Version RV version_wf okV} {LS : RangeSetLaws text RS (fun _ => True) okS}.
Context {InstalledDist Metadata R : Type} {SR : RangeSet Version R} {AR : AsSingleton R} {I : Installed InstalledDist} {M : KMerge} {LM : KMergeLaws M}.
Context (okR : R -> Prop) {LR : RangeSetLaws Version R version_wf okR} {LA : AsSingletonLaws R okR}.
Context (lazies : list (VersionMapLazy Metadata)).
Abbreviation Store := (@Store RV RS).
Abbreviation Candidate := (Candidate InstalledDist).
Abbreviation item := (Version * VersionMapDistHandle Metadata)%type.
Abbreviation store_ok := (store_ok okV okS ordered lazies).
Abbreviation kept_ok := (kept_ok okV okS ordered lazies).
Abbreviation map_ready := (map_ready lazies).

(** ** The environment *)

(** The markers of the run are nodes of the store it starts from. *)
Context (st0 : Store).
Abbreviation node_ok := (valid_id (nodes (st_interner st0))).
Abbreviation holds := (eval (nodes (st_interner st0))).

Definition env_ok (env : ResolverEnvironment) : Prop := match env with RE_Specific _ => True | RE_Universal markers => node_ok markers end.

Definition fork_map_ok {T} (m : ForkMap T) : Prop := Forall (fun e => Forall (fun v => node_ok (snd v)) (snd e)) m.

(** Whether the fork of the environment can meet the marker: in a fork that is left out
    nothing satisfies both. *)
Definition fork_meets (env : ResolverEnvironment) (marker : NodeId) (included : bool) : Prop :=
  match env with
  | RE_Specific _ => included = true
  | RE_Universal markers => included = false -> forall a, admissible a -> holds a markers && holds a marker = false
  end.

Lemma included_by_marker_ok env marker st : kept_ok st0 st -> env_ok env -> node_ok marker ->
  spec (included_by_marker env marker) st (fun b st' => kept_ok st0 st' /\ fork_meets env marker b).
Proof.
  intros [Hst Hg] He Hm. destruct env as [menv|markers]; cbn [included_by_marker]; [by apply spec_ret|]. pose proof Hst as (Hwf&_). pose proof Hg as (Hx&Hc&Hn). apply spec_bind.
  pose proof (is_disjoint_spec okV okS ordered (st_interner st) markers marker Hwf) as Hd. assert (valid_id (nodes (st_interner st)) markers /\ valid_id (nodes (st_interner st)) marker) as [H1 H2] by (split; by eapply extends_valid).
  destruct (spec_elim _ _ _ (Hd H1 H2)) as (b&s'&E&Hx'&Hs'&Hb). eapply spec_intro; [unfold with_interner; by rewrite E|]. apply spec_ret. split.
  - split; [by apply store_ok_interner|]. split_and!; cbn; [by etrans|done|done].
  - cbn. intros Hnb%negb_false_iff a Ha. rewrite <- (Hb Hnb a Ha). f_equal; symmetry; by apply extends_eval.
Qed.

(** Whether the package has an entry in the fork. *)
Definition fork_has {T} (m : ForkMap T) (package_name : PackageName) (env : ResolverEnvironment) (b : bool) : Prop :=
  let values := default [] (hash_map_get name_eqb m package_name) in
  (b = true -> values <> []) /\
  (b = false -> forall v, v ∈ values -> fork_meets env (snd v) false).

Lemma fork_values_ok {T} env (values : list (T * NodeId)) st : kept_ok st0 st -> env_ok env -> Forall (fun v => node_ok (snd v)) values ->
  spec (fork_values env values) st (fun l st' => kept_ok st0 st' /\ (l <> [] -> values <> []) /\ (l = [] -> forall v, v ∈ values -> fork_meets env (snd v) false)).
Proof.
  intros Hst He Hv. revert st Hst. induction Hv as [|[value marker] values Hm Hv IH]; intros st Hst; cbn [fork_values].
  - apply spec_ret. split; [done|]. split; [done|]. by intros _ v Hin%not_elem_of_nil.
  - apply spec_bind. eapply spec_mono; [by apply included_by_marker_ok|]. intros b st1 [H1 Hb]. apply spec_bind. eapply spec_mono; [by apply IH|]. intros l st2 (H2&Hl1&Hl2). apply spec_ret.
    split; [done|]. split; [done|]. destruct b; [done|]. intros Hl v [->|Hin]%elem_of_cons; [exact Hb|by apply Hl2].
Qed.

Lemma fork_contains_ok {T} (m : ForkMap T) name env st : kept_ok st0 st -> env_ok env -> fork_map_ok m ->
  spec (fork_contains m name env) st (fun b st' => kept_ok st0 st' /\ fork_has m name env b).
Proof.
  intros Hst He Hm. unfold fork_contains, fork_get, fork_has. apply spec_bind. destruct (hash_map_get name_eqb m name) as [values|] eqn:E; cbn [default].
  - destruct (hash_map_get_elem _ _ _ _ E) as [k Hin]. unfold fork_map_ok in Hm. rewrite Forall_forall in Hm. specialize (Hm _ Hin). eapply spec_mono; [by apply fork_values_ok|]. intros l st1 (H1&H2&H3). apply spec_ret. split; [done|].
    destruct l; cbn; (split; [intros Hb; try done; by apply H2|intros Hb; try done; by apply H3]).
  - apply spec_ret, spec_ret. split; [done|]. split; [done|]. by intros _ v Hin%not_elem_of_nil.
Qed.

(** ** The strategies *)

Definition strategy_ok (self : CandidateSelector) : Prop :=
  match resolution_strategy self with RS_LowestDirect direct_dependencies => fork_map_ok direct_dependencies | _ => True end /\
  match prerelease_strategy self with PS_Explicit packages | PS_IfNecessaryOrExplicit packages => fork_map_ok packages | _ => True end.

(** The direction of the search that the strategy asks for. *)
Definition direction (self : CandidateSelector) (name : PackageName) (env : ResolverEnvironment) (highest : bool) : Prop :=
  match resolution_strategy self with
  | RS_Highest => highest = true
  | RS_Lowest => highest = false
  | RS_LowestDirect direct_dependencies => fork_has direct_dependencies name env (negb highest)
  end.

(** Whether prereleases are allowed. *)
Definition allowed (self : CandidateSelector) (name : PackageName) (env : ResolverEnvironment) (allow : AllowPrerelease) : Prop :=
  match prerelease_strategy self with
  | PS_Disallow => allow = AP_No
  | PS_Allow => allow = AP_Yes
  | PS_IfNecessary => allow = AP_IfNecessary
  | PS_Explicit packages => exists b : bool, fork_has packages name env b /\ allow = if b then AP_Yes else AP_No
  | PS_IfNecessaryOrExplicit packages => exists b : bool, fork_has packages name env b /\ allow = if b then AP_Yes else AP_IfNecessary
  end.

Lemma use_highest_version_ok self name env st : kept_ok st0 st -> env_ok env -> strategy_ok self ->
  spec (use_highest_version self name env) st (fun b st' => kept_ok st0 st' /\ direction self name env b).
Proof.
  intros Hst He [Hs _]. unfold use_highest_version, direction. destruct (resolution_strategy self); [by apply spec_ret..|]. apply spec_bind. eapply spec_mono; [by apply fork_contains_ok|].
  intros b st1 [H1 H2]. apply spec_ret. split; [done|]. by rewrite negb_involutive.
Qed.

Lemma allows_ok self name env st : kept_ok st0 st -> env_ok env -> strategy_ok self ->
  spec (allows (prerelease_strategy self) name env) st (fun allow st' => kept_ok st0 st' /\ allowed self name env allow).
Proof.
  intros Hst He [_ Hs]. unfold allowed. destruct (prerelease_strategy self); cbn [allows]; try by apply spec_ret.
  all: apply spec_bind; eapply spec_mono; [by apply fork_contains_ok|]; intros b st1 [H1 H2]; apply spec_ret; split; [done|by exists b].
Qed.

(** ** The search without preferences *)

Context (range : R) (Hrange : okR range) (package_name : PackageName) (version_maps : list (VersionMap Metadata)) (Hmaps : Forall map_ready version_maps).
Context (self : CandidateSelector) (env : ResolverEnvironment) (Hself : strategy_ok self) (Henv : env_ok env).

Definition with_prereleases (allow : AllowPrerelease) : bool :=
  match allow with AP_Yes => true | AP_No => false | AP_IfNecessary => negb (existsb VersionMap.stable version_maps) end.

(** What a search without preferences returns: the best entry of all maps, or of the
    first map that has an entry. *)
Definition searched (highest : bool) (r : option Candidate) : Prop :=
  exists allow, allowed self package_name env allow /\
    match index_strategy self with
    | UnsafeBestMatch => best_of_all range package_name highest (with_prereleases allow) version_maps r
    | _ => first_of range package_name highest (with_prereleases allow) version_maps r
    end.

Lemma select_no_preference_ok st : kept_ok st0 st ->
  spec (select_no_preference self package_name range version_maps env) st
    (fun r st' => kept_ok st0 st' /\ exists highest, direction self package_name env highest /\ searched highest r).
Proof.
  intros Hst. unfold select_no_preference. apply spec_bind. eapply spec_mono; [by apply use_highest_version_ok|]. intros highest st1 [H1 Hh]. apply spec_bind. eapply spec_mono; [by apply allows_ok|].
  intros allow st2 [H2 Ha]. unfold searched. fold (with_prereleases allow). pose proof H2 as [Hok _].
  assert (spec (first_match highest package_name range (with_prereleases allow) version_maps) st2 (fun (r : option Candidate) st' => kept_ok st0 st' /\ first_of range package_name highest (with_prereleases allow) version_maps r)) as Hfirst.
  { eapply spec_mono; [by apply (first_match_ok okV okS ordered okR lazies)|]. intros r st3 [H3 Hr]. split; [by eapply kept_trans|done]. }
  destruct (index_strategy self).
  - eapply spec_mono; [exact Hfirst|]. naive_solver.
  - eapply spec_mono; [exact Hfirst|]. naive_solver.
  - destruct (indexed_entries_ok okV okS ordered okR lazies range Hrange highest (with_prereleases allow) st2 version_maps Hok Hmaps 0) as (ls&E&_). apply spec_bind. eapply spec_intro; [unfold mlift; by rewrite E|].
    eapply spec_mono; [by apply (best_match_ok okV okS ordered okR lazies range Hrange package_name highest (with_prereleases allow) st2 version_maps ls)|].
    intros r st3 [H3 Hr]. split; [by eapply kept_trans|]. exists highest. split; [done|]. by exists allow.
Qed.

(** A result is in the range and well formed. *)
Lemma searched_sound st highest c : store_ok st -> searched highest (Some c) ->
  candidate_name c = package_name /\ version_wf (candidate_version c) /\ rs_contains range (candidate_version c) = true /\ choice_kind c = Kind_Compatible.
Proof.
  intros Hst (allow&_&Hs). assert (exists m e, m ∈ version_maps /\ e ∈ entries m /\ usable range (with_prereleases allow) e = true /\ candidate_of package_name e c) as (m&e&Hm&He&Hu&Hn&Hv&Hk&_).
  { destruct (index_strategy self).
    - destruct Hs as (before&m&after&E&_&e&He&Hu&Hc&_). exists m, e. rewrite E. split; [set_solver|done].
    - destruct Hs as (before&m&after&E&_&e&He&Hu&Hc&_). exists m, e. rewrite E. split; [set_solver|done].
    - destruct Hs as (i&m&e&Hi&He&(Hu&Hc&_)&_). exists m, e. split; [by eapply list_elem_of_lookup_2|done]. }
  rewrite Forall_forall in Hmaps. destruct (map_ready_ok okV okS ordered lazies st m Hst (Hmaps m Hm)) as [_ Hok]. rewrite Forall_forall in Hok. rewrite Hv.
  split_and!; [done|by apply Hok|by eapply usable_contains|done].
Qed.

(** ** Preferences *)

Lemma get_entries (m : VersionMap Metadata) version : VersionMap.get m version =
  match get_key_value (entries m) version with Some (_, h) => prioritized_dist h | None => mret None end :> act Store (option PrioritizedDist).
Proof.
  destruct m as [eager|lazy]; cbn [VersionMap.get entries]; rewrite get_key_value_map; unfold lazy_get, bt_get; by destruct (get_key_value _ version) as [[k d]|].
Qed.

(** The map has the distribution at the version. *)
Definition found_in (m : VersionMap Metadata) (version : Version) (d : PrioritizedDist) : Prop :=
  exists e d0, e ∈ entries m /\ cmp_eqb (fst e) version = true /\ handle_dist (snd e) = Some d0 /\ same_dist d d0.

Definition found (version : Version) (d : PrioritizedDist) : Prop := exists m, m ∈ version_maps /\ found_in m version d.

Lemma get_ok m version st : kept_ok st0 st -> map_ready m ->
  spec (VersionMap.get m version) st (fun answer st' => kept_ok st0 st' /\ forall d, answer = Some d -> dist_wf d /\ found_in m version d).
Proof.
  intros Hk Hm. pose proof Hk as [Hst _]. destruct (map_ready_ok okV okS ordered lazies st m Hst Hm) as [_ Hok]. rewrite get_entries. destruct (get_key_value (entries m) version) as [[k h]|] eqn:E.
  - apply get_key_value_some in E as [Hin Hc]. rewrite Forall_forall in Hok. destruct (Hok _ Hin) as [_ Hh]. eapply spec_mono; [by apply prioritized_dist_ok|]. intros answer st' [Hk' Ha].
    split; [by eapply kept_trans|]. intros d ->. destruct (handle_dist h) as [d0|] eqn:Ed; [|done]. destruct Ha as (d'&[= <-]&Hs&Hwf). split; [done|]. by exists (k, h), d0.
  - by apply spec_ret.
Qed.

Lemma find_version_ok version maps : Forall map_ready maps -> forall st, kept_ok st0 st ->
  spec (find_version maps version) st (fun r st' => kept_ok st0 st' /\ forall m d, r = Some (m, d) -> m ∈ maps /\ dist_wf d /\ found_in m version d).
Proof.
  induction 1 as [|m maps Hm _ IH]; intros st Hst; cbn [find_version]; [by apply spec_ret|]. apply spec_bind. eapply spec_mono; [by apply get_ok|]. intros [d|] st1 [H1 Hd].
  - apply spec_ret. split; [done|]. intros m' d' [= <- <-]. split; [by apply elem_of_cons; left|by apply Hd].
  - eapply spec_mono; [by apply IH|]. intros r st2 [H2 Hr]. split; [done|]. intros m' d' E. destruct (Hr m' d' E) as [Hin H]. split; [by apply elem_of_cons; right|done].
Qed.

Lemma find_local_ok m version locals st : kept_ok st0 st -> map_ready m ->
  spec (find_local m version range locals) st (fun r st' => kept_ok st0 st' /\ forall local d, r = Some (local, d) ->
    is_local local = true /\ cmp_eqb (without_local local) version = true /\ rs_contains range local = true /\ dist_wf d /\ found_in m local d).
Proof.
  intros Hst Hm. revert st Hst. induction locals as [|local locals IH]; intros st Hst; cbn [find_local]; [by apply spec_ret|].
  destruct (is_local local) eqn:E1; cbn [negb]; [|by apply IH]. destruct (cmp_eqb (without_local local) version) eqn:E2; cbn [negb]; [|by apply IH]. destruct (rs_contains range local) eqn:E3; cbn [negb]; [|by apply IH].
  apply spec_bind. eapply spec_mono; [by apply get_ok|]. intros [d|] st1 [H1 Hd]; [|by apply IH]. apply spec_ret. split; [done|]. intros l d' [= <- <-]. destruct (Hd d eq_refl). by split_and!.
Qed.

Context (reinstall : bool) (tags : option Tags).

(** The only installed version that may be used, and its distribution. *)
Definition installed_as (version : Version) (dist : InstalledDist) : Prop :=
  reinstall = false /\ get_packages package_name = [dist] /\ cmp_eqb (installed_version dist) version = true /\ tags_mismatch tags dist = false.

(** The candidate for a preferred version: what is installed, or a distribution of the
    maps, of the version or of a local variant of it. *)
Definition prefers (version : Version) (c : Candidate) : Prop :=
  candidate_name c = package_name /\ choice_kind c = Kind_Preference /\ rs_contains range version = true /\ rs_contains range (candidate_version c) = true /\
  ((candidate_version c = version /\ exists dist, candidate_dist c = Cand_Compatible (CD_InstalledDist dist) /\ installed_as version dist) \/
   (exists d, found (candidate_version c) d /\ CandidateDist_from d = Some (candidate_dist c)) /\
   (candidate_version c = version \/ is_local (candidate_version c) = true /\ cmp_eqb (without_local (candidate_version c)) version = true)).

Lemma prefers_found st version chosen d : dist_wf d -> found chosen d -> rs_contains range version = true -> rs_contains range chosen = true ->
  chosen = version \/ is_local chosen = true /\ cmp_eqb (without_local chosen) version = true -> kept_ok st0 st ->
  spec (mlift (Some <$> Candidate_new package_name chosen d Kind_Preference)) st (fun r st' => kept_ok st0 st' /\ exists c, r = Some c /\ prefers version c).
Proof.
  intros Hwf Hf H1 H2 Hor Hst. destruct (candidate_from_some (D := InstalledDist) d Hwf) as [cd Ecd]. unfold Candidate_new. rewrite Ecd. eapply spec_intro; [done|]. split; [done|]. eexists. split; [done|].
  split_and!; [done..|]. right. split; [by exists d|done].
Qed.

Lemma prerelease_allowed_ok version source st : kept_ok st0 st -> spec (prerelease_allowed self package_name env version source) st (fun _ st' => kept_ok st0 st').
Proof.
  intros Hst. unfold prerelease_allowed. destruct (any_prerelease version); [|by apply spec_ret]. apply spec_bind. eapply spec_mono; [by apply allows_ok|]. intros allow st1 [H1 _]. by apply spec_ret.
Qed.

Lemma get_preferred_from_iter_ok (preferences : list (Version * PreferenceSource)) : forall st, kept_ok st0 st ->
  spec (get_preferred_from_iter self preferences package_name range version_maps reinstall env tags) st
    (fun r st' => kept_ok st0 st' /\ forall c, r = Some c -> exists p, p ∈ preferences /\ prefers (fst p) c).
Proof.
  induction preferences as [|[version source] preferences IH]; intros st Hst; cbn [get_preferred_from_iter]; [by apply spec_ret|].
  assert (forall st1, kept_ok st0 st1 -> spec (get_preferred_from_iter self preferences package_name range version_maps reinstall env tags) st1
    (fun r st' => kept_ok st0 st' /\ forall c, r = Some c -> exists p, p ∈ (version, source) :: preferences /\ prefers (fst p) c)) as Hnext.
  { intros st1 H1. eapply spec_mono; [by apply IH|]. intros r st2 [H2 Hr]. split; [done|]. intros c Hc. destruct (Hr c Hc) as (p&Hp&H). exists p. split; [by apply elem_of_cons; right|done]. }
  destruct (rs_contains range version) eqn:Er; cbn [negb]; [|by apply Hnext]. destruct (installed_preference package_name version reinstall tags) as [| |dist] eqn:Ei; [|by apply Hnext|].
  - apply spec_bind. eapply spec_mono; [by apply prerelease_allowed_ok|]. intros [] st1 H1; cbn [negb]; [|by apply Hnext]. apply spec_bind. eapply spec_mono; [by apply find_version_ok|].
    intros [[m file]|] st2 [H2 Hf]; [|by apply Hnext]. destruct (Hf m file eq_refl) as (Hm&Hwf&Hin). apply spec_bind.
    assert (map_ready m) as Hready by (rewrite Forall_forall in Hmaps; by apply Hmaps).
    eapply (spec_mono _ _ (fun r st' => kept_ok st0 st' /\ forall local d, r = Some (local, d) ->
      is_local local = true /\ cmp_eqb (without_local local) version = true /\ rs_contains range local = true /\ dist_wf d /\ found_in m local d)); [destruct (VersionMap.local m); [by apply find_local_ok|by apply spec_ret]|].
    intros [[local d]|] st3 [H3 Hl].
    + destruct (Hl local d eq_refl) as (Hl1&Hl2&Hl3&Hl4&Hl5). eapply spec_mono; [apply (prefers_found st3 version local d); [done|by exists m|done|done|by right|done]|].
      intros r st4 (H4&c&->&Hc). split; [done|]. intros c' [= <-]. exists (version, source). split; [by apply elem_of_cons; left|done].
    + eapply spec_mono; [apply (prefers_found st3 version version file); [done|by exists m|done|done|by left|done]|].
      intros r st4 (H4&c&->&Hc). split; [done|]. intros c' [= <-]. exists (version, source). split; [by apply elem_of_cons; left|done].
  - apply spec_ret. split; [done|]. intros c [= <-]. exists (version, source). split; [by apply elem_of_cons; left|]. unfold installed_preference in Ei.
    destruct reinstall eqn:Ere; [done|]. destruct (get_packages package_name) as [|d []] eqn:Eg; [done| |done]. destruct (cmp_eqb (installed_version d) version) eqn:Ev; [|done]. destruct (tags_mismatch tags d) eqn:Et; [done|]. injection Ei as <-.
    split_and!; [done..|]. left. split; [done|]. exists d. done.
Qed.

Lemma entry_keys_ok (l : list Entry) : Forall (fun e => node_ok (entry_marker e)) l -> forall st, kept_ok st0 st ->
  spec (entry_keys env l) st (fun keyed st' => kept_ok st0 st' /\ map snd keyed = l).
Proof.
  induction 1 as [|e l He _ IH]; intros st Hst; cbn [entry_keys]; [by apply spec_ret|]. apply spec_bind. eapply spec_mono; [by apply included_by_marker_ok|]. intros b st1 [H1 _]. apply spec_bind.
  eapply spec_mono; [by apply IH|]. intros keyed st2 [H2 Hk]. apply spec_ret. split; [done|]. cbn. by rewrite Hk.
Qed.

Lemma sort_entries_perm highest (l : list (bool * Entry)) : sort_entries highest l ≡ₚ l.
Proof.
  induction l as [|x l IH]; cbn; [done|]. transitivity (x :: sort_entries highest l); [|by rewrite IH]. generalize (sort_entries highest l) as k. clear. induction k as [|y k IH]; cbn; [done|].
  destruct (key_before highest y x); [|done]. rewrite IH. apply Permutation_swap.
Qed.

Context (preferences : Preferences) (index : option IndexUrl).
Context (Hpreferences : Forall (fun e => node_ok (entry_marker e)) (Preferences_get preferences package_name)).

(** The candidate is one for a preference of the package that fits the index. *)
Definition preferred (c : Candidate) : Prop :=
  exists entry, entry ∈ Preferences_get preferences package_name /\ index_fits index entry = true /\ prefers (pin_version (entry_pin entry)) c.

Lemma get_preferred_ok st : kept_ok st0 st ->
  spec (get_preferred self package_name range version_maps preferences reinstall index env tags) st (fun r st' => kept_ok st0 st' /\ forall c, r = Some c -> preferred c).
Proof.
  intros Hst. unfold get_preferred, preferred. destruct (Preferences_get preferences package_name) as [|e [|e' l]] eqn:E; [by apply spec_ret| |].
  - destruct (index_fits index e) eqn:Ef; cbn [negb]; [|by apply spec_ret]. eapply spec_mono; [by apply get_preferred_from_iter_ok|]. intros r st1 [H1 Hr]. split; [done|]. intros c Hc.
    destruct (Hr c Hc) as (p&->%list_elem_of_singleton&Hp). exists e. split; [by apply list_elem_of_singleton|done].
  - set (all := e :: e' :: l) in *. apply spec_bind. eapply spec_mono; [by apply use_highest_version_ok|]. intros highest st1 [H1 _]. apply spec_bind. eapply spec_mono; [apply entry_keys_ok; [|done]|].
    + apply Forall_forall. intros x Hx%list_elem_of_In%filter_In. rewrite Forall_forall in Hpreferences. apply Hpreferences, list_elem_of_In. tauto.
    + intros keyed st2 [H2 Hk]. eapply spec_mono; [by apply get_preferred_from_iter_ok|]. intros r st3 [H3 Hr]. split; [done|]. intros c Hc. destruct (Hr c Hc) as (p&([b x]&->&Hin)%list_elem_of_fmap&Hp).
      rewrite sort_entries_perm in Hin. assert (x ∈ List.filter (index_fits index) all) as Hx by (rewrite <- Hk; apply list_elem_of_fmap; by exists (b, x)).
      apply list_elem_of_In, filter_In in Hx as [Hx Hf]. exists x. split_and!; [by apply list_elem_of_In|done|done].
Qed.

(** ** [select] *)

Context (Hinstalled : Forall (fun dist => version_wf (installed_version dist)) (get_packages package_name)).

Lemma get_installed_sound c : get_installed package_name range tags = Some c ->
  candidate_name c = package_name /\ choice_kind c = Kind_Installed /\ version_wf (candidate_version c) /\ rs_contains range (candidate_version c) = true.
Proof.
  unfold get_installed. destruct (get_packages package_name) as [|d []]; [done| |done]. apply Forall_cons in Hinstalled as [Hd _]. destruct (rs_contains range (installed_version d)) eqn:Er; cbn [negb]; [|done].
  destruct (tags_mismatch tags d); [done|]. intros [= <-]. by split_and!.
Qed.

(** What the installed distribution, if it may be used, says. *)
Definition usable_installed : option Candidate := if reinstall then None else get_installed package_name range tags.

Definition selected (upgrade : bool) (r : option Candidate) : Prop :=
  match r with
  | None => usable_installed = None /\ exists highest, direction self package_name env highest /\ searched highest None
  | Some c =>
      candidate_name c = package_name /\ rs_contains range (candidate_version c) = true /\
      match choice_kind c with
      | Kind_Preference => preferred c
      | Kind_Installed => usable_installed = Some c /\
          (upgrade = true -> exists highest r', direction self package_name env highest /\ searched highest r' /\
            forall c', r' = Some c' -> exists highest', direction self package_name env highest' /\ precedes highest' (candidate_version c) (candidate_version c'))
      | Kind_Compatible => (usable_installed = None \/ upgrade = true) /\ exists highest, direction self package_name env highest /\ searched highest (Some c) /\
          forall i, usable_installed = Some i -> exists highest', direction self package_name env highest' /\ ~ precedes highest' (candidate_version i) (candidate_version c)
      end
  end.

Lemma before_precedes (highest : bool) (x y : Version) : version_wf x -> version_wf y -> ((if highest then cmp_geb x y else cmp_leb x y) : bool) = true <-> precedes highest x y.
Proof.
  intros Hx Hy. unfold precedes, cmp_geb, cmp_leb. rewrite !cmp_value by done. rewrite (cmp_opp (value x) (value y)). by destruct highest, (cmp (value x) (value y)).
Qed.

Lemma usable_installed_sound i : usable_installed = Some i -> candidate_name i = package_name /\ choice_kind i = Kind_Installed /\ version_wf (candidate_version i) /\ rs_contains range (candidate_version i) = true.
Proof. unfold usable_installed. destruct reinstall; [done|]. apply get_installed_sound. Qed.

Lemma select_ok upgrade st : kept_ok st0 st ->
  spec (select self package_name range version_maps preferences reinstall upgrade index env tags) st (fun r st' => kept_ok st0 st' /\ selected upgrade r).
Proof.
  intros Hst. unfold select. apply spec_bind. eapply spec_mono; [by apply get_preferred_ok|]. intros [p|] st1 [H1 Hp].
  { apply spec_ret. split; [done|]. pose proof (Hp p eq_refl) as (entry&Hin&Hf&Hpref). pose proof Hpref as (Hn&Hk&_&Hr&_). split; [done|]. split; [done|]. rewrite Hk. by exists entry. }
  fold usable_installed.
  assert (spec (let! compatible := select_no_preference self package_name range version_maps env in
    match usable_installed with
    | Some installed => match compatible with
      | None => mret (Some installed)
      | Some compatible' => let! highest := use_highest_version self package_name env in
          if (if highest : bool then cmp_geb (candidate_version installed) (candidate_version compatible') else cmp_leb (candidate_version installed) (candidate_version compatible')) then mret (Some installed) else mret compatible
      end
    | None => mret compatible
    end) st1 (fun r st' => kept_ok st0 st' /\ ((usable_installed = None \/ upgrade = true) -> selected upgrade r))) as Hsearch.
  { apply spec_bind. eapply spec_mono; [by apply select_no_preference_ok|]. intros r st2 (H2&highest&Hh&Hs). pose proof H2 as [Hok _]. destruct usable_installed as [i|] eqn:Ei.
    - destruct (usable_installed_sound i Ei) as (Hn&Hk&Hw&Hr). destruct r as [c|].
      + destruct (searched_sound st2 highest c Hok Hs) as (Hcn&Hcw&Hcr&Hck). apply spec_bind. eapply spec_mono; [by apply use_highest_version_ok|]. intros highest' st3 [H3 Hh'].
        destruct (if highest' : bool then cmp_geb (candidate_version i) (candidate_version c) else cmp_leb (candidate_version i) (candidate_version c)) eqn:Eb; apply spec_ret; (split; [done|]); intros Hu; cbn.
        * split; [done|]. split; [done|]. rewrite Hk. split; [done|]. intros _. exists highest, (Some c). split; [done|]. split; [done|]. intros c' [= <-]. exists highest'. split; [done|]. by apply before_precedes.
        * split; [done|]. split; [done|]. rewrite Hck, Ei. split; [done|]. exists highest. split; [done|]. split; [done|]. intros i' [= <-]. exists highest'. split; [done|]. rewrite <- before_precedes by done. by rewrite Eb.
      + apply spec_ret. split; [done|]. intros Hu. cbn. split; [done|]. split; [done|]. rewrite Hk. split; [done|]. intros _. exists highest, None. split; [done|]. by split.
    - apply spec_ret. split; [done|]. intros Hu. destruct r as [c|]; cbn; [|split; [done|by exists highest]]. destruct (searched_sound st2 highest c Hok Hs) as (Hcn&Hcw&Hcr&Hck). split; [done|]. split; [done|]. rewrite Hck, Ei.
      split; [done|]. exists highest. split; [done|]. by split. }
  destruct upgrade; [eapply spec_mono; [exact Hsearch|]; intros r st2 [H2 Hr]; split; [done|]; apply Hr; by right|].
  destruct usable_installed as [i|] eqn:Ei; [|eapply spec_mono; [exact Hsearch|]; intros r st2 [H2 Hr]; split; [done|]; apply Hr; by left].
  destruct (usable_installed_sound i Ei) as (Hn&Hk&Hw&Hr). apply spec_ret. split; [done|]. cbn. split; [done|]. split; [done|]. by rewrite Hk.
Qed.

(** A version that is compatible in one index is compatible in the first index that has
    it. *)
Definition settled (allow_prerelease : bool) : Prop := forall i j m m' e e', (i < j)%nat -> version_maps !! i = Some m -> version_maps !! j = Some m' ->
  e ∈ entries m -> e' ∈ entries m' -> cmp_eqb (fst e) (fst e') = true ->
  usable range allow_prerelease e = true -> is_usable_compatible range allow_prerelease e' = true -> is_usable_compatible range allow_prerelease e = true.

(** The best entry of all, and no index before has an entry of its version. *)
Definition best_of_first (highest allow_prerelease : bool) (r : option Candidate) : Prop :=
  match r with
  | None => forall m e, m ∈ version_maps -> e ∈ entries m -> usable range allow_prerelease e = false
  | Some c => exists i m e, version_maps !! i = Some m /\ e ∈ entries m /\ best_entry range allow_prerelease package_name highest (version_maps ≫= entries) c e /\
      forall j m' e', (j < i)%nat -> version_maps !! j = Some m' -> e' ∈ entries m' -> cmp_eqb (fst e') (fst e) = true -> usable range allow_prerelease e' = false
  end.

Lemma best_of_all_first highest allow_prerelease r : settled allow_prerelease -> best_of_all range package_name highest allow_prerelease version_maps r -> best_of_first highest allow_prerelease r.
Proof.
  intros Hset. destruct r as [c|]; [|done]. intros (i&m&e&Hm&He&Hb&Hp). exists i, m, e. split_and!; [done..|]. intros j m' e' Hj Hm' He' Heq. specialize (Hp j m' e' Hj Hm' He' Heq).
  destruct (is_incompatible (candidate_dist c)) eqn:Ei; [done|]. destruct (usable range allow_prerelease e') eqn:Hu; [|done]. rewrite (Hset j i m' m e' e Hj Hm' Hm He' He Heq Hu) in Hp; [done|].
  destruct Hb as (Hue&Hc&_). unfold is_usable_compatible. rewrite Hue. cbn [andb]. apply andb_prop in Hue as [_ Hue]. rewrite (candidate_of_status _ _ _ Hc) in *. unfold candidate_status in *. rewrite Ei in *. by destruct (excluded_newer _).
Qed.

(** C7: A search without preferences finds the best version there is. On maps that a run
    has made it never panics. Over all indexes ([UnsafeBestMatch]), or in the first index
    that has a version to offer (the other strategies), it returns the highest (or lowest,
    as the resolution strategy asks) version in the range whose prerelease is allowed and
    whose files were not uploaded too late: a compatible distribution if one of that
    version counts and is compatible, an incompatible one otherwise. [UnsafeBestMatch]
    takes the version from the first index that has it, if what is compatible in some
    index is compatible in the first that has it ([settled]; otherwise it goes on to a
    later index, against the documentation of the strategy: [best_match_looks_further]).
    It returns nothing only if no index has such a version. *)
Theorem select_no_preference_best : reachable_maps okV okS ordered lazies st0 -> (index_strategy self = UnsafeBestMatch -> forall allow_prerelease, settled allow_prerelease) ->
  exists highest allow r st', select_no_preference self package_name range version_maps env st0 = Some (r, st') /\ store_ok st' /\ grows st0 st' /\
    direction self package_name env highest /\ allowed self package_name env allow /\
    match index_strategy self with
    | UnsafeBestMatch => best_of_first highest (with_prereleases allow) r
    | _ => first_of range package_name highest (with_prereleases allow) version_maps r
    end.
Proof.
  intros [Hst _]%reachable_maps_ok Hset; [|done..]. destruct (spec_elim _ _ _ (select_no_preference_ok st0 (kept_refl okV okS ordered lazies st0 Hst))) as (r&st'&E&[H1 H2]&highest&Hh&allow&Ha&Hs).
  exists highest, allow, r, st'. split_and!; [done..|]. destruct (index_strategy self); [done|done|]. apply best_of_all_first; [by apply Hset|done].
Qed.

(** C8: The candidate that [select] chooses is legitimate. It never panics; the candidate
    has the package's name and a version in the range, and it is one for a preference of
    the package that fits the index (what is installed at that version, or a distribution
    of the maps at that version or a local variant of it), or the installed one, or the
    best of a search; under reinstallation nothing installed is chosen; under upgrade the
    installed one is kept only if the search finds nothing that comes before it; and
    nothing is returned only if neither what is installed nor a search gives a
    candidate. *)
Theorem select_sound (upgrade : bool) : reachable_maps okV okS ordered lazies st0 ->
  exists r st', select self package_name range version_maps preferences reinstall upgrade index env tags st0 = Some (r, st') /\ store_ok st' /\ grows st0 st' /\ selected upgrade r.
Proof.
  intros [Hst _]%reachable_maps_ok; [|done..]. destruct (spec_elim _ _ _ (select_ok upgrade st0 (kept_refl okV okS ordered lazies st0 Hst))) as (r&st'&E&[H1 H2]&Hs). by exists r, st'.
Qed.

End selection.

(** ** A merge and a concrete choice *)

(** Merging by insertion. *)
Fixpoint merge_insert {A} (first : A -> A -> bool) (x : A) (l : list A) : list A :=
  match l with [] => [x] | y :: l => if first y x then y :: merge_insert first x l else x :: y :: l end.

#[export] Instance insertion_merge : KMerge := fun A first ls => fold_right (merge_insert first) [] (concat ls).

Lemma merge_insert_perm {A} (first : A -> A -> bool) x l : merge_insert first x l ≡ₚ x :: l.
Proof. induction l as [|y l IH]; cbn; [done|]. destruct (first y x); [|done]. rewrite IH. apply Permutation_swap. Qed.

Lemma merge_all_perm {A} (first : A -> A -> bool) l : fold_right (merge_insert first) [] l ≡ₚ l.
Proof. induction l as [|x l IH]; cbn; [done|]. by rewrite merge_insert_perm, IH. Qed.

Lemma merge_insert_sorted {A} (first : A -> A -> bool) (P : A -> Prop) x l :
  (forall x y, P x -> P y -> first x y = true -> first y x = false) ->
  (forall x y z, P x -> P y -> P z -> first x y = false -> first y z = false -> first x z = false) ->
  P x -> Forall P l -> merge_sorted first l -> merge_sorted first (merge_insert first x l).
Proof.
  intros Ha Ht Hx. induction l as [|y l IH]; cbn; [done|]. intros [Hy Hl]%Forall_cons [Hf Hs]. destruct (first y x) eqn:E.
  - split; [|by apply IH]. apply Forall_forall. intros z Hz. rewrite merge_insert_perm in Hz. apply elem_of_cons in Hz as [->|Hz]; [by apply Ha|]. rewrite Forall_forall in Hf. by apply Hf.
  - split; [|done]. constructor; [done|]. apply Forall_forall. intros z Hz. rewrite Forall_forall in Hf, Hl. eapply (Ht z y x); [by apply Hl|done|done|by apply Hf|done].
Qed.

#[export] Instance insertion_merge_laws : KMergeLaws insertion_merge.
Proof.
  split; unfold kmerge_by, insertion_merge.
  - intros A first ls. apply merge_all_perm.
  - intros A first ls Ha Ht _. assert (forall l, (forall x, x ∈ l -> x ∈ concat ls) -> merge_sorted first (fold_right (merge_insert first) [] l)) as H; [|by apply H].
    induction l as [|x l IH]; cbn; [done|]. intros Hl. apply (merge_insert_sorted first (fun x => x ∈ concat ls)); [done|done|by apply Hl, elem_of_cons; left| |].
    + apply Forall_forall. intros y Hy. rewrite merge_all_perm in Hy. by apply Hl, elem_of_cons; right.
    + apply IH. intros y Hy. by apply Hl, elem_of_cons; right.
Qed.

(** Nothing is installed. *)
#[local] Instance nothing_installed : Installed unit := {| get_packages _ := []; installed_version _ := example [0]; read_tags _ := None |}.

Definition highest_selector (index_strategy : IndexStrategy) : CandidateSelector :=
  {| resolution_strategy := RS_Highest; prerelease_strategy := PS_IfNecessary; index_strategy := index_strategy |}.

Lemma sample_map : exists lazy st, make_sample None = Some (VM_Lazy lazy, st) /\ reachable_maps okIV okIS true [lazy] st.
Proof.
  pose proof (maps_start okIV okIS true (Metadata := unit) start (Interner_default_wf okIV okIS true)) as Hstart.
  destruct (from_simple_metadata_ok okIV okIS true [] sample_store sample_data foo (IU_Pypi []) None at_least_310 [] HS_None None None build_all) as (lazy&next&E&_);
    [exact (proj1 (reachable_maps_ok okIV okIS true [] sample_store Hstart))|done|exact sample_data_ok|exact at_least_310_ok|constructor|constructor|].
  eexists _, _. split; [exact E|]. exact (maps_make okIV okIS true [] sample_store sample_data foo (IU_Pypi []) None at_least_310 [] HS_None None None build_all lazy _ Hstart sample_data_ok at_least_310_ok (Forall_nil_2 _) I E).
Qed.

Definition below_2 : IV := rs_strictly_lower_than (example [2; 0]).

Lemma below_2_ok : okIV below_2.
Proof. apply rs_ok_strictly_lower_than, example_wf. Qed.

Lemma one_map_settled (lazy : VersionMapLazy unit) b : settled below_2 [VM_Lazy lazy] b.
Proof. intros i [|j] m m' e e' Hlt _ Hm'; [lia|]. by rewrite lookup_cons, lookup_nil in Hm'. Qed.

Lemma select_no_preference_best_witness : exists lazy st, make_sample None = Some (VM_Lazy lazy, st) /\
  exists highest allow (r : option (Candidate unit)) st', select_no_preference (highest_selector UnsafeBestMatch) foo below_2 [VM_Lazy lazy] (RE_Universal NodeId.TRUE) st = Some (r, st') /\
    best_of_first below_2 foo [VM_Lazy lazy] highest (with_prereleases [VM_Lazy lazy] allow) r.
Proof.
  destruct sample_map as (lazy&st&E&Hr). exists lazy, st. split; [exact E|].
  destruct (select_no_preference_best (InstalledDist := unit) okIV okIS true okIV [lazy] st below_2 below_2_ok foo [VM_Lazy lazy]
    (Forall_cons_2 (map_ready [lazy]) (VM_Lazy lazy) [] (proj2 (elem_of_cons [] lazy lazy) (or_introl eq_refl)) (Forall_nil_2 _)) (highest_selector UnsafeBestMatch) (RE_Universal NodeId.TRUE)
    (conj I I) (Nat.le_0_l _) Hr (fun _ => one_map_settled lazy)) as (highest&allow&r&st'&Es&_&_&_&_&Hs).
  exists highest, allow, r, st'. split; [exact Es|exact Hs].
Defined.

(** A lock file that pins the older version. *)
Definition pinned_foo : Preferences :=
  Preferences_insert [] foo None NodeId.TRUE {| pin_version := example [1; 0]; pin_hashes := [] |} Source_Lock.

Lemma pinned_foo_ok (st : @Store IV IS) : Forall (fun e => valid_id (nodes (st_interner st)) (entry_marker e)) (Preferences_get pinned_foo foo).
Proof. constructor; [|constructor]. exact (Nat.le_0_l _). Qed.

Lemma nothing_installed_ok : Forall (fun dist => version_wf (installed_version dist)) (get_packages foo : list unit).
Proof. constructor. Qed.

Lemma select_sound_witness : exists lazy st, make_sample None = Some (VM_Lazy lazy, st) /\
  exists (r : option (Candidate unit)) st', select (highest_selector FirstIndex) foo (rs_full : IV) [VM_Lazy lazy] pinned_foo false false None (RE_Universal NodeId.TRUE) None st = Some (r, st') /\
    selected st (rs_full : IV) foo [VM_Lazy lazy] (highest_selector FirstIndex) (RE_Universal NodeId.TRUE) false None pinned_foo None false r.
Proof.
  destruct sample_map as (lazy&st&E&Hr). exists lazy, st. split; [exact E|].
  destruct (select_sound (InstalledDist := unit) okIV okIS true okIV [lazy] st (rs_full : IV) rs_ok_full foo [VM_Lazy lazy]
    (Forall_cons_2 (map_ready [lazy]) (VM_Lazy lazy) [] (proj2 (elem_of_cons [] lazy lazy) (or_introl eq_refl)) (Forall_nil_2 _)) (highest_selector FirstIndex) (RE_Universal NodeId.TRUE)
    (conj I I) (Nat.le_0_l _) false None pinned_foo None (pinned_foo_ok st) nothing_installed_ok false Hr) as (r&st'&Es&_&_&Hs).
  exists r, st'. split; [exact Es|exact Hs].
Defined.

(** The version of a choice. *)
Definition chosen_version (preferences : Preferences) (upgrade : bool) : option bytes :=
  '(map, st) ← make_sample None;
  '(r, _) ← select (InstalledDist := unit) (highest_selector FirstIndex) foo (rs_full : IV) [map] preferences false upgrade None (RE_Universal NodeId.TRUE) None st;
  show ∘ candidate_version <$> r.

Lemma chosen_versions : chosen_version [] false = Some (bs "2.0") /\ chosen_version pinned_foo false = Some (bs "1.0").
Proof. split; vm_compute; reflexivity. Qed.

(** An index with one version, whose wheel is compatible or not. *)
Definition one_version (compatible : bool) : VersionMap unit :=
  VersionMap.from_flat [(example [1; 0], if compatible then linux_dist else mkPrioritized None (Some O) [(linux_wheel, WC_Incompatible IW_NoBinary)] [] NodeId.FALSE)].

(** Whether the choice of [UnsafeBestMatch] among the indexes is incompatible. *)
Definition best_match_incompatible (maps : list (VersionMap unit)) : option bool :=
  '(r, _) ← select_no_preference (InstalledDist := unit) (highest_selector UnsafeBestMatch) foo (rs_full : IV) maps (RE_Universal NodeId.TRUE) sample_store;
  is_incompatible ∘ candidate_dist <$> r.

(** A version that is in two indexes is taken from the second if only that has it
    compatible, although the documentation of [UnsafeBestMatch] says that only the entry of
    the first index is looked at. *)
Lemma best_match_looks_further : best_match_incompatible [one_version false] = Some true /\ best_match_incompatible [one_version false; one_version true] = Some false.
Proof. split; vm_compute; reflexivity. Qed.
