(* ===== verification/OnceMap.v ===== *)
(** * Jobs that run once ([uv-once-map/src/lib.rs])

    A concurrent map in which a job is registered once, and other tasks wait for its
    result. The [DashMap] and the [Notify] that the code uses are parameters, with what
    their documentation promises as laws. The operations on the shared map are atomic
    (a guard of the [DashMap] is held, and no longer); between them tasks interleave. A
    call is a task, and what it does next is a function of where it stands. *)

From stdpp Require Import base numbers list gmap.
From S2P Require Import Prelude.

#[local] Open Scope nat_scope.

(** ** What the code uses of other crates *)

(** [dashmap::DashMap], a map behind locks: [get], [insert], which returns the value it
    replaces, and [remove]. *)
Class DashMap (K X M : Type) := {
  dm_new : M;
  dm_get : K -> M -> option X;
  dm_insert : K -> X -> M -> option X * M;
  dm_remove : K -> M -> option X * M
}.

Class DashMapLaws (K X M : Type) {D : DashMap K X M} : Prop := {
  dm_get_new key : dm_get key dm_new = None;
  dm_insert_old key x m : (dm_insert key x m).1 = dm_get key m;
  dm_get_insert_eq key x m : dm_get key (dm_insert key x m).2 = Some x;
  dm_get_insert_ne key key' x m : key <> key' -> dm_get key' (dm_insert key x m).2 = dm_get key' m;
  dm_remove_old key m : (dm_remove key m).1 = dm_get key m;
  dm_get_remove_eq key m : dm_get key (dm_remove key m).2 = None;
  dm_get_remove_ne key key' m : key <> key' -> dm_get key' (dm_remove key m).2 = dm_get key' m
}.

(** [tokio::sync::Notify]: [new], [notified], which makes a future, and
    [notify_waiters], on the memory [S] in which the objects live. [ready] says whether
    polling the future completes it, [source] which [Notify] it was made from; [known]
    and [made] say which objects exist. *)
Class Notify (N F S : Type) := {
  notify_new : S -> N * S;
  notified : N -> S -> F * S;
  notify_waiters : N -> S -> S;
  ready : F -> S -> bool;
  source : F -> N;
  known : N -> S -> Prop;
  made : F -> S -> Prop
}.

(** What exists stays, and a future that is not concerned is neither made nor
    completed. *)
Record keeps_objects {N F S : Type} {A : Notify N F S} (concerned : F -> Prop) (s s' : S) : Prop := {
  keeps_known n : known n s -> known n s';
  keeps_made f : made f s -> made f s';
  keeps_unmade f : ~ concerned f -> made f s' -> made f s;
  keeps_ready f : ~ concerned f -> made f s -> ready f s' = ready f s
}.

(** The documentation of [Notify]: a new one is different from those that exist; a
    future is not complete when it is made (no permit is stored, as [notify_one] is not
    called), and [notify_waiters] completes exactly the futures of its [Notify] that
    have been made by then, whether or not they were polled. *)
Class NotifyLaws (N F S : Type) {A : Notify N F S} : Prop := {
  notify_new_fresh s : ~ known (notify_new s).1 s /\ known (notify_new s).1 (notify_new s).2 /\ keeps_objects (fun _ => False) s (notify_new s).2;
  notified_made n s : known n s ->
    source (notified n s).1 = n /\ ~ made (notified n s).1 s /\ made (notified n s).1 (notified n s).2 /\
    ready (notified n s).1 (notified n s).2 = false /\ keeps_objects (eq (notified n s).1) s (notified n s).2;
  notify_waiters_wakes n s : known n s ->
    keeps_objects (fun f => source f = n) s (notify_waiters n s) /\
    forall f, made f s -> source f = n -> ready f (notify_waiters n s) = true;
  source_known f s : made f s -> known (source f) s
}.

(** ** The map *)

Inductive Value {N V : Type} := Waiting (notify : N) | Filled (value : V).
Arguments Value : clear implicits.

Section once_map.
Context {K V N F S M : Type} `{EqDecision K} `{EqDecision N}.
Context {A : Notify N F S} {AL : NotifyLaws N F S}.
Context {D : DashMap K (Value N V) M} {DL : DashMapLaws K (Value N V) M}.

(** The map, and the memory of the [Notify] objects in it. *)
Record OnceMap := mkOnce { items : M; notifies : S }.

Definition lookup_item (self : OnceMap) (key : K) : option (Value N V) := dm_get key (items self).

Definition once_default (memory : S) : OnceMap := mkOnce dm_new memory.

(** [FromIterator] *)
Definition from_iter (memory : S) (values : list (K * V)) : OnceMap :=
  mkOnce (foldl (fun m '(k, v) => (dm_insert k (Filled v) m).2) dm_new values) memory.

Definition register (key : K) (self : OnceMap) : bool * OnceMap :=
  match dm_get key (items self) with
  | Some _ => (false, self)
  | None =>
      let '(notify, memory) := notify_new (notifies self) in
      (true, mkOnce (dm_insert key (Waiting notify) (items self)).2 memory)
  end.

Definition get (key : K) (self : OnceMap) : option V :=
  match dm_get key (items self) with Some (Filled value) => Some value | _ => None end.

Definition remove (key : K) (self : OnceMap) : option V * OnceMap :=
  let '(entry, items) := dm_remove key (items self) in
  (match entry with Some (Filled value) => Some value | _ => None end, mkOnce items (notifies self)).

(** The insertion of [done], with the [Notify] to call. *)
Definition done_insert (key : K) (value : V) (self : OnceMap) : option N * OnceMap :=
  let '(old, items) := dm_insert key (Filled value) (items self) in
  (match old with Some (Waiting notify) => Some notify | _ => None end, mkOnce items (notifies self)).

Definition done_notify (notify : N) (self : OnceMap) : OnceMap := mkOnce (items self) (notify_waiters notify (notifies self)).

(** Where a call stands: before an atomic operation, finished with its result, or
    panicked. *)
Inductive task :=
| T_register (key : K)
| T_registered (key : K) (result : bool)
| T_done (key : K) (value : V)
| T_notify (key : K) (value : V) (notify : N)
| T_submitted (key : K) (value : V)
| T_wait (key : K)
| T_listen (key : K) (notify : N)
| T_check (key : K) (notification : F)
| T_await (key : K) (notification : F)
| T_read (key : K)
| T_waited (key : K) (result : option V)
| T_get (key : K)
| T_got (key : K) (result : option V)
| T_remove (key : K)
| T_removed (key : K) (result : option V)
| T_panicked.

(** The next atomic operation of a task; [None] if it has finished or is blocked. *)
Definition task_step (t : task) (self : OnceMap) : option (task * OnceMap) :=
  match t with
  | T_register key => let '(result, self) := register key self in Some (T_registered key result, self)
  | T_done key value =>
      let '(notify, self) := done_insert key value self in
      Some (match notify with Some notify => T_notify key value notify | None => T_submitted key value end, self)
  | T_notify key value notify => Some (T_submitted key value, done_notify notify self)
  | T_wait key =>
      Some (match dm_get key (items self) with
            | None => T_waited key None
            | Some (Filled value) => T_waited key (Some value)
            | Some (Waiting notify) => T_listen key notify
            end, self)
  | T_listen key notify =>
      let '(notification, memory) := notified notify (notifies self) in
      Some (T_check key notification, mkOnce (items self) memory)
  | T_check key notification =>
      Some (match dm_get key (items self) with
            | None => T_panicked
            | Some (Filled value) => T_waited key (Some value)
            | Some (Waiting _) => T_await key notification
            end, self)
  | T_await key notification => if ready notification (notifies self) then Some (T_read key, self) else None
  | T_read key =>
      Some (match dm_get key (items self) with Some (Filled value) => T_waited key (Some value) | _ => T_panicked end, self)
  | T_get key => Some (T_got key (get key self), self)
  | T_remove key => let '(result, self) := remove key self in Some (T_removed key result, self)
  | T_registered _ _ | T_submitted _ _ | T_waited _ _ | T_got _ _ | T_removed _ _ | T_panicked => None
  end.

(** ** Interleavings *)

Record system := mkSystem { once : OnceMap; tasks : list task }.

Definition starts (t : task) : bool := match t with T_register _ | T_done _ _ | T_wait _ | T_get _ | T_remove _ => true | _ => false end.
Definition removes (t : task) : bool := match t with T_remove _ => true | _ => false end.

(** A call is made, or a task does its next operation; [removal] says whether calls of
    [remove] are made. *)
Inductive step (removal : bool) : system -> system -> Prop :=
| step_call s t : starts t = true -> removal || negb (removes t) = true -> step removal s (mkSystem (once s) (tasks s ++ [t]))
| step_run s i t t' self' : tasks s !! i = Some t -> task_step t (once s) = Some (t', self') -> step removal s (mkSystem self' (<[i := t']> (tasks s))).

Inductive reachable_from (removal : bool) (memory : S) (init : list (K * V)) : system -> Prop :=
| reach_init : reachable_from removal memory init (mkSystem (from_iter memory init) [])
| reach_step s s' : reachable_from removal memory init s -> step removal s s' -> reachable_from removal memory init s'.

(** One task alone does [n] operations. *)
Fixpoint run_task (n : nat) (t : task) (self : OnceMap) : option (task * OnceMap) :=
  match n with 0 => Some (t, self) | Datatypes.S n => '(t, self) ← task_step t self; run_task n t self end.

(** ** How the map evolves *)

Definition is_filled (self : OnceMap) (key : K) : Prop := exists value, lookup_item self key = Some (Filled value).

(** The entry of the key is filled, or waits on the [Notify]. *)
Definition holds_notify (self : OnceMap) (key : K) (notify : N) : Prop :=
  (lookup_item self key = Some (Waiting notify) \/ is_filled self key) /\ known notify (notifies self).

(** A [Notify] in the map exists, belongs to one key, and has not been called. *)
Record map_ok (self : OnceMap) : Prop := {
  ok_known key notify : lookup_item self key = Some (Waiting notify) -> known notify (notifies self);
  ok_pending key f : lookup_item self key = Some (Waiting (source f)) -> made f (notifies self) -> ready f (notifies self) = false;
  ok_unique key key' notify : lookup_item self key = Some (Waiting notify) -> lookup_item self key' = Some (Waiting notify) -> key = key'
}.

Definition not_waited (self : OnceMap) (notify : N) : Prop := known notify (notifies self) /\ forall key, lookup_item self key <> Some (Waiting notify).

Record evolves (self self' : OnceMap) : Prop := {
  evolves_filled key : is_filled self key -> is_filled self' key;
  evolves_waiting key notify : lookup_item self key = Some (Waiting notify) -> lookup_item self' key = Some (Waiting notify) \/ is_filled self' key;
  evolves_fresh key notify : lookup_item self' key = Some (Waiting notify) -> lookup_item self key = Some (Waiting notify) \/ ~ known notify (notifies self);
  evolves_known notify : known notify (notifies self) -> known notify (notifies self');
  evolves_made f : made f (notifies self) -> made f (notifies self');
  evolves_ready f : made f (notifies self) -> ready f (notifies self) = true -> ready f (notifies self') = true
}.

Lemma evolves_refl self : evolves self self.
Proof. split; auto. Qed.

Lemma evolves_some self self' key : evolves self self' -> is_Some (lookup_item self key) -> is_Some (lookup_item self' key).
Proof. intros E [[notify|v] Hk]; [destruct (evolves_waiting _ _ E _ _ Hk) as [?|[v ?]]|destruct (evolves_filled _ _ E key) as [v' ?]; [by exists v|]]; by eexists. Qed.

Lemma evolves_holds self self' key notify : evolves self self' -> holds_notify self key notify -> holds_notify self' key notify.
Proof.
  intros E [[Hk|Hk] Hn]; (split; [|by apply (evolves_known _ _ E)]).
  - by apply (evolves_waiting _ _ E).
  - right. by apply (evolves_filled _ _ E).
Qed.

Lemma evolves_not_waited self self' notify : evolves self self' -> not_waited self notify -> not_waited self' notify.
Proof. intros E [Hn Hk]. split; [by apply (evolves_known _ _ E)|]. intros key Hw. destruct (evolves_fresh _ _ E _ _ Hw) as [?|?]; [by eapply Hk|done]. Qed.

(** What a task relies on. *)
Definition task_ok (self : OnceMap) (t : task) : Prop :=
  match t with
  | T_registered key _ => is_Some (lookup_item self key)
  | T_notify key _ notify => is_filled self key /\ not_waited self notify
  | T_submitted key _ | T_read key => is_filled self key
  | T_listen key notify => holds_notify self key notify
  | T_check key f | T_await key f => holds_notify self key (source f) /\ made f (notifies self)
  | T_remove _ | T_removed _ _ | T_panicked => False
  | _ => True
  end.

Lemma task_ok_evolves self self' t : evolves self self' -> task_ok self t -> task_ok self' t.
Proof.
  intros E. destruct t; cbn; try done.
  - by apply evolves_some.
  - intros [H1 H2]. split; [by apply (evolves_filled _ _ E)|by eapply evolves_not_waited].
  - by apply (evolves_filled _ _ E).
  - by apply evolves_holds.
  - intros [H1 H2]. split; [by eapply evolves_holds|by apply (evolves_made _ _ E)].
  - intros [H1 H2]. split; [by eapply evolves_holds|by apply (evolves_made _ _ E)].
  - by apply (evolves_filled _ _ E).
Qed.

(** ** Each operation *)

(** Looking up after an insertion. *)
Lemma get_insert_cases key x (m : M) key' y : dm_get key' (dm_insert key x m).2 = Some y -> key' = key /\ y = x \/ key' <> key /\ dm_get key' m = Some y.
Proof.
  destruct (decide (key = key')) as [<-|Hne]; [rewrite dm_get_insert_eq; intros [= <-]; by left|]. rewrite dm_get_insert_ne by done. intros Hy. right. done.
Qed.

Lemma register_ok key self result self' : map_ok self -> register key self = (result, self') ->
  evolves self self' /\ map_ok self' /\ is_Some (lookup_item self' key) /\ (result = true -> lookup_item self key = None) /\
  (forall key' value, lookup_item self' key' = Some (Filled value) -> lookup_item self key' = Some (Filled value)) /\
  forall key' notify, lookup_item self key' = Some (Waiting notify) -> lookup_item self' key' = Some (Waiting notify).
Proof.
  intros Hm. unfold register, lookup_item. destruct (dm_get key (items self)) as [x|] eqn:Ek.
  { intros [= <- <-]. rewrite Ek. split_and!; [apply evolves_refl|done|by eexists|done..]. }
  destruct (notify_new_fresh (notifies self)) as (Hfresh&Hknown&Hkeep). destruct (notify_new (notifies self)) as [n memory]. cbn [fst snd] in *. intros [= <- <-]. cbn [items notifies].
  assert (forall key' x, dm_get key' (items self) = Some x -> dm_get key' (dm_insert key (Waiting n) (items self)).2 = Some x) as Hold by (intros key' x Hx; rewrite dm_get_insert_ne; [done|congruence]).
  assert (forall key' notify, dm_get key' (dm_insert key (Waiting n) (items self)).2 = Some (Waiting notify) -> dm_get key' (items self) = Some (Waiting notify) \/ key' = key /\ notify = n) as Hnew.
  { intros key' notify [[-> [= ->]]|[_ Hx]]%get_insert_cases; [by right|by left]. }
  split_and!; [split|split| | | |]; unfold is_filled, lookup_item; cbn [items notifies].
  - intros key' [v Hv]. exists v. by apply Hold.
  - intros key' notify Hw. left. by apply Hold.
  - intros key' notify [Hw|[-> ->]]%Hnew; [by left|by right].
  - apply (keeps_known _ _ _ Hkeep).
  - apply (keeps_made _ _ _ Hkeep).
  - intros f Hf. rewrite (keeps_ready _ _ _ Hkeep f); [done|by intros []|done].
  - intros key' notify [Hw|[-> ->]]%Hnew; [by apply (keeps_known _ _ _ Hkeep), (ok_known _ Hm key')|done].
  - intros key' f Hw Hf. apply (keeps_unmade _ _ _ Hkeep f) in Hf; [|by intros []]. rewrite (keeps_ready _ _ _ Hkeep f) by (done || by intros []).
    apply Hnew in Hw as [Hw|[_ Hs]]; [by apply (ok_pending _ Hm key' f)|]. apply source_known in Hf. by rewrite Hs in Hf.
  - intros key1 key2 notify [H1|[-> ->]]%Hnew [H2|[-> H2]]%Hnew; [by apply (ok_unique _ Hm _ _ notify)| | |done]; exfalso; [subst notify; apply Hfresh, (ok_known _ Hm key1 n H1)|apply Hfresh, (ok_known _ Hm key2 n H2)].
  - rewrite dm_get_insert_eq. by eexists.
  - done.
  - intros key' value [[_ [=]]|[_ Hx]]%get_insert_cases. done.
  - intros key' notify Hw. by apply Hold.
Qed.

Lemma done_insert_ok key value self notify self' : map_ok self -> done_insert key value self = (notify, self') ->
  evolves self self' /\ map_ok self' /\ lookup_item self' key = Some (Filled value) /\
  (forall n, notify = Some n -> not_waited self' n) /\ (forall n, lookup_item self key = Some (Waiting n) -> notify = Some n) /\
  (forall key', key' <> key -> lookup_item self' key' = lookup_item self key').
Proof.
  intros Hm. unfold done_insert, lookup_item. pose proof (dm_insert_old key (Filled value) (items self)) as Ho.
  pose proof (dm_get_insert_eq key (Filled value) (items self)) as Heq. pose proof (fun key' => dm_get_insert_ne key key' (Filled value) (items self)) as Hne.
  pose proof (get_insert_cases key (Filled value) (items self)) as Hcases.
  destruct (dm_insert key (Filled value) (items self)) as [old m]. cbn [fst snd] in *. subst old. intros [= <- <-]. cbn [items notifies].
  assert (forall key' n, dm_get key' m = Some (Waiting n) -> key' <> key /\ dm_get key' (items self) = Some (Waiting n)) as Hold by (intros key' n [[_ [=]]|?]%Hcases; done).
  split_and!; [split|split| | | |]; unfold is_filled, not_waited, lookup_item; cbn [items notifies].
  - intros key' [v Hv]. destruct (decide (key = key')) as [<-|?]; [by exists value|exists v; unfold lookup_item; cbn; by rewrite Hne].
  - intros key' n Hw. destruct (decide (key = key')) as [<-|?]; [right; by exists value|left; by rewrite Hne].
  - intros key' n [_ Hw]%Hold. by left.
  - done.
  - done.
  - done.
  - intros key' n [_ Hw]%Hold. by apply (ok_known _ Hm key').
  - intros key' f [_ Hw]%Hold. by apply (ok_pending _ Hm key').
  - intros k1 k2 n [_ H1]%Hold [_ H2]%Hold. by apply (ok_unique _ Hm k1 k2 n).
  - exact Heq.
  - intros n Hn. destruct (dm_get key (items self)) as [[n'|v]|] eqn:Ek; try done. injection Hn as ->. split; [by apply (ok_known _ Hm key)|]. intros key' [Hk Hw]%Hold. by apply Hk, (ok_unique _ Hm _ _ n).
  - intros n Hw. by rewrite Hw.
  - intros key' Hk. by rewrite Hne.
Qed.

Lemma notify_ok notify self : map_ok self -> not_waited self notify -> evolves self (done_notify notify self) /\ map_ok (done_notify notify self).
Proof.
  intros Hm [Hn Hw]. destruct (notify_waiters_wakes notify (notifies self) Hn) as [Hkeep Hwake]. unfold done_notify.
  split; split; unfold is_filled, lookup_item in *; cbn [items notifies]; [done|by left|by left|apply (keeps_known _ _ _ Hkeep)|apply (keeps_made _ _ _ Hkeep)| | | |].
  - intros f Hf Hr. destruct (decide (source f = notify)) as [Hs|Hs]; [by apply Hwake|by rewrite (keeps_ready _ _ _ Hkeep f)].
  - intros key n Hk. by apply (keeps_known _ _ _ Hkeep), (ok_known _ Hm key).
  - intros key f Hk Hf. assert (source f <> notify) as Hs by (intros <-; by apply (Hw key)). rewrite (keeps_ready _ _ _ Hkeep f) by (done || by apply (keeps_unmade _ _ _ Hkeep f)).
    apply (ok_pending _ Hm key f Hk). by apply (keeps_unmade _ _ _ Hkeep f).
  - apply (ok_unique _ Hm).
Qed.

Lemma listen_ok notify self : map_ok self -> known notify (notifies self) ->
  let '(f, memory) := notified notify (notifies self) in
  evolves self (mkOnce (items self) memory) /\ map_ok (mkOnce (items self) memory) /\ source f = notify /\ made f memory.
Proof.
  intros Hm Hn. destruct (notified_made notify (notifies self) Hn) as (Hs&Hnot&Hmade&Hr&Hkeep). destruct (notified notify (notifies self)) as [f memory]. cbn [fst snd] in *.
  split_and!; [split|split|done|done]; unfold is_filled, lookup_item in *; cbn [items notifies]; [done|by left|by left|apply (keeps_known _ _ _ Hkeep)|apply (keeps_made _ _ _ Hkeep)| | | |].
  - intros g Hg Hrg. rewrite (keeps_ready _ _ _ Hkeep g); [done|intros ->; done|done].
  - intros key n Hk. by apply (keeps_known _ _ _ Hkeep), (ok_known _ Hm key).
  - intros key g Hk Hg. destruct (ready g memory) eqn:Eg; [|done]. assert (f <> g) as Hne by (intros ->; congruence).
    apply (keeps_unmade _ _ _ Hkeep g Hne) in Hg. rewrite (keeps_ready _ _ _ Hkeep g Hne Hg) in Eg. rewrite <- Eg. by apply (ok_pending _ Hm key).
  - apply (ok_unique _ Hm).
Qed.

(** ** Each step of a task *)

(** The value was submitted by the task. *)
Definition submits (t : task) (key : K) (value : V) : Prop :=
  match t with T_notify key' value' _ | T_submitted key' value' => key' = key /\ value' = value | _ => False end.

(** The value is a result of the task. *)
Definition returns (t : task) (key : K) (value : V) : Prop :=
  match t with T_waited key' (Some value') | T_got key' (Some value') => key' = key /\ value' = value | _ => False end.

Record stepped (t : task) (self : OnceMap) (t' : task) (self' : OnceMap) : Prop := {
  stepped_evolves : evolves self self';
  stepped_map : map_ok self';
  stepped_ok : task_ok self' t';
  stepped_filled key value : lookup_item self' key = Some (Filled value) -> lookup_item self key = Some (Filled value) \/ submits t' key value;
  stepped_submits key value : submits t key value -> submits t' key value;
  stepped_returns key value : returns t' key value -> lookup_item self key = Some (Filled value);
  stepped_registered key : t' = T_registered key true -> lookup_item self key = None;
  stepped_await key f : t' = T_await key f -> lookup_item self' key = Some (Waiting (source f));
  stepped_waiting key notify : lookup_item self key = Some (Waiting notify) -> lookup_item self' key = Some (Waiting notify) \/ exists value, t' = T_notify key value notify;
  stepped_notified key value f : t = T_notify key value (source f) -> made f (notifies self) -> ready f (notifies self') = true
}.

(** A task that only reads. *)
Lemma stepped_read t self t' : map_ok self -> task_ok self t' -> (forall key value, ~ submits t key value) ->
  (forall key value, returns t' key value -> lookup_item self key = Some (Filled value)) -> (forall key, t' <> T_registered key true) ->
  (forall key f, t' = T_await key f -> lookup_item self key = Some (Waiting (source f))) -> stepped t self t' self.
Proof.
  intros Hm Ht Hs Hr Hreg Ha. split; [apply evolves_refl|done|done|by left|intros key value Hv; by apply Hs in Hv|done|intros key E; by apply Hreg in E|done|by left|].
  intros key value f ->. by destruct (Hs key value).
Qed.

Lemma task_step_ok t self t' self' : map_ok self -> task_ok self t -> task_step t self = Some (t', self') -> stepped t self t' self'.
Proof.
  intros Hm Ht E. destruct t; cbn [task_step task_ok] in Ht, E; try done; try change (dm_get key (items self)) with (lookup_item self key) in *.
  - destruct (register key self) as [result self1] eqn:Er. injection E as <- <-. destruct (register_ok _ _ _ _ Hm Er) as (He&Hm'&Hk&Hnew&Hf&Hw).
    split; [done|done|done|intros k v Hv; left; by apply Hf|done|done|intros k [= <- ->]; by apply Hnew|done|left; by apply Hw|done].
  - destruct (done_insert key value self) as [notify self1] eqn:Ed. injection E as <- <-. destruct (done_insert_ok _ _ _ _ _ Hm Ed) as (He&Hm'&Hk&Hnot&Hold&Hother).
    assert (forall k v, lookup_item self1 k = Some (Filled v) -> lookup_item self k = Some (Filled v) \/ key = k /\ value = v) as Hf.
    { intros k v Hv. destruct (decide (k = key)) as [->|Hne]; [rewrite Hk in Hv; injection Hv as <-; by right|left; by rewrite <- Hother]. }
    destruct notify as [n|].
    + split; [done|done|split; [by exists value|by apply Hnot]|exact Hf|done|done|done|done| |done].
      intros k m Hw. destruct (decide (k = key)) as [->|Hne]; [right; exists value; specialize (Hold m Hw); congruence|left; by rewrite Hother].
    + split; [done|done|by exists value|exact Hf|done|done|done|done| |done].
      intros k m Hw. destruct (decide (k = key)) as [->|Hne]; [by specialize (Hold m Hw)|left; by rewrite Hother].
  - injection E as <- <-. destruct Ht as [Hk Hn]. destruct (notify_ok notify self Hm Hn) as [He Hm']. destruct Hn as [Hn _].
    split; [done|done|done|by left|done|done|done|done|by left|]. intros k v f [= -> -> ->] Hf. by apply (notify_waiters_wakes (source f) (notifies self) Hn).
  - injection E as <- <-. destruct (lookup_item self key) as [[n|v]|] eqn:Ek; (apply stepped_read; [done|cbn|by intros ? ? []|cbn; naive_solver|done|done]); try done. split; [by left|]. by apply (ok_known _ Hm key).
  - pose proof (listen_ok notify self Hm (proj2 Ht)) as Hl. destruct (notified notify (notifies self)) as [f memory]. injection E as <- <-. destruct Hl as (He&Hm'&Hs&Hf).
    split; [done|done|split; [rewrite Hs; by apply (evolves_holds self)|done]|by left|done|done|done|done|by left|done].
  - injection E as <- <-. destruct Ht as [[Hk Hn] Hs]. destruct Hk as [Hk|[v Hk]]; rewrite Hk; (apply stepped_read; [done| |by intros ? ? []|cbn; naive_solver|done|naive_solver]); [|done]. split; [split; [by left|done]|done].
  - destruct (ready notification (notifies self)) eqn:El; [|done]. injection E as <- <-. destruct Ht as [[[Hk|Hk] Hn] Hs]; [|apply stepped_read; [done|done|by intros ? ? []|done|done|done]]. pose proof (ok_pending _ Hm key _ Hk Hs). congruence.
  - injection E as <- <-. destruct Ht as [v Hk]. rewrite Hk. apply stepped_read; [done|done|by intros ? ? []|cbn; naive_solver|done|done].
  - injection E as <- <-. apply stepped_read; [done|done|by intros ? ? []| |done|done]. unfold get. cbn. intros k v. change (dm_get key (items self)) with (lookup_item self key). destruct (lookup_item self key) as [[n|v']|] eqn:Ek; naive_solver.
Qed.

(** ** The invariant *)

Definition given (init : list (K * V)) (s : system) (key : K) (value : V) : Prop :=
  (key, value) ∈ init \/ exists i t, tasks s !! i = Some t /\ submits t key value.

Record once_inv (init : list (K * V)) (s : system) : Prop := {
  inv_map : map_ok (once s);
  inv_tasks i t : tasks s !! i = Some t -> task_ok (once s) t;
  inv_await i key f : tasks s !! i = Some (T_await key f) ->
    lookup_item (once s) key = Some (Waiting (source f)) \/ ready f (notifies (once s)) = true \/ exists j value, tasks s !! j = Some (T_notify key value (source f));
  inv_values key value : lookup_item (once s) key = Some (Filled value) -> given init s key value;
  inv_results i t key value : tasks s !! i = Some t -> returns t key value -> given init s key value;
  inv_once i j key : tasks s !! i = Some (T_registered key true) -> tasks s !! j = Some (T_registered key true) -> i = j
}.

Lemma from_iter_items memory init key x : lookup_item (from_iter memory init) key = Some x -> exists value, x = Filled value /\ (key, value) ∈ init.
Proof.
  unfold from_iter, lookup_item. cbn [items]. assert (forall m : M, (forall k y, dm_get k m = Some y -> exists v, y = Filled v /\ (k, v) ∈ init) -> forall l, l ⊆ init ->
    dm_get key (foldl (fun (m : M) '(k, v) => (dm_insert k (Filled v) m).2) m l) = Some x -> exists value, x = Filled value /\ (key, value) ∈ init) as Hg; [|apply (Hg dm_new); [intros k y; by rewrite dm_get_new|done]].
  intros m Hm l. revert m Hm. induction l as [|[k v] l IH]; intros m Hm Hl; cbn; [apply Hm|]. apply IH; [|set_solver]. intros k' y [[-> ->]|[_ Hy]]%get_insert_cases; [|by apply Hm].
  exists v. split; [done|]. set_solver.
Qed.

Lemma once_inv_init memory init : once_inv init (mkSystem (from_iter memory init) []).
Proof.
  assert (forall key n, lookup_item (from_iter memory init) key <> Some (Waiting n)) as Hw by (intros key n Hk; apply from_iter_items in Hk as (v&E&_); discriminate E).
  split; cbn [once tasks]; try done.
  - split; [intros key n Hk; by apply Hw in Hk|intros key f Hk; by apply Hw in Hk|intros k k' n Hk; by apply Hw in Hk].
  - intros key value (v&[= <-]&Hin)%from_iter_items. by left.
Qed.

(** Looking up a list in which one task has changed. *)
Lemma insert_cases (l : list task) i (t : task) j x : <[i := t]> l !! j = Some x -> i = j /\ x = t \/ l !! j = Some x.
Proof. intros [(->&->&_)|[_ Hx]]%list_lookup_insert_Some; [by left|by right]. Qed.

Lemma given_run init s i t t' self' key value : tasks s !! i = Some t -> (forall k v, submits t k v -> submits t' k v) -> given init s key value -> given init (mkSystem self' (<[i := t']> (tasks s))) key value.
Proof.
  intros Hi Hs [Hin|(j&x&Hj&Hx)]; [by left|right]. pose proof (lookup_lt_Some _ _ _ Hi) as Hlt. cbn. destruct (decide (i = j)) as [<-|Hne].
  - exists i, t'. rewrite list_lookup_insert_eq by done. split; [done|]. apply Hs. congruence.
  - exists j, x. by rewrite list_lookup_insert_ne.
Qed.

Lemma once_inv_call init s t : once_inv init s -> starts t = true -> removes t = false -> once_inv init (mkSystem (once s) (tasks s ++ [t])).
Proof.
  intros [Hmap Htasks Hawait Hvalues Hresults Honce] Hstart Hrem.
  assert (forall i x, (tasks s ++ [t]) !! i = Some x -> tasks s !! i = Some x \/ x = t) as Hcases by (intros i x [Hx|(_&Hx)]%lookup_app_Some; [by left|right; by apply list_lookup_singleton_Some in Hx as [_ ->]]).
  assert (forall key value, given init s key value -> given init (mkSystem (once s) (tasks s ++ [t])) key value) as Hgiven by (intros key value [Hin|(i&x&Hi&Hx)]; [by left|right; exists i, x; split; [by apply lookup_app_l_Some|done]]).
  split; cbn [once tasks].
  - done.
  - intros i x [Hx| ->]%Hcases; [by eapply Htasks|]. by destruct t.
  - intros i key f [Hx| <-]%Hcases; [|done]. destruct (Hawait _ _ _ Hx) as [?|[?|(j&v&Hj)]]; [by left|by right; left|right; right; exists j, v; by apply lookup_app_l_Some].
  - intros key value Hk. by apply Hgiven, Hvalues.
  - intros i x key value [Hx| ->]%Hcases Hr; [by eapply Hgiven, Hresults|by destruct t].
  - intros i j key [Hi| <-]%Hcases [Hj|Hj]%Hcases; [by eapply Honce|by subst t|done|done].
Qed.

Lemma once_inv_run init s i t t' self' : once_inv init s -> tasks s !! i = Some t -> stepped t (once s) t' self' -> once_inv init (mkSystem self' (<[i := t']> (tasks s))).
Proof.
  intros [Hmap Htasks Hawait Hvalues Hresults Honce] Hi Hs. pose proof (stepped_evolves _ _ _ _ Hs) as He. pose proof (lookup_lt_Some _ _ _ Hi) as Hlt.
  assert (forall key value, given init s key value -> given init (mkSystem self' (<[i := t']> (tasks s))) key value) as Hgiven by (intros key value; apply (given_run init s i t t'); [done|apply (stepped_submits _ _ _ _ Hs)]).
  split; cbn [once tasks].
  - apply (stepped_map _ _ _ _ Hs).
  - intros j x [[_ ->]|Hj]%insert_cases; [apply (stepped_ok _ _ _ _ Hs)|eapply task_ok_evolves; [exact He|by eapply Htasks]].
  - intros j key f [[_ Ht]|Hj]%insert_cases; [left; symmetry in Ht; by apply (stepped_await _ _ _ _ Hs) in Ht|].
    destruct (Htasks _ _ Hj) as [[_ Hn] Hle]. destruct (Hawait _ _ _ Hj) as [Hw|[Hc|(k&v&Hk)]].
    + destruct (stepped_waiting _ _ _ _ Hs _ _ Hw) as [?|[v ->]]; [by left|]. right. right. exists i, v. by apply list_lookup_insert_eq.
    + right. left. by apply (evolves_ready _ _ He).
    + right. destruct (decide (k = i)) as [->|Hne].
      * left. apply (stepped_notified _ _ _ _ Hs key v f); [congruence|done].
      * right. exists k, v. by rewrite list_lookup_insert_ne.
  - intros key value Hk. destruct (stepped_filled _ _ _ _ Hs _ _ Hk) as [Hold|Hsub]; [by apply Hgiven, Hvalues|]. right. exists i, t'. cbn [tasks]. by rewrite list_lookup_insert_eq.
  - intros j x key value [[_ ->]|Hj]%insert_cases Hr; apply Hgiven; [by apply Hvalues, (stepped_returns _ _ _ _ Hs)|by eapply Hresults].
  - assert (forall j key, i <> j -> t' = T_registered key true -> tasks s !! j <> Some (T_registered key true)) as Hno.
    { intros j key Hne Ht Hj. pose proof (stepped_registered _ _ _ _ Hs key Ht) as Hnone. apply Htasks in Hj. cbn in Hj. rewrite Hnone in Hj. by destruct Hj. }
    intros j k key Hj Hk. destruct (decide (i = j)) as [<-|Hj'], (decide (i = k)) as [<-|Hk']; [done| | |].
    + rewrite list_lookup_insert_ne in Hk by done. rewrite list_lookup_insert_eq in Hj by done. injection Hj as Hj. by destruct (Hno k key).
    + rewrite list_lookup_insert_ne in Hj by done. rewrite list_lookup_insert_eq in Hk by done. injection Hk as Hk. by destruct (Hno j key).
    + rewrite list_lookup_insert_ne in Hj, Hk by done. by eapply Honce.
Qed.

Lemma reachable_inv memory init s : reachable_from false memory init s -> once_inv init s.
Proof.
  induction 1 as [|s s' _ IH Hstep]; [apply once_inv_init|]. destruct Hstep as [s t Hstart Hrem|s i t t' self' Hi E].
  - apply once_inv_call; [done|done|by apply negb_true_iff].
  - eapply once_inv_run; [done|done|]. apply task_step_ok; [by apply (inv_map _ _ IH)|by eapply inv_tasks|done].
Qed.

(** ** Theorems *)

(** C11: However calls of [register], [done], [wait] and [get] interleave on a map from
    which nothing is removed, no call panics (the entries that [wait] expects are there,
    and filled when it wakes); a job is registered at most once per key, and its key then
    has an entry; and every result of [wait] and [get] is a value that was submitted for
    the key or was there from the start. [DashMap] and [Notify] are any that keep the
    documented laws. *)
Theorem once_map_safe (memory : S) (init : list (K * V)) (s : system) : reachable_from false memory init s ->
  (forall i, tasks s !! i <> Some T_panicked) /\
  (forall i j key, tasks s !! i = Some (T_registered key true) -> tasks s !! j = Some (T_registered key true) -> i = j) /\
  (forall i key result, tasks s !! i = Some (T_registered key result) -> is_Some (lookup_item (once s) key)) /\
  forall i t key value, tasks s !! i = Some t -> returns t key value -> given init s key value.
Proof.
  intros Hinv%reachable_inv. split_and!.
  - intros i Hi. by apply (inv_tasks _ _ Hinv) in Hi.
  - apply (inv_once _ _ Hinv).
  - intros i key result Hi. by apply (inv_tasks _ _ Hinv) in Hi.
  - apply (inv_results _ _ Hinv).
Qed.

(** The task is in a call of [wait] for the key. *)
Definition waits (t : task) (key : K) : Prop :=
  match t with T_wait key' | T_listen key' _ | T_check key' _ | T_await key' _ | T_read key' => key' = key | _ => False end.

(** C10: No wake-up is lost on a map from which nothing is removed. However calls
    interleave, once a key is filled and no call that filled it has still to notify, every
    call of [wait] for the key, wherever it stands, finishes with the value within three
    operations of its own, which leave the map as it is. [DashMap] and [Notify] are any
    that keep the documented laws. *)
Theorem no_lost_wakeup (memory : S) (init : list (K * V)) (s : system) (i : nat) (t : task) (key : K) (value : V) :
  reachable_from false memory init s -> tasks s !! i = Some t -> waits t key -> lookup_item (once s) key = Some (Filled value) ->
  (forall j v notify, tasks s !! j <> Some (T_notify key v notify)) ->
  exists n self', n <= 3 /\ run_task n t (once s) = Some (T_waited key (Some value), self') /\ items self' = items (once s).
Proof.
  intros Hinv%reachable_inv Hi Hw Hk Hno. pose proof (inv_tasks _ _ Hinv _ _ Hi) as Ht. unfold lookup_item in Hk. destruct t; try done; cbn in Hw; subst key0; cbn in Ht.
  - exists 1, (once s). split; [lia|]. cbn. by rewrite Hk.
  - exists 2. cbn. destruct (notified notify (notifies (once s))) as [f memory']. exists (mkOnce (items (once s)) memory'). split; [lia|]. cbn. by rewrite Hk.
  - exists 1, (once s). split; [lia|]. cbn. by rewrite Hk.
  - exists 2, (once s). split; [lia|]. destruct (inv_await _ _ Hinv _ _ _ Hi) as [Hwait|[Hc|(j&v&Hj)]]; [unfold lookup_item in Hwait; congruence| |by destruct (Hno j v (source notification))].
    cbn. rewrite Hc. cbn. by rewrite Hk.
  - exists 1, (once s). split; [lia|]. cbn. by rewrite Hk.
Qed.

(** ** Schedules *)

(** Calls, and the tasks that do their next operation, in order. *)
Fixpoint execute (schedule : list (task + nat)) (s : system) : option system :=
  match schedule with
  | [] => Some s
  | inl t :: schedule => execute schedule (mkSystem (once s) (tasks s ++ [t]))
  | inr i :: schedule =>
      t ← tasks s !! i;
      '(t', self') ← task_step t (once s);
      execute schedule (mkSystem self' (<[i := t']> (tasks s)))
  end.

Definition fits (removal : bool) (e : task + nat) : bool := match e with inl t => starts t && (removal || negb (removes t)) | inr _ => true end.

Lemma execute_reachable removal memory init schedule : forall s s', reachable_from removal memory init s -> forallb (fits removal) schedule = true -> execute schedule s = Some s' -> reachable_from removal memory init s'.
Proof.
  induction schedule as [|[t|i] schedule IH]; intros s s' Hr; cbn; [by intros _ [= <-]| |].
  - intros [[Hs Hm]%andb_prop Hf]%andb_prop. apply IH; [|done]. eapply reach_step; [done|by apply step_call].
  - intros Hf E. destruct (tasks s !! i) as [t|] eqn:Ei; [|discriminate E]. cbn [mbind option_bind] in E. destruct (task_step t (once s)) as [[t' self']|] eqn:Et; [|discriminate E].
    eapply IH; [|exact Hf|exact E]. eapply reach_step; [done|by eapply step_run].
Qed.
End once_map.
Arguments OnceMap : clear implicits.
Arguments task : clear implicits.
Arguments system : clear implicits.

(** ** Implementations of the two interfaces, to run schedules *)

#[export] Instance gmap_dashmap {K X : Type} `{Countable K} : DashMap K X (gmap K X) := {|
  dm_new := ∅;
  dm_get key m := m !! key;
  dm_insert key x m := (m !! key, <[key := x]> m);
  dm_remove key m := (m !! key, delete key m)
|}.

#[export] Instance gmap_dashmap_laws {K X : Type} `{Countable K} : DashMapLaws K X (gmap K X).
Proof.
  split; cbn; intros.
  - apply lookup_empty.
  - done.
  - apply lookup_insert_eq.
  - by rewrite lookup_insert_ne.
  - done.
  - apply lookup_delete_eq.
  - by rewrite lookup_delete_ne.
Qed.

(** The memory has the last [Notify] that was made, and for each future its [Notify]
    and whether it is complete; a future is its position with its [Notify]. *)
Record counting := mkCounting { last_notify : nat; futures : list (nat * bool) }.

Definition next_notify (s : counting) : nat := S (last_notify s + sum_list_with fst (futures s)).

#[export] Instance counting_notify : Notify nat (nat * nat) counting := {|
  notify_new s := (next_notify s, mkCounting (next_notify s) (futures s));
  notified notify s := ((length (futures s), notify), mkCounting (last_notify s) (futures s ++ [(notify, false)]));
  notify_waiters notify s := mkCounting (last_notify s) ((fun '(n, b) => (n, bool_decide (n = notify) || b)) <$> futures s);
  ready f s := match futures s !! f.1 with Some (_, b) => b | None => false end;
  source := snd;
  known notify s := notify <= last_notify s \/ exists i b, futures s !! i = Some (notify, b);
  made f s := exists b, futures s !! f.1 = Some (f.2, b)
|}.

#[export] Instance counting_notify_laws : NotifyLaws nat (nat * nat) counting.
Proof.
  split; cbn.
  - intros s. split_and!; [|lia|split; cbn; [|done..]].
    + intros [Hn|(i&b&Hi%list_elem_of_lookup_2%(sum_list_with_in _ fst))]; unfold next_notify in *; cbn in *; lia.
    + intros n [Hn|Hn]; [left; unfold next_notify; lia|by right].
  - intros n s Hn. split_and!; [done| |exists false; by apply list_lookup_middle|by rewrite (list_lookup_middle _ [] (n, false))|split; cbn].
    + intros (b&Hf%lookup_lt_Some). lia.
    + intros m [Hm|(i&b&Hi)]; [by left|right]. exists i, b. by apply lookup_app_l_Some.
    + intros f (b&Hf). exists b. by apply lookup_app_l_Some.
    + intros [i m] Hne (b&[Hf|[Hl Hf]]%lookup_app_Some); [by exists b|]. cbn in *. apply list_lookup_singleton_Some in Hf as [Hz [= <- <-]]. destruct Hne. f_equal. lia.
    + intros f _ (b&Hf). by rewrite (lookup_app_l_Some _ _ _ _ Hf), Hf.
  - intros n s Hn. split; [split; cbn|].
    + intros m [Hm|(i&b&Hi)]; [by left|right]. exists i. rewrite list_lookup_fmap, Hi. by eexists.
    + intros f (b&Hf). rewrite list_lookup_fmap, Hf. by eexists.
    + intros f _ (b&Hf). rewrite list_lookup_fmap in Hf. destruct (futures s !! f.1) as [[m b']|]; [|done]. injection Hf as -> _. by eexists.
    + intros f Hne (b&Hf). rewrite list_lookup_fmap, Hf. cbn. by rewrite (bool_decide_eq_false_2 (f.2 = n)).
    + intros f (b&Hf) <-. rewrite list_lookup_fmap, Hf. cbn. by rewrite (bool_decide_eq_true_2 (f.2 = f.2)).
  - intros f s (b&Hf). right. by eexists _, _.
Qed.

Abbreviation small_task := (task nat nat nat (nat * nat)).
Abbreviation small_system := (system nat nat nat (nat * nat) counting (gmap nat (Value nat nat))).

Definition start_system : small_system := mkSystem (once_default (mkCounting 0 [])) [].

(** One task registers the job, another waits for it and is woken. *)
Definition woken : list (small_task + nat) :=
  [inl (T_register 7); inr 0; inl (T_wait 7); inr 1; inr 1; inr 1; inl (T_done 7 42); inr 2; inr 2].

Definition woken_end : option small_system := execute woken start_system.

Lemma once_map_safe_witness : exists s, woken_end = Some s /\ tasks s !! 1 <> Some T_panicked.
Proof.
  destruct woken_end as [s|] eqn:E; [|vm_compute in E; discriminate E]. exists s. split; [reflexivity|].
  destruct (once_map_safe (mkCounting 0 []) [] s (execute_reachable false _ [] woken _ s (reach_init false _ []) eq_refl E)) as [H _]. apply H.
Defined.

Lemma no_lost_wakeup_witness : exists s t n self', woken_end = Some s /\ tasks s !! 1 = Some t /\ run_task n t (once s) = Some (T_waited 7 (Some 42), self').
Proof.
  destruct woken_end as [s|] eqn:E; [|vm_compute in E; discriminate E].
  pose proof E as E'. vm_compute in E'. injection E' as <-.
  destruct (no_lost_wakeup (mkCounting 0 []) [] _ 1 (T_await 7 (0, 1)) 7 42 (execute_reachable false _ [] woken _ _ (reach_init false _ []) eq_refl E)) as (n&self'&_&Hn&_);
    [reflexivity|reflexivity|reflexivity|intros [|[|[|j]]] v m Hj; discriminate Hj|].
  eexists _, _, n, self'. split; [reflexivity|]. split; [reflexivity|exact Hn].
Defined.

(** With [remove] the guarantees are lost: a call of [wait] panics if the entry is
    removed between its two looks at the map, and if the entry is removed while it
    sleeps, the job's result does not wake it. *)
Lemma remove_defects :
  (exists s : small_system, execute [inl (T_register 7); inr 0; inl (T_wait 7); inr 1; inr 1; inl (T_remove 7); inr 2; inr 1] start_system = Some s /\ tasks s !! 1 = Some T_panicked) /\
  (exists s : small_system, execute [inl (T_register 7); inr 0; inl (T_wait 7); inr 1; inr 1; inr 1; inl (T_remove 7); inr 2; inl (T_done 7 42); inr 3] start_system = Some s /\
     tasks s !! 3 = Some (T_submitted 7 42) /\ get 7 (once s) = Some 42 /\ tasks s !! 1 = Some (T_await 7 (0, 1)) /\ task_step (T_await 7 (0, 1)) (once s) = None).
Proof. split; eexists; (split; [vm_compute; reflexivity|]); vm_compute; auto. Qed.
