(* ===== verification/RequirementsTxt.v ===== *)
(** * Requirements files ([uv-requirements-txt/src])

    The scanner over a [requirements.txt] file, one definition per function; the
    entries it reads; and the files that it includes, as requirements or as
    constraints. Paths, files, the network and URLs are of the host. *)

From stdpp Require Import base numbers list strings.
From S2P Require Import Prelude VersionTypes VersionSmall Version VersionParser Specifier Names Text MarkerTypes MarkerAlgebra Cursor MarkerParse UrlText Requirement Unnamed VersionMap.

#[local] Open Scope N_scope.
#[local] Open Scope uv_scope.

(** ** The scanner *)

(** [unscanny::Scanner], with the part of the text before the cursor and the part after
    it: [eat] consumes a character, [eat_if] a string if it comes next, [eat_while] the
    longest run of a pattern, and [from] is the text from a position to the cursor. *)
Class TxtScanner (S : Type) := {
  scan_new : text -> S;
  scan_before : S -> text;
  scan_after : S -> text;
  scan_cursor : S -> N;
  scan_eat : S -> option N * S;
  scan_eat_str : text -> S -> bool * S;
  scan_eat_while : (N -> bool) -> S -> text * S;
  scan_eat_while_str : text -> S -> text * S;
  scan_from : N -> S -> text
}.

(** What is left after a prefix. *)
Fixpoint after_prefix (prefix t : text) : option text :=
  match prefix, t with
  | [], _ => Some t
  | c :: prefix, d :: t => if c =? d then after_prefix prefix t else None
  | _, _ => None
  end.

(** [scan_eat_while_str] on a text, for a string that is not empty. *)
Fixpoint span_str (fuel : nat) (w t : text) : text * text :=
  match fuel, after_prefix w t with
  | S fuel, Some rest => let '(a, b) := span_str fuel w rest in (w ++ a, b)
  | _, _ => ([], t)
  end.

Class TxtScannerLaws (S : Type) `{TxtScanner S} : Prop := {
  scan_new_before t : scan_before (scan_new t) = [];
  scan_new_after t : scan_after (scan_new t) = t;
  scan_cursor_before s : scan_cursor s = byte_len (scan_before s);
  scan_eat_law s : let '(c, s') := scan_eat s in
    match scan_after s with
    | [] => c = None /\ scan_before s' = scan_before s /\ scan_after s' = []
    | d :: t => c = Some d /\ scan_before s' = scan_before s ++ [d] /\ scan_after s' = t
    end;
  scan_eat_str_law w s : let '(b, s') := scan_eat_str w s in
    match after_prefix w (scan_after s) with
    | Some t => b = true /\ scan_before s' = scan_before s ++ w /\ scan_after s' = t
    | None => b = false /\ s' = s
    end;
  scan_eat_while_law p s : let '(t, s') := scan_eat_while p s in
    t = fst (span p (scan_after s)) /\ scan_before s' = scan_before s ++ t /\ scan_after s' = snd (span p (scan_after s));
  scan_eat_while_str_law w s : let '(t, s') := scan_eat_while_str w s in
    w <> [] -> (t, scan_after s') = span_str (length (scan_after s)) w (scan_after s) /\ scan_before s' = scan_before s ++ t;
  scan_from_law s a b : scan_before s = a ++ b -> scan_from (byte_len a) s = b
}.

Definition peek {S} `{TxtScanner S} (s : S) : option N := head (scan_after s).
Definition at_char {S} `{TxtScanner S} (p : N -> bool) (s : S) : bool := match scan_after s with c :: _ => p c | [] => false end.
Definition eat_if {S} `{TxtScanner S} (p : N -> bool) (s : S) : bool * S := if at_char p s then (true, snd (scan_eat s)) else (false, s).
Definition eat_until {S} `{TxtScanner S} (p : N -> bool) (s : S) : S := snd (scan_eat_while (fun c => negb (p c)) s).

(** [const fn is_terminal] *)
Definition is_terminal (c : N) : bool := (c =? 10) || (c =? 13) || (c =? 35).
Definition not_terminal (c : N) : bool := negb (is_terminal c).
Definition blank (c : N) : bool := (c =? 32) || (c =? 9).
Definition line_break (c : N) : bool := (c =? 13) || (c =? 10).
Definition requirement_start (c : N) : bool := is_ascii_alphanumeric c || (c =? 46) || (c =? 47) || (c =? 36).

Definition trim_end (t : text) : text := rev (trim_start_matches is_whitespace (rev t)).
Definition text_ends_with (suffix t : text) : bool := bool_decide (is_Some (after_prefix (rev suffix) (rev t))).
Definition text_starts_with (prefix t : text) : bool := bool_decide (is_Some (after_prefix prefix t)).

(** ** Quotes ([shquote.rs]) *)

Inductive UnquoteError := UnterminatedSingleQuote (char_cursor byte_cursor : N) | UnterminatedDoubleQuote (char_cursor byte_cursor : N).

(** What is open: nothing, a quote with where it was opened, or an escape in it. *)
Inductive quote_state := Q_plain | Q_escape | Q_single (char_cursor byte_cursor : N) | Q_double (char_cursor byte_cursor : N) | Q_double_escape (char_cursor byte_cursor : N).

(** [unquote_open_single], [unquote_open_double], [unquote_open_escape] and the loop of
    [unquote] take characters from one cursor. *)
Fixpoint unquote_loop (q : quote_state) (acc t : text) (chars bytes : N) : result (option text) UnquoteError :=
  match t with
  | [] =>
      match q with
      | Q_plain | Q_escape => Ok (Some acc)
      | Q_single c b => Err (UnterminatedSingleQuote c b)
      | Q_double c b | Q_double_escape c b => Err (UnterminatedDoubleQuote c b)
      end
  | x :: t =>
      let continue q acc := unquote_loop q acc t (chars + 1) (bytes + len_utf8 x) in
      match q with
      | Q_plain =>
          if x =? 39 then continue (Q_single chars bytes) acc
          else if x =? 34 then continue (Q_double chars bytes) acc
          else if x =? 92 then continue Q_escape acc
          else continue Q_plain (acc ++ [x])
      | Q_escape => continue Q_plain (if x =? 10 then acc else acc ++ [x])
      | Q_single c b => if x =? 39 then continue Q_plain acc else continue q (acc ++ [x])
      | Q_double c b =>
          if x =? 34 then continue Q_plain acc
          else if x =? 92 then continue (Q_double_escape c b) acc
          else continue q (acc ++ [x])
      | Q_double_escape c b =>
          continue (Q_double c b) (acc ++ (if (x =? 34) || (x =? 92) || (x =? 96) || (x =? 36) || (x =? 10) then [x] else [92; x]))
      end
  end.

Definition unquote (source : text) : result (option text) UnquoteError :=
  if existsb (fun c => (c =? 39) || (c =? 34) || (c =? 92)) source then unquote_loop Q_plain [] source 0 0 else Ok None.

(** [unquote(value).ok().flatten().unwrap_or(value)] *)
Definition unquoted (value : text) : text := match unquote value with Ok (Some value) => value | _ => value end.

(** ** Lines and columns *)

Fixpoint row_column (t : text) (index position line column : N) : N * N :=
  match t with
  | [] => (line, column)
  | c :: t =>
      if position <=? index then (line, column)
      else if c =? 13 then
        match t with
        | 10 :: t' => row_column t' (index + 2) position (line + 1) 1
        | _ => row_column t (index + 1) position (line + 1) 1
        end
      else if c =? 10 then row_column t (index + 1) position (line + 1) 1
      else row_column t (index + len_utf8 c) position line (column + 1)
  end.

Definition calculate_row_column (content : text) (position : N) : N * N := row_column content 0 position 1 1.

(** ** Package name specifiers ([uv-configuration/src/name_specifiers.rs]) *)

Inductive PackageNameSpecifier := PNS_All | PNS_None | PNS_Package (name : PackageName).

Definition PackageNameSpecifier_from_str (name : text) : result PackageNameSpecifier InvalidNameError :=
  if bool_decide (name = bs ":all:") then Ok PNS_All
  else if bool_decide (name = bs ":none:") then Ok PNS_None
  else match PackageName_from_str (utf8 name) with Ok name => Ok (PNS_Package name) | Err e => Err e end.

Inductive PackageNameSpecifiers := PNSS_All | PNSS_None | PNSS_Packages (packages : list PackageName).

Fixpoint specifiers_loop (specifiers : list PackageNameSpecifier) (packages : list PackageName) (all : bool) : list PackageName * bool :=
  match specifiers with
  | [] => (packages, all)
  | PNS_None :: specifiers => specifiers_loop specifiers [] false
  | PNS_All :: specifiers => specifiers_loop specifiers packages true
  | PNS_Package name :: specifiers => specifiers_loop specifiers (packages ++ [name]) all
  end.

Definition PackageNameSpecifiers_from_iter (specifiers : list PackageNameSpecifier) : PackageNameSpecifiers :=
  let '(packages, all) := specifiers_loop specifiers [] false in
  if all then PNSS_All else match packages with [] => PNSS_None | _ => PNSS_Packages packages end.

Definition NoBinary_from_args (no_binary : option bool) (packages : list PackageName) : NoBinary :=
  match no_binary with
  | Some true => NB_All
  | Some false => NB_None
  | None => match packages with [] => NB_None | _ => NB_Packages packages end
  end.

Definition NoBuild_from_args (no_build : option bool) (packages : list PackageName) : NoBuild :=
  match no_build with
  | Some true => NO_All
  | Some false => NO_None
  | None => match packages with [] => NO_None | _ => NO_Packages packages end
  end.

Definition NoBinary_from_pip_args (no_binary : list PackageNameSpecifier) : NoBinary :=
  match PackageNameSpecifiers_from_iter no_binary with
  | PNSS_All => NB_All
  | PNSS_None => NB_None
  | PNSS_Packages packages => NB_Packages packages
  end.

Definition NoBuild_from_pip_args (only_binary : list PackageNameSpecifier) (no_build : bool) : NoBuild :=
  if no_build then NO_All
  else
    match PackageNameSpecifiers_from_iter only_binary with
    | PNSS_All => NO_All
    | PNSS_None => NO_None
    | PNSS_Packages packages => NO_Packages packages
    end.

Definition NoBinary_from_pip_arg (no_binary : PackageNameSpecifier) : NoBinary := NoBinary_from_pip_args [no_binary].
Definition NoBuild_from_pip_arg (no_build : PackageNameSpecifier) : NoBuild := NoBuild_from_pip_args [no_build] false.

Definition NoBinary_combine (self other : NoBinary) : NoBinary :=
  match self, other with
  | NB_None, NB_None => NB_None
  | NB_All, _ | _, NB_All => NB_All
  | NB_Packages a, NB_None => NB_Packages a
  | NB_None, NB_Packages b => NB_Packages b
  | NB_Packages a, NB_Packages b => NB_Packages (a ++ b)
  end.

Definition NoBuild_combine (self other : NoBuild) : NoBuild :=
  match self, other with
  | NO_None, NO_None => NO_None
  | NO_All, _ | _, NO_All => NO_All
  | NO_Packages a, NO_None => NO_Packages a
  | NO_None, NO_Packages b => NO_Packages b
  | NO_Packages a, NO_Packages b => NO_Packages (a ++ b)
  end.

(** [BuildOptions::combine] *)
Definition BuildOptions_combine (self : BuildOptions) (no_binary : NoBinary) (no_build : NoBuild) : BuildOptions :=
  {| no_binary_option := NoBinary_combine (no_binary_option self) no_binary; no_build_option := NoBuild_combine (no_build_option self) no_build |}.

Definition NoBinary_extend (self other : NoBinary) : NoBinary :=
  match self, other with
  | NB_All, _ | _, NB_All => NB_All
  | NB_None, NB_None => NB_None
  | NB_Packages a, NB_None => NB_Packages a
  | NB_None, NB_Packages b => NB_Packages b
  | NB_Packages a, NB_Packages b => NB_Packages (a ++ b)
  end.

Definition NoBuild_extend (self other : NoBuild) : NoBuild :=
  match self, other with
  | NO_All, _ | _, NO_All => NO_All
  | NO_None, NO_None => NO_None
  | NO_Packages a, NO_None => NO_Packages a
  | NO_None, NO_Packages b => NO_Packages b
  | NO_Packages a, NO_Packages b => NO_Packages (a ++ b)
  end.

(** ** Requirements ([requirement.rs], [uv-pypi-types/src/parsed_url.rs]) *)

Section requirement.
Context {DisplayUrl PathUrl GitUrl ArchiveUrl VerbatimUrl Path T : Type}.

Record ParsedDirectoryUrl := { dir_url : DisplayUrl; install_path : Path; editable : option bool; is_virtual : option bool }.
Inductive ParsedUrl := PU_Path (url : PathUrl) | PU_Directory (url : ParsedDirectoryUrl) | PU_Git (url : GitUrl) | PU_Archive (url : ArchiveUrl).
Record VerbatimParsedUrl := { parsed_url : ParsedUrl; verbatim : VerbatimUrl }.

Inductive EditableError :=
| EE_MissingVersion (name : PackageName)
| EE_Versioned (name : PackageName)
| EE_File (name : PackageName) (url : text)
| EE_Https (name : PackageName) (url : text)
| EE_Git (name : PackageName) (url : text)
| EE_UnnamedFile (url : text)
| EE_UnnamedHttps (url : text)
| EE_UnnamedGit (url : text).

Inductive RequirementsTxtRequirement :=
| TR_Named (requirement : Requirement VerbatimParsedUrl Path T)
| TR_Unnamed (requirement : UnnamedRequirement VerbatimParsedUrl Path T).

Definition txt_with_origin (self : RequirementsTxtRequirement) (origin : RequirementOrigin Path) : RequirementsTxtRequirement :=
  match self with
  | TR_Named requirement => TR_Named (with_origin requirement origin)
  | TR_Unnamed requirement => TR_Unnamed (unnamed_with_origin requirement origin)
  end.

(** The directory, editable. *)
Definition editable_url (url : VerbatimParsedUrl) (directory : ParsedDirectoryUrl) : VerbatimParsedUrl :=
  {| parsed_url := PU_Directory {| dir_url := dir_url directory; install_path := install_path directory; editable := Some true; is_virtual := is_virtual directory |};
     verbatim := verbatim url |}.

Context {U : Type} `{Pep508Url VerbatimParsedUrl U Path} (marker_text : T -> option text).

Definition into_editable (self : RequirementsTxtRequirement) : result RequirementsTxtRequirement EditableError :=
  match self with
  | TR_Named requirement =>
      match version_or_url requirement with
      | None => Err (EE_MissingVersion (req_name requirement))
      | Some (VU_VersionSpecifier _) => Err (EE_Versioned (req_name requirement))
      | Some (VU_Url url) =>
          match parsed_url url with
          | PU_Directory directory =>
              Ok (TR_Named (mkRequirement _ _ _ (req_name requirement) (req_extras requirement) (Some (VU_Url (editable_url url directory))) (req_marker requirement) (req_origin requirement)))
          | PU_Path _ => Err (EE_File (req_name requirement) (url_show url))
          | PU_Archive _ => Err (EE_Https (req_name requirement) (url_show url))
          | PU_Git _ => Err (EE_Git (req_name requirement) (url_show url))
          end
      end
  | TR_Unnamed requirement =>
      let shown := unnamed_show requirement (marker_text (un_marker requirement)) in
      match parsed_url (un_url requirement) with
      | PU_Directory directory => Ok (TR_Unnamed (mkUnnamed _ _ _ (editable_url (un_url requirement) directory) (un_extras requirement) (un_marker requirement) (un_origin requirement)))
      | PU_Path _ => Err (EE_UnnamedFile shown)
      | PU_Archive _ => Err (EE_UnnamedHttps shown)
      | PU_Git _ => Err (EE_UnnamedGit shown)
      end
  end.
End requirement.
Arguments VerbatimParsedUrl : clear implicits.
Arguments RequirementsTxtRequirement : clear implicits.

(** ** Entries *)

Section parser.
Context {S I T DisplayUrl PathUrl GitUrl ArchiveUrl VerbatimUrl Path U UrlError IoError : Type}.
Abbreviation Url := (VerbatimParsedUrl DisplayUrl PathUrl GitUrl ArchiveUrl VerbatimUrl Path).
Abbreviation TxtRequirement := (RequirementsTxtRequirement DisplayUrl PathUrl GitUrl ArchiveUrl VerbatimUrl Path T).
Context `{TxtScanner S} `{MarkerBuilder I T} `{Alphabetic} `{UnnamedRequirementUrl Url U Path} {Sc : Type} `{Scanner Sc}.
Context (env_var : text -> option text) (project_root : text) (normalize_url_path : text -> text) (marker_text : T -> option text).

(** Paths and files, and the URLs of indexes. *)
Class Host := {
  path_of : text -> Path;
  join : Path -> Path -> Path;
  parent : Path -> option Path;
  is_absolute : Path -> bool;
  path_starts_with : Path -> text -> bool;
  is_file : Path -> bool;
  absolute_existing : text -> option Path;
  file_url_path : text -> result (option Path) UrlError;
  from_absolute_path : Path -> result VerbatimUrl UrlError;
  parse_url_text : text -> result VerbatimUrl UrlError;
  url_with_given : VerbatimUrl -> text -> VerbatimUrl;
  offline : bool;
  read_url : Path -> result text IoError;
  read_file : Path -> result text IoError;
  offline_error : IoError
}.
Context `{Host} `{EqDecision Path} `{EqDecision VerbatimUrl}.

Inductive TxtMessage :=
| TM_ExpectedSeparator (found : option N)
| TM_NoArgument (option : text)
| TM_ExpectedLineEnd (found : N)
| TM_ExpectedHash (found : text)
| TM_Unexpected (found : N)
| TM_MultipleIndexUrl
| TM_ConflictingIndexUrl.

(** [RequirementsTxtParserError]; of an error in an included file, the file too. *)
Inductive TxtError :=
| TE_Io (err : IoError)
| TE_Url (source : UrlError) (url : text) (start end_ : N)
| TE_FileUrl (url : text) (start end_ : N)
| TE_VerbatimUrl (source : UrlError) (url : text) (start end_ : N)
| TE_MissingRequirementPrefix (given : text)
| TE_NonEditable (source : EditableError) (start end_ : N)
| TE_NoBinary (source : InvalidNameError) (specifier : text) (start end_ : N)
| TE_UnnamedConstraint (start end_ : N)
| TE_Parser (message : TxtMessage) (line column : N)
| TE_Pep508 (source : Pep508Error U) (start end_ : N)
| TE_Subfile (file : Path) (source : TxtError) (start end_ : N).

Record RequirementEntry := { entry_requirement : TxtRequirement; entry_hashes : list text }.

Inductive UnsupportedOption := PreferBinary | RequireHashes | Pre | TrustedHost | UseFeature.

Definition option_name (self : UnsupportedOption) : text :=
  match self with
  | PreferBinary => bs "--prefer-binary"
  | RequireHashes => bs "--require-hashes"
  | Pre => bs "--pre"
  | TrustedHost => bs "--trusted-host"
  | UseFeature => bs "--use-feature"
  end.

Definition all_unsupported : list UnsupportedOption := [PreferBinary; RequireHashes; Pre; TrustedHost; UseFeature].

Inductive RequirementsTxtStatement :=
| RT_Requirements (filename : text) (start end_ : N)
| RT_Constraint (filename : text) (start end_ : N)
| RT_RequirementEntry (entry : RequirementEntry)
| RT_EditableRequirementEntry (entry : RequirementEntry)
| RT_IndexUrl (url : VerbatimUrl)
| RT_ExtraIndexUrl (url : VerbatimUrl)
| RT_FindLinks (url : VerbatimUrl)
| RT_NoIndex
| RT_NoBinary (no_binary : NoBinary)
| RT_OnlyBinary (only_binary : NoBuild)
| RT_UnsupportedOption (option : UnsupportedOption).

(** An answer of the parser, with the world of the requirement parser, or a panic. *)
Inductive answer (A : Type) := A_ok (a : A) (w : World I) | A_err (e : TxtError) (w : World I) | A_panic.
Arguments A_ok {A}.
Arguments A_err {A}.
Arguments A_panic {A}.

Definition bind_answer {A B} (m : answer A) (k : A -> World I -> answer B) : answer B :=
  match m with A_ok a w => k a w | A_err e w => A_err e w | A_panic => A_panic end.

Definition of_txt_result {A} (m : result A TxtError) (w : World I) : answer A := match m with Ok a => A_ok a w | Err e => A_err e w end.

Definition parser_error (message : TxtMessage) (content : text) (s : S) : TxtError :=
  let '(line, column) := calculate_row_column content (scan_cursor s) in TE_Parser message line column.

(** ** Whitespace and line ends *)

Fixpoint eat_breaks (fuel : nat) (s : S) : S :=
  match fuel with
  | O => s
  | Datatypes.S fuel =>
      let '(lf, s1) := scan_eat_str [92; 10] s in
      let '(crlf, s2) := if lf : bool then (true, s1) else scan_eat_str [92; 13; 10] s in
      let '(cr, s3) := if crlf : bool then (true, s2) else scan_eat_str [92; 13] s in
      if cr : bool then eat_breaks fuel (snd (scan_eat_while blank s3)) else s
  end.

Definition eat_wrappable_whitespace (s : S) : text * S :=
  let start := scan_cursor s in
  let s := snd (scan_eat_while blank s) in
  let s := eat_breaks (length (scan_after s)) s in
  (scan_from start s, s).

(** A comment, up to its line end. *)
Definition eat_comment (s : S) : S :=
  let s := eat_until line_break s in
  if at_char (fun c => c =? 13) s then snd (eat_if (fun c => c =? 10) s) else s.

Definition eat_trailing_line (content : text) (s : S) : result S TxtError :=
  let s := snd (scan_eat_while blank s) in
  let '(c, s) := scan_eat s in
  match c with
  | None => Ok s
  | Some c =>
      if c =? 10 then Ok s
      else if c =? 13 then Ok (snd (eat_if (fun c => c =? 10) s))
      else if c =? 35 then Ok (eat_comment s)
      else Err (parser_error (TM_ExpectedLineEnd c) content s)
  end.

(** Skips comments and blank lines. *)
Fixpoint skip_trivia (fuel : nat) (content : text) (s : S) : result S TxtError :=
  match fuel with
  | O => Ok s
  | Datatypes.S fuel =>
      if at_char is_terminal s then
        let? s := eat_trailing_line content s in
        skip_trivia fuel content (snd (eat_wrappable_whitespace s))
      else Ok s
  end.

(** ** Values and hashes *)

(** [=], or whitespace. *)
Definition eat_separator (content : text) (s : S) : result S TxtError :=
  let '(equals, s1) := eat_if (fun c => c =? 61) s in
  if equals : bool then Ok s1
  else
    let '(space, s2) := eat_if is_whitespace s in
    if space : bool then Ok (snd (scan_eat_while is_whitespace s2)) else Err (parser_error (TM_ExpectedSeparator (peek s)) content s).

Definition parse_value (option content : text) (while_pattern : N -> bool) (s : S) : result (text * S) TxtError :=
  let? s := eat_separator content s in
  let '(value, s) := scan_eat_while while_pattern s in
  match trim_end value with
  | [] => Err (parser_error (TM_NoArgument option) content s)
  | value => Ok (value, s)
  end.

Fixpoint hashes_loop (fuel : nat) (content : text) (hashes : list text) (s : S) : result (list text * S) TxtError :=
  match fuel with
  | O => Ok (hashes, s)
  | Datatypes.S fuel =>
      let s := snd (eat_wrappable_whitespace s) in
      let '(more, s) := scan_eat_str (bs "--hash") s in
      if more : bool then
        let? hash := parse_value (bs "--hash") content (fun c => negb (is_whitespace c)) s in
        hashes_loop fuel content (hashes ++ [fst hash]) (snd hash)
      else Ok (hashes, s)
  end.

Definition parse_hashes (content : text) (s : S) : result (list text * S) TxtError :=
  let '(eaten, s) := scan_eat_while_str (bs "--hash") s in
  match eaten with
  | [] => Err (let '(line, column) := calculate_row_column content (scan_cursor s) in TE_Parser (TM_ExpectedHash (fst (scan_eat_while (fun c => negb (is_whitespace c)) s))) line column)
  | _ =>
      let? hash := parse_value (bs "--hash") content (fun c => negb (is_whitespace c)) s in
      hashes_loop (length (scan_after (snd hash))) content [fst hash] (snd hash)
  end.

(** ** Requirements *)

(** The end of the requirement, and whether hashes follow; [None] if the fuel runs out. *)
Fixpoint requirement_end (fuel : nat) (s : S) : option (N * bool * S) :=
  match fuel with
  | O => None
  | Datatypes.S fuel =>
      let end_ := scan_cursor s in
      let '(lf, s1) := eat_if (fun c => c =? 10) s in
      if lf : bool then Some (end_, false, s1)
      else
        let '(cr, s1) := eat_if (fun c => c =? 13) s in
        if cr : bool then Some (end_, false, snd (eat_if (fun c => c =? 10) s1))
        else
          let '(space, s1) := eat_wrappable_whitespace s in
          match space with
          | _ :: _ =>
              if text_starts_with (bs "--") (scan_after s1) then Some (end_, true, s1)
              else
                let '(comment, s2) := eat_if (fun c => c =? 35) s1 in
                if comment : bool then Some (end_, false, eat_comment s2) else requirement_end fuel s1
          | [] =>
              let '(c, s1) := scan_eat s1 in
              match c with None => Some (end_, false, s1) | Some _ => requirement_end fuel s1 end
          end
  end.

(** [RequirementsTxtRequirement::parse] *)
Definition txt_requirement_parse (input : text) (working_dir : Path) (editable : bool) (w : World I) : outcome (World I) (Pep508Error U) TxtRequirement :=
  let unnamed w :=
    match UnnamedRequirement_parse (T := T) env_var project_root normalize_url_path input (Some working_dir) w with
    | Done requirement c w => Done (TR_Unnamed requirement) c w
    | Failed e w => Failed e w
    | Panicked => Panicked
    end in
  match Requirement_parse (T := T) (S := Sc) env_var project_root input (Some working_dir) w with
  | Done requirement c w => if editable && bool_decide (version_or_url requirement = None) then unnamed w else Done (TR_Named requirement) c w
  | Failed e w => match message e with PS_UnsupportedRequirement _ => unnamed w | _ => Failed e w end
  | Panicked => Panicked
  end.

(** The text looks like a requirements file, and there is such a file. *)
Definition names_a_file (requirement : text) (working_dir : Path) : bool :=
  (text_ends_with (bs ".txt") requirement || text_ends_with (bs ".in") requirement) &&
  (let path := path_of requirement in is_file (if is_absolute path then path else join working_dir path)).

Definition parse_requirement_and_hashes (content : text) (source : option Path) (working_dir : Path) (editable : bool) (s : S) (w : World I) : answer (TxtRequirement * list text * S) :=
  let start := scan_cursor s in
  match requirement_end (Datatypes.S (length (scan_after s))) s with
  | None => A_panic
  | Some (end_, has_hashes, s) =>
      match byte_slice start (end_ - start) content with
      | None => A_panic
      | Some requirement =>
          if names_a_file requirement working_dir then A_err (TE_MissingRequirementPrefix requirement) w
          else
            match txt_requirement_parse requirement working_dir editable w with
            | Panicked => A_panic
            | Failed e w => A_err (TE_Pep508 e start end_) w
            | Done requirement _ w =>
                let requirement := match source with Some source => txt_with_origin requirement (RO_File source) | None => requirement end in
                bind_answer (of_txt_result (if has_hashes : bool then parse_hashes content s else Ok ([], s)) w)
                  (fun hashes w => A_ok (requirement, fst hashes, snd hashes) w)
            end
      end
  end.

(** ** One entry *)

(** [s.eat_if(a) || s.eat_if(b)] *)
Definition eat_either (a b : text) (s : S) : bool * S :=
  let '(eaten, s1) := scan_eat_str a s in if eaten : bool then (true, s1) else scan_eat_str b s.

(** The URL of an index or of links: a path that exists, or a URL. *)
Definition parse_index_url (option content : text) (start : N) (s : S) : result (VerbatimUrl * S) TxtError :=
  let? value := parse_value option content not_terminal s in
  let '(given, s) := value in
  let given := unquoted given in
  let expanded := expand_env_vars env_var project_root given in
  let? url :=
    match absolute_existing expanded with
    | Some path => map_err (fun err => TE_VerbatimUrl err given start (scan_cursor s)) (from_absolute_path path)
    | None => map_err (fun err => TE_Url err given start (scan_cursor s)) (parse_url_text expanded)
    end in
  Ok (url_with_given url given, s).

Definition parse_name_specifier (option content : text) (start : N) (s : S) : result (PackageNameSpecifier * S) TxtError :=
  let? value := parse_value option content not_terminal s in
  let '(given, s) := value in
  let given := unquoted given in
  let? specifier := map_err (fun err => TE_NoBinary err given start (scan_cursor s)) (PackageNameSpecifier_from_str given) in
  Ok (specifier, s).

Fixpoint find_unsupported (options : list UnsupportedOption) (s : S) : option (UnsupportedOption * S) :=
  match options with
  | [] => None
  | option :: options => let '(eaten, s1) := scan_eat_str (option_name option) s in if eaten : bool then Some (option, s1) else find_unsupported options s
  end.

Definition origin_of (requirements_txt : Path) : option Path := if bool_decide (requirements_txt = path_of (bs "-")) then None else Some requirements_txt.

Definition ok_statement {A} (m : result (A * S) TxtError) (f : A -> RequirementsTxtStatement) (w : World I) : answer (option RequirementsTxtStatement * S) :=
  match m with Ok (a, s) => A_ok (Some (f a), s) w | Err e => A_err e w end.

Definition parse_editable (content : text) (working_dir requirements_txt : Path) (start : N) (s : S) (w : World I) : answer (option RequirementsTxtStatement * S) :=
  match eat_separator content s with
  | Err e => A_err e w
  | Ok s =>
      bind_answer (parse_requirement_and_hashes content (origin_of requirements_txt) working_dir true s w) (fun r w =>
        let '(requirement, hashes, s) := r in
        match into_editable marker_text requirement with
        | Ok requirement => A_ok (Some (RT_EditableRequirementEntry {| entry_requirement := requirement; entry_hashes := hashes |}), s) w
        | Err err => A_err (TE_NonEditable err start (scan_cursor s)) w
        end)
  end.

(** [parse_entry] after the comments and blank lines. *)
Definition parse_statement (content : text) (working_dir requirements_txt : Path) (s : S) (w : World I) : answer (option RequirementsTxtStatement * S) :=
  let start := scan_cursor s in
  let file option f s :=
    match parse_value option content not_terminal s with
    | Ok (filename, s) => A_ok (Some (f (unquoted filename) start (scan_cursor s)), s) w
    | Err e => A_err e w
    end in
  let '(b, s1) := eat_either (bs "-r") (bs "--requirement") s in
  if b : bool then file (bs "--requirement") RT_Requirements s1 else
  let '(b, s1) := eat_either (bs "-c") (bs "--constraint") s in
  if b : bool then file (bs "--constraint") RT_Constraint s1 else
  let '(b, s1) := eat_either (bs "-e") (bs "--editable") s in
  if b : bool then parse_editable content working_dir requirements_txt start s1 w else
  let '(b, s1) := eat_either (bs "-i") (bs "--index-url") s in
  if b : bool then ok_statement (parse_index_url (bs "--index-url") content start s1) RT_IndexUrl w else
  let '(b, s1) := scan_eat_str (bs "--extra-index-url") s in
  if b : bool then ok_statement (parse_index_url (bs "--extra-index-url") content start s1) RT_ExtraIndexUrl w else
  let '(b, s1) := scan_eat_str (bs "--no-index") s in
  if b : bool then A_ok (Some RT_NoIndex, s1) w else
  let '(b, s1) := eat_either (bs "--find-links") (bs "-f") s in
  if b : bool then ok_statement (parse_index_url (bs "--find-links") content start s1) RT_FindLinks w else
  let '(b, s1) := scan_eat_str (bs "--no-binary") s in
  if b : bool then ok_statement (parse_name_specifier (bs "--no-binary") content start s1) (fun specifier => RT_NoBinary (NoBinary_from_pip_arg specifier)) w else
  let '(b, s1) := scan_eat_str (bs "--only-binary") s in
  if b : bool then ok_statement (parse_name_specifier (bs "--only-binary") content start s1) (fun specifier => RT_OnlyBinary (NoBuild_from_pip_arg specifier)) w else
  if at_char requirement_start s then
    bind_answer (parse_requirement_and_hashes content (origin_of requirements_txt) working_dir false s w) (fun r w =>
      let '(requirement, hashes, s) := r in A_ok (Some (RT_RequirementEntry {| entry_requirement := requirement; entry_hashes := hashes |}), s) w)
  else
    match peek s with
    | None => A_ok (None, s) w
    | Some c =>
        match find_unsupported all_unsupported s with
        | Some (option, s) => A_ok (Some (RT_UnsupportedOption option), snd (scan_eat_while not_terminal s)) w
        | None => A_err (parser_error (TM_Unexpected c) content s) w
        end
    end.

Definition parse_entry (content : text) (working_dir requirements_txt : Path) (s : S) (w : World I) : answer (option RequirementsTxtStatement * S) :=
  let s := snd (eat_wrappable_whitespace s) in
  match skip_trivia (Datatypes.S (length (scan_after s))) content s with
  | Ok s => parse_statement content working_dir requirements_txt s w
  | Err e => A_err e w
  end.

(** ** Files *)

Record RequirementsTxt := mkTxt {
  requirements : list RequirementEntry;
  constraints : list (Requirement Url Path T);
  editables : list RequirementEntry;
  index_url : option VerbatimUrl;
  extra_index_urls : list VerbatimUrl;
  find_links : list VerbatimUrl;
  no_index : bool;
  txt_no_binary : NoBinary;
  only_binary : NoBuild
}.

Definition txt_default : RequirementsTxt := mkTxt [] [] [] None [] [] false NB_None NO_None.

Definition update_from (self other : RequirementsTxt) : RequirementsTxt :=
  mkTxt (requirements self ++ requirements other) (constraints self ++ constraints other) (editables self ++ editables other)
    match index_url self with None => index_url other | Some url => Some url end
    (extra_index_urls self ++ extra_index_urls other) (find_links self ++ find_links other) (no_index self || no_index other)
    (NoBinary_extend (txt_no_binary self) (txt_no_binary other)) (NoBuild_extend (only_binary self) (only_binary other)).

(** The sets of [VisitedFiles], shared between the files; which of its constructors a
    file is read with is an argument. *)
Record Visited := mkVisited { visited_requirements : list Path; visited_constraints : list Path }.
Inductive inclusion := As_requirements | As_constraints.

Definition seen (mode : inclusion) (path : Path) (v : Visited) : bool :=
  match mode with As_requirements => bool_decide (path ∈ visited_requirements v) | As_constraints => bool_decide (path ∈ visited_constraints v) end.

Definition insert_visited (mode : inclusion) (path : Path) (v : Visited) : Visited :=
  match mode with
  | As_requirements => mkVisited (path :: visited_requirements v) (visited_constraints v)
  | As_constraints => mkVisited (visited_requirements v) (path :: visited_constraints v)
  end.

(** The result for a file, with the sets; [F_deep] if the depth runs out. *)
Inductive file_answer :=
| F_ok (data : RequirementsTxt) (v : Visited) (w : World I)
| F_err (file : Path) (e : TxtError) (w : World I)
| F_panic
| F_deep.

(** The path of an included file. *)
Definition sub_file (requirements_dir requirements_txt : Path) (filename : text) (start end_ : N) : result Path TxtError :=
  if text_starts_with (bs "http://") filename || text_starts_with (bs "https://") filename then Ok (path_of filename)
  else if text_starts_with (bs "file://") filename then
    let? path := map_err (fun err => TE_Url err filename start end_) (file_url_path filename) in
    match path with Some path => Ok (join requirements_txt path) | None => Err (TE_FileUrl filename start end_) end
  else Ok (join requirements_dir (path_of filename)).

(** The named requirements of a file, as constraints. *)
Fixpoint as_constraints (entries : list RequirementEntry) : option (list (Requirement Url Path T)) :=
  match entries with
  | [] => Some []
  | entry :: entries =>
      match entry_requirement entry with
      | TR_Named requirement => rest ← as_constraints entries; Some (requirement :: rest)
      | TR_Unnamed _ => None
      end
  end.

(** A statement that includes no file. *)
Definition apply_statement (content : text) (s : S) (statement : RequirementsTxtStatement) (data : RequirementsTxt) : result RequirementsTxt TxtError :=
  let 'mkTxt requirements constraints editables index_url extra_index_urls find_links no_index no_binary only_binary := data in
  match statement with
  | RT_RequirementEntry entry => Ok (mkTxt (requirements ++ [entry]) constraints editables index_url extra_index_urls find_links no_index no_binary only_binary)
  | RT_EditableRequirementEntry entry => Ok (mkTxt requirements constraints (editables ++ [entry]) index_url extra_index_urls find_links no_index no_binary only_binary)
  | RT_IndexUrl url =>
      match index_url with
      | Some _ => Err (parser_error TM_MultipleIndexUrl content s)
      | None => Ok (mkTxt requirements constraints editables (Some url) extra_index_urls find_links no_index no_binary only_binary)
      end
  | RT_ExtraIndexUrl url => Ok (mkTxt requirements constraints editables index_url (extra_index_urls ++ [url]) find_links no_index no_binary only_binary)
  | RT_FindLinks url => Ok (mkTxt requirements constraints editables index_url extra_index_urls (find_links ++ [url]) no_index no_binary only_binary)
  | RT_NoIndex => Ok (mkTxt requirements constraints editables index_url extra_index_urls find_links true no_binary only_binary)
  | RT_NoBinary value => Ok (mkTxt requirements constraints editables index_url extra_index_urls find_links no_index (NoBinary_extend no_binary value) only_binary)
  | RT_OnlyBinary value => Ok (mkTxt requirements constraints editables index_url extra_index_urls find_links no_index no_binary (NoBuild_extend only_binary value))
  | RT_UnsupportedOption _ | RT_Requirements _ _ _ | RT_Constraint _ _ _ => Ok data
  end.

(** The data of an included file is merged into that of the file. *)
Definition merge_included (constraint : bool) (content : text) (s : S) (start end_ : N) (sub data : RequirementsTxt) : result RequirementsTxt TxtError :=
  if constraint then
    match as_constraints (requirements sub) with
    | None => Err (TE_UnnamedConstraint start end_)
    | Some named =>
        let 'mkTxt requirements constraints' editables index_url extra_index_urls find_links no_index no_binary only_binary := data in
        Ok (mkTxt requirements (constraints' ++ named ++ constraints sub) editables index_url extra_index_urls find_links no_index no_binary only_binary)
    end
  else
    match index_url sub, index_url data with
    | Some url, Some url' => if bool_decide (url = url') then Ok (update_from data sub) else Err (parser_error TM_ConflictingIndexUrl content s)
    | _, _ => Ok (update_from data sub)
    end.

(** [parse_inner], with the parser of included files. *)
Section inner.
Context (parse_file : inclusion -> Path -> Visited -> World I -> file_answer).
Context (content : text) (working_dir requirements_dir requirements_txt : Path) (mode : inclusion).

(** The file that a statement includes, unless it was included already. *)
Definition include_file (constraint : bool) (filename : text) (start end_ : N) (s : S) (data : RequirementsTxt) (v : Visited) (w : World I)
    (continue : RequirementsTxt -> Visited -> World I -> file_answer) : file_answer :=
  match sub_file requirements_dir requirements_txt (expand_env_vars env_var project_root filename) start end_ with
  | Err e => F_err requirements_txt e w
  | Ok path =>
      let sub_mode := if constraint then As_constraints else mode in
      if seen sub_mode path v then continue data v w
      else
        match parse_file sub_mode path (insert_visited sub_mode path v) w with
        | F_ok sub v w =>
            match merge_included constraint content s start end_ sub data with
            | Ok data => continue data v w
            | Err e => F_err requirements_txt e w
            end
        | F_err file e w => F_err requirements_txt (TE_Subfile file e start end_) w
        | F_panic => F_panic
        | F_deep => F_deep
        end
  end.

(** What the loop does with a statement. *)
Definition follow (statement : RequirementsTxtStatement) (s : S) (data : RequirementsTxt) (v : Visited) (w : World I)
    (continue : RequirementsTxt -> Visited -> World I -> file_answer) : file_answer :=
  match statement with
  | RT_Requirements filename start end_ => include_file false filename start end_ s data v w continue
  | RT_Constraint filename start end_ => include_file true filename start end_ s data v w continue
  | _ =>
      match apply_statement content s statement data with
      | Ok data => continue data v w
      | Err e => F_err requirements_txt e w
      end
  end.

Fixpoint parse_inner (fuel : nat) (s : S) (data : RequirementsTxt) (v : Visited) (w : World I) : file_answer :=
  match fuel with
  | O => F_panic
  | Datatypes.S fuel =>
      match parse_entry content working_dir requirements_txt s w with
      | A_panic => F_panic
      | A_err e w => F_err requirements_txt e w
      | A_ok (None, _) w => F_ok data v w
      | A_ok (Some statement, s) w => follow statement s data v w (parse_inner fuel s)
      end
  end.
End inner.

Definition read_content (requirements_txt : Path) : result text TxtError :=
  if path_starts_with requirements_txt (bs "http://") || path_starts_with requirements_txt (bs "https://") then
    if offline then Err (TE_Io offline_error) else map_err TE_Io (read_url requirements_txt)
  else map_err TE_Io (read_file requirements_txt).

Fixpoint parse_impl (depth : nat) (working_dir : Path) (mode : inclusion) (requirements_txt : Path) (v : Visited) (w : World I) : file_answer :=
  match depth with
  | O => F_deep
  | Datatypes.S depth =>
      match read_content requirements_txt with
      | Err e => F_err requirements_txt e w
      | Ok content =>
          parse_inner (parse_impl depth working_dir) content working_dir (default working_dir (parent requirements_txt)) requirements_txt mode
            (Datatypes.S (Datatypes.S (length content))) (scan_new content) txt_default v w
      end
  end.

(** [RequirementsTxt::parse] *)
Definition txt_parse (depth : nat) (requirements_txt working_dir : Path) (w : World I) : file_answer :=
  parse_impl depth working_dir As_requirements requirements_txt (mkVisited [] []) w.
End parser.
