(* ===== verification/RequirementsTxtTheorems.v ===== *)
(** * Theorems on requirements files *)

From stdpp Require Import base numbers list sets strings.
From S2P Require Import Prelude VersionTypes VersionSmall Version VersionFacts VersionParser Specifier Names CacheKey Text RangeSet Cuts MarkerTypes MarkerAlgebra MarkerWf MarkerOps MarkerTheorems MarkerExamples Cursor MarkerParse MarkerParseFacts MarkerParseTheorems UrlText Requirement Unnamed RequirementSafe RequirementTheorems PrioritizedDist VersionMap RequirementsTxt.

#[local] Open Scope N_scope.
#[local] Open Scope uv_scope.

(** ** The scanner moves forward *)

Section scan.
Context {S : Type} `{TxtScannerLaws S}.

(** From [s] to [s'] the scanner consumes [t]. *)
Definition consumes (s : S) (t : text) (s' : S) : Prop := scan_before s' = scan_before s ++ t /\ scan_after s = t ++ scan_after s'.

Lemma consumes_nil s : consumes s [] s.
Proof. split; [by rewrite app_nil_r|done]. Qed.

Lemma consumes_app s t s' u s'' : consumes s t s' -> consumes s' u s'' -> consumes s (t ++ u) s''.
Proof. intros [H1 H2] [H3 H4]. split; [by rewrite H3, H1, app_assoc|by rewrite H2, H4, app_assoc]. Qed.

Definition later (s s' : S) : Prop := exists t, consumes s t s'.

#[export] Instance later_preorder : PreOrder later.
Proof. split; [intros s; exists []; apply consumes_nil|]. intros s s' s'' [t Ht] [u Hu]. exists (t ++ u). by eapply consumes_app. Qed.

(** The content is what is before and after the scanner. *)
Definition over (content : text) (s : S) : Prop := content = scan_before s ++ scan_after s.

Lemma over_later content s s' : over content s -> later s s' -> over content s'.
Proof. intros -> [t [H1 H2]]. unfold over. by rewrite H1, H2, app_assoc. Qed.

Lemma later_length s s' : later s s' -> (length (scan_after s') <= length (scan_after s))%nat.
Proof. intros [t [_ ->]]. rewrite length_app. lia. Qed.

Lemma later_cursor s s' : later s s' -> scan_cursor s <= scan_cursor s'.
Proof. intros [t [E _]]. rewrite !scan_cursor_before, E, byte_len_app. lia. Qed.

Lemma after_prefix_some w t r : after_prefix w t = Some r <-> t = w ++ r.
Proof.
  revert t. induction w as [|c w IH]; intros t; cbn; [split; [by intros [= ->]|by intros ->]|]. destruct t as [|d t]; [done|].
  destruct (N.eqb_spec c d) as [->|Hne]; [rewrite IH; split; congruence|split; [done|congruence]].
Qed.

Lemma eat_consumes s c s' : scan_eat s = (c, s') -> match c with Some c => consumes s [c] s' | None => scan_after s = [] /\ later s s' /\ scan_after s' = [] end.
Proof.
  intros E. pose proof (scan_eat_law s) as L. rewrite E in L. destruct (scan_after s) as [|d t] eqn:Ea.
  - destruct L as (->&Hb&Hn). split_and!; [done| |done]. exists []. split; [by rewrite app_nil_r|by rewrite Ea, Hn].
  - destruct L as (->&Hb&Hn). split; [done|]. by rewrite Ea, Hn.
Qed.

Lemma eat_str_consumes w s b s' : scan_eat_str w s = (b, s') -> if b then consumes s w s' else s' = s /\ forall r, scan_after s <> w ++ r.
Proof.
  intros E. pose proof (scan_eat_str_law w s) as L. rewrite E in L. destruct (after_prefix w (scan_after s)) as [t|] eqn:Ep.
  - destruct L as (->&Hb&Hn). split; [done|]. rewrite Hn. by apply after_prefix_some.
  - destruct L as (->&->). split; [done|]. intros r Hr. apply after_prefix_some in Hr. congruence.
Qed.

Lemma eat_while_consumes p s t s' : scan_eat_while p s = (t, s') -> consumes s t s' /\ t = fst (span p (scan_after s)) /\ scan_after s' = snd (span p (scan_after s)).
Proof.
  intros E. pose proof (scan_eat_while_law p s) as L. rewrite E in L. destruct L as (Ht&Hb&Hn). split_and!; [|done|done]. split; [done|]. rewrite Ht, Hn. by rewrite span_eq.
Qed.

Lemma eat_if_consumes p s b s' : eat_if p s = (b, s') -> if b then exists c, p c = true /\ consumes s [c] s' else s' = s /\ at_char p s = false.
Proof.
  unfold eat_if. destruct (at_char p s) eqn:Ea; intros [= <- <-]; [|done]. unfold at_char in Ea. destruct (scan_eat s) as [c s1] eqn:E. apply eat_consumes in E. cbn.
  destruct c as [c|]; [|destruct E as [E _]; by rewrite E in Ea]. exists c. split; [|done]. destruct E as [_ E]. by rewrite E in Ea.
Qed.

(** ** Forward steps *)

Lemma later_eat s : later s (snd (scan_eat s)).
Proof. destruct (scan_eat s) as [[c|] s'] eqn:E; apply eat_consumes in E; [by eexists|by destruct E as (_&?&_)]. Qed.

Lemma later_eat_if p s : later s (snd (eat_if p s)).
Proof. destruct (eat_if p s) as [b s'] eqn:E. apply eat_if_consumes in E. destruct b; [destruct E as (c&_&Hc); by exists [c]|destruct E as [-> _]; done]. Qed.

Lemma later_eat_while p s : later s (snd (scan_eat_while p s)).
Proof. destruct (scan_eat_while p s) as [t s'] eqn:E. apply eat_while_consumes in E as [E _]. by exists t. Qed.

Lemma later_eat_until p s : later s (eat_until p s).
Proof. apply later_eat_while. Qed.

Lemma later_comment s : later s (eat_comment s).
Proof. unfold eat_comment. destruct (at_char _ _); [etrans; [apply later_eat_until|apply later_eat_if]|apply later_eat_until]. Qed.

Lemma later_eat_str w s b s' : scan_eat_str w s = (b, s') -> later s s'.
Proof. intros E. apply eat_str_consumes in E. destruct b; [by exists w|destruct E as [-> _]; done]. Qed.

(** One escaped line break. *)
Definition breaks : list text := [[92; 10]; [92; 13; 10]; [92; 13]].

Lemma eat_breaks_later fuel : forall s, later s (eat_breaks fuel s).
Proof.
  induction fuel as [|fuel IH]; intros s; cbn [eat_breaks]; [done|]. destruct (scan_eat_str [92; 10] s) as [[] s1] eqn:E1; cbn.
  { etrans; [by eapply later_eat_str|]. etrans; [apply later_eat_while|apply IH]. }
  destruct (scan_eat_str [92; 13; 10] s) as [[] s2] eqn:E2; cbn.
  { etrans; [by eapply later_eat_str|]. etrans; [apply later_eat_while|apply IH]. }
  destruct (scan_eat_str [92; 13] s) as [[] s3] eqn:E3; [|done]. etrans; [by eapply later_eat_str|]. etrans; [apply later_eat_while|apply IH].
Qed.

Lemma wrappable_later s t s' : eat_wrappable_whitespace s = (t, s') -> consumes s t s'.
Proof.
  unfold eat_wrappable_whitespace. intros E. injection E as <- <-. set (s' := eat_breaks _ _). assert (later s s') as [t Ht] by (etrans; [apply later_eat_while|apply eat_breaks_later]).
  pose proof Ht as [Hb _]. rewrite scan_cursor_before, (scan_from_law s' (scan_before s) t Hb). exact Ht.
Qed.

(** What ends a requirement: the end of the content, a line end, or whitespace. *)
Definition requirement_ends (t : text) : Prop := match t with [] => True | c :: _ => c = 10 \/ c = 13 \/ c = 32 \/ c = 9 \/ c = 92 end.

Lemma eat_breaks_other fuel s c t : scan_after s = c :: t -> c <> 92 -> eat_breaks fuel s = s.
Proof.
  intros Ea Hc. destruct fuel as [|fuel]; [done|]. assert (forall w, exists s', scan_eat_str (92 :: w) s = (false, s')) as Hno.
  { intros w. destruct (scan_eat_str (92 :: w) s) as [[] s1] eqn:E; [|by exists s1]. apply eat_str_consumes in E as [_ E]. rewrite Ea in E. by injection E. }
  cbn [eat_breaks]. destruct (Hno [10]) as [s1 ->], (Hno [13; 10]) as [s2 ->], (Hno [13]) as [s3 ->]. done.
Qed.

Lemma wrappable_head s x t s' : eat_wrappable_whitespace s = (x :: t, s') -> requirement_ends (scan_after s).
Proof.
  intros E. pose proof (wrappable_later _ _ _ E) as [Hb Ha]. rewrite Ha. cbn. destruct (decide (x = 92)) as [->|Hx]; [tauto|]. destruct (blank x) eqn:Ex.
  - unfold blank in Ex. apply orb_true_iff in Ex as [Ex%N.eqb_eq|Ex%N.eqb_eq]; tauto.
  - exfalso. unfold eat_wrappable_whitespace in E. destruct (scan_eat_while blank s) as [y s1] eqn:E1. cbn [snd] in E. apply eat_while_consumes in E1 as ([Hb1 _]&Ey&Ea). rewrite Ha in Ey, Ea. cbn in Ey, Ea. rewrite Ex in Ey, Ea. cbn in Ey, Ea.
    rewrite (eat_breaks_other _ s1 x (t ++ scan_after s') Ea Hx) in E. injection E as _ <-. rewrite Hb1 in Hb. apply app_inv_head in Hb. by subst y.
Qed.

Lemma later_wrappable s : later s (snd (eat_wrappable_whitespace s)).
Proof. destruct (eat_wrappable_whitespace s) as [t s'] eqn:E. apply wrappable_later in E. by exists t. Qed.
End scan.

(** ** The parser of entries *)

Section entries.
Context {S I T DisplayUrl PathUrl GitUrl ArchiveUrl VerbatimUrl Path U UrlError IoError : Type}.
Abbreviation Url := (VerbatimParsedUrl DisplayUrl PathUrl GitUrl ArchiveUrl VerbatimUrl Path).
Context `{TxtScannerLaws S} `{MarkerBuilderLaws I T} `{Alphabetic} `{UnnamedRequirementUrl Url U Path} {Sc : Type} `{Scanner Sc}.
Context (env_var : text -> option text) (project_root : text) (normalize_url_path : text -> text) (marker_text : T -> option text).
Context `{!Host (VerbatimUrl := VerbatimUrl) (Path := Path) (UrlError := UrlError) (IoError := IoError)} `{EqDecision Path} `{EqDecision VerbatimUrl}.
Abbreviation TxtError := (@TxtError Path U UrlError IoError).

(** An error of the file itself, which points into the content. *)
Definition located (content : text) (e : TxtError) : Prop :=
  match e with
  | TE_Url _ _ a b | TE_FileUrl _ a b | TE_VerbatimUrl _ _ a b | TE_NonEditable _ a b | TE_NoBinary _ _ a b | TE_UnnamedConstraint a b | TE_Pep508 _ a b => a <= b <= byte_len content
  | TE_Parser _ line column => exists p, p <= byte_len content /\ calculate_row_column content p = (line, column)
  | TE_MissingRequirementPrefix _ => True
  | TE_Io _ | TE_Subfile _ _ _ _ => False
  end.

Lemma cursor_fits content (s : S) : over content s -> scan_cursor s <= byte_len content.
Proof. intros ->. rewrite scan_cursor_before, byte_len_app. lia. Qed.

Lemma parser_error_located content (s : S) message : over content s -> located content (parser_error message content s).
Proof. intros Hs. unfold parser_error. destruct (calculate_row_column content (scan_cursor s)) as [line column] eqn:E. exists (scan_cursor s). split; [by apply cursor_fits|done]. Qed.

(** A step that succeeds moves on, by at least one character if [strict]; one that fails
    points into the content. *)
Definition steps {A} (strict : bool) (content : text) (s : S) (m : result (A * S) TxtError) : Prop :=
  match m with
  | Ok (_, s') => later s s' /\ (strict = true -> (length (scan_after s') < length (scan_after s))%nat)
  | Err e => located content e
  end.

Lemma consumes_shorter (s : S) t s' : consumes s t s' -> t <> [] -> (length (scan_after s') < length (scan_after s))%nat.
Proof. intros [_ ->] Ht. rewrite length_app. destruct t; [done|]. cbn. lia. Qed.

Lemma separator_steps content (s : S) : over content s ->
  match eat_separator content s with Ok s' => later s s' /\ (length (scan_after s') < length (scan_after s))%nat | Err e => located content e end.
Proof.
  intros Hs. unfold eat_separator. destruct (eat_if (fun c => c =? 61) s) as [[] s1] eqn:E1; apply eat_if_consumes in E1.
  { destruct E1 as (c&_&Hc). split; [by exists [c]|by eapply consumes_shorter]. }
  destruct (eat_if is_whitespace s) as [[] s2] eqn:E2; apply eat_if_consumes in E2; [|by apply parser_error_located].
  destruct E2 as (c&_&Hc). assert (later s2 (snd (scan_eat_while is_whitespace s2))) as Hl by apply later_eat_while. split; [etrans; [by exists [c]|done]|].
  apply later_length in Hl. apply consumes_shorter in Hc; [|done]. lia.
Qed.

Lemma value_steps option content p (s : S) : over content s -> steps true content s (parse_value option content p s).
Proof.
  intros Hs. unfold parse_value. pose proof (separator_steps content s Hs) as Hsep. destruct (eat_separator content s) as [s1|e]; cbn [rbind]; [|done]. destruct Hsep as [Hl Hlt].
  destruct (scan_eat_while p s1) as [value s2] eqn:E. pose proof (later_eat_while p s1) as Hl2. rewrite E in Hl2. cbn in Hl2. assert (later s s2) as Hl' by (by etrans).
  destruct (trim_end value) as [|x v]; [apply parser_error_located; by eapply over_later|]. split; [done|]. intros _. apply later_length in Hl2. lia.
Qed.

Lemma hashes_loop_steps fuel content : forall hashes (s : S), over content s -> steps false content s (hashes_loop fuel content hashes s).
Proof.
  induction fuel as [|fuel IH]; intros hashes s Hs; cbn [hashes_loop]; [split; [done|done]|]. set (s1 := snd (eat_wrappable_whitespace s)). assert (later s s1) as Hl1 by apply later_wrappable.
  destruct (scan_eat_str (bs "--hash") s1) as [b s2] eqn:E. pose proof (later_eat_str _ _ _ _ E) as Hl2. assert (later s s2) as Hl by (by etrans). destruct b; [|by split].
  assert (over content s2) as Hs2 by (by eapply over_later). pose proof (value_steps (bs "--hash") content (fun c => negb (is_whitespace c)) s2 Hs2) as Hv.
  destruct (parse_value _ content _ s2) as [[hash s3]|e]; cbn [rbind]; [|done]. destruct Hv as [Hl3 _]. cbn [fst snd]. assert (over content s3) as Hs3 by (by eapply over_later).
  specialize (IH (hashes ++ [hash]) s3 Hs3). destruct (hashes_loop fuel content (hashes ++ [hash]) s3) as [[l s4]|e]; [|done]. destruct IH as [Hl4 _]. split; [|done]. etrans; [done|]. by etrans.
Qed.

Lemma hashes_steps content (s : S) : over content s -> steps false content s (parse_hashes content s).
Proof.
  intros Hs. unfold parse_hashes. destruct (scan_eat_while_str (bs "--hash") s) as [eaten s1] eqn:E. pose proof (scan_eat_while_str_law (bs "--hash") s) as L. rewrite E in L. destruct L as [L Hb]; [done|].
  assert (later s s1) as Hl.
  { exists eaten. split; [done|]. pose proof (f_equal fst L) as Ht. pose proof (f_equal snd L) as Ha. cbn [fst snd] in Ht, Ha. clear -Ht Ha. rewrite Ha, Ht. generalize (length (scan_after s)) as fuel. intros fuel. generalize (scan_after s) as t. induction fuel as [|fuel IH]; intros t; cbn [span_str]; [done|].
    destruct (after_prefix (bs "--hash") t) as [rest|] eqn:Ep; [|done]. apply after_prefix_some in Ep. specialize (IH rest). destruct (span_str fuel (bs "--hash") rest) as [a b]. cbn [fst snd] in *. rewrite Ep, IH at 1. by rewrite app_assoc. }
  assert (over content s1) as Hs1 by (by eapply over_later). destruct eaten as [|x eaten].
  - destruct (calculate_row_column content (scan_cursor s1)) as [line column] eqn:Er. exists (scan_cursor s1). split; [by apply cursor_fits|done].
  - pose proof (value_steps (bs "--hash") content (fun c => negb (is_whitespace c)) s1 Hs1) as Hv. destruct (parse_value _ content _ s1) as [[hash s2]|e]; cbn [rbind]; [|done]. destruct Hv as [Hl2 _]. cbn [fst snd].
    assert (over content s2) as Hs2 by (by eapply over_later). pose proof (hashes_loop_steps (length (scan_after s2)) content [hash] s2 Hs2) as Hh. destruct (hashes_loop _ content [hash] s2) as [[l s3]|e]; [|done].
    destruct Hh as [Hl3 _]. split; [|done]. etrans; [done|]. by etrans.
Qed.

(** ** Requirements *)

(** The end of a requirement, with what is before it and after it. *)
Definition ends_at (s : S) (m : option (N * bool * S)) : Prop :=
  exists s1 b s', m = Some (scan_cursor s1, b, s') /\ later s s1 /\ later s1 s' /\ requirement_ends (scan_after s1) /\ (scan_after s <> [] -> (length (scan_after s') < length (scan_after s))%nat).

Lemma ends_here (s s' : S) b : later s s' -> requirement_ends (scan_after s) -> (scan_after s <> [] -> (length (scan_after s') < length (scan_after s))%nat) -> ends_at s (Some (scan_cursor s, b, s')).
Proof. intros Hl He Hlt. by exists s, b, s'. Qed.

Lemma ends_later (s s2 : S) m : later s s2 -> (length (scan_after s2) < length (scan_after s))%nat -> ends_at s2 m -> ends_at s m.
Proof.
  intros Hl Hlt (s1&b&s'&->&Hl1&Hl2&He&_). exists s1, b, s'. split_and!; [done|by etrans|done|done|]. intros _. assert (later s2 s') as Hl3 by (by etrans). apply later_length in Hl3. lia.
Qed.

Lemma requirement_end_steps fuel : forall s : S, (length (scan_after s) < fuel)%nat -> ends_at s (requirement_end fuel s).
Proof.
  induction fuel as [|fuel IH]; intros s Hf; [lia|]. cbn [requirement_end].
  destruct (eat_if (fun c => c =? 10) s) as [[] s1] eqn:E1; apply eat_if_consumes in E1.
  { destruct E1 as (c&Ec%N.eqb_eq&Hc). apply ends_here; [by exists [c]|destruct Hc as [_ ->]; cbn; tauto|]. intros _. by eapply consumes_shorter. }
  clear E1. destruct (eat_if (fun c => c =? 13) s) as [[] s2] eqn:E2; apply eat_if_consumes in E2.
  { destruct E2 as (c&Ec%N.eqb_eq&Hc). pose proof (later_eat_if (fun c => c =? 10) s2) as Hl. apply ends_here; [etrans; [by exists [c]|done]|destruct Hc as [_ ->]; cbn; tauto|].
    intros _. apply later_length in Hl. apply consumes_shorter in Hc; [lia|done]. }
  clear E2. destruct (eat_wrappable_whitespace s) as [space s3] eqn:E3. pose proof (wrappable_later _ _ _ E3) as Hc3. assert (later s s3) as Hl3 by (by exists space). destruct space as [|x space].
  - destruct (scan_eat s3) as [[c|] s4] eqn:E4; apply eat_consumes in E4.
    + assert (length (scan_after s4) < length (scan_after s))%nat as Hlt by (apply later_length in Hl3; apply consumes_shorter in E4; [lia|done]).
      apply (ends_later s s4); [etrans; [done|by exists [c]]|done|]. apply IH. lia.
    + destruct E4 as (Ha&Hl4&_). destruct Hc3 as [_ Hc3]. rewrite Ha in Hc3. apply ends_here; [by etrans|by rewrite Hc3|]. by rewrite Hc3.
  - apply wrappable_head in E3. assert (length (scan_after s3) < length (scan_after s))%nat as Hlt by (by eapply consumes_shorter). destruct (text_starts_with (bs "--") (scan_after s3)); [by apply ends_here|].
    destruct (eat_if (fun c => c =? 35) s3) as [[] s4] eqn:E4; apply eat_if_consumes in E4; [|apply (ends_later s s3); [done..|]; apply IH; lia].
    destruct E4 as (c&_&Hc). pose proof (later_comment s4) as Hl. assert (later s3 (eat_comment s4)) as Hl' by (etrans; [by exists [c]|done]). apply ends_here; [by etrans|done|]. intros _. apply later_length in Hl'. lia.
Qed.

(** What is between two positions of the scanner is sliced from the content. *)
Lemma scanned_slice content (s s1 : S) : over content s -> later s s1 -> exists a b, content = a ++ b ++ scan_after s1 /\ byte_slice (scan_cursor s) (scan_cursor s1 - scan_cursor s) content = Some b.
Proof.
  intros -> [t [Hb Ha]]. exists (scan_before s), t. rewrite Ha. split; [done|]. rewrite !scan_cursor_before, Hb, byte_len_app. replace (byte_len (scan_before s) + byte_len t - byte_len (scan_before s)) with (byte_len t) by lia.
  apply byte_slice_app.
Qed.

(** The content is ASCII, and has nothing on which the parser of requirements panics: no
    bracket or no punctuation before the end of an extra or of a requirement, and in none
    of its pieces a marker expression that cannot be built. *)
Definition readable (content : text) : Prop :=
  ascii content /\ ((91 ∉ content) \/ extras_closed content /\ forall a p b, content = a ++ p :: 92 :: b -> is_punctuation p = false) /\
  forall a b c, content = a ++ b ++ c -> forallb buildable (expressions_of b) = true.

Context (buildable_built : forall t, forallb buildable (expressions_of t) = true -> Forall can_build (expressions_of t)).

Lemma readable_piece content a b c : readable content -> content = a ++ b ++ c -> requirement_ends c -> ascii b /\ Forall can_build (expressions_of b) /\ ((91 ∉ b) \/ extras_closed b).
Proof.
  intros (Ha&Hx&Hm) Ec Hc. specialize (Hm a b c Ec). subst content. split; [by apply Forall_app in Ha as [_ [Ha _]%Forall_app]|]. split; [by apply buildable_built|]. clear Hm. destruct Hx as [Hx|[Hx Hs]]; [left; intros Hb; apply Hx; rewrite !elem_of_app; tauto|right].
  apply extras_closed_suffix in Hx as Hbc. apply (extras_closed_prefix b c Hbc). destruct (last b) as [p|] eqn:El; [|done]. cbn. apply last_Some in El as [b' ->]. destruct (is_punctuation p) eqn:Ep; [|done]. exfalso.
  rewrite <- app_assoc in Hbc. specialize (Hbc b' p c eq_refl Ep). destruct c as [|q c]; [done|]. destruct Hbc as (_&_&Hw). destruct Hc as [->|[->|[->|[-> | ->]]]]; [done..|].
  specialize (Hs (a ++ b') p c ltac:(by rewrite <- !app_assoc)). congruence.
Qed.

Lemma txt_requirement_total b working_dir editable w : ascii b -> Forall can_build (expressions_of b) -> (91 ∉ b) \/ extras_closed b -> world_ok w ->
  match txt_requirement_parse (I := I) (T := T) (Sc := Sc) env_var project_root normalize_url_path b working_dir editable w with Done _ _ w' | Failed _ w' => world_ok w' | Panicked => False end.
Proof.
  intros Ha Hb Hx Hw. unfold txt_requirement_parse, Requirement_parse, UnnamedRequirement_parse.
  assert (forall w, world_ok w -> match parse_unnamed_requirement (T := T) (U := U) (Url := Url) env_var project_root normalize_url_path (Some working_dir) (Cursor_new b) w with
                    | Done _ _ w' | Failed _ w' => world_ok w' | Panicked => False end) as Hu.
  { intros w' Hw'. pose proof (safe_unnamed (Url := Url) env_var project_root normalize_url_path (Some working_dir) (Cursor_new b) w' (Cursor_new_ok b) Ha Hb Hx Hw') as Hn. unfold runs in Hn. case_match; [apply Hn|apply Hn|done]. }
  pose proof (safe_requirement (Url := Url) (S := Sc) env_var project_root (Some working_dir) (Cursor_new b) w (Cursor_new_ok b) Ha Hb Hx Hw) as Hn. unfold runs in Hn.
  destruct (parse_pep508_requirement _ _ _ _ _) as [r c w'|e w'|]; [destruct Hn as (_&Hw'&_)|destruct Hn as [_ Hw']|done]; specialize (Hu w' Hw'); repeat case_match; by simplify_eq.
Qed.

(** The answer moves on, by at least one character if [strict], or points into the
    content, and there is no panic. *)
Definition enters {A} (strict : Prop) (content : text) (s : S) (m : @answer I Path U UrlError IoError (A * S)) : Prop :=
  match m with
  | A_ok _ (_, s') w => world_ok w /\ later s s' /\ (strict -> (length (scan_after s') < length (scan_after s))%nat)
  | A_err _ e _ => located content e
  | A_panic _ => False
  end.

Lemma requirement_steps content source working_dir editable (s : S) w : over content s -> readable content -> world_ok w ->
  enters (scan_after s <> []) content s (parse_requirement_and_hashes (T := T) (Sc := Sc) env_var project_root normalize_url_path content source working_dir editable s w).
Proof.
  intros Hs Hp Hw. unfold parse_requirement_and_hashes. destruct (requirement_end_steps (Datatypes.S (length (scan_after s))) s) as (s1&b&s'&E&Hl1&Hl2&He&Hlt); [lia|]. rewrite E.
  destruct (scanned_slice content s s1 Hs Hl1) as (x&y&Ec&Ey). rewrite Ey. destruct (names_a_file y working_dir); [done|]. destruct (readable_piece _ _ _ _ Hp Ec He) as (Ha&Hb&Hx).
  pose proof (txt_requirement_total y working_dir editable w Ha Hb Hx Hw) as Ht. assert (over content s1) as Hs1 by (by eapply over_later). destruct (txt_requirement_parse _ _ _ y working_dir editable w) as [r c w'|e w'|]; [| |done].
  - assert (later s s') as Hl by (by etrans). assert (over content s') as Hs' by (by eapply over_later). destruct b; cbn [of_txt_result bind_answer].
    + pose proof (hashes_steps content s' Hs') as Hh. destruct (parse_hashes content s') as [[l s2]|e]; [|done]. destruct Hh as [Hl3 _]. cbn. split_and!; [done|by etrans|]. intros Hne. specialize (Hlt Hne). apply later_length in Hl3. lia.
    + by split_and!.
  - cbn. split; [by apply later_cursor|by apply cursor_fits].
Qed.

(** ** Comments and blank lines *)

Lemma not_blank c : is_terminal c = true -> blank c = false.
Proof. unfold is_terminal, blank. intros Hc. destruct (N.eqb_spec c 32); [by subst|]. destruct (N.eqb_spec c 9); [by subst|done]. Qed.

Lemma trailing_line_steps content (s : S) : at_char is_terminal s = true ->
  exists s', eat_trailing_line (Path := Path) (U := U) (UrlError := UrlError) (IoError := IoError) content s = Ok s' /\ later s s' /\ (length (scan_after s') < length (scan_after s))%nat.
Proof.
  intros Ht. unfold eat_trailing_line. destruct (scan_eat_while blank s) as [t s1] eqn:E1. apply eat_while_consumes in E1 as (Hc&Et&Ea). cbn [snd].
  unfold at_char in Ht. destruct (scan_after s) as [|c l] eqn:Es; [done|]. assert (blank c = false) as Hb by (apply (not_blank c Ht)).
  cbn [span] in Et, Ea. rewrite Hb in Et, Ea. cbn [fst snd] in Et, Ea. subst t. assert (later s s1) as Hl1 by (by exists []).
  destruct (scan_eat s1) as [[d|] s2] eqn:E2; apply eat_consumes in E2; [|destruct E2 as [E2 _]; congruence]. pose proof E2 as [_ Ed]. rewrite Ea in Ed. injection Ed as -> El.
  assert (length (scan_after s2) < length (d :: l))%nat as Hlt by (rewrite <- El; cbn; lia). assert (later s s2) as Hl2 by (etrans; [done|by exists [d]]).
  assert (forall s3, later s2 s3 -> later s s3 /\ (length (scan_after s3) < length (d :: l))%nat) as Hgo by (intros s3 Hl3; split; [by etrans|apply later_length in Hl3; lia]).
  unfold is_terminal in Ht. destruct (d =? 10); [exists s2; split; [done|by apply Hgo]|]. destruct (d =? 13); [eexists; split; [done|apply Hgo, later_eat_if]|].
  destruct (d =? 35); [|done]. eexists. split; [done|apply Hgo, later_comment].
Qed.

Lemma skip_trivia_steps fuel content : forall s : S, (length (scan_after s) < fuel)%nat ->
  exists s', skip_trivia (Path := Path) (U := U) (UrlError := UrlError) (IoError := IoError) fuel content s = Ok s' /\ later s s' /\ at_char is_terminal s' = false.
Proof.
  induction fuel as [|fuel IH]; intros s Hf; [lia|]. cbn [skip_trivia]. destruct (at_char is_terminal s) eqn:Et; [|by exists s].
  destruct (trailing_line_steps content s Et) as (s1&->&Hl1&Hlt). cbn [rbind]. pose proof (later_wrappable s1) as Hl2. set (s2 := snd (eat_wrappable_whitespace s1)) in *.
  assert (length (scan_after s2) < fuel)%nat as Hf2 by (apply later_length in Hl2; lia). destruct (IH s2 Hf2) as (s3&E&Hl3&Ht3). exists s3. split; [done|]. split; [|done]. etrans; [done|]. by etrans.
Qed.

(** ** Statements *)

Lemma eat_either_consumes a b (s : S) x s' : a <> [] -> b <> [] -> eat_either a b s = (x, s') -> if x then later s s' /\ (length (scan_after s') < length (scan_after s))%nat else s' = s.
Proof.
  intros Ha Hb. unfold eat_either. destruct (scan_eat_str a s) as [[] s1] eqn:E1; apply eat_str_consumes in E1.
  - intros [= <- <-]. split; [by exists a|by eapply consumes_shorter].
  - intros E2. apply eat_str_consumes in E2. destruct x; [split; [by exists b|by eapply consumes_shorter]|by destruct E2].
Qed.

Lemma eat_key_consumes a (s : S) x s' : a <> [] -> scan_eat_str a s = (x, s') -> if x then later s s' /\ (length (scan_after s') < length (scan_after s))%nat else s' = s.
Proof. intros Ha E. apply eat_str_consumes in E. destruct x; [split; [by exists a|by eapply consumes_shorter]|by destruct E]. Qed.

Lemma index_url_steps option content start (s : S) : over content s -> start <= scan_cursor s -> steps true content s (parse_index_url env_var project_root option content start s).
Proof.
  intros Hs Hstart. unfold parse_index_url. pose proof (value_steps option content not_terminal s Hs) as Hv. destruct (parse_value option content not_terminal s) as [[given s1]|e]; cbn [rbind]; [|done].
  destruct Hv as [Hl Hlt]. assert (over content s1) as Hs1 by (by eapply over_later). pose proof (later_cursor _ _ Hl) as Hc. pose proof (cursor_fits _ _ Hs1) as Hfit.
  destruct (absolute_existing _) as [path|]; [destruct (from_absolute_path path) as [url|err]|destruct (parse_url_text _) as [url|err]]; cbn; try (by split); lia.
Qed.

Lemma name_specifier_steps option content start (s : S) : over content s -> start <= scan_cursor s -> steps true content s (parse_name_specifier option content start s).
Proof.
  intros Hs Hstart. unfold parse_name_specifier. pose proof (value_steps option content not_terminal s Hs) as Hv. destruct (parse_value option content not_terminal s) as [[given s1]|e]; cbn [rbind]; [|done].
  destruct Hv as [Hl Hlt]. assert (over content s1) as Hs1 by (by eapply over_later). pose proof (later_cursor _ _ Hl) as Hc. pose proof (cursor_fits _ _ Hs1) as Hfit.
  destruct (PackageNameSpecifier_from_str _) as [name|err]; cbn; [by split|lia].
Qed.

Abbreviation Statement := (@RequirementsTxtStatement T DisplayUrl PathUrl GitUrl ArchiveUrl VerbatimUrl Path).

(** The span of an inclusion is in the content. *)
Definition spans (content : text) (x : Statement) : Prop := match x with RT_Requirements _ a b | RT_Constraint _ a b => a <= b <= byte_len content | _ => True end.

(** A statement moves on; there is none only at the end of the content. *)
Definition entered (content : text) (s : S) (m : @answer I Path U UrlError IoError (option Statement * S)) : Prop :=
  match m with
  | A_ok _ (Some x, s') w => later s s' /\ (length (scan_after s') < length (scan_after s))%nat /\ spans content x /\ world_ok w
  | A_ok _ (None, s') w => later s s' /\ scan_after s' = [] /\ world_ok w
  | A_err _ e _ => located content e
  | A_panic _ => False
  end.

(** The scanner has passed the key of an option. *)
Definition past (s s1 : S) : Prop := later s s1 /\ (length (scan_after s1) < length (scan_after s))%nat.

Lemma ok_statement_entered {A} content (s s1 : S) (m : result (A * S) TxtError) (f : A -> Statement) w : world_ok w -> past s s1 -> (forall a, spans content (f a)) -> steps true content s1 m -> entered content s (ok_statement m f w).
Proof. intros Hw [Hl Hlt] Hf Hm. unfold ok_statement. destruct m as [[a s2]|e]; [|done]. destruct Hm as [Hl2 Hlt2]. split_and!; [by etrans| |done|done]. specialize (Hlt2 eq_refl). lia. Qed.

Lemma entered_past content (s s1 : S) m : past s s1 -> entered content s1 m -> entered content s m.
Proof. intros [Hl Hlt]. destruct m as [[[x|] s2] w|e w|]; [..|done|done]; cbn; (intros [Hl2 He]; split; [by etrans|]); [|done]. destruct He as [He Hx]. split; [lia|done]. Qed.

Lemma editable_entered content working_dir requirements_txt start (s : S) w : over content s -> start <= scan_cursor s -> readable content -> world_ok w ->
  entered content s (parse_editable (Sc := Sc) env_var project_root normalize_url_path marker_text content working_dir requirements_txt start s w).
Proof.
  intros Hs Hstart Hp Hw. unfold parse_editable. pose proof (separator_steps content s Hs) as Hsep. destruct (eat_separator content s) as [s1|e]; [|done]. destruct Hsep as [Hl Hlt]. assert (over content s1) as Hs1 by (by eapply over_later).
  pose proof (requirement_steps content (origin_of requirements_txt) working_dir true s1 w Hs1 Hp Hw) as Hr. destruct (parse_requirement_and_hashes _ _ _ _ _ _ _ _ _) as [[[r hashes] s2] w'|e w'|]; cbn [bind_answer]; [|done|done].
  destruct Hr as (Hw'&Hl2&_). destruct (into_editable marker_text r) as [r'|err]; cbn; [split_and!; [by etrans|apply later_length in Hl2; lia|done|done]|].
  apply later_cursor in Hl as Hc. apply later_cursor in Hl2 as Hc2. split; [lia|]. apply cursor_fits. by eapply over_later.
Qed.

Lemma unsupported_past options (s s1 : S) option : find_unsupported options s = Some (option, s1) -> past s s1.
Proof.
  induction options as [|o options IH]; [done|]. cbn [find_unsupported]. destruct (scan_eat_str (option_name o) s) as [[] s2] eqn:E; [|done]. intros [= -> ->].
  eapply (eat_key_consumes _ _ true); [|exact E]. by destruct option.
Qed.

Lemma file_entered option content (s s1 : S) (f : text -> N -> N -> Statement) w : world_ok w -> over content s -> past s s1 -> (forall t a b, a <= b <= byte_len content -> spans content (f t a b)) ->
  entered content s (match parse_value option content not_terminal s1 with Ok (filename, s') => A_ok _ (Some (f (unquoted filename) (scan_cursor s) (scan_cursor s')), s') w | Err e => A_err _ e w end).
Proof.
  intros Hw Hs [Hl Hlt] Hf. assert (over content s1) as Hs1 by (by eapply over_later). pose proof (value_steps option content not_terminal s1 Hs1) as Hv. destruct (parse_value option content not_terminal s1) as [[filename s2]|e]; [|done].
  destruct Hv as [Hl2 _]. assert (later s s2) as Hl' by (by etrans). split_and!; [done|apply later_length in Hl2; lia| |done]. apply Hf. split; [by apply later_cursor|]. apply cursor_fits. by eapply over_later.
Qed.

(** The next option in the chain of [parse_statement]: its key is eaten, or not. *)
Ltac try_key :=
  lazymatch goal with
  | |- entered _ _ (let '(_, _) := eat_either ?a ?b ?s in _) =>
      let E := fresh "E" in destruct (eat_either a b s) as [[] ?] eqn:E; (apply eat_either_consumes in E; [|done|done]); [|clear E]
  | |- entered _ _ (let '(_, _) := scan_eat_str ?a ?s in _) =>
      let E := fresh "E" in destruct (scan_eat_str a s) as [[] ?] eqn:E; (apply eat_key_consumes in E; [|done]); [|clear E]
  end.

Lemma index_entered option content (s s1 : S) (f : VerbatimUrl -> Statement) w : world_ok w -> over content s -> past s s1 -> (forall a, spans content (f a)) -> entered content s (ok_statement (parse_index_url env_var project_root option content (scan_cursor s) s1) f w).
Proof. intros Hw Hs Hp Hf. eapply ok_statement_entered; [done|done|done|]. apply index_url_steps; [by eapply over_later, Hp|apply later_cursor, Hp]. Qed.

Lemma specifier_entered option content (s s1 : S) (f : PackageNameSpecifier -> Statement) w : world_ok w -> over content s -> past s s1 -> (forall a, spans content (f a)) -> entered content s (ok_statement (parse_name_specifier option content (scan_cursor s) s1) f w).
Proof. intros Hw Hs Hp Hf. eapply ok_statement_entered; [done|done|done|]. apply name_specifier_steps; [by eapply over_later, Hp|apply later_cursor, Hp]. Qed.

Lemma entry_entered content working_dir requirements_txt (s : S) w : over content s -> readable content -> world_ok w -> at_char requirement_start s = true ->
  entered content s (bind_answer (parse_requirement_and_hashes (T := T) (Sc := Sc) env_var project_root normalize_url_path content (origin_of requirements_txt) working_dir false s w) (fun r w =>
      let '(requirement, hashes, s) := r in A_ok _ (Some (RT_RequirementEntry {| entry_requirement := requirement; entry_hashes := hashes |}), s) w)).
Proof.
  intros Hs Hp Hw Hc. pose proof (requirement_steps content (origin_of requirements_txt) working_dir false s w Hs Hp Hw) as Hr. destruct (parse_requirement_and_hashes _ _ _ _ _ _ _ _ _) as [[[r hashes] s2] w'|e w'|]; cbn [bind_answer]; [|done|done].
  destruct Hr as (Hw'&Hl&Hlt). split_and!; [done| |done|done]. apply Hlt. intros Hn. unfold at_char in Hc. by rewrite Hn in Hc.
Qed.

Lemma statement_entered content working_dir requirements_txt (s : S) w : over content s -> readable content -> world_ok w ->
  entered content s (parse_statement (Sc := Sc) env_var project_root normalize_url_path marker_text content working_dir requirements_txt s w).
Proof.
  intros Hs Hp Hw. unfold parse_statement. do 2 (try_key; [by apply file_entered|]).
  try_key; [eapply entered_past; [done|]; apply editable_entered; [by eapply over_later, E|apply later_cursor, E|done|done]|]. do 2 (try_key; [by apply index_entered|]). try_key; [by split_and!; try apply E|]. try_key; [by apply index_entered|].
  do 2 (try_key; [by apply specifier_entered|]). destruct (at_char requirement_start s) eqn:Ea; [by apply entry_entered|]. unfold peek. destruct (scan_after s) as [|c l] eqn:Es; [by split|]. cbn [head].
  destruct (find_unsupported all_unsupported s) as [[option u]|] eqn:Eu; [|by apply parser_error_located]. apply unsupported_past in Eu as [Hl Hlt]. pose proof (later_eat_while not_terminal u) as Hl2.
  split_and!; [by etrans| |done|done]. apply later_length in Hl2. lia.
Qed.

Lemma entry_steps content working_dir requirements_txt (s : S) w : over content s -> readable content -> world_ok w ->
  entered content s (parse_entry (Sc := Sc) env_var project_root normalize_url_path marker_text content working_dir requirements_txt s w).
Proof.
  intros Hs Hp Hw. unfold parse_entry. pose proof (later_wrappable s) as Hl. set (s1 := snd (eat_wrappable_whitespace s)) in *.
  destruct (skip_trivia_steps (Datatypes.S (length (scan_after s1))) content s1) as (s2&->&Hl2&_); [lia|]. assert (later s s2) as Hl' by (by etrans). pose proof (statement_entered content working_dir requirements_txt s2 w (over_later _ _ _ Hs Hl') Hp Hw) as He.
  destruct (parse_statement _ _ _ _ _ _ _ _ _) as [[[x|] s3] w'|e w'|]; [..|done|done]; destruct He as [Hl3 He]; (split; [by etrans|]); [|done]. destruct He as [He Hx]. split; [|done]. apply later_length in Hl'. lia.
Qed.

(** ** Files *)

Abbreviation Data := (@RequirementsTxt T DisplayUrl PathUrl GitUrl ArchiveUrl VerbatimUrl Path).
Abbreviation file_answer := (@file_answer I T DisplayUrl PathUrl GitUrl ArchiveUrl VerbatimUrl Path U UrlError IoError).
Abbreviation read_content := (read_content (U := U) (UrlError := UrlError) (IoError := IoError)).
Abbreviation inner := (parse_inner (S := S) (Sc := Sc) env_var project_root normalize_url_path marker_text).
Abbreviation impl := (parse_impl (S := S) (Sc := Sc) env_var project_root normalize_url_path marker_text).

(** The error is that of reading the file, or points into its content, and so does that
    of an included file into the content of the included file. *)
Fixpoint located_in (file : Path) (e : TxtError) : Prop :=
  match read_content file, e with
  | Err e', _ => e = e'
  | Ok content, TE_Subfile file e a b => a <= b <= byte_len content /\ located_in file e
  | Ok content, _ => located content e
  end.

Definition file_safe (file : Path) (m : file_answer) : Prop :=
  match m with F_panic => False | F_err file' e _ => file' = file /\ located_in file e | F_ok _ _ w => world_ok w | F_deep => True end.

Definition ok_or_located {A} (content : text) (m : result A TxtError) : Prop := match m with Ok _ => True | Err e => located content e end.

Lemma located_here file content e : read_content file = Ok content -> located content e -> located_in file e.
Proof. intros Hr Hl. destruct e; cbn [located_in]; rewrite Hr; done. Qed.

Lemma statement_located content (s : S) x (data : Data) : over content s -> ok_or_located content (apply_statement content s x data).
Proof. intros Hs. unfold apply_statement. destruct data as [? ? ? url ? ? ? ? ?]. destruct x; try done. destruct url; [by apply parser_error_located|done]. Qed.

Lemma merge_located constraint content (s : S) a b (sub data : Data) : over content s -> a <= b <= byte_len content -> ok_or_located content (merge_included constraint content s a b sub data).
Proof.
  intros Hs Hab. unfold merge_included. destruct constraint; [destruct (as_constraints _); [by destruct data|done]|].
  destruct (index_url sub) as [url|], (index_url data) as [url'|]; try done. destruct (bool_decide (url = url')); [done|by apply parser_error_located].
Qed.

Lemma sub_file_located content dir file filename a b : a <= b <= byte_len content -> ok_or_located content (sub_file dir file filename a b).
Proof. intros Hab. unfold sub_file. destruct (_ || _); [done|]. destruct (text_starts_with _ filename); [|done]. by destruct (file_url_path filename) as [[path|]|err]. Qed.

Lemma follow_safe parse_file content dir file mode x (s : S) data v w continue : (forall mode path v w, world_ok w -> file_safe path (parse_file mode path v w)) -> read_content file = Ok content ->
  over content s -> spans content x -> world_ok w -> (forall data v w, world_ok w -> file_safe file (continue data v w)) -> file_safe file (follow env_var project_root parse_file content dir file mode x s data v w continue).
Proof.
  intros Hf Hr Hs Hx Hw Hgo. assert (forall e w, located content e -> file_safe file (F_err file e w)) as Hfail by (intros; split; [done|by eapply located_here]).
  assert (forall constraint filename a b, a <= b <= byte_len content -> file_safe file (include_file env_var project_root parse_file content dir file mode constraint filename a b s data v w continue)) as Hinclude.
  { intros constraint filename a b Hab. unfold include_file. pose proof (sub_file_located content dir file (expand_env_vars env_var project_root filename) a b Hab) as Hsub. destruct (sub_file _ _ _ a b) as [path|e]; [|by apply Hfail]. clear Hsub. cbv zeta.
    destruct (seen _ path v); [by apply Hgo|]. set (sub_mode := if constraint then As_constraints else mode). pose proof (Hf sub_mode path (insert_visited sub_mode path v) w Hw) as Hsf.
    destruct (parse_file _ path _ w) as [sub v2 w2|file' e w2| |]; [|destruct Hsf as [-> Hloc]; split; [done|]; cbn [located_in]; rewrite Hr; done|done|done].
    pose proof (merge_located constraint content s a b sub data Hs Hab) as Hm. destruct (merge_included _ _ _ _ _ _ _) as [data'|e]; [by apply Hgo|by apply Hfail]. }
  pose proof (statement_located content s x data Hs) as Hst. unfold follow. destruct x; try (by apply Hinclude); (destruct (apply_statement content s _ data) as [data'|e]; [by apply Hgo|by apply Hfail]).
Qed.

Lemma inner_safe parse_file content working_dir dir file mode : (forall mode path v w, world_ok w -> file_safe path (parse_file mode path v w)) -> read_content file = Ok content -> readable content ->
  forall fuel (s : S) data v w, over content s -> (length (scan_after s) < fuel)%nat -> world_ok w -> file_safe file (inner parse_file content working_dir dir file mode fuel s data v w).
Proof.
  intros Hf Hr Hp. induction fuel as [|fuel IH]; intros s data v w Hs Hlen Hw; [lia|]. cbn [parse_inner]. pose proof (entry_steps content working_dir file s w Hs Hp Hw) as He.
  destruct (parse_entry _ _ _ _ _ _ _ _ _) as [[[x|] s1] w1|e w1|]; [|by destruct He as (_&_&He)|split; [done|by eapply located_here]|done]. destruct He as (Hl&Hlt&Hx&Hw1). assert (over content s1) as Hs1 by (by eapply over_later).
  apply follow_safe; [done..|]. intros data1 v1 w2 Hw2. apply IH; [done|lia|done].
Qed.

Lemma impl_safe working_dir : (forall path content, read_content path = Ok content -> readable content) -> forall depth mode file v w, world_ok w -> file_safe file (impl depth working_dir mode file v w).
Proof.
  intros Hp. induction depth as [|depth IH]; intros mode file v w Hw; [done|]. cbn [parse_impl]. destruct (read_content file) as [content|e] eqn:Hr.
  - apply inner_safe; [by intros; apply IH|done|by eapply Hp|unfold over; by rewrite scan_new_before, scan_new_after|rewrite scan_new_after; lia|done].
  - split; [done|]. destruct e; cbn [located_in]; by rewrite Hr.
Qed.

(** ** Inclusions *)

(** How many inclusions of [files] are left. *)
Definition unvisited (files : list Path) (v : Visited) : nat :=
  length (filter (.∉ visited_requirements v) files) + length (filter (.∉ visited_constraints v) files).

Lemma filter_insert_le (files l : list Path) p : (length (filter (.∉ p :: l) files) <= length (filter (.∉ l) files))%nat.
Proof.
  induction files as [|q files IH]; [done|]. rewrite !filter_cons. destruct (decide (q ∉ p :: l)) as [Hq|_], (decide (q ∉ l)) as [_|Hl]; cbn [length]; try lia.
  set_solver.
Qed.

Lemma filter_insert_lt (files l : list Path) p : p ∈ files -> p ∉ l -> (length (filter (.∉ p :: l) files) < length (filter (.∉ l) files))%nat.
Proof.
  intros Hp Hl. induction Hp as [p files|p q files Hp IH]; rewrite !filter_cons.
  - rewrite decide_False by set_solver. rewrite decide_True by done. cbn [length]. pose proof (filter_insert_le files l p). lia.
  - specialize (IH Hl). destruct (decide (q ∉ p :: l)) as [Hq|_], (decide (q ∉ l)) as [_|Hl']; cbn [length]; try lia. set_solver.
Qed.

Lemma unvisited_insert files mode path v : path ∈ files -> seen mode path v = false -> (unvisited files (insert_visited mode path v) < unvisited files v)%nat.
Proof.
  intros Hp Hs. unfold unvisited. destruct mode; cbn [insert_visited visited_requirements visited_constraints]; cbn [seen] in Hs; apply bool_decide_eq_false in Hs; pose proof (filter_insert_lt files _ path Hp Hs); lia.
Qed.

(** [file] includes [path], as the content of [file] says. *)
Definition includes (working_dir file path : Path) : Prop :=
  exists content (s s' : S) w w' filename a b x, read_content file = Ok content /\ over content s /\
    parse_entry (T := T) (Sc := Sc) env_var project_root normalize_url_path marker_text content working_dir file s w = A_ok _ (Some x, s') w' /\
    (x = RT_Requirements filename a b \/ x = RT_Constraint filename a b) /\
    sub_file (U := U) (UrlError := UrlError) (IoError := IoError) (default working_dir (parent file)) file (expand_env_vars env_var project_root filename) a b = Ok path.

(** The depth is not reached, and what is left to include does not grow. *)
Definition shallow (files : list Path) (v : Visited) (m : file_answer) : Prop :=
  match m with F_deep => False | F_ok _ v' w => (unvisited files v' <= unvisited files v)%nat /\ world_ok w | _ => True end.

Lemma shallow_le files v v' m : (unvisited files v' <= unvisited files v)%nat -> shallow files v' m -> shallow files v m.
Proof. destruct m; [|done..]. intros Hle [Hv Hw]. split; [lia|done]. Qed.

Lemma inner_shallow parse_file content working_dir file mode files : read_content file = Ok content -> readable content -> (forall path, includes working_dir file path -> path ∈ files) ->
  forall bound, (forall mode path v w, path ∈ files -> (unvisited files v < bound)%nat -> world_ok w -> shallow files v (parse_file mode path v w)) ->
  forall fuel (s : S) data v w, over content s -> world_ok w -> (unvisited files v <= bound)%nat ->
  shallow files v (inner parse_file content working_dir (default working_dir (parent file)) file mode fuel s data v w).
Proof.
  intros Hr Hp Hin bound Hf. induction fuel as [|fuel IH]; intros s data v w Hs Hw Hb; [done|]. cbn [parse_inner]. pose proof (entry_steps content working_dir file s w Hs Hp Hw) as He.
  destruct (parse_entry _ _ _ _ _ _ _ _ _) as [[[x|] s1] w1|e w1|] eqn:Ep; [|by destruct He as (_&_&He)|done|done]. destruct He as (Hl&_&_&Hw1). assert (over content s1) as Hs1 by (by eapply over_later).
  assert (forall constraint filename a b, x = RT_Requirements filename a b \/ x = RT_Constraint filename a b -> shallow files v
    (include_file env_var project_root parse_file content (default working_dir (parent file)) file mode constraint filename a b s1 data v w1 (inner parse_file content working_dir (default working_dir (parent file)) file mode fuel s1))) as Hinclude.
  { intros constraint filename a b Hx. unfold include_file. destruct (sub_file _ _ _ a b) as [path|e] eqn:Es; [|done]. cbv zeta. set (sub_mode := if constraint then As_constraints else mode).
    destruct (seen sub_mode path v) eqn:Hseen; [by apply IH|]. assert (path ∈ files) as Hpath by (apply Hin; by exists content, s, s1, w, w1, filename, a, b, x). pose proof (unvisited_insert files sub_mode path v Hpath Hseen) as Hlt.
    pose proof (Hf sub_mode path (insert_visited sub_mode path v) w1 Hpath ltac:(lia) Hw1) as Hsub. destruct (parse_file _ path _ w1) as [sub v2 w2|file' e w2| |]; [|done|done|done]. destruct Hsub as [Hsub Hw2].
    destruct (merge_included _ _ _ _ _ _ _) as [data'|e]; [|done]. apply (shallow_le files v v2); [lia|]. apply IH; [done|done|lia]. }
  unfold follow. destruct x; try (apply Hinclude; by eauto); (destruct (apply_statement content s1 _ data) as [data'|e]; [by apply IH|done]).
Qed.

Lemma impl_shallow working_dir files : (forall path content, read_content path = Ok content -> readable content) -> (forall file path, file ∈ files -> includes working_dir file path -> path ∈ files) ->
  forall depth mode file v w, (forall path, includes working_dir file path -> path ∈ files) -> (unvisited files v < depth)%nat -> world_ok w -> shallow files v (impl depth working_dir mode file v w).
Proof.
  intros Hp Hin. induction depth as [|depth IH]; intros mode file v w Hf Hd Hw; [lia|]. cbn [parse_impl]. destruct (read_content file) as [content|e] eqn:Hr; [|done].
  apply (inner_shallow _ content working_dir file mode files Hr (Hp _ _ Hr) Hf depth); [|unfold over; by rewrite scan_new_before, scan_new_after|done|lia].
  intros mode' path v' w' Hpath Hlt Hw'. apply IH; [|done|done]. intros q. by apply Hin.
Qed.

(** An answer that does not run out of depth is the same with more. *)
Lemma include_deeper (parse_file parse_file' : inclusion -> Path -> Visited -> World I -> file_answer) content dir file mode constraint filename a b (s : S) data v w (continue continue' : Data -> Visited -> World I -> file_answer) :
  (forall mode path v w, parse_file mode path v w <> F_deep -> parse_file' mode path v w = parse_file mode path v w) ->
  (forall data v w, continue data v w <> F_deep -> continue' data v w = continue data v w) ->
  include_file env_var project_root parse_file content dir file mode constraint filename a b s data v w continue <> F_deep ->
  include_file env_var project_root parse_file' content dir file mode constraint filename a b s data v w continue' = include_file env_var project_root parse_file content dir file mode constraint filename a b s data v w continue.
Proof.
  intros Hf Hk. unfold include_file. destruct (sub_file _ _ _ _ _) as [path|e]; [|done]. cbv zeta. destruct (seen _ path v); [apply Hk|].
  destruct (parse_file _ path _ w) eqn:E; [| | |done]; rewrite Hf, E by (rewrite E; done); [|done..]. destruct (merge_included _ _ _ _ _ _ _); [apply Hk|done].
Qed.

Lemma inner_deeper parse_file parse_file' content working_dir dir file mode : (forall mode path v w, parse_file mode path v w <> F_deep -> parse_file' mode path v w = parse_file mode path v w) ->
  forall fuel (s : S) data v w, inner parse_file content working_dir dir file mode fuel s data v w <> F_deep ->
  inner parse_file' content working_dir dir file mode fuel s data v w = inner parse_file content working_dir dir file mode fuel s data v w.
Proof.
  intros Hf. induction fuel as [|fuel IH]; intros s data v w; [done|]. cbn [parse_inner]. destruct (parse_entry _ _ _ _ _ _ _ _ _) as [[[x|] s1] w1|e w1|]; [|done|done|done]. unfold follow.
  destruct x; try (apply include_deeper; [done|apply IH]); (case_match; [apply IH|done]).
Qed.

Lemma impl_deeper working_dir : forall depth mode file v w, impl depth working_dir mode file v w <> F_deep -> impl (Datatypes.S depth) working_dir mode file v w = impl depth working_dir mode file v w.
Proof.
  induction depth as [|depth IH]; intros mode file v w Hd; [done|]. cbn [parse_impl] in Hd |- *. destruct (read_content file) as [content|e]; [|done].
  apply inner_deeper; [|done]. intros mode' path v' w'. apply IH.
Qed.

(** Inclusions among finitely many paths end, within twice as many. *)
Lemma impl_terminates (files : list Path) (file working_dir : Path) (w : World I) : world_ok w -> (forall path content, read_content path = Ok content -> readable content) ->
  (forall f path, f ∈ file :: files -> includes working_dir f path -> path ∈ files) ->
  exists m, match m with F_ok _ _ _ | F_err _ _ _ => True | F_panic | F_deep => False end /\
    forall depth, (2 * length files < depth)%nat -> impl depth working_dir As_requirements file (mkVisited [] []) w = m.
Proof.
  intros Hw Hp Hin. set (parse depth := impl depth working_dir As_requirements file (mkVisited [] []) w). set (d := Datatypes.S (2 * length files)).
  assert (unvisited files (mkVisited [] []) < d)%nat as Hd by (unfold unvisited; cbn [visited_requirements visited_constraints]; pose proof (length_filter (.∉ []) files); lia).
  pose proof (impl_shallow working_dir files Hp (fun f path Hf => Hin f path (list_elem_of_further _ _ _ Hf)) d As_requirements file _ w (fun path => Hin file path (list_elem_of_here _ _)) Hd Hw) as Hs.
  pose proof (impl_safe working_dir Hp d As_requirements file (mkVisited [] []) w Hw) as Hf. exists (parse d). unfold parse. split; [by destruct (impl d _ _ _ _ _)|].
  assert (forall n, parse (d + n)%nat = parse d) as Hn.
  { induction n as [|n IH]; [by rewrite Nat.add_0_r|]. rewrite Nat.add_succ_r. etrans; [|exact IH]. apply impl_deeper. fold (parse (d + n)%nat). rewrite IH. unfold parse. by destruct (impl d _ _ _ _ _). }
  intros depth Hdepth. specialize (Hn (depth - d)%nat). replace (d + (depth - d))%nat with depth in Hn by lia. exact Hn.
Qed.
End entries.

Section files.
Context {RV RS : Type} {SV : RangeSet Version RV} {SS : RangeSet text RS} (okV : RV -> Prop) (okS : RS -> Prop) (ordered : bool).
Context {LV : RangeSetLaws Version RV version_wf okV} {LS : RangeSetLaws text RS (fun _ => True) okS}.
Context {S DisplayUrl PathUrl GitUrl ArchiveUrl VerbatimUrl Path U UrlError IoError : Type}.
Abbreviation Url := (VerbatimParsedUrl DisplayUrl PathUrl GitUrl ArchiveUrl VerbatimUrl Path).
Context `{TxtScannerLaws S} `{Alphabetic} `{UnnamedRequirementUrl Url U Path} {Sc : Type} `{Scanner Sc}.
Context (env_var : text -> option text) (project_root : text) (normalize_url_path : text -> text) (marker_text : NodeId -> option text).
Context `{!Host (VerbatimUrl := VerbatimUrl) (Path := Path) (UrlError := UrlError) (IoError := IoError)} `{EqDecision Path} `{EqDecision VerbatimUrl}.
Abbreviation read_content := (read_content (U := U) (UrlError := UrlError) (IoError := IoError)).

(** C25: requirements files are parsed without a panic, whatever files the host has, if
    each that it can read is [readable]: it is ASCII; it has no opening bracket, or every
    dash, underscore and dot in it is followed by a character that is no comma, closing
    bracket, whitespace or backslash; and no marker expression that can be read in a
    piece of it is [~=] on a quoted string or has a release number less than two below
    the largest. Then the fuel of every loop suffices and every slice is at a character;
    the interner, where the markers are built, stays well-formed; and an error names the
    file it is of, and points into the content of that file, through the files that it
    includes. *)
Theorem requirements_txt_safe (depth : nat) (file working_dir : Path) (s : @Interner RV RS) (ws : list MarkerWarningKind)
    (Hs : interner_wf okV okS ordered s) (Hp : forall path content, read_content path = Ok content -> readable content) :
  match txt_parse (S := S) (T := NodeId) (Sc := Sc) env_var project_root normalize_url_path marker_text depth file working_dir (mkWorld _ ws s) with
  | F_panic => False
  | F_err file' e _ => file' = file /\ located_in file e
  | F_ok _ _ w => interner_wf okV okS ordered (trees w)
  | F_deep => True
  end.
Proof. exact (impl_safe (H3 := interner_laws okV okS ordered) env_var project_root normalize_url_path marker_text buildable_can_build working_dir Hp depth As_requirements file _ (mkWorld _ ws s) Hs). Qed.

(** C26: inclusions end, also when they are circular. If the files that are included, from
    the file and from each other, are among finitely many paths, and each that the host
    can read is [readable] (as in C25), then the file is parsed within a depth of two
    inclusions of each, as requirements and as constraints, and the answer, data or an
    error, does not depend on the depth. (Paths as written can grow without end:
    [inclusion_diverges].) *)
Theorem inclusions_terminate (files : list Path) (file working_dir : Path) (s : @Interner RV RS) (ws : list MarkerWarningKind)
    (Hs : interner_wf okV okS ordered s) (Hp : forall path content, read_content path = Ok content -> readable content)
    (Hin : forall f path, f ∈ file :: files -> includes (S := S) (T := NodeId) (I := @Interner RV RS) (Sc := Sc) env_var project_root normalize_url_path marker_text working_dir f path -> path ∈ files) :
  exists m, match m with F_ok _ _ _ | F_err _ _ _ => True | F_panic | F_deep => False end /\
    forall depth, (2 * length files < depth)%nat -> txt_parse (S := S) (T := NodeId) (Sc := Sc) env_var project_root normalize_url_path marker_text depth file working_dir (mkWorld _ ws s) = m.
Proof. exact (impl_terminates (H3 := interner_laws okV okS ordered) env_var project_root normalize_url_path marker_text buildable_can_build files file working_dir (mkWorld _ ws s) Hs Hp Hin). Qed.
End files.

(** ** A host *)

(** A scanner that keeps what is before it and what is after it. *)
#[export] Instance pair_scanner : TxtScanner (text * text) := {|
  scan_new := fun t => ([], t);
  scan_before := fst;
  scan_after := snd;
  scan_cursor := fun s => byte_len (fst s);
  scan_eat := fun s => match snd s with [] => (None, s) | c :: t => (Some c, (fst s ++ [c], t)) end;
  scan_eat_str := fun w s => match after_prefix w (snd s) with Some t => (true, (fst s ++ w, t)) | None => (false, s) end;
  scan_eat_while := fun p s => let '(a, b) := span p (snd s) in (a, (fst s ++ a, b));
  scan_eat_while_str := fun w s => let '(a, b) := span_str (length (snd s)) w (snd s) in (a, (fst s ++ a, b));
  scan_from := fun n s => match split_at n (fst s) with Some (_, t) => t | None => [] end
|}.

#[export] Instance pair_scanner_laws : TxtScannerLaws (text * text).
Proof.
  split; cbn; try done.
  - intros [b [|d t]]; by cbn.
  - intros w [b t]. cbn. by destruct (after_prefix w t).
  - intros p [b t]. cbn. by destruct (span p t).
  - intros w [b t]. cbn. by destruct (span_str (length t) w t).
  - intros [x t] a b. cbn. intros ->. by rewrite split_at_app.
Qed.

Definition sample_path : Type := list text.
Definition sample_url : Type := VerbatimParsedUrl text text text text text sample_path.
Definition directory_url (t : text) : sample_url :=
  {| parsed_url := PU_Directory {| dir_url := t; install_path := split_slashes t; editable := None; is_virtual := None |}; verbatim := t |}.

Definition sample_pep508 : Pep508Url sample_url unit sample_path := {|
  url_parse := fun t _ => Ok (directory_url t);
  url_show := verbatim;
  url_show_with_credentials := verbatim;
  url_cache_key := fun url => cache_key (Str (utf8 (verbatim url)))
|}.

Definition sample_unnamed : @UnnamedRequirementUrl sample_url unit sample_path sample_pep508 := {|
  parse_path := fun t _ => Ok (directory_url t);
  parse_absolute_path := fun t => Ok (directory_url t);
  parse_unnamed_url_str := fun t => Ok (directory_url t);
  with_given := fun url _ => url;
  given := fun url => Some (verbatim url)
|}.

(** The path that the file system follows: [..] leaves a directory. *)
Definition resolve (path : sample_path) : sample_path :=
  fold_left (fun dir name => if bool_decide (name = bs "..") then removelast dir else dir ++ [name]) path [].

Fixpoint stored (files : list (text * text)) (path : sample_path) : result text unit :=
  match files with
  | [] => Err tt
  | (name, content) :: files => if bool_decide (split_slashes name = path) then Ok content else stored files path
  end.

Definition sample_host (files : list (text * text)) : @Host text sample_path unit unit := {|
  path_of := split_slashes;
  join := fun a b => a ++ b;
  parent := fun path => match path with [] => None | _ => Some (removelast path) end;
  is_absolute := fun _ => false;
  path_starts_with := fun _ _ => false;
  is_file := fun path => match stored files (resolve path) with Ok _ => true | Err _ => false end;
  absolute_existing := fun _ => None;
  file_url_path := fun _ => Ok None;
  from_absolute_path := fun path => Ok (concat path);
  parse_url_text := fun t => Ok t;
  url_with_given := fun _ t => t;
  offline := true;
  read_url := fun _ => Err tt;
  read_file := fun path => stored files (resolve path);
  offline_error := tt
|}.

(** [RequirementsTxt::parse] on the host. *)
Definition sample_parse (files : list (text * text)) (depth : nat) (name : text) :=
  @txt_parse (text * text) ConcreteInterner NodeId text text text text text sample_path unit unit unit pair_scanner interner_builder ascii_alphabetic sample_pep508 sample_unnamed text text_scanner
    (fun _ => None) [] (fun t => t) (fun _ => None) (sample_host files) _ _ depth (split_slashes name) [] (mkWorld _ [] start).

(** Two files that include each other. *)
Definition circular : list (text * text) := [(bs "a", bs "flask" ++ [10] ++ bs "-r b"); (bs "b", bs "-c a" ++ [10] ++ bs "jinja2>=3")].

Definition sample_entry (files : list (text * text)) (content : text) (file : sample_path) (s : text * text) (w : World ConcreteInterner) :=
  @parse_entry (text * text) ConcreteInterner NodeId text text text text text sample_path unit unit unit pair_scanner interner_builder ascii_alphabetic sample_pep508 sample_unnamed text text_scanner
    (fun _ => None) [] (fun t => t) (fun _ => None) (sample_host files) _ content [] file s w.

Definition sample_sub (files : list (text * text)) (file : sample_path) (filename : text) (a b : N) :=
  @sub_file text sample_path unit unit unit (sample_host files) (match file with [] => [] | _ => removelast file end) file (expand_env_vars (fun _ => None) [] filename) a b.

(** Decides that what an entry at the position includes is one of the paths. *)
Definition included_at (files : list (text * text)) (paths : list sample_path) (content : text) (file : sample_path) (w : World ConcreteInterner) (n : nat) : bool :=
  match sample_entry files content file (take n content, drop n content) w with
  | A_ok _ (Some (RT_Requirements filename a b), _) _ | A_ok _ (Some (RT_Constraint filename a b), _) _ =>
      match sample_sub files file filename a b with Ok path => existsb (fun q => bool_decide (path = q)) paths | Err _ => true end
  | _ => true
  end.

Abbreviation sample_includes files := (@includes (text * text) ConcreteInterner NodeId text text text text text sample_path unit unit unit pair_scanner interner_builder ascii_alphabetic sample_pep508 sample_unnamed text text_scanner
    (fun _ => None) [] (fun t => t) (fun _ => None) (sample_host files) _).

Lemma included_at_spec files paths file content : stored files (resolve file) = Ok content -> (forall w, forallb (included_at files paths content file w) (seq 0 (S (length content))) = true) ->
  forall path, sample_includes files [] file path -> path ∈ paths.
Proof.
  intros Hr Hall path (content'&s&s'&w&w'&filename&a&b&x&Hr'&Hs&Hp&Hx&Hsub). cbn in Hr'. rewrite Hr in Hr'. injection Hr' as <-. specialize (Hall w). rewrite forallb_forall in Hall.
  destruct s as [before after]. unfold over in Hs. cbn in Hs. subst content. specialize (Hall (length before)). rewrite in_seq in Hall. specialize (Hall ltac:(rewrite length_app; lia)). unfold included_at in Hall.
  assert (sample_entry files (before ++ after) file (before, after) w = A_ok _ (Some x, s') w') as Hp' by exact Hp. rewrite take_app_length, drop_app_length, Hp' in Hall.
  assert (sample_sub files file filename a b = Ok path) as Hsub' by (destruct file; exact Hsub). clear Hp Hp' Hsub.
  assert (existsb (fun q => bool_decide (path = q)) paths = true) as Hq by (destruct Hx as [-> | ->]; by rewrite Hsub' in Hall).
  apply existsb_exists in Hq as (q&Hq&Eq%bool_decide_eq_true). subst q. by apply list_elem_of_In.
Qed.

Abbreviation sample_readable := (readable (H4 := ascii_alphabetic)).

Lemma stored_readable files : Forall (fun f => sample_readable (snd f)) files -> forall path content, stored files path = Ok content -> sample_readable content.
Proof. intros Hall path content. induction Hall as [|[name t] files Ht _ IH]; [done|]. cbn. destruct (bool_decide _); [by intros [= <-]|done]. Qed.

(** The pieces of a text. *)
Fixpoint prefixes (t : text) : list text := match t with [] => [[]] | c :: t => [] :: map (cons c) (prefixes t) end.
Fixpoint pieces (t : text) : list text := match t with [] => [[]] | c :: t' => prefixes t ++ pieces t' end.

Lemma prefixes_spec b c : b ∈ prefixes (b ++ c).
Proof. induction b as [|d b IH]; [destruct c; by left|]. cbn. right. by apply list_elem_of_fmap_2. Qed.

Lemma pieces_spec a b c : b ∈ pieces (a ++ b ++ c).
Proof.
  induction a as [|d a IH]; cbn [app]; [|cbn [pieces]; apply elem_of_app; by right].
  pose proof (prefixes_spec b c) as Hb. destruct (b ++ c); [exact Hb|]. cbn [pieces]. apply elem_of_app. by left.
Qed.

Definition readableb (content : text) : bool :=
  forallb (fun c => c <? 128) content && bool_decide (91 ∉ content) && forallb (fun b => forallb buildable (expressions_of (H := ascii_alphabetic) b)) (pieces content).

Lemma readableb_spec content : readableb content = true -> sample_readable content.
Proof.
  unfold readableb. intros [[Ha Hx%bool_decide_eq_true]%andb_true_iff Hb]%andb_true_iff. split_and!; [by apply ascii_dec|by left|]. intros a b c ->. rewrite forallb_forall in Hb.
  apply Hb, list_elem_of_In, pieces_spec.
Qed.

Lemma all_readable files : forallb (fun f => readableb (snd f)) files = true -> forall path content, stored files path = Ok content -> sample_readable content.
Proof. intros Hall. apply stored_readable. rewrite Forall_forall. intros f Hf. rewrite forallb_forall in Hall. apply readableb_spec, Hall. by apply list_elem_of_In. Qed.

Lemma sample_read files path content : @read_content text sample_path unit unit unit (sample_host files) path = Ok content -> stored files (resolve path) = Ok content.
Proof. unfold read_content. cbn. destruct (stored files (resolve path)); cbn; congruence. Qed.

(** The included file has an error. *)
Definition faulty : list (text * text) := [(bs "a", bs "flask; os_name == 'nt'" ++ [10] ++ bs "-r b"); (bs "b", bs "jinja2" ++ [10] ++ bs "--pip")].

Lemma all_readable_run files : forallb (fun f => readableb (snd f)) files = true ->
  forall path content, @read_content text sample_path unit unit unit (sample_host files) path = Ok content -> sample_readable content.
Proof. intros Hall path content Hr. exact (all_readable files Hall (resolve path) content (sample_read files path content Hr)). Qed.

Lemma requirements_txt_safe_witness :
  match sample_parse faulty 9 (bs "a") with
  | F_panic => False
  | F_err file e _ => file = split_slashes (bs "a") /\ @located_in text sample_path unit unit unit (sample_host faulty) file e
  | F_ok _ _ _ | F_deep => True
  end.
Proof.
  pose proof (@requirements_txt_safe _ _ _ _ okIV okIS true _ _ (text * text) text text text text text sample_path unit unit unit pair_scanner pair_scanner_laws ascii_alphabetic sample_pep508 sample_unnamed text text_scanner
    (fun _ => None) [] (fun t => t) (fun _ => None) (sample_host faulty) _ _
    9 (split_slashes (bs "a")) [] start [] (Interner_default_wf okIV okIS true) (all_readable_run faulty ltac:(vm_compute; reflexivity))) as Hs.
  unfold sample_parse. destruct (txt_parse _ _ _ _ _ _ _ _) as [data v w|file e w| |]; [exact I|destruct Hs as [-> Hs]; exact (conj eq_refl Hs)|exact Hs|exact I].
Defined.

Lemma inclusions_terminate_witness : exists m, match m with F_ok _ _ _ | F_err _ _ _ => True | F_panic | F_deep => False end /\ forall depth, (4 < depth)%nat -> sample_parse circular depth (bs "a") = m.
Proof.
  apply (@inclusions_terminate _ _ _ _ okIV okIS true _ _ (text * text) text text text text text sample_path unit unit unit pair_scanner pair_scanner_laws ascii_alphabetic sample_pep508 sample_unnamed text text_scanner
    (fun _ => None) [] (fun t => t) (fun _ => None) (sample_host circular) _ _
    [split_slashes (bs "a"); split_slashes (bs "b")] (split_slashes (bs "a")) [] start []).
  - apply (Interner_default_wf okIV okIS true).
  - apply all_readable_run. vm_compute. reflexivity.
  - intros f path Hf. assert (f = split_slashes (bs "a") \/ f = split_slashes (bs "b")) as [-> | ->] by (rewrite !elem_of_cons, elem_of_nil in Hf; tauto).
    + apply (included_at_spec circular _ _ (bs "flask" ++ [10] ++ bs "-r b")); [reflexivity|]. intros w. vm_compute. reflexivity.
    + apply (included_at_spec circular _ _ (bs "-c a" ++ [10] ++ bs "jinja2>=3")); [reflexivity|]. intros w. vm_compute. reflexivity.
Defined.

(** ** Inclusions through another path *)

(** The paths are compared as they are written: a file that includes itself through its
    parent directory is included again and again. *)
Definition spiral : list (text * text) := [(bs "a/r.txt", bs "-r ../a/r.txt")].

Fixpoint spiral_dir (n : nat) : sample_path := match n with O => [bs "a"] | S n => spiral_dir n ++ [bs ".."; bs "a"] end.
Definition spiral_path (n : nat) : sample_path := spiral_dir n ++ [bs "r.txt"].

Lemma spiral_resolves n : resolve (spiral_path n) = [bs "a"; bs "r.txt"].
Proof.
  assert (resolve (spiral_dir n) = [bs "a"]) as Hd; [|unfold spiral_path, resolve in *; rewrite fold_left_app, Hd; reflexivity].
  induction n as [|n IH]; [reflexivity|]. cbn [spiral_dir]. unfold resolve in *. rewrite fold_left_app, IH. reflexivity.
Qed.

Lemma spiral_read n : @read_content text sample_path unit unit unit (sample_host spiral) (spiral_path n) = Ok (bs "-r ../a/r.txt").
Proof. unfold read_content. cbn [path_starts_with sample_host orb read_file]. rewrite spiral_resolves. reflexivity. Qed.

Lemma spiral_entry file w : sample_entry spiral (bs "-r ../a/r.txt") file ([], bs "-r ../a/r.txt") w = A_ok _ (Some (RT_Requirements (bs "../a/r.txt") 0 13), (bs "-r ../a/r.txt", [])) w.
Proof. reflexivity. Qed.

Lemma spiral_sub n : @sub_file text sample_path unit unit unit (sample_host spiral) (default [] (@parent text sample_path unit unit (sample_host spiral) (spiral_path n))) (spiral_path n)
  (expand_env_vars (fun _ => None) [] (bs "../a/r.txt")) 0 13 = Ok (spiral_path (S n)).
Proof.
  replace (default [] (@parent text sample_path unit unit (sample_host spiral) (spiral_path n))) with (spiral_dir n).
  - unfold spiral_path. cbn [spiral_dir]. rewrite <- app_assoc. reflexivity.
  - unfold spiral_path. cbn [parent sample_host]. rewrite removelast_last. by destruct (spiral_dir n).
Qed.

Lemma spiral_diverges depth : forall n v w, (forall p, p ∈ visited_requirements v -> (length p <= length (spiral_path n))%nat) ->
  @parse_impl (text * text) ConcreteInterner NodeId text text text text text sample_path unit unit unit pair_scanner interner_builder ascii_alphabetic sample_pep508 sample_unnamed text text_scanner
    (fun _ => None) [] (fun t => t) (fun _ => None) (sample_host spiral) _ _ depth [] As_requirements (spiral_path n) v w = F_deep.
Proof.
  induction depth as [|depth IH]; intros n v w Hv; [reflexivity|]. assert (length (spiral_path n) < length (spiral_path (S n)))%nat as Hlt by (unfold spiral_path; cbn [spiral_dir]; rewrite !length_app; cbn; lia).
  cbn [parse_impl]. rewrite spiral_read. cbn [parse_inner]. pose proof (spiral_entry (spiral_path n) w) as He. unfold sample_entry in He. cbn [scan_new pair_scanner]. rewrite He. unfold follow, include_file. rewrite spiral_sub. cbv zeta.
  replace (seen As_requirements (spiral_path (S n)) v) with false; [rewrite IH; [reflexivity|]|].
  - intros p. cbn [insert_visited visited_requirements]. rewrite elem_of_cons. intros [-> |Hp]; [done|]. specialize (Hv p Hp). lia.
  - symmetry. apply bool_decide_eq_false. intros Hs. specialize (Hv _ Hs). lia.
Qed.

Lemma inclusion_diverges depth : sample_parse spiral depth (bs "a/r.txt") = F_deep.
Proof. apply (spiral_diverges depth 0). intros p Hp. by apply elem_of_nil in Hp. Qed.

(** ** Which packages an option names *)

Definition refuses_binary (self : NoBinary) (name : PackageName) : bool := match self with NB_None => false | NB_All => true | NB_Packages packages => bool_decide (name ∈ packages) end.
Definition names (name : PackageName) (specifier : PackageNameSpecifier) : bool := match specifier with PNS_All => true | PNS_None => false | PNS_Package q => bool_decide (name = q) end.

Lemma extend_combine a b : NoBinary_extend a b = NoBinary_combine a b.
Proof. by destruct a, b. Qed.

Lemma refuses_extend a b name : refuses_binary (NoBinary_extend a b) name = refuses_binary a name || refuses_binary b name.
Proof.
  destruct a as [| |p], b as [| |q]; cbn; rewrite ?orb_true_r, ?orb_false_r; try done. apply eq_true_iff_eq. rewrite orb_true_iff, !bool_decide_eq_true. apply elem_of_app.
Qed.

Lemma refuses_pip_arg specifier name : refuses_binary (NoBinary_from_pip_arg specifier) name = names name specifier.
Proof. destruct specifier as [| |q]; cbn; [done..|]. apply eq_true_iff_eq. rewrite !bool_decide_eq_true. apply list_elem_of_singleton. Qed.

(** On the command line, [:none:] takes back what was named before it. *)
Lemma pip_args_refuse specifiers name :
  refuses_binary (NoBinary_from_pip_args specifiers) name = foldl (fun named specifier => match specifier with PNS_None => false | _ => named || names name specifier end) false specifiers.
Proof.
  assert (forall packages all, (let '(packages, all) := specifiers_loop specifiers packages all in all || bool_decide (name ∈ packages)) =
    foldl (fun named specifier => match specifier with PNS_None => false | _ => named || names name specifier end) (all || bool_decide (name ∈ packages)) specifiers) as Hgo.
  { induction specifiers as [|[| |q] specifiers IH]; intros packages all; cbn [specifiers_loop foldl names].
    - done.
    - rewrite IH. by rewrite orb_true_r.
    - rewrite IH. done.
    - rewrite IH. f_equal. rewrite <- orb_assoc. f_equal. apply eq_true_iff_eq. rewrite orb_true_iff, !bool_decide_eq_true, elem_of_app, list_elem_of_singleton. done. }
  specialize (Hgo [] false). cbn [orb] in Hgo. rewrite (bool_decide_eq_false_2 (name ∈ [])) in Hgo by apply not_elem_of_nil. rewrite <- Hgo. unfold NoBinary_from_pip_args, PackageNameSpecifiers_from_iter.
  destruct (specifiers_loop specifiers [] false) as [[|q packages] []]; cbn; try done. 
Qed.

(** In a file, it does not: the options of a file only add up. *)
Lemma file_options_refuse specifiers name :
  refuses_binary (foldl NoBinary_extend NB_None (NoBinary_from_pip_arg <$> specifiers)) name = existsb (names name) specifiers.
Proof.
  change (existsb (names name) specifiers) with (refuses_binary NB_None name || existsb (names name) specifiers). generalize NB_None as acc.
  induction specifiers as [|specifier specifiers IH]; intros acc; cbn; [by rewrite orb_false_r|]. rewrite IH, refuses_extend, refuses_pip_arg. by rewrite orb_assoc.
Qed.

Lemma none_does_not_reset (name : PackageName) :
  refuses_binary (NoBinary_from_pip_args [PNS_All; PNS_None]) name = false /\
  refuses_binary (foldl NoBinary_extend NB_None (NoBinary_from_pip_arg <$> [PNS_All; PNS_None])) name = true.
Proof. by rewrite pip_args_refuse, file_options_refuse. Qed.
