(* ===== verification/PythonDiscovery.v ===== *)
(** * Requests for a Python and the choice of an installation ([uv-python/src])

    Version requests and Python requests, how they are written and read; which
    interpreters satisfy them; the preferences among installations and the loops that
    choose one. Querying interpreters and the file system is of the host, and so are the
    keys of downloads. A panic is [None], or [Panic] where there are errors. *)

From stdpp Require Import base numbers list sets strings.
From S2P Require Import Prelude VersionTypes VersionSmall Version VersionFacts VersionParser ParserFacts RoundTrip ParserSafe Specifier SpecifierFacts SpecifierParse Ranges RangesFacts RangesTheorems Text RangeSet MarkerTypes MarkerDnf Cursor MarkerParse PythonRange.

#[local] Open Scope N_scope.
#[local] Open Scope uv_scope.

(** ** Variants *)

Inductive PythonVariant := PV_Default | PV_Debug | PV_Freethreaded | PV_FreethreadedDebug | PV_Gil | PV_GilDebug.

#[export] Instance PythonVariant_eq_dec : EqDecision PythonVariant. Proof. solve_decision. Defined.

Definition executable_suffix (self : PythonVariant) : text :=
  match self with
  | PV_Default => [] | PV_Debug => bs "d" | PV_Freethreaded => bs "t" | PV_FreethreadedDebug => bs "td" | PV_Gil => [] | PV_GilDebug => bs "d"
  end.

Definition display_suffix (self : PythonVariant) : text :=
  match self with
  | PV_Default => []
  | PV_Debug => bs "+debug"
  | PV_Freethreaded => bs "+freethreaded"
  | PV_FreethreadedDebug => bs "+freethreaded+debug"
  | PV_Gil => bs "+gil"
  | PV_GilDebug => bs "+gil+debug"
  end.

Definition lib_suffix (self : PythonVariant) : text :=
  match self with PV_Default | PV_Debug | PV_Gil | PV_GilDebug => [] | PV_Freethreaded | PV_FreethreadedDebug => bs "t" end.

Definition variant_is_freethreaded (self : PythonVariant) : bool :=
  match self with PV_Default | PV_Debug | PV_Gil | PV_GilDebug => false | PV_Freethreaded | PV_FreethreadedDebug => true end.

Definition variant_is_debug (self : PythonVariant) : bool :=
  match self with PV_Default | PV_Freethreaded | PV_Gil => false | PV_Debug | PV_FreethreadedDebug | PV_GilDebug => true end.

Definition PythonVariant_from_str (s : text) : option PythonVariant :=
  if bool_decide (s = bs "t" \/ s = bs "freethreaded") then Some PV_Freethreaded
  else if bool_decide (s = bs "d" \/ s = bs "debug") then Some PV_Debug
  else if bool_decide (s = bs "td" \/ s = bs "freethreaded+debug") then Some PV_FreethreadedDebug
  else if bool_decide (s = bs "gil") then Some PV_Gil
  else if bool_decide (s = bs "gil+debug") then Some PV_GilDebug
  else if bool_decide (s = []) then Some PV_Default
  else None.

Definition PythonVariant_show (self : PythonVariant) : text :=
  match self with
  | PV_Default => bs "default"
  | PV_Debug => bs "debug"
  | PV_Freethreaded => bs "freethreaded"
  | PV_FreethreadedDebug => bs "freethreaded+debug"
  | PV_Gil => bs "gil"
  | PV_GilDebug => bs "gil+debug"
  end.

(** ** Interpreters *)

Inductive ImplementationName := Pyodide | GraalPy | PyPy | CPython.

#[export] Instance ImplementationName_eq_dec : EqDecision ImplementationName. Proof. solve_decision. Defined.

Definition implementation_str (self : ImplementationName) : text :=
  match self with CPython => bs "cpython" | PyPy => bs "pypy" | GraalPy => bs "graalpy" | Pyodide => bs "pyodide" end.

Definition lowercase (s : text) : text := map to_ascii_lowercase s.
Definition eq_ignore_case (a b : text) : bool := bool_decide (lowercase a = lowercase b).

Definition ImplementationName_from_str (s : text) : option ImplementationName :=
  let s := lowercase s in
  if bool_decide (s = bs "cpython" \/ s = bs "cp") then Some CPython
  else if bool_decide (s = bs "pypy" \/ s = bs "pp") then Some PyPy
  else if bool_decide (s = bs "graalpy" \/ s = bs "gp") then Some GraalPy
  else if bool_decide (s = bs "pyodide") then Some Pyodide
  else None.

Definition long_names : list text := [bs "cpython"; bs "pypy"; bs "graalpy"; bs "pyodide"].
Definition short_names : list text := [bs "cp"; bs "pp"; bs "gp"].

(** What discovery reads of an [Interpreter]. *)
Record Interpreter := mkInterpreter {
  python_version : Version;
  gil_disabled : bool;
  debug_enabled : bool;
  is_virtualenv : bool;
  interpreter_is_managed : bool;
  implementation_name : text;
  is_emscripten : bool;
  has_default_executable_name : bool
}.

Definition u8_try_from (n : N) : option N := if n <=? 255 then Some n else None.

Definition python_major (self : Interpreter) : option N := release (python_version self) !! 0%nat ≫= u8_try_from.
Definition python_minor (self : Interpreter) : option N := release (python_version self) !! 1%nat ≫= u8_try_from.
Definition python_patch (self : Interpreter) : option N := release (python_version self) !! 2%nat ≫= u8_try_from.

Definition interpreter_variant (self : Interpreter) : PythonVariant :=
  if gil_disabled self then if debug_enabled self then PV_FreethreadedDebug else PV_Freethreaded
  else if debug_enabled self then PV_Debug
  else PV_Default.

(** [ImplementationName::matches_interpreter] *)
Definition implementation_matches (self : ImplementationName) (interpreter : Interpreter) : bool :=
  match self with
  | Pyodide => is_emscripten interpreter
  | _ => eq_ignore_case (implementation_name interpreter) (implementation_str self)
  end.

(** [a <= b] on pairs. *)
Definition pair_leb (a b : N * N) : bool := (fst a <? fst b) || ((fst a =? fst b) && (snd a <=? snd b)).
Definition pair_ltb (a b : N * N) : bool := (fst a <? fst b) || ((fst a =? fst b) && (snd a <? snd b)).

(** [PythonVariant::matches_interpreter] *)
Definition variant_matches (self : PythonVariant) (interpreter : Interpreter) : option bool :=
  match self with
  | PV_Default =>
      major ← python_major interpreter;
      minor ← python_minor interpreter;
      Some (if pair_leb (3, 14) (major, minor) then true else negb (gil_disabled interpreter))
  | PV_Debug => Some (debug_enabled interpreter)
  | PV_Freethreaded => Some (gil_disabled interpreter)
  | PV_FreethreadedDebug => Some (gil_disabled interpreter && debug_enabled interpreter)
  | PV_Gil => Some (negb (gil_disabled interpreter))
  | PV_GilDebug => Some (negb (gil_disabled interpreter) && debug_enabled interpreter)
  end.

(** [a && b] where the operands can panic. *)
Definition and_opt (a b : option bool) : option bool := x ← a; if x : bool then b else Some false.

(** ** Version requests *)

Inductive VersionRequest :=
| VR_Default
| VR_Any
| VR_Major (major : N) (variant : PythonVariant)
| VR_MajorMinor (major minor : N) (variant : PythonVariant)
| VR_MajorMinorPatch (major minor patch : N) (variant : PythonVariant)
| VR_MajorMinorPrerelease (major minor : N) (prerelease : Prerelease) (variant : PythonVariant)
| VR_Range (specifiers : VersionSpecifiers) (variant : PythonVariant).

Inductive DiscoveryError := InvalidVersionRequest (s : text) | LatestVersionRequest.

Definition request_major (self : VersionRequest) : option N :=
  match self with
  | VR_Any | VR_Default | VR_Range _ _ => None
  | VR_Major major _ | VR_MajorMinor major _ _ | VR_MajorMinorPatch major _ _ _ | VR_MajorMinorPrerelease major _ _ _ => Some major
  end.

Definition request_minor (self : VersionRequest) : option N :=
  match self with
  | VR_Any | VR_Default | VR_Range _ _ | VR_Major _ _ => None
  | VR_MajorMinor _ minor _ | VR_MajorMinorPatch _ minor _ _ | VR_MajorMinorPrerelease _ minor _ _ => Some minor
  end.

Definition request_patch (self : VersionRequest) : option N := match self with VR_MajorMinorPatch _ _ patch _ => Some patch | _ => None end.
Definition request_prerelease (self : VersionRequest) : option Prerelease := match self with VR_MajorMinorPrerelease _ _ prerelease _ => Some prerelease | _ => None end.
Definition has_patch (self : VersionRequest) : bool := match self with VR_MajorMinorPatch _ _ _ _ => true | _ => false end.

Definition request_variant (self : VersionRequest) : option PythonVariant :=
  match self with
  | VR_Any => None
  | VR_Default => Some PV_Default
  | VR_Major _ variant | VR_MajorMinor _ _ variant | VR_MajorMinorPatch _ _ _ variant | VR_MajorMinorPrerelease _ _ _ variant | VR_Range _ variant => Some variant
  end.

Definition without_patch (self : VersionRequest) : VersionRequest :=
  match self with VR_MajorMinorPatch major minor _ variant => VR_MajorMinor major minor variant | _ => self end.

Definition without_python_variant (self : VersionRequest) : VersionRequest :=
  match self with
  | VR_Any | VR_Default => self
  | VR_Major major _ => VR_Major major PV_Default
  | VR_MajorMinor major minor _ => VR_MajorMinor major minor PV_Default
  | VR_MajorMinorPatch major minor patch _ => VR_MajorMinorPatch major minor patch PV_Default
  | VR_MajorMinorPrerelease major minor prerelease _ => VR_MajorMinorPrerelease major minor prerelease PV_Default
  | VR_Range specifiers _ => VR_Range specifiers PV_Default
  end.

Definition request_only_minor (self : VersionRequest) : option VersionRequest :=
  match self with
  | VR_Range specifiers variant => specifiers ← mapM spec_only_minor_release specifiers; Some (VR_Range (from_unsorted specifiers) variant)
  | VR_MajorMinorPatch major minor _ variant | VR_MajorMinorPrerelease major minor _ variant => Some (VR_MajorMinor major minor variant)
  | VR_Any | VR_Default | VR_Major _ _ | VR_MajorMinor _ _ _ => Some self
  end.

Definition request_allows_prereleases (self : VersionRequest) : bool :=
  match self with
  | VR_Default | VR_Major _ _ | VR_MajorMinor _ _ _ | VR_MajorMinorPatch _ _ _ _ => false
  | VR_Any | VR_MajorMinorPrerelease _ _ _ _ => true
  | VR_Range specifiers _ => existsb (fun specifier => any_prerelease (spec_version specifier)) specifiers
  end.

Definition request_is_debug (self : VersionRequest) : bool :=
  match self with
  | VR_Any | VR_Default => false
  | VR_Major _ variant | VR_MajorMinor _ _ variant | VR_MajorMinorPatch _ _ _ variant | VR_MajorMinorPrerelease _ _ _ variant | VR_Range _ variant => variant_is_debug variant
  end.

Definition request_is_freethreaded (self : VersionRequest) : bool :=
  match self with
  | VR_Any | VR_Default => false
  | VR_Major _ variant | VR_MajorMinor _ _ variant | VR_MajorMinorPatch _ _ _ variant | VR_MajorMinorPrerelease _ _ _ variant | VR_Range _ variant => variant_is_freethreaded variant
  end.

(** The kind of the message, if the request is not supported. *)
Inductive Unsupported := U_Major (major : N) | U_Minor (major minor : N) | U_Patch (major minor patch : N) | U_Prerelease (major minor : N) (prerelease : Prerelease) | U_Freethreaded (request : VersionRequest).

Definition check_supported (self : VersionRequest) : result unit Unsupported :=
  let? _ :=
    match self with
    | VR_Any | VR_Default | VR_Range _ _ => Ok tt
    | VR_Major major _ => if major <? 3 then Err (U_Major major) else Ok tt
    | VR_MajorMinor major minor _ => if pair_ltb (major, minor) (3, 7) then Err (U_Minor major minor) else Ok tt
    | VR_MajorMinorPatch major minor patch _ => if pair_ltb (major, minor) (3, 7) then Err (U_Patch major minor patch) else Ok tt
    | VR_MajorMinorPrerelease major minor prerelease _ => if pair_ltb (major, minor) (3, 7) then Err (U_Prerelease major minor prerelease) else Ok tt
    end in
  if request_is_freethreaded self then
    match without_patch self with
    | VR_MajorMinor major minor _ => if pair_ltb (major, minor) (3, 13) then Err (U_Freethreaded self) else Ok tt
    | _ => Ok tt
    end
  else Ok tt.

(** ** Which versions satisfy a request *)

(** The version that specifiers are matched with: without its pre-release, unless a
    specifier has one. *)
Definition matched_version (specifiers : VersionSpecifiers) (version : Version) : option Version :=
  if existsb (fun specifier => any_prerelease (spec_version specifier)) specifiers then Some version else only_release version.

Definition matches_interpreter (self : VersionRequest) (interpreter : Interpreter) : option bool :=
  match self with
  | VR_Any => Some true
  | VR_Default => variant_matches PV_Default interpreter
  | VR_Major major variant =>
      and_opt (m ← python_major interpreter; Some (m =? major)) (variant_matches variant interpreter)
  | VR_MajorMinor major minor variant =>
      and_opt (m ← python_major interpreter; n ← python_minor interpreter; Some ((m =? major) && (n =? minor))) (variant_matches variant interpreter)
  | VR_MajorMinorPatch major minor patch variant =>
      and_opt (m ← python_major interpreter; n ← python_minor interpreter; p ← python_patch interpreter; Some ((m =? major) && (n =? minor) && (p =? patch)))
        (and_opt (Some (bool_decide (pre (python_version interpreter) = None))) (variant_matches variant interpreter))
  | VR_Range specifiers variant =>
      version ← matched_version specifiers (python_version interpreter);
      and_opt (specs_contains specifiers version) (variant_matches variant interpreter)
  | VR_MajorMinorPrerelease major minor prerelease variant =>
      match pre (python_version interpreter) with
      | None => Some false
      | Some interpreter_prerelease =>
          and_opt (m ← python_major interpreter; n ← python_minor interpreter; Some ((m =? major) && (n =? minor) && bool_decide (interpreter_prerelease = prerelease)))
            (variant_matches variant interpreter)
      end
  end.

(** [PythonVersion]: a [StringVersion] with restrictions. *)
Record PythonVersion := mkPythonVersion { pv_string : text; pv_version : Version }.

(** [release().get(i).copied().unwrap_or(0)] as an [u8]. *)
Definition version_major (self : PythonVersion) : option N := u8_try_from (default 0 (release (pv_version self) !! 0%nat)).
Definition version_minor (self : PythonVersion) : option N := u8_try_from (default 0 (release (pv_version self) !! 1%nat)).
Definition version_patch (self : PythonVersion) : option (option N) :=
  match release (pv_version self) !! 2%nat with Some patch => patch ← u8_try_from patch; Some (Some patch) | None => Some None end.

Definition matches_version (self : VersionRequest) (version : PythonVersion) : option bool :=
  match self with
  | VR_Any | VR_Default => Some true
  | VR_Major major _ => m ← version_major version; Some (m =? major)
  | VR_MajorMinor major minor _ => m ← version_major version; n ← version_minor version; Some ((m =? major) && (n =? minor))
  | VR_MajorMinorPatch major minor patch _ =>
      m ← version_major version; n ← version_minor version; p ← version_patch version;
      Some ((m =? major) && (n =? minor) && bool_decide (p = Some patch))
  | VR_Range specifiers _ => v ← matched_version specifiers (pv_version version); specs_contains specifiers v
  | VR_MajorMinorPrerelease major minor prerelease _ =>
      m ← version_major version; n ← version_minor version;
      Some ((m =? major) && (n =? minor) && bool_decide (pre (pv_version version) = Some prerelease))
  end.

Definition matches_major_minor_patch_prerelease (self : VersionRequest) (major minor patch : N) (prerelease : option Prerelease) : option bool :=
  match self with
  | VR_Any | VR_Default => Some true
  | VR_Major self_major _ => Some (self_major =? major)
  | VR_MajorMinor self_major self_minor _ => Some ((self_major =? major) && (self_minor =? minor))
  | VR_MajorMinorPatch self_major self_minor self_patch _ =>
      Some ((self_major =? major) && (self_minor =? minor) && (self_patch =? patch) && bool_decide (prerelease = None))
  | VR_Range specifiers _ => version ← new [major; minor; patch]; specs_contains specifiers (with_pre version prerelease)
  | VR_MajorMinorPrerelease self_major self_minor self_prerelease _ =>
      Some ((self_major =? major) && (self_minor =? minor) && (0 =? patch) && bool_decide (Some self_prerelease = prerelease))
  end.

Section ranges.
Context {R : Type} {RS : RangeSet Version R}.

Definition matches_major_minor (self : VersionRequest) (major minor : N) : option bool :=
  match self with
  | VR_Any | VR_Default => Some true
  | VR_Major self_major _ => Some (self_major =? major)
  | VR_MajorMinor self_major self_minor _ | VR_MajorMinorPatch self_major self_minor _ _ | VR_MajorMinorPrerelease self_major self_minor _ _ =>
      Some ((self_major =? major) && (self_minor =? minor))
  | VR_Range specifiers _ =>
      range ← @release_specifiers_to_ranges R _ specifiers;
      match rs_bounding_range range with
      | None => Some true
      | Some (lower, upper) =>
          version ← new [major; minor];
          lower ← LowerBound_new (to_bound lower);
          lower ← LowerBound_major_minor lower;
          if negb (LowerBound_contains lower version) then Some false
          else
            upper ← UpperBound_new (to_bound upper);
            upper ← UpperBound_major_minor upper;
            Some (UpperBound_contains upper version)
      end
  end.
End ranges.

(** ** Reading and writing version requests *)

(** [char::is_numeric] *)
Class Numeric := is_numeric : N -> bool.

Class NumericLaws `{Numeric} : Prop :=
  is_numeric_ascii c : c < 128 -> is_numeric c = is_ascii_digit c.

(** [str::rfind], the position of the last character that satisfies [p]. *)
Fixpoint rfind (p : N -> bool) (s : text) (position : N) : option N :=
  match s with
  | [] => None
  | c :: s => match rfind p s (position + len_utf8 c) with Some i => Some i | None => if p c then Some position else None end
  end.

(** [release[0].to_string()] as a major digit and a minor number. *)
Definition split_wheel_tag_release_version (version : Version) : option Version :=
  match release version with
  | [number] =>
      match show_u64 number with
      | [] => Some version
      | major :: chars =>
          if is_ascii_digit major then
            match parse_unsigned 4294967295 chars with
            | Some minor => with_release version [major - 48; minor]
            | None => Some version
            end
          else Some version
      end
  | _ => Some version
  end.

Definition VersionRequest_show (self : VersionRequest) : text :=
  match self with
  | VR_Any => bs "any"
  | VR_Default => bs "default"
  | VR_Major major variant => show_u64 major ++ display_suffix variant
  | VR_MajorMinor major minor variant => show_u64 major ++ bs "." ++ show_u64 minor ++ display_suffix variant
  | VR_MajorMinorPatch major minor patch variant => show_u64 major ++ bs "." ++ show_u64 minor ++ bs "." ++ show_u64 patch ++ display_suffix variant
  | VR_MajorMinorPrerelease major minor prerelease variant =>
      show_u64 major ++ bs "." ++ show_u64 minor ++ PrereleaseKind_show (kind prerelease) ++ show_u64 (number prerelease) ++ display_suffix variant
  | VR_Range specifiers _ => specs_show specifiers
  end.

Section from_str.
Context `{Alphabetic} `{Numeric} {Sc : Type} `{Scanner Sc}.

(** [parse_variant] *)
Definition parse_variant (s : text) : result (text * PythonVariant) (failure DiscoveryError) :=
  if forallb is_alphabetic s then Err (Error (InvalidVersionRequest s))
  else
    match rfind is_numeric s 0 with
    | None => Ok (s, PV_Default)
    | Some start =>
        let start := start + 1 in
        if byte_len s <? start + 1 then Ok (s, PV_Default)
        else
          match split_at start s with
          | None => Err Panic
          | Some (prefix, variant) =>
              let variant := match variant with 43 :: rest => rest | _ => variant end in
              match PythonVariant_from_str variant with
              | Some variant => Ok (prefix, variant)
              | None => Ok (s, PV_Default)
              end
          end
    end.

Definition parse_version_specifiers_request (s : text) (variant : PythonVariant) : result VersionRequest (failure DiscoveryError) :=
  match specs_from_str s with
  | Err Panic => Err Panic
  | Err (Error _) | Ok [] => Err (Error (InvalidVersionRequest s))
  | Ok specifiers => Ok (VR_Range specifiers variant)
  end.

(** The request for a version, of which the release fits [u8]s. *)
Definition version_request (s : text) (variant : PythonVariant) (version : Version) : result VersionRequest (failure DiscoveryError) :=
  let invalid := Err (Error (InvalidVersionRequest s)) in
  if bool_decide (post version <> None \/ dev version <> None) then invalid
  else if negb (LocalVersion_is_empty (local version)) then invalid
  else
    match mapM u8_try_from (release version) with
    | None => invalid
    | Some release =>
        match release, pre version with
        | [major], None => Ok (VR_Major major variant)
        | [major], Some _ => invalid
        | [major; minor], None => Ok (VR_MajorMinor major minor variant)
        | [major; minor], Some prerelease => Ok (VR_MajorMinorPrerelease major minor prerelease variant)
        | [major; minor; patch], None => Ok (VR_MajorMinorPatch major minor patch variant)
        | [major; minor; patch], Some prerelease => if patch =? 0 then Ok (VR_MajorMinorPrerelease major minor prerelease variant) else invalid
        | _, _ => invalid
        end
    end.

Definition VersionRequest_from_str (s : text) : result VersionRequest (failure DiscoveryError) :=
  let? parsed := parse_variant s in
  let '(s, variant) := parsed in
  match Version_from_str (utf8 s) with
  | Err Panic => Err Panic
  | Err (Error _) => parse_version_specifiers_request s variant
  | Ok version =>
      match split_wheel_tag_release_version version with
      | None => Err Panic
      | Some version => version_request s variant version
      end
  end.

(** ** Python versions *)

Inductive PythonVersionError := PVE_Invalid (e : ErrorKind) | PVE_Dev | PVE_Local | PVE_Epoch | PVE_Major (major : N) | PVE_Minor (minor : N) | PVE_Patch (patch : N).

Definition check_segment (i : nat) (version : Version) (err : N -> PythonVersionError) : result unit (failure PythonVersionError) :=
  match release version !! i with Some n => match u8_try_from n with Some _ => Ok tt | None => Err (Error (err n)) end | None => Ok tt end.

Definition PythonVersion_from_str (s : text) : result PythonVersion (failure PythonVersionError) :=
  match Version_from_str (utf8 s) with
  | Err Panic => Err Panic
  | Err (Error e) => Err (Error (PVE_Invalid e))
  | Ok version =>
      if is_dev version then Err (Error PVE_Dev)
      else if is_local version then Err (Error PVE_Local)
      else if negb (epoch version =? 0) then Err (Error PVE_Epoch)
      else
        let? _ := check_segment 0 version PVE_Major in
        let? _ := check_segment 1 version PVE_Minor in
        let? _ := check_segment 2 version PVE_Patch in
        Ok (mkPythonVersion s version)
  end.

(** [python_version], [python_full_version] *)
Definition marker_python_version (self : PythonVersion) : option Version :=
  let release := release (pv_version self) in new [default 0 (release !! 0%nat); default 0 (release !! 1%nat)].
Definition marker_python_full_version (self : PythonVersion) : option Version :=
  let release := release (pv_version self) in
  version ← new [default 0 (release !! 0%nat); default 0 (release !! 1%nat); default 0 (release !! 2%nat)];
  Some (with_post (with_pre version (pre (pv_version self))) (post (pv_version self))).

(** [PythonVersion::without_patch] *)
Definition version_without_patch (self : PythonVersion) : option PythonVersion :=
  major ← version_major self;
  minor ← version_minor self;
  match PythonVersion_from_str (show_u64 major ++ bs "." ++ show_u64 minor) with Ok version => Some version | Err _ => None end.

(** [From<&PythonVersion> for VersionRequest] *)
Definition VersionRequest_from (version : PythonVersion) : option VersionRequest :=
  match VersionRequest_from_str (pv_string version) with Ok request => Some request | Err _ => None end.
End from_str.

(** ** Python requests *)

Inductive PythonRequest (Path Key : Type) :=
| PR_Default
| PR_Any
| PR_Version (request : VersionRequest)
| PR_Directory (path : Path)
| PR_File (path : Path)
| PR_ExecutableName (name : text)
| PR_Implementation (implementation : ImplementationName)
| PR_ImplementationVersion (implementation : ImplementationName) (request : VersionRequest)
| PR_Key (request : Key).
Arguments PR_Default {Path Key}.
Arguments PR_Any {Path Key}.
Arguments PR_Version {Path Key}.
Arguments PR_Directory {Path Key}.
Arguments PR_File {Path Key}.
Arguments PR_ExecutableName {Path Key}.
Arguments PR_Implementation {Path Key}.
Arguments PR_ImplementationVersion {Path Key}.
Arguments PR_Key {Path Key}.

(** The file system, and the keys of downloads ([PythonDownloadRequest]). *)
Class DiscoveryHost (Path Key : Type) := {
  request_path : text -> Path;
  path_display : Path -> text;
  is_directory : Path -> bool;
  is_regular_file : Path -> bool;
  key_from_str : text -> option Key;
  key_show : Key -> text;
  key_version : Key -> option VersionRequest;
  key_allows_prereleases : Key -> bool;
  key_allows_debug : Key -> bool;
  key_allows_alternative_implementations : Key -> bool
}.

Section requests.
Context {Path Key : Type} `{DiscoveryHost Path Key} `{Alphabetic} `{Numeric} {Sc : Type} `{Scanner Sc}.
Abbreviation PythonRequest := (PythonRequest Path Key).

Definition try_split_prefix_and_version (prefix lowercase_value : text) : result (option VersionRequest) (failure DiscoveryError) :=
  match lowercase_value with
  | 64 :: _ => Err (Error (InvalidVersionRequest lowercase_value))
  | _ =>
      match strip_prefix prefix lowercase_value with
      | None | Some [] => Ok None
      | Some (64 :: after_at) =>
          if bool_decide (after_at = bs "latest") then Err (Error LatestVersionRequest)
          else rmap Some (VersionRequest_from_str after_at)
      | Some rest =>
          match VersionRequest_from_str rest with
          | Ok request => Ok (Some request)
          | Err (Error _) => Ok None
          | Err Panic => Err Panic
          end
      end
  end.

Fixpoint try_prefixes (prefixes : list text) (lowercase_value : text) : result (option VersionRequest) (failure DiscoveryError) :=
  match prefixes with
  | [] => Ok None
  | prefix :: prefixes =>
      let? request := try_split_prefix_and_version prefix lowercase_value in
      match request with Some request => Ok (Some request) | None => try_prefixes prefixes lowercase_value end
  end.

Fixpoint try_implementations (names : list text) (lowercase_value : text) : result (option PythonRequest) (failure DiscoveryError) :=
  match names with
  | [] => Ok None
  | name :: names =>
      let implementation := ImplementationName_from_str name in
      if bool_decide (lowercase_value = name) then
        match implementation with Some implementation => Ok (Some (PR_Implementation implementation)) | None => Err Panic end
      else
        let? request := try_split_prefix_and_version name lowercase_value in
        match request with
        | Some request => match implementation with Some implementation => Ok (Some (PR_ImplementationVersion implementation request)) | None => Err Panic end
        | None => try_implementations names lowercase_value
        end
  end.

Definition parse_versions_and_implementations (prefixes names : list text) (lowercase_value : text) : result (option PythonRequest) (failure DiscoveryError) :=
  let? request := try_prefixes prefixes lowercase_value in
  match request with Some request => Ok (Some (PR_Version request)) | None => try_implementations names lowercase_value end.

(** [PythonRequest::parse], on Unix *)
Definition PythonRequest_parse (value : text) : option PythonRequest :=
  let lowercase_value := lowercase value in
  if bool_decide (lowercase_value = bs "any") then Some PR_Any
  else if bool_decide (lowercase_value = bs "default") then Some PR_Default
  else
    match parse_versions_and_implementations [bs "python"; []] (long_names ++ short_names) lowercase_value with
    | Err Panic => None
    | Ok (Some request) => Some request
    | Ok None | Err (Error _) =>
        let value_as_path := request_path value in
        if is_directory value_as_path then Some (PR_Directory value_as_path)
        else if is_regular_file value_as_path then Some (PR_File value_as_path)
        else if existsb (fun c => c =? 47) value then Some (PR_File value_as_path)
        else match key_from_str value with Some request => Some (PR_Key request) | None => Some (PR_ExecutableName value) end
    end.

Definition try_from_tool_name (value : text) : result (option PythonRequest) (failure DiscoveryError) :=
  let lowercase_value := lowercase value in
  if bool_decide (lowercase_value = bs "python") then Ok (Some PR_Default)
  else parse_versions_and_implementations [bs "python"] long_names lowercase_value.

Definition includes_patch (self : PythonRequest) : bool :=
  match self with
  | PR_Version request | PR_ImplementationVersion _ request => bool_decide (is_Some (request_patch request))
  | PR_Key request => match key_version request with Some request => bool_decide (is_Some (request_patch request)) | None => false end
  | _ => false
  end.

Definition includes_prerelease (self : PythonRequest) : bool :=
  match self with
  | PR_Version request | PR_ImplementationVersion _ request => bool_decide (is_Some (request_prerelease request))
  | PR_Key request => match key_version request with Some request => bool_decide (is_Some (request_prerelease request)) | None => false end
  | _ => false
  end.

Definition allows_prereleases (self : PythonRequest) : bool :=
  match self with
  | PR_Default | PR_Implementation _ => false
  | PR_Any | PR_Directory _ | PR_File _ | PR_ExecutableName _ | PR_ImplementationVersion _ _ => true
  | PR_Version version => request_allows_prereleases version
  | PR_Key request => key_allows_prereleases request
  end.

Definition allows_debug (self : PythonRequest) : bool :=
  match self with
  | PR_Default | PR_Implementation _ => false
  | PR_Any | PR_Directory _ | PR_File _ | PR_ExecutableName _ | PR_ImplementationVersion _ _ => true
  | PR_Version version => request_is_debug version
  | PR_Key request => key_allows_debug request
  end.

Definition allows_alternative_implementations (self : PythonRequest) : bool :=
  match self with
  | PR_Default | PR_Version _ => false
  | PR_Any | PR_Directory _ | PR_File _ | PR_ExecutableName _ => true
  | PR_Implementation implementation | PR_ImplementationVersion implementation _ => negb (bool_decide (implementation = CPython))
  | PR_Key request => key_allows_alternative_implementations request
  end.

Definition to_canonical_string (self : PythonRequest) : text :=
  match self with
  | PR_Any => bs "any"
  | PR_Default => bs "default"
  | PR_Version version => VersionRequest_show version
  | PR_Directory path | PR_File path => path_display path
  | PR_ExecutableName name => name
  | PR_Implementation implementation => implementation_str implementation
  | PR_ImplementationVersion implementation version => implementation_str implementation ++ bs "@" ++ VersionRequest_show version
  | PR_Key request => key_show request
  end.

(** ** Sources and preferences *)

Inductive PythonSource :=
| ProvidedPath | ActiveEnvironment | CondaPrefix | BaseCondaPrefix | DiscoveredEnvironment | SearchPath | SearchPathFirst | Registry | MicrosoftStore | Managed | ParentInterpreter.

Inductive PythonPreference := PP_OnlyManaged | PP_Managed | PP_System | PP_OnlySystem.
Inductive EnvironmentPreference := EP_OnlyVirtual | EP_ExplicitSystem | EP_OnlySystem | EP_Any.

Definition source_allows_prereleases (self : PythonSource) : bool := match self with Managed | Registry | MicrosoftStore => false | _ => true end.
Definition source_allows_debug (self : PythonSource) : bool := match self with Managed | Registry | MicrosoftStore => false | _ => true end.
Definition source_allows_alternative_implementations (self : PythonSource) : bool :=
  match self with Managed | Registry | SearchPath | SearchPathFirst | MicrosoftStore => false | _ => true end.
Definition is_maybe_virtualenv (self : PythonSource) : bool := match self with Managed | SearchPath | Registry | MicrosoftStore => false | _ => true end.
Definition is_maybe_system (self : PythonSource) : bool := match self with ActiveEnvironment | DiscoveredEnvironment => false | _ => true end.

(** [VersionRequest::into_request_for_source] *)
Definition into_request_for_source (self : VersionRequest) (source : PythonSource) : VersionRequest :=
  match self, source with
  | VR_Default, (ParentInterpreter | CondaPrefix | BaseCondaPrefix | ProvidedPath | DiscoveredEnvironment | ActiveEnvironment) => VR_Any
  | _, _ => self
  end.

Definition preference_allows (self : PythonPreference) (source : PythonSource) : bool :=
  match source with
  | Managed => match self with PP_OnlySystem => false | _ => true end
  | SearchPath | Registry => match self with PP_OnlyManaged => false | _ => true end
  | _ => true
  end.

Definition with_system_flag (self : PythonPreference) (system : bool) : PythonPreference :=
  match self with PP_Managed => if system then PP_System else self | _ => self end.

Definition from_system_flag (system mutable : bool) : EnvironmentPreference := if system then EP_OnlySystem else if mutable then EP_ExplicitSystem else EP_Any.

Definition is_system_interpreter (source : PythonSource) (interpreter : Interpreter) : bool :=
  match source with Managed => false | MicrosoftStore => true | _ => negb (interpreter_is_managed interpreter) end.

Definition interpreter_satisfies_environment_preference (source : PythonSource) (interpreter : Interpreter) (preference : EnvironmentPreference) : bool :=
  let environment := is_virtualenv interpreter || match source with CondaPrefix => true | _ => false end in
  match preference with
  | EP_Any => true
  | EP_OnlyVirtual => environment
  | EP_ExplicitSystem => environment || match source with ProvidedPath | ParentInterpreter => true | _ => false end
  | EP_OnlySystem => negb environment
  end.

Definition source_satisfies_environment_preference (source : PythonSource) (preference : EnvironmentPreference) : bool :=
  match preference with
  | EP_Any => true
  | EP_OnlyVirtual | EP_ExplicitSystem => is_maybe_virtualenv source
  | EP_OnlySystem => is_maybe_system source
  end.

Definition satisfies_python_preference (source : PythonSource) (interpreter : Interpreter) (preference : PythonPreference) : bool :=
  let is_explicit := match source with ProvidedPath | ParentInterpreter | ActiveEnvironment | CondaPrefix => true | _ => false end in
  match preference with
  | PP_OnlyManaged => match source with Managed => true | _ => interpreter_is_managed interpreter || is_explicit end
  | PP_Managed | PP_System => true
  | PP_OnlySystem => is_system_interpreter source interpreter || is_explicit
  end.

(** ** The choice *)

Record PythonInstallation := mkInstallation { source : PythonSource; interpreter : Interpreter }.

Definition is_alternative_implementation (self : PythonInstallation) : bool :=
  negb (bool_decide (ImplementationName_from_str (implementation_name (interpreter self)) = Some CPython)) || is_emscripten (interpreter self).

Record PythonNotFound := mkNotFound { nf_request : PythonRequest; nf_python_preference : PythonPreference; nf_environment_preference : EnvironmentPreference }.

Context {E : Type} (is_critical : E -> bool).
Abbreviation FindPythonResult := (result PythonInstallation PythonNotFound).
Abbreviation found := (result FindPythonResult E).

(** Why an installation is passed over. *)
Definition skips_prerelease (request : PythonRequest) (installation : PythonInstallation) (default_name : bool) : bool :=
  bool_decide (is_Some (pre (python_version (interpreter installation)))) && negb (allows_prereleases request) && negb (source_allows_prereleases (source installation)) && negb default_name.
Definition skips_debug (request : PythonRequest) (installation : PythonInstallation) (default_name : bool) : bool :=
  variant_is_debug (interpreter_variant (interpreter installation)) && negb (allows_debug request) && negb (source_allows_debug (source installation)) && negb default_name.
Definition skips_alternative (request : PythonRequest) (installation : PythonInstallation) (default_name : bool) : bool :=
  is_alternative_implementation installation && negb (allows_alternative_implementations request) && negb (source_allows_alternative_implementations (source installation)) && negb default_name.
Definition skips_managed (preference : PythonPreference) (installation : PythonInstallation) : bool :=
  match preference with PP_System => negb (is_system_interpreter (source installation) (interpreter installation)) | _ => false end.

Definition has_default_name (installation : PythonInstallation) : bool :=
  has_default_executable_name (interpreter installation) && match source installation with SearchPath | SearchPathFirst => true | _ => false end.

(** [option.is_none()] decides whether the first one is kept. *)
Definition or_first {A} (first : option A) (a : A) : option A := match first with None => Some a | Some _ => first end.

Fixpoint find_loop (request : PythonRequest) (environments : EnvironmentPreference) (preference : PythonPreference) (installations : list found)
    (first_prerelease first_debug first_managed : option PythonInstallation) (first_error : option E) : found :=
  match installations with
  | [] =>
      match first_managed, first_debug, first_prerelease, first_error with
      | Some installation, _, _, _ | None, Some installation, _, _ | None, None, Some installation, _ => Ok (Ok installation)
      | None, None, None, Some err => Err err
      | None, None, None, None => Ok (Err (mkNotFound request preference environments))
      end
  | Err err :: rest =>
      if is_critical err then Err err
      else find_loop request environments preference rest first_prerelease first_debug first_managed (or_first first_error err)
  | Ok (Err not_found) :: _ => Ok (Err not_found)
  | Ok (Ok installation) :: rest =>
      let default_name := has_default_name installation in
      if skips_prerelease request installation default_name then
        find_loop request environments preference rest (or_first first_prerelease installation) first_debug first_managed first_error
      else if skips_debug request installation default_name then
        find_loop request environments preference rest first_prerelease (or_first first_debug installation) first_managed first_error
      else if skips_alternative request installation default_name then
        find_loop request environments preference rest first_prerelease first_debug first_managed first_error
      else if skips_managed preference installation then
        find_loop request environments preference rest first_prerelease first_debug (or_first first_managed installation) first_error
      else Ok (Ok installation)
  end.

(** [find_python_installations], which searches the host *)
Context (find_python_installations : PythonRequest -> EnvironmentPreference -> PythonPreference -> list found).

Definition find_python_installation (request : PythonRequest) (environments : EnvironmentPreference) (preference : PythonPreference) : found :=
  find_loop request environments preference (find_python_installations request environments preference) None None None None.

(** The request to try when none satisfies the patch version. *)
Definition relaxed_request (request : PythonRequest) : option PythonRequest :=
  match request with
  | PR_Version version => if has_patch version then Some (PR_Version (without_patch version)) else None
  | PR_ImplementationVersion implementation version => Some (PR_ImplementationVersion implementation (without_patch version))
  | _ => None
  end.

(** Whether the search goes on. *)
Definition goes_on (r : found) : bool := match r with Ok (Ok _) => false | Ok (Err _) => true | Err err => negb (is_critical err) end.

Definition find_best_python_installation (request : PythonRequest) (environments : EnvironmentPreference) (preference : PythonPreference) : found :=
  let result := find_python_installation request environments preference in
  if negb (goes_on result) then result
  else
    let fallback :=
      match find_python_installation PR_Default environments preference with
      | Err err => Err err
      | Ok (Ok installation) => Ok (Ok installation)
      | Ok (Err err) => Ok (Err (mkNotFound PR_Default (nf_python_preference err) (nf_environment_preference err)))
      end in
    match relaxed_request request with
    | None => fallback
    | Some request =>
        let result := find_python_installation request environments preference in
        if negb (goes_on result) then result else fallback
    end.
End requests.

(** ** Reading version requests *)

Lemma rfind_some p s : forall k i, rfind p s k = Some i -> exists a c b, s = a ++ c :: b /\ p c = true /\ i = k + byte_len a.
Proof.
  induction s as [|d s IH]; intros k i; cbn [rfind]; [done|]. destruct (rfind p s (k + len_utf8 d)) as [j|] eqn:E.
  - intros [= <-]. destruct (IH _ _ E) as (a&c&b&->&Hc&->). exists (d :: a), c, b. split_and!; [done|done|cbn; lia].
  - destruct (p d) eqn:Ed; intros [= <-]. exists [], d, s. split_and!; [done|done|cbn; lia].
Qed.

Lemma rfind_none p b : Forall (fun c => p c = false) b -> forall k, rfind p b k = None.
Proof. induction 1 as [|c b Hc _ IH]; intros k; cbn [rfind]; [done|]. by rewrite IH, Hc. Qed.

Lemma rfind_last p a c b k : p c = true -> Forall (fun c => p c = false) b -> rfind p (a ++ c :: b) k = Some (k + byte_len a).
Proof.
  intros Hc Hb. revert k. induction a as [|d a IH]; intros k; cbn [app rfind].
  - rewrite rfind_none by done. rewrite Hc. cbn. f_equal. lia.
  - rewrite IH. cbn. f_equal. lia.
Qed.

(** A well-formed request of a concrete version. *)
Definition concrete (r : VersionRequest) : Prop :=
  match r with
  | VR_Major major _ => major < 10
  | VR_MajorMinor major minor _ => major <= 255 /\ minor <= 255
  | VR_MajorMinorPatch major minor patch _ => major <= 255 /\ minor <= 255 /\ patch <= 255
  | VR_MajorMinorPrerelease major minor prerelease _ => major <= 255 /\ minor <= 255 /\ number prerelease <= u64_MAX
  | VR_Default | VR_Any | VR_Range _ _ => False
  end.

Definition request_wf (r : VersionRequest) : Prop := match r with VR_Range specifiers _ => specifiers <> [] /\ Forall spec_wf specifiers | _ => concrete r end.

Lemma u8_try_from_some n m : u8_try_from n = Some m -> m = n /\ n <= 255.
Proof. unfold u8_try_from. destruct (N.leb_spec n 255); [|done]. by intros [= <-]. Qed.

Lemma u8_fits n : n <= 255 -> u8_try_from n = Some n.
Proof. unfold u8_try_from. intros Hn. by rewrite (proj2 (N.leb_le _ _) Hn). Qed.

(** A number of two or three digits is always split. *)
Definition splits (n : N) : bool :=
  match show_u64 n with major :: chars => is_ascii_digit major && match parse_unsigned 4294967295 chars with Some _ => true | None => false end | [] => false end.

Lemma u8_splits n : 10 <= n -> n <= 255 -> splits n = true.
Proof.
  intros Hlo Hhi. assert (forallb splits (map N.of_nat (seq 10 246)) = true) as Hall by (vm_compute; reflexivity). rewrite forallb_forall in Hall. apply Hall.
  apply in_map_iff. exists (N.to_nat n). split; [lia|]. apply in_seq. lia.
Qed.

Lemma digit_not_split n : n < 10 -> exists d, show_u64 n = [d] /\ is_ascii_digit d = true.
Proof.
  intros Hn. assert (forallb (fun n => match show_u64 n with [d] => is_ascii_digit d | _ => false end) (map N.of_nat (seq 0 10)) = true) as Hall by (vm_compute; reflexivity).
  rewrite forallb_forall in Hall. specialize (Hall n). rewrite in_map_iff in Hall. specialize (Hall ltac:(exists (N.to_nat n); split; [lia|apply in_seq; lia])).
  destruct (show_u64 n) as [|d [|? ?]]; try done. by exists d.
Qed.

(** The version after its release is split. *)
Lemma split_wheel_spec v : version_wf v -> exists v', split_wheel_tag_release_version v = Some v' /\ version_wf v' /\
  (v' = v \/ exists release, value v' = set_f_release release (value v)) /\ forall n, release v' = [n] -> splits n = false.
Proof.
  intros Hw. unfold split_wheel_tag_release_version. assert ((forall n, release v = [n] -> splits n = false) -> exists v', Some v = Some v' /\ version_wf v' /\
    (v' = v \/ exists release, value v' = set_f_release release (value v)) /\ forall n, release v' = [n] -> splits n = false) as Hsame by (intros Hn; exists v; split_and!; auto).
  destruct (release v) as [|n [|m l]] eqn:Er; [by apply Hsame| |by apply Hsame]. destruct (show_u64 n) as [|d chars] eqn:Es.
  { apply Hsame. intros k [= <-]. unfold splits. by rewrite Es. }
  destruct (is_ascii_digit d) eqn:Ed; [|apply Hsame; intros k [= <-]; unfold splits; by rewrite Es, Ed].
  destruct (parse_unsigned 4294967295 chars) as [minor|] eqn:Ep; [|apply Hsame; intros k [= <-]; unfold splits; by rewrite Es, Ed, Ep].
  destruct (with_release_spec v [d - 48; minor] Hw) as (v'&Ev&Hw'&Hv'); [done|]. exists v'. split_and!; [done|done|right; by eexists|]. intros k. by rewrite value_release, Hv'.
Qed.

Lemma version_request_wf s variant v : pre_ok (pre v) -> (forall n, release v = [n] -> splits n = false) -> yields (version_request s variant v) request_wf.
Proof.
  intros Hp Hn. unfold version_request. destruct (bool_decide _); [done|]. destruct (negb _); [done|]. destruct (mapM u8_try_from (release v)) as [l|] eqn:El; [|done].
  apply mapM_Some in El. assert (Forall2 (fun n m => m = n /\ n <= 255) (release v) l) as Hl by (eapply Forall2_impl; [exact El|]; intros; by apply u8_try_from_some).
  destruct l as [|a [|b [|c [|]]]]; try done; apply Forall2_cons_inv_r in Hl as (x&rx&[-> Ha]&Hl&Ex).
  - apply Forall2_nil_inv_r in Hl as ->. destruct (pre v); [done|]. cbn. destruct (N.lt_ge_cases x 10) as [|Hge]; [done|]. specialize (Hn x Ex). by rewrite u8_splits in Hn.
  - apply Forall2_cons_inv_r in Hl as (y&ry&[-> Hb]&_&_). destruct (pre v) as [p|]; cbn; [|done]. by split_and!.
  - apply Forall2_cons_inv_r in Hl as (y&ry&[-> Hb]&Hl&_). apply Forall2_cons_inv_r in Hl as (z&rz&[-> Hc]&_&_). destruct (pre v) as [p|]; cbn; [|done]. destruct (z =? 0); [by split_and!|done].
Qed.

Section reading.
Context `{AlphabeticLaws} `{NumericLaws} {Sc : Type} `{ScannerLaws Sc}.

Lemma parse_variant_total s : (forall c, c ∈ s -> is_numeric c = true -> c < 128) -> parse_variant s <> Err Panic.
Proof.
  intros Hs. unfold parse_variant. destruct (forallb is_alphabetic s); [done|]. destruct (rfind is_numeric s 0) as [i|] eqn:Er; [|done]. destruct (N.ltb_spec (byte_len s) (i + 1 + 1)); [done|].
  apply rfind_some in Er as (a&c&b&->&Hc&->). assert (c < 128) as Hc' by (apply Hs; [set_solver|done]). replace (0 + byte_len a + 1) with (byte_len (a ++ [c])) by (rewrite byte_len_app; cbn; rewrite len_utf8_ascii by done; lia).
  change (a ++ c :: b) with (a ++ [c] ++ b). rewrite app_assoc, split_at_app. destruct (PythonVariant_from_str _); done.
Qed.

(** C29: reading a version request is total: where the numeric characters are ASCII digits,
    no text makes it panic, and the request is well-formed: its segments fit a byte, a
    single segment is a digit, a pre-release has a minor version, and a range has a
    specifier and only such that can be matched. *)
Theorem version_request_safe (s : text) (Hs : forall c, c ∈ s -> is_numeric c = true -> c < 128) :
  match VersionRequest_from_str s with
  | Ok r => request_wf r
  | Err (Error _) => True
  | Err Panic => False
  end.
Proof.
  unfold VersionRequest_from_str. pose proof (parse_variant_total s Hs) as Hv. destruct (parse_variant s) as [[t variant]|[e|]]; cbn [rbind]; [|done|done].
  pose proof (from_str_inv (utf8 t)) as Hi. destruct (Version_from_str (utf8 t)) as [v|[e|]]; cbn in Hi; [|clear Hi|done].
  - destruct Hi as (Hw&Hp&_). destruct (split_wheel_spec v Hw) as (v'&->&_&Hv'&Hn). apply (version_request_wf t variant v'); [|done].
    destruct Hv' as [->|[l Hl]]; rewrite value_pre; [apply Hp|]. rewrite Hl. apply Hp.
  - unfold parse_version_specifiers_request. pose proof (specs_from_str_inv t) as Hi. destruct (specs_from_str t) as [[|x l]|[e'|]]; cbn in Hi; [done| |done|done].
    cbn. split; [done|]. eapply Forall_impl; [apply Hi|]. by intros ? [? _].
Qed.

(** *** Writing and reading *)

(** The version of a concrete request. *)
Definition request_value (r : VersionRequest) : VersionFull :=
  let full release pre := {| f_epoch := 0; f_release := release; f_pre := pre; f_post := None; f_dev := None; f_local := LocalVersion_empty; f_min := None; f_max := None |} in
  match r with
  | VR_Major major _ => full [major] None
  | VR_MajorMinor major minor _ => full [major; minor] None
  | VR_MajorMinorPatch major minor patch _ => full [major; minor; patch] None
  | VR_MajorMinorPrerelease major minor prerelease _ => full [major; minor] (Some prerelease)
  | VR_Default | VR_Any | VR_Range _ _ => full [] None
  end.

Definition concrete_variant (r : VersionRequest) : PythonVariant := default PV_Default (request_variant r).

Lemma request_show r : concrete r -> VersionRequest_show r = show (Full (request_value r)) ++ display_suffix (concrete_variant r).
Proof.
  destruct r as [| |major v|major minor v|major minor patch v|major minor [k n] v|l v]; try done; intros _; rewrite show_value; cbn -[show_u64 bs display_suffix]; rewrite ?app_nil_r, <- ?app_assoc; try done.
Qed.

Lemma request_printable r : concrete r -> printable (request_value r).
Proof.
  assert (forall n, n <= 255 -> n <= u64_MAX) as Hn by (intros n Hn; unfold u64_MAX; lia).
  destruct r as [| |major v|major minor v|major minor patch v|major minor p v|l v]; try done; cbn; intros Hc; unfold printable; cbn; split_and!; try done; try lia; repeat constructor; try apply Hn; try lia; naive_solver.
Qed.

Lemma digit_ascii d : is_ascii_digit d = true -> d < 128 /\ is_ascii_alphabetic d = false.
Proof.
  unfold is_ascii_digit, is_ascii_alphabetic, is_ascii_lowercase, is_ascii_uppercase. rewrite andb_true_iff, !N.leb_le. intros [? ?]. split; [lia|].
  destruct (N.leb_spec 97 d), (N.leb_spec 65 d), (N.leb_spec d 122), (N.leb_spec d 90); cbn; try done; lia.
Qed.

Lemma show_u64_last n : exists a d, show_u64 n = a ++ [d] /\ is_ascii_digit d = true.
Proof.
  destruct (exists_last (show_u64_nonempty n)) as (a&d&E). exists a, d. split; [done|]. pose proof (show_u64_digits n) as Hd. unfold all_digits in Hd. rewrite E, Forall_app, Forall_singleton in Hd.
  unfold is_ascii_digit. rewrite andb_true_iff, !N.leb_le. naive_solver.
Qed.

Lemma request_ends r : concrete r -> exists a d, show (Full (request_value r)) = a ++ [d] /\ is_ascii_digit d = true.
Proof.
  assert (forall x n, exists a d, x ++ show_u64 n = a ++ [d] /\ is_ascii_digit d = true) as Hlast.
  { intros x n. destruct (show_u64_last n) as (a&d&->&Hd). exists (x ++ a), d. by rewrite app_assoc. }
  destruct r as [| |major v|major minor v|major minor patch v|major minor [k n] v|l v]; try done; intros _; rewrite show_value; cbn -[show_u64 bs]; rewrite ?app_nil_r.
  - apply (Hlast []).
  - rewrite !app_assoc. apply Hlast.
  - rewrite !app_assoc. apply Hlast.
  - rewrite !app_assoc. apply Hlast.
Qed.

Lemma suffix_not_numeric v : Forall (fun c => is_numeric c = false) (display_suffix v).
Proof. destruct v; repeat constructor; rewrite is_numeric_ascii by done; done. Qed.

Lemma suffix_length v : v <> PV_Default -> 1 <= byte_len (display_suffix v).
Proof. by destruct v. Qed.

(** The variant is the suffix after the last digit. *)
Lemma parse_variant_suffix a d v : is_ascii_digit d = true -> parse_variant ((a ++ [d]) ++ display_suffix v) = Ok (a ++ [d], v).
Proof.
  intros Hd. destruct (digit_ascii d Hd) as [Hlt Hal]. unfold parse_variant. replace (forallb is_alphabetic ((a ++ [d]) ++ display_suffix v)) with false.
  2: { symmetry. rewrite !forallb_app. cbn [forallb]. rewrite is_alphabetic_ascii, Hal by done. by rewrite andb_false_r. }
  rewrite <- app_assoc. cbn [app]. rewrite rfind_last; [|rewrite is_numeric_ascii by done; done|apply suffix_not_numeric].
  replace (0 + byte_len a + 1) with (byte_len (a ++ [d])) by (rewrite byte_len_app; cbn; rewrite len_utf8_ascii by done; lia). change (a ++ d :: display_suffix v) with (a ++ [d] ++ display_suffix v). rewrite app_assoc.
  rewrite split_at_app, (byte_len_app (a ++ [d]) (display_suffix v)). destruct (N.ltb_spec (byte_len (a ++ [d]) + byte_len (display_suffix v)) (byte_len (a ++ [d]) + 1)) as [Hs|Hs].
  - destruct (decide (v = PV_Default)) as [->|Hv]; [by rewrite app_nil_r|]. pose proof (suffix_length v Hv). lia.
  - destruct (decide (v = PV_Default)) as [->|Hv]; [change (byte_len (display_suffix PV_Default)) with 0 in Hs; lia|]. by destruct v.
Qed.

Lemma request_utf8 r : concrete r -> utf8 (show (Full (request_value r))) = show (Full (request_value r)).
Proof. intros Hr. rewrite show_full_value. apply utf8_version_chars, show_full_version_char. by apply request_printable. Qed.

(** A concrete request is read back. *)
Lemma version_request_read r : concrete r -> VersionRequest_from_str (VersionRequest_show r) = Ok r.
Proof.
  intros Hr. rewrite request_show by done. destruct (request_ends r Hr) as (a&d&E&Hd). unfold VersionRequest_from_str. rewrite E, parse_variant_suffix by done. cbn [rbind]. rewrite <- E, request_utf8 by done.
  destruct (from_str_show (Full (request_value r)) (request_printable r Hr)) as (v&->&Hw&Hv). cbn [value] in Hv. clear E.
  assert (split_wheel_tag_release_version v = Some v) as ->.
  { unfold split_wheel_tag_release_version. rewrite value_release, Hv. destruct r as [| |major w|major minor w|major minor patch w|major minor p w|l w]; try done. cbn [request_value f_release]. destruct (digit_not_split major Hr) as (x&->&_). by case_match. }
  unfold version_request. rewrite value_post, value_dev, value_local, value_pre, value_release, Hv.
  destruct r as [| |major w|major minor w|major minor patch w|major minor p w|l w]; try done; cbn in Hr; cbn -[u8_try_from]; rewrite !u8_fits by lia; done.
Qed.

(** *** Names of implementations are not versions *)

Definition name_letter (c : N) : Prop := c = 99 \/ c = 103 \/ c = 112.

Lemma letter_no_version c b : name_letter c -> exists e, Version_from_str (c :: b) = Err (Error e).
Proof.
  intros Hc. unfold Version_from_str, parse. rewrite parse_pattern_general. exists NoLeadingNumber.
  assert (parse_general (Parser_new (c :: b)) = Err (Error (PatternVersion NoLeadingNumber))) as ->; [|done]. destruct Hc as [->|[->| ->]]; reflexivity.
Qed.

Lemma letter_no_specifiers c t : name_letter c -> exists e, specs_from_str (c :: t) = Err (Error e).
Proof.
  intros Hc. unfold specs_from_str, parse_version_specifiers. assert (exists piece pieces, split_commas (c :: t) = (c :: piece) :: pieces) as (piece&pieces&->).
  { cbn [split_commas]. assert ((c =? 44) = false) as -> by (destruct Hc as [->|[->| ->]]; done). destruct (split_commas t); eauto. }
  cbn [parse_pieces]. assert (exists e, spec_from_str (c :: piece) = Err (Error e)) as [e ->]; [|by eexists]. unfold spec_from_str.
  assert (is_whitespace c = false /\ operator_char c = false) as [Hw Ho] by (destruct Hc as [->|[->| ->]]; done).
  pose proof (eat_while_snd is_whitespace (scanner (c :: piece))) as Ha. rewrite scanner_after in Ha. cbn [span] in Ha. rewrite Hw in Ha. cbn in Ha. destruct (eat_while is_whitespace (scanner (c :: piece))) as [ws s1]. cbn in Ha.
  pose proof (eat_while_fst operator_char s1) as Hf. rewrite Ha in Hf. cbn [span] in Hf. rewrite Ho in Hf. cbn in Hf. destruct (eat_while operator_char s1) as [op s2]. cbn in Hf. subst op.
  destruct (eat_while is_whitespace s2) as [ws2 s3], (eat_while (fun c => negb (is_whitespace c)) s3) as [version s4]. pose proof (pattern_from_str_inv (utf8 version)) as Hi.
  destruct (VersionPattern_from_str (utf8 version)) as [x|[e|]]; [by eexists|by eexists|done].
Qed.

(** What a variant is stripped from still starts as the text does. *)
Lemma parse_variant_head c t p v : c < 128 -> parse_variant (c :: t) = Ok (p, v) -> exists t', p = c :: t'.
Proof.
  intros Hc. unfold parse_variant. destruct (forallb _ _); [done|]. destruct (rfind is_numeric (c :: t) 0) as [i|]; [|intros [= <- _]; by eexists]. destruct (_ <? _); [intros [= <- _]; by eexists|].
  destruct (split_at (i + 1) (c :: t)) as [[prefix variant]|] eqn:E; [|done]. destruct (PythonVariant_from_str _); intros [= <- _]; [|by eexists].
  cbn [split_at] in E. destruct (N.eqb_spec (i + 1) 0); [lia|]. destruct (_ <=? _); [|done]. destruct (split_at _ t) as [[x y]|]; [|done]. injection E as <- _. by eexists.
Qed.

Lemma letter_no_request c t : name_letter c -> (forall d, d ∈ c :: t -> is_numeric d = true -> d < 128) -> exists e, VersionRequest_from_str (c :: t) = Err (Error e).
Proof.
  intros Hc Ht. assert (c < 128) as Hlt by (destruct Hc as [->|[->| ->]]; done). pose proof (parse_variant_total (c :: t) Ht) as Hv. unfold VersionRequest_from_str.
  destruct (parse_variant (c :: t)) as [[p v]|[e|]] eqn:Ep; [|by eexists|done]. apply parse_variant_head in Ep as [t' ->]; [|done]. cbn [rbind]. change (utf8 (c :: t')) with (utf8_char c ++ utf8 t').
  assert (utf8_char c = [c]) as -> by (destruct Hc as [->|[->| ->]]; done). cbn [app]. destruct (letter_no_version c (utf8 t') Hc) as [e ->]. unfold parse_version_specifiers_request.
  destruct (letter_no_specifiers c t' Hc) as [e' ->]. by eexists.
Qed.

(** *** Python requests *)

Context {Path Key : Type} `{!DiscoveryHost Path Key}.

(** Requests that do not depend on the host. *)
Definition canonical (r : PythonRequest Path Key) : Prop :=
  match r with
  | PR_Any | PR_Default | PR_Implementation _ => True
  | PR_Version version | PR_ImplementationVersion _ version => concrete version
  | PR_Directory _ | PR_File _ | PR_ExecutableName _ | PR_Key _ => False
  end.

Lemma show_head r : concrete r -> exists d t, VersionRequest_show r = d :: t /\ is_ascii_digit d = true.
Proof.
  assert (forall n x, exists d t, show_u64 n ++ x = d :: t /\ is_ascii_digit d = true) as Hn.
  { intros n x. destruct (show_u64_cons n) as (d&ds&->&Hd). exists d, (ds ++ x). split; [done|]. unfold is_ascii_digit. rewrite andb_true_iff, !N.leb_le. lia. }
  destruct r; try done; intros _; apply Hn.
Qed.

Lemma show_chars r : concrete r -> Forall (fun c => version_char c = true) (VersionRequest_show r).
Proof.
  intros Hr. rewrite request_show, show_full_value by done. apply Forall_app. split; [|destruct (concrete_variant r); by repeat constructor].
  pose proof (show_full_version_char _ (request_printable r Hr)) as Hc. rewrite Forall_forall. rewrite forallb_forall in Hc. intros c Hin. by apply Hc, list_elem_of_In.
Qed.

Lemma version_char_lower c : version_char c = true -> to_ascii_lowercase c = c /\ c < 128.
Proof.
  unfold version_char, to_ascii_lowercase, is_ascii_uppercase, is_ascii_lowercase, is_ascii_digit. rewrite !orb_true_iff, !andb_true_iff, !N.leb_le, !N.eqb_eq. intros Hc.
  split; [|lia]. destruct (N.leb_spec 65 c), (N.leb_spec c 90); cbn; try done; lia.
Qed.

Lemma lowercase_id t : Forall (fun c => version_char c = true) t -> lowercase t = t.
Proof. induction 1 as [|c t Hc _ IH]; [done|]. cbn. apply version_char_lower in Hc as [-> _]. by f_equal. Qed.

Lemma show_numeric_ascii c r : concrete r -> c ∈ VersionRequest_show r -> c < 128.
Proof. intros Hr Hc. pose proof (show_chars r Hr) as Hs. rewrite Forall_forall in Hs. by apply version_char_lower, Hs. Qed.

Lemma split_prefix_none prefix c t : c <> 64 -> strip_prefix prefix (c :: t) = None -> try_split_prefix_and_version prefix (c :: t) = Ok None.
Proof. intros Hc Hs. unfold try_split_prefix_and_version. rewrite Hs. repeat case_match; congruence. Qed.

Lemma split_prefix_at prefix c t rest : c <> 64 -> strip_prefix prefix (c :: t) = Some (64 :: rest) -> rest <> bs "latest" -> try_split_prefix_and_version prefix (c :: t) = rmap Some (VersionRequest_from_str rest).
Proof. intros Hc Hs Hl. unfold try_split_prefix_and_version. rewrite Hs, bool_decide_eq_false_2 by done. repeat case_match; congruence. Qed.

Lemma split_no_prefix c t : c <> 64 -> try_split_prefix_and_version [] (c :: t) = match VersionRequest_from_str (c :: t) with Ok request => Ok (Some request) | Err (Error _) => Ok None | Err Panic => Err Panic end.
Proof. intros Hc. unfold try_split_prefix_and_version. change (strip_prefix [] (c :: t)) with (Some (c :: t)). repeat case_match; congruence. Qed.

Lemma digit_head d : is_ascii_digit d = true -> d <> 64 /\ d <> 97 /\ d <> 100 /\ d <> 108 /\ d <> 112.
Proof. unfold is_ascii_digit. rewrite andb_true_iff, !N.leb_le. lia. Qed.

(** A version is tried without a prefix. *)
Lemma parse_version_text r : concrete r -> PythonRequest_parse (Path := Path) (Key := Key) (VersionRequest_show r) = Some (PR_Version r).
Proof.
  intros Hr. pose proof (version_request_read r Hr) as Hread. unfold PythonRequest_parse. rewrite lowercase_id by (by apply show_chars). destruct (show_head r Hr) as (d&t&E&Hd). rewrite E in *. apply digit_head in Hd as (Ha&Hb&Hc&_&Hp).
  rewrite !bool_decide_eq_false_2 by (intros [= ? _]; done). unfold parse_versions_and_implementations. cbn [try_prefixes].
  rewrite split_prefix_none; [|done|cbn; by rewrite (proj2 (N.eqb_neq _ _))]. cbn [rbind]. rewrite split_no_prefix, Hread by done. done.
Qed.

(** A text that starts with the name of an implementation is not a version. *)
Lemma prefixes_name c t : name_letter c -> (forall d, d ∈ c :: t -> is_numeric d = true -> d < 128) -> strip_prefix (bs "python") (c :: t) = None ->
  try_prefixes [bs "python"; []] (c :: t) = Ok None.
Proof.
  intros Hc Ht Hs. assert (c <> 64) as H64 by (destruct Hc as [->|[->| ->]]; done). cbn [try_prefixes]. rewrite split_prefix_none by done. cbn [rbind]. rewrite split_no_prefix by done. by destruct (letter_no_request c t Hc Ht) as [e ->].
Qed.

Lemma name_ascii i c : c ∈ implementation_str i -> c < 128.
Proof. intros Hc. assert (Forall (fun c => c < 128) (implementation_str i)) as Ha by (destruct i; by repeat constructor). rewrite Forall_forall in Ha. by apply Ha. Qed.

Lemma parse_name_text i : PythonRequest_parse (Path := Path) (Key := Key) (implementation_str i) = Some (PR_Implementation i).
Proof.
  assert (try_prefixes [bs "python"; []] (implementation_str i) = Ok None) as Hp.
  { pose proof (name_ascii i) as Ha. destruct i; cbn -[bs try_prefixes] in *; (apply prefixes_name; [unfold name_letter; tauto|intros d Hd _; by apply Ha|done]). }
  unfold PythonRequest_parse, parse_versions_and_implementations. replace (lowercase (implementation_str i)) with (implementation_str i) by (by destruct i). rewrite Hp. cbn [rbind]. by destruct i.
Qed.

Lemma parse_name_version i r : concrete r -> PythonRequest_parse (Path := Path) (Key := Key) (implementation_str i ++ bs "@" ++ VersionRequest_show r) = Some (PR_ImplementationVersion i r).
Proof.
  intros Hr. set (x := VersionRequest_show r). assert (lowercase (implementation_str i ++ bs "@" ++ x) = implementation_str i ++ bs "@" ++ x) as Hl.
  { unfold lowercase. rewrite !map_app. fold (lowercase x). rewrite (lowercase_id x) by (by apply show_chars). by destruct i. }
  assert (try_prefixes [bs "python"; []] (implementation_str i ++ bs "@" ++ x) = Ok None) as Hp.
  { assert (forall d, d ∈ implementation_str i ++ bs "@" ++ x -> is_numeric d = true -> d < 128) as Ha.
    { intros d. rewrite !elem_of_app. intros [Hd|[Hd|Hd]] _; [by eapply name_ascii|by apply list_elem_of_singleton in Hd as ->|by eapply show_numeric_ascii]. }
    destruct i; cbn -[bs try_prefixes] in *; (apply prefixes_name; [unfold name_letter; tauto|exact Ha|done]). }
  assert (x <> bs "latest") as Hlatest.
  { intros E. destruct (show_head r Hr) as (d&t&E'&Hd). apply digit_head in Hd as (_&_&_&Hd&_). fold x in E'. rewrite E in E'. by injection E'. }
  unfold PythonRequest_parse. rewrite Hl, !bool_decide_eq_false_2 by (by destruct i). unfold parse_versions_and_implementations. rewrite Hp. cbn [rbind].
  assert (forall name names, strip_prefix name (implementation_str i ++ bs "@" ++ x) = None -> implementation_str i ++ bs "@" ++ x <> name ->
    try_implementations (Path := Path) (Key := Key) (name :: names) (implementation_str i ++ bs "@" ++ x) = try_implementations names (implementation_str i ++ bs "@" ++ x)) as Hskip.
  { intros name names Hs Hn. cbn [try_implementations]. rewrite bool_decide_eq_false_2 by done.
    assert (try_split_prefix_and_version name (implementation_str i ++ bs "@" ++ x) = Ok None) as ->; [|done]. destruct i; (apply split_prefix_none; [done|exact Hs]). }
  assert (forall names, try_implementations (Path := Path) (Key := Key) (implementation_str i :: names) (implementation_str i ++ bs "@" ++ x) = Ok (Some (PR_ImplementationVersion i r))) as Htake.
  { intros names. cbn [try_implementations]. rewrite bool_decide_eq_false_2.
    2: { intros E. apply (f_equal length) in E. rewrite !length_app in E. cbn in E. lia. }
    assert (try_split_prefix_and_version (implementation_str i) (implementation_str i ++ bs "@" ++ x) = rmap Some (VersionRequest_from_str x)) as ->.
    { destruct i; (apply split_prefix_at; [done|reflexivity|done]). }
    unfold x. rewrite version_request_read by done. by destruct i. }
  assert (try_implementations (Path := Path) (Key := Key) (long_names ++ short_names) (implementation_str i ++ bs "@" ++ x) = Ok (Some (PR_ImplementationVersion i r))) as ->; [|done].
  destruct i; cbn [app long_names]; repeat (rewrite Hskip by done); apply Htake.
Qed.

(** C27: a canonical request is read back from its canonical string: requests for any or
    the default Python, for a version with a variant, for an implementation, and for an
    implementation and a version. *)
Theorem python_request_round_trip (r : PythonRequest Path Key) (Hr : canonical r) : PythonRequest_parse (to_canonical_string r) = Some r.
Proof.
  destruct r as [| |v|p|p|n|i|i v|k]; try done; cbn [to_canonical_string].
  - by apply parse_version_text.
  - apply parse_name_text.
  - by apply parse_name_version.
Qed.
End reading.

(** ** Matching *)

(** The version of an interpreter has three segments. *)
Definition interpreter_version (i : Interpreter) (major minor patch : N) : Prop := release (python_version i) = [major; minor; patch] /\ major <= 255 /\ minor <= 255 /\ patch <= 255.

Lemma interpreter_segments i major minor patch : interpreter_version i major minor patch -> python_major i = Some major /\ python_minor i = Some minor /\ python_patch i = Some patch.
Proof. intros (Hr&?&?&?). unfold python_major, python_minor, python_patch. rewrite Hr. cbn. by rewrite !u8_fits. Qed.

Lemma version_segments i s major minor patch : interpreter_version i major minor patch ->
  version_major (mkPythonVersion s (python_version i)) = Some major /\ version_minor (mkPythonVersion s (python_version i)) = Some minor /\ version_patch (mkPythonVersion s (python_version i)) = Some (Some patch).
Proof. intros (Hr&?&?&?). unfold version_major, version_minor, version_patch. cbn [pv_version]. rewrite Hr. cbn. by rewrite !u8_fits. Qed.

Lemma and_opt_true a b : and_opt a b = Some true -> a = Some true /\ b = Some true.
Proof. destruct a as [[]|]; done. Qed.

(** The checks that avoid querying an interpreter never rule out one that satisfies
    the request: its version satisfies the request, and for a request that is not a range
    so do its segments, a pre-release being of patch version zero. *)
Lemma prefilters_sound {R : Type} {RS : RangeSet Version R} (r : VersionRequest) (i : Interpreter) (major minor patch : N)
    (Hi : interpreter_version i major minor patch) (Hm : matches_interpreter r i = Some true) :
  (forall s, matches_version r (mkPythonVersion s (python_version i)) = Some true) /\
  (match r with VR_Range _ _ => False | _ => True end -> matches_major_minor (R := R) r major minor = Some true /\
    ((pre (python_version i) <> None -> patch = 0) -> matches_major_minor_patch_prerelease r major minor patch (pre (python_version i)) = Some true)).
Proof.
  destruct (interpreter_segments _ _ _ _ Hi) as (E1&E2&E3). assert (forall s, _) as Hv by exact (fun s => version_segments i s major minor patch Hi).
  destruct r as [| |a v|a b v|a b c v|a b p v|l v]; cbn [matches_interpreter matches_version matches_major_minor matches_major_minor_patch_prerelease] in *; try done.
  - rewrite E1 in Hm. cbn -[and_opt N.eqb] in Hm. apply and_opt_true in Hm as [[= ->%N.eqb_eq] _]. rewrite N.eqb_refl. split; [|done]. intros s. destruct (Hv s) as (->&_&_). cbn. by rewrite N.eqb_refl.
  - rewrite E1, E2 in Hm. cbn -[and_opt N.eqb] in Hm. apply and_opt_true in Hm as [[= [->%N.eqb_eq ->%N.eqb_eq]%andb_true_iff] _]. rewrite !N.eqb_refl. split; [|done]. intros s. destruct (Hv s) as (->&->&_). cbn. by rewrite !N.eqb_refl.
  - rewrite E1, E2, E3 in Hm. cbn -[and_opt N.eqb] in Hm. apply and_opt_true in Hm as [[= [[->%N.eqb_eq ->%N.eqb_eq]%andb_true_iff ->%N.eqb_eq]%andb_true_iff] [[= Hp] _]%and_opt_true]. rewrite !N.eqb_refl.
    split; [|intros _; split; [done|intros _; cbn; by rewrite Hp]]. intros s. destruct (Hv s) as (->&->&->). cbn. by rewrite !N.eqb_refl, bool_decide_eq_true_2.
  - destruct (pre (python_version i)) as [q|] eqn:Eq; [|done]. rewrite E1, E2 in Hm. cbn -[and_opt N.eqb] in Hm. apply and_opt_true in Hm as [[= [[->%N.eqb_eq ->%N.eqb_eq]%andb_true_iff ->%bool_decide_eq_true]%andb_true_iff] _]. rewrite !N.eqb_refl.
    split; [|intros _; split; [done|intros Hz; rewrite Hz by done; cbn; by rewrite bool_decide_eq_true_2]]. intros s. destruct (Hv s) as (->&->&_). cbn [pv_version]. rewrite Eq. cbn. by rewrite !N.eqb_refl, bool_decide_eq_true_2.
  - split; [|done]. intros s. cbn [pv_version]. destruct (matched_version l (python_version i)) as [w|]; [|done]. cbn -[and_opt] in Hm |- *. by apply and_opt_true in Hm as [Hm _].
Qed.

(** ** The choice of an installation *)

Section choice.
Context {Path Key : Type} `{DiscoveryHost Path Key} {E : Type} (is_critical : E -> bool).
Abbreviation found := (result (result PythonInstallation (PythonNotFound (Path := Path) (Key := Key))) E).

(** What may speak against an installation. *)
Inductive objection := O_prerelease | O_debug | O_alternative | O_managed.

(** Using an installation that is not a plain one needs an opt-in: of the request, of the
    source, or by its default name on the search path. *)
Definition opted_in (i : PythonInstallation) (by_request by_source : bool) : bool :=
  by_request || by_source ||
  (has_default_executable_name (interpreter i) && match source i with SearchPath | SearchPathFirst => true | _ => false end).

Definition objects (request : PythonRequest Path Key) (preference : PythonPreference) (i : PythonInstallation) (o : objection) : bool :=
  match o with
  | O_prerelease =>
      match pre (python_version (interpreter i)) with
      | Some _ => negb (opted_in i (allows_prereleases request) (source_allows_prereleases (source i)))
      | None => false
      end
  | O_debug => variant_is_debug (interpreter_variant (interpreter i)) && negb (opted_in i (allows_debug request) (source_allows_debug (source i)))
  | O_alternative =>
      is_alternative_implementation i && negb (opted_in i (allows_alternative_implementations request) (source_allows_alternative_implementations (source i)))
  | O_managed => match preference with PP_System => negb (is_system_interpreter (source i) (interpreter i)) | _ => false end
  end.

(** The first objection counts. *)
Definition first_objection (request : PythonRequest Path Key) (preference : PythonPreference) (i : PythonInstallation) : option objection :=
  List.find (objects request preference i) [O_prerelease; O_debug; O_alternative; O_managed].

#[local] Instance objection_eq_dec : EqDecision objection.
Proof. solve_decision. Defined.

(** The first installation to which the objection is the first. *)
Fixpoint first_passed_over (request : PythonRequest Path Key) (preference : PythonPreference) (o : objection) (l : list found) : option PythonInstallation :=
  match l with
  | [] => None
  | Ok (Ok i) :: l => if bool_decide (first_objection request preference i = Some o) then Some i else first_passed_over request preference o l
  | _ :: l => first_passed_over request preference o l
  end.

(** Something speaks against the installation, so that the search goes on. *)
Definition is_passed_over (request : PythonRequest Path Key) (preference : PythonPreference) (item : found) : Prop :=
  exists i o, item = Ok (Ok i) /\ first_objection request preference i = Some o.

Definition or_else {A} (a b : option A) : option A := match a with Some x => Some x | None => b end.

(** What is left to choose when all are passed over. *)
Definition fallback (m d p : option PythonInstallation) (nf : PythonNotFound) : found :=
  match or_else m (or_else d p) with Some i => Ok (Ok i) | None => Ok (Err nf) end.

Lemma skips_first request preference i : first_objection request preference i =
  if skips_prerelease request i (has_default_name i) then Some O_prerelease
  else if skips_debug request i (has_default_name i) then Some O_debug
  else if skips_alternative request i (has_default_name i) then Some O_alternative
  else if skips_managed preference i then Some O_managed else None.
Proof.
  unfold first_objection, skips_prerelease, skips_debug, skips_alternative, skips_managed. cbn [List.find objects]. unfold opted_in. fold (has_default_name i).
  rewrite !negb_orb, !andb_assoc. destruct (pre (python_version (interpreter i))); [rewrite bool_decide_eq_true_2 by done|rewrite bool_decide_eq_false_2 by (by intros [])]; done.
Qed.

Lemma find_loop_spec request environments preference : forall l p d m, Forall (fun item => match item with Err e => is_critical e = true | Ok _ => True end) l ->
  let r := find_loop is_critical request environments preference l p d m None in
  (exists k, l !! k = Some r /\ ~ is_passed_over request preference r /\ forall j item, (j < k)%nat -> l !! j = Some item -> is_passed_over request preference item) \/
  (Forall (is_passed_over request preference) l /\
   r = fallback (or_else m (first_passed_over request preference O_managed l)) (or_else d (first_passed_over request preference O_debug l))
     (or_else p (first_passed_over request preference O_prerelease l)) (mkNotFound request preference environments)).
Proof.
  assert (forall (item : found) l (r : found), is_passed_over request preference item ->
    (exists k, l !! k = Some r /\ ~ is_passed_over request preference r /\ forall j x, (j < k)%nat -> l !! j = Some x -> is_passed_over request preference x) ->
    exists k, (item :: l) !! k = Some r /\ ~ is_passed_over request preference r /\ forall j x, (j < k)%nat -> (item :: l) !! j = Some x -> is_passed_over request preference x) as Hgo.
  { intros item l r Hi (k&Hk&Hr&Hj). exists (S k). split_and!; [done|done|]. intros [|j] x Hlt; cbn; [by intros [= <-]|apply Hj; lia]. }
  assert (forall (r : found) l, ~ is_passed_over request preference r -> exists k, (r :: l) !! k = Some r /\ ~ is_passed_over request preference r /\
    forall j x, (j < k)%nat -> (r :: l) !! j = Some x -> is_passed_over request preference x) as Hstop by (intros r l Hr; exists O; split_and!; [done|done|lia]).
  induction l as [|item l IH]; intros p d m Hl r; subst r; [right; split; [done|]; cbn; by destruct m, d, p|]. apply Forall_cons in Hl as [He Hl]. destruct item as [[i|nf]|err]; cbn [find_loop].
  - pose proof (skips_first request preference i) as Hf. cbv zeta.
    assert (forall o, first_objection request preference i = Some o -> is_passed_over request preference (Ok (Ok i))) as Ho by (intros o Eo; by exists i, o).
    destruct (skips_prerelease _ _ _); [|destruct (skips_debug _ _ _); [|destruct (skips_alternative _ _ _); [|destruct (skips_managed _ _)]]].
    5: { left. apply Hstop. intros (j&o&[= <-]&E'). congruence. }
    all: specialize (Ho _ Hf); match goal with |- context [find_loop _ _ _ _ ?rest ?p ?d ?m _] => destruct (IH p d m Hl) as [Hk|[Hall Hr]] end; [left; by apply Hgo|right; split; [by constructor|]]; rewrite Hr;
      cbn [first_passed_over]; rewrite Hf; by destruct m, d, p.
  - left. apply Hstop. by intros (i&o&E'&_).
  - rewrite He. left. apply Hstop. by intros (i&o&E'&_).
Qed.

(** C28: the choice of an installation, for a search whose errors are all critical. It is
    the first answer of the search that is an error, or says that nothing is found, or is
    an installation to which nothing objects: it is no pre-release, debug build or
    alternative implementation without opt-in, and no managed one where system ones are
    preferred; all before it are passed over. If all are passed over, it is the first
    managed one, else the first debug build, else the first pre-release, each without an
    objection that comes before; and an alternative implementation never.
    (An error that is not critical is passed over too, although the documentation of the
    function says that errors are raised: [noncritical_errors_passed_over].) *)
Theorem find_installation_chosen (search : PythonRequest Path Key -> EnvironmentPreference -> PythonPreference -> list found) (request : PythonRequest Path Key) (environments : EnvironmentPreference) (preference : PythonPreference)
    (Hc : Forall (fun item => match item with Err e => is_critical e = true | Ok _ => True end) (search request environments preference)) :
  let l := search request environments preference in
  let r := find_python_installation is_critical search request environments preference in
  (exists k, l !! k = Some r /\ ~ is_passed_over request preference r /\ forall j item, (j < k)%nat -> l !! j = Some item -> is_passed_over request preference item) \/
  (Forall (is_passed_over request preference) l /\
   r = fallback (first_passed_over request preference O_managed l) (first_passed_over request preference O_debug l) (first_passed_over request preference O_prerelease l)
     (mkNotFound request preference environments)).
Proof. exact (find_loop_spec request environments preference (search request environments preference) None None None Hc). Qed.

(** An error that is not critical does not end the search. *)
Lemma noncritical_errors_passed_over (search : PythonRequest Path Key -> EnvironmentPreference -> PythonPreference -> list found) request environments preference err (i : PythonInstallation) :
  is_critical err = false -> first_objection request preference i = None -> search request environments preference = [Err err; Ok (Ok i)] ->
  find_python_installation is_critical search request environments preference = Ok (Ok i).
Proof.
  intros He Hi Hs. unfold find_python_installation. rewrite Hs. cbn [find_loop]. rewrite He. rewrite skips_first in Hi. cbv zeta.
  destruct (skips_prerelease _ _ _); [done|]. destruct (skips_debug _ _ _); [done|]. destruct (skips_alternative _ _ _); [done|]. by destruct (skips_managed _ _).
Qed.
End choice.

(** ** Examples *)

(** The numeric characters of ASCII, and one more: the fraction one half. *)
#[export] Instance some_numeric : Numeric := fun c => is_ascii_digit c || (c =? 189).

#[export] Instance some_numeric_laws : NumericLaws.
Proof. intros c Hc. unfold is_numeric, some_numeric. rewrite (proj2 (N.eqb_neq c 189)) by lia. by rewrite orb_false_r. Qed.

Definition read_request (s : text) := @VersionRequest_from_str ascii_alphabetic some_numeric text text_scanner s.

Lemma version_request_safe_witness : match read_request (bs ">=3.12,<3.14t") with Ok r => request_wf r | Err (Error _) => True | Err Panic => False end.
Proof.
  apply (@version_request_safe ascii_alphabetic ascii_alphabetic_laws some_numeric some_numeric_laws text text_scanner text_scanner_laws). intros c Hc _.
  assert (forallb (fun c => c <? 128) (bs ">=3.12,<3.14t") = true) as Ha by reflexivity. rewrite forallb_forall in Ha. apply N.ltb_lt, Ha. by apply list_elem_of_In.
Defined.

(** A host without files, and with nothing to download. *)
Definition empty_host : DiscoveryHost text unit := {|
  request_path := fun t => t; path_display := fun t => t; is_directory := fun _ => false; is_regular_file := fun _ => false;
  key_from_str := fun _ => None; key_show := fun _ => []; key_version := fun _ => None;
  key_allows_prereleases := fun _ => false; key_allows_debug := fun _ => false; key_allows_alternative_implementations := fun _ => false
|}.

Lemma python_request_round_trip_witness :
  @PythonRequest_parse text unit empty_host ascii_alphabetic some_numeric text text_scanner (bs "pypy@3.10.4+gil") = Some (PR_ImplementationVersion PyPy (VR_MajorMinorPatch 3 10 4 PV_Gil)).
Proof.
  apply (@python_request_round_trip ascii_alphabetic ascii_alphabetic_laws some_numeric some_numeric_laws text text_scanner text_scanner_laws text unit empty_host
    (PR_ImplementationVersion PyPy (VR_MajorMinorPatch 3 10 4 PV_Gil))). cbn. lia.
Defined.

Definition interpreter_of (version : text) : Interpreter :=
  mkInterpreter match Version_from_str version with Ok version => version | Err _ => Small VersionSmall.new end false false false false (bs "cpython") false true.

(** A pre-release before a plain installation, then an error. *)
Definition sample_search (_ : PythonRequest text unit) (_ : EnvironmentPreference) (_ : PythonPreference) : list (result (result PythonInstallation (PythonNotFound (Path := text) (Key := unit))) unit) := [
   Ok (Ok (mkInstallation Registry (interpreter_of (bs "3.14.0rc3")))); Ok (Ok (mkInstallation Registry (interpreter_of (bs "3.12.1")))); Err tt].

Lemma find_installation_chosen_witness :
  @find_python_installation text unit empty_host unit (fun _ => true) sample_search PR_Default EP_Any PP_Managed = Ok (Ok (mkInstallation Registry (interpreter_of (bs "3.12.1")))) /\ exists k, sample_search PR_Default EP_Any PP_Managed !! k = Some (@find_python_installation text unit empty_host unit (fun _ => true) sample_search PR_Default EP_Any PP_Managed).
Proof.
  split; [vm_compute; reflexivity|].
  destruct (@find_installation_chosen text unit empty_host unit (fun _ => true) sample_search PR_Default EP_Any PP_Managed) as [(k&Hk&_)|[Hall _]]; [by repeat constructor|by exists k|].
  apply Forall_cons in Hall as [_ [_ [(i&o&E&_) _]%Forall_cons]%Forall_cons]. discriminate E.
Defined.

(** ** Defects *)

Definition after_show (r : VersionRequest) := read_request (VersionRequest_show r).
Definition read_version (s : text) : option PythonVersion := match PythonVersion_from_str s with Ok version => Some version | Err _ => None end.
Definition to_request (version : PythonVersion) := @VersionRequest_from ascii_alphabetic some_numeric text text_scanner version.

(** Reading slices inside a numeric character that is not ASCII; the variant of a range is
    not written; the epoch of a version is ignored; a Python version with a post-release, a
    lone major version with a pre-release or four segments is no version request,
    although the conversion expects it; and a major version of two digits is read as two
    segments, but has one as a Python version. *)
Lemma version_request_defects :
  read_request [51; 189] = Err Panic /\
  match read_request (bs ">=3.13t") with Ok (VR_Range l PV_Freethreaded) => after_show (VR_Range l PV_Freethreaded) = Ok (VR_Range l PV_Default) | _ => False end /\
  read_request (bs "1!3.12") = Ok (VR_MajorMinor 3 12 PV_Default) /\
  map (fun s => match read_version s with Some version => to_request version | None => Some VR_Any end) [bs "3.12.post1"; bs "3rc1"; bs "3.12.1.0"] = [None; None; None] /\
  match read_version (bs "38") with Some version => version_major version = Some 38 /\ to_request version = Some (VR_MajorMinor 3 8 PV_Default) | None => False end.
Proof. vm_compute. split_and!; reflexivity. Qed.

(** A range that a pre-release satisfies is ruled out by its segments. *)
Lemma prefilter_rules_out :
  match read_request (bs ">=3.14") with
  | Ok (VR_Range l PV_Default) =>
      matches_interpreter (VR_Range l PV_Default) (interpreter_of (bs "3.14.0rc3")) = Some true /\
      matches_major_minor_patch_prerelease (VR_Range l PV_Default) 3 14 0 (pre (python_version (interpreter_of (bs "3.14.0rc3")))) = Some false
  | _ => False
  end.
Proof. vm_compute. split_and!; reflexivity. Qed.
